(* ===== verification/_CoqProject ===== *)
-Q . S2P
Prelude.v
Core.v
Snapshot.v
Visibility.v
Oracle.v
VStore.v
Ssi.v
SsiFacts.v
SsiOps.v
SsiSpec.v
SsiSafe.v
Manager.v
ManagerInv.v
ManagerOps.v
SI.v
Serial.v
Refine.v
RefineSteps.v
Isolation.v
Stability.v
TxnTheorems.v
History.v
Bytes.v
WalRecord.v
Checkpoint.v
WalSink.v
WalScan.v
WalScanFacts.v
Wal.v
WalRecovery.v
WalUndo.v
WalEffects.v
WalRecoverySpec.v
WalTrace.v
WalCrash.v
WalExamples.v
PageFormat.v
Paging.v
BlockDevice.v
DeviceTarget.v
Dwb.v
DwbFacts.v
DwbRecovery.v
DwbExamples.v
BufferPool.v
PoolFacts.v
PoolSpec.v
PoolWal.v
PoolExamples.v
Columnar.v
ColInteger.v
ColDict.v
Gorilla.v
ColTotal.v
GroupSync.v
ChainHead.v
FreezeFloor.v
Float64.v
Compare.v
CypherValue.v
CypherEquality.v
CypherEquivalence.v
CypherOrder.v
KeyCodec.v
KeyTree.v
BTreeNode.v
BTreeNodeFacts.v
BTreeCells.v
IndexKinds.v
IndexProbes.v
IndexEntries.v
IndexSeek.v
IndexComposite.v
IndexSet.v
IndexSlots.v
IndexLedger.v
IndexRollback.v
IndexCollect.v
PredicateMarkers.v
IndexExamples.v
