(* ===== verification/Prelude.v ===== *)
(** * Graphus, verified in part

    Graphus is a graph database server in Rust ([src/crates/]). A client's Cypher or Bolt
    request reaches an execution engine over a record store; the store runs on a buffer
    pool and a write-ahead log; a transaction manager gives each transaction a snapshot,
    detects conflicts, and hardens commits through the log. Analytical copies of property
    columns are kept compressed. This development models the layers on which the
    database's guarantees rest: the transaction core, the write-ahead log with its crash
    recovery, pages and devices with the doublewrite buffer and the buffer pool, the
    values of Cypher with their relations and the indexes over them, the column codecs, and
    three protocols between the storage engine's threads.

    ** The parts and where they are

    Conventions. A machine integer is an [N] (a [Z] when signed) with its width written
    out wherever arithmetic could leave it. Fallible code returns [Outcome] (a value, a
    [GraphusError], or a panic), stateful code is in the monad [St] over its state, loops
    that are not structural carry fuel and return [None] without it ([FSt]). A [HashMap] or [BTreeMap] is a [gmap], a hash set a [gset], a byte
    slice a list of [N]. Traits are classes: one for the operations, and one for the laws
    their documentation promises, so that clients are verified against the laws and each
    implementation of the source is an instance that proves them. Functions keep the names
    they have in the source (with a trailing underscore where the name is a keyword).

    Transactions, [src/crates/graphus-txn] and the identifiers of [graphus-core]:
    - [Core]: identifiers, the version-stamp words (sentinel, commit timestamp, in-flight
      transaction), error values;
    - [Snapshot], [Visibility]: isolation levels, snapshots, the commit registry, command
      ids ([snapshot.rs]); the visibility predicate ([visibility.rs]);
    - [Oracle]: timestamps, live begin timestamps, the low-water mark ([oracle.rs]);
    - [VStore]: the trait [VersionedStore], its contract, the in-memory store, garbage
      collection of version chains ([store.rs], [gc.rs]), and their order in time;
    - [Ssi], [SsiFacts], [SsiOps], [SsiSpec], [SsiSafe]: the conflict tracker of
      serializable snapshot isolation ([ssi.rs]), its invariant, what it promises;
    - [Manager]: [TxnManager], over any store that meets the contract and any durability
      hook ([manager.rs]); [ManagerInv] and [ManagerOps] have its invariant and the
      decomposition of every operation into elementary effects;
    - [SI], [Refine], [RefineSteps]: an abstract snapshot-isolation machine
      and the simulation by the manager; [Serial], [Isolation]: serializability of its
      runs; [Stability]: what other transactions cannot change; [TxnTheorems]: the results;
    - [History]: the checker of recorded histories ([serializability.rs]).

    Write-ahead log, [src/crates/graphus-wal]:
    - [Bytes], [WalRecord], [Checkpoint]: little-endian fields; the record format with both
      decoders ([record.rs]); the checkpoint snapshot ([checkpoint.rs]);
    - [WalSink]: the trait [LogSink], its laws, the in-memory sink, harden jobs ([sink.rs]);
    - [WalScan], [WalScanFacts]: the windowed scans of [recovery.rs], equal to
      scans of the whole log in memory; logs as lists of records;
    - [Wal]: the log manager ([manager.rs]) and what its writes leave;
    - [WalRecovery]: analysis, redo and undo ([recovery.rs]); [WalUndo], [WalEffects],
      [WalRecoverySpec]: their correctness;
    - [WalTrace], [WalCrash]: the logs the manager can write, its invariant, crashes between
      and inside writes, what survives them, and rollback;
    - [WalExamples]: logs written and recovered, the instances of those theorems.

    Pages and devices, [src/crates/graphus-io], [graphus-bufpool], [graphus-storage]:
    - [PageFormat]: the page header and its checksum ([page.rs]);
    - [Paging]: where records lie, and the patches the log keeps for pages ([paging.rs]);
    - [BlockDevice]: the trait [BlockDevice], its laws, the in-memory device with write
      cache, crashes and injected faults ([block.rs], [mem.rs]);
    - [DeviceTarget]: redo and undo on a device ([recovery.rs]), an instance of the page
      target of [WalRecovery], so that the theorems of the log carry over to devices;
    - [Dwb], [DwbFacts]: the doublewrite buffer ([dwb.rs]) and what its repair does;
      [DwbRecovery]: recovery of log, device and buffer together; [DwbExamples]: its runs;
    - [BufferPool], [PoolFacts]: the sequential buffer pool ([pool.rs]) over any device and
      any log rule, and its invariant; [PoolSpec]: the store of pages it implements;
      [PoolWal]: the log manager as its rule ([wal_rule.rs]); [PoolExamples]: its runs.

    Values, [src/crates/graphus-core] and [graphus-cypher]:
    - [Float64]: the doubles of the language as 64-bit patterns with exact values, and the
      exact comparison of integers and floats ([value/numeric.rs]); [Compare]: orders;
    - [CypherValue]: values, temporal records, points ([lib.rs], [value/spatial.rs]), the
      depth check ([value_depth.rs]);
    - [CypherEquality], [CypherEquivalence], [CypherOrder]: ternary logic and equality
      ([ternary.rs], [equality.rs]), grouping and its hash ([equivalence.rs]), the two orders
      ([ordering.rs]) and the range predicate ([eval.rs]).

    Indexes, [src/crates/graphus-index] and [graphus-cypher]:
    - [KeyCodec]: the encoding of values as keys ([keycodec.rs]);
    - [KeyTree]: the contract of the ordered map the indexes need of the B+-tree, with a
      sorted list as reference instance;
    - [BTreeNode]: the nodes of the B+-tree on the bytes of a page ([node.rs]);
      [BTreeNodeFacts]: slots, cells, searches and single writes; [BTreeCells]: what the
      operations do to the cells, leaves as maps, validation;
    - [IndexKinds]: the token, property and composite index ([kinds.rs]) and the candidates
      of the index set ([index_set.rs]); [IndexProbes], [IndexEntries]: where the keys of
      matching values lie, what the tree holds; [IndexSeek], [IndexComposite]: the seeks;
    - [IndexSet]: the ordered indexes of the index set ([index_set.rs]): registration,
      maintenance, undo logs and rollback, collection of dead keys, rebuilds, seeks;
      [IndexSlots]: all kinds of entries as slots; [IndexLedger], [IndexRollback]: the ledger
      of the writers and that the set keeps it; [IndexCollect]: what a collection may remove;
    - [PredicateMarkers]: the equality markers readers and writers of relationships give the
      conflict tracker ([record_graph.rs]);
    - [IndexExamples]: runs of values, keys, indexes and the index set.

    Column codecs, [src/crates/graphus-columnar]:
    - [Columnar]: errors, bit packing, boolean columns ([lib.rs], [bitpack.rs]);
    - [ColInteger], [ColDict], [Gorilla]: integer, dictionary and float columns
      ([integer.rs], [dictionary.rs], [gorilla.rs]);
    - [ColTotal]: the decoders on untrusted bytes.

    Protocols between threads, each a machine whose steps interleave:
    - [GroupSync]: the staging barrier of the doublewrite buffer,
      [src/crates/graphus-groupsync], with mutex, condition variable and device;
    - [ChainHead]: lock-free prepends to a chain, [src/crates/graphus-chainhead];
    - [FreezeFloor]: the frontier of the freeze sweep, [src/crates/graphus-freezefloor], and
      the sweep of a collection pass around it ([graphus-storage], [store.rs], [read_view.rs]),
      interleaved access by access with writers and rollbacks.

    ** What is proved

    - The manager. No sequence of operations panics, and an invariant ties oracle,
      registry, tracker, store and active table together. Every run is a run of abstract
      snapshot isolation, and a run of serializable transactions without garbage collection
      has an equivalent serial order. Reads are repeatable; commits, writes, rollbacks,
      reaping and garbage collection do exactly what their outcome says. The hypothesis
      [safe] of these theorems excludes one situation, a write over a key that a concurrent
      transaction deleted, and the runs at the end of [TxnTheorems] show why: such a write
      is let through, a transaction's own delete can resurrect an older value, and garbage
      collection can hide a dangerous structure.
    - The tracker. Its edges are exactly the rw-antidependencies of concurrent transactions,
      its commit check and its forgetting are characterised exactly.
    - The log. Every state of the manager reachable by legal operations has a well-formed
      log; a commit that returned is durable; after a crash that keeps the durable bytes
      and any part of the unsynced ones, recovery succeeds and every page has exactly the
      effect of the finished transactions, the acknowledged commits among them. Recovery
      can be repeated, does not depend on its read window, and refuses damaged interiors;
      rollback undoes a transaction. The logs of these theorems are written from their creation
      without reclamation; recovery itself is also shown correct on a reclaimed log. A torn tail that recovery reports as truncated stays in
      the log, and the next recovery refuses it: [WalExamples] has the run.
    - The pages. Every operation on a page keeps it a page; records do not overlap; the
      images of the log are exactly the encoded patches and can be undone. Repair from the
      doublewrite buffer is characterised exactly, and recovery of log, device and buffer
      together leaves durably the effect of the finished transactions. This needs that
      redo catches up from the newest copy of each torn page: [DwbExamples] has a run in
      which a second crash during recovery makes the buffer restore an outdated copy and a
      commit is lost. A page without a copy is rebuilt by replay if the words under
      compare-and-set are torn as wholes, and [Paging] shows that this is needed.
    - The pool. It is a cache: whatever is fetched, edited, evicted and flushed, clients see
      one store of pages with counted handles, and with the log as its rule no page reaches
      its home before the records of its changes are durable, a crash at any write included.
    - The values. Orderability is a total preorder on all values; on numbers equality, the
      operators and grouping decide by the exact values, and the order where these differ; grouping is an equivalence that agrees with its hash, and
      equality agrees with grouping where it is definite. Small runs show where the sources
      say otherwise: maps with duplicate keys, ties of durations, the depth limit.
    - The indexes. Keys compare as the values they encode; a seek, by equality, range or
      tuple, returns every record whose indexed value matches, for all types and for numbers
      of both types at any magnitude; inserts and removes change exactly one entry. Points
      with a negative zero are the exception, of which [IndexExamples] has the run. A seek and
      a concurrent write of equal values meet in conflict detection, the signed zeros
      excepted ([PredicateMarkers]).
    - The nodes of the B+-tree. A leaf is a map: searches, inserts, replacements, removals
      and compaction do to it what they say, an insert that reports too little room apart,
      which may drop an older value of its key. Appending sorted cells succeeds exactly when
      they fit. A page that passes [validate] is read and searched without a panic, whatever
      its bytes.
    - The index set. Whatever transactions insert, commit and roll back, with population
      writes, rebuilds and collections in between, it holds the committed entries, those of
      the open transactions and those a dropped log left behind, and nothing else; a
      collection removes exactly the entries its dead keys condemn and none the evidence
      warrants. Evidence that a writer has overtaken is the limit: [IndexExamples] has a
      run in which the guards miss that writer and its entry is removed.
    - The codecs. Record, checkpoint and column encodings round-trip; decoders agree with
      each other; on untrusted bytes the decoders answer or report an error and never panic.
    - The protocols. A staged write reported durable is durable, sleepers are woken, callers
      can always get on until they are near their bound of rounds, and one that reaches the
      bound deadlocks. No prepend is lost, and a prepend gives up only after as many
      prepends by others as it has attempts. Under four provisos on what
      writers do while a pass runs, the freeze frontier covers every announced stamp, no
      committed writer is forgotten whose stamp a record bears, and an undisturbed pass
      freezes all of them; for each proviso a run that breaks only it loses a committed version.

    ** Fuel

    The scans of [WalScan] take sixty-six rounds per byte of the durable log, since a round
    consumes a byte or doubles the window, which is a [u64]; the undo loop takes the durable
    length and one more, as it pops descending LSNs;
    rollback takes the length of the undo chain and one more; the search of [History] takes
    the number of edges and nodes; the bit-packing loops take the width and one more; the binary search of a node takes
    the number of its slots. Each
    use has a theorem that the fuel suffices: none of the results is conditional on
    termination.

    ** Assumptions

    [crc32c] is a parameter whose values are 32-bit words; the order in which a hash map is
    iterated is a parameter that yields each key once; the clock is an argument; the page
    target of redo and undo is any [ApplyTarget] that meets its documented contract. The
    text of error messages is kept where the code formats data into it and abbreviated
    elsewhere. The hash function of grouping is a parameter. The indexes are over any
    ordered map that keeps [KeyTreeSpec]; an insert or a delete may fail. The index set
    swallows such failures; its theorems assume [KeyTreeSafe], that a failed insert changes
    nothing and that a removal does not fail, as its comments state, that an entry is
    written by one open transaction at a time, which the record store enforces, and that a
    collection runs on a transaction that has written no entry. A device
    without armed faults keeps the laws of [DeviceSpec]; the theorems about devices are about such devices, in any state a crash leaves their pages in.
    [debug_assert]s are not part of the release behaviour.

    ** Not modelled

    Threads, outside the three protocols: the other components are the sequential objects
    the server keeps behind its locks. The protocols are modelled under sequential
    consistency; their weaker memory orderings are not. Files, sockets, system calls and encryption libraries are I/O. The driver
    of the doublewrite buffer's ring ([DwbPageStager]) is not modelled beyond its barrier.
    The record store beyond its freeze sweep, the concurrent buffer pool, the B+-tree above its nodes, the text, spatial and vector
    indexes, the parser, planner and executor of [graphus-cypher], the protocol servers and
    the graph algorithms are not modelled; their sizes (the store alone has 18,000 lines)
    and, for the servers, their dependence on sockets and external frameworks put them
    beyond the present development. *)

From stdpp Require Export sorting strings pretty base numbers gmap sets option list.
From stdpp Require Import options.

(** ** Machine integers

    A [u32]/[u64] is an [N]; every operation of the source that can leave the
    width is written out with its checked or saturating behaviour. *)
Open Scope N_scope.

Definition u32_max : N := 2 ^ 32 - 1.
Definition u64_max : N := 2 ^ 64 - 1.

(** [u64::checked_add]. *)
Definition checked_add_u64 (a b : N) : option N :=
  if bool_decide (a + b ≤ u64_max) then Some (a + b) else None.

(** [u32::saturating_add]. *)
Definition saturating_add_u32 (a b : N) : N := N.min (a + b) u32_max.

(** The release-profile [+=] and [-=] on a [u32]. *)
Definition wrapping_add_u32 (a b : N) : N := (a + b) mod 2 ^ 32.
Definition wrapping_sub_u32 (a b : N) : N := (a + 2 ^ 32 - b) mod 2 ^ 32.

(** An [i64] is a [Z] in its range; the casts between [i64] and [u64] keep the bits. *)
Definition is_i64 (z : Z) : Prop := (- 2 ^ 63 ≤ z < 2 ^ 63)%Z.
Definition wrap_i64 (z : Z) : Z := ((z + 2 ^ 63) mod 2 ^ 64 - 2 ^ 63)%Z.
Definition as_u64 (z : Z) : N := Z.to_N (z mod 2 ^ 64).
Definition as_i64 (n : N) : Z := wrap_i64 (Z.of_N n).
Definition wrapping_add_u64 (a b : N) : N := (a + b) mod 2 ^ 64.
Definition wrapping_add_i64 (a b : Z) : Z := wrap_i64 (a + b).
Definition wrapping_sub_i64 (a b : Z) : Z := wrap_i64 (a - b).
Definition saturating_sub_i64 (a b : Z) : Z := Z.max (- 2 ^ 63) (Z.min (2 ^ 63 - 1) (a - b)).

(** [Option::filter]. *)
Definition option_filter {A} (p : A → bool) (o : option A) : option A :=
  match o with Some a => if p a then Some a else None | None => None end.

(** ** Errors and effects *)

(** [graphus_core::error::GraphusError]. *)
Inductive GraphusError :=
  | Storage (m : string)
  | Transaction (m : string)
  | Compile (m : string)
  | Runtime (m : string)
  | Protocol (m : string)
  | Security (m : string).

(** The result of a Rust call that returns [graphus_core::Result]: a value,
    an error, or a panic (an [assert!] that fails). *)
Inductive Outcome (A : Type) :=
  | Ok (a : A)
  | Err (e : GraphusError)
  | Panic (m : string).
Arguments Ok {A} _.
Arguments Err {A} _.
Arguments Panic {A} _.

(** Stateful, fallible code: [&mut self] methods. An error keeps the state the
    code had mutated up to that point, exactly as an early [return Err] does. *)
Definition St (S A : Type) : Type := S → Outcome A * S.

#[global] Instance St_ret S : MRet (St S) := λ A a s, (Ok a, s).
#[global] Instance St_bind S : MBind (St S) := λ A B f m s,
  match m s with
  | (Ok a, s') => f a s'
  | (Err e, s') => (Err e, s')
  | (Panic p, s') => (Panic p, s')
  end.

Definition get {S} : St S S := λ s, (Ok s, s).
Definition modify {S} (f : S → S) : St S unit := λ s, (Ok tt, f s).
Definition throw {S A} (e : GraphusError) : St S A := λ s, (Err e, s).
(** Lift a pure outcome. *)
Definition lift {S A} (o : Outcome A) : St S A := λ s, (o, s).

Definition is_ok {A} (o : Outcome A) : bool :=
  match o with Ok _ => true | _ => false end.
Definition is_panic {A} (o : Outcome A) : bool :=
  match o with Panic _ => true | _ => false end.

(** Concrete messages use Rust's [format!] of an unsigned integer. *)
Declare Scope graphus_scope.
Delimit Scope graphus_scope with graphus.
Notation "s +:+ t" := (String.append s t) (at level 60, right associativity) : graphus_scope.

(** ** Vectors and iterators *)

(** [slice::dedup]: removes consecutive repetitions. *)
Fixpoint dedup {A} `{EqDecision A} (l : list A) : list A :=
  match l with
  | x :: ((y :: _) as t) => if decide (x = y) then dedup t else x :: dedup t
  | _ => l
  end.

(** [Iterator::min] over ordered integers. *)
Definition list_min (l : list N) : option N :=
  match l with [] => None | x :: t => Some (foldr N.min x t) end.

(** ** Automation *)

Create HintDb graphus.
Create Rewrite HintDb graphus.

(** Case analysis of the first [match] or [if] found in a hypothesis. *)
Ltac dmatch_in H :=
  match type of H with
  | context [match ?x with _ => _ end] => destruct x eqn:?
  end.

(** Turn a monadic run [(x ← m; k) s = (r, s')] into its cases. *)
Ltac munfold := unfold mbind, St_bind, mret, St_ret, get, modify, throw, lift in *; simpl in *.

(** Decide goals about [bool] tests of the code. *)
Ltac bool_solve :=
  repeat match goal with
  | H : (_ && _) = true |- _ => apply andb_prop in H; destruct H
  | H : bool_decide _ = true |- _ => apply bool_decide_eq_true in H
  | H : bool_decide _ = false |- _ => apply bool_decide_eq_false in H
  | H : negb _ = true |- _ => apply negb_true_iff in H
  | H : negb _ = false |- _ => apply negb_false_iff in H
  | H : (_ <=? _)%N = true |- _ => apply N.leb_le in H
  | H : (_ <=? _)%N = false |- _ => apply N.leb_gt in H
  | H : (_ <? _)%N = true |- _ => apply N.ltb_lt in H
  | H : (_ <? _)%N = false |- _ => apply N.ltb_ge in H
  | H : (_ =? _)%N = true |- _ => apply N.eqb_eq in H
  | H : (_ =? _)%N = false |- _ => apply N.eqb_neq in H
  end.

(** ** Generic lemmas *)

Lemma checked_add_u64_Some (a b c : N) :
  checked_add_u64 a b = Some c ↔ c = a + b ∧ a + b ≤ u64_max.
Proof. unfold checked_add_u64. case_bool_decide; naive_solver. Qed.

Lemma wrapping_add_u32_small a b : a + b ≤ u32_max → wrapping_add_u32 a b = a + b.
Proof. unfold wrapping_add_u32, u32_max. intros. apply N.mod_small. lia. Qed.

Lemma wrapping_sub_u32_small a b : b ≤ a → a ≤ u32_max → wrapping_sub_u32 a b = a - b.
Proof.
  unfold wrapping_sub_u32, u32_max. intros Hb Ha.
  replace (a + 2 ^ 32 - b) with ((a - b) + 1 * 2 ^ 32) by lia.
  rewrite N.Div0.mod_add. apply N.mod_small. lia.
Qed.

Lemma option_filter_Some {A} (p : A → bool) o a :
  option_filter p o = Some a ↔ o = Some a ∧ p a = true.
Proof.
  destruct o as [b|]; simpl; [|naive_solver].
  destruct (p b) eqn:Hb; split; [intros [= ->]| intros [[= ->] ?]|intros [=]|intros [[= ->] ?]];
    split || idtac; congruence.
Qed.

Lemma elem_of_dedup {A} `{EqDecision A} (l : list A) x : x ∈ dedup l ↔ x ∈ l.
Proof.
  induction l as [|a l IH]; [done|]. destruct l as [|b l]; [done|].
  simpl in *. case_decide as E; [subst|]; rewrite ?elem_of_cons, IH, ?elem_of_cons;
    naive_solver.
Qed.

Lemma list_min_None (l : list N) : list_min l = None ↔ l = [].
Proof. destruct l; naive_solver. Qed.

Lemma foldr_min_spec (l : list N) x :
  (foldr N.min x l = x ∨ foldr N.min x l ∈ l) ∧
  foldr N.min x l ≤ x ∧ (∀ y, y ∈ l → foldr N.min x l ≤ y).
Proof.
  induction l as [|a l (Hin & Hx & Hl)]; simpl.
  { split; [by left|]. split; [lia|]. by intros y ?%elem_of_nil. }
  split; [|split].
  - destruct (N.min_spec a (foldr N.min x l)) as [[_ ->]|[_ ->]]; [set_solver|].
    destruct Hin; [by left|right; set_solver].
  - lia.
  - intros y [->|Hy]%elem_of_cons; [lia|]. specialize (Hl y Hy). lia.
Qed.

Lemma list_min_Some (l : list N) m :
  list_min l = Some m ↔ m ∈ l ∧ ∀ y, y ∈ l → m ≤ y.
Proof.
  destruct l as [|x l]; simpl; [set_solver|].
  destruct (foldr_min_spec l x) as (Hin & Hx & Hl). split.
  - intros [= <-]. split; [destruct Hin as [->|]; set_solver|].
    intros y [->|Hy]%elem_of_cons; auto.
  - intros [Hm Hle]. f_equal. apply N.le_antisymm.
    + apply elem_of_cons in Hm as [->|]; auto.
    + apply Hle. destruct Hin as [->|]; set_solver.
Qed.
