(* ===== verification/Core.v ===== *)
(** * graphus-core: identifiers and the version-stamp convention

    [src/crates/graphus-core/src/lib.rs], modules [ids] and [version]. The four
    identifier newtypes are all [u64] wrappers ordered by value, so they are
    [N] here; the two MVCC header words are raw [u64]s decoded by
    [VersionStamp.from_raw]. *)

From stdpp Require Import options.
From S2P Require Import Prelude.

Abbreviation PageId := N (only parsing).
Abbreviation Lsn := N (only parsing).
Abbreviation TxnId := N (only parsing).
Abbreviation Timestamp := N (only parsing).
Abbreviation CommandId := N (only parsing).

Module CommandIdOps.

Definition FIRST : CommandId := 1.
Definition NONE : CommandId := 0.
Definition next (c : CommandId) : CommandId := saturating_add_u32 c 1.

(** The statement counter never goes back and, below [u32::MAX], advances. *)
Lemma next_monotone (c : CommandId) : c ≤ u32_max → c ≤ next c ∧ (c < u32_max → c < next c).
Proof. unfold next, saturating_add_u32. lia. Qed.

End CommandIdOps.

Definition INFLIGHT_BIT : N := N.shiftl 1 63.
Definition PAYLOAD_MASK : N := INFLIGHT_BIT - 1.
Definition MAX_TIMESTAMP : N := PAYLOAD_MASK.

(** The enum's [None] is [VsNone] here. *)
Inductive VersionStamp :=
  | VsNone
  | VsCommitted (ts : Timestamp)
  | VsInFlight (txn : TxnId).

#[global] Instance VersionStamp_eq_dec : EqDecision VersionStamp.
Proof. solve_decision. Defined.

Definition from_raw (word : N) : VersionStamp :=
  if word =? 0 then VsNone
  else if negb (N.land word INFLIGHT_BIT =? 0) then VsInFlight (N.land word PAYLOAD_MASK)
  else VsCommitted word.

Definition to_raw (s : VersionStamp) : N :=
  match s with
  | VsNone => 0
  | VsCommitted ts => ts
  | VsInFlight txn => N.lor INFLIGHT_BIT (N.land txn PAYLOAD_MASK)
  end.

(** Panics on the reserved id [0] and on ids that need the discriminant bit. *)
Definition in_flight (txn : TxnId) : Outcome N :=
  if txn =? 0 then Panic "TxnId(0) is reserved and is never a writer"
  else if negb (N.land txn INFLIGHT_BIT =? 0) then
    Panic "TxnId must fit in 63 bits for the version-stamp discriminant"
  else Ok (to_raw (VsInFlight txn)).

Definition committed (ts : Timestamp) : N := to_raw (VsCommitted ts).

(** ** The bit convention in arithmetic terms *)

Lemma INFLIGHT_BIT_pow : INFLIGHT_BIT = 2 ^ 63.
Proof. reflexivity. Qed.

Lemma PAYLOAD_MASK_ones : PAYLOAD_MASK = N.ones 63.
Proof. reflexivity. Qed.

Lemma MAX_TIMESTAMP_val : MAX_TIMESTAMP = 2 ^ 63 - 1.
Proof. reflexivity. Qed.

Lemma land_pow2 w n : N.land w (2 ^ n) = if N.testbit w n then 2 ^ n else 0.
Proof.
  apply N.bits_inj. intros i. rewrite N.land_spec, N.pow2_bits_eqb.
  destruct (N.eqb_spec n i) as [->|Hne].
  - destruct (N.testbit w i); rewrite ?N.pow2_bits_true, ?N.bits_0; done.
  - rewrite andb_false_r. destruct (N.testbit w n); rewrite ?N.bits_0; [|done].
    by rewrite N.pow2_bits_false.
Qed.

Lemma testbit_63_lt w : w < 2 ^ 63 → N.testbit w 63 = false.
Proof.
  intros Hw. destruct (decide (w = 0)) as [->|]; [done|].
  apply N.bits_above_log2, N.log2_lt_pow2; lia.
Qed.

Lemma testbit_63_ge w : 2 ^ 63 ≤ w → w < 2 ^ 64 → N.testbit w 63 = true.
Proof.
  intros H1 H2. replace 63 with (N.log2 w); [apply N.bit_log2; lia|].
  apply N.log2_unique; [lia|]. split; [done|].
  by change (N.succ 63) with 64.
Qed.

Lemma land_inflight_lt w : w < 2 ^ 63 → N.land w INFLIGHT_BIT = 0.
Proof. intros. by rewrite INFLIGHT_BIT_pow, land_pow2, testbit_63_lt. Qed.

Lemma land_inflight_ge w : 2 ^ 63 ≤ w → w < 2 ^ 64 → N.land w INFLIGHT_BIT = 2 ^ 63.
Proof. intros. by rewrite INFLIGHT_BIT_pow, land_pow2, testbit_63_ge. Qed.

Lemma land_payload w : N.land w PAYLOAD_MASK = w mod 2 ^ 63.
Proof. rewrite PAYLOAD_MASK_ones. apply N.land_ones. Qed.

Lemma lor_inflight t : t < 2 ^ 63 → N.lor INFLIGHT_BIT t = 2 ^ 63 + t.
Proof.
  intros Ht. rewrite INFLIGHT_BIT_pow.
  assert (N.land (2 ^ 63) t = 0) as Hl by (by rewrite N.land_comm, land_pow2, testbit_63_lt).
  by rewrite N.add_nocarry_lxor, N.lxor_lor by done.
Qed.

Lemma in_flight_ok t : 0 < t → t ≤ MAX_TIMESTAMP → in_flight t = Ok (2 ^ 63 + t).
Proof.
  rewrite MAX_TIMESTAMP_val. intros H0 Ht. unfold in_flight.
  rewrite (proj2 (N.eqb_neq t 0)) by lia. rewrite land_inflight_lt by lia. simpl.
  rewrite land_payload, N.mod_small by lia. by rewrite lor_inflight by lia.
Qed.

Lemma in_flight_Ok_inv t w :
  t ≤ u64_max → in_flight t = Ok w → w = 2 ^ 63 + t ∧ 0 < t ∧ t ≤ MAX_TIMESTAMP.
Proof.
  intros Hu. rewrite MAX_TIMESTAMP_val. unfold in_flight.
  destruct (N.eqb_spec t 0); [done|].
  destruct (decide (t < 2 ^ 63)) as [Hlt|Hge].
  - rewrite land_inflight_lt by done. simpl.
    rewrite land_payload, N.mod_small, lor_inflight by done. intros [= <-]. lia.
  - rewrite land_inflight_ge by (unfold u64_max in Hu; lia). simpl. done.
Qed.

Lemma from_raw_0 : from_raw 0 = VsNone.
Proof. reflexivity. Qed.

Lemma from_raw_committed ts :
  0 < ts → ts ≤ MAX_TIMESTAMP → from_raw (committed ts) = VsCommitted ts.
Proof.
  rewrite MAX_TIMESTAMP_val. intros H0 Ht. unfold from_raw, committed, to_raw.
  rewrite (proj2 (N.eqb_neq ts 0)) by lia. by rewrite land_inflight_lt by lia.
Qed.

Lemma from_raw_ge t : t < 2 ^ 63 → from_raw (2 ^ 63 + t) = VsInFlight t.
Proof.
  intros Ht. unfold from_raw. rewrite (proj2 (N.eqb_neq _ 0)) by lia.
  rewrite land_inflight_ge by lia. simpl. f_equal. rewrite land_payload.
  replace (2 ^ 63 + t) with (t + 1 * 2 ^ 63) by lia.
  rewrite N.Div0.mod_add. by apply N.mod_small.
Qed.

Lemma from_raw_in_flight t :
  0 < t → t ≤ MAX_TIMESTAMP → from_raw (2 ^ 63 + t) = VsInFlight t.
Proof. rewrite MAX_TIMESTAMP_val. intros. apply from_raw_ge. lia. Qed.

#[export] Hint Rewrite from_raw_0 : graphus.
#[export] Hint Resolve in_flight_ok from_raw_committed from_raw_in_flight : graphus.

(** Every header word is the encoding of the stamp it decodes to, and every
    legal stamp survives encoding: decoding is a bijection between the [u64]
    words and the three classes, so a committed timestamp and an in-flight id
    never alias. *)
Theorem version_stamp_roundtrip :
  (∀ w, w ≤ u64_max → to_raw (from_raw w) = w) ∧
  (∀ t, 0 < t → t ≤ MAX_TIMESTAMP →
     ∃ w, in_flight t = Ok w ∧ w ≤ u64_max ∧ from_raw w = VsInFlight t) ∧
  (∀ ts, 0 < ts → ts ≤ MAX_TIMESTAMP → from_raw (committed ts) = VsCommitted ts) ∧
  (∀ ts t w, 0 < ts → ts ≤ MAX_TIMESTAMP → t ≤ u64_max → in_flight t = Ok w → committed ts ≠ w).
Proof.
  split; [|split; [|split]].
  - unfold u64_max. intros w Hw. destruct (decide (w < 2 ^ 63)) as [Hlt|Hge].
    + destruct (decide (w = 0)) as [->|Hn]; [done|].
      by change w with (committed w) at 1;
        rewrite from_raw_committed by (rewrite ?MAX_TIMESTAMP_val; lia).
    + replace w with (2 ^ 63 + (w - 2 ^ 63)) at 1 by lia.
      rewrite from_raw_ge by lia. unfold to_raw.
      rewrite land_payload, N.mod_small, lor_inflight by lia. lia.
  - intros t H0 Ht. exists (2 ^ 63 + t).
    rewrite in_flight_ok, from_raw_in_flight by done.
    rewrite MAX_TIMESTAMP_val in Ht. unfold u64_max. repeat split; lia.
  - auto with graphus.
  - intros ts t w H0 Hts Hu [-> _]%in_flight_Ok_inv; [|done].
    rewrite MAX_TIMESTAMP_val in Hts. unfold committed, to_raw. lia.
Qed.
