(* ===== verification/Snapshot.v ===== *)
(** * graphus-txn: isolation levels, snapshots and the commit registry

    [src/crates/graphus-txn/src/snapshot.rs]. *)

From stdpp Require Import options.
From S2P Require Import Prelude Core.

Inductive IsolationLevel := Serializable | SnapshotLevel.

#[global] Instance IsolationLevel_eq_dec : EqDecision IsolationLevel.
Proof. solve_decision. Defined.

Definition runs_ssi (l : IsolationLevel) : bool :=
  match l with Serializable => true | SnapshotLevel => false end.

Inductive View := New | Old.

#[global] Instance View_eq_dec : EqDecision View.
Proof. solve_decision. Defined.

(** Whether an own delta written by command [writer] is undone for a read at
    command [current]. *)
Definition command_hides_own_write (view : View) (writer current : CommandId) : bool :=
  if writer =? CommandIdOps.NONE then false
  else match view with
       | New => current <? writer
       | Old => current <=? writer
       end.

Record Snapshot := mkSnapshot {
  owner : TxnId;
  snap_ts : Timestamp;
  command : CommandId;
  view : View;
}.

Definition snapshot_new (o : TxnId) (ts : Timestamp) : Snapshot :=
  mkSnapshot o ts CommandIdOps.FIRST New.
Definition at_command (o : TxnId) (ts : Timestamp) (c : CommandId) (v : View) : Snapshot :=
  mkSnapshot o ts c v.
Definition with_view (s : Snapshot) (v : View) : Snapshot :=
  mkSnapshot (owner s) (snap_ts s) (command s) v.
Definition with_command (s : Snapshot) (c : CommandId) : Snapshot :=
  mkSnapshot (owner s) (snap_ts s) c (view s).

(** The [debug_assert!] of the source is compiled out of release builds. *)
Definition hides_own_command (s : Snapshot) (writer : CommandId) : bool :=
  command_hides_own_write (view s) writer (command s).

Inductive TxnOutcome :=
  | OInFlight
  | OCommitted (ts : Timestamp)
  | OAborted.

#[global] Instance TxnOutcome_eq_dec : EqDecision TxnOutcome.
Proof. solve_decision. Defined.

(** ** The commit registry (the active / recent transaction table) *)

Record CommitRegistry := mkRegistry { outcomes : gmap TxnId TxnOutcome }.

Module Registry.

Definition new : CommitRegistry := mkRegistry ∅.
Definition register_begin (txn : TxnId) (r : CommitRegistry) : CommitRegistry :=
  mkRegistry (<[txn := OInFlight]> (outcomes r)).
Definition record_commit (txn : TxnId) (ts : Timestamp) (r : CommitRegistry) : CommitRegistry :=
  mkRegistry (<[txn := OCommitted ts]> (outcomes r)).
Definition record_abort (txn : TxnId) (r : CommitRegistry) : CommitRegistry :=
  mkRegistry (<[txn := OAborted]> (outcomes r)).
Definition forget (txn : TxnId) (r : CommitRegistry) : CommitRegistry :=
  mkRegistry (delete txn (outcomes r)).
Definition len (r : CommitRegistry) : nat := size (outcomes r).
Definition is_empty (r : CommitRegistry) : bool := bool_decide (len r = O).

Definition is_committed (o : TxnOutcome) : bool :=
  match o with OCommitted _ => true | _ => false end.

(** Map iteration order is unspecified in the source ("in no particular
    order"); the model lists the entries in the map's canonical order. *)
Definition committed_writers (r : CommitRegistry) : list TxnId :=
  (filter (λ p, is_committed p.2 = true) (map_to_list (outcomes r))).*1.

(** The closure [retain] keeps an entry by. *)
Definition unsettled (low_water : option Timestamp) (o : TxnOutcome) : bool :=
  match o with
  | OInFlight => true
  | OAborted => false
  | OCommitted ts => match low_water with Some mark => mark <? ts | None => false end
  end.

Definition prune_settled (low_water : option Timestamp) (r : CommitRegistry)
    : nat * CommitRegistry :=
  let before := size (outcomes r) in
  let kept := filter (λ p, unsettled low_water p.2 = true) (outcomes r) in
  ((before - size kept)%nat, mkRegistry kept).

(** An unknown id is aborted. *)
Definition outcome (r : CommitRegistry) (txn : TxnId) : TxnOutcome :=
  default OAborted (outcomes r !! txn).

Definition resolve_commit_ts (r : CommitRegistry) (word : N) : option Timestamp :=
  match from_raw word with
  | VsNone => None
  | VsCommitted ts => Some ts
  | VsInFlight txn =>
      match outcome r txn with
      | OCommitted ts => Some ts
      | OInFlight | OAborted => None
      end
  end.

(** ** Behaviour of each operation on [outcome] *)

Lemma outcome_insert m txn o t :
  outcome (mkRegistry (<[txn := o]> m)) t = if decide (t = txn) then o else outcome (mkRegistry m) t.
Proof.
  unfold outcome; simpl. case_decide as E; [subst; by simplify_map_eq|].
  by rewrite lookup_insert_ne.
Qed.

Lemma outcome_forget r txn t :
  outcome (forget txn r) t = if decide (t = txn) then OAborted else outcome r t.
Proof.
  unfold outcome, forget; simpl. case_decide as E; [subst; by simplify_map_eq|].
  by rewrite lookup_delete_ne.
Qed.

Lemma prune_settled_lookup lw r t :
  outcomes (prune_settled lw r).2 !! t =
    match outcomes r !! t with
    | Some o => if unsettled lw o then Some o else None
    | None => None
    end.
Proof.
  unfold prune_settled; simpl. rewrite map_lookup_filter.
  destruct (outcomes r !! t) as [o|]; simpl; [|done].
  destruct (unsettled lw o) eqn:E; by simplify_option_eq.
Qed.

Lemma prune_settled_outcome lw r t :
  outcome (prune_settled lw r).2 t =
    if unsettled lw (outcome r t) then outcome r t else OAborted.
Proof.
  unfold outcome at 1. rewrite prune_settled_lookup. unfold outcome.
  destruct (outcomes r !! t) as [o|]; simpl; [|done].
  by destruct (unsettled lw o).
Qed.

Lemma prune_settled_count lw r :
  ((prune_settled lw r).1 + len (prune_settled lw r).2 = len r)%nat.
Proof.
  unfold prune_settled, len; simpl.
  pose proof (map_subseteq_size _ _ (map_filter_subseteq (λ p : N * TxnOutcome, unsettled lw p.2 = true) (outcomes r))). lia.
Qed.

Lemma elem_of_committed_writers r t :
  t ∈ committed_writers r ↔ ∃ ts, outcomes r !! t = Some (OCommitted ts).
Proof.
  unfold committed_writers. rewrite list_elem_of_fmap. split.
  - intros ([t' o] & -> & Hf). apply list_elem_of_filter in Hf as [Hc Hin].
    apply elem_of_map_to_list in Hin. simpl in *. destruct o; naive_solver.
  - intros [ts Hts]. exists (t, OCommitted ts). split; [done|].
    apply list_elem_of_filter. by rewrite elem_of_map_to_list.
Qed.

(** Pruning at any watermark changes no resolution but that of writers
    committed at or below it (or, with no active transaction, of any committed
    writer); in particular forgetting an aborted writer is unobservable. *)
Theorem prune_settled_spec lw r :
  (∀ t, outcome r t ≠ outcome (prune_settled lw r).2 t →
     ∃ ts, outcome r t = OCommitted ts ∧ (∀ mark, lw = Some mark → ts ≤ mark)) ∧
  (∀ t, outcome r t = OInFlight → outcome (prune_settled lw r).2 t = OInFlight) ∧
  (∀ t ts mark, lw = Some mark → outcome r t = OCommitted ts → mark < ts →
     outcome (prune_settled lw r).2 t = OCommitted ts) ∧
  ((prune_settled lw r).1 + len (prune_settled lw r).2 = len r)%nat.
Proof.
  split; [|split; [|split]].
  - intros t Hne. rewrite prune_settled_outcome in Hne.
    destruct (outcome r t) as [|ts|] eqn:E; simpl in *; try done.
    exists ts. split; [done|]. intros mark ->.
    destruct (N.ltb_spec mark ts); [done|lia].
  - intros t E. by rewrite prune_settled_outcome, E.
  - intros t ts mark -> E Hlt. rewrite prune_settled_outcome, E. simpl.
    by rewrite (proj2 (N.ltb_lt _ _)).
  - apply prune_settled_count.
Qed.

End Registry.

(** ** Statement-level isolation *)

(** The two views disagree about exactly the current command's own writes; a
    write made outside any statement is undone by neither; an earlier
    command's write is never undone and a later one's always is. *)
Theorem command_view_spec (writer current : CommandId) :
  (writer ≠ CommandIdOps.NONE →
     (command_hides_own_write Old writer current ≠ command_hides_own_write New writer current
        ↔ writer = current)) ∧
  (∀ v, command_hides_own_write v CommandIdOps.NONE current = false) ∧
  (∀ v, writer < current → command_hides_own_write v writer current = false) ∧
  (∀ v, current < writer → command_hides_own_write v writer current = true).
Proof.
  unfold command_hides_own_write, CommandIdOps.NONE.
  split; [|split; [|split]].
  - intros Hn. rewrite (proj2 (N.eqb_neq _ _) Hn).
    destruct (N.leb_spec current writer), (N.ltb_spec current writer); split; try done; lia.
  - intros v. by rewrite N.eqb_refl.
  - intros v H. destruct (N.eqb_spec writer 0); [done|].
    destruct v; [apply N.ltb_ge|apply N.leb_gt]; lia.
  - intros v H. rewrite (proj2 (N.eqb_neq writer 0)) by lia.
    destruct v; [apply N.ltb_lt|apply N.leb_le]; lia.
Qed.
