(* ===== verification/Visibility.v ===== *)
(** * graphus-txn: MVCC visibility

    [src/crates/graphus-txn/src/visibility.rs]: the two clauses of the
    visibility rule over a version's raw [xmin]/[xmax] words. *)

From stdpp Require Import options.
From S2P Require Import Prelude Core Snapshot.

Definition creator_visible (s : Snapshot) (xmin : N) (r : CommitRegistry) : bool :=
  match from_raw xmin with
  | VsNone => false
  | VsCommitted ts => ts <=? snap_ts s
  | VsInFlight writer =>
      if writer =? owner s then true
      else match Registry.outcome r writer with
           | OCommitted ts => ts <=? snap_ts s
           | OInFlight | OAborted => false
           end
  end.

Definition expirer_hides (s : Snapshot) (xmax : N) (r : CommitRegistry) : bool :=
  match from_raw xmax with
  | VsNone => false
  | VsCommitted ts => ts <=? snap_ts s
  | VsInFlight writer =>
      if writer =? owner s then true
      else match Registry.outcome r writer with
           | OCommitted ts => ts <=? snap_ts s
           | OInFlight | OAborted => false
           end
  end.

Definition is_visible (s : Snapshot) (xmin xmax : N) (r : CommitRegistry) : bool :=
  creator_visible s xmin r && negb (expirer_hides s xmax r).

(** ** The declarative rule *)

(** A header word takes effect for a snapshot: its writer is the snapshot's
    owner, or committed no later than the snapshot. This is the shared half of
    both clauses. *)
Definition in_effect (s : Snapshot) (word : N) (r : CommitRegistry) : Prop :=
  from_raw word = VsInFlight (owner s) ∨
  ∃ ts, Registry.resolve_commit_ts r word = Some ts ∧ ts ≤ snap_ts s.

(** The owner of a live snapshot is recorded in flight. *)
Definition owner_in_flight (s : Snapshot) (r : CommitRegistry) : Prop :=
  Registry.outcome r (owner s) = OInFlight.

Lemma creator_is_expirer s w r : creator_visible s w r = expirer_hides s w r.
Proof. reflexivity. Qed.

Lemma creator_visible_spec s w r :
  creator_visible s w r = true ↔ in_effect s w r ∨
    (∃ ts, from_raw w = VsInFlight (owner s) ∧ Registry.outcome r (owner s) = OCommitted ts).
Proof.
  unfold creator_visible, in_effect, Registry.resolve_commit_ts.
  destruct (from_raw w) as [|ts|t] eqn:E.
  - naive_solver.
  - rewrite N.leb_le. naive_solver.
  - destruct (N.eqb_spec t (owner s)) as [->|Hne]; [naive_solver|].
    destruct (Registry.outcome r t) eqn:E'; rewrite ?N.leb_le; naive_solver.
Qed.

Lemma in_effect_dec s w r : creator_visible s w r = true ↔ in_effect s w r.
Proof.
  rewrite creator_visible_spec. unfold in_effect. naive_solver.
Qed.

(** The implemented predicate is the rule of the specification: a version is
    visible iff its creator is in effect and its expirer is not. *)
Lemma is_visible_in_effect s xmin xmax r :
  is_visible s xmin xmax r = true ↔ in_effect s xmin r ∧ ¬ in_effect s xmax r.
Proof.
  unfold is_visible. rewrite andb_true_iff, negb_true_iff.
  rewrite <- (creator_is_expirer s xmax), <- !in_effect_dec.
  destruct (creator_visible s xmax r); naive_solver.
Qed.

(** ** Settling a header word does not change what anyone sees *)

(** The word a commit at [ts] rewrites [w] to. *)
Definition settle (inflight committed_word w : N) : N :=
  if w =? inflight then committed_word else w.

Lemma in_effect_settle s w r t ts :
  0 < t → t ≤ MAX_TIMESTAMP → 0 < ts → ts ≤ MAX_TIMESTAMP →
  owner s ≠ t → Registry.outcome r t = OCommitted ts →
  in_effect s (settle (2 ^ 63 + t) (committed ts) w) r ↔ in_effect s w r.
Proof.
  intros Ht Ht' Hts Hts' Hne Ho. unfold settle.
  destruct (N.eqb_spec w (2 ^ 63 + t)) as [->|]; [|done].
  unfold in_effect, Registry.resolve_commit_ts.
  rewrite from_raw_committed, from_raw_in_flight, Ho by done. naive_solver.
Qed.

(** Resolution through the registry and resolution through a settled header
    agree: rewriting a committed writer's in-flight words to its commit
    timestamp is invisible to every other transaction's snapshot. *)
Theorem settle_visible s xmin xmax r t ts :
  0 < t → t ≤ MAX_TIMESTAMP → 0 < ts → ts ≤ MAX_TIMESTAMP →
  owner s ≠ t → Registry.outcome r t = OCommitted ts →
  is_visible s (settle (2 ^ 63 + t) (committed ts) xmin)
               (settle (2 ^ 63 + t) (committed ts) xmax) r
  = is_visible s xmin xmax r.
Proof.
  intros. apply eq_true_iff_eq. rewrite !is_visible_in_effect, !in_effect_settle by done. done.
Qed.

(** The ts-monotonicity of the creator clause. *)
Lemma in_effect_committed s ts r :
  0 < ts → ts ≤ MAX_TIMESTAMP → in_effect s (committed ts) r ↔ ts ≤ snap_ts s.
Proof.
  intros. unfold in_effect, Registry.resolve_commit_ts.
  rewrite from_raw_committed by done. naive_solver.
Qed.

Lemma in_effect_zero s r : ¬ in_effect s 0 r.
Proof. unfold in_effect, Registry.resolve_commit_ts. rewrite from_raw_0. naive_solver. Qed.

Lemma in_effect_in_flight s t r :
  0 < t → t ≤ MAX_TIMESTAMP →
  in_effect s (2 ^ 63 + t) r ↔
    t = owner s ∨ ∃ ts, Registry.outcome r t = OCommitted ts ∧ ts ≤ snap_ts s.
Proof.
  intros. unfold in_effect, Registry.resolve_commit_ts. rewrite from_raw_in_flight by done.
  destruct (Registry.outcome r t); naive_solver.
Qed.

(** Visibility, clause by clause: a version is visible to a snapshot iff its
    creator is the snapshot's owner or committed at or before the snapshot, and
    its expirer, if there is one, is neither the owner nor committed at or before
    the snapshot. A header word resolves to a commit either because it holds the
    timestamp or because the registry knows its writer committed; unknown,
    running and aborted writers do not count. *)
Theorem visibility_rule s xmin xmax r :
  is_visible s xmin xmax r = true ↔
    (from_raw xmin = VsInFlight (owner s) ∨
     ∃ ts, ts ≤ snap_ts s ∧ (from_raw xmin = VsCommitted ts ∨
       ∃ t, from_raw xmin = VsInFlight t ∧ Registry.outcome r t = OCommitted ts)) ∧
    ¬ (from_raw xmax = VsInFlight (owner s) ∨
     ∃ ts, ts ≤ snap_ts s ∧ (from_raw xmax = VsCommitted ts ∨
       ∃ t, from_raw xmax = VsInFlight t ∧ Registry.outcome r t = OCommitted ts)).
Proof.
  assert (∀ w, in_effect s w r ↔ from_raw w = VsInFlight (owner s) ∨
     ∃ ts, ts ≤ snap_ts s ∧ (from_raw w = VsCommitted ts ∨
       ∃ t, from_raw w = VsInFlight t ∧ Registry.outcome r t = OCommitted ts)) as Hw.
  { intros w. unfold in_effect, Registry.resolve_commit_ts.
    apply or_iff_compat_l. destruct (from_raw w) as [|ts|t].
    - split; [intros (? & ? & _); done|intros (ts & _ & [?|(t & ? & _)]); done].
    - split.
      + intros (? & [= <-] & ?). eauto.
      + intros (ts' & ? & [[= <-]|(t & ? & _)]); [eauto|done].
    - split.
      + intros (ts & Hts & ?). exists ts. split; [done|]. right. exists t.
        by destruct (Registry.outcome r t); simplify_eq.
      + intros (ts & ? & [?|(t' & [= <-] & ->)]); [done|eauto]. }
  by rewrite is_visible_in_effect, !Hw.
Qed.

Lemma settle_visible_witness :
  is_visible (snapshot_new 9 20) (settle (2 ^ 63 + 4) (committed 12) (2 ^ 63 + 4))
    (settle (2 ^ 63 + 4) (committed 12) 0) (Registry.record_commit 4 12 Registry.new)
  = is_visible (snapshot_new 9 20) (2 ^ 63 + 4) 0 (Registry.record_commit 4 12 Registry.new).
Proof. apply (settle_visible (snapshot_new 9 20) (2 ^ 63 + 4) 0 _ 4 12); done. Defined.
