(* ===== verification/Oracle.v ===== *)
(** * graphus-txn: the timestamp oracle

    [src/crates/graphus-txn/src/oracle.rs]. The [BTreeMap<Timestamp, u32>] of
    active begin timestamps is a [gmap] to counts; its first key is the minimum
    of its keys. The counts are [u32]s with their wrap-around, which the
    invariant shows is never reached. *)

From stdpp Require Import options gmultiset.
From S2P Require Import Prelude Core.

Record TimestampOracle := mkOracle {
  next_counter : N;
  active_begins : gmap Timestamp N;
}.

Module Oracle.

Definition new : TimestampOracle := mkOracle 0 ∅.

Definition tick (o : TimestampOracle) : Outcome Timestamp * TimestampOracle :=
  match option_filter (λ n, n <=? MAX_TIMESTAMP) (checked_add_u64 (next_counter o) 1) with
  | Some next => (Ok next, mkOracle next (active_begins o))
  | None =>
      (Err (Transaction "timestamp oracle exhausted the 63-bit timestamp space"), o)
  end.

(** [*entry(ts).or_insert(0) += 1]. *)
Definition bump (ts : Timestamp) (m : gmap Timestamp N) : gmap Timestamp N :=
  <[ts := wrapping_add_u32 (default 0 (m !! ts)) 1]> m.

Definition begin_ : St TimestampOracle Timestamp :=
  ts ← tick;
  _ ← modify (λ o, mkOracle (next_counter o) (bump ts (active_begins o)));
  mret ts.

Definition commit : St TimestampOracle Timestamp := tick.

Definition release_begin (begin_ts : Timestamp) (o : TimestampOracle) : bool * TimestampOracle :=
  match active_begins o !! begin_ts with
  | Some count =>
      let count' := wrapping_sub_u32 count 1 in
      (true, mkOracle (next_counter o)
               (if count' =? 0 then delete begin_ts (active_begins o)
                else <[begin_ts := count']> (active_begins o)))
  | None => (false, o)
  end.

(** The keys in ascending order, of which [first_key_value] is the first. *)
Definition begin_keys (o : TimestampOracle) : list Timestamp := (map_to_list (active_begins o)).*1.
Definition low_water_mark (o : TimestampOracle) : option Timestamp := list_min (begin_keys o).

Definition active_count (o : TimestampOracle) : N :=
  map_fold (λ _ c acc, c + acc) 0 (active_begins o).

Definition current (o : TimestampOracle) : Timestamp := next_counter o.

(** ** The invariant the source states for the multiset *)

Record wf (o : TimestampOracle) : Prop := {
  wf_counter : next_counter o ≤ MAX_TIMESTAMP;
  wf_counts : ∀ ts c, active_begins o !! ts = Some c → 0 < c ∧ c ≤ u32_max;
  wf_issued : ∀ ts, is_Some (active_begins o !! ts) → 0 < ts ∧ ts ≤ next_counter o;
}.

Lemma elem_of_begin_keys o ts : ts ∈ begin_keys o ↔ is_Some (active_begins o !! ts).
Proof.
  unfold begin_keys. rewrite list_elem_of_fmap. split.
  - intros ([t c] & -> & Hin%elem_of_map_to_list). by exists c.
  - intros [c Hc]. exists (ts, c). by rewrite elem_of_map_to_list.
Qed.

Lemma low_water_mark_Some o m :
  low_water_mark o = Some m ↔
    is_Some (active_begins o !! m) ∧ ∀ ts, is_Some (active_begins o !! ts) → m ≤ ts.
Proof.
  unfold low_water_mark. rewrite list_min_Some, elem_of_begin_keys.
  by setoid_rewrite elem_of_begin_keys.
Qed.

Lemma low_water_mark_None o : low_water_mark o = None ↔ active_begins o = ∅.
Proof.
  unfold low_water_mark. rewrite list_min_None. unfold begin_keys.
  rewrite <- map_to_list_empty_iff. by destruct (map_to_list (active_begins o)).
Qed.

Lemma tick_cases o :
  wf o →
  (next_counter o < MAX_TIMESTAMP ∧
     tick o = (Ok (next_counter o + 1), mkOracle (next_counter o + 1) (active_begins o))) ∨
  (next_counter o = MAX_TIMESTAMP ∧ tick o =
     (Err (Transaction "timestamp oracle exhausted the 63-bit timestamp space"), o)).
Proof.
  intros [Hc _ _]. unfold tick, checked_add_u64.
  assert (next_counter o + 1 ≤ u64_max) as Hu.
  { rewrite MAX_TIMESTAMP_val in Hc. unfold u64_max. lia. }
  rewrite bool_decide_eq_true_2 by done. simpl.
  destruct (N.leb_spec (next_counter o + 1) MAX_TIMESTAMP); [left|right]; split; auto; lia.
Qed.

Lemma tick_wf o : wf o → wf (tick o).2.
Proof.
  intros Hwf. destruct (tick_cases o Hwf) as [[Hlt ->]|[_ ->]]; simpl; [|done].
  destruct Hwf as [Hc Hn Hi]. split; simpl; [lia|done|].
  intros ts Hts. specialize (Hi ts Hts). lia.
Qed.

Lemma tick_fresh o ts :
  wf o → (tick o).1 = Ok ts → active_begins o !! ts = None ∧ ts = next_counter o + 1.
Proof.
  intros Hwf. destruct (tick_cases o Hwf) as [[Hlt ->]|[_ ->]]; simpl; [|done].
  intros [= <-]. split; [|done]. apply eq_None_not_Some. intros Hs.
  apply (wf_issued o Hwf) in Hs. lia.
Qed.

Lemma begin_cases o :
  wf o →
  (next_counter o < MAX_TIMESTAMP ∧
     active_begins o !! (next_counter o + 1) = None ∧
     begin_ o = (Ok (next_counter o + 1),
                 mkOracle (next_counter o + 1) (<[next_counter o + 1 := 1]> (active_begins o)))) ∨
  (next_counter o = MAX_TIMESTAMP ∧ begin_ o =
     (Err (Transaction "timestamp oracle exhausted the 63-bit timestamp space"), o)).
Proof.
  intros Hwf. unfold begin_. munfold.
  destruct (tick_cases o Hwf) as [[Hlt Ht]|[Heq Ht]]; rewrite Ht; [left|by right].
  assert (active_begins o !! (next_counter o + 1) = None) as Hnone.
  { apply tick_fresh; [done|by rewrite Ht]. }
  split; [done|]. split; [done|]. simpl. unfold bump. by rewrite Hnone.
Qed.

Lemma begin_wf o : wf o → wf (begin_ o).2.
Proof.
  intros Hwf. destruct (begin_cases o Hwf) as [(Hlt & Hn & ->)|[_ ->]]; simpl; [|done].
  destruct Hwf as [Hc Hcs Hi]. split; simpl; [lia| |].
  - intros ts c [[<- <-]|[? ?]]%lookup_insert_Some; [done|eauto].
  - intros ts [c [[<- <-]|[? ?]]%lookup_insert_Some]; [lia|].
    specialize (Hi ts (mk_is_Some _ _ H0)). lia.
Qed.

Lemma commit_wf o : wf o → wf (commit o).2.
Proof. apply tick_wf. Qed.

Lemma release_lookup o b ts :
  wf o →
  active_begins (release_begin b o).2 !! ts =
    match active_begins o !! ts with
    | Some c => if decide (ts = b) then (if c =? 1 then None else Some (c - 1)) else Some c
    | None => None
    end.
Proof.
  intros Hwf. unfold release_begin.
  destruct (active_begins o !! b) as [c|] eqn:Eb; simpl.
  - destruct (wf_counts o Hwf b c Eb). rewrite wrapping_sub_u32_small by lia.
    case_decide as Hts; [subst ts; rewrite Eb|].
    + destruct (N.eqb_spec (c - 1) 0), (N.eqb_spec c 1); try lia; by simplify_map_eq.
    + destruct (N.eqb_spec (c - 1) 0); simplify_map_eq; by destruct (active_begins o !! ts).
  - case_decide as Hts; [subst ts; by rewrite Eb|]. by destruct (active_begins o !! ts).
Qed.

Lemma release_counter o b : next_counter (release_begin b o).2 = next_counter o.
Proof. unfold release_begin. by destruct (active_begins o !! b). Qed.

Lemma release_wf o b : wf o → wf (release_begin b o).2.
Proof.
  intros Hwf. pose proof Hwf as [Hc Hcs Hi]. split.
  - by rewrite release_counter.
  - intros ts c. rewrite release_lookup by done.
    destruct (active_begins o !! ts) as [c'|] eqn:E; [|done].
    destruct (Hcs ts c' E). case_decide; [destruct (N.eqb_spec c' 1); [done|]|];
      intros [= <-]; lia.
  - intros ts. rewrite release_counter, release_lookup by done.
    destruct (active_begins o !! ts) as [c'|] eqn:E; [|intros [? [=]]].
    intros _. apply Hi. by rewrite E.
Qed.

(** ** Refinement of the multiset of live begin timestamps *)

(** The abstract state: the set of live snapshots with their multiplicities. *)
Definition refines (o : TimestampOracle) (M : gmultiset Timestamp) : Prop :=
  ∀ ts, multiplicity ts M = N.to_nat (default 0 (active_begins o !! ts)).

Lemma refines_elem o M ts : wf o → refines o M → ts ∈ M ↔ is_Some (active_begins o !! ts).
Proof.
  intros Hwf Hr. rewrite elem_of_multiplicity, Hr.
  destruct (active_begins o !! ts) as [c|] eqn:E; simpl.
  - destruct (wf_counts o Hwf ts c E). split; [by eexists|lia].
  - split; [lia|by intros [? [=]]].
Qed.

Lemma map_fold_count_insert (m : gmap N N) k c :
  m !! k = None → map_fold (λ _ c acc, c + acc) 0 (<[k:=c]> m) = c + map_fold (λ _ c acc, c + acc) 0 m.
Proof. intros Hk. rewrite map_fold_insert_L; [done| |done]. intros. lia. Qed.

Lemma refines_size (m : gmap N N) (M : gmultiset N) :
  (∀ ts, multiplicity ts M = N.to_nat (default 0 (m !! ts))) →
  map_fold (λ _ c acc, c + acc) 0 m = N.of_nat (size M).
Proof.
  revert M. induction m as [|k c m Hk IH] using map_ind; intros M HM.
  - assert (M = ∅) as ->; [|done]. apply gmultiset_eq. intros x. rewrite HM. by rewrite lookup_empty.
  - rewrite map_fold_count_insert by done.
    set (Mk := N.to_nat c *: {[+ k +]} : gmultiset N).
    assert (Mk ⊆ M) as Hsub.
    { intros x. subst Mk. rewrite multiplicity_scalar_mul, HM.
      destruct (decide (x = k)) as [->|Hx]; [rewrite lookup_insert_eq, multiplicity_singleton_eq; simpl; lia|].
      rewrite multiplicity_singleton_ne by done. lia. }
    rewrite (gmultiset_disj_union_difference _ _ Hsub), gmultiset_size_disj_union.
    rewrite (IH (M ∖ Mk)); [subst Mk; rewrite gmultiset_size_scalar_mul, gmultiset_size_singleton; lia|].
    intros x. rewrite multiplicity_difference, HM. subst Mk. rewrite multiplicity_scalar_mul.
    destruct (decide (x = k)) as [->|Hx].
    + rewrite lookup_insert_eq, Hk, multiplicity_singleton_eq. simpl. lia.
    + rewrite lookup_insert_ne, multiplicity_singleton_ne by done. lia.
Qed.

(** The oracle refines the multiset of live snapshots: a begin adds a fresh
    timestamp above everything issued so far, a release removes one occurrence
    (and reports whether there was one), the low-water mark is the least
    element and the count is the multiset's cardinality. *)
Theorem oracle_refines_multiset o M :
  wf o → refines o M →
  (next_counter o < MAX_TIMESTAMP →
     ∃ ts, (begin_ o).1 = Ok ts ∧ next_counter o < ts ∧ refines (begin_ o).2 (M ⊎ {[+ ts +]})) ∧
  (∀ b, (release_begin b o).1 = bool_decide (b ∈ M) ∧
        refines (release_begin b o).2 (M ∖ {[+ b +]})) ∧
  (∀ m, low_water_mark o = Some m ↔ m ∈ M ∧ ∀ x, x ∈ M → m ≤ x) ∧
  (low_water_mark o = None ↔ M = ∅) ∧
  active_count o = N.of_nat (size M).
Proof.
  intros Hwf Hr. split; [|split; [|split; [|split]]].
  - intros Hlt. destruct (begin_cases o Hwf) as [(_ & Hn & ->)|[Heq _]]; [|lia].
    exists (next_counter o + 1). split; [done|]. split; [lia|].
    intros x. rewrite multiplicity_disj_union, Hr. simpl.
    destruct (decide (x = next_counter o + 1)) as [->|Hx].
    + rewrite lookup_insert_eq, Hn, multiplicity_singleton_eq. simpl. lia.
    + rewrite lookup_insert_ne, multiplicity_singleton_ne by done. lia.
  - intros b. split.
    + rewrite (bool_decide_ext _ _ (refines_elem o M b Hwf Hr)). unfold release_begin.
      by destruct (active_begins o !! b).
    + intros x. rewrite multiplicity_difference, Hr, release_lookup by done.
      destruct (decide (x = b)) as [->|Hx].
      * rewrite multiplicity_singleton_eq. destruct (active_begins o !! b) as [c|] eqn:E; simpl; [|lia].
        destruct (wf_counts o Hwf b c E). destruct (N.eqb_spec c 1); simpl; lia.
      * rewrite multiplicity_singleton_ne by done.
        destruct (active_begins o !! x); simpl; lia.
  - intros m. rewrite low_water_mark_Some. setoid_rewrite (λ x, refines_elem o M x Hwf Hr). done.
  - rewrite low_water_mark_None. split.
    + intros Ho. apply gmultiset_eq. intros x. rewrite Hr, Ho. by rewrite lookup_empty.
    + intros ->. apply map_eq. intros x. rewrite lookup_empty.
      destruct (active_begins o !! x) as [c|] eqn:E; [|done].
      assert (x ∈ (∅ : gmultiset N)) by (apply (refines_elem o _ x Hwf Hr); by rewrite E).
      multiset_solver.
  - apply refines_size, Hr.
Qed.

(** The oracle after [begin; begin; release 1]. *)
Definition sample_oracle : TimestampOracle := mkOracle 2 {[2 := 1]}.

Lemma sample_oracle_wf : wf sample_oracle.
Proof.
  split; simpl; [done| |].
  - intros ts c [<- <-]%lookup_singleton_Some. done.
  - intros ts [c [<- <-]%lookup_singleton_Some]. done.
Qed.

Lemma oracle_refines_multiset_witness :
  low_water_mark sample_oracle = Some 2 ↔
     2 ∈ ({[+ 2 +]} : gmultiset Timestamp) ∧ ∀ x, x ∈ ({[+ 2 +]} : gmultiset Timestamp) → 2 ≤ x.
Proof.
  refine (proj1 (proj2 (proj2 (oracle_refines_multiset sample_oracle {[+ 2 +]} sample_oracle_wf _))) 2).
  intros ts. simpl. destruct (decide (ts = 2)) as [->|Hne].
  - by rewrite lookup_singleton_eq, multiplicity_singleton_eq.
  - rewrite lookup_singleton_ne, multiplicity_singleton_ne by done. done.
Defined.

End Oracle.
