(* ===== verification/VStore.v ===== *)
(** * graphus-txn: the versioned store and its garbage collection

    [src/crates/graphus-txn/src/store.rs] and [gc.rs]. The trait
    [VersionedStore] is the class of that name; [VersionedStoreSpec] states the
    contract its doc comments give, in terms of the newest-first version chain
    of each key; [MemVersionedStore] is the source's in-memory implementation
    and discharges the contract. The transaction manager is verified against
    the contract only. The chains are in the order of time. *)
From S2P Require Import Prelude Core Snapshot Visibility.
From stdpp Require Import options.

Open Scope graphus_scope.

Abbreviation Key := N (only parsing).
(** A [Vec<u8>] payload, opaque to the manager. *)
Abbreviation Payload := (list N) (only parsing).

Record Version := mkVersion { xmin : N; xmax : N; payload : Payload }.

#[global] Instance Version_eq_dec : EqDecision Version.
Proof. solve_decision. Defined.

Definition is_live (v : Version) : bool := xmax v =? 0.

(** The trait. Methods that stamp a header can panic in
    [VersionStamp::in_flight], hence their [Outcome]. *)
Class VersionedStore (S : Type) := {
  create_version : Key → TxnId → Payload → S → Outcome unit * S;
  expire_version : Key → TxnId → S → Outcome unit * S;
  read_visible : S → Key → Snapshot → CommitRegistry → option Payload;
  commit_writer : TxnId → Timestamp → S → Outcome unit * S;
  abort_writer : TxnId → S → Outcome unit * S;
  store_gc : option Timestamp → CommitRegistry → S → nat * S;
  version_count : S → nat;
  head_xmin : S → Key → option N;
}.

(** ** One key's chain, newest version first *)

Module Chain.

(** The previous head, if live, is superseded; the new version goes in front. *)
Definition create (stamp : N) (p : Payload) (c : list Version) : list Version :=
  mkVersion stamp 0 p ::
  match c with
  | v :: t => (if xmax v =? 0 then mkVersion (xmin v) stamp (payload v) else v) :: t
  | [] => []
  end.

(** [None] when the chain has no live head. *)
Definition expire (stamp : N) (c : list Version) : option (list Version) :=
  match c with
  | v :: t => if xmax v =? 0 then Some (mkVersion (xmin v) stamp (payload v) :: t) else None
  | [] => None
  end.

Definition read (c : list Version) (s : Snapshot) (r : CommitRegistry) : option Payload :=
  payload <$> head (filter (λ v, is_visible s (xmin v) (xmax v) r = true) c).

Definition settle_version (inflight committed_word : N) (v : Version) : Version :=
  mkVersion (settle inflight committed_word (xmin v)) (settle inflight committed_word (xmax v))
            (payload v).

Definition commit (inflight committed_word : N) (c : list Version) : list Version :=
  settle_version inflight committed_word <$> c.

Definition revert_version (inflight : N) (v : Version) : Version :=
  mkVersion (xmin v) (settle inflight 0 (xmax v)) (payload v).

Definition abort (inflight : N) (c : list Version) : list Version :=
  revert_version inflight <$> filter (λ v, xmin v ≠ inflight) c.

(** The closure [gc] retains a version by. *)
Definition retained (low_water : option Timestamp) (r : CommitRegistry) (v : Version) : bool :=
  match Registry.resolve_commit_ts r (xmax v) with
  | None => true
  | Some xmax_commit =>
      match low_water with Some mark => mark <? xmax_commit | None => false end
  end.

Definition gc (low_water : option Timestamp) (r : CommitRegistry) (c : list Version)
    : list Version :=
  filter (λ v, retained low_water r v = true) c.

End Chain.

(** ** The contract *)

Class VersionedStoreSpec (S : Type) `{VersionedStore S} := {
  chain_of : S → Key → list Version;
  (** A legal writer's create never panics; on success the chain of [k] has the
      new version in front and no other chain changes; on a store error nothing
      changes. *)
  create_version_spec s k w stamp p :
    in_flight w = Ok stamp →
    match create_version k w p s with
    | (Ok _, s') => ∀ k', chain_of s' k' =
        if decide (k' = k) then Chain.create stamp p (chain_of s k) else chain_of s k'
    | (Err _, s') => ∀ k', chain_of s' k' = chain_of s k'
    | (Panic _, _) => False
    end;
  expire_version_spec s k w stamp :
    in_flight w = Ok stamp →
    match expire_version k w s with
    | (Ok _, s') => ∃ c, Chain.expire stamp (chain_of s k) = Some c ∧
        ∀ k', chain_of s' k' = if decide (k' = k) then c else chain_of s k'
    | (Err _, s') => ∀ k', chain_of s' k' = chain_of s k'
    | (Panic _, _) => False
    end;
  expire_version_none s k w stamp :
    in_flight w = Ok stamp → Chain.expire stamp (chain_of s k) = None →
    is_ok (expire_version k w s).1 = false;
  read_visible_spec s k sn r : read_visible s k sn r = Chain.read (chain_of s k) sn r;
  commit_writer_spec s w stamp ts :
    in_flight w = Ok stamp →
    ∃ s', commit_writer w ts s = (Ok tt, s') ∧
      ∀ k, chain_of s' k = Chain.commit stamp (committed ts) (chain_of s k);
  abort_writer_spec s w stamp :
    in_flight w = Ok stamp →
    ∃ s', abort_writer w s = (Ok tt, s') ∧
      ∀ k, chain_of s' k = Chain.abort stamp (chain_of s k);
  gc_spec lw r s k : chain_of (store_gc lw r s).2 k = Chain.gc lw r (chain_of s k);
  gc_count lw r s :
    ((store_gc lw r s).1 + version_count (store_gc lw r s).2 = version_count s)%nat;
  head_xmin_spec s k : head_xmin s k = xmin <$> head (chain_of s k);
}.

(** ** The in-memory reference store *)

Record MemVersionedStore := mkMem { chains : gmap Key (list Version) }.

Module Mem.

Definition new : MemVersionedStore := mkMem ∅.
Definition chain (s : MemVersionedStore) (k : Key) : option (list Version) := chains s !! k.

(** [entry(key).or_default()]. *)
Definition chain_or_default (s : MemVersionedStore) (k : Key) : list Version :=
  default [] (chains s !! k).

Definition create_version (k : Key) (w : TxnId) (p : Payload) (s : MemVersionedStore)
    : Outcome unit * MemVersionedStore :=
  match in_flight w with
  | Ok stamp => (Ok tt, mkMem (<[k := Chain.create stamp p (chain_or_default s k)]> (chains s)))
  | Err e => (Err e, s)
  | Panic m => (Panic m, s)
  end.

Definition expire_version (k : Key) (w : TxnId) (s : MemVersionedStore)
    : Outcome unit * MemVersionedStore :=
  match in_flight w with
  | Ok stamp =>
      match chains s !! k ≫= Chain.expire stamp with
      | Some c => (Ok tt, mkMem (<[k := c]> (chains s)))
      | None =>
          (Err (Transaction ("expire of key " +:+ pretty k +:+ " with no live head version")), s)
      end
  | Err e => (Err e, s)
  | Panic m => (Panic m, s)
  end.

Definition read_visible (s : MemVersionedStore) (k : Key) (sn : Snapshot) (r : CommitRegistry)
    : option Payload :=
  c ← chains s !! k; Chain.read c sn r.

Definition commit_writer (w : TxnId) (ts : Timestamp) (s : MemVersionedStore)
    : Outcome unit * MemVersionedStore :=
  match in_flight w with
  | Ok inflight => (Ok tt, mkMem (Chain.commit inflight (committed ts) <$> chains s))
  | Err e => (Err e, s)
  | Panic m => (Panic m, s)
  end.

(** [chains.retain(|_, c| !c.is_empty())]. *)
Definition retain_non_empty (m : gmap Key (list Version)) : gmap Key (list Version) :=
  filter (λ p, p.2 ≠ []) m.

Definition abort_writer (w : TxnId) (s : MemVersionedStore) : Outcome unit * MemVersionedStore :=
  match in_flight w with
  | Ok inflight => (Ok tt, mkMem (retain_non_empty (Chain.abort inflight <$> chains s)))
  | Err e => (Err e, s)
  | Panic m => (Panic m, s)
  end.

Definition total (m : gmap Key (list Version)) : nat :=
  map_fold (λ _ c acc, (length c + acc)%nat) 0%nat m.

Definition reclaimed (lw : option Timestamp) (r : CommitRegistry) (m : gmap Key (list Version)) : nat :=
  map_fold (λ _ c acc, ((length c - length (Chain.gc lw r c)) + acc)%nat) 0%nat m.

Definition gc (lw : option Timestamp) (r : CommitRegistry) (s : MemVersionedStore)
    : nat * MemVersionedStore :=
  (reclaimed lw r (chains s), mkMem (retain_non_empty (Chain.gc lw r <$> chains s))).

Definition version_count (s : MemVersionedStore) : nat := total (chains s).

Definition head_xmin (s : MemVersionedStore) (k : Key) : option N :=
  xmin <$> (chains s !! k ≫= head).

End Mem.

#[global] Instance mem_versioned_store : VersionedStore MemVersionedStore := {|
  create_version := Mem.create_version;
  expire_version := Mem.expire_version;
  read_visible := Mem.read_visible;
  commit_writer := Mem.commit_writer;
  abort_writer := Mem.abort_writer;
  store_gc := Mem.gc;
  version_count := Mem.version_count;
  head_xmin := Mem.head_xmin;
|}.

(** ** Chain lemmas *)

Lemma retain_non_empty_default (m : gmap Key (list Version)) k :
  default [] (Mem.retain_non_empty m !! k) = default [] (m !! k).
Proof.
  unfold Mem.retain_non_empty. rewrite map_lookup_filter.
  destruct (m !! k) as [c|]; simpl; [|done]. case_guard as Hc; simpl; [done|].
  destruct c; [done|]. by destruct Hc.
Qed.

Lemma fmap_default_nil (f : list Version → list Version) (m : gmap Key (list Version)) k :
  f [] = [] → default [] ((f <$> m) !! k) = f (default [] (m !! k)).
Proof. intros Hf. rewrite lookup_fmap. by destruct (m !! k). Qed.

Lemma chain_gc_length lw r c : (length (Chain.gc lw r c) ≤ length c)%nat.
Proof. apply length_filter. Qed.

Lemma mem_total_insert (m : gmap Key (list Version)) k c :
  m !! k = None → Mem.total (<[k := c]> m) = (length c + Mem.total m)%nat.
Proof. intros Hk. unfold Mem.total. rewrite map_fold_insert_L; [done| |done]. intros; lia. Qed.

Lemma mem_reclaimed_insert lw r (m : gmap Key (list Version)) k c :
  m !! k = None →
  Mem.reclaimed lw r (<[k := c]> m) =
    ((length c - length (Chain.gc lw r c)) + Mem.reclaimed lw r m)%nat.
Proof. intros Hk. unfold Mem.reclaimed. rewrite map_fold_insert_L; [done| |done]. intros; lia. Qed.

Lemma mem_gc_total lw r (m : gmap Key (list Version)) :
  (Mem.reclaimed lw r m + Mem.total (Mem.retain_non_empty (Chain.gc lw r <$> m)) = Mem.total m)%nat.
Proof.
  induction m as [|k c m Hk IH] using map_ind; [done|].
  rewrite mem_reclaimed_insert, mem_total_insert by done.
  unfold Mem.retain_non_empty in *. rewrite fmap_insert.
  pose proof (chain_gc_length lw r c).
  destruct (Chain.gc lw r c) as [|v t] eqn:E; simpl in *.
  - rewrite map_filter_insert_False by naive_solver.
    rewrite delete_id by (by rewrite lookup_fmap, Hk). lia.
  - rewrite map_filter_insert_True by done.
    rewrite mem_total_insert; [simpl; lia|].
    rewrite map_lookup_filter, lookup_fmap, Hk. done.
Qed.

#[global, refine] Instance mem_versioned_store_spec : VersionedStoreSpec MemVersionedStore := {|
  chain_of := Mem.chain_or_default;
|}.
Proof.
  - intros s k w stamp p Hw. simpl. unfold Mem.create_version. rewrite Hw. intros k'.
    unfold Mem.chain_or_default; simpl. case_decide; [subst|]; by simplify_map_eq.
  - intros s k w stamp Hw. simpl. unfold Mem.expire_version. rewrite Hw.
    destruct (chains s !! k ≫= Chain.expire stamp) as [c|] eqn:E; [|done].
    destruct (chains s !! k) as [c0|] eqn:Ek; [simpl in E|done].
    exists c. unfold Mem.chain_or_default. rewrite Ek. split; [done|].
    intros k'; simpl. case_decide; [subst|]; by simplify_map_eq.
  - intros s k w stamp Hw He. simpl. unfold Mem.expire_version. rewrite Hw.
    unfold Mem.chain_or_default in He. destruct (chains s !! k); simpl in *; [|done].
    by rewrite He.
  - intros s k sn r. simpl. unfold Mem.read_visible, Mem.chain_or_default.
    by destruct (chains s !! k).
  - intros s w stamp ts Hw. simpl. unfold Mem.commit_writer. rewrite Hw.
    eexists; split; [done|]. intros k. unfold Mem.chain_or_default; simpl.
    by apply fmap_default_nil.
  - intros s w stamp Hw. simpl. unfold Mem.abort_writer. rewrite Hw.
    eexists; split; [done|]. intros k. unfold Mem.chain_or_default; simpl.
    rewrite retain_non_empty_default. by apply fmap_default_nil.
  - intros lw r s k. simpl. unfold Mem.chain_or_default; simpl.
    rewrite retain_non_empty_default. by apply fmap_default_nil.
  - intros lw r s. apply mem_gc_total.
  - intros s k. simpl. unfold Mem.head_xmin, Mem.chain_or_default.
    by destruct (chains s !! k).
Defined.

(** ** [gc.rs] *)

Record GcReport := mkGcReport {
  gc_low_water : option Timestamp;
  versions_reclaimed : nat;
  txns_pruned : nat;
}.

Definition collect {S} `{VersionedStore S} (low_water : option Timestamp) (r : CommitRegistry)
    (s : S) : GcReport * S :=
  let '(reclaimed, s') := store_gc low_water r s in
  (mkGcReport low_water reclaimed 0, s').

(** ** What a chain operation changes for a snapshot *)

Module ChainFacts.

Lemma read_ext c c' s r r' :
  Forall2 (λ v v', is_visible s (xmin v) (xmax v) r = is_visible s (xmin v') (xmax v') r' ∧
                   payload v = payload v') c c' →
  Chain.read c s r = Chain.read c' s r'.
Proof.
  unfold Chain.read. induction 1 as [|v v' c c' [Hv Hp] _ IH]; [done|].
  rewrite !filter_cons. rewrite Hv. case_decide; simpl; congruence.
Qed.

Lemma read_filter (P : Version → Prop) `{∀ v, Decision (P v)} c s r :
  (∀ v, v ∈ c → ¬ P v → is_visible s (xmin v) (xmax v) r = false) →
  Chain.read (filter P c) s r = Chain.read c s r.
Proof.
  intros Hinv. unfold Chain.read. do 2 f_equal. induction c as [|v c IH]; [done|].
  assert (∀ v, v ∈ c → ¬ P v → is_visible s (xmin v) (xmax v) r = false) as Hc by set_solver.
  specialize (IH Hc). rewrite (filter_cons P).
  destruct (decide (P v)) as [Hp|Hp]; rewrite !filter_cons.
  - case_decide; [by f_equal|done].
  - rewrite (Hinv v) by set_solver. by rewrite decide_False.
Qed.

(** A snapshot for which a word is not in effect cannot tell it from [0]. *)
Lemma visible_not_in_effect s xm w r :
  ¬ in_effect s w r → is_visible s xm w r = is_visible s xm 0 r.
Proof.
  intros Hn. apply eq_true_iff_eq. rewrite !is_visible_in_effect.
  pose proof (in_effect_zero s r). naive_solver.
Qed.

Lemma invisible_creator s xm w r : ¬ in_effect s xm r → is_visible s xm w r = false.
Proof.
  intros Hn. apply not_true_is_false. rewrite is_visible_in_effect. naive_solver.
Qed.

Lemma create_other stamp p c s r :
  ¬ in_effect s stamp r → Chain.read (Chain.create stamp p c) s r = Chain.read c s r.
Proof.
  intros Hn. unfold Chain.create, Chain.read.
  rewrite filter_cons, decide_False by (simpl; by rewrite invisible_creator).
  destruct c as [|v c]; [done|]. destruct (N.eqb_spec (xmax v) 0) as [E|]; [|done].
  rewrite !filter_cons; simpl.
  rewrite (visible_not_in_effect s (xmin v) stamp), E by done. by case_decide.
Qed.

Lemma create_own stamp p c s r :
  in_effect s stamp r → Chain.read (Chain.create stamp p c) s r = Some p.
Proof.
  intros He. unfold Chain.create, Chain.read.
  rewrite filter_cons, decide_True; [done|]. simpl. apply is_visible_in_effect.
  split; [done|apply in_effect_zero].
Qed.

Lemma expire_other stamp c c' s r :
  ¬ in_effect s stamp r → Chain.expire stamp c = Some c' →
  Chain.read c' s r = Chain.read c s r.
Proof.
  intros Hn He. destruct c as [|v c]; [done|]. simpl in He.
  destruct (N.eqb_spec (xmax v) 0) as [E|]; [|done]. injection He as <-.
  unfold Chain.read. rewrite !filter_cons; simpl.
  rewrite (visible_not_in_effect s (xmin v) stamp), E by done. by case_decide.
Qed.

Lemma abort_other stamp c s r :
  ¬ in_effect s stamp r → Chain.read (Chain.abort stamp c) s r = Chain.read c s r.
Proof.
  intros Hn. unfold Chain.abort.
  trans (Chain.read (filter (λ v, xmin v ≠ stamp) c) s r).
  - symmetry. apply read_ext, Forall2_fmap_r, Forall_Forall2_diag, Forall_forall. intros v _.
    split; [|done]. simpl. unfold settle.
    destruct (N.eqb_spec (xmax v) stamp) as [->|]; [|done]. by apply visible_not_in_effect.
  - apply read_filter. intros v _ Hv. apply dec_stable in Hv. subst stamp.
    by apply invisible_creator.
Qed.

Lemma commit_other stamp cw c s r r' :
  (∀ w, w ≠ stamp → in_effect s w r ↔ in_effect s w r') →
  (in_effect s stamp r ↔ in_effect s cw r') →
  Chain.read (Chain.commit stamp cw c) s r' = Chain.read c s r.
Proof.
  intros Hw Hs. symmetry. apply read_ext, Forall2_fmap_r, Forall_Forall2_diag, Forall_forall.
  intros v _. split; [|done]. simpl. apply eq_true_iff_eq. rewrite !is_visible_in_effect.
  unfold settle. destruct (N.eqb_spec (xmin v) stamp) as [->|], (N.eqb_spec (xmax v) stamp) as [->|];
    rewrite ?Hs, ?Hw by done; done.
Qed.

Lemma gc_read lw c s r r' :
  (∀ v, v ∈ c → ∀ ts, Registry.resolve_commit_ts r (xmax v) = Some ts →
     (∀ mark, lw = Some mark → ts ≤ mark) → in_effect s (xmax v) r) →
  (∀ v, v ∈ c → in_effect s (xmin v) r ↔ in_effect s (xmin v) r') →
  (∀ v, v ∈ c → in_effect s (xmax v) r ↔ in_effect s (xmax v) r') →
  Chain.read (Chain.gc lw r c) s r' = Chain.read c s r.
Proof.
  intros Hgc Hmin Hmax. trans (Chain.read (Chain.gc lw r c) s r).
  - symmetry. apply read_ext, Forall_Forall2_diag, Forall_forall. intros v Hv.
    split; [|done]. apply eq_true_iff_eq. rewrite !is_visible_in_effect.
    apply list_elem_of_filter in Hv as [_ Hv].
    by rewrite Hmin, Hmax.
  - apply read_filter. intros v Hv Hr. apply not_true_is_false.
    rewrite is_visible_in_effect. intros [_ Hx]. apply Hx.
    unfold Chain.retained in Hr.
    destruct (Registry.resolve_commit_ts r (xmax v)) as [ts|] eqn:E; [|done].
    apply (Hgc v Hv ts E). intros mark ->. destruct (N.ltb_spec mark ts); [done|lia].
Qed.

End ChainFacts.

(** ** Version chains in timestamp order: the lifetimes of the versions do not overlap and go back in time *)

(** The versions below a version created at [hi]. *)
Fixpoint ordered (hi : N) (c : list Version) : Prop :=
  match c with
  | [] => True
  | v :: c => xmax v ≠ 0 ∧ xmax v ≤ hi ∧ xmin v ≤ xmax v ∧ ordered (xmin v) c
  end.

Definition chain_ok (c : list Version) : Prop :=
  match c with
  | [] => True
  | v :: c => (xmax v = 0 ∨ xmin v ≤ xmax v) ∧ ordered (xmin v) c
  end.

(** Every word of the chain satisfies [P]. *)
Definition words (P : N → Prop) (c : list Version) : Prop :=
  ∀ v, v ∈ c → P (xmin v) ∧ P (xmax v).

Lemma words_cons P v c : words P (v :: c) ↔ P (xmin v) ∧ P (xmax v) ∧ words P c.
Proof. unfold words. setoid_rewrite elem_of_cons. naive_solver. Qed.

Lemma words_impl (P Q : N → Prop) c : (∀ w, P w → Q w) → words P c → words Q c.
Proof. intros H Hw v Hv. destruct (Hw v Hv). auto. Qed.

Lemma ordered_mono hi hi' c : hi ≤ hi' → ordered hi c → ordered hi' c.
Proof. destruct c; simpl; [done|]. intros ? (? & ? & ? & ?). repeat split; try done. lia. Qed.

Lemma ordered_chain_ok hi c : ordered hi c → chain_ok c.
Proof. destruct c; simpl; [done|]. naive_solver. Qed.

Lemma ordered_words hi c : ordered hi c → words (λ w, w ≤ hi) c.
Proof.
  revert hi. induction c as [|v c IH]; intros hi; simpl; [intros _ v []%not_elem_of_nil|].
  intros (_ & Hx & Hm & Ho). apply words_cons. split; [lia|]. split; [done|].
  eapply words_impl; [|by apply IH]. simpl. lia.
Qed.

(** Every version below the head was expired by the time the head was created. *)
Lemma chain_ok_tail v c v' :
  chain_ok (v :: c) → v' ∈ c → xmax v' ≠ 0 ∧ xmin v' ≤ xmax v' ∧ xmax v' ≤ xmin v.
Proof.
  intros [_ Ho] Hv'. revert v Ho. induction c as [|u c IH]; intros v Ho; [by apply not_elem_of_nil in Hv'|].
  destruct Ho as (H0 & Hx & Hm & Ho). apply elem_of_cons in Hv' as [->|Hv']; [done|].
  destruct (IH Hv' u Ho) as (? & ? & ?). repeat split; try done. lia.
Qed.

Lemma create_ok stamp p c :
  words (λ w, w ≤ stamp) c → stamp ≠ 0 → chain_ok c → chain_ok (Chain.create stamp p c).
Proof.
  intros Hw H0 Hc. split; [by left|]. destruct c as [|v c]; simpl; [done|].
  apply words_cons in Hw as (H1 & H2 & _). destruct Hc as [Hx Ho].
  destruct (N.eqb_spec (xmax v) 0) as [E|E]; simpl; [done|]. repeat split; try done. by destruct Hx.
Qed.

Lemma expire_ok stamp c c' :
  words (λ w, w ≤ stamp) c → Chain.expire stamp c = Some c' → chain_ok c → chain_ok c'.
Proof.
  intros Hw He Hc. destruct c as [|v c]; [done|]. simpl in He.
  destruct (xmax v =? 0); [|done]. injection He as <-. apply words_cons in Hw as (H1 & _).
  destruct Hc. split; simpl; auto.
Qed.

Lemma gc_ok lw r c : chain_ok c → chain_ok (Chain.gc lw r c).
Proof.
  unfold Chain.gc.
  assert (∀ hi c, ordered hi c → ordered hi (filter (λ v, Chain.retained lw r v = true) c)) as Ho.
  { intros hi c0. revert hi. induction c0 as [|v c0 IH]; intros hi; [done|].
    intros (? & ? & ? & Hc). rewrite filter_cons. apply IH in Hc. case_decide; [done|].
    eapply ordered_mono; [|done]. lia. }
  destruct c as [|v c]; [done|]. intros [Hx Hc]. rewrite filter_cons. apply Ho in Hc.
  case_decide; [done|]. eauto using ordered_chain_ok.
Qed.

(** Settling words by a monotone map that fixes the sentinel. *)
Lemma map_ok (f : N → N) (P : N → Prop) c :
  (∀ w w', P w → P w' → w ≤ w' → f w ≤ f w') → (∀ w, f w = 0 ↔ w = 0) →
  words P c → chain_ok c →
  chain_ok ((λ v, mkVersion (f (xmin v)) (f (xmax v)) (payload v)) <$> c).
Proof.
  intros Hf H0 Hw Hc.
  assert (∀ hi c, P hi → words P c → ordered hi c →
    ordered (f hi) ((λ v, mkVersion (f (xmin v)) (f (xmax v)) (payload v)) <$> c)) as Ho.
  { intros hi c0. revert hi. induction c0 as [|v c0 IH]; intros hi Hhi; [done|].
    intros (H1 & H2 & Hw')%words_cons (? & ? & ? & ?). simpl. rewrite H0.
    repeat split; eauto. }
  destruct c as [|v c]; [done|]. apply words_cons in Hw as (H1 & H2 & Hw). destruct Hc as [Hx Hc].
  simpl. split; [|eauto]. destruct Hx as [->|Hx]; [left; by apply H0|right; eauto].
Qed.

Lemma abort_id stamp c : words (λ w, w ≠ stamp) c → Chain.abort stamp c = c.
Proof.
  unfold Chain.abort. induction c as [|v c IH]; [done|]. intros (H1 & H2 & Hw)%words_cons.
  rewrite filter_cons, decide_True by done. rewrite fmap_cons, IH by done. f_equal.
  unfold Chain.revert_version, settle. destruct v as [mn mx pl]; simpl in *.
  by destruct (N.eqb_spec mx stamp).
Qed.

Lemma commit_id stamp cw c : words (λ w, w ≠ stamp) c → Chain.commit stamp cw c = c.
Proof.
  unfold Chain.commit. induction c as [|v c IH]; [done|]. intros (H1 & H2 & Hw)%words_cons.
  rewrite fmap_cons, IH by done. f_equal. unfold Chain.settle_version, settle. destruct v as [mn mx pl]; simpl in *.
  by destruct (N.eqb_spec mn stamp), (N.eqb_spec mx stamp).
Qed.

Lemma words_lt_ne hi stamp c : hi < stamp → ordered hi c → words (λ w, w ≠ stamp) c.
Proof. intros ? Ho%ordered_words. eapply words_impl; [|done]. simpl. lia. Qed.

(** An abort removes the writer's own versions, all in front, and revives the
    version below them if the writer expired it. *)
Lemma abort_ok stamp c :
  stamp ≠ 0 → words (λ w, w ≤ stamp) c → chain_ok c → chain_ok (Chain.abort stamp c).
Proof.
  intros H0. induction c as [|v c IH]; [done|]. intros (H1 & H2 & Hw)%words_cons [Hx Ho].
  unfold Chain.abort in *. rewrite filter_cons. destruct (decide (xmin v ≠ stamp)) as [Hne|He].
  - rewrite fmap_cons. fold (Chain.abort stamp c).
    rewrite abort_id by (eapply words_lt_ne; [|done]; lia).
    split; [|done]. simpl. unfold settle. destruct (xmax v =? stamp); [by left|done].
  - apply IH; [done|]. eauto using ordered_chain_ok.
Qed.
