(* ===== verification/Ssi.v ===== *)
(** * graphus-txn: the SSI conflict tracker

    [src/crates/graphus-txn/src/ssi.rs]. Hash maps and sets are [gmap] and
    [gset]. Where the source iterates over a hash set the model uses the set's
    canonical enumeration; the results are shown not to depend on it. *)

From stdpp Require Import options.
From S2P Require Import Prelude Core VStore.

(** ** Predicate SIREAD markers *)

Inductive PredicateRead :=
  | AllNodes
  | Label (label : N)
  | Equality (label property : N) (value : list N)
  | AnyRel
  | RelType (rel_type : N)
  | RelEquality (rel_type property : N) (value : list N).

#[global] Instance PredicateRead_eq_dec : EqDecision PredicateRead.
Proof. solve_decision. Defined.

#[global] Instance PredicateRead_countable : Countable PredicateRead.
Proof.
  refine (inj_countable'
    (λ p, match p with
          | AllNodes => (0, []) | Label l => (1, [l]) | Equality l q v => (2, l :: q :: v)
          | AnyRel => (3, []) | RelType t => (4, [t]) | RelEquality t q v => (5, t :: q :: v)
          end)
    (λ e : N * list N, match e with
          | (1, [l]) => Label l | (2, l :: q :: v) => Equality l q v
          | (3, []) => AnyRel | (4, [t]) => RelType t | (5, t :: q :: v) => RelEquality t q v
          | _ => AllNodes
          end) _).
  by intros [].
Defined.

(** [#[derive(PartialOrd, Ord)]]: variant index first, then the fields in
    order, a [Vec<u8>] lexicographically. *)
Definition pr_index (p : PredicateRead) : N :=
  match p with
  | AllNodes => 0 | Label _ => 1 | Equality _ _ _ => 2
  | AnyRel => 3 | RelType _ => 4 | RelEquality _ _ _ => 5
  end.
Definition pr_fields (p : PredicateRead) : list N :=
  match p with
  | AllNodes | AnyRel => []
  | Label l | RelType l => [l]
  | Equality l q v | RelEquality l q v => l :: q :: v
  end.

Fixpoint lex_le (a b : list N) : bool :=
  match a, b with
  | [], _ => true
  | _ :: _, [] => false
  | x :: a', y :: b' => (x <? y) || ((x =? y) && lex_le a' b')
  end.

Definition pr_le (p q : PredicateRead) : Prop :=
  lex_le (pr_index p :: pr_fields p) (pr_index q :: pr_fields q) = true.

#[global] Instance pr_le_dec : RelDecision pr_le.
Proof. intros p q. unfold pr_le. apply _. Defined.

(** ** State *)

Record TxnConflict := mkConflict {
  reads : gset Key;
  predicate_reads : gset PredicateRead;
  writes : gset Key;
  predicate_writes : gset PredicateRead;
  in_conflict : bool;
  out_conflict : bool;
  out_edges : gset TxnId;
  in_edges : gset TxnId;
  commit_ts : option Timestamp;
  begin_ts : Timestamp;
}.

Record SsiTracker := mkSsi {
  txns : gmap TxnId TxnConflict;
  readers_of : gmap Key (gset TxnId);
  predicate_readers_of : gmap PredicateRead (gset TxnId);
  writers_of : gmap Key (gset TxnId);
  predicate_writers_of : gmap PredicateRead (gset TxnId);
  doomed : gset TxnId;
  snapshot_txns : gset TxnId;
}.

Record SsiReadBuffer := mkBuffer {
  reader : TxnId;
  keys : list Key;
  predicates : list PredicateRead;
}.

(** Field updates of a conflict record. *)
Definition add_read (k : Key) (t : TxnConflict) : TxnConflict :=
  mkConflict ({[k]} ∪ reads t) (predicate_reads t) (writes t) (predicate_writes t)
    (in_conflict t) (out_conflict t) (out_edges t) (in_edges t) (commit_ts t) (begin_ts t).
Definition add_predicate_read (p : PredicateRead) (t : TxnConflict) : TxnConflict :=
  mkConflict (reads t) ({[p]} ∪ predicate_reads t) (writes t) (predicate_writes t)
    (in_conflict t) (out_conflict t) (out_edges t) (in_edges t) (commit_ts t) (begin_ts t).
Definition add_write (k : Key) (t : TxnConflict) : TxnConflict :=
  mkConflict (reads t) (predicate_reads t) ({[k]} ∪ writes t) (predicate_writes t)
    (in_conflict t) (out_conflict t) (out_edges t) (in_edges t) (commit_ts t) (begin_ts t).
Definition add_predicate_write (p : PredicateRead) (t : TxnConflict) : TxnConflict :=
  mkConflict (reads t) (predicate_reads t) (writes t) ({[p]} ∪ predicate_writes t)
    (in_conflict t) (out_conflict t) (out_edges t) (in_edges t) (commit_ts t) (begin_ts t).
Definition add_out (to : TxnId) (t : TxnConflict) : TxnConflict :=
  mkConflict (reads t) (predicate_reads t) (writes t) (predicate_writes t)
    (in_conflict t) true ({[to]} ∪ out_edges t) (in_edges t) (commit_ts t) (begin_ts t).
Definition add_in (from : TxnId) (t : TxnConflict) : TxnConflict :=
  mkConflict (reads t) (predicate_reads t) (writes t) (predicate_writes t)
    true (out_conflict t) (out_edges t) ({[from]} ∪ in_edges t) (commit_ts t) (begin_ts t).
Definition set_commit (ts : Timestamp) (t : TxnConflict) : TxnConflict :=
  mkConflict (reads t) (predicate_reads t) (writes t) (predicate_writes t)
    (in_conflict t) (out_conflict t) (out_edges t) (in_edges t) (Some ts) (begin_ts t).
(** [survivor.in_edges.remove(&txn); survivor.in_conflict = !in_edges.is_empty()]. *)
Definition drop_in (txn : TxnId) (t : TxnConflict) : TxnConflict :=
  let e := in_edges t ∖ {[txn]} in
  mkConflict (reads t) (predicate_reads t) (writes t) (predicate_writes t)
    (bool_decide (e ≠ ∅)) (out_conflict t) (out_edges t) e (commit_ts t) (begin_ts t).
Definition drop_out (txn : TxnId) (t : TxnConflict) : TxnConflict :=
  let e := out_edges t ∖ {[txn]} in
  mkConflict (reads t) (predicate_reads t) (writes t) (predicate_writes t)
    (in_conflict t) (bool_decide (e ≠ ∅)) e (in_edges t) (commit_ts t) (begin_ts t).

(** [TxnConflict { begin_ts, ..TxnConflict::default() }]. *)
Definition fresh_conflict (b : Timestamp) : TxnConflict :=
  mkConflict ∅ ∅ ∅ ∅ false false ∅ ∅ None b.

Definition with_txns (f : gmap TxnId TxnConflict → gmap TxnId TxnConflict) (s : SsiTracker)
    : SsiTracker :=
  mkSsi (f (txns s)) (readers_of s) (predicate_readers_of s) (writers_of s)
    (predicate_writers_of s) (doomed s) (snapshot_txns s).
Definition with_doomed (d : gset TxnId) (s : SsiTracker) : SsiTracker :=
  mkSsi (txns s) (readers_of s) (predicate_readers_of s) (writers_of s)
    (predicate_writers_of s) d (snapshot_txns s).

Section reverse_index.
Context {K : Type} `{Countable K}.

(** The transactions an index lists under a key. *)
Definition idx (m : gmap K (gset TxnId)) (k : K) : gset TxnId := default ∅ (m !! k).

(** [entry(key).or_default().insert(txn)]. *)
Definition index_add (txn : TxnId) (k : K) (m : gmap K (gset TxnId)) : gmap K (gset TxnId) :=
  <[k := {[txn]} ∪ idx m k]> m.

(** [if let Some(set) = get_mut(&key) { set.remove(&txn); if set.is_empty() { remove(&key) } }]. *)
Definition index_remove (txn : TxnId) (k : K) (m : gmap K (gset TxnId)) : gmap K (gset TxnId) :=
  match m !! k with
  | Some set =>
      let set' := set ∖ {[txn]} in
      if bool_decide (set' = ∅) then delete k m else <[k := set']> m
  | None => m
  end.

Definition index_purge (txn : TxnId) (ks : gset K) (m : gmap K (gset TxnId))
    : gmap K (gset TxnId) := foldr (index_remove txn) m (elements ks).

End reverse_index.

(** ** The per-reader marker buffer *)

Module Buffer.

Definition new (r : TxnId) : SsiReadBuffer := mkBuffer r [] [].
Definition is_empty (b : SsiReadBuffer) : bool :=
  bool_decide (keys b = []) && bool_decide (predicates b = []).
Definition record_read (k : Key) (b : SsiReadBuffer) : SsiReadBuffer :=
  mkBuffer (reader b) (keys b ++ [k]) (predicates b).
Definition record_predicate_read (p : PredicateRead) (b : SsiReadBuffer) : SsiReadBuffer :=
  mkBuffer (reader b) (keys b) (predicates b ++ [p]).
(** The [debug_assert_eq!] on the two readers is compiled out of release builds. *)
Definition absorb (other b : SsiReadBuffer) : SsiReadBuffer :=
  mkBuffer (reader b) (keys b ++ keys other) (predicates b ++ predicates other).
(** [sort_unstable] then [dedup]; equal elements are identical, so any sort is. *)
Definition into_sorted_markers (b : SsiReadBuffer) : TxnId * list Key * list PredicateRead :=
  (reader b, dedup (merge_sort N.le (keys b)), dedup (merge_sort pr_le (predicates b))).

End Buffer.

(** ** The tracker *)

Module Ssi.

Definition new : SsiTracker := mkSsi ∅ ∅ ∅ ∅ ∅ ∅ ∅.

Definition register (txn : TxnId) (b : Timestamp) (s : SsiTracker) : SsiTracker :=
  match txns s !! txn with
  | Some _ => s
  | None => with_txns (insert txn (fresh_conflict b)) s
  end.

Definition mark_snapshot (txn : TxnId) (s : SsiTracker) : SsiTracker :=
  mkSsi (txns s) (readers_of s) (predicate_readers_of s) (writers_of s)
    (predicate_writers_of s) (doomed s) ({[txn]} ∪ snapshot_txns s).

Definition is_snapshot (txn : TxnId) (s : SsiTracker) : bool :=
  bool_decide (txn ∈ snapshot_txns s).

Definition committed_by (t : TxnConflict) (b : Timestamp) : bool :=
  match commit_ts t with Some c => c <=? b | None => false end.

Definition are_concurrent (s : SsiTracker) (a b : TxnId) : bool :=
  match txns s !! a, txns s !! b with
  | Some ta, Some tb =>
      negb (committed_by ta (begin_ts tb)) && negb (committed_by tb (begin_ts ta))
  | _, _ => false
  end.

Definition pivot_committed (s : SsiTracker) (p : TxnId) : bool :=
  match txns s !! p with
  | Some t => in_conflict t && out_conflict t && bool_decide (is_Some (commit_ts t))
  | None => false
  end.

Definition active (s : SsiTracker) (p : TxnId) : bool :=
  match txns s !! p with Some t => bool_decide (commit_ts t = None) | None => false end.

Definition add_edge (from to : TxnId) (s : SsiTracker) : SsiTracker :=
  if from =? to then s else
  let s := with_txns (alter (add_out to) from) s in
  let s := with_txns (alter (add_in from) to) s in
  let s := if pivot_committed s to && active s from
           then with_doomed ({[from]} ∪ doomed s) s else s in
  if pivot_committed s from && active s to
  then with_doomed ({[to]} ∪ doomed s) s else s.

(** The candidates of an index entry that are concurrent with [txn]. *)
Definition concurrent_of (s : SsiTracker) (txn : TxnId) (c : gset TxnId) : list TxnId :=
  filter (λ w, w ≠ txn ∧ are_concurrent s txn w = true) (elements c).
Definition concurrent_with (s : SsiTracker) (txn : TxnId) (c : gset TxnId) : list TxnId :=
  filter (λ r, r ≠ txn ∧ are_concurrent s r txn = true) (elements c).

Definition record_read (r : TxnId) (k : Key) (s : SsiTracker) : SsiTracker :=
  let s := with_txns (alter (add_read k) r) s in
  let s := mkSsi (txns s) (index_add r k (readers_of s)) (predicate_readers_of s)
             (writers_of s) (predicate_writers_of s) (doomed s) (snapshot_txns s) in
  let concurrent_writers := concurrent_of s r (idx (writers_of s) k) in
  foldl (λ s w, add_edge r w s) s concurrent_writers.

Definition record_write (w : TxnId) (k : Key) (s : SsiTracker) : SsiTracker :=
  let s := with_txns (alter (add_write k) w) s in
  let s := mkSsi (txns s) (readers_of s) (predicate_readers_of s)
             (index_add w k (writers_of s)) (predicate_writers_of s) (doomed s)
             (snapshot_txns s) in
  let readers := concurrent_with s w (idx (readers_of s) k) in
  foldl (λ s r, add_edge r w s) s readers.

Definition record_predicate_read (r : TxnId) (p : PredicateRead) (s : SsiTracker) : SsiTracker :=
  let s := with_txns (alter (add_predicate_read p) r) s in
  let s := mkSsi (txns s) (readers_of s) (index_add r p (predicate_readers_of s))
             (writers_of s) (predicate_writers_of s) (doomed s) (snapshot_txns s) in
  let concurrent_writers := concurrent_of s r (idx (predicate_writers_of s) p) in
  foldl (λ s w, add_edge r w s) s concurrent_writers.

Definition record_predicate_write1 (w : TxnId) (s : SsiTracker) (p : PredicateRead) : SsiTracker :=
  let s := with_txns (alter (add_predicate_write p) w) s in
  let s := mkSsi (txns s) (readers_of s) (predicate_readers_of s) (writers_of s)
             (index_add w p (predicate_writers_of s)) (doomed s) (snapshot_txns s) in
  let readers := concurrent_with s w (idx (predicate_readers_of s) p) in
  foldl (λ s r, add_edge r w s) s readers.

Definition record_predicate_write (w : TxnId) (footprint : list PredicateRead) (s : SsiTracker)
    : SsiTracker := foldl (record_predicate_write1 w) s footprint.

Definition merge_read_buffer (b : SsiReadBuffer) (s : SsiTracker) : SsiTracker :=
  if bool_decide (reader b ∈ snapshot_txns s) then s else
  let keys := dedup (merge_sort N.le (keys b)) in
  let predicates := dedup (merge_sort pr_le (predicates b)) in
  let s := foldl (λ s k, record_read (reader b) k s) s keys in
  foldl (λ s p, record_predicate_read (reader b) p s) s predicates.

Definition doom (victim : TxnId) (s : SsiTracker) : bool * SsiTracker :=
  match txns s !! victim with
  | Some t =>
      if bool_decide (is_Some (commit_ts t)) then (false, s)
      else (true, with_doomed ({[victim]} ∪ doomed s) s)
  | None => (false, s)
  end.

(** Case A of the source: the outbound partner committed or is concurrent. *)
Definition closes (s : SsiTracker) (txn : TxnId) (t : TxnConflict) : bool :=
  existsb (λ out, match txns s !! out with
                  | Some o => bool_decide (is_Some (commit_ts o)) || are_concurrent s txn out
                  | None => false
                  end) (elements (out_edges t)).

(** Case B: a still-running pivot whose outbound edge reaches [txn]. *)
Definition running_pivot_into (txn : TxnId) (p : TxnId * TxnConflict) : bool :=
  negb (p.1 =? txn) && in_conflict p.2 && out_conflict p.2 &&
  bool_decide (txn ∈ out_edges p.2) && bool_decide (commit_ts p.2 = None).

Definition detect_pivot_abort (s : SsiTracker) (txn : TxnId) : option TxnId :=
  if bool_decide (txn ∈ doomed s) then Some txn else
  match txns s !! txn with
  | None => None
  | Some t =>
      if bool_decide (writes t = ∅) && negb (out_conflict t) then None
      else if in_conflict t && out_conflict t && closes s txn t then Some txn
      else list_min (filter (λ p, running_pivot_into txn p = true) (map_to_list (txns s))).*1
  end.

Definition record_commit (txn : TxnId) (ts : Timestamp) (s : SsiTracker) : SsiTracker :=
  with_txns (alter (set_commit ts) txn) s.

Definition forget (txn : TxnId) (s : SsiTracker) : SsiTracker :=
  let d := doomed s ∖ {[txn]} in
  let sn := snapshot_txns s ∖ {[txn]} in
  match txns s !! txn with
  | None => mkSsi (txns s) (readers_of s) (predicate_readers_of s) (writers_of s)
              (predicate_writers_of s) d sn
  | Some t =>
      let m := delete txn (txns s) in
      let m := foldr (alter (drop_in txn)) m (elements (out_edges t)) in
      let m := foldr (alter (drop_out txn)) m (elements (in_edges t)) in
      mkSsi m
        (index_purge txn (reads t) (readers_of s))
        (index_purge txn (predicate_reads t) (predicate_readers_of s))
        (index_purge txn (writes t) (writers_of s))
        (index_purge txn (predicate_writes t) (predicate_writers_of s))
        d sn
  end.

(** A committed record every live transaction began after. *)
Definition settled (low_water : option Timestamp) (t : TxnConflict) : bool :=
  match commit_ts t with
  | Some c => match low_water with Some mark => c <=? mark | None => true end
  | None => false
  end.

Definition prune_committed (low_water : option Timestamp) (s : SsiTracker) : nat * SsiTracker :=
  let victims := (filter (λ p, settled low_water p.2 = true) (map_to_list (txns s))).*1 in
  (length victims, foldl (λ s txn, forget txn s) s victims).

Definition is_pivot (s : SsiTracker) (txn : TxnId) : bool :=
  match txns s !! txn with Some t => in_conflict t && out_conflict t | None => false end.

Definition tracks (s : SsiTracker) (txn : TxnId) : bool :=
  bool_decide (is_Some (txns s !! txn)) || bool_decide (txn ∈ doomed s).

Definition tracked_len (s : SsiTracker) : nat := size (txns s).

End Ssi.

(** The operations are reasoned about through their lemmas. *)
#[global] Arguments Ssi.register : simpl never.
#[global] Arguments Ssi.record_commit : simpl never.
#[global] Arguments Ssi.forget : simpl never.
#[global] Arguments Ssi.record_read : simpl never.
#[global] Arguments Ssi.record_write : simpl never.
#[global] Arguments Ssi.prune_committed : simpl never.
