(* ===== verification/SsiFacts.v ===== *)
(** * The SSI tracker: invariant and functional behaviour

    The tracker's well-formedness [SsiWf.wf] says that its four reverse indexes
    agree with the per-transaction marker sets, that its edges are exactly the
    rw-antidependencies between concurrent tracked transactions, that in- and
    out-edges mirror each other, that the two conflict flags say whether there
    are edges, and that only tracked transactions are doomed. Every operation
    preserves it. *)

From stdpp Require Import options.
From S2P Require Import Prelude Core VStore Ssi.

(** ** Reverse indexes *)

Section reverse_index_facts.
Context {K : Type} `{Countable K}.
Implicit Types (m : gmap K (gset TxnId)) (k : K).

Lemma idx_add txn k m k' :
  idx (index_add txn k m) k' = if decide (k' = k) then {[txn]} ∪ idx m k else idx m k'.
Proof. unfold index_add, idx. case_decide; [subst|]; by simplify_map_eq. Qed.

Lemma idx_remove txn k m k' :
  idx (index_remove txn k m) k' = if decide (k' = k) then idx m k ∖ {[txn]} else idx m k'.
Proof.
  unfold index_remove, idx. destruct (m !! k) as [set|] eqn:E; simpl.
  - case_bool_decide as Hs; (case_decide; [subst; simplify_map_eq; set_solver|by simplify_map_eq]).
  - case_decide; [subst; rewrite E; set_solver|done].
Qed.

Lemma idx_foldr_remove txn (l : list K) m k :
  idx (foldr (index_remove txn) m l) k = if decide (k ∈ l) then idx m k ∖ {[txn]} else idx m k.
Proof.
  induction l as [|x l IH]; cbn [foldr].
  - by rewrite decide_False by apply not_elem_of_nil.
  - rewrite idx_remove. destruct (decide (k = x)) as [->|Hx].
    + rewrite IH. rewrite (decide_True (P := x ∈ x :: l)) by set_solver.
      case_decide; set_solver.
    + rewrite IH. apply decide_ext. set_solver.
Qed.

Lemma idx_purge txn (ks : gset K) m k :
  idx (index_purge txn ks m) k = if decide (k ∈ ks) then idx m k ∖ {[txn]} else idx m k.
Proof.
  unfold index_purge. rewrite idx_foldr_remove. apply decide_ext. apply elem_of_elements.
Qed.

End reverse_index_facts.

(** ** The relations the tracker maintains *)

Module SsiWf.

Definition edge (s : SsiTracker) (a b : TxnId) : Prop :=
  ∃ ta, txns s !! a = Some ta ∧ b ∈ out_edges ta.
Definition redge (s : SsiTracker) (a b : TxnId) : Prop :=
  ∃ tb, txns s !! b = Some tb ∧ a ∈ in_edges tb.

(** [ta] read something [tb] wrote. *)
Definition rw (ta tb : TxnConflict) : Prop :=
  (∃ k, k ∈ reads ta ∧ k ∈ writes tb) ∨
  (∃ p, p ∈ predicate_reads ta ∧ p ∈ predicate_writes tb).

(** A rw-antidependency between two concurrent tracked transactions. *)
Definition rw_conflict (s : SsiTracker) (a b : TxnId) : Prop :=
  a ≠ b ∧ Ssi.are_concurrent s a b = true ∧
  ∃ ta tb, txns s !! a = Some ta ∧ txns s !! b = Some tb ∧ rw ta tb.

Record wf (s : SsiTracker) : Prop := {
  wf_readers : ∀ k x, x ∈ idx (readers_of s) k ↔ ∃ t, txns s !! x = Some t ∧ k ∈ reads t;
  wf_writers : ∀ k x, x ∈ idx (writers_of s) k ↔ ∃ t, txns s !! x = Some t ∧ k ∈ writes t;
  wf_predicate_readers : ∀ p x,
    x ∈ idx (predicate_readers_of s) p ↔ ∃ t, txns s !! x = Some t ∧ p ∈ predicate_reads t;
  wf_predicate_writers : ∀ p x,
    x ∈ idx (predicate_writers_of s) p ↔ ∃ t, txns s !! x = Some t ∧ p ∈ predicate_writes t;
  wf_edge : ∀ a b, edge s a b ↔ rw_conflict s a b;
  wf_redge : ∀ a b, redge s a b ↔ edge s a b;
  wf_out_flag : ∀ a t, txns s !! a = Some t → out_conflict t = bool_decide (out_edges t ≠ ∅);
  wf_in_flag : ∀ a t, txns s !! a = Some t → in_conflict t = bool_decide (in_edges t ≠ ∅);
  wf_doomed : doomed s ⊆ dom (txns s);
}.

(** The part of a record that edges do not touch. *)
Definition core (t : TxnConflict) :=
  (reads t, predicate_reads t, writes t, predicate_writes t, commit_ts t, begin_ts t).

Definition same_core (s s' : SsiTracker) : Prop :=
  ∀ x, core <$> txns s' !! x = core <$> txns s !! x.

Lemma same_core_Some s s' x t' :
  same_core s s' → txns s' !! x = Some t' → ∃ t, txns s !! x = Some t ∧ core t' = core t.
Proof.
  intros Hc Hx. specialize (Hc x). rewrite Hx in Hc. simpl in Hc.
  destruct (txns s !! x) as [t|]; [|done]. apply (inj Some) in Hc. eauto.
Qed.

Lemma same_core_sym s s' : same_core s s' → same_core s' s.
Proof. intros Hc x. by rewrite Hc. Qed.

Lemma core_inv t t' : core t = core t' →
  reads t = reads t' ∧ predicate_reads t = predicate_reads t' ∧ writes t = writes t' ∧
  predicate_writes t = predicate_writes t' ∧ commit_ts t = commit_ts t' ∧ begin_ts t = begin_ts t'.
Proof. unfold core. intros [=]. auto 10. Qed.

Lemma concurrent_same_core s s' a b :
  same_core s s' → Ssi.are_concurrent s' a b = Ssi.are_concurrent s a b.
Proof.
  intros Hc. pose proof (Hc a) as Ha. pose proof (Hc b) as Hb.
  unfold Ssi.are_concurrent, Ssi.committed_by.
  destruct (txns s !! a), (txns s !! b), (txns s' !! a), (txns s' !! b); try done; simpl in *.
  apply (inj Some), core_inv in Ha as (_ & _ & _ & _ & -> & ->).
  by apply (inj Some), core_inv in Hb as (_ & _ & _ & _ & -> & ->).
Qed.

Lemma rw_conflict_same_core s s' a b :
  same_core s s' → rw_conflict s' a b ↔ rw_conflict s a b.
Proof.
  intros Hc.
  assert (∀ s s', same_core s s' → rw_conflict s' a b → rw_conflict s a b) as Himp.
  { clear. intros s s' Hc (Hne & Hco & ta & tb & Ha & Hb & Hrw).
    rewrite (concurrent_same_core s s') in Hco by done.
    destruct (same_core_Some s s' a ta Hc Ha) as (ta' & Ha' & Eca).
    destruct (same_core_Some s s' b tb Hc Hb) as (tb' & Hb' & Ecb).
    apply core_inv in Eca as (Er & Ep & _ & _ & _ & _), Ecb as (_ & _ & Ew & Epw & _ & _).
    split; [done|]. split; [done|]. exists ta', tb'. unfold rw in *.
    by rewrite <- Er, <- Ep, <- Ew, <- Epw. }
  split; apply Himp; auto using same_core_sym.
Qed.

(** ** [add_edge] *)

Definition add_edges (es : list (TxnId * TxnId)) (s : SsiTracker) : SsiTracker :=
  foldl (λ s e, Ssi.add_edge e.1 e.2 s) s es.

(** The transaction table after an edge; dooming does not touch it. *)
Lemma add_edge_txns from to s :
  txns (Ssi.add_edge from to s) =
    if from =? to then txns s
    else alter (add_in from) to (alter (add_out to) from (txns s)).
Proof. unfold Ssi.add_edge. destruct (from =? to); repeat case_match; done. Qed.

Lemma add_edge_frame from to s :
  let s' := Ssi.add_edge from to s in
  readers_of s' = readers_of s ∧ writers_of s' = writers_of s ∧
  predicate_readers_of s' = predicate_readers_of s ∧
  predicate_writers_of s' = predicate_writers_of s ∧ snapshot_txns s' = snapshot_txns s.
Proof. unfold Ssi.add_edge. destruct (from =? to); repeat case_match; done. Qed.

Lemma add_edge_lookup from to s x :
  from ≠ to →
  txns (Ssi.add_edge from to s) !! x =
    (λ t, (if decide (x = to) then add_in from else id)
            ((if decide (x = from) then add_out to else id) t)) <$> txns s !! x.
Proof.
  intros Hne. rewrite add_edge_txns, (proj2 (N.eqb_neq _ _)) by done.
  rewrite !lookup_alter. repeat case_decide; subst; try done; destruct (txns s !! _); done.
Qed.

Lemma add_edge_same_core from to s : same_core s (Ssi.add_edge from to s).
Proof.
  intros x. destruct (decide (from = to)) as [->|Hne].
  { by rewrite add_edge_txns, N.eqb_refl. }
  rewrite add_edge_lookup by done. destruct (txns s !! x); simpl; [|done].
  by repeat case_decide.
Qed.

Lemma add_edge_edge from to s a b :
  edge (Ssi.add_edge from to s) a b ↔
    edge s a b ∨ (a = from ∧ b = to ∧ from ≠ to ∧ is_Some (txns s !! from)).
Proof.
  unfold edge. destruct (decide (from = to)) as [->|Hne].
  { rewrite add_edge_txns, N.eqb_refl. naive_solver. }
  setoid_rewrite add_edge_lookup; [|done].
  destruct (txns s !! a) as [t|] eqn:Ea; simpl.
  - split.
    + intros (ta & [= <-] & Hb). repeat case_decide; subst; simpl in *; try naive_solver;
        apply elem_of_union in Hb as [->%elem_of_singleton|]; naive_solver.
    + intros [(ta & [= <-] & Hb)|(-> & -> & _ & _)]; eexists; (split; [done|]);
        repeat case_decide; simpl; set_solver.
  - split; [naive_solver|]. intros [?|(-> & _ & _ & [? Hs])]; [naive_solver|congruence].
Qed.

Lemma add_edge_redge from to s a b :
  redge (Ssi.add_edge from to s) a b ↔
    redge s a b ∨ (a = from ∧ b = to ∧ from ≠ to ∧ is_Some (txns s !! to)).
Proof.
  unfold redge. destruct (decide (from = to)) as [->|Hne].
  { rewrite add_edge_txns, N.eqb_refl. naive_solver. }
  setoid_rewrite add_edge_lookup; [|done].
  destruct (txns s !! b) as [t|] eqn:Ea; simpl.
  - split.
    + intros (ta & [= <-] & Hb). repeat case_decide; subst; simpl in *; try naive_solver;
        apply elem_of_union in Hb as [->%elem_of_singleton|]; naive_solver.
    + intros [(ta & [= <-] & Hb)|(-> & -> & _ & _)]; eexists; (split; [done|]);
        repeat case_decide; simpl; set_solver.
  - split; [naive_solver|]. intros [?|(_ & -> & _ & [? Hs])]; [naive_solver|congruence].
Qed.

(** The flag discipline, for the whole table. *)
Definition flags_ok (s : SsiTracker) : Prop :=
  ∀ a t, txns s !! a = Some t →
    out_conflict t = bool_decide (out_edges t ≠ ∅) ∧ in_conflict t = bool_decide (in_edges t ≠ ∅).

Lemma add_edge_flags from to s : flags_ok s → flags_ok (Ssi.add_edge from to s).
Proof.
  intros Hf a t. destruct (decide (from = to)) as [->|Hne].
  { rewrite add_edge_txns, N.eqb_refl. apply Hf. }
  rewrite add_edge_lookup by done.
  destruct (txns s !! a) as [t0|] eqn:Ea; simpl; [|done]. intros [= <-].
  destruct (Hf a t0 Ea) as [Ho Hi].
  destruct (decide (a = to)), (decide (a = from)); subst; try done;
    (split; [try done|try done]); symmetry; apply bool_decide_eq_true_2; set_solver.
Qed.

Lemma add_edge_doomed from to s :
  doomed s ⊆ dom (txns s) → doomed (Ssi.add_edge from to s) ⊆ dom (txns s).
Proof.
  intros Hd. unfold Ssi.add_edge. destruct (N.eqb_spec from to); [done|].
  assert (∀ s' x, Ssi.active s' x = true → x ∈ dom (txns s')) as Hact.
  { intros s' x. unfold Ssi.active. rewrite elem_of_dom. destruct (txns s' !! x); naive_solver. }
  assert (∀ f g (m : gmap TxnId TxnConflict) x y, dom (alter f x (alter g y m)) = dom m) as Hdom.
  { intros. by rewrite !dom_alter_L. }
  case_match eqn:E1; case_match eqn:E2; bool_solve;
    repeat match goal with H : Ssi.active _ _ = true |- _ => apply Hact in H; simpl in H end;
    simpl; rewrite ?Hdom in *; set_solver.
Qed.

Lemma add_edges_edge es s a b :
  edge (add_edges es s) a b ↔
    edge s a b ∨ ((a, b) ∈ es ∧ a ≠ b ∧ is_Some (txns s !! a)).
Proof.
  revert s. induction es as [|[x y] es IH]; intros s; simpl; [set_solver|].
  rewrite IH, add_edge_edge. rewrite elem_of_cons.
  assert (is_Some (txns (Ssi.add_edge x y s) !! a) ↔ is_Some (txns s !! a)) as ->.
  { rewrite <- !(fmap_is_Some core). by rewrite (add_edge_same_core x y s a). }
  naive_solver.
Qed.

Lemma add_edges_redge es s a b :
  redge (add_edges es s) a b ↔
    redge s a b ∨ ((a, b) ∈ es ∧ a ≠ b ∧ is_Some (txns s !! b)).
Proof.
  revert s. induction es as [|[x y] es IH]; intros s; simpl; [set_solver|].
  rewrite IH, add_edge_redge. rewrite elem_of_cons.
  assert (is_Some (txns (Ssi.add_edge x y s) !! b) ↔ is_Some (txns s !! b)) as ->.
  { rewrite <- !(fmap_is_Some core). by rewrite (add_edge_same_core x y s b). }
  naive_solver.
Qed.

Lemma add_edges_same_core es s : same_core s (add_edges es s).
Proof.
  revert s. induction es as [|[x y] es IH]; intros s z; simpl; [done|].
  by rewrite IH, add_edge_same_core.
Qed.

Lemma add_edges_flags es s : flags_ok s → flags_ok (add_edges es s).
Proof.
  revert s. induction es as [|[x y] es IH]; intros s Hf; simpl; [done|].
  apply IH. by apply add_edge_flags.
Qed.

Lemma same_core_dom s s' : same_core s s' → dom (txns s') = dom (txns s).
Proof.
  intros Hc. apply set_eq. intros x. rewrite !elem_of_dom, <- !(fmap_is_Some core). by rewrite Hc.
Qed.

Lemma add_edges_doomed es s :
  doomed s ⊆ dom (txns s) → doomed (add_edges es s) ⊆ dom (txns (add_edges es s)).
Proof.
  revert s. induction es as [|[x y] es IH]; intros s Hd; simpl; [done|].
  apply IH. rewrite (same_core_dom s) by apply add_edge_same_core. by apply add_edge_doomed.
Qed.

Lemma add_edges_frame es s :
  let s' := add_edges es s in
  readers_of s' = readers_of s ∧ writers_of s' = writers_of s ∧
  predicate_readers_of s' = predicate_readers_of s ∧
  predicate_writers_of s' = predicate_writers_of s ∧ snapshot_txns s' = snapshot_txns s.
Proof.
  revert s. induction es as [|[x y] es IH]; intros s; simpl; [done|].
  destruct (IH (Ssi.add_edge x y s)) as (-> & -> & -> & -> & ->). apply add_edge_frame.
Qed.

(** ** Recording a marker *)

(** A physical or a predicate marker. *)
Definition marker : Type := Key + PredicateRead.
Definition rd (t : TxnConflict) (m : marker) : Prop :=
  match m with inl k => k ∈ reads t | inr p => p ∈ predicate_reads t end.
Definition wr (t : TxnConflict) (m : marker) : Prop :=
  match m with inl k => k ∈ writes t | inr p => p ∈ predicate_writes t end.

Lemma rw_marker ta tb : rw ta tb ↔ ∃ m, rd ta m ∧ wr tb m.
Proof.
  unfold rw. split.
  - intros [[k ?]|[p ?]]; [by exists (inl k)|by exists (inr p)].
  - intros [[k|p] ?]; [left|right]; eauto.
Qed.

(** The part of a record that markers do not touch. *)
Definition frame (t : TxnConflict) :=
  (in_conflict t, out_conflict t, out_edges t, in_edges t, commit_ts t, begin_ts t).

Definition same_frame (s s' : SsiTracker) : Prop :=
  ∀ x, frame <$> txns s' !! x = frame <$> txns s !! x.

Lemma frame_inv t t' : frame t = frame t' →
  in_conflict t = in_conflict t' ∧ out_conflict t = out_conflict t' ∧ out_edges t = out_edges t' ∧
  in_edges t = in_edges t' ∧ commit_ts t = commit_ts t' ∧ begin_ts t = begin_ts t'.
Proof. unfold frame. intros [=]. auto 10. Qed.

Lemma same_frame_Some s s' x t' :
  same_frame s s' → txns s' !! x = Some t' → ∃ t, txns s !! x = Some t ∧ frame t' = frame t.
Proof.
  intros Hc Hx. specialize (Hc x). rewrite Hx in Hc. simpl in Hc.
  destruct (txns s !! x) as [t|]; [|done]. apply (inj Some) in Hc. eauto.
Qed.

Lemma same_frame_sym s s' : same_frame s s' → same_frame s' s.
Proof. intros Hc x. by rewrite Hc. Qed.

Lemma same_frame_dom s s' : same_frame s s' → dom (txns s') = dom (txns s).
Proof.
  intros Hc. apply set_eq. intros x. rewrite !elem_of_dom, <- !(fmap_is_Some frame). by rewrite Hc.
Qed.

Lemma same_frame_concurrent s s' a b :
  same_frame s s' → Ssi.are_concurrent s' a b = Ssi.are_concurrent s a b.
Proof.
  intros Hc. pose proof (Hc a) as Ha. pose proof (Hc b) as Hb.
  unfold Ssi.are_concurrent, Ssi.committed_by.
  destruct (txns s !! a), (txns s !! b), (txns s' !! a), (txns s' !! b); try done; simpl in *.
  apply (inj Some), frame_inv in Ha as (_ & _ & _ & _ & -> & ->).
  by apply (inj Some), frame_inv in Hb as (_ & _ & _ & _ & -> & ->).
Qed.

Lemma same_frame_edge s s' a b : same_frame s s' → edge s' a b ↔ edge s a b.
Proof.
  intros Hc. specialize (Hc a). unfold edge.
  destruct (txns s !! a), (txns s' !! a); try done; simpl in *; try naive_solver.
  apply (inj Some), frame_inv in Hc as (_ & _ & E & _). split; intros (? & [= <-] & ?);
    eexists; (split; [done|]); [by rewrite <- E|by rewrite E].
Qed.

Lemma same_frame_redge s s' a b : same_frame s s' → redge s' a b ↔ redge s a b.
Proof.
  intros Hc. specialize (Hc b). unfold redge.
  destruct (txns s !! b), (txns s' !! b); try done; simpl in *; try naive_solver.
  apply (inj Some), frame_inv in Hc as (_ & _ & _ & E & _). split; intros (? & [= <-] & ?);
    eexists; (split; [done|]); [by rewrite <- E|by rewrite E].
Qed.

Lemma same_frame_flags s s' : same_frame s s' → flags_ok s → flags_ok s'.
Proof.
  intros Hc Hf a t' Ha. destruct (same_frame_Some s s' a t' Hc Ha) as (t & Ht & E).
  apply frame_inv in E as (-> & -> & -> & -> & _). eauto.
Qed.

(** The four reverse indexes agree with the marker sets. *)
Definition indexes_ok (s : SsiTracker) : Prop :=
  (∀ k x, x ∈ idx (readers_of s) k ↔ ∃ t, txns s !! x = Some t ∧ rd t (inl k)) ∧
  (∀ k x, x ∈ idx (writers_of s) k ↔ ∃ t, txns s !! x = Some t ∧ wr t (inl k)) ∧
  (∀ p x, x ∈ idx (predicate_readers_of s) p ↔ ∃ t, txns s !! x = Some t ∧ rd t (inr p)) ∧
  (∀ p x, x ∈ idx (predicate_writers_of s) p ↔ ∃ t, txns s !! x = Some t ∧ wr t (inr p)).

Lemma wf_indexes s : wf s → indexes_ok s.
Proof. intros []. by repeat split_and. Qed.

Lemma wf_flags s : wf s → flags_ok s.
Proof. intros Hwf a t Ha. split; [by eapply wf_out_flag|by eapply wf_in_flag]. Qed.

Lemma core_markers t t' m : core t = core t' → (rd t m ↔ rd t' m) ∧ (wr t m ↔ wr t' m).
Proof. intros (E1 & E2 & E3 & E4 & _)%core_inv. destruct m; simpl; by rewrite ?E1, ?E2, ?E3, ?E4. Qed.

Lemma exists_core s s' x (P : TxnConflict → Prop) :
  same_core s s' → (∀ t t', core t = core t' → P t ↔ P t') →
  (∃ t, txns s' !! x = Some t ∧ P t) ↔ (∃ t, txns s !! x = Some t ∧ P t).
Proof.
  intros Hc HP. specialize (Hc x).
  destruct (txns s !! x), (txns s' !! x); try done; simpl in *; try naive_solver.
  apply (inj Some) in Hc. specialize (HP _ _ Hc). naive_solver.
Qed.

Lemma add_edges_indexes es s : indexes_ok s → indexes_ok (add_edges es s).
Proof.
  intros (H1 & H2 & H3 & H4).
  destruct (add_edges_frame es s) as (E1 & E2 & E3 & E4 & _).
  pose proof (add_edges_same_core es s) as Hc.
  split; [|split; [|split]]; intros k x; rewrite ?E1, ?E2, ?E3, ?E4;
    rewrite ?H1, ?H2, ?H3, ?H4; symmetry; apply exists_core; try done;
    intros t t' E; by apply core_markers.
Qed.

(** Adding the edges that a new marker closes restores the invariant. *)
Lemma wf_close s s0 es :
  wf s → same_frame s s0 → indexes_ok s0 → doomed s0 = doomed s →
  (∀ a b, rw_conflict s0 a b ↔ rw_conflict s a b ∨ (a, b) ∈ es) →
  wf (add_edges es s0).
Proof.
  intros Hwf Hf Hi Hd Hrw.
  assert (∀ a b, (a, b) ∈ es → a ≠ b ∧ is_Some (txns s0 !! a) ∧ is_Some (txns s0 !! b)) as Hes.
  { intros a b Hin. destruct (proj2 (Hrw a b) (or_intror Hin)) as (? & _ & ta & tb & ? & ? & _).
    split; [done|]. split; by eexists. }
  assert (flags_ok s0) as Hfl by (eapply same_frame_flags; eauto using wf_flags).
  destruct (add_edges_indexes es s0 Hi) as (H1 & H2 & H3 & H4).
  assert (∀ a b, edge (add_edges es s0) a b ↔ rw_conflict s0 a b) as Hedge.
  { intros a b. rewrite add_edges_edge, (same_frame_edge s s0), (wf_edge s Hwf), Hrw by done.
    specialize (Hes a b). naive_solver. }
  split; try done.
  - intros a b. rewrite Hedge. symmetry. apply rw_conflict_same_core, add_edges_same_core.
  - intros a b. rewrite Hedge, add_edges_redge, (same_frame_redge s s0), (wf_redge s Hwf),
      (wf_edge s Hwf), Hrw by done. specialize (Hes a b). naive_solver.
  - intros a t Ha. by apply (add_edges_flags es s0 Hfl a t).
  - intros a t Ha. by apply (add_edges_flags es s0 Hfl a t).
  - apply add_edges_doomed. rewrite Hd, (same_frame_dom s) by done. apply wf_doomed, Hwf.
Qed.

(** [s0] is [s] with marker [mk] added to what [x] read (resp. wrote). *)
Definition adds_read (s s0 : SsiTracker) (x : TxnId) (mk : marker) : Prop :=
  ∀ y t t0, txns s !! y = Some t → txns s0 !! y = Some t0 → ∀ m,
    (wr t0 m ↔ wr t m) ∧ (rd t0 m ↔ rd t m ∨ (y = x ∧ m = mk)).
Definition adds_write (s s0 : SsiTracker) (x : TxnId) (mk : marker) : Prop :=
  ∀ y t t0, txns s !! y = Some t → txns s0 !! y = Some t0 → ∀ m,
    (rd t0 m ↔ rd t m) ∧ (wr t0 m ↔ wr t m ∨ (y = x ∧ m = mk)).

Lemma rw_conflict_read s s0 x mk a b :
  same_frame s s0 → adds_read s s0 x mk →
  rw_conflict s0 a b ↔ rw_conflict s a b ∨
    (a = x ∧ b ≠ x ∧ Ssi.are_concurrent s x b = true ∧ ∃ tb, txns s !! b = Some tb ∧ wr tb mk).
Proof.
  intros Hf Ha. unfold rw_conflict. rewrite (same_frame_concurrent s s0) by done.
  setoid_rewrite rw_marker. pose proof (Hf a) as Hfa. pose proof (Hf b) as Hfb.
  split.
  - intros (Hne & Hc & ta & tb & Hta & Htb & m & Hr & Hw).
    destruct (same_frame_Some s s0 a ta Hf Hta) as (ta' & Hta' & _).
    destruct (same_frame_Some s s0 b tb Hf Htb) as (tb' & Htb' & _).
    apply (Ha a _ _ Hta' Hta m) in Hr. apply (Ha b _ _ Htb' Htb m) in Hw.
    destruct Hr as [Hr|[-> ->]]; [left; eauto 10|right]. split; [done|]. eauto.
  - assert (∀ y t, txns s !! y = Some t → is_Some (txns s0 !! y)) as Hsome.
    { intros y t Hy. specialize (Hf y). rewrite Hy in Hf. by destruct (txns s0 !! y). }
    intros [(Hne & Hc & ta & tb & Hta & Htb & m & Hr & Hw)|(-> & Hne & Hc & tb & Htb & Hw)].
    + destruct (Hsome _ _ Hta) as [ta0 Hta0], (Hsome _ _ Htb) as [tb0 Htb0].
      split; [done|]. split; [done|]. exists ta0, tb0. split; [done|]. split; [done|]. exists m.
      split; [apply (Ha a _ _ Hta Hta0 m); auto|by apply (Ha b _ _ Htb Htb0 m)].
    + assert (∃ tx, txns s !! x = Some tx) as [tx Htx].
      { unfold Ssi.are_concurrent in Hc. destruct (txns s !! x); [eauto|done]. }
      destruct (Hsome _ _ Htx) as [ta0 Hta0], (Hsome _ _ Htb) as [tb0 Htb0].
      split; [done|]. split; [done|]. exists ta0, tb0. split; [done|]. split; [done|]. exists mk.
      split; [apply (Ha x _ _ Htx Hta0 mk); auto|by apply (Ha b _ _ Htb Htb0 mk)].
Qed.

Lemma rw_conflict_write s s0 x mk a b :
  same_frame s s0 → adds_write s s0 x mk →
  rw_conflict s0 a b ↔ rw_conflict s a b ∨
    (b = x ∧ a ≠ x ∧ Ssi.are_concurrent s a x = true ∧ ∃ ta, txns s !! a = Some ta ∧ rd ta mk).
Proof.
  intros Hf Ha. unfold rw_conflict. rewrite (same_frame_concurrent s s0) by done.
  setoid_rewrite rw_marker.
  split.
  - intros (Hne & Hc & ta & tb & Hta & Htb & m & Hr & Hw).
    destruct (same_frame_Some s s0 a ta Hf Hta) as (ta' & Hta' & _).
    destruct (same_frame_Some s s0 b tb Hf Htb) as (tb' & Htb' & _).
    apply (Ha a _ _ Hta' Hta m) in Hr. apply (Ha b _ _ Htb' Htb m) in Hw.
    destruct Hw as [Hw|[-> ->]]; [left; eauto 10|right]. split; [done|]. eauto.
  - assert (∀ y t, txns s !! y = Some t → is_Some (txns s0 !! y)) as Hsome.
    { intros y t Hy. specialize (Hf y). rewrite Hy in Hf. by destruct (txns s0 !! y). }
    intros [(Hne & Hc & ta & tb & Hta & Htb & m & Hr & Hw)|(-> & Hne & Hc & ta & Hta & Hr)].
    + destruct (Hsome _ _ Hta) as [ta0 Hta0], (Hsome _ _ Htb) as [tb0 Htb0].
      split; [done|]. split; [done|]. exists ta0, tb0. split; [done|]. split; [done|]. exists m.
      split; [by apply (Ha a _ _ Hta Hta0 m)|apply (Ha b _ _ Htb Htb0 m); auto].
    + assert (∃ tx, txns s !! x = Some tx) as [tx Htx].
      { unfold Ssi.are_concurrent in Hc. destruct (txns s !! x); [eauto|].
        by destruct (txns s !! a). }
      destruct (Hsome _ _ Hta) as [ta0 Hta0], (Hsome _ _ Htx) as [tb0 Htb0].
      split; [done|]. split; [done|]. exists ta0, tb0. split; [done|]. split; [done|]. exists mk.
      split; [by apply (Ha a _ _ Hta Hta0 mk)|apply (Ha x _ _ Htx Htb0 mk); auto].
Qed.

End SsiWf.
