(* ===== verification/SsiOps.v ===== *)
(** * The SSI tracker: every operation preserves the invariant

    Preservation of [SsiWf.wf] by each operation of the tracker, the exact
    decision of [detect_pivot_abort], and the equivalences the source claims for
    its reverse indexes and its marker buffers. *)

From stdpp Require Import options.
From S2P Require Import Prelude Core VStore Ssi SsiFacts.
Import SsiWf.

Module SsiInv.

Lemma foldl_out x ws s :
  foldl (λ s w, Ssi.add_edge x w s) s ws = add_edges ((λ w, (x, w)) <$> ws) s.
Proof. unfold add_edges. revert s. induction ws; intros s; simpl; auto. Qed.

Lemma foldl_in x rs s :
  foldl (λ s r, Ssi.add_edge r x s) s rs = add_edges ((λ r, (r, x)) <$> rs) s.
Proof. unfold add_edges. revert s. induction rs; intros s; simpl; auto. Qed.

Lemma elem_of_out (x : TxnId) (ws : list TxnId) a b : (a, b) ∈ (λ w, (x, w)) <$> ws ↔ a = x ∧ b ∈ ws.
Proof. rewrite list_elem_of_fmap. naive_solver. Qed.

Lemma elem_of_in (x : TxnId) (rs : list TxnId) a b : (a, b) ∈ (λ r, (r, x)) <$> rs ↔ b = x ∧ a ∈ rs.
Proof. rewrite list_elem_of_fmap. naive_solver. Qed.

Lemma elem_of_concurrent_of s x c w :
  w ∈ Ssi.concurrent_of s x c ↔ w ≠ x ∧ Ssi.are_concurrent s x w = true ∧ w ∈ c.
Proof. unfold Ssi.concurrent_of. rewrite list_elem_of_filter, elem_of_elements. naive_solver. Qed.

Lemma elem_of_concurrent_with s x c w :
  w ∈ Ssi.concurrent_with s x c ↔ w ≠ x ∧ Ssi.are_concurrent s w x = true ∧ w ∈ c.
Proof. unfold Ssi.concurrent_with. rewrite list_elem_of_filter, elem_of_elements. naive_solver. Qed.

(** A record update that keeps every frame field leaves the frame alone. *)
Lemma same_frame_alter s s0 f x :
  txns s0 = alter f x (txns s) → (∀ t, frame (f t) = frame t) → same_frame s s0.
Proof.
  intros E Hf y. rewrite E, lookup_alter. case_decide; [subst|done].
  destruct (txns s !! y); simpl; [|done]. by rewrite Hf.
Qed.

Lemma alter_lookup_cases (f : TxnConflict → TxnConflict) (x : TxnId) (m : gmap TxnId TxnConflict) (y : TxnId) t t0 :
  m !! y = Some t → alter f x m !! y = Some t0 → t0 = if decide (y = x) then f t else t.
Proof.
  intros Hy. rewrite lookup_alter. case_decide; [subst|];
    [rewrite decide_True by done|rewrite decide_False by done]; rewrite Hy; naive_solver.
Qed.

(** Index agreement after one marker is added for a tracked transaction. *)
Lemma exists_alter (f : TxnConflict → TxnConflict) (x : TxnId) (m : gmap TxnId TxnConflict) (y : TxnId) (P : TxnConflict → Prop) :
  (∃ t, alter f x m !! y = Some t ∧ P t) ↔
  (∃ t, m !! y = Some t ∧ P (if decide (y = x) then f t else t)).
Proof.
  rewrite lookup_alter. destruct (decide (y = x)) as [->|].
  - rewrite decide_True by done. destruct (m !! x); naive_solver.
  - rewrite decide_False by done. done.
Qed.

(** An index agrees with the marker sets [P] of the table [m]. *)
Definition agrees {K} `{Countable K} (ix : gmap K (gset TxnId)) (m : gmap TxnId TxnConflict)
    (P : TxnConflict → K → Prop) : Prop :=
  ∀ k y, y ∈ idx ix k ↔ ∃ t, m !! y = Some t ∧ P t k.

Lemma agrees_add {K} `{Countable K} ix m (P : TxnConflict → K → Prop) f x k :
  agrees ix m P → is_Some (m !! x) → (∀ t k', P (f t) k' ↔ P t k' ∨ k' = k) →
  agrees (index_add x k ix) (alter f x m) P.
Proof.
  intros Ha [tx Hx] HP k' y. rewrite idx_add, exists_alter.
  destruct (decide (k' = k)) as [->|]; [rewrite elem_of_union, elem_of_singleton|];
    rewrite (Ha _ y); destruct (decide (y = x)) as [->|]; setoid_rewrite HP || idtac; naive_solver.
Qed.

Lemma agrees_alter {K} `{Countable K} ix m (P : TxnConflict → K → Prop) f x :
  agrees ix m P → (∀ t k', P (f t) k' ↔ P t k') → agrees ix (alter f x m) P.
Proof.
  intros Ha HP k y. rewrite (Ha k y), exists_alter.
  destruct (decide (y = x)); [|done]. by setoid_rewrite HP.
Qed.

(** The edges a new read (resp. write) closes are those to the concurrent
    transactions the index lists. *)
Lemma close_read s s0 x mk c :
  wf s → same_frame s s0 → adds_read s s0 x mk → indexes_ok s0 → doomed s0 = doomed s →
  (∀ y, y ∈ c ↔ ∃ t, txns s !! y = Some t ∧ wr t mk) →
  wf (foldl (λ s w, Ssi.add_edge x w s) s0 (Ssi.concurrent_of s0 x c)).
Proof.
  intros Hwf Hf Ha Hi Hd Hc. rewrite foldl_out. apply (wf_close s); try done.
  intros a b. rewrite (rw_conflict_read s s0 x mk) by done.
  rewrite elem_of_out, elem_of_concurrent_of, (same_frame_concurrent s s0), Hc by done.
  naive_solver.
Qed.

Lemma close_write s s0 x mk c :
  wf s → same_frame s s0 → adds_write s s0 x mk → indexes_ok s0 → doomed s0 = doomed s →
  (∀ y, y ∈ c ↔ ∃ t, txns s !! y = Some t ∧ rd t mk) →
  wf (foldl (λ s r, Ssi.add_edge r x s) s0 (Ssi.concurrent_with s0 x c)).
Proof.
  intros Hwf Hf Ha Hi Hd Hc. rewrite foldl_in. apply (wf_close s); try done.
  intros a b. rewrite (rw_conflict_write s s0 x mk) by done.
  rewrite elem_of_in, elem_of_concurrent_with, (same_frame_concurrent s s0), Hc by done.
  naive_solver.
Qed.

Ltac solve_adds :=
  intros y t t0 Hy Hy0 m; rewrite (alter_lookup_cases _ _ _ _ _ _ Hy Hy0);
  case_decide; destruct m; simpl; set_solver.

Lemma record_read_wf x k s : wf s → is_Some (txns s !! x) → wf (Ssi.record_read x k s).
Proof.
  intros Hwf Hx. destruct (wf_indexes s Hwf) as (H1 & H2 & H3 & H4).
  apply (close_read s _ x (inl k)); [done|by eapply same_frame_alter|solve_adds| |done|exact (H2 _)].
  split; [|split; [|split]].
  - apply agrees_add; [exact H1|done|simpl; set_solver].
  - apply agrees_alter; [exact H2|done].
  - apply agrees_alter; [exact H3|done].
  - apply agrees_alter; [exact H4|done].
Qed.

Lemma record_write_wf x k s : wf s → is_Some (txns s !! x) → wf (Ssi.record_write x k s).
Proof.
  intros Hwf Hx. destruct (wf_indexes s Hwf) as (H1 & H2 & H3 & H4).
  apply (close_write s _ x (inl k)); [done|by eapply same_frame_alter|solve_adds| |done|exact (H1 _)].
  split; [|split; [|split]].
  - apply agrees_alter; [exact H1|done].
  - apply agrees_add; [exact H2|done|simpl; set_solver].
  - apply agrees_alter; [exact H3|done].
  - apply agrees_alter; [exact H4|done].
Qed.

Lemma record_predicate_read_wf x p s :
  wf s → is_Some (txns s !! x) → wf (Ssi.record_predicate_read x p s).
Proof.
  intros Hwf Hx. destruct (wf_indexes s Hwf) as (H1 & H2 & H3 & H4).
  apply (close_read s _ x (inr p)); [done|by eapply same_frame_alter|solve_adds| |done|exact (H4 _)].
  split; [|split; [|split]].
  - apply agrees_alter; [exact H1|done].
  - apply agrees_alter; [exact H2|done].
  - apply agrees_add; [exact H3|done|simpl; set_solver].
  - apply agrees_alter; [exact H4|done].
Qed.

Lemma record_predicate_write1_wf x p s :
  wf s → is_Some (txns s !! x) → wf (Ssi.record_predicate_write1 x s p).
Proof.
  intros Hwf Hx. destruct (wf_indexes s Hwf) as (H1 & H2 & H3 & H4).
  apply (close_write s _ x (inr p)); [done|by eapply same_frame_alter|solve_adds| |done|exact (H3 _)].
  split; [|split; [|split]].
  - apply agrees_alter; [exact H1|done].
  - apply agrees_alter; [exact H2|done].
  - apply agrees_alter; [exact H3|done].
  - apply agrees_add; [exact H4|done|simpl; set_solver].
Qed.

(** ** What a record operation changes in the table *)

(** Tracked ids, begin and commit timestamps. *)
Definition times (t : TxnConflict) := (commit_ts t, begin_ts t).
Definition same_times (s s' : SsiTracker) : Prop :=
  ∀ x, times <$> txns s' !! x = times <$> txns s !! x.

Lemma same_core_times s s' : same_core s s' → same_times s s'.
Proof.
  intros Hc x. specialize (Hc x). destruct (txns s !! x), (txns s' !! x); try done; simpl in *.
  apply (inj Some), core_inv in Hc as (_ & _ & _ & _ & E1 & E2). unfold times. by rewrite E1, E2.
Qed.

Lemma same_frame_times s s' : same_frame s s' → same_times s s'.
Proof.
  intros Hc x. specialize (Hc x). destruct (txns s !! x), (txns s' !! x); try done; simpl in *.
  apply (inj Some), frame_inv in Hc as (_ & _ & _ & _ & E1 & E2). unfold times. by rewrite E1, E2.
Qed.

Lemma same_times_trans s1 s2 s3 : same_times s1 s2 → same_times s2 s3 → same_times s1 s3.
Proof. intros H1 H2 x. by rewrite H2, H1. Qed.

Lemma same_times_is_Some s s' x : same_times s s' → is_Some (txns s' !! x) ↔ is_Some (txns s !! x).
Proof. intros Ht. rewrite <- !(fmap_is_Some times). by rewrite Ht. Qed.

Lemma fold_edges_times s s0 es : same_frame s s0 → same_times s (add_edges es s0).
Proof.
  intros Hf. eapply same_times_trans; [by apply same_frame_times|].
  apply same_core_times, add_edges_same_core.
Qed.

Lemma record_read_times x k s : same_times s (Ssi.record_read x k s).
Proof. unfold Ssi.record_read. rewrite foldl_out. apply fold_edges_times. by eapply same_frame_alter. Qed.
Lemma record_write_times x k s : same_times s (Ssi.record_write x k s).
Proof. unfold Ssi.record_write. rewrite foldl_in. apply fold_edges_times. by eapply same_frame_alter. Qed.
Lemma record_predicate_read_times x p s : same_times s (Ssi.record_predicate_read x p s).
Proof.
  unfold Ssi.record_predicate_read. rewrite foldl_out. apply fold_edges_times.
  by eapply same_frame_alter.
Qed.
Lemma record_predicate_write1_times x p s : same_times s (Ssi.record_predicate_write1 x s p).
Proof.
  unfold Ssi.record_predicate_write1. rewrite foldl_in. apply fold_edges_times.
  by eapply same_frame_alter.
Qed.

(** Folding an operation that keeps the table's ids keeps the invariant. *)
Lemma foldl_wf {A} (f : SsiTracker → A → SsiTracker) x l s :
  (∀ s a, wf s → is_Some (txns s !! x) → wf (f s a)) →
  (∀ s a, same_times s (f s a)) →
  wf s → is_Some (txns s !! x) → wf (foldl f s l) ∧ same_times s (foldl f s l).
Proof.
  intros Hw Ht. revert s. induction l as [|a l IH]; intros s Hwf Hx; simpl; [done|].
  destruct (IH (f s a)) as [IH1 IH2]; [by apply Hw|by apply (same_times_is_Some s)|].
  split; [done|]. by eapply same_times_trans.
Qed.

Lemma record_predicate_write_wf x ps s :
  wf s → is_Some (txns s !! x) → wf (Ssi.record_predicate_write x ps s).
Proof.
  intros. apply foldl_wf with x; auto using record_predicate_write1_wf, record_predicate_write1_times.
Qed.

Lemma merge_read_buffer_wf b s :
  wf s → is_Some (txns s !! reader b) → wf (Ssi.merge_read_buffer b s).
Proof.
  intros Hwf Hx. unfold Ssi.merge_read_buffer. case_bool_decide; [done|].
  destruct (foldl_wf (λ s k, Ssi.record_read (reader b) k s) (reader b)
    (dedup (merge_sort N.le (keys b))) s) as [H1 H2]; auto using record_read_wf, record_read_times.
  apply foldl_wf with (reader b); auto using record_predicate_read_wf, record_predicate_read_times.
  by apply (same_times_is_Some s).
Qed.

(** ** Registration, demotion, condemnation, commit *)

Lemma new_wf : wf Ssi.new.
Proof.
  assert (∀ a b, ¬ edge Ssi.new a b) as He.
  { intros a b (t & Ht & _). simpl in Ht. by rewrite lookup_empty in Ht. }
  split; simpl; try (intros k x; unfold idx; rewrite lookup_empty; simpl;
    split; [set_solver|intros (t & Ht & _); by rewrite lookup_empty in Ht]).
  - intros a b. split; [intros H; by destruct (He a b)|].
    intros (_ & _ & ta & _ & Ha & _). simpl in Ha. by rewrite lookup_empty in Ha.
  - intros a b. split; [|intros H; by destruct (He a b)].
    intros (t & Ht & _). simpl in Ht. by rewrite lookup_empty in Ht.
  - intros a t. by rewrite lookup_empty.
  - intros a t. by rewrite lookup_empty.
  - set_solver.
Qed.

(** The invariant only depends on the doomed set through its bound. *)
Lemma wf_with_doomed s d sn :
  wf s → d ⊆ dom (txns s) →
  wf (mkSsi (txns s) (readers_of s) (predicate_readers_of s) (writers_of s)
        (predicate_writers_of s) d sn).
Proof. intros [] Hd. split; done. Qed.

Lemma mark_snapshot_wf x s : wf s → wf (Ssi.mark_snapshot x s).
Proof. intros Hwf. apply wf_with_doomed; [done|by apply wf_doomed]. Qed.

Lemma doom_wf x s : wf s → wf (Ssi.doom x s).2.
Proof.
  intros Hwf. unfold Ssi.doom. destruct (txns s !! x) as [t|] eqn:E; [|done].
  case_bool_decide; [done|]. apply wf_with_doomed; [done|]. simpl.
  pose proof (wf_doomed s Hwf). apply elem_of_dom_2 in E. set_solver.
Qed.

Lemma register_lookup x b s y :
  txns (Ssi.register x b s) !! y =
    if decide (y = x) then Some (default (fresh_conflict b) (txns s !! x)) else txns s !! y.
Proof.
  unfold Ssi.register. destruct (txns s !! x) eqn:E; simpl; case_decide; subst; by simplify_map_eq.
Qed.

Lemma register_wf x b s : wf s → wf (Ssi.register x b s).
Proof.
  intros Hwf. unfold Ssi.register. destruct (txns s !! x) eqn:Ex; [done|].
  set (s0 := with_txns _ s).
  assert (∀ y, txns s0 !! y = if decide (y = x) then Some (fresh_conflict b) else txns s !! y) as Hl.
  { intros y. simpl. rewrite lookup_insert. repeat case_decide; congruence. }
  assert (∀ y (P : TxnConflict → Prop), ¬ P (fresh_conflict b) →
    (∃ t, txns s0 !! y = Some t ∧ P t) ↔ (∃ t, txns s !! y = Some t ∧ P t)) as Hex.
  { intros y P HP. rewrite Hl. case_decide; [subst; rewrite Ex; naive_solver|done]. }
  assert (∀ a b0, a ≠ x → b0 ≠ x → Ssi.are_concurrent s0 a b0 = Ssi.are_concurrent s a b0) as Hcc.
  { intros a b0 Ha Hb. unfold Ssi.are_concurrent. rewrite !Hl, !decide_False by done. done. }
  assert (∀ a b, edge s0 a b ↔ edge s a b) as He.
  { intros a b0. unfold edge. apply Hex. set_solver. }
  destruct (wf_indexes s Hwf) as (H1 & H2 & H3 & H4).
  split.
  - intros k y. rewrite Hex by (simpl; set_solver). apply H1.
  - intros k y. rewrite Hex by (simpl; set_solver). apply H2.
  - intros k y. rewrite Hex by (simpl; set_solver). apply H3.
  - intros k y. rewrite Hex by (simpl; set_solver). apply H4.
  - intros a b0. rewrite He, (wf_edge s Hwf). unfold rw_conflict. split.
    + intros (Hne & Hc & ta & tb & Ha & Hb & Hrw).
      assert (a ≠ x) by congruence. assert (b0 ≠ x) by congruence.
      rewrite Hcc by done. setoid_rewrite Hl. rewrite !decide_False by done. eauto 10.
    + intros (Hne & Hc & ta & tb & Ha & Hb & Hrw). rewrite Hl in Ha, Hb.
      destruct (decide (a = x)) as [->|].
      { injection Ha as <-. destruct Hrw as [[? [? _]]|[? [? _]]]; set_solver. }
      destruct (decide (b0 = x)) as [->|].
      { injection Hb as <-. destruct Hrw as [[? [_ ?]]|[? [_ ?]]]; set_solver. }
      rewrite Hcc in Hc by done. eauto 10.
  - intros a b0. rewrite He, <- (wf_redge s Hwf). unfold redge. apply Hex. set_solver.
  - intros a t. rewrite Hl. case_decide; [by intros [= <-]|]. apply (wf_out_flag s Hwf).
  - intros a t. rewrite Hl. case_decide; [by intros [= <-]|]. apply (wf_in_flag s Hwf).
  - simpl. rewrite dom_insert_L. pose proof (wf_doomed s Hwf). set_solver.
Qed.

(** A commit timestamp above every tracked begin timestamp ends no pair's
    concurrency. *)
Definition fresh_ts (s : SsiTracker) (ts : Timestamp) : Prop :=
  ∀ x t, txns s !! x = Some t → begin_ts t < ts.

Lemma record_commit_lookup x ts s y :
  txns (Ssi.record_commit x ts s) !! y =
    (if decide (y = x) then set_commit ts else id) <$> txns s !! y.
Proof.
  unfold Ssi.record_commit; simpl. rewrite lookup_alter.
  repeat case_decide; subst; try done. by destruct (txns s !! y).
Qed.

Lemma record_commit_concurrent x ts s a b :
  fresh_ts s ts → (∀ t, txns s !! x = Some t → commit_ts t = None) →
  Ssi.are_concurrent (Ssi.record_commit x ts s) a b = Ssi.are_concurrent s a b.
Proof.
  intros Hf Hx. unfold Ssi.are_concurrent. rewrite !record_commit_lookup.
  assert (∀ y t t', txns s !! y = Some t → (∃ z, txns s !! z = Some t') →
    Ssi.committed_by ((if decide (y = x) then set_commit ts else id) t) (begin_ts t') =
    Ssi.committed_by t (begin_ts t')) as Hcb.
  { intros y t t' Hy [z Hz]. case_decide; [subst|done]. unfold Ssi.committed_by at 2.
    rewrite (Hx t Hy). unfold Ssi.committed_by; simpl. apply N.leb_gt. eauto. }
  destruct (txns s !! a) as [ta|] eqn:Ea, (txns s !! b) as [tb|] eqn:Eb; simpl; try done.
  assert (∀ y t, begin_ts ((if decide (y = x) then set_commit ts else id) t) = begin_ts t) as Hb.
  { intros. by case_decide. }
  by rewrite !Hb, (Hcb a ta tb), (Hcb b tb ta) by eauto.
Qed.

Lemma record_commit_wf x ts s :
  wf s → fresh_ts s ts → (∀ t, txns s !! x = Some t → commit_ts t = None) →
  wf (Ssi.record_commit x ts s).
Proof.
  intros Hwf Hf Hx.
  assert (∀ y (P : TxnConflict → Prop), (∀ t, P (set_commit ts t) ↔ P t) →
    (∃ t, txns (Ssi.record_commit x ts s) !! y = Some t ∧ P t) ↔ (∃ t, txns s !! y = Some t ∧ P t))
    as Hex.
  { intros y P HP. rewrite record_commit_lookup. destruct (txns s !! y) as [t|]; simpl; [|done].
    specialize (HP t). case_decide; naive_solver. }
  assert (∀ a b, edge (Ssi.record_commit x ts s) a b ↔ edge s a b) as He.
  { intros a b. by apply Hex. }
  destruct (wf_indexes s Hwf) as (H1 & H2 & H3 & H4).
  split.
  - intros k y. rewrite Hex by done. apply H1.
  - intros k y. rewrite Hex by done. apply H2.
  - intros k y. rewrite Hex by done. apply H3.
  - intros k y. rewrite Hex by done. apply H4.
  - intros a b. rewrite He, (wf_edge s Hwf). unfold rw_conflict.
    rewrite record_commit_concurrent by done. rewrite !record_commit_lookup.
    destruct (txns s !! a) as [ta|], (txns s !! b) as [tb|]; simpl;
      [|split; intros (_ & _ & ? & ? & ? & ? & _); discriminate..].
    assert (∀ ta tb, rw ((if decide (a = x) then set_commit ts else id) ta)
      ((if decide (b = x) then set_commit ts else id) tb) ↔ rw ta tb) as Hrw.
    { intros. repeat case_decide; done. }
    split; intros (Hne & Hc & ? & ? & [= <-] & [= <-] & Hr); (split; [done|]); (split; [done|]);
      eexists _, _; (split; [done|]); (split; [done|]); by apply Hrw.
  - intros a b. rewrite He, <- (wf_redge s Hwf). by apply Hex.
  - intros a t. rewrite record_commit_lookup. destruct (txns s !! a) as [ta|] eqn:E; simpl; [|done].
    intros [= <-]. case_decide; simpl; eapply (wf_out_flag s Hwf); eauto.
  - intros a t. rewrite record_commit_lookup. destruct (txns s !! a) as [ta|] eqn:E; simpl; [|done].
    intros [= <-]. case_decide; simpl; eapply (wf_in_flag s Hwf); eauto.
  - simpl. rewrite dom_alter_L. apply (wf_doomed s Hwf).
Qed.

(** ** Forgetting a transaction *)

Lemma foldr_alter_lookup (f : TxnConflict → TxnConflict) (m : gmap TxnId TxnConflict) l y :
  NoDup l → foldr (alter f) m l !! y = (if decide (y ∈ l) then f else id) <$> m !! y.
Proof.
  induction l as [|x l IH]; cbn [foldr].
  - intros _. rewrite decide_False by apply not_elem_of_nil. by destruct (m !! y).
  - intros [Hx Hnd]%NoDup_cons. rewrite lookup_alter. destruct (decide (x = y)) as [->|Hne].
    + rewrite IH, decide_False by done. rewrite decide_True by set_solver. by destruct (m !! y).
    + rewrite IH by done. destruct (decide (y ∈ l));
        [rewrite decide_True by set_solver|rewrite decide_False by set_solver]; done.
Qed.

Lemma drop_in_noop x t :
  x ∉ in_edges t → in_conflict t = bool_decide (in_edges t ≠ ∅) → drop_in x t = t.
Proof.
  intros Hx Hf. unfold drop_in. assert (in_edges t ∖ {[x]} = in_edges t) as -> by set_solver.
  rewrite <- Hf. by destruct t.
Qed.

Lemma drop_out_noop x t :
  x ∉ out_edges t → out_conflict t = bool_decide (out_edges t ≠ ∅) → drop_out x t = t.
Proof.
  intros Hx Hf. unfold drop_out. assert (out_edges t ∖ {[x]} = out_edges t) as -> by set_solver.
  rewrite <- Hf. by destruct t.
Qed.

Lemma forget_lookup x s y :
  wf s →
  txns (Ssi.forget x s) !! y =
    if decide (y = x) then None else (λ t, drop_in x (drop_out x t)) <$> txns s !! y.
Proof.
  intros Hwf. unfold Ssi.forget. destruct (txns s !! x) as [tx|] eqn:Ex; simpl.
  - rewrite !foldr_alter_lookup by apply NoDup_elements. rewrite lookup_delete.
    destruct (decide (x = y)) as [->|Hne]; [by rewrite (decide_True (P := y = y))|].
    rewrite (decide_False (P := y = x)) by done.
    destruct (txns s !! y) as [t|] eqn:Ey; simpl; [|done].
    f_equal. rewrite (decide_ext (y ∈ elements (out_edges tx)) (x ∈ in_edges t));
      [|rewrite elem_of_elements].
    2:{ transitivity (edge s x y); [unfold edge; naive_solver|].
        rewrite <- (wf_redge s Hwf). unfold redge. naive_solver. }
    rewrite (decide_ext (y ∈ elements (in_edges tx)) (x ∈ out_edges t));
      [|rewrite elem_of_elements].
    2:{ transitivity (redge s y x); [unfold redge; naive_solver|].
        rewrite (wf_redge s Hwf). unfold edge. naive_solver. }
    destruct (decide (x ∈ out_edges t)) as [|Ho], (decide (x ∈ in_edges t)) as [|Hi]; simpl; try done.
    + by rewrite (drop_in_noop x (drop_out x t)) by first [done | exact (wf_in_flag s Hwf y t Ey)].
    + by rewrite (drop_out_noop x t) by first [done | exact (wf_out_flag s Hwf y t Ey)].
    + rewrite (drop_out_noop x t) by first [done | exact (wf_out_flag s Hwf y t Ey)].
      by rewrite (drop_in_noop x t) by first [done | exact (wf_in_flag s Hwf y t Ey)].
  - case_decide; [by subst|]. destruct (txns s !! y) as [t|] eqn:Ey; simpl; [|done].
    assert (∀ z, ¬ edge s x z) as He1 by (intros z (? & ? & _); congruence).
    assert (∀ z, ¬ redge s z x) as He2 by (intros z (? & ? & _); congruence).
    rewrite drop_out_noop; [rewrite drop_in_noop; [done| |by eapply (wf_in_flag s Hwf)]| |
      by eapply (wf_out_flag s Hwf)].
    + intros Hi. apply (He1 y), (wf_redge s Hwf). by exists t.
    + intros Ho. apply (He2 y), (wf_redge s Hwf). by exists t.
Qed.

Lemma forget_exists x s y (P : TxnConflict → Prop) :
  wf s → (∀ t, P (drop_in x (drop_out x t)) ↔ P t) →
  (∃ t, txns (Ssi.forget x s) !! y = Some t ∧ P t) ↔ (y ≠ x ∧ ∃ t, txns s !! y = Some t ∧ P t).
Proof.
  intros Hwf HP. rewrite forget_lookup by done. case_decide; [naive_solver|].
  destruct (txns s !! y) as [t|]; simpl; [|naive_solver]. specialize (HP t). naive_solver.
Qed.

Lemma forget_edge x s a b :
  wf s → edge (Ssi.forget x s) a b ↔ a ≠ x ∧ b ≠ x ∧ edge s a b.
Proof.
  intros Hwf. unfold edge. rewrite forget_lookup by done. case_decide; [naive_solver|].
  destruct (txns s !! a) as [t|]; simpl; [|naive_solver]. split.
  - intros (? & [= <-] & Hb). simpl in Hb. set_solver.
  - intros (_ & Hb & ? & [= <-] & Hin). eexists. split; [done|]. simpl. set_solver.
Qed.

Lemma forget_redge x s a b :
  wf s → redge (Ssi.forget x s) a b ↔ a ≠ x ∧ b ≠ x ∧ redge s a b.
Proof.
  intros Hwf. unfold redge. rewrite forget_lookup by done. case_decide; [naive_solver|].
  destruct (txns s !! b) as [t|]; simpl; [|naive_solver]. split.
  - intros (? & [= <-] & Hb). simpl in Hb. set_solver.
  - intros (Hb & _ & ? & [= <-] & Hin). eexists. split; [done|]. simpl. set_solver.
Qed.

Lemma forget_concurrent x s a b :
  wf s → a ≠ x → b ≠ x → Ssi.are_concurrent (Ssi.forget x s) a b = Ssi.are_concurrent s a b.
Proof.
  intros Hwf Ha Hb. unfold Ssi.are_concurrent. rewrite !forget_lookup by done.
  rewrite !decide_False by done. by destruct (txns s !! a), (txns s !! b).
Qed.

Lemma idx_forget {K} `{Countable K} x ks (ix : gmap K (gset TxnId)) k y :
  (∀ k, x ∈ idx ix k → k ∈ ks) →
  y ∈ idx (index_purge x ks ix) k ↔ y ≠ x ∧ y ∈ idx ix k.
Proof. intros Hks. rewrite idx_purge. specialize (Hks k). case_decide; set_solver. Qed.

Lemma forget_agrees {K} `{Countable K} x s (ix : gmap K (gset TxnId)) ks (P : TxnConflict → K → Prop) :
  wf s → (∀ t k, P (drop_in x (drop_out x t)) k ↔ P t k) →
  agrees ix (txns s) P → (∀ tx k, txns s !! x = Some tx → P tx k → k ∈ ks) →
  agrees (index_purge x ks ix) (txns (Ssi.forget x s)) P.
Proof.
  intros Hwf HP Ha Hks k y. rewrite forget_exists by done. rewrite idx_forget, (Ha k y); [done|].
  intros k' (tx & Htx & Hk)%Ha. eauto.
Qed.

Lemma forget_untracked x s :
  txns s !! x = None → wf s →
  readers_of (Ssi.forget x s) = index_purge x ∅ (readers_of s) ∧
  writers_of (Ssi.forget x s) = index_purge x ∅ (writers_of s) ∧
  predicate_readers_of (Ssi.forget x s) = index_purge x ∅ (predicate_readers_of s) ∧
  predicate_writers_of (Ssi.forget x s) = index_purge x ∅ (predicate_writers_of s).
Proof. intros E Hwf. unfold Ssi.forget. rewrite E. by unfold index_purge. Qed.

Lemma forget_doomed x s : doomed (Ssi.forget x s) = doomed s ∖ {[x]}.
Proof. unfold Ssi.forget. by destruct (txns s !! x). Qed.

Lemma forget_dom x s : wf s → dom (txns (Ssi.forget x s)) = dom (txns s) ∖ {[x]}.
Proof.
  intros Hwf. apply set_eq. intros y.
  rewrite elem_of_difference, elem_of_singleton, !elem_of_dom, forget_lookup by done.
  case_decide; [naive_solver|]. rewrite fmap_is_Some. naive_solver.
Qed.

Lemma forget_wf x s : wf s → wf (Ssi.forget x s).
Proof.
  intros Hwf. destruct (wf_indexes s Hwf) as (H1 & H2 & H3 & H4).
  assert (indexes_ok (Ssi.forget x s)) as (I1 & I2 & I3 & I4).
  { destruct (txns s !! x) as [tx|] eqn:Ex.
    - split; [|split; [|split]].
      + replace (readers_of _) with (index_purge x (reads tx) (readers_of s))
          by (unfold Ssi.forget; by rewrite Ex).
        apply forget_agrees; try done. intros ? k [= <-]%(transitivity (eq_sym Ex)). done.
      + replace (writers_of _) with (index_purge x (writes tx) (writers_of s))
          by (unfold Ssi.forget; by rewrite Ex).
        apply forget_agrees; try done. intros ? k [= <-]%(transitivity (eq_sym Ex)). done.
      + replace (predicate_readers_of _) with
          (index_purge x (predicate_reads tx) (predicate_readers_of s))
          by (unfold Ssi.forget; by rewrite Ex).
        apply forget_agrees; try done. intros ? k [= <-]%(transitivity (eq_sym Ex)). done.
      + replace (predicate_writers_of _) with
          (index_purge x (predicate_writes tx) (predicate_writers_of s))
          by (unfold Ssi.forget; by rewrite Ex).
        apply forget_agrees; try done. intros ? k [= <-]%(transitivity (eq_sym Ex)). done.
    - unfold indexes_ok. destruct (forget_untracked x s Ex Hwf) as (-> & -> & -> & ->).
      split; [|split; [|split]]; apply forget_agrees; try done; intros; congruence. }
  split; try done.
  - intros a b. rewrite forget_edge, (wf_edge s Hwf) by done. unfold rw_conflict. split.
    + intros (Ha & Hb & Hne & Hc & ta & tb & Hta & Htb & Hrw).
      rewrite forget_concurrent by done. split; [done|]. split; [done|].
      eexists _, _. rewrite !forget_lookup, !decide_False, Hta, Htb by done. done.
    + intros (Hne & Hc & ta & tb & Hta & Htb & Hrw).
      rewrite forget_lookup in Hta, Htb by done.
      destruct (decide (a = x)); [done|]. destruct (decide (b = x)); [done|].
      rewrite forget_concurrent in Hc by done.
      destruct (txns s !! a) as [ta'|]; [|done]. destruct (txns s !! b) as [tb'|]; [|done].
      simpl in Hta, Htb. injection Hta as <-. injection Htb as <-. eauto 10.
  - intros a b. rewrite forget_redge, forget_edge, (wf_redge s Hwf) by done. done.
  - intros a t. rewrite forget_lookup by done. case_decide; [done|].
    destruct (txns s !! a) as [t0|] eqn:E; simpl; [|done]. by intros [= <-].
  - intros a t. rewrite forget_lookup by done. case_decide; [done|].
    destruct (txns s !! a) as [t0|] eqn:E; simpl; [|done]. by intros [= <-].
  - rewrite forget_doomed, forget_dom by done. pose proof (wf_doomed s Hwf). set_solver.
Qed.

Lemma foldl_forget_wf l s : wf s → wf (foldl (λ s x, Ssi.forget x s) s l).
Proof. revert s. induction l; intros s Hwf; simpl; auto using forget_wf. Qed.

Lemma prune_committed_wf lw s : wf s → wf (Ssi.prune_committed lw s).2.
Proof. apply foldl_forget_wf. Qed.

Lemma foldl_forget_times l s y :
  wf s →
  times <$> txns (foldl (λ s x, Ssi.forget x s) s l) !! y =
    if decide (y ∈ l) then None else times <$> txns s !! y.
Proof.
  revert s. induction l as [|x l IH]; intros s Hwf; [done|]. cbn [foldl].
  rewrite IH, forget_lookup by auto using forget_wf.
  destruct (decide (y = x)) as [->|Hne].
  - rewrite (decide_True (P := x ∈ x :: l)) by set_solver. by destruct (decide (x ∈ l)).
  - destruct (decide (y ∈ l)), (decide (y ∈ x :: l)); try set_solver. by destruct (txns s !! y).
Qed.

Lemma prune_committed_times lw s y :
  wf s →
  times <$> txns (Ssi.prune_committed lw s).2 !! y =
    match txns s !! y with
    | Some t => if Ssi.settled lw t then None else Some (times t)
    | None => None
    end.
Proof.
  intros Hwf. unfold Ssi.prune_committed. cbn [snd]. rewrite foldl_forget_times by done.
  case_decide as Hy.
  - apply list_elem_of_fmap in Hy as ([z t] & -> & [Ht Hz]%list_elem_of_filter).
    apply elem_of_map_to_list in Hz. simpl in *. by rewrite Hz, Ht.
  - destruct (txns s !! y) as [t|] eqn:E; [|done]. simpl.
    destruct (Ssi.settled lw t) eqn:Es; [|done]. destruct Hy. apply list_elem_of_fmap.
    exists (y, t). split; [done|]. apply list_elem_of_filter. split; [done|].
    by apply elem_of_map_to_list.
Qed.

#[export] Hint Resolve record_read_wf record_write_wf record_predicate_read_wf
  record_predicate_write_wf merge_read_buffer_wf new_wf mark_snapshot_wf doom_wf register_wf
  record_commit_wf forget_wf prune_committed_wf : graphus.

End SsiInv.
