(* ===== verification/SsiSpec.v ===== *)
(** * The SSI tracker: what it promises

    The properties of [ssi.rs] stated on the tracker itself: the invariant, the
    exact abort decision, and the completeness of [forget]. *)

From stdpp Require Import options.
From S2P Require Import Prelude Core VStore Ssi SsiFacts SsiOps.
Import SsiWf SsiInv.

(** ** Commands of the tracker *)

(** One call of a mutating method. *)
Inductive SsiCmd :=
  | CRegister (x : TxnId) (b : Timestamp)
  | CMarkSnapshot (x : TxnId)
  | CRead (x : TxnId) (k : Key)
  | CWrite (x : TxnId) (k : Key)
  | CPredicateRead (x : TxnId) (p : PredicateRead)
  | CPredicateWrite (x : TxnId) (ps : list PredicateRead)
  | CMerge (b : SsiReadBuffer)
  | CDoom (x : TxnId)
  | CCommit (x : TxnId) (ts : Timestamp)
  | CForget (x : TxnId)
  | CPrune (lw : option Timestamp).

Definition run_cmd (c : SsiCmd) (s : SsiTracker) : SsiTracker :=
  match c with
  | CRegister x b => Ssi.register x b s
  | CMarkSnapshot x => Ssi.mark_snapshot x s
  | CRead x k => Ssi.record_read x k s
  | CWrite x k => Ssi.record_write x k s
  | CPredicateRead x p => Ssi.record_predicate_read x p s
  | CPredicateWrite x ps => Ssi.record_predicate_write x ps s
  | CMerge b => Ssi.merge_read_buffer b s
  | CDoom x => (Ssi.doom x s).2
  | CCommit x ts => Ssi.record_commit x ts s
  | CForget x => Ssi.forget x s
  | CPrune lw => (Ssi.prune_committed lw s).2
  end.

(** What a caller owes: markers are recorded for registered transactions, and a
    commit gets a timestamp above every begin timestamp, once. *)
Definition cmd_ok (c : SsiCmd) (s : SsiTracker) : Prop :=
  match c with
  | CRead x _ | CWrite x _ | CPredicateRead x _ | CPredicateWrite x _ => is_Some (txns s !! x)
  | CMerge b => is_Some (txns s !! reader b)
  | CCommit x ts => fresh_ts s ts ∧ ∀ t, txns s !! x = Some t → commit_ts t = None
  | _ => True
  end.

(** A run of commands, each legal where it is issued. *)
Inductive ssi_run : SsiTracker → list SsiCmd → SsiTracker → Prop :=
  | run_nil s : ssi_run s [] s
  | run_cons s c cs s' : cmd_ok c s → ssi_run (run_cmd c s) cs s' → ssi_run s (c :: cs) s'.

Lemma run_cmd_wf c s : wf s → cmd_ok c s → wf (run_cmd c s).
Proof.
  destruct c; unfold run_cmd, cmd_ok; intros Hwf Hok; try destruct Hok; auto with graphus.
Qed.

Lemma ssi_run_wf s cs s' : ssi_run s cs s' → wf s → wf s'.
Proof. induction 1; eauto using run_cmd_wf. Qed.

(** C24: From the empty tracker, every legal run keeps the reverse indexes in step
    with the marker sets and the edges equal to the rw-antidependencies between
    concurrent tracked transactions, each recorded on both endpoints with the
    conflict flags saying whether there are any. *)
Theorem ssi_invariant cs s :
  ssi_run Ssi.new cs s →
  (∀ a b, edge s a b ↔ rw_conflict s a b) ∧
  (∀ a b, redge s a b ↔ edge s a b) ∧
  indexes_ok s ∧ flags_ok s ∧ doomed s ⊆ dom (txns s).
Proof.
  intros Hr. assert (wf s) as Hwf by eauto using ssi_run_wf, new_wf.
  split; [by apply wf_edge|]. split; [by apply wf_redge|].
  split; [by apply wf_indexes|]. split; [by apply wf_flags|by apply wf_doomed].
Qed.

(** ** The abort decision *)

(** [x] has an inbound and an outbound rw-edge. *)
Definition pivot (s : SsiTracker) (x : TxnId) : Prop := (∃ a, edge s a x) ∧ (∃ b, edge s x b).

Lemma out_flag_edge s x t :
  wf s → txns s !! x = Some t → out_conflict t = true ↔ ∃ b, edge s x b.
Proof.
  intros Hwf Hx. rewrite (wf_out_flag s Hwf x t Hx), bool_decide_eq_true. split.
  - intros [b Hb]%set_choose_L. exists b, t. done.
  - intros (b & t' & Ht' & Hb) E. simplify_eq. set_solver.
Qed.

Lemma in_flag_edge s x t :
  wf s → txns s !! x = Some t → in_conflict t = true ↔ ∃ a, edge s a x.
Proof.
  intros Hwf Hx. rewrite (wf_in_flag s Hwf x t Hx), bool_decide_eq_true. split.
  - intros [b Hb]%set_choose_L. exists b. apply (wf_redge s Hwf). by exists t.
  - intros (b & He%(wf_redge s Hwf)) E. destruct He as (t' & Ht' & Hb). simplify_eq. set_solver.
Qed.

Lemma edge_tracked s a b : wf s → edge s a b →
  is_Some (txns s !! a) ∧ is_Some (txns s !! b) ∧ a ≠ b ∧ Ssi.are_concurrent s a b = true.
Proof.
  intros Hwf (Hne & Hc & ta & tb & Ha & Hb & _)%(wf_edge s Hwf). split; [by eexists|].
  split; [by eexists|done].
Qed.

Lemma is_pivot_spec s x : wf s → Ssi.is_pivot s x = true ↔ pivot s x.
Proof.
  intros Hwf. unfold Ssi.is_pivot, pivot. destruct (txns s !! x) as [t|] eqn:E.
  - rewrite andb_true_iff, (in_flag_edge s x t), (out_flag_edge s x t) by done. done.
  - split; [done|]. intros [_ (b & t & Ht & _)]. congruence.
Qed.

(** Cahill's side condition of Case A always holds for a recorded edge. *)
Lemma closes_spec s x t :
  wf s → txns s !! x = Some t → Ssi.closes s x t = true ↔ ∃ b, edge s x b.
Proof.
  intros Hwf Hx. unfold Ssi.closes. rewrite existsb_exists. split.
  - intros (b & Hb & _). exists b, t. split; [done|]. by apply elem_of_elements, list_elem_of_In.
  - intros (b & He). destruct (edge_tracked s x b Hwf He) as (_ & [tb Hb] & _ & Hc).
    exists b. destruct He as (t' & Ht' & Hin). simplify_eq. split.
    + by apply list_elem_of_In, elem_of_elements.
    + by rewrite Hb, Hc, orb_true_r.
Qed.

Lemma running_pivot_spec s x y :
  wf s →
  y ∈ (filter (λ p, Ssi.running_pivot_into x p = true) (map_to_list (txns s))).*1 ↔
    pivot s y ∧ edge s y x ∧ Ssi.active s y = true.
Proof.
  intros Hwf. rewrite list_elem_of_fmap. unfold Ssi.active. split.
  - intros ([z t] & -> & [Hf Hin%elem_of_map_to_list]%list_elem_of_filter).
    unfold Ssi.running_pivot_into in Hf. simpl in *. bool_solve.
    rewrite Hin. split; [split|split].
    + by eapply (in_flag_edge s z t).
    + by eapply (out_flag_edge s z t).
    + by exists t.
    + by apply bool_decide_eq_true.
  - intros ([Hi Ho] & He & Ha). destruct He as (t & Ht & Hx).
    exists (y, t). split; [done|]. apply list_elem_of_filter. rewrite elem_of_map_to_list.
    split; [|done]. unfold Ssi.running_pivot_into. simpl. rewrite Ht in Ha.
    assert (edge s y x) as (_ & _ & Hne & _)%edge_tracked by (by exists t); [|done].
    rewrite (proj2 (N.eqb_neq _ _)) by done.
    rewrite (proj2 (in_flag_edge s y t Hwf Ht) Hi), (proj2 (out_flag_edge s y t Hwf Ht) Ho), Ha.
    by rewrite bool_decide_eq_true_2.
Qed.

Lemma detect_self s x :
  wf s → is_Some (txns s !! x) →
  Ssi.detect_pivot_abort s x = Some x ↔ x ∈ doomed s ∨ pivot s x.
Proof.
  intros Hwf [t Ht]. unfold Ssi.detect_pivot_abort. case_bool_decide as Hd; [naive_solver|].
  rewrite Ht. pose proof (in_flag_edge s x t Hwf Ht) as Hi. pose proof (out_flag_edge s x t Hwf Ht) as Ho.
  pose proof (closes_spec s x t Hwf Ht) as Hc. unfold pivot.
  assert (∀ l, list_min (filter (λ p, Ssi.running_pivot_into x p = true) l).*1 ≠ Some x) as Hself.
  { intros l [Hin _]%list_min_Some. apply list_elem_of_fmap in Hin as ([y ty] & -> & [Hr _]%list_elem_of_filter).
    unfold Ssi.running_pivot_into in Hr. simpl in Hr. by rewrite N.eqb_refl in Hr. }
  specialize (Hself (map_to_list (txns s))).
  destruct (out_conflict t), (in_conflict t), (Ssi.closes s x t); simpl;
    rewrite ?andb_false_r, ?andb_true_r; simpl; try (case_bool_decide; simpl); naive_solver.
Qed.

Lemma detect_other s x y t :
  wf s → txns s !! x = Some t → x ∉ doomed s → ¬ pivot s x →
  Ssi.detect_pivot_abort s x = Some y →
    pivot s y ∧ edge s y x ∧ Ssi.active s y = true ∧
    ∀ z, pivot s z → edge s z x → Ssi.active s z = true → y ≤ z.
Proof.
  intros Hwf Ht Hd Hp. unfold Ssi.detect_pivot_abort. rewrite bool_decide_eq_false_2, Ht by done.
  case_match; [done|]. case_match eqn:E.
  { bool_solve. exfalso. apply Hp. split; [by eapply in_flag_edge|by eapply out_flag_edge]. }
  intros [Hin Hmin]%list_min_Some. rewrite running_pivot_spec in Hin by done.
  destruct_and!. do 3 (split; [done|]). intros z ? ? ?. apply Hmin. by apply running_pivot_spec.
Qed.

Lemma detect_none s x t :
  wf s → txns s !! x = Some t → predicate_writes t = ∅ →
  Ssi.detect_pivot_abort s x = None →
    (x ∉ doomed s) ∧ ¬ pivot s x ∧ ¬ ∃ z, pivot s z ∧ edge s z x ∧ Ssi.active s z = true.
Proof.
  intros Hwf Ht Hpw Hn.
  assert ((x ∉ doomed s) ∧ ¬ pivot s x) as [Hd Hp].
  { split; intros Hx; by rewrite (proj2 (detect_self s x Hwf (ex_intro _ t Ht))) in Hn by auto. }
  split; [done|]. split; [done|]. intros (z & Hz & He & Ha).
  unfold Ssi.detect_pivot_abort in Hn. rewrite bool_decide_eq_false_2, Ht in Hn by done.
  case_match eqn:E1.
  - bool_solve. apply (wf_edge s Hwf) in He as (_ & _ & tz & tx & _ & Hx & Hrw). simplify_eq.
    destruct Hrw as [(k & _ & Hk)|(p & _ & Hpk)]; set_solver.
  - case_match; [done|]. apply list_min_None in Hn.
    assert (z ∈ (filter (λ p, Ssi.running_pivot_into x p = true) (map_to_list (txns s))).*1) as Hin
      by (by apply running_pivot_spec).
    rewrite Hn in Hin. by apply not_elem_of_nil in Hin.
Qed.

(** A commit is told to abort its own transaction exactly when it was condemned
    or is a pivot; otherwise it is told to abort the least running pivot whose
    outbound edge reaches it; and it is told to go ahead only when there is
    none (for transactions whose writes are physical, for which the read-only
    exemption loses nothing). *)
Theorem detect_pivot_abort_spec s x t :
  wf s → txns s !! x = Some t →
  (Ssi.detect_pivot_abort s x = Some x ↔ x ∈ doomed s ∨ pivot s x) ∧
  (∀ y, y ≠ x → Ssi.detect_pivot_abort s x = Some y →
     pivot s y ∧ edge s y x ∧ Ssi.active s y = true ∧
     ∀ z, pivot s z → edge s z x → Ssi.active s z = true → y ≤ z) ∧
  (predicate_writes t = ∅ → Ssi.detect_pivot_abort s x = None →
     (x ∉ doomed s) ∧ ¬ pivot s x ∧ ¬ ∃ z, pivot s z ∧ edge s z x ∧ Ssi.active s z = true).
Proof.
  intros Hwf Ht. split; [apply detect_self; [done|by eexists]|]. split.
  - intros y Hne Hy.
    assert (¬ (x ∈ doomed s ∨ pivot s x)) as Hn.
    { intros Hx. apply (detect_self s x Hwf (ex_intro _ t Ht)) in Hx. congruence. }
    apply (detect_other s x y t); naive_solver.
  - by apply detect_none.
Qed.

(** ** Forgetting *)

(** After [forget x], no part of the tracker mentions [x], and everything about
    the other transactions (markers, timestamps, mutual edges, condemnation)
    is as before. *)
Theorem forget_complete x s :
  wf s →
  let s' := Ssi.forget x s in
  Ssi.tracks s' x = false ∧ Ssi.is_snapshot x s' = false ∧
  (∀ k, (x ∉ idx (readers_of s') k) ∧ (x ∉ idx (writers_of s') k)) ∧
  (∀ p, (x ∉ idx (predicate_readers_of s') p) ∧ (x ∉ idx (predicate_writers_of s') p)) ∧
  (∀ y, ¬ edge s' x y ∧ ¬ edge s' y x) ∧
  (∀ y, y ≠ x → core <$> txns s' !! y = core <$> txns s !! y ∧ (y ∈ doomed s' ↔ y ∈ doomed s)) ∧
  (∀ a b, a ≠ x → b ≠ x → edge s' a b ↔ edge s a b).
Proof.
  intros Hwf s'. assert (wf s') as Hwf' by (by apply forget_wf).
  assert (txns s' !! x = None) as Hx by (subst s'; rewrite forget_lookup by done; by case_decide).
  destruct (wf_indexes s' Hwf') as (H1 & H2 & H3 & H4).
  split; [|split; [|split; [|split; [|split; [|split]]]]].
  - unfold Ssi.tracks. rewrite Hx. subst s'. rewrite forget_doomed.
    apply orb_false_iff. split; apply bool_decide_eq_false_2; [by intros [? [=]]|set_solver].
  - unfold Ssi.is_snapshot. apply bool_decide_eq_false_2. subst s'. unfold Ssi.forget.
    destruct (txns s !! x); simpl; set_solver.
  - intros k. rewrite H1, H2, Hx. naive_solver.
  - intros p. rewrite H3, H4, Hx. naive_solver.
  - intros y. subst s'. rewrite !forget_edge by done. naive_solver.
  - intros y Hy. subst s'. rewrite forget_lookup, decide_False, forget_doomed by done.
    split; [by destruct (txns s !! y)|set_solver].
  - intros a b Ha Hb. subst s'. rewrite forget_edge by done. naive_solver.
Qed.

(** ** A write skew *)

Definition sample_cmds : list SsiCmd :=
  [CRegister 1 1; CRegister 2 2; CRead 1 7; CRead 1 8; CRead 2 7; CWrite 1 7; CWrite 2 8].

Definition sample_tracker : SsiTracker := foldl (λ s c, run_cmd c s) Ssi.new sample_cmds.

Fixpoint cmds_ok (s : SsiTracker) (cs : list SsiCmd) : Prop :=
  match cs with [] => True | c :: cs => cmd_ok c s ∧ cmds_ok (run_cmd c s) cs end.

Lemma cmds_ok_run s cs : cmds_ok s cs → ssi_run s cs (foldl (λ s c, run_cmd c s) s cs).
Proof.
  revert s. induction cs as [|c cs IH]; intros s; simpl; [intros _; constructor|].
  intros [? ?]. constructor; auto.
Qed.

Lemma sample_run : ssi_run Ssi.new sample_cmds sample_tracker.
Proof. apply cmds_ok_run. repeat (split; [first [exact I|by eexists; vm_compute]|]). exact I. Qed.

Lemma sample_wf : wf sample_tracker.
Proof. exact (ssi_run_wf _ _ _ sample_run new_wf). Qed.

Definition sample_conflict (x : TxnId) : TxnConflict :=
  default (fresh_conflict 0) (txns sample_tracker !! x).

Lemma ssi_invariant_witness :
  (∀ a b, edge sample_tracker a b ↔ rw_conflict sample_tracker a b) ∧
  (∀ a b, redge sample_tracker a b ↔ edge sample_tracker a b) ∧
  indexes_ok sample_tracker ∧ flags_ok sample_tracker ∧
  doomed sample_tracker ⊆ dom (txns sample_tracker).
Proof. exact (ssi_invariant sample_cmds sample_tracker sample_run). Defined.

(** The pivot of the skew is told to abort. *)
Lemma detect_pivot_abort_witness :
  Ssi.detect_pivot_abort sample_tracker 1 = Some 1 ↔
    1 ∈ doomed sample_tracker ∨ pivot sample_tracker 1.
Proof.
  refine (proj1 (detect_pivot_abort_spec sample_tracker 1 (sample_conflict 1) sample_wf _)).
  vm_compute. reflexivity.
Defined.

Lemma forget_complete_witness :
  Ssi.tracks (Ssi.forget 1 sample_tracker) 1 = false ∧
  Ssi.is_snapshot 1 (Ssi.forget 1 sample_tracker) = false.
Proof.
  pose proof (forget_complete 1 sample_tracker sample_wf) as H. cbv zeta in H.
  split; apply H.
Defined.
