(* ===== verification/SsiSafe.v ===== *)
(** * SSI: no dangerous structure among committed transactions

    When a rw-edge makes a committed transaction a pivot, the endpoint still
    running is doomed; a doomed transaction does not commit. So a committed pivot
    never has both its neighbours committed. *)

From stdpp Require Import options.
From S2P Require Import Prelude Core Ssi SsiFacts SsiOps SsiSpec.
Import SsiWf SsiInv.

Definition committed_in (s : SsiTracker) (x : TxnId) : Prop :=
  ∃ t, txns s !! x = Some t ∧ is_Some (commit_ts t).

(** Every committed pivot has a doomed neighbour, and the doomed are running. *)
Record guarded_pivots (s : SsiTracker) : Prop := {
  gp_pivot : ∀ i p o, committed_in s p → edge s i p → edge s p o → i ∈ doomed s ∨ o ∈ doomed s;
  gp_running : ∀ x, x ∈ doomed s → ¬ committed_in s x;
}.

Lemma no_committed_triple s i p o :
  guarded_pivots s → committed_in s i → committed_in s p → committed_in s o →
  edge s i p → edge s p o → False.
Proof.
  intros [Hp Hr] Hi Hpc Ho H1 H2. destruct (Hp i p o) as [?|?]; try done; by eapply Hr.
Qed.

(** ** Adding an edge *)

Lemma committed_same_times s s' x : same_times s s' → committed_in s' x ↔ committed_in s x.
Proof.
  intros Ht. unfold committed_in. specialize (Ht x). unfold times in Ht.
  destruct (txns s' !! x) as [t'|], (txns s !! x) as [t|]; simpl in *; try done.
  injection Ht as E _. split; intros (? & [= <-] & ?); eexists; (split; [done|]); congruence.
Qed.

Lemma pivot_committed_true s x t :
  flags_ok s → txns s !! x = Some t → is_Some (commit_ts t) →
  (∃ i, redge s i x) → (∃ o, edge s x o) → Ssi.pivot_committed s x = true.
Proof.
  intros Hf Hx Hc (i & ti & Hi & Hin) (o & to & Ho & Hout). simplify_eq.
  unfold Ssi.pivot_committed. rewrite Hx. destruct (Hf x t Hx) as [-> ->].
  rewrite !bool_decide_eq_true_2; [done|done|set_solver|set_solver].
Qed.

Lemma active_spec s x : Ssi.active s x = true ↔ is_Some (txns s !! x) ∧ ¬ committed_in s x.
Proof.
  unfold Ssi.active, committed_in. destruct (txns s !! x) as [t|]; [|by split; [|intros [[] _]]].
  rewrite bool_decide_eq_true, eq_None_not_Some. split.
  - intros Hn. split; [done|]. by intros (? & [= <-] & ?).
  - intros [_ Hn] ?. apply Hn. eauto.
Qed.

(** The table after the two edge updates of [add_edge], before dooming. *)
Definition with_edge (from to : TxnId) (s : SsiTracker) : SsiTracker :=
  with_txns (alter (add_in from) to) (with_txns (alter (add_out to) from) s).

Lemma add_edge_unfold from to s :
  from ≠ to →
  doomed (Ssi.add_edge from to s) =
    (if Ssi.pivot_committed (with_edge from to s) from && Ssi.active (with_edge from to s) to
     then {[to]} else ∅) ∪
    ((if Ssi.pivot_committed (with_edge from to s) to && Ssi.active (with_edge from to s) from
      then {[from]} else ∅) ∪ doomed s).
Proof.
  intros Hne. unfold Ssi.add_edge. rewrite (proj2 (N.eqb_neq _ _)) by done.
  fold (with_edge from to s).
  set (s1 := if Ssi.pivot_committed (with_edge from to s) to && _ then _ else _).
  assert (Ssi.pivot_committed s1 from = Ssi.pivot_committed (with_edge from to s) from ∧
          Ssi.active s1 to = Ssi.active (with_edge from to s) to) as [-> ->]
    by (subst s1; by case_match).
  assert (doomed s1 = (if Ssi.pivot_committed (with_edge from to s) to &&
    Ssi.active (with_edge from to s) from then {[from]} else ∅) ∪ doomed s) as <-.
  { subst s1. case_match; simpl; [done|set_solver]. }
  case_match; simpl; set_solver.
Qed.

Lemma with_edge_txns from to s :
  from ≠ to → txns (with_edge from to s) = txns (Ssi.add_edge from to s).
Proof. intros. rewrite add_edge_txns. by rewrite (proj2 (N.eqb_neq _ _)). Qed.

Lemma same_txns s s' :
  txns s = txns s' → (∀ x, Ssi.pivot_committed s x = Ssi.pivot_committed s' x) ∧
    (∀ x, Ssi.active s x = Ssi.active s' x).
Proof. intros E. unfold Ssi.pivot_committed, Ssi.active. by rewrite E. Qed.

Lemma add_edge_guarded from to s :
  flags_ok s → is_Some (txns s !! from) → is_Some (txns s !! to) →
  ¬ (committed_in s from ∧ committed_in s to) →
  (∀ a b, redge s a b ↔ edge s a b) →
  guarded_pivots s → guarded_pivots (Ssi.add_edge from to s).
Proof.
  intros Hf Hfr Hto Hnc Hmir [Hp Hr].
  destruct (decide (from = to)) as [->|Hne].
  { by unfold Ssi.add_edge; rewrite N.eqb_refl. }
  set (s' := Ssi.add_edge from to s).
  assert (∀ x, committed_in s' x ↔ committed_in s x) as Hci.
  { intros x. apply committed_same_times, same_core_times, add_edge_same_core. }
  assert (∀ x, is_Some (txns s' !! x) ↔ is_Some (txns s !! x)) as His.
  { intros x. apply same_times_is_Some, same_core_times, add_edge_same_core. }
  assert (∀ a b, redge s' a b ↔ edge s' a b) as Hmir'.
  { intros a b. subst s'. rewrite add_edge_redge, add_edge_edge, Hmir. naive_solver. }
  assert (flags_ok s') as Hf' by by apply add_edge_flags.
  pose proof (add_edge_unfold from to s Hne) as Hd. fold s' in Hd.
  destruct (same_txns _ _ (with_edge_txns from to s Hne)) as [Epc Eac]. fold s' in Epc, Eac.
  rewrite !Epc, !Eac in Hd.
  assert (doomed s ⊆ doomed s') as Hmono by (rewrite Hd; set_solver).
  assert (∀ x, committed_in s x → (∃ i, edge s' i x) → (∃ o, edge s' x o) →
    Ssi.pivot_committed s' x = true) as Hpc.
  { intros x (t & Ht & Hc)%Hci (i & Hi) Ho. eapply pivot_committed_true; eauto.
    exists i. by apply Hmir'. }
  split.
  - intros i p o Hpcm%Hci H1 H2.
    destruct (decide (i = from ∧ p = to)) as [[-> ->]|Hn1].
    { left. assert (Ssi.pivot_committed s' to = true) as E by eauto.
      assert (Ssi.active s' from = true) as E' by (apply active_spec; rewrite His, Hci; tauto).
      rewrite Hd, E, E'. simpl. set_solver. }
    destruct (decide (p = from ∧ o = to)) as [[-> ->]|Hn2].
    { right. assert (Ssi.pivot_committed s' from = true) as E by eauto.
      assert (Ssi.active s' to = true) as E' by (apply active_spec; rewrite His, Hci; tauto).
      rewrite Hd, E, E'. simpl. set_solver. }
    apply add_edge_edge in H1 as [H1|(? & ? & _)]; [|by destruct Hn1].
    apply add_edge_edge in H2 as [H2|(? & ? & _)]; [|by destruct Hn2].
    destruct (Hp i p o Hpcm H1 H2); [left|right]; by apply Hmono.
  - intros x Hx. rewrite Hci. rewrite Hd in Hx.
    apply elem_of_union in Hx as [Hx|[Hx|Hx]%elem_of_union]; [| |by apply Hr].
    + destruct (Ssi.pivot_committed s' from && Ssi.active s' to) eqn:E; [|set_solver].
      apply andb_true_iff in E as [_ E]. apply elem_of_singleton in Hx as ->.
      apply active_spec in E. rewrite <- Hci. tauto.
    + destruct (Ssi.pivot_committed s' to && Ssi.active s' from) eqn:E; [|set_solver].
      apply andb_true_iff in E as [_ E]. apply elem_of_singleton in Hx as ->.
      apply active_spec in E. rewrite <- Hci. tauto.
Qed.

Lemma add_edges_guarded es s :
  flags_ok s → (∀ a b, redge s a b ↔ edge s a b) →
  (∀ a b, (a, b) ∈ es → is_Some (txns s !! a) ∧ is_Some (txns s !! b) ∧
     ¬ (committed_in s a ∧ committed_in s b)) →
  guarded_pivots s → guarded_pivots (add_edges es s).
Proof.
  revert s. induction es as [|[a b] es IH]; intros s Hf Hm Hes Hg; [done|]. simpl.
  destruct (Hes a b) as (Ha & Hb & Hn); [set_solver|].
  assert (∀ x, is_Some (txns (Ssi.add_edge a b s) !! x) ↔ is_Some (txns s !! x)) as His.
  { intros x. apply same_times_is_Some, same_core_times, add_edge_same_core. }
  assert (∀ x, committed_in (Ssi.add_edge a b s) x ↔ committed_in s x) as Hci.
  { intros x. apply committed_same_times, same_core_times, add_edge_same_core. }
  apply IH.
  - by apply add_edge_flags.
  - intros x y. rewrite add_edge_redge, add_edge_edge, Hm. naive_solver.
  - intros x y Hxy. rewrite !His, !Hci. apply Hes. set_solver.
  - by apply add_edge_guarded.
Qed.

(** ** The operations *)

Lemma same_frame_guarded s s0 :
  same_frame s s0 → doomed s0 = doomed s → guarded_pivots s → guarded_pivots s0.
Proof.
  intros Hf Hd [Hp Hr].
  assert (∀ x, committed_in s0 x ↔ committed_in s x) as Hci
    by (intros; by apply committed_same_times, same_frame_times).
  split.
  - intros i p o. rewrite Hci, !(same_frame_edge s s0), Hd by done. eauto.
  - intros x. rewrite Hd, Hci. auto.
Qed.

(** A running transaction records a marker: the edges all touch it. *)
Lemma record_guarded s s0 x es :
  wf s → same_frame s s0 → doomed s0 = doomed s →
  is_Some (txns s !! x) → ¬ committed_in s x →
  (∀ a b, (a, b) ∈ es → is_Some (txns s0 !! a) ∧ is_Some (txns s0 !! b) ∧ (a = x ∨ b = x)) →
  guarded_pivots s → guarded_pivots (add_edges es s0).
Proof.
  intros Hwf Hf Hd Hx Hnc Hes Hg.
  apply add_edges_guarded; [by eapply same_frame_flags, wf_flags| | |by eapply same_frame_guarded].
  - intros a b. rewrite (same_frame_redge s s0), (same_frame_edge s s0) by done.
    apply (wf_redge s Hwf).
  - intros a b Hab. destruct (Hes a b Hab) as (? & ? & Hor). split; [done|]. split; [done|].
    rewrite !(committed_same_times s s0) by by apply same_frame_times. naive_solver.
Qed.

Lemma concurrent_tracked s a b :
  Ssi.are_concurrent s a b = true → is_Some (txns s !! a) ∧ is_Some (txns s !! b).
Proof. unfold Ssi.are_concurrent. by destruct (txns s !! a), (txns s !! b). Qed.

Lemma record_read_guarded x k s :
  wf s → is_Some (txns s !! x) → ¬ committed_in s x →
  guarded_pivots s → guarded_pivots (Ssi.record_read x k s).
Proof.
  intros Hwf Hx Hn Hg. unfold Ssi.record_read. rewrite foldl_out.
  eapply (record_guarded s _ x); try done; [by eapply same_frame_alter|].
  intros a b [-> (_ & Hc & _)%elem_of_concurrent_of]%elem_of_out.
  apply concurrent_tracked in Hc. naive_solver.
Qed.

Lemma record_write_guarded x k s :
  wf s → is_Some (txns s !! x) → ¬ committed_in s x →
  guarded_pivots s → guarded_pivots (Ssi.record_write x k s).
Proof.
  intros Hwf Hx Hn Hg. unfold Ssi.record_write. rewrite foldl_in.
  eapply (record_guarded s _ x); try done; [by eapply same_frame_alter|].
  intros a b [-> (_ & Hc & _)%elem_of_concurrent_with]%elem_of_in.
  apply concurrent_tracked in Hc. naive_solver.
Qed.

Lemma register_guarded x b s :
  wf s → txns s !! x = None → guarded_pivots s → guarded_pivots (Ssi.register x b s).
Proof.
  intros Hwf Hx [Hp Hr].
  assert (∀ y, txns (Ssi.register x b s) !! y =
    if decide (y = x) then Some (fresh_conflict b) else txns s !! y) as Hl.
  { intros y. by rewrite register_lookup, Hx. }
  assert (doomed (Ssi.register x b s) = doomed s) as Hd by (unfold Ssi.register; by rewrite Hx).
  assert (∀ y, committed_in (Ssi.register x b s) y ↔ committed_in s y) as Hci.
  { intros y. unfold committed_in. rewrite Hl. case_decide; [subst|done]. rewrite Hx.
    split; [intros (? & [= <-] & []); done|by intros (? & ? & _)]. }
  assert (∀ a c, edge (Ssi.register x b s) a c ↔ edge s a c) as He.
  { intros a c. unfold edge. rewrite Hl. case_decide; [subst|done]. rewrite Hx. split.
    - intros (? & [= <-] & Hin). simpl in Hin. set_solver.
    - by intros (? & ? & _). }
  split.
  - intros i p o. rewrite Hci, !He, Hd. eauto.
  - intros y. rewrite Hd, Hci. auto.
Qed.

Lemma record_commit_guarded x ts s :
  x ∉ doomed s → ¬ pivot s x → guarded_pivots s → guarded_pivots (Ssi.record_commit x ts s).
Proof.
  intros Hd Hpv [Hp Hr].
  assert (∀ y, committed_in (Ssi.record_commit x ts s) y → y = x ∨ committed_in s y) as Hci.
  { intros y (t & Ht & Hc). rewrite record_commit_lookup in Ht. case_decide; [by left|right].
    exists t. by destruct (txns s !! y). }
  assert (∀ a b, edge (Ssi.record_commit x ts s) a b ↔ edge s a b) as He.
  { intros a b. unfold edge. rewrite record_commit_lookup. destruct (txns s !! a) as [t|]; simpl.
    - split; intros (? & [= <-] & ?); eexists; (split; [done|]); by case_decide.
    - done. }
  split.
  - intros i p o [->|Hpc]%Hci; rewrite !He; simpl; [|eauto].
    intros H1 H2. destruct Hpv. split; eauto.
  - intros y Hy [->|Hyc]%Hci; [done|]. by apply (Hr y).
Qed.

Lemma forget_guarded x s : wf s → guarded_pivots s → guarded_pivots (Ssi.forget x s).
Proof.
  intros Hwf [Hp Hr].
  assert (∀ y, committed_in (Ssi.forget x s) y → committed_in s y) as Hci.
  { intros y (t & Ht & Hc). rewrite forget_lookup in Ht by done. case_decide; [done|].
    apply fmap_Some in Ht as (t0 & Ht0 & ->). by exists t0. }
  split.
  - intros i p o Hpc%Hci (Hi & _ & H1)%forget_edge (_ & Ho & H2)%forget_edge; try done.
    rewrite forget_doomed. destruct (Hp i p o Hpc H1 H2); set_solver.
  - intros y. rewrite forget_doomed. intros [Hy _]%elem_of_difference Hyc%Hci. by apply (Hr y).
Qed.

Lemma new_guarded : guarded_pivots Ssi.new.
Proof. split; [by intros i p o (t & Ht & _)|by intros x ?%not_elem_of_empty]. Qed.

(** ** Marker sets only grow while a transaction runs *)

Definition grows (t t' : TxnConflict) : Prop :=
  times t' = times t ∧ reads t ⊆ reads t' ∧ writes t ⊆ writes t'.

Lemma grows_core t t' : core t' = core t → grows t t'.
Proof. intros (E1 & _ & E2 & _ & E3 & E4)%core_inv. unfold grows, times. by rewrite E1, E2, E3, E4. Qed.

Lemma add_edges_grows es s x t :
  txns s !! x = Some t → ∃ t', txns (add_edges es s) !! x = Some t' ∧ core t' = core t.
Proof.
  intros Hx. pose proof (add_edges_same_core es s x) as Hc. rewrite Hx in Hc.
  apply fmap_Some in Hc as (t' & ? & ?). eauto.
Qed.

Lemma record_read_grows x k s y t :
  txns s !! y = Some t →
  ∃ t', txns (Ssi.record_read x k s) !! y = Some t' ∧ grows t t' ∧ (y = x → k ∈ reads t').
Proof.
  intros Hy. unfold Ssi.record_read. rewrite foldl_out.
  set (s0 := mkSsi _ _ _ _ _ _ _).
  assert (txns s0 !! y = Some (if decide (x = y) then add_read k t else t)) as Hy0.
  { subst s0. simpl. destruct (decide (x = y)) as [->|];
      [by rewrite lookup_alter_eq, Hy|by rewrite lookup_alter_ne]. }
  match goal with |- context [add_edges ?es s0] =>
    destruct (add_edges_grows es s0 y _ Hy0) as (t' & -> & Hc) end. exists t'. split; [done|].
  apply core_inv in Hc as (E1 & _ & E2 & _ & E3 & E4). unfold grows, times. rewrite E1, E2, E3, E4.
  destruct (decide (x = y)) as [->|Hne]; simpl; [set_solver|].
  split; [done|]. by intros ->.
Qed.

Lemma record_write_grows x k s y t :
  txns s !! y = Some t →
  ∃ t', txns (Ssi.record_write x k s) !! y = Some t' ∧ grows t t' ∧ (y = x → k ∈ writes t').
Proof.
  intros Hy. unfold Ssi.record_write. rewrite foldl_in.
  set (s0 := mkSsi _ _ _ _ _ _ _).
  assert (txns s0 !! y = Some (if decide (x = y) then add_write k t else t)) as Hy0.
  { subst s0. simpl. destruct (decide (x = y)) as [->|];
      [by rewrite lookup_alter_eq, Hy|by rewrite lookup_alter_ne]. }
  match goal with |- context [add_edges ?es s0] =>
    destruct (add_edges_grows es s0 y _ Hy0) as (t' & -> & Hc) end. exists t'. split; [done|].
  apply core_inv in Hc as (E1 & _ & E2 & _ & E3 & E4). unfold grows, times. rewrite E1, E2, E3, E4.
  destruct (decide (x = y)) as [->|Hne]; simpl; [set_solver|].
  split; [done|]. by intros ->.
Qed.
