(* ===== verification/Manager.v ===== *)
(** * graphus-txn: the transaction manager

    [src/crates/graphus-txn/src/manager.rs]. [TxnManager] is generic in the
    store (class [VersionedStore]) and in the durability hook (class
    [Durability]); [Instant::now()] is the argument [now] of the operations
    that read the clock, in nanoseconds. *)

From stdpp Require Import options.
From S2P Require Import Prelude Core Snapshot Visibility Oracle VStore Ssi.
Open Scope graphus_scope.

Abbreviation Instant := N (only parsing).
Abbreviation Duration := N (only parsing).

(** The durability hook, bound to the write-ahead log in production. *)
Class Durability (D : Type) := harden_commit : TxnId → D → Outcome unit * D.

(** The no-op hook. *)
Inductive NoDurability := mkNoDurability.
#[global] Instance no_durability : Durability NoDurability := λ _ d, (Ok tt, d).

Definition DEFAULT_MAX_ACTIVE_TXNS : N := 100000.
Definition DEFAULT_IDLE_TIMEOUT : Duration := 300 * 1000000000.

Record TxnConfig := mkConfig { max_active_txns : N; idle_timeout : Duration }.
Definition default_config : TxnConfig := mkConfig DEFAULT_MAX_ACTIVE_TXNS DEFAULT_IDLE_TIMEOUT.

Record ActiveTxn := mkActive {
  snapshot : Snapshot;
  isolation : IsolationLevel;
  written : gset Key;
  last_active : Instant;
}.

Record TxnManager (S D : Type) := mkManager {
  oracle : TimestampOracle;
  registry : CommitRegistry;
  ssi : SsiTracker;
  store : S;
  durability : D;
  active_txns : gmap TxnId ActiveTxn;
  next_txn_id : N;
  config : TxnConfig;
}.
Arguments mkManager {S D} _ _ _ _ _ _ _ _.
Arguments oracle {S D} _.
Arguments registry {S D} _.
Arguments ssi {S D} _.
Arguments store {S D} _.
Arguments durability {S D} _.
Arguments active_txns {S D} _.
Arguments next_txn_id {S D} _.
Arguments config {S D} _.

Section setters.
Context {S D : Type}.
Abbreviation T := (TxnManager S D).
Definition set_oracle (o : TimestampOracle) (m : T) : T :=
  mkManager o (registry m) (ssi m) (store m) (durability m) (active_txns m) (next_txn_id m) (config m).
Definition set_registry (r : CommitRegistry) (m : T) : T :=
  mkManager (oracle m) r (ssi m) (store m) (durability m) (active_txns m) (next_txn_id m) (config m).
Definition set_ssi (s : SsiTracker) (m : T) : T :=
  mkManager (oracle m) (registry m) s (store m) (durability m) (active_txns m) (next_txn_id m) (config m).
Definition set_store (s : S) (m : T) : T :=
  mkManager (oracle m) (registry m) (ssi m) s (durability m) (active_txns m) (next_txn_id m) (config m).
Definition set_durability (d : D) (m : T) : T :=
  mkManager (oracle m) (registry m) (ssi m) (store m) d (active_txns m) (next_txn_id m) (config m).
Definition set_active (a : gmap TxnId ActiveTxn) (m : T) : T :=
  mkManager (oracle m) (registry m) (ssi m) (store m) (durability m) a (next_txn_id m) (config m).
Definition set_next_txn_id (n : N) (m : T) : T :=
  mkManager (oracle m) (registry m) (ssi m) (store m) (durability m) (active_txns m) n (config m).

(** Run a component's stateful operation inside the manager. *)
Definition on_oracle {A} (f : TimestampOracle → Outcome A * TimestampOracle) : St T A :=
  λ m, let '(r, o) := f (oracle m) in (r, set_oracle o m).
Definition on_store {A} (f : S → Outcome A * S) : St T A :=
  λ m, let '(r, s) := f (store m) in (r, set_store s m).
Definition on_durability {A} (f : D → Outcome A * D) : St T A :=
  λ m, let '(r, d) := f (durability m) in (r, set_durability d m).
End setters.

Module Manager.
Section manager.
Context {S D : Type} `{!VersionedStore S, !Durability D}.
Abbreviation T := (TxnManager S D).

Definition with_durability_and_config (s : S) (d : D) (c : TxnConfig) : T :=
  mkManager Oracle.new Registry.new Ssi.new s d ∅ 0 c.
Definition with_durability (s : S) (d : D) : T := with_durability_and_config s d default_config.

(** *** Internals *)

Definition touch (now : Instant) (txn : TxnId) : St T unit :=
  modify (λ m, set_active
    (alter (λ a, mkActive (snapshot a) (isolation a) (written a) now) txn (active_txns m)) m).

Definition active_snapshot (m : T) (txn : TxnId) : Outcome Snapshot :=
  match active_txns m !! txn with
  | Some a => Ok (snapshot a)
  | None => Err (Transaction ("read in inactive txn " +:+ pretty txn))
  end.

Definition ensure_active (m : T) (txn : TxnId) : Outcome unit :=
  if bool_decide (is_Some (active_txns m !! txn)) then Ok tt
  else Err (Transaction ("write in inactive txn " +:+ pretty txn)).

Definition ensure_no_concurrent_committed_write (m : T) (txn : TxnId) (k : Key) : Outcome unit :=
  match active_txns m !! txn with
  | None => Err (Transaction ("write in inactive txn " +:+ pretty txn))
  | Some a =>
      match head_xmin (store m) k with
      | Some xm =>
          match from_raw xm with
          | VsCommitted committed_ts =>
              if snap_ts (snapshot a) <? committed_ts then
                Err (Transaction ("write conflict: key " +:+ pretty k +:+
                  " was updated by a concurrent transaction that committed after this snapshot (first-committer-wins); retry"))
              else Ok tt
          | _ => Ok tt
          end
      | None => Ok tt
      end
  end.

(** Another active transaction that has written [k]. *)
Definition holder (m : T) (txn : TxnId) (k : Key) : option TxnId :=
  fst <$> head (filter (λ p, p.1 ≠ txn ∧ k ∈ written p.2) (map_to_list (active_txns m))).

Definition acquire_write (txn : TxnId) (k : Key) : St T unit :=
  m ← get;
  match holder m txn k with
  | Some h =>
      throw (Transaction ("write-write conflict: key " +:+ pretty k +:+
        " held by transaction " +:+ pretty h +:+ "; retry"))
  | None =>
      modify (λ m, set_active
        (alter (λ a, mkActive (snapshot a) (isolation a) ({[k]} ∪ written a) (last_active a))
               txn (active_txns m)) m)
  end.

Definition release_snapshot (txn : TxnId) : St T unit :=
  modify (λ m, match active_txns m !! txn with
               | Some a => set_oracle (Oracle.release_begin (snap_ts (snapshot a)) (oracle m)).2
                             (set_active (delete txn (active_txns m)) m)
               | None => m
               end).

Definition abort_internal (txn : TxnId) : St T unit :=
  _ ← on_store (abort_writer txn);
  _ ← modify (λ m, set_registry (Registry.record_abort txn (registry m)) m);
  _ ← modify (λ m, set_ssi (Ssi.forget txn (ssi m)) m);
  release_snapshot txn.

(** *** The public operations *)

Definition begin_ (now : Instant) (iso : IsolationLevel) : St T TxnId :=
  m ← get;
  if max_active_txns (config m) <=? N.of_nat (size (active_txns m)) then
    throw (Transaction ("transaction admission limit reached (" +:+
      pretty (max_active_txns (config m)) +:+ " active); retry"))
  else match option_filter (λ n, n <=? MAX_TIMESTAMP) (checked_add_u64 (next_txn_id m) 1) with
  | None =>
      throw (Transaction "transaction-id space exhausted (63-bit); no new transactions can begin")
  | Some txn =>
      b ← on_oracle Oracle.begin_;
      _ ← modify (set_next_txn_id txn);
      _ ← modify (λ m, set_registry (Registry.register_begin txn (registry m)) m);
      _ ← modify (λ m, set_ssi (Ssi.register txn b (ssi m)) m);
      _ ← modify (λ m, set_active
            (<[txn := mkActive (snapshot_new txn b) iso ∅ now]> (active_txns m)) m);
      mret txn
  end.

Definition begin_serializable (now : Instant) : St T TxnId := begin_ now Serializable.

Definition read (now : Instant) (txn : TxnId) (k : Key) : St T (option Payload) :=
  m ← get;
  sn ← lift (active_snapshot m txn);
  _ ← touch now txn;
  _ ← modify (λ m, set_ssi (Ssi.record_read txn k (ssi m)) m);
  m ← get;
  mret (read_visible (store m) k sn (registry m)).

Definition write (now : Instant) (txn : TxnId) (k : Key) (p : Payload) : St T unit :=
  m ← get;
  _ ← lift (ensure_active m txn);
  _ ← touch now txn;
  _ ← acquire_write txn k;
  m ← get;
  _ ← lift (ensure_no_concurrent_committed_write m txn k);
  _ ← on_store (create_version k txn p);
  modify (λ m, set_ssi (Ssi.record_write txn k (ssi m)) m).

Definition delete_ (now : Instant) (txn : TxnId) (k : Key) : St T unit :=
  m ← get;
  _ ← lift (ensure_active m txn);
  _ ← touch now txn;
  _ ← acquire_write txn k;
  m ← get;
  _ ← lift (ensure_no_concurrent_committed_write m txn k);
  _ ← on_store (expire_version k txn);
  modify (λ m, set_ssi (Ssi.record_write txn k (ssi m)) m).

(** Step 4 of a commit. *)
Definition publish (txn : TxnId) (ts : Timestamp) : St T unit :=
  _ ← on_store (commit_writer txn ts);
  _ ← modify (λ m, set_registry (Registry.record_commit txn ts (registry m)) m);
  _ ← modify (λ m, set_ssi (Ssi.record_commit txn ts (ssi m)) m);
  release_snapshot txn.

(** Run [m]; if it fails with an error, abort [txn] and surface the error. *)
Definition or_abort {A} (txn : TxnId) (c : St T A) : St T A := λ m,
  match c m with
  | (Err e, m') => (_ ← abort_internal txn; throw e) m'
  | r => r
  end.

(** Steps 2 to 4. *)
Definition commit_tail (txn : TxnId) : St T Timestamp :=
  ts ← or_abort txn (on_oracle Oracle.commit);
  _ ← or_abort txn (on_durability (harden_commit txn));
  _ ← publish txn ts;
  mret ts.

Definition commit (txn : TxnId) : St T Timestamp :=
  m ← get;
  match active_txns m !! txn with
  | None => throw (Transaction ("commit of inactive txn " +:+ pretty txn))
  | Some a =>
      match (if runs_ssi (isolation a) then Ssi.detect_pivot_abort (ssi m) txn else None) with
      | Some victim =>
          if victim =? txn then
            _ ← abort_internal txn;
            throw (Transaction ("serialization failure: transaction " +:+ pretty txn +:+
              " aborted to preserve serializability (SSI dangerous structure); retry"))
          else
            _ ← abort_internal victim;
            commit_tail txn
      | None => commit_tail txn
      end
  end.

Definition rollback (txn : TxnId) : St T unit :=
  m ← get;
  if bool_decide (is_Some (active_txns m !! txn)) then abort_internal txn
  else throw (Transaction ("rollback of inactive txn " +:+ pretty txn)).

Definition low_water_mark (m : T) : option Timestamp := Oracle.low_water_mark (oracle m).

Definition run_gc (m : T) : GcReport * T :=
  let lw := low_water_mark m in
  let '(report, s) := collect lw (registry m) (store m) in
  let m := set_store s m in
  let '(pruned, r) := Registry.prune_settled lw (registry m) in
  let m := set_registry r m in
  let m := set_ssi (Ssi.prune_committed lw (ssi m)).2 m in
  (mkGcReport (gc_low_water report) (versions_reclaimed report) pruned, m).

Definition active_count (m : T) : nat := size (active_txns m).
Definition registry_len (m : T) : nat := Registry.len (registry m).

(** The transactions idle for at least [timeout] as of [now]; the subtraction
    is [saturating_duration_since]. *)
Definition idle_victims (now : Instant) (m : T) : list TxnId :=
  (filter (λ p, idle_timeout (config m) ≤ now - last_active p.2)
          (map_to_list (active_txns m))).*1.

Fixpoint abort_all (victims : list TxnId) : St T unit :=
  match victims with
  | [] => mret tt
  | t :: l => _ ← abort_internal t; abort_all l
  end.

Definition reap_idle_as_of (now : Instant) : St T nat :=
  m ← get;
  let victims := idle_victims now m in
  _ ← abort_all victims;
  mret (length victims).

End manager.
End Manager.
