(* ===== verification/ManagerInv.v ===== *)
(** * The transaction manager: invariant

    [inv] relates the manager's components: the oracle's live begin timestamps
    are those of the active transactions, the registry and the SSI tracker know
    exactly the active transactions as in flight, and every stamp word of every
    version chain is the sentinel, a timestamp already issued, or the id of an
    active transaction that wrote the key. Every public operation preserves
    it and none panics. The store enters through its contract
    [VersionedStoreSpec] only. *)

From stdpp Require Import options.
From S2P Require Import Prelude Core Snapshot Visibility Oracle VStore Ssi SsiFacts SsiOps.
From S2P Require Import Manager.
Import SsiWf SsiInv.

(** Project the fields of an explicit manager, and nothing else. *)
Ltac fields := cbn [oracle registry ssi store durability active_txns next_txn_id config].

Section inv.
Context {S D : Type} `{!VersionedStore S, !VersionedStoreSpec S, !Durability D}.
Abbreviation T := (TxnManager S D).
Implicit Types (m : T) (t : TxnId) (k : Key).

Definition counter m : N := next_counter (oracle m).
Definition stamp_of t : N := 2 ^ 63 + t.

(** A legal header word of key [k]. *)
Definition word_ok m k (w : N) : Prop :=
  w = 0 ∨ (∃ c, w = committed c ∧ 0 < c ∧ c ≤ counter m) ∨
  (∃ t a, w = stamp_of t ∧ active_txns m !! t = Some a ∧ k ∈ written a).

Record inv m : Prop := {
  inv_oracle : Oracle.wf (oracle m);
  inv_begins : ∀ ts c, active_begins (oracle m) !! ts = Some c ↔
    c = 1 ∧ ∃ t a, active_txns m !! t = Some a ∧ snap_ts (snapshot a) = ts;
  inv_begin_inj : ∀ t t' a a', active_txns m !! t = Some a → active_txns m !! t' = Some a' →
    snap_ts (snapshot a) = snap_ts (snapshot a') → t = t';
  inv_next_id : next_txn_id m ≤ MAX_TIMESTAMP;
  inv_active : ∀ t a, active_txns m !! t = Some a →
    owner (snapshot a) = t ∧ 0 < t ∧ t ≤ next_txn_id m;
  inv_in_flight : ∀ t, Registry.outcome (registry m) t = OInFlight ↔ is_Some (active_txns m !! t);
  inv_committed : ∀ t c, Registry.outcome (registry m) t = OCommitted c → 0 < c ∧ c ≤ counter m;
  inv_ssi : wf (ssi m);
  inv_ssi_active : ∀ t b,
    (∃ x, txns (ssi m) !! t = Some x ∧ commit_ts x = None ∧ begin_ts x = b) ↔
    (∃ a, active_txns m !! t = Some a ∧ snap_ts (snapshot a) = b);
  inv_ssi_tracked : ∀ t x, txns (ssi m) !! t = Some x →
    t ≤ next_txn_id m ∧ begin_ts x ≤ counter m ∧
    (∀ c, commit_ts x = Some c → begin_ts x < c ∧ c ≤ counter m);
  inv_words : ∀ k v, v ∈ chain_of (store m) k →
    xmin v ≠ 0 ∧ word_ok m k (xmin v) ∧ word_ok m k (xmax v);
  inv_written : ∀ k t t' a a', active_txns m !! t = Some a → active_txns m !! t' = Some a' →
    k ∈ written a → k ∈ written a' → t = t';
}.

(** *** Consequences *)

Lemma inv_stamp m t : inv m → is_Some (active_txns m !! t) → in_flight t = Ok (stamp_of t).
Proof.
  intros Hi [a Ha]. destruct (inv_active m Hi t a Ha) as (_ & H0 & Hle).
  pose proof (inv_next_id m Hi). apply in_flight_ok; lia.
Qed.

Lemma inv_active_bound m t a :
  inv m → active_txns m !! t = Some a →
  0 < t ∧ t ≤ MAX_TIMESTAMP ∧ 0 < snap_ts (snapshot a) ∧ snap_ts (snapshot a) ≤ counter m.
Proof.
  intros Hi Ha. destruct (inv_active m Hi t a Ha) as (_ & H0 & Hle).
  pose proof (inv_next_id m Hi).
  assert (active_begins (oracle m) !! snap_ts (snapshot a) = Some 1) as Hb
    by (apply (inv_begins m Hi); eauto).
  destruct (Oracle.wf_issued _ (inv_oracle m Hi) _ (mk_is_Some _ _ Hb)). unfold counter.
  repeat split; try done; lia.
Qed.

Lemma inv_counter m : inv m → counter m ≤ MAX_TIMESTAMP.
Proof. intros Hi. apply (Oracle.wf_counter _ (inv_oracle m Hi)). Qed.

Lemma stamp_of_inj t t' : stamp_of t = stamp_of t' → t = t'.
Proof. unfold stamp_of. lia. Qed.

Lemma committed_not_stamp c t : c ≤ MAX_TIMESTAMP → committed c ≠ stamp_of t.
Proof. rewrite MAX_TIMESTAMP_val. unfold committed, to_raw, stamp_of. lia. Qed.

Lemma stamp_of_nonzero t : stamp_of t ≠ 0.
Proof. unfold stamp_of. lia. Qed.

(** A legal word is in effect for a live snapshot iff it is the owner's stamp
    or a timestamp at or below the snapshot. *)
Lemma word_in_effect m k w t a :
  inv m → word_ok m k w → active_txns m !! t = Some a →
  in_effect (snapshot a) w (registry m) ↔
    w = stamp_of t ∨ ∃ c, w = committed c ∧ 0 < c ∧ c ≤ snap_ts (snapshot a).
Proof.
  intros Hi Hw Ha. destruct (inv_active m Hi t a Ha) as (Ho & _ & _).
  destruct (inv_active_bound m t a Hi Ha) as (Ht0 & Htm & Hs0 & Hsc).
  pose proof (inv_counter m Hi).
  destruct Hw as [->|[(c & -> & Hc0 & Hc)|(t' & a' & -> & Ha' & Hk)]].
  - split; [intros []%in_effect_zero|]. unfold stamp_of, committed, to_raw.
    intros [?|(c & ? & ?)]; lia.
  - rewrite in_effect_committed by lia. split.
    + intros Hle. right. by exists c.
    + intros [E|(c' & E & _ & Hle)]; [by apply committed_not_stamp in E; [|lia]|].
      unfold committed, to_raw in E. by subst.
  - destruct (inv_active_bound m t' a' Hi Ha') as (Ht0' & Htm' & _ & _).
    unfold stamp_of at 1. rewrite in_effect_in_flight, Ho by done. split.
    + intros [->|(ts & Hts & _)]; [by left|].
      rewrite (proj2 (inv_in_flight m Hi t')) in Hts by (by rewrite Ha'). done.
    + intros [E|(c & E & _ & Hc)]; [left; by apply stamp_of_inj|].
      symmetry in E. apply committed_not_stamp in E; [done|lia].
Qed.

Lemma stamp_not_in_effect m t t' a :
  inv m → active_txns m !! t = Some a → is_Some (active_txns m !! t') → t ≠ t' →
  ¬ in_effect (snapshot a) (stamp_of t') (registry m).
Proof.
  intros Hi Ha [a' Ha'] Hne. destruct (inv_active m Hi t a Ha) as (Ho & _ & _).
  destruct (inv_active_bound m t' a' Hi Ha') as (Ht0' & Htm' & _ & _).
  unfold stamp_of. rewrite in_effect_in_flight, Ho by done. intros [->|(ts & Hts & _)]; [done|].
  by rewrite (proj2 (inv_in_flight m Hi t')) in Hts by (by rewrite Ha').
Qed.

(** *** Component updates *)

Lemma word_ok_mono m m' k w :
  counter m ≤ counter m' →
  (∀ t a, active_txns m !! t = Some a → k ∈ written a →
     ∃ a', active_txns m' !! t = Some a' ∧ k ∈ written a') →
  word_ok m k w → word_ok m' k w.
Proof.
  intros Hc Ha [->|[(c & -> & H0 & Hle)|(t & a & -> & Hat & Hk)]]; [by left|right; left|right; right].
  - exists c. split; [done|lia].
  - destruct (Ha t a Hat Hk) as (a' & ? & ?). eauto.
Qed.

(** Updating an active transaction without touching its snapshot. *)
Lemma inv_alter_active m t (f : ActiveTxn → ActiveTxn) :
  inv m → (∀ a, snapshot (f a) = snapshot a) →
  (∀ a k, active_txns m !! t = Some a → k ∈ written (f a) ↔
     k ∈ written a ∨ (k ∈ written (f a) ∧
       ∀ t' a', active_txns m !! t' = Some a' → k ∈ written a' → t' = t)) →
  inv (set_active (alter f t (active_txns m)) m).
Proof.
  intros Hi Hsn Hwr. pose proof Hi as [Io Ib Ij In Ia If Ic Is Isa Ist Iw Iwr].
  assert (∀ t' a', alter f t (active_txns m) !! t' = Some a' →
    ∃ a, active_txns m !! t' = Some a ∧ a' = if decide (t' = t) then f a else a) as Hl.
  { intros t' a'. destruct (decide (t' = t)) as [->|].
    - rewrite lookup_alter_eq. intros (a & ? & ->)%fmap_Some. eauto.
    - rewrite lookup_alter_ne by done. eauto. }
  assert (∀ t' a, active_txns m !! t' = Some a → ∃ a', alter f t (active_txns m) !! t' = Some a' ∧
    a' = if decide (t' = t) then f a else a) as Hl'.
  { intros t' a Ha. destruct (decide (t' = t)) as [->|].
    - rewrite lookup_alter_eq, Ha. simpl. eauto.
    - rewrite lookup_alter_ne by done. eauto. }
  assert (∀ (a : ActiveTxn) (t' : TxnId),
    snapshot (if decide (t' = t) then f a else a) = snapshot a) as Hsnap.
  { intros. by case_decide. }
  assert (∀ t' b, (∃ a, alter f t (active_txns m) !! t' = Some a ∧ snap_ts (snapshot a) = b) ↔
    (∃ a, active_txns m !! t' = Some a ∧ snap_ts (snapshot a) = b)) as Hsome.
  { intros t' b. split.
    - intros (a' & (a & ? & ->)%Hl & E). rewrite Hsnap in E. eauto.
    - intros (a & (a' & ? & ->)%Hl' & <-). eexists. split; [done|]. by rewrite Hsnap. }
  split; simpl; try done.
  - intros ts c. rewrite Ib. apply and_iff_compat_l. setoid_rewrite Hsome. done.
  - intros t1 t2 a1 a2 (a1' & H1 & ->)%Hl (a2' & H2 & ->)%Hl. rewrite !Hsnap. eauto.
  - intros t' a' (a & Ha & ->)%Hl. rewrite Hsnap. eauto.
  - intros t'. rewrite If, lookup_alter. case_decide; [subst|done]. by rewrite fmap_is_Some.
  - intros t' b. rewrite Hsome. apply Isa.
  - intros k v Hv. destruct (Iw k v Hv) as (? & H1 & H2). split; [done|].
    assert (∀ w, word_ok m k w → word_ok (set_active (alter f t (active_txns m)) m) k w) as Hw.
    { intros w. apply word_ok_mono; [done|]. intros t' a Ha Hk. simpl.
      destruct (Hl' t' a Ha) as (a' & Ha' & ->). eexists. split; [done|].
      case_decide; [|done]. subst. apply Hwr; auto. }
    auto.
  - intros k t1 t2 a1 a2 (b1 & H1 & ->)%Hl (b2 & H2 & ->)%Hl Hk1 Hk2.
    destruct (decide (t1 = t)) as [->|], (decide (t2 = t)) as [->|]; [done| | |eauto].
    + apply Hwr in Hk1 as [Hk1|[_ Hk1]]; [eauto|symmetry; eauto|done].
    + apply Hwr in Hk2 as [Hk2|[_ Hk2]]; [eauto|eauto|done].
Qed.

Lemma inv_touch m t now : inv m → inv (Manager.touch now t m).2.
Proof.
  intros Hi. apply inv_alter_active; [done|done|]. intros a k Ha. simpl. split; [auto|].
  naive_solver.
Qed.

Lemma inv_set_ssi m s' : inv m → wf s' → same_times (ssi m) s' → inv (set_ssi s' m).
Proof.
  intros [Io Ib Ij In Ia If Ic Is Isa Ist Iw Iwr] Hwf Ht. split; simpl; try done.
  - intros t b. rewrite <- Isa. specialize (Ht t). unfold times in Ht.
    destruct (txns s' !! t), (txns (ssi m) !! t); simpl in *; try done.
    injection Ht as E1 E2.
    split; intros (? & [= <-] & H1 & H2); eexists; (split; [done|]); split; congruence.
  - intros t x Hx. specialize (Ht t). rewrite Hx in Ht. unfold times in Ht.
    destruct (txns (ssi m) !! t) as [y|] eqn:E; simpl in *; [|done].
    injection Ht as E1 E2. rewrite E1, E2. eauto.
Qed.

Lemma inv_set_store m s' :
  inv m →
  (∀ k v, v ∈ chain_of s' k → xmin v ≠ 0 ∧ word_ok m k (xmin v) ∧ word_ok m k (xmax v)) →
  inv (set_store s' m).
Proof. intros [] Hw. split; done. Qed.

Lemma inv_set_durability m d : inv m → inv (set_durability d m).
Proof. intros []. split; done. Qed.

(** *** Acquiring a key *)

Lemma holder_Some m t k h :
  Manager.holder m t k = Some h →
  h ≠ t ∧ ∃ a, active_txns m !! h = Some a ∧ k ∈ written a.
Proof.
  unfold Manager.holder. intros (p & Hh & ->)%fmap_Some.
  assert (p ∈ filter (λ p : N * ActiveTxn, p.1 ≠ t ∧ k ∈ written p.2) (map_to_list (active_txns m)))
    as [[Hne Hk] Hin]%list_elem_of_filter.
  { destruct (filter _ _); naive_solver set_solver. }
  destruct p as [h a]. apply elem_of_map_to_list in Hin. simpl in *. eauto.
Qed.

Lemma holder_None m t k :
  Manager.holder m t k = None →
  ∀ t' a, active_txns m !! t' = Some a → k ∈ written a → t' = t.
Proof.
  unfold Manager.holder. intros Hn t' a Ha Hk. destruct (decide (t' = t)) as [|Hne]; [done|].
  assert ((t', a) ∈ filter (λ p : N * ActiveTxn, p.1 ≠ t ∧ k ∈ written p.2)
    (map_to_list (active_txns m))) as Hin.
  { apply list_elem_of_filter. by rewrite elem_of_map_to_list. }
  destruct (filter _ _); [by apply not_elem_of_nil in Hin|done].
Qed.

Lemma holder_None_iff m t k :
  Manager.holder m t k = None ↔
    ∀ t' a, active_txns m !! t' = Some a → k ∈ written a → t' = t.
Proof.
  split; [apply holder_None|]. intros H. destruct (Manager.holder m t k) as [h|] eqn:E; [|done].
  apply holder_Some in E as (Hne & a & Ha & Hk). destruct Hne. eauto.
Qed.

Definition add_written k (a : ActiveTxn) : ActiveTxn :=
  mkActive (snapshot a) (isolation a) ({[k]} ∪ written a) (last_active a).

Lemma acquire_write_run m t k :
  Manager.acquire_write t k m =
    match Manager.holder m t k with
    | Some h => Manager.acquire_write t k m
    | None => (Ok tt, set_active (alter (add_written k) t (active_txns m)) m)
    end.
Proof. unfold Manager.acquire_write. munfold. by destruct (Manager.holder m t k). Qed.

Lemma inv_acquire m t k :
  inv m → Manager.holder m t k = None →
  inv (set_active (alter (add_written k) t (active_txns m)) m).
Proof.
  intros Hi Hh. apply inv_alter_active; [done|done|]. intros a k' Ha. simpl. split.
  - intros [->%elem_of_singleton|Hk]%elem_of_union; [right|by left].
    split; [set_solver|]. by eapply holder_None.
  - set_solver.
Qed.

(** *** Leaving the active table *)

(** What an abort or a commit of [t] has to establish. *)
Record finishes m m' t (a : ActiveTxn) (o : TimestampOracle) : Prop := {
  fin_oracle : oracle m' = (Oracle.release_begin (snap_ts (snapshot a)) o).2;
  fin_oracle_wf : Oracle.wf o;
  fin_begins : active_begins o = active_begins (oracle m);
  fin_counter : counter m ≤ next_counter o;
  fin_active : active_txns m' = delete t (active_txns m);
  fin_next : next_txn_id m' = next_txn_id m;
  fin_registry : ∀ t', t' ≠ t → Registry.outcome (registry m') t' = Registry.outcome (registry m) t';
  fin_outcome : Registry.outcome (registry m') t ≠ OInFlight;
  fin_outcome_ts : ∀ c, Registry.outcome (registry m') t = OCommitted c → 0 < c ∧ c ≤ next_counter o;
  fin_ssi : wf (ssi m');
  fin_times : ∀ t', t' ≠ t → times <$> txns (ssi m') !! t' = times <$> txns (ssi m) !! t';
  fin_self : ∀ x, txns (ssi m') !! t = Some x → ∃ c, commit_ts x = Some c ∧
    begin_ts x ≤ next_counter o ∧ begin_ts x < c ∧ c ≤ next_counter o;
  fin_words : ∀ k v, v ∈ chain_of (store m') k →
    xmin v ≠ 0 ∧ word_ok m' k (xmin v) ∧ word_ok m' k (xmax v);
}.

Lemma inv_finish m m' t a o :
  inv m → active_txns m !! t = Some a → finishes m m' t a o → inv m'.
Proof.
  intros Hi Ha [Fo Fw Fb Fc Fa Fn Fr Fot Fots Fs Ft Fse Fwo].
  pose proof Hi as [Io Ib Ij In Ia If Ic Is Isa Ist Iw Iwr].
  assert (counter m' = next_counter o) as Hcm
    by (unfold counter; by rewrite Fo, Oracle.release_counter).
  assert (∀ t' a', active_txns m' !! t' = Some a' → t' ≠ t ∧ active_txns m !! t' = Some a') as Hl.
  { intros t' a'. rewrite Fa. intros [? ?]%lookup_delete_Some. done. }
  assert (∀ t' a', t' ≠ t → active_txns m !! t' = Some a' → active_txns m' !! t' = Some a') as Hl'.
  { intros t' a' Hne Ha'. by rewrite Fa, lookup_delete_ne. }
  split; try done.
  - rewrite Fo. by apply Oracle.release_wf.
  - intros ts c. rewrite Fo, Oracle.release_lookup, Fb by done. split.
    + destruct (active_begins (oracle m) !! ts) as [c0|] eqn:E; [|done].
      apply Ib in E as (-> & t' & a' & Ha' & <-). case_decide as Hts; [done|].
      intros [= <-]. split; [done|]. exists t', a'. split; [|done]. apply Hl'; [|done].
      intros ->. by simplify_eq.
    + intros (-> & t' & a' & (Hne & Ha')%Hl & <-).
      rewrite (proj2 (Ib _ 1)) by eauto. rewrite decide_False; [done|].
      intros E. apply Hne. eauto.
  - intros t1 t2 a1 a2 (_ & H1)%Hl (_ & H2)%Hl. eauto.
  - by rewrite Fn.
  - intros t' a' (_ & Ha')%Hl. rewrite Fn. eauto.
  - intros t'. destruct (decide (t' = t)) as [->|Hne].
    + split; [done|]. intros [a' (? & _)%Hl]. done.
    + rewrite Fr, If by done. split; intros [a' Ha'].
      * exists a'. by apply Hl'.
      * apply Hl in Ha' as [_ Ha']. by exists a'.
  - intros t' c. rewrite Hcm. destruct (decide (t' = t)) as [->|Hne]; [auto|].
    rewrite Fr by done. intros Hc. apply Ic in Hc. lia.
  - intros t' b. destruct (decide (t' = t)) as [->|Hne].
    + split; [intros (x & Hx & Hn & _)|intros (a' & (? & _)%Hl & _); done].
      destruct (Fse x Hx) as (c & ? & _). congruence.
    + transitivity (∃ x, txns (ssi m) !! t' = Some x ∧ commit_ts x = None ∧ begin_ts x = b).
      * specialize (Ft t' Hne). unfold times in Ft.
        destruct (txns (ssi m') !! t'), (txns (ssi m) !! t'); simpl in *; try done.
        injection Ft as E1 E2.
        split; intros (? & [= <-] & H1 & H2); eexists; (split; [done|]); split; congruence.
      * rewrite Isa. split; intros (a' & Ha' & Hb).
        -- exists a'. split; [by apply Hl'|done].
        -- apply Hl in Ha' as [_ Ha']. eauto.
  - intros t' x Hx. rewrite Fn, Hcm. destruct (decide (t' = t)) as [->|Hne].
    + destruct (Fse x Hx) as (c & Hc & ? & ? & ?). split.
      * destruct (Ia t a Ha) as (_ & _ & ?). done.
      * split; [done|]. intros c' ?. simplify_eq. done.
    + specialize (Ft t' Hne). rewrite Hx in Ft. unfold times in Ft. unfold counter in Fc.
      destruct (txns (ssi m) !! t') as [y|] eqn:E; simpl in *; [|done].
      injection Ft as -> ->. destruct (Ist t' y E) as (? & ? & H3). unfold counter in *.
      split; [done|]. split; [lia|]. intros c Hc. specialize (H3 c Hc). lia.
  - intros k t1 t2 a1 a2 (_ & H1)%Hl (_ & H2)%Hl. eauto.
Qed.

(** *** Aborting *)

Definition abort_post m t (a : ActiveTxn) (s' : S) : T :=
  mkManager (Oracle.release_begin (snap_ts (snapshot a)) (oracle m)).2
    (Registry.record_abort t (registry m)) (Ssi.forget t (ssi m)) s' (durability m)
    (delete t (active_txns m)) (next_txn_id m) (config m).

Lemma abort_internal_run m t a :
  inv m → active_txns m !! t = Some a →
  ∃ s', Manager.abort_internal t m = (Ok tt, abort_post m t a s') ∧
    ∀ k, chain_of s' k = Chain.abort (stamp_of t) (chain_of (store m) k).
Proof.
  intros Hi Ha.
  destruct (abort_writer_spec (store m) t (stamp_of t)) as (s' & Hs & Hc).
  { apply (inv_stamp m); [done|by rewrite Ha]. }
  exists s'. split; [|done]. unfold Manager.abort_internal, Manager.release_snapshot, on_store.
  munfold. rewrite Hs. simpl. by rewrite Ha.
Qed.

Lemma elem_of_chain_abort stamp c v :
  v ∈ Chain.abort stamp c ↔
    ∃ v0, v0 ∈ c ∧ xmin v0 ≠ stamp ∧ v = Chain.revert_version stamp v0.
Proof.
  unfold Chain.abort. rewrite list_elem_of_fmap. setoid_rewrite list_elem_of_filter. naive_solver.
Qed.

(** A word of the old state that is not [t]'s stamp stays legal when [t] leaves. *)
Lemma word_ok_leave m m' t k w :
  active_txns m' = delete t (active_txns m) → counter m ≤ counter m' →
  word_ok m k w → w ≠ stamp_of t → word_ok m' k w.
Proof.
  intros Ea Hc [->|[(c & -> & H0 & Hle)|(t' & a & -> & Hat & Hk)]] Hne;
    [by left|right; left; exists c; split; [done|lia]|right; right].
  exists t', a. split; [done|]. split; [|done]. rewrite Ea, lookup_delete_ne; [done|].
  intros ->. done.
Qed.

Lemma abort_finishes m t a s' :
  inv m → active_txns m !! t = Some a →
  (∀ k, chain_of s' k = Chain.abort (stamp_of t) (chain_of (store m) k)) →
  finishes m (abort_post m t a s') t a (oracle m).
Proof.
  intros Hi Ha Hs'. pose proof (inv_ssi m Hi) as Hwf. split; simpl; try done.
  - apply (inv_oracle m Hi).
  - intros t' Hne. unfold Registry.record_abort. rewrite Registry.outcome_insert.
    by rewrite decide_False.
  - unfold Registry.record_abort. rewrite Registry.outcome_insert. by rewrite decide_True.
  - intros c. unfold Registry.record_abort. rewrite Registry.outcome_insert. by rewrite decide_True.
  - by apply forget_wf.
  - intros t' Hne. rewrite forget_lookup, decide_False by done. by destruct (txns (ssi m) !! t').
  - intros x. rewrite forget_lookup by done. by rewrite decide_True.
  - intros k v. rewrite Hs'. intros (v0 & Hv0 & Hne & ->)%elem_of_chain_abort.
    destruct (inv_words m Hi k v0 Hv0) as (Hnz & H1 & H2). split; [done|]. simpl.
    split; [eapply word_ok_leave; try done; unfold counter; simpl; by rewrite Oracle.release_counter|].
    unfold settle. destruct (N.eqb_spec (xmax v0) (stamp_of t)); [by left|].
    eapply word_ok_leave; try done. unfold counter; simpl. by rewrite Oracle.release_counter.
Qed.

Lemma inv_abort m t a s' :
  inv m → active_txns m !! t = Some a →
  (∀ k, chain_of s' k = Chain.abort (stamp_of t) (chain_of (store m) k)) →
  inv (abort_post m t a s').
Proof. intros. eapply inv_finish; eauto using abort_finishes. Qed.

(** *** Committing *)

Definition publish_post m t (a : ActiveTxn) (ts : Timestamp) (s' : S) : T :=
  mkManager (Oracle.release_begin (snap_ts (snapshot a)) (oracle m)).2
    (Registry.record_commit t ts (registry m)) (Ssi.record_commit t ts (ssi m)) s' (durability m)
    (delete t (active_txns m)) (next_txn_id m) (config m).

Lemma publish_run m t a ts :
  inv m → active_txns m !! t = Some a →
  ∃ s', Manager.publish t ts m = (Ok tt, publish_post m t a ts s') ∧
    ∀ k, chain_of s' k = Chain.commit (stamp_of t) (committed ts) (chain_of (store m) k).
Proof.
  intros Hi Ha.
  destruct (commit_writer_spec (store m) t (stamp_of t) ts) as (s' & Hs & Hc).
  { apply (inv_stamp m); [done|by rewrite Ha]. }
  exists s'. split; [|done]. unfold Manager.publish, Manager.release_snapshot, on_store.
  munfold. rewrite Hs. simpl. by rewrite Ha.
Qed.

(** Advancing the oracle's counter keeps the invariant. *)
Lemma inv_tick m o :
  inv m → Oracle.wf o → active_begins o = active_begins (oracle m) → counter m ≤ next_counter o →
  inv (set_oracle o m).
Proof.
  intros [Io Ib Ij In Ia If Ic Is Isa Ist Iw Iwr] Hw Hb Hc.
  split; simpl; try done; unfold counter in *; simpl.
  - by rewrite Hb.
  - intros t c Hc'. specialize (Ic t c Hc'). lia.
  - intros t x Hx. destruct (Ist t x Hx) as (? & ? & H3). split; [done|]. split; [lia|].
    intros c Hc'. specialize (H3 c Hc'). lia.
  - intros k v Hv. destruct (Iw k v Hv) as (? & H1 & H2). split; [done|].
    split; (eapply word_ok_mono; [| |eassumption]); simpl; eauto; unfold counter; simpl; lia.
Qed.

Lemma publish_finishes m t a ts s' :
  inv m → active_txns m !! t = Some a →
  0 < ts → ts ≤ counter m → fresh_ts (ssi m) ts →
  (∀ k, chain_of s' k = Chain.commit (stamp_of t) (committed ts) (chain_of (store m) k)) →
  finishes m (publish_post m t a ts s') t a (oracle m).
Proof.
  intros Hi Ha H0 Hts Hf Hs'. pose proof (inv_ssi m Hi) as Hwf.
  assert (∀ x, txns (ssi m) !! t = Some x → commit_ts x = None ∧ begin_ts x ≤ counter m) as Hx.
  { intros x Hx. destruct (proj2 (inv_ssi_active m Hi t (snap_ts (snapshot a)))) as (x' & ? & ? & ?);
      [eauto|]. simplify_eq. split; [done|]. by apply (inv_ssi_tracked m Hi t). }
  split; unfold publish_post; fields; try done.
  - apply (inv_oracle m Hi).
  - intros t' Hne. unfold Registry.record_commit. rewrite Registry.outcome_insert.
    by rewrite decide_False.
  - unfold Registry.record_commit. rewrite Registry.outcome_insert. by rewrite decide_True.
  - intros c. unfold Registry.record_commit. rewrite Registry.outcome_insert.
    rewrite decide_True by done. by intros [= <-].
  - apply record_commit_wf; try done. intros x E. by apply Hx.
  - intros t' Hne. rewrite record_commit_lookup, decide_False by done.
    by destruct (txns (ssi m) !! t').
  - intros x. rewrite record_commit_lookup, decide_True by done.
    intros (x0 & Hx0 & ->)%fmap_Some. exists ts. simpl. split; [done|].
    split; [by apply Hx|]. split; [by eapply Hf|done].
  - intros k v. rewrite Hs'. unfold Chain.commit. intros (v0 & -> & Hv0)%list_elem_of_fmap.
    destruct (inv_words m Hi k v0 Hv0) as (Hnz & H1 & H2). simpl.
    assert (∀ w, word_ok m k w →
      word_ok (publish_post m t a ts s') k (settle (stamp_of t) (committed ts) w)) as Hw.
    { intros w Hw. unfold settle. destruct (N.eqb_spec w (stamp_of t)).
      - right. left. exists ts. split; [done|]. split; [done|]. unfold counter; simpl.
        by rewrite Oracle.release_counter.
      - eapply word_ok_leave; try done. unfold counter; simpl. by rewrite Oracle.release_counter. }
    split; [|auto]. unfold settle. destruct (N.eqb_spec (xmin v0) (stamp_of t)); [|done].
    unfold committed, to_raw. lia.
Qed.

Lemma inv_publish m t a ts s' :
  inv m → active_txns m !! t = Some a →
  0 < ts → ts ≤ counter m → fresh_ts (ssi m) ts →
  (∀ k, chain_of s' k = Chain.commit (stamp_of t) (committed ts) (chain_of (store m) k)) →
  inv (publish_post m t a ts s').
Proof. intros. eapply inv_finish; eauto using publish_finishes. Qed.

End inv.
