(* ===== verification/ManagerOps.v ===== *)
(** * The transaction manager: operations as effects

    Every public operation is a sequence of [effect]s, the elementary changes of
    state the code makes; each effect preserves [inv], and no operation panics.
    Properties of the manager are proved by induction over effects. *)

From stdpp Require Import options.
From S2P Require Import Prelude Core Snapshot Visibility Oracle VStore Ssi SsiFacts SsiOps.
From S2P Require Import SsiSpec Manager ManagerInv.
Import SsiWf SsiInv.

(** ** The public interface as a command language *)

Inductive Op :=
  | OpBegin (now : Instant) (iso : IsolationLevel)
  | OpRead (now : Instant) (t : TxnId) (k : Key)
  | OpWrite (now : Instant) (t : TxnId) (k : Key) (p : Payload)
  | OpDelete (now : Instant) (t : TxnId) (k : Key)
  | OpCommit (t : TxnId)
  | OpRollback (t : TxnId)
  | OpGc
  | OpReap (now : Instant).

Inductive Resp :=
  | RTxn (t : TxnId)
  | RValue (v : option Payload)
  | RUnit
  | RTimestamp (ts : Timestamp)
  | RGc (r : GcReport)
  | RCount (n : nat).

(** What an elementary step of the manager does, for a client: it begins,
    reads a value, writes ([None] deletes), commits or aborts; [LQuiet] is a step
    no client can see. *)
Inductive Label :=
  | LQuiet
  | LGc
  | LBegin (t : TxnId) (b : Timestamp) (iso : IsolationLevel)
  | LRead (t : TxnId) (k : Key) (v : option Payload)
  | LWrite (t : TxnId) (k : Key) (v : option Payload)
  | LCommit (t : TxnId) (ts : Timestamp)
  | LAbort (t : TxnId).

(** The steps a client's call reports as done. *)
Definition reported (l : Label) : bool :=
  match l with LBegin _ _ _ | LRead _ _ _ | LWrite _ _ _ | LCommit _ _ => true | _ => false end.

Definition reports (ls : list Label) : list Label := filter (λ l, reported l = true) ls.

(** What a call and its answer report, given the begin timestamp of a new
    transaction. *)
Definition report (o : Op) (b : Timestamp) (r : Outcome Resp) : list Label :=
  match o, r with
  | OpBegin _ iso, Ok (RTxn t) => [LBegin t b iso]
  | OpRead _ t k, Ok (RValue v) => [LRead t k v]
  | OpWrite _ t k p, Ok _ => [LWrite t k (Some p)]
  | OpDelete _ t k, Ok _ => [LWrite t k None]
  | OpCommit t, Ok (RTimestamp ts) => [LCommit t ts]
  | _, _ => []
  end.

Section ops.
Context {S D : Type} `{!VersionedStore S, !VersionedStoreSpec S, !Durability D}.
Abbreviation T := (TxnManager S D).
Implicit Types (m : T) (t : TxnId) (k : Key).

Definition ok_map {A B} (f : A → B) (c : St T A) : St T B := x ← c; mret (f x).

Definition exec (o : Op) : St T Resp :=
  match o with
  | OpBegin now iso => ok_map RTxn (Manager.begin_ now iso)
  | OpRead now t k => ok_map RValue (Manager.read now t k)
  | OpWrite now t k p => ok_map (λ _, RUnit) (Manager.write now t k p)
  | OpDelete now t k => ok_map (λ _, RUnit) (Manager.delete_ now t k)
  | OpCommit t => ok_map RTimestamp (Manager.commit t)
  | OpRollback t => ok_map (λ _, RUnit) (Manager.rollback t)
  | OpGc => λ m, let '(r, m') := Manager.run_gc m in (Ok (RGc r), m')
  | OpReap now => ok_map RCount (Manager.reap_idle_as_of now)
  end.

(** ** Effects *)

Definition begin_post m (now : Instant) (iso : IsolationLevel) (t : TxnId) (b : Timestamp) : T :=
  mkManager (mkOracle b (<[b := 1]> (active_begins (oracle m))))
    (Registry.register_begin t (registry m)) (Ssi.register t b (ssi m)) (store m) (durability m)
    (<[t := mkActive (snapshot_new t b) iso ∅ now]> (active_txns m)) t (config m).

Definition ticked m : T :=
  set_oracle (mkOracle (counter m + 1) (active_begins (oracle m))) m.

(** The first-committer-wins check of the source passed. *)
Definition fcw_ok m (a : ActiveTxn) k : Prop :=
  ∀ v c, head (chain_of (store m) k) = Some v → from_raw (xmin v) = VsCommitted c →
    c ≤ snap_ts (snapshot a).

Definition gc_post m : T := (Manager.run_gc m).2.

Inductive effect m : Label → T → Prop :=
  | eff_begin now iso :
      next_txn_id m < MAX_TIMESTAMP → counter m < MAX_TIMESTAMP →
      effect m (LBegin (next_txn_id m + 1) (counter m + 1) iso)
        (begin_post m now iso (next_txn_id m + 1) (counter m + 1))
  | eff_tick : counter m < MAX_TIMESTAMP → effect m LQuiet (ticked m)
  | eff_durability d : effect m LQuiet (set_durability d m)
  | eff_touch now t : effect m LQuiet (Manager.touch now t m).2
  | eff_acquire t k :
      is_Some (active_txns m !! t) → Manager.holder m t k = None →
      effect m LQuiet (set_active (alter (add_written k) t (active_txns m)) m)
  | eff_read t a k :
      active_txns m !! t = Some a →
      effect m (LRead t k (Chain.read (chain_of (store m) k) (snapshot a) (registry m)))
        (set_ssi (Ssi.record_read t k (ssi m)) m)
  | eff_write t a k p s' :
      active_txns m !! t = Some a → k ∈ written a → fcw_ok m a k →
      (∀ k', chain_of s' k' = if decide (k' = k) then Chain.create (stamp_of t) p (chain_of (store m) k)
                              else chain_of (store m) k') →
      effect m (LWrite t k (Some p)) (set_ssi (Ssi.record_write t k (ssi m)) (set_store s' m))
  | eff_delete t a k c s' :
      active_txns m !! t = Some a → k ∈ written a → fcw_ok m a k →
      Chain.expire (stamp_of t) (chain_of (store m) k) = Some c →
      (∀ k', chain_of s' k' = if decide (k' = k) then c else chain_of (store m) k') →
      effect m (LWrite t k None) (set_ssi (Ssi.record_write t k (ssi m)) (set_store s' m))
  | eff_store_err s' :
      (∀ k, chain_of s' k = chain_of (store m) k) → effect m LQuiet (set_store s' m)
  | eff_abort t a s' :
      active_txns m !! t = Some a →
      (∀ k, chain_of s' k = Chain.abort (stamp_of t) (chain_of (store m) k)) →
      effect m (LAbort t) (abort_post m t a s')
  | eff_commit t a d s' :
      active_txns m !! t = Some a → counter m < MAX_TIMESTAMP →
      (isolation a = Serializable → (t ∉ doomed (ssi m)) ∧ ¬ pivot (ssi m) t) →
      (∀ k, chain_of s' k =
         Chain.commit (stamp_of t) (committed (counter m + 1)) (chain_of (store m) k)) →
      effect m (LCommit t (counter m + 1))
        (publish_post (set_durability d (ticked m)) t a (counter m + 1) s')
  | eff_gc : effect m LGc (gc_post m).

(** ** Effects preserve the invariant *)

Lemma inv_begin m now iso :
  inv m → next_txn_id m < MAX_TIMESTAMP → counter m < MAX_TIMESTAMP →
  inv (begin_post m now iso (next_txn_id m + 1) (counter m + 1)).
Proof.
  intros Hi Hn Hc. pose proof Hi as [Io Ib Ij In Ia If Ic Is Isa Ist Iw Iwr].
  set (t := next_txn_id m + 1). set (b := counter m + 1).
  assert (active_txns m !! t = None) as Hfresh.
  { destruct (active_txns m !! t) as [a|] eqn:E; [|done].
    destruct (Ia t a E) as (_ & _ & ?). subst t. lia. }
  assert (txns (ssi m) !! t = None) as Hfs.
  { destruct (txns (ssi m) !! t) as [x|] eqn:E; [|done].
    destruct (Ist t x E) as (? & _ & _). subst t. lia. }
  assert (∀ t' a, active_txns m !! t' = Some a → t' ≠ t ∧ snap_ts (snapshot a) ≠ b) as Hne.
  { intros t' a Ha. split; [congruence|]. destruct (inv_active_bound m t' a Hi Ha). subst b. lia. }
  assert (∀ t', txns (Ssi.register t b (ssi m)) !! t' =
    if decide (t' = t) then Some (fresh_conflict b) else txns (ssi m) !! t') as Hreg.
  { intros t'. rewrite register_lookup, Hfs. done. }
  split; unfold begin_post; fields.
  - destruct (Oracle.begin_cases (oracle m) Io) as [(_ & _ & E)|[E _]]; [|unfold counter in Hc; lia].
    pose proof (Oracle.begin_wf (oracle m) Io) as Hw. by rewrite E in Hw.
  - intros ts c. simpl. rewrite lookup_insert_Some, Ib. split.
    + intros [[<- <-]|[Hb (-> & t' & a & Ha & <-)]].
      * split; [done|]. exists t. eexists. by rewrite lookup_insert_eq.
      * split; [done|]. exists t', a. split; [|done]. rewrite lookup_insert_ne; [done|].
        destruct (Hne t' a Ha); congruence.
    + intros (-> & t' & a & [[<- <-]|[? Ha]]%lookup_insert_Some & <-); [by left|right].
      split; [destruct (Hne t' a Ha); congruence|]. eauto.
  - intros t1 t2 a1 a2 [[<- <-]|[? H1]]%lookup_insert_Some [[<- <-]|[? H2]]%lookup_insert_Some;
      simpl; [done|destruct (Hne _ _ H2); congruence|destruct (Hne _ _ H1); congruence|eauto].
  - subst t. lia.
  - intros t' a [[<- <-]|[? Ha]]%lookup_insert_Some; simpl; [subst t; split; [done|lia]|].
    destruct (Ia t' a Ha) as (? & ? & ?). subst t. repeat split; try done; lia.
  - intros t'. unfold Registry.register_begin. rewrite Registry.outcome_insert.
    destruct (decide (t' = t)) as [->|]; [by rewrite lookup_insert_eq|].
    rewrite lookup_insert_ne by done. apply If.
  - intros t' c. unfold Registry.register_begin. rewrite Registry.outcome_insert.
    case_decide; [done|]. intros Hcm%Ic. unfold counter in *; simpl. subst b. lia.
  - by apply register_wf.
  - intros t' b'. rewrite Hreg. destruct (decide (t' = t)) as [->|].
    + rewrite lookup_insert_eq. split; intros (? & [= <-] & ?); eexists; (split; [done|]); naive_solver.
    + rewrite lookup_insert_ne by done. apply Isa.
  - intros t' x. rewrite Hreg. unfold counter; simpl. destruct (decide (t' = t)) as [->|].
    + intros [= <-]. simpl. split; [done|]. split; [done|]. done.
    + intros Hx. destruct (Ist t' x Hx) as (? & ? & H3). unfold counter in *. subst t b.
      split; [lia|]. split; [lia|]. intros c Hcc. specialize (H3 c Hcc). lia.
  - intros k v Hv. destruct (Iw k v Hv) as (? & H1 & H2). split; [done|].
    split; (eapply word_ok_mono; [| |eassumption]); simpl;
      try (unfold counter in *; simpl; subst b; lia).
    all: intros t' a Ha Hk; exists a; split; [|done]; rewrite lookup_insert_ne; [done|];
      destruct (Hne t' a Ha); congruence.
  - intros k t1 t2 a1 a2 [[<- <-]|[? H1]]%lookup_insert_Some [[<- <-]|[? H2]]%lookup_insert_Some;
      simpl; [done|set_solver|set_solver|eauto].
Qed.

Lemma inv_fresh_ts m : inv m → fresh_ts (ssi m) (counter m + 1).
Proof. intros Hi x t Ht. destruct (inv_ssi_tracked m Hi x t Ht) as (_ & ? & _). lia. Qed.

Lemma inv_ticked m : inv m → counter m < MAX_TIMESTAMP → inv (ticked m).
Proof.
  intros Hi Hc. apply inv_tick; simpl; try done; [|lia].
  destruct (Oracle.tick_cases (oracle m) (inv_oracle m Hi)) as [[_ E]|[E _]];
    [|unfold counter in Hc; lia].
  pose proof (Oracle.tick_wf (oracle m) (inv_oracle m Hi)) as Hw. by rewrite E in Hw.
Qed.

Lemma inv_commit m t a d s' :
  inv m → active_txns m !! t = Some a → counter m < MAX_TIMESTAMP →
  (∀ k, chain_of s' k =
     Chain.commit (stamp_of t) (committed (counter m + 1)) (chain_of (store m) k)) →
  inv (publish_post (set_durability d (ticked m)) t a (counter m + 1) s').
Proof.
  intros Hi Ha Hc Hs. apply (inv_publish (set_durability d (ticked m))); try done.
  - by apply inv_set_durability, inv_ticked.
  - lia.
  - exact (inv_fresh_ts m Hi).
Qed.

Lemma elem_of_chain_create stamp p c v :
  v ∈ Chain.create stamp p c →
  (v = mkVersion stamp 0 p) ∨ v ∈ c ∨ (∃ v0, v0 ∈ c ∧ v = mkVersion (xmin v0) stamp (payload v0)).
Proof.
  unfold Chain.create. intros [->|Hv]%elem_of_cons; [by left|right].
  destruct c as [|v0 c]; [by apply not_elem_of_nil in Hv|].
  apply elem_of_cons in Hv as [->|Hv]; [|left; set_solver].
  destruct (xmax v0 =? 0); [right; exists v0; set_solver|left; set_solver].
Qed.

Lemma elem_of_chain_expire stamp c c' v :
  Chain.expire stamp c = Some c' → v ∈ c' →
  v ∈ c ∨ (∃ v0, v0 ∈ c ∧ v = mkVersion (xmin v0) stamp (payload v0)).
Proof.
  destruct c as [|v0 c]; [done|]. simpl. destruct (xmax v0 =? 0); [|done].
  intros [= <-] [->|Hv]%elem_of_cons; [right; exists v0; set_solver|left; set_solver].
Qed.

Lemma inv_store_write m t a k s' :
  inv m → active_txns m !! t = Some a → k ∈ written a →
  (∀ k', k' ≠ k → chain_of s' k' = chain_of (store m) k') →
  (∀ v, v ∈ chain_of s' k → v ∈ chain_of (store m) k ∨ (∃ p, v = mkVersion (stamp_of t) 0 p) ∨
     (∃ v0, v0 ∈ chain_of (store m) k ∧ v = mkVersion (xmin v0) (stamp_of t) (payload v0))) →
  inv (set_ssi (Ssi.record_write t k (ssi m)) (set_store s' m)).
Proof.
  intros Hi Ha Hk Ho Hc. apply inv_set_ssi.
  - apply inv_set_store; [done|]. intros k' v Hv. destruct (decide (k' = k)) as [->|Hne].
    + assert (word_ok m k (stamp_of t)) as Hw by (right; right; eauto).
      destruct (Hc v Hv) as [Hv'|[(p & ->)|(v0 & Hv0 & ->)]]; simpl.
      * by apply (inv_words m Hi k v).
      * split; [apply stamp_of_nonzero|]. split; [done|by left].
      * destruct (inv_words m Hi k v0 Hv0) as (? & ? & ?). done.
    + rewrite Ho in Hv by done. by apply (inv_words m Hi k' v).
  - apply record_write_wf; [apply (inv_ssi m Hi)|].
    destruct (proj2 (inv_ssi_active m Hi t (snap_ts (snapshot a)))) as (x & Hx & _); [eauto|by exists x].
  - apply record_write_times.
Qed.

Lemma inv_tracked m t : inv m → is_Some (active_txns m !! t) → is_Some (txns (ssi m) !! t).
Proof.
  intros Hi [a Ha]. destruct (proj2 (inv_ssi_active m Hi t (snap_ts (snapshot a)))) as (x & Hx & _);
    [eauto|by exists x].
Qed.

(** *** Garbage collection *)

Lemma gc_post_eq m :
  gc_post m = mkManager (oracle m) (Registry.prune_settled (Manager.low_water_mark m) (registry m)).2
    (Ssi.prune_committed (Manager.low_water_mark m) (ssi m)).2
    (store_gc (Manager.low_water_mark m) (registry m) (store m)).2 (durability m)
    (active_txns m) (next_txn_id m) (config m).
Proof.
  unfold gc_post, Manager.run_gc, collect.
  by destruct (store_gc (Manager.low_water_mark m) (registry m) (store m)).
Qed.

Lemma gc_outcome m t :
  (Registry.outcome (registry (gc_post m)) t = OInFlight ↔
     Registry.outcome (registry m) t = OInFlight) ∧
  (∀ c, Registry.outcome (registry (gc_post m)) t = OCommitted c →
     Registry.outcome (registry m) t = OCommitted c).
Proof.
  rewrite gc_post_eq. fields. rewrite Registry.prune_settled_outcome.
  destruct (Registry.outcome (registry m) t) eqn:E; simpl; try done.
  destruct (Manager.low_water_mark m) as [l|]; [|done]. by destruct (l <? ts).
Qed.

Lemma inv_gc m : inv m → inv (gc_post m).
Proof.
  intros Hi. pose proof Hi as [Io Ib Ij In Ia If Ic Is Isa Ist Iw Iwr].
  pose proof (gc_outcome m) as Hg. rewrite gc_post_eq in *.
  assert (∀ t x, txns (Ssi.prune_committed (Manager.low_water_mark m) (ssi m)).2 !! t = Some x →
    ∃ y, txns (ssi m) !! t = Some y ∧ times x = times y) as Hpr.
  { intros t x Hx. pose proof (prune_committed_times (Manager.low_water_mark m) (ssi m) t Is) as Hp.
    rewrite Hx in Hp. destruct (txns (ssi m) !! t) as [y|]; [|done]. simpl in Hp.
    destruct (Ssi.settled _ y); [done|]. injection Hp as E1 E2. exists y. split; [done|].
    unfold times. congruence. }
  split; fields; try done.
  - intros t. rewrite <- If. apply Hg.
  - intros t c Hc. apply Ic with t. by apply Hg.
  - by apply prune_committed_wf.
  - intros t b. rewrite <- Isa. split.
    + intros (x & Hx & Hc & Hb). destruct (Hpr t x Hx) as (y & Hy & [= E1 E2]).
      exists y. split; [done|]. split; congruence.
    + intros (y & Hy & Hc & Hb).
      pose proof (prune_committed_times (Manager.low_water_mark m) (ssi m) t Is) as Hp.
      rewrite Hy in Hp. unfold Ssi.settled in Hp. rewrite Hc in Hp.
      apply fmap_Some in Hp as (x & Hx & [= E1 E2]). exists x. split; [done|]. split; congruence.
  - intros t x Hx. destruct (Hpr t x Hx) as (y & Hy & [= -> ->]). eauto.
  - intros k v. rewrite gc_spec. intros [_ Hv]%list_elem_of_filter. by apply Iw.
Qed.

Lemma effect_inv m l m' : effect m l m' → inv m → inv m'.
Proof.
  destruct 1; intros Hi.
  - by apply inv_begin.
  - by apply inv_ticked.
  - by apply inv_set_durability.
  - by apply inv_touch.
  - by apply inv_acquire.
  - apply inv_set_ssi; [done| |apply record_read_times].
    apply record_read_wf; [apply (inv_ssi m Hi)|apply inv_tracked; [done|by rewrite H]].
  - eapply inv_store_write; try done; intros; rewrite H2 in *.
    + by rewrite decide_False.
    + rewrite decide_True in * by done.
      destruct (elem_of_chain_create _ _ _ _ H3) as [->|[|(v0 & ? & ->)]]; naive_solver.
  - eapply inv_store_write; try done; intros; rewrite H3 in *.
    + by rewrite decide_False.
    + rewrite decide_True in * by done.
      destruct (elem_of_chain_expire _ _ _ _ H2 H4) as [|(v0 & ? & ->)]; naive_solver.
  - apply inv_set_store; [done|]. intros k v. rewrite H. apply (inv_words m Hi).
  - by apply inv_abort.
  - by apply inv_commit.
  - by apply inv_gc.
Qed.

(** Sequences of effects whose begins, writes and collections satisfy [P]. *)
Context (P : T → Label → Prop).

Definition permitted m (l : Label) : Prop :=
  match l with LWrite _ _ _ | LBegin _ _ _ | LGc => P m l | _ => True end.

Inductive effects : T → list Label → T → Prop :=
  | effects_nil m : effects m [] m
  | effects_cons m l m1 ls m2 :
      permitted m l → effect m l m1 → effects m1 ls m2 → effects m (l :: ls) m2.

Lemma effects_one m l m' : permitted m l → effect m l m' → effects m [l] m'.
Proof. intros. econstructor; [done|done|constructor]. Qed.

Lemma effects_app m ls m1 ls' m2 : effects m ls m1 → effects m1 ls' m2 → effects m (ls ++ ls') m2.
Proof. induction 1; simpl; [done|]. intros. econstructor; eauto. Qed.

Lemma effects_inv m ls m' : effects m ls m' → inv m → inv m'.
Proof. induction 1; eauto using effect_inv. Qed.

(** ** Operations as sequences of effects *)

Lemma touch_active now t m t' :
  active_txns (Manager.touch now t m).2 !! t' =
    if decide (t' = t)
    then (λ a, mkActive (snapshot a) (isolation a) (written a) now) <$> active_txns m !! t
    else active_txns m !! t'.
Proof.
  simpl. destruct (decide (t' = t)) as [->|]; [by rewrite lookup_alter_eq|by rewrite lookup_alter_ne].
Qed.

Lemma holder_touch now t m k t' :
  Manager.holder (Manager.touch now t m).2 t' k = None ↔ Manager.holder m t' k = None.
Proof.
  rewrite !holder_None_iff. split; intros H t0 a Ha Hk.
  - destruct (decide (t0 = t)) as [->|].
    + eapply H; [rewrite touch_active, decide_True, Ha by done; done|done].
    + eapply H; [rewrite touch_active, decide_False by done; done|done].
  - rewrite touch_active in Ha. case_decide; [subst|by eauto].
    apply fmap_Some in Ha as (a0 & ? & ->). eauto.
Qed.

(** The state after a successful admission of a write. *)
Definition admitted (now : Instant) t k m : T :=
  let m1 := (Manager.touch now t m).2 in set_active (alter (add_written k) t (active_txns m1)) m1.

Definition admitted_txn (now : Instant) k (a : ActiveTxn) : ActiveTxn :=
  mkActive (snapshot a) (isolation a) ({[k]} ∪ written a) now.

Lemma admitted_active now t k m a :
  active_txns m !! t = Some a → active_txns (admitted now t k m) !! t = Some (admitted_txn now k a).
Proof. intros Ha. simpl. rewrite !lookup_alter_eq, Ha. done. Qed.

Lemma admitted_effects now t k m :
  is_Some (active_txns m !! t) → Manager.holder m t k = None →
  effects m [LQuiet; LQuiet] (admitted now t k m).
Proof.
  intros Hs Hh. econstructor; [done|apply (eff_touch m now t)|].
  apply effects_one, eff_acquire; [done| |].
  - rewrite touch_active, decide_True by done. by rewrite fmap_is_Some.
  - by apply holder_touch.
Qed.

#[global] Instance fcw_ok_dec m a k : Decision (fcw_ok m a k).
Proof.
  unfold fcw_ok. destruct (head (chain_of (store m) k)) as [v|] eqn:E; [|by left].
  destruct (from_raw (xmin v)) as [|c|x] eqn:F.
  - left. intros ? ? [= <-]. congruence.
  - destruct (decide (c ≤ snap_ts (snapshot a))); [left|right].
    + intros ? ? [= <-]. congruence.
    + intros H. eauto.
  - left. intros ? ? [= <-]. congruence.
Defined.

Lemma ensure_no_concurrent_spec m t a k :
  active_txns m !! t = Some a →
  match Manager.ensure_no_concurrent_committed_write m t k with
  | Ok _ => fcw_ok m a k
  | Err _ => ¬ fcw_ok m a k
  | Panic _ => False
  end.
Proof.
  intros Ha. unfold Manager.ensure_no_concurrent_committed_write, fcw_ok.
  rewrite Ha, head_xmin_spec. destruct (head (chain_of (store m) k)) as [v|]; simpl; [|done].
  destruct (from_raw (xmin v)) as [|c|x] eqn:F; [intros ? ? [= <-]; congruence| |].
  2:{ intros ? ? [= <-]; congruence. }
  destruct (N.ltb_spec (snap_ts (snapshot a)) c).
  - intros Hf. specialize (Hf v c eq_refl F). lia.
  - intros ? ? [= <-] E. rewrite F in E. by injection E as <-.
Qed.

(** [write] and [delete] share their guards: the result is decided by whether
    the transaction is active, another holds the key, and first-committer-wins. *)
Definition guarded (now : Instant) t k (act : St T unit) : St T unit :=
  m ← get;
  _ ← lift (Manager.ensure_active m t);
  _ ← Manager.touch now t;
  _ ← Manager.acquire_write t k;
  m ← get;
  _ ← lift (Manager.ensure_no_concurrent_committed_write m t k);
  _ ← act;
  modify (λ m, set_ssi (Ssi.record_write t k (ssi m)) m).

Lemma guarded_run now t k act m :
  match active_txns m !! t with
  | None => ∃ e, guarded now t k act m = (Err e, m)
  | Some a =>
      if decide (Manager.holder m t k = None) then
        if decide (fcw_ok m a k) then
          guarded now t k act m =
            match act (admitted now t k m) with
            | (Ok _, m') => (Ok tt, set_ssi (Ssi.record_write t k (ssi m')) m')
            | (Err e, m') => (Err e, m')
            | (Panic e, m') => (Panic e, m')
            end
        else ∃ e, guarded now t k act m = (Err e, admitted now t k m)
      else ∃ e, guarded now t k act m = (Err e, (Manager.touch now t m).2)
  end.
Proof.
  unfold guarded. munfold. unfold Manager.ensure_active.
  destruct (active_txns m !! t) as [a|] eqn:Ha; simpl; [|eauto].
  pose proof (holder_touch now t m k t) as Hh.
  destruct (decide (Manager.holder m t k = None)) as [Hn|Hn].
  - unfold Manager.acquire_write. munfold. apply Hh in Hn. unfold Manager.touch in Hn. simpl in Hn.
    rewrite Hn.
    change (set_active _ (set_active _ m)) with (admitted now t k m).
    pose proof (ensure_no_concurrent_spec (admitted now t k m) t _ k
      (admitted_active now t k m a Ha)) as Hf.
    destruct (Manager.ensure_no_concurrent_committed_write (admitted now t k m) t k); [| |done].
    + rewrite decide_True by exact Hf. by destruct (act (admitted now t k m)) as [[]].
    + rewrite decide_False by exact Hf. eauto.
  - unfold Manager.acquire_write. munfold.
    destruct (Manager.holder _ t k) as [h|] eqn:E; [eauto|]. destruct Hn. by apply Hh.
Qed.

Lemma write_guarded now t k p m :
  Manager.write now t k p m = guarded now t k (on_store (create_version k t p)) m.
Proof. reflexivity. Qed.

Lemma delete_guarded now t k m :
  Manager.delete_ now t k m = guarded now t k (on_store (expire_version k t)) m.
Proof. reflexivity. Qed.

(** An operation's run that does not panic, as effects with the given report. *)
Definition does {A} (rep : Outcome A → list Label) m (x : Outcome A * T) : Prop :=
  is_panic x.1 = false ∧ ∃ ls, effects m ls x.2 ∧ reports ls = rep x.1.

Lemma does_intro {A} (rep : Outcome A → list Label) m (r : Outcome A) m' ls :
  effects m ls m' → is_panic r = false → reports ls = rep r → does rep m (r, m').
Proof. unfold does. eauto. Qed.

Lemma does_nothing {A} (rep : Outcome A → list Label) m e :
  rep (Err e) = [] → does rep m (Err e, m).
Proof. intros. by eapply does_intro; [constructor| |]. Qed.

(** Report [l] on success, nothing on failure. *)
Definition on_ok {A} (l : A → Label) (r : Outcome A) : list Label :=
  match r with Ok x => [l x] | _ => [] end.

Lemma guarded_effects now t k act l m :
  reported l = true → permitted (admitted now t k m) l →
  (∀ a, active_txns m !! t = Some a → Manager.holder m t k = None → fcw_ok m a k →
     match act (admitted now t k m) with
     | (Ok _, m') => effect (admitted now t k m) l (set_ssi (Ssi.record_write t k (ssi m')) m')
     | (Err _, m') => effect (admitted now t k m) LQuiet m'
     | (Panic _, _) => False
     end) →
  does (on_ok (λ _, l)) m (guarded now t k act m).
Proof.
  intros Hl HP Hact. pose proof (guarded_run now t k act m) as Hg.
  destruct (active_txns m !! t) as [a|] eqn:Ha; [|destruct Hg as [e ->]; by apply does_nothing].
  destruct (decide (Manager.holder m t k = None)) as [Hh|Hh].
  - pose proof (admitted_effects now t k m (mk_is_Some _ _ Ha) Hh) as Hadm.
    destruct (decide (fcw_ok m a k)) as [Hf|Hf];
      [|destruct Hg as [e ->]; by eapply does_intro; [exact Hadm| |]].
    specialize (Hact a eq_refl Hh Hf). rewrite Hg.
    destruct (act (admitted now t k m)) as [[| |] m']; [| |done].
    + eapply does_intro; [exact (effects_app _ _ _ _ _ Hadm (effects_one _ _ _ HP Hact))|done|].
      unfold reports. simpl app. rewrite !filter_cons. by rewrite (decide_True (P := reported l = true)).
    + by eapply does_intro; [exact (effects_app _ _ _ _ _ Hadm (effects_one _ LQuiet _ I Hact))| |].
  - destruct Hg as [e ->]. by eapply does_intro; [apply effects_one, eff_touch; done| |].
Qed.

Lemma write_effects now t k p m :
  inv m → P (admitted now t k m) (LWrite t k (Some p)) →
  does (on_ok (λ _, LWrite t k (Some p))) m (Manager.write now t k p m).
Proof.
  intros Hi HP. rewrite write_guarded. apply guarded_effects; [done|done|]. intros a Ha Hh Hf.
  assert (in_flight t = Ok (stamp_of t)) as Hst by (apply (inv_stamp m); [done|by rewrite Ha]).
  pose proof (create_version_spec (store m) k t (stamp_of t) p Hst) as Hs.
  unfold on_store. change (store (admitted now t k m)) with (store m).
  destruct (create_version k t p (store m)) as [[| |] s']; [| |done].
  - eapply (eff_write (admitted now t k m) t _ k p s'); [by apply admitted_active|simpl; set_solver|exact Hf|exact Hs].
  - by apply eff_store_err.
Qed.

Lemma delete_effects now t k m :
  inv m → P (admitted now t k m) (LWrite t k None) →
  does (on_ok (λ _, LWrite t k None)) m (Manager.delete_ now t k m).
Proof.
  intros Hi HP. rewrite delete_guarded. apply guarded_effects; [done|done|]. intros a Ha Hh Hf.
  assert (in_flight t = Ok (stamp_of t)) as Hst by (apply (inv_stamp m); [done|by rewrite Ha]).
  pose proof (expire_version_spec (store m) k t (stamp_of t) Hst) as Hs.
  unfold on_store. change (store (admitted now t k m)) with (store m).
  destruct (expire_version k t (store m)) as [[| |] s']; [| |done].
  - destruct Hs as (c & Hc & Hs).
    eapply (eff_delete (admitted now t k m) t _ k c s'); [by apply admitted_active|simpl; set_solver|exact Hf|exact Hc|exact Hs].
  - by apply eff_store_err.
Qed.

Lemma read_run now t k m :
  Manager.read now t k m =
    match active_txns m !! t with
    | None => (Err (Transaction ("read in inactive txn " +:+ pretty t)), m)
    | Some a =>
        let m1 := (Manager.touch now t m).2 in
        (Ok (Chain.read (chain_of (store m) k) (snapshot a) (registry m)),
         set_ssi (Ssi.record_read t k (ssi m1)) m1)
    end.
Proof.
  unfold Manager.read, Manager.active_snapshot. munfold.
  destruct (active_txns m !! t) as [a|]; simpl; [|done]. by rewrite read_visible_spec.
Qed.

Lemma read_effects now t k m :
  does (on_ok (LRead t k)) m (Manager.read now t k m).
Proof.
  rewrite read_run. destruct (active_txns m !! t) as [a|] eqn:Ha; [|by apply does_nothing].
  eapply does_intro; [|done|].
  - eapply (effects_cons _ LQuiet); [done|apply (eff_touch m now t)|].
    eapply (effects_one _ (LRead t k _)), (eff_read _ t); [done|]. rewrite touch_active, decide_True, Ha by done. done.
  - done.
Qed.

Lemma begin_run now iso m :
  inv m →
  if decide (N.of_nat (size (active_txns m)) < max_active_txns (config m) ∧
             next_txn_id m < MAX_TIMESTAMP ∧ counter m < MAX_TIMESTAMP)
  then Manager.begin_ now iso m =
    (Ok (next_txn_id m + 1), begin_post m now iso (next_txn_id m + 1) (counter m + 1))
  else ∃ e, Manager.begin_ now iso m = (Err e, m).
Proof.
  intros Hi. unfold Manager.begin_. munfold.
  destruct (N.leb_spec (max_active_txns (config m)) (N.of_nat (size (active_txns m)))).
  { rewrite decide_False by lia. eauto. }
  pose proof (inv_next_id m Hi) as Hn. unfold checked_add_u64.
  rewrite bool_decide_eq_true_2 by (rewrite MAX_TIMESTAMP_val in Hn; unfold u64_max; lia).
  simpl. destruct (N.leb_spec (next_txn_id m + 1) MAX_TIMESTAMP).
  2:{ rewrite decide_False by lia. eauto. }
  unfold on_oracle.
  destruct (Oracle.begin_cases (oracle m) (inv_oracle m Hi)) as [(Hlt & _ & ->)|[Heq ->]].
  - rewrite decide_True by (unfold counter; lia). done.
  - rewrite decide_False by (unfold counter; lia). destruct m. eauto.
Qed.

Lemma begin_effects now iso m :
  inv m → P m (LBegin (next_txn_id m + 1) (counter m + 1) iso) →
  does (on_ok (λ t, LBegin t (counter m + 1) iso)) m (Manager.begin_ now iso m).
Proof.
  intros Hi HP. pose proof (begin_run now iso m Hi) as Hb. case_decide as Hc.
  - rewrite Hb. by eapply does_intro; [apply effects_one, eff_begin; tauto || done| |].
  - destruct Hb as [e ->]. by apply does_nothing.
Qed.

Lemma abort_effect m t a s' :
  active_txns m !! t = Some a →
  (∀ k, chain_of s' k = Chain.abort (stamp_of t) (chain_of (store m) k)) →
  effects m [LAbort t] (abort_post m t a s').
Proof. intros. by apply effects_one, eff_abort. Qed.

(** Steps 2 to 4 of a commit: publish, or roll back when the oracle or the
    durability seam fails. *)
Lemma commit_tail_run m t a :
  inv m → active_txns m !! t = Some a →
  if decide (counter m < MAX_TIMESTAMP) then
    match harden_commit t (durability m) with
    | (Ok _, d) => ∃ s',
        (∀ k, chain_of s' k =
           Chain.commit (stamp_of t) (committed (counter m + 1)) (chain_of (store m) k)) ∧
        Manager.commit_tail t m =
          (Ok (counter m + 1), publish_post (set_durability d (ticked m)) t a (counter m + 1) s')
    | (Err e, d) => ∃ s',
        (∀ k, chain_of s' k = Chain.abort (stamp_of t) (chain_of (store m) k)) ∧
        Manager.commit_tail t m = (Err e, abort_post (set_durability d (ticked m)) t a s')
    | (Panic e, d) => Manager.commit_tail t m = (Panic e, set_durability d (ticked m))
    end
  else ∃ e s',
    (∀ k, chain_of s' k = Chain.abort (stamp_of t) (chain_of (store m) k)) ∧
    Manager.commit_tail t m = (Err e, abort_post m t a s').
Proof.
  intros Hi Ha. unfold Manager.commit_tail, Manager.or_abort, on_oracle, Oracle.commit. munfold.
  destruct (Oracle.tick_cases (oracle m) (inv_oracle m Hi)) as [[Hlt ->]|[Heq ->]].
  - rewrite decide_True by done.
    change (set_oracle _ m) with (ticked m). unfold on_durability.
    change (durability (ticked m)) with (durability m).
    destruct (harden_commit t (durability m)) as [[u|e|e] d] eqn:Hd; [| |done].
    + destruct (publish_run (set_durability d (ticked m)) t a (counter m + 1)) as (s' & Hp & Hs);
        [by apply inv_set_durability, inv_ticked|done|].
      exists s'. split; [done|]. unfold counter in *. by rewrite Hp.
    + destruct (abort_internal_run (set_durability d (ticked m)) t a) as (s' & Hp & Hs);
        [by apply inv_set_durability, inv_ticked|done|].
      exists s'. split; [done|]. munfold. by rewrite Hp.
  - rewrite decide_False by (unfold counter; lia).
    destruct (abort_internal_run m t a Hi Ha) as (s' & Hp & Hs). do 2 eexists. split; [done|].
    munfold. replace (set_oracle (oracle m) m) with m by by destruct m. by rewrite Hp.
Qed.

Lemma commit_tail_effects m t a :
  (∀ d t, is_panic (harden_commit t d).1 = false) →
  inv m → active_txns m !! t = Some a →
  (isolation a = Serializable → (t ∉ doomed (ssi m)) ∧ ¬ pivot (ssi m) t) →
  does (on_ok (LCommit t)) m (Manager.commit_tail t m).
Proof.
  intros Hd Hi Ha Hs. pose proof (commit_tail_run m t a Hi Ha) as Hr. case_decide as Hc.
  - specialize (Hd (durability m) t). destruct (harden_commit t (durability m)) as [[u|e|e] d]; [| |done].
    + destruct Hr as (s' & Hch & ->). by eapply does_intro; [eapply effects_one, eff_commit; done| |].
    + destruct Hr as (s' & Hch & ->). eapply does_intro; [|done|].
      * eapply (effects_cons _ LQuiet); [done|by apply eff_tick|].
        eapply (effects_cons _ LQuiet); [done|apply (eff_durability _ d)|].
        by apply abort_effect.
      * done.
  - destruct Hr as (e & s' & Hch & ->). by eapply does_intro; [apply abort_effect| |].
Qed.

Lemma detect_active m t y :
  inv m → is_Some (active_txns m !! t) → Ssi.detect_pivot_abort (ssi m) t = Some y →
  is_Some (active_txns m !! y).
Proof.
  clear P. intros Hi Ht Hy. destruct (decide (y = t)) as [->|Hne]; [done|].
  destruct (inv_tracked m t Hi Ht) as [x Hx]. pose proof (inv_ssi m Hi) as Hwf.
  assert (¬ (t ∈ doomed (ssi m) ∨ pivot (ssi m) t)) as Hn.
  { intros H%detect_self; [|done|by rewrite Hx]. congruence. }
  destruct (detect_other (ssi m) t y x) as (_ & _ & Hact & _); try naive_solver.
  unfold Ssi.active in Hact. destruct (txns (ssi m) !! y) as [ty|] eqn:Ey; [|done].
  destruct (proj1 (inv_ssi_active m Hi y (begin_ts ty))) as (a & Ha & _); [|by rewrite Ha].
  exists ty. split; [done|]. split; [|done]. by destruct (commit_ts ty).
Qed.

(** Aborting another transaction neither dooms [t] nor makes it a pivot. *)
Lemma forget_safe s x t :
  wf s → (t ∉ doomed s) ∧ ¬ pivot s t → (t ∉ doomed (Ssi.forget x s)) ∧ ¬ pivot (Ssi.forget x s) t.
Proof.
  intros Hwf [Hd Hp]. rewrite forget_doomed by done. split; [set_solver|].
  intros [[a Ha] [b Hb]]. apply Hp. rewrite forget_edge in Ha, Hb by done.
  split; eexists; naive_solver.
Qed.

Lemma detect_checked m t a :
  inv m → active_txns m !! t = Some a →
  (if runs_ssi (isolation a) then Ssi.detect_pivot_abort (ssi m) t else None) ≠ Some t →
  isolation a = Serializable → (t ∉ doomed (ssi m)) ∧ ¬ pivot (ssi m) t.
Proof.
  intros Hi Ha Hd Hiso. rewrite Hiso in Hd. simpl in Hd.
  pose proof (detect_self (ssi m) t (inv_ssi m Hi) (inv_tracked m t Hi (mk_is_Some _ _ Ha))) as Hs.
  split; intros H; apply Hd, Hs; auto.
Qed.

Lemma commit_effects t m :
  (∀ d t, is_panic (harden_commit t d).1 = false) → inv m →
  does (on_ok (LCommit t)) m (Manager.commit t m).
Proof.
  intros Hd Hi. unfold Manager.commit. munfold.
  destruct (active_txns m !! t) as [a|] eqn:Ha; [|by apply does_nothing].
  pose proof (detect_checked m t a Hi Ha) as Hc.
  destruct (if runs_ssi (isolation a) then _ else _) as [y|] eqn:Hy;
    [|by apply (commit_tail_effects m t a); auto].
  assert (is_Some (active_txns m !! y)) as [ay Hay].
  { destruct (runs_ssi (isolation a)); [|done]. eapply detect_active; [done| |done]. by rewrite Ha. }
  destruct (abort_internal_run m y ay Hi Hay) as (s' & Hab & Hs').
  destruct (N.eqb_spec y t) as [->|Hne]; munfold; rewrite Hab.
  - by eapply does_intro; [apply abort_effect| |].
  - destruct (commit_tail_effects (abort_post m y ay s') t a) as (? & ls & Hrt & Hls); [done| | | |].
    + by apply inv_abort.
    + simpl. by rewrite lookup_delete_ne.
    + intros Hiso. apply forget_safe; [apply (inv_ssi m Hi)|]. apply Hc; congruence.
    + split; [done|]. exists (LAbort y :: ls). split; [|done].
      econstructor; [done|by apply (eff_abort m y ay s')|done].
Qed.

(** The run ended in an abort of [t], from a state where it was active. *)
Definition ends_aborted t (b : Timestamp) (x : Outcome Timestamp * T) : Prop :=
  ∃ e m1 a1 s', x = (Err e, abort_post m1 t a1 s') ∧ inv m1 ∧
    active_txns m1 !! t = Some a1 ∧ snap_ts (snapshot a1) = b ∧
    ∀ k, chain_of s' k = Chain.abort (stamp_of t) (chain_of (store m1) k).

(** The run ended in the publication of [t]. *)
Definition ends_published t (a : ActiveTxn) (c : N) (x : Outcome Timestamp * T) : Prop :=
  ∃ m1 d s', x = (Ok (counter m1 + 1),
      publish_post (set_durability d (ticked m1)) t a (counter m1 + 1) s') ∧
    inv m1 ∧ active_txns m1 !! t = Some a ∧ counter m1 = c ∧ c < MAX_TIMESTAMP ∧
    ∀ k, chain_of s' k =
      Chain.commit (stamp_of t) (committed (counter m1 + 1)) (chain_of (store m1) k).

Lemma commit_tail_cases m t a :
  (∀ d t, is_panic (harden_commit t d).1 = false) → inv m → active_txns m !! t = Some a →
  ends_aborted t (snap_ts (snapshot a)) (Manager.commit_tail t m) ∨
  ends_published t a (counter m) (Manager.commit_tail t m).
Proof.
  clear P. intros Hd Hi Ha. pose proof (commit_tail_run m t a Hi Ha) as Hr. case_decide as Hlt.
  - specialize (Hd (durability m) t).
    destruct (harden_commit t (durability m)) as [[u|e|e] d]; [right|left|done].
    + destruct Hr as (s' & Hs' & E). exists m, d, s'. done.
    + destruct Hr as (s' & Hs' & E). exists e, (set_durability d (ticked m)), a, s'.
      split; [done|]. split; [by apply inv_set_durability, inv_ticked|]. done.
  - destruct Hr as (e & s' & Hs' & E). left. exists e, m, a, s'. done.
Qed.

(** A commit ends in an abort of [t] or in its publication, possibly after the
    abort of another transaction. *)
Lemma commit_cases m t a :
  (∀ d t, is_panic (harden_commit t d).1 = false) → inv m → active_txns m !! t = Some a →
  ends_aborted t (snap_ts (snapshot a)) (Manager.commit t m) ∨
  ends_published t a (counter m) (Manager.commit t m).
Proof.
  clear P. intros Hd Hi Ha. unfold Manager.commit. munfold. rewrite Ha.
  destruct (if runs_ssi (isolation a) then _ else _) as [y|] eqn:Hy; [|by apply commit_tail_cases].
  assert (is_Some (active_txns m !! y)) as [ay Hay].
  { destruct (runs_ssi (isolation a)); [|done]. eapply detect_active; [done| |done]. by rewrite Ha. }
  destruct (abort_internal_run m y ay Hi Hay) as (s' & Hab & Hs').
  destruct (N.eqb_spec y t) as [->|Hne]; munfold; rewrite Hab.
  - left. simplify_eq. eexists _, m, a, s'. done.
  - destruct (commit_tail_cases (abort_post m y ay s') t a) as [?|Hp]; [done| | |by left|right].
    + by apply inv_abort.
    + simpl. by rewrite lookup_delete_ne.
    + replace (counter m) with (counter (abort_post m y ay s')); [done|].
      unfold counter. simpl. by rewrite Oracle.release_counter.
Qed.

Lemma rollback_run m t :
  inv m →
  match active_txns m !! t with
  | None => ∃ e, Manager.rollback t m = (Err e, m)
  | Some a => ∃ s', Manager.rollback t m = (Ok tt, abort_post m t a s') ∧
      ∀ k, chain_of s' k = Chain.abort (stamp_of t) (chain_of (store m) k)
  end.
Proof.
  intros Hi. unfold Manager.rollback. munfold. destruct (active_txns m !! t) as [a|] eqn:Ha.
  - rewrite bool_decide_eq_true_2 by done. by apply abort_internal_run.
  - rewrite bool_decide_eq_false_2 by (by intros []). eauto.
Qed.

Lemma rollback_effects t m :
  inv m → does (λ _, []) m (Manager.rollback t m).
Proof.
  intros Hi. pose proof (rollback_run m t Hi) as Hr.
  destruct (active_txns m !! t) as [a|] eqn:Ha.
  - destruct Hr as (s' & -> & Hs'). by eapply does_intro; [apply abort_effect| |].
  - destruct Hr as [e ->]. by apply does_nothing.
Qed.

Lemma abort_all_effects l m :
  inv m → NoDup l → (∀ t, t ∈ l → is_Some (active_txns m !! t)) →
  ∃ m', Manager.abort_all l m = (Ok tt, m') ∧ effects m (LAbort <$> l) m' ∧
    ∀ t, active_txns m' !! t = if decide (t ∈ l) then None else active_txns m !! t.
Proof.
  revert m. induction l as [|t l IH]; intros m Hi Hnd Hl;
    [exists m; split; [done|]; split; [constructor|done]|].
  apply NoDup_cons in Hnd as [Ht Hnd]. destruct (Hl t) as [a Ha]; [set_solver|].
  destruct (abort_internal_run m t a Hi Ha) as (s' & Hab & Hs').
  destruct (IH (abort_post m t a s')) as (m' & Hrun & Hrt & Hact); [by apply inv_abort|done| |].
  { intros t' Ht'. simpl. rewrite lookup_delete_ne by set_solver. apply Hl. set_solver. }
  exists m'. simpl. munfold. rewrite Hab. split; [done|]. split.
  - econstructor; [done|by apply eff_abort|done].
  - intros t'. rewrite Hact. simpl. rewrite lookup_delete.
    destruct (decide (t' ∈ l)), (decide (t = t')), (decide (t' ∈ t :: l)); set_solver.
Qed.

Lemma elem_of_idle_victims now m t :
  t ∈ Manager.idle_victims now m ↔
    ∃ a, active_txns m !! t = Some a ∧ idle_timeout (config m) ≤ now - last_active a.
Proof.
  unfold Manager.idle_victims. rewrite list_elem_of_fmap. split.
  - intros ([z a] & -> & [Hi Hz]%list_elem_of_filter). apply elem_of_map_to_list in Hz. eauto.
  - intros (a & Ha & Hi). exists (t, a). split; [done|]. apply list_elem_of_filter.
    by rewrite elem_of_map_to_list.
Qed.

Lemma NoDup_idle_victims now m : NoDup (Manager.idle_victims now m).
Proof.
  unfold Manager.idle_victims. eapply sublist_NoDup; [apply (NoDup_fst_map_to_list (active_txns m))|].
  apply fmap_sublist, sublist_filter.
Qed.

Lemma reap_run now m :
  inv m → ∃ m', Manager.reap_idle_as_of now m = (Ok (length (Manager.idle_victims now m)), m') ∧
    effects m (LAbort <$> Manager.idle_victims now m) m' ∧
    ∀ t, active_txns m' !! t =
      if decide (t ∈ Manager.idle_victims now m) then None else active_txns m !! t.
Proof.
  intros Hi. destruct (abort_all_effects (Manager.idle_victims now m) m) as (m' & Hr & Hrt & Ha);
    [done|apply NoDup_idle_victims|intros t (a & -> & _)%elem_of_idle_victims; by eexists|].
  exists m'. unfold Manager.reap_idle_as_of. munfold. by rewrite Hr.
Qed.

Lemma reports_aborts l : reports (LAbort <$> l) = [].
Proof. induction l; [done|]. unfold reports in *. simpl. by rewrite filter_cons. Qed.

Lemma reap_effects now m : inv m → does (λ _, []) m (Manager.reap_idle_as_of now m).
Proof.
  intros Hi. destruct (reap_run now m Hi) as (m' & -> & He & _).
  eapply does_intro; [done|done|apply reports_aborts].
Qed.

Lemma does_ok_map {A B} (f : A → B) rep rep' (c : St T A) m :
  (∀ x, rep' (Ok (f x)) = rep (Ok x)) → (∀ e, rep' (Err e) = rep (Err e)) →
  does rep m (c m) → does rep' m (ok_map f c m).
Proof.
  intros Hok Herr (Hp & ls & He & Hl). unfold ok_map. munfold.
  destruct (c m) as [[x|e|e] m']; [| |done]; eapply does_intro; simpl in *;
    rewrite ?Hok, ?Herr; eauto.
Qed.

(** Every operation is a sequence of effects that report what its answer says,
    and does not panic. *)
Lemma exec_effects o m :
  (∀ d t, is_panic (harden_commit t d).1 = false) → inv m →
  match o with
  | OpBegin _ iso => P m (LBegin (next_txn_id m + 1) (counter m + 1) iso)
  | OpGc => P m LGc
  | OpWrite now t k p => P (admitted now t k m) (LWrite t k (Some p))
  | OpDelete now t k => P (admitted now t k m) (LWrite t k None)
  | _ => True
  end →
  does (report o (counter m + 1)) m (exec o m).
Proof.
  intros Hd Hi HP. destruct o; unfold exec.
  - eapply does_ok_map; [| |by apply begin_effects]; done.
  - eapply does_ok_map; [| |by apply read_effects]; done.
  - eapply does_ok_map; [| |by apply write_effects]; done.
  - eapply does_ok_map; [| |by apply delete_effects]; done.
  - eapply does_ok_map; [| |by apply commit_effects]; done.
  - eapply does_ok_map; [| |by apply rollback_effects]; done.
  - destruct (Manager.run_gc m) as [r m'] eqn:E.
    replace m' with (gc_post m) by (unfold gc_post; by rewrite E).
    by eapply does_intro; [apply effects_one, eff_gc; done| |].
  - eapply does_ok_map; [| |by apply reap_effects]; done.
Qed.

End ops.

Section runs.
Context {S D : Type} `{!VersionedStore S, !VersionedStoreSpec S, !Durability D}.
Abbreviation T := (TxnManager S D).
Implicit Types (m : T) (t : TxnId) (k : Key).

Lemma exec_inv o m :
  (∀ d t, is_panic (harden_commit t d).1 = false) → inv m → inv (exec o m).2.
Proof.
  intros Hd Hi. destruct (exec_effects (λ _ _, True) o m Hd Hi) as (_ & ls & He & _); [by destruct o|].
  eauto using effects_inv.
Qed.

(** ** Runs *)

(** Run a list of operations, collecting each with its answer. *)
Fixpoint run (os : list Op) m : list (Op * Timestamp * Outcome Resp) * T :=
  match os with
  | [] => ([], m)
  | o :: os =>
      let '(r, m1) := exec o m in
      let '(h, m2) := run os m1 in
      ((o, counter m + 1, r) :: h, m2)
  end.

Lemma run_inv os m :
  (∀ d t, is_panic (harden_commit t d).1 = false) → inv m → inv (run os m).2.
Proof.
  intros Hd. revert m. induction os as [|o os IH]; intros m Hi; [done|]. simpl.
  pose proof (exec_inv o m Hd Hi) as Hi1. destruct (exec o m) as [r m1].
  specialize (IH m1 Hi1). by destruct (run os m1).
Qed.

(** A manager just opened over a store with no versions. *)
Definition fresh m : Prop :=
  ∃ s d c, m = Manager.with_durability_and_config s d c ∧ ∀ k, chain_of s k = [].

Lemma fresh_inv m : fresh m → inv m.
Proof.
  intros (s & d & c & -> & Hs). split; simpl; try done.
  - split; simpl; [done|done|by intros ts []].
  - intros ts c'. rewrite lookup_empty. naive_solver.
  - intros t. split; [done|]. by intros [].
  - apply new_wf.
  - intros t b. split; [intros (x & Hx & _)|intros (a & Ha & _)]; done.
  - intros k v. rewrite Hs. intros []%not_elem_of_nil.
Qed.

End runs.
