(* ===== verification/SI.v ===== *)
(** * Snapshot isolation, abstractly

    The specification the transaction manager implements: a history of commits,
    newest first, and the active transactions with their begin timestamp and the
    log of what they read and wrote. A read returns the transaction's own last
    write, or the value of the newest commit at or below its snapshot. A write is
    allowed when no other active transaction wrote the key and no commit after
    the snapshot did (first-updater-wins and first-committer-wins). *)

From stdpp Require Import options.
From S2P Require Import Prelude Core Snapshot VStore ManagerOps.

Inductive Event :=
  | ERead (k : Key) (v : option Payload)
  | EWrite (k : Key) (v : option Payload).

Definition apply_event (w : gmap Key (option Payload)) (e : Event) : gmap Key (option Payload) :=
  match e with ERead _ _ => w | EWrite k v => <[k := v]> w end.

(** The last write of a log to each key. *)
Definition writes_of (log : list Event) : gmap Key (option Payload) := foldl apply_event ∅ log.

Record Commit := mkCommit {
  c_txn : TxnId;
  c_begin : Timestamp;
  c_ts : Timestamp;
  c_log : list Event;
}.

#[global] Instance event_eq_dec : EqDecision Event.
Proof. solve_decision. Defined.
#[global] Instance commit_eq_dec : EqDecision Commit.
Proof. solve_decision. Defined.

Record SI := mkSI {
  si_commits : list Commit;
  si_active : gmap TxnId (Timestamp * list Event);
  si_last : TxnId; (* the last transaction begun *)
}.

Definition si_empty : SI := mkSI [] ∅ 0.

(** The value of [k] in the snapshot at [s]. *)
Fixpoint value_at (cs : list Commit) (k : Key) (s : Timestamp) : option Payload :=
  match cs with
  | [] => None
  | c :: cs =>
      if c_ts c <=? s then
        match writes_of (c_log c) !! k with
        | Some v => v
        | None => value_at cs k s
        end
      else value_at cs k s
  end.

(** What a transaction with begin timestamp [b] and log [log] reads. *)
Definition si_value (cs : list Commit) (b : Timestamp) (log : list Event) (k : Key)
    : option Payload :=
  match writes_of log !! k with Some v => v | None => value_at cs k b end.

(** The event is one the specification allows after the log [pre]: a read
    returns the value, a delete finds one. *)
Definition event_ok (cs : list Commit) (b : Timestamp) (pre : list Event) (e : Event) : Prop :=
  match e with
  | ERead k v => v = si_value cs b pre k
  | EWrite k None => is_Some (si_value cs b pre k)
  | EWrite k (Some _) => True
  end.

Definition add_event (A : SI) (t : TxnId) (b : Timestamp) (log : list Event) (e : Event) : SI :=
  mkSI (si_commits A) (<[t := (b, log ++ [e])]> (si_active A)) (si_last A).

Inductive si_step (A : SI) : Label → SI → Prop :=
  | si_quiet : si_step A LQuiet A
  | si_gc : si_step A LGc A
  | si_begin t b iso :
      si_last A < t →
      (∀ c, c ∈ si_commits A → c_txn c < t ∧ c_ts c < b) →
      (∀ t' b' log', si_active A !! t' = Some (b', log') → t' < t ∧ b' < b) →
      si_step A (LBegin t b iso) (mkSI (si_commits A) (<[t := (b, [])]> (si_active A)) t)
  | si_read t b log k :
      si_active A !! t = Some (b, log) →
      si_step A (LRead t k (si_value (si_commits A) b log k))
        (add_event A t b log (ERead k (si_value (si_commits A) b log k)))
  | si_write t b log k v :
      si_active A !! t = Some (b, log) →
      event_ok (si_commits A) b log (EWrite k v) →
      (∀ c, c ∈ si_commits A → is_Some (writes_of (c_log c) !! k) → c_ts c ≤ b) →
      (∀ t' b' log', si_active A !! t' = Some (b', log') → is_Some (writes_of log' !! k) → t' = t) →
      si_step A (LWrite t k v) (add_event A t b log (EWrite k v))
  | si_commit t b log ts :
      si_active A !! t = Some (b, log) →
      (∀ c, c ∈ si_commits A → c_ts c < ts) →
      (∀ t' b' log', si_active A !! t' = Some (b', log') → b' < ts) →
      si_step A (LCommit t ts)
        (mkSI (mkCommit t b ts log :: si_commits A) (delete t (si_active A)) (si_last A))
  | si_abort t b log :
      si_active A !! t = Some (b, log) →
      si_step A (LAbort t) (mkSI (si_commits A) (delete t (si_active A)) (si_last A)).

Inductive si_steps : SI → list Label → SI → Prop :=
  | si_steps_nil A : si_steps A [] A
  | si_steps_cons A l A1 ls A2 : si_step A l A1 → si_steps A1 ls A2 → si_steps A (l :: ls) A2.

Lemma si_steps_app A ls A1 ls' A2 :
  si_steps A ls A1 → si_steps A1 ls' A2 → si_steps A (ls ++ ls') A2.
Proof. induction 1; simpl; [done|]. intros. econstructor; eauto. Qed.

(** ** Facts about logs *)

Lemma writes_of_snoc log e : writes_of (log ++ [e]) = apply_event (writes_of log) e.
Proof. unfold writes_of. by rewrite foldl_app. Qed.

Lemma writes_of_read log k v : writes_of (log ++ [ERead k v]) = writes_of log.
Proof. by rewrite writes_of_snoc. Qed.

Lemma writes_of_write log k v : writes_of (log ++ [EWrite k v]) = <[k := v]> (writes_of log).
Proof. by rewrite writes_of_snoc. Qed.

Lemma value_at_commit c cs k s :
  value_at (c :: cs) k s =
    if decide (c_ts c ≤ s) then default (value_at cs k s) (writes_of (c_log c) !! k)
    else value_at cs k s.
Proof.
  simpl. destruct (N.leb_spec (c_ts c) s); [rewrite decide_True by done|rewrite decide_False by lia; done].
  by destruct (writes_of (c_log c) !! k).
Qed.

(** ** Invariants of the specification *)

(** Every event of the log is allowed. *)
Definition log_ok (cs : list Commit) (b : Timestamp) (log : list Event) : Prop :=
  ∀ pre e post, log = pre ++ e :: post → event_ok cs b pre e.

Record si_wf (A : SI) : Prop := {
  wf_sorted : StronglySorted (λ c c', c_ts c' < c_ts c) (si_commits A);
  wf_txns : NoDup (c_txn <$> si_commits A);
  wf_split : ∀ c, c ∈ si_commits A → si_active A !! c_txn c = None;
  wf_begin : ∀ c, c ∈ si_commits A → c_begin c < c_ts c;
  (** First-committer-wins: writers of a common key do not overlap. *)
  wf_fcw : ∀ c c' k, c ∈ si_commits A → c' ∈ si_commits A → c_ts c < c_ts c' →
    is_Some (writes_of (c_log c) !! k) → is_Some (writes_of (c_log c') !! k) →
    c_ts c ≤ c_begin c';
  wf_fcw_active : ∀ c t b log k, c ∈ si_commits A → si_active A !! t = Some (b, log) →
    is_Some (writes_of (c_log c) !! k) → is_Some (writes_of log !! k) → c_ts c ≤ b;
  (** First-updater-wins. *)
  wf_exclusive : ∀ t t' b b' log log' k,
    si_active A !! t = Some (b, log) → si_active A !! t' = Some (b', log') →
    is_Some (writes_of log !! k) → is_Some (writes_of log' !! k) → t = t';
  wf_log : ∀ c, c ∈ si_commits A → log_ok (si_commits A) (c_begin c) (c_log c);
  wf_log_active : ∀ t b log, si_active A !! t = Some (b, log) → log_ok (si_commits A) b log;
}.

Lemma log_ok_nil cs b : log_ok cs b [].
Proof. intros pre e post E. by destruct pre. Qed.

Lemma log_ok_snoc cs b log e :
  log_ok cs b log → event_ok cs b log e → log_ok cs b (log ++ [e]).
Proof.
  intros Hl He pre e' post E.
  destruct post as [|x post _] using rev_ind.
  - apply app_inj_2 in E as [-> [= ->]]; [|done]. done.
  - rewrite app_comm_cons, app_assoc in E. apply app_inj_2 in E as [-> _]; [|done]. by eapply Hl.
Qed.

(** A later commit does not change what an older snapshot sees. *)
Lemma value_at_later c cs k s : s < c_ts c → value_at (c :: cs) k s = value_at cs k s.
Proof. intros. rewrite value_at_commit. by rewrite decide_False by lia. Qed.

Lemma log_ok_later c cs b log : b < c_ts c → log_ok cs b log → log_ok (c :: cs) b log.
Proof.
  intros Hb Hl pre e post E. specialize (Hl pre e post E). unfold event_ok, si_value in *.
  destruct e as [k v|k [p|]]; rewrite ?value_at_later by done; done.
Qed.

(** Replacing an active transaction's log by one that writes more. *)
Lemma add_event_wf A t b log e :
  si_wf A → si_active A !! t = Some (b, log) →
  event_ok (si_commits A) b log e →
  (∀ k, is_Some (writes_of (log ++ [e]) !! k) → is_Some (writes_of log !! k) ∨
     (∀ c, c ∈ si_commits A → is_Some (writes_of (c_log c) !! k) → c_ts c ≤ b) ∧
     (∀ t' b' log', si_active A !! t' = Some (b', log') → is_Some (writes_of log' !! k) → t' = t)) →
  si_wf (add_event A t b log e).
Proof.
  intros [Ws Wt Wsp Wb Wf Wfa We Wl Wla] Ha Hr Hw. split; simpl; try done.
  - intros c Hc. rewrite lookup_insert_ne; [auto|]. intros ->. specialize (Wsp c Hc). congruence.
  - intros c t' b' log' k Hc [[<- [= <- <-]]|[? Ha']]%lookup_insert_Some Hk Hk'; [|eauto].
    destruct (Hw k Hk') as [?|[? _]]; eauto.
  - intros t1 t2 b1 b2 l1 l2 k [[<- [= <- <-]]|[? H1]]%lookup_insert_Some
      [[<- [= <- <-]]|[? H2]]%lookup_insert_Some Hk1 Hk2; [done| | |eauto].
    + destruct (Hw k Hk1) as [?|[_ Hx]]; [eauto|]. symmetry. eauto.
    + destruct (Hw k Hk2) as [?|[_ Hx]]; [eauto|]. eauto.
  - intros t' b' log' [[<- [= <- <-]]|[? Ha']]%lookup_insert_Some; [|eauto].
    apply log_ok_snoc; eauto.
Qed.

Lemma delete_active_wf A t : si_wf A → si_wf (mkSI (si_commits A) (delete t (si_active A)) (si_last A)).
Proof.
  intros [Ws Wt Wsp Wb Wf Wfa We Wl Wla]. split; simpl; try done.
  - intros c Hc. rewrite lookup_delete. case_decide; [done|auto].
  - intros c t' b log k Hc [_ ?]%lookup_delete_Some. eauto.
  - intros t1 t2 b1 b2 l1 l2 k [_ ?]%lookup_delete_Some [_ ?]%lookup_delete_Some. eauto.
  - intros t' b log [_ ?]%lookup_delete_Some. eauto.
Qed.

Lemma begin_active_wf A t b :
  si_wf A → (∀ c, c ∈ si_commits A → c_txn c < t ∧ c_ts c < b) →
  si_wf (mkSI (si_commits A) (<[t := (b, [])]> (si_active A)) t).
Proof.
  intros [Ws Wt Wsp Wb Wf Wfa We Wl Wla] Hc. split; simpl; try done.
  - intros c Hin. rewrite lookup_insert_ne; [auto|]. apply Hc in Hin. lia.
  - intros c t' b' log k Hin [[<- [= <- <-]]|[? Ha]]%lookup_insert_Some; [|eauto].
    intros _ []. done.
  - intros t1 t2 b1 b2 l1 l2 k [[<- [= <- <-]]|[? H1]]%lookup_insert_Some
      [[<- [= <- <-]]|[? H2]]%lookup_insert_Some; [done|by intros []|by intros _ []|eauto].
  - intros t' b' log [[<- [= <- <-]]|[? Ha]]%lookup_insert_Some; [apply log_ok_nil|eauto].
Qed.

Lemma commit_active_wf A t b log ts :
  si_wf A → si_active A !! t = Some (b, log) →
  (∀ c, c ∈ si_commits A → c_ts c < ts) →
  (∀ t' b' log', si_active A !! t' = Some (b', log') → b' < ts) →
  si_wf (mkSI (mkCommit t b ts log :: si_commits A) (delete t (si_active A)) (si_last A)).
Proof.
  intros [Ws Wt Wsp Wb Wf Wfa We Wl Wla] Ha Hc Hb. split; simpl.
  - constructor; [done|]. by apply Forall_forall.
  - apply NoDup_cons. split; [|done]. intros (c & E & Hin)%list_elem_of_fmap.
    specialize (Wsp c Hin). congruence.
  - intros c [->|Hin]%elem_of_cons; simpl; [by rewrite lookup_delete_eq|].
    rewrite lookup_delete. case_decide; [done|auto].
  - intros c [->|Hin]%elem_of_cons; simpl; eauto.
  - intros c c' k [->|H1]%elem_of_cons [->|H2]%elem_of_cons; simpl; try lia; [|eauto|eauto].
    specialize (Hc c' H2). lia.
  - intros c t' b' log' k [->|H1]%elem_of_cons [Hne Ha']%lookup_delete_Some; simpl; [|eauto].
    intros Hk Hk'. by destruct Hne; eauto.
  - intros t1 t2 b1 b2 l1 l2 k [_ ?]%lookup_delete_Some [_ ?]%lookup_delete_Some. eauto.
  - intros c [->|Hin]%elem_of_cons; simpl; (apply log_ok_later; [simpl|]); eauto.
    specialize (Hc c Hin). specialize (Wb c Hin). lia.
  - intros t' b' log' [_ ?]%lookup_delete_Some. apply log_ok_later; eauto.
Qed.

Lemma si_step_wf A l A' : si_step A l A' → si_wf A → si_wf A'.
Proof.
  destruct 1; intros Hwf; try done.
  - by apply begin_active_wf.
  - apply add_event_wf; [done|done|done|].
    intros k' Hk. rewrite writes_of_read in Hk. by left.
  - apply add_event_wf; [done|done|done|].
    intros k' Hk. rewrite writes_of_write in Hk. destruct (decide (k = k')) as [->|]; [by right|].
    rewrite lookup_insert_ne in Hk by done. by left.
  - by eapply commit_active_wf.
  - by apply delete_active_wf.
Qed.

Lemma si_steps_wf A ls A' : si_steps A ls A' → si_wf A → si_wf A'.
Proof. induction 1; eauto using si_step_wf. Qed.

Lemma si_empty_wf : si_wf si_empty.
Proof. split; simpl; try set_solver; constructor. Qed.
