(* ===== verification/Serial.v ===== *)
(** * Snapshot isolation without dangerous structures is serializable

    Over the commits of the specification of SI.v: if no committed transaction has
    both an incoming and an outgoing rw-antidependency between concurrent
    transactions, then replaying the transactions one at a time, each at the
    position [position] gives it, reproduces every value they read and ends in
    the last committed state. *)

From stdpp Require Import options.
From S2P Require Import Prelude Core Snapshot VStore ManagerOps SI.

(** ** Serial execution *)

Fixpoint replay_log (log : list Event) (st : gmap Key Payload) : option (gmap Key Payload) :=
  match log with
  | [] => Some st
  | ERead k v :: log => if decide (st !! k = v) then replay_log log st else None
  | EWrite k (Some p) :: log => replay_log log (<[k := p]> st)
  | EWrite k None :: log => if decide (is_Some (st !! k)) then replay_log log (delete k st) else None
  end.

(** Run the logs in order from [st]; [None] when a read does not return what its
    log says, or a delete finds nothing. *)
Fixpoint replay (logs : list (list Event)) (st : gmap Key Payload) : option (gmap Key Payload) :=
  match logs with
  | [] => Some st
  | log :: logs => st' ← replay_log log st; replay logs st'
  end.

(** ** Conflicts between commits *)

(** The keys a log reads before writing them itself. *)
Fixpoint snapshot_reads (written : gset Key) (log : list Event) : gset Key :=
  match log with
  | [] => ∅
  | ERead k _ :: log => ({[k]} ∖ written) ∪ snapshot_reads written log
  | EWrite k _ :: log => snapshot_reads ({[k]} ∪ written) log
  end.

Definition c_reads (c : Commit) : gset Key := snapshot_reads ∅ (c_log c).
Definition c_writes (c : Commit) : gset Key := dom (writes_of (c_log c)).

(** A rw-antidependency between concurrent transactions. *)
Definition anti (c c' : Commit) : Prop :=
  c_ts c ≠ c_ts c' ∧ (c_begin c < c_ts c' ∧ c_begin c' < c_ts c) ∧ c_reads c ∩ c_writes c' ≠ ∅.

Definition dangerous (cs : list Commit) : Prop :=
  ∃ c1 c2 c3, c1 ∈ cs ∧ c2 ∈ cs ∧ c3 ∈ cs ∧ anti c1 c2 ∧ anti c2 c3.

(** ** The serialization order *)

(** A transaction that read around a concurrent one takes effect when it began,
    any other when it committed. Doubling makes room for a begin just after
    a commit with the same timestamp. *)
Definition position (cs : list Commit) (c : Commit) : N :=
  if decide (Exists (anti c) cs) then 2 * c_begin c + 1 else 2 * c_ts c.

Definition before (cs : list Commit) (c c' : Commit) : Prop := position cs c ≤ position cs c'.

#[global] Instance before_dec cs c c' : Decision (before cs c c').
Proof. unfold before. apply _. Defined.
#[global] Instance before_total cs : Total (before cs).
Proof. intros c c'. unfold before. lia. Qed.
#[global] Instance before_trans cs : Transitive (before cs).
Proof. intros c c' c''. unfold before. lia. Qed.

Definition serial_order (cs : list Commit) : list Commit := merge_sort (before cs) cs.

(** ** Logs *)

Lemma dom_writes_of_snoc log e :
  dom (writes_of (log ++ [e])) =
    match e with ERead _ _ => dom (writes_of log) | EWrite k _ => {[k]} ∪ dom (writes_of log) end.
Proof. rewrite writes_of_snoc. destruct e; simpl; [done|]. by rewrite dom_insert_L. Qed.

Lemma elem_of_writes_of log k v : EWrite k v ∈ log → is_Some (writes_of log !! k).
Proof.
  induction log as [|e log IH] using rev_ind; [by intros ?%not_elem_of_nil|].
  intros [Hin|Hin]%elem_of_app; rewrite writes_of_snoc.
  - destruct e as [|k' v']; simpl; [auto|]. destruct (decide (k' = k)) as [->|].
    + by rewrite lookup_insert_eq.
    + rewrite lookup_insert_ne by done. auto.
  - apply list_elem_of_singleton in Hin as <-. simpl. by rewrite lookup_insert_eq.
Qed.

(** A read that no earlier event of the log covers goes to the snapshot. *)
Lemma snapshot_reads_elem pre k v post w :
  writes_of pre !! k = None → k ∉ w → k ∈ snapshot_reads w (pre ++ ERead k v :: post).
Proof.
  intros Hn. assert (∀ x, EWrite k x ∉ pre) as Hpre.
  { intros x [? Hs]%elem_of_writes_of. congruence. }
  clear Hn. revert w. induction pre as [|e pre IH]; intros w Hw; simpl; [set_solver|].
  assert (∀ x, EWrite k x ∉ pre) as Hpre' by (intros x Hx; apply (Hpre x); set_solver).
  destruct e as [k' v'|k' v']; [apply elem_of_union_r, IH; done|]. apply IH; [done|].
  rewrite not_elem_of_union, not_elem_of_singleton. split; [|done].
  intros ->. apply (Hpre v'). set_solver.
Qed.

Lemma snapshot_reads_read w log k : k ∈ snapshot_reads w log → ∃ v, ERead k v ∈ log.
Proof.
  revert w. induction log as [|[k' v|k' v] log IH]; intros w; simpl; [set_solver| |].
  - intros [Hk|Hk]%elem_of_union; [exists v; set_solver|].
    destruct (IH w Hk) as [x Hx]. exists x. set_solver.
  - intros Hk. destruct (IH _ Hk) as [x Hx]. exists x. set_solver.
Qed.

(** The effect of a log on a state. *)
Definition apply_writes (w : gmap Key (option Payload)) (st : gmap Key Payload)
    : gmap Key Payload := merge (λ o v, match o with Some x => x | None => v end) w st.

Lemma apply_writes_lookup w st k :
  apply_writes w st !! k = match w !! k with Some x => x | None => st !! k end.
Proof.
  unfold apply_writes. rewrite lookup_merge. by destruct (w !! k), (st !! k).
Qed.

Lemma apply_writes_empty st : apply_writes ∅ st = st.
Proof. apply map_eq. intros k. by rewrite apply_writes_lookup, lookup_empty. Qed.

Lemma replay_log_app l1 l2 st :
  replay_log (l1 ++ l2) st = st' ← replay_log l1 st; replay_log l2 st'.
Proof.
  revert st. induction l1 as [|[k v|k [p|]] l1 IH]; intros st; simpl; try done.
  - by case_decide.
  - by case_decide.
Qed.

(** A log replays when its events fit the state overlaid with its earlier writes. *)
Lemma replay_log_ok log st :
  (∀ pre e post, log = pre ++ e :: post →
     match e with
     | ERead k v => v = apply_writes (writes_of pre) st !! k
     | EWrite k None => is_Some (apply_writes (writes_of pre) st !! k)
     | EWrite k (Some _) => True
     end) →
  replay_log log st = Some (apply_writes (writes_of log) st).
Proof.
  induction log as [|e log IH] using rev_ind; intros H.
  - simpl. by rewrite apply_writes_empty.
  - rewrite replay_log_app, IH; simpl.
    2:{ intros pre e' post ->. apply (H pre e' (post ++ [e])). by rewrite <- app_assoc. }
    specialize (H log e [] eq_refl). destruct e as [k v|k v]; simpl.
    + rewrite writes_of_read. by rewrite decide_True.
    + rewrite writes_of_write. destruct v as [p|]; [|rewrite decide_True by done]; f_equal;
        apply map_eq; intros k'; rewrite apply_writes_lookup; destruct (decide (k = k')) as [->|].
      * by rewrite !lookup_insert_eq.
      * by rewrite !lookup_insert_ne, apply_writes_lookup.
      * by rewrite lookup_delete_eq, lookup_insert_eq.
      * by rewrite lookup_delete_ne, lookup_insert_ne, apply_writes_lookup.
Qed.

(** ** The state a prefix of the serial order leaves *)

Definition state (l : list Commit) : gmap Key Payload :=
  foldl (λ st c, apply_writes (writes_of (c_log c)) st) ∅ l.

Lemma state_snoc l c k :
  state (l ++ [c]) !! k =
    match writes_of (c_log c) !! k with Some v => v | None => state l !! k end.
Proof. unfold state. rewrite foldl_app. simpl. by rewrite apply_writes_lookup. Qed.

(** The last writer of a key in a list decides the key. *)
Lemma state_last l k :
  (state l !! k = None ∧ ∀ c, c ∈ l → k ∉ c_writes c) ∨
  ∃ l1 w l2 v, l = l1 ++ w :: l2 ∧ writes_of (c_log w) !! k = Some v ∧
    (∀ c, c ∈ l2 → k ∉ c_writes c) ∧ state l !! k = v.
Proof.
  induction l as [|c l IH] using rev_ind; [left; set_solver|].
  rewrite state_snoc. destruct (writes_of (c_log c) !! k) as [v|] eqn:E.
  { right. exists l, c, [], v. set_solver. }
  assert (k ∉ c_writes c) as Hc by (unfold c_writes; by rewrite not_elem_of_dom).
  destruct IH as [[-> Hn]|(l1 & w & l2 & v & -> & Hw & Hn & ->)].
  - left. set_solver.
  - right. exists l1, w, (l2 ++ [c]), v. split; [by rewrite <- app_assoc|]. set_solver.
Qed.

Lemma value_at_none cs k s :
  (∀ c, c ∈ cs → k ∈ c_writes c → s < c_ts c) → value_at cs k s = None.
Proof.
  induction cs as [|c cs IH]; intros H; [done|]. rewrite value_at_commit, IH by set_solver.
  case_decide as Hs; [|done]. unfold c_writes in H.
  destruct (writes_of (c_log c) !! k) as [v|] eqn:E; [|done].
  specialize (H c). rewrite elem_of_dom, E in H. specialize (H ltac:(set_solver) ltac:(done)). lia.
Qed.

Lemma value_at_max cs k s w v :
  StronglySorted (λ c c', c_ts c' < c_ts c) cs →
  w ∈ cs → c_ts w ≤ s → writes_of (c_log w) !! k = Some v →
  (∀ c, c ∈ cs → k ∈ c_writes c → c_ts c ≤ s → c_ts c ≤ c_ts w) →
  value_at cs k s = v.
Proof.
  induction 1 as [|c cs Hs IH Hc]; intros Hw Hts Hv Hmax; [by apply not_elem_of_nil in Hw|].
  rewrite Forall_forall in Hc. rewrite value_at_commit. apply elem_of_cons in Hw as [->|Hw].
  - rewrite decide_True by done. by rewrite Hv.
  - rewrite IH; [|done|done|done|set_solver]. specialize (Hc w Hw). case_decide; [|done].
    destruct (writes_of (c_log c) !! k) as [x|] eqn:E; [|done].
    specialize (Hmax c). unfold c_writes in Hmax. rewrite elem_of_dom, E in Hmax.
    specialize (Hmax ltac:(set_solver) ltac:(done) ltac:(done)). lia.
Qed.

Lemma sorted_middle {X} (R : X → X → Prop) l1 x l2 :
  StronglySorted R (l1 ++ x :: l2) → (∀ y, y ∈ l1 → R y x) ∧ (∀ z, z ∈ l2 → R x z).
Proof.
  intros Hs. split.
  - intros y Hy. eapply StronglySorted_app_1_elem_of; [done|done|set_solver].
  - apply StronglySorted_app_1_r, StronglySorted_cons in Hs as [Hf _]. by apply Forall_forall.
Qed.

(** ** The theorem *)

Section serial.
#[local] Set Default Proof Using "All".
Context (A : SI) (Hwf : si_wf A).
Abbreviation cs := (si_commits A).
Context (Hsafe : ¬ dangerous cs).

Lemma same_ts c c' : c ∈ cs → c' ∈ cs → c_ts c = c_ts c' → c = c'.
Proof.
  clear Hsafe. pose proof (wf_sorted A Hwf) as Hs. clear Hwf. revert c c'.
  induction Hs as [|x l Hl IH Hf]; intros c c'; [set_solver|].
  rewrite Forall_forall in Hf. intros [->|Hc]%elem_of_cons [->|Hc']%elem_of_cons Ht; [done| | |].
  3: by apply IH.
  - specialize (Hf c' Hc'). lia.
  - specialize (Hf c Hc). lia.
Qed.

Lemma position_bounds c : c ∈ cs → 2 * c_begin c + 1 ≤ position cs c ∧ position cs c ≤ 2 * c_ts c.
Proof.
  intros Hc. pose proof (wf_begin A Hwf c Hc). unfold position. case_decide; lia.
Qed.

Lemma position_disjoint c c' : c ∈ cs → c' ∈ cs → c_ts c ≤ c_begin c' → position cs c < position cs c'.
Proof. intros H1 H2 ?. pose proof (position_bounds c H1). pose proof (position_bounds c' H2). lia. Qed.

Lemma position_anti c c' : c ∈ cs → c' ∈ cs → anti c c' → position cs c < position cs c'.
Proof.
  intros Hc Hc' Ha. unfold position.
  rewrite (decide_True (P := Exists (anti c) cs)) by (apply Exists_exists; eauto).
  rewrite (decide_False (P := Exists (anti c') cs)).
  - destruct Ha as (_ & [? ?] & _). lia.
  - intros (c'' & Hc'' & Ha')%Exists_exists. apply Hsafe. exists c, c', c''. done.
Qed.

(** Whoever read around [c'] comes before it. *)
Lemma position_rw c c' k :
  c ∈ cs → c' ∈ cs → c ≠ c' → k ∈ c_reads c → k ∈ c_writes c' → c_begin c < c_ts c' →
  position cs c < position cs c'.
Proof.
  intros Hc Hc' Hne Hr Hw Hb. destruct (decide (c_ts c ≤ c_begin c')) as [|Hn];
    [by apply position_disjoint|].
  apply position_anti; try done. split; [intros E; by apply Hne, same_ts|].
  split; [lia|set_solver].
Qed.

(** Writers of a common key are ordered by their commits. *)
Lemma position_ww c c' k :
  c ∈ cs → c' ∈ cs → c ≠ c' → k ∈ c_writes c → k ∈ c_writes c' → c_begin c < c_ts c' →
  position cs c < position cs c'.
Proof.
  intros Hc Hc' Hne Hk Hk' Hb. apply position_disjoint; [done|done|].
  unfold c_writes in *. rewrite elem_of_dom in Hk, Hk'. apply (wf_fcw A Hwf c c' k); try done.
  destruct (N.lt_trichotomy (c_ts c) (c_ts c')) as [?|[E|Hlt]]; [done|by destruct Hne; apply same_ts|].
  assert (c_ts c' ≤ c_begin c); [|lia]. by apply (wf_fcw A Hwf c' c k).
Qed.

(** The state after a prefix is the snapshot at [s] on a key whose writers in
    the prefix are those committed by [s]. *)
Lemma state_value pre k s :
  StronglySorted (before cs) pre → (∀ c, c ∈ pre → c ∈ cs) →
  (∀ w, w ∈ cs → k ∈ c_writes w → w ∈ pre ↔ c_ts w ≤ s) →
  state pre !! k = value_at cs k s.
Proof.
  intros Hs Hsub Hw. destruct (state_last pre k) as [[-> Hn]|(l1 & w & l2 & v & E & Hv & Hn & ->)].
  - symmetry. apply value_at_none. intros c Hc Hk. apply N.lt_nge. intros Hle.
    by apply (Hn c); [apply Hw|].
  - assert (w ∈ cs) as Hwc by (apply Hsub; rewrite E; set_solver).
    assert (k ∈ c_writes w) as Hwk by (unfold c_writes; by rewrite elem_of_dom, Hv).
    assert (w ∈ pre) as Hwp by (rewrite E; set_solver).
    symmetry. eapply value_at_max; [apply (wf_sorted A Hwf)|done|by apply Hw|done|].
    intros c Hc Hk Hts. assert (c ∈ pre) as Hcp by by apply Hw.
    rewrite E in Hcp, Hs. apply elem_of_app in Hcp as [Hcp|[->|Hcp]%elem_of_cons]; [|done|].
    + apply N.le_ngt. intros Hlt. destruct (sorted_middle _ _ _ _ Hs) as [Hb _].
      specialize (Hb c Hcp). unfold before in Hb.
      assert (position cs w < position cs c); [|lia]. apply position_disjoint; try done.
      apply (wf_fcw A Hwf w c k); try done; by apply elem_of_dom.
    + by destruct (Hn c Hcp).
Qed.

(** A commit at its serial position finds its snapshot on every key it reads
    from the snapshot or writes. *)
Lemma state_at_begin pre c rest k :
  serial_order cs = pre ++ c :: rest → k ∈ c_reads c ∨ k ∈ c_writes c →
  state pre !! k = value_at cs k (c_begin c).
Proof.
  intros E Hk.
  assert (StronglySorted (before cs) (serial_order cs)) as Hsort
    by (apply StronglySorted_merge_sort; apply _).
  assert (serial_order cs ≡ₚ cs) as Hperm by apply merge_sort_Permutation.
  assert (NoDup (serial_order cs)) as Hnd.
  { rewrite Hperm. eapply NoDup_fmap_1, (wf_txns A Hwf). }
  rewrite E in Hsort, Hnd. destruct (sorted_middle _ _ _ _ Hsort) as [Hb Ha].
  assert (∀ x, x ∈ pre ++ c :: rest → x ∈ cs) as Hsub by (intros x; rewrite <- E, Hperm; done).
  assert (c ∈ cs) as Hc by (apply Hsub; set_solver).
  apply state_value; [by eapply StronglySorted_app_1_l|set_solver|].
  intros w Hw Hwk. pose proof (wf_begin A Hwf c Hc).
  destruct (decide (w = c)) as [->|Hne].
  { apply NoDup_app in Hnd as (_ & Hnd & _). split; [|lia]. intros Hin.
    destruct (Hnd c Hin). set_solver. }
  split.
  - intros Hin. apply N.le_ngt. intros Hlt. specialize (Hb w Hin). unfold before in Hb.
    assert (position cs c < position cs w); [|lia].
    destruct Hk as [Hr|Hcw]; [by eapply position_rw|]. by apply (position_ww c w k).
  - intros Hle. assert (w ∈ pre ++ c :: rest) as Hin by by rewrite <- E, Hperm.
    apply elem_of_app in Hin as [?|[?|Hin]%elem_of_cons]; [done|done|].
    specialize (Ha w Hin). unfold before in Ha.
    assert (position cs w < position cs c) by (by apply position_disjoint). lia.
Qed.

Lemma replay_app l l' st : replay (l ++ l') st = st' ← replay l st; replay l' st'.
Proof.
  revert st. induction l as [|log l IH]; intros st; simpl; [done|].
  destruct (replay_log log st); simpl; auto.
Qed.

Lemma replay_prefix pre rest :
  serial_order cs = pre ++ rest → replay (c_log <$> pre) ∅ = Some (state pre).
Proof.
  revert rest. induction pre as [|c pre IH] using rev_ind; intros rest E; [done|].
  rewrite <- app_assoc in E. simpl in E. rewrite fmap_app, replay_app, (IH _ E). simpl.
  assert (c ∈ cs) as Hc.
  { rewrite <- (merge_sort_Permutation (before cs) cs). fold (serial_order cs). rewrite E. set_solver. }
  rewrite replay_log_ok.
  - simpl. unfold state. by rewrite foldl_app.
  - intros p e post El. pose proof (wf_log A Hwf c Hc p e post El) as Hev.
    assert (∀ k, (k ∈ c_reads c ∨ k ∈ c_writes c) → writes_of p !! k = None →
      state pre !! k = value_at cs k (c_begin c)) as Hval.
    { intros k Hk _. by apply (state_at_begin pre c rest k). }
    assert (∀ k, (writes_of p !! k = None → k ∈ c_reads c ∨ k ∈ c_writes c) →
      apply_writes (writes_of p) (state pre) !! k = si_value cs (c_begin c) p k) as Heq.
    { intros k Hk. rewrite apply_writes_lookup. unfold si_value.
      destruct (writes_of p !! k) as [x|] eqn:Ep; [done|]. auto. }
    destruct e as [k v|k [x|]]; simpl in Hev; [|done|]; rewrite Heq; try done; intros Hp.
    + left. unfold c_reads. rewrite El. by apply snapshot_reads_elem.
    + right. apply elem_of_dom. rewrite El. apply (elem_of_writes_of _ _ None). set_solver.
Qed.

Lemma serial_replay :
  serial_order cs ≡ₚ cs ∧
  ∃ st, replay (c_log <$> serial_order cs) ∅ = Some st ∧
    ∀ k s, (∀ c, c ∈ cs → c_ts c ≤ s) → st !! k = value_at cs k s.
Proof.
  assert (serial_order cs ≡ₚ cs) as Hperm by apply merge_sort_Permutation.
  split; [done|]. exists (state (serial_order cs)). split.
  - apply (replay_prefix _ []). by rewrite app_nil_r.
  - intros k s Hs. apply state_value; [apply StronglySorted_merge_sort; apply _| |].
    + intros c. by rewrite Hperm.
    + intros w Hw _. rewrite Hperm. naive_solver.
Qed.

End serial.
