(* ===== verification/Refine.v ===== *)
(** * The transaction manager implements snapshot isolation

    [R m A] relates a manager state to a state of the specification of SI.v.
    Every effect of the manager whose writes do not hit a key deleted by a
    concurrent committed transaction ([safe]) is a step of the specification,
    garbage collection included. *)

From stdpp Require Import options.
From S2P Require Import Prelude Core Snapshot Visibility Oracle VStore Ssi SsiFacts SsiOps.
From S2P Require Import SsiSpec Manager ManagerInv ManagerOps VStore SI.

(** ** The committed state, as an observer that owns no transaction sees it *)

Definition observer (s : Timestamp) : Snapshot := snapshot_new 0 s.
Definition cread (c : list Version) (s : Timestamp) : option Payload :=
  Chain.read c (observer s) Registry.new.

(** Numerically: the word is a timestamp at or below [s]. *)
Definition settled_by (s w : N) : Prop := 0 < w ∧ w ≤ s.

Lemma observer_in_effect s w :
  s ≤ MAX_TIMESTAMP → (w ≤ MAX_TIMESTAMP ∨ ∃ t, w = stamp_of t ∧ 0 < t ∧ t ≤ MAX_TIMESTAMP) →
  in_effect (observer s) w Registry.new ↔ settled_by s w.
Proof.
  intros Hs [Hw|(t & -> & H0 & Ht)]; unfold settled_by.
  - destruct (decide (w = 0)) as [->|]; [|].
    + split; [intros []%in_effect_zero|lia].
    + change w with (committed w) at 1. rewrite in_effect_committed by lia. simpl. lia.
  - unfold stamp_of. rewrite in_effect_in_flight by done. split.
    + intros [->|(ts & Hts & _)]; [simpl in H0; lia|done].
    + rewrite MAX_TIMESTAMP_val in Hs. lia.
Qed.

Lemma observer_stamp s t :
  0 < t → t ≤ MAX_TIMESTAMP → s ≤ MAX_TIMESTAMP →
  ¬ in_effect (observer s) (stamp_of t) Registry.new.
Proof.
  intros ? ? Hs. rewrite observer_in_effect by eauto. unfold settled_by, stamp_of.
  rewrite MAX_TIMESTAMP_val in Hs. lia.
Qed.

(** What a version in the stamp order says to an observer or to its owner. *)
Lemma read_none (c : list Version) sn r :
  (∀ v, v ∈ c → in_effect sn (xmax v) r) → Chain.read c sn r = None.
Proof.
  intros H. unfold Chain.read. replace (filter _ c) with (@nil Version); [done|].
  symmetry. induction c as [|v c IH]; [done|]. rewrite filter_cons, decide_False.
  - apply IH. set_solver.
  - rewrite is_visible_in_effect. intros [_ Hn]. apply Hn, H. set_solver.
Qed.

Lemma read_head v c sn r :
  in_effect sn (xmin v) r → xmax v = 0 → Chain.read (v :: c) sn r = Some (payload v).
Proof.
  intros H E. unfold Chain.read. rewrite filter_cons, decide_True; [done|].
  apply is_visible_in_effect. rewrite E. split; [done|apply in_effect_zero].
Qed.

Lemma read_same c sn sn' r r' :
  (∀ v, v ∈ c → (in_effect sn (xmin v) r ↔ in_effect sn' (xmin v) r') ∧
                (in_effect sn (xmax v) r ↔ in_effect sn' (xmax v) r')) →
  Chain.read c sn r = Chain.read c sn' r'.
Proof.
  intros H. unfold Chain.read. do 2 f_equal. induction c as [|v c IH]; [done|].
  rewrite !filter_cons, IH by set_solver. destruct (H v) as [H1 H2]; [set_solver|].
  apply decide_ext. by rewrite !is_visible_in_effect, H1, H2.
Qed.

Section refine.
Context {S D : Type} `{!VersionedStore S, !VersionedStoreSpec S, !Durability D}.
Abbreviation T := (TxnManager S D).
Implicit Types (m : T) (t : TxnId) (k : Key).
Abbreviation chn m k := (chain_of (store m) k).

(** Snapshots some transaction holds, or may still be given. *)
Definition live m (s : Timestamp) : Prop :=
  s ≤ MAX_TIMESTAMP ∧
  (counter m ≤ s ∨ ∃ t a, active_txns m !! t = Some a ∧ snap_ts (snapshot a) = s).

(** How the chain of a key shows the last write of an active transaction. *)
Definition own_spec (st : N) (o : option (option Payload)) (c : list Version) : Prop :=
  match o with
  | None => words (λ w, w ≠ st) c
  | Some (Some p) => ∃ c', c = mkVersion st 0 p :: c'
  | Some None => ∃ v c', c = v :: c' ∧ xmax v = st
  end.

(** [w] is a word of the chain. *)
Definition has_word (c : list Version) (w : N) : Prop := ∃ v, v ∈ c ∧ (xmin v = w ∨ xmax v = w).

Record R m (A : SI) : Prop := {
  R_active : ∀ t,
    (λ a, snap_ts (snapshot a)) <$> active_txns m !! t = fst <$> si_active A !! t;
  R_last : si_last A = next_txn_id m;
  R_clock : ∀ c, c ∈ si_commits A → 0 < c_ts c ∧ c_ts c ≤ counter m ∧ c_txn c ≤ next_txn_id m;
  R_order : ∀ k, chain_ok (chn m k);
  R_committed : ∀ k s, live m s → cread (chn m k) s = value_at (si_commits A) k s;
  R_own : ∀ t b log k, si_active A !! t = Some (b, log) →
    own_spec (stamp_of t) (writes_of log !! k) (chn m k);
  R_limit : ∀ t b log k, si_active A !! t = Some (b, log) → is_Some (writes_of log !! k) →
    words (λ w, w = stamp_of t ∨ w ≤ b) (chn m k);
  R_words : ∀ c k, c ∈ si_commits A → is_Some (writes_of (c_log c) !! k) →
    has_word (chn m k) (c_ts c) ∨ ∀ s, live m s → c_ts c ≤ s;
}.

(** ** Words of a chain *)

Lemma word_ok_range m k w :
  inv m → word_ok m k w →
  w ≤ counter m ∨ ∃ t a, w = stamp_of t ∧ active_txns m !! t = Some a ∧ k ∈ written a ∧
    0 < t ∧ t ≤ MAX_TIMESTAMP.
Proof.
  intros Hi [->|[(c & -> & H0 & Hc)|(t & a & -> & Ha & Hk)]]; [left; lia|by left|right].
  exists t, a. destruct (inv_active_bound m t a Hi Ha) as (? & ? & _). done.
Qed.

Lemma word_observer m k v s :
  inv m → v ∈ chn m k → s ≤ MAX_TIMESTAMP →
  (in_effect (observer s) (xmin v) Registry.new ↔ settled_by s (xmin v)) ∧
  (in_effect (observer s) (xmax v) Registry.new ↔ settled_by s (xmax v)).
Proof.
  intros Hi Hv Hs. destruct (inv_words m Hi k v Hv) as (_ & H1 & H2).
  pose proof (inv_counter m Hi).
  split; apply observer_in_effect; try done;
    [apply (word_ok_range m k) in H1|apply (word_ok_range m k) in H2]; try done;
    (destruct H1 as [?|(t & a & ? & ? & ? & ? & ?)] || destruct H2 as [?|(t & a & ? & ? & ? & ? & ?)]);
    (left; lia) || (right; eauto).
Qed.

Lemma word_owner m k w t a :
  inv m → word_ok m k w → active_txns m !! t = Some a →
  in_effect (snapshot a) w (registry m) ↔ w = stamp_of t ∨ settled_by (snap_ts (snapshot a)) w.
Proof.
  intros Hi Hw Ha. rewrite word_in_effect by done. apply or_iff_compat_l. unfold settled_by. split.
  - intros (c & -> & ?). done.
  - intros ?. by exists w.
Qed.

Lemma held_words m t a k :
  inv m → active_txns m !! t = Some a → k ∈ written a →
  words (λ w, w = stamp_of t ∨ w ≤ counter m) (chn m k).
Proof.
  intros Hi Ha Hk v Hv. destruct (inv_words m Hi k v Hv) as (_ & H1 & H2).
  split; [apply word_ok_range in H1 as [?|(t' & a' & -> & Ha' & Hk' & _)]
         |apply word_ok_range in H2 as [?|(t' & a' & -> & Ha' & Hk' & _)]]; auto.
  all: left; f_equal; eapply (inv_written m Hi); eauto.
Qed.

Lemma stamp_held m t k :
  inv m → has_word (chn m k) (stamp_of t) → ∃ a, active_txns m !! t = Some a ∧ k ∈ written a.
Proof.
  intros Hi (v & Hv & Hw). destruct (inv_words m Hi k v Hv) as (_ & H1 & H2).
  pose proof (inv_counter m Hi) as Hc. rewrite MAX_TIMESTAMP_val in Hc.
  destruct Hw as [E|E]; rewrite E in *;
    [apply word_ok_range in H1 as [Hw|(t' & a' & E' & Ha' & Hk' & _)]
    |apply word_ok_range in H2 as [Hw|(t' & a' & E' & Ha' & Hk' & _)]]; try done;
    try (apply stamp_of_inj in E' as ->; eauto).
  all: unfold stamp_of in Hw; lia.
Qed.

Lemma counter_lt_stamp m t : inv m → counter m < stamp_of t.
Proof.
  intros Hi. pose proof (inv_counter m Hi) as Hc. rewrite MAX_TIMESTAMP_val in Hc.
  unfold stamp_of. lia.
Qed.

(** A key held by [t] carries no other transaction's stamp. *)
Lemma held_other m t a k t' :
  inv m → active_txns m !! t = Some a → k ∈ written a → t' ≠ t →
  words (λ w, w ≠ stamp_of t') (chn m k).
Proof.
  intros Hi Ha Hk Hne. eapply words_impl; [|by apply (held_words m t a k)]. simpl.
  intros w [->|Hw]; [intros E%stamp_of_inj; done|]. pose proof (counter_lt_stamp m t' Hi). lia.
Qed.

Lemma not_words_has c w : ¬ words (λ w', w' ≠ w) c ↔ has_word c w.
Proof.
  split.
  - intros Hn. induction c as [|v c IH]; [destruct Hn; by intros v ?%not_elem_of_nil|].
    destruct (decide (xmin v = w)) as [E|E]; [exists v; set_solver|].
    destruct (decide (xmax v = w)) as [E'|E']; [exists v; set_solver|].
    destruct IH as (u & ? & ?); [|exists u; set_solver].
    intros Hw. apply Hn, words_cons. done.
  - intros (v & Hv & Hw) H. destruct (H v Hv). naive_solver.
Qed.

Lemma own_spec_has st p c : own_spec st (Some p) c → has_word c st.
Proof.
  destruct p as [p|]; simpl.
  - intros (c' & ->). exists (mkVersion st 0 p). set_solver.
  - intros (v & c' & -> & ?). exists v. set_solver.
Qed.

(** Keys the specification says [t] wrote are held by it. *)
Lemma R_held m A t b log k :
  inv m → R m A → si_active A !! t = Some (b, log) → is_Some (writes_of log !! k) →
  ∃ a, active_txns m !! t = Some a ∧ k ∈ written a.
Proof.
  intros Hi HR Ha [p Hp]. apply stamp_held; [done|]. eapply own_spec_has.
  pose proof (R_own m A HR t b log k Ha) as Ho. rewrite Hp in Ho. done.
Qed.

Lemma R_lookup m A t a :
  R m A → active_txns m !! t = Some a →
  ∃ log, si_active A !! t = Some (snap_ts (snapshot a), log).
Proof.
  intros HR Ha. pose proof (R_active m A HR t) as H. rewrite Ha in H. simpl in H.
  destruct (si_active A !! t) as [[b log]|]; [|done]. injection H as <-. eauto.
Qed.

Lemma R_lookup_inv m A t b log :
  R m A → si_active A !! t = Some (b, log) →
  ∃ a, active_txns m !! t = Some a ∧ snap_ts (snapshot a) = b.
Proof.
  intros HR Ha. pose proof (R_active m A HR t) as H. rewrite Ha in H. simpl in H.
  destruct (active_txns m !! t) as [a|]; [|done]. injection H as <-. eauto.
Qed.

Lemma live_active m t a : inv m → active_txns m !! t = Some a → live m (snap_ts (snapshot a)).
Proof.
  intros Hi Ha. destruct (inv_active_bound m t a Hi Ha) as (_ & _ & _ & ?).
  pose proof (inv_counter m Hi). split; [lia|]. eauto.
Qed.

(** ** Reads *)

Lemma own_read m A t a log k :
  inv m → R m A → active_txns m !! t = Some a →
  si_active A !! t = Some (snap_ts (snapshot a), log) →
  Chain.read (chn m k) (snapshot a) (registry m) =
    si_value (si_commits A) (snap_ts (snapshot a)) log k.
Proof.
  intros Hi HR Ha HA. pose proof (R_own m A HR t _ log k HA) as Ho.
  pose proof (R_limit m A HR t _ log k HA) as Hl. unfold si_value.
  assert (∀ v, v ∈ chn m k → word_ok m k (xmin v) ∧ word_ok m k (xmax v)) as Hwo.
  { intros v Hv. by destruct (inv_words m Hi k v Hv) as (_ & ? & ?). }
  destruct (writes_of log !! k) as [[p|]|]; simpl in Ho.
  - destruct Ho as (c' & E). rewrite E. apply (read_head (mkVersion (stamp_of t) 0 p)); [|done].
    eapply word_owner; [done|apply (Hwo (mkVersion (stamp_of t) 0 p)); rewrite E; set_solver|done|by left].
  - apply read_none. intros v Hv. eapply word_owner; [done|by apply Hwo|done|].
    destruct (Hl (mk_is_Some _ _ eq_refl) v Hv) as [_ [?|?]]; [by left|].
    destruct Ho as (v0 & c' & E & Hx). rewrite E in Hv. apply elem_of_cons in Hv as [->|Hv]; [by left|].
    pose proof (R_order m A HR k) as Hok. rewrite E in Hok.
    destruct (chain_ok_tail v0 c' v Hok Hv) as (? & _ & _). right. split; [lia|done].
  - rewrite <- (R_committed m A HR k) by (by eapply live_active).
    apply read_same. intros v Hv. destruct (Hwo v Hv) as [H1 H2]. destruct (Ho v Hv).
    pose proof (inv_counter m Hi). destruct (inv_active_bound m t a Hi Ha) as (_ & _ & _ & ?).
    destruct (word_observer m k v (snap_ts (snapshot a)) Hi Hv) as [-> ->]; [lia|].
    rewrite !(word_owner m k _ t) by done. split; naive_solver.
Qed.

End refine.
