(* ===== verification/RefineSteps.v ===== *)
(** * The transaction manager implements snapshot isolation: the simulation

    One lemma per kind of effect, then the forward simulation. *)

From stdpp Require Import options.
From S2P Require Import Prelude Core Snapshot Visibility Oracle VStore Ssi SsiFacts SsiOps.
From S2P Require Import SsiSpec Manager ManagerInv ManagerOps VStore SI Refine.

Section steps.
Context {S D : Type} `{!VersionedStore S, !VersionedStoreSpec S, !Durability D}.
Abbreviation T := (TxnManager S D).
Implicit Types (m : T) (t : TxnId) (k : Key).
Abbreviation chn m k := (chain_of (store m) k).

(** The write does not hit a key a concurrent transaction has deleted. *)
Definition safe m (l : Label) : Prop :=
  match l with
  | LWrite t k _ => ∀ a v, active_txns m !! t = Some a → head (chn m k) = Some v →
      xmax v ≤ counter m → xmax v ≤ snap_ts (snapshot a)
  | _ => True
  end.

(** *** Steps that change neither chains nor snapshots *)

Lemma live_mono m m' s :
  counter m ≤ counter m' →
  (∀ t a, active_txns m' !! t = Some a → live m (snap_ts (snapshot a))) →
  live m' s → live m s.
Proof.
  intros Hc Ha [Hs [H|(t & a & Hat & <-)]]; [split; [done|left; lia]|eauto].
Qed.

Lemma R_quiet m m' A :
  R m A → counter m ≤ counter m' → next_txn_id m' = next_txn_id m →
  (∀ k, chn m' k = chn m k) →
  (∀ t, (λ a, snap_ts (snapshot a)) <$> active_txns m' !! t =
        (λ a, snap_ts (snapshot a)) <$> active_txns m !! t) →
  R m' A.
Proof.
  intros [Ra Rla Rc Ro Rcm Row Rl Rw] Hc Hn Hch Hact.
  assert (∀ s, live m' s → live m s) as Hlive.
  { intros s [Hs [H|(t & a & Ha & <-)]]; (split; [done|]); [left; lia|right].
    specialize (Hact t). rewrite Ha in Hact. symmetry in Hact.
    apply fmap_Some in Hact as (a' & ? & ?). eauto. }
  split.
  - intros t. by rewrite Hact.
  - by rewrite Hn.
  - intros c H. rewrite Hn. destruct (Rc c H) as (? & ? & ?). repeat split; [lia|lia|done].
  - intros k. by rewrite Hch.
  - intros k s Hs. rewrite Hch. eauto.
  - intros t b log k. rewrite Hch. eauto.
  - intros t b log k. rewrite Hch. eauto.
  - intros c k H1 H2. rewrite Hch. destruct (Rw c k H1 H2); eauto.
Qed.

(** *** Begin *)

Lemma R_begin m A now iso :
  inv m → R m A → next_txn_id m < MAX_TIMESTAMP → counter m < MAX_TIMESTAMP →
  let t := next_txn_id m + 1 in let b := counter m + 1 in
  R (begin_post m now iso t b) (mkSI (si_commits A) (<[t := (b, [])]> (si_active A)) t).
Proof.
  intros Hi [Ra Rla Rc Ro Rcm Row Rl Rw] Hn Hc t b.
  assert (∀ s, live (begin_post m now iso t b) s → live m s) as Hlive.
  { intros s. apply live_mono; [unfold counter at 2; simpl; lia|]. simpl.
    intros t' a [[<- <-]|[_ Ha]]%lookup_insert_Some; [|by eapply live_active].
    split; [simpl; lia|left; simpl; lia]. }
  split; simpl; try done.
  - intros t'. destruct (decide (t' = t)) as [->|]; [by rewrite !lookup_insert_eq|].
    rewrite !lookup_insert_ne by done. auto.
  - intros c Hin. destruct (Rc c Hin) as (? & ? & ?). unfold counter at 1; simpl. repeat split; lia.
  - intros k s Hs. eauto.
  - intros t' b' log k [[<- [= <- <-]]|[_ Ha]]%lookup_insert_Some; [|eauto].
    change (writes_of [] !! k) with (@None (option Payload)). intros v Hv. apply dec_stable. intros Hne.
    destruct (stamp_held m t k Hi) as (a & Ha & _).
    { exists v. split; [done|]. destruct (decide (xmin v = stamp_of t)); [by left|].
      destruct (decide (xmax v = stamp_of t)); [by right|]. by destruct Hne. }
    destruct (inv_active m Hi t a Ha) as (_ & _ & ?). lia.
  - intros t' b' log k [[<- [= <- <-]]|[_ Ha]]%lookup_insert_Some; [by intros []|eauto].
  - intros c k H1 H2. destruct (Rw c k H1 H2); eauto.
Qed.

Lemma begin_step m A iso :
  inv m → R m A →
  let t := next_txn_id m + 1 in let b := counter m + 1 in
  si_step A (LBegin t b iso) (mkSI (si_commits A) (<[t := (b, [])]> (si_active A)) t).
Proof.
  intros Hi HR t b. constructor.
  - rewrite (R_last m A HR). lia.
  - intros c Hc. destruct (R_clock m A HR c Hc). lia.
  - intros t' b' log' Ha. destruct (R_lookup_inv m A t' b' log' HR Ha) as (a & Hat & <-).
    destruct (inv_active m Hi t' a Hat) as (_ & _ & ?).
    destruct (inv_active_bound m t' a Hi Hat) as (_ & _ & _ & ?). lia.
Qed.

(** *** Reads and writes *)

Lemma R_add_event m m' A t b log e :
  R m A → counter m' = counter m → next_txn_id m' = next_txn_id m →
  active_txns m' = active_txns m → si_active A !! t = Some (b, log) →
  (∀ k, chain_ok (chn m' k)) →
  (∀ k s, live m s → cread (chn m' k) s = cread (chn m k) s) →
  (∀ t' b' log' k, <[t := (b, log ++ [e])]> (si_active A) !! t' = Some (b', log') →
     own_spec (stamp_of t') (writes_of log' !! k) (chn m' k) ∧
     (is_Some (writes_of log' !! k) → words (λ w, w = stamp_of t' ∨ w ≤ b') (chn m' k))) →
  (∀ k w, w ≠ 0 → has_word (chn m k) w → has_word (chn m' k) w) →
  R m' (add_event A t b log e).
Proof.
  intros [Ra Rla Rc Ro Rcm Row Rl Rw] Ec En Ea HA Ho Hcr Hown Hw.
  assert (∀ s, live m' s → live m s) as Hlive.
  { intros s. unfold live. by rewrite Ec, Ea. }
  split; simpl.
  - intros t'. rewrite Ea, Ra. destruct (decide (t' = t)) as [->|];
      [by rewrite lookup_insert_eq, HA|by rewrite lookup_insert_ne].
  - by rewrite En.
  - by rewrite Ec, En.
  - done.
  - intros k s Hs. rewrite Hcr by auto. auto.
  - intros t' b' log' k Ha. by apply (Hown t' b' log' k).
  - intros t' b' log' k Ha. by apply (Hown t' b' log' k).
  - intros c k H1 H2. destruct (Rc c H1). destruct (Rw c k H1 H2); [left; apply Hw; [lia|done]|eauto].
Qed.

Lemma R_read m A t a log k v s' :
  R m A → active_txns m !! t = Some a → si_active A !! t = Some (snap_ts (snapshot a), log) →
  R (set_ssi s' m) (add_event A t (snap_ts (snapshot a)) log (ERead k v)).
Proof.
  intros HR Ha HA. apply (R_add_event m); try done.
  - intros k'. apply (R_order m A HR).
  - intros t' b' log' k' [[<- [= <- <-]]|[_ Ha']]%lookup_insert_Some.
    + rewrite writes_of_read.
      split; [exact (R_own m A HR _ _ _ k' HA)|exact (R_limit m A HR _ _ _ k' HA)].
    + split; [exact (R_own m A HR _ _ _ k' Ha')|exact (R_limit m A HR _ _ _ k' Ha')].
Qed.

(** What creating or expiring a version has in common. *)
Record writes_chain (st : N) (v : option Payload) (c c' : list Version) : Prop := {
  wc_ok : chain_ok c';
  wc_read : ∀ s, ¬ in_effect (observer s) st Registry.new → cread c' s = cread c s;
  wc_own : own_spec st (Some v) c';
  wc_words : ∀ w, has_word c' w → w = 0 ∨ w = st ∨ has_word c w;
  wc_keep : ∀ w, w ≠ 0 → has_word c w → has_word c' w;
}.

Lemma has_word_cons v c w : has_word (v :: c) w ↔ xmin v = w ∨ xmax v = w ∨ has_word c w.
Proof.
  unfold has_word. setoid_rewrite elem_of_cons. split.
  - intros (u & [->|?] & [?|?]); eauto 8.
  - intros [?|[?|(u & ? & ?)]]; [exists v|exists v|exists u]; auto.
Qed.

Lemma has_word_nil w : ¬ has_word [] w.
Proof. by intros (v & ?%not_elem_of_nil & _). Qed.

Lemma create_writes st p c :
  st ≠ 0 → words (λ w, w ≤ st) c → chain_ok c → writes_chain st (Some p) c (Chain.create st p c).
Proof.
  intros H0 Hw Hc. split.
  - by apply create_ok.
  - intros s Hs. unfold cread. by apply ChainFacts.create_other.
  - simpl. by eexists.
  - intros w. unfold Chain.create. destruct c as [|v c]; rewrite !has_word_cons; simpl; [naive_solver|].
    destruct (N.eqb_spec (xmax v) 0); simpl; naive_solver.
  - intros w Hn. unfold Chain.create. destruct c as [|v c]; [by intros ?%has_word_nil|].
    rewrite !has_word_cons; simpl.
    destruct (N.eqb_spec (xmax v) 0); simpl; naive_solver.
Qed.

Lemma expire_writes st c c' :
  words (λ w, w ≤ st) c → chain_ok c → Chain.expire st c = Some c' → writes_chain st None c c'.
Proof.
  intros Hw Hc He. split.
  - by eapply expire_ok.
  - intros s Hs. unfold cread. by eapply ChainFacts.expire_other.
  - destruct c as [|v c]; [done|]. simpl in He. destruct (xmax v =? 0); [|done].
    injection He as <-. simpl. by do 2 eexists.
  - intros w. destruct c as [|v c]; [done|]. simpl in He. destruct (N.eqb_spec (xmax v) 0); [|done].
    injection He as <-. rewrite !has_word_cons; simpl. naive_solver.
  - intros w Hn. destruct c as [|v c]; [done|]. simpl in He. destruct (N.eqb_spec (xmax v) 0); [|done].
    injection He as <-. rewrite !has_word_cons; simpl. naive_solver.
Qed.

Lemma words_has (P : N → Prop) c : words P c ↔ ∀ w, has_word c w → P w.
Proof.
  split.
  - intros H w (v & Hv & [<-|<-]); by apply H.
  - intros H v Hv. split; apply H; exists v; auto.
Qed.

(** The guards of a safe write bound every timestamp in the chain. *)
Lemma guarded_words m A t a log k v :
  inv m → R m A → active_txns m !! t = Some a → k ∈ written a → fcw_ok m a k →
  safe m (LWrite t k v) → si_active A !! t = Some (snap_ts (snapshot a), log) →
  words (λ w, w = stamp_of t ∨ w ≤ snap_ts (snapshot a)) (chn m k).
Proof.
  intros Hi HR Ha Hk Hf Hs HA. pose proof (R_own m A HR t _ log k HA) as Hown.
  pose proof (R_limit m A HR t _ log k HA) as Hlim.
  destruct (writes_of log !! k) as [p|]; [by apply Hlim|]. simpl in Hown.
  pose proof (held_words m t a k Hi Ha Hk) as Hw.
  pose proof (R_order m A HR k) as Hok. pose proof (inv_counter m Hi) as Hcm.
  pose proof (inv_words m Hi k) as Hiw. specialize (Hs a). unfold fcw_ok in Hf.
  destruct (chn m k) as [|u c] eqn:E; [by intros u ?%not_elem_of_nil|].
  apply words_cons in Hw as (H1 & H2 & _). apply words_cons in Hown as (N1 & N2 & _).
  destruct (Hiw u) as (Hnz & _ & _); [set_solver|].
  assert (xmin u ≤ snap_ts (snapshot a)) as Hmin.
  { destruct H1 as [?|H1]; [done|]. apply (Hf u (xmin u)); [done|].
    apply from_raw_committed; lia. }
  apply words_cons. split; [by right|]. split.
  { destruct H2 as [?|H2]; [by left|right]. by apply (Hs u). }
  intros v' Hv'. destruct (chain_ok_tail u c v' Hok Hv') as (_ & ? & ?). split; right; lia.
Qed.

Lemma write_chain_step m A t a log k v s' ss' c' :
  inv m → R m A → active_txns m !! t = Some a → k ∈ written a → fcw_ok m a k →
  safe m (LWrite t k v) → si_active A !! t = Some (snap_ts (snapshot a), log) →
  writes_chain (stamp_of t) v (chn m k) c' →
  event_ok (si_commits A) (snap_ts (snapshot a)) log (EWrite k v) →
  (∀ k', chain_of s' k' = if decide (k' = k) then c' else chn m k') →
  si_step A (LWrite t k v) (add_event A t (snap_ts (snapshot a)) log (EWrite k v)) ∧
  R (set_ssi ss' (set_store s' m)) (add_event A t (snap_ts (snapshot a)) log (EWrite k v)).
Proof.
  intros Hi HR Ha Hk Hf Hs HA [Wok Wr Wown Ww Wk] Hev Hch.
  pose proof (guarded_words m A t a log k v Hi HR Ha Hk Hf Hs HA) as Hgw.
  destruct (inv_active_bound m t a Hi Ha) as (Ht0 & Htm & _ & Hsc).
  split.
  { constructor; [done|done| |].
    - intros c Hc Hck. destruct (R_words m A HR c k Hc Hck) as [Hh|Hl].
      + apply words_has with (w := c_ts c) in Hgw; [|done]. destruct Hgw as [E|]; [|done].
        destruct (R_clock m A HR c Hc) as (_ & ? & _). pose proof (counter_lt_stamp m t Hi). lia.
      + apply Hl. by eapply live_active.
    - intros t' b' log' HA' Hck. destruct (R_held m A t' b' log' k Hi HR HA' Hck) as (a' & ? & ?).
      by eapply (inv_written m Hi). }
  apply (R_add_event m); try done.
  - intros k'. simpl. rewrite Hch. case_decide; [done|apply (R_order m A HR)].
  - intros k' s Hlv. simpl. rewrite Hch. case_decide; [subst|done]. apply Wr.
    apply observer_stamp; try done. apply Hlv.
  - intros t' b' log' k'. simpl. rewrite Hch. intros [[<- [= <- <-]]|[Hne Ha']]%lookup_insert_Some.
    + rewrite writes_of_write. destruct (decide (k' = k)) as [->|Hk'].
      * rewrite lookup_insert_eq. split; [done|]. intros _. apply words_has.
        intros w [->|[->|Hw]]%Ww; [right; lia|by left|]. by apply (words_has _ _) with (w := w) in Hgw.
      * rewrite lookup_insert_ne by done. split; [by eapply R_own|by eapply R_limit].
    + destruct (decide (k' = k)) as [->|Hk']; [|split; [by eapply R_own|by eapply R_limit]].
      destruct (writes_of log' !! k) as [p|] eqn:Ep.
      { destruct (R_held m A t' b' log' k Hi HR Ha') as (a' & ? & ?); [by rewrite Ep|].
        destruct Hne. by eapply (inv_written m Hi). }
      split; [|by intros []]. simpl. apply words_has. intros w [->|[->|Hw]]%Ww.
      * apply not_eq_sym, stamp_of_nonzero.
      * intros E%stamp_of_inj. done.
      * pose proof (held_other m t a k t' Hi Ha Hk (not_eq_sym Hne)) as Ho.
        by apply (words_has _ _) with (w := w) in Ho.
  - intros k' w Hw0. simpl. rewrite Hch. case_decide; [subst; by apply Wk|done].
Qed.

(** *** Leaving the active table *)

(** What an abort or a commit of [t] has to show to re-establish [R]. *)
Lemma R_finish m m' A t cs' :
  inv m → R m A → active_txns m' = delete t (active_txns m) →
  counter m ≤ counter m' → next_txn_id m' = next_txn_id m →
  (∀ c, c ∈ cs' → 0 < c_ts c ∧ c_ts c ≤ counter m' ∧ c_txn c ≤ next_txn_id m') →
  (∀ k, chain_ok (chn m' k)) →
  (∀ k s, live m' s → cread (chn m' k) s = value_at cs' k s) →
  (** a key some other transaction wrote keeps its chain *)
  (∀ k, words (λ w, w ≠ stamp_of t) (chn m k) → chn m' k = chn m k) →
  (∀ k t', t' ≠ t → words (λ w, w ≠ stamp_of t') (chn m k) →
     words (λ w, w ≠ stamp_of t') (chn m' k)) →
  (∀ c k, c ∈ cs' → is_Some (writes_of (c_log c) !! k) →
     has_word (chn m' k) (c_ts c) ∨ ∀ s, live m' s → c_ts c ≤ s) →
  R m' (mkSI cs' (delete t (si_active A)) (si_last A)).
Proof.
  intros Hi HR Ea Hc Hn Hcl Hok Hcr Hid Hst Hw. split; simpl; try done.
  - intros t'. rewrite Ea, !lookup_delete. case_decide; [done|]. apply (R_active m A HR).
  - rewrite Hn. apply (R_last m A HR).
  - intros t' b log k [Hne Ha]%lookup_delete_Some. pose proof (R_own m A HR t' b log k Ha) as Ho.
    destruct (writes_of log !! k) as [p|] eqn:Ep; [|simpl in *; auto].
    rewrite Hid; [done|]. destruct (R_held m A t' b log k Hi HR Ha) as (a' & ? & ?); [by rewrite Ep|].
    eapply held_other; eauto.
  - intros t' b log k [Hne Ha]%lookup_delete_Some Hk.
    destruct (R_held m A t' b log k Hi HR Ha Hk) as (a' & ? & ?).
    rewrite Hid; [by eapply R_limit|]. eapply held_other; eauto.
Qed.

Lemma live_leave m m' t s :
  inv m → active_txns m' = delete t (active_txns m) → counter m ≤ counter m' → live m' s → live m s.
Proof.
  intros Hi Ea Hc. apply live_mono; [done|]. rewrite Ea. intros t' a [_ Ha]%lookup_delete_Some.
  by eapply live_active.
Qed.

(** Words of a chain held by [t] are at most its stamp. *)
Lemma held_le m t a k :
  inv m → active_txns m !! t = Some a → k ∈ written a → words (λ w, w ≤ stamp_of t) (chn m k).
Proof.
  intros Hi Ha Hk. eapply words_impl; [|by apply (held_words m t a k)]. simpl.
  pose proof (counter_lt_stamp m t Hi). lia.
Qed.

(** A chain either lacks [t]'s stamp or is held by [t]. *)
Lemma stamp_cases m t k :
  inv m → words (λ w, w ≠ stamp_of t) (chn m k) ∨
    ∃ a, active_txns m !! t = Some a ∧ k ∈ written a.
Proof.
  intros Hi. destruct (decide (Forall (λ v, xmin v ≠ stamp_of t ∧ xmax v ≠ stamp_of t) (chn m k))) as [H|H].
  - left. intros v Hv. by rewrite Forall_forall in H; apply H.
  - right. apply stamp_held; [done|]. apply not_words_has. intros Hw. apply H, Forall_forall. exact Hw.
Qed.

Lemma abort_has_word st c w :
  w ≠ st → w ≠ 0 → chain_ok c → words (λ w, w ≤ st) c →
  has_word (Chain.abort st c) w ↔ has_word c w.
Proof.
  intros Hne H0 Hok Hle. split.
  - intros (v & (v0 & Hv0 & Hm & ->)%elem_of_chain_abort & Hw). exists v0. split; [done|].
    simpl in Hw. unfold settle in Hw. destruct (N.eqb_spec (xmax v0) st); naive_solver.
  - intros (v & Hv & Hw). exists (Chain.revert_version st v). split.
    + apply elem_of_chain_abort. exists v. split; [done|]. split; [|done]. intros E.
      destruct Hw as [Hw|Hw]; [congruence|].
      assert (xmin v ≤ xmax v) as Hxx.
      { destruct c as [|u c]; [by apply not_elem_of_nil in Hv|].
        apply elem_of_cons in Hv as [->|Hv].
        - destruct Hok as [[?|?] _]; [congruence|done].
        - by destruct (chain_ok_tail u c v Hok Hv) as (_ & ? & _). }
      destruct (Hle v Hv) as [_ ?]. lia.
    + simpl. unfold settle. destruct (N.eqb_spec (xmax v) st); naive_solver.
Qed.

Lemma R_abort m A t a s' :
  inv m → R m A → active_txns m !! t = Some a →
  (∀ k, chain_of s' k = Chain.abort (stamp_of t) (chn m k)) →
  R (abort_post m t a s') (mkSI (si_commits A) (delete t (si_active A)) (si_last A)).
Proof.
  intros Hi HR Ha Hch. destruct (inv_active_bound m t a Hi Ha) as (Ht0 & Htm & _ & _).
  assert (counter (abort_post m t a s') = counter m) as Hcnt
    by (unfold counter; simpl; by rewrite Oracle.release_counter).
  assert (∀ s, live (abort_post m t a s') s → live m s) as Hlive.
  { intros s. by apply (live_leave m _ t); [|done|rewrite Hcnt]. }
  apply (R_finish m); try done; simpl.
  - by rewrite Hcnt.
  - rewrite Hcnt. apply (R_clock m A HR).
  - intros k. rewrite Hch. destruct (stamp_cases m t k Hi) as [Hw|(a' & Ha' & Hk)].
    + rewrite abort_id by done. apply (R_order m A HR).
    + apply abort_ok; [apply stamp_of_nonzero|by eapply held_le|apply (R_order m A HR)].
  - intros k s Hs. rewrite Hch, <- (R_committed m A HR) by auto.
    apply ChainFacts.abort_other, observer_stamp; try done. by apply Hlive.
  - intros k Hw. rewrite Hch. by apply abort_id.
  - intros k t' Hne Hw. rewrite Hch. intros v (v0 & Hv0 & _ & ->)%elem_of_chain_abort.
    destruct (Hw v0 Hv0). simpl. split; [done|]. unfold settle.
    destruct (xmax v0 =? stamp_of t); [apply not_eq_sym, stamp_of_nonzero|done].
  - intros c k Hc Hk. destruct (R_words m A HR c k Hc Hk) as [Hw|Hl]; [left|right; eauto].
    rewrite Hch. destruct (R_clock m A HR c Hc) as (? & ? & _). pose proof (counter_lt_stamp m t Hi).
    destruct (stamp_cases m t k Hi) as [Hn|(a' & Ha' & Hk')]; [by rewrite abort_id|].
    apply abort_has_word; try done; try lia; [apply (R_order m A HR)|by eapply held_le].
Qed.

(** *** Commit *)

Lemma elem_of_chain_commit st cw c v :
  v ∈ Chain.commit st cw c ↔ ∃ v0, v0 ∈ c ∧ v = Chain.settle_version st cw v0.
Proof. unfold Chain.commit. rewrite list_elem_of_fmap. naive_solver. Qed.

Lemma commit_has_word st cw c w :
  has_word (Chain.commit st cw c) w ↔ ∃ w0, has_word c w0 ∧ w = settle st cw w0.
Proof.
  split.
  - intros (v & (v0 & Hv0 & ->)%elem_of_chain_commit & [<-|<-]); simpl; eexists;
      (split; [|done]); exists v0; auto.
  - intros (w0 & (v0 & Hv0 & Hw0) & ->). exists (Chain.settle_version st cw v0). split.
    + apply elem_of_chain_commit. eauto.
    + simpl. destruct Hw0 as [<-|<-]; auto.
Qed.

Lemma settle_ne st cw w : w ≠ st → settle st cw w = w.
Proof. unfold settle. by destruct (N.eqb_spec w st). Qed.

Lemma settle_eq st cw : settle st cw st = cw.
Proof. unfold settle. by rewrite N.eqb_refl. Qed.

Lemma commit_chain_ok m t a k ts :
  inv m → active_txns m !! t = Some a → k ∈ written a → counter m < ts → chain_ok (chn m k) →
  chain_ok (Chain.commit (stamp_of t) ts (chn m k)).
Proof.
  intros Hi Ha Hk Hts Hok. pose proof (counter_lt_stamp m t Hi).
  apply (map_ok (settle (stamp_of t) ts) (λ w, w = stamp_of t ∨ w ≤ counter m)).
  - intros w w' Hw Hw' Hle. unfold settle.
    destruct (N.eqb_spec w (stamp_of t)), (N.eqb_spec w' (stamp_of t)); lia.
  - intros w. unfold settle. destruct (N.eqb_spec w (stamp_of t)) as [->|]; [|done].
    pose proof (stamp_of_nonzero t). lia.
  - by eapply held_words.
  - done.
Qed.

(** The committed state after the commit, seen by a later snapshot. *)
Lemma commit_cread m A t a log k ts s :
  inv m → R m A → active_txns m !! t = Some a →
  si_active A !! t = Some (snap_ts (snapshot a), log) →
  counter m < ts → ts ≤ s → s ≤ MAX_TIMESTAMP →
  cread (Chain.commit (stamp_of t) ts (chn m k)) s =
    default (value_at (si_commits A) k s) (writes_of log !! k).
Proof.
  intros Hi HR Ha HA Hts Hs Hm. pose proof (R_own m A HR t _ log k HA) as Ho.
  destruct (writes_of log !! k) as [p|] eqn:Ep; simpl in *.
  2:{ rewrite commit_id by done. apply (R_committed m A HR). split; [done|left; lia]. }
  destruct (R_held m A t _ log k Hi HR HA) as (a' & Ha' & Hk); [by rewrite Ep|]. simplify_eq.
  destruct p as [p|].
  - destruct Ho as (c' & ->). unfold Chain.commit. rewrite fmap_cons.
    unfold Chain.settle_version at 1. simpl. rewrite settle_eq, settle_ne by apply not_eq_sym, stamp_of_nonzero.
    apply (read_head (mkVersion ts 0 p)); [|done]. simpl.
    apply observer_in_effect; [done|left; lia|]. split; lia.
  - destruct Ho as (v0 & c' & E & Hx). apply read_none.
    intros v (u & Hu & ->)%elem_of_chain_commit. simpl.
    pose proof (counter_lt_stamp m t Hi). pose proof (inv_counter m Hi).
    destruct (held_words m t a k Hi Ha Hk u Hu) as [_ Hw]. unfold settle.
    assert (xmax u ≠ 0) as Hnz.
    { rewrite E in Hu. apply elem_of_cons in Hu as [->|Hu]; [rewrite Hx; apply stamp_of_nonzero|].
      pose proof (R_order m A HR k) as Hok. rewrite E in Hok.
      by destruct (chain_ok_tail v0 c' u Hok Hu) as (? & _). }
    destruct (N.eqb_spec (xmax u) (stamp_of t)); apply observer_in_effect; try done;
      try (left; lia); split; lia.
Qed.

Lemma R_commit m A t a log d s' :
  inv m → R m A → active_txns m !! t = Some a → counter m < MAX_TIMESTAMP →
  si_active A !! t = Some (snap_ts (snapshot a), log) →
  (∀ k, chain_of s' k = Chain.commit (stamp_of t) (committed (counter m + 1)) (chn m k)) →
  let ts := counter m + 1 in
  R (publish_post (set_durability d (ticked m)) t a ts s')
    (mkSI (mkCommit t (snap_ts (snapshot a)) ts log :: si_commits A) (delete t (si_active A)) (si_last A)).
Proof.
  intros Hi HR Ha Hlt HA Hch ts. change (committed (counter m + 1)) with ts in Hch.
  destruct (inv_active_bound m t a Hi Ha) as (Ht0 & Htm & _ & _).
  set (m' := publish_post _ _ _ _ _).
  assert (∀ k, chn m' k = Chain.commit (stamp_of t) ts (chn m k)) as Hch' by done. clear Hch.
  rename Hch' into Hch.
  assert (counter m' = ts) as Hcnt by (unfold counter; simpl; by rewrite Oracle.release_counter).
  assert (∀ s, live m' s → live m s) as Hlive.
  { intros s. apply (live_leave m _ t); [done|done|rewrite Hcnt; lia]. }
  assert (∀ s, live m' s → s < ts ∨ ts ≤ s) as Hcase by lia.
  apply (R_finish m); try done.
  - rewrite Hcnt. lia.
  - rewrite Hcnt. destruct (inv_active m Hi t a Ha) as (_ & _ & ?).
    change (next_txn_id m') with (next_txn_id m).
    intros c [->|Hc]%elem_of_cons; simpl; [lia|]. destruct (R_clock m A HR c Hc). lia.
  - intros k. rewrite Hch. destruct (stamp_cases m t k Hi) as [Hw|(a' & Ha' & Hk)].
    + rewrite commit_id by done. apply (R_order m A HR).
    + eapply commit_chain_ok; eauto; [lia|apply (R_order m A HR)].
  - intros k s Hs. rewrite Hch. destruct (Hcase s Hs) as [Hst|Hst].
    + rewrite value_at_later by done. rewrite <- (R_committed m A HR) by auto.
      assert (s ≤ MAX_TIMESTAMP) by apply Hs.
      apply ChainFacts.commit_other; [done|].
      split; intros He; exfalso; [by apply observer_stamp in He|].
      apply observer_in_effect in He; [unfold settled_by in He; lia|done|left; lia].
    + rewrite value_at_commit. simpl. rewrite decide_True by done.
      eapply commit_cread; eauto; [lia|apply Hs].
  - intros k Hw. rewrite Hch. by apply commit_id.
  - intros k t' Hne Hw. rewrite Hch. apply words_has.
    intros w (w0 & Hw0 & ->)%commit_has_word. unfold settle. pose proof (inv_counter m Hi).
    destruct (N.eqb_spec w0 (stamp_of t)); [|by apply (words_has _ _) with (w := w0) in Hw].
    subst ts. pose proof (MAX_TIMESTAMP_val) as Hmv. unfold stamp_of. lia.
  - intros c k [->|Hc]%elem_of_cons Hk; simpl in *.
    + left. destruct Hk as [p Hp]. pose proof (R_own m A HR t _ log k HA) as Ho. rewrite Hp in Ho.
      rewrite Hch. apply commit_has_word. exists (stamp_of t).
      split; [by eapply own_spec_has|by rewrite settle_eq].
    + destruct (R_words m A HR c k Hc Hk) as [Hw|Hl]; [left|right; eauto].
      rewrite Hch. apply commit_has_word. exists (c_ts c). split; [done|].
      destruct (R_clock m A HR c Hc) as (? & ? & _). pose proof (counter_lt_stamp m t Hi).
      rewrite settle_ne by lia. done.
Qed.

Lemma commit_step m A t a log :
  inv m → R m A → active_txns m !! t = Some a →
  si_active A !! t = Some (snap_ts (snapshot a), log) →
  let ts := counter m + 1 in
  si_step A (LCommit t ts)
    (mkSI (mkCommit t (snap_ts (snapshot a)) ts log :: si_commits A) (delete t (si_active A)) (si_last A)).
Proof.
  intros Hi HR Ha HA ts. constructor; [done| |].
  - intros c Hc. destruct (R_clock m A HR c Hc). lia.
  - intros t' b' log' HA'. destruct (R_lookup_inv m A t' b' log' HR HA') as (a' & Ha' & <-).
    destruct (inv_active_bound m t' a' Hi Ha'). lia.
Qed.

(** *** Garbage collection *)

Lemma low_water_live m l s : inv m → Manager.low_water_mark m = Some l → live m s → l ≤ s.
Proof.
  intros Hi Hl [_ Hs]. apply Oracle.low_water_mark_Some in Hl as [[c Hlc] Hmin].
  destruct Hs as [Hs|(t & a & Ha & <-)].
  - destruct (Oracle.wf_issued _ (inv_oracle m Hi) l (mk_is_Some _ _ Hlc)). unfold counter in Hs. lia.
  - apply Hmin. exists 1. apply (inv_begins m Hi). eauto.
Qed.

Lemma low_water_none m s : inv m → Manager.low_water_mark m = None → live m s → counter m ≤ s.
Proof.
  intros Hi Hl [_ [Hs|(t & a & Ha & <-)]]; [done|]. apply Oracle.low_water_mark_None in Hl.
  assert (active_begins (oracle m) !! snap_ts (snapshot a) = Some 1) as Hb
    by (apply (inv_begins m Hi); eauto).
  by rewrite Hl, lookup_empty in Hb.
Qed.

(** A reclaimed version was expired before every live snapshot. *)
Lemma gc_dropped m k v :
  inv m → v ∈ chn m k → Chain.retained (Manager.low_water_mark m) (registry m) v = false →
  0 < xmax v ∧ xmax v ≤ counter m ∧ ∀ s, live m s → xmax v ≤ s.
Proof.
  intros Hi Hv. unfold Chain.retained, Registry.resolve_commit_ts.
  destruct (inv_words m Hi k v Hv) as (_ & _ & [->|[(c & -> & H0 & Hc)|(t & a & E & Ha & _)]]).
  - by rewrite from_raw_0.
  - pose proof (inv_counter m Hi). rewrite from_raw_committed by lia. change (committed c) with c.
    intros Hr. split; [done|]. split; [done|]. intros s Hs.
    destruct (Manager.low_water_mark m) as [l|] eqn:El.
    + pose proof (low_water_live m l s Hi El Hs). destruct (N.ltb_spec l c); [done|lia].
    + pose proof (low_water_none m s Hi El Hs). lia.
  - destruct (inv_active_bound m t a Hi Ha) as (? & ? & _). rewrite E.
    unfold stamp_of. rewrite from_raw_in_flight by done.
    by rewrite (proj2 (inv_in_flight m Hi t)) by (by rewrite Ha).
Qed.

Lemma R_gc m A : inv m → R m A → R (gc_post m) A.
Proof.
  intros Hi HR. rewrite gc_post_eq. set (m' := mkManager _ _ _ _ _ _ _ _).
  assert (∀ k, chn m' k = Chain.gc (Manager.low_water_mark m) (registry m) (chn m k)) as Hch.
  { intros k. simpl. apply gc_spec. }
  assert (∀ k v, v ∈ chn m k → Chain.retained (Manager.low_water_mark m) (registry m) v = true ∨
    0 < xmax v ∧ xmax v ≤ counter m ∧ ∀ s, live m s → xmax v ≤ s) as Hdrop.
  { intros k v Hv. destruct (Chain.retained _ _ v) eqn:E; [by left|right]. by eapply gc_dropped. }
  assert (∀ k v, v ∈ chn m' k → v ∈ chn m k) as Hsub.
  { intros k v. rewrite Hch. by intros [_ ?]%list_elem_of_filter. }
  pose proof HR as [Ra Rla Rc Ro Rcm Row Rl Rw]. split; try done.
  - intros k. rewrite Hch. by apply gc_ok.
  - intros k s Hs. rewrite <- Rcm by done. rewrite Hch. apply ChainFacts.read_filter.
    intros v Hv Hr. apply not_true_is_false. rewrite is_visible_in_effect. intros [_ Hx]. apply Hx.
    destruct (Hdrop k v Hv) as [?|(? & ? & Hle)]; [done|].
    apply (word_observer m k v s Hi Hv); [apply Hs|]. split; [done|by apply Hle].
  - intros t b log k HA. pose proof (Row t b log k HA) as Ho. pose proof (counter_lt_stamp m t Hi).
    assert (∀ v, v ∈ chn m k → xmax v = 0 ∨ xmax v = stamp_of t →
      Chain.retained (Manager.low_water_mark m) (registry m) v = true) as Hret.
    { intros v Hv Hx. destruct (Hdrop k v Hv) as [?|(? & ? & _)]; [done|lia]. }
    destruct (writes_of log !! k) as [[p|]|]; simpl in Ho |- *.
    + destruct Ho as (c' & E). rewrite gc_spec, E. unfold Chain.gc. rewrite filter_cons, decide_True; [eauto|].
      apply Hret; [rewrite E; set_solver|by left].
    + destruct Ho as (v & c' & E & Hx). rewrite gc_spec, E. unfold Chain.gc.
      rewrite filter_cons, decide_True; [eauto|]. apply Hret; [rewrite E; set_solver|by right].
    + intros v Hv. apply Ho. by apply Hsub.
  - intros t b log k HA Hk v Hv. apply (Rl t b log k HA Hk). by apply Hsub.
  - intros c k Hc Hk. destruct (Rw c k Hc Hk) as [(v & Hv & Hw)|Hl]; [|by right].
    destruct (Hdrop k v Hv) as [Hr|(H0 & _ & Hle)].
    + left. exists v. split; [|done]. rewrite Hch. by apply list_elem_of_filter.
    + right. intros s Hs. specialize (Hle s Hs). destruct Hw as [Hw|Hw]; [|by rewrite <- Hw].
      rewrite <- Hw. trans (xmax v); [|done].
      specialize (Ro k). destruct (chn m k) as [|u c0]; [by apply not_elem_of_nil in Hv|].
      apply elem_of_cons in Hv as [->|Hv]; [destruct Ro as [[?|?] _]; [lia|done]|].
      by destruct (chain_ok_tail u c0 v Ro Hv) as (_ & ? & _).
Qed.

(** *** The simulation *)

(** A successful delete found a value. *)
Lemma delete_finds m A t a log k c :
  inv m → R m A → active_txns m !! t = Some a → k ∈ written a → fcw_ok m a k →
  si_active A !! t = Some (snap_ts (snapshot a), log) →
  Chain.expire (stamp_of t) (chn m k) = Some c →
  event_ok (si_commits A) (snap_ts (snapshot a)) log (EWrite k None).
Proof.
  intros Hi HR Ha Hk Hf HA Hx. simpl. rewrite <- (own_read m A t a log k) by done.
  pose proof (held_words m t a k Hi Ha Hk) as Hw. pose proof (inv_words m Hi k) as Hiw.
  pose proof (inv_counter m Hi). unfold fcw_ok in Hf.
  destruct (chn m k) as [|v c'] eqn:E; [done|]. simpl in Hx.
  destruct (N.eqb_spec (xmax v) 0); [|done]. rewrite read_head; [by eexists| |done].
  destruct (Hiw v) as (Hnz & Hok & _); [set_solver|].
  apply (word_owner m k (xmin v) t a); [done|done|done|].
  apply words_cons in Hw as ([?|Hle] & _); [by left|right]. split; [lia|].
  apply (Hf v (xmin v)); [done|]. apply from_raw_committed; lia.
Qed.

Lemma effect_simulation m A l m' :
  inv m → R m A → safe m l → effect m l m' → ∃ A', si_step A l A' ∧ R m' A'.
Proof.
  intros Hi HR Hs He. destruct He.
  - eexists. split; [by apply (begin_step m)|by apply R_begin].
  - eexists. split; [constructor|]. apply (R_quiet m); try done.
    change (counter (ticked m)) with (counter m + 1). lia.
  - eexists. split; [constructor|]. by apply (R_quiet m).
  - eexists. split; [constructor|]. apply (R_quiet m); try done. intros t'. rewrite touch_active.
    case_decide; [subst|done]. by destruct (active_txns m !! t).
  - eexists. split; [constructor|]. apply (R_quiet m); try done. intros t'. simpl.
    rewrite lookup_alter. case_decide; [subst|done]. by destruct (active_txns m !! t').
  - destruct (R_lookup m A t a HR H) as [log HA]. rewrite (own_read m A t a log k) by done.
    eexists. split; [by apply si_read|by eapply R_read].
  - destruct (R_lookup m A t a HR H) as [log HA]. eexists.
    eapply write_chain_step; eauto; [|done].
    apply create_writes; [apply stamp_of_nonzero|by eapply held_le|apply (R_order m A HR)].
  - destruct (R_lookup m A t a HR H) as [log HA]. eexists.
    eapply write_chain_step; eauto; [|by eapply delete_finds].
    apply expire_writes; [by eapply held_le|apply (R_order m A HR)|done].
  - eexists. split; [constructor|]. by apply (R_quiet m).
  - destruct (R_lookup m A t a HR H) as [log HA]. eexists.
    split; [by eapply si_abort|by apply R_abort].
  - destruct (R_lookup m A t a HR H) as [log HA]. eexists.
    split; [by apply commit_step|by apply R_commit].
  - eexists. split; [constructor|by apply R_gc].
Qed.

Lemma effects_simulation m A ls m' :
  inv m → R m A → effects safe m ls m' → ∃ A', si_steps A ls A' ∧ R m' A'.
Proof.
  intros Hi HR He. revert A Hi HR. induction He as [m|m l m1 ls m2 Hp He Hes IH]; intros A Hi HR.
  - exists A. split; [constructor|done].
  - destruct (effect_simulation m A l m1) as (A1 & Hs1 & HR1); try done.
    { unfold permitted in Hp. by destruct l. }
    destruct (IH A1) as (A2 & Hs2 & HR2); [by eapply effect_inv|done|].
    exists A2. split; [by econstructor|done].
Qed.

Lemma R_fresh m : fresh m → R m si_empty.
Proof.
  intros (s & d & c & -> & Hs). split; simpl; try done.
  - set_solver.
  - intros k. by rewrite Hs.
  - intros k s' _. by rewrite Hs.
  - intros c' k ?%not_elem_of_nil. done.
Qed.

End steps.
