(* ===== verification/Isolation.v ===== *)
(** * Runs of the transaction manager: snapshot isolation and serializability

    The theorems about whole runs, over the operations a client calls and the
    answers it gets. A fresh manager implements snapshot isolation, and when
    every transaction is serializable its committed transactions can be replayed
    one at a time. *)

From stdpp Require Import options.
From S2P Require Import Prelude Core Snapshot Visibility Oracle VStore Ssi SsiFacts SsiOps.
From S2P Require Import SsiSpec SsiSafe Manager ManagerInv ManagerOps VStore SI Serial Refine.
From S2P Require Import RefineSteps.
Import SsiWf SsiInv.

(** ** Client histories *)

(** What transaction [t] read and wrote, in order. *)
Definition events_of (t : TxnId) (ls : list Label) : list Event :=
  omap (λ l, match l with
             | LRead t' k v => if t' =? t then Some (ERead k v) else None
             | LWrite t' k v => if t' =? t then Some (EWrite k v) else None
             | _ => None
             end) ls.

(** The transactions that committed, in commit order. *)
Definition commits_of (ls : list Label) : list TxnId :=
  omap (λ l, match l with LCommit t _ => Some t | _ => None end) ls.

(** The labels a run's answers report. *)
Definition history (h : list (Op * Timestamp * Outcome Resp)) : list Label :=
  h ≫= λ x, report x.1.1 x.1.2 x.2.

Lemma events_of_app t ls ls' : events_of t (ls ++ ls') = events_of t ls ++ events_of t ls'.
Proof. apply omap_app. Qed.

Lemma commits_of_app ls ls' : commits_of (ls ++ ls') = commits_of ls ++ commits_of ls'.
Proof. apply omap_app. Qed.

Lemma omap_reports {X} (f : Label → option X) ls :
  (∀ l, reported l = false → f l = None) → omap f (reports ls) = omap f ls.
Proof.
  intros Hf. unfold reports. induction ls as [|l ls IH]; [done|]. rewrite filter_cons.
  case_decide as Hl; csimpl; rewrite IH; [done|]. by rewrite (Hf l) by (by destruct (reported l)).
Qed.

Lemma events_of_reports t ls : events_of t (reports ls) = events_of t ls.
Proof. apply omap_reports. by intros []. Qed.

Lemma commits_of_reports ls : commits_of (reports ls) = commits_of ls.
Proof. apply omap_reports. by intros []. Qed.

(** The specification's logs are the client's view. *)
Record shows (ls : list Label) (A : SI) : Prop := {
  sh_active : ∀ t b log, si_active A !! t = Some (b, log) → log = events_of t ls ∧ t ≤ si_last A;
  sh_commit : ∀ c, c ∈ si_commits A → c_log c = events_of (c_txn c) ls;
  sh_commits : (c_txn <$> si_commits A) = reverse (commits_of ls);
  sh_new : ∀ t, si_last A < t → events_of t ls = [];
}.

(** One more event of an active transaction. *)
Lemma shows_event ls A t b log e l :
  si_wf A → si_active A !! t = Some (b, log) →
  (∀ t', events_of t' [l] = if decide (t' = t) then [e] else []) → commits_of [l] = [] →
  shows ls A → shows (ls ++ [l]) (add_event A t b log e).
Proof.
  intros Hwf Ht He Hl [Ha Hc Hcs Hn]. destruct (Ha t b log Ht) as [-> Hle]. split; simpl.
  - intros t' b' log' [[<- [= <- <-]]|[Hne Ht']]%lookup_insert_Some; rewrite events_of_app, He.
    + by rewrite decide_True.
    + rewrite decide_False by done. rewrite app_nil_r. eauto.
  - intros c Hin. rewrite events_of_app, He, decide_False, app_nil_r; [auto|].
    intros E. pose proof (wf_split A Hwf c Hin). congruence.
  - by rewrite commits_of_app, Hl, app_nil_r.
  - intros t' Hlt. rewrite events_of_app, He, decide_False, app_nil_r; [auto|]. intros ->. lia.
Qed.

Lemma shows_quiet ls A l :
  (∀ t, events_of t [l] = []) → commits_of [l] = [] → shows ls A → shows (ls ++ [l]) A.
Proof.
  intros He Hl [Ha Hc Hcs Hn]. split; intros *; rewrite ?events_of_app, ?commits_of_app, ?He, ?Hl, ?app_nil_r; eauto.
Qed.

Lemma shows_step ls A l A' :
  si_wf A → si_step A l A' → shows ls A → shows (ls ++ [l]) A'.
Proof.
  intros Hwf Hs Hsh.
  destruct Hs as [| |t b iso Hlt Hc' Ha'|t b log k Ht|t b log k v Ht _ _ _|t b log ts Ht _ _|t b log Ht].
  - by apply shows_quiet.
  - by apply shows_quiet.
  - apply (shows_quiet _ _ (LBegin t b iso)) in Hsh as [Ha Hc Hcs Hn]; [|done|done].
    split; simpl; try done.
    + intros t' b' log' [[<- [= <- <-]]|[Hne Ht']]%lookup_insert_Some.
      * by rewrite Hn.
      * destruct (Ha t' b' log' Ht'). split; [done|lia].
    + intros t' ?. apply Hn. lia.
  - apply shows_event; try done. intros t'. simpl.
    destruct (N.eqb_spec t t'), (decide (t' = t)); by subst.
  - apply shows_event; try done. intros t'. simpl.
    destruct (N.eqb_spec t t'), (decide (t' = t)); by subst.
  - destruct Hsh as [Ha Hc Hcs Hn]. destruct (Ha t b log Ht) as [-> _]. split; csimpl.
    + intros t' b' log' [_ Ht']%lookup_delete_Some. rewrite events_of_app, app_nil_r. eauto.
    + intros c [->|Hin]%elem_of_cons; rewrite events_of_app, app_nil_r; [done|auto].
    + csimpl. by rewrite commits_of_app, reverse_app, Hcs.
    + intros t' ?. rewrite events_of_app, app_nil_r. auto.
  - apply (shows_quiet _ _ (LAbort t)) in Hsh as [Ha Hc Hcs Hn]; [|done|done].
    split; simpl; try done. intros t' b' log' [_ Ht']%lookup_delete_Some. eauto.
Qed.

Lemma shows_steps ls A ls' A' :
  si_steps A ls' A' → si_wf A → shows ls A → shows (ls ++ ls') A'.
Proof.
  intros Hs. revert ls. induction Hs as [A|A l A1 ls' A2 H1 H2 IH]; intros ls Hwf Hsh.
  - by rewrite app_nil_r.
  - change (l :: ls') with ([l] ++ ls'). rewrite app_assoc.
    apply IH; [by eapply si_step_wf|by eapply shows_step].
Qed.

Lemma shows_empty : shows [] si_empty.
Proof. split; simpl; try done. by intros c ?%not_elem_of_nil. Qed.

(** ** The conflict tracker covers the logs *)

Definition covers (x : TxnConflict) (log : list Event) : Prop :=
  (∀ k v, ERead k v ∈ log → k ∈ reads x) ∧ (∀ k v, EWrite k v ∈ log → k ∈ writes x).

Lemma covers_grows x x' log : grows x x' → covers x log → covers x' log.
Proof. intros (_ & Hr & Hw) [H1 H2]. split; intros k v Hin; [apply Hr|apply Hw]; eauto. Qed.

(** The keys of [log] cover its snapshot reads and its writes. *)
Lemma covers_reads x c k : covers x (c_log c) → k ∈ c_reads c → k ∈ reads x.
Proof. intros [Hr _] [v Hv]%snapshot_reads_read. eauto. Qed.

Lemma writes_of_elem log k : is_Some (writes_of log !! k) → ∃ v, EWrite k v ∈ log.
Proof.
  induction log as [|e log IH] using rev_ind; [by intros []|]. rewrite writes_of_snoc.
  destruct e as [k' v'|k' v']; simpl.
  - intros [v Hv]%IH. exists v. set_solver.
  - destruct (decide (k' = k)) as [->|]; [exists v'; set_solver|].
    rewrite lookup_insert_ne by done. intros [v Hv]%IH. exists v. set_solver.
Qed.

Lemma covers_writes x c k : covers x (c_log c) → k ∈ c_writes c → k ∈ writes x.
Proof. unfold c_writes. rewrite elem_of_dom. intros [_ Hw] [v Hv]%writes_of_elem. eauto. Qed.

Section serializable.
Context {S D : Type} `{!VersionedStore S, !VersionedStoreSpec S, !Durability D}.
Abbreviation T := (TxnManager S D).
Implicit Types (m : T) (t : TxnId) (k : Key).

Record tracked m (A : SI) : Prop := {
  tr_active : ∀ t b log, si_active A !! t = Some (b, log) →
    ∃ x, txns (ssi m) !! t = Some x ∧ begin_ts x = b ∧ commit_ts x = None ∧ covers x log;
  tr_commit : ∀ c, c ∈ si_commits A →
    ∃ x, txns (ssi m) !! c_txn c = Some x ∧ begin_ts x = c_begin c ∧
      commit_ts x = Some (c_ts c) ∧ covers x (c_log c);
  tr_pivots : guarded_pivots (ssi m);
  tr_iso : ∀ t a, active_txns m !! t = Some a → isolation a = Serializable;
}.

Lemma anti_edge m A c c' :
  inv m → tracked m A → c ∈ si_commits A → c' ∈ si_commits A → anti c c' →
  edge (ssi m) (c_txn c) (c_txn c').
Proof.
  intros Hi [_ Hc _ _] H1 H2 (Hne & [Hb1 Hb2] & Hk).
  destruct (Hc c H1) as (x & Hx & Ex1 & Ex2 & Cx), (Hc c' H2) as (y & Hy & Ey1 & Ey2 & Cy).
  apply (wf_edge _ (inv_ssi m Hi)). split; [|split].
  - intros E. rewrite E in Hx. congruence.
  - unfold Ssi.are_concurrent, Ssi.committed_by. rewrite Hx, Hy, Ex1, Ex2, Ey1, Ey2.
    apply andb_true_iff. rewrite !negb_true_iff, !N.leb_gt. done.
  - exists x, y. split; [done|]. split; [done|]. left. apply set_choose_L in Hk as [k Hk].
    apply elem_of_intersection in Hk as [Hr Hw]. exists k.
    split; [by eapply covers_reads|by eapply covers_writes].
Qed.

Lemma tracked_safe m A : inv m → tracked m A → ¬ dangerous (si_commits A).
Proof.
  intros Hi Htr (c1 & c2 & c3 & H1 & H2 & H3 & A1 & A2).
  assert (∀ c, c ∈ si_commits A → committed_in (ssi m) (c_txn c)) as Hci.
  { intros c Hc. destruct (tr_commit m A Htr c Hc) as (x & Hx & _ & Hcx & _).
    exists x. by rewrite Hcx. }
  apply (no_committed_triple (ssi m) (c_txn c1) (c_txn c2) (c_txn c3)); auto;
    [apply (tr_pivots m A Htr)|by apply (anti_edge m A)|by apply (anti_edge m A)].
Qed.

(** Steps that leave the conflict tracker alone. *)
Lemma tracked_quiet m m' A :
  tracked m A → ssi m' = ssi m →
  (∀ t a', active_txns m' !! t = Some a' →
     ∃ a, active_txns m !! t = Some a ∧ isolation a' = isolation a) →
  tracked m' A.
Proof.
  intros [Ha Hc Hg Hs] E Hact. split; rewrite ?E; try done.
  intros t a' (a & Hat & ->)%Hact. eauto.
Qed.

(** A step of a running transaction [t] that grows the marker sets. *)
Lemma tracked_event m m' A t b log e :
  tracked m A → si_active A !! t = Some (b, log) → active_txns m' = active_txns m →
  guarded_pivots (ssi m') →
  (∀ y x, txns (ssi m) !! y = Some x → ∃ x', txns (ssi m') !! y = Some x' ∧ grows x x' ∧
     (y = t → covers x log → covers x' (log ++ [e]))) →
  tracked m' (add_event A t b log e).
Proof.
  intros [Ha Hc Hg Hs] HA Ea Hg' Hgr. split; simpl; try done.
  - intros t' b' log' [[<- [= <- <-]]|[_ Ht']]%lookup_insert_Some.
    + destruct (Ha t b log HA) as (x & Hx & <- & E & Hcv). destruct (Hgr t x Hx) as (x' & Hx' & G & Hcv').
      exists x'. destruct G as (Et & _). injection Et as E1 E2. split; [done|].
      split; [done|]. split; [congruence|auto].
    + destruct (Ha t' b' log' Ht') as (x & Hx & <- & E & Hcv).
      destruct (Hgr t' x Hx) as (x' & Hx' & G & _). exists x'. split; [done|].
      pose proof G as (Et & _). injection Et as E1 E2.
      split; [done|]. split; [congruence|by eapply covers_grows].
  - intros c Hin. destruct (Hc c Hin) as (x & Hx & E1 & E2 & Hcv).
    destruct (Hgr (c_txn c) x Hx) as (x' & Hx' & G & _). exists x'. split; [done|].
    pose proof G as (Et & _). injection Et as E1' E2'.
    split; [congruence|]. split; [congruence|by eapply covers_grows].
  - by rewrite Ea.
Qed.

Lemma active_not_committed m t :
  inv m → is_Some (active_txns m !! t) → is_Some (txns (ssi m) !! t) ∧ ¬ committed_in (ssi m) t.
Proof.
  intros Hi Ht. split; [by apply inv_tracked|]. destruct Ht as [a Ha].
  destruct (proj2 (inv_ssi_active m Hi t (snap_ts (snapshot a)))) as (x & Hx & Hn & _); [eauto|].
  intros (x' & Hx' & [c Hc]). congruence.
Qed.

Lemma covers_read x x' log k v : grows x x' → k ∈ reads x' → covers x log → covers x' (log ++ [ERead k v]).
Proof.
  intros Hg Hk Hc. pose proof (covers_grows _ _ _ Hg Hc) as [H1 H2].
  split; intros k' v' [?|Hin]%elem_of_app; eauto; apply list_elem_of_singleton in Hin; [|done].
  by injection Hin as -> _.
Qed.

Lemma covers_write x x' log k v : grows x x' → k ∈ writes x' → covers x log → covers x' (log ++ [EWrite k v]).
Proof.
  intros Hg Hk Hc. pose proof (covers_grows _ _ _ Hg Hc) as [H1 H2].
  split; intros k' v' [?|Hin]%elem_of_app; eauto; apply list_elem_of_singleton in Hin; [done|].
  by injection Hin as -> _.
Qed.

Lemma tracked_read m A t b log k v :
  inv m → tracked m A → is_Some (active_txns m !! t) → si_active A !! t = Some (b, log) →
  tracked (set_ssi (Ssi.record_read t k (ssi m)) m) (add_event A t b log (ERead k v)).
Proof.
  intros Hi Htr Ht HA. destruct (active_not_committed m t Hi Ht).
  apply (tracked_event m); try done.
  - apply record_read_guarded; try done; [apply (inv_ssi m Hi)|apply (tr_pivots m A Htr)].
  - intros y x Hx. destruct (record_read_grows t k (ssi m) y x Hx) as (x' & Hx' & Hg & Hk).
    exists x'. split; [done|]. split; [done|]. intros ->. apply covers_read; auto.
Qed.

Lemma tracked_write m A t b log k v s' :
  inv m → tracked m A → is_Some (active_txns m !! t) → si_active A !! t = Some (b, log) →
  tracked (set_ssi (Ssi.record_write t k (ssi m)) (set_store s' m)) (add_event A t b log (EWrite k v)).
Proof.
  intros Hi Htr Ht HA. destruct (active_not_committed m t Hi Ht).
  apply (tracked_event m); try done.
  - apply record_write_guarded; try done; [apply (inv_ssi m Hi)|apply (tr_pivots m A Htr)].
  - intros y x Hx. destruct (record_write_grows t k (ssi m) y x Hx) as (x' & Hx' & Hg & Hk).
    exists x'. split; [done|]. split; [done|]. intros ->. apply covers_write; auto.
Qed.

Lemma tracked_begin m A now iso :
  inv m → tracked m A → R m A → iso = Serializable →
  let t := next_txn_id m + 1 in let b := counter m + 1 in
  tracked (begin_post m now iso t b) (mkSI (si_commits A) (<[t := (b, [])]> (si_active A)) t).
Proof.
  intros Hi [Ha Hc Hg Hs] HR Hiso t b.
  assert (txns (ssi m) !! t = None) as Hnew.
  { destruct (txns (ssi m) !! t) as [x|] eqn:E; [|done].
    destruct (inv_ssi_tracked m Hi t x E). lia. }
  assert (∀ y, txns (Ssi.register t b (ssi m)) !! y =
    if decide (y = t) then Some (fresh_conflict b) else txns (ssi m) !! y) as Hl.
  { intros y. by rewrite register_lookup, Hnew. }
  split; unfold begin_post; fields; simpl si_active; simpl si_commits.
  - intros t' b' log' [[<- [= <- <-]]|[Hne Ht']]%lookup_insert_Some; rewrite Hl.
    + rewrite decide_True by done. eexists. split; [done|]. split; [done|]. split; [done|].
      split; intros k v ?%not_elem_of_nil; done.
    + rewrite decide_False by done. eauto.
  - intros c Hin. destruct (Hc c Hin) as (x & Hx & ?). rewrite Hl, decide_False by congruence. eauto.
  - apply register_guarded; [apply (inv_ssi m Hi)|done|done].
  - intros t' a [[<- <-]|[_ ?]]%lookup_insert_Some; [done|eauto].
Qed.

Lemma tracked_abort m A t a s' :
  inv m → tracked m A → R m A → active_txns m !! t = Some a →
  tracked (abort_post m t a s') (mkSI (si_commits A) (delete t (si_active A)) (si_last A)).
Proof.
  intros Hi [Ha Hc Hg Hs] HR Hat. pose proof (inv_ssi m Hi) as Hwf.
  assert (∀ y x, y ≠ t → txns (ssi m) !! y = Some x → ∃ x', txns (Ssi.forget t (ssi m)) !! y = Some x' ∧
    begin_ts x' = begin_ts x ∧ commit_ts x' = commit_ts x ∧ ∀ log, covers x log → covers x' log) as Hl.
  { intros y x Hne Hx. rewrite forget_lookup, decide_False, Hx by done. eexists. split; [done|]. done. }
  split; unfold abort_post; fields; simpl si_active; simpl si_commits.
  - intros t' b' log' [Hne Ht']%lookup_delete_Some. destruct (Ha t' b' log' Ht') as (x & Hx & <- & <- & ?).
    destruct (Hl t' x) as (x' & ? & ? & ? & ?); [done|done|]. eauto 10.
  - intros c Hin. destruct (Hc c Hin) as (x & Hx & <- & <- & ?).
    destruct (Hl (c_txn c) x) as (x' & ? & ? & ? & ?); [|done|eauto 10].
    intros E. rewrite E in Hx. destruct (active_not_committed m t Hi) as [_ Hn]; [by rewrite Hat|].
    apply Hn. destruct (Hc c Hin) as (x2 & Hx2 & _ & Hcc & _). exists x2. rewrite <- E. by rewrite Hcc.
  - by apply forget_guarded.
  - intros t' a' [_ ?]%lookup_delete_Some. eauto.
Qed.

Lemma tracked_commit m A t a log d s' :
  inv m → tracked m A → R m A → active_txns m !! t = Some a →
  si_active A !! t = Some (snap_ts (snapshot a), log) →
  (isolation a = Serializable → (t ∉ doomed (ssi m)) ∧ ¬ pivot (ssi m) t) →
  let ts := counter m + 1 in
  tracked (publish_post (set_durability d (ticked m)) t a ts s')
    (mkSI (mkCommit t (snap_ts (snapshot a)) ts log :: si_commits A) (delete t (si_active A)) (si_last A)).
Proof.
  intros Hi [Ha Hc Hg Hs] HR Hat HA Hchk ts. destruct (Hchk (Hs t a Hat)) as [Hnd Hnp].
  destruct (active_not_committed m t Hi) as [_ Hn]; [by rewrite Hat|].
  assert (∀ y x, y ≠ t → txns (ssi m) !! y = Some x →
    txns (Ssi.record_commit t ts (ssi m)) !! y = Some x) as Hl.
  { intros y x Hne Hx. by rewrite record_commit_lookup, decide_False, Hx. }
  split; unfold publish_post; cbn [ssi active_txns set_durability ticked set_oracle];
    simpl si_active; simpl si_commits.
  - intros t' b' log' [Hne Ht']%lookup_delete_Some.
    destruct (Ha t' b' log' Ht') as (x & Hx & ?). exists x. split; [by apply Hl|done].
  - intros c [->|Hin]%elem_of_cons.
    + destruct (Ha t _ log HA) as (x & Hx & ? & _ & Hcv). cbn [c_txn c_begin c_ts c_log].
      exists (set_commit ts x). split; [by rewrite record_commit_lookup, decide_True, Hx|]. done.
    + destruct (Hc c Hin) as (x & Hx & Hx'). exists x. split; [|done]. apply Hl; [|done].
      intros E. apply Hn. exists x. rewrite <- E. destruct Hx' as (_ & -> & _). done.
  - by apply record_commit_guarded.
  - intros t' a' [_ ?]%lookup_delete_Some. eauto.
Qed.

(** Allowed steps: no collection, and only serializable transactions begin. *)
Definition serial_label (l : Label) : Prop :=
  match l with LGc => False | LBegin _ _ iso => iso = Serializable | _ => True end.

Lemma tracked_effect m A l m' :
  inv m → R m A → tracked m A → safe m l → serial_label l → effect m l m' →
  ∃ A', si_step A l A' ∧ R m' A' ∧ tracked m' A'.
Proof.
  intros Hi HR Htr Hs Hl He. destruct (effect_simulation m A l m' Hi HR Hs He) as (A' & Hst & HR').
  exists A'. split; [done|]. split; [done|]. clear HR'.
  destruct He; inversion Hst; subst; clear Hst; try done;
    try match goal with
    | H : active_txns m !! ?t = Some ?a, H' : si_active A !! ?t = Some (?b, ?log) |- _ =>
        let E := fresh in destruct (R_lookup m A t a HR H) as [? E]; rewrite E in H';
        injection H' as ? ?; subst; rename E into HA
    end.
  - by apply tracked_begin.
  - by apply (tracked_quiet m); [| |eauto].
  - by apply (tracked_quiet m); [| |eauto].
  - apply (tracked_quiet m); [done|done|]. intros t' a'. rewrite touch_active.
    case_decide; [subst|eauto]. intros (a & -> & ->)%fmap_Some. eauto.
  - apply (tracked_quiet m); [done|done|]. intros t' a'. simpl. rewrite lookup_alter.
    case_decide; [subst|eauto]. intros (a & -> & ->)%fmap_Some. eauto.
  - by apply tracked_read; [..|eexists|].
  - by apply tracked_write; [..|eexists|].
  - by apply tracked_write; [..|eexists|].
  - by apply (tracked_quiet m); [| |eauto].
  - by apply tracked_abort.
  - by apply tracked_commit.
Qed.

Lemma tracked_effects m A ls m' :
  inv m → R m A → tracked m A → effects (λ m l, safe m l ∧ serial_label l) m ls m' →
  ∃ A', si_steps A ls A' ∧ R m' A' ∧ tracked m' A'.
Proof.
  intros Hi HR Htr He. revert A Hi HR Htr.
  induction He as [m|m l m1 ls m2 Hp He Hes IH]; intros A Hi HR Htr.
  - exists A. split; [constructor|done].
  - assert (safe m l ∧ serial_label l) as [Hs Hl] by by destruct l.
    destruct (tracked_effect m A l m1) as (A1 & Hs1 & HR1 & Htr1); try done.
    destruct (IH A1) as (A2 & Hs2 & HR2); [by eapply effect_inv|done|done|].
    exists A2. split; [by econstructor|done].
Qed.

(** ** Runs *)

(** The operation does not write a key deleted by a transaction that committed
    after the writer's snapshot. *)
Definition safe_op (o : Op) m : bool :=
  match o with
  | OpWrite _ t k _ | OpDelete _ t k =>
      match active_txns m !! t, head (chain_of (store m) k) with
      | Some a, Some v =>
          match from_raw (xmax v) with
          | VsCommitted c => c <=? snap_ts (snapshot a)
          | _ => true
          end
      | _, _ => true
      end
  | _ => true
  end.

Fixpoint safe_run (os : list Op) m : bool :=
  match os with
  | [] => true
  | o :: os => safe_op o m && safe_run os (exec o m).2
  end.

Lemma safe_op_write o m now t k v :
  inv m → safe_op o m = true → (∃ p, o = OpWrite now t k p) ∨ o = OpDelete now t k →
  safe (admitted now t k m) (LWrite t k v).
Proof.
  intros Hi Hs Ho a u Ha Hh Hx. simpl in Hh.
  assert (match active_txns m !! t, head (chain_of (store m) k) with
    | Some a, Some v => match from_raw (xmax v) with
                        | VsCommitted c => c <=? snap_ts (snapshot a) | _ => true end
    | _, _ => true end = true) as Hs' by by destruct Ho as [[p ->]| ->].
  destruct (active_txns m !! t) as [a0|] eqn:Ea;
    [|simpl in Ha; by rewrite !lookup_alter_eq, Ea in Ha].
  rewrite (admitted_active now t k m a0 Ea) in Ha. injection Ha as <-. rewrite Hh in Hs'. simpl.
  destruct (decide (xmax u = 0)) as [->|]; [lia|].
  pose proof (inv_counter m Hi). change (counter (admitted now t k m)) with (counter m) in Hx.
  change (xmax u) with (committed (xmax u)) in Hs'.
  rewrite from_raw_committed in Hs' by lia. by apply N.leb_le.
Qed.

Lemma exec_safe o m (Q : Label → Prop) :
  (∀ d t, is_panic (harden_commit t d).1 = false) → inv m → safe_op o m = true →
  (∀ t k v, Q (LWrite t k v)) →
  match o with OpBegin _ iso => ∀ t b, Q (LBegin t b iso) | OpGc => Q LGc | _ => True end →
  does (λ m l, safe m l ∧ Q l) (report o (counter m + 1)) m (exec o m).
Proof.
  intros Hd Hi Hs HQ Ho. apply exec_effects; [done|done|].
  destruct o; try done; (split; [|apply HQ]); eapply safe_op_write; eauto.
Qed.

Lemma reports_app ls ls' : reports (ls ++ ls') = reports ls ++ reports ls'.
Proof. apply filter_app. Qed.

(** A safe run is a run of the specification with the same client history. *)
Lemma run_simulation os m A :
  (∀ d t, is_panic (harden_commit t d).1 = false) → inv m → R m A → safe_run os m = true →
  let '(h, m') := run os m in
  ∃ ls A', si_steps A ls A' ∧ R m' A' ∧ reports ls = history h.
Proof.
  intros Hd. revert m A. induction os as [|o os IH]; intros m A Hi HR Hs; simpl.
  { exists [], A. split; [constructor|done]. }
  simpl in Hs. apply andb_true_iff in Hs as [Hs Hs'].
  destruct (exec_safe o m (λ _, True) Hd Hi Hs) as (_ & ls & He & Hr); [done|by destruct o|].
  pose proof (exec_inv o m Hd Hi) as Hi1. destruct (exec o m) as [r m1]. simpl in *.
  assert (effects safe m ls m1) as He'.
  { clear -He. induction He; econstructor; eauto. unfold permitted in *. destruct l; tauto. }
  destruct (effects_simulation m A ls m1 Hi HR He') as (A1 & Hst & HR1).
  specialize (IH m1 A1 Hi1 HR1 Hs'). destruct (run os m1) as [h m2].
  destruct IH as (ls2 & A2 & Hst2 & HR2 & Hr2).
  exists (ls ++ ls2), A2. split; [by eapply si_steps_app|]. split; [done|].
  by rewrite reports_app, Hr, Hr2.
Qed.

(** Operations of a serializable workload: no garbage collection, every
    transaction serializable. *)
Definition serial_op (o : Op) : bool :=
  match o with
  | OpGc => false
  | OpBegin _ iso => match iso with Serializable => true | SnapshotLevel => false end
  | _ => true
  end.

Lemma run_tracked os m A :
  (∀ d t, is_panic (harden_commit t d).1 = false) → inv m → R m A → tracked m A →
  safe_run os m = true → forallb serial_op os = true →
  let '(h, m') := run os m in
  ∃ ls A', si_steps A ls A' ∧ R m' A' ∧ tracked m' A' ∧ inv m' ∧ reports ls = history h.
Proof.
  intros Hd. revert m A. induction os as [|o os IH]; intros m A Hi HR Htr Hs Ho; simpl.
  { exists [], A. split; [constructor|done]. }
  simpl in Hs, Ho. apply andb_true_iff in Hs as [Hs Hs'], Ho as [Ho Ho'].
  destruct (exec_safe o m serial_label Hd Hi Hs) as (_ & ls & He & Hr); [done|by destruct o as [? []| | | | | | |]|].
  pose proof (exec_inv o m Hd Hi) as Hi1. destruct (exec o m) as [r m1]. simpl in *.
  destruct (tracked_effects m A ls m1 Hi HR Htr He) as (A1 & Hst & HR1 & Htr1).
  specialize (IH m1 A1 Hi1 HR1 Htr1 Hs' Ho'). destruct (run os m1) as [h m2].
  destruct IH as (ls2 & A2 & Hst2 & HR2 & Htr2 & Hi2 & Hr2).
  exists (ls ++ ls2), A2. split; [by eapply si_steps_app|]. split; [done|]. split; [done|].
  split; [done|]. by rewrite reports_app, Hr, Hr2.
Qed.

Lemma tracked_fresh m : fresh m → tracked m si_empty.
Proof.
  intros (s & d & c & -> & Hs). split; simpl; try done; [by intros c' ?%not_elem_of_nil|].
  apply new_guarded.
Qed.

End serializable.
