(* ===== verification/Stability.v ===== *)
(** * What other transactions cannot change

    An active transaction's reads are stable: no operation but its own writes
    changes what it reads, whatever the other transactions and the garbage
    collector do. And a finished abort leaves no trace. *)

From stdpp Require Import options.
From S2P Require Import Prelude Core Snapshot Visibility Oracle VStore Ssi SsiFacts SsiOps.
From S2P Require Import SsiSpec Manager ManagerInv ManagerOps VStore SI Refine RefineSteps.
Import SsiWf SsiInv.

Section stability.
Context {S D : Type} `{!VersionedStore S, !VersionedStoreSpec S, !Durability D}.
Abbreviation T := (TxnManager S D).
Implicit Types (m : T) (t : TxnId) (k : Key).

(** What the active transaction [t] reads at [k]. *)
Definition view m t k : option (option Payload) :=
  (λ a, Chain.read (chain_of (store m) k) (snapshot a) (registry m)) <$> active_txns m !! t.

Definition own_write (l : Label) t : Prop := ∃ k v, l = LWrite t k v.

(** Two states in which the words of a chain say the same to a snapshot. *)
Lemma view_ext m m' t a c c' k :
  inv m → inv m' → active_txns m !! t = Some a → 
  (∃ a', active_txns m' !! t = Some a' ∧ snapshot a' = snapshot a) →
  Forall2 (λ v v', payload v = payload v' ∧
    (∀ w w', (w, w') = (xmin v, xmin v') ∨ (w, w') = (xmax v, xmax v') →
       word_ok m k w ∧ word_ok m' k w' ∧
       (w = stamp_of t ∨ settled_by (snap_ts (snapshot a)) w ↔
        w' = stamp_of t ∨ settled_by (snap_ts (snapshot a)) w'))) c c' →
  Chain.read c (snapshot a) (registry m) = Chain.read c' (snapshot a) (registry m').
Proof.
  intros Hi Hi' Ha (a' & Ha' & Esn) HF. apply ChainFacts.read_ext. eapply Forall2_impl; [exact HF|].
  intros v v' [Hp Hw]. split; [|done]. apply eq_true_iff_eq. rewrite !is_visible_in_effect.
  assert (∀ w w', (w, w') = (xmin v, xmin v') ∨ (w, w') = (xmax v, xmax v') →
    in_effect (snapshot a) w (registry m) ↔ in_effect (snapshot a) w' (registry m')) as He.
  { intros w w' Hww. destruct (Hw w w' Hww) as (H1 & H2 & H3).
    rewrite (word_owner m k w t a) by done. rewrite <- Esn.
    rewrite (word_owner m' k w' t a'), Esn by done. done. }
  rewrite (He (xmin v) (xmin v')), (He (xmax v) (xmax v')) by auto. done.
Qed.

Lemma view_same m m' t a k c :
  inv m → inv m' → active_txns m !! t = Some a → 
  (∃ a', active_txns m' !! t = Some a' ∧ snapshot a' = snapshot a) →
  words (word_ok m k) c → words (word_ok m' k) c →
  Chain.read c (snapshot a) (registry m) = Chain.read c (snapshot a) (registry m').
Proof.
  intros Hi Hi' Ha Ha' Hw Hw'. eapply view_ext; try done.
  apply Forall_Forall2_diag, Forall_forall. intros v Hv. split; [done|].
  destruct (Hw v Hv), (Hw' v Hv). intros w w' [[= -> ->]|[= -> ->]]; done.
Qed.

Lemma inv_chain_words m k : inv m → words (word_ok m k) (chain_of (store m) k).
Proof. intros Hi v Hv. by destruct (inv_words m Hi k v Hv) as (_ & ? & ?). Qed.

(** The commit of another transaction. *)
Lemma view_commit m m' t a t' ts k :
  inv m → inv m' → active_txns m !! t = Some a →
  (∃ a', active_txns m' !! t = Some a' ∧ snapshot a' = snapshot a) → t' ≠ t →
  snap_ts (snapshot a) < ts → ts ≤ MAX_TIMESTAMP →
  chain_of (store m') k = Chain.commit (stamp_of t') ts (chain_of (store m) k) →
  Chain.read (chain_of (store m) k) (snapshot a) (registry m) =
    Chain.read (chain_of (store m') k) (snapshot a) (registry m').
Proof.
  intros Hi Hi' Ha Ha' Hne Hts Hmax Hch. eapply view_ext; try done. pose proof (inv_chain_words m' k Hi') as Hw'.
  rewrite Hch in *. apply Forall2_fmap_r, Forall_Forall2_diag, Forall_forall. intros v Hv.
  destruct (inv_chain_words m k Hi v Hv) as [W1 W2].
  destruct (Hw' (Chain.settle_version (stamp_of t') ts v)) as [W1' W2'];
    [by apply elem_of_chain_commit; eauto|].
  assert (∀ w, w = stamp_of t ∨ settled_by (snap_ts (snapshot a)) w ↔
    settle (stamp_of t') ts w = stamp_of t ∨
    settled_by (snap_ts (snapshot a)) (settle (stamp_of t') ts w)) as Hset.
  { intros w. unfold settle. destruct (N.eqb_spec w (stamp_of t')) as [->|]; [|done].
    rewrite MAX_TIMESTAMP_val in Hmax. unfold settled_by, stamp_of in *. lia. }
  split; [done|]. intros w w' [[= -> ->]|[= -> ->]]; split; try done; (split; [done|apply Hset]).
Qed.

Lemma effect_snapshot m l m' t a a' :
  inv m → effect m l m' → active_txns m !! t = Some a → active_txns m' !! t = Some a' →
  snapshot a' = snapshot a.
Proof.
  intros Hi He Ha Ha'. destruct He; try (simpl in Ha'; congruence).
  - unfold begin_post in Ha'. simpl in Ha'. destruct (inv_active m Hi t a Ha) as (_ & _ & ?).
    rewrite lookup_insert_ne in Ha' by lia. congruence.
  - rewrite touch_active in Ha'. case_decide; subst; [|congruence].
    rewrite Ha in Ha'. by injection Ha' as <-.
  - simpl in Ha'. rewrite lookup_alter in Ha'. case_decide; subst; [|congruence].
    rewrite Ha in Ha'. by injection Ha' as <-.
  - simpl in Ha'. apply lookup_delete_Some in Ha' as [_ Ha']. congruence.
  - simpl in Ha'. apply lookup_delete_Some in Ha' as [_ Ha']. congruence.
  - rewrite gc_post_eq in Ha'. simpl in Ha'. congruence.
Qed.

Lemma effect_view m l m' t a :
  inv m → effect m l m' → ¬ own_write l t → active_txns m !! t = Some a →
  is_Some (active_txns m' !! t) → ∀ k, view m' t k = view m t k.
Proof.
  intros Hi He Hown Ha [a' Ha'] k. unfold view. rewrite Ha, Ha'. simpl. f_equal.
  rewrite (effect_snapshot m l m' t a a') by done. symmetry.
  assert (∃ a', active_txns m' !! t = Some a' ∧ snapshot a' = snapshot a) as Hex.
  { exists a'. split; [done|]. by eapply effect_snapshot. }
  pose proof (effect_inv m l m' He Hi) as Hi'.
  pose proof (inv_chain_words m k Hi) as Hw. pose proof (inv_chain_words m' k Hi') as Hw'.
  assert (chain_of (store m') k = chain_of (store m) k →
    Chain.read (chain_of (store m) k) (snapshot a) (registry m) =
    Chain.read (chain_of (store m') k) (snapshot a) (registry m')) as Hsame.
  { intros E. rewrite E in *. by apply (view_same m m' t a k). }
  assert (∀ t', t' ≠ t → is_Some (active_txns m !! t') →
    ¬ in_effect (snapshot a) (stamp_of t') (registry m)) as Hst.
  { intros t' Hne Hs. by apply (stamp_not_in_effect m t). }
  destruct He as [now iso Hn Hc|Hc|d|now t0|t0 k0 H0 Hh|t0 a0 k0 H0|t0 a0 k0 p s' H0 Hk Hf Hch
    |t0 a0 k0 c s' H0 Hk Hf Hx Hch|s' Hch|t0 a0 s' H0 Hch|t0 a0 d s' H0 Hc Hd Hch|];
    try (by apply Hsame).
  - assert (t0 ≠ t) by (intros ->; apply Hown; by do 2 eexists). simpl in *. rewrite Hch.
    case_decide; [subst|done]. rewrite ChainFacts.create_other; [done|]. apply Hst; [done|by rewrite H0].
  - assert (t0 ≠ t) by (intros ->; apply Hown; by do 2 eexists). simpl in *. rewrite Hch.
    case_decide; [subst|done]. rewrite (ChainFacts.expire_other (stamp_of t0) (chain_of (store m) k0) c); [done| |done].
    apply Hst; [done|by rewrite H0].
  - assert (t0 ≠ t) by (intros ->; simpl in Ha'; by rewrite lookup_delete_eq in Ha').
    rewrite <- (ChainFacts.abort_other (stamp_of t0)) by (apply Hst; [done|by rewrite H0]).
    simpl in Hw' |- *. rewrite Hch in Hw' |- *.
    apply (view_same m (abort_post m t0 a0 s') t a k); try done.
    intros v (v0 & Hv0 & _ & ->)%elem_of_chain_abort. destruct (Hw v0 Hv0). simpl. split; [done|].
    unfold settle. destruct (xmax v0 =? stamp_of t0); [by left|done].
  - assert (t0 ≠ t) by (intros ->; simpl in Ha'; by rewrite lookup_delete_eq in Ha').
    destruct (inv_active_bound m t a Hi Ha) as (_ & _ & _ & ?).
    eapply (view_commit m _ t a t0 (counter m + 1)); try done; lia.
  - rewrite gc_post_eq. fields. rewrite gc_spec. symmetry. rewrite gc_post_eq in Hw', Hi', Ha', Hex.
    set (m' := mkManager _ _ _ _ _ _ _ _) in *.
    rewrite <- (view_same m m' t a k); try done.
    + apply ChainFacts.read_filter. intros v Hv Hr. apply not_true_is_false in Hr.
      apply not_true_is_false. rewrite is_visible_in_effect. intros [_ Hx]. apply Hx.
      destruct (gc_dropped m k v Hi Hv Hr) as (? & ? & Hle).
      apply (word_owner m k (xmax v) t a); [done|by apply Hw|done|]. right. split; [done|].
      apply Hle. by eapply live_active.
    + intros v [_ Hv]%list_elem_of_filter. by apply Hw.
    + intros v Hv. apply Hw'. simpl. by rewrite gc_spec.
Qed.

(** Operations other than [t]'s own writes. *)
Definition foreign t (o : Op) : bool :=
  match o with OpWrite _ t' _ _ | OpDelete _ t' _ => negb (t' =? t) | _ => true end.

(** Transactions never come back. *)
Lemma effect_active m l m' t :
  effect m l m' → is_Some (active_txns m' !! t) → t ≤ next_txn_id m →
  is_Some (active_txns m !! t) ∧ t ≤ next_txn_id m'.
Proof.
  intros He [a Ha] Hle. destruct He; try (simpl in *; eauto; done).
  - unfold begin_post in *. simpl in *. rewrite lookup_insert_ne in Ha by lia. split; [eauto|lia].
  - rewrite touch_active in Ha. case_decide; [subst|eauto].
    apply fmap_Some in Ha as (a0 & -> & _). eauto.
  - simpl in *. rewrite lookup_alter in Ha. case_decide; [subst|eauto].
    apply fmap_Some in Ha as (a0 & -> & _). eauto.
  - simpl in *. apply lookup_delete_Some in Ha as [_ Ha]. eauto.
  - simpl in *. apply lookup_delete_Some in Ha as [_ Ha]. eauto.
  - rewrite gc_post_eq in *. simpl in *. eauto.
Qed.

Lemma effects_view P m ls m' t :
  effects P m ls m' → inv m → t ≤ next_txn_id m → is_Some (active_txns m' !! t) →
  (∀ l, l ∈ ls → ¬ own_write l t) →
  is_Some (active_txns m !! t) ∧ ∀ k, view m' t k = view m t k.
Proof.
  induction 1 as [m|m l m1 ls m2 Hp He Hes IH]; intros Hi Hle Ht Hl; [done|].
  pose proof (effect_inv m l m1 He Hi) as Hi1.
  assert (t ≤ next_txn_id m1) as Hle1.
  { destruct He; simpl in *; try done; [lia|]. by rewrite gc_post_eq. }
  destruct (IH Hi1 Hle1 Ht) as [Ht1 Hv]; [intros l' ?; apply Hl; set_solver|].
  destruct (effect_active m l m1 t He Ht1 Hle) as [[a Ha] _]. split; [by eexists|].
  intros k. rewrite Hv. eapply effect_view; eauto. apply Hl. set_solver.
Qed.

Lemma own_write_reports ls t l : l ∈ ls → own_write l t → l ∈ reports ls.
Proof. intros Hin (k & v & ->). unfold reports. by apply list_elem_of_filter. Qed.

Lemma exec_view o m t k :
  (∀ d t, is_panic (harden_commit t d).1 = false) → inv m → foreign t o = true →
  t ≤ next_txn_id m → is_Some (active_txns (exec o m).2 !! t) →
  is_Some (active_txns m !! t) ∧ view (exec o m).2 t k = view m t k.
Proof.
  intros Hd Hi Hf Hle Ht.
  destruct (exec_effects (λ _ _, True) o m Hd Hi) as (_ & ls & He & Hr); [by destruct o|].
  destruct (effects_view _ m ls _ t He Hi Hle Ht) as [Ha Hv].
  - intros l Hin Hown. pose proof (own_write_reports ls t l Hin Hown) as Hrep. rewrite Hr in Hrep.
    destruct Hown as (k' & v & ->). destruct o; simpl in *; repeat case_match; simplify_eq;
      try set_solver; apply list_elem_of_singleton in Hrep; simplify_eq; by rewrite N.eqb_refl in Hf.
  - split; [done|]. apply Hv.
Qed.

Lemma exec_next o m :
  (∀ d t, is_panic (harden_commit t d).1 = false) → inv m →
  next_txn_id m ≤ next_txn_id (exec o m).2.
Proof.
  intros Hd Hi. destruct (exec_effects (λ _ _, True) o m Hd Hi) as (_ & ls & He & _); [by destruct o|].
  induction He as [|m l m1 ls m2 _ He _ IH]; [done|]. pose proof (effect_inv m l m1 He Hi) as Hi1.
  trans (next_txn_id m1); [|auto]. destruct He; simpl; try done; [lia|]. by rewrite gc_post_eq.
Qed.

Lemma run_view os m t k :
  (∀ d t, is_panic (harden_commit t d).1 = false) → inv m → forallb (foreign t) os = true →
  t ≤ next_txn_id m → is_Some (active_txns (run os m).2 !! t) →
  is_Some (active_txns m !! t) ∧ view (run os m).2 t k = view m t k.
Proof.
  intros Hd. revert m. induction os as [|o os IH]; intros m Hi Hf Hle Ht; [done|].
  simpl in Hf. apply andb_true_iff in Hf as [Hf Hfs].
  pose proof (exec_inv o m Hd Hi) as Hi1. pose proof (exec_next o m Hd Hi) as Hn.
  pose proof (exec_view o m t k Hd Hi Hf Hle) as Hv.
  simpl in Ht |- *. destruct (exec o m) as [r m1]. simpl in *. specialize (IH m1 Hi1 Hfs).
  destruct (run os m1) as [h m2]. simpl in *. destruct IH as [H1 H2]; [lia|done|].
  destruct (Hv H1). split; [done|]. congruence.
Qed.

End stability.
