(* ===== verification/TxnTheorems.v ===== *)
(** * graphus-txn: the theorems

    Properties of the transaction manager over every store that meets
    [VersionedStoreSpec], with runs of the in-memory store as instances, and the
    runs on which serializability fails. *)

From stdpp Require Import options.
From S2P Require Import Prelude Core Snapshot Visibility Oracle VStore Ssi SsiFacts SsiOps.
From S2P Require Import SsiSpec SsiSafe Manager ManagerInv ManagerOps VStore SI Serial Refine.
From S2P Require Import RefineSteps Isolation Stability.
Import SsiWf SsiInv.

Abbreviation MemManager := (TxnManager MemVersionedStore NoDurability).

(** The manager over the in-memory store, just opened. *)
Definition mem_manager : MemManager := Manager.with_durability Mem.new mkNoDurability.

Lemma mem_manager_fresh : fresh mem_manager.
Proof. exists Mem.new, mkNoDurability, default_config. split; [done|]. intros k. reflexivity. Qed.

Lemma no_durability_total (d : NoDurability) (t : TxnId) : is_panic (harden_commit t d).1 = false.
Proof. reflexivity. Qed.

Section theorems.
Context {S D : Type} `{!VersionedStore S, !VersionedStoreSpec S, !Durability D}.
Abbreviation T := (TxnManager S D).
Implicit Types (m : T) (t : TxnId) (k : Key).

(** The durability hook may fail but does not panic. *)
Definition hook_total : Prop := ∀ (d : D) t, is_panic (harden_commit t d).1 = false.

(** C1: Serializability. From a fresh manager, run any operations of serializable
    transactions without garbage collection, in which no write hits a key deleted
    by a transaction that committed after the writer's snapshot. Then the
    committed transactions have an order in which running their reads and writes
    one transaction at a time returns every value the clients were given, and
    ends in the state the manager ends in. *)
Theorem manager_serializable m os :
  hook_total → fresh m → safe_run os m = true → forallb serial_op os = true →
  let '(h, m') := run os m in
  ∃ order st,
    order ≡ₚ commits_of (history h) ∧
    replay ((λ t, events_of t (history h)) <$> order) ∅ = Some st ∧
    ∀ k, cread (chain_of (store m') k) (counter m') = st !! k.
Proof.
  intros Hd Hf Hs Ho.
  pose proof (run_tracked os m si_empty Hd (fresh_inv m Hf) (R_fresh m Hf) (tracked_fresh m Hf) Hs Ho) as Hr.
  destruct (run os m) as [h m']. destruct Hr as (ls & A & Hst & HR & Htr & Hi & Hrep).
  pose proof (si_steps_wf _ _ _ Hst si_empty_wf) as Hwf.
  pose proof (shows_steps [] _ _ _ Hst si_empty_wf shows_empty) as [_ Hlog Hcs _]. simpl in *.
  destruct (serial_replay A Hwf (tracked_safe m' A Hi Htr)) as (Hperm & st & Hst' & Hfin).
  exists (c_txn <$> serial_order (si_commits A)), st. split; [|split].
  - rewrite Hperm, Hcs, <- Hrep, commits_of_reports. apply reverse_Permutation.
  - rewrite <- Hst'. f_equal. rewrite <- list_fmap_compose. apply list_fmap_ext. intros i c Hc.
    simpl. rewrite <- Hrep, events_of_reports. symmetry. apply Hlog.
    rewrite <- Hperm. by eapply list_elem_of_lookup_2.
  - intros k. pose proof (inv_counter m' Hi). rewrite (R_committed m' A HR).
    + symmetry. apply Hfin. intros c Hc. by destruct (R_clock m' A HR c Hc) as (_ & ? & _).
    + split; [done|by left].
Qed.

(** C2: Snapshot isolation. Every safe run of a fresh manager, garbage collection
    and mixed isolation levels included, is a run of the specification [si_step]
    in which the clients see the same begins, reads, writes and commits. *)
Theorem manager_snapshot_isolation m os :
  hook_total → fresh m → safe_run os m = true →
  let '(h, m') := run os m in
  ∃ ls A, si_steps si_empty ls A ∧ reports ls = history h ∧
    (∀ t, (λ a, snap_ts (snapshot a)) <$> active_txns m' !! t = fst <$> si_active A !! t) ∧
    (∀ t b log k, si_active A !! t = Some (b, log) →
       view m' t k = Some (si_value (si_commits A) b log k)).
Proof.
  intros Hd Hf Hs.
  pose proof (run_simulation os m si_empty Hd (fresh_inv m Hf) (R_fresh m Hf) Hs) as Hr.
  pose proof (run_inv os m Hd (fresh_inv m Hf)) as Hi.
  destruct (run os m) as [h m']. destruct Hr as (ls & A & Hst & HR & Hrep).
  exists ls, A. split; [done|]. split; [done|]. split; [apply (R_active m' A HR)|].
  intros t b log k HA. destruct (R_lookup_inv m' A t b log HR HA) as (a & Ha & <-).
  unfold view. rewrite Ha. simpl. f_equal. by apply (own_read m' A t).
Qed.


(** C21: Repeatable reads. While a transaction stays active, operations other than
    its own writes, whoever issues them and garbage collection among them, do not
    change what it reads at any key. *)
Theorem repeatable_read m os t k :
  hook_total → inv m → is_Some (active_txns m !! t) → forallb (foreign t) os = true →
  is_Some (active_txns (run os m).2 !! t) → view (run os m).2 t k = view m t k.
Proof.
  intros Hd Hi [a Ha] Hf Ht. destruct (inv_active m Hi t a Ha) as (_ & _ & ?).
  by apply run_view.
Qed.

(** A transaction that is gone: it is not active, no version mentions it and
    its snapshot no longer holds the low-water mark back. *)
Definition gone m t (b : Timestamp) : Prop :=
  active_txns m !! t = None ∧ active_begins (oracle m) !! b = None ∧
  ∀ k v, v ∈ chain_of (store m) k → xmin v ≠ stamp_of t ∧ xmax v ≠ stamp_of t.

Lemma inactive_gone m t b :
  inv m → active_txns m !! t = None →
  (∀ t' a, active_txns m !! t' = Some a → snap_ts (snapshot a) ≠ b) → gone m t b.
Proof.
  intros Hi Hn Hb. split; [done|]. split.
  - apply eq_None_not_Some. intros [c (_ & t' & a & Ha & E)%(inv_begins m Hi)]. by apply (Hb t' a).
  - intros k v Hv. split; intros E; destruct (stamp_held m t k Hi) as (a & Ha & _);
      [by exists v; auto|congruence|by exists v; auto|congruence].
Qed.

Lemma deleted_gone m m' t a :
  inv m → inv m' → active_txns m !! t = Some a → active_txns m' ⊆ delete t (active_txns m) →
  gone m' t (snap_ts (snapshot a)).
Proof.
  intros Hi Hi' Ha Hsub.
  assert (∀ t' a', active_txns m' !! t' = Some a' → t ≠ t' ∧ active_txns m !! t' = Some a') as Hl.
  { intros t' a' Ha'. apply (lookup_weaken _ _ _ _ Ha') in Hsub. by apply lookup_delete_Some in Hsub. }
  apply inactive_gone; [done| |].
  - destruct (active_txns m' !! t) as [a'|] eqn:E; [|done]. by destruct (Hl t a' E).
  - intros t' a' [Hne Ha']%Hl E. apply Hne. by apply (inv_begin_inj m Hi t t' a a').
Qed.

(** A commit settles the transaction either way. Committing an active
    transaction answers with a fresh timestamp, above every one issued before, and
    records it as committed; or answers with an error (a serialization failure,
    an exhausted oracle, a failed hardening) and records it as aborted. In both
    cases it is gone: no header word mentions it any more. It never panics. *)
Theorem commit_outcome m t a :
  hook_total → inv m → active_txns m !! t = Some a →
  match Manager.commit t m with
  | (Ok ts, m') => ts = counter m + 1 ∧ Registry.outcome (registry m') t = OCommitted ts ∧
      gone m' t (snap_ts (snapshot a))
  | (Err _, m') => Registry.outcome (registry m') t = OAborted ∧ gone m' t (snap_ts (snapshot a))
  | (Panic _, _) => False
  end.
Proof.
  intros Hd Hi Ha. destruct (commit_cases m t a Hd Hi Ha) as
    [(e & m1 & a1 & s' & -> & Hi1 & Ha1 & <- & Hch)|(m1 & d & s' & -> & Hi1 & Ha1 & <- & Hlt & Hch)].
  - split; [simpl; unfold Registry.record_abort; rewrite Registry.outcome_insert; by rewrite decide_True|].
    apply (deleted_gone m1); [done|by apply inv_abort|done|done].
  - split; [done|]. split.
    { simpl. unfold Registry.record_commit. rewrite Registry.outcome_insert. by rewrite decide_True. }
    apply (deleted_gone m1); [done|by apply inv_commit|done|done].
Qed.

(** Rolling back an active transaction succeeds and erases it: it is recorded
    as aborted, it is gone from the active table, the oracle and every version
    chain, the conflict tracker forgets it, and nobody else's reads change.
    Rolling back an inactive one is an error that changes nothing. *)
Theorem rollback_outcome m t :
  inv m →
  match active_txns m !! t with
  | None => is_ok (Manager.rollback t m).1 = false ∧ (Manager.rollback t m).2 = m
  | Some a =>
      let m' := (Manager.rollback t m).2 in
      (Manager.rollback t m).1 = Ok tt ∧ Registry.outcome (registry m') t = OAborted ∧
      gone m' t (snap_ts (snapshot a)) ∧ Ssi.tracks (ssi m') t = false ∧
      ∀ t' k, t' ≠ t → view m' t' k = view m t' k
  end.
Proof.
  intros Hi. pose proof (rollback_run m t Hi) as Hr.
  destruct (active_txns m !! t) as [a|] eqn:Ha; [|by destruct Hr as [e ->]].
  destruct Hr as (s' & -> & Hch). cbn [fst snd].
  pose proof (inv_abort m t a s' Hi Ha Hch) as Hi'.
  split; [done|]. split.
  { simpl. unfold Registry.record_abort. rewrite Registry.outcome_insert. by rewrite decide_True. }
  split; [by apply (deleted_gone m)|]. split.
  - unfold Ssi.tracks, abort_post. fields. rewrite forget_doomed.
    rewrite forget_lookup by apply (inv_ssi m Hi). rewrite decide_True by done.
    rewrite !bool_decide_eq_false_2; [done|set_solver|by intros []].
  - intros t' k Hne. destruct (active_txns m !! t') as [a'|] eqn:Ha'.
    + eapply (effect_view m (LAbort t)); [done|by apply eff_abort|by intros (? & ? & ?)|done|].
      simpl. by rewrite lookup_delete_ne, Ha'.
    + unfold view. simpl. by rewrite lookup_delete_ne, Ha'.
Qed.

Lemma head_committed_later m (a : ActiveTxn) k v c :
  head (chain_of (store m) k) = Some v → from_raw (xmin v) = VsCommitted c →
  snap_ts (snapshot a) < c → ¬ fcw_ok m a k.
Proof. intros Hh Hx Hlt Hf. specialize (Hf v c Hh Hx). lia. Qed.

(** The writes of the other transactions. *)
Lemma write_ok_effect now t k p m a m' :
  inv m → active_txns m !! t = Some a → Manager.write now t k p m = (Ok tt, m') →
  Manager.holder m t k = None ∧ fcw_ok m a k ∧
  effect (admitted now t k m) (LWrite t k (Some p)) m' ∧ 
  chain_of (store m') k = Chain.create (stamp_of t) p (chain_of (store m) k) ∧
  registry m' = registry m ∧ active_txns m' = active_txns (admitted now t k m).
Proof.
  intros Hi Ha. rewrite write_guarded.
  pose proof (guarded_run now t k (on_store (create_version k t p)) m) as Hg. rewrite Ha in Hg.
  destruct (decide (Manager.holder m t k = None)) as [Hh|]; [|by destruct Hg as [e ->]].
  destruct (decide (fcw_ok m a k)) as [Hf|]; [|by destruct Hg as [e ->]]. rewrite Hg.
  assert (in_flight t = Ok (stamp_of t)) as Hst by (apply (inv_stamp m); [done|by rewrite Ha]).
  pose proof (create_version_spec (store m) k t (stamp_of t) p Hst) as Hs.
  unfold on_store. change (store (admitted now t k m)) with (store m).
  destruct (create_version k t p (store m)) as [[| |] s']; [| |done]; [|done].
  intros [= <-]. split; [done|]. split; [done|]. split.
  { eapply (eff_write (admitted now t k m)); [by apply admitted_active|simpl; set_solver|exact Hf|exact Hs]. }
  split; [|done]. simpl. rewrite Hs. by rewrite decide_True.
Qed.

(** First-updater-wins and first-committer-wins. A write to a key that another
    active transaction has written, or whose newest version was committed after
    the writer's snapshot, fails and changes no version chain. A write that
    succeeds is what its transaction reads next, and no other transaction sees
    it. *)
Theorem write_outcome m now t a k p :
  inv m → active_txns m !! t = Some a →
  let '(r, m') := Manager.write now t k p m in
  ((∃ t' a', t' ≠ t ∧ active_txns m !! t' = Some a' ∧ k ∈ written a') ∨
   (∃ v c, head (chain_of (store m) k) = Some v ∧ from_raw (xmin v) = VsCommitted c ∧
      snap_ts (snapshot a) < c) →
   is_ok r = false ∧ ∀ k', chain_of (store m') k' = chain_of (store m) k') ∧
  (r = Ok tt → view m' t k = Some (Some p) ∧
     ∀ t' k', t' ≠ t → view m' t' k' = view m t' k').
Proof.
  intros Hi Ha. destruct (Manager.write now t k p m) as [r m'] eqn:Ew. split.
  - intros Hcf. rewrite write_guarded in Ew.
    pose proof (guarded_run now t k (on_store (create_version k t p)) m) as Hg. rewrite Ha in Hg.
    destruct (decide (Manager.holder m t k = None)) as [Hh|];
      [|destruct Hg as [e Hg]; rewrite Hg in Ew; by injection Ew as <- <-].
    destruct (decide (fcw_ok m a k)) as [Hf|];
      [|destruct Hg as [e Hg]; rewrite Hg in Ew; by injection Ew as <- <-].
    destruct Hcf as [(t' & a' & Hne & Ha' & Hk)|(v & c & Hv & Hx & Hlt)].
    + destruct Hne. by eapply holder_None.
    + by eapply head_committed_later in Hf.
  - intros ->. destruct (write_ok_effect now t k p m a m' Hi Ha Ew) as (Hh & _ & He & Hch & Hreg & Hact).
    assert (inv (admitted now t k m)) as Hia.
    { eapply (effects_inv (λ _ _, True)); [apply admitted_effects; [by rewrite Ha|done]|done]. }
    split.
    + unfold view. rewrite Hact, (admitted_active now t k m a Ha), Hch, Hreg. simpl. f_equal.
      destruct (inv_active m Hi t a Ha) as (Ho & _ & _).
      destruct (inv_active_bound m t a Hi Ha) as (? & ? & _).
      apply ChainFacts.create_own. unfold stamp_of. apply in_effect_in_flight; [done|done|by left].
    + intros t' k' Hne. unfold view at 1. rewrite Hact. fold (view (admitted now t k m) t' k').
      destruct (active_txns m !! t') as [a'|] eqn:Ha'.
      2:{ unfold view. simpl. by rewrite !lookup_alter_ne, Ha'. }
      assert (active_txns (admitted now t k m) !! t' = Some a') as Hat'
        by (simpl; by rewrite !lookup_alter_ne).
      trans (view (admitted now t k m) t' k'); [|unfold view; by rewrite Hat', Ha'].
      rewrite <- (effect_view (admitted now t k m) (LWrite t k (Some p)) m' t' a'); try done.
      * unfold view. by rewrite Hact.
      * intros (? & ? & [=]). congruence.
      * by rewrite Hact, Hat'.
Qed.

(** Garbage collection. It reports exactly the versions and registry entries it
    reclaims, no active transaction reads anything else after it, every version
    it leaves is live, expired by a running transaction or expired after the
    low-water mark, and the next begin and commit get the same timestamps. *)
Theorem gc_outcome_spec m :
  inv m →
  let '(rep, m') := Manager.run_gc m in
  (versions_reclaimed rep + version_count (store m') = version_count (store m))%nat ∧
  (txns_pruned rep + Manager.registry_len m' = Manager.registry_len m)%nat ∧
  (∀ t k, view m' t k = view m t k) ∧
  (∀ k v, v ∈ chain_of (store m') k → xmax v = 0 ∨
     (∃ t a, xmax v = stamp_of t ∧ active_txns m !! t = Some a) ∨
     ∃ l, gc_low_water rep = Some l ∧ l < xmax v) ∧
  oracle m' = oracle m ∧ active_txns m' = active_txns m.
Proof.
  intros Hi. pose proof (gc_post_eq m) as Hm. unfold gc_post in Hm.
  destruct (Manager.run_gc m) as [rep m'] eqn:E. simpl in Hm.
  assert (gc_low_water rep = Manager.low_water_mark m ∧
    versions_reclaimed rep = (store_gc (Manager.low_water_mark m) (registry m) (store m)).1 ∧
    txns_pruned rep = (Registry.prune_settled (Manager.low_water_mark m) (registry m)).1) as (-> & -> & ->).
  { unfold Manager.run_gc, collect in E.
    destruct (store_gc (Manager.low_water_mark m) (registry m) (store m)). simpl in E.
    injection E as <- <-. done. }
  assert (m' = gc_post m) as Hg by (unfold gc_post; by rewrite E).
  split; [rewrite Hm; apply gc_count|]. split; [rewrite Hm; apply Registry.prune_settled_count|].
  split.
  { intros t k. rewrite Hg. destruct (active_txns m !! t) as [a|] eqn:Ha.
    - eapply (effect_view m LGc); [done|constructor|by intros (? & ? & ?)|done|].
      rewrite gc_post_eq. simpl. by rewrite Ha.
    - unfold view. rewrite gc_post_eq. simpl. by rewrite Ha. }
  split; [|by rewrite Hm].
  intros k v. rewrite Hm. simpl. rewrite gc_spec. intros [Hr Hv]%list_elem_of_filter.
  destruct (inv_words m Hi k v Hv) as (_ & _ & [?|[(c & Ec & H0 & Hc)|(t & a & Et & Ha & _)]]);
    [by left|right; right|right; left; eauto].
  unfold Chain.retained, Registry.resolve_commit_ts in Hr. pose proof (inv_counter m Hi).
  rewrite Ec, from_raw_committed in Hr by lia.
  destruct (Manager.low_water_mark m) as [l|]; [|done]. exists l. split; [done|].
  rewrite Ec. by apply N.ltb_lt.
Qed.

(** Reaping. Exactly the transactions idle for at least the configured timeout
    are rolled back, their number is the answer, and the others stay active and
    read what they read before. *)
Theorem reap_outcome m now :
  inv m →
  let '(r, m') := Manager.reap_idle_as_of now m in
  (∃ victims, r = Ok (length victims) ∧ NoDup victims ∧
     ∀ t, t ∈ victims ↔ ∃ a, active_txns m !! t = Some a ∧
       idle_timeout (config m) ≤ now - last_active a) ∧
  (∀ t a, active_txns m !! t = Some a →
     if decide (idle_timeout (config m) ≤ now - last_active a)
     then gone m' t (snap_ts (snapshot a))
     else active_txns m' !! t = Some a ∧ ∀ k, view m' t k = view m t k).
Proof.
  intros Hi. destruct (reap_run (λ _ _, True) now m Hi) as (m' & -> & He & Hact). split.
  { exists (Manager.idle_victims now m). split; [done|]. split; [apply NoDup_idle_victims|].
    apply elem_of_idle_victims. }
  pose proof (effects_inv _ _ _ _ He Hi) as Hi'.
  intros t a Ha. specialize (elem_of_idle_victims now m t) as Hv.
  case_decide as Hidle.
  - apply (deleted_gone m); try done. apply map_subseteq_spec. intros t' a'. rewrite Hact.
    case_decide; [done|]. intros Ha'. apply lookup_delete_Some. split; [|done]. intros <-.
    naive_solver.
  - assert (active_txns m' !! t = Some a) as Ha'.
    { rewrite Hact. case_decide as Hin; [|done]. apply Hv in Hin as (a' & ? & ?). naive_solver. }
    split; [done|]. destruct (inv_active m Hi t a Ha) as (_ & _ & ?).
    apply (effects_view _ m _ m' t He Hi); [done|by rewrite Ha'|].
    intros l (t' & -> & _)%list_elem_of_fmap. by intros (? & ? & ?).
Qed.

End theorems.

(** ** Runs over the in-memory store *)

Definition ser : Op := OpBegin 0 Serializable.

(** Two transactions read two keys and each writes one of them, then a third
    deletes a key: the write skew is caught and the rest commits. *)
Definition skew_ops : list Op :=
  [ser; OpWrite 0 1 7 [1]; OpWrite 0 1 8 [2]; OpCommit 1;
   ser; ser; OpRead 0 2 7; OpRead 0 2 8; OpRead 0 3 7; OpRead 0 3 8;
   OpWrite 0 2 7 [3]; OpWrite 0 3 8 [4]; OpCommit 2; OpCommit 3;
   ser; OpRead 0 4 7; OpDelete 0 4 8; OpRead 0 4 8; OpCommit 4].

(** No order of the committed transactions explains what the clients read. *)
Definition not_serializable (os : list Op) : Prop :=
  ∀ order, order ≡ₚ commits_of (history (run os mem_manager).1) →
    replay ((λ t, events_of t (history (run os mem_manager).1)) <$> order) ∅ = None.

Lemma all_orders (Q : list TxnId → bool) l order :
  forallb Q (permutations l) = true → order ≡ₚ l → Q order = true.
Proof.
  intros H Hp. symmetry in Hp. apply permutations_Permutation, list_elem_of_In in Hp.
  rewrite forallb_forall in H. auto.
Qed.

Lemma not_serializable_intro os :
  forallb (λ order, bool_decide (replay ((λ t, events_of t (history (run os mem_manager).1)) <$> order) ∅ = None))
    (permutations (commits_of (history (run os mem_manager).1))) = true →
  not_serializable os.
Proof. intros H order Hp. apply (all_orders _ _ _ H) in Hp. by apply bool_decide_eq_true in Hp. Qed.

(** *** Garbage collection hides a dangerous structure *)

(** A read-only anomaly: 1 reads around 2, then 3 begins after 2 committed,
    1 commits, and 3 reads 2's write but not 1's. *)
Definition read_only_anomaly (gc : list Op) : list Op :=
  [ser; ser; OpRead 0 1 1; OpWrite 0 2 1 [22]; OpCommit 2;
   ser; OpWrite 0 1 2 [11]; OpCommit 1] ++ gc ++
  [OpRead 0 3 1; OpRead 0 3 2; OpCommit 3].

(** C22: With a collection after the second commit all three transactions commit,
    although no serial order of them explains what they read; without it the
    third is aborted. The collection makes the conflict tracker forget 2, which
    committed before the only running transaction began, and with it the edge
    that makes 1 a pivot. *)
Theorem gc_hides_dangerous_structure :
  not_serializable (read_only_anomaly [OpGc]) ∧
  commits_of (history (run (read_only_anomaly [OpGc]) mem_manager).1) = [2; 1; 3] ∧
  commits_of (history (run (read_only_anomaly []) mem_manager).1) = [2; 1].
Proof. split; [|split]; [apply not_serializable_intro| |]; vm_compute; reflexivity. Qed.

(** *** A concurrent delete escapes first-committer-wins *)

(** 3 deletes the key and commits; 2, whose snapshot predates the delete,
    overwrites the key it read and commits too. *)
Definition lost_delete : list Op :=
  [ser; OpWrite 0 1 1 [1]; OpCommit 1; ser; ser; OpRead 0 2 1; OpDelete 0 3 1; OpCommit 3;
   OpWrite 0 2 1 [2]; OpCommit 2].

(** C23: Both commit. The only serial orders that explain 2's read put the delete
    last, but the key ends with 2's value. *)
Theorem lost_update_after_delete :
  let '(h, m) := run lost_delete mem_manager in
  commits_of (history h) = [1; 3; 2] ∧
  cread (chain_of (store m) 1) (counter m) = Some [2] ∧
  ∀ order st, order ≡ₚ commits_of (history h) →
    replay ((λ t, events_of t (history h)) <$> order) ∅ = Some st → st !! 1 = None.
Proof.
  assert (commits_of (history (run lost_delete mem_manager).1) = [1; 3; 2] ∧
    cread (chain_of (store (run lost_delete mem_manager).2) 1) (counter (run lost_delete mem_manager).2)
      = Some [2]) as [Hc Hr] by (split; vm_compute; reflexivity).
  assert (forallb (λ order, match replay ((λ t, events_of t (history (run lost_delete mem_manager).1)) <$> order) ∅ with
    | Some st => bool_decide (st !! 1 = None) | None => true end) (permutations [1; 3; 2]) = true) as Hp
    by (vm_compute; reflexivity).
  destruct (run lost_delete mem_manager) as [h m]. split; [done|]. split; [done|].
  intros order st Ho Hst. change (order ≡ₚ commits_of (history h)) in Ho.
  cbn [fst] in Hc. rewrite Hc in Ho. apply (all_orders _ _ _ Hp) in Ho. cbn [fst] in Ho.
  rewrite Hst in Ho. by apply bool_decide_eq_true in Ho.
Qed.

(** 2 overwrites the key 3 deleted, deletes it again and reads it. *)
Definition resurrect : list Op :=
  [ser; OpWrite 0 1 1 [1]; OpCommit 1; ser; ser; OpDelete 0 3 1; OpCommit 3;
   OpWrite 0 2 1 [2]; OpDelete 0 2 1; OpRead 0 2 1].

(** A transaction that deletes the value it has just written over a
    concurrently deleted key reads the old value back. *)
Theorem own_delete_resurrects :
  (λ x, x.2) <$> last (run resurrect mem_manager).1 = Some (Ok (RValue (Some [1]))).
Proof. vm_compute. reflexivity. Qed.

(** ** The theorems at work *)

Lemma manager_serializable_witness :
  let '(h, m') := run skew_ops mem_manager in
  ∃ order st,
    order ≡ₚ commits_of (history h) ∧
    replay ((λ t, events_of t (history h)) <$> order) ∅ = Some st ∧
    ∀ k, cread (chain_of (store m') k) (counter m') = st !! k.
Proof.
  apply (manager_serializable mem_manager skew_ops);
    [exact no_durability_total|exact mem_manager_fresh|vm_compute; reflexivity|reflexivity].
Defined.

Lemma manager_snapshot_isolation_witness :
  let '(h, m') := run (skew_ops ++ [OpGc; OpBegin 0 SnapshotLevel; OpRead 0 5 7]) mem_manager in
  ∃ ls A, si_steps si_empty ls A ∧ reports ls = history h ∧
    (∀ t, (λ a, snap_ts (snapshot a)) <$> active_txns m' !! t = fst <$> si_active A !! t) ∧
    (∀ t b log k, si_active A !! t = Some (b, log) →
       view m' t k = Some (si_value (si_commits A) b log k)).
Proof.
  apply (manager_snapshot_isolation mem_manager (skew_ops ++ [OpGc; OpBegin 0 SnapshotLevel; OpRead 0 5 7]));
    [exact no_durability_total|exact mem_manager_fresh|vm_compute; reflexivity].
Defined.


(** A state with two active transactions: 2 has written key 7, 3 has read it. *)
Definition busy : MemManager :=
  (run [ser; OpWrite 0 1 7 [1]; OpCommit 1; ser; ser; OpWrite 0 2 7 [2]; OpRead 0 3 7] mem_manager).2.

Lemma busy_inv : inv busy.
Proof. apply run_inv; [exact no_durability_total|apply fresh_inv, mem_manager_fresh]. Qed.

Lemma repeatable_read_witness :
  view (run [OpWrite 0 2 8 [3]; OpCommit 2; OpGc] busy).2 3 7 = view busy 3 7.
Proof.
  apply (repeatable_read busy [OpWrite 0 2 8 [3]; OpCommit 2; OpGc] 3 7);
    [exact no_durability_total|exact busy_inv|by eexists; vm_compute|reflexivity|by eexists; vm_compute].
Defined.

(** The active transactions of [busy]. *)
Definition busy_txn (t : TxnId) : ActiveTxn := default (mkActive (snapshot_new 0 0) Serializable ∅ 0) (active_txns busy !! t).

Lemma commit_outcome_witness :
  match Manager.commit 2 busy with
  | (Ok ts, m') => ts = counter busy + 1 ∧ Registry.outcome (registry m') 2 = OCommitted ts ∧
      gone m' 2 (snap_ts (snapshot (busy_txn 2)))
  | (Err _, m') => Registry.outcome (registry m') 2 = OAborted ∧
      gone m' 2 (snap_ts (snapshot (busy_txn 2)))
  | (Panic _, _) => False
  end.
Proof.
  apply (commit_outcome busy 2 (busy_txn 2)); [exact no_durability_total|exact busy_inv|].
  vm_compute. reflexivity.
Defined.

Lemma rollback_outcome_witness :
  match active_txns busy !! 2 with
  | None => is_ok (Manager.rollback 2 busy).1 = false ∧ (Manager.rollback 2 busy).2 = busy
  | Some a =>
      let m' := (Manager.rollback 2 busy).2 in
      (Manager.rollback 2 busy).1 = Ok tt ∧ Registry.outcome (registry m') 2 = OAborted ∧
      gone m' 2 (snap_ts (snapshot a)) ∧ Ssi.tracks (ssi m') 2 = false ∧
      ∀ t' k, t' ≠ 2 → view m' t' k = view busy t' k
  end.
Proof. exact (rollback_outcome busy 2 busy_inv). Defined.

Lemma write_outcome_witness :
  let '(r, m') := Manager.write 0 3 7 [9] busy in
  ((∃ t' a', t' ≠ 3 ∧ active_txns busy !! t' = Some a' ∧ 7 ∈ written a') ∨
   (∃ v c, head (chain_of (store busy) 7) = Some v ∧ from_raw (xmin v) = VsCommitted c ∧
      snap_ts (snapshot (busy_txn 3)) < c) →
   is_ok r = false ∧ ∀ k', chain_of (store m') k' = chain_of (store busy) k') ∧
  (r = Ok tt → view m' 3 7 = Some (Some [9]) ∧
     ∀ t' k', t' ≠ 3 → view m' t' k' = view busy t' k').
Proof.
  apply (write_outcome busy 0 3 (busy_txn 3) 7 [9]); [exact busy_inv|]. vm_compute. reflexivity.
Defined.

Lemma gc_outcome_witness :
  let '(rep, m') := Manager.run_gc busy in
  (versions_reclaimed rep + version_count (store m') = version_count (store busy))%nat ∧
  (txns_pruned rep + Manager.registry_len m' = Manager.registry_len busy)%nat ∧
  (∀ t k, view m' t k = view busy t k) ∧
  (∀ k v, v ∈ chain_of (store m') k → xmax v = 0 ∨
     (∃ t a, xmax v = stamp_of t ∧ active_txns busy !! t = Some a) ∨
     ∃ l, gc_low_water rep = Some l ∧ l < xmax v) ∧
  oracle m' = oracle busy ∧ active_txns m' = active_txns busy.
Proof. exact (gc_outcome_spec busy busy_inv). Defined.

Lemma reap_outcome_witness :
  let '(r, m') := Manager.reap_idle_as_of (DEFAULT_IDLE_TIMEOUT + 5) busy in
  (∃ victims, r = Ok (length victims) ∧ NoDup victims ∧
     ∀ t, t ∈ victims ↔ ∃ a, active_txns busy !! t = Some a ∧
       idle_timeout (config busy) ≤ (DEFAULT_IDLE_TIMEOUT + 5) - last_active a) ∧
  (∀ t a, active_txns busy !! t = Some a →
     if decide (idle_timeout (config busy) ≤ (DEFAULT_IDLE_TIMEOUT + 5) - last_active a)
     then gone m' t (snap_ts (snapshot a))
     else active_txns m' !! t = Some a ∧ ∀ k, view m' t k = view busy t k).
Proof. exact (reap_outcome busy (DEFAULT_IDLE_TIMEOUT + 5) busy_inv). Defined.
