(* ===== verification/History.v ===== *)
(** * graphus-txn: the serialization-graph checker

    [src/crates/graphus-txn/src/serializability.rs]. [build_edges] derives the
    direct serialization graph of recorded histories, [find_cycle] looks for a
    cycle with an iterative depth-first search. The search always returns, returns
    a cycle of the graph when it returns one, and returns none exactly when the
    graph is acyclic. *)

From stdpp Require Import options.
From S2P Require Import Prelude Core VStore.

(** The enum [Op] of the source. *)
Inductive HOp :=
  | HRead (key : Key) (version : N)
  | HWrite (key : Key) (version : N).

Record TxnHistory := mkHistory { txn : TxnId; ops : list HOp }.

Module TxnHistoryOps.

Definition new (t : TxnId) : TxnHistory := mkHistory t [].
Definition read (k : Key) (v : N) (h : TxnHistory) : TxnHistory := mkHistory (txn h) (ops h ++ [HRead k v]).
Definition write (k : Key) (v : N) (h : TxnHistory) : TxnHistory := mkHistory (txn h) (ops h ++ [HWrite k v]).

End TxnHistoryOps.

Record HistoryChecker := mkChecker { histories : list TxnHistory }.

(** ** The graph *)

Definition Edges : Type := gset (TxnId * TxnId).

(** Index 1: the writer of a version; a later insert overwrites an earlier one. *)
Definition index_op (t : TxnId) (m : gmap (Key * N) TxnId) (o : HOp) : gmap (Key * N) TxnId :=
  match o with HWrite k v => <[(k, v) := t]> m | HRead _ _ => m end.
Definition writer_of (hs : list TxnHistory) : gmap (Key * N) TxnId :=
  foldl (λ m h, foldl (index_op (txn h)) m (ops h)) ∅ hs.

(** The closure [push]: no self-edges. *)
Definition push (a b : TxnId) (es : Edges) : Edges := if a =? b then es else {[(a, b)]} ∪ es.

Definition op_edges (w : gmap (Key * N) TxnId) (t : TxnId) (es : Edges) (o : HOp) : Edges :=
  match o with
  | HWrite k v =>
      if 1 <? v then match w !! (k, v - 1) with Some prev => push prev t es | None => es end
      else es
  | HRead k v =>
      let es := match w !! (k, v) with Some wr => push wr t es | None => es end in
      match checked_add_u64 v 1 with
      | Some next => match w !! (k, next) with Some wn => push t wn es | None => es end
      | None => es
      end
  end.

Module Checker.

Definition new : HistoryChecker := mkChecker [].
Definition add (h : TxnHistory) (c : HistoryChecker) : HistoryChecker := mkChecker (histories c ++ [h]).

Definition build_edges (c : HistoryChecker) : Edges :=
  let w := writer_of (histories c) in
  foldl (λ es h, foldl (op_edges w (txn h)) es (ops h)) ∅ (histories c).

End Checker.

(** ** The search *)

(** Ascending iteration of the ordered sets of the source. *)
Definition pair_le (p q : TxnId * TxnId) : Prop := p.1 < q.1 ∨ p.1 = q.1 ∧ p.2 ≤ q.2.
#[global] Instance pair_le_dec p q : Decision (pair_le p q).
Proof. unfold pair_le. apply _. Defined.

Definition ordered_edges (es : Edges) : list (TxnId * TxnId) := merge_sort pair_le (elements es).
Definition adj (es : Edges) (n : TxnId) : list TxnId :=
  (filter (λ p, p.1 = n) (ordered_edges es)).*2.
Definition nodes (es : Edges) : gset TxnId := set_map fst es ∪ set_map snd es.
Definition ordered_nodes (es : Edges) : list TxnId := merge_sort N.le (elements (nodes es)).

Record Frame := mkFrame { node : TxnId; targets : list TxnId }.

(** The locals of the loop; the stack's top is the head of the list. *)
Record Dfs := mkDfs {
  visited : gset TxnId;
  on_path : gset TxnId;
  path : list TxnId;
  stack : list Frame;
}.

(** [path[pos..]] for the first [pos] that holds [next]. *)
Definition from_position (next : TxnId) (p : list TxnId) : option (list TxnId) :=
  (λ x, drop x.1 p) <$> list_find (λ t, t = next) p.

Inductive Step := Continue (d : Dfs) | Return (r : option (list TxnId)) (v : gset TxnId).

(** One iteration of the [while let]. *)
Definition dfs_step (es : Edges) (d : Dfs) : Step :=
  match stack d with
  | [] => Return None (visited d)
  | mkFrame n (next :: ts) :: st =>
      let st := mkFrame n ts :: st in
      if bool_decide (next ∈ on_path d) then
        match from_position next (path d) with
        | Some cycle => Return (Some cycle) (visited d)
        | None => Continue (mkDfs (visited d) (on_path d) (path d) st)
        end
      else if bool_decide (next ∈ visited d) then
        Continue (mkDfs (visited d) (on_path d) (path d) st)
      else
        Continue (mkDfs ({[next]} ∪ visited d) ({[next]} ∪ on_path d) (path d ++ [next])
          (mkFrame next (adj es next) :: st))
  | mkFrame n [] :: st =>
      Continue (mkDfs (visited d) (on_path d ∖ {[n]})
        (take (length (path d) - 1) (path d)) st)
  end.

Fixpoint dfs_loop (fuel : nat) (es : Edges) (d : Dfs) : option (option (list TxnId) * gset TxnId) :=
  match fuel with
  | O => None
  | S fuel =>
      match dfs_step es d with
      | Return r v => Some (r, v)
      | Continue d => dfs_loop fuel es d
      end
  end.

Definition dfs_init (es : Edges) (start : TxnId) (v : gset TxnId) : Dfs :=
  mkDfs ({[start]} ∪ v) {[start]} [start] [mkFrame start (adj es start)].

Definition iter_find_cycle_from (fuel : nat) (es : Edges) (start : TxnId) (v : gset TxnId)
    : option (option (list TxnId) * gset TxnId) := dfs_loop fuel es (dfs_init es start v).

(** The outer loop, over the nodes in order. *)
Fixpoint find_cycle_loop (fuel : nat) (es : Edges) (starts : list TxnId) (v : gset TxnId)
    : option (option (list TxnId)) :=
  match starts with
  | [] => Some None
  | start :: starts =>
      if bool_decide (start ∈ v) then find_cycle_loop fuel es starts v
      else match iter_find_cycle_from fuel es start v with
           | None => None
           | Some (Some cycle, _) => Some (Some cycle)
           | Some (None, v) => find_cycle_loop fuel es starts v
           end
  end.

(** Every node is pushed at most once and every target of it consumed once: the
    iterations the unvisited nodes still can cost. *)
Definition pending (es : Edges) (l : list TxnId) (v : gset TxnId) : nat :=
  sum_list ((λ n, if bool_decide (n ∈ v) then 0%nat else S (length (adj es n))) <$> l).
Definition enough (es : Edges) : nat := S (pending es (ordered_nodes es) ∅).

Definition find_cycle (es : Edges) : option (option (list TxnId)) :=
  find_cycle_loop (enough es) es (ordered_nodes es) ∅.

Definition find_anomaly (c : HistoryChecker) : option (option (list TxnId)) :=
  find_cycle (Checker.build_edges c).

(** ** What the graph is *)

(** The three kinds of dependency of the module's documentation, for versions
    numbered per key. *)
Definition depends (c : HistoryChecker) (a b : TxnId) : Prop :=
  let w := writer_of (histories c) in
  a ≠ b ∧ ∃ h, h ∈ histories c ∧
    ((txn h = b ∧ ∃ k v, HWrite k v ∈ ops h ∧ 1 < v ∧ w !! (k, v - 1) = Some a)
     ∨ (txn h = b ∧ ∃ k v, HRead k v ∈ ops h ∧ w !! (k, v) = Some a)
     ∨ (txn h = a ∧ ∃ k v, HRead k v ∈ ops h ∧ v + 1 ≤ u64_max ∧ w !! (k, v + 1) = Some b)).

Definition edge (es : Edges) (a b : TxnId) : Prop := (a, b) ∈ es.

(** The transactions of [c] form a directed cycle, in order. *)
Fixpoint walks (R : TxnId → TxnId → Prop) (c : list TxnId) : Prop :=
  match c with
  | a :: (b :: _) as r => R a b ∧ walks R r
  | _ => True
  end.
Definition is_cycle (R : TxnId → TxnId → Prop) (c : list TxnId) : Prop :=
  NoDup c ∧ walks R c ∧ ∃ a b, head c = Some a ∧ last c = Some b ∧ R b a.

Definition acyclic (R : TxnId → TxnId → Prop) : Prop := ∀ n, ¬ tc R n n.

Lemma elem_of_push a b es p : p ∈ push a b es ↔ (p = (a, b) ∧ a ≠ b) ∨ p ∈ es.
Proof. unfold push. destruct (N.eqb_spec a b); set_solver. Qed.

(** The edges one operation contributes. *)
Definition op_edge (w : gmap (Key * N) TxnId) (t : TxnId) (o : HOp) (p : TxnId * TxnId) : Prop :=
  p.1 ≠ p.2 ∧
  match o with
  | HWrite k v => p.2 = t ∧ 1 < v ∧ w !! (k, v - 1) = Some p.1
  | HRead k v =>
      (p.2 = t ∧ w !! (k, v) = Some p.1)
      ∨ (p.1 = t ∧ v + 1 ≤ u64_max ∧ w !! (k, v + 1) = Some p.2)
  end.

Lemma elem_of_op_edges w t es o p : p ∈ op_edges w t es o ↔ op_edge w t o p ∨ p ∈ es.
Proof.
  destruct p as [a b]. unfold op_edge, op_edges. destruct o as [k v|k v]; csimpl.
  - unfold checked_add_u64. destruct (w !! (k, v)) as [x|] eqn:Hx; case_bool_decide;
      destruct (w !! (k, v + 1)) as [y|] eqn:Hy; rewrite ?elem_of_push; naive_solver.
  - destruct (N.ltb_spec 1 v); [|naive_solver lia].
    case_match; rewrite ?elem_of_push; naive_solver.
Qed.

Lemma elem_of_ops_edges w t os : ∀ es p,
  p ∈ foldl (op_edges w t) es os ↔ (∃ o, o ∈ os ∧ op_edge w t o p) ∨ p ∈ es.
Proof.
  induction os as [|o os IH]; intros es p; cbn [foldl]; [set_solver|].
  rewrite IH, elem_of_op_edges. set_unfold. naive_solver.
Qed.

Lemma elem_of_histories_edges w hs : ∀ es p,
  p ∈ foldl (λ es h, foldl (op_edges w (txn h)) es (ops h)) es hs
  ↔ (∃ h o, h ∈ hs ∧ o ∈ ops h ∧ op_edge w (txn h) o p) ∨ p ∈ es.
Proof.
  induction hs as [|h hs IH]; intros es p; cbn [foldl]; [set_solver|].
  rewrite IH, elem_of_ops_edges. set_unfold. naive_solver.
Qed.

(** The edge set is the dependency relation. *)
Lemma edge_depends c a b : edge (Checker.build_edges c) a b ↔ depends c a b.
Proof.
  unfold edge, Checker.build_edges, depends. rewrite elem_of_histories_edges. unfold op_edge.
  cbn [fst snd]. split.
  - intros [(h & o & Hh & Ho & Hab & He)|[]%elem_of_empty]. split; [done|]. exists h. split; [done|].
    destruct o; naive_solver.
  - intros (Hab & h & Hh & [He|[He|He]]); left; exists h.
    + destruct He as (Ht & k & v & He). exists (HWrite k v). naive_solver.
    + destruct He as (Ht & k & v & He). exists (HRead k v). naive_solver.
    + destruct He as (Ht & k & v & He). exists (HRead k v). naive_solver.
Qed.

(** ** The search is right *)

Section dfs.
Context (es : Edges).
#[local] Abbreviation E := (edge es).

Lemma elem_of_adj n x : x ∈ adj es n ↔ E n x.
Proof.
  unfold adj, edge, ordered_edges. rewrite list_elem_of_fmap. split.
  - intros ([a b] & -> & [Ha Hin]%list_elem_of_filter). cbn in *. subst.
    by rewrite merge_sort_Permutation, elem_of_elements in Hin.
  - intros H. exists (n, x). split; [done|]. apply list_elem_of_filter. split; [done|].
    by rewrite merge_sort_Permutation, elem_of_elements.
Qed.

Lemma elem_of_ordered_nodes n : n ∈ ordered_nodes es ↔ n ∈ nodes es.
Proof. unfold ordered_nodes. by rewrite merge_sort_Permutation, elem_of_elements. Qed.

Lemma edge_nodes a b : E a b → a ∈ nodes es ∧ b ∈ nodes es.
Proof.
  unfold edge, nodes. intros H.
  split; apply elem_of_union; [left|right]; apply elem_of_map; by exists (a, b).
Qed.

Lemma pending_mono l v v' : v ⊆ v' → (pending es l v' ≤ pending es l v)%nat.
Proof.
  intros Hv. unfold pending. induction l as [|n l IH]; csimpl; [lia|].
  repeat case_bool_decide; (lia || set_solver).
Qed.

Lemma pending_visit l n v : n ∈ l → n ∉ v →
  (pending es l ({[n]} ∪ v) + S (length (adj es n)) ≤ pending es l v)%nat.
Proof.
  intros Hn Hv. induction l as [|m l IH]; [set_solver|].
  pose proof (pending_mono l v ({[n]} ∪ v) ltac:(set_solver)) as Hl.
  unfold pending in *. csimpl. destruct (decide (n = m)) as [->|Hm].
  - rewrite (bool_decide_eq_true_2 (m ∈ {[m]} ∪ v)), (bool_decide_eq_false_2 (m ∈ v)) by set_solver. lia.
  - specialize (IH ltac:(set_solver)). repeat case_bool_decide; (lia || set_solver).
Qed.

(** The frames, from the top: a consumed target is finished or is the node of the
    frame above. *)
Fixpoint frames_ok (F : gset TxnId) (above : option TxnId) (st : list Frame) : Prop :=
  match st with
  | [] => True
  | f :: st =>
      (∃ done, adj es (node f) = done ++ targets f ∧ ∀ x, x ∈ done → x ∈ F ∨ above = Some x)
      ∧ (∀ x, above = Some x → E (node f) x)
      ∧ frames_ok F (Some (node f)) st
  end.

Definition closed (F : gset TxnId) : Prop := ∀ n x, n ∈ F → E n x → x ∈ F.

Record finished_ok (F : gset TxnId) : Prop := {
  fin_closed : closed F;
  fin_acyclic : ∀ n, n ∈ F → ¬ tc E n n;
}.

Record dfs_ok (d : Dfs) : Prop := {
  ok_path : path d = reverse (node <$> stack d);
  ok_on_path : on_path d = list_to_set (node <$> stack d);
  ok_nodup : NoDup (node <$> stack d);
  ok_within : on_path d ⊆ visited d;
  ok_known : visited d ⊆ nodes es;
  ok_finished : finished_ok (visited d ∖ on_path d);
  ok_frames : frames_ok (visited d ∖ on_path d) None (stack d);
}.

Lemma closed_tc F n x : closed F → tc E n x → n ∈ F → x ∈ F.
Proof. intros HF. induction 1; eauto. Qed.

Lemma finished_add F n : finished_ok F → n ∉ F → (∀ x, E n x → x ∈ F) → finished_ok ({[n]} ∪ F).
Proof.
  intros [Hc Ha] Hn Hx. split.
  - intros m x Hm He. set_unfold. naive_solver.
  - intros m [->%elem_of_singleton|Hm]%elem_of_union Ht; [|by eapply Ha].
    apply Hn. inversion Ht; subst; [by apply Hx|]. eapply closed_tc; eauto.
Qed.

Lemma frames_ok_mono F F' above st :
  F ⊆ F' → (∀ x, above = Some x → x ∈ F') → frames_ok F above st → frames_ok F' None st.
Proof.
  intros HF Hab. destruct st as [|f st]; [done|]. intros ((d & Hd & Hx) & _ & Hr).
  split_and!; [exists d; set_solver | done |].
  clear -HF Hr. revert Hr. generalize (Some (node f)). induction st as [|g st IH]; [done|].
  intros o ((d & Hd & Hx) & Ho & Hr). split_and!; [|done|auto].
  exists d. split; [done|]. intros x [?|?]%Hx; set_solver.
Qed.

Lemma walks_snoc R l a b : walks R (l ++ [a]) → R a b → walks R (l ++ [a] ++ [b]).
Proof.
  induction l as [|x l IH]; [done|]. intros H Hab. destruct l as [|y l]; cbn in *; naive_solver.
Qed.

Lemma walks_drop R i : ∀ l, walks R l → walks R (drop i l).
Proof.
  induction i as [|i IH]; intros [|x l]; try done. intros H. apply IH. destruct l; naive_solver.
Qed.

Lemma frames_walk F st : ∀ above,
  frames_ok F above st → walks E (reverse (node <$> st) ++ option_list above).
Proof.
  induction st as [|f st IH]; intros above; [by destruct above|]. intros (_ & Ha & Hr).
  apply IH in Hr. csimpl. rewrite reverse_cons. destruct above as [a|].
  - rewrite <- app_assoc. apply walks_snoc; auto.
  - by rewrite app_nil_r.
Qed.

Definition work (d : Dfs) : nat :=
  sum_list ((λ f, S (length (targets f))) <$> stack d)
  + pending es (ordered_nodes es) (visited d).

Lemma back_edge d n next ts st :
  dfs_ok d → stack d = mkFrame n (next :: ts) :: st → next ∈ on_path d →
  ∃ c, from_position next (path d) = Some c ∧ is_cycle E c.
Proof.
  intros Hd Hst Hn. pose proof (frames_walk _ _ _ (ok_frames d Hd)) as Hw.
  rewrite app_nil_r, <- (ok_path d Hd) in Hw.
  assert (Hin : next ∈ path d).
  { rewrite (ok_path d Hd). rewrite (ok_on_path d Hd) in Hn. set_solver. }
  assert (He : E n next).
  { apply elem_of_adj. pose proof (ok_frames d Hd) as Hf. rewrite Hst in Hf.
    destruct Hf as ((dn & Ha & _) & _). cbn in Ha. rewrite Ha. set_solver. }
  assert (Hl : last (path d) = Some n).
  { rewrite (ok_path d Hd), Hst. csimpl. by rewrite reverse_cons, last_snoc. }
  destruct (list_find_elem_of (λ t, t = next) (path d) next Hin eq_refl) as [[i x] Hf].
  unfold from_position. rewrite Hf. apply list_find_Some in Hf as (Hi & -> & _).
  eexists. split; [done|]. split_and!.
  - eapply sublist_NoDup; [|apply sublist_drop]. rewrite (ok_path d Hd), reverse_Permutation.
    apply (ok_nodup d Hd).
  - by apply walks_drop.
  - exists next, n. rewrite head_lookup, lookup_drop, Nat.add_0_r. split_and!; [done| |done].
    rewrite last_lookup, lookup_drop, length_drop. rewrite last_lookup in Hl.
    apply lookup_lt_Some in Hi. rewrite <- Hl. f_equal. cbn [fst]. lia.
Qed.

Lemma descend_ok d n next ts st :
  dfs_ok d → stack d = mkFrame n (next :: ts) :: st → next ∉ visited d →
  dfs_ok (mkDfs ({[next]} ∪ visited d) ({[next]} ∪ on_path d) (path d ++ [next])
    (mkFrame next (adj es next) :: mkFrame n ts :: st)).
Proof.
  intros Hd Hst Hv. destruct Hd as [Hp Ho Hnd Hw Hk Hf Hfr]. rewrite Hst in *. csimpl.
  assert (Heq : ({[next]} ∪ visited d) ∖ ({[next]} ∪ on_path d) = visited d ∖ on_path d) by set_solver.
  destruct Hfr as ((dn & Ha & Hx) & _ & Hr). cbn in Ha.
  assert (He : E n next) by (apply elem_of_adj; rewrite Ha; set_solver).
  split; csimpl; rewrite ?Heq; [|set_solver| |set_solver| |done|].
  - rewrite Hp. csimpl. by rewrite !reverse_cons.
  - apply NoDup_cons. split; [|done]. intros Hin. apply Hv, Hw. rewrite Ho. set_solver.
  - pose proof (edge_nodes _ _ He). set_solver.
  - split_and!; [by exists []; set_solver|done| |set_solver|done].
    exists (dn ++ [next]). rewrite <- app_assoc. split; [done|]. set_solver.
Qed.

Lemma consume_ok d n next ts st :
  dfs_ok d → stack d = mkFrame n (next :: ts) :: st → next ∉ on_path d → next ∈ visited d →
  dfs_ok (mkDfs (visited d) (on_path d) (path d) (mkFrame n ts :: st)).
Proof.
  intros Hd Hst Hn Hv. destruct Hd as [Hp Ho Hnd Hw Hk Hf Hfr]. rewrite Hst in *. csimpl.
  destruct Hfr as ((dn & Ha & Hx) & _ & Hr).
  split; csimpl; try done. split_and!; [|done|done].
  exists (dn ++ [next]). rewrite <- app_assoc. split; [done|]. set_solver.
Qed.

Lemma pop_ok d n st :
  dfs_ok d → stack d = mkFrame n [] :: st →
  dfs_ok (mkDfs (visited d) (on_path d ∖ {[n]}) (take (length (path d) - 1) (path d)) st).
Proof.
  intros Hd Hst. destruct Hd as [Hp Ho Hnd Hw Hk Hf Hfr]. rewrite Hst in *. csimpl.
  csimpl in *. apply NoDup_cons in Hnd as [Hn Hnd].
  assert (Heq : visited d ∖ (on_path d ∖ {[n]}) = {[n]} ∪ visited d ∖ on_path d).
  { apply set_eq. intros x. destruct (decide (x = n)); set_solver. }
  destruct Hfr as ((dn & Ha & Hx) & _ & Hr). cbn in Ha. rewrite app_nil_r in Ha.
  split; csimpl; rewrite ?Heq; [|set_solver|done|set_solver|done| |].
  - rewrite Hp, reverse_cons, length_app. cbn [length].
    by rewrite Nat.add_sub, take_app_length.
  - apply finished_add; [done|set_solver|]. intros x He.
    apply elem_of_adj in He. rewrite Ha in He. by apply Hx in He as [?|?].
  - eapply frames_ok_mono; [| |done]; set_solver.
Qed.

(** One iteration keeps the invariant and spends work, or returns rightly. *)
Lemma dfs_step_ok d : dfs_ok d →
  match dfs_step es d with
  | Continue d' => dfs_ok d' ∧ visited d ⊆ visited d' ∧ (work d' < work d)%nat
  | Return (Some c) _ => is_cycle E c
  | Return None v => v = visited d ∧ finished_ok v
  end.
Proof.
  intros Hd. unfold dfs_step, work. destruct (stack d) as [|[n [|next ts]] st] eqn:Hst.
  - split; [done|]. pose proof (ok_finished d Hd) as Hf. rewrite (ok_on_path d Hd), Hst in Hf.
    csimpl in Hf. by rewrite difference_empty_L in Hf.
  - split; [by eapply pop_ok|]. csimpl. split; [done|lia].
  - case_bool_decide as Hn.
    { destruct (back_edge d n next ts st Hd Hst Hn) as (c & -> & Hc). done. }
    case_bool_decide as Hv.
    { split; [by eapply consume_ok|]. csimpl. split; [done|lia]. }
    split; [by eapply descend_ok|]. csimpl. split; [set_solver|].
    pose proof (ok_known _ (descend_ok d n next ts st Hd Hst Hv)) as Hk. cbn in Hk.
    pose proof (pending_visit (ordered_nodes es) next (visited d)
      ltac:(apply elem_of_ordered_nodes; set_solver) Hv). lia.
Qed.

Definition found (v : gset TxnId) (r : option (list TxnId)) (v' : gset TxnId) : Prop :=
  match r with
  | Some c => is_cycle E c
  | None => v ⊆ v' ∧ finished_ok v' ∧ v' ⊆ nodes es
  end.

Lemma dfs_loop_ok fuel : ∀ d, dfs_ok d → (work d < fuel)%nat →
  ∃ r v, dfs_loop fuel es d = Some (r, v) ∧ found (visited d) r v.
Proof.
  induction fuel as [|fuel IH]; intros d Hd Hf; [lia|]. cbn [dfs_loop].
  pose proof (dfs_step_ok d Hd) as Hs. destruct (dfs_step es d) as [d'|r v].
  - destruct Hs as (Hd' & Hv & Hw). destruct (IH d' Hd' ltac:(lia)) as (r & v & -> & Hr).
    exists r, v. split; [done|]. destruct r; [done|]. unfold found in *. set_solver.
  - exists r, v. split; [done|]. destruct r; [done|]. destruct Hs as [-> Hs].
    split_and!; [done|done|]. by apply ok_known.
Qed.

Lemma dfs_init_ok start v : finished_ok v → v ⊆ nodes es → start ∈ nodes es → start ∉ v →
  dfs_ok (dfs_init es start v).
Proof.
  intros Hf Hv Hs Hn.
  assert (Heq : ({[start]} ∪ v) ∖ {[start]} = v) by set_solver.
  split; csimpl; rewrite ?Heq; [done|set_solver| |set_solver|set_solver|done|].
  - apply NoDup_singleton.
  - split_and!; [by exists []; set_solver|done|done].
Qed.

Lemma find_cycle_loop_ok l : ∀ v, finished_ok v → v ⊆ nodes es → (∀ n, n ∈ l → n ∈ nodes es) →
  (∀ n, n ∈ nodes es → n ∈ v ∨ n ∈ l) →
  ∃ r, find_cycle_loop (enough es) es l v = Some r
    ∧ match r with Some c => is_cycle E c | None => acyclic E end.
Proof.
  induction l as [|s l IH]; intros v Hf Hv Hl Hall; cbn [find_cycle_loop].
  - eexists. split; [done|]. intros n Ht. eapply fin_acyclic; [done| |done].
    destruct (Hall n) as [?|?]; [|done|set_solver]. inversion Ht as [? ? He|? ? ? He]; subst; apply edge_nodes in He; tauto.
  - assert (Hl' : ∀ n, n ∈ l → n ∈ nodes es) by (intros; apply Hl; by right).
    case_bool_decide as Hs.
    { apply IH; [done..|]. intros n Hn. destruct (Hall n Hn) as [?|[->|?]%elem_of_cons]; auto. }
    assert (Hsn : s ∈ nodes es) by (apply Hl; by left).
    assert (Hd : dfs_ok (dfs_init es s v)) by by apply dfs_init_ok.
    assert (Hw : (work (dfs_init es s v) < enough es)%nat).
    { unfold work, enough. csimpl. pose proof (pending_visit (ordered_nodes es) s v
        ltac:(by apply elem_of_ordered_nodes) Hs).
      pose proof (pending_mono (ordered_nodes es) ∅ v ltac:(set_solver)). lia. }
    destruct (dfs_loop_ok _ _ Hd Hw) as (r & v' & Hr & Hfound).
    unfold iter_find_cycle_from. rewrite Hr. destruct r as [c|]; [by eexists|].
    cbn in Hfound. destruct Hfound as (Hsub & Hf' & Hk). apply IH; [done..|].
    intros n Hn. destruct (Hall n Hn) as [?|[->|?]%elem_of_cons]; [left; set_solver..|auto].
Qed.

Lemma find_cycle_ok :
  ∃ r, find_cycle es = Some r
    ∧ match r with Some c => is_cycle E c | None => acyclic E end.
Proof.
  apply find_cycle_loop_ok.
  - split; [intros n x []%elem_of_empty|intros n []%elem_of_empty].
  - set_solver.
  - intros n. by rewrite elem_of_ordered_nodes.
  - intros n. rewrite elem_of_ordered_nodes. by right.
Qed.
End dfs.

Lemma walks_mono (R R' : TxnId → TxnId → Prop) c :
  (∀ a b, R a b → R' a b) → walks R c → walks R' c.
Proof.
  intros HR. induction c as [|a c IH]; [done|]. destruct c as [|b c]; [done|].
  intros [? ?]. split; auto.
Qed.

Lemma tc_mono (R R' : TxnId → TxnId → Prop) a b :
  (∀ a b, R a b → R' a b) → tc R a b → tc R' a b.
Proof. intros HR. induction 1; [by apply tc_once; auto|eapply tc_l; eauto]. Qed.

(** C38: The checker is a decision procedure for the serialization graph its
    documentation defines: [find_anomaly] always returns, either with the
    transactions of a directed cycle of write, read and anti dependencies in order,
    or with [None], and then no transaction depends on itself through any chain of
    dependencies. *)
Theorem find_anomaly_spec (c : HistoryChecker) :
  (∃ cycle, find_anomaly c = Some (Some cycle) ∧ is_cycle (depends c) cycle)
  ∨ (find_anomaly c = Some None ∧ acyclic (depends c)).
Proof.
  destruct (find_cycle_ok (Checker.build_edges c)) as (r & Hr & H). unfold find_anomaly.
  destruct r as [cy|]; [left; exists cy | right]; (split; [done|]).
  - destruct H as (Hn & Hw & a & b & Ha & Hb & He). split_and!; [done| |].
    + eapply walks_mono; [|exact Hw]. intros ? ?. apply edge_depends.
    + exists a, b. split_and!; [done..|]. by apply edge_depends.
  - intros n Ht. apply (H n). eapply tc_mono; [|exact Ht]. intros ? ?. apply edge_depends.
Qed.

(** The write-skew history of the module's tests is reported, its serial variant is
    not. *)
Example skew_is_caught :
  let t1 := TxnHistoryOps.write 100 1 (TxnHistoryOps.read 200 0 (TxnHistoryOps.new 1)) in
  let t2 := TxnHistoryOps.write 200 1 (TxnHistoryOps.read 100 0 (TxnHistoryOps.new 2)) in
  find_anomaly (Checker.add t2 (Checker.add t1 Checker.new)) = Some (Some [1; 2])
  ∧ find_anomaly (Checker.add (TxnHistoryOps.write 200 1 (TxnHistoryOps.read 100 1 (TxnHistoryOps.new 2)))
      (Checker.add t1 Checker.new)) = Some None.
Proof. vm_compute. done. Qed.
