(* ===== verification/Bytes.v ===== *)
(** * Byte buffers

    A [&[u8]] is a list of [N], each below 256; [to_le_bytes] and [from_le_bytes]
    of the unsigned integer types, and sub-slices, which panic out of range. *)

From stdpp Require Import options.
From S2P Require Import Prelude.

Abbreviation bytes := (list N) (only parsing).

(** The values a [u8] can take. *)
Definition is_bytes (bs : bytes) : Prop := Forall (λ b, b < 256) bs.

Fixpoint to_le_bytes (w : nat) (x : N) : bytes :=
  match w with O => [] | S w => x mod 256 :: to_le_bytes w (x / 256) end.

Fixpoint from_le_bytes (bs : bytes) : N :=
  match bs with [] => 0 | b :: bs => b + 256 * from_le_bytes bs end.

Definition blen (bs : bytes) : N := N.of_nat (length bs).

(** [b[off..off + len]]; [None] is the out-of-range panic. *)
Definition slice (bs : bytes) (off len : nat) : option bytes :=
  if bool_decide (off + len ≤ length bs)%nat then Some (take len (drop off bs)) else None.

(** [into[off..off + src.len()].copy_from_slice(src)]; an out-of-range one panics, and each use is in range. *)
Definition copy_at (off : nat) (src into : bytes) : bytes :=
  take off into ++ src ++ drop (off + length src) into.

(** ** Lemmas *)

Lemma to_le_bytes_length w x : length (to_le_bytes w x) = w.
Proof. revert x. induction w as [|w IH]; intros x; csimpl; [done|by rewrite IH]. Qed.

Lemma to_le_bytes_is_bytes w x : is_bytes (to_le_bytes w x).
Proof.
  revert x. induction w as [|w IH]; intros x; cbn [to_le_bytes]; [by constructor|].
  constructor; [by apply N.mod_lt | apply IH].
Qed.

Lemma from_to_le_bytes w x : x < 256 ^ N.of_nat w → from_le_bytes (to_le_bytes w x) = x.
Proof.
  revert x. induction w as [|w IH]; intros x Hx; cbn [to_le_bytes from_le_bytes]; [simpl in Hx; lia|].
  rewrite Nat2N.inj_succ, N.pow_succ_r' in Hx. rewrite IH.
  - pose proof (N.div_mod x 256 ltac:(done)). lia.
  - apply N.Div0.div_lt_upper_bound. lia.
Qed.

Lemma from_le_bytes_lt bs : is_bytes bs → from_le_bytes bs < 256 ^ N.of_nat (length bs).
Proof.
  induction 1 as [|b bs Hb _ IH]; cbn [from_le_bytes length]; [done|].
  rewrite Nat2N.inj_succ, N.pow_succ_r'. lia.
Qed.

Lemma to_from_le_bytes bs : is_bytes bs → to_le_bytes (length bs) (from_le_bytes bs) = bs.
Proof.
  induction 1 as [|b bs Hb _ IH]; cbn [from_le_bytes length to_le_bytes]; [done|].
  rewrite N.mul_comm. f_equal.
  - rewrite N.Div0.mod_add. by apply N.mod_small.
  - rewrite N.div_add, N.div_small, N.add_0_l by done. apply IH.
Qed.

Lemma is_bytes_app a b : is_bytes (a ++ b) ↔ is_bytes a ∧ is_bytes b.
Proof. apply Forall_app. Qed.

Lemma is_bytes_take n a : is_bytes a → is_bytes (take n a).
Proof. apply Forall_take. Qed.

Lemma is_bytes_drop n a : is_bytes a → is_bytes (drop n a).
Proof. apply Forall_drop. Qed.

Lemma slice_Some bs off len r :
  slice bs off len = Some r → (off + len ≤ length bs)%nat ∧ r = take len (drop off bs) ∧ length r = len.
Proof.
  unfold slice. case_bool_decide; [|done]. intros [= <-].
  rewrite length_take, length_drop. split_and!; [done|done|lia].
Qed.

Lemma slice_ok bs off len :
  (off + len ≤ length bs)%nat → slice bs off len = Some (take len (drop off bs)).
Proof. intros. unfold slice. by rewrite bool_decide_eq_true_2. Qed.

(** Reading a field of a buffer laid out as [a ++ b ++ c]. *)
Lemma slice_app a b c : slice (a ++ b ++ c) (length a) (length b) = Some b.
Proof.
  rewrite slice_ok by (rewrite !length_app; lia).
  by rewrite drop_app_length, take_app_length.
Qed.

Lemma slice_app_eq l a b c off len :
  l = a ++ b ++ c → length a = off → length b = len → slice l off len = Some b.
Proof. intros -> <- <-. apply slice_app. Qed.

Lemma slice_take bs n off len :
  (off + len ≤ n)%nat → (n ≤ length bs)%nat → slice (take n bs) off len = slice bs off len.
Proof.
  intros. rewrite !slice_ok by (rewrite ?length_take; lia). f_equal.
  rewrite skipn_firstn_comm, take_take. f_equal. lia.
Qed.

Lemma slice_skip a l off len :
  (length a ≤ off)%nat → slice (a ++ l) off len = slice l (off - length a) len.
Proof.
  intros Ha. unfold slice. rewrite length_app, drop_app_ge by done.
  repeat case_bool_decide; (done || lia).
Qed.

Lemma slice_here b c len : length b = len → slice (b ++ c) 0 len = Some b.
Proof. intros <-. apply (slice_app [] b c). Qed.

Lemma slice_whole b len : length b = len → slice b 0 len = Some b.
Proof. intros <-. rewrite <- (app_nil_r b) at 1. by apply slice_here. Qed.

Lemma copy_at_length off (src into : bytes) :
  (off + length src ≤ length into)%nat → length (copy_at off src into) = length into.
Proof. intros. unfold copy_at. rewrite !length_app, length_take, length_drop. lia. Qed.

Lemma copy_at_lookup off (src into : bytes) i : (off + length src ≤ length into)%nat →
  copy_at off src into !! i =
    if decide (off ≤ i < off + length src)%nat then src !! (i - off)%nat else into !! i.
Proof.
  intros Hl. unfold copy_at. assert (Ht : length (take off into) = off) by (rewrite length_take; lia).
  destruct (decide (i < off)%nat).
  - rewrite lookup_app_l, lookup_take_lt by lia. case_decide; [lia|done].
  - rewrite lookup_app_r, Ht by lia. case_decide.
    + by rewrite lookup_app_l by lia.
    + rewrite lookup_app_r, lookup_drop by lia. f_equal. lia.
Qed.

(** What a sub-slice reads after a copy: the copied bytes, or what it read before. *)
Lemma copy_at_same off k (src p : bytes) : length src = k → (off + k ≤ length p)%nat →
  take k (drop off (copy_at off src p)) = src.
Proof.
  intros <- Hl. unfold copy_at. rewrite drop_app_length' by (rewrite length_take; lia).
  apply take_app_length.
Qed.

Lemma copy_at_other off o k (src p : bytes) : (off + length src ≤ length p)%nat →
  (o + k ≤ off ∨ off + length src ≤ o)%nat → take k (drop o (copy_at off src p)) = take k (drop o p).
Proof.
  intros Hl Ho. apply list_eq. intros i. destruct (decide (i < k)%nat).
  - rewrite !lookup_take_lt, !lookup_drop, copy_at_lookup by done. case_decide; [lia|done].
  - by rewrite !lookup_take_ge by lia.
Qed.

Lemma copy_at_drop off o (src p : bytes) : (off + length src ≤ length p)%nat →
  (off + length src ≤ o)%nat → drop o (copy_at off src p) = drop o p.
Proof. intros Hl Ho. apply list_eq. intros i. rewrite !lookup_drop, copy_at_lookup by done. case_decide; [lia|done]. Qed.

Lemma copy_at_comm a b (x y p : bytes) : (a + length x ≤ length p)%nat → (b + length y ≤ length p)%nat →
  (a + length x ≤ b ∨ b + length y ≤ a)%nat → copy_at a x (copy_at b y p) = copy_at b y (copy_at a x p).
Proof.
  intros Ha Hb Hd. apply list_eq. intros i. rewrite !copy_at_lookup by (rewrite ?copy_at_length; lia).
  repeat case_decide; (done || lia).
Qed.

Lemma copy_at_twice a (x y p : bytes) : (a + length x ≤ length p)%nat → length y = length x →
  copy_at a x (copy_at a y p) = copy_at a x p.
Proof.
  intros Ha Hl. apply list_eq. intros i. rewrite !copy_at_lookup by (rewrite ?copy_at_length; lia).
  repeat case_decide; (done || lia).
Qed.

Lemma copy_at_is_bytes a (x p : bytes) : is_bytes x → is_bytes p → is_bytes (copy_at a x p).
Proof. intros Hx Hp. unfold copy_at. rewrite !is_bytes_app. auto using is_bytes_take, is_bytes_drop. Qed.

(** Adjacent pieces of a buffer. *)
Lemma pieces_app {A} (l : list A) o a b :
  take a (drop o l) ++ take b (drop (o + a) l) = take (a + b) (drop o l).
Proof. rewrite <- drop_drop. apply take_take_drop. Qed.

Lemma pieces_app_eq {A} (l : list A) o a o' b :
  o' = (o + a)%nat → take a (drop o l) ++ take b (drop o' l) = take (a + b) (drop o l).
Proof. intros ->. apply pieces_app. Qed.

Lemma u32_le w : w ≤ u32_max → w < 256 ^ N.of_nat 4.
Proof. unfold u32_max. cbn. lia. Qed.
Lemma u64_le w : w ≤ u64_max → w < 256 ^ N.of_nat 8.
Proof. unfold u64_max. cbn. lia. Qed.

Lemma to_from_piece (bs : bytes) o k : is_bytes bs → (o + k ≤ length bs)%nat →
  to_le_bytes k (from_le_bytes (take k (drop o bs))) = take k (drop o bs).
Proof.
  intros Hb Ho. assert (k = length (take k (drop o bs))) as Hk by (rewrite length_take, length_drop; lia).
  rewrite Hk at 1. apply to_from_le_bytes. by apply is_bytes_take, is_bytes_drop.
Qed.

Lemma from_piece_lt bs o k : is_bytes bs → from_le_bytes (take k (drop o bs)) < 256 ^ N.of_nat k.
Proof.
  intros Hb. pose proof (from_le_bytes_lt (take k (drop o bs)) ltac:(by apply is_bytes_take, is_bytes_drop)).
  eapply N.lt_le_trans; [done|]. apply N.pow_le_mono_r; [done|].
  pose proof (firstn_le_length k (drop o bs)). lia.
Qed.

#[export] Hint Resolve to_le_bytes_is_bytes is_bytes_take is_bytes_drop : graphus.
#[export] Hint Rewrite to_le_bytes_length : graphus.
