(* ===== verification/WalRecord.v ===== *)
(** * graphus-wal: the log-record format

    [src/crates/graphus-wal/src/record.rs]: record kinds, the encoder and the two
    decoders. The checksum comes from the crate [crc32c] and is a parameter; all the
    format relies on is that it is a [u32]. A record decodes from exactly the bytes
    its encoder writes, decoding never panics, and cutting a record short is only
    ever reported as an incomplete record. *)

From stdpp Require Import options.
From S2P Require Import Prelude Core Bytes.

(** [crc32c::crc32c]. *)
Class Crc32c := {
  crc32c : bytes → N;
  crc32c_u32 : ∀ bs, crc32c bs ≤ u32_max;
}.

Definition REC_FIXED_PREFIX : nat := 4 + 8 + 8 + 8 + 1 + 8 + 8.
Definition MIN_RECORD_LEN : nat := REC_FIXED_PREFIX + 4 + 4 + 4.

Definition OFF_TOTAL_LEN : nat := 0.
Definition OFF_LSN : nat := 4.
Definition OFF_PREV_LSN : nat := 12.
Definition OFF_TXN_ID : nat := 20.
Definition OFF_TYPE : nat := 28.
Definition OFF_PAGE_ID : nat := 29.
Definition OFF_UNDO_NEXT : nat := 37.
Definition OFF_REDO_LEN : nat := 45.

Inductive RecordType :=
  | Begin | Update | Insert | Delete | Commit | Abort | Clr
  | CheckpointBegin | CheckpointEnd | FullPageImage | Alloc | Free.
#[global] Instance RecordType_eq_dec : EqDecision RecordType.
Proof. solve_decision. Defined.

(** The [repr(u8)] discriminant. *)
Definition as_u8 (t : RecordType) : N :=
  match t with
  | Begin => 1 | Update => 2 | Insert => 3 | Delete => 4 | Commit => 5 | Abort => 6
  | Clr => 7 | CheckpointBegin => 8 | CheckpointEnd => 9 | FullPageImage => 10
  | Alloc => 11 | Free => 12
  end.

Definition is_page_change (t : RecordType) : bool :=
  match t with
  | Update | Insert | Delete | Clr | FullPageImage | Alloc | Free => true
  | _ => false
  end.

Definition is_undoable_action (t : RecordType) : bool :=
  match t with Update | Insert | Delete | Alloc | Free => true | _ => false end.

Definition from_u8 (b : N) : option RecordType :=
  match b with
  | 1 => Some Begin | 2 => Some Update | 3 => Some Insert | 4 => Some Delete
  | 5 => Some Commit | 6 => Some Abort | 7 => Some Clr | 8 => Some CheckpointBegin
  | 9 => Some CheckpointEnd | 10 => Some FullPageImage | 11 => Some Alloc | 12 => Some Free
  | _ => None
  end.

Record LogRecord := mkRecord {
  lsn : Lsn;
  prev_lsn : Lsn;
  txn_id : TxnId;
  rec_type : RecordType;
  page_id : PageId;
  undo_next_lsn : Lsn;
  redo : bytes;
  undo : bytes;
}.

Inductive DecodeError := Incomplete | Corrupt | BadCrc.

(** The result of a decoder: a value, an error, or an out-of-range slice. *)
Inductive Decoded (A : Type) := DOk (a : A) | DErr (e : DecodeError) | DPanic.
Arguments DOk {A} _.
Arguments DErr {A} _.
Arguments DPanic {A}.

#[global] Instance Decoded_ret : MRet Decoded := λ A a, DOk a.
#[global] Instance Decoded_bind : MBind Decoded := λ A B f m,
  match m with DOk a => f a | DErr e => DErr e | DPanic => DPanic end.

Definition or_panic {A} (o : option A) : Decoded A :=
  match o with Some a => DOk a | None => DPanic end.
Definition ok_or {A} (o : option A) (e : DecodeError) : Decoded A :=
  match o with Some a => DOk a | None => DErr e end.

Definition read_u32 (b : bytes) (off : nat) : Decoded N := or_panic (from_le_bytes <$> slice b off 4).
Definition read_u64 (b : bytes) (off : nat) : Decoded N := or_panic (from_le_bytes <$> slice b off 8).

Module Rec.

Definition new (t : RecordType) (txn : TxnId) (page : PageId) : LogRecord :=
  mkRecord 0 0 txn t page 0 [] [].

Definition commit (txn : TxnId) (prev : Lsn) (commit_ts : Timestamp) : LogRecord :=
  let r := new Commit txn 0 in
  mkRecord (lsn r) prev (txn_id r) (rec_type r) (page_id r) (undo_next_lsn r)
    (to_le_bytes 8 commit_ts) (undo r).

(** [get(..8)] is [None] on a shorter image, which reads as the sentinel 0. *)
Definition commit_ts (r : LogRecord) : option Timestamp :=
  if decide (rec_type r = Commit) then
    Some (match slice (redo r) 0 8 with Some b => from_le_bytes b | None => 0 end)
  else None.

Definition encoded_len (r : LogRecord) : nat :=
  REC_FIXED_PREFIX + 4 + length (redo r) + 4 + length (undo r) + 4.

Section codec.
Context `{Crc32c}.

(** The bytes before the checksum. [as u32] truncates, which [to_le_bytes 4] does. *)
Definition body (l : Lsn) (r : LogRecord) (rd un : bytes) : bytes :=
  to_le_bytes 4 (N.of_nat (REC_FIXED_PREFIX + 4 + length rd + 4 + length un + 4))
  ++ to_le_bytes 8 l ++ to_le_bytes 8 (prev_lsn r) ++ to_le_bytes 8 (txn_id r)
  ++ [as_u8 (rec_type r)] ++ to_le_bytes 8 (page_id r) ++ to_le_bytes 8 (undo_next_lsn r)
  ++ to_le_bytes 4 (blen rd) ++ rd ++ to_le_bytes 4 (blen un) ++ un.

(** The record with its LSN stamped, and the bytes appended to [out]. *)
Definition encode_header_to (l : Lsn) (rd un : bytes) (r : LogRecord) (out : bytes) : LogRecord * bytes :=
  let r := mkRecord l (prev_lsn r) (txn_id r) (rec_type r) (page_id r) (undo_next_lsn r) (redo r) (undo r) in
  let bs := body l r rd un in
  (r, out ++ bs ++ to_le_bytes 4 (crc32c bs)).

Definition encode_to (l : Lsn) (r : LogRecord) (out : bytes) : LogRecord * bytes :=
  encode_header_to l (redo r) (undo r) r out.

Definition decode (bs : bytes) : Decoded (LogRecord * nat) :=
  if bool_decide (length bs < REC_FIXED_PREFIX + 8)%nat then DErr Incomplete else
  total ← read_u32 bs OFF_TOTAL_LEN;
  if total <? N.of_nat MIN_RECORD_LEN then DErr Corrupt else
  if blen bs <? total then DErr Incomplete else
  let n := N.to_nat total in
  let rec := take n bs in
  stored_crc ← read_u32 rec (n - 4);
  if negb (crc32c (take (n - 4) rec) =? stored_crc) then DErr BadCrc else
  tb ← or_panic (rec !! OFF_TYPE);
  t ← ok_or (from_u8 tb) Corrupt;
  redo_len ← read_u32 rec OFF_REDO_LEN;
  let redo_start := N.of_nat (OFF_REDO_LEN + 4) in
  undo_len_off ← ok_or (checked_add_u64 redo_start redo_len) Corrupt;
  if total <? undo_len_off + 4 + 4 then DErr Corrupt else
  undo_len ← read_u32 rec (N.to_nat undo_len_off);
  let undo_start := undo_len_off + 4 in
  if negb (undo_start + undo_len + 4 =? total) then DErr Corrupt else
  l ← read_u64 rec OFF_LSN;
  p ← read_u64 rec OFF_PREV_LSN;
  x ← read_u64 rec OFF_TXN_ID;
  pg ← read_u64 rec OFF_PAGE_ID;
  u ← read_u64 rec OFF_UNDO_NEXT;
  rd ← or_panic (slice rec (OFF_REDO_LEN + 4) (N.to_nat redo_len));
  un ← or_panic (slice rec (N.to_nat undo_start) (N.to_nat undo_len));
  DOk (mkRecord l p x t pg u rd un, n).

End codec.
End Rec.

(** The decoder of the read-only scans: the images borrow the source buffer, so
    they are its sub-slices. *)
Record LogRecordRef := mkRef {
  ref_lsn : Lsn;
  ref_prev_lsn : Lsn;
  ref_txn_id : TxnId;
  ref_rec_type : RecordType;
  ref_page_id : PageId;
  ref_undo_next_lsn : Lsn;
  ref_redo : bytes;
  ref_undo : bytes;
}.

Module Ref.
Section ref.
Context `{Crc32c}.

Definition decode (bs : bytes) : Decoded (LogRecordRef * nat) :=
  if bool_decide (length bs < REC_FIXED_PREFIX + 8)%nat then DErr Incomplete else
  total ← read_u32 bs OFF_TOTAL_LEN;
  if total <? N.of_nat MIN_RECORD_LEN then DErr Corrupt else
  if blen bs <? total then DErr Incomplete else
  let n := N.to_nat total in
  let rec := take n bs in
  stored_crc ← read_u32 rec (n - 4);
  if negb (crc32c (take (n - 4) rec) =? stored_crc) then DErr BadCrc else
  tb ← or_panic (rec !! OFF_TYPE);
  t ← ok_or (from_u8 tb) Corrupt;
  redo_len ← read_u32 rec OFF_REDO_LEN;
  let redo_start := N.of_nat (OFF_REDO_LEN + 4) in
  undo_len_off ← ok_or (checked_add_u64 redo_start redo_len) Corrupt;
  if total <? undo_len_off + 4 + 4 then DErr Corrupt else
  undo_len ← read_u32 rec (N.to_nat undo_len_off);
  let undo_start := undo_len_off + 4 in
  if negb (undo_start + undo_len + 4 =? total) then DErr Corrupt else
  l ← read_u64 rec OFF_LSN;
  p ← read_u64 rec OFF_PREV_LSN;
  x ← read_u64 rec OFF_TXN_ID;
  pg ← read_u64 rec OFF_PAGE_ID;
  u ← read_u64 rec OFF_UNDO_NEXT;
  rd ← or_panic (slice rec (OFF_REDO_LEN + 4) (N.to_nat redo_len));
  un ← or_panic (slice rec (N.to_nat undo_start) (N.to_nat undo_len));
  DOk (mkRef l p x t pg u rd un, n).

Definition commit_ts (r : LogRecordRef) : option Timestamp :=
  if decide (ref_rec_type r = Commit) then
    Some (match slice (ref_redo r) 0 8 with Some b => from_le_bytes b | None => 0 end)
  else None.

End ref.
End Ref.

(** The record a borrowed one denotes. *)
Definition to_owned (r : LogRecordRef) : LogRecord :=
  mkRecord (ref_lsn r) (ref_prev_lsn r) (ref_txn_id r) (ref_rec_type r) (ref_page_id r)
    (ref_undo_next_lsn r) (ref_redo r) (ref_undo r).
Definition of_owned (r : LogRecord) : LogRecordRef :=
  mkRef (lsn r) (prev_lsn r) (txn_id r) (rec_type r) (page_id r) (undo_next_lsn r) (redo r) (undo r).

(** ** Facts *)

Lemma ref_decode_eq `{Crc32c} bs :
  Ref.decode bs = match Rec.decode bs with
                  | DOk (r, n) => DOk (of_owned r, n)
                  | DErr e => DErr e
                  | DPanic => DPanic
                  end.
Proof. unfold Ref.decode, Rec.decode, mbind, Decoded_bind. repeat case_match; simplify_eq; done. Qed.

Lemma from_as_u8 t : from_u8 (as_u8 t) = Some t.
Proof. by destruct t. Qed.

Lemma from_u8_Some b t : from_u8 b = Some t → b = as_u8 t.
Proof. unfold from_u8. intros. repeat case_match; by simplify_eq. Qed.

Lemma as_u8_lt t : as_u8 t < 256.
Proof. by destruct t. Qed.

(** The integers of a record fit their fields and its images their length words. *)
Record record_ok (r : LogRecord) : Prop := {
  ok_lsn : lsn r ≤ u64_max;
  ok_prev : prev_lsn r ≤ u64_max;
  ok_txn : txn_id r ≤ u64_max;
  ok_page : page_id r ≤ u64_max;
  ok_next : undo_next_lsn r ≤ u64_max;
  ok_len : N.of_nat (Rec.encoded_len r) ≤ u32_max;
}.

Section codec_facts.
Context `{Crc32c}.

Definition encode (r : LogRecord) : bytes := (Rec.encode_to (lsn r) r []).2.

Lemma encode_eq r : encode r =
  Rec.body (lsn r) r (redo r) (undo r) ++ to_le_bytes 4 (crc32c (Rec.body (lsn r) r (redo r) (undo r))).
Proof. done. Qed.

Lemma body_length l r rd un :
  length (Rec.body l r rd un) = (REC_FIXED_PREFIX + 4 + length rd + 4 + length un)%nat.
Proof. unfold Rec.body. rewrite !length_app, !to_le_bytes_length. unfold REC_FIXED_PREFIX. cbn. lia. Qed.

Lemma encode_length r : length (encode r) = Rec.encoded_len r.
Proof. rewrite encode_eq, length_app, body_length, to_le_bytes_length. unfold Rec.encoded_len. lia. Qed.

(** A decoder that got past its length checks reads in range. *)
Lemma read_u32_ok b off : (off + 4 ≤ length b)%nat →
  read_u32 b off = DOk (from_le_bytes (take 4 (drop off b))).
Proof. intros. unfold read_u32. by rewrite slice_ok. Qed.
Lemma read_u64_ok b off : (off + 8 ≤ length b)%nat →
  read_u64 b off = DOk (from_le_bytes (take 8 (drop off b))).
Proof. intros. unfold read_u64. by rewrite slice_ok. Qed.

(** The decoder as a sequence of tests on total reads: what it answers on every
    buffer, with no panic among the answers. *)
Definition total_of (bs : bytes) : N := from_le_bytes (take 4 bs).
Definition field32 (bs : bytes) (off : nat) : N := from_le_bytes (take 4 (drop off bs)).
Definition field64 (bs : bytes) (off : nat) : N := from_le_bytes (take 8 (drop off bs)).

Definition decode_tests (bs : bytes) : Decoded (LogRecord * nat) :=
  if bool_decide (length bs < REC_FIXED_PREFIX + 8)%nat then DErr Incomplete else
  let total := total_of bs in
  if total <? N.of_nat MIN_RECORD_LEN then DErr Corrupt else
  if blen bs <? total then DErr Incomplete else
  let n := N.to_nat total in
  if negb (crc32c (take (n - 4) bs) =? field32 bs (n - 4)) then DErr BadCrc else
  match from_u8 (from_le_bytes (take 1 (drop OFF_TYPE bs))) with
  | None => DErr Corrupt
  | Some t =>
      let rl := field32 bs OFF_REDO_LEN in
      if u64_max <? 49 + rl then DErr Corrupt else
      if total <? 49 + rl + 8 then DErr Corrupt else
      let ul := field32 bs (49 + N.to_nat rl) in
      if negb (49 + rl + 4 + ul + 4 =? total) then DErr Corrupt else
      DOk (mkRecord (field64 bs OFF_LSN) (field64 bs OFF_PREV_LSN) (field64 bs OFF_TXN_ID) t
             (field64 bs OFF_PAGE_ID) (field64 bs OFF_UNDO_NEXT)
             (take (N.to_nat rl) (drop 49 bs))
             (take (N.to_nat ul) (drop (53 + N.to_nat rl) bs)), n)
  end.

Lemma read_u32_take n bs off : (off + 4 ≤ n)%nat → (n ≤ length bs)%nat →
  read_u32 (take n bs) off = DOk (field32 bs off).
Proof. intros. unfold read_u32. by rewrite slice_take, slice_ok by lia. Qed.

Lemma read_u64_take n bs off : (off + 8 ≤ n)%nat → (n ≤ length bs)%nat →
  read_u64 (take n bs) off = DOk (field64 bs off).
Proof. intros. unfold read_u64. by rewrite slice_take, slice_ok by lia. Qed.

Lemma index_take n bs : (OFF_TYPE < n)%nat → (n ≤ length bs)%nat →
  or_panic (take n bs !! OFF_TYPE) = DOk (from_le_bytes (take 1 (drop OFF_TYPE bs))).
Proof.
  intros. rewrite lookup_take_lt by done.
  destruct (lookup_lt_is_Some_2 bs OFF_TYPE) as [b Hb]; [lia|].
  rewrite Hb, (drop_S bs b OFF_TYPE) by done. cbn [or_panic firstn from_le_bytes]. f_equal. rewrite take_0. cbn [from_le_bytes]. lia.
Qed.

Lemma decode_tests_eq bs : Rec.decode bs = decode_tests bs.
Proof.
  unfold Rec.decode, decode_tests. case_bool_decide as Hl; [done|].
  unfold REC_FIXED_PREFIX in Hl. rewrite read_u32_ok by (cbn; lia).
  unfold mbind, Decoded_bind. fold (total_of bs). rewrite drop_0. fold (total_of bs).
  destruct (N.ltb_spec (total_of bs) (N.of_nat MIN_RECORD_LEN)) as [|Hmin]; [done|].
  destruct (N.ltb_spec (blen bs) (total_of bs)) as [|Hlen]; [done|].
  unfold blen, MIN_RECORD_LEN, REC_FIXED_PREFIX in *.
  set (n := N.to_nat (total_of bs)) in *.
  assert (Hn : (57 ≤ n ≤ length bs)%nat) by lia.
  rewrite read_u32_take, take_take, Nat.min_l by lia. cbn [negb].
  destruct (crc32c (take (n - 4) bs) =? field32 bs (n - 4)); [|done]. cbn [negb].
  rewrite index_take by (unfold OFF_TYPE; lia).
  destruct (from_u8 _) as [t|]; [|done]. cbn [ok_or].
  rewrite read_u32_take by (unfold OFF_REDO_LEN; lia).
  set (rl := field32 bs OFF_REDO_LEN).
  unfold checked_add_u64. change (N.of_nat (OFF_REDO_LEN + 4)) with 49.
  case_bool_decide as Hc; destruct (N.ltb_spec u64_max (49 + rl)); try lia; [|done]. cbn [ok_or].
  replace (49 + rl + 4 + 4) with (49 + rl + 8) by lia.
  destruct (N.ltb_spec (total_of bs) (49 + rl + 8)); [done|].
  rewrite read_u32_take by lia. replace (N.to_nat (49 + rl)) with (49 + N.to_nat rl)%nat by lia.
  set (ul := field32 bs (49 + N.to_nat rl)).
  destruct (N.eqb_spec (49 + rl + 4 + ul + 4) (total_of bs)) as [Ht|]; [|done]. cbn [negb].
  rewrite !read_u64_take by (unfold OFF_LSN, OFF_PREV_LSN, OFF_TXN_ID, OFF_PAGE_ID, OFF_UNDO_NEXT; lia).
  rewrite !slice_take, !slice_ok by (unfold OFF_REDO_LEN; lia). cbn [or_panic].
  do 3 f_equal. f_equal. f_equal. lia.
Qed.

Lemma decode_no_panic bs : Rec.decode bs ≠ DPanic.
Proof. rewrite decode_tests_eq. unfold decode_tests. intros ?. repeat case_match; done. Qed.

Lemma piece_slice bs off len b : slice bs off len = Some b → take len (drop off bs) = b.
Proof. by intros (_ & -> & _)%slice_Some. Qed.

Lemma encode_layout r rest : encode r ++ rest =
  to_le_bytes 4 (N.of_nat (Rec.encoded_len r))
  ++ to_le_bytes 8 (lsn r) ++ to_le_bytes 8 (prev_lsn r) ++ to_le_bytes 8 (txn_id r)
  ++ [as_u8 (rec_type r)] ++ to_le_bytes 8 (page_id r) ++ to_le_bytes 8 (undo_next_lsn r)
  ++ to_le_bytes 4 (blen (redo r)) ++ redo r ++ to_le_bytes 4 (blen (undo r)) ++ undo r
  ++ to_le_bytes 4 (crc32c (Rec.body (lsn r) r (redo r) (undo r))) ++ rest.
Proof. rewrite encode_eq. unfold Rec.body at 1, Rec.encoded_len. by rewrite <- !app_assoc. Qed.

(** Reads the field at [off] of a laid-out record. *)
Local Ltac read_field :=
  apply piece_slice; rewrite encode_layout;
  repeat (rewrite slice_skip by (rewrite ?to_le_bytes_length; cbn; lia));
  rewrite ?to_le_bytes_length; cbn [Nat.sub length];
  repeat match goal with |- context [slice _ ?o _] => progress replace o with 0%nat by (rewrite ?to_le_bytes_length; cbn; lia) end;
  apply slice_here; by rewrite ?to_le_bytes_length.

Lemma piece_total r rest : take 4 (drop 0 (encode r ++ rest)) = to_le_bytes 4 (N.of_nat (Rec.encoded_len r)).
Proof. read_field. Qed.
Lemma piece_lsn r rest : take 8 (drop OFF_LSN (encode r ++ rest)) = to_le_bytes 8 (lsn r).
Proof. unfold OFF_LSN. read_field. Qed.
Lemma piece_prev r rest : take 8 (drop OFF_PREV_LSN (encode r ++ rest)) = to_le_bytes 8 (prev_lsn r).
Proof. unfold OFF_PREV_LSN. read_field. Qed.
Lemma piece_txn r rest : take 8 (drop OFF_TXN_ID (encode r ++ rest)) = to_le_bytes 8 (txn_id r).
Proof. unfold OFF_TXN_ID. read_field. Qed.
Lemma piece_type r rest : take 1 (drop OFF_TYPE (encode r ++ rest)) = [as_u8 (rec_type r)].
Proof. unfold OFF_TYPE. read_field. Qed.
Lemma piece_page r rest : take 8 (drop OFF_PAGE_ID (encode r ++ rest)) = to_le_bytes 8 (page_id r).
Proof. unfold OFF_PAGE_ID. read_field. Qed.
Lemma piece_next r rest : take 8 (drop OFF_UNDO_NEXT (encode r ++ rest)) = to_le_bytes 8 (undo_next_lsn r).
Proof. unfold OFF_UNDO_NEXT. read_field. Qed.
Lemma piece_redo_len r rest : take 4 (drop OFF_REDO_LEN (encode r ++ rest)) = to_le_bytes 4 (blen (redo r)).
Proof. unfold OFF_REDO_LEN. read_field. Qed.
Lemma piece_redo r rest : take (length (redo r)) (drop 49 (encode r ++ rest)) = redo r.
Proof. read_field. Qed.
Lemma piece_undo_len r rest :
  take 4 (drop (49 + length (redo r)) (encode r ++ rest)) = to_le_bytes 4 (blen (undo r)).
Proof. read_field. Qed.
Lemma piece_undo r rest :
  take (length (undo r)) (drop (53 + length (redo r)) (encode r ++ rest)) = undo r.
Proof. read_field. Qed.
Lemma piece_crc r rest : take 4 (drop (Rec.encoded_len r - 4) (encode r ++ rest))
  = to_le_bytes 4 (crc32c (Rec.body (lsn r) r (redo r) (undo r))).
Proof. unfold Rec.encoded_len, REC_FIXED_PREFIX. read_field. Qed.

Lemma to_nat_blen bs : N.to_nat (blen bs) = length bs.
Proof. apply Nat2N.id. Qed.

Lemma decode_encode_app r rest : record_ok r →
  Rec.decode (encode r ++ rest) = DOk (r, Rec.encoded_len r).
Proof.
  intros [Hl Hp Hx Hpg Hn Hlen]. rewrite decode_tests_eq. unfold decode_tests.
  pose proof (encode_length r) as Hel. unfold Rec.encoded_len, REC_FIXED_PREFIX in Hel.
  assert (blen (redo r) ≤ u32_max ∧ blen (undo r) ≤ u32_max ∧ 49 + blen (redo r) ≤ u64_max) as (Hr & Hu & Hro).
  { unfold blen, Rec.encoded_len, REC_FIXED_PREFIX, u32_max, u64_max in *. lia. }
  assert (total_of (encode r ++ rest) = N.of_nat (Rec.encoded_len r)) as ->.
  { pose proof (piece_total r rest) as Ht. rewrite drop_0 in Ht. unfold total_of.
    by rewrite Ht, from_to_le_bytes by by apply u32_le. }
  unfold field64, field32. rewrite Nat2N.id, piece_crc, piece_type, piece_redo_len.
  rewrite !from_to_le_bytes by first [apply u32_le, crc32c_u32 | by apply u32_le].
  rewrite !to_nat_blen, piece_lsn, piece_prev, piece_txn, piece_page, piece_next, piece_redo, piece_undo_len.
  rewrite !from_to_le_bytes by first [by apply u64_le | by apply u32_le].
  rewrite !to_nat_blen, piece_undo. cbn [from_le_bytes]. rewrite N.mul_0_r, N.add_0_r, from_as_u8.
  assert (take (Rec.encoded_len r - 4) (encode r ++ rest) = Rec.body (lsn r) r (redo r) (undo r)) as ->.
  { rewrite encode_eq, <- app_assoc. apply take_app_length'. rewrite body_length. unfold Rec.encoded_len. lia. }
  rewrite N.eqb_refl. cbn [negb]. unfold blen. rewrite length_app, encode_length.
  unfold Rec.encoded_len, MIN_RECORD_LEN, REC_FIXED_PREFIX, blen in *.
  rewrite bool_decide_eq_false_2 by lia.
  repeat (case_match; bool_solve; try lia). by destruct r.
Qed.

Lemma piece_app (a b : bytes) o k : (o + k ≤ length a)%nat → take k (drop o (a ++ b)) = take k (drop o a).
Proof. intros. rewrite drop_app_le, take_app_le by (rewrite ?length_drop; lia). done. Qed.

(** Appending bytes changes no answer but [Incomplete]. *)
Lemma decode_app a b : Rec.decode a ≠ DErr Incomplete → Rec.decode (a ++ b) = Rec.decode a.
Proof.
  rewrite !decode_tests_eq. unfold decode_tests. rewrite length_app.
  case_bool_decide as Ha; [done|]. rewrite bool_decide_eq_false_2 by lia.
  unfold REC_FIXED_PREFIX in Ha.
  assert (total_of (a ++ b) = total_of a) as ->
    by (unfold total_of; by rewrite take_app_le by lia).
  destruct (N.ltb_spec (total_of a) (N.of_nat MIN_RECORD_LEN)) as [|Hm]; [done|].
  unfold blen. rewrite length_app.
  destruct (N.ltb_spec (N.of_nat (length a)) (total_of a)) as [|Hl]; [done|].
  destruct (N.ltb_spec (N.of_nat (length a + length b)) (total_of a)); [lia|]. intros _.
  unfold MIN_RECORD_LEN, REC_FIXED_PREFIX in Hm.
  assert (H32 : ∀ o, (o + 4 ≤ length a)%nat → field32 (a ++ b) o = field32 a o)
    by (intros; unfold field32; by rewrite piece_app).
  rewrite take_app_le, piece_app, !H32 by (unfold OFF_TYPE, OFF_REDO_LEN; lia).
  case_match; [done|]. case_match; [|done]. set (rl := field32 a OFF_REDO_LEN).
  destruct (N.ltb_spec u64_max (49 + rl)); [done|].
  destruct (N.ltb_spec (total_of a) (49 + rl + 8)); [done|].
  rewrite H32 by lia. set (ul := field32 a (49 + N.to_nat rl)).
  destruct (N.eqb_spec (49 + rl + 4 + ul + 4) (total_of a)); [|done]. cbn [negb].
  unfold field64. rewrite !piece_app by (unfold OFF_LSN, OFF_PREV_LSN, OFF_TXN_ID, OFF_PAGE_ID, OFF_UNDO_NEXT; lia).
  done.
Qed.

(** Cutting a record short is reported as such. *)
Lemma decode_cut bs r n m : Rec.decode bs = DOk (r, n) → (m < n)%nat →
  Rec.decode (take m bs) = DErr Incomplete.
Proof.
  rewrite !decode_tests_eq. unfold decode_tests. intros Hd Hm.
  case_bool_decide as Hb; [done|]. destruct (total_of bs <? _) eqn:Ht; [done|].
  destruct (blen bs <? _) eqn:Hl; [done|].
  assert (n = N.to_nat (total_of bs)) as -> by (repeat case_match; by simplify_eq).
  case_bool_decide as Hc; [done|]. rewrite length_take in Hc. unfold REC_FIXED_PREFIX in *.
  assert (total_of (take m bs) = total_of bs) as ->
    by (unfold total_of; by rewrite take_take, Nat.min_l by lia).
  rewrite Ht. unfold blen. rewrite length_take.
  destruct (N.ltb_spec (N.of_nat (m `min` length bs)) (total_of bs)); [done|]. bool_solve. lia.
Qed.

Lemma piece_u32 bs o : is_bytes bs → field32 bs o ≤ u32_max.
Proof. intros Hb. pose proof (from_piece_lt bs o 4 Hb). unfold field32, u32_max. cbn in *. lia. Qed.
Lemma piece_u64 bs o : is_bytes bs → field64 bs o ≤ u64_max.
Proof. intros Hb. pose proof (from_piece_lt bs o 8 Hb). unfold field64, u64_max. cbn in *. lia. Qed.

Lemma type_piece bs t : is_bytes bs → (29 ≤ length bs)%nat →
  from_u8 (from_le_bytes (take 1 (drop OFF_TYPE bs))) = Some t →
  [as_u8 t] = take 1 (drop OFF_TYPE bs).
Proof.
  intros Hb Hl Ht%from_u8_Some. rewrite <- (to_from_piece bs OFF_TYPE 1) by (done || unfold OFF_TYPE; lia).
  rewrite Ht. cbn [to_le_bytes]. by rewrite N.mod_small by apply as_u8_lt.
Qed.

(** The bytes of a decoded record's body. *)
Lemma body_pieces bs r rl ul : is_bytes bs → (57 + rl + ul ≤ length bs)%nat →
  total_of bs = N.of_nat (57 + rl + ul) →
  [as_u8 (rec_type r)] = take 1 (drop OFF_TYPE bs) →
  field32 bs OFF_REDO_LEN = N.of_nat rl → field32 bs (49 + rl) = N.of_nat ul →
  redo r = take rl (drop 49 bs) → undo r = take ul (drop (53 + rl) bs) →
  lsn r = field64 bs OFF_LSN → prev_lsn r = field64 bs OFF_PREV_LSN →
  txn_id r = field64 bs OFF_TXN_ID → page_id r = field64 bs OFF_PAGE_ID →
  undo_next_lsn r = field64 bs OFF_UNDO_NEXT →
  Rec.body (lsn r) r (redo r) (undo r) = take (53 + rl + ul) bs.
Proof.
  intros Hb Hl Ht Hty Hrl Hul Hr Hu H1 H2 H3 H4 H5. unfold Rec.body.
  assert (Hlr : length (redo r) = rl) by (rewrite Hr, length_take, length_drop; lia).
  assert (Hlu : length (undo r) = ul) by (rewrite Hu, length_take, length_drop; lia).
  unfold blen, REC_FIXED_PREFIX. rewrite Hlr, Hlu, Hty, H1, H2, H3, H4, H5, <- Hrl, <- Hul.
  replace (4 + 8 + 8 + 8 + 1 + 8 + 8 + 4 + rl + 4 + ul + 4)%nat with (57 + rl + ul)%nat by lia.
  rewrite <- Ht. unfold total_of, field64, field32. rewrite <- (drop_0 bs) at 1.
  rewrite !to_from_piece by (done || unfold OFF_LSN, OFF_PREV_LSN, OFF_TXN_ID, OFF_PAGE_ID, OFF_UNDO_NEXT, OFF_REDO_LEN; lia).
  rewrite Hr, Hu.
  unfold OFF_LSN, OFF_PREV_LSN, OFF_TXN_ID, OFF_TYPE, OFF_PAGE_ID, OFF_UNDO_NEXT, OFF_REDO_LEN.
  repeat rewrite pieces_app_eq by lia. rewrite drop_0. f_equal. lia.
Qed.

Lemma decode_canonical bs r n : is_bytes bs → Rec.decode bs = DOk (r, n) →
  record_ok r ∧ n = Rec.encoded_len r ∧ (n ≤ length bs)%nat ∧ take n bs = encode r.
Proof.
  intros Hb. rewrite decode_tests_eq. unfold decode_tests. case_bool_decide as Hs; [done|].
  destruct (total_of bs <? _) eqn:Hm; [done|]. destruct (blen bs <? _) eqn:Hl; [done|].
  destruct (N.eqb_spec (crc32c (take (N.to_nat (total_of bs) - 4) bs)) (field32 bs (N.to_nat (total_of bs) - 4))) as [Hc|]; [|done]. cbn [negb].
  destruct (from_u8 _) as [t|] eqn:Ht; [|done]. set (rl := field32 bs OFF_REDO_LEN).
  destruct (u64_max <? _) eqn:H64; [done|]. destruct (total_of bs <? 49 + _ + 8) eqn:Hr; [done|].
  set (ul := field32 bs (49 + N.to_nat rl)). destruct (N.eqb_spec (49 + rl + 4 + ul + 4) (total_of bs)) as [Htot|]; [|done]. cbn [negb].
  intros Heq. injection Heq as <- <-. bool_solve. unfold blen, MIN_RECORD_LEN, REC_FIXED_PREFIX in *.
  set (r := mkRecord _ _ _ _ _ _ _ _).
  assert (Hn : N.to_nat (total_of bs) = (57 + N.to_nat rl + N.to_nat ul)%nat) by lia.
  assert (Hbody : Rec.body (lsn r) r (redo r) (undo r) = take (53 + N.to_nat rl + N.to_nat ul) bs).
  { apply body_pieces; try done; rewrite ?N2Nat.id; try done; try lia. apply type_piece; [done|lia|done]. }
  assert (Hlen : Rec.encoded_len r = (57 + N.to_nat rl + N.to_nat ul)%nat).
  { unfold Rec.encoded_len, REC_FIXED_PREFIX, r. csimpl. rewrite !length_take, !length_drop. lia. }
  pose proof (piece_u32 bs 0 Hb) as Htu. unfold field32 in Htu. rewrite drop_0 in Htu. fold (total_of bs) in Htu.
  split_and!; [split; [by apply piece_u64..|rewrite Hlen; lia]|lia|lia|].
  rewrite encode_eq, Hbody, Hn. rewrite Hn in Hc.
  replace (57 + N.to_nat rl + N.to_nat ul - 4)%nat with (53 + N.to_nat rl + N.to_nat ul)%nat in Hc by lia.
  rewrite Hc. unfold field32. rewrite to_from_piece by (done || lia).
  rewrite <- (drop_0 bs) at 2. rewrite pieces_app_eq, drop_0 by lia. f_equal. lia.
Qed.

(** C39: The record decoder accepts exactly what the encoder writes: on every byte
    buffer it answers a record and a length iff the buffer starts with that record's
    encoding (and the record's fields fit their widths). It never reads out of range,
    its answer does not depend on bytes after the record, and a record cut short is
    reported as incomplete and as nothing else. *)
Theorem record_codec_exact (bs : bytes) (r : LogRecord) (n : nat) : is_bytes bs →
  (Rec.decode bs = DOk (r, n) ↔
     record_ok r ∧ n = length (encode r) ∧ take n bs = encode r)
  ∧ Rec.decode bs ≠ DPanic
  ∧ (∀ more, Rec.decode bs ≠ DErr Incomplete → Rec.decode (bs ++ more) = Rec.decode bs)
  ∧ (∀ m, Rec.decode bs = DOk (r, n) → (m < n)%nat → Rec.decode (take m bs) = DErr Incomplete).
Proof.
  intros Hb. split_and!; eauto using decode_no_panic, decode_app, decode_cut.
  rewrite encode_length. split.
  - intros (? & ? & ? & ?)%decode_canonical; done.
  - intros (Hr & -> & Ht). rewrite <- (take_drop (Rec.encoded_len r) bs), Ht.
    by apply decode_encode_app.
Qed.

(** The borrowing decoder of the recovery scans accepts and rejects the same
    buffers as the owning one, with the same errors and the same fields. *)
Theorem ref_decode_agrees (bs : bytes) :
  Ref.decode bs = match Rec.decode bs with
                  | DOk (r, n) => DOk (of_owned r, n)
                  | DErr e => DErr e
                  | DPanic => DPanic
                  end
  ∧ (∀ r n, Ref.decode bs = DOk (r, n) → Rec.decode bs = DOk (to_owned r, n)
       ∧ Ref.commit_ts r = Rec.commit_ts (to_owned r)).
Proof.
  split; [apply ref_decode_eq|]. intros r n. rewrite ref_decode_eq.
  destruct (Rec.decode bs) as [[r' n']| |]; intros ?; simplify_eq. by destruct r'.
Qed.
End codec_facts.

(** ** A checksum for evaluation: the reflected Castagnoli polynomial, bit by bit *)
Definition crc_bit (c : N) : N :=
  if N.testbit c 0 then N.lxor (N.shiftr c 1) 2197175160 else N.shiftr c 1.
Definition crc_byte (c b : N) : N := Nat.iter 8 crc_bit (N.lxor c b).
Lemma mod_u32 x : x mod 2 ^ 32 ≤ u32_max.
Proof. pose proof (N.mod_lt x (2 ^ 32) ltac:(done)). unfold u32_max. lia. Qed.

Definition castagnoli : Crc32c.
Proof.
  refine {| crc32c bs := N.lxor (foldl crc_byte u32_max bs) u32_max mod 2 ^ 32 |}.
  intros bs. apply mod_u32.
Defined.

Definition sample_record : LogRecord := mkRecord 8 0 7 Update 42 0 [1; 2; 3] [9].

Lemma record_codec_exact_witness :
  is_bytes (@encode castagnoli sample_record)
  ∧ @Rec.decode castagnoli (@encode castagnoli sample_record) = DOk (sample_record, 61%nat).
Proof.
  assert (Hb : is_bytes (@encode castagnoli sample_record)) by (repeat constructor).
  split; [exact Hb|].
  refine (proj2 (proj1 (@record_codec_exact castagnoli (@encode castagnoli sample_record) sample_record 61 Hb)) _).
  split_and!; [split; vm_compute; done | vm_compute; done | vm_compute; done].
Defined.
