(* ===== verification/Checkpoint.v ===== *)
(** * graphus-wal: the fuzzy-checkpoint snapshot

    [src/crates/graphus-wal/src/checkpoint.rs]: the dirty-page and active-transaction
    tables embedded in a [CheckpointEnd] record, their serialisation, and the LSN redo
    starts from. *)

From stdpp Require Import options.
From S2P Require Import Prelude Core Bytes.

Record CheckpointSnapshot := mkSnapshot {
  dirty_pages : list (PageId * Lsn);
  active_txns : list (TxnId * Lsn);
}.

(** A cursor into the payload: [take_u32] and [take_u64]. *)
Definition take_int (w : nat) (b : bytes) (cur : nat) : option (N * nat) :=
  e ← checked_add_u64 (N.of_nat cur) (N.of_nat w);
  s ← slice b cur w;
  Some (from_le_bytes s, N.to_nat e).
Definition take_u32 : bytes → nat → option (N * nat) := take_int 4.
Definition take_u64 : bytes → nat → option (N * nat) := take_int 8.

(** One [for _ in 0..n] loop of [decode]. *)
Fixpoint take_pairs (n : nat) (b : bytes) (cur : nat) : option (list (N * N) * nat) :=
  match n with
  | O => Some ([], cur)
  | S n =>
      '(p, cur) ← take_u64 b cur;
      '(l, cur) ← take_u64 b cur;
      '(ps, cur) ← take_pairs n b cur;
      Some ((p, l) :: ps, cur)
  end.

Definition pair_bytes (p : N * N) : bytes := to_le_bytes 8 p.1 ++ to_le_bytes 8 p.2.

Module Ckpt.

Definition encode (s : CheckpointSnapshot) : bytes :=
  to_le_bytes 4 (N.of_nat (length (dirty_pages s)))
  ++ concat (pair_bytes <$> dirty_pages s)
  ++ to_le_bytes 4 (N.of_nat (length (active_txns s)))
  ++ concat (pair_bytes <$> active_txns s).

Definition decode (b : bytes) : option CheckpointSnapshot :=
  '(n_dpt, cur) ← take_u32 b 0;
  '(dp, cur) ← take_pairs (N.to_nat n_dpt) b cur;
  '(n_att, cur) ← take_u32 b cur;
  '(at_, cur) ← take_pairs (N.to_nat n_att) b cur;
  Some (mkSnapshot dp at_).

Definition redo_start (s : CheckpointSnapshot) : option Lsn := list_min ((dirty_pages s).*2).

End Ckpt.

(** ** Facts *)

Definition pairs_ok (l : list (N * N)) : Prop :=
  Forall (λ p, p.1 ≤ u64_max ∧ p.2 ≤ u64_max) l ∧ N.of_nat (length l) ≤ u32_max.
Definition snapshot_ok (s : CheckpointSnapshot) : Prop :=
  pairs_ok (dirty_pages s) ∧ pairs_ok (active_txns s).

Section facts.
Context (b : bytes) (Hlen : N.of_nat (length b) ≤ u64_max).
#[local] Set Default Proof Using "All".

Lemma take_int_Some w cur x c' :
  take_int w b cur = Some (x, c') ↔
  (cur + w ≤ length b)%nat ∧ c' = (cur + w)%nat ∧ x = from_le_bytes (take w (drop cur b)).
Proof.
  unfold take_int. split.
  - intros (e & [-> _]%checked_add_u64_Some & (s & Hs & [= <- <-])%bind_Some)%bind_Some.
    apply slice_Some in Hs as (Hr & -> & Hw). split_and!; [done|lia|done].
  - intros (Hr & -> & ->). rewrite slice_ok by done. cbn.
    assert (checked_add_u64 (N.of_nat cur) (N.of_nat w) = Some (N.of_nat cur + N.of_nat w)) as ->.
    { apply checked_add_u64_Some. lia. }
    cbn. do 2 f_equal. lia.
Qed.

Lemma take_u32_Some cur x c' :
  take_u32 b cur = Some (x, c') ↔
  (cur + 4 ≤ length b)%nat ∧ c' = (cur + 4)%nat ∧ x = from_le_bytes (take 4 (drop cur b)).
Proof. unfold take_u32. apply take_int_Some. Qed.
Lemma take_u64_Some cur x c' :
  take_u64 b cur = Some (x, c') ↔
  (cur + 8 ≤ length b)%nat ∧ c' = (cur + 8)%nat ∧ x = from_le_bytes (take 8 (drop cur b)).
Proof. unfold take_u64. apply take_int_Some. Qed.

(** The loop reads the next [n] pairs, and they serialise to the bytes it read. *)
Lemma take_pairs_Some n : is_bytes b → ∀ cur ps c', (cur ≤ length b)%nat →
  take_pairs n b cur = Some (ps, c') →
  (c' ≤ length b)%nat ∧ c' = (cur + 16 * n)%nat ∧ length ps = n
  ∧ concat (pair_bytes <$> ps) = take (16 * n) (drop cur b)
  ∧ Forall (λ p, p.1 ≤ u64_max ∧ p.2 ≤ u64_max) ps.
Proof.
  intros Hb. induction n as [|n IH]; intros cur ps c' Hc Hp; cbn [take_pairs] in Hp.
  { simplify_eq. split_and!; (done || lia). }
  apply bind_Some in Hp as ([p c1] & Hp & Hr). apply bind_Some in Hr as ([l c2] & Hl & Hr).
  apply bind_Some in Hr as ([qs c3] & Hq & Hr). simplify_eq.
  apply take_u64_Some in Hp as (H1 & -> & ->). apply take_u64_Some in Hl as (H2 & -> & ->).
  destruct (IH _ _ _ H2 Hq) as (H3 & -> & Hn & Hcat & Hf).
  pose proof (from_piece_lt b cur 8 Hb) as Hu1. pose proof (from_piece_lt b (cur + 8) 8 Hb) as Hu2.
  cbn in Hu1, Hu2. unfold u64_max. split_and!; [done|lia|csimpl; lia| |constructor; [csimpl; lia|done]].
  rewrite fmap_cons. cbn [concat]. unfold pair_bytes at 1. cbn [fst snd]. rewrite !to_from_piece, Hcat by (done || lia).
  rewrite <- app_assoc. repeat rewrite pieces_app_eq by lia. f_equal. lia.
Qed.

(** Reading back what was serialised. *)
Lemma take_pairs_encoded ps : Forall (λ p, p.1 ≤ u64_max ∧ p.2 ≤ u64_max) ps → ∀ a d,
  b = a ++ concat (pair_bytes <$> ps) ++ d →
  take_pairs (length ps) b (length a) = Some (ps, (length a + 16 * length ps)%nat).
Proof.
  induction 1 as [|[p l] ps [Hp Hl] _ IH]; intros a d Heq; cbn [take_pairs length].
  { do 2 f_equal. lia. }
  cbn [fst snd] in *. rewrite fmap_cons in Heq. cbn [concat] in Heq. unfold pair_bytes at 1 in Heq. cbn [fst snd] in Heq.
  rewrite <- !app_assoc in Heq.
  assert (H1 : take_u64 b (length a) = Some (p, (length a + 8)%nat)).
  { apply take_u64_Some. rewrite Heq, !length_app, !to_le_bytes_length. split_and!; [lia|done|].
    rewrite drop_app_length, take_app_length' by (symmetry; apply to_le_bytes_length).
    by rewrite from_to_le_bytes by by apply u64_le. }
  assert (H2 : take_u64 b (length a + 8) = Some (l, (length a + 8 + 8)%nat)).
  { apply take_u64_Some. rewrite Heq, !length_app, !to_le_bytes_length. split_and!; [lia|done|].
    rewrite <- drop_drop, drop_app_length, drop_app_length' by (symmetry; apply to_le_bytes_length).
    rewrite take_app_length' by (symmetry; apply to_le_bytes_length).
    by rewrite from_to_le_bytes by by apply u64_le. }
  rewrite H1. cbn [mbind option_bind]. rewrite H2. cbn [mbind option_bind].
  specialize (IH (a ++ to_le_bytes 8 p ++ to_le_bytes 8 l) d).
  rewrite !length_app, !to_le_bytes_length in IH. rewrite <- (Nat.add_assoc (length a) 8 8). cbn [Nat.add] in IH |- *.
  rewrite IH by (by rewrite <- !app_assoc). cbn [mbind option_bind]. do 2 f_equal. lia.
Qed.
End facts.

Lemma pairs_length (l : list (N * N)) : length (concat (pair_bytes <$> l)) = (16 * length l)%nat.
Proof.
  induction l as [|p l IH]; [done|]. rewrite fmap_cons. cbn [concat length]. rewrite length_app, IH.
  unfold pair_bytes. rewrite length_app, !to_le_bytes_length. lia.
Qed.

Lemma decode_encode_snapshot s rest : snapshot_ok s →
  N.of_nat (length (Ckpt.encode s ++ rest)) ≤ u64_max → Ckpt.decode (Ckpt.encode s ++ rest) = Some s.
Proof.
  intros [[Hd Hnd] [Ha Hna]] Hl. set (b := Ckpt.encode s ++ rest) in *.
  set (dp := concat (pair_bytes <$> dirty_pages s)). set (at_ := concat (pair_bytes <$> active_txns s)).
  assert (Hb : b = to_le_bytes 4 (N.of_nat (length (dirty_pages s))) ++ dp
    ++ to_le_bytes 4 (N.of_nat (length (active_txns s))) ++ at_ ++ rest).
  { unfold b, Ckpt.encode, dp, at_. by rewrite <- !app_assoc. }
  assert (H1 : take_u32 b 0 = Some (N.of_nat (length (dirty_pages s)), 4%nat)).
  { apply take_u32_Some; [done|]. rewrite Hb, !length_app, !to_le_bytes_length, drop_0. split_and!; [lia|done|].
    rewrite take_app_length' by (symmetry; apply to_le_bytes_length). by rewrite from_to_le_bytes by by apply u32_le. }
  pose proof (take_pairs_encoded b Hl _ Hd (to_le_bytes 4 (N.of_nat (length (dirty_pages s)))) _ Hb) as H2.
  rewrite to_le_bytes_length in H2.
  assert (H3 : take_u32 b (4 + 16 * length (dirty_pages s))
    = Some (N.of_nat (length (active_txns s)), (4 + 16 * length (dirty_pages s) + 4)%nat)).
  { apply take_u32_Some; [done|]. pose proof (pairs_length (dirty_pages s)) as Hp. fold dp in Hp.
    rewrite Hb, !length_app, !to_le_bytes_length, Hp. split_and!; [lia|done|].
    rewrite app_assoc, drop_app_length' by (rewrite length_app, to_le_bytes_length, Hp; lia).
    rewrite take_app_length' by (symmetry; apply to_le_bytes_length). by rewrite from_to_le_bytes by by apply u32_le. }
  pose proof (take_pairs_encoded b Hl _ Ha
    (to_le_bytes 4 (N.of_nat (length (dirty_pages s))) ++ dp ++ to_le_bytes 4 (N.of_nat (length (active_txns s)))) rest) as H4.
  rewrite !length_app, !to_le_bytes_length in H4. unfold dp in H4 at 2. rewrite pairs_length, Nat.add_assoc in H4.
  unfold Ckpt.decode. apply bind_Some. exists (N.of_nat (length (dirty_pages s)), 4%nat). split; [exact H1|].
  cbn beta match. rewrite Nat2N.id. apply bind_Some. eexists. split; [exact H2|].
  apply bind_Some. eexists. split; [exact H3|]. cbn beta match. rewrite Nat2N.id. apply bind_Some. eexists.
  split; [apply H4; rewrite Hb; by rewrite <- !app_assoc | by destruct s].
Qed.

Lemma decode_snapshot_prefix b s : N.of_nat (length b) ≤ u64_max → is_bytes b →
  Ckpt.decode b = Some s → snapshot_ok s ∧ ∃ rest, b = Ckpt.encode s ++ rest.
Proof.
  intros Hl Hb Hd. unfold Ckpt.decode in Hd.
  apply bind_Some in Hd as ([n1 c1] & H1 & Hd). apply bind_Some in Hd as ([dp c2] & H2 & Hd).
  apply bind_Some in Hd as ([n2 c3] & H3 & Hd). apply bind_Some in Hd as ([ac c4] & H4 & [= <-]).
  apply take_u32_Some in H1 as (L1 & -> & E1); [|done].
  apply take_pairs_Some in H2 as (L2 & -> & N1 & C1 & F1); [|done|done|done].
  apply take_u32_Some in H3 as (L3 & -> & E2); [|done].
  apply take_pairs_Some in H4 as (L4 & -> & N2 & C2 & F2); [|done|done|done].
  pose proof (from_piece_lt b 0 4 Hb) as U1. pose proof (from_piece_lt b (0 + 4 + 16 * N.to_nat n1) 4 Hb) as U2.
  rewrite <- E1 in U1. rewrite <- E2 in U2. cbn in U1, U2.
  split; [split; (split; [done|csimpl; unfold u32_max; lia])|].
  assert (W1 : to_le_bytes 4 n1 = take 4 (drop 0 b)) by (rewrite E1; by apply to_from_piece).
  assert (W2 : to_le_bytes 4 n2 = take 4 (drop (0 + 4 + 16 * N.to_nat n1) b)) by (rewrite E2; by apply to_from_piece).
  exists (drop (4 + 16 * N.to_nat n1 + 4 + 16 * N.to_nat n2) b). unfold Ckpt.encode.
  cbn [dirty_pages active_txns]. rewrite N1, N2, !N2Nat.id, C1, C2, W1, W2.
  repeat rewrite pieces_app_eq by lia. rewrite drop_0.
  replace (4 + (16 * N.to_nat n1 + (4 + 16 * N.to_nat n2)))%nat
    with (4 + 16 * N.to_nat n1 + 4 + 16 * N.to_nat n2)%nat by lia. by rewrite take_drop.
Qed.

(** A checkpoint payload decodes to a snapshot iff it starts with that snapshot's
    serialisation; a payload that is too short or claims more entries than it holds
    decodes to nothing. *)
Theorem checkpoint_codec_exact (b : bytes) (s : CheckpointSnapshot) :
  is_bytes b → N.of_nat (length b) ≤ u64_max →
  Ckpt.decode b = Some s ↔ snapshot_ok s ∧ ∃ rest, b = Ckpt.encode s ++ rest.
Proof.
  intros Hb Hl. split; [by apply decode_snapshot_prefix|].
  intros (Hs & rest & ->). by apply decode_encode_snapshot.
Qed.

Definition sample_snapshot : CheckpointSnapshot := mkSnapshot [(3, 80); (7, 40)] [(9, 120)].

Lemma checkpoint_codec_exact_witness :
  Ckpt.decode (Ckpt.encode sample_snapshot ++ [5]) = Some sample_snapshot.
Proof.
  apply (checkpoint_codec_exact (Ckpt.encode sample_snapshot ++ [5]) sample_snapshot).
  - repeat constructor.
  - vm_compute. done.
  - split; [|by exists [5]]. split; (split; [repeat constructor; vm_compute; done|vm_compute; done]).
Defined.
