(* ===== verification/WalSink.v ===== *)
(** * graphus-wal: log sinks

    [src/crates/graphus-wal/src/sink.rs]. The trait [LogSink] is a class; what the log
    manager and recovery rely on is a second class with the laws, stated of the
    durable byte image and of the bytes appended since. [MemLogSink], the sink of the
    simulation tests, keeps a retained head, a reclaimed gap and a tail; it is proved
    to satisfy the laws. [DiscardingLogSink] keeps only the header and is no log. *)

From stdpp Require Import options.
From S2P Require Import Prelude Core Bytes.

Definition HEADER_LEN : N := 8.

(** The deferred [fdatasync] of a pipelined harden; [run] is its outcome. *)
Record FsyncJob := mkJob { run : Outcome unit; covers_from : N; target_len : N }.

Module Job.

Definition deferred (run : Outcome unit) (from target : N) : Outcome FsyncJob :=
  if from <=? target then Ok (mkJob run from target)
  else Panic "INVARIANT VIOLATED (rmp #1040): an fsync job declares an inverted range".

Definition already_durable (target : N) : FsyncJob := mkJob (Ok tt) target target.

End Job.

(** ** The trait *)
Class LogSink (S : Type) := {
  sk_append : bytes → S → S;
  sk_sync : St S unit;
  sk_begin_harden : St S FsyncJob;
  sk_complete_harden : N → S → S;
  sk_durable_len : S → N;
  sk_buffered_len : S → N;
  sk_read_durable : N → S → Outcome bytes;
  sk_read_bounded : N → N → S → Outcome bytes;
  sk_reclaim : N → N → St S unit;
  sk_reclaimed_floor : S → N;
  sk_set_segment_target : N → S → S;
  sk_retains_undo : S → bool;
}.

(** The provided methods of the trait. *)
Definition default_begin_harden {S} (sync : St S unit) (durable_len : S → N) : St S FsyncJob :=
  _ ← sync; s ← get; mret (Job.already_durable (durable_len s)).

Definition default_read_bounded {S} (read_durable : N → S → Outcome bytes) (from to : N) (s : S) : Outcome bytes :=
  match read_durable from s with
  | Ok bs => Ok (take (N.to_nat (to - from)) bs)
  | Err e => Err e
  | Panic m => Panic m
  end.

(** The bytes at offsets [[from, to)] of a buffer, as far as it reaches. *)
Definition cut (from to : N) (l : bytes) : bytes :=
  take (N.to_nat (N.min to (blen l) - from)) (drop (N.to_nat from) l).

(** ** The in-memory sink *)
Record MemLogSink := mkMem {
  head : bytes;
  base : N;
  tail : bytes;
  written : bytes;
  pending : bytes;
  deferred_harden : bool;
  armed_sync_error : bool;
}.

Module Mem.

Definition new : MemLogSink := mkMem [] 0 [] [] [] false false.
Definition with_deferred_harden : MemLogSink := mkMem [] 0 [] [] [] true false.
Definition crash (s : MemLogSink) : MemLogSink :=
  mkMem (head s) (base s) (tail s) [] [] (deferred_harden s) (armed_sync_error s).
Definition arm_sync_error (s : MemLogSink) : MemLogSink :=
  mkMem (head s) (base s) (tail s) (written s) (pending s) (deferred_harden s) true.

Definition durable_end (s : MemLogSink) : N := base s + blen (tail s).

Definition durable_bytes (s : MemLogSink) : bytes :=
  let out := replicate (N.to_nat (durable_end s)) 0 in
  let out := copy_at 0 (head s) out in
  copy_at (N.to_nat (base s)) (tail s) out.

Definition unsynced_written_bytes (s : MemLogSink) : bytes := written s.

Definition append (bs : bytes) (s : MemLogSink) : MemLogSink :=
  mkMem (head s) (base s) (tail s) (written s) (pending s ++ bs) (deferred_harden s) (armed_sync_error s).

Definition sync : St MemLogSink unit := λ s,
  if armed_sync_error s then
    (Err (Storage "injected fdatasync failure"),
     mkMem (head s) (base s) (tail s) (written s) (pending s) (deferred_harden s) false)
  else
    (Ok tt, mkMem (head s) (base s) (tail s ++ written s ++ pending s) [] [] (deferred_harden s) false).

Definition begin_harden : St MemLogSink FsyncJob := λ s,
  if negb (deferred_harden s) then
    (_ ← sync; s ← get; mret (Job.already_durable (durable_end s))) s
  else
    let from := durable_end s in
    let w := written s ++ pending s in
    let s := mkMem (head s) (base s) (tail s) w [] (deferred_harden s) (armed_sync_error s) in
    (Job.deferred (Ok tt) from (from + blen w), s).

Definition complete_harden (target : N) (s : MemLogSink) : MemLogSink :=
  if negb (deferred_harden s) then s else
  if target <=? durable_end s then s else
  let promote := Nat.min (N.to_nat (target - durable_end s)) (length (written s)) in
  mkMem (head s) (base s) (tail s ++ take promote (written s)) (drop promote (written s)) (pending s)
    (deferred_harden s) (armed_sync_error s).

Definition durable_len (s : MemLogSink) : N := durable_end s.
Definition buffered_len (s : MemLogSink) : N := durable_end s + blen (written s) + blen (pending s).

Definition read_durable (from : N) (s : MemLogSink) : Outcome bytes :=
  let e := durable_end s in
  if e <=? from then Ok [] else
  let into := replicate (N.to_nat (e - from)) 0 in
  let head_end := blen (head s) in
  let into := if from <? head_end then copy_at 0 (drop (N.to_nat from) (head s)) into else into in
  let tail_start := N.max (base s) from in
  Ok (if tail_start <? e
      then copy_at (N.to_nat (tail_start - from)) (drop (N.to_nat (tail_start - base s)) (tail s)) into
      else into).

Definition read_bounded (from to : N) (s : MemLogSink) : Outcome bytes :=
  let e := N.min to (durable_end s) in
  if e <=? from then Ok [] else
  let into := replicate (N.to_nat (e - from)) 0 in
  let head_end := blen (head s) in
  let into :=
    if from <? head_end
    then copy_at 0 (take (N.to_nat (N.min head_end e - from)) (drop (N.to_nat from) (head s))) into
    else into in
  let tail_start := N.max (base s) from in
  Ok (if tail_start <? e
      then copy_at (N.to_nat (tail_start - from))
             (take (N.to_nat (e - tail_start)) (drop (N.to_nat (tail_start - base s)) (tail s))) into
      else into).

Definition reclaim (from up_to : N) : St MemLogSink unit := λ s,
  let from := N.min from (durable_end s) in
  let up_to := N.max (N.min up_to (durable_end s)) from in
  let s :=
    if (base s =? blen (head s)) && (blen (head s) <? from) then
      let promote := N.to_nat (from - base s) in
      mkMem (head s ++ take promote (tail s)) from (drop promote (tail s)) (written s) (pending s)
        (deferred_harden s) (armed_sync_error s)
    else s in
  if up_to <=? base s then (Ok tt, s) else
  (Ok tt, mkMem (head s) up_to (drop (N.to_nat (up_to - base s)) (tail s)) (written s) (pending s)
            (deferred_harden s) (armed_sync_error s)).

Definition reclaimed_floor (s : MemLogSink) : N :=
  if blen (head s) <? base s then base s else 0.

End Mem.

#[global] Instance MemLogSink_sink : LogSink MemLogSink := {
  sk_append := Mem.append;
  sk_sync := Mem.sync;
  sk_begin_harden := Mem.begin_harden;
  sk_complete_harden := Mem.complete_harden;
  sk_durable_len := Mem.durable_len;
  sk_buffered_len := Mem.buffered_len;
  sk_read_durable := Mem.read_durable;
  sk_read_bounded := Mem.read_bounded;
  sk_reclaim := Mem.reclaim;
  sk_reclaimed_floor := Mem.reclaimed_floor;
  sk_set_segment_target := λ _ s, s;
  sk_retains_undo := λ _, true;
}.

(** ** The sink that discards *)
Record DiscardingLogSink := mkDiscarding { d_head : bytes; d_len : N }.

Module Discarding.

Definition new : DiscardingLogSink := mkDiscarding [] 0.

Definition append (bs : bytes) (s : DiscardingLogSink) : DiscardingLogSink :=
  let start := d_len s in
  let h :=
    if start <? HEADER_LEN
    then d_head s ++ take (Nat.min (N.to_nat (HEADER_LEN - start)) (length bs)) bs
    else d_head s in
  mkDiscarding h (d_len s + blen bs).

Definition sync : St DiscardingLogSink unit := mret tt.

Definition read_durable (from : N) (s : DiscardingLogSink) : Outcome bytes :=
  if d_len s <=? from then Ok [] else
  let into := replicate (N.to_nat (d_len s - from)) 0 in
  Ok (if from <? blen (d_head s) then copy_at 0 (drop (N.to_nat from) (d_head s)) into else into).

End Discarding.

#[global] Instance DiscardingLogSink_sink : LogSink DiscardingLogSink := {
  sk_append := Discarding.append;
  sk_sync := Discarding.sync;
  sk_begin_harden := default_begin_harden Discarding.sync d_len;
  sk_complete_harden := λ _ s, s;
  sk_durable_len := d_len;
  sk_buffered_len := d_len;
  sk_read_durable := Discarding.read_durable;
  sk_read_bounded := default_read_bounded Discarding.read_durable;
  sk_reclaim := λ _ _, mret tt;
  sk_reclaimed_floor := λ _, 0;
  sk_set_segment_target := λ _ s, s;
  sk_retains_undo := λ _, false;
}.

(** ** What the log relies on

    [image] is the durable log from offset 0, with zeros where it was reclaimed;
    [unsynced] the bytes appended since; [frontier] how far a harden has written. *)
Definition preserved (from up_to : N) (l l' : bytes) : Prop :=
  length l' = length l ∧ ∀ i, l' !! i = l !! i ∨ (from ≤ N.of_nat i < up_to ∧ l' !! i = Some 0).

Class LogSinkSpec (S : Type) `{LogSink S} := {
  sink_ok : S → Prop;
  image : S → bytes;
  unsynced : S → bytes;
  frontier : S → N;
  durable_len_image s : sink_ok s → sk_durable_len s = blen (image s);
  buffered_len_image s : sink_ok s → sk_buffered_len s = blen (image s) + blen (unsynced s);
  append_spec bs s : sink_ok s →
    sink_ok (sk_append bs s) ∧ image (sk_append bs s) = image s
    ∧ unsynced (sk_append bs s) = unsynced s ++ bs ∧ frontier (sk_append bs s) = frontier s;
  sync_spec s s' : sink_ok s → sk_sync s = (Ok tt, s') →
    sink_ok s' ∧ image s' = image s ++ unsynced s ∧ unsynced s' = [] ∧ frontier s' = blen (image s');
  begin_harden_spec s j s' : sink_ok s → sk_begin_harden s = (Ok j, s') →
    sink_ok s' ∧ image s' ++ unsynced s' = image s ++ unsynced s
    ∧ covers_from j ≤ target_len j ∧ covers_from j ≤ blen (image s')
    ∧ target_len j = blen (image s ++ unsynced s) ∧ frontier s' = target_len j
    ∧ blen (image s) ≤ blen (image s');
  complete_harden_spec t s : sink_ok s → t ≤ frontier s →
    sink_ok (sk_complete_harden t s)
    ∧ image (sk_complete_harden t s) ++ unsynced (sk_complete_harden t s) = image s ++ unsynced s
    ∧ blen (image (sk_complete_harden t s)) = N.max t (blen (image s))
    ∧ frontier (sk_complete_harden t s) = frontier s;
  read_bounded_spec from to s bs : sink_ok s → sk_read_bounded from to s = Ok bs → bs = cut from to (image s);
  read_durable_spec from s bs : sink_ok s → sk_read_durable from s = Ok bs → bs = drop (N.to_nat from) (image s);
  reclaim_spec from up_to s s' : sink_ok s → HEADER_LEN ≤ from → sk_reclaim from up_to s = (Ok tt, s') →
    sink_ok s' ∧ unsynced s' = unsynced s ∧ preserved HEADER_LEN (N.max from up_to) (image s) (image s')
    ∧ frontier s' = frontier s ∧ sk_reclaimed_floor s' ≤ N.max (sk_reclaimed_floor s) (N.max from up_to);
  floor_spec s : sink_ok s → sk_reclaimed_floor s ≤ blen (image s);
  floor_append bs s : sink_ok s → sk_reclaimed_floor (sk_append bs s) = sk_reclaimed_floor s;
  floor_sync s s' : sink_ok s → sk_sync s = (Ok tt, s') → sk_reclaimed_floor s' = sk_reclaimed_floor s;
}.

(** Sinks in a state in which no read and no sync fails. *)
Class ReliableSink (S : Type) `{LogSinkSpec S} := {
  faultless : S → Prop;
  faultless_read s from to : sink_ok s → faultless s → is_ok (sk_read_bounded from to s) = true;
  faultless_append bs s : faultless s → faultless (sk_append bs s);
  faultless_sync s : sink_ok s → faultless s → ∃ s', sk_sync s = (Ok tt, s') ∧ faultless s';
}.

Lemma faultless_read_eq {S : Type} `{ReliableSink S} (s : S) from to : sink_ok s → faultless s →
  sk_read_bounded from to s = Ok (cut from to (image s)).
Proof.
  intros Hs Hf. pose proof (faultless_read s from to Hs Hf) as Hr.
  destruct (sk_read_bounded from to s) as [bs| |] eqn:He; try done.
  by rewrite (read_bounded_spec _ _ _ _ Hs He).
Qed.

(** ** The in-memory sink satisfies the laws *)

Definition mem_ok (s : MemLogSink) : Prop :=
  blen (head s) ≤ base s ∧ (base s = blen (head s) ∨ HEADER_LEN ≤ blen (head s)).
(** The written region exists only in deferred mode. *)
Definition mode_ok (s : MemLogSink) : Prop := deferred_harden s = false → written s = [].
Definition mem_gap (s : MemLogSink) : nat := N.to_nat (base s) - length (head s).
Definition mem_image (s : MemLogSink) : bytes := head s ++ replicate (mem_gap s) 0 ++ tail s.

Lemma mem_image_len s : mem_ok s → blen (mem_image s) = Mem.durable_end s.
Proof.
  intros [Hb _]. unfold blen, mem_image, mem_gap, Mem.durable_end, blen in *.
  rewrite !length_app, length_replicate. lia.
Qed.

Lemma cut_lookup from to l i :
  cut from to l !! i =
    if decide (N.of_nat i < N.min to (blen l) - from) then l !! (N.to_nat from + i)%nat else None.
Proof.
  unfold cut. case_decide.
  - rewrite lookup_take_lt, lookup_drop by lia. done.
  - apply lookup_take_ge. lia.
Qed.

Lemma mem_image_lookup s i : mem_ok s →
  mem_image s !! i =
    if decide (i < length (head s))%nat then head s !! i
    else if decide (N.of_nat i < base s) then Some 0
    else tail s !! (i - N.to_nat (base s))%nat.
Proof.
  intros [Hb _]. unfold mem_image, mem_gap, blen in *. repeat case_decide.
  - by rewrite lookup_app_l.
  - rewrite lookup_app_r, lookup_app_l by (rewrite ?length_replicate; lia).
    apply lookup_replicate_2. lia.
  - rewrite !lookup_app_r by (rewrite ?length_replicate; lia). rewrite length_replicate. f_equal. lia.
Qed.

Lemma zeros_lookup n i : (replicate n 0 : bytes) !! i = if decide (i < n)%nat then Some 0 else None.
Proof.
  case_decide; [by apply lookup_replicate_2|]. apply lookup_ge_None. rewrite length_replicate. lia.
Qed.

Lemma mem_read_bounded from to s : mem_ok s → Mem.read_bounded from to s = Ok (cut from to (mem_image s)).
Proof.
  intros Hs. pose proof (mem_image_len s Hs) as Hl. unfold Mem.read_bounded.
  set (e := N.min to (Mem.durable_end s)).
  assert (He : N.min to (blen (mem_image s)) = e) by (rewrite Hl; done).
  destruct (N.leb_spec e from).
  { f_equal. symmetry. unfold cut. rewrite He. replace (e - from) with 0 by lia. done. }
  destruct Hs as [Hb Hh]. unfold Mem.durable_end, blen in *. f_equal.
  set (into := if from <? _ then _ else _).
  assert (Hi : length into = N.to_nat (e - from) ∧ ∀ i, into !! i =
    if decide (N.of_nat i < e - from) then
      if decide (N.to_nat from + i < length (head s))%nat then head s !! (N.to_nat from + i)%nat else Some 0
    else None).
  { unfold into. destruct (N.ltb_spec from (N.of_nat (length (head s)))).
    - rewrite copy_at_length by (rewrite length_take, length_drop, length_replicate; lia).
      rewrite length_replicate. split; [done|]. intros i.
      rewrite copy_at_lookup, zeros_lookup by (rewrite length_take, length_drop, length_replicate; lia).
      rewrite length_take, length_drop. repeat case_decide; try lia; try done.
      rewrite lookup_take_lt, lookup_drop by lia. f_equal. lia.
    - rewrite length_replicate. split; [done|]. intros i. rewrite zeros_lookup.
      repeat case_decide; try lia; done. }
  destruct Hi as [Hil Hi]. apply list_eq. intros i. rewrite cut_lookup. unfold blen. rewrite He, mem_image_lookup by done.
  destruct (N.ltb_spec (N.max (base s) from) e).
  - assert (length (take (N.to_nat (e - N.max (base s) from)) (drop (N.to_nat (N.max (base s) from - base s)) (tail s)))
      = N.to_nat (e - N.max (base s) from)) as Hs by (rewrite length_take, length_drop; lia).
    rewrite copy_at_lookup, Hs, Hi by (rewrite Hs; lia). repeat case_decide; try lia; try done.
    rewrite lookup_take_lt, lookup_drop by lia. f_equal. lia.
  - rewrite Hi. repeat case_decide; try lia; try done.
Qed.

Lemma cut_whole from l : cut from (blen l) l = drop (N.to_nat from) l.
Proof. unfold cut. apply take_ge. rewrite length_drop. unfold blen. lia. Qed.

Lemma mem_read_durable from s : mem_ok s → Mem.read_durable from s = Ok (drop (N.to_nat from) (mem_image s)).
Proof.
  intros Hs. rewrite <- cut_whole, mem_image_len, <- mem_read_bounded by done.
  unfold Mem.read_durable, Mem.read_bounded. rewrite N.min_id. case_match; [done|]. bool_solve.
  destruct Hs as [Hb _]. unfold Mem.durable_end, blen in *. f_equal.
  rewrite !(take_ge (drop _ _)) by (rewrite length_drop; lia). done.
Qed.

(** Promoting the pinned prefix only moves the boundary between head and tail. *)
Lemma promote_image s k : mem_ok s → base s = blen (head s) → (k ≤ length (tail s))%nat →
  mem_image (mkMem (head s ++ take k (tail s)) (base s + N.of_nat k) (drop k (tail s))
    (written s) (pending s) (deferred_harden s) (armed_sync_error s)) = mem_image s.
Proof.
  intros _ Hb Hk. unfold mem_image, mem_gap, blen in *. cbn [head base tail].
  rewrite length_app, length_take, Nat.min_l by done.
  replace (N.to_nat (base s + N.of_nat k) - (length (head s) + k))%nat with 0%nat by lia.
  replace (N.to_nat (base s) - length (head s))%nat with 0%nat by lia.
  cbn [replicate app]. by rewrite <- app_assoc, take_drop.
Qed.

(** Draining the tail turns a prefix of it into zeros. *)
Lemma drain_preserved s u : mem_ok s → HEADER_LEN ≤ blen (head s) → base s ≤ u ≤ Mem.durable_end s →
  preserved HEADER_LEN u (mem_image s)
    (mem_image (mkMem (head s) u (drop (N.to_nat (u - base s)) (tail s))
       (written s) (pending s) (deferred_harden s) (armed_sync_error s))).
Proof.
  intros Hs Hh Hu. set (s' := mkMem _ _ _ _ _ _ _).
  assert (Hs' : mem_ok s') by (destruct Hs; split; [unfold s'; cbn; lia|by right]). 
  pose proof (mem_image_len s Hs) as Hl. pose proof (mem_image_len s' Hs') as Hl'.
  unfold Mem.durable_end, blen, s' in *. cbn [head base tail] in *. rewrite length_drop in Hl'.
  split; [lia|]. intros i. rewrite !mem_image_lookup by done. cbn [head base tail].
  repeat case_decide; try lia; auto.
  - right. split; [lia|done].
  - left. rewrite lookup_drop. f_equal. lia.
Qed.

Lemma preserved_refl from u l : preserved from u l l.
Proof. split; auto. Qed.
Lemma preserved_mono from u u' l l' : u ≤ u' → preserved from u l l' → preserved from u' l l'.
Proof. intros Hu [Hl Hp]. split; [done|]. intros i. destruct (Hp i) as [?|[??]]; [auto|right; split; [lia|done]]. Qed.

(** The promotion step of [reclaim], and what it leaves. *)
Definition promoted (from : N) (s : MemLogSink) : MemLogSink :=
  if (base s =? blen (head s)) && (blen (head s) <? from) then
    mkMem (head s ++ take (N.to_nat (from - base s)) (tail s)) from (drop (N.to_nat (from - base s)) (tail s))
      (written s) (pending s) (deferred_harden s) (armed_sync_error s)
  else s.

Lemma promoted_spec from s : mem_ok s → from ≤ Mem.durable_end s →
  mem_ok (promoted from s) ∧ mem_image (promoted from s) = mem_image s
  ∧ written (promoted from s) = written s ∧ pending (promoted from s) = pending s
  ∧ Mem.durable_end (promoted from s) = Mem.durable_end s
  ∧ (base (promoted from s) = blen (head (promoted from s)) → from ≤ base (promoted from s))
  ∧ Mem.reclaimed_floor (promoted from s) ≤ Mem.reclaimed_floor s
  ∧ deferred_harden (promoted from s) = deferred_harden s.
Proof.
  intros Hs Hf. unfold promoted.
  destruct (N.eqb_spec (base s) (blen (head s))) as [Hb|Hb]; cbn [andb]; [|split_and!; auto; lia].
  destruct (N.ltb_spec (blen (head s)) from) as [Hh|Hh]; [|split_and!; auto; lia].
  unfold Mem.durable_end, blen in *. set (k := N.to_nat (from - base s)).
  assert (Hk : (k ≤ length (tail s))%nat) by lia.
  pose proof (promote_image s k Hs Hb Hk) as Hi. replace (base s + N.of_nat k) with from in Hi by lia.
  cbn [head base tail written pending]. rewrite length_drop.
  assert (Hlen : length (head s ++ take k (tail s)) = N.to_nat from) by (rewrite length_app, length_take; lia).
  split_and!; [|done|done|done|lia|done| |done].
  - unfold mem_ok, blen. cbn [head base]. rewrite Hlen. split; [lia|left; lia].
  - unfold Mem.reclaimed_floor, blen. cbn [head base]. rewrite Hlen. case_match; bool_solve; lia.
Qed.

Lemma mem_reclaim from up_to s s' : mem_ok s → HEADER_LEN ≤ from → Mem.reclaim from up_to s = (Ok tt, s') →
  mem_ok s' ∧ written s' = written s ∧ pending s' = pending s
  ∧ preserved HEADER_LEN (N.max from up_to) (mem_image s) (mem_image s')
  ∧ Mem.durable_end s' = Mem.durable_end s
  ∧ Mem.reclaimed_floor s' ≤ N.max (Mem.reclaimed_floor s) (N.max from up_to)
  ∧ deferred_harden s' = deferred_harden s.
Proof.
  intros Hs Hf Hr. unfold Mem.reclaim in Hr. fold (promoted (N.min from (Mem.durable_end s)) s) in Hr.
  set (f := N.min from (Mem.durable_end s)) in *.
  destruct (promoted_spec f s Hs ltac:(lia)) as (Hp & Hi & Hw & Hpe & Hd & Hb & Hfl & Hdh).
  set (p := promoted f s) in *. set (u := N.max (N.min up_to (Mem.durable_end s)) f) in *.
  destruct (N.leb_spec u (base p)); simplify_eq.
  { rewrite Hi. split_and!; auto using preserved_refl. lia. }
  assert (Hde : base p ≤ Mem.durable_end p) by (unfold Mem.durable_end; lia).
  assert (Hh : HEADER_LEN ≤ blen (head p)) by (destruct Hp as [_ [He|He]]; [specialize (Hb He); lia|done]).
  assert (Hlen : (N.to_nat (u - base p) ≤ length (tail p))%nat) by (unfold Mem.durable_end, blen in *; lia).
  pose proof (drain_preserved p u Hp Hh ltac:(lia)) as Hpres. rewrite Hi in Hpres.
  split_and!; [destruct Hp; split; cbn [head base]; [lia|by right]|done|done| | | |done].
  - eapply preserved_mono; [|exact Hpres]. unfold u, f. lia.
  - unfold Mem.durable_end, blen in *. cbn [base tail]. rewrite length_drop. lia.
  - unfold Mem.reclaimed_floor. cbn [head base]. unfold u, f. case_match; lia.
Qed.

(** A harden moves bytes from the written region to the end of the tail. *)
Lemma tail_image s l w p d a : mem_ok s →
  mem_ok (mkMem (head s) (base s) (tail s ++ l) w p d a)
  ∧ mem_image (mkMem (head s) (base s) (tail s ++ l) w p d a) = mem_image s ++ l.
Proof. intros Hs. split; [done|]. unfold mem_image, mem_gap. cbn. by rewrite <- !app_assoc. Qed.

Lemma mem_sync s s' : mem_ok s → Mem.sync s = (Ok tt, s') →
  mem_ok s' ∧ mode_ok s' ∧ mem_image s' = mem_image s ++ written s ++ pending s
  ∧ written s' = [] ∧ pending s' = [].
Proof.
  intros Hs. unfold Mem.sync. case_match; intros Heq; simplify_eq.
  destruct (tail_image s (written s ++ pending s) [] [] (deferred_harden s) false Hs). done.
Qed.

Lemma mem_begin_harden s j s' : mem_ok s → mode_ok s → Mem.begin_harden s = (Ok j, s') →
  mem_ok s' ∧ mode_ok s' ∧ mem_image s' ++ written s' ++ pending s' = mem_image s ++ written s ++ pending s
  ∧ covers_from j ≤ target_len j ∧ covers_from j ≤ Mem.durable_end s'
  ∧ target_len j = blen (mem_image s ++ written s ++ pending s)
  ∧ Mem.durable_end s' + blen (written s') = target_len j
  ∧ blen (mem_image s) ≤ blen (mem_image s').
Proof.
  intros Hs Hm. unfold Mem.begin_harden. destruct (deferred_harden s) eqn:Hdef; cbn [negb].
  - unfold Job.deferred. case_match; intros Heq; simplify_eq. bool_solve. cbn [covers_from target_len written pending].
    pose proof (mem_image_len s Hs) as Hl. unfold Mem.durable_end, blen in *. cbn [base tail].
    rewrite !length_app in *. split_and!; [done|done| |lia|lia|lia|lia|done].
    unfold mem_image, mem_gap. cbn. by rewrite app_nil_r.
  - munfold. destruct (Mem.sync s) as [[] t] eqn:Hsy; intros Heq; simplify_eq. destruct a.
    apply mem_sync in Hsy as (Ht & Hmt & Hi & Hw & Hp); [|done]. cbn [covers_from target_len].
    assert (blen (mem_image s) ≤ blen (mem_image s')) by (rewrite Hi; unfold blen; rewrite length_app; lia).
    rewrite <- Hi, Hw, Hp, (mem_image_len s'), app_nil_r by done. split_and!; try done;
      [cbn [Job.already_durable target_len]; unfold blen; cbn [length]; lia|].
    rewrite <- (mem_image_len s') by done. done.
Qed.

Lemma mem_complete_harden t s : mem_ok s → mode_ok s → t ≤ Mem.durable_end s + blen (written s) →
  let s' := Mem.complete_harden t s in
  mem_ok s' ∧ mode_ok s' ∧ mem_image s' ++ written s' ++ pending s' = mem_image s ++ written s ++ pending s
  ∧ blen (mem_image s') = N.max t (blen (mem_image s))
  ∧ Mem.durable_end s' + blen (written s') = Mem.durable_end s + blen (written s).
Proof.
  intros Hs Hm Ht. cbn. unfold Mem.complete_harden. pose proof (mem_image_len s Hs) as Hl.
  destruct (deferred_harden s) eqn:Hdef; cbn [negb]; [|rewrite (Hm Hdef) in Ht; change (blen []) with 0 in Ht; split_and!; try done; lia].
  destruct (N.leb_spec t (Mem.durable_end s)); [split_and!; try done; lia|].
  set (k := Nat.min _ _). destruct (tail_image s (take k (written s)) (drop k (written s)) (pending s) true (armed_sync_error s) Hs) as [Hok Hi].
  cbn [written pending]. rewrite Hi. unfold Mem.durable_end, blen in *. cbn [base tail].
  rewrite !length_app, length_take, length_drop. split_and!; [done|done| |lia|lia].
  rewrite <- app_assoc. f_equal. by rewrite app_assoc, take_drop.
Qed.

#[global, refine] Instance MemLogSink_spec : LogSinkSpec MemLogSink := {|
  sink_ok s := mem_ok s ∧ mode_ok s;
  image := mem_image;
  unsynced s := written s ++ pending s;
  frontier s := Mem.durable_end s + blen (written s);
|}.
Proof.
  - intros s [Hs _]. symmetry. by apply mem_image_len.
  - intros s [Hs _]. rewrite mem_image_len by done. cbn. unfold Mem.buffered_len, blen. rewrite length_app. lia.
  - intros bs s [Hs Hm]. split_and!; try done. cbn. by rewrite app_assoc.
  - intros s s' [Hs _] Hy. apply mem_sync in Hy as (Hok & Hmo & Hi & Hw & Hp); [|done].
    rewrite Hw, Hp, (mem_image_len s') by done. split_and!; try done. unfold blen. cbn [length]. lia.
  - intros s j s' [Hs Hm] Hb. apply mem_begin_harden in Hb as (Hok & Hmo & Hi & Hc & Hd & Ht & Hf & Hle); [|done|done].
    pose proof (mem_image_len s' Hok). split_and!; try done; lia.
  - intros t s [Hs Hm] Ht. destruct (mem_complete_harden t s Hs Hm Ht) as (Hok & Hmo & Hi & Hb & Hf). done.
  - intros from to s bs [Hs _]. cbn. rewrite mem_read_bounded by done. by intros [= <-].
  - intros from s bs [Hs _]. cbn. rewrite mem_read_durable by done. by intros [= <-].
  - intros from up_to s s' [Hs Hm] Hf Hr.
    apply mem_reclaim in Hr as (Hok & Hw & Hp & Hpres & Hd & Hfl & Hdh); [|done|done].
    rewrite Hw, Hp, Hd. split_and!; try done. intros Hdef. rewrite Hw. apply Hm. congruence.
  - intros s [Hs _]. pose proof (mem_image_len s Hs) as Hl. cbn. unfold Mem.reclaimed_floor, Mem.durable_end in *.
    case_match; lia.
  - done.
  - intros s s' _. cbn. unfold Mem.sync. case_match; intros Heq; by simplify_eq.
Defined.

#[global, refine] Instance MemLogSink_reliable : ReliableSink MemLogSink := {|
  faultless s := armed_sync_error s = false;
|}.
Proof.
  - intros s from to [Hs _] _. cbn. by rewrite mem_read_bounded.
  - done.
  - intros s _ Hf. eexists. cbn. unfold Mem.sync. by rewrite Hf.
Defined.

(** Power loss keeps the durable image and nothing else. *)
Lemma mem_crash s : sink_ok s →
  sink_ok (Mem.crash s) ∧ image (Mem.crash s) = image s ∧ unsynced (Mem.crash s) = [].
Proof. intros [Hs Hm]. done. Qed.

Lemma mem_durable_bytes s : mem_ok s → Mem.durable_bytes s = mem_image s.
Proof.
  intros Hs. pose proof Hs as [Hb _]. unfold Mem.durable_bytes, Mem.durable_end, blen in *. set (z := replicate (N.to_nat (base s + N.of_nat (length (tail s)))) 0).
  assert (Hz : length z = (N.to_nat (base s) + length (tail s))%nat) by (unfold z; rewrite length_replicate; lia).
  assert (Hc : length (copy_at 0 (head s) z) = length z) by (apply copy_at_length; lia).
  apply list_eq. intros i. rewrite copy_at_lookup by lia. rewrite mem_image_lookup by done.
  rewrite (copy_at_lookup 0) by lia. unfold z. rewrite zeros_lookup.
  repeat case_decide; try lia; try done; try (f_equal; lia).
  symmetry. apply lookup_ge_None. lia.
Qed.

(** The in-memory sink implements a log with a durable part and an unsynced rest:
    an append extends the rest; a sync moves all of it to the durable part, or, with an
    injected fault, fails once and changes nothing; a harden job begun and completed does
    what a sync does; power loss drops exactly the rest; every read returns the durable
    part at its offsets; reclaiming zeroes a region past the header and moves nothing. *)
Theorem mem_sink_refines_log (s : MemLogSink) : sink_ok s →
  (∀ b, sink_ok (Mem.append b s) ∧ image (Mem.append b s) = image s ∧ unsynced (Mem.append b s) = unsynced s ++ b)
  ∧ (∃ r s', Mem.sync s = (r, s') ∧ sink_ok s' ∧ armed_sync_error s' = false
      ∧ if armed_sync_error s then (∃ e, r = Err e) ∧ image s' = image s ∧ unsynced s' = unsynced s
        else r = Ok tt ∧ image s' = image s ++ unsynced s ∧ unsynced s' = [])
  ∧ (∀ j s', Mem.begin_harden s = (Ok j, s') → let s'' := Mem.complete_harden (target_len j) s' in
      sink_ok s'' ∧ image s'' = image s ++ unsynced s ∧ unsynced s'' = [])
  ∧ (sink_ok (Mem.crash s) ∧ image (Mem.crash s) = image s ∧ unsynced (Mem.crash s) = [])
  ∧ (∀ from to, Mem.read_bounded from to s = Ok (cut from to (image s)))
  ∧ (∀ from, Mem.read_durable from s = Ok (drop (N.to_nat from) (image s)))
  ∧ Mem.durable_bytes s = image s ∧ Mem.durable_len s = blen (image s)
  ∧ Mem.buffered_len s = blen (image s) + blen (unsynced s)
  ∧ (∀ from up_to, HEADER_LEN ≤ from → ∃ s', Mem.reclaim from up_to s = (Ok tt, s')
      ∧ sink_ok s' ∧ unsynced s' = unsynced s ∧ preserved HEADER_LEN (N.max from up_to) (image s) (image s')).
Proof.
  intros Hok. pose proof Hok as [Hs Hm]. split_and!; try done.
  - intros b. by destruct (append_spec b s Hok) as (? & ? & ? & _).
  - unfold Mem.sync. destruct (armed_sync_error s) eqn:Ha.
    + eexists _, _. split_and!; [done| |done|by eexists|done|done]. by split.
    + eexists _, _. split; [done|]. destruct (tail_image s (written s ++ pending s) [] [] (deferred_harden s) false Hs) as [Ho Hi].
      split_and!; [by split|done|done|exact Hi|done].
  - intros j s' Hb. destruct (begin_harden_spec s j s' Hok Hb) as (Hs' & Hw & _ & _ & Ht & Hf & _).
    destruct (complete_harden_spec (target_len j) s' Hs' ltac:(lia)) as (Hs'' & Hw' & Hl & _). cbn zeta.
    change (Mem.complete_harden (target_len j) s') with (sk_complete_harden (target_len j) s').
    set (s'' := sk_complete_harden (target_len j) s') in *.
    rewrite Hw in Hw'. assert (Hnil : unsynced s'' = []).
    { apply nil_length_inv. apply (f_equal length) in Hw'. unfold blen in *. rewrite length_app in Hw'. lia. }
    rewrite Hnil, app_nil_r in Hw'. done.
  - by intros; apply mem_read_bounded.
  - by intros; apply mem_read_durable.
  - by apply mem_durable_bytes.
  - exact (durable_len_image s Hok).
  - exact (buffered_len_image s Hok).
  - intros from up_to Hf. destruct (Mem.reclaim from up_to s) as [r s'] eqn:Hr.
    assert (r = Ok tt) as -> by (unfold Mem.reclaim in Hr; by repeat case_match; simplify_eq).
    destruct (reclaim_spec from up_to s s' Hok Hf Hr) as (? & ? & ? & _). by exists s'.
Qed.

Lemma mem_sink_refines_log_witness :
  Mem.durable_bytes Mem.new = [] ∧ Mem.buffered_len Mem.new = blen (image Mem.new) + blen (unsynced Mem.new).
Proof.
  assert (Hok : sink_ok Mem.new) by (split; [split; [done|by left]|done]).
  destruct (mem_sink_refines_log Mem.new Hok) as (_ & _ & _ & _ & _ & _ & Hd & _ & Hb & _). exact (conj Hd Hb).
Defined.
