(* ===== verification/WalScan.v ===== *)
(** * graphus-wal: streaming scans of the durable log

    The scanning half of [src/crates/graphus-wal/src/recovery.rs]: the search for the
    first surviving record, the windowed forward scan, the probe for a genuine record
    behind a damaged one, and the read of a single record. Every loop carries fuel; the
    theorems show that the fuel suffices and that the windowed scans compute what a
    scan of the whole log in memory computes, whatever the window. *)

From stdpp Require Import options.
From S2P Require Import Prelude Core Bytes WalRecord WalSink.

(** ** Loops with fuel: [None] is running out of it *)
Definition FSt (S A : Type) : Type := S → option (Outcome A * S).

#[global] Instance FSt_ret S : MRet (FSt S) := λ A a s, Some (Ok a, s).
#[global] Instance FSt_bind S : MBind (FSt S) := λ A B f m s,
  match m s with
  | Some (Ok a, s') => f a s'
  | Some (Err e, s') => Some (Err e, s')
  | Some (Panic p, s') => Some (Panic p, s')
  | None => None
  end.
Definition flift {S A} (o : Outcome A) : FSt S A := λ s, Some (o, s).
Definition frun {S A} (m : St S A) : FSt S A := λ s, Some (m s).
Definition out_of_fuel {S A} : FSt S A := λ _, None.

(** The release-profile [+] on [u64], and [u64::checked_mul]. *)
Definition add_u64 (a b : N) : N := (a + b) mod 2 ^ 64.
Definition checked_mul_u64 (a b : N) : option N := if a * b <=? u64_max then Some (a * b) else None.
Definition saturating_add_u64 (a b : N) : N := N.min (a + b) u64_max.

Inductive ScanOutcome :=
  | Complete
  | TornTail
  | InteriorCorruption (at_ next : N).

Definition RECOVERY_WINDOW_BYTES : N := 4 * 1024 * 1024.

(** [buf.iter().position(|&b| b != 0)]. *)
Definition nonzero_position (buf : bytes) : option nat := fst <$> list_find (λ b, b ≠ 0) buf.

Section scan.
Context `{Crc32c}.
(** [wal.read_bounded], the durable length when the scan started, and the window. *)
Context (read : N → N → Outcome bytes) (durable_len window : N).

(** Iterations a windowed loop can need from [abs] with window [win]: it advances, or
    doubles a window that is below the durable length. *)
Definition scan_fuel : nat := 66 * S (S (N.to_nat durable_len)).

Section state.
Context {A : Type}.

Fixpoint record_decodes_at (fuel : nat) (at_ win : N) : FSt A bool :=
  match fuel with
  | O => out_of_fuel
  | S fuel =>
      let win_end := N.min (add_u64 at_ win) durable_len in
      buf ← flift (read at_ win_end);
      match Ref.decode buf with
      | DOk _ => mret true
      | DErr Incomplete =>
          if win_end =? durable_len then mret false
          else match checked_mul_u64 win 2 with
               | None => flift (Err (Storage "WAL recovery window overflow while probing the first record"))
               | Some win => record_decodes_at fuel at_ win
               end
      | DErr _ => mret false
      | DPanic => flift (Panic "slice index out of range")
      end
  end.

Fixpoint find_first_loop (fuel : nat) (abs : N) : FSt A (option N) :=
  match fuel with
  | O => out_of_fuel
  | S fuel =>
      if negb (abs <? durable_len) then mret None else
      let win_end := N.min (add_u64 abs window) durable_len in
      buf ← flift (read abs win_end);
      match nonzero_position buf with
      | None => find_first_loop fuel win_end
      | Some O => mret (Some abs)
      | Some pos =>
          b ← record_decodes_at scan_fuel abs window;
          if (b : bool) then mret (Some abs) else mret (Some (abs + N.of_nat pos))
      end
  end.
Definition find_first_record_offset (base : N) : FSt A (option N) := find_first_loop scan_fuel base.

(** The probe for a self-consistent record: within one window, then window by window.
    The inner loop answers the offset it found or how far it probed. *)
Fixpoint probe_buf (fuel : nat) (win_start : N) (buf : bytes) (last_window : bool) (p : nat)
    : FSt A (N + nat) :=
  match fuel with
  | O => out_of_fuel
  | S fuel =>
      if bool_decide (length buf ≤ p)%nat then mret (inr p) else
      match Ref.decode (drop p buf) with
      | DOk (r, _) =>
          if ref_lsn r =? win_start + N.of_nat p then mret (inl (win_start + N.of_nat p))
          else probe_buf fuel win_start buf last_window (S p)
      | DErr Incomplete =>
          if last_window then probe_buf fuel win_start buf last_window (S p) else mret (inr p)
      | DErr _ => probe_buf fuel win_start buf last_window (S p)
      | DPanic => flift (Panic "slice index out of range")
      end
  end.

Fixpoint probe_loop (fuel : nat) (win_start win : N) : FSt A (option N) :=
  match fuel with
  | O => out_of_fuel
  | S fuel =>
      if negb (win_start <? durable_len) then mret None else
      let win_end := N.min (add_u64 win_start win) durable_len in
      buf ← flift (read win_start win_end);
      let last_window := win_end =? durable_len in
      x ← probe_buf (S (length buf)) win_start buf last_window 0;
      match (x : N + nat) with
      | inl at_ => mret (Some at_)
      | inr p =>
          if (last_window : bool) then mret None
          else if bool_decide (p = O) then
            match checked_mul_u64 win 2 with
            | None => flift (Err (Storage "WAL corruption-probe window overflow"))
            | Some win => probe_loop fuel win_start win
            end
          else probe_loop fuel (win_start + N.of_nat p) window
      end
  end.
Definition scan_for_self_consistent (from : N) : FSt A (option N) := probe_loop scan_fuel from window.

Definition decide_tail (bad_at : N) (probe : bool) : FSt A ScanOutcome :=
  if negb probe then mret TornTail else
  r ← scan_for_self_consistent (bad_at + 1);
  match (r : option N) with
  | Some next => mret (InteriorCorruption bad_at next)
  | None => mret TornTail
  end.

(** The forward scan: the records of one buffer, then window by window. The inner loop
    answers the outcome of the scan or how far the buffer was consumed. *)
Section forward.
Context (probe : bool) (on_record : LogRecordRef → N → St A unit).

Fixpoint scan_buf (fuel : nat) (abs : N) (buf : bytes) (last_window : bool) (off : nat)
    : FSt A (ScanOutcome + nat) :=
  match fuel with
  | O => out_of_fuel
  | S fuel =>
      if bool_decide (length buf ≤ off)%nat then mret (inr off) else
      match Ref.decode (drop off buf) with
      | DOk (r, n) =>
          _ ← frun (on_record r (abs + N.of_nat off));
          scan_buf fuel abs buf last_window (off + n)
      | DErr Incomplete =>
          if last_window then o ← decide_tail (abs + N.of_nat off) probe; mret (inl o)
          else mret (inr off)
      | DErr _ => o ← decide_tail (abs + N.of_nat off) probe; mret (inl o)
      | DPanic => flift (Panic "slice index out of range")
      end
  end.

Fixpoint scan_loop (fuel : nat) (abs win : N) : FSt A ScanOutcome :=
  match fuel with
  | O => out_of_fuel
  | S fuel =>
      if negb (abs <? durable_len) then mret Complete else
      let win_end := N.min (add_u64 abs win) durable_len in
      buf ← flift (read abs win_end);
      let last_window := win_end =? durable_len in
      x ← scan_buf (S (length buf)) abs buf last_window 0;
      match (x : ScanOutcome + nat) with
      | inl o => mret o
      | inr progress =>
          if bool_decide (progress = O) && negb last_window then
            match checked_mul_u64 win 2 with
            | None => flift (Err (Storage "WAL recovery window overflow: a single record exceeds addressable size"))
            | Some win => scan_loop fuel abs win
            end
          else scan_loop fuel (abs + N.of_nat progress) window
      end
  end.
Definition scan_forward (first_offset : N) : FSt A ScanOutcome := scan_loop scan_fuel first_offset window.
End forward.
End state.

(** The read of a single record. *)
Definition read_record_at (l : N) : Outcome LogRecord :=
  match read l (saturating_add_u64 l 4) with
  | Ok hdr =>
      if bool_decide (length hdr < 4)%nat then
        Err (Storage "WAL undo: record is truncated below its 4-byte length prefix")
      else
        let total := from_le_bytes (take 4 hdr) in
        match read l (saturating_add_u64 l total) with
        | Ok buf =>
            match Rec.decode buf with
            | DOk (r, _) => Ok r
            | DErr _ => Err (Storage "WAL undo: record failed to decode")
            | DPanic => Panic "slice index out of range"
            end
        | Err e => Err e
        | Panic m => Panic m
        end
  | Err e => Err e
  | Panic m => Panic m
  end.
End scan.
