(* ===== verification/WalScanFacts.v ===== *)
(** * Windowed scans compute whole-log scans

    The reference: decode record after record of the durable image held in memory
    ([ref_scan]), and look for a genuine record byte by byte ([find_genuine]). Each
    windowed loop of [WalScan] is proved to return, and to return the reference's
    answer, for every window size. Of a log laid out as records a scan delivers exactly
    these records. *)
From S2P Require Import Prelude Core Bytes WalRecord WalSink WalScan.
From stdpp Require Import options.

Section reference.
Context `{Crc32c} (img : bytes).

Definition at_ (a : N) : bytes := drop (N.to_nat a) img.

(** A record stamped with its own offset. *)
Definition genuine (a : N) : bool :=
  match Ref.decode (at_ a) with DOk (r, _) => ref_lsn r =? a | _ => false end.

Fixpoint genuine_in (n : nat) (a : N) : option N :=
  match n with
  | O => None
  | S n => if genuine a then Some a else genuine_in n (a + 1)
  end.
Definition find_genuine (from : N) : option N := genuine_in (N.to_nat (blen img - from)) from.

(** The records decoded from offset [a] on, and the offset of the first that does
    not decode. *)
Fixpoint records_in (fuel : nat) (a : N) : list (N * LogRecordRef) * option N :=
  match fuel with
  | O => ([], None)
  | S fuel =>
      if negb (a <? blen img) then ([], None) else
      match Ref.decode (at_ a) with
      | DOk (r, n) =>
          let '(l, bad) := records_in fuel (a + N.of_nat n) in ((a, r) :: l, bad)
      | _ => ([], Some a)
      end
  end.
Definition log_records (a : N) : list (N * LogRecordRef) * option N := records_in (S (length (at_ a))) a.

Definition tail_outcome (probe : bool) (bad : option N) : ScanOutcome :=
  match bad with
  | None => Complete
  | Some b =>
      if probe then
        match find_genuine (b + 1) with Some next => InteriorCorruption b next | None => TornTail end
      else TornTail
  end.

Section fold.
Context {A : Type} (f : LogRecordRef → N → St A unit).

Fixpoint each (l : list (N * LogRecordRef)) : St A unit :=
  match l with
  | [] => mret tt
  | (a, r) :: l => _ ← f r a; each l
  end.

Definition ref_scan (probe : bool) (a : N) : St A ScanOutcome :=
  let '(l, bad) := log_records a in
  _ ← each l; mret (tail_outcome probe bad).
End fold.
End reference.

(** ** Facts about decoding a piece of the image *)
Section facts.
Context `{Crc32c} (img : bytes).

Lemma ref_decode_app a b : Ref.decode a ≠ DErr Incomplete → Ref.decode (a ++ b) = Ref.decode a.
Proof.
  rewrite !ref_decode_eq. intros Hd. rewrite decode_app; [done|]. intros He. by rewrite He in Hd.
Qed.

Lemma ref_decode_no_panic bs : Ref.decode bs ≠ DPanic.
Proof. rewrite ref_decode_eq. pose proof (decode_no_panic bs). by destruct (Rec.decode bs) as [[]| |]. Qed.

(** A decoded record has a positive length within the buffer. *)
Lemma ref_decode_len bs r n : Ref.decode bs = DOk (r, n) → (MIN_RECORD_LEN ≤ n ≤ length bs)%nat.
Proof.
  rewrite ref_decode_eq, decode_tests_eq. unfold decode_tests. intros Hd.
  repeat case_match; simplify_eq; bool_solve; unfold blen, MIN_RECORD_LEN, REC_FIXED_PREFIX in *; lia.
Qed.

Lemma at_length a : length (at_ img a) = N.to_nat (blen img - a).
Proof. unfold at_, blen. rewrite length_drop. lia. Qed.

Lemma at_add a n : at_ img (a + N.of_nat n) = drop n (at_ img a).
Proof. unfold at_. rewrite drop_drop. f_equal. lia. Qed.

(** More fuel than bytes changes nothing. *)
Lemma records_in_fuel fuel fuel' a : (N.to_nat (blen img - a) < fuel)%nat → (N.to_nat (blen img - a) < fuel')%nat →
  records_in img fuel a = records_in img fuel' a.
Proof.
  revert fuel' a. induction fuel as [|fuel IH]; intros fuel' a Hf Hf'; [lia|].
  destruct fuel' as [|fuel']; [lia|]. cbn [records_in].
  destruct (N.ltb_spec a (blen img)) as [Hlt|]; [|done]. cbn [negb].
  destruct (Ref.decode (at_ img a)) as [[r n]| |] eqn:Hd; [|done|done].
  apply ref_decode_len in Hd. unfold MIN_RECORD_LEN, REC_FIXED_PREFIX in Hd.
  rewrite (IH fuel' (a + N.of_nat n)) by lia. done.
Qed.

Lemma log_records_unfold a :
  log_records img a =
    if negb (a <? blen img) then ([], None) else
    match Ref.decode (at_ img a) with
    | DOk (r, n) => let '(l, bad) := log_records img (a + N.of_nat n) in ((a, r) :: l, bad)
    | _ => ([], Some a)
    end.
Proof.
  unfold log_records. rewrite at_length. cbn [records_in].
  destruct (N.ltb_spec a (blen img)) as [Hlt|]; [|done]. cbn [negb].
  destruct (Ref.decode (at_ img a)) as [[r n]| |] eqn:Hd; [|done|done].
  apply ref_decode_len in Hd. rewrite at_length in Hd. unfold MIN_RECORD_LEN, REC_FIXED_PREFIX in Hd.
  by rewrite (records_in_fuel (N.to_nat (blen img - a)) (S (length (at_ img (a + N.of_nat n)))))
    by (rewrite ?at_length; lia).
Qed.

Lemma ref_scan_unfold {A} (f : LogRecordRef → N → St A unit) probe a s :
  ref_scan img f probe a s =
    if negb (a <? blen img) then (Ok Complete, s) else
    match Ref.decode (at_ img a) with
    | DOk (r, n) =>
        match f r a s with
        | (Ok _, s) => ref_scan img f probe (a + N.of_nat n) s
        | (Err e, s) => (Err e, s)
        | (Panic m, s) => (Panic m, s)
        end
    | _ => (Ok (tail_outcome img probe (Some a)), s)
    end.
Proof.
  unfold ref_scan. rewrite log_records_unfold. destruct (a <? blen img); [|done]. cbn [negb].
  destruct (Ref.decode (at_ img a)) as [[r n]| |]; [|done|done].
  destruct (log_records img (a + N.of_nat n)) as [l bad]. cbn [each].
  unfold mbind, St_bind. destruct (f r a s) as [[] s']; done.
Qed.

(** A buffer read at [abs] holds a prefix of what follows [abs] in the image. *)
Lemma decode_in_window abs m off : (off ≤ m)%nat →
  Ref.decode (drop off (take m (at_ img abs))) ≠ DErr Incomplete →
  Ref.decode (at_ img (abs + N.of_nat off)) = Ref.decode (drop off (take m (at_ img abs))).
Proof.
  intros Ho Hd. rewrite at_add. rewrite <- (take_drop m (at_ img abs)) at 1.
  rewrite drop_app. rewrite ref_decode_app by done. done.
Qed.

Lemma decode_in_whole abs m off : (length (at_ img abs) ≤ m)%nat →
  Ref.decode (at_ img (abs + N.of_nat off)) = Ref.decode (drop off (take m (at_ img abs))).
Proof. intros Hm. by rewrite at_add, (take_ge (at_ img abs)) by lia. Qed.

Lemma genuine_in_step n a : genuine img a = false → genuine_in img (S n) a = genuine_in img n (a + 1).
Proof. intros Hg. cbn [genuine_in]. by rewrite Hg. Qed.

Lemma find_genuine_unfold a :
  find_genuine img a =
    if negb (a <? blen img) then None else
    if genuine img a then Some a else find_genuine img (a + 1).
Proof.
  unfold find_genuine. destruct (N.ltb_spec a (blen img)); cbn [negb].
  - replace (N.to_nat (blen img - a)) with (S (N.to_nat (blen img - (a + 1)))) by lia. done.
  - replace (blen img - a) with 0 by lia. done.
Qed.
End facts.

(** ** Windowed loops *)
Section windowed.
Context `{Crc32c} (img : bytes) (read : N → N → Outcome bytes) (durable_len window : N).
Context (read_eq : ∀ from to, read from to = Ok (cut from to img)).
Context (len_eq : durable_len = blen img) (len_le : durable_len ≤ 2 ^ 62).
Context (window_pos : 0 < window) (window_le : window ≤ 2 ^ 62).
#[local] Set Default Proof Using "All".

(** The windows a loop uses. *)
Definition win_ok (win : N) : Prop := 0 < win ≤ 2 ^ 63.
Definition win_end (abs win : N) : N := N.min (add_u64 abs win) durable_len.
Definition doublings (win : N) : nat := 65 - N.to_nat (N.log2 win).
Definition budget (abs win : N) : nat := 66 * N.to_nat (durable_len - abs) + doublings win.

Lemma win_end_eq abs win : abs < durable_len → win_ok win → win_end abs win = N.min (abs + win) durable_len.
Proof.
  intros Ha [? Hw]. unfold win_end, add_u64. rewrite N.mod_small; [done|].
  change (2 ^ 64) with 18446744073709551616. change (2 ^ 63) with 9223372036854775808 in Hw.
  change (2 ^ 62) with 4611686018427387904 in len_le. lia.
Qed.

Lemma read_window abs win : abs < durable_len → win_ok win →
  read abs (win_end abs win) = Ok (take (N.to_nat (win_end abs win - abs)) (at_ img abs)).
Proof.
  intros Ha Hw. rewrite read_eq. unfold cut, at_. do 2 f_equal. unfold win_end. lia.
Qed.

Lemma window_length abs win : abs < durable_len → win_ok win →
  length (take (N.to_nat (win_end abs win - abs)) (at_ img abs)) = N.to_nat (win_end abs win - abs)
  ∧ 0 < win_end abs win - abs ∧ win_end abs win ≤ durable_len.
Proof.
  intros Ha Hw. rewrite length_take, at_length, <- len_eq. pose proof (win_end_eq abs win Ha Hw) as He.
  destruct Hw. rewrite He. lia.
Qed.

(** Doubling a window that does not reach the end. *)
Lemma double_ok abs win : abs < durable_len → win_ok win → win_end abs win ≠ durable_len →
  checked_mul_u64 win 2 = Some (win * 2) ∧ win_ok (win * 2) ∧ (doublings (win * 2) < doublings win)%nat.
Proof.
  intros Ha Hw He. rewrite win_end_eq in He by done. destruct Hw as [Hp Hw].
  assert (Hlt : win < 2 ^ 62) by lia. unfold checked_mul_u64, win_ok, doublings.
  assert (Hlog : N.log2 win < 62) by (by apply N.log2_lt_pow2).
  rewrite N.mul_comm, N.log2_double by done. unfold u64_max.
  change (2 ^ 62) with 4611686018427387904 in Hlt. change (2 ^ 63) with 9223372036854775808.
  destruct (N.leb_spec (2 * win) (2 ^ 64 - 1)) as [|Hc]; [split_and!; [done|lia|lia|lia]|].
  change (2 ^ 64 - 1) with 18446744073709551615 in Hc. lia.
Qed.

Lemma base_window_ok : win_ok window.
Proof. unfold win_ok. change (2 ^ 63) with (2 * 2 ^ 62). lia. Qed.

Lemma budget_start abs : (budget abs window < scan_fuel durable_len)%nat.
Proof. unfold budget, scan_fuel, doublings. lia. Qed.

Lemma budget_advance abs n win : (0 < n)%nat → abs + N.of_nat n ≤ durable_len →
  (budget (abs + N.of_nat n) window < budget abs win)%nat.
Proof. intros. unfold budget, doublings. lia. Qed.

Lemma budget_double abs win : (doublings (win * 2) < doublings win)%nat →
  (budget abs (win * 2) < budget abs win)%nat.
Proof. unfold budget. lia. Qed.

(** One buffer of the probe. *)
Lemma probe_buf_spec {A} (s : A) ws m last fuel : ∀ p,
  let buf := take m (at_ img ws) in
  (last = true → (length (at_ img ws) ≤ m)%nat) →
  (p ≤ length buf)%nat → (length buf - p < fuel)%nat →
  ∃ x, probe_buf fuel ws buf last p s = Some (Ok x, s) ∧
    match x with
    | inl a => find_genuine img (ws + N.of_nat p) = Some a
    | inr p' => (p ≤ p' ≤ length buf)%nat ∧ (last = true → p' = length buf)
        ∧ find_genuine img (ws + N.of_nat p) = find_genuine img (ws + N.of_nat p')
    end.
Proof.
  induction fuel as [|fuel IH]; intros p buf Hlast Hp Hf; [lia|]. cbn [probe_buf].
  case_bool_decide as Hend.
  { eexists. split; [done|]. cbn. split_and!; [lia|lia|intros; lia|done]. }
  assert (Hlm : (length buf ≤ m)%nat) by (unfold buf; rewrite length_take; lia).
  assert (Hin : (length buf ≤ length (at_ img ws))%nat) by (unfold buf; rewrite length_take; lia).
  rewrite at_length in Hin.
  assert (Hstep : genuine img (ws + N.of_nat p) = false →
    ∃ x, probe_buf fuel ws buf last (S p) s = Some (Ok x, s) ∧
      match x with
      | inl a => find_genuine img (ws + N.of_nat p) = Some a
      | inr p' => (p ≤ p' ≤ length buf)%nat ∧ (last = true → p' = length buf)
          ∧ find_genuine img (ws + N.of_nat p) = find_genuine img (ws + N.of_nat p')
      end).
  { intros Hg. destruct (IH (S p) Hlast) as (x & Hx & Hres); [fold buf; lia|fold buf; lia|].
    exists x. split; [done|]. rewrite find_genuine_unfold, Hg.
    destruct (N.ltb_spec (ws + N.of_nat p) (blen img)); [|lia]. cbn [negb].
    replace (ws + N.of_nat p + 1) with (ws + N.of_nat (S p)) by lia.
    destruct x; [done|]. fold buf in Hres. destruct Hres as (? & ? & ?). split_and!; [lia|lia|done|done]. }
  destruct (Ref.decode (drop p buf)) as [[r n]|[]|] eqn:Hd.
  - assert (Hw : Ref.decode (at_ img (ws + N.of_nat p)) = DOk (r, n)).
    { rewrite (decode_in_window img ws m p) by (fold buf; first [lia | by rewrite Hd]). done. }
    destruct (N.eqb_spec (ref_lsn r) (ws + N.of_nat p)) as [He|He].
    + eexists. split; [done|]. cbn. rewrite find_genuine_unfold. unfold genuine. rewrite Hw.
      destruct (N.ltb_spec (ws + N.of_nat p) (blen img)); [|lia]. cbn [negb]. rewrite He. by rewrite N.eqb_refl.
    + apply Hstep. unfold genuine. rewrite Hw. by apply N.eqb_neq.
  - destruct last.
    + apply Hstep. unfold genuine. rewrite (decode_in_whole img ws m p) by auto. fold buf. by rewrite Hd.
    + eexists. split; [done|]. cbn. split_and!; [lia|lia|done|done].
  - apply Hstep. unfold genuine. rewrite (decode_in_window img ws m p) by (fold buf; first [lia | by rewrite Hd]).
    fold buf. by rewrite Hd.
  - apply Hstep. unfold genuine. rewrite (decode_in_window img ws m p) by (fold buf; first [lia | by rewrite Hd]).
    fold buf. by rewrite Hd.
  - by apply ref_decode_no_panic in Hd.
Qed.

Lemma probe_loop_spec {A} (s : A) fuel : ∀ ws win,
  win_ok win → (budget ws win < fuel)%nat →
  probe_loop read durable_len window fuel ws win s = Some (Ok (find_genuine img ws), s).
Proof.
  induction fuel as [|fuel IH]; intros ws win Hw Hf; [lia|]. cbn [probe_loop].
  rewrite find_genuine_unfold. destruct (N.ltb_spec ws durable_len) as [Hlt|]; cbn [negb].
  2:{ destruct (N.ltb_spec ws (blen img)); [lia|done]. }
  fold (win_end ws win). unfold flift, mbind, FSt_bind. rewrite read_window by done.
  destruct (window_length ws win Hlt Hw) as (Hl & Hpos & Hle).
  set (m := N.to_nat (win_end ws win - ws)) in *. set (buf := take m (at_ img ws)) in *.
  destruct (probe_buf_spec s ws m (win_end ws win =? durable_len) (S (length buf)) 0) as (x & Hx & Hres).
  { intros He%N.eqb_eq. rewrite at_length. lia. }
  { lia. } { fold buf; lia. }
  fold buf in Hx, Hres. rewrite Hx, <- find_genuine_unfold. rewrite N.add_0_r in Hres.
  destruct x as [a|p]; [by rewrite Hres|]. destruct Hres as (Hp & Hlast & Heq).
  destruct (N.eqb_spec (win_end ws win) durable_len) as [He|He].
  - rewrite Heq, find_genuine_unfold, (Hlast eq_refl).
    destruct (N.ltb_spec (ws + N.of_nat (length buf)) (blen img)); [lia|done].
  - case_bool_decide as Hp0.
    + destruct (double_ok ws win Hlt Hw He) as (-> & Hw2 & Hd). apply IH; [done|].
      pose proof (budget_double ws win Hd). lia.
    + rewrite Heq. apply IH; [apply base_window_ok|].
      pose proof (budget_advance ws p win ltac:(lia) ltac:(lia)). lia.
Qed.

Lemma decide_tail_spec {A} (s : A) bad probe :
  decide_tail read durable_len window bad probe s = Some (Ok (tail_outcome img probe (Some bad)), s).
Proof.
  unfold decide_tail, tail_outcome. destruct probe; [|done]. cbn [negb].
  unfold scan_for_self_consistent, mbind, FSt_bind.
  rewrite probe_loop_spec by (apply base_window_ok || apply budget_start).
  by destruct (find_genuine img (bad + 1)).
Qed.

(** One buffer of the forward scan. *)
Section forward_facts.
Context {A : Type} (probe : bool) (f : LogRecordRef → N → St A unit).

Definition buf_result (abs : N) (buf : bytes) (last : bool) (off : nat) (s : A)
    (r : option (Outcome (ScanOutcome + nat) * A)) : Prop :=
  match r with
  | None => False
  | Some (Ok (inl o), s') => ref_scan img f probe (abs + N.of_nat off) s = (Ok o, s')
  | Some (Ok (inr p), s') => (off ≤ p ≤ length buf)%nat ∧ (last = true → p = length buf)
      ∧ ref_scan img f probe (abs + N.of_nat off) s = ref_scan img f probe (abs + N.of_nat p) s'
  | Some (Err e, s') => ref_scan img f probe (abs + N.of_nat off) s = (Err e, s')
  | Some (Panic m, s') => ref_scan img f probe (abs + N.of_nat off) s = (Panic m, s')
  end.

Lemma scan_buf_spec abs m last fuel : ∀ off s,
  let buf := take m (at_ img abs) in
  (last = true → (length (at_ img abs) ≤ m)%nat) →
  (off ≤ length buf)%nat → (length buf - off < fuel)%nat →
  buf_result abs buf last off s (scan_buf read durable_len window probe f fuel abs buf last off s).
Proof.
  induction fuel as [|fuel IH]; intros off s buf Hlast Hp Hf; [lia|]. cbn [scan_buf].
  case_bool_decide as Hend; [unfold buf_result; cbn; split_and!; [lia|lia|intros; lia|done]|].
  assert (Hlm : (length buf ≤ m)%nat) by (unfold buf; rewrite length_take; lia).
  assert (Hin : (length buf ≤ length (at_ img abs))%nat) by (unfold buf; rewrite length_take; lia).
  rewrite at_length in Hin.
  assert (Hlt : (abs + N.of_nat off <? blen img) = true) by (apply N.ltb_lt; lia).
  assert (Hbad : ∀ e, Ref.decode (at_ img (abs + N.of_nat off)) = DErr e →
    buf_result abs buf last off s
      ((o ← decide_tail read durable_len window (abs + N.of_nat off) probe; mret (inl o)) s)).
  { intros e He. unfold mbind, FSt_bind. rewrite decide_tail_spec. unfold buf_result. cbn.
    rewrite ref_scan_unfold, Hlt, He. done. }
  assert (Hdw : Ref.decode (drop off buf) ≠ DErr Incomplete →
    Ref.decode (at_ img (abs + N.of_nat off)) = Ref.decode (drop off buf)).
  { intros. apply decode_in_window; [lia|done]. }
  destruct (Ref.decode (drop off buf)) as [[r n]|[]|] eqn:Hd.
  - specialize (Hdw ltac:(done)). pose proof (ref_decode_len _ _ _ Hd) as Hn. rewrite length_drop in Hn.
    unfold MIN_RECORD_LEN, REC_FIXED_PREFIX in Hn. unfold mbind, FSt_bind, frun.
    pose proof (ref_scan_unfold img f probe (abs + N.of_nat off) s) as Hu.
    rewrite Hlt, Hdw in Hu. cbn [negb] in Hu.
    destruct (f r (abs + N.of_nat off) s) as [[] s']; [|done|done].
    specialize (IH (off + n)%nat s' Hlast ltac:(fold buf; lia) ltac:(fold buf; lia)). fold buf in IH.
    replace (abs + N.of_nat off + N.of_nat n) with (abs + N.of_nat (off + n)) in Hu by lia.
    unfold buf_result in *. rewrite Hu. destruct (scan_buf _ _ _ _ _ _ _ _ _ _ _) as [[[[]| |] ?]|]; try done.
    destruct IH as (? & ? & ?). split_and!; [lia|lia|done|done].
  - destruct last.
    + apply (Hbad Incomplete). rewrite (decode_in_whole img abs m off) by auto. done.
    + unfold buf_result. cbn. split_and!; [lia|lia|done|done].
  - apply (Hbad Corrupt). by apply Hdw.
  - apply (Hbad BadCrc). by apply Hdw.
  - by apply ref_decode_no_panic in Hd.
Qed.

Lemma scan_loop_spec fuel : ∀ abs win s,
  win_ok win → (budget abs win < fuel)%nat →
  scan_loop read durable_len window probe f fuel abs win s = Some (ref_scan img f probe abs s).
Proof.
  induction fuel as [|fuel IH]; intros abs win s Hw Hf; [lia|]. cbn [scan_loop].
  destruct (N.ltb_spec abs durable_len) as [Hlt|]; cbn [negb].
  2:{ rewrite ref_scan_unfold. destruct (N.ltb_spec abs (blen img)); [lia|done]. }
  fold (win_end abs win). unfold flift, mbind, FSt_bind. rewrite read_window by done.
  destruct (window_length abs win Hlt Hw) as (Hl & Hpos & Hle).
  set (m := N.to_nat (win_end abs win - abs)) in *. set (buf := take m (at_ img abs)) in *.
  pose proof (scan_buf_spec abs m (win_end abs win =? durable_len) (S (length buf)) 0 s) as Hb.
  fold buf in Hb. specialize (Hb ltac:(intros He%N.eqb_eq; rewrite at_length; lia) ltac:(lia) ltac:(lia)).
  unfold buf_result in Hb. rewrite N.add_0_r in Hb.
  destruct (scan_buf _ _ _ _ _ _ _ _ _ _ _) as [[[[o|p]| |] s']|]; [by rewrite Hb| |by rewrite Hb|by rewrite Hb|done].
  destruct Hb as (Hp & Hlast & Hb). rewrite Hb.
  destruct (N.eqb_spec (win_end abs win) durable_len) as [He|He]; cbn [negb].
  - rewrite andb_false_r. apply IH; [apply base_window_ok|]. specialize (Hlast eq_refl).
    pose proof (budget_advance abs p win ltac:(lia) ltac:(lia)). lia.
  - rewrite andb_true_r. case_bool_decide as Hp0.
    + destruct (double_ok abs win Hlt Hw He) as (-> & Hw2 & Hd). subst p. rewrite N.add_0_r.
      apply IH; [done|]. pose proof (budget_double abs win Hd). lia.
    + apply IH; [apply base_window_ok|].
      pose proof (budget_advance abs p win ltac:(lia) ltac:(lia)). lia.
Qed.

(** Scanning window by window is scanning the image. *)
Lemma scan_forward_eq abs s :
  scan_forward read durable_len window probe f abs s = Some (ref_scan img f probe abs s).
Proof. apply scan_loop_spec; [apply base_window_ok|apply budget_start]. Qed.
End forward_facts.

Lemma record_decodes_at_spec {A} (s : A) a fuel : ∀ win,
  a < durable_len → win_ok win → (budget a win < fuel)%nat →
  record_decodes_at read durable_len fuel a win s
    = Some (Ok (match Ref.decode (at_ img a) with DOk _ => true | _ => false end), s).
Proof.
  induction fuel as [|fuel IH]; intros win Hlt Hw Hf; [lia|]. cbn [record_decodes_at].
  fold (win_end a win). unfold flift, mbind, FSt_bind. rewrite read_window by done.
  destruct (window_length a win Hlt Hw) as (Hl & Hpos & Hle).
  set (m := N.to_nat (win_end a win - a)) in *.
  pose proof (decode_in_window img a m 0 ltac:(lia)) as Hd. rewrite N.add_0_r, drop_0 in Hd.
  destruct (Ref.decode (take m (at_ img a))) as [[]|[]|] eqn:Hdec; try (by rewrite Hd).
  - destruct (N.eqb_spec (win_end a win) durable_len) as [He|He].
    + pose proof (decode_in_whole img a m 0 ltac:(rewrite at_length; lia)) as Hwh.
      rewrite N.add_0_r, drop_0, Hdec in Hwh. by rewrite Hwh.
    + destruct (double_ok a win Hlt Hw He) as (-> & Hw2 & Hdb). apply IH; [done|done|].
      pose proof (budget_double a win Hdb). lia.
  - by apply ref_decode_no_panic in Hdec.
Qed.

(** Where a scan may start: at the end of the log, at a byte that no padding holds,
    or at a record. *)
Definition starts_ok (base : N) : Prop :=
  durable_len ≤ base ∨ (∃ b, img !! N.to_nat base = Some b ∧ b ≠ 0)
  ∨ (∃ r n, Ref.decode (at_ img base) = DOk (r, n)).

(** The first four bytes of a record are not all zero. *)
Lemma record_not_zeros bs r n k : Ref.decode bs = DOk (r, n) → (4 ≤ k)%nat → nonzero_position (take k bs) ≠ None.
Proof.
  rewrite ref_decode_eq, decode_tests_eq. unfold decode_tests. case_bool_decide as Hl; [done|].
  destruct (N.ltb_spec (total_of bs) (N.of_nat MIN_RECORD_LEN)) as [|Hm]; [done|]. intros _ Hk.
  unfold nonzero_position. intros Hn. apply fmap_None, list_find_None in Hn.
  destruct bs as [|b0 [|b1 [|b2 [|b3 bs]]]]; try (cbn in Hl; lia).
  destruct k as [|[|[|[|k]]]]; try lia. cbn [take] in Hn.
  apply Forall_cons in Hn as [H0 Hn]. apply Forall_cons in Hn as [H1 Hn].
  apply Forall_cons in Hn as [H2 Hn]. apply Forall_cons in Hn as [H3 _].
  apply dec_stable in H0, H1, H2, H3. subst. change (total_of (0 :: 0 :: 0 :: 0 :: bs)) with 0 in Hm.
  unfold MIN_RECORD_LEN, REC_FIXED_PREFIX in Hm. lia.
Qed.

Lemma find_first_spec {A} (s : A) base : 4 ≤ window → starts_ok base →
  find_first_record_offset read durable_len window base s
    = Some (Ok (if base <? durable_len then Some base else None), s).
Proof.
  intros Hw4 Hs. unfold find_first_record_offset.
  assert (∃ fuel, scan_fuel durable_len = S fuel) as [fuel ->] by (by eexists). cbn [find_first_loop].
  destruct (N.ltb_spec base durable_len) as [Hlt|]; [|done]. cbn [negb].
  fold (win_end base window). unfold flift, mbind at 1, FSt_bind at 1. rewrite read_window by (done || apply base_window_ok).
  destruct (window_length base window Hlt base_window_ok) as (Hl & Hpos & Hle).
  set (m := N.to_nat (win_end base window - base)) in *.
  destruct (nonzero_position (take m (at_ img base))) as [[|pos]|] eqn:Hn.
  - done.
  - unfold mbind, FSt_bind. rewrite record_decodes_at_spec by (done || apply base_window_ok || apply budget_start).
    destruct Hs as [?|[(b & Hb & Hb0)|(r & n & Hd)]]; [lia| |by rewrite Hd].
    exfalso. unfold nonzero_position in Hn. apply fmap_Some in Hn as ([i x] & Hf & Hi). cbn in Hi. subst i.
    apply list_find_Some in Hf as (_ & _ & Hfirst). apply (Hfirst 0%nat b); [|lia|done].
    rewrite lookup_take_lt by lia. unfold at_. rewrite lookup_drop, Nat.add_0_r. done.
  - exfalso. destruct Hs as [?|[(b & Hb & Hb0)|(r & n & Hd)]]; [lia| |].
    + unfold nonzero_position in Hn. apply fmap_None, list_find_None in Hn.
      rewrite Forall_lookup in Hn. apply (Hn 0%nat b); [|done].
      rewrite lookup_take_lt by lia. unfold at_. by rewrite lookup_drop, Nat.add_0_r.
    + pose proof (ref_decode_len _ _ _ Hd) as Hlen. rewrite at_length in Hlen.
      unfold MIN_RECORD_LEN, REC_FIXED_PREFIX in Hlen.
      assert (Hm : (4 ≤ m)%nat) by (unfold m; rewrite win_end_eq by (done || apply base_window_ok); lia).
      by apply (record_not_zeros _ _ _ m Hd Hm).
Qed.
End windowed.

(** ** Logs as lists of records: what the bytes of a log hold, and what scans of them deliver *)

Section layout.
Context `{Crc32c}.
#[local] Set Default Proof Using "All".

(** The records start at offset [a], each at its own LSN. *)
Fixpoint laid_out (a : N) (rs : list LogRecord) : Prop :=
  match rs with
  | [] => True
  | r :: rs => lsn r = a ∧ record_ok r ∧ laid_out (a + N.of_nat (Rec.encoded_len r)) rs
  end.

Definition flat (rs : list LogRecord) : bytes := concat (encode <$> rs).
Definition flat_len (rs : list LogRecord) : N := blen (flat rs).

Lemma flat_cons r rs : flat (r :: rs) = encode r ++ flat rs.
Proof. done. Qed.

Lemma flat_app rs rs' : flat (rs ++ rs') = flat rs ++ flat rs'.
Proof. unfold flat. by rewrite fmap_app, concat_app. Qed.

Lemma flat_len_cons r rs : flat_len (r :: rs) = N.of_nat (Rec.encoded_len r) + flat_len rs.
Proof. unfold flat_len, blen. rewrite flat_cons, length_app, encode_length. lia. Qed.

Lemma flat_len_app rs rs' : flat_len (rs ++ rs') = flat_len rs + flat_len rs'.
Proof. unfold flat_len, blen. rewrite flat_app, length_app. lia. Qed.

Lemma encoded_len_pos r : (MIN_RECORD_LEN ≤ Rec.encoded_len r)%nat.
Proof. unfold Rec.encoded_len, MIN_RECORD_LEN. lia. Qed.

Lemma laid_out_app a rs rs' :
  laid_out a (rs ++ rs') ↔ laid_out a rs ∧ laid_out (a + flat_len rs) rs'.
Proof.
  revert a. induction rs as [|r rs IH]; intros a; cbn [app laid_out].
  - unfold flat_len. cbn. rewrite N.add_0_r. tauto.
  - rewrite IH, flat_len_cons, N.add_assoc. tauto.
Qed.

Lemma laid_out_lsn a rs r : laid_out a rs → r ∈ rs → a ≤ lsn r < a + flat_len rs.
Proof.
  revert a. induction rs as [|x rs IH]; intros a; cbn [laid_out]; [set_solver|].
  intros (Hl & _ & Hrs) [->|Hin]%elem_of_cons; rewrite flat_len_cons; pose proof (encoded_len_pos x).
  - unfold MIN_RECORD_LEN, REC_FIXED_PREFIX in *. lia.
  - specialize (IH _ Hrs Hin). lia.
Qed.

(** LSNs increase along the log, so they identify records. *)
Lemma laid_out_sorted a rs : laid_out a rs → StronglySorted N.lt (lsn <$> rs).
Proof.
  revert a. induction rs as [|r rs IH]; intros a; cbn [laid_out fmap list_fmap]; [constructor|].
  intros (Hl & _ & Hrs). constructor; [by eapply IH|]. apply Forall_forall.
  intros y (x & -> & Hx)%list_elem_of_fmap. pose proof (laid_out_lsn _ _ _ Hrs Hx) as Hb.
  pose proof (encoded_len_pos r). unfold MIN_RECORD_LEN, REC_FIXED_PREFIX in *. lia.
Qed.

Lemma laid_out_inj a rs r r' : laid_out a rs → r ∈ rs → r' ∈ rs → lsn r = lsn r' → r = r'.
Proof.
  revert a. induction rs as [|x rs IH]; intros a; cbn [laid_out]; [set_solver|].
  intros (Hl & _ & Hrs) [->|Hin]%elem_of_cons [->|Hin']%elem_of_cons He; eauto.
  - pose proof (laid_out_lsn _ _ _ Hrs Hin'). pose proof (encoded_len_pos x).
    unfold MIN_RECORD_LEN, REC_FIXED_PREFIX in *. lia.
  - pose proof (laid_out_lsn _ _ _ Hrs Hin). pose proof (encoded_len_pos x).
    unfold MIN_RECORD_LEN, REC_FIXED_PREFIX in *. lia.
Qed.

Lemma laid_out_ok a rs r : laid_out a rs → r ∈ rs → record_ok r.
Proof.
  revert a. induction rs as [|r' rs IH]; intros a; [by intros _ ?%elem_of_nil|].
  intros (_ & Hok & Hrs) [->|Hr]%elem_of_cons; [done|]. by eapply IH.
Qed.

(** The image holds the records [rs] from offset [a] on, then [rest]. *)
Definition holds (img : bytes) (a : N) (rs : list LogRecord) (rest : bytes) : Prop :=
  laid_out a rs ∧ a ≤ blen img ∧ at_ img a = flat rs ++ rest.

Lemma holds_len img a rs rest : holds img a rs rest → blen img = a + flat_len rs + blen rest.
Proof.
  intros (_ & Ha & Hat). apply (f_equal length) in Hat. rewrite at_length, length_app in Hat.
  unfold flat_len, blen in *. lia.
Qed.

Lemma holds_cons img a r rs rest : holds img a (r :: rs) rest →
  Ref.decode (at_ img a) = DOk (of_owned r, Rec.encoded_len r)
  ∧ holds img (a + N.of_nat (Rec.encoded_len r)) rs rest.
Proof.
  intros Hh. pose proof (holds_len _ _ _ _ Hh) as Hlen. destruct Hh as ((Hl & Hok & Hrs) & Ha & Hat).
  rewrite flat_cons, <- app_assoc in Hat. split.
  - by rewrite Hat, ref_decode_eq, decode_encode_app.
  - split_and!; [done| |].
    + rewrite flat_len_cons in Hlen. unfold flat_len, blen in *. lia.
    + rewrite at_add, Hat. rewrite <- encode_length. by rewrite drop_app_length.
Qed.

Definition entry (r : LogRecord) : N * LogRecordRef := (lsn r, of_owned r).

(** The bytes after the last record: none, or bytes that do not decode. *)
Definition rest_ok (rest : bytes) : Prop := rest = [] ∨ ∀ r n, Ref.decode rest ≠ DOk (r, n).

Lemma log_records_holds img a rs rest : holds img a rs rest → rest_ok rest →
  log_records img a = (entry <$> rs, if decide (rest = []) then None else Some (a + flat_len rs)).
Proof.
  revert a. induction rs as [|r rs IH]; intros a Hh Hrest; rewrite log_records_unfold.
  - pose proof (holds_len _ _ _ _ Hh) as Hlen. destruct Hh as (_ & Ha & Hat).
    change (flat_len []) with 0 in *. change (flat [] ++ rest) with rest in Hat. rewrite N.add_0_r in *.
    rewrite Hat. case_decide as Hr.
    + rewrite Hr in Hlen. change (blen []) with 0 in Hlen. destruct (N.ltb_spec a (blen img)); [lia|done].
    + assert (0 < blen rest) by (destruct rest; unfold blen; cbn [length]; [done|lia]).
      destruct (N.ltb_spec a (blen img)); [|lia]. cbn [negb].
      destruct Hrest as [?|Hrest]; [done|]. destruct (Ref.decode rest) as [[r n]| |] eqn:Hd; [|done|done].
      by destruct (Hrest r n).
  - destruct (holds_cons _ _ _ _ _ Hh) as [Hd Hh']. pose proof (holds_len _ _ _ _ Hh) as Hlen.
    rewrite flat_len_cons in Hlen. pose proof (encoded_len_pos r) as Hp. unfold MIN_RECORD_LEN, REC_FIXED_PREFIX in Hp.
    destruct (N.ltb_spec a (blen img)); [|lia]. cbn [negb]. rewrite Hd, (IH _ Hh' Hrest).
    destruct Hh as ((Hl & _) & _). rewrite flat_len_cons, N.add_assoc. unfold entry at 2. rewrite <- Hl. done.
Qed.

(** A record inside the image can be read back at its LSN. *)
Lemma holds_at img a rs rest r : holds img a rs rest → r ∈ rs →
  record_ok r ∧ ∃ more, at_ img (lsn r) = encode r ++ more.
Proof.
  revert a. induction rs as [|x rs IH]; intros a Hh; [set_solver|].
  destruct (holds_cons _ _ _ _ _ Hh) as [_ Hh']. intros [->|Hin]%elem_of_cons; [|by eapply IH].
  destruct Hh as ((Hl & Hok & _) & _ & Hat). split; [done|]. exists (flat rs ++ rest).
  by rewrite Hl, Hat, flat_cons, <- app_assoc.
Qed.

Lemma read_record_at_spec img a rs rest r (read : N → N → Outcome bytes) :
  (∀ from to, read from to = Ok (cut from to img)) → blen img ≤ 2 ^ 62 →
  holds img a rs rest → r ∈ rs → read_record_at read (lsn r) = Ok r.
Proof.
  intros Hread Hlen Hh Hr. destruct (holds_at _ _ _ _ _ Hh Hr) as [Hok (more & Hat)].
  unfold read_record_at. rewrite !Hread. pose proof (encode_length r) as Hel.
  pose proof (encoded_len_pos r) as Hpos. unfold MIN_RECORD_LEN, REC_FIXED_PREFIX in Hpos.
  assert (Hal : (length (encode r ++ more) = N.to_nat (blen img - lsn r))%nat) by (rewrite <- Hat; apply at_length).
  rewrite length_app, Hel in Hal. change (2 ^ 62) with 4611686018427387904 in Hlen.
  assert (Hcut : ∀ k : N, k ≤ N.of_nat (Rec.encoded_len r) →
    cut (lsn r) (saturating_add_u64 (lsn r) k) img = take (N.to_nat k) (encode r)).
  { intros k Hk. unfold cut. fold (at_ img (lsn r)). rewrite Hat.
    unfold saturating_add_u64, u64_max. change (2 ^ 64 - 1) with 18446744073709551615.
    rewrite take_app_le by (rewrite Hel; lia). f_equal. lia. }
  rewrite (Hcut 4) by lia.
  rewrite bool_decide_eq_false_2 by (rewrite length_take, Hel; cbn; lia).
  rewrite take_take. change (Nat.min 4 (N.to_nat 4)) with 4%nat.
  pose proof (piece_total r []) as Ht. rewrite drop_0, app_nil_r in Ht. rewrite Ht.
  rewrite from_to_le_bytes by (apply u32_le, Hok). rewrite (Hcut (N.of_nat (Rec.encoded_len r))) by lia.
  rewrite Nat2N.id, take_ge by (rewrite Hel; lia).
  by rewrite <- (app_nil_r (encode r)), decode_encode_app.
Qed.
End layout.
