(* ===== verification/Wal.v ===== *)
(** * graphus-wal: the log manager

    [src/crates/graphus-wal/src/manager.rs] over any sink: LSN allocation, the
    per-transaction undo chain, group commit, rollback with compensation records, fuzzy
    checkpoints and reclamation. The trait [ApplyTarget] of [recovery.rs] is a class.
    [debug_assert]s and the debug-only latch checks of [harden] are not part of the
    release behaviour; the text of error messages is abbreviated. The lemmas at the end say
    what bytes the manager's writes leave. *)
From S2P Require Import Prelude Core Bytes WalRecord Checkpoint WalSink WalScan WalScanFacts.
From stdpp Require Import options.

Definition WAL_MAGIC : N := 1196900684.
Definition WAL_VERSION : N := 1.

Record UndoEntry := mkUndo { ue_lsn : Lsn; ue_page : PageId; ue_undo : bytes; ue_prev : Lsn }.

Record TxnState := mkTxn { first_lsn : Lsn; last_lsn : Lsn; undo_chain : list UndoEntry }.

Record WalManager (S : Type) := mkWal { sink : S; active : gmap TxnId TxnState }.
Arguments mkWal {S} _ _.
Arguments sink {S} _.
Arguments active {S} _.

(** What a redo or undo image means for a page. *)
Class ApplyTarget (T : Type) := {
  page_lsn : PageId → T → Lsn;
  apply_image : PageId → Lsn → bytes → St T unit;
}.

(** [BTreeMap] iteration: by ascending key. *)
Definition key_le {V} (p q : N * V) : Prop := p.1 ≤ q.1.
#[global] Instance key_le_dec {V} (p q : N * V) : Decision (key_le p q).
Proof. unfold key_le. apply _. Defined.
Definition by_key {V} (m : gmap N V) : list (N * V) := merge_sort key_le (map_to_list m).

Module Wal.
Section wal.
Context `{Crc32c} {S : Type} `{LogSink S}.
Abbreviation M := (WalManager S).

Definition set_sink (s : S) (w : M) : M := mkWal s (active w).
Definition set_active (a : gmap TxnId TxnState) (w : M) : M := mkWal (sink w) a.

(** [harden]: a failed sync aborts the process. *)
Definition harden : St M unit := λ w,
  match sk_sync (sink w) with
  | (Ok _, s) => (Ok tt, set_sink s w)
  | (Err _, s) => (Panic "WAL fdatasync failed; aborting to avoid silent data loss (fsyncgate)", set_sink s w)
  | (Panic m, s) => (Panic m, set_sink s w)
  end.

Definition header : bytes := to_le_bytes 4 WAL_MAGIC ++ to_le_bytes 4 WAL_VERSION.

Definition create (s : S) : Outcome M :=
  if negb (sk_buffered_len s =? 0) then Err (Storage "WalManager::create requires an empty sink")
  else match harden (mkWal (sk_append header s) ∅) with
       | (Ok _, w) => Ok w
       | (Err e, _) => Err e
       | (Panic m, _) => Panic m
       end.

Definition open (s : S) : Outcome M :=
  if sk_durable_len s <? HEADER_LEN then Err (Storage "WAL too short to contain a header") else
  match sk_read_bounded 0 HEADER_LEN s with
  | Ok hdr =>
      match slice hdr 0 4, slice hdr 4 4 with
      | Some m, Some v =>
          if negb (from_le_bytes m =? WAL_MAGIC) then Err (Storage "not a Graphus WAL (bad magic)")
          else if negb (from_le_bytes v =? WAL_VERSION) then Err (Storage "unsupported WAL version")
          else Ok (mkWal s ∅)
      | _, _ => Panic "4-byte slice"
      end
  | Err e => Err e
  | Panic m => Panic m
  end.

Definition next_lsn (w : M) : Lsn := sk_buffered_len (sink w).
Definition durable_len (w : M) : N := sk_durable_len (sink w).
Definition read_durable (from : Lsn) (w : M) : Outcome bytes := sk_read_durable from (sink w).
Definition read_bounded (from to : Lsn) (w : M) : Outcome bytes := sk_read_bounded from to (sink w).
Definition set_segment_target (t : N) (w : M) : M := set_sink (sk_set_segment_target t (sink w)) w.

(** [append] stamps the record with the next LSN. *)
Definition append (r : LogRecord) : St M Lsn := λ w,
  let l := next_lsn w in
  (Ok l, set_sink (sk_append (Rec.encode_to l r []).2 (sink w)) w).

Definition with_prev (prev : Lsn) (r : LogRecord) : LogRecord :=
  mkRecord (lsn r) prev (txn_id r) (rec_type r) (page_id r) (undo_next_lsn r) (redo r) (undo r).

Definition begin_ (txn : TxnId) : St M Lsn := λ w,
  match append (Rec.new Begin txn 0) w with
  | (Ok l, w) => (Ok l, set_active (<[txn := mkTxn l l []]> (active w)) w)
  | r => r
  end.

Definition prev_of (txn : TxnId) (w : M) : Lsn :=
  match active w !! txn with Some s => last_lsn s | None => 0 end.

(** [entry(txn).or_insert(..)], then [last_lsn := l] and the optional push. *)
Definition touch (txn : TxnId) (l : Lsn) (e : option UndoEntry) (w : M) : M :=
  let st := match active w !! txn with Some s => s | None => mkTxn l l [] end in
  let chain := match e with Some e => undo_chain st ++ [e] | None => undo_chain st end in
  set_active (<[txn := mkTxn (first_lsn st) l chain]> (active w)) w.

Definition log_update_borrowed (txn : TxnId) (page : PageId) (rd un : bytes) : St M Lsn := λ w,
  let prev := prev_of txn w in
  let r := with_prev prev (Rec.new Update txn page) in
  let l := next_lsn w in
  let w := set_sink (sk_append (Rec.encode_header_to l rd un r []).2 (sink w)) w in
  let e := if sk_retains_undo (sink w) then Some (mkUndo l page un prev) else None in
  (Ok l, touch txn l e w).

Definition log_update (txn : TxnId) (page : PageId) (rd un : bytes) : St M Lsn :=
  log_update_borrowed txn page rd un.

Definition log_update_redo_only (txn : TxnId) (page : PageId) (rd : bytes) : St M Lsn := λ w,
  let prev := prev_of txn w in
  let r := with_prev prev (Rec.new Update txn page) in
  let l := next_lsn w in
  let w := set_sink (sk_append (Rec.encode_header_to l rd [] r []).2 (sink w)) w in
  (Ok l, touch txn l None w).

Definition commit_prev_lsn (txn : TxnId) (w : M) : Outcome Lsn :=
  match active w !! txn with
  | Some s => Ok (last_lsn s)
  | None => Err (Transaction "commit of inactive txn")
  end.

Definition append_commit_record (txn : TxnId) (r : LogRecord) : St M Lsn :=
  l ← append r;
  _ ← modify (λ w, set_active (delete txn (active w)) w);
  mret l.

Definition finish_commit (txn : TxnId) (r : LogRecord) : St M Lsn :=
  l ← append_commit_record txn r; _ ← harden; mret l.

Definition commit (txn : TxnId) : St M Lsn :=
  w ← get; prev ← lift (commit_prev_lsn txn w);
  finish_commit txn (with_prev prev (Rec.new Commit txn 0)).

Definition commit_at (txn : TxnId) (ts : Timestamp) : St M Lsn :=
  w ← get; prev ← lift (commit_prev_lsn txn w);
  finish_commit txn (Rec.commit txn prev ts).

Definition commit_at_no_sync (txn : TxnId) (ts : Timestamp) : St M Lsn :=
  w ← get; prev ← lift (commit_prev_lsn txn w);
  append_commit_record txn (Rec.commit txn prev ts).

Definition write_clr (txn : TxnId) (page : PageId) (compensated : Lsn) (img : bytes) (next : Lsn) : St M Lsn :=
  append (mkRecord 0 compensated txn Clr page next img []).

Definition write_end (txn : TxnId) : St M Lsn := append (Rec.new Abort txn 0).

Definition next_undo_page (txn : TxnId) (w : M) : option PageId :=
  st ← active w !! txn; ue_page <$> last (undo_chain st).

Definition undo_chain_len (txn : TxnId) (w : M) : nat :=
  match active w !! txn with Some st => length (undo_chain st) | None => 0 end.

(** [Vec::pop]. *)
Definition pop {A} (l : list A) : option (A * list A) :=
  match last l with Some x => Some (x, take (length l - 1) l) | None => None end.

Definition compensate_next (txn : TxnId) : St M (option (PageId * Lsn * bytes)) := λ w,
  match active w !! txn with
  | None => (Ok None, w)
  | Some st =>
      match pop (undo_chain st) with
      | None => (Ok None, w)
      | Some (e, rest) =>
          let w := set_active (<[txn := mkTxn (first_lsn st) (last_lsn st) rest]> (active w)) w in
          (l ← write_clr txn (ue_page e) (ue_lsn e) (ue_undo e) (ue_prev e);
           mret (Some (ue_page e, l, ue_undo e))) w
      end
  end.

Definition finish_rollback (txn : TxnId) : St M unit := λ w,
  match active w !! txn with
  | None => (Ok tt, w)
  | Some _ =>
      (_ ← append (Rec.new Abort txn 0); harden) (set_active (delete txn (active w)) w)
  end.

Definition abort (txn : TxnId) : St M unit := λ w,
  match active w !! txn with
  | None => (Ok tt, w)
  | Some _ =>
      (_ ← append (Rec.new Abort txn 0); harden) (set_active (delete txn (active w)) w)
  end.

Definition checkpoint (dirty_page_table : list (PageId * Lsn)) : St M Lsn :=
  _ ← append (Rec.new CheckpointBegin 0 0);
  w ← get;
  let snapshot := mkSnapshot dirty_page_table ((λ p, (p.1, last_lsn p.2)) <$> by_key (active w)) in
  let r := Rec.new CheckpointEnd 0 0 in
  l ← append (mkRecord (lsn r) (prev_lsn r) (txn_id r) (rec_type r) (page_id r) (undo_next_lsn r)
                (Ckpt.encode snapshot) (undo r));
  _ ← harden;
  mret l.

Definition oldest_active_first_lsn (w : M) : option Lsn :=
  list_min ((λ p, first_lsn p.2) <$> by_key (active w)).

Definition reclaim (up_to : Lsn) : St M unit := λ w,
  let floor :=
    match list_min ((λ p, first_lsn p.2) <$> by_key (active w)) with
    | None => up_to
    | Some oldest => N.min up_to oldest
    end in
  let '(r, s) := sk_reclaim HEADER_LEN floor (sink w) in (r, set_sink s w).

Definition is_active (txn : TxnId) (w : M) : bool := bool_decide (is_Some (active w !! txn)).

Definition retained_undo_bytes (w : M) : nat :=
  sum_list ((λ p, sum_list ((λ e, length (ue_undo e)) <$> undo_chain p.2)) <$> by_key (active w)).

Definition ensure_durable (up_to : Lsn) : St M unit := λ w,
  if sk_durable_len (sink w) <=? up_to then harden w else (Ok tt, w).

Definition flush : St M unit := harden.

Definition begin_harden : St M FsyncJob := λ w,
  let '(r, s) := sk_begin_harden (sink w) in (r, set_sink s w).

Definition complete_harden (t : N) (w : M) : M := set_sink (sk_complete_harden t (sink w)) w.

(** The scans of a reopened log. *)
Definition committed_transactions (w : M) : option (Outcome (list (TxnId * Timestamp * Lsn))) :=
  let base := N.max HEADER_LEN (sk_reclaimed_floor (sink w)) in
  let dl := sk_durable_len (sink w) in
  let read f t := sk_read_bounded f t (sink w) in
  let window := RECOVERY_WINDOW_BYTES in
  match find_first_record_offset read dl window base ([] : list (TxnId * Timestamp * Lsn)) with
  | None => None
  | Some (Ok None, out) => Some (Ok out)
  | Some (Ok (Some start), out) =>
      match scan_forward read dl window true
        (λ r _ out,
          (Ok tt, if decide (ref_rec_type r = Commit) then
             match Ref.commit_ts r with
             | Some ts => out ++ [(ref_txn_id r, ts, ref_lsn r)]
             | None => out
             end
           else out)) start out with
      | None => None
      | Some (Ok (InteriorCorruption _ _), _) => Some (Err (Storage "WAL interior log corruption"))
      | Some (Ok _, out) => Some (Ok out)
      | Some (Err e, _) => Some (Err e)
      | Some (Panic m, _) => Some (Panic m)
      end
  | Some (Err e, _) => Some (Err e)
  | Some (Panic m, _) => Some (Panic m)
  end.

Definition max_recovered_txn_id (w : M) : option (Outcome N) :=
  let base := N.max HEADER_LEN (sk_reclaimed_floor (sink w)) in
  let dl := sk_durable_len (sink w) in
  let read f t := sk_read_bounded f t (sink w) in
  let window := RECOVERY_WINDOW_BYTES in
  match find_first_record_offset read dl window base 0 with
  | None => None
  | Some (Ok None, out) => Some (Ok out)
  | Some (Ok (Some start), out) =>
      match scan_forward read dl window false
        (λ r _ m,
          (Ok tt, let id := ref_txn_id r in
             if negb (id =? 0) && negb (id =? u64_max) then N.max m id else m)) start out with
      | None => None
      | Some (Ok _, out) => Some (Ok out)
      | Some (Err e, _) => Some (Err e)
      | Some (Panic m, _) => Some (Panic m)
      end
  | Some (Err e, _) => Some (Err e)
  | Some (Panic m, _) => Some (Panic m)
  end.

(** [rollback]: each compensation is applied to the target, then the [Abort]. *)
Section rollback.
Context {T : Type} `{ApplyTarget T}.

Fixpoint rollback_loop (fuel : nat) (txn : TxnId) : FSt (M * T) unit := λ '(w, t),
  match fuel with
  | O => None
  | Datatypes.S fuel =>
      match compensate_next txn w with
      | (Ok None, w) => Some (Ok tt, (w, t))
      | (Ok (Some (page, l, img)), w) =>
          match apply_image page l img t with
          | (Ok _, t) => rollback_loop fuel txn (w, t)
          | (Err e, t) => Some (Err e, (w, t))
          | (Panic m, t) => Some (Panic m, (w, t))
          end
      | (Err e, w) => Some (Err e, (w, t))
      | (Panic m, w) => Some (Panic m, (w, t))
      end
  end.

Definition rollback (txn : TxnId) : FSt (M * T) unit := λ '(w, t),
  match rollback_loop (Datatypes.S (undo_chain_len txn w)) txn (w, t) with
  | Some (Ok _, (w, t)) => let '(r, w) := finish_rollback txn w in Some (r, (w, t))
  | r => r
  end.
End rollback.

End wal.
End Wal.

(** ** What the manager's writes leave: the bytes after appending records and after hardening them *)

Section writes.
Context `{Crc32c} {S : Type} `{!LogSink S} `{!LogSinkSpec S} `{!ReliableSink S}.
#[local] Set Default Proof Using "All".

(** The manager after appending the records [new]. *)
Record wrote (w : WalManager S) (new : list LogRecord) (w' : WalManager S) : Prop := {
  wr_ok : sink_ok (sink w');
  wr_good : faultless (sink w');
  wr_image : image (sink w') = image (sink w);
  wr_floor : sk_reclaimed_floor (sink w') = sk_reclaimed_floor (sink w);
  wr_active : active w' = active w;
  wr_bytes : unsynced (sink w') = unsynced (sink w) ++ flat new;
}.

Lemma wrote_refl w : sink_ok (sink w) → faultless (sink w) → wrote w [] w.
Proof. intros. split; try done. by rewrite app_nil_r. Qed.

Lemma wrote_trans w a w' b w'' : wrote w a w' → wrote w' b w'' → wrote w (a ++ b) w''.
Proof.
  intros [Ho Hg Hi Hf Ha Hb] [Ho' Hg' Hi' Hf' Ha' Hb']. split; try done; try congruence.
  rewrite Hb', Hb, flat_app. by rewrite app_assoc.
Qed.

Lemma wrote_next w a w' : sink_ok (sink w) → wrote w a w' →
  Wal.next_lsn w' = Wal.next_lsn w + flat_len a.
Proof.
  intros Hs [Ho Hg Hi Hf Ha Hb]. unfold Wal.next_lsn. rewrite !buffered_len_image by done.
  rewrite Hi, Hb. unfold flat_len, blen. rewrite length_app. lia.
Qed.

(** Every append of the manager. *)
Lemma append_wrote w r : sink_ok (sink w) → faultless (sink w) →
  let l := Wal.next_lsn w in
  let r' := mkRecord l (prev_lsn r) (txn_id r) (rec_type r) (page_id r) (undo_next_lsn r) (redo r) (undo r) in
  ∃ w', Wal.append r w = (Ok l, w') ∧ wrote w [r'] w'.
Proof.
  intros Hs Hg l r'. eexists. split; [done|].
  destruct (append_spec (encode r') (sink w) Hs) as (Ho & Hi & Hu & _).
  split; try done.
  - by apply faultless_append.
  - by apply floor_append.
  - cbn [sink Wal.set_sink]. unfold flat. cbn [fmap list_fmap concat]. rewrite app_nil_r. exact Hu.
Qed.

(** A sync makes everything written durable. *)
Lemma harden_wrote w : sink_ok (sink w) → faultless (sink w) →
  ∃ w', Wal.harden w = (Ok tt, w') ∧ sink_ok (sink w') ∧ faultless (sink w')
    ∧ image (sink w') = image (sink w) ++ unsynced (sink w) ∧ unsynced (sink w') = []
    ∧ sk_reclaimed_floor (sink w') = sk_reclaimed_floor (sink w) ∧ active w' = active w.
Proof.
  intros Hs Hg. destruct (faultless_sync (sink w) Hs Hg) as (s' & Hy & Hg').
  destruct (sync_spec _ _ Hs Hy) as (Hs' & Hi & Hu & _). exists (Wal.set_sink s' w).
  split; [unfold Wal.harden; by rewrite Hy|]. cbn [sink active Wal.set_sink].
  split_and!; try done. by eapply floor_sync.
Qed.
End writes.
