(* ===== verification/WalRecovery.v ===== *)
(** * graphus-wal: three-phase recovery

    [recover_from_windowed] of [src/crates/graphus-wal/src/recovery.rs]: analysis, redo
    and undo over the streaming scans of [WalScan]. The order in which a [HashMap]
    yields its keys is a parameter. The undo loop carries fuel: it pops LSNs of
    records below the durable length in descending order, so one more than that length
    is enough on a log whose back-chains descend. *)

From stdpp Require Import options.
From S2P Require Import Prelude Core Bytes WalRecord Checkpoint WalSink WalScan Wal.

Record RecoveryReport := mkReport {
  rep_records_scanned : nat;
  rep_redo_start : Lsn;
  rep_redo_applied : nat;
  rep_losers : nat;
  rep_clrs_written : nat;
  rep_tail_truncated : bool;
}.

(** The iteration order of a [HashMap<u64, Lsn>]'s keys. *)
Class HashOrder := {
  hash_keys : gmap N Lsn → list N;
  hash_keys_perm : ∀ m, hash_keys m ≡ₚ elements (dom m);
}.

(** ** Phase 1 *)
Record Analysis := mkAnalysis {
  committed : gset N;
  ended : gset N;
  txn_last : gmap N Lsn;
  last_checkpoint : option CheckpointSnapshot;
  last_checkpoint_lsn : option Lsn;
  records_scanned : nat;
}.

Definition analysis_init : Analysis := mkAnalysis ∅ ∅ ∅ None None 0.

Definition analyse (r : LogRecordRef) (_ : N) : St Analysis unit := λ a,
  let x := ref_txn_id r in
  let a := mkAnalysis (committed a) (ended a) (txn_last a) (last_checkpoint a) (last_checkpoint_lsn a)
             (S (records_scanned a)) in
  let a :=
    match ref_rec_type r with
    | Commit => mkAnalysis ({[x]} ∪ committed a) (ended a) (txn_last a) (last_checkpoint a)
                  (last_checkpoint_lsn a) (records_scanned a)
    | Abort => mkAnalysis (committed a) ({[x]} ∪ ended a) (txn_last a) (last_checkpoint a)
                 (last_checkpoint_lsn a) (records_scanned a)
    | CheckpointEnd =>
        match Ckpt.decode (ref_redo r) with
        | Some s => mkAnalysis (committed a) (ended a) (txn_last a) (Some s) (Some (ref_lsn r)) (records_scanned a)
        | None => a
        end
    | _ => a
    end in
  (Ok tt,
   if negb (x =? 0)
   then mkAnalysis (committed a) (ended a) (<[x := ref_lsn r]> (txn_last a)) (last_checkpoint a)
          (last_checkpoint_lsn a) (records_scanned a)
   else a).

Definition redo_start_of (a : Analysis) : Lsn :=
  match last_checkpoint a ≫= Ckpt.redo_start with
  | Some l => l
  | None => match last_checkpoint_lsn a with Some l => l | None => HEADER_LEN end
  end.

Definition is_loser (a : Analysis) (t : N) : bool :=
  negb (bool_decide (t ∈ committed a)) && negb (bool_decide (t ∈ ended a)).

(** ** The undo heap: a [BinaryHeap<u64>] by its contents *)
Definition heap_push (l : N) (h : list N) : list N := l :: h.
Fixpoint heap_max (h : list N) : option N :=
  match h with
  | [] => None
  | x :: h => Some (match heap_max h with Some y => N.max x y | None => x end)
  end.
Fixpoint remove_one (x : N) (h : list N) : list N :=
  match h with
  | [] => []
  | y :: h => if x =? y then h else y :: remove_one x h
  end.
Definition heap_pop (h : list N) : option (N * list N) :=
  match heap_max h with Some x => Some (x, remove_one x h) | None => None end.

Definition push_nonzero (l : N) (h : list N) : list N := if negb (l =? 0) then heap_push l h else h.

Section recover.
Context `{Crc32c} {S : Type} `{LogSink S} {T : Type} `{ApplyTarget T} `{HashOrder}.
Abbreviation M := (WalManager S).

(** ** Phase 2 *)
Definition redo_one (redo_start : Lsn) (r : LogRecordRef) (_ : N) : St (T * nat) unit := λ '(t, n),
  if (redo_start <=? ref_lsn r) && is_page_change (ref_rec_type r)
     && negb (bool_decide (ref_redo r = [])) && (page_lsn (ref_page_id r) t <? ref_lsn r)
  then let '(o, t) := apply_image (ref_page_id r) (ref_lsn r) (ref_redo r) t in
       match o with
       | Ok _ => (Ok tt, (t, Datatypes.S n))
       | Err e => (Err e, (t, n))
       | Panic m => (Panic m, (t, n))
       end
  else (Ok tt, (t, n)).

(** ** Phase 3: one popped LSN *)
Definition undo_one (undo_floor : N) (h : list N) (lsn_u : N) : St (M * T * nat) (list N) := λ '(w, t, n),
  if lsn_u <? undo_floor then (Ok h, (w, t, n)) else
  match read_record_at (λ f u, sk_read_bounded f u (sink w)) lsn_u with
  | Err e => (Err e, (w, t, n))
  | Panic m => (Panic m, (w, t, n))
  | Ok r =>
      match rec_type r with
      | Clr => (Ok (push_nonzero (undo_next_lsn r) h), (w, t, n))
      | ty =>
          if is_undoable_action ty then
            match Wal.write_clr (txn_id r) (page_id r) (lsn r) (undo r) (prev_lsn r) w with
            | (Ok clr_lsn, w) =>
                let '(o, t) :=
                  if negb (bool_decide (undo r = [])) then apply_image (page_id r) clr_lsn (undo r) t
                  else (Ok tt, t) in
                match o with
                | Ok _ => (Ok (push_nonzero (prev_lsn r) h), (w, t, Datatypes.S n))
                | Err e => (Err e, (w, t, n))
                | Panic m => (Panic m, (w, t, n))
                end
            | (Err e, w) => (Err e, (w, t, n))
            | (Panic m, w) => (Panic m, (w, t, n))
            end
          else (Ok (push_nonzero (prev_lsn r) h), (w, t, n))
      end
  end.

Fixpoint undo_loop (fuel : nat) (undo_floor : N) (h : list N) : FSt (M * T * nat) unit :=
  match fuel with
  | O => out_of_fuel
  | Datatypes.S fuel =>
      match heap_pop h with
      | None => mret tt
      | Some (l, h) => h ← frun (undo_one undo_floor h l); undo_loop fuel undo_floor h
      end
  end.

Fixpoint write_ends (losers : list N) : St M unit :=
  match losers with
  | [] => mret tt
  | t :: losers => _ ← Wal.write_end t; write_ends losers
  end.

(** ** The three phases *)
Definition interior_error : GraphusError := Storage "WAL interior log corruption".

Definition recover_from_windowed (scan_start : Lsn) (window : N) : FSt (M * T) RecoveryReport := λ '(w, t),
  let base := N.max (N.max scan_start HEADER_LEN) (sk_reclaimed_floor (sink w)) in
  let dl := Wal.durable_len w in
  let read f u := sk_read_bounded f u (sink w) in
  match find_first_record_offset read dl window base analysis_init with
  | None => None
  | Some (Err e, _) => Some (Err e, (w, t))
  | Some (Panic m, _) => Some (Panic m, (w, t))
  | Some (Ok first, a) =>
      let scanned :=
        match first with
        | None => Some (Ok Complete, a)
        | Some start => scan_forward read dl window true analyse start a
        end in
      match scanned with
      | None => None
      | Some (Err e, _) => Some (Err e, (w, t))
      | Some (Panic m, _) => Some (Panic m, (w, t))
      | Some (Ok (InteriorCorruption _ _), _) => Some (Err interior_error, (w, t))
      | Some (Ok outcome, a) =>
          let tail_truncated := match outcome with TornTail => true | _ => false end in
          let redo_start := redo_start_of a in
          let redone :=
            match first with
            | None => Some (Ok Complete, (t, O))
            | Some start => scan_forward read dl window false (redo_one redo_start) start (t, O)
            end in
          match redone with
          | None => None
          | Some (Err e, (t, _)) => Some (Err e, (w, t))
          | Some (Panic m, (t, _)) => Some (Panic m, (w, t))
          | Some (Ok _, (t, redo_applied)) =>
              let losers := filter (λ x, is_loser a x) (hash_keys (txn_last a)) in
              let heap := foldl (λ h x, match txn_last a !! x with
                                        | Some l => push_nonzero l h
                                        | None => h
                                        end) [] losers in
              let undo_floor := match first with Some s => s | None => base end in
              match undo_loop (Datatypes.S (N.to_nat dl)) undo_floor heap (w, t, O) with
              | None => None
              | Some (Err e, (w, t, _)) => Some (Err e, (w, t))
              | Some (Panic m, (w, t, _)) => Some (Panic m, (w, t))
              | Some (Ok _, (w, t, clrs)) =>
                  match (_ ← write_ends losers; Wal.flush) w with
                  | (Ok _, w) =>
                      Some (Ok (mkReport (records_scanned a) redo_start redo_applied (length losers)
                                  clrs tail_truncated), (w, t))
                  | (Err e, w) => Some (Err e, (w, t))
                  | (Panic m, w) => Some (Panic m, (w, t))
                  end
              end
          end
      end
  end.

Definition recover_from (scan_start : Lsn) : FSt (M * T) RecoveryReport :=
  recover_from_windowed scan_start RECOVERY_WINDOW_BYTES.
Definition recover : FSt (M * T) RecoveryReport := recover_from HEADER_LEN.
End recover.
