(* ===== verification/WalUndo.v ===== *)
(** * The undo phase of recovery

    [undo_loop] pops LSNs off a heap until it is empty. On a log whose losers'
    back-chains are [linked] it visits exactly the records of these chains, each chain
    in its order and all of them by descending LSN, writes one compensation record per
    undoable record visited and applies its undo image. *)

From stdpp Require Import options.
From S2P Require Import Prelude Core Bytes WalRecord WalSink WalScan WalScanFacts Wal WalRecovery.

(** ** Heaps *)

Lemma heap_max_spec h x : heap_max h = Some x → x ∈ h ∧ ∀ y, y ∈ h → y ≤ x.
Proof.
  revert x. induction h as [|a h IH]; intros x Hx; [done|]. cbn [heap_max] in Hx.
  destruct (heap_max h) as [b|] eqn:Hb; simplify_eq.
  - destruct (IH b eq_refl) as [Hin Hle]. split.
    + destruct (N.max_spec a b) as [[_ ->]|[_ ->]]; set_solver.
    + intros y [->|Hy]%elem_of_cons; [lia|]. specialize (Hle y Hy). lia.
  - destruct h; [|done]. split; [set_solver|]. intros y Hy. apply list_elem_of_singleton in Hy as ->. lia.
Qed.

Lemma heap_max_None h : heap_max h = None ↔ h = [].
Proof. by destruct h. Qed.

Lemma remove_one_perm x h : x ∈ h → h ≡ₚ x :: remove_one x h.
Proof.
  induction h as [|y h IH]; [set_solver|]. intros Hx. cbn [remove_one].
  destruct (N.eqb_spec x y) as [->|Hne]; [done|].
  rewrite (IH ltac:(set_solver)) at 1. apply Permutation_swap.
Qed.

Lemma heap_pop_Some h x h' : heap_pop h = Some (x, h') → h ≡ₚ x :: h' ∧ ∀ y, y ∈ h → y ≤ x.
Proof.
  unfold heap_pop. destruct (heap_max h) as [m|] eqn:Hm; [|done]. intros [= <- <-].
  apply heap_max_spec in Hm as [Hin Hle]. split; [by apply remove_one_perm|done].
Qed.

Lemma heap_pop_None h : heap_pop h = None ↔ h = [].
Proof.
  unfold heap_pop. destruct (heap_max h) eqn:Hm.
  - split; [done|]. intros ->. done.
  - apply heap_max_None in Hm. done.
Qed.

(** ** Back-chains *)

(** The LSN recovery continues at after visiting a record. *)
Definition next_of (r : LogRecord) : Lsn :=
  match rec_type r with Clr => undo_next_lsn r | _ => prev_lsn r end.

Definition head_lsn (v : list LogRecord) : Lsn := match v with [] => 0 | r :: _ => lsn r end.

Fixpoint linked (rs : list LogRecord) (v : list LogRecord) : Prop :=
  match v with
  | [] => True
  | r :: v => r ∈ rs ∧ next_of r = head_lsn v ∧ head_lsn v < lsn r ∧ linked rs v
  end.

(** The chains still to undo, by transaction, and the heap that represents them. *)
Definition Chains : Type := list (N * list LogRecord).
Definition heads (tds : Chains) : list N :=
  omap (λ p, match p.2 with [] => None | r :: _ => Some (lsn r) end) tds.
Definition total (tds : Chains) : nat := sum_list ((λ p, length p.2) <$> tds).

Definition undo_img (p : PageId) (r : LogRecord) : option bytes :=
  if is_undoable_action (rec_type r) && (page_id r =? p) && negb (bool_decide (undo r = []))
  then Some (undo r) else None.

(** The compensation record of an undoable record. *)
Definition clr_at (l : Lsn) (r : LogRecord) : LogRecord :=
  mkRecord l (lsn r) (txn_id r) Clr (page_id r) (prev_lsn r) (undo r) [].

(** The compensation records of the visited records, from offset [a] on. *)
Fixpoint clrs_from (a : N) (es : list LogRecord) : list LogRecord :=
  match es with
  | [] => []
  | r :: es =>
      if is_undoable_action (rec_type r) then
        let c := clr_at a r in c :: clrs_from (a + N.of_nat (Rec.encoded_len c)) es
      else clrs_from a es
  end.

(** ** Targets whose pages are rewritten by images

    Of a target in good order, an image meant for a page rewrites the content of that
    page and stamps it, and leaves the other pages alone. *)
Class PagesSpec (T : Type) `{ApplyTarget T} := {
  Content : Type;
  content : PageId → T → Content;
  patch : Content → bytes → Content;
  target_ok : T → Prop;
  image_ok : PageId → bytes → Prop;
  apply_image_spec p l img t : target_ok t → image_ok p img → ∃ t', apply_image p l img t = (Ok tt, t')
    ∧ target_ok t' ∧ (l ≤ u64_max → page_lsn p t' = l) ∧ content p t' = patch (content p t) img
    ∧ ∀ q, q ≠ p → page_lsn q t' = page_lsn q t ∧ content q t' = content q t;
}.

Lemma heads_cons x v tds :
  heads ((x, v) :: tds) = match v with [] => heads tds | r :: _ => lsn r :: heads tds end.
Proof. unfold heads. cbn. by destruct v. Qed.

Lemma heads_perm tds tds' : tds ≡ₚ tds' → heads tds ≡ₚ heads tds'.
Proof. intros Hp. unfold heads. by rewrite Hp. Qed.

Lemma total_perm tds tds' : tds ≡ₚ tds' → total tds = total tds'.
Proof. intros Hp. unfold total. by rewrite Hp. Qed.

Lemma elem_of_heads l tds : l ∈ heads tds → ∃ x r v, (x, r :: v) ∈ tds ∧ lsn r = l.
Proof.
  unfold heads. intros ([x v] & Hin & Hv)%list_elem_of_omap. cbn in Hv.
  destruct v as [|r v]; simplify_eq. eauto.
Qed.

Lemma total_nil tds : heads tds = [] → total tds = 0%nat.
Proof.
  induction tds as [|[x v] tds IH]; [done|]. rewrite heads_cons. destruct v; [|done]. intros Hh.
  unfold total in *. csimpl. by rewrite IH.
Qed.

Section undo.
Context `{Crc32c} {S : Type} `{!LogSink S} `{!LogSinkSpec S} `{!ReliableSink S} {T : Type} `{!ApplyTarget T} `{!PagesSpec T}.
Context (img : bytes) (base : N) (rs : list LogRecord) (rest : bytes).
Context (Hholds : holds img base rs rest) (Hlen : blen img ≤ 2 ^ 62) (Hbase : HEADER_LEN ≤ base).
Context (Himages : ∀ p r i, r ∈ rs → undo_img p r = Some i → image_ok p i).
#[local] Set Default Proof Using "All".

Lemma read_back w r : sink_ok (sink w) → faultless (sink w) → image (sink w) = img → r ∈ rs →
  read_record_at (λ f u, sk_read_bounded f u (sink w)) (lsn r) = Ok r.
Proof.
  intros Hs Hg Hi Hr. eapply read_record_at_spec; [|exact Hlen|exact Hholds|done].
  intros from to. by rewrite faultless_read_eq, Hi by done.
Qed.

Definition undoable (r : LogRecord) : Prop := is_undoable_action (rec_type r) = true.

(** One popped LSN. *)
Lemma undo_one_spec h r w t n : sink_ok (sink w) → faultless (sink w) → image (sink w) = img → target_ok t → r ∈ rs →
  ∃ w' t', undo_one base h (lsn r) (w, t, n)
      = (Ok (push_nonzero (next_of r) h), (w', t', (if is_undoable_action (rec_type r) then n + 1 else n)%nat))
    ∧ wrote w (clrs_from (Wal.next_lsn w) [r]) w' ∧ target_ok t'
    ∧ ∀ p, content p t' = foldl patch (content p t) (option_list (undo_img p r)).
Proof.
  intros Hs Hg Hi Hok Hr. unfold undo_one. pose proof (laid_out_lsn base rs r (proj1 Hholds) Hr) as Hl.
  destruct (N.ltb_spec (lsn r) base); [lia|]. rewrite read_back by done.
  unfold next_of, undo_img. cbn [clrs_from].
  destruct (is_undoable_action (rec_type r)) eqn:Hu; cbn [andb].
  - assert (Hty : rec_type r ≠ Clr) by (intros Ht; by rewrite Ht in Hu).
    destruct (append_wrote w (mkRecord 0 (lsn r) (txn_id r) Clr (page_id r) (prev_lsn r) (undo r) []) Hs Hg) as (w' & Happ & Hw).
    cbn [lsn prev_lsn txn_id rec_type page_id undo_next_lsn redo undo] in Hw. fold (clr_at (Wal.next_lsn w) r) in Hw.
    assert (Hwc : Wal.write_clr (txn_id r) (page_id r) (lsn r) (undo r) (prev_lsn r) w = (Ok (Wal.next_lsn w), w')) by exact Happ.
    assert (Hap : ∃ t', (if negb (bool_decide (undo r = [])) then apply_image (page_id r) (Wal.next_lsn w) (undo r) t else (Ok tt, t)) = (Ok tt, t')
      ∧ target_ok t' ∧ ∀ p, content p t' = foldl patch (content p t)
          (option_list (if (page_id r =? p) && negb (bool_decide (undo r = [])) then Some (undo r) else None))).
    { case_bool_decide as He; cbn [negb].
      - exists t. split_and!; [done|done|]. intros p. by rewrite andb_false_r.
      - destruct (apply_image_spec (page_id r) (Wal.next_lsn w) (undo r) t Hok) as (t' & Ht' & Hok' & _ & Hc & Hq).
        { apply (Himages _ r); [done|]. unfold undo_img. by rewrite Hu, N.eqb_refl, bool_decide_eq_false_2. }
        exists t'. split_and!; [done|done|]. intros p. rewrite andb_true_r.
        destruct (N.eqb_spec (page_id r) p) as [<-|Hne]; [done|]. cbn. apply Hq. congruence. }
    destruct Hap as (t' & Hap & Hok' & Hc). exists w', t'. split_and!; [|done|done|done].
    rewrite Hwc, Hap. replace (n + 1)%nat with (Datatypes.S n) by lia. by destruct (rec_type r).
  - exists w, t. split_and!; [|by apply wrote_refl|done|done]. by destruct (rec_type r).
Qed.

Lemma clrs_from_cons a r es :
  clrs_from a (r :: es) = clrs_from a [r] ++ clrs_from (a + flat_len (clrs_from a [r])) es.
Proof.
  cbn [clrs_from]. destruct (is_undoable_action (rec_type r)); cbn [app].
  - rewrite flat_len_cons. unfold flat_len. cbn. by rewrite N.add_0_r.
  - unfold flat_len. cbn. by rewrite N.add_0_r.
Qed.

Definition count_undoable (es : list LogRecord) : nat :=
  length (filter (λ r, is_undoable_action (rec_type r) = true) es).

Lemma count_undoable_cons r es :
  count_undoable (r :: es) = ((if is_undoable_action (rec_type r) then 1 else 0) + count_undoable es)%nat.
Proof.
  unfold count_undoable. destruct (is_undoable_action (rec_type r)) eqn:Hu.
  - by rewrite filter_cons_True.
  - rewrite filter_cons_False; [done|]. by rewrite Hu.
Qed.

(** What a run of the undo loop leaves. *)
Record undone (tds : Chains) (w : WalManager S) (t : T) (es : list LogRecord) (w' : WalManager S) (t' : T) : Prop := {
  un_wrote : wrote w (clrs_from (Wal.next_lsn w) es) w';
  un_target : target_ok t';
  un_content : ∀ p, content p t' = foldl patch (content p t) (omap (undo_img p) es);
  un_chain : ∀ x v, (x, v) ∈ tds → filter (λ r, txn_id r = x) es = v;
  un_only : ∀ r, r ∈ es → txn_id r ∈ tds.*1;
  un_in : ∀ r, r ∈ es → r ∈ rs;
  un_below : ∀ r, r ∈ es → ∃ l, l ∈ heads tds ∧ lsn r ≤ l;
  un_desc : StronglySorted N.gt (lsn <$> es);
}.

Definition chains_ok (tds : Chains) : Prop :=
  NoDup tds.*1 ∧ ∀ x v, (x, v) ∈ tds → linked rs v ∧ Forall (λ r, txn_id r = x) v.

Lemma chains_ok_perm tds tds' : tds ≡ₚ tds' → chains_ok tds → chains_ok tds'.
Proof. intros Hp [Hn Hc]. split; [by rewrite <- Hp|]. intros x v Hin. apply Hc. by rewrite Hp. Qed.

(** Undone chains do not depend on the order of the list of chains. *)
Lemma undone_perm tds tds' w t es w' t' : tds ≡ₚ tds' → undone tds w t es w' t' → undone tds' w t es w' t'.
Proof.
  intros Hp [Hw Ht Hc Hch Ho Hin Hb Hd]. split; try done.
  - intros x v Hv. apply Hch. by rewrite Hp.
  - intros r Hr. rewrite <- Hp. auto.
  - intros r Hr. destruct (Hb r Hr) as (l & Hl & Hle). exists l. split; [|done].
    by rewrite <- (heads_perm _ _ Hp).
Qed.

(** A chain's next head lies below its current one. *)
Lemma heads_tail x r v tds : linked rs (r :: v) →
  ∀ l, l ∈ heads ((x, v) :: tds) → l ∈ heads tds ∨ l < lsn r.
Proof.
  intros (_ & _ & Hlt & _) l. rewrite heads_cons. destruct v as [|r' v]; [auto|].
  intros [->|?]%elem_of_cons; [right; exact Hlt|auto].
Qed.

Lemma heads_other x r v tds l : chains_ok ((x, r :: v) :: tds) → l ∈ heads tds → l ≠ lsn r.
Proof.
  intros [Hn Hc] (y & r' & v' & Hin & <-)%elem_of_heads He.
  destruct (Hc y (r' :: v') ltac:(set_solver)) as [(Hr' & _) Hf']. destruct (Hc x (r :: v) ltac:(set_solver)) as [(Hr & _) Hf].
  apply Forall_cons in Hf as [Hx _]. apply Forall_cons in Hf' as [Hy _].
  assert (r' = r) as -> by (eapply laid_out_inj; [apply Hholds|done..]).
  csimpl in Hn. apply NoDup_cons in Hn as [Hn _]. apply Hn. apply list_elem_of_fmap. exists (y, r :: v'). split; [|done].
  cbn. congruence.
Qed.

(** Visiting the head of one chain and then the rest. *)
Lemma undone_cons x r v tds w t w1 t1 es w' t' :
  chains_ok ((x, r :: v) :: tds) → sink_ok (sink w) →
  (∀ l, l ∈ heads ((x, r :: v) :: tds) → l ≤ lsn r) →
  wrote w (clrs_from (Wal.next_lsn w) [r]) w1 →
  (∀ p, content p t1 = foldl patch (content p t) (option_list (undo_img p r))) →
  undone ((x, v) :: tds) w1 t1 es w' t' →
  undone ((x, r :: v) :: tds) w t (r :: es) w' t'.
Proof.
  intros Hok Hs Hmax Hw Hc [Hw' Ht' Hc' Hch Ho Hin Hb Hd]. pose proof Hok as [Hn Hcs].
  destruct (Hcs x (r :: v) ltac:(set_solver)) as [Hlk Hf]. apply Forall_cons in Hf as [Hx _].
  csimpl in Hn. apply NoDup_cons in Hn as [Hn _]. split; [|exact Ht'|..].
  - rewrite clrs_from_cons. eapply wrote_trans; [done|]. by rewrite <- (wrote_next _ _ _ Hs Hw).
  - intros p. cbn [omap list_omap]. rewrite Hc', Hc. by destruct (undo_img p r).
  - intros y u [Heq|Hu]%elem_of_cons.
    + simplify_eq. rewrite filter_cons_True by done. f_equal. apply (Hch (txn_id r)). by left.
    + rewrite filter_cons_False; [apply Hch; by right|]. intros He. apply Hn. apply list_elem_of_fmap. exists (y, u). split; [|done].
      cbn. congruence.
  - intros r' [->|Hr']%elem_of_cons; [csimpl; rewrite Hx; by left|]. apply Ho in Hr'. by csimpl.
  - intros r' [->|Hr']%elem_of_cons; [apply Hlk|auto].
  - intros r' [->|Hr']%elem_of_cons; (exists (lsn r); split; [rewrite heads_cons; by left|]); [done|].
    destruct (Hb r' Hr') as (l & Hl & Hle). destruct (heads_tail _ _ _ _ Hlk l Hl) as [Hl'|]; [|lia].
    specialize (Hmax l). rewrite heads_cons in Hmax. specialize (Hmax ltac:(by right)). lia.
  - csimpl. constructor; [done|]. apply Forall_forall. intros l (r' & -> & Hr')%list_elem_of_fmap.
    destruct (Hb r' Hr') as (l & Hl & Hle). destruct (heads_tail _ _ _ _ Hlk l Hl) as [Hl'|]; [|lia].
    pose proof (heads_other _ _ _ _ _ Hok Hl'). specialize (Hmax l). rewrite heads_cons in Hmax.
    specialize (Hmax ltac:(by right)). lia.
Qed.

Lemma push_heads x r v tds h : linked rs (r :: v) → h ≡ₚ heads tds →
  push_nonzero (next_of r) h ≡ₚ heads ((x, v) :: tds).
Proof.
  intros (_ & Hnext & _ & Hv) Hh. rewrite heads_cons, Hnext. unfold push_nonzero, head_lsn. destruct v as [|r' v].
  - done.
  - destruct Hv as (Hr' & _). pose proof (laid_out_lsn base rs r' (proj1 Hholds) Hr') as Hl.
    unfold HEADER_LEN in Hbase. destruct (N.eqb_spec (lsn r') 0); [lia|]. cbn [negb]. unfold heap_push. by rewrite Hh.
Qed.

Lemma undo_loop_spec fuel : ∀ h tds w t n,
  h ≡ₚ heads tds → chains_ok tds → (total tds < fuel)%nat → sink_ok (sink w) → faultless (sink w) →
  image (sink w) = img → target_ok t →
  ∃ es w' t', undo_loop fuel base h (w, t, n) = Some (Ok tt, (w', t', (n + count_undoable es)%nat))
    ∧ undone tds w t es w' t'.
Proof.
  induction fuel as [|fuel IH]; intros h tds w t n Hh Hok Hf Hs Hg Hi Ht; [lia|]. cbn [undo_loop].
  destruct (heap_pop h) as [[l h']|] eqn:Hpop.
  - apply heap_pop_Some in Hpop as [Hp Hmax].
    assert (Hl : l ∈ heads tds) by (rewrite <- Hh, Hp; by left).
    destruct (elem_of_heads _ _ Hl) as (x & r & v & Hin & <-).
    apply elem_of_Permutation in Hin as [tds' Hperm].
    assert (Hok' : chains_ok ((x, r :: v) :: tds')) by (by eapply chains_ok_perm).
    pose proof (proj2 Hok' x (r :: v) ltac:(by left)) as [Hlk Hfx]. pose proof Hlk as (Hr & _).
    destruct (undo_one_spec h' r w t n Hs Hg Hi Ht Hr) as (w1 & t1 & Hone & Hw1 & Ht1 & Hc1).
    unfold mbind, FSt_bind, frun. rewrite Hone.
    assert (Hh' : h' ≡ₚ heads tds').
    { apply (Permutation_cons_inv (a := lsn r)). rewrite <- Hp, Hh, (heads_perm _ _ Hperm), heads_cons. done. }
    destruct (IH (push_nonzero (next_of r) h') ((x, v) :: tds') w1 t1
      (if is_undoable_action (rec_type r) then n + 1 else n)%nat) as (es & w' & t' & Hrun & Hun).
    + by apply (push_heads x r).
    + split; [apply Hok'|]. intros y u [Heq|Hu]%elem_of_cons; [|apply Hok'; by right].
      simplify_eq. split; [apply Hlk|]. by apply Forall_cons in Hfx as [_ ?].
    + rewrite (total_perm _ _ Hperm) in Hf. unfold total in *. csimpl in *. lia.
    + apply Hw1.
    + apply Hw1.
    + by rewrite (wr_image _ _ _ Hw1).
    + done.
    + exists (r :: es), w', t'. split.
      * rewrite Hrun, count_undoable_cons. do 3 f_equal. destruct (is_undoable_action (rec_type r)); lia.
      * eapply undone_perm; [symmetry; exact Hperm|]. eapply undone_cons; [done|done| |done|done|done].
        intros y Hy. apply Hmax. by rewrite Hh, (heads_perm _ _ Hperm).
  - apply heap_pop_None in Hpop as ->. symmetry in Hh. apply Permutation_nil_r in Hh.
    exists [], w, t. split; [cbn; by rewrite Nat.add_0_r|]. split; try done; try (by intros ? ?%elem_of_nil).
    + by apply wrote_refl.
    + intros x v Hv. destruct v as [|r v]; [done|]. exfalso.
      assert (lsn r ∈ heads tds) as Hin; [|rewrite Hh in Hin; by apply elem_of_nil in Hin].
      unfold heads. apply list_elem_of_omap. exists (x, r :: v). done.
    + constructor.
Qed.
End undo.
