(* ===== verification/WalEffects.v ===== *)
(** * What a log does to pages

    The effect of a log on a page is that of its redo images in order. Redo, started on
    pages that reflect a prefix of the log, brings every page to the effect of the
    whole log. Images of a transaction that cancel out and commute with everybody
    else's can be removed from the log without changing its effect. The second part is what
    analysis learns of a log, and the images a transaction leaves once its chain is undone. *)
From S2P Require Import Prelude Core Bytes WalRecord Checkpoint WalSink WalScan WalScanFacts Wal WalRecovery WalUndo.
From stdpp Require Import options.

Definition redo_img (p : PageId) (r : LogRecord) : option bytes :=
  if is_page_change (rec_type r) && (page_id r =? p) && negb (bool_decide (redo r = []))
  then Some (redo r) else None.

Lemma redo_img_Some p r i : redo_img p r = Some i ↔
  is_page_change (rec_type r) = true ∧ page_id r = p ∧ redo r ≠ [] ∧ i = redo r.
Proof.
  unfold redo_img. destruct (is_page_change (rec_type r)); cbn [andb]; [|naive_solver].
  destruct (N.eqb_spec (page_id r) p); cbn [andb]; [|naive_solver].
  case_bool_decide; cbn [negb]; naive_solver.
Qed.

(** ** Sorted logs split at an LSN *)
Lemma filter_all {A} (P : A → Prop) `{∀ x, Decision (P x)} l : Forall P l → filter P l = l.
Proof. induction 1 as [|x l Hx _ IH]; [done|]. by rewrite filter_cons_True, IH. Qed.

Lemma filter_none {A} (P : A → Prop) `{∀ x, Decision (P x)} l : Forall (λ x, ¬ P x) l → filter P l = [].
Proof. induction 1 as [|x l Hx _ IH]; [done|]. by rewrite filter_cons_False, IH. Qed.

Lemma filter_ext_in {A} (P Q : A → Prop) `{∀ x, Decision (P x)} `{∀ x, Decision (Q x)} (l : list A) :
  (∀ x, x ∈ l → P x ↔ Q x) → filter P l = filter Q l.
Proof.
  induction l as [|x l IH]; intros Hl; [done|]. rewrite !filter_cons, IH by (intros; apply Hl; by right).
  specialize (Hl x ltac:(by left)). repeat case_decide; tauto.
Qed.

Lemma sorted_above m (rs : list LogRecord) r : StronglySorted N.lt (lsn <$> r :: rs) → m ≤ lsn r →
  filter (λ x, m < lsn x) rs = rs ∧ filter (λ x, lsn x ≤ m) rs = [].
Proof.
  csimpl. intros Hs Hm. apply StronglySorted_inv in Hs as [_ Hf]. rewrite Forall_fmap in Hf.
  split; [apply filter_all|apply filter_none]; (eapply Forall_impl; [exact Hf|]; cbn; lia).
Qed.

Lemma sorted_split m (rs : list LogRecord) : StronglySorted N.lt (lsn <$> rs) →
  rs = filter (λ r, lsn r ≤ m) rs ++ filter (λ r, m < lsn r) rs.
Proof.
  induction rs as [|r rs IH]; [done|]. intros Hs. pose proof Hs as Hs'. csimpl in Hs'.
  apply StronglySorted_inv in Hs' as [Hs' _]. destruct (decide (lsn r ≤ m)).
  - rewrite filter_cons_True, filter_cons_False by lia. cbn. by rewrite <- IH.
  - destruct (sorted_above m rs r Hs ltac:(lia)) as [H1 H2].
    by rewrite filter_cons_False, filter_cons_True, H1, H2 by lia.
Qed.

Section effects.
Context {T : Type} `{!ApplyTarget T} `{!PagesSpec T}.

Definition effect (p : PageId) (rs : list LogRecord) (c : Content) : Content :=
  foldl patch c (omap (redo_img p) rs).

Lemma effect_app p rs rs' c : effect p (rs ++ rs') c = effect p rs' (effect p rs c).
Proof. unfold effect. by rewrite omap_app, foldl_app. Qed.

(** ** Redo *)

(** The images of a record for a page. *)
Definition images (p : PageId) (r : LogRecord) : list bytes :=
  option_list (redo_img p r) ++ option_list (undo_img p r).

Lemma in_redo_images p r i : redo_img p r = Some i → i ∈ images p r.
Proof. intros Hi. unfold images. rewrite Hi. by left. Qed.
Lemma in_undo_images p r i : undo_img p r = Some i → i ∈ images p r.
Proof. intros Hi. unfold images. rewrite Hi. apply elem_of_app. right. by left. Qed.

(** What redo does with a record: it is not below the start and newer than its page. *)
Definition replayed (start l : Lsn) (r : LogRecord) : Prop := start ≤ lsn r ∧ l < lsn r.
#[global] Instance replayed_dec start l r : Decision (replayed start l r).
Proof. unfold replayed. apply _. Defined.

(** A target from which redo catches up: the images of the log are meant for their pages,
    and those redo replays on a page complete the effect of the log on it. *)
Record on_disk (rs : list LogRecord) (start : Lsn) (c0 : PageId → Content) (t : T) : Prop := {
  od_target : target_ok t;
  od_images p r i : r ∈ rs → i ∈ images p r → image_ok p i;
  od_replay p : effect p (filter (replayed start (page_lsn p t)) rs) (content p t) = effect p rs (c0 p);
}.

(** Pages that reflect the records up to their LSN, in a log whose checkpoint skips only
    records already on their pages. *)
Lemma prefix_on_disk rs start c0 t : StronglySorted N.lt (lsn <$> rs) → target_ok t →
  (∀ p r i, r ∈ rs → i ∈ images p r → image_ok p i) →
  (∀ p, content p t = effect p (filter (λ r, lsn r ≤ page_lsn p t) rs) (c0 p)) →
  (∀ p r, r ∈ rs → is_Some (redo_img p r) → lsn r < start → lsn r ≤ page_lsn p t) →
  on_disk rs start c0 t.
Proof.
  intros Hs Ht Himg Hpre Hst. split; [done|done|]. intros p. rewrite Hpre, <- effect_app.
  rewrite (sorted_split (page_lsn p t) rs Hs) at 3. rewrite !effect_app. unfold effect. f_equal.
  assert (Hsub : ∀ r, r ∈ rs → is_Some (redo_img p r) → replayed start (page_lsn p t) r ↔ page_lsn p t < lsn r).
  { intros r Hr Hi. unfold replayed. specialize (Hst p r Hr Hi). lia. }
  clear -Hsub. induction rs as [|r rs IH]; [done|]. rewrite !filter_cons.
  specialize (IH ltac:(intros; apply Hsub; [by right|done])).
  destruct (redo_img p r) as [i|] eqn:Hi.
  - specialize (Hsub r ltac:(by left) ltac:(done)). repeat case_decide; try tauto. cbn [omap list_omap]. by rewrite Hi, IH.
  - repeat case_decide; cbn [omap list_omap]; by rewrite ?Hi, IH.
Qed.

(** One record: applied exactly when redo replays it. *)
Lemma redo_one_spec start r t n : target_ok t → lsn r ≤ u64_max → (∀ p i, redo_img p r = Some i → image_ok p i) →
  ∃ t' n', redo_one start (of_owned r) (lsn r) (t, n) = (Ok tt, (t', n')) ∧ target_ok t'
    ∧ ∀ p, if decide (is_Some (redo_img p r) ∧ replayed start (page_lsn p t) r)
      then content p t' = patch (content p t) (redo r) ∧ page_lsn p t' = lsn r
      else content p t' = content p t ∧ page_lsn p t' = page_lsn p t.
Proof.
  intros Ht Hl Himg. unfold redo_one. cbn [of_owned ref_lsn ref_rec_type ref_redo ref_page_id].
  destruct ((start <=? lsn r) && is_page_change (rec_type r) && negb (bool_decide (redo r = []))
    && (page_lsn (page_id r) t <? lsn r)) eqn:Hc.
  - bool_solve. assert (Hi : redo_img (page_id r) r = Some (redo r)) by (by apply redo_img_Some).
    destruct (apply_image_spec (page_id r) (lsn r) (redo r) t Ht (Himg _ _ Hi)) as (t' & -> & Ht' & Hlsn & Hp & Hq).
    eexists t', _. split_and!; [done|done|]. intros p. case_decide as Hd.
    + destruct Hd as [[i (_ & <- & _)%redo_img_Some] _]. auto.
    + apply and_comm, Hq. intros ->. by apply Hd.
  - eexists t, n. split_and!; [done|done|]. intros p. case_decide as Hd; [|done]. exfalso.
    destruct Hd as [[i Hi] [Hst Hlt]]. apply redo_img_Some in Hi as (Hch & Hpg & Hne & _).
    subst p. apply not_true_iff_false in Hc. apply Hc. rewrite !andb_true_iff, negb_true_iff, bool_decide_eq_false.
    by rewrite N.leb_le, N.ltb_lt.
Qed.

Lemma each_redo start rs : StronglySorted N.lt (lsn <$> rs) → Forall (λ r, lsn r ≤ u64_max) rs →
  (∀ p r i, r ∈ rs → redo_img p r = Some i → image_ok p i) → ∀ t n, target_ok t →
  ∃ t' n', each (redo_one start) (entry <$> rs) (t, n) = (Ok tt, (t', n')) ∧ target_ok t'
    ∧ ∀ p, content p t' = effect p (filter (replayed start (page_lsn p t)) rs) (content p t).
Proof.
  induction rs as [|r rs IH]; intros Hs Hle Himg t n Ht.
  { exists t, n. done. }
  apply Forall_cons in Hle as [Hl Hle].
  destruct (redo_one_spec start r t n Ht Hl ltac:(intros p i; apply Himg; by left)) as (t1 & n1 & Hone & Ht1 & H1).
  pose proof Hs as Hs'. csimpl in Hs'. apply StronglySorted_inv in Hs' as [Hs' _].
  destruct (IH Hs' Hle ltac:(intros p r' i Hr'; apply Himg; by right) t1 n1 Ht1) as (t' & n' & Hrun & Ht' & H2).
  exists t', n'. split_and!; [|done|].
  { csimpl. cbn [each entry]. unfold mbind, St_bind. by rewrite Hone. }
  intros p. specialize (H1 p). rewrite H2, filter_cons. case_decide as Hd.
  - destruct H1 as [Hc1 Hl1], Hd as [[i Hi] Hr]. rewrite decide_True by done. rewrite Hl1, Hc1.
    assert (Hf : filter (replayed start (lsn r)) rs = filter (replayed start (page_lsn p t)) rs).
    { apply filter_ext_in. intros r' Hr'. unfold replayed in *. csimpl in Hs. apply StronglySorted_inv in Hs as [_ Hf].
      rewrite Forall_fmap, Forall_forall in Hf. specialize (Hf r' Hr'). cbn in Hf. lia. }
    rewrite Hf. unfold effect. cbn [omap list_omap]. rewrite Hi. by apply redo_img_Some in Hi as (_ & _ & _ & ->).
  - destruct H1 as [-> ->]. case_decide as Hr; [|done]. unfold effect. cbn [omap list_omap].
    destruct (redo_img p r) eqn:Hi; [|done]. exfalso. apply Hd. split; [by eexists|done].
Qed.

(** Redo brings every page to the effect of the whole log. *)
Lemma redo_repeats_history start rs c0 t n : StronglySorted N.lt (lsn <$> rs) → Forall (λ r, lsn r ≤ u64_max) rs →
  on_disk rs start c0 t →
  ∃ t' n', each (redo_one start) (entry <$> rs) (t, n) = (Ok tt, (t', n')) ∧ target_ok t'
    ∧ ∀ p, content p t' = effect p rs (c0 p).
Proof.
  intros Hs Hle [Ht Himg Hre].
  destruct (each_redo start rs Hs Hle ltac:(eauto using in_redo_images) t n Ht) as (t' & n' & Hrun & Ht' & Hc).
  exists t', n'. split_and!; [done|done|]. intros p. by rewrite Hc.
Qed.

(** ** Removing transactions whose images cancel *)
Abbreviation Images := (list (N * bytes)) (only parsing).

(** The images tagged [x] commute with the later images of other tags. *)
Fixpoint yields (E : Images) (x : N) : Prop :=
  match E with
  | [] => True
  | (y, i) :: E =>
      (y = x → ∀ z j c, (z, j) ∈ E → z ≠ x → patch (patch c i) j = patch (patch c j) i) ∧ yields E x
  end.

Definition of_tag (x : N) (E : Images) : list bytes := (filter (λ e : N * bytes, e.1 = x) E).*2.
Definition without (xs : list N) (E : Images) : Images := filter (λ e : N * bytes, e.1 ∉ xs) E.

Lemma of_tag_cons x y i E : of_tag x ((y, i) :: E) = if decide (y = x) then i :: of_tag x E else of_tag x E.
Proof. unfold of_tag. rewrite filter_cons. cbn [fst]. by destruct (decide (y = x)). Qed.

Lemma without_cons xs y i E :
  without xs ((y, i) :: E) = if decide (y ∈ xs) then without xs E else (y, i) :: without xs E.
Proof. unfold without. rewrite filter_cons. cbn [fst]. repeat case_decide; done. Qed.

Lemma of_tag_app x E E' : of_tag x (E ++ E') = of_tag x E ++ of_tag x E'.
Proof. unfold of_tag. by rewrite filter_app, fmap_app. Qed.

Lemma without_app xs E E' : without xs (E ++ E') = without xs E ++ without xs E'.
Proof. apply filter_app. Qed.

Lemma of_tag_without x y E : x ≠ y → of_tag y (without [x] E) = of_tag y E.
Proof.
  intros Hne. induction E as [|[z i] E IH]; [done|]. rewrite without_cons, of_tag_cons.
  destruct (decide (z ∈ [x])) as [Hz|Hz]; rewrite ?of_tag_cons, IH; [|done].
  apply list_elem_of_singleton in Hz as ->. by destruct (decide (x = y)).
Qed.

Lemma without_without x xs E : without xs (without [x] E) = without (x :: xs) E.
Proof. unfold without. rewrite list_filter_filter. apply list_filter_iff. set_solver. Qed.

Lemma yields_without xs E x : yields E x → yields (without xs E) x.
Proof.
  induction E as [|[y i] E IH]; [done|]. cbn [yields]. intros [Hy HE]. rewrite without_cons.
  case_decide; [auto|]. split; [|auto]. intros -> z j c [_ Hin]%list_elem_of_filter. by apply Hy.
Qed.

Lemma commute_past i (L : list bytes) c :
  (∀ j c, j ∈ L → patch (patch c i) j = patch (patch c j) i) →
  patch (foldl patch c L) i = foldl patch (patch c i) L.
Proof.
  revert c. induction L as [|j L IH]; intros c Hc; cbn [foldl]; [done|].
  rewrite IH by (intros; apply Hc; by right). by rewrite Hc by (by left).
Qed.

Lemma move_last x (E : Images) c : yields E x →
  foldl patch c E.*2 = foldl patch (foldl patch c (without [x] E).*2) (of_tag x E).
Proof.
  revert c. induction E as [|[y i] E IH]; intros c; [done|]. intros [Hy HE].
  rewrite fmap_cons, without_cons, of_tag_cons. cbn [foldl snd]. rewrite (IH _ HE).
  destruct (decide (y = x)) as [->|Hne].
  - rewrite decide_True by set_solver. cbn [foldl]. f_equal. symmetry. apply commute_past.
    intros j d ([z b] & -> & [Hz Hin]%list_elem_of_filter)%list_elem_of_fmap. apply (Hy eq_refl z); [done|set_solver].
  - by rewrite decide_False by set_solver.
Qed.

(** What cancels at the content the others leave has no effect. *)
Lemma remove_txns xs : ∀ (E : Images) c, NoDup xs → (∀ x, x ∈ xs → yields E x) →
  (∀ x d, x ∈ xs → d = foldl patch c (without xs E).*2 → foldl patch d (of_tag x E) = d) →
  foldl patch c E.*2 = foldl patch c (without xs E).*2.
Proof.
  induction xs as [|x xs IH]; intros E c Hn Hy Hc.
  { unfold without. by rewrite filter_all by (apply Forall_forall; set_solver). }
  apply NoDup_cons in Hn as [Hxs Hn]. rewrite (move_last x) by (apply Hy; by left).
  assert (Hd : foldl patch c (without [x] E).*2 = foldl patch c (without (x :: xs) E).*2).
  { rewrite <- (without_without x xs). apply IH; [done|intros; apply yields_without, Hy; by right|].
    intros y d Hin ->. rewrite of_tag_without by set_solver. apply Hc; [by right|]. by rewrite without_without. }
  rewrite Hd. apply Hc; [by left|done].
Qed.
End effects.

(** ** What recovery learns of a log, and the shape of a loser *)

(** ** Outcomes of transactions *)
Definition has_record (ty : RecordType) (rs : list LogRecord) (x : N) : bool :=
  existsb (λ r, (txn_id r =? x) && bool_decide (rec_type r = ty)) rs.

Definition loser (rs : list LogRecord) (x : N) : Prop :=
  x ≠ 0 ∧ x ∈ txn_id <$> rs ∧ has_record Commit rs x = false ∧ has_record Abort rs x = false.
#[global] Instance loser_dec rs x : Decision (loser rs x).
Proof. unfold loser. apply _. Defined.

(** A record without an undo image is never compensated: it stays, whatever becomes of
    its transaction. *)
Definition redo_only (r : LogRecord) : Prop := undo r = [] ∧ rec_type r ≠ Clr.
#[global] Instance redo_only_dec r : Decision (redo_only r).
Proof. unfold redo_only. apply _. Defined.

Definition tag (r : LogRecord) : N := if decide (redo_only r) then 0 else txn_id r.

(** The records whose images survive recovery. *)
Definition kept (rs : list LogRecord) (r : LogRecord) : Prop := ¬ loser rs (tag r).
#[global] Instance kept_dec rs r : Decision (kept rs r).
Proof. unfold kept. apply _. Defined.

(** ** Analysis *)
Definition analysis_of (rs : list LogRecord) : Analysis :=
  foldl (λ a r, (analyse (of_owned r) (lsn r) a).2) analysis_init rs.

Lemma each_analyse rs a :
  each analyse (entry <$> rs) a = (Ok tt, foldl (λ a r, (analyse (of_owned r) (lsn r) a).2) a rs).
Proof. revert a. induction rs as [|r rs IH]; intros a; [done|]. csimpl. cbn [each entry]. apply IH. Qed.

Lemma analysis_snoc rs r : analysis_of (rs ++ [r]) = (analyse (of_owned r) (lsn r) (analysis_of rs)).2.
Proof. unfold analysis_of. by rewrite foldl_snoc. Qed.

Lemma has_record_snoc ty rs r x :
  has_record ty (rs ++ [r]) x = has_record ty rs x || ((txn_id r =? x) && bool_decide (rec_type r = ty)).
Proof. unfold has_record. rewrite existsb_app. cbn. by rewrite orb_false_r. Qed.

Lemma analyse_sets r a :
  let a' := (analyse (of_owned r) (lsn r) a).2 in
  committed a' = (if decide (rec_type r = Commit) then {[txn_id r]} ∪ committed a else committed a)
  ∧ ended a' = (if decide (rec_type r = Abort) then {[txn_id r]} ∪ ended a else ended a)
  ∧ txn_last a' = (if decide (txn_id r = 0) then txn_last a else <[txn_id r := lsn r]> (txn_last a))
  ∧ records_scanned a' = S (records_scanned a).
Proof.
  cbn. unfold analyse. cbn [of_owned ref_txn_id ref_rec_type ref_redo ref_lsn].
  destruct (N.eqb_spec (txn_id r) 0) as [He|He]; cbn [negb];
    [rewrite (decide_True _ _ He)|rewrite (decide_False _ _ He)];
    destruct (rec_type r); try done; by destruct (Ckpt.decode (redo r)).
Qed.

Lemma elem_of_added (ty : RecordType) r (X : gset N) rs x : (x ∈ X ↔ has_record ty rs x = true) →
  x ∈ (if decide (rec_type r = ty) then {[txn_id r]} ∪ X else X) ↔ has_record ty (rs ++ [r]) x = true.
Proof.
  intros HX. rewrite has_record_snoc, orb_true_iff, <- HX. destruct (decide (rec_type r = ty)) as [He|He].
  - rewrite bool_decide_eq_true_2, andb_true_r, N.eqb_eq by done. set_solver.
  - rewrite bool_decide_eq_false_2, andb_false_r by done. naive_solver.
Qed.

Lemma analysis_committed rs x : x ∈ committed (analysis_of rs) ↔ has_record Commit rs x = true.
Proof.
  induction rs as [|r rs IH] using rev_ind; [done|]. rewrite analysis_snoc.
  destruct (analyse_sets r (analysis_of rs)) as (-> & _). by apply elem_of_added.
Qed.

Lemma analysis_ended rs x : x ∈ ended (analysis_of rs) ↔ has_record Abort rs x = true.
Proof.
  induction rs as [|r rs IH] using rev_ind; [done|]. rewrite analysis_snoc.
  destruct (analyse_sets r (analysis_of rs)) as (_ & -> & _). by apply elem_of_added.
Qed.

Definition records_of (x : N) (rs : list LogRecord) : list LogRecord := filter (λ r, txn_id r = x) rs.

Lemma analysis_last rs x :
  txn_last (analysis_of rs) !! x = if decide (x = 0) then None else lsn <$> last (records_of x rs).
Proof.
  induction rs as [|r rs IH] using rev_ind; [by case_decide|]. rewrite analysis_snoc.
  destruct (analyse_sets r (analysis_of rs)) as (_ & _ & -> & _).
  unfold records_of in *. rewrite filter_app, filter_cons, filter_nil.
  destruct (decide (txn_id r = x)) as [<-|Hne].
  - rewrite last_snoc. destruct (decide (txn_id r = 0)) as [H0|H0]; [exact IH|]. by rewrite lookup_insert_eq.
  - rewrite app_nil_r, <- IH. destruct (decide (txn_id r = 0)); [done|]. by rewrite lookup_insert_ne.
Qed.

Lemma analysis_scanned rs : records_scanned (analysis_of rs) = length rs.
Proof.
  induction rs as [|r rs IH] using rev_ind; [done|]. rewrite analysis_snoc.
  destruct (analyse_sets r (analysis_of rs)) as (_ & _ & _ & ->). rewrite IH, length_app. cbn. lia.
Qed.

Lemma records_of_nil x rs : records_of x rs = [] ↔ x ∉ txn_id <$> rs.
Proof.
  unfold records_of. split.
  - intros Hf (r & -> & Hr)%list_elem_of_fmap.
    assert (r ∈ filter (λ r', txn_id r' = txn_id r) rs) as Hin by (by apply list_elem_of_filter).
    rewrite Hf in Hin. by apply elem_of_nil in Hin.
  - intros Hx. apply filter_none, Forall_forall. intros r Hr He. apply Hx. rewrite <- He.
    by apply list_elem_of_fmap_2.
Qed.

Section losers.
Context `{HashOrder}.

(** The list of losers recovery builds. *)
Definition losers_of (rs : list LogRecord) : list N :=
  filter (λ x, is_loser (analysis_of rs) x) (hash_keys (txn_last (analysis_of rs))).

Lemma elem_of_losers rs x : x ∈ losers_of rs ↔ loser rs x.
Proof.
  unfold losers_of. rewrite list_elem_of_filter, hash_keys_perm, elem_of_elements, elem_of_dom, analysis_last.
  unfold is_loser, loser. rewrite Is_true_true, andb_true_iff, !negb_true_iff, !bool_decide_eq_false.
  rewrite analysis_committed, analysis_ended, !not_true_iff_false.
  assert (Hs : is_Some (if decide (x = 0) then None else lsn <$> last (records_of x rs))
    ↔ x ≠ 0 ∧ x ∈ txn_id <$> rs).
  { case_decide; [split; [by intros [? ?]|naive_solver]|]. rewrite fmap_is_Some, last_is_Some.
    pose proof (records_of_nil x rs). destruct (decide (x ∈ txn_id <$> rs)); naive_solver. }
  rewrite Hs. tauto.
Qed.

Lemma losers_nodup rs : NoDup (losers_of rs).
Proof. unfold losers_of. apply NoDup_filter. rewrite hash_keys_perm. apply NoDup_elements. Qed.
End losers.

(** ** The shape of a loser *)

(** [c] is the compensation record of [r]. *)
Definition compensates (c r : LogRecord) : Prop :=
  rec_type c = Clr ∧ page_id c = page_id r ∧ redo c = undo r ∧ undo_next_lsn c = prev_lsn r
  ∧ lsn r < lsn c ∧ is_undoable_action (rec_type r) = true.

(** [comp vs cs rem]: [cs] compensates the records [vs], newest first, down to [rem].
    Records without an undo image may be passed over on the way to the next. *)
Inductive comp : list LogRecord → list LogRecord → list LogRecord → Prop :=
  | comp_nil vs : comp vs [] vs
  | comp_skip r vs cs rem : undo r = [] → cs ≠ [] → comp vs cs rem → comp (r :: vs) cs rem
  | comp_clr r vs c cs rem : compensates c r → comp vs cs rem → comp (r :: vs) (c :: cs) rem.

Definition forward (r : LogRecord) : Prop :=
  rec_type r ≠ Clr ∧ (is_undoable_action (rec_type r) = true ∨ undo r = []).

(** The records of a loser: its forward records [fs], linked by their back-chain, then
    the compensation records [cs] of an unfinished rollback, down to [rem]. *)
Record backed (rs : list LogRecord) (x : N) (fs cs rem : list LogRecord) : Prop := {
  bk_split : records_of x rs = fs ++ cs;
  bk_forward : Forall forward fs;
  bk_comp : comp (reverse fs) cs rem;
  bk_linked : linked rs (reverse fs);
}.

(** What recovery visits. *)
Definition visits (fs cs rem : list LogRecord) : list LogRecord :=
  match last cs with None => reverse fs | Some c => c :: rem end.

Lemma comp_length vs cs rem : comp vs cs rem →
  (length rem + (if decide (cs = []) then 0 else 1) ≤ length vs + length cs)%nat.
Proof. induction 1; cbn [length] in *; repeat case_decide; try done; lia. Qed.

Lemma comp_rem_sub vs cs rem : comp vs cs rem → ∀ r, r ∈ rem → r ∈ vs.
Proof. induction 1; set_solver. Qed.

Lemma comp_clrs vs cs rem : comp vs cs rem → Forall (λ c, rec_type c = Clr) cs.
Proof. induction 1 as [| |r vs c cs rem Hc _ IH]; [done|done|]. constructor; [apply Hc|done]. Qed.

(** The last compensation record points at the rest of the chain. *)
Lemma comp_last_linked rs vs cs rem : comp vs cs rem → linked rs vs → (∀ c, c ∈ cs → c ∈ rs) →
  ∀ c, last cs = Some c → linked rs (c :: rem).
Proof.
  induction 1 as [|r vs cs rem Hu Hne Hco IH|r vs c cs rem Hc Hco IH]; intros Hl Hin d Hd; [done| |].
  - apply IH; [apply Hl|done|done].
  - destruct cs as [|c' cs].
    + inversion Hco; subst; [|done]. injection Hd as <-. destruct Hl as (_ & Hn & Hlt & Hl).
      destruct Hc as (Ht & _ & _ & Hnx & Hls & Hun). cbn [linked]. split_and!; [apply Hin; by left| |lia|done].
      unfold next_of in *. rewrite Ht, Hnx. destruct (rec_type r); done.
    + apply IH; [apply Hl|intros; apply Hin; by right|done].
Qed.

Section images.
Context {T : Type} `{!ApplyTarget T} `{!PagesSpec T}.

Lemma undo_img_empty p r : undo r = [] → undo_img p r = None.
Proof. intros Hu. unfold undo_img. by rewrite Hu, bool_decide_eq_true_2, andb_false_r. Qed.

(** Compensation records carry the undo images of what they compensate. *)
Lemma comp_images p vs cs rem : comp vs cs rem →
  omap (redo_img p) cs ++ omap (undo_img p) rem = omap (undo_img p) vs.
Proof.
  induction 1 as [|r vs cs rem Hu _ _ IH|r vs c cs rem Hc _ IH]; [done| |].
  - cbn [omap list_omap]. rewrite (undo_img_empty p r Hu). exact IH.
  - destruct Hc as (Ht & Hp & Hr & _ & _ & Hun). cbn [omap list_omap].
    assert (He : redo_img p c = undo_img p r) by (unfold redo_img, undo_img; by rewrite Ht, Hp, Hr, Hun).
    rewrite He. destruct (undo_img p r); cbn [app]; by rewrite IH.
Qed.

Lemma visits_images p vs cs rem c : comp vs cs rem → last cs = Some c →
  omap (undo_img p) (c :: rem) = omap (undo_img p) rem.
Proof.
  intros Hc Hl. apply comp_clrs in Hc. rewrite Forall_forall in Hc. cbn [omap list_omap].
  unfold undo_img at 1. by rewrite Hc by (by apply last_Some_elem_of).
Qed.

(** Each record's undo image restores what its redo image changed, starting from [d]. *)
Fixpoint reversible (p : PageId) (d : Content) (fs : list LogRecord) : Prop :=
  match fs with
  | [] => True
  | r :: fs =>
      let d' := foldl patch d (option_list (redo_img p r)) in
      foldl patch d' (option_list (undo_img p r)) = d ∧ reversible p d' fs
  end.

Lemma omap_cons_list {A B} (g : A → option B) a l : omap g (a :: l) = option_list (g a) ++ omap g l.
Proof. cbn [omap list_omap]. by destruct (g a). Qed.

Lemma lifo p fs : ∀ d, reversible p d fs →
  foldl patch d (omap (redo_img p) fs ++ omap (undo_img p) (reverse fs)) = d.
Proof.
  induction fs as [|r fs IH]; intros d; [done|]. intros [Hr Hf].
  rewrite reverse_cons, omap_app, !omap_cons_list. cbn [omap list_omap]. rewrite app_nil_r, <- app_assoc.
  rewrite foldl_app, app_assoc, foldl_app, IH by done. done.
Qed.

(** ** The images of the log and of the undone records, by tag *)
Definition tagged (g : LogRecord → option bytes) (l : list LogRecord) : list (N * bytes) :=
  omap (λ r, (tag r,.) <$> g r) l.

Lemma tagged_snd g l : (tagged g l).*2 = omap g l.
Proof.
  induction l as [|r l IH]; [done|]. unfold tagged in *. cbn [omap list_omap]. destruct (g r); csimpl; by rewrite IH.
Qed.

Lemma elem_of_tagged g l y i : (y, i) ∈ tagged g l ↔ ∃ r, r ∈ l ∧ tag r = y ∧ g r = Some i.
Proof.
  unfold tagged. rewrite list_elem_of_omap. split.
  - intros (r & Hr & Hi). destruct (g r) eqn:Hg; simplify_eq/=. eauto.
  - intros (r & Hr & <- & Hg). exists r. by rewrite Hg.
Qed.

Lemma of_tag_tagged x g l : of_tag x (tagged g l) = omap g (filter (λ r, tag r = x) l).
Proof.
  induction l as [|r l IH]; [done|]. unfold tagged in *. rewrite filter_cons. cbn [omap list_omap].
  destruct (g r) as [i|] eqn:Hg; cbn [fmap option_fmap option_map].
  - rewrite of_tag_cons, IH. case_decide; [|done]. cbn [omap list_omap]. by rewrite Hg.
  - rewrite IH. case_decide; [|done]. cbn [omap list_omap]. by rewrite Hg.
Qed.

Lemma without_tagged xs g l : without xs (tagged g l) = tagged g (filter (λ r, tag r ∉ xs) l).
Proof.
  induction l as [|r l IH]; [done|]. unfold tagged in *. rewrite filter_cons. cbn [omap list_omap].
  destruct (g r) as [i|] eqn:Hg; cbn [fmap option_fmap option_map].
  - rewrite without_cons, IH. repeat case_decide; try done. cbn [omap list_omap]. by rewrite Hg.
  - rewrite IH. case_decide; [|done]. cbn [omap list_omap]. by rewrite Hg.
Qed.

Lemma tag_filter x l : x ≠ 0 → filter (λ r, tag r = x) l = filter (λ r, ¬ redo_only r) (records_of x l).
Proof.
  intros Hx. unfold records_of. rewrite list_filter_filter. apply list_filter_iff. intros r. unfold tag.
  case_decide; naive_solver.
Qed.

Lemma omap_undo_filter p (l : list LogRecord) : omap (undo_img p) (filter (λ r, ¬ redo_only r) l) = omap (undo_img p) l.
Proof.
  induction l as [|r l IH]; [done|]. rewrite filter_cons. case_decide as Hd.
  - cbn [omap list_omap]. by rewrite IH.
  - cbn [omap list_omap]. rewrite IH. by rewrite (undo_img_empty p r (proj1 Hd)).
Qed.

Lemma filter_reverse {A} (P : A → Prop) `{∀ x, Decision (P x)} (l : list A) : filter P (reverse l) = reverse (filter P l).
Proof.
  induction l as [|a l IH]; [done|]. rewrite reverse_cons, filter_app, IH, !filter_cons, filter_nil.
  case_decide; [by rewrite reverse_cons|by rewrite app_nil_r].
Qed.

(** A loser's images, once its chain is undone, are those of its forward records and
    then their inverses, newest first. *)
Lemma loser_images p rs x fs cs rem es : x ≠ 0 → backed rs x fs cs rem → records_of x es = visits fs cs rem →
  let fs' := filter (λ r, ¬ redo_only r) fs in
  of_tag x (tagged (redo_img p) rs ++ tagged (undo_img p) es)
    = omap (redo_img p) fs' ++ omap (undo_img p) (reverse fs').
Proof.
  intros Hx [Hs Hf Hc Hl] Hes fs'. rewrite of_tag_app, !of_tag_tagged, !tag_filter, Hs, Hes by done.
  rewrite omap_undo_filter, filter_app, omap_app, <- app_assoc. f_equal.
  rewrite (filter_all _ cs).
  2:{ eapply Forall_impl; [by eapply comp_clrs|]. intros r Hr [_ Hn]. done. }
  unfold fs'. rewrite <- filter_reverse, omap_undo_filter, <- (comp_images p _ _ _ Hc). f_equal. unfold visits.
  destruct (last cs) as [c|] eqn:Hlast; [by eapply visits_images|].
  apply last_None in Hlast as ->. by inversion Hc.
Qed.

End images.
