(* ===== verification/WalRecoverySpec.v ===== *)
(** * Recovery is correct

    [recover_from_windowed] on a log left by a crash: the pages end with the effect of
    the log without its losers, the log ends with every transaction finished, and the
    outcome does not depend on the window. *)

From stdpp Require Import options.
From S2P Require Import Prelude Core Bytes WalRecord Checkpoint WalSink WalScan WalScanFacts Wal WalRecovery WalUndo WalEffects.

(** The retained log: records [rs] from offset [base] on, then [rest], which is either
    empty or a torn tail. *)
Record log_ok `{Crc32c} (img : bytes) (base : N) (rs : list LogRecord) (rest : bytes) : Prop := {
  lo_holds : holds img base rs rest;
  lo_len : blen img ≤ 2 ^ 62;
  lo_rest : rest_ok rest;
  lo_tail : rest ≠ [] → find_genuine img (base + flat_len rs + 1) = None;
  lo_start : starts_ok img (blen img) base;
}.

(** The [END] records recovery writes. *)
Fixpoint ends_from (a : N) (xs : list N) : list LogRecord :=
  match xs with
  | [] => []
  | x :: xs => let r := mkRecord a 0 x Abort 0 0 [] [] in r :: ends_from (a + N.of_nat (Rec.encoded_len r)) xs
  end.

Section isolated.
Context {T : Type} `{!ApplyTarget T} `{!PagesSpec T}.

(** What recovery relies on of the transactions of the log: an image of a loser
    commutes with the later images of others and with those of other losers; each
    loser's records form a back-chain; its undo images restore what its redo images
    changed. *)
Record isolated (rs : list LogRecord) (c0 : PageId → Content) : Prop := {
  iso_commute p r r' i j (c : Content) : r ∈ rs → r' ∈ rs → loser rs (tag r) → tag r' ≠ tag r →
    lsn r < lsn r' ∨ loser rs (tag r') → i ∈ images p r → j ∈ images p r' →
    patch (patch c i) j = patch (patch c j) i;
  iso_loser x : loser rs x → ∃ fs cs rem, backed rs x fs cs rem
    ∧ ∀ p, reversible p (effect p (filter (kept rs) rs) (c0 p)) (filter (λ r, ¬ redo_only r) fs);
}.

Lemma yields_app (E E' : list (N * bytes)) x : yields E x → yields E' x →
  (∀ i z j c, (x, i) ∈ E → (z, j) ∈ E' → z ≠ x → patch (patch c i) j = patch (patch c j) i) →
  yields (E ++ E') x.
Proof.
  induction E as [|[y i] E IH]; [done|]. intros [Hy HE] HE' Hc. cbn [app yields]. split.
  - intros -> z j c [Hz|Hz]%elem_of_app Hne; [by apply (Hy eq_refl z)|]. by eapply Hc; [left|..].
  - apply IH; [done|done|]. intros i' z j c Hi. apply Hc. by right.
Qed.

Lemma yields_tagged (R : LogRecord → LogRecord → Prop) g (l : list LogRecord) x : StronglySorted R l →
  (∀ r r' i j c, r ∈ l → r' ∈ l → R r r' → tag r = x → tag r' ≠ x → g r = Some i → g r' = Some j →
    patch (patch c i) j = patch (patch c j) i) →
  yields (tagged g l) x.
Proof.
  induction 1 as [|r l Hs IH Hf]; intros Hc; [done|]. unfold tagged in *. cbn [omap list_omap].
  assert (Hl : yields (tagged g l) x) by (apply IH; intros r1 r2 i j c ? ?; apply Hc; by right).
  destruct (g r) as [i|] eqn:Hg; [|exact Hl]. cbn [fmap option_fmap option_map yields]. split; [|exact Hl].
  intros Hx z j c (r' & Hr' & <- & Hj)%elem_of_tagged Hne. rewrite Forall_forall in Hf.
  eapply (Hc r r'); [by left|by right|by apply Hf|done..].
Qed.

Lemma undo_img_tag p r i : undo_img p r = Some i → tag r = txn_id r.
Proof.
  intros Hi. unfold tag. case_decide as Hd; [|done]. by rewrite (undo_img_empty p r (proj1 Hd)) in Hi.
Qed.

Lemma sorted_lsn rs : StronglySorted N.lt (lsn <$> rs) → StronglySorted (λ r r', lsn r < lsn r') rs.
Proof.
  induction rs as [|r rs IH]; [constructor|]. csimpl. intros [Hs Hf]%StronglySorted_inv.
  constructor; [auto|]. by rewrite Forall_fmap in Hf.
Qed.

Lemma sorted_any (l : list LogRecord) : StronglySorted (λ _ _, True) l.
Proof. induction l; constructor; [done|by apply Forall_true]. Qed.

(** Undoing the losers' chains removes the losers from the effect of the log. *)
Lemma undo_removes_losers p rs c0 es (xs : list N) : StronglySorted N.lt (lsn <$> rs) → isolated rs c0 →
  NoDup xs → (∀ x, x ∈ xs ↔ loser rs x) →
  (∀ r, r ∈ es → r ∈ rs ∧ loser rs (txn_id r)) →
  (∀ x, loser rs x → ∃ fs cs rem, backed rs x fs cs rem ∧ records_of x es = visits fs cs rem
    ∧ reversible p (effect p (filter (kept rs) rs) (c0 p)) (filter (λ r, ¬ redo_only r) fs)) →
  foldl patch (effect p rs (c0 p)) (omap (undo_img p) es) = effect p (filter (kept rs) rs) (c0 p).
Proof.
  intros Hs [Hcom _] Hn Hxs Hes Hch. set (E := tagged (redo_img p) rs ++ tagged (undo_img p) es).
  assert (Hw : without xs E = tagged (redo_img p) (filter (kept rs) rs)).
  { unfold E. rewrite without_app, !without_tagged.
    assert (He : tagged (undo_img p) (filter (λ r, tag r ∉ xs) es) = []).
    { apply elem_of_nil_inv. intros [y i] (r & [Hr Hin]%list_elem_of_filter & <- & Hi)%elem_of_tagged.
      apply Hr, Hxs. rewrite (undo_img_tag _ _ _ Hi). by apply Hes. }
    rewrite He, app_nil_r. f_equal. apply list_filter_iff. intros r. unfold kept. by rewrite Hxs. }
  transitivity (foldl patch (c0 p) E.*2).
  { unfold E, effect. by rewrite fmap_app, !tagged_snd, foldl_app. }
  rewrite (remove_txns xs); [rewrite Hw; unfold effect; by rewrite tagged_snd|done| |].
  - intros x Hx%Hxs. apply yields_app.
    + eapply yields_tagged; [by apply sorted_lsn|]. intros r r' i j c Hr Hr' Hlt <- Hne Hi Hj.
      eapply (Hcom p r r'); eauto using in_redo_images.
    + eapply yields_tagged; [apply sorted_any|]. intros r r' i j c Hr Hr' _ <- Hne Hi Hj.
      destruct (Hes _ Hr), (Hes _ Hr'). eapply (Hcom p r r'); eauto using in_undo_images.
      right. by rewrite (undo_img_tag _ _ _ Hj).
    + intros i z j c (r & Hr & <- & Hi)%elem_of_tagged (r' & Hr' & <- & Hj)%elem_of_tagged Hne.
      destruct (Hes _ Hr'). eapply (Hcom p r r'); eauto using in_redo_images, in_undo_images.
      right. by rewrite (undo_img_tag _ _ _ Hj).
  - intros x d Hx%Hxs Hd. destruct (Hch x Hx) as (fs & cs & rem & Hb & Hv & Hr). unfold E.
    rewrite (loser_images p rs x fs cs rem es (proj1 Hx) Hb Hv). apply lifo.
    rewrite Hd, Hw, tagged_snd. exact Hr.
Qed.
End isolated.

(** ** The chains of the losers and the heap recovery builds *)

(** A loser with the chain recovery will visit. *)
Definition planned (rs : list LogRecord) (x : N) (v : list LogRecord) : Prop :=
  ∃ fs cs rem, backed rs x fs cs rem ∧ v = visits fs cs rem.

Lemma list_choice {A B} (P : A → B → Prop) (xs : list A) : (∀ x, x ∈ xs → ∃ v, P x v) →
  ∃ tds : list (A * B), tds.*1 = xs ∧ ∀ x v, (x, v) ∈ tds → P x v.
Proof.
  induction xs as [|x xs IH]; intros Hx; [by exists []; split; [done|]; intros ? ? ?%elem_of_nil|].
  destruct (Hx x ltac:(by left)) as [v Hv]. destruct IH as (tds & <- & Ht); [intros; apply Hx; by right|].
  exists ((x, v) :: tds). split; [done|]. intros y u [?|?]%elem_of_cons; [by simplify_eq|auto].
Qed.

Lemma records_of_in x rs r : r ∈ records_of x rs ↔ txn_id r = x ∧ r ∈ rs.
Proof. unfold records_of. by rewrite list_elem_of_filter. Qed.

Lemma planned_chain rs x v : planned rs x v → linked rs v ∧ Forall (λ r, txn_id r = x) v.
Proof.
  intros (fs & cs & rem & [Hs Hf Hc Hl] & ->).
  assert (Hin : ∀ r, r ∈ fs ++ cs → txn_id r = x ∧ r ∈ rs) by (intros r; rewrite <- Hs; apply records_of_in).
  unfold visits. destruct (last cs) as [c|] eqn:Hlast.
  - assert (Hcin : c ∈ cs) by (by apply last_Some_elem_of). split.
    + eapply comp_last_linked; [done|done| |done]. intros; apply Hin; set_solver.
    + constructor; [apply Hin; set_solver|]. apply Forall_forall. intros r Hr.
      apply (comp_rem_sub _ _ _ Hc), elem_of_reverse in Hr. apply Hin. set_solver.
  - split; [done|]. apply Forall_forall. intros r Hr%elem_of_reverse. apply Hin. set_solver.
Qed.

Lemma planned_length rs x v : planned rs x v → (length v ≤ length (records_of x rs))%nat.
Proof.
  intros (fs & cs & rem & [Hs Hf Hc Hl] & ->). rewrite Hs, length_app. unfold visits.
  apply comp_length in Hc. rewrite length_reverse in Hc. destruct (last cs) eqn:Hlast.
  - rewrite decide_False in Hc by (intros ->; done). cbn [length]. lia.
  - rewrite length_reverse. lia.
Qed.

(** The head of the chain is the transaction's last record. *)
Lemma planned_head rs x v : loser rs x → planned rs x v →
  ∃ r v', v = r :: v' ∧ txn_last (analysis_of rs) !! x = Some (lsn r).
Proof.
  intros (Hx & Hin & _) (fs & cs & rem & [Hs Hf Hc Hl] & ->). rewrite analysis_last, decide_False, Hs by done.
  unfold visits. destruct (last cs) as [c|] eqn:Hlast.
  - exists c, rem. split; [done|]. by rewrite last_app, Hlast.
  - apply last_None in Hlast as ->. rewrite app_nil_r in *.
    destruct fs as [|f fs _] using rev_ind; [by apply records_of_nil in Hs|].
    exists f, (reverse fs). by rewrite reverse_snoc, last_snoc.
Qed.

Lemma heap_of_chains rs (tds : Chains) : (∀ x v, (x, v) ∈ tds → planned rs x v ∧ loser rs x) →
  (∀ r, r ∈ rs → lsn r ≠ 0) → ∀ h,
  foldl (λ h x, match txn_last (analysis_of rs) !! x with Some l => push_nonzero l h | None => h end) h tds.*1
    ≡ₚ heads tds ++ h.
Proof.
  intros Htd Hnz. induction tds as [|[x v] tds IH]; intros h; [done|].
  destruct (Htd x v ltac:(by left)) as [Hp Hl]. destruct (planned_head rs x v Hl Hp) as (r & v' & -> & Hlast).
  rewrite heads_cons, fmap_cons. cbn [foldl fst]. rewrite Hlast, IH by (intros; apply Htd; by right).
  destruct (planned_chain _ _ _ Hp) as [(Hr & _) _]. unfold push_nonzero.
  destruct (N.eqb_spec (lsn r) 0); [by destruct (Hnz r Hr)|]. cbn [negb]. unfold heap_push.
  by rewrite <- Permutation_middle.
Qed.

Lemma records_partition xs : NoDup xs → ∀ rs,
  (sum_list ((λ x, length (records_of x rs)) <$> xs) ≤ length rs)%nat.
Proof.
  induction 1 as [|x xs Hx Hn IH]; intros rs; [cbn; lia|]. csimpl.
  specialize (IH (filter (λ r, txn_id r ≠ x) rs)).
  assert (Hsplit : (length (records_of x rs) + length (filter (λ r, txn_id r ≠ x) rs) = length rs)%nat).
  { clear. unfold records_of. induction rs as [|r rs IH]; [done|]. rewrite !filter_cons. repeat case_decide; cbn [length]; try done; lia. }
  replace ((λ x, length (records_of x rs)) <$> xs)
    with ((λ y, length (records_of y (filter (λ r, txn_id r ≠ x) rs))) <$> xs); [lia|].
  apply list_fmap_ext. intros i y Hy%list_elem_of_lookup_2. f_equal. unfold records_of. rewrite list_filter_filter.
  apply list_filter_iff. intros r. naive_solver.
Qed.

Lemma total_of_chains rs (tds : Chains) : NoDup tds.*1 → (∀ x v, (x, v) ∈ tds → planned rs x v) →
  (total tds ≤ length rs)%nat.
Proof.
  intros Hn Hp. etrans; [|by apply (records_partition tds.*1)]. clear Hn. unfold total.
  induction tds as [|[x v] tds IH]; [done|]. csimpl.
  pose proof (planned_length _ _ _ (Hp x v ltac:(by left))). specialize (IH ltac:(intros; apply Hp; by right)). lia.
Qed.

(** ** The theorem *)
Section recovery.
Context `{Crc32c} {S : Type} `{!LogSink S} `{!LogSinkSpec S} `{!ReliableSink S}.
Context {T : Type} `{!ApplyTarget T} `{!PagesSpec T} `{HashOrder}.

Lemma rest_outcome img base rs rest probe : log_ok img base rs rest →
  tail_outcome img probe (if decide (rest = []) then None else Some (base + flat_len rs))
    = if decide (rest = []) then Complete else TornTail.
Proof.
  intros Hlog. destruct (decide (rest = [])) as [|Hne]; [done|]. cbn [tail_outcome]. destruct probe; [|done].
  by rewrite (lo_tail _ _ _ _ Hlog Hne).
Qed.

(** A scan of the log visits its records in order. *)
Lemma scan_log {A} img base rs rest (read : N → N → Outcome bytes) window probe (f : LogRecordRef → N → St A unit) s :
  log_ok img base rs rest → (∀ from to, read from to = Ok (cut from to img)) → 4 ≤ window ≤ 2 ^ 62 →
  scan_forward read (blen img) window probe f base s
    = Some ((_ ← each f (entry <$> rs); mret (if decide (rest = []) then Complete else TornTail)) s).
Proof.
  intros Hlog Hread Hw. rewrite (scan_forward_eq img) by (done || lia || apply Hlog).
  unfold ref_scan. rewrite (log_records_holds img base rs rest (lo_holds _ _ _ _ Hlog) (lo_rest _ _ _ _ Hlog)).
  by rewrite (rest_outcome img base rs rest).
Qed.

(** The scan of a pass: from the first record, if there is one. *)
Lemma scan_from_first {A} img base rs rest (read : N → N → Outcome bytes) window probe (f : LogRecordRef → N → St A unit) s :
  log_ok img base rs rest → (∀ from to, read from to = Ok (cut from to img)) → 4 ≤ window ≤ 2 ^ 62 →
  match (if base <? blen img then Some base else None) with
  | None => Some (Ok Complete, s)
  | Some start => scan_forward read (blen img) window probe f start s
  end = Some ((_ ← each f (entry <$> rs); mret (if decide (rest = []) then Complete else TornTail)) s).
Proof.
  intros Hlog Hread Hw. destruct (N.ltb_spec base (blen img)) as [Hlt|Hge]; [by apply (scan_log img base rs rest)|].
  pose proof (holds_len _ _ _ _ (lo_holds _ _ _ _ Hlog)) as Hlen.
  assert (Hr0 : rest = []) by (apply nil_length_inv; unfold blen in *; lia).
  assert (Hf0 : flat_len rs = 0) by lia. destruct rs as [|r rs'].
  - by rewrite decide_True by done.
  - rewrite flat_len_cons in Hf0. pose proof (encoded_len_pos r). unfold MIN_RECORD_LEN, REC_FIXED_PREFIX in *. lia.
Qed.

(** The records recovery appends. *)
Lemma write_ends_wrote xs : ∀ w, sink_ok (sink w) → faultless (sink w) →
  ∃ w', write_ends xs w = (Ok tt, w') ∧ wrote w (ends_from (Wal.next_lsn w) xs) w'.
Proof.
  induction xs as [|x xs IH]; intros w Hs Hg.
  { exists w. split; [done|]. by apply wrote_refl. }
  destruct (append_wrote w (Rec.new Abort x 0) Hs Hg) as (w1 & Happ & Hw1).
  destruct (IH w1 (wr_ok _ _ _ Hw1) (wr_good _ _ _ Hw1)) as (w' & Hrun & Hw').
  exists w'. split.
  - cbn [write_ends]. unfold mbind, St_bind, Wal.write_end. by rewrite Happ.
  - cbn [ends_from]. change (?a :: ?b) with ([a] ++ b). eapply wrote_trans; [exact Hw1|].
    rewrite (wrote_next _ _ _ Hs Hw1), flat_len_cons in Hw'.
    change (flat_len []) with 0 in Hw'. by rewrite N.add_0_r in Hw'.
Qed.

Lemma clrs_laid_out es : ∀ a, (∀ r, r ∈ es → record_ok r) → a + flat_len (clrs_from a es) ≤ 2 ^ 62 →
  laid_out a (clrs_from a es).
Proof.
  induction es as [|r es IH]; intros a Hok Ha; [done|]. cbn [clrs_from] in *.
  assert (Hes : ∀ r, r ∈ es → record_ok r) by (intros; apply Hok; by right).
  destruct (is_undoable_action (rec_type r)); [|by apply IH].
  rewrite flat_len_cons in Ha. destruct (Hok r ltac:(by left)) as [Hl Hp Ht Hpg Hn Hlen].
  change (2 ^ 62) with 4611686018427387904 in *. cbn [laid_out]. split_and!; [done| |apply IH; [done|lia]].
  split; cbn [clr_at lsn prev_lsn txn_id page_id undo_next_lsn].
  - unfold u64_max. lia.
  - exact Hl.
  - exact Ht.
  - exact Hpg.
  - exact Hp.
  - unfold Rec.encoded_len in *. cbn [clr_at redo undo length] in *. lia.
Qed.

Lemma ends_laid_out xs : ∀ a, (∀ x, x ∈ xs → x ≤ u64_max) → a + flat_len (ends_from a xs) ≤ 2 ^ 62 →
  laid_out a (ends_from a xs).
Proof.
  induction xs as [|x xs IH]; intros a Hx Ha; [done|]. cbn [ends_from] in *. rewrite flat_len_cons in Ha.
  change (2 ^ 62) with 4611686018427387904 in *. cbn [laid_out].
  split_and!; [done| |apply IH; [intros; apply Hx; by right|lia]].
  split; cbn [lsn prev_lsn txn_id page_id undo_next_lsn]; [| |apply Hx; by left|..]; try (unfold u64_max; lia).
  unfold Rec.encoded_len, REC_FIXED_PREFIX, u32_max. cbn [redo undo length]. lia.
Qed.

Lemma clrs_images p a es : omap (redo_img p) (clrs_from a es) = omap (undo_img p) es.
Proof.
  revert a. induction es as [|r es IH]; intros a; [done|]. cbn [clrs_from omap list_omap]. unfold undo_img at 1.
  destruct (is_undoable_action (rec_type r)) eqn:Hu; cbn [andb]; [|apply IH].
  cbn [omap list_omap]. rewrite IH. done.
Qed.

Lemma ends_images p a xs : omap (redo_img p) (ends_from a xs) = [].
Proof. revert a. induction xs as [|x xs IH]; intros a; [done|]. cbn [ends_from omap list_omap]. apply IH. Qed.

Lemma clrs_txns a es r : r ∈ clrs_from a es → ∃ r', r' ∈ es ∧ txn_id r = txn_id r'.
Proof.
  revert a. induction es as [|e es IH]; intros a; cbn [clrs_from]; [by intros ?%elem_of_nil|]. case_match.
  - intros [->|Hr]%elem_of_cons; [exists e; split; [by left|done]|]. destruct (IH _ Hr) as (r' & ? & ?). exists r'. split; [by right|done].
  - intros Hr. destruct (IH _ Hr) as (r' & ? & ?). exists r'. split; [by right|done].
Qed.

Lemma ends_txns a xs r : r ∈ ends_from a xs → txn_id r ∈ xs.
Proof.
  revert a. induction xs as [|x xs IH]; intros a; cbn [ends_from]; [by intros ?%elem_of_nil|].
  intros [->|Hr]%elem_of_cons; [by left|]. right. eauto.
Qed.

Lemma ends_finish a xs x : x ∈ xs → has_record Abort (ends_from a xs) x = true.
Proof.
  revert a. induction xs as [|y xs IH]; intros a; [by intros ?%elem_of_nil|]. cbn [ends_from].
  unfold has_record in *. cbn [existsb txn_id rec_type]. intros [->|Hx]%elem_of_cons.
  - by rewrite N.eqb_refl.
  - rewrite IH by done. apply orb_true_r.
Qed.

(** Recovery's own records leave no loser. *)
Lemma no_losers_left rs new xs a : (∀ x, x ∈ xs ↔ loser rs x) →
  (∀ r, r ∈ new → loser rs (txn_id r)) → ∀ x, ¬ loser (rs ++ new ++ ends_from a xs) x.
Proof.
  intros Hxs Hnew x (Hx0 & Hin & Hc & Ha). unfold has_record in Hc, Ha. rewrite !existsb_app, !orb_false_iff in *.
  destruct Hc as (Hc & _), Ha as (Ha & _ & He).
  assert (Hl : loser rs x).
  { rewrite !fmap_app, !elem_of_app in Hin. destruct Hin as [Hin|[Hin|Hin]]; [by split_and!| |].
    - apply list_elem_of_fmap in Hin as (r & -> & Hr). auto.
    - apply list_elem_of_fmap in Hin as (r & -> & Hr%ends_txns). by apply Hxs. }
  apply Hxs, (ends_finish a) in Hl. unfold has_record in Hl. congruence.
Qed.

(** The undo phase: the losers' chains are visited, their compensation and [END]
    records appended and hardened. *)
Lemma undo_phase (Q : N → list LogRecord → Prop) img base rs rest w t : log_ok img base rs rest → HEADER_LEN ≤ base →
  sink_ok (sink w) → faultless (sink w) → image (sink w) = img →
  target_ok t → (∀ p r i, r ∈ rs → i ∈ images p r → image_ok p i) →
  (∀ x, loser rs x → ∃ v, Q x v) → (∀ x v, Q x v → planned rs x v) →
  ∃ tds es w' t',
    undo_loop (Datatypes.S (N.to_nat (blen img))) base
      (foldl (λ h x, match txn_last (analysis_of rs) !! x with Some l => push_nonzero l h | None => h end) []
        (losers_of rs)) (w, t, O) = Some (Ok tt, (w', t', count_undoable es))
    ∧ tds.*1 = losers_of rs ∧ (∀ x v, (x, v) ∈ tds → Q x v) ∧ undone rs tds w t es w' t'.
Proof.
  intros Hlog Hb Hs Hg Hi Ht Himg Hp HQ. pose proof (lo_holds _ _ _ _ Hlog) as Hh.
  destruct (list_choice Q (losers_of rs)) as (tds & Hfst & Htd).
  { intros x Hx%elem_of_losers. auto. }
  assert (Hl : ∀ x v, (x, v) ∈ tds → planned rs x v ∧ loser rs x).
  { intros x v Hin. split; [auto|]. apply elem_of_losers. rewrite <- Hfst. by apply (list_elem_of_fmap_2 fst _ (x, v)). }
  assert (Hn : NoDup tds.*1) by (rewrite Hfst; apply losers_nodup).
  assert (Hnz : ∀ r, r ∈ rs → lsn r ≠ 0).
  { intros r Hr. pose proof (laid_out_lsn base rs r (proj1 Hh) Hr). unfold HEADER_LEN in Hb. lia. }
  destruct (undo_loop_spec img base rs rest Hh (lo_len _ _ _ _ Hlog) Hb ltac:(eauto using in_undo_images) (Datatypes.S (N.to_nat (blen img)))
    (foldl (λ h x, match txn_last (analysis_of rs) !! x with Some l => push_nonzero l h | None => h end) [] tds.*1)
    tds w t O) as (es & w' & t' & Hrun & Hun); [| |..|done|done|done|done|].
  - rewrite (heap_of_chains rs tds Hl Hnz). by rewrite app_nil_r.
  - split; [done|]. intros x v Hin. by apply planned_chain, HQ, Htd.
  - pose proof (total_of_chains rs tds Hn ltac:(auto)). pose proof (holds_len _ _ _ _ Hh) as Hlen.
    assert (N.of_nat (length rs) ≤ flat_len rs); [|lia].
    clear. induction rs as [|r rs IH]; [unfold flat_len; cbn; lia|]. rewrite flat_len_cons. cbn [length].
    pose proof (encoded_len_pos r). unfold MIN_RECORD_LEN, REC_FIXED_PREFIX in *. lia.
  - exists tds, es, w', t'. rewrite <- Hfst. done.
Qed.

(** What recovery leaves. *)
Record recovered (base : N) (rs : list LogRecord) (rest : bytes) (c0 : PageId → Content) (w : WalManager S)
    (rep : RecoveryReport) (new : list LogRecord) (w' : WalManager S) (t' : T) : Prop := {
  rc_target : target_ok t';
  rc_content p : content p t' = effect p (filter (kept rs) rs) (c0 p);
  rc_log p : effect p (rs ++ new) (c0 p) = effect p (filter (kept rs) rs) (c0 p);
  rc_finished x : ¬ loser (rs ++ new) x;
  rc_nothing : (∀ x, ¬ loser rs x) → new = [];
  rc_laid : rest = [] → unsynced (sink w) = [] → blen (image (sink w')) ≤ 2 ^ 62 → laid_out base (rs ++ new);
  rc_image : image (sink w') = image (sink w) ++ unsynced (sink w) ++ flat new;
  rc_synced : unsynced (sink w') = [];
  rc_active : active w' = active w;
  rc_sink : sink_ok (sink w') ∧ faultless (sink w');
  rc_floor : sk_reclaimed_floor (sink w') = sk_reclaimed_floor (sink w);
  rc_scanned : rep_records_scanned rep = length rs;
  rc_losers : rep_losers rep = length (losers_of rs);
  rc_truncated : rep_tail_truncated rep = bool_decide (rest ≠ []);
}.

Lemma finish_phase base rs rest c0 w t1 tds es w1 t2 rep :
  holds (image (sink w)) base rs rest → isolated rs c0 → sink_ok (sink w) →
  (∀ p, content p t1 = effect p rs (c0 p)) →
  tds.*1 = losers_of rs → (∀ x v, (x, v) ∈ tds → ∃ fs cs rem, v = visits fs cs rem ∧ backed rs x fs cs rem
    ∧ ∀ p, reversible p (effect p (filter (kept rs) rs) (c0 p)) (filter (λ r, ¬ redo_only r) fs)) →
  undone rs tds w t1 es w1 t2 →
  rep_records_scanned rep = length rs → rep_losers rep = length (losers_of rs) →
  rep_tail_truncated rep = bool_decide (rest ≠ []) →
  ∃ new w', (_ ← write_ends (losers_of rs); Wal.flush) w1 = (Ok tt, w') ∧ recovered base rs rest c0 w rep new w' t2.
Proof.
  intros Hh Hiso Hs Hc1 Hfst Hch [Hw Ht2 Hc2 Hv Ho Hin _ _] Hr1 Hr2 Hr3.
  destruct (write_ends_wrote (losers_of rs) w1 (wr_ok _ _ _ Hw) (wr_good _ _ _ Hw)) as (w2 & Hends & Hw2).
  destruct (harden_wrote w2 (wr_ok _ _ _ Hw2) (wr_good _ _ _ Hw2)) as (w3 & Hflush & Ho3 & Hg3 & Hi3 & Hu3 & Hf3 & Ha3).
  pose proof (laid_out_sorted _ _ (proj1 Hh)) as Hsort.
  set (clrs := clrs_from (Wal.next_lsn w) es) in *. set (ends := ends_from (Wal.next_lsn w1) (losers_of rs)) in *.
  assert (Hes : ∀ r, r ∈ es → r ∈ rs ∧ loser rs (txn_id r)).
  { intros r Hr. split; [auto|]. apply elem_of_losers. rewrite <- Hfst. auto. }
  assert (Hdone : ∀ p, foldl patch (effect p rs (c0 p)) (omap (undo_img p) es) = effect p (filter (kept rs) rs) (c0 p)).
  { intros p. eapply (undo_removes_losers p rs c0 es (losers_of rs)); [done|done|apply losers_nodup|apply elem_of_losers|done|].
    intros x Hx%elem_of_losers. rewrite <- Hfst in Hx. apply list_elem_of_fmap in Hx as ([x' v] & -> & Hxv).
    destruct (Hch _ _ Hxv) as (fs & cs & rem & -> & Hb & Hrev). exists fs, cs, rem. split_and!; [done| |done].
    by apply Hv. }
  assert (Himg : image (sink w3) = image (sink w) ++ unsynced (sink w) ++ flat (clrs ++ ends)).
  { rewrite Hi3, (wr_image _ _ _ Hw2), (wr_bytes _ _ _ Hw2), (wr_image _ _ _ Hw), (wr_bytes _ _ _ Hw), flat_app.
    by rewrite <- !app_assoc. }
  exists (clrs ++ ends), w3. split; [unfold mbind, St_bind; by rewrite Hends|]. split; try done.
  - intros p. by rewrite Hc2, Hc1.
  - intros p. rewrite effect_app, <- Hdone. unfold clrs, ends.
    by rewrite <- (clrs_images p (Wal.next_lsn w)), <- (app_nil_r (omap _ _)), <- (ends_images p (Wal.next_lsn w1) (losers_of rs)), <- omap_app.
  - apply no_losers_left; [apply elem_of_losers|]. intros r (r' & Hr' & ->)%clrs_txns. by apply Hes.
  - intros Hno. unfold clrs, ends.
    assert (losers_of rs = []) as -> by (apply elem_of_nil_inv; intros x Hx%elem_of_losers; by apply (Hno x)).
    assert (es = []) as -> by (apply elem_of_nil_inv; intros r Hr; by apply (Hno (txn_id r)), Hes). done.
  - intros -> Hu Hlen. apply laid_out_app. split; [apply Hh|]. rewrite Himg, Hu, !app_nil_l in Hlen.
    unfold blen in Hlen. rewrite length_app, Nat2N.inj_add in Hlen. change (N.of_nat (length (flat ?l))) with (flat_len l) in Hlen.
    pose proof (holds_len _ _ _ _ Hh) as Hl. change (blen []) with 0 in Hl.
    assert (Hn : Wal.next_lsn w = base + flat_len rs).
    { unfold Wal.next_lsn. rewrite buffered_len_image, Hu by done. change (blen []) with 0. lia. }
    assert (Hn1 : Wal.next_lsn w1 = base + flat_len rs + flat_len clrs) by (by rewrite (wrote_next _ _ _ Hs Hw), Hn).
    unfold blen in Hl. rewrite flat_len_app in Hlen. apply laid_out_app. split.
    + unfold clrs. rewrite Hn. apply clrs_laid_out; [|unfold clrs in Hlen; rewrite Hn in Hlen; lia].
      intros r Hr. eapply laid_out_ok; [apply Hh|by apply Hes].
    + unfold ends. rewrite Hn1. apply ends_laid_out; [|unfold ends in Hlen; rewrite Hn1 in Hlen; lia].
      intros x (_ & (r & -> & Hr)%list_elem_of_fmap & _)%elem_of_losers. eapply ok_txn, laid_out_ok; [apply Hh|done].
  - by rewrite Ha3, (wr_active _ _ _ Hw2), (wr_active _ _ _ Hw).
  - by rewrite Hf3, (wr_floor _ _ _ Hw2), (wr_floor _ _ _ Hw).
Qed.

Lemma recover_spec (w : WalManager S) (t : T) (scan_start : Lsn) (window : N) rs rest c0 :
  sink_ok (sink w) → faultless (sink w) → 4 ≤ window ≤ 2 ^ 62 →
  log_ok (image (sink w)) (N.max (N.max scan_start HEADER_LEN) (sk_reclaimed_floor (sink w))) rs rest →
  on_disk rs (redo_start_of (analysis_of rs)) c0 t → isolated rs c0 →
  ∃ rep new w' t', recover_from_windowed scan_start window (w, t) = Some (Ok rep, (w', t'))
    ∧ recovered (N.max (N.max scan_start HEADER_LEN) (sk_reclaimed_floor (sink w))) rs rest c0 w rep new w' t'.
Proof.
  intros Hs Hg Hwin Hlog Hdisk Hiso. set (base := N.max _ _) in *. set (img := image (sink w)) in *.
  assert (Hbase : HEADER_LEN ≤ base) by lia.
  pose proof (lo_holds _ _ _ _ Hlog) as Hh. pose proof (laid_out_sorted _ _ (proj1 Hh)) as Hsort.
  assert (Hread : ∀ from to, sk_read_bounded from to (sink w) = Ok (cut from to img)) by (intros; by apply faultless_read_eq).
  assert (Hdl : Wal.durable_len w = blen img) by (by apply durable_len_image).
  unfold recover_from_windowed. fold base. rewrite Hdl.
  rewrite (find_first_spec img) by (done || lia || apply Hlog).
  assert (Hscan := λ A probe f s, scan_from_first (A := A) img base rs rest _ window probe f s Hlog Hread Hwin).
  assert (Hfloor : match (if base <? blen img then Some base else None) with Some s => s | None => base end = base) by (by destruct (base <? blen img)).
  destruct (redo_repeats_history (redo_start_of (analysis_of rs)) rs c0 t 0 Hsort) as (t1 & n1 & Hredo & Ht1 & Hc1); [|done|].
  { apply Forall_forall. intros r Hr. eapply ok_lsn, laid_out_ok; [apply Hh|done]. }
  destruct (undo_phase (λ x v, ∃ fs cs rem, v = visits fs cs rem ∧ backed rs x fs cs rem
    ∧ ∀ p, reversible p (effect p (filter (kept rs) rs) (c0 p)) (filter (λ r, ¬ redo_only r) fs)) img base rs rest w t1 Hlog Hbase Hs Hg eq_refl Ht1 (od_images _ _ _ _ Hdisk)) as (tds & es & w1 & t2 & Hundo & Hfst & Hplan & Hun).
  { intros x Hx. destruct (iso_loser _ _ Hiso x Hx) as (fs & cs & rem & Hb & Hrev). by exists (visits fs cs rem), fs, cs, rem. }
  { intros x v (fs & cs & rem & -> & Hb & _). by exists fs, cs, rem. }
  set (rep := mkReport (length rs) (redo_start_of (analysis_of rs)) n1 (length (losers_of rs)) (count_undoable es)
    (bool_decide (rest ≠ []))).
  destruct (finish_phase base rs rest c0 w t1 tds es w1 t2 rep Hh Hiso Hs Hc1 Hfst) as (new & w2 & Hfin & Hrec); [done..|].
  exists rep, new, w2, t2. split; [|done].
  rewrite (Hscan _ true analyse), Hfloor. unfold mbind at 1, St_bind at 1. rewrite each_analyse. fold (analysis_of rs).
  destruct (decide (rest = [])) as [Hrest|Hrest].
  all: unfold mret, St_ret; cbn beta iota.
  all: rewrite (Hscan _ false (redo_one (redo_start_of (analysis_of rs)))).
  all: unfold mbind at 1, St_bind at 1; rewrite Hredo; unfold mret, St_ret; cbn beta iota.
  all: fold (losers_of rs); rewrite Hundo; cbn beta iota; rewrite Hfin, analysis_scanned; unfold rep.
  - by rewrite bool_decide_eq_false_2 by naive_solver.
  - by rewrite bool_decide_eq_true_2.
Qed.


Lemma holds_starts_ok img a r rs rest : holds img a (r :: rs) rest → starts_ok img (blen img) a.
Proof. intros Hh. right. right. eexists _, _. by apply (holds_cons _ _ _ _ _ Hh). Qed.

Lemma appended_log_ok img base rs new : log_ok img base rs [] → laid_out base (rs ++ new) →
  blen (img ++ flat new) ≤ 2 ^ 62 → log_ok (img ++ flat new) base (rs ++ new) [].
Proof.
  intros [Hh Hlen _ _ Hst] Hlay Hlen'.
  assert (Hh' : holds (img ++ flat new) base (rs ++ new) []).
  { destruct Hh as (_ & Hb & Hat). split_and!; [done|unfold blen in *; rewrite length_app; lia|].
    unfold at_ in *. rewrite drop_app_le by (unfold blen in *; lia). by rewrite Hat, !app_nil_r, flat_app. }
  split; [done|done|by left|done|]. destruct (rs ++ new) as [|r l] eqn:He; [|by eapply holds_starts_ok].
  left. pose proof (holds_len _ _ _ _ Hh') as Hl. change (flat_len []) with 0 in Hl. change (blen []) with 0 in Hl. lia.
Qed.

Lemma isolated_finished rs c0 : (∀ x, ¬ loser rs x) → isolated rs c0.
Proof.
  intros Hno. split.
  - intros p r r' i j c _ _ Hl. by destruct (Hno _ Hl).
  - intros x Hl. by destruct (Hno _ Hl).
Qed.

(** C26: Recovery is repeatable. Let a log with an intact tail be recovered on a sink
    without faults, from pages on which redo catches up and with losers isolated as in
    [recovery_correct], and then let a crash lose page writes, so that the pages are again
    such that redo, started where the analysis of the grown log says, catches up on each of
    them. As long as the log has at most [2^62] bytes, a second recovery, with any window
    between 4 and [2^62] bytes, succeeds and gives the same pages, without a loser and
    without writing to the log. *)
Theorem recovery_repeatable (w : WalManager S) (t : T) (scan_start : Lsn) rs c0 :
  sink_ok (sink w) → faultless (sink w) → unsynced (sink w) = [] →
  log_ok (image (sink w)) (N.max (N.max scan_start HEADER_LEN) (sk_reclaimed_floor (sink w))) rs [] →
  on_disk rs (redo_start_of (analysis_of rs)) c0 t → isolated rs c0 →
  ∃ rep new w' t', recover_from scan_start (w, t) = Some (Ok rep, (w', t'))
    ∧ (blen (image (sink w')) ≤ 2 ^ 62 → ∀ window t2, 4 ≤ window ≤ 2 ^ 62 →
       on_disk (rs ++ new) (redo_start_of (analysis_of (rs ++ new))) c0 t2 →
       ∃ rep2 w2 t3, recover_from_windowed scan_start window (w', t2) = Some (Ok rep2, (w2, t3))
         ∧ (∀ p, content p t3 = content p t') ∧ image (sink w2) = image (sink w')
         ∧ rep_losers rep2 = O ∧ rep_tail_truncated rep2 = false).
Proof.
  intros Hs Hg Hu Hlog Hd Hi.
  destruct (recover_spec w t scan_start RECOVERY_WINDOW_BYTES rs [] c0 Hs Hg ltac:(done) Hlog Hd Hi)
    as (rep & new & w' & t' & Hrun & Hrec).
  exists rep, new, w', t'. split; [exact Hrun|]. intros Hlen window t2 Hwin Hd2.
  pose proof (rc_laid _ _ _ _ _ _ _ _ _ Hrec eq_refl Hu Hlen) as Hlay.
  pose proof (rc_image _ _ _ _ _ _ _ _ _ Hrec) as Himg. rewrite Hu, app_nil_l in Himg.
  destruct (rc_sink _ _ _ _ _ _ _ _ _ Hrec) as [Hs' Hg'].
  destruct (recover_spec w' t2 scan_start window (rs ++ new) [] c0 Hs' Hg' Hwin) as (rep2 & new2 & w2 & t3 & Hrun2 & Hrec2).
  { rewrite (rc_floor _ _ _ _ _ _ _ _ _ Hrec), Himg. apply appended_log_ok; [done|done|]. by rewrite <- Himg. }
  { done. }
  { apply isolated_finished, Hrec. }
  assert (Hnil : losers_of (rs ++ new) = []).
  { apply elem_of_nil_inv. intros x Hx%elem_of_losers. by apply (rc_finished _ _ _ _ _ _ _ _ _ Hrec x). }
  exists rep2, w2, t3. split_and!; [done| | | |by apply Hrec2].
  - intros p. rewrite (rc_content _ _ _ _ _ _ _ _ _ Hrec2), (rc_content _ _ _ _ _ _ _ _ _ Hrec), <- (rc_log _ _ _ _ _ _ _ _ _ Hrec).
    f_equal. apply filter_all, Forall_forall. intros r _. apply Hrec.
  - rewrite (rc_image _ _ _ _ _ _ _ _ _ Hrec2), (rc_synced _ _ _ _ _ _ _ _ _ Hrec).
    rewrite (rc_nothing _ _ _ _ _ _ _ _ _ Hrec2) by apply Hrec. apply app_nil_r.
  - by rewrite (rc_losers _ _ _ _ _ _ _ _ _ Hrec2), Hnil.
Qed.

(** C27: The window through which recovery reads the log does not matter, if the scan does
    not start inside zeros: on a faultless sink with at most [2^62] bytes, whose byte at the
    start of the scan, if any, is not zero or starts a whole record, any two windows between
    4 and [2^62] bytes give the same result, report, log and pages, with intact or torn or
    corrupted records in the log. *)
Theorem recovery_window_independent (w : WalManager S) (t : T) scan_start window window' :
  sink_ok (sink w) → faultless (sink w) → blen (image (sink w)) ≤ 2 ^ 62 →
  starts_ok (image (sink w)) (blen (image (sink w))) (N.max (N.max scan_start HEADER_LEN) (sk_reclaimed_floor (sink w))) →
  4 ≤ window ≤ 2 ^ 62 → 4 ≤ window' ≤ 2 ^ 62 →
  recover_from_windowed scan_start window (w, t) = recover_from_windowed scan_start window' (w, t).
Proof.
  intros Hs Hg Hlen Hst Hw Hw'. unfold recover_from_windowed.
  assert (Hread : ∀ from to, sk_read_bounded from to (sink w) = Ok (cut from to (image (sink w)))) by (intros; by apply faultless_read_eq).
  assert (Hdl : Wal.durable_len w = blen (image (sink w))) by (by apply durable_len_image).
  rewrite Hdl, !(find_first_spec (image (sink w))) by (done || lia).
  destruct (_ <? _); [|done].
  rewrite !(scan_forward_eq (image (sink w))) by (done || lia).
  destruct (ref_scan _ analyse true _ _) as [[[]| |] a]; try done.
  all: rewrite !(scan_forward_eq (image (sink w))) by (done || lia); done.
Qed.
End recovery.
