(* ===== verification/WalTrace.v ===== *)
(** * The log manager keeps the protocol

    The protocol: a log grows one record at a time, forward records of a transaction linked
    by their back-chain, compensation records newest first, one [Commit] or [Abort] at the
    end. It is closed under prefixes, so it holds of whatever a crash leaves.

    The invariant of a running manager: its bytes are the header and the records it
    wrote, these keep the protocol, and the table of active transactions describes
    exactly the unfinished ones, with their undo chains. Every operation keeps it. *)
From S2P Require Import Prelude Core Bytes WalRecord Checkpoint WalSink WalScan WalScanFacts Wal WalRecovery WalUndo WalEffects.
From stdpp Require Import options.

Definition unfinished (rs : list LogRecord) (x : N) : Prop :=
  has_record Commit rs x = false ∧ has_record Abort rs x = false.

(** The record [r] may follow the log [rs]. *)
Inductive next_ok (rs : list LogRecord) (r : LogRecord) : Prop :=
  | next_system : txn_id r = 0 → next_ok rs r
  | next_forward fs : unfinished rs (txn_id r) → backed rs (txn_id r) fs [] (reverse fs) →
      forward r → prev_lsn r = head_lsn (reverse fs) → next_ok rs r
  | next_clr fs cs sk u rem : unfinished rs (txn_id r) → backed rs (txn_id r) fs cs (sk ++ u :: rem) →
      Forall (λ s, undo s = []) sk → compensates r u → next_ok rs r
  | next_end : unfinished rs (txn_id r) → rec_type r = Commit ∨ rec_type r = Abort → next_ok rs r.

Section protocol.
Context `{Crc32c}.

Inductive protocol (a : N) : list LogRecord → Prop :=
  | protocol_nil : protocol a []
  | protocol_snoc rs r : protocol a rs → lsn r = a + flat_len rs → record_ok r → next_ok rs r →
      protocol a (rs ++ [r]).

Lemma protocol_snoc_inv a rs r : protocol a (rs ++ [r]) →
  protocol a rs ∧ lsn r = a + flat_len rs ∧ record_ok r ∧ next_ok rs r.
Proof.
  intros Hp. inversion Hp as [Hn|rs' r' Hrs Hl Hok Hn Heq]; [by destruct rs|].
  apply app_inj_tail in Heq as [-> ->]. done.
Qed.

Lemma protocol_prefix a rs rs' : protocol a (rs ++ rs') → protocol a rs.
Proof.
  induction rs' as [|r rs' IH] using rev_ind; [by rewrite app_nil_r|].
  rewrite app_assoc. intros [Hp _]%protocol_snoc_inv. auto.
Qed.

Lemma protocol_laid_out a rs : protocol a rs → laid_out a rs.
Proof. induction 1 as [|rs r _ IH Hl Hok _]; [done|]. apply laid_out_app. split; [done|]. done. Qed.

(** ** Growing a log keeps the chains of the others *)
Lemma records_of_snoc x rs r :
  records_of x (rs ++ [r]) = if decide (txn_id r = x) then records_of x rs ++ [r] else records_of x rs.
Proof.
  unfold records_of. rewrite filter_app, filter_cons, filter_nil. case_decide; [done|]. apply app_nil_r.
Qed.

Lemma linked_mono rs rs' v : (∀ r, r ∈ rs → r ∈ rs') → linked rs v → linked rs' v.
Proof. intros Hsub. induction v as [|r v IH]; [done|]. intros (Hr & Hn & Hlt & Hv). split_and!; auto. Qed.

Lemma backed_other rs r x fs cs rem : txn_id r ≠ x → backed rs x fs cs rem → backed (rs ++ [r]) x fs cs rem.
Proof.
  intros Hne [Hs Hf Hc Hl]. split; [|done|done|].
  - by rewrite records_of_snoc, decide_False.
  - eapply linked_mono; [|done]. set_solver.
Qed.

Lemma unfinished_snoc rs r x : unfinished (rs ++ [r]) x ↔
  unfinished rs x ∧ (txn_id r = x → rec_type r ≠ Commit ∧ rec_type r ≠ Abort).
Proof.
  unfold unfinished. rewrite !has_record_snoc, !orb_false_iff, !andb_false_iff, !bool_decide_eq_false, !N.eqb_neq.
  destruct (decide (txn_id r = x)); tauto.
Qed.

Lemma head_lsn_below a rs v l : laid_out a rs → linked rs v → 0 < l → a + flat_len rs ≤ l → head_lsn v < l.
Proof.
  intros Hlay Hl H0 Hle. destruct v as [|r v]; [done|]. destruct Hl as (Hr & _).
  pose proof (laid_out_lsn _ _ _ Hlay Hr). cbn [head_lsn]. lia.
Qed.

(** A forward record extends the chain. *)
Lemma backed_forward a rs r fs : 0 < a → laid_out a rs → lsn r = a + flat_len rs →
  backed rs (txn_id r) fs [] (reverse fs) → forward r → prev_lsn r = head_lsn (reverse fs) →
  backed (rs ++ [r]) (txn_id r) (fs ++ [r]) [] (reverse (fs ++ [r])).
Proof.
  intros Ha Hlay Hlsn [Hs Hf _ Hl] Hfw Hprev. rewrite app_nil_r in Hs. split.
  - by rewrite records_of_snoc, decide_True, Hs, app_nil_r.
  - apply Forall_app. split; [done|]. by constructor.
  - constructor.
  - rewrite reverse_snoc. cbn [linked]. split_and!; [set_solver| | |eapply linked_mono; [|done]; set_solver].
    + rewrite <- Hprev. unfold next_of. destruct Hfw as [Hclr _]. by destruct (rec_type r).
    + eapply head_lsn_below; [done|done|lia|lia].
Qed.

Lemma comp_skips vs sk cs u rem c : comp vs cs (sk ++ u :: rem) → Forall (λ s, undo s = []) sk → compensates c u →
  comp vs (cs ++ [c]) rem.
Proof.
  intros Hc Hsk Hcu. remember (sk ++ u :: rem) as rest eqn:Hrest.
  induction Hc as [vs|r vs cs rem' Hr Hne Hc IH|r vs c' cs rem' Hr Hc IH]; subst.
  - cbn [app]. induction Hsk as [|s sk Hs Hsk IH]; cbn [app]; [by constructor; [|constructor]|].
    by apply comp_skip.
  - apply comp_skip; [done|by destruct cs|by apply IH].
  - apply comp_clr; [done|by apply IH].
Qed.

(** A compensation record shortens what is left to undo. *)
Lemma backed_clr rs r fs cs sk u rem : backed rs (txn_id r) fs cs (sk ++ u :: rem) →
  Forall (λ s, undo s = []) sk → compensates r u → backed (rs ++ [r]) (txn_id r) fs (cs ++ [r]) rem.
Proof.
  intros [Hs Hf Hc Hl] Hsk Hcu. split.
  - by rewrite records_of_snoc, decide_True, Hs, app_assoc.
  - done.
  - by eapply comp_skips.
  - eapply linked_mono; [|done]. set_solver.
Qed.

(** Every unfinished transaction of a protocol log has the shape recovery relies on. *)
Lemma protocol_backed a rs x : 0 < a → protocol a rs → x ≠ 0 → unfinished rs x →
  ∃ fs cs rem, backed rs x fs cs rem.
Proof.
  intros Ha Hp Hx. induction Hp as [|rs r Hp IH Hl Hok Hn].
  - intros _. exists [], [], []. split; [done|done|constructor|done].
  - intros [Hu Hty]%unfinished_snoc. destruct (decide (txn_id r = x)) as [<-|Hne].
    + destruct Hn as [H0|fs _ Hb Hf Hprev|fs cs sk u rem _ Hb Hsk Hc|_ He]; [done| | |by destruct (Hty eq_refl), He].
      * eexists _, _, _. eapply backed_forward; [done|by apply protocol_laid_out|done..].
      * eexists _, _, _. by eapply backed_clr.
    + destruct (IH Hu) as (fs & cs & rem & Hb). exists fs, cs, rem. by apply backed_other.
Qed.

(** After its [Commit] or [Abort] a transaction writes nothing. *)
Lemma protocol_finished a rs rs' x : protocol a (rs ++ rs') → x ≠ 0 → ¬ unfinished rs x → records_of x rs' = [].
Proof.
  induction rs' as [|r rs' IH] using rev_ind; [done|]. rewrite app_assoc.
  intros (Hp & _ & _ & Hn)%protocol_snoc_inv Hx Hf. rewrite records_of_snoc, IH by done.
  case_decide as He; [|done]. exfalso. subst x. apply Hf.
  assert (Hu : unfinished (rs ++ rs') (txn_id r)) by (by destruct Hn).
  clear -Hu. induction rs' as [|r' rs' IH] using rev_ind; [by rewrite app_nil_r in Hu|].
  rewrite app_assoc in Hu. apply unfinished_snoc in Hu as [Hu _]. auto.
Qed.
End protocol.

(** ** The invariant of a running manager *)

Definition entry_of (r : LogRecord) : UndoEntry := mkUndo (lsn r) (page_id r) (undo r) (prev_lsn r).

(** The undo entries, newest first, of the records left to undo; records without an
    undo image may have none. *)
Inductive pending : list UndoEntry → list LogRecord → Prop :=
  | pending_nil : pending [] []
  | pending_skip r es rem : undo r = [] → pending es rem → pending es (r :: rem)
  | pending_entry r es rem : is_undoable_action (rec_type r) = true → pending es rem →
      pending (entry_of r :: es) (r :: rem).

Definition tracked (rs : list LogRecord) (x : N) (st : TxnState) : Prop :=
  ∃ fs cs rem es, backed rs x fs cs rem ∧ last_lsn st = head_lsn (reverse fs)
    ∧ undo_chain st = reverse es ∧ pending es rem.

Lemma pending_pop e es rem : pending (e :: es) rem →
  ∃ sk u rem', rem = sk ++ u :: rem' ∧ Forall (λ s, undo s = []) sk ∧ e = entry_of u
    ∧ is_undoable_action (rec_type u) = true ∧ pending es rem'.
Proof.
  intros Hp. remember (e :: es) as l eqn:Hl. induction Hp as [|r es' rem Hr Hp IH|r es' rem Hr Hp IH]; [done| |].
  - destruct (IH Hl) as (sk & u & rem' & -> & Hsk & -> & Hu & Hp'). exists (r :: sk), u, rem'. split_and!; auto.
  - simplify_eq. exists [], r, rem. done.
Qed.

Lemma tracked_other rs r x st : txn_id r ≠ x → tracked rs x st → tracked (rs ++ [r]) x st.
Proof.
  intros Hne (fs & cs & rem & es & Hb & Hl & Hu & Hp). exists fs, cs, rem, es. split; [|done]. by apply backed_other.
Qed.

(** Sinks that keep undo images in memory; all but the discarding one do. *)
Class KeepsUndo (S : Type) `{LogSink S} := keeps_undo : ∀ s : S, sk_retains_undo s = true.

Section trace.
Context `{Crc32c} {S : Type} `{!LogSink S} `{!LogSinkSpec S}.
Context `{!KeepsUndo S}.
#[local] Set Default Proof Using "All".
Abbreviation M := (WalManager S).

(** Everything written, durable or not. *)
Definition written (w : M) : bytes := image (sink w) ++ unsynced (sink w).

Record wal_inv (w : M) (rs : list LogRecord) : Prop := {
  wi_sink : sink_ok (sink w);
  wi_bytes : written w = Wal.header ++ flat rs;
  wi_protocol : protocol HEADER_LEN rs;
  wi_active x st : active w !! x = Some st → x ≠ 0 ∧ unfinished rs x ∧ tracked rs x st;
  wi_only x : x ≠ 0 → x ∈ txn_id <$> rs → unfinished rs x → is_Some (active w !! x);
}.

Lemma inv_next w rs : wal_inv w rs → Wal.next_lsn w = HEADER_LEN + flat_len rs.
Proof.
  intros Hi. unfold Wal.next_lsn. rewrite buffered_len_image by apply Hi.
  pose proof (f_equal length (wi_bytes _ _ Hi)) as Hl. unfold written in Hl. rewrite !length_app in Hl.
  change (length Wal.header) with 8%nat in Hl. unfold flat_len, blen, HEADER_LEN. lia.
Qed.

(** Appending one record that may follow, with the table changed at its transaction. *)
Lemma inv_snoc w rs w' r : wal_inv w rs → sink_ok (sink w') → written w' = written w ++ encode r →
  lsn r = Wal.next_lsn w → record_ok r → next_ok rs r →
  (∀ x, x ≠ txn_id r → active w' !! x = active w !! x) →
  match active w' !! txn_id r with
  | Some st => txn_id r ≠ 0 ∧ unfinished (rs ++ [r]) (txn_id r) ∧ tracked (rs ++ [r]) (txn_id r) st
  | None => txn_id r = 0 ∨ ¬ unfinished (rs ++ [r]) (txn_id r)
  end → wal_inv w' (rs ++ [r]).
Proof.
  intros Hi Hs Hb Hl Hok Hn Ho Hx. split.
  - done.
  - rewrite Hb, (wi_bytes _ _ Hi), flat_app, <- app_assoc. do 2 f_equal. unfold flat. cbn. by rewrite app_nil_r.
  - apply protocol_snoc; [apply Hi| |done|done]. by rewrite Hl, (inv_next w rs).
  - intros x st Hst. destruct (decide (x = txn_id r)) as [->|Hne]; [by rewrite Hst in Hx|].
    rewrite Ho in Hst by done. destruct (wi_active _ _ Hi x st Hst) as (H0 & Hu & Ht).
    split_and!; [done|by apply unfinished_snoc|by apply tracked_other].
  - intros x H0 Hin Hu. destruct (decide (x = txn_id r)) as [->|Hne].
    + destruct (active w' !! txn_id r) eqn:Ha; [done|]. by destruct Hx.
    + rewrite Ho by done. apply (wi_only _ _ Hi); [done| |by apply unfinished_snoc in Hu as [? _]].
      rewrite fmap_app, elem_of_app in Hin. destruct Hin as [Hin|Hin]; [done|]. cbn in Hin. set_solver.
Qed.

(** Syncing and hardening move the boundary of what is durable only. *)
Lemma inv_same w rs w' : wal_inv w rs → sink_ok (sink w') → written w' = written w → active w' = active w →
  wal_inv w' rs.
Proof.
  intros [Hs Hb Hp Ha Ho] Hs' Hb' Ha'. split; [done|by rewrite Hb'|done|by rewrite Ha'|by rewrite Ha'].
Qed.

(** [w] with one record appended. *)
Definition put (r : LogRecord) (w : M) : M := Wal.set_sink (sk_append (encode r) (sink w)) w.

Lemma put_spec r w : sink_ok (sink w) →
  sink_ok (sink (put r w)) ∧ written (put r w) = written w ++ encode r ∧ active (put r w) = active w.
Proof.
  intros Hs. unfold put, written. cbn [sink active Wal.set_sink].
  destruct (append_spec (encode r) (sink w) Hs) as (Ho & -> & -> & _). by rewrite app_assoc.
Qed.

Lemma put_image r w : sink_ok (sink w) → image (sink (put r w)) = image (sink w).
Proof. intros Hs. by destruct (append_spec (encode r) (sink w) Hs) as (_ & ? & _). Qed.

Definition stamped (l : Lsn) (r : LogRecord) : LogRecord :=
  mkRecord l (prev_lsn r) (txn_id r) (rec_type r) (page_id r) (undo_next_lsn r) (redo r) (undo r).

Lemma append_put r w : Wal.append r w = (Ok (Wal.next_lsn w), put (stamped (Wal.next_lsn w) r) w).
Proof. done. Qed.

Lemma inv_put w rs a r : wal_inv w rs → lsn r = Wal.next_lsn w → record_ok r → next_ok rs r →
  (∀ x, x ≠ txn_id r → a !! x = active w !! x) →
  match a !! txn_id r with
  | Some st => txn_id r ≠ 0 ∧ unfinished (rs ++ [r]) (txn_id r) ∧ tracked (rs ++ [r]) (txn_id r) st
  | None => txn_id r = 0 ∨ ¬ unfinished (rs ++ [r]) (txn_id r)
  end → wal_inv (Wal.set_active a (put r w)) (rs ++ [r]).
Proof.
  intros Hi Hl Hok Hn Ho Hx. destruct (put_spec r w (wi_sink _ _ Hi)) as (Hs & Hb & _).
  by apply (inv_snoc w rs).
Qed.

(** ** Forward records *)

(** A transaction may write forward records: it is new, or active and not rolling
    back. *)
Definition may_write (w : M) (rs : list LogRecord) (x : N) : Prop :=
  x ≠ 0 ∧ has_record Clr rs x = false ∧ (is_Some (active w !! x) ∨ x ∉ txn_id <$> rs).

Lemma has_record_in ty rs x : has_record ty rs x = true ↔ ∃ r, r ∈ rs ∧ txn_id r = x ∧ rec_type r = ty.
Proof.
  unfold has_record. rewrite existsb_exists. setoid_rewrite andb_true_iff. setoid_rewrite N.eqb_eq.
  setoid_rewrite bool_decide_eq_true. setoid_rewrite list_elem_of_In. done.
Qed.

Lemma unfinished_absent rs x : x ∉ txn_id <$> rs → unfinished rs x.
Proof.
  intros Hx. split; apply not_true_iff_false; intros (r & Hr & <- & _)%has_record_in; apply Hx;
    by apply list_elem_of_fmap_2.
Qed.

(** What the manager knows of a transaction that may write. *)
Lemma may_write_spec w rs x : wal_inv w rs → may_write w rs x →
  unfinished rs x ∧ ∃ fs es, backed rs x fs [] (reverse fs) ∧ Wal.prev_of x w = head_lsn (reverse fs)
    ∧ match active w !! x with Some st => undo_chain st | None => [] end = reverse es ∧ pending es (reverse fs).
Proof.
  intros Hi (Hx & Hclr & Hor). unfold Wal.prev_of. destruct (active w !! x) as [st|] eqn:Hst.
  - destruct (wi_active _ _ Hi x st Hst) as (_ & Hu & fs & cs & rem & es & Hb & Hl & Hch & Hp). split; [done|].
    assert (cs = []) as ->.
    { destruct cs as [|c cs]; [done|]. exfalso. apply not_true_iff_false in Hclr. apply Hclr, has_record_in.
      exists c. assert (Hc : c ∈ records_of x rs) by (rewrite (bk_split _ _ _ _ _ Hb); set_solver).
      apply list_elem_of_filter in Hc as [? ?]. split_and!; [done..|].
      by pose proof (comp_clrs _ _ _ (bk_comp _ _ _ _ _ Hb)) as [? _]%Forall_cons. }
    assert (rem = reverse fs) as -> by (by pose proof (bk_comp _ _ _ _ _ Hb) as Hc; inversion Hc).
    exists fs, es. done.
  - destruct Hor as [[? ?]|Hnew]; [done|]. split; [by apply unfinished_absent|]. exists [], [].
    split_and!; [|done|done|constructor]. split; [by apply records_of_nil|done|constructor|done].
Qed.

(** A forward record with its undo entry, if it has one. *)
Lemma inv_forward w rs r e : wal_inv w rs → may_write w rs (txn_id r) → lsn r = Wal.next_lsn w → record_ok r →
  forward r → rec_type r ≠ Commit → rec_type r ≠ Abort → prev_lsn r = Wal.prev_of (txn_id r) w →
  match e with Some e => e = entry_of r ∧ is_undoable_action (rec_type r) = true | None => undo r = [] end →
  wal_inv (Wal.touch (txn_id r) (lsn r) e (put r w)) (rs ++ [r]).
Proof.
  intros Hi Hm Hl Hok Hf Hnc Hna Hprev He. destruct (may_write_spec w rs _ Hi Hm) as (Hu & fs & es & Hb & Hpv & Hch & Hp).
  assert (Hb' : backed (rs ++ [r]) (txn_id r) (fs ++ [r]) [] (reverse (fs ++ [r]))).
  { eapply (backed_forward HEADER_LEN); [done|by apply protocol_laid_out, Hi| |done|done|congruence].
    by rewrite Hl, (inv_next w rs). }
  unfold Wal.touch. apply inv_put; [done|done|done| | |].
  - eapply next_forward; [done|done|done|congruence].
  - intros x Hx. by rewrite lookup_insert_ne.
  - rewrite lookup_insert_eq. split_and!; [apply Hm|by apply unfinished_snoc|].
    change (active (put r w)) with (active w).
    exists (fs ++ [r]), [], (reverse (fs ++ [r])), (match e with Some e => e :: es | None => es end).
    rewrite reverse_snoc. split_and!; [by rewrite reverse_snoc in Hb'|done| |].
    + cbn [undo_chain]. destruct (active w !! txn_id r); cbn [undo_chain] in *; rewrite ?Hch;
        destruct e; by rewrite ?reverse_cons, ?Hch.
    + destruct e as [e|]; [destruct He as [-> ?]; by constructor|by constructor].
Qed.

(** ** Room in the log *)
Definition room (w : M) (n : nat) : Prop :=
  Wal.next_lsn w ≤ 2 ^ 62 ∧ N.of_nat (REC_FIXED_PREFIX + 12 + n) ≤ u32_max.

Lemma record_ok_intro w n r : room w n → lsn r = Wal.next_lsn w → prev_lsn r ≤ Wal.next_lsn w →
  undo_next_lsn r ≤ Wal.next_lsn w → txn_id r ≤ u64_max → page_id r ≤ u64_max →
  (length (redo r) + length (undo r) ≤ n)%nat → record_ok r.
Proof.
  intros [Hl Hn] Hlsn Hp Hx Ht Hpg Hlen. change (2 ^ 62) with 4611686018427387904 in Hl. unfold u64_max in *.
  split; try (unfold u64_max; lia). unfold Rec.encoded_len. lia.
Qed.

Lemma prev_below w rs x : wal_inv w rs → Wal.prev_of x w ≤ Wal.next_lsn w.
Proof.
  intros Hi. unfold Wal.prev_of. destruct (active w !! x) as [st|] eqn:Hst; [|lia].
  destruct (wi_active _ _ Hi x st Hst) as (_ & _ & fs & cs & rem & es & Hb & -> & _).
  apply N.lt_le_incl. eapply (head_lsn_below HEADER_LEN rs); [by apply protocol_laid_out, Hi|apply Hb| |];
    rewrite (inv_next w rs Hi); unfold HEADER_LEN; lia.
Qed.

Lemma begin_inv w rs x : wal_inv w rs → may_write w rs x → active w !! x = None → x ≤ u64_max → room w 0 →
  let r := mkRecord (Wal.next_lsn w) 0 x Begin 0 0 [] [] in
  Wal.begin_ x w = (Ok (Wal.next_lsn w), Wal.touch x (Wal.next_lsn w) None (put r w))
  ∧ wal_inv (Wal.touch x (Wal.next_lsn w) None (put r w)) (rs ++ [r]).
Proof.
  intros Hi Hm Ha Hx Hr r. split.
  - unfold Wal.begin_. rewrite append_put. unfold Wal.touch. cbn [active put Wal.set_sink]. by rewrite Ha.
  - apply (inv_forward w rs r None); try done.
    + eapply (record_ok_intro w 0); cbn; try done; lia.
    + split; [done|by right].
    + change (0 = Wal.prev_of x w). unfold Wal.prev_of. by rewrite Ha.
Qed.

Lemma update_inv w rs x p rd un : wal_inv w rs → may_write w rs x → x ≤ u64_max → p ≤ u64_max →
  room w (length rd + length un) →
  let r := mkRecord (Wal.next_lsn w) (Wal.prev_of x w) x Update p 0 rd un in
  let w' := Wal.touch x (Wal.next_lsn w) (Some (entry_of r)) (put r w) in
  Wal.log_update x p rd un w = (Ok (Wal.next_lsn w), w') ∧ wal_inv w' (rs ++ [r]).
Proof.
  intros Hi Hm Hx Hp Hr r w'. split.
  - unfold Wal.log_update, Wal.log_update_borrowed. by rewrite keeps_undo.
  - apply (inv_forward w rs r (Some (entry_of r))); try done.
    + eapply (record_ok_intro w _ r Hr); cbn; try done; [by eapply prev_below|lia].
    + split; [done|by left].
Qed.

Lemma redo_only_inv w rs x p rd : wal_inv w rs → may_write w rs x → x ≤ u64_max → p ≤ u64_max →
  room w (length rd) →
  let r := mkRecord (Wal.next_lsn w) (Wal.prev_of x w) x Update p 0 rd [] in
  let w' := Wal.touch x (Wal.next_lsn w) None (put r w) in
  Wal.log_update_redo_only x p rd w = (Ok (Wal.next_lsn w), w') ∧ wal_inv w' (rs ++ [r]).
Proof.
  intros Hi Hm Hx Hp Hr r w'. split; [done|].
  apply (inv_forward w rs r None); try done.
  - eapply (record_ok_intro w _ r Hr); cbn; try done; [by eapply prev_below|lia..].
  - split; [done|by left].
Qed.

(** ** The end of a transaction *)
Lemma end_inv w rs r : wal_inv w rs → is_Some (active w !! txn_id r) → lsn r = Wal.next_lsn w → record_ok r →
  rec_type r = Commit ∨ rec_type r = Abort →
  wal_inv (Wal.set_active (delete (txn_id r) (active w)) (put r w)) (rs ++ [r]).
Proof.
  intros Hi [st Hst] Hl Hok Hty. destruct (wi_active _ _ Hi _ _ Hst) as (Hx & Hu & _).
  apply inv_put; [done|done|done|by apply next_end| |].
  - intros x Hne. by rewrite lookup_delete_ne.
  - rewrite lookup_delete_eq. right. intros [_ Hn]%unfinished_snoc. destruct (Hn eq_refl), Hty; done.
Qed.

(** Hardening, where it succeeds. *)
Lemma harden_inv w rs w' : wal_inv w rs → Wal.harden w = (Ok tt, w') →
  wal_inv w' rs ∧ image (sink w') = written w ∧ unsynced (sink w') = [].
Proof.
  intros Hi. unfold Wal.harden. destruct (sk_sync (sink w)) as [[[]| |] s'] eqn:Hy; intros Heq; simplify_eq.
  destruct (sync_spec _ _ (wi_sink _ _ Hi) Hy) as (Hs & Him & Hun & _). cbn [sink Wal.set_sink].
  split_and!; [|done|done]. apply (inv_same w); [done|done| |done].
  unfold written. cbn [sink Wal.set_sink]. by rewrite Him, Hun, app_nil_r.
Qed.

Lemma harden_not_err w e w' : Wal.harden w ≠ (Err e, w').
Proof. unfold Wal.harden. by destruct (sk_sync (sink w)) as [[]]. Qed.

(** The record a commit appends. *)
Definition commit_record (w : M) (x : N) (rd : bytes) : LogRecord :=
  mkRecord (Wal.next_lsn w) (Wal.prev_of x w) x Commit 0 0 rd [].

Definition ended_at (w : M) (x : N) (r : LogRecord) : M := Wal.set_active (delete x (active w)) (put r w).

Lemma commit_record_inv w rs x rd : wal_inv w rs → is_Some (active w !! x) → x ≤ u64_max → room w (length rd) →
  wal_inv (ended_at w x (commit_record w x rd)) (rs ++ [commit_record w x rd]).
Proof.
  intros Hi Ha Hx Hr. apply (end_inv w rs (commit_record w x rd)); try done; [|by left].
  eapply (record_ok_intro w _ _ Hr); cbn; try done; [by eapply prev_below|lia..].
Qed.

Lemma abort_record_inv w rs x : wal_inv w rs → is_Some (active w !! x) → x ≤ u64_max → room w 0 →
  wal_inv (ended_at w x (mkRecord (Wal.next_lsn w) 0 x Abort 0 0 [] []))
    (rs ++ [mkRecord (Wal.next_lsn w) 0 x Abort 0 0 [] []]).
Proof.
  intros Hi Ha Hx Hr. apply (end_inv w rs (mkRecord (Wal.next_lsn w) 0 x Abort 0 0 [] [])); try done; [|by right].
  eapply (record_ok_intro w _ _ Hr); cbn; try done; lia.
Qed.

(** ** Compensation *)
Lemma pop_reverse {A} (e : A) es : Wal.pop (reverse (e :: es)) = Some (e, reverse es).
Proof.
  unfold Wal.pop. rewrite reverse_cons, last_snoc. do 2 f_equal. rewrite length_app. cbn [length].
  rewrite Nat.add_sub. by apply take_app_length'.
Qed.

(** The next undo entry is that of the newest record left to undo; its compensation
    record follows the log. *)
Lemma compensate_inv w rs x st : wal_inv w rs → active w !! x = Some st → undo_chain st ≠ [] →
  ∃ u rest w', undo_chain st = rest ++ [entry_of u] ∧ u ∈ rs ∧ txn_id u = x
    ∧ let c := clr_at (Wal.next_lsn w) u in
      Wal.compensate_next x w = (Ok (Some (page_id u, Wal.next_lsn w, undo u)), w')
      ∧ active w' !! x = Some (mkTxn (first_lsn st) (last_lsn st) rest)
      ∧ sink w' = sink (put c w)
      ∧ (Wal.next_lsn w ≤ 2 ^ 62 → wal_inv w' (rs ++ [c])).
Proof.
  intros Hi Hst Hne. destruct (wi_active _ _ Hi x st Hst) as (H0 & Hu & fs & cs & rem & es & Hb & Hl & Hch & Hp).
  destruct es as [|e es]; [by rewrite Hch in Hne|].
  destruct (pending_pop _ _ _ Hp) as (sk & u & rem' & -> & Hsk & -> & Hun & Hp').
  assert (Hin : u ∈ records_of x rs).
  { rewrite (bk_split _ _ _ _ _ Hb). apply elem_of_app. left. apply elem_of_reverse.
    apply (comp_rem_sub _ _ _ (bk_comp _ _ _ _ _ Hb)). set_solver. }
  apply list_elem_of_filter in Hin as [Htx Hin]. subst x. set (c := clr_at (Wal.next_lsn w) u).
  exists u, (reverse es), (Wal.set_active (<[txn_id u := mkTxn (first_lsn st) (last_lsn st) (reverse es)]> (active w)) (put c w)).
  split_and!; [by rewrite Hch, reverse_cons|done|done|]. destruct (put_spec c w (wi_sink _ _ Hi)) as (Hs & Hby & _).
  cbn zeta. split_and!; [|cbn [active Wal.set_active]; by rewrite lookup_insert_eq|done|].
  - unfold Wal.compensate_next. by rewrite Hst, Hch, pop_reverse.
  - intros Hroom. pose proof (protocol_laid_out _ _ (wi_protocol _ _ Hi)) as Hlay.
    pose proof (laid_out_lsn _ _ _ Hlay Hin) as Hlsn. rewrite <- (inv_next w rs Hi) in Hlsn.
    assert (Hcu : compensates c u) by (split_and!; try done; cbn; lia).
    apply (inv_put w rs _ c); [done|done| |by eapply next_clr| |].
    + destruct (laid_out_ok _ _ _ Hlay Hin) as [Hol Hop Hot Hopg Hon Holn].
      change (2 ^ 62) with 4611686018427387904 in Hroom.
      split; cbn [c clr_at lsn prev_lsn txn_id page_id undo_next_lsn]; [unfold u64_max; lia|exact Hol|exact Hot|exact Hopg|exact Hop|].
      unfold Rec.encoded_len in *. cbn [c clr_at redo undo length]. lia.
    + intros y Hy. by rewrite lookup_insert_ne.
    + change (txn_id c) with (txn_id u). rewrite lookup_insert_eq. split_and!; [done|by apply unfinished_snoc|].
      exists fs, (cs ++ [c]), rem', es. split_and!; [|done|done|done]. by apply (backed_clr rs c fs cs sk u rem').
Qed.
End trace.
