(* ===== verification/WalCrash.v ===== *)
(** * Running, crashing and recovering

    The operations of the log manager as a transition system from a fresh log, the
    bytes a crash may leave, and recovery from them: what was acknowledged survives. *)
From S2P Require Import Prelude Core Bytes WalRecord Checkpoint WalSink WalScan WalScanFacts Wal WalRecovery WalUndo WalEffects WalRecoverySpec WalTrace.
From stdpp Require Import options.



Inductive WalOp :=
  | OBegin (x : TxnId)
  | OUpdate (x : TxnId) (p : PageId) (rd un : bytes)
  | ORedoOnly (x : TxnId) (p : PageId) (rd : bytes)
  | OCommit (x : TxnId)
  | OCommitAt (x : TxnId) (ts : Timestamp)
  | OCommitNoSync (x : TxnId) (ts : Timestamp)
  | OCompensate (x : TxnId)
  | OFinishRollback (x : TxnId)
  | OAbort (x : TxnId)
  | OCheckpoint (dpt : list (PageId * Lsn))
  | OEnsureDurable (l : Lsn)
  | OFlush
  | OBeginHarden
  | OCompleteHarden (t : N).

Section crash.
Context `{Crc32c} {S : Type} `{!LogSink S} `{!LogSinkSpec S}.
Context `{!KeepsUndo S}.
#[local] Set Default Proof Using "All".
Abbreviation M := (WalManager S).

Definition exec (o : WalOp) : St M unit :=
  match o with
  | OBegin x => _ ← Wal.begin_ x; mret tt
  | OUpdate x p rd un => _ ← Wal.log_update x p rd un; mret tt
  | ORedoOnly x p rd => _ ← Wal.log_update_redo_only x p rd; mret tt
  | OCommit x => _ ← Wal.commit x; mret tt
  | OCommitAt x ts => _ ← Wal.commit_at x ts; mret tt
  | OCommitNoSync x ts => _ ← Wal.commit_at_no_sync x ts; mret tt
  | OCompensate x => _ ← Wal.compensate_next x; mret tt
  | OFinishRollback x => Wal.finish_rollback x
  | OAbort x => Wal.abort x
  | OCheckpoint dpt => _ ← Wal.checkpoint dpt; mret tt
  | OEnsureDurable l => Wal.ensure_durable l
  | OFlush => Wal.flush
  | OBeginHarden => _ ← Wal.begin_harden; mret tt
  | OCompleteHarden t => modify (Wal.complete_harden t)
  end.

(** The records of a log image, and those written so far. *)
Definition log_in (img : bytes) : list LogRecord := (λ e, to_owned e.2) <$> (log_records img HEADER_LEN).1.
Definition log_of (w : M) : list LogRecord := log_in (written w).

Definition snapshot_of (w : M) (dpt : list (PageId * Lsn)) : bytes :=
  Ckpt.encode (mkSnapshot dpt ((λ p, (p.1, last_lsn p.2)) <$> by_key (active w))).

(** What a client of the manager respects: transaction ids are not reused and zero is
    reserved, a transaction that has started to roll back logs no further change, and
    sizes fit their fields. *)
Definition legal (w : M) (o : WalOp) : Prop :=
  match o with
  | OBegin x => may_write w (log_of w) x ∧ active w !! x = None ∧ x ≤ u64_max ∧ room w 0
  | OUpdate x p rd un => may_write w (log_of w) x ∧ x ≤ u64_max ∧ p ≤ u64_max ∧ room w (length rd + length un)
  | ORedoOnly x p rd => may_write w (log_of w) x ∧ x ≤ u64_max ∧ p ≤ u64_max ∧ room w (length rd)
  | OCommit x | OCommitAt x _ | OCommitNoSync x _ => x ≤ u64_max ∧ room w 8
  | OCompensate x => x ≤ u64_max ∧ room w 0
  | OFinishRollback x | OAbort x => x ≤ u64_max ∧ room w 0
  | OCheckpoint dpt => Wal.next_lsn w + 64 ≤ 2 ^ 62 ∧ room w (length (snapshot_of w dpt))
  | OEnsureDurable _ | OFlush | OBeginHarden => True
  | OCompleteHarden t => t ≤ frontier (sink w)
  end.

(** The states of a log from its creation on. *)
Inductive reaches : M → Prop :=
  | reach_create s w : sink_ok s → image s = [] → unsynced s = [] → Wal.create s = Ok w → reaches w
  | reach_step w o w' : reaches w → legal w o → exec o w = (Ok tt, w') → reaches w'.

(** ** The records are what was logged *)
Lemma inv_holds w rs : wal_inv w rs → holds (written w) HEADER_LEN rs [].
Proof.
  intros Hi. split_and!; [by apply protocol_laid_out, Hi| |].
  - rewrite (wi_bytes _ _ Hi). unfold blen. rewrite length_app. change (length Wal.header) with 8%nat. unfold HEADER_LEN. lia.
  - rewrite (wi_bytes _ _ Hi), app_nil_r. unfold at_. by rewrite drop_app_length'.
Qed.

Lemma log_in_holds img rs rest : holds img HEADER_LEN rs rest → rest_ok rest → log_in img = rs.
Proof.
  intros Hh Hr. unfold log_in. rewrite (log_records_holds _ _ _ _ Hh Hr). cbn [fst].
  rewrite <- list_fmap_compose. rewrite <- (list_fmap_id rs) at 2. apply list_fmap_ext. intros i r _. cbn. by destruct r.
Qed.

Lemma inv_log_of w rs : wal_inv w rs → log_of w = rs.
Proof. intros Hi. eapply log_in_holds; [by apply inv_holds|by left]. Qed.

(** What an operation leaves: the log grown by some records, no less of it durable. *)
Definition kept_inv (w : M) (rs : list LogRecord) (w' : M) : Prop :=
  ∃ new, wal_inv w' (rs ++ new) ∧ blen (image (sink w)) ≤ blen (image (sink w')).

Lemma kept_same w rs w' : wal_inv w' rs → blen (image (sink w)) ≤ blen (image (sink w')) → kept_inv w rs w'.
Proof. intros Hi Hl. exists []. by rewrite app_nil_r. Qed.

Lemma kept_put w rs w' r : sink_ok (sink w) → wal_inv w' (rs ++ [r]) → sink w' = sink (put r w) → kept_inv w rs w'.
Proof. intros Hs Hi He. exists [r]. split; [done|]. by rewrite He, put_image. Qed.

Lemma kept_harden w rs w' : wal_inv w rs → Wal.harden w = (Ok tt, w') → kept_inv w rs w'.
Proof.
  intros Hi Hh. destruct (harden_inv w rs w' Hi Hh) as (Hi' & Him & _). apply kept_same; [done|].
  rewrite Him. unfold written, blen. rewrite length_app. lia.
Qed.

Lemma kept_trans w rs w1 new w2 : wal_inv w1 (rs ++ new) → blen (image (sink w)) ≤ blen (image (sink w1)) →
  kept_inv w1 (rs ++ new) w2 → kept_inv w rs w2.
Proof. intros Hi Hl (new' & Hi' & Hl'). exists (new ++ new'). rewrite app_assoc. split; [done|lia]. Qed.

(** ** Commits *)
Definition hardened {A} (a : A) : St M A := λ w,
  match Wal.harden w with
  | (Ok _, w) => (Ok a, w)
  | (Err e, w) => (Err e, w)
  | (Panic m, w) => (Panic m, w)
  end.

Definition inactive : GraphusError := Transaction "commit of inactive txn".

Lemma commit_eq x w : Wal.commit x w =
  match active w !! x with
  | None => (Err inactive, w)
  | Some _ => hardened (Wal.next_lsn w) (ended_at w x (commit_record w x []))
  end.
Proof.
  unfold Wal.commit, Wal.commit_prev_lsn, Wal.finish_commit, Wal.append_commit_record, hardened, commit_record, Wal.prev_of.
  unfold mbind, St_bind, get, lift. cbn. by destruct (active w !! x).
Qed.

Lemma commit_at_eq x ts w : Wal.commit_at x ts w =
  match active w !! x with
  | None => (Err inactive, w)
  | Some _ => hardened (Wal.next_lsn w) (ended_at w x (commit_record w x (to_le_bytes 8 ts)))
  end.
Proof.
  unfold Wal.commit_at, Wal.commit_prev_lsn, Wal.finish_commit, Wal.append_commit_record, hardened, commit_record, Wal.prev_of.
  unfold mbind, St_bind, get, lift. cbn -[to_le_bytes]. by destruct (active w !! x).
Qed.

Lemma commit_at_no_sync_eq x ts w : Wal.commit_at_no_sync x ts w =
  match active w !! x with
  | None => (Err inactive, w)
  | Some _ => (Ok (Wal.next_lsn w), ended_at w x (commit_record w x (to_le_bytes 8 ts)))
  end.
Proof.
  unfold Wal.commit_at_no_sync, Wal.commit_prev_lsn, Wal.append_commit_record, commit_record, Wal.prev_of.
  unfold mbind, St_bind, get, lift. cbn -[to_le_bytes]. by destruct (active w !! x).
Qed.

Lemma room_less w n m : (n ≤ m)%nat → room w m → room w n.
Proof. intros Hle [Hl Hn]. split; [done|]. lia. Qed.

Lemma ended_put w x r : sink (ended_at w x r) = sink (put r w).
Proof. done. Qed.

(** Ending a transaction and hardening. *)
Lemma kept_ended {A} (a b : A) w rs x r w' : wal_inv w rs → wal_inv (ended_at w x r) (rs ++ [r]) →
  hardened a (ended_at w x r) = (Ok b, w') → a = b ∧ kept_inv w rs w'
    ∧ wal_inv w' (rs ++ [r]) ∧ image (sink w') = written w ++ encode r.
Proof.
  intros Hi Hi' Hh. unfold hardened in Hh.
  destruct (Wal.harden (ended_at w x r)) as [[[]| |] w2] eqn:Hw; simplify_eq.
  destruct (harden_inv _ _ _ Hi' Hw) as (Hi2 & Him & _).
  destruct (put_spec r w (wi_sink _ _ Hi)) as (_ & Hb & _).
  assert (Hi3 : image (sink w') = written w ++ encode r) by (rewrite Him; exact Hb).
  split_and!; [done| |done|done]. exists [r]. split; [done|]. rewrite Hi3. unfold written, blen. rewrite !length_app. lia.
Qed.

(** ** Every operation keeps the invariant *)
Lemma step_commit w rs x rd w' (l : Lsn) : wal_inv w rs → x ≤ u64_max → room w (length rd) →
  match active w !! x with
  | None => (Err inactive, w)
  | Some _ => hardened (Wal.next_lsn w) (ended_at w x (commit_record w x rd))
  end = (Ok l, w') → kept_inv w rs w'.
Proof.
  intros Hi Hx Hr. destruct (active w !! x) as [st|] eqn:Hst; [|done]. intros Hh.
  by eapply (kept_ended (Wal.next_lsn w)); [|apply commit_record_inv|]; [..|exact Hh].
Qed.

Lemma step_end w rs x w' : wal_inv w rs → x ≤ u64_max → room w 0 →
  match active w !! x with
  | None => (Ok tt, w)
  | Some _ => hardened tt (ended_at w x (mkRecord (Wal.next_lsn w) 0 x Abort 0 0 [] []))
  end = (Ok tt, w') → kept_inv w rs w'.
Proof.
  intros Hi Hx Hr. destruct (active w !! x) as [st|] eqn:Hst; intros Hh.
  - by eapply (kept_ended tt); [|apply abort_record_inv|]; [..|exact Hh].
  - injection Hh as <-. by apply kept_same.
Qed.

Lemma abort_eq x w : Wal.abort x w =
  match active w !! x with
  | None => (Ok tt, w)
  | Some _ => hardened tt (ended_at w x (mkRecord (Wal.next_lsn w) 0 x Abort 0 0 [] []))
  end.
Proof.
  unfold Wal.abort, hardened. destruct (active w !! x); [|done]. unfold mbind, St_bind. rewrite append_put.
  change (put _ (Wal.set_active _ w)) with (ended_at w x (mkRecord (Wal.next_lsn w) 0 x Abort 0 0 [] [])).
  by destruct (Wal.harden _) as [[[]| |] ?].
Qed.

Lemma system_inv w rs r : wal_inv w rs → txn_id r = 0 → lsn r = Wal.next_lsn w → record_ok r →
  wal_inv (put r w) (rs ++ [r]).
Proof.
  intros Hi H0 Hl Hok. apply (inv_put w rs (active w) r); [done|done|done|by apply next_system|done|].
  destruct (active w !! txn_id r) eqn:Ha; [|by left]. rewrite H0 in Ha. by destruct (wi_active _ _ Hi 0 _ Ha).
Qed.

Lemma put_next r w rs : wal_inv w rs → wal_inv (put r w) (rs ++ [r]) →
  Wal.next_lsn (put r w) = Wal.next_lsn w + N.of_nat (Rec.encoded_len r).
Proof.
  intros Hi Hi'. rewrite (inv_next _ _ Hi'), (inv_next _ _ Hi), flat_len_app, flat_len_cons.
  change (flat_len []) with 0. lia.
Qed.

Lemma step_checkpoint w rs dpt l w' : wal_inv w rs → Wal.next_lsn w + 64 ≤ 2 ^ 62 → room w (length (snapshot_of w dpt)) →
  Wal.checkpoint dpt w = (Ok l, w') → kept_inv w rs w'.
Proof.
  intros Hi Hn Hr Hex. set (r1 := mkRecord (Wal.next_lsn w) 0 0 CheckpointBegin 0 0 [] []).
  assert (Hi1 : wal_inv (put r1 w) (rs ++ [r1])).
  { apply system_inv; [done|done|done|]. eapply (record_ok_intro w 0); cbn; try done; try lia.
    eapply room_less; [|exact Hr]. lia. }
  pose proof (put_next r1 w rs Hi Hi1) as Hnx. change (Rec.encoded_len r1) with 57%nat in Hnx.
  set (r2 := mkRecord (Wal.next_lsn (put r1 w)) 0 0 CheckpointEnd 0 0 (snapshot_of w dpt) []).
  assert (Hi2 : wal_inv (put r2 (put r1 w)) ((rs ++ [r1]) ++ [r2])).
  { apply system_inv; [done|done|done|]. eapply (record_ok_intro (put r1 w) (length (snapshot_of w dpt))); cbn [r2 lsn prev_lsn undo_next_lsn txn_id page_id redo undo length]; try done; try lia.
    split; [lia|apply Hr]. }
  assert (Hex' : hardened (Wal.next_lsn (put r1 w)) (put r2 (put r1 w)) = (Ok l, w')).
  { unfold Wal.checkpoint, mbind, St_bind, get in Hex. rewrite append_put in Hex. unfold hardened.
    change (put (stamped (Wal.next_lsn w) (Rec.new CheckpointBegin 0 0)) w) with (put r1 w) in Hex.
    rewrite append_put in Hex. change (put (stamped _ _) (put r1 w)) with (put r2 (put r1 w)) in Hex. exact Hex. }
  unfold hardened in Hex'. destruct (Wal.harden (put r2 (put r1 w))) as [[[]| |] w3] eqn:Hh; simplify_eq.
  eapply (kept_trans w rs (put r2 (put r1 w)) ([r1] ++ [r2])); [by rewrite app_assoc| |].
  - rewrite !put_image by apply Hi1 || apply Hi. done.
  - rewrite app_assoc. by apply kept_harden.
Qed.

Lemma step_begin_harden w rs j w' : wal_inv w rs → Wal.begin_harden w = (Ok j, w') → kept_inv w rs w'.
Proof.
  intros Hi. unfold Wal.begin_harden. destruct (sk_begin_harden (sink w)) as [r s'] eqn:Hb. intros [= -> <-].
  destruct (begin_harden_spec _ _ _ (wi_sink _ _ Hi) Hb) as (Hs' & Hw & _ & _ & _ & _ & Hle).
  apply kept_same; [by apply (inv_same w)|done].
Qed.

Lemma step_complete_harden w rs t : wal_inv w rs → t ≤ frontier (sink w) → kept_inv w rs (Wal.complete_harden t w).
Proof.
  intros Hi Ht. destruct (complete_harden_spec t _ (wi_sink _ _ Hi) Ht) as (Hs' & Hw & Hl & _).
  apply kept_same; [by apply (inv_same w)|]. cbn [sink Wal.complete_harden Wal.set_sink]. lia.
Qed.

Lemma step_compensate w rs x r w' : wal_inv w rs → room w 0 → Wal.compensate_next x w = (Ok r, w') → kept_inv w rs w'.
Proof.
  intros Hi [Hr _] Hex. destruct (active w !! x) as [st|] eqn:Hst.
  2:{ unfold Wal.compensate_next in Hex. rewrite Hst in Hex. injection Hex as _ <-. by apply kept_same. }
  destruct (decide (undo_chain st = [])) as [Hnil|Hne].
  { unfold Wal.compensate_next in Hex. rewrite Hst, Hnil in Hex. injection Hex as _ <-. by apply kept_same. }
  destruct (compensate_inv w rs x st Hi Hst Hne) as (u & rest & w1 & _ & _ & _ & He & _ & Hsk & Hi').
  rewrite He in Hex. injection Hex as _ <-. exists [clr_at (Wal.next_lsn w) u]. split; [auto|]. by rewrite Hsk, put_image by apply Hi.
Qed.

Lemma step_kept w rs o w' : wal_inv w rs → legal w o → exec o w = (Ok tt, w') → kept_inv w rs w'.
Proof.
  intros Hi Hlegal Hex. pose proof (inv_log_of w rs Hi) as Hlog. pose proof (wi_sink _ _ Hi) as Hs.
  destruct o; cbn [exec legal] in *; rewrite ?Hlog in Hlegal; unfold mbind, St_bind, modify in Hex.
  - destruct Hlegal as (Hm & Ha & Hx & Hr). destruct (begin_inv w rs x Hi Hm Ha Hx Hr) as [He Hi']. rewrite He in Hex.
    injection Hex as <-. by eapply kept_put.
  - destruct Hlegal as (Hm & Hx & Hp & Hr). destruct (update_inv w rs x p rd un Hi Hm Hx Hp Hr) as [He Hi']. rewrite He in Hex.
    injection Hex as <-. by eapply kept_put.
  - destruct Hlegal as (Hm & Hx & Hp & Hr). destruct (redo_only_inv w rs x p rd Hi Hm Hx Hp Hr) as [He Hi']. rewrite He in Hex.
    injection Hex as <-. by eapply kept_put.
  - destruct Hlegal as [Hx Hr]. destruct (Wal.commit x w) as [[l| |] w1] eqn:He; simplify_eq. injection Hex as <-.
    rewrite commit_eq in He. eapply (step_commit w _ x []); [done|done|apply (room_less w _ 8); [cbn; lia|done]|done].
  - destruct Hlegal as [Hx Hr]. destruct (Wal.commit_at x ts w) as [[l| |] w1] eqn:He; simplify_eq. injection Hex as <-.
    rewrite commit_at_eq in He. eapply (step_commit w _ x (to_le_bytes 8 ts)); [done|done|by rewrite to_le_bytes_length|done].
  - destruct Hlegal as [Hx Hr]. rewrite commit_at_no_sync_eq in Hex. destruct (active w !! x) eqn:Ha; [|done].
    injection Hex as <-. eapply (kept_put _ _ _ (commit_record w x (to_le_bytes 8 ts))); [done| |done].
    apply commit_record_inv; [done|done|done|by rewrite to_le_bytes_length].
  - destruct Hlegal as [Hx Hr]. destruct (Wal.compensate_next x w) as [[r| |] w1] eqn:He; simplify_eq. injection Hex as <-.
    by eapply step_compensate.
  - destruct Hlegal as [Hx Hr]. eapply step_end; [done..|]. by rewrite <- abort_eq.
  - destruct Hlegal as [Hx Hr]. eapply step_end; [done..|]. by rewrite <- abort_eq.
  - destruct Hlegal as [Hn Hr]. destruct (Wal.checkpoint dpt w) as [[l| |] w1] eqn:He; simplify_eq. injection Hex as <-.
    by eapply step_checkpoint.
  - unfold Wal.ensure_durable in Hex. destruct (_ <=? _); [by apply kept_harden|]. injection Hex as <-. by apply kept_same.
  - by apply kept_harden.
  - destruct (Wal.begin_harden w) as [[j| |] w1] eqn:He; simplify_eq. injection Hex as <-. by eapply step_begin_harden.
  - injection Hex as <-. by apply step_complete_harden.
Qed.

Lemma create_inv s w : sink_ok s → image s = [] → unsynced s = [] → Wal.create s = Ok w → wal_inv w [].
Proof.
  intros Hs Him Hun. unfold Wal.create. destruct (negb _); [done|].
  destruct (append_spec Wal.header s Hs) as (Ho & Hi & Hu & _).
  destruct (Wal.harden _) as [[[]| |] w1] eqn:Hh; [|done|done]. intros [= <-]. unfold Wal.harden in Hh. cbn [sink] in Hh.
  destruct (sk_sync (sk_append Wal.header s)) as [[[]| |] s'] eqn:Hy; [|done|done]. injection Hh as <-.
  destruct (sync_spec _ _ Ho Hy) as (Ho' & Hi' & Hu' & _).
  split; [done| |constructor|done|by intros x _ ?%elem_of_nil].
  unfold written. cbn [sink Wal.set_sink]. by rewrite Hi', Hu', Hi, Hu, Him, Hun, !app_nil_r.
Qed.

Lemma reaches_inv w : reaches w → wal_inv w (log_of w).
Proof.
  induction 1 as [s w Hs Hi Hu Hc|w o w' _ IH Hl Hex].
  - pose proof (create_inv s w Hs Hi Hu Hc) as Hinv. by rewrite (inv_log_of _ _ Hinv).
  - destruct (step_kept w _ o w' IH Hl Hex) as (new & Hinv & _). by rewrite (inv_log_of _ _ Hinv).
Qed.

(** ** What a crash leaves of a log *)
Lemma flat_prefix rs : ∀ b : bytes, b `prefix_of` flat rs →
  ∃ rs1 rs2 rest, rs = rs1 ++ rs2 ∧ b = flat rs1 ++ rest
    ∧ (rest = [] ∨ ∃ r rs3 more, rs2 = r :: rs3 ∧ encode r = rest ++ more ∧ more ≠ []).
Proof.
  induction rs as [|r rs IH]; intros b Hb.
  { exists [], [], []. apply prefix_nil_inv in Hb as ->. split_and!; auto. }
  destruct (decide (length b < length (encode r))%nat) as [Hlt|Hge].
  - exists [], (r :: rs), b. split_and!; [done|done|]. right. rewrite flat_cons in Hb. destruct Hb as [k Hk].
    exists r, rs, (drop (length b) (encode r)). split_and!; [done| |].
    + rewrite <- (take_drop (length b) (encode r)) at 1. f_equal.
      assert (Ht : take (length b) (encode r ++ flat rs) = b) by (by rewrite Hk, take_app_length).
      rewrite take_app_le in Ht by lia. done.
    + intros Hd%(f_equal length). rewrite length_drop in Hd. cbn [length] in Hd. lia.
  - rewrite flat_cons in Hb. destruct Hb as [k Hk].
    assert (Hb : b = encode r ++ drop (length (encode r)) b).
    { rewrite <- (take_drop (length (encode r)) b) at 1. f_equal.
      assert (Ht : take (length (encode r)) (b ++ k) = encode r) by (by rewrite <- Hk, take_app_length).
      rewrite take_app_le in Ht by lia. done. }
    destruct (IH (drop (length (encode r)) b)) as (rs1 & rs2 & rest & -> & Hd & Hor).
    { exists k. assert (Ht : drop (length (encode r)) (b ++ k) = flat rs) by (by rewrite <- Hk, drop_app_length).
      rewrite drop_app_le in Ht by lia. done. }
    exists (r :: rs1), rs2, rest. split_and!; [done| |done]. rewrite Hb, Hd, flat_cons. by rewrite app_assoc.
Qed.
Lemma reaches_header w : reaches w → HEADER_LEN ≤ blen (image (sink w)).
Proof.
  induction 1 as [s w Hs Hi Hu Hc|w o w' Hr IH Hl Hex].
  - pose proof (create_inv s w Hs Hi Hu Hc) as Hinv. pose proof (f_equal length (wi_bytes _ _ Hinv)) as Hlen.
    assert (Hun : unsynced (sink w) = []).
    { unfold Wal.create in Hc. destruct (negb _); [done|]. destruct (Wal.harden _) as [[[]| |] w1] eqn:Hh; [|done|done].
      injection Hc as <-. unfold Wal.harden in Hh. cbn [sink] in Hh.
      destruct (append_spec Wal.header s Hs) as (Ho & _). destruct (sk_sync _) as [[[]| |] s'] eqn:Hy; [|done|done].
      injection Hh as <-. by destruct (sync_spec _ _ Ho Hy) as (_ & _ & ? & _). }
    unfold written in Hlen. rewrite Hun, app_nil_r, length_app in Hlen. change (length Wal.header) with 8%nat in Hlen.
    unfold blen, HEADER_LEN. lia.
  - destruct (step_kept w _ o w' (reaches_inv w Hr) Hl Hex) as (new & _ & Hle). lia.
Qed.

Lemma torn_rest_ok r rest more : record_ok r → encode r = rest ++ more → more ≠ [] → rest_ok rest.
Proof.
  intros Hok He Hm. right. intros r' n. rewrite ref_decode_eq.
  assert (Hd : Rec.decode rest = DErr Incomplete); [|by rewrite Hd].
  assert (Ht : rest = take (length rest) (encode r)) by (by rewrite He, take_app_length).
  rewrite Ht. pose proof (decode_encode_app r [] Hok) as Hdec. rewrite app_nil_r in Hdec.
  eapply decode_cut; [exact Hdec|]. rewrite <- encode_length, He, length_app. destruct more; [done|]. cbn. lia.
Qed.

(** The records that survive a crash: a prefix of those written, with every record
    that was durable. *)
Lemma crash_log w rs img : wal_inv w rs → HEADER_LEN ≤ blen img → img `prefix_of` written w →
  ∃ rs1 rs2 rest, rs = rs1 ++ rs2 ∧ holds img HEADER_LEN rs1 rest ∧ rest_ok rest
    ∧ (∀ r, r ∈ rs → lsn r + N.of_nat (Rec.encoded_len r) ≤ blen img → r ∈ rs1).
Proof.
  intros Hi Hlen Hpre. rewrite (wi_bytes _ _ Hi) in Hpre. pose proof (protocol_laid_out _ _ (wi_protocol _ _ Hi)) as Hlay.
  assert (Hh : ∃ b, img = Wal.header ++ b ∧ b `prefix_of` flat rs).
  { destruct Hpre as [k Hk]. exists (drop 8 img). unfold blen, HEADER_LEN in Hlen. split.
    - rewrite <- (take_drop 8 img) at 1. f_equal.
      assert (Ht : take 8 (img ++ k) = Wal.header) by (by rewrite <- Hk). by rewrite take_app_le in Ht by lia.
    - exists k. assert (Ht : drop 8 (img ++ k) = flat rs) by (by rewrite <- Hk). by rewrite drop_app_le in Ht by lia. }
  destruct Hh as (b & -> & Hb). destruct (flat_prefix rs b Hb) as (rs1 & rs2 & rest & -> & -> & Hor).
  apply laid_out_app in Hlay as [Hlay1 Hlay2]. exists rs1, rs2, rest.
  assert (Hbl : blen (Wal.header ++ flat rs1 ++ rest) = HEADER_LEN + flat_len rs1 + blen rest).
  { unfold flat_len, blen, HEADER_LEN. rewrite !length_app. change (length Wal.header) with 8%nat. lia. }
  split_and!; [done|split_and!; [done|lia|]| |].
  - unfold at_. change (N.to_nat HEADER_LEN) with (length Wal.header). apply drop_app_length.
  - destruct Hor as [->|(r & rs3 & more & -> & He & Hm)]; [by left|]. eapply torn_rest_ok; [|done|done]. apply Hlay2.
  - intros r [Hr|Hr]%elem_of_app Hle; [done|]. exfalso. rewrite Hbl in Hle.
    destruct Hor as [->|(r0 & rs3 & more & -> & He & Hm)].
    + pose proof (laid_out_lsn _ _ _ Hlay2 Hr). change (blen []) with 0 in Hle. pose proof (encoded_len_pos r).
      unfold MIN_RECORD_LEN, REC_FIXED_PREFIX in *. lia.
    + assert (Hlt : blen rest < N.of_nat (Rec.encoded_len r0)).
      { rewrite <- encode_length, He, length_app. unfold blen. destruct more; [done|]. cbn [length]. lia. }
      destruct Hlay2 as (Hl0 & _ & Hlay3). apply elem_of_cons in Hr as [->|Hr]; [lia|].
      pose proof (laid_out_lsn _ _ _ Hlay3 Hr). lia.
Qed.
End crash.

(** ** Recovery after a crash *)
Section survive.
#[local] Set Default Proof Using "All".
Context `{Crc32c} {S : Type} `{!LogSink S} `{!LogSinkSpec S} `{!ReliableSink S} `{!KeepsUndo S}.
Context {T : Type} `{!ApplyTarget T} `{!PagesSpec T} `{HashOrder}.
Abbreviation M := (WalManager S).

(** What the clients of the log owe: transactions that run at the same time change
    different parts of a page, and an undo image restores what its record changed. *)
Record separated (rs : list LogRecord) (c0 : PageId → Content) : Prop := {
  sep_commute p r r' i j (c : Content) : r ∈ rs → r' ∈ rs → loser rs (tag r) → tag r' ≠ tag r →
    lsn r < lsn r' ∨ loser rs (tag r') → i ∈ images p r → j ∈ images p r' →
    patch (patch c i) j = patch (patch c j) i;
  sep_reversible x p : loser rs x →
    reversible p (effect p (filter (kept rs) rs) (c0 p))
      (filter (λ r, rec_type r ≠ Clr ∧ undo r ≠ []) (records_of x rs));
}.

Lemma backed_own rs x fs cs rem : backed rs x fs cs rem →
  filter (λ r, rec_type r ≠ Clr ∧ undo r ≠ []) (records_of x rs) = filter (λ r, ¬ redo_only r) fs.
Proof.
  intros [Hs Hf Hc _]. rewrite Hs, filter_app, (filter_none _ cs).
  - rewrite app_nil_r. clear -Hf. induction Hf as [|r fs [Hr _] _ IH]; [done|]. rewrite !filter_cons, IH.
    unfold redo_only. repeat case_decide; try done; naive_solver.
  - eapply Forall_impl; [by eapply comp_clrs|]. intros r Hr [Hn _]. done.
Qed.

Lemma separated_isolated rs c0 : protocol HEADER_LEN rs → separated rs c0 → isolated rs c0.
Proof.
  intros Hp [Hc Hr]. split; [done|]. intros x Hl. pose proof Hl as (Hx & _ & Hu).
  destruct (protocol_backed HEADER_LEN rs x ltac:(done) Hp Hx Hu) as (fs & cs & rem & Hb).
  exists fs, cs, rem. split; [done|]. intros p. rewrite <- (backed_own _ _ _ _ _ Hb). auto.
Qed.

(** A transaction whose [Commit] record is durable. *)
Definition acked (w : M) (x : N) : Prop :=
  ∃ r, r ∈ log_of w ∧ txn_id r = x ∧ rec_type r = Commit
    ∧ lsn r + N.of_nat (Rec.encoded_len r) ≤ blen (image (sink w)).

Lemma open_image s img : sink_ok s → faultless s → image s = Wal.header ++ img → Wal.open s = Ok (mkWal s ∅).
Proof.
  intros Hs Hg Him. unfold Wal.open. rewrite durable_len_image, faultless_read_eq, Him by done.
  unfold blen. rewrite length_app. change (length Wal.header) with 8%nat. destruct (N.ltb_spec (N.of_nat (8 + length img)) HEADER_LEN) as [Hlt|_].
  { unfold HEADER_LEN in Hlt. lia. }
  assert (Hcut : cut 0 HEADER_LEN (Wal.header ++ img) = Wal.header).
  { unfold cut. change (N.to_nat 0) with 0%nat. rewrite drop_0. unfold blen. rewrite length_app.
    change (length Wal.header) with 8%nat. replace (N.to_nat (N.min HEADER_LEN (N.of_nat (8 + length img)) - 0)) with 8%nat by (unfold HEADER_LEN; lia).
    done. }
  rewrite Hcut. done.
Qed.

Lemma durable_kept w x rs1 rs2 : wal_inv w (rs1 ++ rs2) → x ≠ 0 → has_record Commit rs1 x = true →
  ∀ r, r ∈ rs1 ++ rs2 → txn_id r = x → r ∈ rs1 ∧ kept rs1 r.
Proof.
  intros Hi Hx Hc r Hr Htx. split.
  - apply elem_of_app in Hr as [Hr|Hr]; [done|]. exfalso.
    assert (Hf : records_of x rs2 = []).
    { eapply protocol_finished; [apply Hi|done|]. intros [Hn _]. congruence. }
    assert (r ∈ records_of x rs2) as Hin by (by apply list_elem_of_filter). rewrite Hf in Hin. by apply elem_of_nil in Hin.
  - intros (Hx0 & _ & Hn & _). unfold tag in *. case_decide; [done|]. congruence.
Qed.

(** The legal continuations of a run. *)
Inductive later (w : M) : M → Prop :=
  | later_refl : later w w
  | later_step w1 o w2 : later w w1 → legal w1 o → exec o w1 = (Ok tt, w2) → later w w2.

Lemma later_reaches w w' : reaches w → later w w' → reaches w'.
Proof. intros Hr. induction 1; [done|by eapply reach_step]. Qed.

Lemma later_acked w w' x : reaches w → later w w' → acked w x → acked w' x.
Proof.
  intros Hr. induction 1 as [|w1 o w2 Hl IH Hlg Hex]; [done|]. intros (r & Hin & Htx & Hty & Hle)%IH.
  pose proof (reaches_inv w1 (later_reaches w w1 Hr Hl)) as Hinv.
  destruct (step_kept w1 _ o w2 Hinv Hlg Hex) as (new & Hinv2 & Hmono).
  exists r. rewrite (inv_log_of _ _ Hinv2). split_and!; [set_solver|done|done|lia].
Qed.

Lemma hardened_acks w rs x rd (l : Lsn) w' : wal_inv w rs → x ≤ u64_max → room w (length rd) →
  match active w !! x with
  | None => (Err inactive, w)
  | Some _ => hardened (Wal.next_lsn w) (ended_at w x (commit_record w x rd))
  end = (Ok l, w') →
  wal_inv w' (rs ++ [commit_record w x rd]) ∧ acked w' x ∧ l = Wal.next_lsn w ∧ active w' !! x = None.
Proof.
  intros Hi Hx Hr. destruct (active w !! x) as [st|] eqn:Hst; [|done]. intros Hh.
  pose proof (commit_record_inv w rs x rd Hi ltac:(done) Hx Hr) as Hi'.
  destruct (kept_ended (Wal.next_lsn w) l w rs x _ w' Hi Hi' Hh) as (<- & _ & Hi2 & Him).
  split_and!; [done| |done|].
  - exists (commit_record w x rd). rewrite (inv_log_of _ _ Hi2). split_and!; [set_solver|done|done|].
    rewrite Him. unfold blen. rewrite length_app, encode_length.
    change (lsn (commit_record w x rd)) with (Wal.next_lsn w). unfold Wal.next_lsn.
    rewrite buffered_len_image by apply Hi. unfold written, blen. rewrite length_app. lia.
  - destruct (active w' !! x) as [st'|] eqn:Ha; [|done]. exfalso.
    destruct (wi_active _ _ Hi2 x st' Ha) as (_ & [_ Hn]%unfinished_snoc & _). by destruct (Hn eq_refl).
Qed.

(** C28: In every state reached by legal operations the log is its header followed by
    whole records, each stamped with its own offset, that keep the protocol; the next LSN
    is the end of the log; and the table of active transactions is right: each active
    transaction is unfinished in the log and its entry holds its last LSN and exactly the
    undo entries not yet compensated, and the transactions of the log that recovery would
    roll back are active. *)
Theorem wal_invariant (w : M) : reaches w →
  written w = Wal.header ++ flat (log_of w) ∧ protocol HEADER_LEN (log_of w)
  ∧ Wal.next_lsn w = HEADER_LEN + flat_len (log_of w) ∧ HEADER_LEN ≤ Wal.durable_len w
  ∧ (∀ x st, active w !! x = Some st → x ≠ 0 ∧ unfinished (log_of w) x ∧ tracked (log_of w) x st)
  ∧ (∀ x, loser (log_of w) x → is_Some (active w !! x)).
Proof.
  intros Hr. pose proof (reaches_inv w Hr) as Hi. split_and!; [apply Hi|apply Hi|by apply inv_next| |apply Hi|].
  - unfold Wal.durable_len. rewrite durable_len_image by apply Hi. by apply reaches_header.
  - intros x (Hx & Hin & Hu). by apply (wi_only _ _ Hi).
Qed.

(** Committing an active transaction appends its [Commit] record and, when it
    returns, that record is durable and remains so in every later state; the transaction
    is no longer active. A failed sync never returns: the process stops. Committing a
    transaction that is not active is an error that leaves the manager as it was. *)
Theorem commit_acknowledged (w : M) x ts : reaches w → legal w (OCommitAt x ts) →
  (active w !! x = None → Wal.commit_at x ts w = (Err inactive, w) ∧ Wal.commit x w = (Err inactive, w))
  ∧ (is_Some (active w !! x) →
      (∀ e w', Wal.commit_at x ts w ≠ (Err e, w') ∧ Wal.commit x w ≠ (Err e, w'))
      ∧ ∀ l w', Wal.commit_at x ts w = (Ok l, w') ∨ Wal.commit x w = (Ok l, w') →
        l = Wal.next_lsn w ∧ active w' !! x = None ∧ ∀ w2, later w' w2 → acked w2 x).
Proof.
  intros Hr [Hx Hroom]. pose proof (reaches_inv w Hr) as Hinv. rewrite commit_at_eq, commit_eq. split.
  { intros ->. done. }
  intros [st Hst]. split.
  { intros e w'. rewrite Hst. unfold hardened.
    split; (destruct (Wal.harden _) as [[| |] ?] eqn:Hh; [done| |done]; by apply harden_not_err in Hh). }
  intros l w' Hor.
  assert (Hgo : ∃ rd, wal_inv w' (log_of w ++ [commit_record w x rd]) ∧ acked w' x ∧ l = Wal.next_lsn w ∧ active w' !! x = None).
  { destruct Hor as [Hok|Hok]; eexists; (eapply hardened_acks; [done|done| |exact Hok]).
    - by rewrite to_le_bytes_length.
    - apply (room_less w _ 8); [cbn; lia|done]. }
  destruct Hgo as (rd & _ & Hack & -> & Hna). split_and!; [done|done|]. intros w2 Hl.
  destruct Hor as [Hok|Hok].
  - eapply later_acked; [|exact Hl|exact Hack]. eapply (reach_step w (OCommitAt x ts)); [done|done|].
    cbn [exec]. unfold mbind, St_bind. by rewrite commit_at_eq, Hok.
  - eapply later_acked; [|exact Hl|exact Hack]. eapply (reach_step w (OCommit x)); [done|done|].
    cbn [exec]. unfold mbind, St_bind. by rewrite commit_eq, Hok.
Qed.

Lemma crash_recovers (w : M) (s0 : S) (t : T) c0 :
  reaches w → image (sink w) `prefix_of` image s0 → image s0 `prefix_of` written w →
  sink_ok s0 → faultless s0 → unsynced s0 = [] → sk_reclaimed_floor s0 ≤ HEADER_LEN → blen (image s0) ≤ 2 ^ 62 →
  let img := image s0 in let rs := log_in img in
  (∀ bad, (log_records img HEADER_LEN).2 = Some bad → find_genuine img (bad + 1) = None) →
  starts_ok img (blen img) HEADER_LEN →
  on_disk rs (redo_start_of (analysis_of rs)) c0 t → separated rs c0 →
  Wal.open s0 = Ok (mkWal s0 ∅) ∧ rs `prefix_of` log_of w
  ∧ (∃ rep w' t', recover (mkWal s0 ∅, t) = Some (Ok rep, (w', t')) ∧ target_ok t'
      ∧ ∀ p, content p t' = effect p (filter (kept rs) rs) (c0 p))
  ∧ ∀ x, x ≠ 0 → acked w x → ∀ r, r ∈ log_of w → txn_id r = x → r ∈ rs ∧ kept rs r.
Proof.
  intros Hreach Hlo Hhi Hs Hg Hu Hfl Hlen img rs Hgen Hst Hdisk Hsep.
  pose proof (reaches_inv w Hreach) as Hinv. pose proof (reaches_header w Hreach) as Hhd.
  assert (Hle : blen (image (sink w)) ≤ blen img) by (apply prefix_length in Hlo; unfold blen, img; lia).
  destruct (crash_log w _ img Hinv ltac:(lia) Hhi) as (rs1 & rs2 & rest & Hsplit & Hholds & Hrest & Hdur).
  assert (Hrs : rs = rs1) by (by eapply log_in_holds). clearbody rs. subst rs1.
  assert (Hproto : protocol HEADER_LEN rs) by (eapply protocol_prefix; rewrite <- Hsplit; apply Hinv).
  assert (Hlog : log_ok img HEADER_LEN rs rest).
  { split; [done|done|done| |done]. intros Hne. apply Hgen.
    rewrite (log_records_holds _ _ _ _ Hholds Hrest). cbn [snd]. by rewrite decide_False. }
  split_and!.
  - assert (∃ b, img = Wal.header ++ b) as [b Hb]; [|by eapply open_image].
    destruct Hhi as [k Hk]. rewrite (wi_bytes _ _ Hinv) in Hk. exists (drop 8 img).
    rewrite <- (take_drop 8 img) at 1. f_equal. unfold blen, HEADER_LEN in *.
    assert (Ht : take 8 (img ++ k) = Wal.header) by (unfold img; by rewrite <- Hk). by rewrite take_app_le in Ht by lia.
  - exists rs2. done.
  - destruct (recover_spec (mkWal s0 ∅) t HEADER_LEN RECOVERY_WINDOW_BYTES rs rest c0) as (rep & new & w' & t' & Hrun & Hrec);
      [done|done|done| |done|by apply separated_isolated|].
    { cbn [sink]. replace (N.max (N.max HEADER_LEN HEADER_LEN) (sk_reclaimed_floor s0)) with HEADER_LEN by lia. done. }
    exists rep, w', t'. split_and!; [exact Hrun|apply Hrec|apply Hrec].
  - intros x Hx (rc & Hin & Htx & Hty & Hbl) r Hr Hrx.
    eapply (durable_kept w x rs rs2); [by rewrite <- Hsplit|done| |by rewrite <- Hsplit|done].
    apply has_record_in. exists rc. split_and!; [apply Hdur; [done|lia]|done|done].
Qed.
(** C3: What was acknowledged survives. A log is written from its creation by any legal
    operations of the manager, reclamation not being one of them, and the machine crashes
    with the log cut anywhere between what was durable and what was written, at most [2^62]
    bytes, on a sink without faults. Suppose further that the torn rest holds no bytes that
    pass for a record; that the first byte after the header, if any, is not zero or starts a
    whole record; that the pages are such that redo, from where the analysis starts it,
    catches up on each of them, as pages that each reflect a prefix of the log are; and that
    the images of a transaction the crash left unfinished commute with those of later
    records and of other unfinished transactions on the page and are reverted by their undo
    images. Then opening and recovering succeeds; the pages end with the effect of the
    surviving records without the losers', and of every transaction with a durable [Commit]
    record all records survive and are kept. *)
Theorem acknowledged_commits_survive (w : M) (s0 : S) (t : T) c0 :
  reaches w → image (sink w) `prefix_of` image s0 → image s0 `prefix_of` written w →
  sink_ok s0 → faultless s0 → unsynced s0 = [] → sk_reclaimed_floor s0 ≤ HEADER_LEN → blen (image s0) ≤ 2 ^ 62 →
  let img := image s0 in let rs := log_in img in
  (∀ bad, (log_records img HEADER_LEN).2 = Some bad → find_genuine img (bad + 1) = None) →
  starts_ok img (blen img) HEADER_LEN →
  on_disk rs (redo_start_of (analysis_of rs)) c0 t → separated rs c0 →
  Wal.open s0 = Ok (mkWal s0 ∅) ∧ rs `prefix_of` log_of w
  ∧ (∃ rep w' t', recover (mkWal s0 ∅, t) = Some (Ok rep, (w', t'))
      ∧ ∀ p, content p t' = effect p (filter (kept rs) rs) (c0 p))
  ∧ ∀ x, x ≠ 0 → acked w x → ∀ r, r ∈ log_of w → txn_id r = x → r ∈ rs ∧ kept rs r.
Proof.
  intros Hreach Hlo Hhi Hs Hg Hu Hfl Hlen img rs Hgen Hst Hdisk Hsep.
  destruct (crash_recovers w s0 t c0 Hreach Hlo Hhi Hs Hg Hu Hfl Hlen Hgen Hst Hdisk Hsep)
    as (Hopen & Hpre & (rep & w' & t' & Hrun & _ & Hc) & Hack).
  split_and!; [exact Hopen|exact Hpre| |exact Hack]. exists rep, w', t'. split; [exact Hrun|exact Hc].
Qed.
End survive.

(** ** Rolling back a transaction *)

Section rollback.
#[local] Set Default Proof Using "All".
Context `{Crc32c} {S : Type} `{!LogSink S} `{!LogSinkSpec S} `{!ReliableSink S} `{!KeepsUndo S}.
Context {T : Type} `{!ApplyTarget T} `{!PagesSpec T}.
Abbreviation M := (WalManager S).

(** The images rollback applies to page [p], newest entry first. *)
Definition chain_images (p : PageId) (es : list UndoEntry) : list bytes :=
  omap (λ e, if ue_page e =? p then Some (ue_undo e) else None) (reverse es).

(** The bytes of the compensation records. *)
Definition chain_bytes (es : list UndoEntry) : N :=
  foldr (λ e n, N.of_nat (REC_FIXED_PREFIX + 12 + length (ue_undo e)) + n) 0 es.

(** [r] is the compensation record of the entry [e]: it restores the undo image and points to
    the record before the one it compensates. *)
Definition compensates (x : N) (e : UndoEntry) (r : LogRecord) : Prop :=
  r = mkRecord (lsn r) (ue_lsn e) x Clr (ue_page e) (ue_prev e) (ue_undo e) [].

Record rolled (x : N) (w : M) (rs : list LogRecord) (t : T) (es : list UndoEntry) (new : list LogRecord) (w' : M) (t' : T) : Prop := {
  rl_inv : wal_inv w' (rs ++ new);
  rl_good : faultless (sink w');
  rl_clrs : Forall2 (compensates x) (reverse es) new;
  rl_target : target_ok t';
  rl_content p : content p t' = foldl patch (content p t) (chain_images p es);
}.
Lemma chain_bytes_snoc es e :
  chain_bytes (es ++ [e]) = chain_bytes es + N.of_nat (REC_FIXED_PREFIX + 12 + length (ue_undo e)).
Proof. unfold chain_bytes. induction es as [|e' es IH]; cbn [foldr app]; [lia|]. rewrite IH. lia. Qed.

Lemma chain_images_snoc p es e :
  chain_images p (es ++ [e]) = option_list (if ue_page e =? p then Some (ue_undo e) else None) ++ chain_images p es.
Proof. unfold chain_images. rewrite reverse_snoc. apply omap_cons_list. Qed.

Lemma rollback_loop_spec x es : ∀ w rs st t, wal_inv w rs → faultless (sink w) → active w !! x = Some st →
  undo_chain st = es → Wal.next_lsn w + chain_bytes es ≤ 2 ^ 62 →
  target_ok t → Forall (λ e, image_ok (ue_page e) (ue_undo e)) es →
  ∃ new w' t' st', Wal.rollback_loop (Datatypes.S (length es)) x (w, t) = Some (Ok tt, (w', t'))
    ∧ rolled x w rs t es new w' t' ∧ Wal.next_lsn w' ≤ Wal.next_lsn w + chain_bytes es
    ∧ active w' !! x = Some st'.
Proof.
  induction es as [|e es IH] using rev_ind; intros w rs st t Hi Hg Hst Hch Hroom Ht Himg.
  { exists [], w, t, st. cbn [Wal.rollback_loop length]. unfold Wal.compensate_next. rewrite Hst, Hch. split_and!; [done| |lia|done].
    split; [by rewrite app_nil_r|done|constructor|done|done]. }
  apply Forall_app in Himg as [Himg [Hie _]%Forall_cons].
  destruct (compensate_inv w rs x st Hi Hst) as (u & rest & w1 & Hch' & Hu & Htx & He & Hst1 & Hsk & Hi1).
  { rewrite Hch. by destruct es. }
  rewrite Hch in Hch'. apply app_inj_tail in Hch' as [<- ->]. rewrite chain_bytes_snoc in *.
  change (ue_undo (entry_of u)) with (undo u) in *. specialize (Hi1 ltac:(lia)).
  set (c := clr_at (Wal.next_lsn w) u) in *.
  assert (Hn1 : Wal.next_lsn w1 = Wal.next_lsn w + N.of_nat (REC_FIXED_PREFIX + 12 + length (undo u))).
  { rewrite (inv_next _ _ Hi1), (inv_next _ _ Hi), flat_len_app, flat_len_cons. change (flat_len []) with 0.
    unfold Rec.encoded_len. cbn [c clr_at redo undo length]. lia. }
  assert (Hg1 : faultless (sink w1)) by (rewrite Hsk; by apply faultless_append).
  destruct (apply_image_spec (page_id u) (Wal.next_lsn w) (undo u) t Ht Hie) as (t1 & Hap & Ht1 & _ & Hc1 & Hq1).
  destruct (IH w1 _ _ t1 Hi1 Hg1 Hst1 eq_refl ltac:(lia) Ht1 Himg) as (new & w' & t' & st' & Hrun & [Hri Hrg Hrl Hro Hrc] & Hnx & Hst').
  exists (c :: new), w', t', st'. split_and!; [| |lia|done].
  - rewrite length_app. cbn [length]. rewrite Nat.add_1_r. cbn [Wal.rollback_loop] in *. rewrite He, Hap. exact Hrun.
  - split; [by rewrite <- app_assoc in Hri|done| |done|].
    + rewrite reverse_snoc. constructor; [|done]. unfold compensates, c, clr_at. cbn. by rewrite Htx.
    + intros p. rewrite Hrc, chain_images_snoc. cbn [entry_of ue_page ue_undo].
      destruct (N.eqb_spec (page_id u) p) as [<-|Hne]; cbn [option_list app foldl]; [by rewrite Hc1|].
      by rewrite (proj2 (Hq1 p ltac:(congruence))).
Qed.

(** C29: Rolling back an active transaction of a log written from its creation without
    reclamation, on a sink without faults, with room for the new records below [2^62] bytes
    and undo images that are valid for the pages, terminates within one pass over its undo
    chain and succeeds: every page gets the undo images of the chain, newest first; the log
    gains the compensation record of each entry, in that order, followed by one [Abort]
    record, and all of it is durable; and the transaction is no longer active, so a later
    recovery leaves it alone. Rolling back a transaction that is not active does nothing. *)
Theorem rollback_undoes (w : M) (t : T) x : reaches w → faultless (sink w) → x ≤ u64_max →
  match active w !! x with
  | None => Wal.rollback x (w, t) = Some (Ok tt, (w, t))
  | Some st => Wal.next_lsn w + chain_bytes (undo_chain st) ≤ 2 ^ 62 →
      target_ok t → Forall (λ e, image_ok (ue_page e) (ue_undo e)) (undo_chain st) →
      ∃ clrs l w' t', let new := clrs ++ [mkRecord l 0 x Abort 0 0 [] []] in
        Wal.rollback x (w, t) = Some (Ok tt, (w', t'))
        ∧ wal_inv w' (log_of w ++ new) ∧ Forall2 (compensates x) (reverse (undo_chain st)) clrs
        ∧ image (sink w') = written w ++ flat new
        ∧ active w' !! x = None ∧ ¬ loser (log_of w') x
        ∧ ∀ p, content p t' = foldl patch (content p t) (chain_images p (undo_chain st))
  end.
Proof.
  intros Hr Hg Hx. pose proof (reaches_inv w Hr) as Hi. destruct (active w !! x) as [st|] eqn:Hst.
  2:{ unfold Wal.rollback, Wal.undo_chain_len. rewrite Hst. cbn [Wal.rollback_loop]. unfold Wal.compensate_next.
      rewrite Hst. unfold Wal.finish_rollback. by rewrite Hst. }
  intros Hroom Ht Himg. destruct (rollback_loop_spec x _ w _ st t Hi Hg Hst eq_refl Hroom Ht Himg) as (new & w1 & t1 & st1 & Hrun & [Hri Hrg Hrl _ Hrc] & Hnx & Hst1).
  assert (Hroom1 : room w1 0) by (split; [lia|done]).
  pose proof (abort_record_inv w1 _ x Hri ltac:(done) Hx Hroom1) as Hi2.
  set (r := mkRecord (Wal.next_lsn w1) 0 x Abort 0 0 [] []) in *.
  destruct (harden_wrote (ended_at w1 x r)) as (w2 & Hh & Ho2 & Hg2 & Him2 & Hu2 & Hf2 & Ha2); [apply Hi2|by apply faultless_append|].
  destruct (harden_inv _ _ _ Hi2 Hh) as (Hi3 & Him3 & _).
  exists new, (Wal.next_lsn w1), w2, t1. cbn zeta. fold r. rewrite app_assoc. split_and!; [|done|done| | | |done].
  - unfold Wal.rollback, Wal.undo_chain_len. rewrite Hst, Hrun.
    change (Wal.finish_rollback x w1) with (Wal.abort x w1). rewrite abort_eq, Hst1. unfold hardened. fold r. by rewrite Hh.
  - rewrite Him3, (wi_bytes _ _ Hi2), (wi_bytes _ _ Hi). by rewrite !flat_app, <- !app_assoc.
  - rewrite Ha2. cbn [active ended_at Wal.set_active]. apply lookup_delete_eq.
  - rewrite (inv_log_of _ _ Hi3). intros (_ & _ & _ & Hn). apply not_true_iff_false in Hn. apply Hn, has_record_in.
    exists r. split; [set_solver|done].
Qed.
End rollback.
