(* ===== verification/WalExamples.v ===== *)
(** * Recovery at work

    A target with a counter per page whose images are little-endian deltas, as the
    recovery tests use, logs written through the manager, and what recovery does with
    them: the witnesses of the recovery theorems, and a torn tail that a first recovery
    reports as truncated and a second one rejects as interior corruption. *)

From stdpp Require Import options.
From S2P Require Import Prelude Core Bytes WalRecord Checkpoint WalSink WalScan WalScanFacts Wal WalRecovery WalUndo WalEffects WalRecoverySpec WalTrace WalCrash.

(** Pages of counters with the LSN of their last change. *)
Abbreviation Counters := (gmap N (Lsn * Z)).
Definition value (p : PageId) (t : Counters) : Z := match t !! p with Some (_, v) => v | None => 0%Z end.
Definition i64_of (x : N) : Z := (let z := Z.of_N x in if z <? 2 ^ 63 then z else z - 2 ^ 64)%Z.
Definition d (z : Z) : bytes := to_le_bytes 8 (Z.to_N (z mod 2 ^ 64)).
Definition add_delta (v : Z) (img : bytes) : Z := (v + i64_of (from_le_bytes img))%Z.

#[export] Instance counters_target : ApplyTarget Counters := {
  page_lsn p t := match t !! p with Some (l, _) => l | None => 0 end;
  apply_image p l img := λ t, (Ok tt, <[p := (l, add_delta (value p t) img)]> t);
}.

#[export, refine] Instance counters_spec : PagesSpec Counters := {|
  Content := Z;
  content := value;
  patch := add_delta;
  target_ok _ := True;
  image_ok _ _ := True;
|}.
Proof.
  intros p l img t _ _. eexists. split; [done|]. unfold value, page_lsn, counters_target.
  rewrite lookup_insert_eq. split_and!; [done..|]. intros q Hq. by rewrite lookup_insert_ne.
Defined.

#[export, refine] Instance sorted_keys : HashOrder := {| hash_keys m := elements (dom m) |}.
Proof. done. Defined.

(** ** Running the manager over the in-memory sink *)
#[export] Instance mem_keeps_undo : KeepsUndo MemLogSink := λ _, eq_refl.
Definition reopen (img : bytes) : WalManager MemLogSink := mkWal (mkMem [] 0 img [] [] false false) ∅.

Section runs.
Context `{Crc32c}.
#[local] Set Default Proof Using "All".

Definition fresh : WalManager MemLogSink :=
  match Wal.create Mem.new with Ok w => w | _ => mkWal Mem.new ∅ end.
Definition run (ops : list WalOp) (w : WalManager MemLogSink) : WalManager MemLogSink :=
  foldl (λ w o, (exec o w).2) w ops.

Fixpoint all_legal (w : WalManager MemLogSink) (ops : list WalOp) : Prop :=
  match ops with
  | [] => True
  | o :: ops => legal w o ∧ (exec o w).1 = Ok tt ∧ all_legal (exec o w).2 ops
  end.

Lemma run_reaches ops : ∀ w, reaches w → all_legal w ops → reaches (run ops w).
Proof.
  induction ops as [|o ops IH]; intros w Hw; [done|]. intros (Hl & Hok & Hops). cbn [run foldl].
  apply IH; [|done]. eapply reach_step; [exact Hw|exact Hl|]. destruct (exec o w) as [r w']. cbn in *. by subst.
Qed.

Lemma fresh_reaches : reaches fresh.
Proof. eapply (reach_create Mem.new); [|done|done|vm_compute; reflexivity]. split; [split; [done|by left]|done]. Qed.

#[export] Instance legal_dec (w : WalManager MemLogSink) o : Decision (legal w o).
Proof. destruct o; unfold legal, may_write, room; apply _. Defined.
End runs.

#[export] Existing Instance castagnoli.

Definition zeros : PageId → Content (T := Counters) := λ _, 0%Z.

(** Transaction 1 commits; transaction 2 is cut off by the crash, its update in the log. *)
Definition history : list WalOp :=
  [OBegin 1; OUpdate 1 0 (d 10) (d (-10)); OCommit 1; OUpdate 2 0 (d 5) (d (-5)); OFlush].
Definition crashed : WalManager MemLogSink := run history fresh.
Definition crashed_image : bytes := mem_image (sink crashed).
Definition crashed_records : list LogRecord := (λ e, to_owned e.2) <$> (log_records crashed_image HEADER_LEN).1.

(** The same log with the last record torn. *)
Definition torn_image : bytes := take (length crashed_image - 3) crashed_image.

(** A second life of the log: recovered, then a transaction 3 committed on it. *)
Definition second_life (img : bytes) : option (Outcome RecoveryReport * Outcome Lsn * bytes) :=
  match recover (reopen img, ∅ : Counters) with
  | Some (r, (w, _)) =>
      let '(c, w) := (_ ← Wal.log_update 3 0 (d 7) (d (-7)); Wal.commit 3) w in
      Some (r, c, mem_image (sink w))
  | None => None
  end.

(** C30: A torn tail survives its recovery: recovery of a log whose last record is torn
    succeeds and reports the tail as truncated, and a transaction then commits; but the
    torn bytes are still in the log, the new records lie behind them, and the next
    recovery of the log, in which every commit was acknowledged, fails with an interior
    corruption. The same history on the intact log recovers. *)
Theorem torn_tail_blocks_next_recovery :
  ∃ rep l img, second_life torn_image = Some (Ok rep, Ok l, img) ∧ rep_tail_truncated rep = true
    ∧ (∃ s, recover (reopen img, ∅ : Counters) = Some (Err interior_error, s))
    ∧ (∃ rep0 l0 img0 rep1 w1 t1, second_life crashed_image = Some (Ok rep0, Ok l0, img0)
        ∧ recover (reopen img0, ∅ : Counters) = Some (Ok rep1, (w1, t1)) ∧ value 0 t1 = 17%Z).
Proof.
  assert (H1 : match second_life torn_image with
    | Some (Ok rep, Ok l, img) => rep_tail_truncated rep = true ∧
        match recover (reopen img, ∅ : Counters) with Some (Err e, _) => e = interior_error | _ => False end
    | _ => False end) by (vm_compute; done).
  assert (H2 : match second_life crashed_image with
    | Some (Ok _, Ok _, img) =>
        match recover (reopen img, ∅ : Counters) with Some (Ok _, (_, t)) => value 0 t = 17%Z | _ => False end
    | _ => False end) by (vm_compute; done).
  destruct (second_life torn_image) as [[[[rep| |] [l| |]] img]|]; try (exfalso; exact H1). destruct H1 as [Ht H1].
  destruct (second_life crashed_image) as [[[[rep0| |] [l0| |]] img0]|]; try (exfalso; exact H2).
  exists rep, l, img. split_and!; [reflexivity|exact Ht| |].
  - destruct (recover (reopen img, _)) as [[[| |] s]|]; try (exfalso; exact H1). subst. by exists s.
  - destruct (recover (reopen img0, _)) as [[[rep1| |] [w1 t1]]|] eqn:He; try (exfalso; exact H2).
    exists rep0, l0, img0, rep1, w1, t1. split_and!; [reflexivity|exact He|exact H2].
Qed.

(** ** The crashed log meets the hypotheses of the recovery theorems *)
Lemma crashed_log : log_ok crashed_image HEADER_LEN crashed_records [].
Proof.
  split; [|vm_compute; done|by left|done|].
  - split_and!; [|vm_compute; done|vm_compute; done].
    cbv [crashed_records]. vm_compute (log_records _ _). cbn [fmap list_fmap fst snd to_owned]. cbn [laid_out].
    split_and!; try done; split; vm_compute; done.
  - right; left. eexists. split; [vm_compute; reflexivity|done].
Qed.

Lemma crashed_losers x : loser crashed_records x ↔ x = 2.
Proof.
  rewrite <- elem_of_losers. assert (losers_of crashed_records = [2]) as -> by (vm_compute; done).
  apply list_elem_of_singleton.
Qed.

Lemma crashed_on_disk : on_disk crashed_records (redo_start_of (analysis_of crashed_records)) zeros (∅ : Counters).
Proof.
  apply prefix_on_disk; [|done|done|..].
  - exact (laid_out_sorted _ _ (proj1 (lo_holds _ _ _ _ crashed_log))).
  - intros p. change (page_lsn p ∅) with 0.
    assert (filter (λ r, lsn r ≤ 0) crashed_records = []) as -> by (vm_compute; done). done.
  - intros p r Hr _ Hlt. exfalso. assert (Hs : redo_start_of (analysis_of crashed_records) = HEADER_LEN) by (vm_compute; done).
    rewrite Hs in Hlt. pose proof (laid_out_lsn _ _ r (proj1 (lo_holds _ _ _ _ crashed_log)) Hr). lia.
Qed.

(** The update the crash cut off. *)
Definition cut_off : LogRecord := mkRecord 195 0 2 Update 0 0 (d 5) (d (-5)).

Lemma crashed_of_2 : records_of 2 crashed_records = [cut_off].
Proof. vm_compute. reflexivity. Qed.

(** ** The history is legal *)
Lemma crashed_reaches : reaches crashed.
Proof.
  apply run_reaches; [exact fresh_reaches|]. unfold history. cbn [all_legal].
  split_and!; try done; try (vm_compute; reflexivity); apply (bool_decide_unpack _); vm_compute; exact I.
Qed.

Lemma crashed_image_eq : image (sink crashed) = crashed_image.
Proof. reflexivity. Qed.
Lemma crashed_written : written crashed = crashed_image ++ unsynced (sink crashed).
Proof. reflexivity. Qed.
Lemma crashed_log_in : log_in crashed_image = crashed_records.
Proof. reflexivity. Qed.

(** The state in which transaction 1 is about to commit. *)
Definition committing : WalManager MemLogSink := run (take 2 history) fresh.

Lemma committing_legal : reaches committing ∧ legal committing (OCommitAt 1 0) ∧ is_Some (active committing !! 1)
  ∧ Wal.commit 1 committing = (Ok 138, (Wal.commit 1 committing).2).
Proof.
  split_and!; [|apply (bool_decide_unpack _); vm_compute; exact I|vm_compute; by eexists|vm_compute; reflexivity].
  apply run_reaches; [exact fresh_reaches|]. unfold history. cbn [all_legal take].
  split_and!; try done; try (vm_compute; reflexivity); apply (bool_decide_unpack _); vm_compute; exact I.
Qed.

Lemma committing_faultless : faultless (sink committing).
Proof. vm_compute. reflexivity. Qed.

(** Its first transaction is open with one change of page 0 to undo. *)
Lemma committing_open : ∃ st e, active committing !! 1 = Some st ∧ undo_chain st = [e]
  ∧ ue_page e = 0 ∧ ue_undo e = d (-10) ∧ Wal.next_lsn committing + chain_bytes (undo_chain st) ≤ 2 ^ 62.
Proof. do 2 eexists. split; [vm_compute; reflexivity|]. by vm_compute. Qed.

#[local] Opaque crashed crashed_records crashed_image torn_image committing.

Lemma cut_off_in : cut_off ∈ crashed_records.
Proof. apply (proj2 (A := txn_id cut_off = 2)), records_of_in. rewrite crashed_of_2. by left. Qed.

Lemma cut_off_reversible p (c : Z) : reversible (T := Counters) p c (filter (λ r, ¬ redo_only r) [cut_off]).
Proof.
  rewrite filter_cons_True by (intros [? _]; done). cbn [reversible filter list_filter].
  split; [|done]. unfold redo_img, undo_img. cbn [is_page_change is_undoable_action rec_type cut_off page_id andb].
  destruct (0 =? p); [|done]. cbn. unfold add_delta. vm_compute (i64_of _). lia.
Qed.

Lemma crashed_isolated : isolated crashed_records zeros.
Proof.
  split.
  - intros p r r' i j c _ _ _ _ _ _ _. cbn. unfold add_delta. lia.
  - intros x ->%crashed_losers. exists [cut_off], [], [cut_off]. split; [split; [exact crashed_of_2| |constructor|]|].
    + constructor; [|done]. split; [done|by left].
    + split_and!; [exact cut_off_in|done..].
    + intros p. apply cut_off_reversible.
Qed.

Lemma reopen_ok img : sink_ok (sink (reopen img)).
Proof. split; [split; [done|by left]|done]. Qed.



Lemma recovery_repeatable_witness : ∃ rep new w' t',
  recover_from HEADER_LEN (reopen crashed_image, ∅ : Counters) = Some (Ok rep, (w', t'))
  ∧ (blen (image (sink w')) ≤ 2 ^ 62 → ∀ window t2, 4 ≤ window ≤ 2 ^ 62 →
     on_disk (crashed_records ++ new) (redo_start_of (analysis_of (crashed_records ++ new))) zeros t2 →
     ∃ rep2 w2 t3, recover_from_windowed HEADER_LEN window (w', t2) = Some (Ok rep2, (w2, t3))
       ∧ (∀ p, content p t3 = content p t') ∧ image (sink w2) = image (sink w')
       ∧ rep_losers rep2 = O ∧ rep_tail_truncated rep2 = false).
Proof.
  apply (recovery_repeatable (reopen crashed_image) (∅ : Counters) HEADER_LEN crashed_records zeros).
  - apply reopen_ok.
  - done.
  - done.
  - exact crashed_log.
  - exact crashed_on_disk.
  - exact crashed_isolated.
Defined.

Lemma recovery_window_independent_witness :
  recover_from_windowed HEADER_LEN 4 (reopen crashed_image, ∅ : Counters)
  = recover_from_windowed HEADER_LEN 64 (reopen crashed_image, ∅ : Counters).
Proof.
  apply (recovery_window_independent (reopen crashed_image) (∅ : Counters) HEADER_LEN 4 64).
  - apply reopen_ok.
  - done.
  - exact (lo_len _ _ _ _ crashed_log).
  - exact (lo_start _ _ _ _ crashed_log).
  - lia.
  - lia.
Defined.

Lemma crashed_separated : separated crashed_records zeros.
Proof.
  split.
  - intros p r r' i j c _ _ _ _ _ _ _. cbn. unfold add_delta. lia.
  - intros x p ->%crashed_losers. rewrite crashed_of_2.
    assert (filter (λ r, rec_type r ≠ Clr ∧ undo r ≠ []) [cut_off] = filter (λ r, ¬ redo_only r) [cut_off]) as -> by (vm_compute; reflexivity).
    apply cut_off_reversible.
Qed.

Lemma reopened_image img : image (sink (reopen img)) = img.
Proof. done. Qed.

Lemma acknowledged_commits_survive_witness :
  Wal.open (sink (reopen crashed_image)) = Ok (reopen crashed_image)
  ∧ log_in (image (sink (reopen crashed_image))) `prefix_of` log_of crashed
  ∧ (∃ rep w' t', recover (reopen crashed_image, ∅ : Counters) = Some (Ok rep, (w', t'))
      ∧ ∀ p, content p t' = effect p (filter (kept (log_in (image (sink (reopen crashed_image)))))
                                        (log_in (image (sink (reopen crashed_image))))) (zeros p))
  ∧ ∀ x, x ≠ 0 → acked crashed x → ∀ r, r ∈ log_of crashed → txn_id r = x →
      r ∈ log_in (image (sink (reopen crashed_image))) ∧ kept (log_in (image (sink (reopen crashed_image)))) r.
Proof.
  assert (Hrs : log_in (image (sink (reopen crashed_image))) = crashed_records) by (rewrite reopened_image; exact crashed_log_in).
  apply (acknowledged_commits_survive crashed (sink (reopen crashed_image)) (∅ : Counters) zeros).
  - exact crashed_reaches.
  - rewrite reopened_image, crashed_image_eq. exists []. symmetry. apply app_nil_r.
  - rewrite reopened_image. exists (unsynced (sink crashed)). exact crashed_written.
  - apply reopen_ok.
  - done.
  - done.
  - done.
  - exact (lo_len _ _ _ _ crashed_log).
  - intros bad. rewrite reopened_image, (log_records_holds _ _ _ _ (lo_holds _ _ _ _ crashed_log)) by (by left). done.
  - exact (lo_start _ _ _ _ crashed_log).
  - rewrite Hrs. exact crashed_on_disk.
  - rewrite Hrs. exact crashed_separated.
Defined.

Lemma commit_acknowledged_witness :
  ∃ w', Wal.commit 1 committing = (Ok 138, w') ∧ 138 = Wal.next_lsn committing ∧ ∀ w2, later w' w2 → acked w2 1.
Proof.
  destruct committing_legal as (Hreach & Hlegal & Ha & Hc). exists (Wal.commit 1 committing).2. split; [exact Hc|].
  destruct (proj2 (proj2 (commit_acknowledged committing 1 0 Hreach Hlegal) Ha) _ _ (or_intror Hc)) as (Hl & _ & Hk).
  exact (conj Hl Hk).
Defined.

Lemma rollback_undoes_witness :
  ∃ clr l w' t', let new := [clr; mkRecord l 0 1 Abort 0 0 [] []] in
    Wal.rollback 1 (committing, {[0 := (65, 10%Z)]} : Counters) = Some (Ok tt, (w', t'))
    ∧ wal_inv w' (log_of committing ++ new) ∧ rec_type clr = Clr ∧ value 0 t' = 0%Z.
Proof.
  destruct committing_legal as (Hreach & _). destruct committing_open as (st & e & Hst & He & Hp & Hu & Hroom).
  pose proof (rollback_undoes committing ({[0 := (65, 10%Z)]} : Counters) 1 Hreach committing_faultless ltac:(done)) as Hr.
  rewrite Hst in Hr. destruct (Hr Hroom I) as (clrs & l & w' & t' & Hrun & Hinv & Hclr & _ & _ & _ & Hpages).
  { rewrite He. by repeat constructor. }
  rewrite He in Hclr. apply Forall2_cons_inv_l in Hclr as (clr & rest & Hc & Hnil & ->).
  apply Forall2_nil_inv_l in Hnil as ->. exists clr, l, w', t'. cbn zeta. split; [exact Hrun|]. split; [exact Hinv|].
  split; [by rewrite Hc|]. specialize (Hpages 0). unfold chain_images in Hpages. rewrite He in Hpages.
  cbn in Hpages. rewrite Hp, Hu in Hpages. exact Hpages.
Defined.

Lemma wal_invariant_witness :
  written crashed = Wal.header ++ flat (log_of crashed) ∧ protocol HEADER_LEN (log_of crashed)
  ∧ Wal.next_lsn crashed = HEADER_LEN + flat_len (log_of crashed) ∧ HEADER_LEN ≤ Wal.durable_len crashed
  ∧ (∀ x st, active crashed !! x = Some st → x ≠ 0 ∧ unfinished (log_of crashed) x ∧ tracked (log_of crashed) x st)
  ∧ (∀ x, loser (log_of crashed) x → is_Some (active crashed !! x)).
Proof. exact (wal_invariant crashed crashed_reaches). Defined.
