(* ===== verification/PageFormat.v ===== *)
(** * graphus-bufpool: the page header

    [src/crates/graphus-bufpool/src/page.rs]. A page is [PAGE_SIZE] bytes. Its first
    twenty-four hold a checksum of the rest, a type word, the page LSN and the page's
    own id; the rest is the payload. [crc32c] is a parameter. *)

From stdpp Require Import options.
From S2P Require Import Prelude Core Bytes WalRecord.

Definition PAGE_SIZE : nat := N.to_nat 8192.

(** [[u8; PAGE_SIZE]]. *)
Record is_page (p : bytes) : Prop := {
  page_length : length p = PAGE_SIZE;
  page_bytes : is_bytes p;
}.

Definition zero_page : bytes := replicate PAGE_SIZE 0.

Module page.
Section page.
Context `{Crc32c}.

Definition HEADER_SIZE : nat := 24.
Definition OFF_CHECKSUM : nat := 0.
Definition OFF_PAGE_TYPE : nat := 4.
Definition OFF_PAGE_LSN : nat := 8.
Definition OFF_PAGE_ID : nat := 16.

Definition read_u32 (p : bytes) (off : nat) : N := from_le_bytes (take 4 (drop off p)).
Definition read_u64 (p : bytes) (off : nat) : N := from_le_bytes (take 8 (drop off p)).

Definition compute_checksum (p : bytes) : N := crc32c (drop OFF_PAGE_TYPE p).

Definition write_checksum (p : bytes) : bytes :=
  let c := compute_checksum p in copy_at OFF_CHECKSUM (to_le_bytes 4 c) p.

Definition stored_checksum (p : bytes) : N := read_u32 p OFF_CHECKSUM.

Definition verify_checksum (p : bytes) : bool := stored_checksum p =? compute_checksum p.

Definition page_lsn (p : bytes) : Lsn := read_u64 p OFF_PAGE_LSN.

Definition set_page_lsn (p : bytes) (lsn : Lsn) : bytes :=
  let current := read_u64 p OFF_PAGE_LSN in
  let advanced := N.max current lsn in
  copy_at OFF_PAGE_LSN (to_le_bytes 8 advanced) p.

Definition reset_page_lsn (p : bytes) (lsn : Lsn) : bytes := copy_at OFF_PAGE_LSN (to_le_bytes 8 lsn) p.

Definition page_id (p : bytes) : N := read_u64 p OFF_PAGE_ID.

Definition set_page_id (p : bytes) (id : N) : bytes := copy_at OFF_PAGE_ID (to_le_bytes 8 id) p.

Definition page_type (p : bytes) : N := default 0 (p !! OFF_PAGE_TYPE).
Definition set_page_type (p : bytes) (ty : N) : bytes := <[OFF_PAGE_TYPE := ty]> p.
Definition page_subtype (p : bytes) : N := default 0 (p !! (OFF_PAGE_TYPE + 1)%nat).
Definition set_page_subtype (p : bytes) (subtype : N) : bytes := <[(OFF_PAGE_TYPE + 1)%nat := subtype]> p.

(** ** Lemmas *)
Ltac in_page := unfold PAGE_SIZE, HEADER_SIZE, OFF_CHECKSUM, OFF_PAGE_TYPE, OFF_PAGE_LSN, OFF_PAGE_ID in *;
  rewrite ?copy_at_length, ?to_le_bytes_length; lia.

Lemma copy_at_is_page off src p : is_page p → is_bytes src → (off + length src ≤ PAGE_SIZE)%nat →
  is_page (copy_at off src p).
Proof.
  intros [Hl Hb] Hs Ho. split; [by rewrite copy_at_length by lia|by apply copy_at_is_bytes].
Qed.

Lemma zero_page_ok : is_page zero_page.
Proof. split; [apply length_replicate|]. by apply Forall_replicate. Qed.

Lemma insert_is_page i b p : is_page p → b < 256 → is_page (<[i := b]> p).
Proof. intros [Hl Hb] Hlt. split; [by rewrite length_insert|]. by apply Forall_insert. Qed.

(** Every setter of the header keeps the page a page. *)
Lemma write_checksum_ok p : is_page p → is_page (write_checksum p).
Proof. intros Hp. apply copy_at_is_page; [done|apply to_le_bytes_is_bytes|in_page]. Qed.
Lemma set_page_lsn_ok p l : is_page p → is_page (set_page_lsn p l).
Proof. intros Hp. apply copy_at_is_page; [done|apply to_le_bytes_is_bytes|in_page]. Qed.
Lemma reset_page_lsn_ok p l : is_page p → is_page (reset_page_lsn p l).
Proof. intros Hp. apply copy_at_is_page; [done|apply to_le_bytes_is_bytes|in_page]. Qed.
Lemma set_page_id_ok p i : is_page p → is_page (set_page_id p i).
Proof. intros Hp. apply copy_at_is_page; [done|apply to_le_bytes_is_bytes|in_page]. Qed.

(** The checksum written is the one verified, and covers every byte but its own. *)
Lemma verify_write p : is_page p → verify_checksum (write_checksum p) = true.
Proof.
  intros [Hl _]. unfold verify_checksum, stored_checksum, read_u32, compute_checksum, write_checksum.
  rewrite copy_at_same, copy_at_drop by in_page. unfold compute_checksum.
  rewrite from_to_le_bytes by (apply u32_le, crc32c_u32). apply N.eqb_refl.
Qed.

Lemma write_checksum_twice p : is_page p → write_checksum (write_checksum p) = write_checksum p.
Proof.
  intros [Hl _]. unfold write_checksum, compute_checksum. rewrite copy_at_drop by in_page.
  apply copy_at_twice; in_page.
Qed.

(** Whatever the checksum field held. *)
Lemma write_checksum_field ck p : is_page p → length ck = 4%nat → write_checksum (copy_at OFF_CHECKSUM ck p) = write_checksum p.
Proof.
  intros [Hl _] Hck. unfold write_checksum, compute_checksum. rewrite copy_at_drop by in_page. apply copy_at_twice; in_page.
Qed.

(** Writing one field leaves the others. *)
Lemma read_u64_copy_same off v p : length p = PAGE_SIZE → (off + 8 ≤ PAGE_SIZE)%nat → v ≤ u64_max →
  read_u64 (copy_at off (to_le_bytes 8 v) p) off = v.
Proof.
  intros Hl Ho Hv. unfold read_u64. rewrite copy_at_same by in_page. apply from_to_le_bytes. by apply u64_le.
Qed.

Lemma read_u64_copy_other off o src p : length p = PAGE_SIZE → (off + length src ≤ PAGE_SIZE)%nat →
  (o + 8 ≤ off ∨ off + length src ≤ o)%nat → read_u64 (copy_at off src p) o = read_u64 p o.
Proof. intros Hl Ho Hd. unfold read_u64. by rewrite copy_at_other by lia. Qed.

Lemma page_lsn_checksum p : is_page p → page_lsn (write_checksum p) = page_lsn p.
Proof. intros [Hl _]. apply read_u64_copy_other; in_page. Qed.
Lemma page_id_checksum p : is_page p → page_id (write_checksum p) = page_id p.
Proof. intros [Hl _]. apply read_u64_copy_other; in_page. Qed.
Lemma page_lsn_set_id p i : is_page p → page_lsn (set_page_id p i) = page_lsn p.
Proof. intros [Hl _]. apply read_u64_copy_other; in_page. Qed.
Lemma page_id_set_id p i : is_page p → i ≤ u64_max → page_id (set_page_id p i) = i.
Proof. intros [Hl _] Hi. apply read_u64_copy_same; [done|in_page|done]. Qed.
Lemma page_lsn_reset p l : is_page p → l ≤ u64_max → page_lsn (reset_page_lsn p l) = l.
Proof. intros [Hl _] Hi. apply read_u64_copy_same; [done|in_page|done]. Qed.
Lemma page_lsn_lt p : is_page p → page_lsn p ≤ u64_max.
Proof.
  intros [_ Hb]. pose proof (from_piece_lt p OFF_PAGE_LSN 8 Hb) as Hlt. unfold page_lsn, read_u64.
  change (256 ^ N.of_nat 8) with 18446744073709551616 in Hlt. unfold u64_max. lia.
Qed.
Lemma page_lsn_set p l : is_page p → l ≤ u64_max → page_lsn (set_page_lsn p l) = N.max (page_lsn p) l.
Proof.
  intros Hp Hi. pose proof (page_lsn_lt p Hp) as Hlt. unfold set_page_lsn. fold (page_lsn p).
  apply read_u64_copy_same; [apply Hp|in_page|lia].
Qed.

End page.
End page.
