(* ===== verification/Paging.v ===== *)
(** * graphus-storage: records in pages and page patches

    [src/crates/graphus-storage/src/paging.rs]: where the fixed-size records of a store
    lie in its pages, and the byte patches that are the redo and undo images of the log. *)

From stdpp Require Import options.
From S2P Require Import Prelude Core Bytes WalRecord PageFormat.

Module paging.

Definition PAGE_PAYLOAD : nat := PAGE_SIZE - page.HEADER_SIZE.

Definition records_per_page (record_size : nat) : Outcome nat :=
  if negb (0 <? record_size)%nat then Panic "record size must be non-zero"
  else if negb (record_size <=? PAGE_PAYLOAD)%nat then Panic "record larger than a page"
  else Ok (PAGE_PAYLOAD / record_size)%nat.

Definition record_location (id : N) (record_size : nat) : Outcome (N * nat) :=
  match records_per_page record_size with
  | Ok rpp =>
      let rpp := N.of_nat rpp in
      let page := id / rpp in
      let slot := N.to_nat (id mod rpp) in
      Ok (page, (page.HEADER_SIZE + slot * record_size)%nat)
  | Err e => Err e
  | Panic m => Panic m
  end.

(** The release profile multiplies modulo [2^64]. *)
Definition capacity (page_count : N) (record_size : nat) : Outcome N :=
  match records_per_page record_size with
  | Ok rpp => Ok ((page_count * N.of_nat rpp) mod 2 ^ 64)
  | Err e => Err e
  | Panic m => Panic m
  end.

Definition encode_patch (offset : nat) (bs : bytes) : Outcome bytes :=
  if negb (offset + length bs <=? PAGE_SIZE)%nat then Panic "patch runs past the page"
  else Ok (to_le_bytes 2 (N.of_nat offset) ++ bs).

Definition CAS_SENTINEL : N := 65535.

Definition encode_cas_patch (offset : nat) (expect new : N) : Outcome bytes :=
  if negb (offset + 8 <=? PAGE_SIZE)%nat then Panic "cas patch runs past the page"
  else if negb ((N.of_nat offset <=? 65535) && negb (N.of_nat offset mod 2 ^ 16 =? CAS_SENTINEL))
  then Panic "cas patch offset is not addressable"
  else Ok (to_le_bytes 2 CAS_SENTINEL ++ to_le_bytes 2 (N.of_nat offset) ++ to_le_bytes 8 expect ++ to_le_bytes 8 new).

(** The page after the patch; an error leaves the page as it was. *)
Definition apply_patch (p patch : bytes) : Outcome bytes :=
  if (length patch <? 2)%nat then Err (Storage "patch too short")
  else
    let lead := from_le_bytes (take 2 patch) in
    if lead =? CAS_SENTINEL then
      if negb (length patch =? 2 + 2 + 8 + 8)%nat then Err (Storage "malformed cas patch")
      else
        let offset := N.to_nat (from_le_bytes (take 2 (drop 2 patch))) in
        let expect := from_le_bytes (take 8 (drop 4 patch)) in
        let new := from_le_bytes (take 8 (drop 12 patch)) in
        let end_ := (offset + 8)%nat in
        if (length p <? end_)%nat then Err (Storage "cas patch runs past the page")
        else
          let current := from_le_bytes (take 8 (drop offset p)) in
          if current =? expect then Ok (copy_at offset (to_le_bytes 8 new) p) else Ok p
    else
      let offset := N.to_nat lead in
      let bs := drop 2 patch in
      let end_ := (offset + length bs)%nat in
      if (length p <? end_)%nat then Err (Storage "patch runs past the page")
      else Ok (copy_at offset bs p).

End paging.

(** ** Patches as values *)

(** What a well-formed image says. *)
Inductive Patch :=
  | Plain (offset : nat) (bs : bytes)
  | Cas (offset : nat) (expect new : N).

Definition encode (q : Patch) : Outcome bytes :=
  match q with
  | Plain o bs => paging.encode_patch o bs
  | Cas o e n => paging.encode_cas_patch o e n
  end.

Definition u64_at (o : nat) (p : bytes) : N := from_le_bytes (take 8 (drop o p)).

Definition perform (q : Patch) (p : bytes) : bytes :=
  match q with
  | Plain o bs => copy_at o bs p
  | Cas o e n => if u64_at o p =? e then copy_at o (to_le_bytes 8 n) p else p
  end.

Definition first_byte (q : Patch) : nat := match q with Plain o _ | Cas o _ _ => o end.
Definition width (q : Patch) : nat := match q with Plain _ bs => length bs | Cas _ _ _ => 8 end.

(** A patch within a page, of machine integers. *)
Record patch_ok (q : Patch) : Prop := {
  po_fits : (first_byte q + width q ≤ PAGE_SIZE)%nat;
  po_bytes : match q with Plain _ bs => is_bytes bs | Cas _ e n => e ≤ u64_max ∧ n ≤ u64_max end;
}.

(** ** The encoding of patches *)
Lemma sentinel_le : to_le_bytes 2 paging.CAS_SENTINEL = [255; 255].
Proof. done. Qed.

Lemma offset_roundtrip (o : nat) : (o ≤ PAGE_SIZE)%nat → from_le_bytes (to_le_bytes 2 (N.of_nat o)) = N.of_nat o.
Proof. intros Ho. apply from_to_le_bytes. change (256 ^ N.of_nat 2) with 65536. unfold PAGE_SIZE in Ho. lia. Qed.

(** An encoded patch is applied as it says. *)
Lemma encode_apply q : patch_ok q → ∃ img, encode q = Ok img ∧ is_bytes img
  ∧ ∀ p, length p = PAGE_SIZE → paging.apply_patch p img = Ok (perform q p).
Proof.
  intros [Hf Hb]. destruct q as [o bs|o e n]; cbn [first_byte width encode] in *.
  - exists (to_le_bytes 2 (N.of_nat o) ++ bs). unfold paging.encode_patch.
    destruct (Nat.leb_spec (o + length bs) PAGE_SIZE); [|lia]. split_and!; [done|apply is_bytes_app; auto using to_le_bytes_is_bytes|].
    intros p Hp. unfold paging.apply_patch. rewrite take_app_length', drop_app_length' by (by rewrite to_le_bytes_length).
    rewrite offset_roundtrip by lia. rewrite length_app, to_le_bytes_length.
    destruct (Nat.ltb_spec (2 + length bs) 2); [lia|].
    destruct (N.eqb_spec (N.of_nat o) paging.CAS_SENTINEL) as [He|_]; [unfold paging.CAS_SENTINEL, PAGE_SIZE in *; lia|].
    rewrite Nat2N.id. destruct (Nat.ltb_spec (length p) (o + length bs)); [lia|done].
  - destruct Hb as [He Hn].
    exists (to_le_bytes 2 paging.CAS_SENTINEL ++ to_le_bytes 2 (N.of_nat o) ++ to_le_bytes 8 e ++ to_le_bytes 8 n).
    unfold paging.encode_cas_patch. destruct (Nat.leb_spec (o + 8) PAGE_SIZE); [|lia]. cbn [negb].
    assert (Ho : N.of_nat o < 65535) by (unfold PAGE_SIZE in *; lia).
    rewrite N.mod_small by (change (2 ^ 16) with 65536; lia). destruct (N.leb_spec (N.of_nat o) 65535); [|lia].
    destruct (N.eqb_spec (N.of_nat o) paging.CAS_SENTINEL); [unfold paging.CAS_SENTINEL in *; lia|]. cbn [negb andb].
    split_and!; [done|rewrite !is_bytes_app; auto using to_le_bytes_is_bytes|].
    intros p Hp. set (img := _ ++ _). assert (Hlen : length img = 20%nat) by (unfold img; by rewrite !length_app, !to_le_bytes_length).
    unfold paging.apply_patch. rewrite Hlen. change (20 <? 2)%nat with false. change (negb (20 =? 2 + 2 + 8 + 8)%nat) with false. cbn iota.
    assert (T0 : take 2 img = [255; 255]) by done.
    assert (T2 : take 2 (drop 2 img) = to_le_bytes 2 (N.of_nat o)) by done.
    assert (T4 : take 8 (drop 4 img) = to_le_bytes 8 e) by done.
    assert (T12 : take 8 (drop 12 img) = to_le_bytes 8 n) by done.
    rewrite T0, T2, T4, T12, offset_roundtrip, Nat2N.id, !from_to_le_bytes by (lia || by apply u64_le).
    change (from_le_bytes [255; 255] =? paging.CAS_SENTINEL) with true. cbn iota.
    destruct (Nat.ltb_spec (length p) (o + 8)); [lia|]. cbn [perform]. unfold u64_at.
    by destruct (from_le_bytes (take 8 (drop o p)) =? e).
Qed.

(** Whatever is applied is an encoded patch. *)
Lemma apply_encoded p img p' : length p = PAGE_SIZE → is_bytes img → paging.apply_patch p img = Ok p' →
  ∃ q, patch_ok q ∧ encode q = Ok img ∧ p' = perform q p.
Proof.
  intros Hp Hi. unfold paging.apply_patch. destruct (Nat.ltb_spec (length img) 2) as [|H2]; [done|].
  assert (Hlead : to_le_bytes 2 (from_le_bytes (take 2 img)) = take 2 img) by (apply (to_from_piece img 0 2); [done|lia]).
  destruct (N.eqb_spec (from_le_bytes (take 2 img)) paging.CAS_SENTINEL) as [He|He].
  - destruct (Nat.eqb_spec (length img) (2 + 2 + 8 + 8)) as [Hl|]; [|done]. cbn [negb].
    set (o := N.to_nat (from_le_bytes (take 2 (drop 2 img)))). set (e := from_le_bytes (take 8 (drop 4 img))).
    set (n := from_le_bytes (take 8 (drop 12 img))).
    destruct (Nat.ltb_spec (length p) (o + 8)) as [|Ho]; [done|]. intros Hr.
    assert (He64 : e ≤ u64_max ∧ n ≤ u64_max).
    { pose proof (from_piece_lt img 4 8 Hi). pose proof (from_piece_lt img 12 8 Hi).
      change (256 ^ N.of_nat 8) with 18446744073709551616 in *. unfold e, n, u64_max. lia. }
    assert (Hok : patch_ok (Cas o e n)) by (split; [cbn; lia|done]).
    exists (Cas o e n). split; [done|]. split; [|cbn [perform]; unfold u64_at; destruct (_ =? e); by simplify_eq].
    cbn [encode]. unfold paging.encode_cas_patch. destruct (Nat.leb_spec (o + 8) PAGE_SIZE); [|lia]. cbn [negb].
    assert (Ho2 : N.of_nat o < 65535) by (unfold PAGE_SIZE in *; lia).
    rewrite N.mod_small by (change (2 ^ 16) with 65536; lia). destruct (N.leb_spec (N.of_nat o) 65535); [|lia].
    destruct (N.eqb_spec (N.of_nat o) paging.CAS_SENTINEL); [unfold paging.CAS_SENTINEL in *; lia|]. cbn [negb andb]. f_equal.
    unfold o, e, n. rewrite N2Nat.id, !to_from_piece, <- He, Hlead by (done || lia).
    rewrite (pieces_app_eq img 4 8 12 8) by lia. rewrite (pieces_app_eq img 2 2 4 (8 + 8)) by lia.
    replace (take 2 img) with (take 2 (drop 0 img)) by by rewrite drop_0. rewrite (pieces_app_eq img 0 2 2) by lia.
    rewrite drop_0. apply take_ge. lia.
  - set (o := N.to_nat (from_le_bytes (take 2 img))).
    destruct (Nat.ltb_spec (length p) (o + length (drop 2 img))) as [|Ho]; [done|]. intros [= <-].
    exists (Plain o (drop 2 img)). split; [split; [cbn; lia|by apply is_bytes_drop]|]. split; [|done].
    cbn [encode]. unfold paging.encode_patch. destruct (Nat.leb_spec (o + length (drop 2 img)) PAGE_SIZE); [|lia]. cbn [negb]. f_equal.
    unfold o. rewrite N2Nat.id, Hlead. apply take_drop.
Qed.

Lemma perform_is_page q p : patch_ok q → is_page p → is_page (perform q p).
Proof.
  intros [Hf Hb] Hp. destruct q as [o bs|o e n]; cbn [perform first_byte width] in *.
  - by apply page.copy_at_is_page.
  - case_match; [|done]. apply page.copy_at_is_page; [done|apply to_le_bytes_is_bytes|by rewrite to_le_bytes_length].
Qed.

(** ** Restoring a region *)
Lemma copy_at_restore o (bs p : bytes) : (o + length bs ≤ length p)%nat →
  copy_at o (take (length bs) (drop o p)) (copy_at o bs p) = p.
Proof.
  intros Hl. assert (Hlt : length (take (length bs) (drop o p)) = length bs) by (rewrite length_take, length_drop; lia).
  apply list_eq. intros i. rewrite !copy_at_lookup by (rewrite ?copy_at_length; lia). rewrite Hlt.
  case_decide; [|done]. rewrite lookup_take_lt, lookup_drop by lia. f_equal. lia.
Qed.

Lemma u64_at_copy o n p : (o + 8 ≤ length p)%nat → n ≤ u64_max → u64_at o (copy_at o (to_le_bytes 8 n) p) = n.
Proof.
  intros Hl Hn. unfold u64_at. rewrite copy_at_same by (rewrite ?to_le_bytes_length; lia).
  apply from_to_le_bytes. by apply u64_le.
Qed.

Lemma to_u64_at o p : is_bytes p → (o + 8 ≤ length p)%nat → to_le_bytes 8 (u64_at o p) = take 8 (drop o p).
Proof. intros Hb Hl. by apply to_from_piece. Qed.

(** ** Where records lie *)

(** The byte ranges of two locations have no byte in common. *)
Definition apart (sz : nat) (a b : N * nat) : Prop := a.1 ≠ b.1 ∨ (a.2 + sz ≤ b.2)%nat ∨ (b.2 + sz ≤ a.2)%nat.

Lemma records_per_page_ok sz : (0 < sz ≤ paging.PAGE_PAYLOAD)%nat →
  ∃ rpp, paging.records_per_page sz = Ok rpp ∧ (0 < rpp)%nat ∧ (rpp * sz ≤ paging.PAGE_PAYLOAD)%nat.
Proof.
  intros [H0 H1]. exists (paging.PAGE_PAYLOAD / sz)%nat. unfold paging.records_per_page.
  destruct (Nat.ltb_spec 0 sz); [|lia]. destruct (Nat.leb_spec sz paging.PAGE_PAYLOAD); [|lia]. cbn [negb].
  split_and!; [done|apply Nat.div_str_pos; lia|]. rewrite Nat.mul_comm. apply Nat.Div0.mul_div_le.
Qed.

(** Every record of a store lies in the payload of one page, two records never share a
    byte, and a store of [n] pages holds exactly the records below its capacity; a
    record size of zero or beyond a page is refused by a panic. *)
Theorem record_layout (sz : nat) :
  ((0 < sz ≤ paging.PAGE_PAYLOAD)%nat →
    ∃ loc : N → N * nat,
      (∀ id, paging.record_location id sz = Ok (loc id)
        ∧ (page.HEADER_SIZE ≤ (loc id).2)%nat ∧ ((loc id).2 + sz ≤ PAGE_SIZE)%nat)
      ∧ (∀ id id', id ≠ id' → apart sz (loc id) (loc id'))
      ∧ ∀ n c, paging.capacity n sz = Ok c → n * N.of_nat paging.PAGE_PAYLOAD ≤ u64_max →
          ∀ id, id < c ↔ (loc id).1 < n)
  ∧ (sz = 0%nat ∨ (paging.PAGE_PAYLOAD < sz)%nat → ∀ id, is_panic (paging.record_location id sz) = true).
Proof.
  split.
  - intros Hsz. destruct (records_per_page_ok sz Hsz) as (rpp & Hr & H0 & Hfit).
    set (r := N.of_nat rpp). assert (Hr0 : r ≠ 0) by lia.
    exists (λ id, (id / r, (page.HEADER_SIZE + N.to_nat (id mod r) * sz)%nat)).
    assert (Hin : ∀ id, (N.to_nat (id mod r) * sz + sz ≤ rpp * sz)%nat).
    { intros id. assert ((N.to_nat (id mod r) + 1) * sz ≤ rpp * sz)%nat; [|lia].
      apply Nat.mul_le_mono_r. pose proof (N.mod_lt id r Hr0). lia. }
    split_and!.
    + intros id. unfold paging.record_location. rewrite Hr. split_and!; [done|apply Nat.le_add_r|].
      specialize (Hin id). cbn [snd]. unfold paging.PAGE_PAYLOAD, page.HEADER_SIZE, PAGE_SIZE in *. lia.
    + intros id id' Hne. unfold apart. cbn [fst snd]. destruct (decide (id / r = id' / r)) as [Hq|]; [right|by left].
      assert (Hm : id mod r ≠ id' mod r).
      { intros Hm. apply Hne. rewrite (N.div_mod id r Hr0), (N.div_mod id' r Hr0), Hq, Hm. done. }
      assert (Hlt : ∀ a b : nat, (a < b)%nat → (a * sz + sz ≤ b * sz)%nat).
      { intros a b Hab. assert ((a + 1) * sz ≤ b * sz)%nat; [apply Nat.mul_le_mono_r|]; lia. }
      destruct (N.lt_trichotomy (id mod r) (id' mod r)) as [Hl|[?|Hl]]; [|done|].
      * left. pose proof (Hlt (N.to_nat (id mod r)) (N.to_nat (id' mod r)) ltac:(lia)). lia.
      * right. pose proof (Hlt (N.to_nat (id' mod r)) (N.to_nat (id mod r)) ltac:(lia)). lia.
    + intros n c. unfold paging.capacity. rewrite Hr. intros [= <-] Hn id. cbn [fst]. fold r.
      assert (n * r ≤ u64_max).
      { etransitivity; [|exact Hn]. apply N.mul_le_mono_l. assert (rpp * 1 ≤ rpp * sz)%nat by (apply Nat.mul_le_mono_l; lia). unfold r. lia. }
      rewrite N.mod_small by (unfold u64_max in *; lia). split.
      * intros Hlt. apply N.Div0.div_lt_upper_bound. lia.
      * intros Hlt. pose proof (N.div_mod id r Hr0). pose proof (N.mod_lt id r Hr0). nia.
  - intros Hbad id. unfold paging.record_location, paging.records_per_page.
    destruct (Nat.ltb_spec 0 sz); cbn [negb]; [|done]. destruct (Nat.leb_spec sz paging.PAGE_PAYLOAD); [lia|done].
Qed.

(** The images the log stores for a page are exactly the encodings of patches within a
    page: each patch is encoded and applied as it says, and every image that is accepted
    is such an encoding. A plain patch is undone by the patch of the bytes it replaced;
    a compare-and-set is undone by its reverse unless a later writer replaced the word,
    whose word it then keeps. *)
Theorem patch_codec (q : Patch) : patch_ok q →
  (∃ img, encode q = Ok img ∧ is_bytes img
    ∧ ∀ p, length p = PAGE_SIZE → paging.apply_patch p img = Ok (perform q p))
  ∧ (∀ p img p', length p = PAGE_SIZE → is_bytes img → paging.apply_patch p img = Ok p' →
      ∃ q', patch_ok q' ∧ encode q' = Ok img ∧ p' = perform q' p)
  ∧ (∀ p, is_page p → match q with
      | Plain o bs => perform (Plain o (take (length bs) (drop o p))) (perform q p) = p
      | Cas o e n =>
          (u64_at o p = e → perform (Cas o n e) (perform q p) = p)
          ∧ (u64_at o p ≠ n → perform (Cas o n e) p = p)
      end).
Proof.
  intros Hq. split; [by apply encode_apply|]. split; [apply apply_encoded|]. intros p Hp.
  destruct Hq as [Hf Hb]. destruct q as [o bs|o e n]; cbn [first_byte width perform] in *.
  - apply copy_at_restore. by rewrite (page_length _ Hp).
  - destruct Hb as [He Hn]. split.
    + intros Ho. rewrite Ho, N.eqb_refl, u64_at_copy, N.eqb_refl by (rewrite ?(page_length _ Hp); done).
      rewrite <- Ho, to_u64_at by (rewrite ?(page_length _ Hp); apply Hp || done).
      pose proof (copy_at_restore o (to_le_bytes 8 n) p) as Hr. rewrite to_le_bytes_length in Hr.
      apply Hr. by rewrite (page_length _ Hp).
    + intros Ho. by destruct (N.eqb_spec (u64_at o p) n).
Qed.

Lemma patch_codec_witness : patch_ok (Cas 100 7 9) ∧ perform (Cas 100 9 7) zero_page = zero_page.
Proof.
  assert (Hok : patch_ok (Cas 100 7 9)) by (split; [unfold PAGE_SIZE; cbn; lia|done]). split; [done|].
  destruct (patch_codec (Cas 100 7 9) Hok) as (_ & _ & H). specialize (H zero_page page.zero_page_ok) as [_ H]. apply H.
  by vm_compute.
Defined.

(** ** Replaying a page's patches *)
Definition replay (qs : list Patch) (p : bytes) : bytes := foldl (λ p q, perform q p) p qs.

(** [q]'s bytes contain those of the compare-and-set, or have none in common with them. *)
Definition whole_on (q : Patch) (o : nat) : Prop :=
  (first_byte q ≤ o ∧ o + 8 ≤ first_byte q + width q)%nat
  ∨ (o + 8 ≤ first_byte q ∨ first_byte q + width q ≤ o)%nat.

(** The words the compare-and-sets guard are written as wholes. *)
Definition words_whole (qs : list Patch) : Prop :=
  ∀ o e n q, Cas o e n ∈ qs → q ∈ qs → whole_on q o.

(** Every compare-and-set of the history took effect. *)
Fixpoint all_fire (qs : list Patch) (p : bytes) : Prop :=
  match qs with
  | [] => True
  | q :: qs => (match q with Cas o e _ => u64_at o p = e | Plain _ _ => True end) ∧ all_fire qs (perform q p)
  end.

(** A page put together from images of different times: every byte, and every guarded
    word, is as it was after some prefix of the history. *)
Record pieced (qs : list Patch) (old c : bytes) : Prop := {
  pc_length : length c = length old;
  pc_byte i : ∃ k, c !! i = replay (take k qs) old !! i;
  pc_word o e n : Cas o e n ∈ qs → ∃ k, ∀ i, (o ≤ i < o + 8)%nat → c !! i = replay (take k qs) old !! i;
}.

Definition inside (q : Patch) (i : nat) : Prop := (first_byte q ≤ i < first_byte q + width q)%nat.

Lemma perform_length q p : (first_byte q + width q ≤ length p)%nat → length (perform q p) = length p.
Proof.
  intros Hl. destruct q as [o bs|o e n]; cbn [perform first_byte width] in *; [by apply copy_at_length|].
  case_match; [|done]. apply copy_at_length. by rewrite to_le_bytes_length.
Qed.

Lemma perform_outside q p i : (first_byte q + width q ≤ length p)%nat → ¬ inside q i → perform q p !! i = p !! i.
Proof.
  intros Hl Hi. unfold inside in Hi. destruct q as [o bs|o e n]; cbn [perform first_byte width] in *.
  - rewrite copy_at_lookup by done. by rewrite decide_False.
  - case_match; [|done]. rewrite copy_at_lookup by (by rewrite to_le_bytes_length).
    rewrite decide_False; [done|]. by rewrite to_le_bytes_length.
Qed.

(** A patch that takes effect on two pages writes the same bytes on both. *)
Lemma perform_inside q p p' i : (first_byte q + width q ≤ length p)%nat → length p' = length p → inside q i →
  (match q with Cas o e _ => u64_at o p = e ∧ u64_at o p' = e | Plain _ _ => True end) →
  perform q p !! i = perform q p' !! i.
Proof.
  intros Hl Hl' Hi Hf. unfold inside in Hi. destruct q as [o bs|o e n]; cbn [perform first_byte width] in *.
  - rewrite !copy_at_lookup by lia. by rewrite !decide_True.
  - destruct Hf as [-> ->]. rewrite N.eqb_refl, !copy_at_lookup by (rewrite to_le_bytes_length; lia).
    by rewrite !decide_True by (by rewrite to_le_bytes_length).
Qed.

Lemma u64_at_ext o (p p' : bytes) : (∀ i, (o ≤ i < o + 8)%nat → p !! i = p' !! i) → u64_at o p = u64_at o p'.
Proof.
  intros He. unfold u64_at. f_equal. apply list_eq. intros i. destruct (decide (i < 8)%nat).
  - rewrite !lookup_take_lt, !lookup_drop by done. apply He. lia.
  - by rewrite !lookup_take_ge by lia.
Qed.

Section step.
Context (q : Patch) (qs : list Patch) (old c : bytes).
Context (Hfit : (first_byte q + width q ≤ length old)%nat) (Hlen : length c = length old).
Context (Hfire : match q with Cas o e _ => u64_at o old = e | Plain _ _ => True end).
#[local] Set Default Proof Using "All".

Lemma perform_inside_piece i : inside q i →
  (match q with Cas o e _ => u64_at o c = e | Plain _ _ => True end) →
  perform q c !! i = perform q old !! i.
Proof. intros Hi Hc. apply perform_inside; [lia|done|done|]. destruct q; [done|by rewrite Hc, Hfire]. Qed.

Lemma patch_view : (∃ o bs, q = Plain o bs) ∨ ∃ o e n, q = Cas o e n.
Proof. destruct q; eauto. Qed.

(** Bytes of one age keep a common age across a step that misses them. *)
Lemma outside_age (R : nat → Prop) k : (∀ i, R i → ¬ inside q i) →
  (∀ i, R i → c !! i = replay (take k (q :: qs)) old !! i) →
  ∃ k', ∀ i, R i → perform q c !! i = replay (take k' qs) (perform q old) !! i.
Proof.
  intros Hout Hage. exists (pred k). intros i Hi. rewrite perform_outside, Hage by (auto || lia).
  destruct k; [|done]. cbn [take replay foldl]. symmetry. apply perform_outside; [lia|auto].
Qed.

(** The word of a compare-and-set after a step. *)
Lemma word_age o' e' n' k : q = Cas o' e' n' →
  (∀ i, (o' ≤ i < o' + 8)%nat → c !! i = replay (take k (q :: qs)) old !! i) →
  ∃ k', ∀ i, (o' ≤ i < o' + 8)%nat → perform q c !! i = replay (take k' qs) (perform q old) !! i.
Proof.
  intros Hq Hage. destruct (decide (u64_at o' c = e')) as [He|He].
  - exists 0%nat. intros i Hi. cbn [take replay foldl]. apply perform_inside_piece; rewrite Hq in *; [exact Hi|done].
  - exists (pred k). intros i Hi.
    assert (perform q c = c) as -> by (rewrite Hq; cbn [perform]; by destruct (N.eqb_spec (u64_at o' c) e')).
    destruct k as [|k]; [|by apply Hage]. exfalso. apply He. rewrite Hq in Hfire. rewrite <- Hfire.
    by apply u64_at_ext.
Qed.

Lemma pieced_step : (∀ o e n, Cas o e n ∈ q :: qs → whole_on q o) →
  pieced (q :: qs) old c → pieced qs (perform q old) (perform q c).
Proof.
  intros Hw [_ Hb Hg]. split.
  - rewrite !perform_length; lia.
  - intros i. destruct (decide (first_byte q ≤ i < first_byte q + width q)%nat) as [Hi|Hi].
    + destruct patch_view as [(o & bs & Hq)|(o & e & n & Hq)].
      * exists 0%nat. cbn [take replay foldl]. apply perform_inside_piece; [exact Hi|by rewrite Hq].
      * destruct (Hg o e n ltac:(rewrite Hq; by left)) as [k Hk].
        destruct (word_age o e n k Hq Hk) as [k' Hk']. exists k'. apply Hk'. by rewrite Hq in Hi.
    + destruct (Hb i) as [k Hk]. destruct (outside_age (λ j, j = i) k) as [k' Hk'].
      * by intros j ->.
      * by intros j ->.
      * exists k'. by apply Hk'.
  - intros o e n Hin. destruct (Hg o e n ltac:(by right)) as [k Hk]. destruct (Hw o e n ltac:(by right)) as [Hc|Hd].
    + destruct patch_view as [(o' & bs & Hq)|(o' & e' & n' & Hq)].
      * exists 0%nat. intros i Hi. cbn [take replay foldl]. apply perform_inside_piece; [unfold inside; lia|by rewrite Hq].
      * rewrite Hq in Hc. cbn [first_byte width] in Hc. assert (o = o') as -> by lia. by apply (word_age o' e' n' k).
    + apply (outside_age (λ i, o ≤ i < o + 8)%nat k); [|done]. intros i Hi. unfold inside. lia.
Qed.
End step.

(** Replaying a page's history over a page put together from images of different times,
    as a torn write leaves it, ends in the page the history leaves: patches need not be
    idempotent for this, provided that every compare-and-set of the history took effect
    and the words they guard are written and torn as wholes. *)
Theorem replay_heals (qs : list Patch) (old c : bytes) :
  Forall (λ q, (first_byte q + width q ≤ length old)%nat) qs → words_whole qs → all_fire qs old →
  pieced qs old c → replay qs c = replay qs old.
Proof.
  revert old c. induction qs as [|q qs IH]; intros old c Hfit Hw Hf Hp.
  - apply list_eq. intros i. destruct (pc_byte _ _ _ Hp i) as [k Hk]. by rewrite take_nil in Hk.
  - apply Forall_cons in Hfit as [Hq Hfit]. destruct Hf as [Hfq Hf]. cbn [replay foldl]. apply IH.
    + by rewrite perform_length.
    + intros o e n q' Hin Hin'. apply (Hw o e n q'); by right.
    + done.
    + apply (pieced_step q qs old c); [done|apply Hp|done| |done]. intros o e n Hin. apply (Hw o e n q); [done|by left].
Qed.

(** A history of a word and of bytes beside it, replayed over its last image. *)
Definition small_history : list Patch := [Cas 8 0 5; Plain 20 [7]; Cas 8 5 6].
Definition small_page : bytes := replicate 32 0.

Lemma replay_heals_witness :
  replay small_history (replay (take 2 small_history) small_page) = replay small_history small_page.
Proof.
  apply (replay_heals small_history small_page).
  - by repeat constructor.
  - intros o e n q Hin Hin'. unfold small_history in *. rewrite !elem_of_cons, !elem_of_nil in *.
    unfold whole_on. destruct Hin as [Hin|[Hin|[Hin|[]]]]; simplify_eq; destruct Hin' as [->|[->|[->|[]]]]; cbn; lia.
  - by vm_compute.
  - split; [done| |].
    + intros i. by exists 2%nat.
    + intros o e n Hin. by exists 2%nat.
Defined.

(** A word of which a torn write left the first [k] bytes new and the others old. *)
Definition torn_word (k : nat) (e n : N) : bytes := take k (to_le_bytes 8 n) ++ drop k (to_le_bytes 8 e).

(** Redo of a page: its images one after the other. *)
Definition apply_all (imgs : list bytes) (p : bytes) : Outcome bytes :=
  foldl (λ o img, match o with Ok p => paging.apply_patch p img | r => r end) (Ok p) imgs.

(** The image of a patch that is clear of the word at [o], or a publication in it that does
    not expect [v]. *)
Definition passes_by (o : nat) (v : N) (img : bytes) : Prop :=
  ∃ q, patch_ok q ∧ encode q = Ok img ∧
    ((first_byte q + width q ≤ o)%nat ∨ (o + 8 ≤ first_byte q)%nat ∨ ∃ e n, q = Cas o e n ∧ e ≠ v).

Lemma torn_word_length k e n : length (torn_word k e n) = 8%nat.
Proof. unfold torn_word. rewrite length_app, length_take, length_drop, !to_le_bytes_length. lia. Qed.

Lemma torn_word_bytes k e n : is_bytes (torn_word k e n).
Proof. apply is_bytes_app. split; [apply is_bytes_take|apply is_bytes_drop]; apply to_le_bytes_is_bytes. Qed.

Lemma u64_at_put o (w p : bytes) : length w = 8%nat → (o + 8 ≤ length p)%nat → u64_at o (copy_at o w p) = from_le_bytes w.
Proof. intros Hw Hl. unfold u64_at. rewrite <- Hw at 1. rewrite copy_at_same by (rewrite Hw; lia). done. Qed.

Lemma u64_at_apart o (bs p : bytes) o' : (o' + length bs ≤ length p)%nat → (o + 8 ≤ length p)%nat →
  (o' + length bs ≤ o)%nat ∨ (o + 8 ≤ o')%nat → u64_at o (copy_at o' bs p) = u64_at o p.
Proof.
  intros Hl Ho Ha. unfold u64_at. f_equal. apply list_eq. intros i. destruct (decide (i < 8)%nat).
  - rewrite !lookup_take_lt, !lookup_drop, copy_at_lookup by lia. case_decide; [lia|done].
  - by rewrite !lookup_take_ge by lia.
Qed.

Lemma passes_by_keeps o v img p : (o + 8 ≤ PAGE_SIZE)%nat → length p = PAGE_SIZE → u64_at o p = v → passes_by o v img →
  ∃ p', paging.apply_patch p img = Ok p' ∧ length p' = PAGE_SIZE ∧ u64_at o p' = v.
Proof.
  intros Ho Hp Hv (q & Hq & He & Hby). destruct (encode_apply q Hq) as (img' & He' & _ & Ha).
  assert (img' = img) as -> by congruence. exists (perform q p). split; [by apply Ha|].
  pose proof (po_fits q Hq) as Hf. split; [rewrite perform_length; lia|].
  destruct q as [o' bs|o' e n]; cbn [perform first_byte width] in *.
  - destruct Hby as [?|[?|(? & ? & ? & _)]]; [| |done]; rewrite u64_at_apart; (done || lia).
  - destruct (N.eqb_spec (u64_at o' p) e) as [Hc|]; [|done].
    destruct Hby as [?|[?|(e' & n' & [= -> -> ->] & Hne)]]; [| |congruence].
    all: rewrite u64_at_apart; rewrite ?to_le_bytes_length; (done || lia).
Qed.

(** C32: Words under compare-and-set have to be torn as wholes for redo to rebuild a page. Where a
    write of a publication was torn inside the word, applying the image of that publication
    again changes nothing: the word stays neither the old nor the new value, though the same
    image takes the page from before to the page after it. Nor does the replay of the page's
    other records help: after any images that are clear of the word, or publications in it
    that expect a value it had, the torn word is still there. *)
Theorem torn_word_stays (o k : nat) (e n : N) (base : bytes) (imgs : list bytes) :
  (o + 8 ≤ PAGE_SIZE)%nat → e ≤ u64_max → n ≤ u64_max → is_page base →
  torn_word k e n ≠ to_le_bytes 8 e → torn_word k e n ≠ to_le_bytes 8 n →
  Forall (passes_by o (from_le_bytes (torn_word k e n))) imgs →
  ∃ img, paging.encode_cas_patch o e n = Ok img
    ∧ paging.apply_patch (copy_at o (to_le_bytes 8 e) base) img = Ok (copy_at o (to_le_bytes 8 n) base)
    ∧ (let torn := copy_at o (torn_word k e n) base in
       paging.apply_patch torn img = Ok torn ∧ u64_at o torn ≠ e ∧ u64_at o torn ≠ n
       ∧ ∃ p, apply_all imgs torn = Ok p ∧ u64_at o p = u64_at o torn).
Proof.
  intros Ho He Hn [Hl _] Hte Htn Hby. set (w := torn_word k e n) in *. pose proof (torn_word_length k e n : length w = 8%nat) as Hw.
  assert (∀ x, x ≤ u64_max → from_le_bytes w = x → w = to_le_bytes 8 x) as Hback.
  { intros x _ <-. symmetry. pose proof (to_from_piece w 0 8 (torn_word_bytes k e n) ltac:(lia)) as Hx.
    by rewrite drop_0, take_ge in Hx by lia. }
  destruct (encode_apply (Cas o e n)) as (img & Hen & _ & Hap); [by split|]. exists img. split; [exact Hen|].
  assert (Hlen : ∀ x, length x = 8%nat → length (copy_at o x base) = PAGE_SIZE) by (intros; rewrite copy_at_length; lia).
  split.
  { rewrite Hap by (apply Hlen, to_le_bytes_length). cbn [perform]. rewrite u64_at_copy, N.eqb_refl by (done || lia).
    by rewrite copy_at_twice by (rewrite ?to_le_bytes_length; lia). }
  cbv zeta. assert (Hu : u64_at o (copy_at o w base) = from_le_bytes w) by (apply u64_at_put; [done|lia]). rewrite Hu.
  assert (Hne : from_le_bytes w ≠ e) by (intros Hx; by apply Hte, Hback).
  assert (Hnn : from_le_bytes w ≠ n) by (intros Hx; by apply Htn, Hback).
  split_and!; [|done|done|].
  { rewrite Hap by (by apply Hlen). cbn [perform]. rewrite Hu. by destruct (N.eqb_spec (from_le_bytes w) e). }
  pose proof (Hlen w Hw) as Hlp. revert Hu Hlp. generalize (copy_at o w base) as p. clear -Hby Ho.
  induction Hby as [|i imgs Hi _ IH]; intros p Hu Hlp; [by exists p|].
  destruct (passes_by_keeps o _ i p Ho Hlp Hu Hi) as (p' & Ha & Hl' & Hu'). destruct (IH p' Hu' Hl') as (p2 & Hr & Hu2).
  exists p2. split; [|done]. unfold apply_all. cbn [foldl]. by rewrite Ha.
Qed.

(** A head that a publication moved from 7 to 2^40 + 9, torn after four bytes, and two more
    records of the page. *)
Lemma torn_word_stays_witness :
  ∃ img, paging.encode_cas_patch 40 7 (2 ^ 40 + 9) = Ok img
    ∧ paging.apply_patch (copy_at 40 (to_le_bytes 8 7) zero_page) img = Ok (copy_at 40 (to_le_bytes 8 (2 ^ 40 + 9)) zero_page)
    ∧ (let torn := copy_at 40 (torn_word 4 7 (2 ^ 40 + 9)) zero_page in
       paging.apply_patch torn img = Ok torn ∧ u64_at 40 torn ≠ 7 ∧ u64_at 40 torn ≠ 2 ^ 40 + 9
       ∧ ∃ p, apply_all [to_le_bytes 2 60 ++ [1; 2]; to_le_bytes 2 65535 ++ to_le_bytes 2 40 ++ to_le_bytes 8 3 ++ to_le_bytes 8 7] torn = Ok p
           ∧ u64_at 40 p = u64_at 40 torn).
Proof.
  apply (torn_word_stays 40 4 7 (2 ^ 40 + 9) zero_page).
  - unfold PAGE_SIZE. lia.
  - done.
  - done.
  - apply page.zero_page_ok.
  - by vm_compute.
  - by vm_compute.
  - constructor; [|constructor; [|constructor]].
    + exists (Plain 60 [1; 2]). split; [split; [unfold PAGE_SIZE; cbn; lia|by repeat constructor]|]. split; [done|]. right. left. cbn. lia.
    + exists (Cas 40 3 7). split; [split; [unfold PAGE_SIZE; cbn; lia|done]|]. split; [done|]. right. right. by exists 3, 7.
Defined.

(** ** Pages stay pages *)
Lemma apply_patch_total p img : length p = PAGE_SIZE → is_bytes img →
  (∃ q, patch_ok q ∧ encode q = Ok img ∧ paging.apply_patch p img = Ok (perform q p))
  ∨ ∃ e, paging.apply_patch p img = Err e.
Proof.
  intros Hp Hi. destruct (paging.apply_patch p img) as [p'|e|m] eqn:Ha; [left|right; by exists e|].
  - destruct (apply_encoded p img p' Hp Hi Ha) as (q & Hq & He & ->). by exists q.
  - exfalso. revert Ha. unfold paging.apply_patch. by repeat case_match.
Qed.

(** Every operation on a page leaves 8192 bytes: the header's setters for any argument
    of their type, and the application of any bytes at all as a patch, which performs a
    patch inside the page or is refused with an error, and never panics. *)
Theorem page_operations_typed `{Crc32c} (p : bytes) : is_page p →
  is_page (page.write_checksum p)
  ∧ (∀ l, is_page (page.set_page_lsn p l) ∧ is_page (page.reset_page_lsn p l))
  ∧ (∀ i, is_page (page.set_page_id p i))
  ∧ (∀ b, b < 256 → is_page (page.set_page_type p b) ∧ is_page (page.set_page_subtype p b))
  ∧ ∀ img, is_bytes img →
      (∃ p', paging.apply_patch p img = Ok p' ∧ is_page p') ∨ ∃ e, paging.apply_patch p img = Err e.
Proof.
  intros Hp. split; [by apply page.write_checksum_ok|].
  split; [auto using page.set_page_lsn_ok, page.reset_page_lsn_ok|]. split; [auto using page.set_page_id_ok|].
  split; [intros b Hb; by split; apply page.insert_is_page|].
  intros img Hi. destruct (apply_patch_total p img (page_length _ Hp) Hi) as [(q & Hq & _ & ->)|[e He]]; [left|right; by exists e].
  eauto using perform_is_page.
Qed.

Lemma page_operations_typed_witness :
  (∃ p', paging.apply_patch zero_page [255; 255; 3] = Ok p' ∧ is_page p')
  ∨ ∃ e, paging.apply_patch zero_page [255; 255; 3] = Err e.
Proof.
  destruct (@page_operations_typed castagnoli zero_page page.zero_page_ok) as (_ & _ & _ & _ & H).
  apply (H [255; 255; 3]). by repeat constructor.
Defined.
