(* ===== verification/BlockDevice.v ===== *)
(** * graphus-io: block devices

    [src/crates/graphus-io/src/block.rs] and [mem.rs]. The trait [BlockDevice] is a class;
    [DeviceSpec] states what its clients rely on: of a device without an injected fault,
    reads return the last write of a page, growth appends zero pages and a sync makes
    what is read durable. [MemBlockDevice], the device of the simulation tests, keeps the
    durable pages apart from the cached writes, with its fault plan and its seeded
    corruption; without faults it meets the laws. *)

From stdpp Require Import options.
From S2P Require Import Prelude Core Bytes WalRecord PageFormat.

(** ** The trait *)
Inductive PageReadOutcome := PRead | PTorn.

Class BlockDevice (D : Type) := {
  read_page : PageId → D → Outcome bytes;
  read_page_classified : PageId → D → Outcome (PageReadOutcome * bytes);
  write_page : PageId → bytes → St D unit;
  write_pages : PageId → list bytes → St D unit;
  sync_data : St D unit;
  sync_all : St D unit;
  page_count : D → N;
  extend : N → St D unit;
}.

(** The provided methods. *)
Definition default_read_page_classified {D} (read_page : PageId → D → Outcome bytes) (p : PageId) (d : D) :
    Outcome (PageReadOutcome * bytes) :=
  match read_page p d with
  | Ok buf => Ok (PRead, buf)
  | Err e => Err e
  | Panic m => Panic m
  end.

Fixpoint default_write_pages_from {D} (write_page : PageId → bytes → St D unit) (base i : N) (pages : list bytes) : St D unit :=
  match pages with
  | [] => mret tt
  | b :: pages =>
      match checked_add_u64 base i with
      | Some id => _ ← write_page id b; default_write_pages_from write_page base (i + 1) pages
      | None => throw (Storage "page id overflow in write_pages run")
      end
  end.
Definition default_write_pages {D} (write_page : PageId → bytes → St D unit) (base : PageId) (pages : list bytes) : St D unit :=
  default_write_pages_from write_page base 0 pages.

(** ** The laws of a device without faults *)
Class DeviceSpec (D : Type) `{BlockDevice D} := {
  dev_ok : D → Prop;
  dev_pages : D → list bytes;
  dev_durable : D → list bytes;
  dev_typed d : dev_ok d → Forall is_page (dev_pages d);
  page_count_spec d : dev_ok d → page_count d = N.of_nat (length (dev_pages d));
  page_count_u64 d : dev_ok d → page_count d ≤ u64_max;
  read_spec d p b : dev_ok d → dev_pages d !! N.to_nat p = Some b →
    read_page p d = Ok b ∧ read_page_classified p d = Ok (PRead, b);
  read_beyond d p : dev_ok d → page_count d ≤ p → ∃ e, read_page p d = Err e;
  write_spec d p b : dev_ok d → p < page_count d → is_page b →
    ∃ d', write_page p b d = (Ok tt, d') ∧ dev_ok d' ∧ dev_pages d' = <[N.to_nat p := b]> (dev_pages d);
  extend_spec d n : dev_ok d → page_count d + n ≤ u64_max →
    ∃ d', extend n d = (Ok tt, d') ∧ dev_ok d' ∧ dev_pages d' = dev_pages d ++ replicate (N.to_nat n) zero_page;
  sync_spec d : dev_ok d →
    ∃ d', sync_data d = (Ok tt, d') ∧ sync_all d = (Ok tt, d') ∧ dev_ok d' ∧ dev_pages d' = dev_pages d
      ∧ dev_durable d' = dev_pages d;
}.

(** ** The in-memory device *)

(** [TORN_SECTOR_SIZE] divides the page into two sectors. *)
Definition TORN_SECTOR_SIZE : nat := N.to_nat 4096.

(** [u64::wrapping_add] and [u64::wrapping_mul]. *)
Definition wadd (a b : N) : N := (a + b) mod 2 ^ 64.
Definition wmul (a b : N) : N := (a * b) mod 2 ^ 64.

Module SplitMix64.
Record T := mkT { state : N }.

Definition new (seed : N) : T := mkT seed.

Definition next_u64 (r : T) : N * T :=
  let state := wadd (state r) 0x9E3779B97F4A7C15 in
  let z := state in
  let z := wmul (N.lxor z (N.shiftr z 30)) 0xBF58476D1CE4E5B9 in
  let z := wmul (N.lxor z (N.shiftr z 27)) 0x94D049BB133111EB in
  (N.lxor z (N.shiftr z 31), mkT state).

Definition below (n : N) (r : T) : N * T :=
  if n =? 0 then (0, r) else let '(x, r) := next_u64 r in (x mod n, r).
End SplitMix64.

(** A loop that ends at the first [Some], at most [n] times, with [n] in binary so that
    the bound can be the period of the generator. *)
Fixpoint first_within {S A} (n : positive) (f : S → A + S) (s : S) : A + S :=
  let twice n s := match first_within n f s with inl a => inl a | inr s => first_within n f s end in
  match n with
  | xH => f s
  | xO n => twice n s
  | xI n => match f s with inl a => inl a | inr s => twice n s end
  end.

Fixpoint draw_sectors (n : nat) (r : SplitMix64.T) : list bool * SplitMix64.T :=
  match n with
  | O => ([], r)
  | S n =>
      let '(x, r) := SplitMix64.below 2 r in
      let '(l, r) := draw_sectors n r in (bool_decide (x = 1) :: l, r)
  end.

(** [PAGE_SIZE.div_ceil(TORN_SECTOR_SIZE)]. *)
Definition sectors : nat := (PAGE_SIZE + TORN_SECTOR_SIZE - 1) / TORN_SECTOR_SIZE.

Definition draw_mask (r : SplitMix64.T) : list bool + SplitMix64.T :=
  let '(takes_new, r) := draw_sectors sectors r in
  if existsb id takes_new && existsb negb takes_new then inl takes_new else inr r.

Fixpoint overlay (s : nat) (takes_new : list bool) (new torn : bytes) : bytes :=
  match takes_new with
  | [] => torn
  | t :: ts =>
      let start := (s * TORN_SECTOR_SIZE)%nat in
      let end_ := Nat.min (start + TORN_SECTOR_SIZE) PAGE_SIZE in
      overlay (S s) ts new (if t then copy_at start (take (end_ - start) (drop start new)) torn else torn)
  end.

(** [None] when no draw of a full period of the generator mixes the sectors: the loop of
    the code then repeats itself for ever. *)
Definition sector_torn_image (old new : bytes) (seed : N) : option bytes :=
  if (sectors <=? 1)%nat then
    let half := (PAGE_SIZE / 2)%nat in Some (copy_at half (drop half new) old)
  else
  let rng := SplitMix64.new (N.lxor seed 0x7A6B5C4D3E2F1A0B) in
  match first_within (2 ^ 63)%positive draw_mask rng with
  | inl takes_new => Some (overlay 0 takes_new new old)
  | inr _ => None
  end.

Record FaultPlan := mkPlan {
  seed : N;
  bit_rot : gmap N nat;
  misdirected_read : gmap N N;
  misdirected_write : gmap N N;
  latent_sector_error : list N;
  capacity_pages : option N;
  reorder_sync_persist_percent : option N;
}.

Module Plan.
Definition new (seed : N) : FaultPlan := mkPlan seed ∅ ∅ ∅ [] None None.
Definition with_bit_rot (page : PageId) (flips : nat) (p : FaultPlan) : FaultPlan :=
  mkPlan (seed p) (<[page := Nat.min flips PAGE_SIZE]> (bit_rot p)) (misdirected_read p) (misdirected_write p)
    (latent_sector_error p) (capacity_pages p) (reorder_sync_persist_percent p).
Definition with_misdirected_read (from to : PageId) (p : FaultPlan) : FaultPlan :=
  mkPlan (seed p) (bit_rot p) (<[from := to]> (misdirected_read p)) (misdirected_write p)
    (latent_sector_error p) (capacity_pages p) (reorder_sync_persist_percent p).
Definition with_misdirected_write (from to : PageId) (p : FaultPlan) : FaultPlan :=
  mkPlan (seed p) (bit_rot p) (misdirected_read p) (<[from := to]> (misdirected_write p))
    (latent_sector_error p) (capacity_pages p) (reorder_sync_persist_percent p).
Definition with_latent_sector_error (page : PageId) (p : FaultPlan) : FaultPlan :=
  mkPlan (seed p) (bit_rot p) (misdirected_read p) (misdirected_write p)
    (latent_sector_error p ++ [page]) (capacity_pages p) (reorder_sync_persist_percent p).
Definition with_capacity (n : N) (p : FaultPlan) : FaultPlan :=
  mkPlan (seed p) (bit_rot p) (misdirected_read p) (misdirected_write p)
    (latent_sector_error p) (Some n) (reorder_sync_persist_percent p).
Definition with_write_reordering (persist_percent : N) (p : FaultPlan) : FaultPlan :=
  mkPlan (seed p) (bit_rot p) (misdirected_read p) (misdirected_write p)
    (latent_sector_error p) (capacity_pages p) (Some (N.min persist_percent 100)).
End Plan.

Record MemBlockDevice := mkDevice {
  persisted : list bytes;
  cache : gmap N bytes;
  armed_io_error : bool;
  armed_torn : option (N * nat);
  armed_torn_sectors : option (N * N);
  plan : option FaultPlan;
}.

Module MemDev.

Definition new (pages : N) : MemBlockDevice :=
  mkDevice (replicate (N.to_nat pages) zero_page) ∅ false None None None.

Definition arm_io_error (d : MemBlockDevice) : MemBlockDevice :=
  mkDevice (persisted d) (cache d) true (armed_torn d) (armed_torn_sectors d) (plan d).
Definition arm_torn_write (page : PageId) (prefix : nat) (d : MemBlockDevice) : MemBlockDevice :=
  mkDevice (persisted d) (cache d) (armed_io_error d) (Some (page, Nat.min prefix PAGE_SIZE)) (armed_torn_sectors d) (plan d).
Definition arm_torn_write_sectors (page : PageId) (seed : N) (d : MemBlockDevice) : MemBlockDevice :=
  mkDevice (persisted d) (cache d) (armed_io_error d) (armed_torn d) (Some (page, seed)) (plan d).
Definition arm_fault_plan (p : FaultPlan) (d : MemBlockDevice) : MemBlockDevice :=
  mkDevice (persisted d) (cache d) (armed_io_error d) (armed_torn d) (armed_torn_sectors d) (Some p).

Definition crash (d : MemBlockDevice) : MemBlockDevice :=
  mkDevice (persisted d) ∅ (armed_io_error d) (armed_torn d) (armed_torn_sectors d) (plan d).

Definition dirty_pages (d : MemBlockDevice) : nat := size (cache d).

(** [persisted[idx]] panics out of range; every caller has checked the range. *)
Definition current (d : MemBlockDevice) (idx : N) : bytes :=
  match cache d !! idx with Some b => b | None => default zero_page (persisted d !! N.to_nat idx) end.

Fixpoint rot (flips : nat) (rng : SplitMix64.T) (buf : bytes) : bytes :=
  match flips with
  | O => buf
  | S flips =>
      let '(pos, rng) := SplitMix64.below (N.of_nat PAGE_SIZE) rng in
      let '(m, rng) := SplitMix64.below 255 rng in
      let mask := (m mod 256 + 1) mod 256 in
      rot flips rng (alter (λ b, N.lxor b mask) (N.to_nat pos) buf)
  end.

Definition apply_bit_rot (d : MemBlockDevice) (idx : N) (buf : bytes) : bytes :=
  match plan d with
  | None => buf
  | Some plan =>
      match bit_rot plan !! idx with
      | None => buf
      | Some flips => rot flips (SplitMix64.new (N.lxor (seed plan) (wmul idx 0x100000001B3))) buf
      end
  end.

Definition write_target (d : MemBlockDevice) (idx : N) : N :=
  default idx (plan d ≫= λ p, misdirected_write p !! idx).

Definition count (d : MemBlockDevice) : N := N.of_nat (length (persisted d)).

Definition read_page (page : PageId) (d : MemBlockDevice) : Outcome bytes :=
  if count d <=? page then Err (Storage "read out of range: page")
  else if match plan d with Some plan => bool_decide (page ∈ latent_sector_error plan) | None => false end
  then Err (Storage "latent sector error: page unreadable")
  else
    let source := default page (option_filter (λ to, to <? count d) (plan d ≫= λ p, misdirected_read p !! page)) in
    Ok (apply_bit_rot d page (current d source)).

(** The image a write leaves under an armed tear, and the tear that stays armed. *)
Definition tear_prefix (idx target : N) (d : MemBlockDevice) (buf : bytes) : bytes * option (N * nat) :=
  match armed_torn d with
  | None => (buf, None)
  | Some (tp, prefix) =>
      if tp =? idx then (copy_at 0 (take prefix buf) (current d target), None) else (buf, Some (tp, prefix))
  end.
Definition tear_sectors (idx target : N) (d : MemBlockDevice) (buf : bytes) : option bytes * option (N * N) :=
  match armed_torn_sectors d with
  | None => (Some buf, None)
  | Some (tp, seed) =>
      if tp =? idx then (sector_torn_image (current d target) buf seed, None) else (Some buf, Some (tp, seed))
  end.

Definition write_page (page : PageId) (buf : bytes) : St MemBlockDevice unit := λ d,
  if count d <=? page then (Err (Storage "write out of range: page"), d)
  else if armed_io_error d then
    (Err (Storage "injected I/O error"),
     mkDevice (persisted d) (cache d) false (armed_torn d) (armed_torn_sectors d) (plan d))
  else
    let target := write_target d page in
    if count d <=? target then (Err (Storage "misdirected write out of range: page"), d)
    else
      let '(page_buf, torn) := tear_prefix page target d buf in
      match tear_sectors page target d page_buf with
      | (None, _) => (Panic "write_page does not return", d)
      | (Some page_buf, sectors) =>
          (Ok tt, mkDevice (persisted d) (<[target := page_buf]> (cache d)) false torn sectors (plan d))
      end.

(** Persisting cached pages, in the order given. *)
Fixpoint persist_some (percent : N) (pending : list N) (rng : SplitMix64.T) (d : MemBlockDevice) : MemBlockDevice :=
  match pending with
  | [] => d
  | idx :: pending =>
      let '(x, rng) := SplitMix64.below 100 rng in
      persist_some percent pending rng
        (if x <? percent then
           match cache d !! idx with
           | Some page => mkDevice (<[N.to_nat idx := page]> (persisted d)) (delete idx (cache d)) (armed_io_error d)
                            (armed_torn d) (armed_torn_sectors d) (plan d)
           | None => d
           end
         else d)
  end.

Definition drain (d : MemBlockDevice) : MemBlockDevice :=
  mkDevice (imap (λ i b, default b (cache d !! N.of_nat i)) (persisted d)) ∅ (armed_io_error d)
    (armed_torn d) (armed_torn_sectors d) (plan d).

Definition sync_data : St MemBlockDevice unit := λ d,
  match plan d ≫= reorder_sync_persist_percent with
  | Some percent =>
      let pending := merge_sort N.le (map_to_list (cache d)).*1 in
      let seed := match plan d with Some p => seed p | None => 0 end in
      (Ok tt, persist_some percent pending (SplitMix64.new (N.lxor seed 0x5DEECE66D5A13CA1)) d)
  | None => (Ok tt, drain d)
  end.

Definition extend (additional : N) : St MemBlockDevice unit := λ d,
  match checked_add_u64 (count d) additional with
  | None => (Err (Storage "page count overflow"), d)
  | Some new_len =>
      if match plan d ≫= capacity_pages with Some cap => cap <? new_len | None => false end
      then (Err (Storage "ENOSPC: cannot grow to pages (capacity )"), d)
      else (Ok tt, mkDevice (persisted d ++ replicate (N.to_nat (new_len - count d)) zero_page) (cache d)
              (armed_io_error d) (armed_torn d) (armed_torn_sectors d) (plan d))
  end.

End MemDev.

#[export] Instance MemBlockDevice_device : BlockDevice MemBlockDevice := {|
  read_page := MemDev.read_page;
  read_page_classified := default_read_page_classified MemDev.read_page;
  write_page := MemDev.write_page;
  write_pages := default_write_pages MemDev.write_page;
  sync_data := MemDev.sync_data;
  sync_all := MemDev.sync_data;
  page_count := MemDev.count;
  extend := MemDev.extend;
|}.

(** ** The in-memory device meets the laws *)
Definition mem_pages (d : MemBlockDevice) : list bytes := imap (λ i b, default b (cache d !! N.of_nat i)) (persisted d).

Record mem_dev_ok (d : MemBlockDevice) : Prop := {
  mo_persisted : Forall is_page (persisted d);
  mo_cache i b : cache d !! i = Some b → is_page b ∧ i < MemDev.count d;
  mo_count : MemDev.count d ≤ u64_max;
  mo_faults : armed_io_error d = false ∧ armed_torn d = None ∧ armed_torn_sectors d = None ∧ plan d = None;
}.

Lemma mem_pages_lookup d i : mem_pages d !! i = (λ b, default b (cache d !! N.of_nat i)) <$> persisted d !! i.
Proof. unfold mem_pages. by rewrite list_lookup_imap. Qed.

Lemma mem_pages_length d : length (mem_pages d) = length (persisted d).
Proof. apply length_imap. Qed.

Lemma mem_pages_current d (p : N) b : mem_pages d !! N.to_nat p = Some b → MemDev.current d p = b.
Proof.
  rewrite mem_pages_lookup, N2Nat.id. unfold MemDev.current. intros (b' & Hb & ->)%fmap_Some. rewrite Hb.
  by destruct (cache d !! p).
Qed.

Lemma mem_dev_typed d : mem_dev_ok d → Forall is_page (mem_pages d).
Proof.
  intros Hd. apply Forall_lookup. intros i b. rewrite mem_pages_lookup. intros (b' & Hb & ->)%fmap_Some.
  destruct (cache d !! N.of_nat i) eqn:Hc; [by apply (mo_cache d Hd) in Hc as [? _]|].
  eapply Forall_lookup; [apply Hd|exact Hb].
Qed.

Lemma mem_write d p b : mem_dev_ok d → p < MemDev.count d → is_page b →
  ∃ d', MemDev.write_page p b d = (Ok tt, d') ∧ mem_dev_ok d' ∧ mem_pages d' = <[N.to_nat p := b]> (mem_pages d).
Proof.
  intros [Hp Hc Hn (Hio & Ht & Hs & Hpl)] Hlt Hb. eexists. split; [|split].
  - unfold MemDev.write_page, MemDev.write_target, MemDev.tear_prefix, MemDev.tear_sectors.
    rewrite Hio, Ht, Hs, Hpl. cbn [mbind option_bind default]. destruct (N.leb_spec (MemDev.count d) p); [lia|done].
  - split; cbn; [done| |done|by split_and!]. intros i b' [[<- <-]|[_ Hi]]%lookup_insert_Some; [done|]. by apply Hc.
  - apply list_eq. intros i. rewrite mem_pages_lookup. cbn [cache persisted]. destruct (decide (i = N.to_nat p)) as [->|Hne].
    + rewrite list_lookup_insert_eq by (rewrite mem_pages_length; unfold MemDev.count in Hlt; lia).
      rewrite N2Nat.id, lookup_insert_eq. destruct (persisted d !! N.to_nat p) eqn:Hl; [done|].
      apply lookup_ge_None in Hl. unfold MemDev.count in Hlt. lia.
    + rewrite list_lookup_insert_ne, mem_pages_lookup, lookup_insert_ne by lia. done.
Qed.

Lemma mem_extend d n : mem_dev_ok d → MemDev.count d + n ≤ u64_max →
  ∃ d', MemDev.extend n d = (Ok tt, d') ∧ mem_dev_ok d' ∧ mem_pages d' = mem_pages d ++ replicate (N.to_nat n) zero_page.
Proof.
  intros [Hp Hc Hn (Hio & Ht & Hs & Hpl)] Hlt. eexists. split; [|split].
  - unfold MemDev.extend, checked_add_u64. rewrite Hpl, bool_decide_eq_true_2 by done. done.
  - split; cbn; [|intros i b Hi|unfold MemDev.count|by split_and!].
    + apply Forall_app. split; [done|]. apply Forall_replicate, page.zero_page_ok.
    + destruct (Hc i b Hi). unfold MemDev.count in *. cbn. rewrite length_app. split; [done|lia].
    + cbn. rewrite length_app, length_replicate. unfold MemDev.count in *. lia.
  - replace (MemDev.count d + n - MemDev.count d) with n by lia.
    apply list_eq. intros i. rewrite mem_pages_lookup. cbn [cache persisted]. rewrite !lookup_app, mem_pages_lookup, mem_pages_length.
    destruct (persisted d !! i) eqn:Hl; [done|]. cbn. apply lookup_ge_None in Hl.
    destruct (replicate (N.to_nat n) zero_page !! (i - length (persisted d))%nat) eqn:Hr; [|done]. cbn.
    destruct (cache d !! N.of_nat i) eqn:Hci; [|done]. apply Hc in Hci as [_ Hci]. unfold MemDev.count in Hci. lia.
Qed.

Lemma mem_dev_sync d : mem_dev_ok d →
  ∃ d', MemDev.sync_data d = (Ok tt, d') ∧ mem_dev_ok d' ∧ mem_pages d' = mem_pages d ∧ persisted d' = mem_pages d.
Proof.
  intros Hd. pose proof Hd as [Hp Hc Hn (Hio & Ht & Hs & Hpl)]. exists (MemDev.drain d).
  assert (Hcnt : MemDev.count (MemDev.drain d) = MemDev.count d) by (unfold MemDev.count, MemDev.drain; cbn; by rewrite length_imap).
  split_and!; [unfold MemDev.sync_data; by rewrite Hpl| | |done].
  - split; [by apply mem_dev_typed|cbn; by intros i b ?%lookup_empty_Some|by rewrite Hcnt|done].
  - apply list_eq. intros i. rewrite mem_pages_lookup. cbn [MemDev.drain cache persisted]. fold (mem_pages d).
    destruct (mem_pages d !! i) eqn:Hl; [|done]. cbn. by rewrite lookup_empty.
Qed.

#[export, refine] Instance MemBlockDevice_spec : DeviceSpec MemBlockDevice := {|
  dev_ok := mem_dev_ok;
  dev_pages := mem_pages;
  dev_durable := persisted;
|}.
Proof.
  - apply mem_dev_typed.
  - intros d _. cbn. unfold MemDev.count. by rewrite mem_pages_length.
  - intros d Hd. apply Hd.
  - intros d p b Hd Hl. cbn. assert (Hr : MemDev.read_page p d = Ok b).
    { unfold MemDev.read_page, MemDev.apply_bit_rot. pose proof (mo_faults d Hd) as (_ & _ & _ & ->). cbn [mbind option_bind option_filter default].
      rewrite (mem_pages_current _ _ _ Hl). apply lookup_lt_Some in Hl. rewrite mem_pages_length in Hl.
      unfold MemDev.count. destruct (N.leb_spec (N.of_nat (length (persisted d))) p); [lia|done]. }
    split; [done|]. unfold default_read_page_classified. by rewrite Hr.
  - intros d p Hd Hle. cbn in *. unfold MemDev.read_page. destruct (N.leb_spec (MemDev.count d) p); [by eexists|lia].
  - intros d p b Hd Hl Hb. by apply mem_write.
  - intros d n Hd Hl. by apply mem_extend.
  - intros d Hd. destruct (mem_dev_sync d Hd) as (d' & Hs & Hd' & Hp & Hq). exists d'. done.
Defined.

Lemma new_device_ok n : n ≤ u64_max → mem_dev_ok (MemDev.new n).
Proof.
  intros Hn. split; [apply Forall_replicate, page.zero_page_ok|cbn; by intros i b ?%lookup_empty_Some| |done].
  unfold MemDev.count. cbn. rewrite length_replicate. lia.
Qed.

(** Consequences of the laws. *)
Section device.
Context {D : Type} `{!BlockDevice D} `{!DeviceSpec D}.
#[local] Set Default Proof Using "All".

Lemma dev_lookup d p : dev_ok d → p < page_count d → is_Some (dev_pages d !! N.to_nat p).
Proof. intros Hd Hp. rewrite (page_count_spec d Hd) in Hp. apply lookup_lt_is_Some_2. lia. Qed.

Lemma dev_page_ok d p b : dev_ok d → dev_pages d !! N.to_nat p = Some b → is_page b.
Proof. intros Hd Hb. eapply Forall_lookup; [by apply dev_typed|done]. Qed.

Lemma dev_beyond d p : dev_ok d → page_count d ≤ p → dev_pages d !! N.to_nat p = None.
Proof. intros Hd Hp. rewrite (page_count_spec d Hd) in Hp. apply lookup_ge_None. lia. Qed.

(** The page at an address; beyond the end a page of zeros, which is what growth adds. *)
Definition page_at (d : D) (p : PageId) : bytes := default zero_page (dev_pages d !! N.to_nat p).

Lemma page_at_ok d p : dev_ok d → is_page (page_at d p).
Proof.
  intros Hd. unfold page_at. destruct (dev_pages d !! N.to_nat p) eqn:Hl; [by eapply dev_page_ok|apply page.zero_page_ok].
Qed.

Lemma page_at_read d p : dev_ok d → p < page_count d → read_page p d = Ok (page_at d p).
Proof.
  intros Hd Hp. destruct (dev_lookup d p Hd Hp) as [b Hb]. unfold page_at. rewrite Hb. by apply read_spec.
Qed.

Lemma write_page_at d p b : dev_ok d → p < page_count d → is_page b →
  ∃ d', write_page p b d = (Ok tt, d') ∧ dev_ok d' ∧ page_at d' p = b ∧ ∀ q, q ≠ p → page_at d' q = page_at d q.
Proof.
  intros Hd Hp Hb. destruct (write_spec d p b Hd Hp Hb) as (d' & Hw & Hd' & Hpg). exists d'. split_and!; [done|done| |].
  - unfold page_at. rewrite Hpg, list_lookup_insert_eq; [done|]. rewrite (page_count_spec d Hd) in Hp. lia.
  - intros q Hq. unfold page_at. rewrite Hpg, list_lookup_insert_ne by lia. done.
Qed.

Lemma write_page_count d d' p b : dev_ok d → p < page_count d → is_page b → write_page p b d = (Ok tt, d') →
  page_count d' = page_count d.
Proof.
  intros Hd Hp Hb Hw. destruct (write_spec d p b Hd Hp Hb) as (d1 & Hw1 & Hd1 & Hpg). rewrite Hw1 in Hw. simplify_eq.
  by rewrite !page_count_spec, Hpg, length_insert.
Qed.

Lemma page_at_extend (d d' : D) n : dev_pages d' = dev_pages d ++ replicate n zero_page → ∀ q, page_at d' q = page_at d q.
Proof.
  intros Hpg q. unfold page_at. rewrite Hpg, lookup_app. destruct (dev_pages d !! N.to_nat q); [done|].
  destruct (replicate _ _ !! _) eqn:Hr; [|done]. by apply lookup_replicate in Hr as [-> _].
Qed.
End device.

Lemma new_device_page n p : page_at (MemDev.new n) p = zero_page.
Proof.
  unfold page_at. cbn [dev_pages MemBlockDevice_spec]. unfold mem_pages. cbn [persisted MemDev.new cache].
  destruct (imap _ _ !! _) as [b|] eqn:Hb; [|done]. rewrite list_lookup_imap, lookup_empty in Hb.
  apply fmap_Some in Hb as (b' & [-> _]%lookup_replicate & ->). done.
Qed.
