(* ===== verification/DeviceTarget.v ===== *)
(** * graphus-storage: recovery onto a block device

    [src/crates/graphus-storage/src/recovery.rs]: the [ApplyTarget] through which recovery
    rewrites the pages of a device. Over any device that meets its laws it meets the
    contract the recovery theorems ask of a target, with page patches as images and the
    type word and payload of a page as its content; so recovering a device after a crash
    leaves its durable pages with the effect of the finished transactions. *)

From stdpp Require Import options.
From S2P Require Import Prelude Core Bytes WalRecord Checkpoint WalSink WalScan WalScanFacts Wal WalRecovery WalUndo WalEffects WalRecoverySpec WalTrace WalCrash PageFormat Paging BlockDevice.

(** ** The target *)
Record DeviceTarget (D : Type) := mkTarget { device : D }.
Arguments mkTarget {D} _.
Arguments device {D} _.

Module Target.
Section target.
Context `{Crc32c} {D : Type} `{!BlockDevice D}.

(** Run an operation of the device. *)
Definition on_device {A} (m : St D A) : St (DeviceTarget D) A := λ t,
  let '(o, d) := m (device t) in (o, mkTarget d).

Definition ensure (p : PageId) : St (DeviceTarget D) unit := λ t,
  if page_count (device t) <=? p then
    let additional := (p - page_count (device t) + 1) mod 2 ^ 64 in
    on_device (extend additional) t
  else (Ok tt, t).

Definition sync : St (DeviceTarget D) unit := on_device sync_all.

(** A device answers a read with a page or an error. *)
Definition page_lsn (p : PageId) (t : DeviceTarget D) : Lsn :=
  if page_count (device t) <=? p then 0
  else match read_page p (device t) with
       | Ok buf => if negb (page.verify_checksum buf) then 0 else page.page_lsn buf
       | _ => 0
       end.

Definition apply (p : PageId) (l : Lsn) (img : bytes) : St (DeviceTarget D) unit :=
  _ ← ensure p;
  t ← get;
  buf ← lift (read_page p (device t));
  buf ← lift (paging.apply_patch buf img);
  let buf := page.reset_page_lsn buf l in
  let buf := page.set_page_id buf p in
  let buf := page.write_checksum buf in
  on_device (write_page p buf).

End target.
End Target.

#[export] Instance DeviceTarget_target `{Crc32c} {D} `{!BlockDevice D} : ApplyTarget (DeviceTarget D) := {|
  page_lsn := Target.page_lsn;
  apply_image := Target.apply;
|}.

Section recover_device.
Context `{Crc32c} {S : Type} `{!LogSink S} {D : Type} `{!BlockDevice D} `{HashOrder}.

Definition synced (r : option (Outcome RecoveryReport * (WalManager S * DeviceTarget D))) :
    option (Outcome RecoveryReport * (WalManager S * D)) :=
  match r with
  | None => None
  | Some (Ok report, (w, t)) =>
      match Target.sync t with
      | (Ok _, t) => Some (Ok report, (w, device t))
      | (Err e, t) => Some (Err e, (w, device t))
      | (Panic m, t) => Some (Panic m, (w, device t))
      end
  | Some (Err e, (w, t)) => Some (Err e, (w, device t))
  | Some (Panic m, (w, t)) => Some (Panic m, (w, device t))
  end.

Definition recover_device : FSt (WalManager S * D) RecoveryReport := λ '(w, d), synced (recover (w, mkTarget d)).

Definition recover_device_from (scan_start : Lsn) : FSt (WalManager S * D) RecoveryReport := λ '(w, d),
  synced (recover_from scan_start (w, mkTarget d)).
End recover_device.

(** ** The contract *)

(** A page without the header fields every application rewrites. *)
Definition neutral (p : bytes) : bytes := copy_at 0 (replicate 4 0) (copy_at 8 (replicate 16 0) p).

(** Patches of the type word or of the payload. *)
Definition body_patch (q : Patch) : Prop :=
  patch_ok q ∧ ((4 ≤ first_byte q ∧ first_byte q + width q ≤ 8)%nat ∨ (page.HEADER_SIZE ≤ first_byte q)%nat).

Definition patched (c img : bytes) : bytes := match paging.apply_patch c img with Ok c' => c' | _ => c end.

Lemma neutral_length p : length p = PAGE_SIZE → length (neutral p) = PAGE_SIZE.
Proof. intros Hl. unfold neutral. rewrite !copy_at_length; rewrite ?copy_at_length; rewrite ?length_replicate; unfold PAGE_SIZE in *; lia. Qed.

Lemma neutral_lookup p i : length p = PAGE_SIZE →
  neutral p !! i = if decide (i < 4 ∨ 8 ≤ i < 24)%nat then Some 0 else p !! i.
Proof.
  intros Hl. unfold neutral. assert (Hlen : length (copy_at 8 (replicate 16 0) p) = PAGE_SIZE).
  { by rewrite copy_at_length by (rewrite length_replicate; unfold PAGE_SIZE in *; lia). }
  rewrite copy_at_lookup by (rewrite Hlen, length_replicate; unfold PAGE_SIZE; lia).
  rewrite copy_at_lookup by (rewrite length_replicate; unfold PAGE_SIZE in *; lia). rewrite !length_replicate.
  destruct (decide (0 ≤ i < 0 + 4)%nat).
  - rewrite decide_True by lia. apply lookup_replicate_2. lia.
  - destruct (decide (8 ≤ i < 8 + 16)%nat).
    + rewrite decide_True by lia. apply lookup_replicate_2. lia.
    + by rewrite decide_False by lia.
Qed.

(** Two pages that agree on type word and payload have the same content. *)
Lemma neutral_ext p p' : length p = PAGE_SIZE → length p' = PAGE_SIZE →
  (∀ i, ¬ (i < 4 ∨ 8 ≤ i < 24)%nat → p !! i = p' !! i) → neutral p = neutral p'.
Proof.
  intros Hl Hl' He. apply list_eq. intros i. rewrite !neutral_lookup by done. case_decide; [done|auto].
Qed.

Lemma neutral_copy o bs p : length p = PAGE_SIZE → (o + length bs ≤ PAGE_SIZE)%nat →
  ((4 ≤ o ∧ o + length bs ≤ 8) ∨ 24 ≤ o)%nat → neutral (copy_at o bs p) = copy_at o bs (neutral p).
Proof.
  intros Hl Hf Hb. pose proof (neutral_length p Hl) as Hln. apply list_eq. intros i.
  rewrite neutral_lookup by (rewrite copy_at_length; lia). rewrite !copy_at_lookup by lia. rewrite neutral_lookup by done.
  repeat case_decide; (done || lia).
Qed.

Lemma neutral_perform q p : body_patch q → length p = PAGE_SIZE → neutral (perform q p) = perform q (neutral p).
Proof.
  intros [[Hf Hb] Hbody] Hl. unfold page.HEADER_SIZE in Hbody. destruct q as [o bs|o e n]; cbn [perform first_byte width] in *.
  - by apply neutral_copy.
  - rewrite (u64_at_ext o (neutral p) p).
    + case_match; [|done]. apply neutral_copy; rewrite ?to_le_bytes_length; (done || lia).
    + intros i Hi. rewrite neutral_lookup by done. by rewrite decide_False by lia.
Qed.

(** The header fields an application rewrites. *)
Lemma neutral_stamp `{Crc32c} p l i : is_page p →
  neutral (page.write_checksum (page.set_page_id (page.reset_page_lsn p l) i)) = neutral p.
Proof.
  intros Hp. pose proof (page.reset_page_lsn_ok p l Hp) as H1. pose proof (page.set_page_id_ok _ i H1) as H2.
  pose proof (page.write_checksum_ok _ H2) as H3. apply neutral_ext; [apply H3|apply Hp|]. intros j Hj.
  unfold page.write_checksum, page.set_page_id, page.reset_page_lsn, page.OFF_CHECKSUM, page.OFF_PAGE_ID, page.OFF_PAGE_LSN.
  assert (length (page.reset_page_lsn p l) = PAGE_SIZE) as Hl1 by apply H1.
  assert (length (page.set_page_id (page.reset_page_lsn p l) i) = PAGE_SIZE) as Hl2 by apply H2.
  unfold page.set_page_id, page.reset_page_lsn, page.OFF_PAGE_ID, page.OFF_PAGE_LSN in Hl1, Hl2. pose proof (page_length _ Hp).
  rewrite !copy_at_lookup by (rewrite ?Hl1, ?Hl2, to_le_bytes_length; unfold PAGE_SIZE in *; lia).
  rewrite !to_le_bytes_length. repeat case_decide; (done || lia).
Qed.

Lemma patched_perform c img q : length c = PAGE_SIZE → patch_ok q → encode q = Ok img → patched c img = perform q c.
Proof.
  intros Hl Hq He. destruct (encode_apply q Hq) as (img' & He' & _ & Ha). rewrite He in He'. injection He' as <-.
  unfold patched. by rewrite Ha.
Qed.

Section contract.
Context `{Crc32c} {D : Type} `{!BlockDevice D} `{!DeviceSpec D}.
#[local] Set Default Proof Using "All".

Lemma target_lsn d p : dev_ok d →
  Target.page_lsn p (mkTarget d) = if page.verify_checksum (page_at d p) then page.page_lsn (page_at d p) else 0.
Proof.
  intros Hd. unfold Target.page_lsn. cbn [device]. destruct (N.leb_spec (page_count d) p) as [Hle|Hlt].
  - unfold page_at. rewrite dev_beyond by done. cbn [default]. by case_match.
  - rewrite page_at_read by done. by destruct (page.verify_checksum (page_at d p)).
Qed.

Lemma ensure_spec d p : dev_ok d → p < u64_max →
  ∃ d', Target.ensure p (mkTarget d) = (Ok tt, mkTarget d') ∧ dev_ok d' ∧ p < page_count d' ∧ ∀ q, page_at d' q = page_at d q.
Proof.
  intros Hd Hp. unfold Target.ensure. cbn [device]. destruct (N.leb_spec (page_count d) p) as [Hle|Hlt]; [|by exists d].
  rewrite N.mod_small by (unfold u64_max in Hp; lia).
  destruct (extend_spec d (p - page_count d + 1) Hd ltac:(lia)) as (d' & He & Hd' & Hpg).
  exists d'. unfold Target.on_device. cbn [device]. rewrite He. split_and!; [done|done| |].
  - rewrite (page_count_spec d' Hd'), Hpg, length_app, length_replicate. rewrite (page_count_spec d Hd) in *. lia.
  - by eapply page_at_extend.
Qed.

(** Applying an image to a page of the device. *)
Lemma target_apply d p l img q : dev_ok d → p < u64_max → body_patch q → encode q = Ok img →
  ∃ d' b, Target.apply p l img (mkTarget d) = (Ok tt, mkTarget d') ∧ dev_ok d'
    ∧ page_at d' p = b ∧ is_page b ∧ page.verify_checksum b = true ∧ page.page_id b = p
    ∧ (l ≤ u64_max → page.page_lsn b = l) ∧ neutral b = perform q (neutral (page_at d p))
    ∧ ∀ r, r ≠ p → page_at d' r = page_at d r.
Proof.
  intros Hd Hp Hq He. destruct (ensure_spec d p Hd Hp) as (d1 & Hen & Hd1 & Hlt & Hsame).
  destruct (encode_apply q (proj1 Hq)) as (img' & He' & _ & Ha). rewrite He in He'. injection He' as <-.
  pose proof (page_at_ok d1 p Hd1) as Hpg. set (b0 := perform q (page_at d1 p)).
  assert (H0 : is_page b0) by (apply perform_is_page; [apply Hq|done]).
  pose proof (page.reset_page_lsn_ok b0 l H0) as H1. pose proof (page.set_page_id_ok _ p H1) as H2.
  pose proof (page.write_checksum_ok _ H2) as H3.
  destruct (write_page_at d1 p _ Hd1 Hlt H3) as (d' & Hw & Hd' & Hb & Ho).
  exists d', (page.write_checksum (page.set_page_id (page.reset_page_lsn b0 l) p)). split_and!; [|done|done|done|..].
  - unfold Target.apply. unfold mbind, St_bind. rewrite Hen. unfold get, lift. cbn [device].
    rewrite page_at_read, Ha by (done || apply Hpg). unfold Target.on_device. cbn [device]. fold b0. by rewrite Hw.
  - by apply page.verify_write.
  - rewrite page.page_id_checksum by done. apply page.page_id_set_id; [done|lia].
  - intros Hl. by rewrite page.page_lsn_checksum, page.page_lsn_set_id, page.page_lsn_reset.
  - rewrite neutral_stamp by done. unfold b0. rewrite neutral_perform by (done || apply Hpg). by rewrite Hsame.
  - intros r Hr. by rewrite Ho, Hsame.
Qed.

#[export, refine] Instance DeviceTarget_spec : PagesSpec (DeviceTarget D) := {|
  Content := bytes;
  content p t := neutral (page_at (device t) p);
  patch := patched;
  target_ok t := dev_ok (device t);
  image_ok p img := p < u64_max ∧ ∃ q, body_patch q ∧ encode q = Ok img;
|}.
Proof.
  intros p l img [d] Hd (Hp & q & Hq & He). cbn [device] in *.
  destruct (target_apply d p l img q Hd Hp Hq He) as (d' & b & Hap & Hd' & Hb & Hpg & Hv & _ & Hl & Hc & Ho).
  exists (mkTarget d'). cbn [page_lsn apply_image DeviceTarget_target device]. split_and!; [done|done| | |].
  - intros Hle. rewrite target_lsn, Hb, Hv by done. by apply Hl.
  - rewrite Hb, Hc. symmetry. apply patched_perform; [|apply Hq|done]. by apply neutral_length, page_at_ok.
  - intros r Hr. rewrite !target_lsn, Ho by done. done.
Defined.
End contract.

(** ** Recovering a device *)
Section device_recovery.
#[local] Set Default Proof Using "All".
Context `{Crc32c} {S : Type} `{!LogSink S} `{!LogSinkSpec S} `{!ReliableSink S} `{!KeepsUndo S}.
Context {D : Type} `{!BlockDevice D} `{!DeviceSpec D} `{HashOrder}.

Lemma recover_device_crash (w : WalManager S) (s0 : S) (d : D) (c0 : PageId → bytes) :
  reaches w → image (sink w) `prefix_of` image s0 → image s0 `prefix_of` written w →
  sink_ok s0 → faultless s0 → unsynced s0 = [] → sk_reclaimed_floor s0 ≤ HEADER_LEN → blen (image s0) ≤ 2 ^ 62 →
  let img := image s0 in let rs := log_in img in
  (∀ bad, (log_records img HEADER_LEN).2 = Some bad → find_genuine img (bad + 1) = None) →
  starts_ok img (blen img) HEADER_LEN →
  on_disk rs (redo_start_of (analysis_of rs)) c0 (mkTarget d) → separated (T := DeviceTarget D) rs c0 →
  ∃ rep w' d', recover_device (mkWal s0 ∅, d) = Some (Ok rep, (w', d'))
    ∧ dev_ok d' ∧ dev_durable d' = dev_pages d'
    ∧ (∀ p, neutral (page_at d' p) = effect (T := DeviceTarget D) p (filter (kept rs) rs) (c0 p))
    ∧ ∀ x, x ≠ 0 → acked w x → ∀ r, r ∈ log_of w → txn_id r = x → r ∈ rs ∧ kept rs r.
Proof.
  intros Hreach Hlo Hhi Hs Hg Hu Hfl Hlen img rs Hgen Hst Hdisk Hsep.
  destruct (crash_recovers (T := DeviceTarget D) (PagesSpec0 := DeviceTarget_spec) w s0 (mkTarget d) c0 Hreach Hlo Hhi Hs Hg Hu Hfl Hlen Hgen Hst Hdisk Hsep)
    as (_ & _ & (rep & w' & [d1] & Hrun & Hok & Hc) & Hack).
  destruct (sync_spec d1 Hok) as (d' & _ & Hsync & Hd' & Hpg & Hdur).
  exists rep, w', d'. split_and!; [|done|by rewrite Hdur| |exact Hack].
  - unfold recover_device, synced. rewrite Hrun. unfold Target.sync, Target.on_device. cbn [device]. by rewrite Hsync.
  - intros p. rewrite <- Hc. cbn [content DeviceTarget_spec device]. unfold page_at. by rewrite Hpg.
Qed.

(** Log and device together: after a crash of the log as above, recovering the device
    returns, and what is durable on it, page by page, type word and payload, is the
    effect of the surviving records of finished transactions on the pages it started
    from; every transaction whose commit was acknowledged is among them, with all its
    records. *)
Theorem device_recovery (w : WalManager S) (s0 : S) (d : D) (c0 : PageId → bytes) :
  reaches w → image (sink w) `prefix_of` image s0 → image s0 `prefix_of` written w →
  sink_ok s0 → faultless s0 → unsynced s0 = [] → sk_reclaimed_floor s0 ≤ HEADER_LEN → blen (image s0) ≤ 2 ^ 62 →
  let img := image s0 in let rs := log_in img in
  (∀ bad, (log_records img HEADER_LEN).2 = Some bad → find_genuine img (bad + 1) = None) →
  starts_ok img (blen img) HEADER_LEN →
  on_disk rs (redo_start_of (analysis_of rs)) c0 (mkTarget d) → separated (T := DeviceTarget D) rs c0 →
  ∃ rep w' d', recover_device (mkWal s0 ∅, d) = Some (Ok rep, (w', d'))
    ∧ dev_ok d' ∧ dev_durable d' = dev_pages d'
    ∧ (∀ p, neutral (page_at d' p) = effect (T := DeviceTarget D) p (filter (kept rs) rs) (c0 p))
    ∧ ∀ x, x ≠ 0 → acked w x → ∀ r, r ∈ log_of w → txn_id r = x → r ∈ rs ∧ kept rs r.
Proof. apply recover_device_crash. Qed.

(** A page torn while recovery wrote it is rebuilt: a page that fails its checksum reports
    LSN zero, so that redo replays every record of the page; if the log reaches back to
    all of them, each byte of the page and each word guarded by a compare-and-set is as
    after some prefix of them, and every compare-and-set took effect, the replay ends in
    the page the log describes, whatever the torn header says. *)
Theorem torn_page_rebuilt (d : D) (p : PageId) (rs : list LogRecord) (start : Lsn) (qs : list Patch) (c0 : bytes) :
  dev_ok d → page.verify_checksum (page_at d p) = false → length c0 = PAGE_SIZE →
  (∀ r, r ∈ rs → is_Some (redo_img p r) → start ≤ lsn r ∧ 0 < lsn r) →
  Forall2 (λ q img, patch_ok q ∧ encode q = Ok img) qs (omap (redo_img p) rs) →
  words_whole qs → all_fire qs c0 → pieced qs c0 (neutral (page_at d p)) →
  page_lsn p (mkTarget d) = 0
  ∧ effect (T := DeviceTarget D) p (filter (replayed start (page_lsn p (mkTarget d))) rs) (neutral (page_at d p))
    = effect (T := DeviceTarget D) p rs c0.
Proof.
  intros Hd Hv Hl Hrs Hqs Hw Hf Hp.
  assert (Hlsn : page_lsn p (mkTarget d) = 0).
  { cbn [page_lsn DeviceTarget_target]. by rewrite target_lsn, Hv. }
  split; [done|]. rewrite Hlsn.
  assert (Hfil : omap (redo_img p) (filter (replayed start 0) rs) = omap (redo_img p) rs).
  { clear -Hrs. induction rs as [|r rs IH]; [done|]. rewrite filter_cons. specialize (IH ltac:(intros; apply Hrs; [by right|done])).
    case_decide as Hd; cbn [omap list_omap]; rewrite IH; [done|]. destruct (redo_img p r) eqn:Hi; [|done].
    exfalso. apply Hd. apply Hrs; [by left|by rewrite Hi]. }
  unfold effect. rewrite Hfil. clear Hrs Hfil.
  assert (Hre : ∀ c, length c = PAGE_SIZE → foldl patched c (omap (redo_img p) rs) = replay qs c).
  { clear -Hqs. unfold replay. induction Hqs as [|q img qs imgs [Hq He] _ IH]; intros c Hl; [done|]. cbn [foldl].
    rewrite (patched_perform c img q) by done. apply IH. rewrite perform_length; [done|]. rewrite Hl. apply Hq. }
  assert (Hln : length (neutral (page_at d p)) = PAGE_SIZE) by (apply neutral_length, page_at_ok; done).
  cbn [patch DeviceTarget_spec]. rewrite !Hre by done. apply replay_heals; [|done|done|done].
  rewrite Hl. clear -Hqs. induction Hqs as [|q img qs imgs [[Hq _] _] _ IH]; by constructor.
Qed.
End device_recovery.
