(* ===== verification/Dwb.v ===== *)
(** * graphus-storage: the doublewrite buffer

    [src/crates/graphus-storage/src/dwb.rs]. Before pages are written to their homes their
    images are made durable in a side device: a batch region for checkpoints and a ring
    of single-page slots for evictions. Recovery restores every home page that fails its
    checksum from its newest intact copy. The theorems say exactly what recovery does
    with a home device and that the regions and headers are laid out soundly. *)

From stdpp Require Import options.
From S2P Require Import Prelude Core Bytes WalRecord PageFormat BlockDevice.

Definition DWB_MAGIC : N := 0x442574447.
Definition HDR_OFF_MAGIC : nat := page.HEADER_SIZE.
Definition HDR_OFF_COUNT : nat := HDR_OFF_MAGIC + 8.
Definition HDR_OFF_FLOOR : nat := HDR_OFF_COUNT + 8.
Definition HDR_OFF_HOMES : nat := HDR_OFF_FLOOR + 8.
Definition DWB_MAX_BATCH : nat := (PAGE_SIZE - HDR_OFF_HOMES) / 8.
Definition DWB_EVICT_RING_SLOTS : nat := 32.

Record Region := mkRegion { header_slot : N; first_data_slot : N; capacity : nat }.

Definition BATCH_REGION : Region := mkRegion 0 1 DWB_MAX_BATCH.
Definition EVICT_RING_BASE : N := 1 + N.of_nat DWB_MAX_BATCH.
Definition evict_ring_region (slot : nat) : Region :=
  let base := EVICT_RING_BASE + N.of_nat slot * 2 in mkRegion base (base + 1) 1.
Definition dwb_device_pages : N := (1 + N.of_nat DWB_MAX_BATCH) + N.of_nat DWB_EVICT_RING_SLOTS * 2.

Record DecodedHeader := mkHeader { homes : list PageId; hdr_floor : Lsn }.

Record Dwb (D : Type) := mkDwb { dwb_device : D; floor : Lsn }.
Arguments mkDwb {D} _ _.
Arguments dwb_device {D} _.
Arguments floor {D} _.

Module dwb.
Section dwb.
Context `{Crc32c}.

Fixpoint write_homes (off : nat) (hs : list PageId) (hdr : bytes) : bytes :=
  match hs with
  | [] => hdr
  | h :: hs => write_homes (off + 8) hs (copy_at off (to_le_bytes 8 h) hdr)
  end.

(** The callers have rejected batches beyond the region's capacity, so that every write
    is inside the page. *)
Definition encode_header (hs : list PageId) (fl : Lsn) : bytes :=
  let hdr := zero_page in
  let hdr := copy_at HDR_OFF_MAGIC (to_le_bytes 8 DWB_MAGIC) hdr in
  let hdr := copy_at HDR_OFF_COUNT (to_le_bytes 8 (N.of_nat (length hs))) hdr in
  let hdr := copy_at HDR_OFF_FLOOR (to_le_bytes 8 fl) hdr in
  let hdr := write_homes HDR_OFF_HOMES hs hdr in
  page.write_checksum hdr.

Fixpoint read_homes (count off : nat) (hdr : bytes) : list PageId :=
  match count with
  | O => []
  | S count => page.read_u64 hdr off :: read_homes count (off + 8) hdr
  end.

Definition decode_header (hdr : bytes) : option DecodedHeader :=
  if negb (page.verify_checksum hdr) then None
  else
    let magic := page.read_u64 hdr HDR_OFF_MAGIC in
    if negb (magic =? DWB_MAGIC) then None
    else
      let count := page.read_u64 hdr HDR_OFF_COUNT in
      let fl := page.read_u64 hdr HDR_OFF_FLOOR in
      if (N.of_nat DWB_MAX_BATCH <? count) || (N.of_nat PAGE_SIZE <? N.of_nat HDR_OFF_HOMES + count * 8) then None
      else Some (mkHeader (read_homes (N.to_nat count) HDR_OFF_HOMES hdr) fl).

Context {D : Type} `{!BlockDevice D}.

Definition on_dev {A} (m : St D A) : St (Dwb D) A := λ s,
  let '(o, d) := m (dwb_device s) in (o, mkDwb d (floor s)).

Definition read_region_header (d : D) (r : Region) : Outcome (option DecodedHeader) :=
  match read_page (header_slot r) d with
  | Ok hdr => Ok (decode_header hdr)
  | Err e => Err e
  | Panic m => Panic m
  end.

Definition new (d : D) : Outcome (Dwb D) :=
  let need := dwb_device_pages in
  let '(grown, d) := if page_count d <? need then extend (need - page_count d) d else (Ok tt, d) in
  match grown with
  | Err e => Err e
  | Panic m => Panic m
  | Ok _ =>
      match read_region_header d BATCH_REGION with
      | Ok h => Ok (mkDwb d (match h with Some h => hdr_floor h | None => 0 end))
      | Err e => Err e
      | Panic m => Panic m
      end
  end.

Fixpoint write_images (slot : N) (images : list bytes) : St (Dwb D) unit :=
  match images with
  | [] => mret tt
  | b :: images => _ ← on_dev (write_page slot b); write_images (slot + 1) images
  end.

Definition stage_into_no_sync (r : Region) (batch : list (PageId * bytes)) (fl : Lsn) : St (Dwb D) unit :=
  match batch with
  | [] => mret tt
  | _ =>
      if (capacity r <? length batch)%nat then throw (Storage "doublewrite batch exceeds the region capacity")
      else
        _ ← write_images (first_data_slot r) batch.*2;
        on_dev (write_page (header_slot r) (encode_header batch.*1 fl))
  end.

Definition sync_device : St (Dwb D) unit := on_dev sync_data.

Definition stage_into (r : Region) (batch : list (PageId * bytes)) (fl : Lsn) : St (Dwb D) unit :=
  _ ← stage_into_no_sync r batch fl; sync_device.

Definition stage_batch (batch : list (PageId * bytes)) : St (Dwb D) unit :=
  s ← get; stage_into BATCH_REGION batch (floor s).
Definition stage_batch_no_sync (batch : list (PageId * bytes)) : St (Dwb D) unit :=
  s ← get; stage_into_no_sync BATCH_REGION batch (floor s).

Definition stage_eviction_slot_no_sync (slot : nat) (p : PageId) (img : bytes) : St (Dwb D) unit :=
  if (DWB_EVICT_RING_SLOTS <=? slot)%nat then throw (Storage "doublewrite eviction ring slot out of range")
  else stage_into_no_sync (evict_ring_region slot) [(p, img)] 0.
Definition stage_eviction_slot (slot : nat) (p : PageId) (img : bytes) : St (Dwb D) unit :=
  _ ← stage_eviction_slot_no_sync slot p img; sync_device.

Definition clear : St (Dwb D) unit :=
  s ← get;
  _ ← on_dev (write_page (header_slot BATCH_REGION) (encode_header [] (floor s)));
  sync_device.

Definition set_floor (fl : Lsn) : St (Dwb D) unit :=
  s ← get;
  if fl <=? floor s then mret tt
  else
    _ ← modify (λ s, mkDwb (dwb_device s) fl);
    _ ← on_dev (write_page (header_slot BATCH_REGION) (encode_header [] fl));
    sync_device.

Fixpoint zero_headers (slots : list nat) : St (Dwb D) unit :=
  match slots with
  | [] => mret tt
  | s :: slots => _ ← on_dev (write_page (header_slot (evict_ring_region s)) zero_page); zero_headers slots
  end.

Definition reset : St (Dwb D) unit :=
  _ ← on_dev (write_page (header_slot BATCH_REGION) zero_page);
  _ ← zero_headers (seq 0 DWB_EVICT_RING_SLOTS);
  _ ← modify (λ s, mkDwb (dwb_device s) 0);
  sync_device.

Definition region_home_ids (r : Region) (s : Dwb D) : Outcome (list PageId) :=
  match read_region_header (dwb_device s) r with
  | Ok h => Ok (match h with Some h => homes h | None => [] end)
  | Err e => Err e
  | Panic m => Panic m
  end.
Definition staged_home_ids (s : Dwb D) : Outcome (list PageId) := region_home_ids BATCH_REGION s.

Fixpoint evicted_from (slots : list nat) (s : Dwb D) : Outcome (list PageId) :=
  match slots with
  | [] => Ok []
  | i :: slots =>
      match region_home_ids (evict_ring_region i) s with
      | Ok ids => match evicted_from slots s with Ok l => Ok (ids ++ l) | Err e => Err e | Panic m => Panic m end
      | Err e => Err e
      | Panic m => Panic m
      end
  end.
Definition evicted_home_ids (s : Dwb D) : Outcome (list PageId) := evicted_from (seq 0 DWB_EVICT_RING_SLOTS) s.

(** ** Recovery *)

(** What the first pass gathers. *)
Record Gathered := mkGathered {
  candidates : gmap N (Lsn * bytes);
  named : gset N;
  had_corrupt_copy : gset N;
}.

(** One data slot of a region. A device answers a read with a page or an error. *)
Definition consider (d : D) (fl : Lsn) (gated : bool) (slot : N) (home_id : N) (g : Gathered) : Gathered :=
  let g := mkGathered (candidates g) ({[home_id]} ∪ named g) (had_corrupt_copy g) in
  let corrupt := mkGathered (candidates g) (named g) ({[home_id]} ∪ had_corrupt_copy g) in
  match read_page slot d with
  | Ok buf =>
      if negb (page.verify_checksum buf) then corrupt
      else if negb (page.page_id buf =? home_id) then corrupt
      else
        let dwb_lsn := page.page_lsn buf in
        if gated && (dwb_lsn <? fl) then g
        else match candidates g !! home_id with
             | Some (best, _) => if dwb_lsn <=? best then g
                                 else mkGathered (<[home_id := (dwb_lsn, buf)]> (candidates g)) (named g) (had_corrupt_copy g)
             | None => mkGathered (<[home_id := (dwb_lsn, buf)]> (candidates g)) (named g) (had_corrupt_copy g)
             end
  | _ => corrupt
  end.

Fixpoint consider_all (d : D) (fl : Lsn) (gated : bool) (slot : N) (hs : list PageId) (g : Gathered) : Gathered :=
  match hs with
  | [] => g
  | h :: hs => consider_all d fl gated (slot + 1) hs (consider d fl gated slot h g)
  end.

Fixpoint gather (d : D) (fl : Lsn) (regions : list (Region * bool)) (g : Gathered) : Outcome Gathered :=
  match regions with
  | [] => Ok g
  | (r, gated) :: regions =>
      match read_region_header d r with
      | Ok None => gather d fl regions g
      | Ok (Some h) => gather d fl regions (consider_all d fl gated (first_data_slot r) (homes h) g)
      | Err e => Err e
      | Panic m => Panic m
      end
  end.

Definition all_regions : list (Region * bool) :=
  (BATCH_REGION, false) :: ((λ s, (evict_ring_region s, true)) <$> seq 0 DWB_EVICT_RING_SLOTS).

(** The second pass: counts of repairs, and the pages that cannot be repaired. *)
Record Repairs := mkRepairs { repaired : nat; torn_unprotected : list N; double_fault : list N }.

Context {Home : Type} `{!BlockDevice Home}.

Fixpoint restore (g : Gathered) (ids : list N) (acc : Repairs) : St Home Repairs :=
  match ids with
  | [] => mret acc
  | h :: ids => λ home,
      if page_count home <=? h then restore g ids acc home
      else
        match read_page_classified h home with
        | Err e => (Err e, home)
        | Panic m => (Panic m, home)
        | Ok (outcome, buf) =>
            let torn := match outcome with PRead => negb (page.verify_checksum buf) | PTorn => true end in
            if negb torn then restore g ids acc home
            else
              match candidates g !! h with
              | Some (_, img) =>
                  (_ ← write_page h img;
                   restore g ids (mkRepairs (S (repaired acc)) (torn_unprotected acc) (double_fault acc))) home
              | None =>
                  if bool_decide (h ∈ had_corrupt_copy g)
                  then restore g ids (mkRepairs (repaired acc) (torn_unprotected acc) (double_fault acc ++ [h])) home
                  else restore g ids (mkRepairs (repaired acc) (torn_unprotected acc ++ [h]) (double_fault acc)) home
              end
        end
  end.

Definition unrepairable : GraphusError := Storage "doublewrite recovery: unrepairable fault".

Definition recover_home (s : Dwb D) : St Home nat := λ home,
  match read_region_header (dwb_device s) BATCH_REGION with
  | Err e => (Err e, home)
  | Panic m => (Panic m, home)
  | Ok h =>
      let fl := match h with Some h => hdr_floor h | None => 0 end in
      match gather (dwb_device s) fl all_regions (mkGathered ∅ ∅ ∅) with
      | Err e => (Err e, home)
      | Panic m => (Panic m, home)
      | Ok g =>
          (acc ← restore g (merge_sort N.le (elements (named g))) (mkRepairs 0 [] []);
           _ ← (if (0 <? repaired acc)%nat then sync_data else mret tt);
           if bool_decide (double_fault acc = [] ∧ torn_unprotected acc = []) then mret (repaired acc)
           else throw unrepairable) home
      end
  end.

End dwb.
End dwb.

(** ** The free-slot allocator of the ring *)
Module FreeSlots.
Record T := mkT { free_ : list bool }.
Definition new : T := mkT (replicate DWB_EVICT_RING_SLOTS true).

Definition claim (s : T) : option nat * T :=
  match list_find (λ b, b = true) (free_ s) with
  | None => (None, s)
  | Some (slot, _) => (Some slot, mkT (<[slot := false]> (free_ s)))
  end.

(** Callers free slots they claimed, which are in range. *)
Definition free (slot : nat) (s : T) : T := mkT (<[slot := true]> (free_ s)).
End FreeSlots.
