(* ===== verification/DwbFacts.v ===== *)
(** * The doublewrite buffer: what recovery restores

    Headers round-trip, the first pass of recovery gathers the newest intact copy of every
    named page, and the second restores exactly the torn pages that have one. *)

From stdpp Require Import options.
From S2P Require Import Prelude Core Bytes WalRecord PageFormat BlockDevice Dwb.

(** ** Headers *)
Section header.
Context `{Crc32c}.
#[local] Set Default Proof Using "All".

Lemma max_batch_fits n : (n ≤ DWB_MAX_BATCH)%nat → (HDR_OFF_HOMES + n * 8 ≤ PAGE_SIZE)%nat.
Proof.
  intros Hn. pose proof (Nat.Div0.mul_div_le (PAGE_SIZE - HDR_OFF_HOMES) 8). unfold DWB_MAX_BATCH in Hn.
  assert (n * 8 ≤ (PAGE_SIZE - HDR_OFF_HOMES) / 8 * 8)%nat by (by apply Nat.mul_le_mono_r).
  assert (HDR_OFF_HOMES ≤ PAGE_SIZE)%nat by (unfold HDR_OFF_HOMES, HDR_OFF_FLOOR, HDR_OFF_COUNT, HDR_OFF_MAGIC, page.HEADER_SIZE, PAGE_SIZE; lia).
  lia.
Qed.

Lemma write_homes_page hs : ∀ off p, is_page p → (off + length hs * 8 ≤ PAGE_SIZE)%nat → is_page (dwb.write_homes off hs p).
Proof.
  induction hs as [|h hs IH]; intros off p Hp Hl; [done|]. cbn [dwb.write_homes length] in *. apply IH; [|lia].
  apply page.copy_at_is_page; [done|apply to_le_bytes_is_bytes|rewrite to_le_bytes_length; lia].
Qed.

(** The entries written at and above an offset leave what lies below it. *)
Lemma write_homes_below hs : ∀ off o p, length p = PAGE_SIZE → (off + length hs * 8 ≤ PAGE_SIZE)%nat → (o + 8 ≤ off)%nat →
  page.read_u64 (dwb.write_homes off hs p) o = page.read_u64 p o.
Proof.
  induction hs as [|h hs IH]; intros off o p Hp Hl Ho; [done|]. cbn [dwb.write_homes length] in *.
  rewrite IH by (rewrite ?copy_at_length; rewrite ?to_le_bytes_length; lia).
  apply page.read_u64_copy_other; [done|rewrite to_le_bytes_length; lia|by left].
Qed.

Lemma read_write_homes hs : ∀ off p, length p = PAGE_SIZE → (off + length hs * 8 ≤ PAGE_SIZE)%nat →
  Forall (λ h, h ≤ u64_max) hs → dwb.read_homes (length hs) off (dwb.write_homes off hs p) = hs.
Proof.
  induction hs as [|h hs IH]; intros off p Hp Hl Hu; [done|]. apply Forall_cons in Hu as [Hh Hu].
  cbn [dwb.write_homes dwb.read_homes length] in *. f_equal.
  - rewrite write_homes_below by (rewrite ?copy_at_length; rewrite ?to_le_bytes_length; lia).
    apply page.read_u64_copy_same; [done|lia|done].
  - apply IH; [rewrite copy_at_length; rewrite ?to_le_bytes_length; lia|lia|done].
Qed.

Lemma read_homes_checksum n : ∀ off p, is_page p → (4 ≤ off)%nat →
  dwb.read_homes n off (page.write_checksum p) = dwb.read_homes n off p.
Proof.
  induction n as [|n IH]; intros off p Hp Ho; [done|]. cbn [dwb.read_homes]. rewrite IH by (done || lia). f_equal.
  apply page.read_u64_copy_other; [apply Hp|rewrite to_le_bytes_length; unfold PAGE_SIZE, page.OFF_CHECKSUM; lia|].
  rewrite to_le_bytes_length. unfold page.OFF_CHECKSUM. lia.
Qed.

Definition header_body (hs : list PageId) (fl : Lsn) : bytes :=
  dwb.write_homes HDR_OFF_HOMES hs
    (copy_at HDR_OFF_FLOOR (to_le_bytes 8 fl)
      (copy_at HDR_OFF_COUNT (to_le_bytes 8 (N.of_nat (length hs)))
        (copy_at HDR_OFF_MAGIC (to_le_bytes 8 DWB_MAGIC) zero_page))).

Ltac offsets := unfold HDR_OFF_HOMES, HDR_OFF_FLOOR, HDR_OFF_COUNT, HDR_OFF_MAGIC, page.HEADER_SIZE, PAGE_SIZE in *.
Ltac hlen := offsets; rewrite ?to_le_bytes_length; repeat (rewrite copy_at_length by hlen); lia.

Lemma header_fields_page (hs : list PageId) fl :
  is_page (copy_at HDR_OFF_FLOOR (to_le_bytes 8 fl)
      (copy_at HDR_OFF_COUNT (to_le_bytes 8 (N.of_nat (length hs)))
        (copy_at HDR_OFF_MAGIC (to_le_bytes 8 DWB_MAGIC) zero_page))).
Proof.
  repeat (apply page.copy_at_is_page; [|apply to_le_bytes_is_bytes|rewrite to_le_bytes_length; offsets; lia]).
  apply page.zero_page_ok.
Qed.

Lemma header_body_page hs fl : (length hs ≤ DWB_MAX_BATCH)%nat → is_page (header_body hs fl).
Proof. intros Hn. apply write_homes_page; [apply header_fields_page|by apply max_batch_fits]. Qed.

Lemma header_word o v (hs : list PageId) fl : (length hs ≤ DWB_MAX_BATCH)%nat →
  (o + 8 ≤ HDR_OFF_HOMES)%nat →
  page.read_u64 (copy_at HDR_OFF_FLOOR (to_le_bytes 8 fl)
      (copy_at HDR_OFF_COUNT (to_le_bytes 8 (N.of_nat (length hs)))
        (copy_at HDR_OFF_MAGIC (to_le_bytes 8 DWB_MAGIC) zero_page))) o = v → (4 ≤ o)%nat →
  page.read_u64 (dwb.encode_header hs fl) o = v.
Proof.
  intros Hn Ho Hv H4. unfold dwb.encode_header. fold (header_body hs fl).
  unfold page.write_checksum. rewrite page.read_u64_copy_other.
  - unfold header_body. rewrite write_homes_below; [done|apply header_fields_page|by apply max_batch_fits|done].
  - by apply header_body_page.
  - rewrite to_le_bytes_length. unfold page.OFF_CHECKSUM, PAGE_SIZE. lia.
  - rewrite to_le_bytes_length. unfold page.OFF_CHECKSUM. lia.
Qed.

Lemma encode_header_page hs fl : (length hs ≤ DWB_MAX_BATCH)%nat → is_page (dwb.encode_header hs fl).
Proof. intros Hn. by apply page.write_checksum_ok, header_body_page. Qed.

Lemma header_roundtrip hs fl : (length hs ≤ DWB_MAX_BATCH)%nat → Forall (λ h, h ≤ u64_max) hs → fl ≤ u64_max →
  dwb.decode_header (dwb.encode_header hs fl) = Some (mkHeader hs fl).
Proof.
  intros Hn Hu Hf. pose proof (max_batch_fits _ Hn) as Hfit. pose proof (header_body_page hs fl Hn) as Hb.
  assert (Hlen : N.of_nat (length hs) ≤ u64_max) by (unfold u64_max, PAGE_SIZE in *; lia).
  assert (H0 : length zero_page = PAGE_SIZE) by apply page.zero_page_ok.
  assert (Hm : page.read_u64 (dwb.encode_header hs fl) HDR_OFF_MAGIC = DWB_MAGIC).
  { apply header_word; [done|offsets; lia| |offsets; lia].
    rewrite !page.read_u64_copy_other by hlen. apply page.read_u64_copy_same; [done|offsets; lia|done]. }
  assert (Hc : page.read_u64 (dwb.encode_header hs fl) HDR_OFF_COUNT = N.of_nat (length hs)).
  { apply header_word; [done|offsets; lia| |offsets; lia].
    rewrite page.read_u64_copy_other by hlen. apply page.read_u64_copy_same; [hlen|offsets; lia|done]. }
  assert (Hfl : page.read_u64 (dwb.encode_header hs fl) HDR_OFF_FLOOR = fl).
  { apply header_word; [done|offsets; lia| |offsets; lia]. apply page.read_u64_copy_same; [hlen|offsets; lia|done]. }
  unfold dwb.decode_header. rewrite Hm, Hc, Hfl. unfold dwb.encode_header at 1. fold (header_body hs fl).
  rewrite page.verify_write, N.eqb_refl by done. cbn [negb].
  destruct (N.ltb_spec (N.of_nat DWB_MAX_BATCH) (N.of_nat (length hs))); [lia|].
  destruct (N.ltb_spec (N.of_nat PAGE_SIZE) (N.of_nat HDR_OFF_HOMES + N.of_nat (length hs) * 8)); [lia|]. cbn [orb].
  rewrite Nat2N.id. unfold dwb.encode_header. fold (header_body hs fl).
  rewrite read_homes_checksum by (done || (offsets; lia)). unfold header_body.
  rewrite read_write_homes by (done || apply header_fields_page). done.
Qed.
End header.

(** ** The copies on the device *)
Record Entry := mkEntry { en_gated : bool; en_slot : N; en_home : N }.

Section recovery.
Context `{Crc32c} {D : Type} `{!BlockDevice D}.
#[local] Set Default Proof Using "All".

(** The data slots a region's header names. *)
Definition region_entries (d : D) (rg : Region * bool) : list Entry :=
  match dwb.read_region_header d rg.1 with
  | Ok (Some h) => imap (λ i h, mkEntry rg.2 (first_data_slot rg.1 + N.of_nat i) h) (homes h)
  | _ => []
  end.
Definition entries (d : D) : list Entry := mjoin (region_entries d <$> dwb.all_regions).

(** The slot holds an intact page of the home it names. *)
Definition intact (d : D) (e : Entry) (b : bytes) : Prop :=
  read_page (en_slot e) d = Ok b ∧ page.verify_checksum b = true ∧ page.page_id b = en_home e.

(** An intact copy that recovery may use: ring copies below the floor are superseded. *)
Definition usable (d : D) (fl : Lsn) (e : Entry) (b : bytes) : Prop :=
  intact d e b ∧ (en_gated e = true → fl ≤ page.page_lsn b).

Definition add_entry (d : D) (fl : Lsn) (g : dwb.Gathered) (e : Entry) : dwb.Gathered :=
  dwb.consider d fl (en_gated e) (en_slot e) (en_home e) g.

Lemma consider_all_fold d fl gated slot hs : ∀ i g,
  dwb.consider_all d fl gated (slot + N.of_nat i) hs g
  = foldl (add_entry d fl) g (imap (λ j h, mkEntry gated (slot + N.of_nat (i + j)) h) hs).
Proof.
  induction hs as [|h hs IH]; intros i g; [done|]. cbn [dwb.consider_all imap foldl].
  replace (slot + N.of_nat i + 1) with (slot + N.of_nat (S i)) by lia. rewrite IH. rewrite Nat.add_0_r.
  unfold add_entry at 3. cbn [en_gated en_slot en_home]. f_equal. apply imap_ext. intros j x _. cbn. do 2 f_equal. lia.
Qed.

Lemma gather_fold d fl rgs : ∀ g, (∀ rg, rg ∈ rgs → ∃ o, dwb.read_region_header d rg.1 = Ok o) →
  dwb.gather d fl rgs g = Ok (foldl (add_entry d fl) g (mjoin (region_entries d <$> rgs))).
Proof.
  induction rgs as [|[r gated] rgs IH]; intros g Hr; [done|]. cbn [dwb.gather].
  destruct (Hr (r, gated) ltac:(by left)) as [o Ho]. cbn [fst] in Ho. rewrite Ho.
  assert (He : mjoin (region_entries d <$> (r, gated) :: rgs)
    = match o with Some h => imap (λ i h, mkEntry gated (first_data_slot r + N.of_nat i) h) (homes h) | None => [] end
      ++ mjoin (region_entries d <$> rgs)).
  { csimpl. unfold region_entries at 1. cbn [fst snd]. rewrite Ho. by destruct o. }
  rewrite He, foldl_app. destruct o as [h|]; (rewrite IH by (intros; apply Hr; by right)); [|done].
  pose proof (consider_all_fold d fl gated (first_data_slot r) (homes h) 0 g) as Hc.
  rewrite N.add_0_r in Hc. by rewrite Hc.
Qed.

(** What the first pass has gathered after the entries [es]. *)
Record gathered (d : D) (fl : Lsn) (es : list Entry) (g : dwb.Gathered) : Prop := {
  ga_named h : h ∈ dwb.named g ↔ ∃ e, e ∈ es ∧ en_home e = h;
  ga_from h l b : dwb.candidates g !! h = Some (l, b) →
    l = page.page_lsn b ∧ ∃ e, e ∈ es ∧ en_home e = h ∧ usable d fl e b;
  ga_best e b : e ∈ es → usable d fl e b →
    ∃ l b', dwb.candidates g !! en_home e = Some (l, b') ∧ page.page_lsn b ≤ l;
}.

Lemma gathered_nil d fl : gathered d fl [] (dwb.mkGathered ∅ ∅ ∅).
Proof.
  split; cbn.
  - intros h. split; [by intros ?%elem_of_empty|]. by intros (e & ?%elem_of_nil & _).
  - intros h l b. by rewrite lookup_empty.
  - by intros e b ?%elem_of_nil.
Qed.

(** One entry: its home is named, and it becomes the candidate if it is the newest usable
    copy so far. *)
Lemma add_entry_cases d fl g e :
  dwb.named (add_entry d fl g e) = {[en_home e]} ∪ dwb.named g
  ∧ ((∃ b, usable d fl e b ∧ (∀ l b', dwb.candidates g !! en_home e = Some (l, b') → l < page.page_lsn b)
       ∧ dwb.candidates (add_entry d fl g e) = <[en_home e := (page.page_lsn b, b)]> (dwb.candidates g))
     ∨ (dwb.candidates (add_entry d fl g e) = dwb.candidates g
        ∧ ∀ b, usable d fl e b → ∃ l b', dwb.candidates g !! en_home e = Some (l, b') ∧ page.page_lsn b ≤ l)).
Proof.
  unfold add_entry, dwb.consider, usable, intact. cbn [dwb.candidates dwb.named dwb.had_corrupt_copy].
  destruct (read_page (en_slot e) d) as [buf| |] eqn:Hr; [|split; [done|right; split; [done|by intros b ((Hb & _) & _)]]..].
  destruct (page.verify_checksum buf) eqn:Hv; cbn [negb]; [|split; [done|right; split; [done|intros b ((Hb & Hv' & Hi') & _); congruence]]].
  destruct (N.eqb_spec (page.page_id buf) (en_home e)) as [Hid|Hid]; cbn [negb]; [|split; [done|right; split; [done|intros b ((Hb & Hv' & Hi') & _); congruence]]].
  destruct (en_gated e && (page.page_lsn buf <? fl)) eqn:Hg.
  { split; [done|right; split; [done|]]. intros b ((Hb & _ & _) & Hf). apply andb_true_iff in Hg as [Hg Hlt].
    apply N.ltb_lt in Hlt. simplify_eq. specialize (Hf Hg). lia. }
  assert (Hu : en_gated e = true → fl ≤ page.page_lsn buf).
  { intros Hge. rewrite Hge in Hg. cbn in Hg. by apply N.ltb_ge in Hg. }
  destruct (dwb.candidates g !! en_home e) as [[best b']|] eqn:Hc.
  - destruct (N.leb_spec (page.page_lsn buf) best) as [Hle|Hlt]; cbn; (split; [done|]).
    + right. split; [done|]. intros b ((Hb & _ & _) & _). simplify_eq. eauto.
    + left. exists buf. split; [done|]. split; [|done]. intros l b'' [= <- <-]. done.
  - cbn. split; [done|]. left. exists buf. split; [done|]. split; [|done]. by intros l b''.
Qed.

Lemma gathered_step d fl es g e : gathered d fl es g → gathered d fl (es ++ [e]) (add_entry d fl g e).
Proof.
  intros [Hn Hf Hb]. destruct (add_entry_cases d fl g e) as [Hnm Hc]. split.
  - intros h. rewrite Hnm, elem_of_union, elem_of_singleton, Hn. setoid_rewrite elem_of_app. setoid_rewrite list_elem_of_singleton.
    naive_solver.
  - intros h l b Hl. destruct Hc as [(b0 & Hu & _ & Hc)|[Hc _]]; rewrite Hc in Hl.
    + apply lookup_insert_Some in Hl as [[<- [= <- <-]]|[_ Hl]].
      * split; [done|]. exists e. split; [apply elem_of_app; right; by left|done].
      * destruct (Hf h l b Hl) as (? & e' & ? & ?). split; [done|]. exists e'. split; [apply elem_of_app; by left|done].
    + destruct (Hf h l b Hl) as (? & e' & ? & ?). split; [done|]. exists e'. split; [apply elem_of_app; by left|done].
  - intros e' b [He|He%list_elem_of_singleton]%elem_of_app Hu.
    + destruct (Hb e' b He Hu) as (l & b' & Hl & Hle). destruct Hc as [(b0 & _ & Hnew & Hc)|[Hc _]]; rewrite Hc; [|by exists l, b'].
      destruct (decide (en_home e = en_home e')) as [Heq|Hne]; [|rewrite lookup_insert_ne by done; by exists l, b'].
      rewrite Heq, lookup_insert_eq. rewrite <- Heq in Hl. specialize (Hnew _ _ Hl). eexists _, _. split; [done|]. lia.
    + subst e'. destruct Hc as [(b0 & Hu0 & _ & Hc)|[Hc Hk]]; rewrite Hc; [|by apply Hk].
      rewrite lookup_insert_eq. destruct Hu0 as [[Hr0 _] _], Hu as [[Hr _] _]. rewrite Hr in Hr0. injection Hr0 as <-. eexists _, _. split; [done|lia].
Qed.

Lemma gathered_fold d fl es : gathered d fl es (foldl (add_entry d fl) (dwb.mkGathered ∅ ∅ ∅) es).
Proof.
  induction es as [|e es IH] using rev_ind; [apply gathered_nil|]. rewrite foldl_app. cbn [foldl]. by apply gathered_step.
Qed.
End recovery.

(** ** Restoring home pages *)
Section restore.
Context `{Crc32c} {Home : Type} `{!BlockDevice Home} `{!DeviceSpec Home}.
#[local] Set Default Proof Using "All".

(** A page of the home device that fails its checksum. *)
Definition torn (home : Home) (h : N) : bool := (h <? page_count home) && negb (page.verify_checksum (page_at home h)).

Definition lossless (acc : dwb.Repairs) : Prop := dwb.double_fault acc = [] ∧ dwb.torn_unprotected acc = [].

Lemma write_keeps_count (home home' : Home) h b : dev_ok home → dev_ok home' → dev_pages home' = <[N.to_nat h := b]> (dev_pages home) →
  page_count home' = page_count home.
Proof. intros Ho Ho' Hp. by rewrite !page_count_spec, Hp, length_insert. Qed.

Lemma torn_other (home home' : Home) h' : page_count home' = page_count home →
  page_at home' h' = page_at home h' → torn home' h' = torn home h'.
Proof. intros Hc Hp. unfold torn. by rewrite Hc, Hp. Qed.

(** What is at [h] once its page, if torn, has been restored. *)
Definition restored_page (g : dwb.Gathered) (home : Home) (h : N) : bytes :=
  match dwb.candidates g !! h with Some (_, b) => b | None => page_at home h end.

Record restored (g : dwb.Gathered) (ids : list N) (acc : dwb.Repairs) (home : Home) (acc' : dwb.Repairs) (home' : Home) : Prop := {
  rs_ok : dev_ok home';
  rs_count : page_count home' = page_count home;
  rs_page h : page_at home' h = if decide (h ∈ ids ∧ torn home h = true) then restored_page g home h else page_at home h;
  rs_lossless : lossless acc' ↔ lossless acc ∧ ∀ h, h ∈ ids → torn home h = true → is_Some (dwb.candidates g !! h);
  rs_repaired : dwb.repaired acc' = (dwb.repaired acc
    + length (filter (λ h, torn home h = true ∧ is_Some (dwb.candidates g !! h)) ids))%nat;
}.

(** A page that needs no write. *)
Lemma restored_skip g h ids acc acc1 home acc' home' : h ∉ ids → restored g ids acc1 home acc' home' →
  (torn home h = true → dwb.candidates g !! h = None) →
  dwb.repaired acc1 = dwb.repaired acc → (lossless acc1 ↔ lossless acc ∧ torn home h = false) →
  restored g (h :: ids) acc home acc' home'.
Proof.
  intros Hn [Ho Hc Hp Hl Hr] Ht Hr1 Hl1. split; [done|done| | |].
  - intros h'. rewrite Hp. destruct (decide (h' = h)) as [->|Hne].
    + rewrite decide_False by naive_solver. case_decide as Hd; [|done]. unfold restored_page. by rewrite Ht by apply Hd.
    + apply decide_ext. rewrite elem_of_cons. naive_solver.
  - rewrite Hl, Hl1. destruct (torn home h) eqn:Hth.
    + specialize (Ht eq_refl). split; [naive_solver|]. intros [_ Hall]. destruct (Hall h ltac:(by left) Hth) as [x Hx]. congruence.
    + setoid_rewrite elem_of_cons. split; [|naive_solver]. intros [[Hla _] Hall]. split; [done|].
      intros h' [->|Hin] Hh'; [congruence|auto].
  - rewrite Hr, Hr1, filter_cons_False; [done|]. intros [Hth [x Hx]]. rewrite Ht in Hx; done.
Qed.

Lemma restore_spec g ids : (∀ h l b, dwb.candidates g !! h = Some (l, b) → is_page b) → NoDup ids → ∀ acc home, dev_ok home →
  ∃ acc' home', dwb.restore g ids acc home = (Ok acc', home') ∧ restored g ids acc home acc' home'.
Proof.
  intros Hpg. induction 1 as [|h ids Hn _ IH]; intros acc home Ho.
  { exists acc, home. split; [done|]. split; [done|done|intros h; by rewrite decide_False by (by intros [?%elem_of_nil _])| |cbn; lia].
    split; [intros ?; split; [done|by intros h ?%elem_of_nil]|by intros [? _]]. }
  cbn [dwb.restore]. destruct (N.leb_spec (page_count home) h) as [Hge|Hlt].
  { destruct (IH acc home Ho) as (acc' & home' & Hrun & Hre). exists acc', home'. split; [done|].
    assert (Ht : torn home h = false) by (unfold torn; by destruct (N.ltb_spec h (page_count home)); [lia|]).
    eapply restored_skip; [done|done|congruence|done|tauto]. }
  destruct (dev_lookup home h Ho Hlt) as [b Hb]. destruct (read_spec home h b Ho Hb) as [_ Hrd]. rewrite Hrd.
  assert (Hat : page_at home h = b) by (unfold page_at; by rewrite Hb).
  assert (Htn : torn home h = negb (page.verify_checksum b)).
  { unfold torn. rewrite Hat. by destruct (N.ltb_spec h (page_count home)); [|lia]. }
  destruct (negb (page.verify_checksum b)) eqn:Hv; cbn [negb].
  2:{ destruct (IH acc home Ho) as (acc' & home' & Hrun & Hre). exists acc', home'. split; [done|].
      eapply restored_skip; [done|done|congruence|done|tauto]. }
  destruct (dwb.candidates g !! h) as [[l img]|] eqn:Hc.
  - destruct (write_spec home h img Ho Hlt (Hpg _ _ _ Hc)) as (home1 & Hw & Ho1 & Hp1).
    destruct (IH (dwb.mkRepairs (S (dwb.repaired acc)) (dwb.torn_unprotected acc) (dwb.double_fault acc)) home1 Ho1)
      as (acc' & home' & Hrun & [Ho' Hc' Hp' Hl' Hr']).
    exists acc', home'. split; [unfold mbind, St_bind; by rewrite Hw|].
    pose proof (write_keeps_count home home1 h img Ho Ho1 Hp1) as Hcnt.
    assert (Hat1 : ∀ h', h' ≠ h → page_at home1 h' = page_at home h').
    { intros h' Hne. unfold page_at. by rewrite Hp1, list_lookup_insert_ne by lia. }
    assert (Hto : ∀ h', h' ≠ h → torn home1 h' = torn home h') by (intros h' Hne; apply (torn_other home home1 h'); auto).
    assert (Hath : page_at home1 h = img).
    { unfold page_at. rewrite Hp1, list_lookup_insert_eq; [done|]. rewrite (page_count_spec home Ho) in Hlt. lia. }
    assert (Hne : ∀ h', h' ∈ ids → h' ≠ h) by (intros h' Hin ->; done).
    split; [done|congruence| | |].
    + intros h'. rewrite Hp'. destruct (decide (h' = h)) as [->|Hd].
      * rewrite decide_False by naive_solver. rewrite Hath. rewrite decide_True by (split; [by left|congruence]).
        unfold restored_page. by rewrite Hc.
      * unfold restored_page. rewrite Hto, Hat1 by done. apply decide_ext. rewrite elem_of_cons. naive_solver.
    + rewrite Hl'. unfold lossless. cbn [dwb.double_fault dwb.torn_unprotected]. setoid_rewrite elem_of_cons.
      split; intros [Hla Hall]; (split; [done|]).
      * intros h' [->|Hin] Ht'; [by rewrite Hc|]. apply Hall; [done|]. rewrite Hto; auto.
      * intros h' Hin Ht'. apply Hall; [by right|]. rewrite <- Hto; auto.
    + rewrite Hr'. cbn [dwb.repaired]. rewrite filter_cons_True by (split; [congruence|by rewrite Hc]). cbn [length].
      assert (Hf : filter (λ h, torn home1 h = true ∧ is_Some (dwb.candidates g !! h)) ids
        = filter (λ h, torn home h = true ∧ is_Some (dwb.candidates g !! h)) ids).
      { clear -Hto Hne. induction ids as [|x ids IH]; [done|]. rewrite !filter_cons, IH by (intros; apply Hne; by right).
        apply decide_ext. rewrite Hto by (apply Hne; by left). done. }
      rewrite Hf. lia.
  - assert (Hgo : ∀ a, dwb.repaired a = dwb.repaired acc → ¬ lossless a →
      ∃ acc' home', dwb.restore g ids a home = (Ok acc', home') ∧ restored g (h :: ids) acc home acc' home').
    { intros a Ha Hla. destruct (IH a home Ho) as (acc' & home' & Hrun & Hre). exists acc', home'. split; [done|].
      eapply restored_skip; [done|exact Hre|done|done|]. rewrite Htn. split; [done|by intros [_ ?]]. }
    destruct (bool_decide (h ∈ dwb.had_corrupt_copy g)); (apply Hgo; [done|]); intros [Hl1 Hl2]; cbn in *.
    + by apply app_nil in Hl1 as [_ ?].
    + by apply app_nil in Hl2 as [_ ?].
Qed.
End restore.

(** ** Recovery *)
Section recover_home.
Context `{Crc32c} {D : Type} `{!BlockDevice D} `{!DeviceSpec D} {Home : Type} `{!BlockDevice Home} `{!DeviceSpec Home}.
#[local] Set Default Proof Using "All".

Definition disk_floor (d : D) : Lsn :=
  match dwb.read_region_header d BATCH_REGION with Ok (Some h) => hdr_floor h | _ => 0 end.

(** A region of the device names the page. *)
Definition names (d : D) (h : N) : Prop := ∃ e, e ∈ entries d ∧ en_home e = h.

(** A copy of the page that recovery may use. *)
Definition copy_of (d : D) (h : N) (b : bytes) : Prop :=
  ∃ e, e ∈ entries d ∧ en_home e = h ∧ usable d (disk_floor d) e b.

(** The newest of them. *)
Definition newest_copy (d : D) (h : N) (b : bytes) : Prop :=
  copy_of d h b ∧ ∀ b', copy_of d h b' → page.page_lsn b' ≤ page.page_lsn b.

Lemma region_slots rg : rg ∈ dwb.all_regions → header_slot rg.1 < dwb_device_pages.
Proof.
  unfold dwb.all_regions. intros [->|Hin]%elem_of_cons.
  - unfold dwb_device_pages. cbn. lia.
  - apply list_elem_of_fmap in Hin as (i & -> & Hi%elem_of_seq). cbn [fst evict_ring_region header_slot].
    unfold dwb_device_pages, EVICT_RING_BASE. lia.
Qed.

Lemma readable (d : D) r : dev_ok d → header_slot r < page_count d → ∃ o, dwb.read_region_header d r = Ok o.
Proof.
  intros Hd Hs. unfold dwb.read_region_header. rewrite page_at_read by done. by eexists.
Qed.

Lemma entry_page (d : D) e b : dev_ok d → intact d e b → is_page b.
Proof.
  intros Hd (Hr & Hv & _). destruct (decide (en_slot e < page_count d)) as [Hlt|Hge].
  - rewrite page_at_read in Hr by done. injection Hr as <-. by apply page_at_ok.
  - exfalso. destruct (read_beyond d (en_slot e) Hd ltac:(lia)) as [er He]. congruence.
Qed.

(** The outcome of a recovery pass. *)
Record home_recovered (d : D) (home : Home) (o : Outcome nat) (home' : Home) : Prop := {
  hr_ok : dev_ok home';
  hr_count : page_count home' = page_count home;
  hr_intact h : ¬ names d h ∨ torn home h = false → page_at home' h = page_at home h;
  hr_restored h : torn home h = true → names d h →
    (∃ b, newest_copy d h b ∧ page_at home' h = b) ∨ ((∀ b, ¬ copy_of d h b) ∧ page_at home' h = page_at home h);
  hr_outcome : match o with
    | Ok n => (∀ h, torn home h = true → names d h → ∃ b, copy_of d h b)
        ∧ (0 < n → dev_durable home' = dev_pages home')%nat
    | Err e => e = dwb.unrepairable ∧ ∃ h, torn home h = true ∧ names d h ∧ ∀ b, ¬ copy_of d h b
    | Panic _ => False
    end;
}.

Lemma gathered_candidate (d : D) g h : gathered d (disk_floor d) (entries d) g →
  match dwb.candidates g !! h with
  | Some (_, b) => newest_copy d h b
  | None => ∀ b, ¬ copy_of d h b
  end.
Proof.
  intros [_ Hf Hb]. destruct (dwb.candidates g !! h) as [[l b]|] eqn:Hc.
  - destruct (Hf h l b Hc) as (-> & Hex). split; [exact Hex|]. intros b' (e & He & <- & Hu).
    destruct (Hb e b' He Hu) as (l & b'' & Hc' & Hle). congruence.
  - intros b (e & He & <- & Hu). destruct (Hb e b He Hu) as (l & b'' & Hc' & _). congruence.
Qed.

(** The two passes, put together. *)
Lemma recovered_intro (d : D) g ids acc (home home1 home2 : Home) o :
  gathered d (disk_floor d) (entries d) g → (∀ h, h ∈ ids ↔ names d h) →
  restored g ids (dwb.mkRepairs 0 [] []) home acc home1 → dev_ok home2 → dev_pages home2 = dev_pages home1 →
  match o with
  | Ok n => lossless acc ∧ (0 < n → dev_durable home2 = dev_pages home2)%nat
  | Err e => e = dwb.unrepairable ∧ ¬ lossless acc
  | Panic _ => False
  end →
  home_recovered d home o home2.
Proof.
  intros Hg Hids [Ho1 Hc1 Hp1 Hl1 _] Ho2 Hp2 Hout.
  assert (Hat2 : ∀ h, page_at home2 h = page_at home1 h) by (intros h; unfold page_at; by rewrite Hp2).
  split; [done| | | |].
  - rewrite <- Hc1. by rewrite !page_count_spec, Hp2.
  - intros h Hor. rewrite Hat2, Hp1. apply decide_False. rewrite Hids. destruct Hor; [naive_solver|intros [_ ?]; congruence].
  - intros h Ht Hn. rewrite Hat2, Hp1, decide_True by (split; [by apply Hids|done]). unfold restored_page.
    pose proof (gathered_candidate d g h Hg) as Hcand. destruct (dwb.candidates g !! h) as [[l b]|]; [left; by exists b|by right].
  - destruct o as [n|e|m]; [|destruct Hout as [-> Hno]|done].
    + destruct Hout as [[_ Ha]%Hl1 Hdur]. split; [|done]. intros h Ht Hn. destruct (Ha h ltac:(by apply Hids) Ht) as [[l b] Hc].
      pose proof (gathered_candidate d g h Hg) as Hcand. rewrite Hc in Hcand. exists b. apply Hcand.
    + split; [done|]. destruct (decide (Forall (λ h, torn home h = true → is_Some (dwb.candidates g !! h)) ids)) as [Hf|Hf].
      { exfalso. apply Hno, Hl1. split; [done|]. rewrite Forall_forall in Hf. exact Hf. }
      apply not_Forall_Exists, Exists_exists in Hf as (h & Hin & Hh); [|apply _].
      destruct (decide (torn home h = true)) as [Ht|Ht]; [|by destruct Hh].
      assert (Hnone : ¬ is_Some (dwb.candidates g !! h)) by (intros Hs; by apply Hh).
      exists h. split_and!; [done|by apply Hids|].
      pose proof (gathered_candidate d g h Hg) as Hcand. destruct (dwb.candidates g !! h); [by destruct Hnone|done].
Qed.

Lemma recover_home_runs (s : Dwb D) (home : Home) :
  dev_ok (dwb_device s) → dwb_device_pages ≤ page_count (dwb_device s) → dev_ok home →
  ∃ o home', dwb.recover_home s home = (o, home') ∧ home_recovered (dwb_device s) home o home'.
Proof.
  intros Hd Hpages Ho. set (d := dwb_device s) in *.
  assert (Hrd : ∀ rg, rg ∈ dwb.all_regions → ∃ o, dwb.read_region_header d rg.1 = Ok o).
  { intros rg Hin. apply readable; [done|]. pose proof (region_slots rg Hin). lia. }
  unfold dwb.recover_home. fold d. destruct (Hrd (BATCH_REGION, false) ltac:(by left)) as [oh Hoh]. cbn [fst] in Hoh. rewrite Hoh.
  assert (Hfl : disk_floor d = match oh with Some h => hdr_floor h | None => 0 end) by (unfold disk_floor; by rewrite Hoh).
  rewrite <- Hfl, gather_fold by done. fold (entries d).
  pose proof (gathered_fold d (disk_floor d) (entries d)) as Hg. set (g := foldl _ _ _) in *. clearbody g.
  assert (Hpg : ∀ h l b, dwb.candidates g !! h = Some (l, b) → is_page b).
  { intros h l b Hc. destruct (ga_from _ _ _ _ Hg h l b Hc) as (_ & e & _ & _ & [Hi _]). by eapply entry_page. }
  set (ids := merge_sort N.le (elements (dwb.named g))).
  assert (Hperm : ids ≡ₚ elements (dwb.named g)) by apply merge_sort_Permutation.
  assert (Hids : ∀ h, h ∈ ids ↔ names d h) by (intros h; rewrite Hperm, elem_of_elements; apply Hg).
  assert (Hnd : NoDup ids) by (rewrite Hperm; apply NoDup_elements).
  destruct (restore_spec g ids Hpg Hnd (dwb.mkRepairs 0 [] []) home Ho) as (acc & home1 & Hrun & Hre).
  pose proof (rs_ok _ _ _ _ _ _ Hre) as Ho1.
  assert (Hfin : ∀ home2, dev_ok home2 → dev_pages home2 = dev_pages home1 → (0 < dwb.repaired acc → dev_durable home2 = dev_pages home2)%nat →
    ∃ o, (if bool_decide (dwb.double_fault acc = [] ∧ dwb.torn_unprotected acc = []) then mret (dwb.repaired acc) else throw dwb.unrepairable) home2
      = (o, home2) ∧ home_recovered d home o home2).
  { intros home2 Ho2 Hp2 Hdur. case_bool_decide as Hb; eexists; (split; [done|]);
      by apply (recovered_intro d g ids acc home home1 home2). }
  unfold mbind at 1, St_bind at 1. rewrite Hrun. unfold mbind, St_bind. destruct (Nat.ltb_spec 0 (dwb.repaired acc)) as [Hrep|Hrep].
  - destruct (sync_spec home1 Ho1) as (home2 & Hs & _ & Ho2 & Hp2 & Hdur). rewrite Hs.
    destruct (Hfin home2 Ho2 Hp2) as (o & -> & Hh); [by rewrite Hdur|]. by exists o, home2.
  - destruct (Hfin home1 Ho1 eq_refl) as (o & Hout & Hh); [lia|]. exists o, home1. by split; [exact Hout|].
Qed.

(** Recovery of torn home pages: on any two devices it returns, and its outcome is exactly
    this. Pages that are intact or that no region names are left alone. A torn page that
    some region names becomes its newest intact copy, ring copies below the checkpoint
    floor not counting; one without such a copy is left as it is, and then, and only
    then, the pass reports an unrepairable fault instead of the number of repairs. *)
Theorem recover_home_outcome (s : Dwb D) (home : Home) :
  dev_ok (dwb_device s) → dwb_device_pages ≤ page_count (dwb_device s) → dev_ok home →
  ∃ o home', dwb.recover_home s home = (o, home') ∧ home_recovered (dwb_device s) home o home'.
Proof. apply recover_home_runs. Qed.
End recover_home.
