(* ===== verification/DwbRecovery.v ===== *)
(** * Recovering a device with its doublewrite buffer

    [recover_device_with_dwb] of [src/crates/graphus-storage/src/recovery.rs]: torn home
    pages are restored from the doublewrite buffer, then the log is replayed. *)

From stdpp Require Import options.
From S2P Require Import Prelude Core Bytes WalRecord Checkpoint WalSink WalScan WalScanFacts Wal WalRecovery WalUndo WalEffects WalRecoverySpec WalTrace WalCrash PageFormat Paging BlockDevice DeviceTarget Dwb DwbFacts.

Section with_dwb.
Context `{Crc32c} {S : Type} `{!LogSink S} {D : Type} `{!BlockDevice D} {W : Type} `{!BlockDevice W} `{HashOrder}.

Definition recover_device_with_dwb (dwb : Dwb W) : FSt (WalManager S * D) RecoveryReport := λ '(w, d),
  match dwb.recover_home dwb d with
  | (Ok _, d) => recover_device (w, d)
  | (Err e, d) => Some (Err e, (w, d))
  | (Panic m, d) => Some (Panic m, (w, d))
  end.
End with_dwb.

Section with_dwb_theorem.
#[local] Set Default Proof Using "All".
Context `{Crc32c} {S : Type} `{!LogSink S} `{!LogSinkSpec S} `{!ReliableSink S} `{!KeepsUndo S}.
Context {D : Type} `{!BlockDevice D} `{!DeviceSpec D} {W : Type} `{!BlockDevice W} `{!DeviceSpec W} `{HashOrder}.

(** Redo catches up from the page image [b]. *)
Definition catches_up (rs : list LogRecord) (start : Lsn) (c0 : PageId → bytes) (p : PageId) (b : bytes) : Prop :=
  effect (T := DeviceTarget D) p
    (filter (replayed start (if page.verify_checksum b then page.page_lsn b else 0)) rs) (neutral b)
  = effect (T := DeviceTarget D) p rs (c0 p).

(** The home device and its doublewrite buffer after a crash: redo catches up from every
    page that is intact or not named by the buffer, and every other page has a copy, of
    which redo catches up from the newest. *)
Record repairable (rs : list LogRecord) (start : Lsn) (c0 : PageId → bytes) (dwb : W) (d : D) : Prop := {
  rp_home : dev_ok d;
  rp_buffer : dev_ok dwb ∧ dwb_device_pages ≤ page_count dwb;
  rp_images p r i : r ∈ rs → i ∈ images p r → image_ok (T := DeviceTarget D) p i;
  rp_intact p : ¬ names dwb p ∨ torn d p = false → catches_up rs start c0 p (page_at d p);
  rp_torn p : torn d p = true → names dwb p →
    (∃ b, copy_of dwb p b) ∧ ∀ b, newest_copy dwb p b → catches_up rs start c0 p b;
}.

Lemma repaired_on_disk rs start c0 dwb fl d : repairable rs start c0 dwb d →
  ∃ n d', dwb.recover_home (mkDwb dwb fl) d = (Ok n, d')
    ∧ on_disk (T := DeviceTarget D) rs start c0 (mkTarget d').
Proof.
  intros [Hd [Hb Hpages] Himg Hint Htorn].
  destruct (recover_home_runs (mkDwb dwb fl) d Hb Hpages Hd) as (o & d' & Hrun & [Hd' Hc' Hsame Hres Hout]).
  cbn [dwb_device] in *. destruct o as [n|e|m]; [|exfalso|done].
  2:{ destruct Hout as (_ & h & Ht & Hn & Hno). destruct (Htorn h Ht Hn) as [[b Hb'] _]. by apply (Hno b). }
  exists n, d'. split; [done|]. split; [done|done|]. intros p. cbn [page_lsn DeviceTarget_target content DeviceTarget_spec device].
  rewrite target_lsn by done.
  assert (Hcu : catches_up rs start c0 p (page_at d' p)); [|exact Hcu].
  destruct (torn d p) eqn:Ht.
  - destruct (decide (p ∈ (en_home <$> entries dwb))) as [Hin|Hin].
    + assert (Hn : names dwb p) by (apply list_elem_of_fmap in Hin as (e & -> & He); by exists e).
      destruct (Hres p Ht Hn) as [(b & Hnew & ->)|[Hno _]]; [by apply Htorn|].
      destruct (Htorn p Ht Hn) as [[b Hb'] _]. by destruct (Hno b).
    + assert (Hn : ¬ names dwb p) by (intros (e & He & <-); apply Hin; by apply list_elem_of_fmap_2).
      rewrite Hsame by (by left). auto.
  - rewrite Hsame by (by right). auto.
Qed.

(** C4: Recovery with a doublewrite buffer. After a crash of the log as for
    [acknowledged_commits_survive] (written from its creation without reclamation, cut
    between what was durable and what was written, at most [2^62] bytes, nothing in the torn
    rest that passes for a record, the start of the log not mistaken for padding), with the
    images of unfinished transactions separated as there, and with the home device torn
    wherever a write was in flight, provided that redo catches up from every page that is
    intact or not named by the buffer and that every other page has copies in the buffer,
    from the newest of which redo catches up: recovery returns and leaves on every page,
    durably, the effect of the surviving records of finished transactions, those with a
    durable [Commit] record among them. *)
Theorem dwb_device_recovery (w : WalManager S) (s0 : S) (d : D) (dwb : W) fl (c0 : PageId → bytes) :
  reaches w → image (sink w) `prefix_of` image s0 → image s0 `prefix_of` written w →
  sink_ok s0 → faultless s0 → unsynced s0 = [] → sk_reclaimed_floor s0 ≤ HEADER_LEN → blen (image s0) ≤ 2 ^ 62 →
  let img := image s0 in let rs := log_in img in
  (∀ bad, (log_records img HEADER_LEN).2 = Some bad → find_genuine img (bad + 1) = None) →
  starts_ok img (blen img) HEADER_LEN →
  repairable rs (redo_start_of (analysis_of rs)) c0 dwb d → separated (T := DeviceTarget D) rs c0 →
  ∃ rep w' d', recover_device_with_dwb (mkDwb dwb fl) (mkWal s0 ∅, d) = Some (Ok rep, (w', d'))
    ∧ dev_ok d' ∧ dev_durable d' = dev_pages d'
    ∧ (∀ p, neutral (page_at d' p) = effect (T := DeviceTarget D) p (filter (kept rs) rs) (c0 p))
    ∧ ∀ x, x ≠ 0 → acked w x → ∀ r, r ∈ log_of w → txn_id r = x → r ∈ rs ∧ kept rs r.
Proof.
  intros Hreach Hlo Hhi Hs Hg Hu Hfl Hlen img rs Hgen Hst Hrep Hsep.
  destruct (repaired_on_disk _ _ _ _ fl _ Hrep) as (n & d1 & Hrun & Hdisk).
  unfold recover_device_with_dwb. rewrite Hrun.
  by apply (recover_device_crash w s0 d1 c0 Hreach Hlo Hhi Hs Hg Hu Hfl Hlen Hgen Hst Hdisk Hsep).
Qed.
End with_dwb_theorem.
