(* ===== verification/DwbExamples.v ===== *)
(** * Devices and the doublewrite buffer at work

    Runs over the in-memory device and log: the witnesses of the device recovery
    theorems, and a run in which a stale copy in the doublewrite ring makes recovery
    lose a committed change. *)

From stdpp Require Import options.
From S2P Require Import Prelude Core Bytes WalRecord Checkpoint WalSink WalScan WalScanFacts Wal WalRecovery WalUndo WalEffects WalRecoverySpec WalTrace WalCrash WalExamples PageFormat Paging BlockDevice DeviceTarget Dwb DwbFacts DwbRecovery.

Definition ok_or {A} (a : A) (o : Outcome A) : A := match o with Ok x => x | _ => a end.
Definition after {S A} (m : St S A) (s : S) : S := (m s).2.

(** A patch of bytes at an offset, and the page home after it. *)
Definition pb (off : nat) (bs : bytes) : bytes := ok_or [] (paging.encode_patch off bs).
Definition put `{Crc32c} (p : PageId) (l : Lsn) (img : bytes) (d : MemBlockDevice) : MemBlockDevice :=
  device (after (Target.apply p l img) (mkTarget d)).

(** A checksum that is quick to evaluate, for the longer runs. *)
Definition additive : Crc32c.
Proof.
  refine {| crc32c bs := foldl N.add 0 bs mod 2 ^ 32 |}. intros bs. apply mod_u32.
Defined.

(** ** A stale copy *)
Module Stale.
#[local] Existing Instance additive.

(** Transaction 9 stays open, so that the log, and with it the floor of the doublewrite
    buffer, reaches back to its first record. *)
Definition log1 := run [OUpdate 9 1 (pb 100 [9]) (pb 100 [0])] fresh.
Definition log2 := run [OUpdate 1 0 (pb 100 [1]) (pb 100 [0])] log1.

(** Page 0 is evicted through slot 0 of the ring: staged, written home, slot freed. *)
Definition home1 := after sync_data (put 0 (Wal.next_lsn log1) (pb 100 [1]) (MemDev.new 2)).
Definition buffer0 := ok_or (mkDwb (MemDev.new 0) 0) (dwb.new (MemDev.new 0)).
Definition buffer1 := after (dwb.stage_eviction_slot 0 0 (page_at home1 0)) buffer0.

(** Transaction 1 changes it again and commits; a checkpoint flushes it through the batch
    region, empties that and sets the floor. *)
Definition log3 := run [OUpdate 1 0 (pb 101 [2]) (pb 101 [0]); OCommit 1; OCheckpoint []] log2.
Definition home2 := after sync_data (put 1 8 (pb 100 [9]) (put 0 (Wal.next_lsn log2) (pb 101 [2]) home1)).
Definition buffer2 :=
  after (dwb.set_floor (default 0 (Wal.oldest_active_first_lsn log3)))
    (after dwb.clear (after (dwb.stage_batch [(0, page_at home2 0); (1, page_at home2 1)]) buffer1)).

(** Transaction 2 changes the other half of the page and commits; the machine crashes. *)
Definition log4 := run [OUpdate 2 0 (pb (N.to_nat 5000) [3]) (pb (N.to_nat 5000) [0]); OCommit 2] log3.
Definition recovery1 := recover_device_with_dwb buffer2 (reopen (mem_image (sink log4)), home2).

(** A second crash tears the write of page 0 by the first recovery: the first sector is
    new, the second old. *)
Definition torn0 (d : MemBlockDevice) : bytes := copy_at 0 (take TORN_SECTOR_SIZE (page_at d 0)) (page_at home2 0).
Definition recovery2 (buffer : Dwb MemBlockDevice) :=
  match recovery1 with
  | Some (Ok _, (w, d)) =>
      recover_device_with_dwb buffer
        (reopen (mem_image (sink w)), mkDevice [torn0 d; page_at d 1] ∅ false None None None)
  | _ => None
  end.

(** The bytes of page 0 the transactions wrote, after a recovery that succeeded. *)
Definition recovered_bytes (r : option (Outcome RecoveryReport * (WalManager MemLogSink * MemBlockDevice))) :
    option (list (option N)) :=
  match r with
  | Some (Ok _, (_, d)) => Some ((λ i, page_at d 0 !! N.to_nat i) <$> [100; 101; 5000])
  | _ => None
  end.

(** C31: A copy that eviction left in the ring can undo a commit: transactions 1 and 2 are
    committed and durable and the first recovery has the changes of both; if a crash then
    tears the page that recovery wrote, which it does not stage, the second recovery
    finds the copy of an earlier eviction in a slot that was freed long ago, above the
    floor, restores it, and replays only the records after the checkpoint. It reports
    success, and the change of transaction 1 that the checkpoint had flushed is gone. With
    an empty buffer the same crash is recovered. *)
Theorem stale_copy_loses_commit :
  has_record Commit (log_in (mem_image (sink log4))) 1 = true
  ∧ recovered_bytes recovery1 = Some [Some 1; Some 2; Some 3]
  ∧ recovered_bytes (recovery2 buffer2) = Some [Some 1; Some 0; Some 3]
  ∧ recovered_bytes (recovery2 (after dwb.reset buffer2)) = Some [Some 1; Some 2; Some 3].
Proof. split_and!; vm_compute; reflexivity. Qed.
End Stale.

(** ** Runs that meet the hypotheses *)
Module Dev.
#[local] Existing Instance additive.

(** An offset in the second sector of a page. *)
Definition far : nat := N.to_nat 5000.

(** Transaction 1 commits; the crash cuts off transaction 2. *)
Definition history : list WalOp :=
  [OBegin 1; OUpdate 1 0 (pb far [10]) (pb far [0]); OCommit 1; OUpdate 2 0 (pb 200 [5]) (pb 200 [0]); OFlush].
Definition crashed : WalManager MemLogSink := run history fresh.
Definition img : bytes := mem_image (sink crashed).
Definition update : LogRecord := mkRecord 65 8 1 Update 0 0 (pb far [10]) (pb far [0]).
Definition cut_off : LogRecord := mkRecord 185 0 2 Update 0 0 (pb 200 [5]) (pb 200 [0]).
Definition records : list LogRecord :=
  [mkRecord 8 0 1 Begin 0 0 [] []; update; mkRecord 128 65 1 Commit 0 0 [] []; cut_off].
Definition disk : MemBlockDevice := MemDev.new 1.
Definition c0 : PageId → bytes := λ _, neutral zero_page.

(** A doublewrite buffer that holds nothing. *)
Definition buffer : MemBlockDevice := MemDev.new dwb_device_pages.

Lemma log_in_img : log_in img = records.
Proof. vm_compute. reflexivity. Qed.

Lemma log_ok_img : log_ok img HEADER_LEN records [].
Proof.
  split; [|vm_compute; done|by left|done|].
  - split_and!; [|vm_compute; done|vm_compute; done].
    cbn [laid_out records]. split_and!; try (vm_compute; done); split; vm_compute; done.
  - right; left. eexists. split; [vm_compute; reflexivity|done].
Qed.

Lemma dev_log_reaches : reaches crashed.
Proof.
  apply run_reaches; [exact fresh_reaches|]. unfold history. cbn [all_legal].
  split_and!; try done; try (vm_compute; reflexivity); apply (bool_decide_unpack _); vm_compute; exact I.
Qed.

Lemma img_image : image (sink crashed) = img.
Proof. reflexivity. Qed.
Lemma img_written : written crashed = img ++ unsynced (sink crashed).
Proof. reflexivity. Qed.

Lemma losers_img x : loser records x ↔ x = 2.
Proof.
  rewrite <- elem_of_losers. assert (losers_of records = [2]) as -> by (vm_compute; done). apply list_elem_of_singleton.
Qed.

Lemma start_img : redo_start_of (analysis_of records) = HEADER_LEN.
Proof. vm_compute. reflexivity. Qed.

#[local] Opaque crashed img.

(** The images of the log are these four patches of page 0. *)
Lemma images_img p r i : r ∈ records → i ∈ images p r →
  p = 0 ∧ ((r = update ∧ ∃ b, i = pb far [b] ∧ b < 256) ∨ (r = cut_off ∧ ∃ b, i = pb 200 [b] ∧ b < 256)).
Proof.
  intros Hr Hi. unfold images, redo_img, undo_img in Hi.
  unfold records in Hr. rewrite !elem_of_cons, elem_of_nil in Hr.
  destruct Hr as [->|[->|[->|[->|[]]]]]; cbn [rec_type is_page_change is_undoable_action andb page_id option_list app update cut_off redo undo] in Hi;
    try (by apply elem_of_nil in Hi).
  all: destruct (N.eqb_spec 0 p) as [<-|]; cbn [andb option_list app] in Hi; [|by apply elem_of_nil in Hi].
  all: split; [done|]; apply elem_of_app in Hi as [Hi|Hi]; apply list_elem_of_singleton in Hi; subst i.
  - left. split; [done|]. by exists 10.
  - left. split; [done|]. by exists 0.
  - right. split; [done|]. by exists 5.
  - right. split; [done|]. by exists 0.
Qed.

Lemma pb_ok (o : nat) b : (24 ≤ o)%nat → N.of_nat o < 8000 → b < 256 → body_patch (Plain o [b]) ∧ encode (Plain o [b]) = Ok (pb o [b]).
Proof.
  intros Ho Ho' Hb. split; [split; [split|right]|].
  - cbn [first_byte width length]. unfold PAGE_SIZE. lia.
  - by repeat constructor.
  - unfold page.HEADER_SIZE. cbn. lia.
  - unfold pb. cbn [encode]. unfold paging.encode_patch. cbn [length].
    destruct (Nat.leb_spec (o + 1) PAGE_SIZE) as [|Hgt]; [done|unfold PAGE_SIZE in Hgt; lia].
Qed.

Lemma image_ok_img p r i : r ∈ records → i ∈ images p r → image_ok (T := DeviceTarget MemBlockDevice) p i.
Proof.
  intros Hr Hi. destruct (images_img p r i Hr Hi) as (-> & [(_ & b & -> & Hb)|(_ & b & -> & Hb)]); (split; [done|]).
  - exists (Plain far [b]). apply pb_ok; [unfold far; lia..|done].
  - exists (Plain 200 [b]). apply pb_ok; [lia..|done].
Qed.

Lemma page_at_disk p : page_at disk p = zero_page.
Proof.
  unfold page_at. cbn [dev_pages MemBlockDevice_spec]. unfold disk. rewrite mem_pages_lookup. cbn [MemDev.new cache persisted].
  destruct (replicate (N.to_nat 1) zero_page !! N.to_nat p) eqn:Hl; [|done]. apply lookup_replicate in Hl as [-> _].
  cbn. by rewrite lookup_empty.
Qed.

Lemma disk_ok : dev_ok disk.
Proof. by apply new_device_ok. Qed.

Lemma catches_up_zero p : catches_up (D := MemBlockDevice) records (redo_start_of (analysis_of records)) c0 p zero_page.
Proof.
  unfold catches_up. rewrite start_img.
  assert (Hl : (if page.verify_checksum zero_page then page.page_lsn zero_page else 0) = 0) by (vm_compute; reflexivity).
  rewrite Hl. assert (filter (replayed HEADER_LEN 0) records = records) as -> by (vm_compute; reflexivity). done.
Qed.

Lemma disk_on_disk : on_disk (T := DeviceTarget MemBlockDevice) (PagesSpec0 := DeviceTarget_spec) records (redo_start_of (analysis_of records)) c0 (mkTarget disk).
Proof.
  split; [exact disk_ok|exact image_ok_img|]. intros p.
  cbn [page_lsn DeviceTarget_target content DeviceTarget_spec device].
  rewrite target_lsn, page_at_disk by exact disk_ok. apply catches_up_zero.
Qed.

Lemma patched_pb c (o : nat) b : N.of_nat o < 8000 → patched c (pb o [b]) = if (length c <? o + 1)%nat then c else copy_at o [b] c.
Proof.
  intros Ho. unfold patched, pb. unfold paging.encode_patch. cbn [length].
  destruct (Nat.leb_spec (o + 1) PAGE_SIZE) as [_|Hgt]; [|unfold PAGE_SIZE in Hgt; lia]. cbn [negb ok_or].
  unfold paging.apply_patch. rewrite take_app_length', drop_app_length' by (by rewrite to_le_bytes_length).
  rewrite offset_roundtrip by (unfold PAGE_SIZE; lia). rewrite length_app, to_le_bytes_length. change (length [b]) with 1%nat. change (2 + 1 <? 2)%nat with false. cbn iota.
  destruct (N.eqb_spec (N.of_nat o) paging.CAS_SENTINEL) as [He|_]; [unfold paging.CAS_SENTINEL in He; lia|].
  rewrite Nat2N.id. by destruct (length c <? o + 1)%nat.
Qed.

Lemma pb_commute c (o o' : nat) b b' : N.of_nat o < 8000 → N.of_nat o' < 8000 → o ≠ o' →
  patched (patched c (pb o [b])) (pb o' [b']) = patched (patched c (pb o' [b'])) (pb o [b]).
Proof.
  intros Ho Ho' Hne. rewrite !patched_pb by done.
  destruct (Nat.ltb_spec (length c) (o + 1)) as [Hc|Hc], (Nat.ltb_spec (length c) (o' + 1)) as [Hc'|Hc'];
    rewrite ?copy_at_length by (cbn; lia);
    repeat match goal with |- context [(?a <? ?n)%nat] => destruct (Nat.ltb_spec a n); try lia end; try done.
  apply copy_at_comm; cbn; lia.
Qed.

Lemma tag_update : tag update = 1.
Proof. vm_compute. reflexivity. Qed.
Lemma tag_cut_off : tag cut_off = 2.
Proof. vm_compute. reflexivity. Qed.

Lemma kept_img : filter (kept records) records = take 3 records.
Proof. vm_compute. reflexivity. Qed.

Lemma separated_img : separated (T := DeviceTarget MemBlockDevice) (PagesSpec0 := DeviceTarget_spec) records c0.
Proof.
  split.
  - intros p r r' i j c Hr Hr' Hl Hne _ Hi Hj. apply losers_img in Hl.
    destruct (images_img p r i Hr Hi) as (_ & [(-> & _)|(-> & b & -> & _)]); [by rewrite tag_update in Hl|].
    destruct (images_img p r' j Hr' Hj) as (_ & [(-> & b' & -> & _)|(-> & _)]); [|done].
    apply pb_commute; unfold far; lia.
  - intros x p ->%losers_img. rewrite kept_img.
    assert (filter (λ r, rec_type r ≠ Clr ∧ undo r ≠ []) (records_of 2 records) = [cut_off]) as -> by (vm_compute; reflexivity).
    cbn [reversible]. split; [|done]. unfold undo_img, redo_img. cbn [rec_type is_page_change is_undoable_action cut_off page_id andb redo undo].
    destruct (N.eqb_spec 0 p) as [<-|]; [|done]. cbn [andb negb]. vm_compute. reflexivity.
Qed.
End Dev.

Section witnesses.
#[local] Existing Instance additive.
#[local] Opaque Dev.crashed Dev.img.

Lemma reopened_img : image (sink (reopen Dev.img)) = Dev.img.
Proof. done. Qed.

Lemma device_recovery_witness : ∃ rep w' d', recover_device (reopen Dev.img, Dev.disk) = Some (Ok rep, (w', d'))
  ∧ dev_ok d' ∧ dev_durable d' = dev_pages d'
  ∧ (∀ p, neutral (page_at d' p) = effect (T := DeviceTarget MemBlockDevice) p
            (filter (kept (log_in (image (sink (reopen Dev.img))))) (log_in (image (sink (reopen Dev.img))))) (Dev.c0 p))
  ∧ ∀ x, x ≠ 0 → acked Dev.crashed x → ∀ r, r ∈ log_of Dev.crashed → txn_id r = x →
      r ∈ log_in (image (sink (reopen Dev.img))) ∧ kept (log_in (image (sink (reopen Dev.img)))) r.
Proof.
  assert (Hrs : log_in (image (sink (reopen Dev.img))) = Dev.records) by (rewrite reopened_img; exact Dev.log_in_img).
  apply (device_recovery Dev.crashed (sink (reopen Dev.img)) Dev.disk Dev.c0).
  - exact Dev.dev_log_reaches.
  - rewrite reopened_img, Dev.img_image. exists []. symmetry. apply app_nil_r.
  - rewrite reopened_img. exists (unsynced (sink Dev.crashed)). exact Dev.img_written.
  - apply reopen_ok.
  - done.
  - done.
  - done.
  - exact (lo_len _ _ _ _ Dev.log_ok_img).
  - intros bad. rewrite reopened_img, (log_records_holds _ _ _ _ (lo_holds _ _ _ _ Dev.log_ok_img)) by (by left). done.
  - exact (lo_start _ _ _ _ Dev.log_ok_img).
  - rewrite Hrs. exact Dev.disk_on_disk.
  - rewrite Hrs. exact Dev.separated_img.
Defined.

Lemma buffer_ok : dev_ok Dev.buffer ∧ dwb_device_pages ≤ page_count Dev.buffer.
Proof.
  split; [apply new_device_ok; vm_compute; done|]. unfold Dev.buffer. cbn [page_count MemBlockDevice_device].
  unfold MemDev.count. cbn [MemDev.new persisted]. rewrite length_replicate. lia.
Qed.

Lemma buffer_empty h : ¬ names Dev.buffer h.
Proof.
  intros (e & He & _). assert (Hn : entries Dev.buffer = []) by (vm_compute; reflexivity).
  rewrite Hn in He. by apply elem_of_nil in He.
Qed.

(** Page 0 with the change of transaction 1, a home device on which a crash tore its write
    after the first sector, and a buffer with a copy of it in the first slot of the ring. *)
Definition copy0 : bytes := page_at (put 0 65 (pb Dev.far [10]) Dev.disk) 0.
Definition damaged : MemBlockDevice :=
  mkDevice [copy_at 0 (take TORN_SECTOR_SIZE copy0) zero_page] ∅ false None None None.
Definition staged : MemBlockDevice :=
  after (write_page (header_slot (evict_ring_region 0)) (dwb.encode_header [0] 0))
    (after (write_page (first_data_slot (evict_ring_region 0)) copy0) Dev.buffer).

Lemma copy0_ok : is_page copy0.
Proof.
  unfold copy0, put, after. destruct (Dev.pb_ok Dev.far 10) as [Hb He]; [unfold Dev.far; lia..|done|].
  destruct (target_apply Dev.disk 0 65 _ _ Dev.disk_ok ltac:(done) Hb He) as (d' & b & -> & Hd' & _).
  apply page_at_ok, Hd'.
Qed.

Lemma damaged_ok : dev_ok damaged.
Proof.
  split; cbn; [|by intros i b ?%lookup_empty_Some|done|done]. apply Forall_singleton.
  destruct copy0_ok as [Hl Hb]. apply page.copy_at_is_page; [apply page.zero_page_ok|by apply is_bytes_take|].
  rewrite length_take, Hl. unfold TORN_SECTOR_SIZE, PAGE_SIZE. lia.
Qed.

Lemma after_write_ok (d : MemBlockDevice) p b : dev_ok d → p < page_count d → is_page b →
  dev_ok (after (write_page p b) d) ∧ page_count (after (write_page p b) d) = page_count d.
Proof.
  intros Hd Hp Hb. destruct (write_spec d p b Hd Hp Hb) as (d' & Hw & Hd' & Hpg). unfold after. rewrite Hw. split; [exact Hd'|].
  exact (write_keeps_count d d' p b Hd Hd' Hpg).
Qed.

Lemma staged_ok : dev_ok staged ∧ page_count staged = page_count Dev.buffer.
Proof.
  destruct buffer_ok as [Hb Hc].
  destruct (after_write_ok Dev.buffer (first_data_slot (evict_ring_region 0)) copy0 Hb) as [Hb1 Hc1].
  { eapply N.lt_le_trans; [|exact Hc]. vm_compute. reflexivity. }
  { exact copy0_ok. }
  destruct (after_write_ok _ (header_slot (evict_ring_region 0)) (dwb.encode_header [0] 0) Hb1) as [Hb2 Hc2].
  { rewrite Hc1. eapply N.lt_le_trans; [|exact Hc]. vm_compute. reflexivity. }
  { apply encode_header_page. vm_compute. lia. }
  split; [exact Hb2|]. etransitivity; [exact Hc2|exact Hc1].
Qed.

Lemma recover_home_outcome_witness : ∃ o home',
  dwb.recover_home (mkDwb staged 0) damaged = (o, home') ∧ home_recovered staged damaged o home'.
Proof.
  apply (recover_home_outcome (mkDwb staged 0) damaged).
  - exact (proj1 staged_ok).
  - change (dwb_device (mkDwb staged 0)) with staged. rewrite (proj2 staged_ok). exact (proj2 buffer_ok).
  - exact damaged_ok.
Defined.

(** The buffer names one page, page 0, and has one copy of it. *)
Lemma staged_entries : entries staged = [mkEntry true (first_data_slot (evict_ring_region 0)) 0].
Proof. vm_compute. reflexivity. Qed.

Lemma staged_reads : read_page (first_data_slot (evict_ring_region 0)) staged = Ok copy0.
Proof. vm_compute. reflexivity. Qed.

Lemma staged_copy b : copy_of staged 0 b ↔ b = copy0.
Proof.
  unfold copy_of. rewrite staged_entries. setoid_rewrite list_elem_of_singleton. split.
  - intros (e & -> & _ & (Hr & _) & _). cbn [en_slot] in Hr. rewrite staged_reads in Hr. by injection Hr.
  - intros ->. eexists. split_and!; [done|done|]. split; [split_and!; [exact staged_reads|vm_compute; done..]|].
    intros _. vm_compute. discriminate.
Qed.

(** Redo catches up from the copy: it has the record at 65, and the one at 185 follows. *)
Lemma catches_up_copy :
  catches_up (D := MemBlockDevice) Dev.records (redo_start_of (analysis_of Dev.records)) Dev.c0 0 copy0.
Proof. unfold catches_up. rewrite Dev.start_img. vm_compute. reflexivity. Qed.

Lemma damaged_rest p : p ≠ 0 → page_at damaged p = zero_page.
Proof.
  intros Hp. unfold page_at. cbn [dev_pages MemBlockDevice_spec]. rewrite mem_pages_lookup. cbn [damaged cache persisted].
  rewrite lookup_ge_None_2; [done|]. cbn. lia.
Qed.

Lemma damaged_torn : torn damaged 0 = true.
Proof. vm_compute. reflexivity. Qed.

Lemma damaged_repairable :
  repairable (D := MemBlockDevice) Dev.records (redo_start_of (analysis_of Dev.records)) Dev.c0 staged damaged.
Proof.
  split; [exact damaged_ok| |exact Dev.image_ok_img| |].
  - split; [exact (proj1 staged_ok)|]. rewrite (proj2 staged_ok). exact (proj2 buffer_ok).
  - intros p Hp. destruct (decide (p = 0)) as [->|Hne]; [|rewrite damaged_rest by done; apply Dev.catches_up_zero].
    exfalso. destruct Hp as [Hn|Ht]; [|by rewrite damaged_torn in Ht]. apply Hn. eexists. rewrite staged_entries.
    split; [by left|done].
  - intros p _ (e & He & <-). rewrite staged_entries in He. apply list_elem_of_singleton in He as ->. cbn [en_home]. split.
    + exists copy0. by apply staged_copy.
    + intros b [->%staged_copy _]. exact catches_up_copy.
Qed.

(** A torn page is repaired from its copy, and the record cut off by the crash is undone. *)
Lemma dwb_device_recovery_witness : torn damaged 0 = true ∧ names staged 0 ∧ ∃ rep w' d',
  recover_device_with_dwb (mkDwb staged 0) (reopen Dev.img, damaged) = Some (Ok rep, (w', d')) ∧ dev_ok d'
  ∧ dev_durable d' = dev_pages d'
  ∧ ∀ p, neutral (page_at d' p) = effect (T := DeviceTarget MemBlockDevice) p (take 3 Dev.records) (Dev.c0 p).
Proof.
  split; [exact damaged_torn|]. split; [eexists; rewrite staged_entries; split; [by left|done]|].
  assert (Hrs : log_in (image (sink (reopen Dev.img))) = Dev.records) by (rewrite reopened_img; exact Dev.log_in_img).
  edestruct (dwb_device_recovery Dev.crashed (sink (reopen Dev.img)) damaged staged 0 Dev.c0) as (rep & w' & d' & Hrun & Hok & Hdur & Hc & _).
  - exact Dev.dev_log_reaches.
  - rewrite reopened_img, Dev.img_image. exists []. symmetry. apply app_nil_r.
  - rewrite reopened_img. exists (unsynced (sink Dev.crashed)). exact Dev.img_written.
  - apply reopen_ok.
  - done.
  - done.
  - done.
  - exact (lo_len _ _ _ _ Dev.log_ok_img).
  - intros bad. rewrite reopened_img, (log_records_holds _ _ _ _ (lo_holds _ _ _ _ Dev.log_ok_img)) by (by left). done.
  - exact (lo_start _ _ _ _ Dev.log_ok_img).
  - rewrite Hrs. exact damaged_repairable.
  - rewrite Hrs. exact Dev.separated_img.
  - exists rep, w', d'. split; [exact Hrun|]. split; [exact Hok|]. split; [exact Hdur|].
    intros p. rewrite (Hc p), Hrs, Dev.kept_img. reflexivity.
Defined.

Lemma torn_page_rebuilt_witness :
  page_lsn 0 (mkTarget damaged) = 0
  ∧ effect (T := DeviceTarget MemBlockDevice) 0 (filter (replayed HEADER_LEN (page_lsn 0 (mkTarget damaged))) [Dev.update])
      (neutral (page_at damaged 0))
    = effect (T := DeviceTarget MemBlockDevice) 0 [Dev.update] (neutral zero_page).
Proof.
  assert (Hn : neutral (page_at damaged 0) = neutral zero_page) by (vm_compute; reflexivity).
  apply (torn_page_rebuilt damaged 0 [Dev.update] HEADER_LEN [Plain Dev.far [10]] (neutral zero_page)).
  - exact damaged_ok.
  - vm_compute. reflexivity.
  - apply neutral_length, page.zero_page_ok.
  - intros r ->%list_elem_of_singleton _. split; vm_compute; done.
  - vm_compute (omap _ _). constructor; [|constructor]. destruct (Dev.pb_ok Dev.far 10) as [[Hok _] He]; [unfold Dev.far; lia..|done|]. split; [exact Hok|exact He].
  - intros o e n q Hin. apply list_elem_of_singleton in Hin. discriminate.
  - by split.
  - rewrite Hn. split; [done| |].
    + intros i. by exists 0%nat.
    + intros o e n Hin. apply list_elem_of_singleton in Hin. discriminate.
Defined.
End witnesses.
