(* ===== verification/BufferPool.v ===== *)
(** * graphus-bufpool: the single-threaded buffer pool

    [src/crates/graphus-bufpool/src/pool.rs]: frames over a block device with CLOCK
    eviction, pinning, checksummed write-back and the rule that the log goes first. The
    pool is the cache of an abstract store: up to checksums, no operation but a write
    through a frame changes what a page holds; victims are found whenever one exists; and
    no page reaches the device before its log record is durable. *)

From stdpp Require Import options.
From S2P Require Import Prelude Core Bytes WalRecord PageFormat BlockDevice.

(** ** The log rule *)
Class WalRule (W : Type) := {
  ensure_durable : Lsn → St W unit;
  tracks_lsn : W → bool;
  durable_len : W → N;
}.

(** What the trait's documentation asks, of rules in a state where it can be kept: a call
    that returns [Ok] for the LSN of a record of the log leaves the log durable beyond it,
    and what is durable stays so. *)
Class WalRuleSpec (W : Type) `{WalRule W} := {
  rule_ok : W → Prop;
  issued : W → Lsn → Prop;
  ensure_durable_ok l w : rule_ok w → rule_ok (ensure_durable l w).2;
  ensure_durable_grows l w : rule_ok w → durable_len w ≤ durable_len (ensure_durable l w).2;
  ensure_durable_issued l w k : rule_ok w → issued w k → issued (ensure_durable l w).2 k;
  ensure_durable_covers l w : rule_ok w → issued w l → (ensure_durable l w).1 = Ok tt →
    l < durable_len (ensure_durable l w).2;
}.

Record NoWal := mkNoWal {}.
#[export] Instance NoWal_rule : WalRule NoWal := {|
  ensure_durable _ := mret tt;
  tracks_lsn _ := false;
  durable_len _ := u64_max;
|}.

(** Everything is durable: [u64::MAX] bounds the LSNs. *)
#[export] Instance NoWal_spec : WalRuleSpec NoWal.
Proof. by refine {| rule_ok _ := True; issued _ l := l < u64_max |}. Defined.

(** ** The pool *)
Record Frame := mkFrame {
  fr_page : option PageId;
  fr_data : bytes;
  fr_pins : N;
  fr_dirty : bool;
  fr_ref : bool;
}.

Record BufferPool (D W : Type) := mkPool {
  bp_device : D;
  bp_wal : W;
  bp_frames : list Frame;
  bp_table : gmap N nat;
  bp_clock : nat;
}.
Arguments mkPool {D W}.
Arguments bp_device {D W}.
Arguments bp_wal {D W}.
Arguments bp_frames {D W}.
Arguments bp_table {D W}.
Arguments bp_clock {D W}.

Module Pool.
Section pool.
Context `{Crc32c} {D : Type} `{!BlockDevice D} {W : Type} `{!WalRule W}.
Abbreviation P := (BufferPool D W).

Definition empty_frame : Frame := mkFrame None zero_page 0 false false.

Definition with_wal (d : D) (w : W) (capacity : nat) : Outcome P :=
  if negb (0 <? capacity)%nat then Panic "buffer pool capacity must be > 0"
  else Ok (mkPool d w (replicate capacity empty_frame) ∅ 0).

(** [self.frames[idx]] and the checked accessors out of range. *)
Definition oob {A} : Outcome A := Panic "frame handle out of bounds".

Definition page (f : nat) (s : P) : Outcome bytes :=
  match bp_frames s !! f with Some fr => Ok (fr_data fr) | None => oob end.

Definition try_page (f : nat) (s : P) : Outcome bytes :=
  match bp_frames s !! f with Some fr => Ok (fr_data fr) | None => Err (Storage "frame handle out of bounds") end.

Definition page_count (s : P) : N := BlockDevice.page_count (bp_device s).

Definition set_frame (i : nat) (fr : Frame) (s : P) : P :=
  mkPool (bp_device s) (bp_wal s) (<[i := fr]> (bp_frames s)) (bp_table s) (bp_clock s).

(** Writing through the borrow that [page_mut] returns. *)
Definition page_mut (f : nat) (g : bytes → bytes) : St P unit := λ s,
  match bp_frames s !! f with
  | Some fr => (Ok tt, set_frame f (mkFrame (fr_page fr) (g (fr_data fr)) (fr_pins fr) true (fr_ref fr)) s)
  | None => (oob, s)
  end.

Definition unpin (f : nat) : St P unit := λ s,
  match bp_frames s !! f with
  | Some fr => (Ok tt, set_frame f (mkFrame (fr_page fr) (fr_data fr) (fr_pins fr - 1) (fr_dirty fr) (fr_ref fr)) s)
  | None => (oob, s)
  end.

Definition on_dev {A} (m : St D A) : St P A := λ s,
  let '(o, d) := m (bp_device s) in (o, mkPool d (bp_wal s) (bp_frames s) (bp_table s) (bp_clock s)).
Definition on_wal {A} (m : St W A) : St P A := λ s,
  let '(o, w) := m (bp_wal s) in (o, mkPool (bp_device s) w (bp_frames s) (bp_table s) (bp_clock s)).

Definition with_frame {A} (i : nat) (k : Frame → St P A) : St P A := λ s,
  match bp_frames s !! i with Some fr => k fr s | None => (oob, s) end.

Definition write_back (i : nat) : St P unit :=
  with_frame i (λ fr,
    if negb (fr_dirty fr) then mret tt
    else
      match fr_page fr with
      | None => λ s, (Panic "a dirty frame must hold a page", s)
      | Some p =>
          let data := page.write_checksum (fr_data fr) in
          _ ← modify (set_frame i (mkFrame (Some p) data (fr_pins fr) true (fr_ref fr)));
          let lsn := page.page_lsn data in
          _ ← on_wal (ensure_durable lsn);
          _ ← on_dev (write_page p data);
          modify (set_frame i (mkFrame (Some p) data (fr_pins fr) false (fr_ref fr)))
      end).

Definition tick (s : P) : P :=
  mkPool (bp_device s) (bp_wal s) (bp_frames s) (bp_table s) ((bp_clock s + 1) mod length (bp_frames s))%nat.

(** [self.frames[idx].page_id.take()] and the removal from the table. *)
Definition release (i : nat) : St P unit :=
  with_frame i (λ fr,
    match fr_page fr with
    | Some p => modify (λ s,
        mkPool (bp_device s) (bp_wal s)
          (<[i := mkFrame None (fr_data fr) (fr_pins fr) (fr_dirty fr) (fr_ref fr)]> (bp_frames s))
          (delete p (bp_table s)) (bp_clock s))
    | None => mret tt
    end).

(** The loop over the clock, [steps] turns from its end. *)
Fixpoint sweep (steps : nat) : St P nat :=
  match steps with
  | O => throw (Storage "buffer pool is full of pinned pages")
  | S steps =>
      s ← get;
      let i := bp_clock s in
      _ ← modify tick;
      with_frame i (λ fr,
        if 0 <? fr_pins fr then sweep steps
        else if fr_ref fr then
          _ ← modify (set_frame i (mkFrame (fr_page fr) (fr_data fr) (fr_pins fr) (fr_dirty fr) false));
          sweep steps
        else
          _ ← write_back i;
          _ ← release i;
          mret i)
  end.

Definition evict_victim : St P nat := λ s,
  match list_find (λ fr, fr_page fr = None) (bp_frames s) with
  | Some (i, _) => (Ok i, s)
  | None => sweep (2 * length (bp_frames s)) s
  end.

Definition install (i : nat) (p : PageId) (data : bytes) (dirty : bool) : St P unit :=
  with_frame i (λ _, modify (λ s,
    mkPool (bp_device s) (bp_wal s) (<[i := mkFrame (Some p) data 1 dirty true]> (bp_frames s))
      (<[p := i]> (bp_table s)) (bp_clock s))).

(** The release profile adds pins modulo [2^32]. *)
Definition fetch (p : PageId) : St P nat := λ s,
  match bp_table s !! p with
  | Some i =>
      with_frame i (λ fr,
        _ ← modify (set_frame i (mkFrame (fr_page fr) (fr_data fr) ((fr_pins fr + 1) mod 2 ^ 32) (fr_dirty fr) true));
        mret i) s
  | None =>
      (i ← evict_victim;
       s ← get;
       buf ← lift (read_page p (bp_device s));
       if negb (page.verify_checksum buf) then throw (Storage "page failed checksum verification")
       else _ ← install i p buf false; mret i) s
  end.

Definition new_page : St P (nat * PageId) :=
  i ← evict_victim;
  s ← get;
  let p := page_count s in
  _ ← on_dev (extend 1);
  let buf := page.set_page_id zero_page p in
  let buf := page.write_checksum buf in
  _ ← install i p buf true;
  mret (i, p).

Definition flush (f : nat) : St P unit := write_back f.

Fixpoint write_back_all (is_ : list nat) : St P unit :=
  match is_ with
  | [] => mret tt
  | i :: is_ => _ ← write_back i; write_back_all is_
  end.

Definition dirty_frames (s : P) : list nat :=
  (filter (λ x : nat * Frame, fr_dirty x.2 = true) (imap pair (bp_frames s))).*1.

Definition flush_all : St P unit :=
  s ← get; _ ← write_back_all (dirty_frames s); on_dev sync_all.

End pool.
End Pool.
