(* ===== verification/PoolFacts.v ===== *)
(** * The buffer pool is a cache

    What [BufferPool] promises over a device that keeps its laws and any log rule: an
    invariant of frames, table and device; up to checksums, pages change only by writes
    through frames; a victim is found whenever there is one; and the log goes first. *)

From stdpp Require Import options.
From S2P Require Import Prelude Core Bytes WalRecord PageFormat BlockDevice BufferPool.

(** ** The invariant *)
Section invariant.
Context `{Crc32c} {D : Type} `{!BlockDevice D} `{!DeviceSpec D} {W : Type} `{!WalRule W} `{!WalRuleSpec W}.
#[local] Set Default Proof Using "All".
Implicit Types (s : BufferPool D W) (fr : Frame) (p : PageId).

(** The page bears the LSN of a record of the log, or zero, which is the LSN of a page that
    no record describes. *)
Definition stamped (w : W) (b : bytes) : Prop := page.page_lsn b = 0 ∨ issued w (page.page_lsn b).

(** The record is durable as well. *)
Definition covered (w : W) (b : bytes) : Prop :=
  page.page_lsn b = 0 ∨ issued w (page.page_lsn b) ∧ page.page_lsn b < durable_len w.

(** A frame holds a page of the device, equal to it unless dirty, or nothing. *)
Record frame_ok (d : D) (w : W) fr : Prop := {
  fo_page : is_page (fr_data fr);
  fo_lsn : stamped w (fr_data fr);
  fo_free : fr_page fr = None → fr_dirty fr = false ∧ fr_pins fr = 0;
  fo_held p : fr_page fr = Some p → p < page_count d;
  fo_clean p : fr_page fr = Some p → fr_dirty fr = false → fr_data fr = page_at d p;
}.

(** Log before data: every intact page of the device is covered by the durable log. *)
Record pool_ok s : Prop := {
  pk_device : dev_ok (bp_device s);
  pk_wal : rule_ok (bp_wal s);
  pk_logged p : p < page_count (bp_device s) → page.verify_checksum (page_at (bp_device s) p) = true →
    covered (bp_wal s) (page_at (bp_device s) p);
  pk_clock : (bp_clock s < length (bp_frames s))%nat;
  pk_frames i fr : bp_frames s !! i = Some fr → frame_ok (bp_device s) (bp_wal s) fr;
  pk_table p i : bp_table s !! p = Some i ↔ ∃ fr, bp_frames s !! i = Some fr ∧ fr_page fr = Some p;
}.

(** What the pool holds for a page, and the same up to the checksum field. *)
Definition cached s p : bytes :=
  match bp_table s !! p ≫= λ i, bp_frames s !! i with
  | Some fr => fr_data fr
  | None => page_at (bp_device s) p
  end.
Definition contents s p : bytes := page.write_checksum (cached s p).

(** The page a pinned frame holds for its clients, and the number of pins. *)
Definition handle s (i : nat) : option (PageId * N) :=
  match bp_frames s !! i with
  | Some fr => if 0 <? fr_pins fr then (λ p, (p, fr_pins fr)) <$> fr_page fr else None
  | None => None
  end.

(** The step leaves every page, and the pinned frames, as they are. *)
Record keeps s s' : Prop := {
  kp_ok : pool_ok s';
  kp_length : length (bp_frames s') = length (bp_frames s);
  kp_count : page_count (bp_device s') = page_count (bp_device s);
  kp_contents p : contents s' p = contents s p;
  kp_handle i : handle s' i = handle s i;
  kp_table : bp_table s' ⊆ bp_table s;
}.

(** The log rule refused. *)
Definition refused {A} (o : Outcome A) : Prop :=
  match o with
  | Ok _ => False
  | Err e => ∃ l w, (ensure_durable l w).1 = Err e
  | Panic m => ∃ l w, (ensure_durable l w).1 = Panic m
  end.

Lemma keeps_refl s : pool_ok s → keeps s s.
Proof. intros Hs. split; eauto. Qed.

Lemma keeps_trans s1 s2 s3 : keeps s1 s2 → keeps s2 s3 → keeps s1 s3.
Proof.
  intros [_ Hl Hc Hp Hf Ht] [Hok Hl' Hc' Hp' Hf' Ht'].
  split; [done|congruence|congruence|intros p; by rewrite Hp'|intros i; by rewrite Hf'|by etrans].
Qed.

Lemma cached_frame s i fr p : pool_ok s → bp_frames s !! i = Some fr → fr_page fr = Some p → cached s p = fr_data fr.
Proof.
  intros Hs Hi Hp. unfold cached. assert (Ht : bp_table s !! p = Some i) by (apply (pk_table s Hs); eauto).
  rewrite Ht. cbn. by rewrite Hi.
Qed.

Lemma cached_device s p : pool_ok s → bp_table s !! p = None → cached s p = page_at (bp_device s) p.
Proof. intros Hs Ht. unfold cached. by rewrite Ht. Qed.

Lemma one_frame s i j fr fr' p : pool_ok s → bp_frames s !! i = Some fr → bp_frames s !! j = Some fr' →
  fr_page fr = Some p → fr_page fr' = Some p → i = j.
Proof.
  intros Hs Hi Hj Hp Hp'. assert (bp_table s !! p = Some i) by (apply (pk_table s Hs); eauto).
  assert (bp_table s !! p = Some j) by (apply (pk_table s Hs); eauto). congruence.
Qed.

(** *** One frame is replaced by one of the same page *)
Lemma set_frame_ok i fr fr' s : pool_ok s → bp_frames s !! i = Some fr → fr_page fr' = fr_page fr →
  frame_ok (bp_device s) (bp_wal s) fr' → pool_ok (Pool.set_frame i fr' s).
Proof.
  intros Hs Hi Hp Hf. assert (Hlt := lookup_lt_Some _ _ _ Hi). destruct Hs as [Hd Hw Hlg Hc Hfr Ht]. split; cbn.
  - done.
  - done.
  - done.
  - by rewrite length_insert.
  - intros j frj [(<- & <- & _)|[_ Hj]]%list_lookup_insert_Some; eauto.
  - intros p j. rewrite Ht. split; intros (frj & Hj & Hpj).
    + destruct (decide (i = j)) as [<-|Hne].
      * exists fr'. rewrite list_lookup_insert_eq by done. split; [done|]. congruence.
      * exists frj. by rewrite list_lookup_insert_ne.
    + apply list_lookup_insert_Some in Hj as [(<- & <- & _)|[_ Hj]]; [|by exists frj]. exists fr. split; [done|congruence].
Qed.

Lemma set_frame_cached i fr fr' s p : pool_ok s → bp_frames s !! i = Some fr → fr_page fr' = fr_page fr →
  cached (Pool.set_frame i fr' s) p = if decide (fr_page fr = Some p) then fr_data fr' else cached s p.
Proof.
  intros Hs Hi Hp. assert (Hlt := lookup_lt_Some _ _ _ Hi). unfold cached. cbn.
  destruct (bp_table s !! p) as [j|] eqn:Ht; cbn.
  - apply (pk_table s Hs) in Ht as (frj & Hj & Hpj). case_decide as Hd.
    + assert (i = j) as <- by eauto using one_frame. by rewrite list_lookup_insert_eq.
    + rewrite list_lookup_insert_ne; [done|]. intros <-. congruence.
  - case_decide as Hd; [|done]. assert (bp_table s !! p = Some i) by (apply (pk_table s Hs); eauto). congruence.
Qed.

(** Data that differ in the checksum only leave the contents. *)
Lemma set_frame_keeps i fr fr' s : pool_ok s → bp_frames s !! i = Some fr → fr_page fr' = fr_page fr →
  fr_pins fr' = fr_pins fr → page.write_checksum (fr_data fr') = page.write_checksum (fr_data fr) →
  frame_ok (bp_device s) (bp_wal s) fr' → keeps s (Pool.set_frame i fr' s).
Proof.
  intros Hs Hi Hp Hn Hd Hf. split; cbn; [by eapply set_frame_ok|by rewrite length_insert|done| | |done].
  - intros p. unfold contents. rewrite (set_frame_cached i fr) by done. destruct (decide (fr_page fr = Some p)) as [He|]; [|done].
    by rewrite (cached_frame s i fr p).
  - intros j. unfold handle. cbn. destruct (decide (i = j)) as [<-|Hne]; [|by rewrite list_lookup_insert_ne].
    rewrite list_lookup_insert_eq by (by eapply lookup_lt_Some). by rewrite Hi, Hp, Hn.
Qed.

(** *** The log and the device step *)

(** The log may grow, by the pool or by others who hold it. *)
Definition grows (w w' : W) : Prop :=
  rule_ok w' ∧ durable_len w ≤ durable_len w' ∧ ∀ k, issued w k → issued w' k.

Lemma wal_moves s w : pool_ok s → grows (bp_wal s) w →
  pool_ok (mkPool (bp_device s) w (bp_frames s) (bp_table s) (bp_clock s)).
Proof.
  intros [Hd Hw Hl Hc Hf Ht] (Hk & Hg & Hi). split; cbn; try done.
  - intros p Hp Hv. destruct (Hl p Hp Hv) as [Hz|[Hs Hlt]]; [by left|right]. split; [auto|lia].
  - intros i fr Hfr. destruct (Hf i fr Hfr) as [Hpg Hls Hfree Hh Hcl]. split; try done. destruct Hls; [by left|right; auto].
Qed.

Lemma wal_step_keeps l s : pool_ok s →
  keeps s (Pool.on_wal (ensure_durable l) s).2
  ∧ bp_device (Pool.on_wal (ensure_durable l) s).2 = bp_device s
  ∧ bp_frames (Pool.on_wal (ensure_durable l) s).2 = bp_frames s
  ∧ bp_table (Pool.on_wal (ensure_durable l) s).2 = bp_table s
  ∧ bp_clock (Pool.on_wal (ensure_durable l) s).2 = bp_clock s.
Proof.
  intros Hs. pose proof (pk_wal s Hs) as Hw. pose proof (ensure_durable_grows l (bp_wal s) Hw) as Hg.
  pose proof (ensure_durable_ok l (bp_wal s) Hw) as Hk. pose proof (λ k, ensure_durable_issued l (bp_wal s) k Hw) as Hi.
  unfold Pool.on_wal. destruct (ensure_durable l (bp_wal s)) as [o w]. cbn [fst snd] in *. split_and!; try done.
  split; cbn; try done. by apply wal_moves.
Qed.

Lemma device_step_keeps i fr p s : pool_ok s → bp_frames s !! i = Some fr → fr_page fr = Some p →
  fr_dirty fr = true → page.write_checksum (fr_data fr) = fr_data fr →
  covered (bp_wal s) (fr_data fr) →
  ∃ d', write_page p (fr_data fr) (bp_device s) = (Ok tt, d') ∧ page_at d' p = fr_data fr
    ∧ keeps s (mkPool d' (bp_wal s) (bp_frames s) (bp_table s) (bp_clock s)).
Proof.
  intros Hs Hi Hp Hdirty Hsum Hlsn. destruct (pk_frames s Hs i fr Hi) as [Hpage _ _ Hheld _].
  destruct (write_page_at (bp_device s) p (fr_data fr) (pk_device s Hs) (Hheld p Hp) Hpage) as (d' & Hw & Hd' & Hat & Hother).
  assert (Hcount : page_count d' = page_count (bp_device s)) by (eapply write_page_count; [apply Hs|by apply Hheld|done|done]).
  exists d'. split_and!; [done|done|]. split; cbn; [|done|done| |done|done].
  - destruct Hs as [Hd Hk Hl Hc Hfr Ht]. split; cbn; [done|done| |done| |done].
    { intros q Hq. destruct (decide (q = p)) as [->|Hne]; [by rewrite Hat|]. rewrite Hother by done. apply Hl. by rewrite <- Hcount. }
    intros j frj Hj. destruct (Hfr j frj Hj) as [Hpg Hls Hfree Hh Hcl].
    split; [done|done|done|by rewrite Hcount; apply Hh|]. intros q Hq Hclean. rewrite Hother; [by apply Hcl|].
    intros ->. assert (i = j) as -> by (eapply (one_frame s); eauto; by split). simplify_eq. congruence.
  - intros q. unfold contents, cached. cbn. destruct (bp_table s !! q) as [j|] eqn:Ht; cbn.
    + apply (pk_table s Hs) in Ht as (frj & Hj & _). by rewrite Hj.
    + rewrite Hother; [done|]. intros ->. assert (bp_table s !! p = Some i) by (apply (pk_table s Hs); eauto). congruence.
Qed.

(** *** Writing a frame back *)
Record wrote_back (i : nat) s (o : Outcome unit) s' : Prop := {
  wr_keeps : keeps s s';
  wr_table : bp_table s' = bp_table s;
  wr_clock : bp_clock s' = bp_clock s;
  wr_others j : j ≠ i → bp_frames s' !! j = bp_frames s !! j;
  wr_frame fr : bp_frames s !! i = Some fr → ∃ fr', bp_frames s' !! i = Some fr'
    ∧ fr_page fr' = fr_page fr ∧ fr_pins fr' = fr_pins fr ∧ fr_ref fr' = fr_ref fr ∧ (o = Ok tt → fr_dirty fr' = false);
  wr_outcome : o = Ok tt ∨ refused o;
}.

(** The dirty frame [i] is written back: its checksum is renewed, the log hardened, the
    page written, the flag cleared. *)
Section write_back.
Context s (i : nat) fr p (Hs : pool_ok s) (Hi : bp_frames s !! i = Some fr) (Hp : fr_page fr = Some p).

(** The frame with its checksum renewed. *)
Definition sealed (dirty : bool) : Frame :=
  mkFrame (Some p) (page.write_checksum (fr_data fr)) (fr_pins fr) dirty (fr_ref fr).
Abbreviation lsn := (page.page_lsn (page.write_checksum (fr_data fr))).
Abbreviation s1 := (Pool.set_frame i (sealed true) s).
Abbreviation s2 := (Pool.on_wal (ensure_durable lsn) s1).2.

Lemma data_ok : is_page (fr_data fr).
Proof. apply (pk_frames s Hs i fr Hi). Qed.

Lemma sealed_stamped : stamped (bp_wal s) (page.write_checksum (fr_data fr)).
Proof. unfold stamped. rewrite page.page_lsn_checksum by apply data_ok. apply (pk_frames s Hs i fr Hi). Qed.

Lemma seal_keeps : keeps s s1.
Proof.
  apply (set_frame_keeps i fr); [done|done|done|done|apply page.write_checksum_twice, data_ok|].
  split; cbn [sealed fr_data fr_page fr_dirty fr_pins]; [apply page.write_checksum_ok, data_ok|apply sealed_stamped|done| |done].
  intros q [= <-]. by apply (fo_held _ _ _ (pk_frames s Hs i fr Hi)).
Qed.

Lemma sealed_at dirty s' : bp_frames s' = bp_frames s → bp_frames (Pool.set_frame i (sealed dirty) s') !! i = Some (sealed dirty).
Proof. intros Hf. cbn. rewrite Hf. apply list_lookup_insert_eq. by eapply lookup_lt_Some. Qed.

(** What holds whether the frame is left dirty or clean. *)
Lemma written_intro o s' dirty : keeps s s' → bp_table s' = bp_table s → bp_clock s' = bp_clock s →
  bp_frames s' = <[i := sealed dirty]> (bp_frames s) → (o = Ok tt ∧ dirty = false) ∨ refused o → wrote_back i s o s'.
Proof.
  intros Hk Ht Hc Hf Ho. split; [done|done|done| | |naive_solver].
  - intros j Hj. rewrite Hf. by apply list_lookup_insert_ne.
  - intros fr0 Hi0. rewrite Hi in Hi0. injection Hi0 as <-. exists (sealed dirty). rewrite Hf.
    split; [apply list_lookup_insert_eq; by eapply lookup_lt_Some|]. split_and!; [by rewrite Hp|done|done|].
    intros ->. by destruct Ho as [[_ ->]|[]].
Qed.

Lemma home_written : (Pool.on_wal (ensure_durable lsn) s1).1 = Ok tt →
  ∃ d', write_page p (page.write_checksum (fr_data fr)) (bp_device s2) = (Ok tt, d')
    ∧ wrote_back i s (Ok tt) (Pool.set_frame i (sealed false) (mkPool d' (bp_wal s2) (bp_frames s2) (bp_table s2) (bp_clock s2))).
Proof.
  intros Hok. destruct (wal_step_keeps lsn s1 (kp_ok _ _ seal_keeps)) as (H2 & Hdev & Hfr & Htb & Hck).
  assert (Hi2 : bp_frames s2 !! i = Some (sealed true)) by (rewrite Hfr; by apply sealed_at).
  destruct (device_step_keeps i (sealed true) p s2) as (d' & Hw & Hat & H3);
    [apply H2|done|done|done|apply page.write_checksum_twice, data_ok| |].
  { pose proof (pk_wal _ (kp_ok _ _ seal_keeps)) as Hk. destruct sealed_stamped as [Hz|His]; [by left|right].
    pose proof (ensure_durable_covers lsn (bp_wal s1) Hk His) as Hcov.
    pose proof (ensure_durable_issued lsn (bp_wal s1) lsn Hk His) as His'. revert Hok Hcov His'. unfold Pool.on_wal.
    destruct (ensure_durable lsn (bp_wal s1)) as [o w]. cbn [fst snd bp_wal sealed fr_data]. auto. }
  exists d'. split; [exact Hw|]. eapply (written_intro _ _ false); [|done|done| |by left].
  - eapply keeps_trans; [exact seal_keeps|]. eapply keeps_trans; [exact H2|]. eapply keeps_trans; [exact H3|].
    eapply (set_frame_keeps i (sealed true)); [apply H3|exact Hi2|done|done|done|].
    split; cbn [sealed fr_data fr_page fr_dirty fr_pins];
      [apply page.write_checksum_ok, data_ok|apply (fo_lsn _ _ _ (pk_frames _ (kp_ok _ _ H3) i _ Hi2))|done| |].
    + intros q [= <-]. by apply (fo_held _ _ _ (pk_frames _ (kp_ok _ _ H3) i _ Hi2)).
    + intros q [= <-] _. symmetry. exact Hat.
  - cbn [Pool.set_frame bp_frames]. rewrite Hfr. cbn. apply list_insert_insert_eq.
Qed.
End write_back.

Lemma write_back_written i s : pool_ok s → (i < length (bp_frames s))%nat →
  ∃ o s', Pool.write_back i s = (o, s') ∧ wrote_back i s o s'.
Proof.
  intros Hs Hlt. destruct (lookup_lt_is_Some_2 _ _ Hlt) as [fr Hi]. unfold Pool.write_back, Pool.with_frame. rewrite Hi.
  destruct (fr_dirty fr) eqn:Hdirty; cbn [negb].
  2: { exists (Ok tt), s. split; [done|]. split; [by apply keeps_refl|done|done|done| |by left].
       intros fr0 Hi0. exists fr0. split_and!; try done. intros _. congruence. }
  destruct (fr_page fr) as [p|] eqn:Hp; [|by destruct (fo_free _ _ _ (pk_frames s Hs i fr Hi) Hp); congruence].
  unfold mbind, St_bind, modify. cbn beta iota. pose proof (home_written s i fr p Hs Hi Hp) as Hhome.
  destruct (wal_step_keeps (page.page_lsn (page.write_checksum (fr_data fr))) _ (kp_ok _ _ (seal_keeps s i fr p Hs Hi Hp)))
    as (H2 & _ & Hfr & Htb & Hck).
  assert (Hrefused : ∀ o s2, Pool.on_wal (ensure_durable (page.page_lsn (page.write_checksum (fr_data fr))))
      (Pool.set_frame i (sealed fr p true) s) = (o, s2) → o ≠ Ok tt → refused o).
  { unfold Pool.on_wal. intros o s2. destruct (ensure_durable _ _) as [o' w] eqn:He. intros [= -> <-].
    destruct o as [[]|e|m]; [done| |]; intros _; eexists _, _; by rewrite He. }
  fold (sealed fr p true). destruct (Pool.on_wal _ _) as [o s2] eqn:Hw. cbn [fst snd] in *.
  destruct o as [[]|e|m]; [|eexists _, s2; split; [reflexivity|]..].
  - destruct (Hhome eq_refl) as (d' & Hd & Hwr). unfold Pool.on_dev. rewrite Hd. eexists _, _. by split.
  - eapply (written_intro s i fr p Hs Hi Hp _ _ true); [|done..|right; by eapply Hrefused].
    eapply keeps_trans; [by apply (seal_keeps s i fr p)|done].
  - eapply (written_intro s i fr p Hs Hi Hp _ _ true); [|done..|right; by eapply Hrefused].
    eapply keeps_trans; [by apply (seal_keeps s i fr p)|done].
Qed.

(** *** Finding a victim *)
Lemma tick_keeps s : pool_ok s → keeps s (Pool.tick s).
Proof.
  intros Hs. split; cbn; [|done|done|done|done|done]. destruct Hs as [Hd Hk Hl Hc Hf Ht]. split; cbn; [done|done|done| |done|done].
  apply Nat.mod_upper_bound. lia.
Qed.

Lemma release_keeps i fr s : pool_ok s → bp_frames s !! i = Some fr → fr_pins fr = 0 → fr_dirty fr = false →
  ∃ s' fr', Pool.release i s = (Ok tt, s') ∧ keeps s s' ∧ bp_frames s' !! i = Some fr' ∧ fr_page fr' = None.
Proof.
  intros Hs Hi Hpins Hclean. unfold Pool.release, Pool.with_frame. rewrite Hi.
  destruct (fr_page fr) as [p|] eqn:Hp; [|by exists s, fr; split_and!; [|apply keeps_refl| |]].
  assert (Hlt := lookup_lt_Some _ _ _ Hi). assert (Htp : bp_table s !! p = Some i) by (apply (pk_table s Hs); eauto).
  unfold modify. eexists _, _. split; [reflexivity|].
  split; [|split; [by apply list_lookup_insert_eq|done]]. split; cbn; [|by rewrite length_insert|done| | |apply delete_subseteq].
  - pose proof Hs as [Hd Hk Hl Hc Hf Ht]. split; cbn; [done|done|done|by rewrite length_insert| |].
    + intros j frj [(<- & <- & _)|[_ Hj]]%list_lookup_insert_Some; [|by eapply Hf].
      split; cbn; [apply (Hf i fr Hi)|apply (Hf i fr Hi)|done|done|done].
    + intros q j. rewrite lookup_delete_Some, Ht. split.
      * intros (Hne & frj & Hj & Hq). exists frj. rewrite list_lookup_insert_ne; [done|]. intros <-. congruence.
      * intros (frj & [(<- & <- & _)|[Hne Hj]]%list_lookup_insert_Some & Hq); [done|]. split; [|by exists frj].
        intros <-. by apply Hne, (one_frame s i j fr frj p).
  - intros q. unfold contents, cached. cbn. destruct (decide (q = p)) as [->|Hne].
    + rewrite lookup_delete_eq, Htp. cbn [mbind option_bind]. by rewrite Hi, (fo_clean _ _ _ (pk_frames s Hs i fr Hi) p).
    + rewrite lookup_delete_ne by done. destruct (bp_table s !! q) as [j|] eqn:Hq; cbn; [|done].
      rewrite list_lookup_insert_ne; [done|]. intros <-. apply (pk_table s Hs) in Hq as (? & ? & ?). congruence.
  - intros j. unfold handle. cbn. destruct (decide (i = j)) as [<-|Hne]; [|by rewrite list_lookup_insert_ne].
    rewrite list_lookup_insert_eq by done. rewrite Hi. cbn. by rewrite Hpins.
Qed.

(** The turns until the clock is at [v]. *)
Definition turns s (v : nat) : nat :=
  if (bp_clock s <=? v)%nat then v - bp_clock s else v + length (bp_frames s) - bp_clock s.

(** The turns after which an unpinned frame is taken at the latest. *)
Definition due s (v : nat) fr : nat := turns s v + 1 + if fr_ref fr then length (bp_frames s) else 0.

Lemma turns_tick s v : (bp_clock s < length (bp_frames s))%nat → (v < length (bp_frames s))%nat →
  turns (Pool.tick s) v = (if decide (v = bp_clock s) then length (bp_frames s) - 1 else turns s v - 1)%nat.
Proof.
  intros Hc Hv. unfold turns. cbn [Pool.tick bp_clock bp_frames].
  generalize dependent (length (bp_frames s)). generalize (bp_clock s). intros c n Hc Hv.
  destruct (decide (c + 1 < n)%nat) as [Hn|Hn].
  - rewrite Nat.mod_small by done. destruct (decide (v = c)), (Nat.leb_spec (c + 1) v), (Nat.leb_spec c v); lia.
  - replace (c + 1)%nat with n by lia. rewrite Nat.Div0.mod_same.
    destruct (decide (v = c)), (Nat.leb_spec 0 v), (Nat.leb_spec c v); lia.
Qed.

Lemma turns_pos s v : (bp_clock s < length (bp_frames s))%nat → v ≠ bp_clock s → (0 < turns s v)%nat.
Proof. intros Hc Hv. unfold turns. destruct (Nat.leb_spec (bp_clock s) v); lia. Qed.

Definition full : GraphusError := Storage "buffer pool is full of pinned pages".

(** The outcome of looking for a victim, [turns] turns at most. *)
Definition found s (late : nat → Frame → Prop) (o : Outcome nat) s' : Prop :=
  match o with
  | Ok i => ∃ fr, bp_frames s' !! i = Some fr ∧ fr_page fr = None
  | Err e => refused o ∨ e = full ∧ ∀ v fr, bp_frames s !! v = Some fr → fr_pins fr = 0 → late v fr
  | Panic _ => refused o
  end.

(** The frame under the clock is unpinned and unreferenced: it is the victim, unless the
    log rule refuses. *)
Lemma take_victim i fr s late : pool_ok s → bp_frames s !! i = Some fr → fr_pins fr = 0 →
  ∃ o s', (_ ← Pool.write_back i; _ ← Pool.release i; mret i) s = (o, s') ∧ keeps s s' ∧ found s late o s'.
Proof.
  intros Hs Hi Hpins. destruct (write_back_written i s Hs (lookup_lt_Some _ _ _ Hi)) as (o & s1 & Hw & Hwr).
  unfold mbind, St_bind. rewrite Hw. destruct Hwr as [Hk _ _ _ Hfr Ho].
  destruct o as [[]|e|m].
  - destruct (Hfr fr Hi) as (fr1 & Hi1 & _ & Hpn & _ & Hcl).
    destruct (release_keeps i fr1 s1) as (s2 & fr2 & Hr & Hk2 & Hi2 & Hp2); [apply Hk|done|congruence|by apply Hcl|].
    rewrite Hr. exists (Ok i), s2. split; [done|]. split; [by eapply keeps_trans|]. by exists fr2.
  - exists (Err e), s1. split_and!; [done|done|]. left. by destruct Ho as [|Ho].
  - exists (Panic m), s1. split_and!; [done|done|]. by destruct Ho as [|Ho].
Qed.

Lemma found_weaken s s1 late late1 o s' :
  (∀ v fr, bp_frames s !! v = Some fr → fr_pins fr = 0 →
    ∃ fr1, bp_frames s1 !! v = Some fr1 ∧ fr_pins fr1 = 0 ∧ (late1 v fr1 → late v fr)) →
  found s1 late1 o s' → found s late o s'.
Proof.
  intros Hw. destruct o as [i|e|m]; [done| |done]. intros [Hr|[-> Hl]]; [by left|right]. split; [done|].
  intros v fr Hv Hp. destruct (Hw v fr Hv Hp) as (fr1 & Hv1 & Hp1 & Himp). eauto.
Qed.

(** A turn that passes over the frame under the clock brings every other one nearer. *)
Lemma due_tick s v fr steps : pool_ok s → bp_frames s !! v = Some fr → v ≠ bp_clock s →
  (steps < due (Pool.tick s) v fr)%nat → (S steps < due s v fr)%nat.
Proof.
  intros Hs Hv Hne. pose proof (pk_clock s Hs) as Hc. unfold due.
  rewrite turns_tick by (done || by eapply lookup_lt_Some). rewrite decide_False by done. cbn [Pool.tick bp_frames].
  pose proof (turns_pos s v Hc Hne). lia.
Qed.

Definition unreferenced fr : Frame := mkFrame (fr_page fr) (fr_data fr) (fr_pins fr) (fr_dirty fr) false.

Lemma due_set i fr' s v fr : due (Pool.set_frame i fr' s) v fr = due s v fr.
Proof. unfold due, turns. cbn. by rewrite length_insert. Qed.

(** Clearing the bit of the frame under the clock costs it one more round. *)
Lemma due_cleared s v fr steps : pool_ok s → bp_frames s !! v = Some fr → v = bp_clock s → fr_ref fr = true →
  (steps < due (Pool.tick s) v (unreferenced fr))%nat → (S steps < due s v fr)%nat.
Proof.
  intros Hs Hv -> Href. pose proof (pk_clock s Hs) as Hc. unfold due. rewrite turns_tick, decide_True, Href by done.
  cbn [unreferenced fr_ref]. lia.
Qed.

Lemma sweep_step steps s fr : bp_frames s !! bp_clock s = Some fr →
  Pool.sweep (S steps) s = (if 0 <? fr_pins fr then Pool.sweep steps
    else if fr_ref fr then _ ← modify (Pool.set_frame (bp_clock s) (unreferenced fr)); Pool.sweep steps
    else _ ← Pool.write_back (bp_clock s); _ ← Pool.release (bp_clock s); mret (bp_clock s)) (Pool.tick s).
Proof.
  intros Hi. cbn [Pool.sweep]. unfold mbind at 1 2, St_bind at 1 2, get, modify at 1, Pool.with_frame.
  cbn [Pool.tick bp_frames]. by rewrite Hi.
Qed.

Lemma sweep_found steps : ∀ s, pool_ok s →
  ∃ o s', Pool.sweep steps s = (o, s') ∧ keeps s s' ∧ found s (λ v fr, (steps < due s v fr)%nat) o s'.
Proof.
  induction steps as [|steps IH]; intros s Hs.
  - exists (Err full), s. split_and!; [done|by apply keeps_refl|]. right. split; [done|]. intros v fr _ _. unfold due. lia.
  - pose proof (tick_keeps s Hs) as Ht. destruct (lookup_lt_is_Some_2 _ _ (pk_clock s Hs)) as [fr Hi].
    rewrite (sweep_step steps s fr Hi). destruct (N.ltb_spec 0 (fr_pins fr)) as [Hpin|Hpin]; [|destruct (fr_ref fr) eqn:Href].
    + destruct (IH (Pool.tick s) (kp_ok _ _ Ht)) as (o & s' & Hr & Hk & Hf). exists o, s'. split; [done|].
      split; [by eapply keeps_trans|]. eapply found_weaken; [|exact Hf]. intros v frv Hv Hpv. exists frv. split_and!; [done|done|].
      apply due_tick; [done|done|]. intros ->. simplify_eq. lia.
    + assert (Hk1 : keeps (Pool.tick s) (Pool.set_frame (bp_clock s) (unreferenced fr) (Pool.tick s))).
      { apply (set_frame_keeps _ fr); [apply Ht|done|done|done|done|]. destruct (pk_frames s Hs _ fr Hi). by split. }
      destruct (IH _ (kp_ok _ _ Hk1)) as (o & s' & Hr & Hk & Hf). exists o, s'. split; [done|].
      split; [by do 2 (eapply keeps_trans; [done|])|]. eapply found_weaken; [|exact Hf]. intros v frv Hv Hpv.
      destruct (decide (v = bp_clock s)) as [->|Hne].
      * rewrite Hi in Hv. injection Hv as <-. exists (unreferenced fr). rewrite due_set.
        split; [apply list_lookup_insert_eq; by eapply lookup_lt_Some|]. split; [done|]. by apply due_cleared.
      * exists frv. rewrite due_set. split; [by cbn; rewrite list_lookup_insert_ne|]. split; [done|]. by apply due_tick.
    + destruct (take_victim (bp_clock s) fr (Pool.tick s) (λ v fr, (S steps < due s v fr)%nat) (kp_ok _ _ Ht) Hi)
        as (o & s' & Hr & Hk & Hf); [lia|]. exists o, s'. split; [done|]. split; [by eapply keeps_trans|done].
Qed.

(** Two rounds are enough: the pool is full only of pinned pages. *)
Lemma evict_found s : pool_ok s →
  ∃ o s', Pool.evict_victim s = (o, s') ∧ keeps s s'
    ∧ found s (λ _ _, False) o s'.
Proof.
  intros Hs. unfold Pool.evict_victim. destruct (list_find _ _) as [[i fr]|] eqn:Hl.
  - apply list_find_Some in Hl as (Hi & Hp & _). exists (Ok i), s. split_and!; [done|by apply keeps_refl|]. by exists fr.
  - destruct (sweep_found (2 * length (bp_frames s)) s Hs) as (o & s' & Hr & Hk & Hf). exists o, s'. split_and!; [done|done|].
    eapply found_weaken; [|exact Hf]. intros v fr Hv Hp. exists fr. split_and!; [done|done|]. intros Hd.
    pose proof (pk_clock s Hs). pose proof (lookup_lt_Some _ _ _ Hv). unfold due, turns in Hd.
    destruct (Nat.leb_spec (bp_clock s) v), (fr_ref fr); lia.
Qed.
End invariant.
