(* ===== verification/PoolSpec.v ===== *)
(** * The buffer pool refines a store of pages

    The operations of [BufferPool] over what [PoolFacts] proves of its steps: the pool
    simulates a store in which clients hold counted handles to pages, reads and writes go
    to the page of the handle, and nothing else changes a page. *)

From stdpp Require Import options.
From S2P Require Import Prelude Core Bytes WalRecord PageFormat BlockDevice BufferPool PoolFacts.

(** ** Clients

    The record store drives the pool and, between calls, the log it shares with it. *)
Inductive PoolOp (W : Type) :=
  | OFetch (p : PageId)
  | ONew
  | ORead (f : nat)
  | OWrite (f : nat) (g : bytes → bytes)
  | OUnpin (f : nat)
  | OFlush (f : nat)
  | OFlushAll
  | OLog (m : W → W).

Arguments OFetch {W} _.
Arguments ONew {W}.
Arguments ORead {W} _.
Arguments OWrite {W} _ _.
Arguments OUnpin {W} _.
Arguments OFlush {W} _.
Arguments OFlushAll {W}.
Arguments OLog {W} _.

Inductive Answer :=
  | AFrame (f : nat)
  | ANew (f : nat) (p : PageId)
  | AData (b : bytes)
  | ADone.

Section spec.
Context `{Crc32c} {D : Type} `{!BlockDevice D} `{!DeviceSpec D} {W : Type} `{!WalRule W} `{!WalRuleSpec W}.
#[local] Set Default Proof Using "All".
Implicit Types (s : BufferPool D W) (fr : Frame) (p : PageId).

Definition exec (op : PoolOp W) : St (BufferPool D W) Answer :=
  match op with
  | OFetch p => f ← Pool.fetch p; mret (AFrame f)
  | ONew => x ← Pool.new_page; mret (ANew x.1 x.2)
  | ORead f => s ← get; b ← lift (Pool.page f s); mret (AData b)
  | OWrite f g => _ ← Pool.page_mut f g; mret ADone
  | OUnpin f => _ ← Pool.unpin f; mret ADone
  | OFlush f => _ ← Pool.flush f; mret ADone
  | OFlushAll => _ ← Pool.flush_all; mret ADone
  | OLog m => _ ← modify (λ s, mkPool (bp_device s) (m (bp_wal s)) (bp_frames s) (bp_table s) (bp_clock s)); mret ADone
  end.

(** An edit of a page that does not depend on the checksum field, and stamps the page, if
    at all, with the LSN of a record the log has. *)
Definition edit (w : W) (g : bytes → bytes) : Prop := ∀ b, is_page b →
  is_page (g b) ∧ (stamped w b → stamped w (g b))
  ∧ page.write_checksum (g b) = page.write_checksum (g (page.write_checksum b)).

(** Clients use the handles they hold, the log only grows, a page has fewer than [2^32] pins, and the device
    does not reach [2^64] pages. *)
Definition legal (op : PoolOp W) s : Prop :=
  match op with
  | OFetch p => ∀ f n, handle s f = Some (p, n) → n + 1 < 2 ^ 32
  | ONew => page_count (bp_device s) + 1 ≤ u64_max
  | ORead f | OUnpin f => is_Some (handle s f)
  | OWrite f g => is_Some (handle s f) ∧ edit (bp_wal s) g
  | OFlush f => (f < length (bp_frames s))%nat
  | OFlushAll => True
  | OLog m => grows (bp_wal s) (m (bp_wal s))
  end.

(** ** The store *)
Record Store := mkStore { st_count : N; st_page : PageId → bytes; st_handle : nat → option (PageId * N) }.

Definition view s : Store := mkStore (page_count (bp_device s)) (contents s) (handle s).

(** Equal stores, but for what is said of one page and of one handle. *)
Record agree (a a' : Store) (pg : option (PageId * bytes)) (hd : option (nat * option (PageId * N))) : Prop := {
  ag_page q : st_page a' q = match pg with Some (p, b) => if decide (q = p) then b else st_page a q | None => st_page a q end;
  ag_handle j : st_handle a' j = match hd with Some (f, h) => if decide (j = f) then h else st_handle a j | None => st_handle a j end;
}.

Definition pins (a : Store) (f : nat) : N := match st_handle a f with Some (_, n) => n | None => 0 end.

(** What each operation does to the store when it succeeds. *)
Definition store_step (op : PoolOp W) (ans : Answer) (a a' : Store) : Prop :=
  match op, ans with
  | OFetch p, AFrame f =>
      p < st_count a ∧ (∀ q n, st_handle a f = Some (q, n) → q = p)
      ∧ st_count a' = st_count a ∧ agree a a' None (Some (f, Some (p, pins a f + 1)))
  | ONew, ANew f p =>
      p = st_count a ∧ st_handle a f = None ∧ st_count a' = st_count a + 1
      ∧ agree a a' (Some (p, page.write_checksum (page.set_page_id zero_page p))) (Some (f, Some (p, 1)))
  | ORead f, AData b =>
      (∃ p n, st_handle a f = Some (p, n) ∧ page.write_checksum b = st_page a p)
      ∧ st_count a' = st_count a ∧ agree a a' None None
  | OWrite f g, ADone =>
      ∃ p n, st_handle a f = Some (p, n) ∧ st_count a' = st_count a
        ∧ agree a a' (Some (p, page.write_checksum (g (st_page a p)))) None
  | OUnpin f, ADone =>
      ∃ p n, st_handle a f = Some (p, n) ∧ st_count a' = st_count a
        ∧ agree a a' None (Some (f, if n =? 1 then None else Some (p, n - 1)))
  | OFlush _, ADone | OFlushAll, ADone | OLog _, ADone => st_count a' = st_count a ∧ agree a a' None None
  | _, _ => False
  end.

(** Every frame is pinned, so that nothing can be brought in. *)
Definition all_pinned s : Prop := ∀ f, (f < length (bp_frames s))%nat → is_Some (handle s f).

(** Why an operation fails: the log rule refuses; no frame can be freed; the page fetched
    is not on the device, or is damaged there. *)
Definition excuse (op : PoolOp W) (o : Outcome Answer) s s' : Prop :=
  refused (W := W) o
  ∨ (op = ONew ∨ ∃ p, op = OFetch p) ∧ o = Err full ∧ all_pinned s
  ∨ ∃ p, op = OFetch p ∧ is_panic o = false
      ∧ (st_count (view s) ≤ p ∨ page.verify_checksum (page_at (bp_device s') p) = false).

Definition simulated (op : PoolOp W) s (o : Outcome Answer) s' : Prop :=
  match o with
  | Ok ans => store_step op ans (view s) (view s')
  | _ => st_count (view s') = st_count (view s) ∧ agree (view s) (view s') None None ∧ excuse op o s s'
  end.

Lemma keeps_agree s s' : keeps s s' → st_count (view s') = st_count (view s) ∧ agree (view s) (view s') None None.
Proof. intros Hk. split; [apply Hk|]. split; cbn; apply Hk. Qed.

(** What a frame's client sees. *)
Lemma handle_frame s f p n : pool_ok s → handle s f = Some (p, n) →
  ∃ fr, bp_frames s !! f = Some fr ∧ fr_page fr = Some p ∧ fr_pins fr = n ∧ 0 < n.
Proof.
  intros Hs. unfold handle. destruct (bp_frames s !! f) as [fr|]; [|done]. destruct (N.ltb_spec 0 (fr_pins fr)); [|done].
  destruct (fr_page fr) as [q|] eqn:Hq; [|done]. intros [= <- <-]. by exists fr.
Qed.

Lemma frame_handle s f fr p : bp_frames s !! f = Some fr → fr_page fr = Some p →
  handle s f = if 0 <? fr_pins fr then Some (p, fr_pins fr) else None.
Proof. intros Hf Hp. unfold handle. by rewrite Hf, Hp. Qed.

Lemma handle_set f fr fr' s j : bp_frames s !! f = Some fr →
  handle (Pool.set_frame f fr' s) j
  = if decide (j = f) then (if 0 <? fr_pins fr' then (λ p, (p, fr_pins fr')) <$> fr_page fr' else None) else handle s j.
Proof.
  intros Hf. unfold handle. cbn. case_decide as Hj.
  - subst j. by rewrite list_lookup_insert_eq by (by eapply lookup_lt_Some).
  - by rewrite list_lookup_insert_ne.
Qed.

(** ** Operations on a frame held *)
Lemma read_simulated f s : pool_ok s → legal (ORead f) s →
  ∃ o s', exec (ORead f) s = (o, s') ∧ pool_ok s' ∧ simulated (ORead f) s o s'.
Proof.
  intros Hs [[p n] Hh]. destruct (handle_frame s f p n Hs Hh) as (fr & Hf & Hp & Hn & _).
  eexists (Ok (AData (fr_data fr))), s. split.
  { cbn [exec]. unfold mbind, St_bind, get, lift, Pool.page. by rewrite Hf. }
  split; [done|]. split; [|by apply keeps_agree, keeps_refl]. exists p, n. split; [done|].
  cbn [view st_page]. unfold contents. by rewrite (cached_frame s f fr p).
Qed.

Lemma write_simulated f g s : pool_ok s → legal (OWrite f g) s →
  ∃ o s', exec (OWrite f g) s = (o, s') ∧ pool_ok s' ∧ simulated (OWrite f g) s o s'.
Proof.
  intros Hs [[[p n] Hh] Hg]. destruct (handle_frame s f p n Hs Hh) as (fr & Hf & Hp & Hn & Hpos).
  destruct (pk_frames s Hs f fr Hf) as [Hpage Hls Hfree Hheld _]. destruct (Hg _ Hpage) as (Hgp & Hgs & Hge).
  set (fr' := mkFrame (fr_page fr) (g (fr_data fr)) (fr_pins fr) true (fr_ref fr)).
  exists (Ok ADone), (Pool.set_frame f fr' s). split.
  { cbn [exec]. unfold mbind, St_bind, Pool.page_mut. by rewrite Hf. }
  split.
  - eapply set_frame_ok; [done|done|done|]. split; cbn [fr' fr_data fr_page fr_dirty fr_pins]; [done|auto|by rewrite Hp|done|done].
  - exists p, n. split_and!; [done|done|]. split; cbn [view st_page st_handle].
    + intros q. unfold contents. rewrite (set_frame_cached f fr) by done. rewrite Hp.
      destruct (decide (q = p)) as [->|Hne]; [|by rewrite decide_False by congruence].
      rewrite decide_True by done. rewrite (cached_frame s f fr p) by done. exact Hge.
    + intros j. rewrite (handle_set f fr) by done. case_decide as Hj; [|done]. subst j. cbn. rewrite Hp, (frame_handle s f fr p) by done. done.
Qed.

Lemma unpin_simulated f s : pool_ok s → legal (OUnpin f) s →
  ∃ o s', exec (OUnpin f) s = (o, s') ∧ pool_ok s' ∧ simulated (OUnpin f) s o s'.
Proof.
  intros Hs [[p n] Hh]. destruct (handle_frame s f p n Hs Hh) as (fr & Hf & Hp & Hn & Hpos).
  set (fr' := mkFrame (fr_page fr) (fr_data fr) (fr_pins fr - 1) (fr_dirty fr) (fr_ref fr)).
  exists (Ok ADone), (Pool.set_frame f fr' s). split.
  { cbn [exec]. unfold mbind, St_bind, Pool.unpin. by rewrite Hf. }
  split.
  - eapply set_frame_ok; [done|done|done|]. destruct (pk_frames s Hs f fr Hf). split; cbn; [done|done|by rewrite Hp|done|done].
  - exists p, n. split_and!; [done|done|]. split; cbn [view st_page st_handle].
    + intros q. unfold contents. rewrite (set_frame_cached f fr) by done. case_decide; [|done]. by rewrite (cached_frame s f fr q).
    + intros j. rewrite (handle_set f fr) by done. case_decide; [|done]. cbn. rewrite Hp, Hn.
      destruct (N.eqb_spec n 1), (N.ltb_spec 0 (n - 1)); (done || lia).
Qed.

Lemma flush_simulated f s : pool_ok s → legal (OFlush f) s →
  ∃ o s', exec (OFlush f) s = (o, s') ∧ pool_ok s' ∧ simulated (OFlush f) s o s'.
Proof.
  intros Hs Hf. destruct (write_back_written f s Hs Hf) as (o & s' & Hr & Hw). destruct Hw as [Hk _ _ _ _ Ho].
  cbn [exec]. unfold mbind, St_bind, Pool.flush. rewrite Hr.
  destruct (keeps_agree s s' Hk) as [Hc Ha].
  destruct o as [[]|e|m]; eexists _, s'; (split; [reflexivity|split; [apply Hk|]]); cbn [simulated store_step].
  - done.
  - split_and!; [done|done|]. left. by destruct Ho.
  - split_and!; [done|done|]. left. by destruct Ho.
Qed.

(** ** Bringing pages in *)
Lemma install_spec i fr p data dirty s : pool_ok s → bp_frames s !! i = Some fr → fr_page fr = None →
  bp_table s !! p = None → is_page data → stamped (bp_wal s) data → p < page_count (bp_device s) →
  (dirty = false → data = page_at (bp_device s) p) →
  ∃ s', Pool.install i p data dirty s = (Ok tt, s') ∧ pool_ok s' ∧ bp_device s' = bp_device s ∧ bp_wal s' = bp_wal s
    ∧ (∀ q, contents s' q = if decide (q = p) then page.write_checksum data else contents s q)
    ∧ ∀ j, handle s' j = if decide (j = i) then Some (p, 1) else handle s j.
Proof.
  intros Hs Hi Hfree Htp Hdata Hls Hp Hclean. assert (Hlt := lookup_lt_Some _ _ _ Hi).
  unfold Pool.install, Pool.with_frame. rewrite Hi. eexists. split; [reflexivity|]. split_and!; [|done|done| |].
  - destruct Hs as [Hd Hk Hl Hc Hf Ht]. split; cbn; [done|done|done|by rewrite length_insert| |].
    + intros j frj [(<- & <- & _)|[_ Hj]]%list_lookup_insert_Some; [|by eapply Hf].
      split; cbn; [done|done|done|by intros q [= <-]|]. intros q [= <-]. exact Hclean.
    + intros q j. rewrite lookup_insert_Some, Ht. split.
      * intros [[<- <-]|(Hne & frj & Hj & Hq)]; [eexists; by rewrite list_lookup_insert_eq|].
        exists frj. rewrite list_lookup_insert_ne; [done|]. intros <-. congruence.
      * intros (frj & [(<- & <- & _)|[Hne Hj]]%list_lookup_insert_Some & Hq); [left; by injection Hq as <-|right].
        split; [|by exists frj]. intros <-. assert (bp_table s !! p = Some j) by (apply Ht; eauto). congruence.
  - intros q. unfold contents, cached. cbn [bp_table bp_frames bp_device]. case_decide as Hq.
    + subst q. rewrite lookup_insert_eq. cbn [mbind option_bind]. by rewrite list_lookup_insert_eq.
    + rewrite lookup_insert_ne by done. destruct (bp_table s !! q) as [j|] eqn:Hj; cbn [mbind option_bind]; [|done].
      rewrite list_lookup_insert_ne; [done|]. intros <-. apply (pk_table s Hs) in Hj as (? & ? & ?). congruence.
  - intros j. unfold handle. cbn [bp_frames]. case_decide as Hj; [subst j; by rewrite list_lookup_insert_eq|].
    by rewrite list_lookup_insert_ne.
Qed.

Lemma grow_spec s : pool_ok s → page_count (bp_device s) + 1 ≤ u64_max →
  ∃ s', Pool.on_dev (extend 1) s = (Ok tt, s') ∧ pool_ok s' ∧ page_count (bp_device s') = page_count (bp_device s) + 1
    ∧ bp_frames s' = bp_frames s ∧ bp_table s' = bp_table s ∧ ∀ q, contents s' q = contents s q.
Proof.
  intros Hs Hn. destruct (extend_spec (bp_device s) 1 (pk_device s Hs) Hn) as (d' & He & Hd' & Hpg).
  assert (Hat : ∀ q, page_at d' q = page_at (bp_device s) q) by by eapply page_at_extend.
  assert (Hc : page_count d' = page_count (bp_device s) + 1).
  { rewrite (page_count_spec d' Hd'), (page_count_spec _ (pk_device s Hs)), Hpg, length_app, length_replicate. lia. }
  unfold Pool.on_dev. rewrite He. eexists. split; [reflexivity|]. split_and!; [|done|done|done|].
  - pose proof Hs as [Hd Hk Hl Hck Hf Ht]. split; cbn; [done|done| |done| |done].
    + intros p Hp. rewrite Hat. destruct (decide (p < page_count (bp_device s))); [by apply Hl|].
      intros _. left. unfold page_at. by rewrite dev_beyond by (done || lia).
    + intros i fr Hi. destruct (Hf i fr Hi) as [Hpage Hls Hfree Hh Hcl]. split; [done|done|done| |].
      * intros p Hp. specialize (Hh p Hp). lia.
      * intros p Hp Hclean. rewrite Hat. by apply Hcl.
  - intros q. unfold contents, cached. cbn [bp_table bp_frames bp_device]. by rewrite Hat.
Qed.

Lemma none_free_pinned s : pool_ok s →
  (∀ v fr, bp_frames s !! v = Some fr → fr_pins fr = 0 → False) → all_pinned s.
Proof.
  intros Hs Hf f Hlt. destruct (lookup_lt_is_Some_2 _ _ Hlt) as [fr Hfr].
  assert (Hnz : fr_pins fr ≠ 0) by (intros Hz; by apply (Hf f fr)).
  destruct (fr_page fr) as [p|] eqn:Hp; [|by destruct (fo_free _ _ _ (pk_frames s Hs f fr Hfr) Hp)].
  rewrite (frame_handle s f fr p) by done. destruct (N.ltb_spec 0 (fr_pins fr)); [done|lia].
Qed.

(** A failed search for a victim fails the operation. *)
Lemma not_found_simulated op s s1 (o : Outcome nat) (o' : Outcome Answer) : pool_ok s → keeps s s1 →
  found s (λ _ _, False) o s1 → (op = ONew ∨ ∃ p, op = OFetch p) →
  match o with Ok _ => False | Err e => o' = Err e | Panic m => o' = Panic m end → simulated op s o' s1.
Proof.
  intros Hs Hk Hf Hop Ho. destruct (keeps_agree s s1 Hk) as [Hc Ha]. destruct o as [i|e|m]; [done| |]; subst o'.
  - split_and!; [done|done|]. destruct Hf as [Hf|[-> Hf]]; [by left|]. right. left. split_and!; [done|done|by apply none_free_pinned].
  - split_and!; [done|done|]. by left.
Qed.

Lemma fetch_hit_simulated p i s : pool_ok s → legal (OFetch p) s → bp_table s !! p = Some i →
  ∃ o s', exec (OFetch p) s = (o, s') ∧ pool_ok s' ∧ simulated (OFetch p) s o s'.
Proof.
  intros Hs Hlegal Ht. pose proof Ht as (fr & Hi & Hp)%(pk_table s Hs). destruct (pk_frames s Hs i fr Hi) as [Hpage Hls Hfree Hheld Hcl].
  set (fr' := mkFrame (fr_page fr) (fr_data fr) ((fr_pins fr + 1) mod 2 ^ 32) (fr_dirty fr) true).
  assert (Hn : (fr_pins fr + 1) mod 2 ^ 32 = fr_pins fr + 1).
  { apply N.mod_small. destruct (N.ltb_spec 0 (fr_pins fr)) as [Hpos|Hz].
    - apply (Hlegal i). rewrite (frame_handle s i fr p) by done. by destruct (N.ltb_spec 0 (fr_pins fr)); [|lia].
    - change (2 ^ 32) with 4294967296. lia. }
  exists (Ok (AFrame i)), (Pool.set_frame i fr' s). split.
  { cbn [exec]. unfold mbind, St_bind, Pool.fetch. rewrite Ht. unfold Pool.with_frame. by rewrite Hi. }
  split.
  - eapply set_frame_ok; [done|done|done|]. split; cbn [fr' fr_data fr_page fr_dirty fr_pins]; [done|done|by rewrite Hp|done|done].
  - cbn [simulated store_step]. split_and!; [by apply Hheld| |done|].
    + intros q n Hq. cbn [view st_handle] in Hq. rewrite (frame_handle s i fr p) in Hq by done. by destruct (0 <? fr_pins fr); simplify_eq.
    + split; cbn [view st_page st_handle].
      * intros q. unfold contents. rewrite (set_frame_cached i fr) by done. case_decide; [|done]. by rewrite (cached_frame s i fr q).
      * intros j. rewrite (handle_set i fr) by done. case_decide as Hj; [|done]. unfold pins. cbn [view st_handle fr' fr_pins fr_page].
        rewrite (frame_handle s i fr p), Hp, Hn by done. destruct (N.ltb_spec 0 (fr_pins fr + 1)); [|lia]. cbn [fmap option_fmap option_map].
        destruct (N.ltb_spec 0 (fr_pins fr)); [done|]. do 3 f_equal. lia.
Qed.

Lemma fetch_miss_simulated p s : pool_ok s → bp_table s !! p = None →
  ∃ o s', exec (OFetch p) s = (o, s') ∧ pool_ok s' ∧ simulated (OFetch p) s o s'.
Proof.
  intros Hs Ht. destruct (evict_found s Hs) as (o & s1 & He & Hk & Hf). destruct (keeps_agree s s1 Hk) as [Hc Ha].
  cbn [exec]. unfold mbind, St_bind, Pool.fetch. rewrite Ht. unfold mbind, St_bind. rewrite He.
  destruct o as [i|e|m].
  2-3: eexists _, s1; split; [reflexivity|]; split; [apply Hk|];
    eapply not_found_simulated; [done|done|exact Hf|right; by exists p|done].
  destruct Hf as (fr & Hi & Hfree). unfold get, lift. cbn beta iota.
  assert (Ht1 : bp_table s1 !! p = None) by (eapply lookup_weaken_None; [exact Ht|apply Hk]).
  assert (Hbad : ∀ e : GraphusError, page_count (bp_device s) ≤ p ∨ page.verify_checksum (page_at (bp_device s1) p) = false →
      simulated (OFetch p) s (Err e) s1).
  { intros e Hb. split_and!; [done|done|]. right. right. by exists p. }
  destruct (decide (p < page_count (bp_device s1))) as [Hlt|Hge].
  2: { destruct (read_beyond (bp_device s1) p) as [e Hr]; [apply Hk|lia|]. rewrite Hr. eexists _, s1. split; [reflexivity|].
       split; [apply Hk|]. apply Hbad. left. rewrite <- (kp_count _ _ Hk). lia. }
  rewrite page_at_read by (done || apply Hk). destruct (page.verify_checksum _) eqn:Hv; cbn [negb].
  2: { eexists _, s1. split; [reflexivity|]. split; [apply Hk|]. apply Hbad. by right. }
  destruct (install_spec i fr p (page_at (bp_device s1) p) false s1) as (s2 & Hin & Hs2 & Hd2 & Hw2 & Hc2 & Hh2);
    [apply Hk|done|done|done|by apply page_at_ok, Hk| |done|done|].
  { destruct (pk_logged s1 (kp_ok _ _ Hk) p Hlt Hv) as [Hz|[His _]]; [by left|by right]. }
  rewrite Hin. eexists _, s2. split; [reflexivity|]. split; [done|].
  assert (Hnone : handle s1 i = None) by (unfold handle; rewrite Hi, Hfree; by case_match).
  cbn [simulated store_step view st_count st_handle pins]. rewrite <- (kp_handle _ _ Hk i), Hnone, Hd2.
  split_and!; [by rewrite <- (kp_count _ _ Hk)|done|apply Hk|]. split; cbn [view st_page st_handle].
  - intros q. rewrite Hc2, <- (kp_contents _ _ Hk q). case_decide as Hq; [|done]. subst q. unfold contents.
    by rewrite (cached_device s1 p (kp_ok _ _ Hk) Ht1).
  - intros j. rewrite Hh2, <- (kp_handle _ _ Hk j). case_decide; [|done]. unfold pins. cbn [view st_handle].
    by rewrite <- (kp_handle _ _ Hk i), Hnone.
Qed.

Lemma new_simulated s : pool_ok s → legal ONew s →
  ∃ o s', exec ONew s = (o, s') ∧ pool_ok s' ∧ simulated ONew s o s'.
Proof.
  intros Hs Hlegal. destruct (evict_found s Hs) as (o & s1 & He & Hk & Hf).
  cbn [exec]. unfold mbind, St_bind, Pool.new_page, mbind, St_bind. rewrite He.
  destruct o as [i|e|m].
  2-3: eexists _, s1; split; [reflexivity|]; split; [apply Hk|];
    eapply not_found_simulated; [done|done|exact Hf|by left|done].
  destruct Hf as (fr & Hi & Hfree). unfold get. cbn beta iota. unfold Pool.page_count.
  set (p := page_count (bp_device s1)). cbn [legal] in Hlegal. rewrite <- (kp_count _ _ Hk) in Hlegal.
  destruct (grow_spec s1 (kp_ok _ _ Hk) Hlegal) as (s2 & Hg & Hs2 & Hn2 & Hf2 & Ht2 & Hc2). rewrite Hg.
  assert (Htp : bp_table s2 !! p = None).
  { rewrite Ht2. apply eq_None_not_Some. intros [j (frj & Hj & Hpj)%(pk_table s1 (kp_ok _ _ Hk))].
    pose proof (fo_held _ _ _ (pk_frames s1 (kp_ok _ _ Hk) j frj Hj) p Hpj) as Hlt. unfold p in Hlt. lia. }
  destruct (install_spec i fr p (page.write_checksum (page.set_page_id zero_page p)) true s2)
    as (s3 & Hin & Hs3 & Hd3 & Hw3 & Hc3 & Hh3);
    [done|by rewrite Hf2|done|done|apply page.write_checksum_ok, page.set_page_id_ok, page.zero_page_ok| |lia|done|].
  { left. rewrite page.page_lsn_checksum, page.page_lsn_set_id by auto using page.set_page_id_ok, page.zero_page_ok. done. }
  rewrite Hin. eexists _, s3. split; [reflexivity|]. split; [done|].
  assert (Hnone : handle s1 i = None) by (unfold handle; rewrite Hi, Hfree; by case_match).
  cbn [simulated store_step view st_count st_handle fst snd]. rewrite <- (kp_handle _ _ Hk i), Hd3, <- (kp_count _ _ Hk).
  split_and!; [done|done|done|]. split; cbn [view st_page st_handle].
  - intros q. rewrite Hc3. case_decide; [|by rewrite Hc2, (kp_contents _ _ Hk)].
    apply page.write_checksum_twice, page.set_page_id_ok, page.zero_page_ok.
  - intros j. rewrite Hh3. case_decide; [done|]. rewrite <- (kp_handle _ _ Hk j). unfold handle. by rewrite Hf2.
Qed.

(** ** Flushing everything *)
Lemma write_back_all_spec is_ : ∀ s, pool_ok s → Forall (λ i, i < length (bp_frames s))%nat is_ →
  ∃ o s', Pool.write_back_all is_ s = (o, s') ∧ keeps s s' ∧ (o = Ok tt ∨ refused o)
    ∧ (o = Ok tt → ∀ j fr', bp_frames s' !! j = Some fr' →
        j ∈ is_ ∨ (∃ fr, bp_frames s !! j = Some fr ∧ fr_dirty fr = false) → fr_dirty fr' = false).
Proof.
  induction is_ as [|i is_ IH]; intros s Hs Hr.
  - exists (Ok tt), s. split_and!; [done|by apply keeps_refl|by left|]. intros _ j fr' Hj [[]%not_elem_of_nil|(fr & Hj' & ?)]. congruence.
  - apply Forall_cons in Hr as [Hi Hr]. destruct (write_back_written i s Hs Hi) as (o & s1 & Hw & [Hk _ _ Hoth Hfr Ho]).
    cbn [Pool.write_back_all]. unfold mbind, St_bind. rewrite Hw. destruct o as [[]|e|m].
    2-3: eexists _, s1; split_and!; [done|done|right; by destruct Ho|done].
    destruct (IH s1 (kp_ok _ _ Hk)) as (o' & s2 & Hw2 & Hk2 & Ho2 & Hcl); [by rewrite (kp_length _ _ Hk)|].
    exists o', s2. split_and!; [done|by eapply keeps_trans|done|]. intros -> j fr' Hj Hc. apply (Hcl eq_refl j fr' Hj).
    destruct (lookup_lt_is_Some_2 _ _ Hi) as [fri Hfi]. destruct (decide (j = i)) as [->|Hne].
    + right. destruct (Hfr fri Hfi) as (fr1 & H1 & _ & _ & _ & Hd). exists fr1. split; [done|by apply Hd].
    + destruct Hc as [[->|Hin]%elem_of_cons|(fr & Hj' & Hd)]; [done|by left|right]. exists fr. by rewrite Hoth.
Qed.

Lemma dirty_frames_spec s j : j ∈ Pool.dirty_frames s ↔ ∃ fr, bp_frames s !! j = Some fr ∧ fr_dirty fr = true.
Proof.
  unfold Pool.dirty_frames. rewrite list_elem_of_fmap. split.
  - intros ([j' fr] & -> & [Hd Hin]%list_elem_of_filter). apply elem_of_lookup_imap in Hin as (i & x & [= -> ->] & Hx). by exists x.
  - intros (fr & Hj & Hd). exists (j, fr). split; [done|]. apply list_elem_of_filter. split; [done|].
    apply elem_of_lookup_imap. by exists j, fr.
Qed.

Lemma flush_all_spec s : pool_ok s →
  ∃ o s', Pool.flush_all s = (o, s') ∧ keeps s s' ∧ (o = Ok tt ∨ refused o)
    ∧ (o = Ok tt → dev_durable (bp_device s') = dev_pages (bp_device s')
        ∧ ∀ j fr, bp_frames s' !! j = Some fr → fr_dirty fr = false).
Proof.
  intros Hs. destruct (write_back_all_spec (Pool.dirty_frames s) s Hs) as (o & s1 & Hw & Hk & Ho & Hcl).
  { apply Forall_forall. intros j (fr & Hj & _)%dirty_frames_spec. by eapply lookup_lt_Some. }
  unfold Pool.flush_all, mbind, St_bind, get. rewrite Hw. destruct o as [[]|e|m].
  2-3: eexists _, s1; split_and!; [done|done|right; by destruct Ho|done].
  destruct (sync_spec (bp_device s1) (pk_device s1 (kp_ok _ _ Hk))) as (d' & _ & Hsy & Hd' & Hpg & Hdur).
  unfold Pool.on_dev. rewrite Hsy. assert (Hat : ∀ q, page_at d' q = page_at (bp_device s1) q) by (intros; unfold page_at; by rewrite Hpg).
  assert (Hn : page_count d' = page_count (bp_device s1)) by (rewrite !page_count_spec, Hpg by (done || apply Hk); done).
  eexists (Ok tt), _. split; [reflexivity|]. split_and!; [|by left|].
  - eapply keeps_trans; [exact Hk|]. destruct (kp_ok _ _ Hk) as [Hd Hrk Hl Hc Hf Ht]. split; cbn [bp_device bp_frames bp_table bp_wal]; try done.
    + split; cbn; try done; [intros q; rewrite Hn, Hat; apply Hl|]. intros i fr Hi. destruct (Hf i fr Hi) as [Hp Hls Hfr Hh Hc1].
      split; [done|done|done|by rewrite Hn|]. intros q. rewrite Hat. apply Hc1.
    + intros q. unfold contents, cached. cbn [bp_device bp_frames bp_table]. by rewrite Hat.
  - intros _. cbn [bp_device bp_frames]. rewrite Hdur, Hpg. split; [done|]. intros j fr Hj. apply (Hcl eq_refl j fr Hj).
    destruct (lookup_lt_is_Some_2 (bp_frames s) j) as [fr0 H0].
    { rewrite <- (kp_length _ _ Hk). by eapply lookup_lt_Some. }
    destruct (fr_dirty fr0) eqn:Hd0; [left; apply dirty_frames_spec; eauto|right; eauto].
Qed.

Lemma flush_all_simulated s : pool_ok s →
  ∃ o s', exec OFlushAll s = (o, s') ∧ pool_ok s' ∧ simulated OFlushAll s o s'.
Proof.
  intros Hs. destruct (flush_all_spec s Hs) as (o & s' & Hr & Hk & Ho & _). destruct (keeps_agree s s' Hk) as [Hc Ha].
  cbn [exec]. unfold mbind, St_bind. rewrite Hr.
  destruct o as [[]|e|m]; eexists _, s'; (split; [reflexivity|split; [apply Hk|]]); cbn [simulated store_step].
  - done.
  - split_and!; [done|done|]. left. by destruct Ho.
  - split_and!; [done|done|]. left. by destruct Ho.
Qed.

Lemma exec_simulated op s : pool_ok s → legal op s →
  ∃ o s', exec op s = (o, s') ∧ pool_ok s' ∧ simulated op s o s'.
Proof.
  intros Hs Hl. destruct op as [p| |f|f g|f|f| |m].
  - destruct (bp_table s !! p) as [i|] eqn:Ht; [by eapply fetch_hit_simulated|by apply fetch_miss_simulated].
  - by apply new_simulated.
  - by apply read_simulated.
  - by apply write_simulated.
  - by apply unpin_simulated.
  - by apply flush_simulated.
  - by apply flush_all_simulated.
  - eexists (Ok ADone), _. split; [reflexivity|]. split; [by apply wal_moves|]. done.
Qed.

(** ** Runs of a pool *)

(** A device and a log to start from: intact pages are covered by the durable log. *)
Record startable (d : D) (w : W) : Prop := {
  sa_device : dev_ok d;
  sa_wal : rule_ok w;
  sa_logged p : p < page_count d → page.verify_checksum (page_at d p) = true → covered w (page_at d p);
}.

Lemma with_wal_ok d w n s : startable d w → Pool.with_wal d w n = Ok s →
  pool_ok s ∧ bp_device s = d ∧ (∀ p, contents s p = page.write_checksum (page_at d p)) ∧ ∀ f, handle s f = None.
Proof.
  intros [Hd Hw Hl]. unfold Pool.with_wal. destruct (Nat.ltb_spec 0 n) as [Hn|]; [|done]. cbn [negb]. intros [= <-].
  assert (Hfr : ∀ i fr, replicate n Pool.empty_frame !! i = Some fr → fr = Pool.empty_frame) by (by intros i fr [-> _]%lookup_replicate).
  split_and!; [|done|done|].
  - split; cbn [bp_device bp_wal bp_frames bp_table bp_clock]; [done|done|done|by rewrite length_replicate| |].
    + intros i fr ->%Hfr. split; cbn [Pool.empty_frame fr_data fr_page fr_pins fr_dirty]; [apply page.zero_page_ok|by left|done|done|done].
    + intros p i. rewrite lookup_empty. split; [done|]. by intros (fr & ->%Hfr & ?).
  - intros f. unfold handle. cbn [bp_frames]. destruct (replicate n _ !! f) as [fr|] eqn:Hf; [|done]. by rewrite (Hfr f fr Hf).
Qed.

Inductive serves (d : D) (w : W) : BufferPool D W → Prop :=
  | serves_start n s : Pool.with_wal d w n = Ok s → serves d w s
  | serves_step s op o s' : serves d w s → legal op s → exec op s = (o, s') → serves d w s'.

Lemma serves_ok d w s : startable d w → serves d w s → pool_ok s.
Proof.
  intros Hst. induction 1 as [n s Hn|s op o s' _ IH Hl He]; [by eapply with_wal_ok|].
  destruct (exec_simulated op s IH Hl) as (o1 & s1 & He1 & Hs1 & _). congruence.
Qed.


(** The log goes first: whatever the run, a page that is intact on the device bears no
    LSN or that of a record that is already durable. *)
Theorem log_before_data (d : D) (w : W) s p : startable d w → serves d w s →
  p < page_count (bp_device s) → page.verify_checksum (page_at (bp_device s) p) = true →
  page.page_lsn (page_at (bp_device s) p) = 0
  ∨ page.page_lsn (page_at (bp_device s) p) < durable_len (bp_wal s).
Proof.
  intros Hst Hs Hp Hv. destruct (pk_logged s (serves_ok d w s Hst Hs) p Hp Hv) as [Hz|[_ Hlt]]; auto.
Qed.

(** Two turns of the clock find a victim if there is one: unless the log rule refuses, the
    search returns a frame that holds nothing, or every frame is pinned; pages and handles
    stay as they are. *)
Theorem eviction_finds_victim (d : D) (w : W) s : startable d w → serves d w s →
  ∃ o s', Pool.evict_victim s = (o, s') ∧ agree (view s) (view s') None None
    ∧ match o with
      | Ok i => ∃ fr, bp_frames s' !! i = Some fr ∧ fr_page fr = None
      | Err e => refused (W := W) o ∨ e = full ∧ all_pinned s
      | Panic _ => refused (W := W) o
      end.
Proof.
  intros Hst Hs. pose proof (serves_ok d w s Hst Hs) as Hok. destruct (evict_found s Hok) as (o & s' & He & Hk & Hf).
  exists o, s'. split_and!; [done|by apply keeps_agree|]. destruct o as [i|e|m]; [done| |done].
  destruct Hf as [Hf|[-> Hf]]; [by left|right]. split; [done|by apply none_free_pinned].
Qed.

(** After [flush_all] every page the clients have is on stable storage, unless the log
    rule refused. *)
Theorem flush_all_durable (d : D) (w : W) s : startable d w → serves d w s →
  ∃ o s', Pool.flush_all s = (o, s') ∧ agree (view s) (view s') None None
    ∧ (o = Ok tt ∨ refused o)
    ∧ (o = Ok tt → ∀ p, p < st_count (view s) →
        ∃ b, dev_durable (bp_device s') !! N.to_nat p = Some b ∧ page.write_checksum b = st_page (view s) p).
Proof.
  intros Hst Hs. destruct (flush_all_spec s (serves_ok d w s Hst Hs)) as (o & s' & Hr & Hk & Ho & Hd).
  exists o, s'. split_and!; [done|by apply keeps_agree|done|]. intros Hok p Hp. destruct (Hd Hok) as [Hdur Hcl].
  cbn [view st_count st_page] in *. rewrite <- (kp_count _ _ Hk) in Hp. rewrite Hdur.
  destruct (dev_lookup (bp_device s') p (pk_device s' (kp_ok _ _ Hk)) Hp) as [b Hb]. exists b. split; [done|].
  rewrite <- (kp_contents _ _ Hk p). unfold contents, cached. assert (Hat : page_at (bp_device s') p = b) by (unfold page_at; by rewrite Hb).
  destruct (bp_table s' !! p) as [i|] eqn:Ht; cbn [mbind option_bind]; [|by rewrite Hat].
  apply (pk_table s' (kp_ok _ _ Hk)) in Ht as (fr & Hi & Hpg). rewrite Hi.
  by rewrite (fo_clean _ _ _ (pk_frames s' (kp_ok _ _ Hk) i fr Hi) p Hpg (Hcl i fr Hi)), Hat.
Qed.
End spec.
