(* ===== verification/PoolWal.v ===== *)
(** * The buffer pool over the write-ahead log

    [src/crates/graphus-storage/src/wal_rule.rs]: the log manager as the log rule of the
    pool. A manager over a reliable sink keeps the rule's laws, every operation of the log
    only makes it grow, and the theorems of [PoolSpec] and of [WalCrash] hold of pool and
    log together: what the pool has written home is described by records that a crash
    leaves in the log. *)

From stdpp Require Import options.
From S2P Require Import Prelude Core Bytes WalRecord WalSink WalScanFacts Wal WalTrace WalCrash PageFormat BlockDevice BufferPool PoolFacts PoolSpec.

(** The lock around the manager is held for the call; the pool's calls are sequential. *)
Module SharedWal.
Section shared.
Context `{Crc32c} {S : Type} `{!LogSink S}.

Definition ensure_durable (up_to : Lsn) : St (WalManager S) unit := Wal.ensure_durable up_to.
Definition durable_len (w : WalManager S) : N := Wal.durable_len w.
End shared.
End SharedWal.

#[export] Instance WalManager_rule `{Crc32c} {S} `{!LogSink S} : WalRule (WalManager S) := {|
  BufferPool.ensure_durable := SharedWal.ensure_durable;
  tracks_lsn _ := true;
  BufferPool.durable_len := SharedWal.durable_len;
|}.

(** ** The manager keeps the rule *)
Section laws.
Context `{Crc32c} {S : Type} `{!LogSink S} `{!LogSinkSpec S} `{!ReliableSink S} `{!KeepsUndo S}.
#[local] Set Default Proof Using "All".
Abbreviation M := (WalManager S).

(** The durable part of the log ends with a record. *)
Definition whole (w : M) : Prop := ∃ rs1 rs2, log_of w = rs1 ++ rs2 ∧ blen (image (sink w)) = HEADER_LEN + flat_len rs1.

Definition log_ok (w : M) : Prop := reaches w ∧ faultless (sink w) ∧ whole w.

Definition in_log (w : M) (l : Lsn) : Prop := ∃ r, r ∈ log_of w ∧ lsn r = l.

(** An operation of the log makes it grow. *)
Lemma operation_grows (w w' : M) o : reaches w → WalCrash.legal w o → WalCrash.exec o w = (Ok tt, w') →
  reaches w' ∧ Wal.durable_len w ≤ Wal.durable_len w' ∧ ∀ l, in_log w l → in_log w' l.
Proof.
  intros Hr Hl He. pose proof (reaches_inv w Hr) as Hi. destruct (step_kept w _ o w' Hi Hl He) as (new & Hi' & Hle).
  split; [by eapply reach_step|]. unfold Wal.durable_len. rewrite !durable_len_image by (apply Hi || apply Hi').
  split; [done|]. intros l (r & Hin & Hlsn). exists r. rewrite (inv_log_of _ _ Hi'). set_solver.
Qed.

Lemma hardened_whole (w w' : M) : reaches w → Wal.harden w = (Ok tt, w') →
  whole w' ∧ Wal.durable_len w' = HEADER_LEN + flat_len (log_of w).
Proof.
  intros Hr Hh. pose proof (reaches_inv w Hr) as Hi. destruct (harden_inv w _ w' Hi Hh) as (Hi' & Him & _).
  assert (Hlen : blen (image (sink w')) = HEADER_LEN + flat_len (log_of w)).
  { rewrite Him, (wi_bytes _ _ Hi). unfold flat_len, blen, HEADER_LEN. rewrite length_app. change (length Wal.header) with 8%nat. lia. }
  split; [|unfold Wal.durable_len; by rewrite durable_len_image by apply Hi'].
  exists (log_of w), []. by rewrite (inv_log_of _ _ Hi'), app_nil_r.
Qed.

Lemma record_within (w : M) r : reaches w → r ∈ log_of w → lsn r < HEADER_LEN + flat_len (log_of w).
Proof.
  intros Hr Hin. pose proof (protocol_laid_out _ _ (wi_protocol _ _ (reaches_inv w Hr))) as Hl.
  pose proof (laid_out_lsn _ _ _ Hl Hin). pose proof (encoded_len_pos r). unfold MIN_RECORD_LEN, REC_FIXED_PREFIX in *. lia.
Qed.

Lemma rule_ensure_spec l (w : M) : log_ok w →
  ∃ w', Wal.ensure_durable l w = (Ok tt, w') ∧ log_ok w' ∧ Wal.durable_len w ≤ Wal.durable_len w'
    ∧ (∀ k, in_log w k → in_log w' k) ∧ (in_log w l → l < Wal.durable_len w').
Proof.
  intros (Hr & Hf & Hw). pose proof (reaches_inv w Hr) as Hi.
  destruct (N.ltb_spec l (Wal.durable_len w)) as [Hlt|Hge].
  - exists w. unfold Wal.ensure_durable, Wal.durable_len in *. destruct (N.leb_spec (sk_durable_len (sink w)) l); [lia|].
    split; [done|]. split; [done|]. split; [lia|done].
  - destruct (faultless_sync (sink w) (wi_sink _ _ Hi) Hf) as (s' & Hy & Hf').
    assert (Hh : Wal.harden w = (Ok tt, Wal.set_sink s' w)) by (unfold Wal.harden; by rewrite Hy).
    assert (He : Wal.ensure_durable l w = (Ok tt, Wal.set_sink s' w)).
    { unfold Wal.ensure_durable, Wal.durable_len in *. by destruct (N.leb_spec (sk_durable_len (sink w)) l); [|lia]. }
    destruct (operation_grows w _ (OEnsureDurable l) Hr I He) as (Hr' & Hd & Hin).
    destruct (hardened_whole w _ Hr Hh) as [Hw' Hdl]. exists (Wal.set_sink s' w). do 4 (split; [done|]).
    intros (r & Hrl & <-). rewrite Hdl. by apply record_within.
Qed.

#[export] Instance WalManager_rule_spec : WalRuleSpec M.
Proof.
  refine {| rule_ok := log_ok; issued := in_log |}; intros l w; [intros Hw|intros Hw|intros k Hw Hk|intros Hw Hk];
    destruct (rule_ensure_spec l w Hw) as (w' & He & Hw' & Hd & Hn & Hc); cbn; unfold SharedWal.ensure_durable, SharedWal.durable_len;
    rewrite He; cbn [fst snd]; auto.
Defined.

(** ** Pool and log after a crash *)
Context {D : Type} `{!BlockDevice D} `{!DeviceSpec D}.

Lemma record_durable (w : M) r : log_ok w → r ∈ log_of w → lsn r < Wal.durable_len w →
  lsn r + N.of_nat (Rec.encoded_len r) ≤ blen (image (sink w)).
Proof.
  intros (Hr & _ & rs1 & rs2 & Hlog & Hlen) Hin Hlt. pose proof (reaches_inv w Hr) as Hi.
  unfold Wal.durable_len in Hlt. rewrite durable_len_image in Hlt by apply Hi.
  pose proof (protocol_laid_out _ _ (wi_protocol _ _ Hi)) as Hl. rewrite Hlog in Hl, Hin. apply laid_out_app in Hl as [Hl1 Hl2].
  apply elem_of_app in Hin as [Hin|Hin].
  - rewrite Hlen. apply list_elem_of_split in Hin as (a & b & ->). apply laid_out_app in Hl1 as [_ (-> & _ & _)].
    rewrite flat_len_app, flat_len_cons. lia.
  - pose proof (laid_out_lsn _ _ _ Hl2 Hin). lia.
Qed.

(** C6: Log before data, for the store's own log. A pool is started over a faultless device
    whose intact pages are covered by the durable log, and clients use it legally: they edit
    pages they hold, stamping only LSNs of records that are in the log, and the log only
    grows, no part of it being reclaimed. Then, wherever a crash cuts the log between what
    was durable and what was written, a page that is intact on the device bears no LSN or
    the LSN of a record that is still in the log, so that recovery never meets a change it
    cannot explain. *)
Theorem pages_home_are_logged (d : D) (w : M) (s : BufferPool D M) (p : PageId) (img : bytes) :
  startable d w → serves d w s → p < page_count (bp_device s) →
  page.verify_checksum (page_at (bp_device s) p) = true →
  image (sink (bp_wal s)) `prefix_of` img → img `prefix_of` written (bp_wal s) →
  page.page_lsn (page_at (bp_device s) p) = 0
  ∨ ∃ r, r ∈ log_in img ∧ lsn r = page.page_lsn (page_at (bp_device s) p).
Proof.
  intros Hst Hs Hp Hv Hpre1 Hpre2. pose proof (serves_ok d w s Hst Hs) as Hok.
  destruct (pk_logged s Hok p Hp Hv) as [Hz|[(r & Hin & Hlsn) Hlt]]; [by left|right].
  exists r. split; [|done]. pose proof (pk_wal s Hok) as Hlog. pose proof (reaches_inv _ (proj1 Hlog)) as Hi.
  rewrite <- Hlsn in Hlt. pose proof (record_durable _ r Hlog Hin Hlt) as Hd. pose proof (prefix_length _ _ Hpre1) as Hlen.
  destruct (crash_log (bp_wal s) _ img Hi) as (rs1 & rs2 & rest & _ & Hh & Hrest & Hkept); [|done|].
  - pose proof (reaches_header _ (proj1 Hlog)). unfold blen in *. lia.
  - rewrite (log_in_holds _ _ _ Hh Hrest). apply Hkept; [done|]. unfold blen in *. lia.
Qed.
End laws.
