(* ===== verification/PoolExamples.v ===== *)
(** * The buffer pool at work

    A pool of two frames over an in-memory device and a log in memory: pages are made,
    changed under the log, evicted and read again. The run instantiates the theorems of
    [PoolSpec] and [PoolWal]. *)

From stdpp Require Import options.
From S2P Require Import Prelude Core Bytes WalRecord WalSink Wal WalTrace WalCrash WalExamples PageFormat Paging BlockDevice DwbExamples BufferPool PoolFacts PoolSpec PoolWal.

#[local] Existing Instance additive | 0.

Module Run.
Abbreviation P := (BufferPool MemBlockDevice (WalManager MemLogSink)).
Abbreviation Op := (PoolOp (WalManager MemLogSink)).

Definition disk : MemBlockDevice := MemDev.new 1.
Definition log : WalManager MemLogSink := fresh.

Definition start : P := ok_or (mkPool disk log [] ∅ 0) (Pool.with_wal disk log 2).
Definition log_op (o : WalOp) : Op := OLog (λ w, (WalCrash.exec o w).2).

(** A change of the record store: bytes beyond the header, and the LSN of its record. *)
Definition change (l : Lsn) (o : nat) (bs : bytes) : bytes → bytes := λ b, copy_at o bs (page.set_page_lsn b l).

(** A new page is changed under record 8 and dropped; pages 0 and 2 push it out. *)
Definition ops : list Op :=
  [ONew; log_op (OUpdate 7 1 (pb 100 [9]) (pb 100 [0])); OWrite 0 (change 8 100 [9]); OUnpin 0; OFetch 0; ONew].

Definition steps (n : nat) : P := foldl (λ s o, (PoolSpec.exec o s).2) start (take n ops).
Definition final : P := steps 6.
End Run.

Lemma run_final : page_at (bp_device Run.final) 1 !! 100%nat = Some 9 ∧ page.page_lsn (page_at (bp_device Run.final) 1) = 8
  ∧ page.verify_checksum (page_at (bp_device Run.final) 1) = true ∧ page_count (bp_device Run.final) = 3
  ∧ handle Run.final 0 = Some (2, 1) ∧ handle Run.final 1 = Some (0, 1).
Proof. split_and!; vm_compute; reflexivity. Qed.

(** *** The changes are edits *)
Ltac in_page := unfold PAGE_SIZE, page.HEADER_SIZE, page.OFF_CHECKSUM, page.OFF_PAGE_TYPE, page.OFF_PAGE_LSN in *;
  rewrite ?copy_at_length, ?to_le_bytes_length; lia.

Lemma change_edit (w : WalManager MemLogSink) l o bs : in_log w l → l ≤ u64_max → is_bytes bs →
  (page.HEADER_SIZE ≤ o)%nat → (o + length bs ≤ PAGE_SIZE)%nat → edit w (Run.change l o bs).
Proof.
  intros Hl Hu Hb Ho Hfit b Hp. pose proof (page.set_page_lsn_ok b l Hp) as Hp1. unfold Run.change. split_and!.
  - by apply page.copy_at_is_page.
  - unfold stamped, page.page_lsn. rewrite page.read_u64_copy_other by (apply Hp1 || in_page).
    fold (page.page_lsn b) (page.page_lsn (page.set_page_lsn b l)). rewrite page.page_lsn_set by done. intros Hs. right.
    destruct (N.max_spec (page.page_lsn b) l) as [[_ ->]|[Hle ->]]; [done|]. destruct Hs as [Hz|Hs]; [|done].
    replace (page.page_lsn b) with l by lia. done.
  - set (ck := to_le_bytes 4 (page.compute_checksum b)). assert (Hck : length ck = 4%nat) by apply to_le_bytes_length.
    assert (Hset : page.set_page_lsn (page.write_checksum b) l = copy_at page.OFF_CHECKSUM ck (page.set_page_lsn b l)).
    { unfold page.set_page_lsn at 1. fold (page.page_lsn (page.write_checksum b)). rewrite page.page_lsn_checksum by done.
      destruct Hp as [Hlen _]. apply copy_at_comm; in_page. }
    rewrite Hset. rewrite (copy_at_comm o page.OFF_CHECKSUM); [|rewrite (page_length _ Hp1); in_page..|in_page].
    symmetry. apply page.write_checksum_field; [by apply page.copy_at_is_page|done].
Qed.

(** *** The run is legal *)
Fixpoint legal_run (s : Run.P) (ops : list Run.Op) : Prop :=
  match ops with
  | [] => True
  | o :: ops => PoolSpec.legal o s ∧ legal_run (PoolSpec.exec o s).2 ops
  end.

Lemma legal_run_serves d w ops : ∀ s, serves d w s → legal_run s ops →
  serves d w (foldl (λ s o, (PoolSpec.exec o s).2) s ops).
Proof.
  induction ops as [|o ops IH]; intros s Hs; [done|]. intros [Hl Hops]. cbn [foldl]. apply IH; [|done].
  eapply serves_step; [exact Hs|exact Hl|]. apply surjective_pairing.
Qed.

Lemma header_whole (w : WalManager MemLogSink) : blen (image (sink w)) = HEADER_LEN → whole w.
Proof. intros Hl. exists [], (log_of w). split; [done|]. rewrite Hl. done. Qed.

Lemma run_startable : startable Run.disk Run.log.
Proof.
  split; [apply new_device_ok; done| |].
  - split; [apply fresh_reaches|]. split; [vm_compute; tauto|]. apply header_whole. by vm_compute.
  - intros p _ _. left. unfold Run.disk. rewrite new_device_page. by vm_compute.
Qed.

Lemma logged_grows : grows (bp_wal (Run.steps 1)) (WalCrash.exec (OUpdate 7 1 (pb 100 [9]) (pb 100 [0])) (bp_wal (Run.steps 1))).2.
Proof.
  assert (Hw : bp_wal (Run.steps 1) = fresh) by (by vm_compute). rewrite Hw.
  destruct (operation_grows fresh (WalCrash.exec (OUpdate 7 1 (pb 100 [9]) (pb 100 [0])) fresh).2
    (OUpdate 7 1 (pb 100 [9]) (pb 100 [0])) fresh_reaches) as (Hr & Hd & Hi).
  - apply (bool_decide_eq_true_1 _). by vm_compute.
  - by vm_compute.
  - split; [|by split]. split; [done|]. split; [by vm_compute|]. apply header_whole. by vm_compute.
Qed.

Lemma logged_issued : in_log (bp_wal (Run.steps 2)) 8.
Proof.
  assert (Hl : (lsn <$> log_of (bp_wal (Run.steps 2))) = [8]) by (by vm_compute).
  assert (Hin : 8 ∈ lsn <$> log_of (bp_wal (Run.steps 2))) by (rewrite Hl; by apply list_elem_of_singleton).
  apply list_elem_of_fmap in Hin as (r & Hl8 & Hr). exists r. split; [exact Hr|exact (eq_sym Hl8)].
Qed.

Lemma run_legal : legal_run Run.start Run.ops.
Proof.
  change (legal_run Run.start Run.ops) with
    (PoolSpec.legal ONew Run.start ∧ PoolSpec.legal (Run.log_op (OUpdate 7 1 (pb 100 [9]) (pb 100 [0]))) (Run.steps 1)
     ∧ PoolSpec.legal (OWrite 0 (Run.change 8 100 [9])) (Run.steps 2) ∧ PoolSpec.legal (OUnpin 0) (Run.steps 3)
     ∧ PoolSpec.legal (OFetch 0) (Run.steps 4) ∧ PoolSpec.legal ONew (Run.steps 5) ∧ True).
  split; [by vm_compute|]. split; [exact logged_grows|]. split.
  { split; [vm_compute; by eexists|]. apply change_edit; [exact logged_issued|done|by repeat constructor|unfold page.HEADER_SIZE; lia|].
    unfold PAGE_SIZE. cbn. lia. }
  split; [vm_compute; by eexists|]. split; [|by vm_compute].
  intros f n Hf. assert (Hnone : ∀ f, handle (Run.steps 4) f = None); [|by rewrite Hnone in Hf].
  clear. intros [|[|f]]; by vm_compute.
Qed.

Lemma run_serves : serves Run.disk Run.log Run.final.
Proof.
  apply (legal_run_serves Run.disk Run.log Run.ops Run.start); [|exact run_legal].
  apply (serves_start _ _ 2). by vm_compute.
Qed.


Lemma eviction_finds_victim_witness : ∃ o s', Pool.evict_victim Run.final = (o, s')
  ∧ agree (view Run.final) (view s') None None.
Proof.
  destruct (eviction_finds_victim Run.disk Run.log Run.final run_startable run_serves) as (o & s' & He & Ha & _).
  exists o, s'. split; [exact He|exact Ha].
Defined.

Lemma flush_all_durable_witness : ∃ o s', Pool.flush_all Run.final = (o, s')
  ∧ agree (view Run.final) (view s') None None.
Proof.
  destruct (flush_all_durable Run.disk Run.log Run.final run_startable run_serves) as (o & s' & He & Ha & _).
  exists o, s'. split; [exact He|exact Ha].
Defined.

Lemma pages_home_are_logged_witness :
  page.page_lsn (page_at (bp_device Run.final) 1) = 0
  ∨ ∃ r, r ∈ log_in (WalTrace.written (bp_wal Run.final)) ∧ lsn r = page.page_lsn (page_at (bp_device Run.final) 1).
Proof.
  apply (pages_home_are_logged Run.disk Run.log Run.final 1 (WalTrace.written (bp_wal Run.final)) run_startable run_serves).
  - by vm_compute.
  - by vm_compute.
  - apply prefix_app_r. done.
  - done.
Defined.
