(* ===== verification/Columnar.v ===== *)
(** * graphus-columnar: errors and bit packing

    [src/crates/graphus-columnar/src/lib.rs] and [bitpack.rs]. A byte is an [N] below
    256. Indexing a slice out of range panics; a decoder that is handed arbitrary bytes
    must not. The inner loops of [pack] and [unpack] move at least one bit per round, so
    one round more than the width is enough fuel; running out of it would show as a
    panic, which the theorems exclude. *)

From stdpp Require Import options.
From S2P Require Import Prelude Core Bytes.

Inductive ColError :=
  | Truncated (what : string)
  | BadScheme (scheme : N)
  | BadCode (code : N) (dict_len : nat)
  | Corrupt (what : string).

Inductive Res (A : Type) :=
  | ROk (a : A)
  | RErr (e : ColError)
  | RPanic.
Arguments ROk {A} _.
Arguments RErr {A} _.
Arguments RPanic {A}.

#[global] Instance Res_ret : MRet Res := λ A a, ROk a.
#[global] Instance Res_bind : MBind Res := λ A B f m,
  match m with ROk a => f a | RErr e => RErr e | RPanic => RPanic end.
#[global] Instance Res_fmap : FMap Res := λ A B f m,
  match m with ROk a => ROk (f a) | RErr e => RErr e | RPanic => RPanic end.

Module Bitpack.

(** [64 - leading_zeros]. *)
Definition bits_required (max : N) : N := if max =? 0 then 0 else N.size max.

(** The inner loop of [pack]: the low [remaining] bits of [value] from [bit_pos] on. *)
Fixpoint pack_value (fuel : nat) (remaining value : N) (out : bytes) (bit_pos : N) : Res (bytes * N) :=
  match fuel with
  | O => RPanic
  | S fuel =>
      if remaining =? 0 then ROk (out, bit_pos) else
      let byte_idx := N.to_nat (bit_pos / 8) in
      let bit_off := bit_pos mod 8 in
      let free := 8 - bit_off in
      let take := N.min remaining free in
      let mask := if take =? 64 then u64_max else N.shiftl 1 take - 1 in
      let chunk := N.land value mask mod 256 in
      match out !! byte_idx with
      | None => RPanic
      | Some b =>
          pack_value fuel (remaining - take) (N.shiftr value take)
            (<[byte_idx := N.lor b (N.shiftl chunk bit_off mod 256)]> out) (bit_pos + take)
      end
  end.

Fixpoint pack_all (width : N) (values : list N) (out : bytes) (bit_pos : N) : Res bytes :=
  match values with
  | [] => ROk out
  | v :: values =>
      r ← pack_value (S (N.to_nat width)) width v out bit_pos;
      pack_all width values r.1 r.2
  end.

Definition pack (values : list N) (width : N) : Res bytes :=
  if width =? 0 then ROk [] else
  let total_bits := N.of_nat (length values) * width in
  let total_bytes := (total_bits + 7) / 8 in
  pack_all width values (replicate (N.to_nat total_bytes) 0) 0.

Definition MAX_UNPACK_COUNT : N := u32_max.

(** The inner loop of [unpack]: the bits [filled] to [width] of one value. *)
Fixpoint unpack_value (fuel : nat) (bs : bytes) (width filled value bit_pos : N) : Res (N * N) :=
  match fuel with
  | O => RPanic
  | S fuel =>
      if negb (filled <? width) then ROk (value, bit_pos) else
      let byte_idx := N.to_nat (bit_pos / 8) in
      let bit_off := bit_pos mod 8 in
      let free := 8 - bit_off in
      let take := N.min (width - filled) free in
      let mask := (N.shiftl 1 take - 1) mod 256 in
      match bs !! byte_idx with
      | None => RPanic
      | Some b =>
          let chunk := N.land (N.shiftr b bit_off) mask in
          unpack_value fuel bs width (filled + take) (N.lor value (N.shiftl chunk filled mod 2 ^ 64)) (bit_pos + take)
      end
  end.

Fixpoint unpack_all (count : nat) (bs : bytes) (width bit_pos : N) : Res (list N) :=
  match count with
  | O => ROk []
  | S count =>
      r ← unpack_value (S (N.to_nat width)) bs width 0 0 bit_pos;
      rest ← unpack_all count bs width r.2;
      mret (r.1 :: rest)
  end.

Definition saturating_mul_u64 (a b : N) : N := N.min (a * b) u64_max.

Definition unpack (bs : bytes) (count width : N) : Res (list N) :=
  if 64 <? width then RErr (Corrupt "bit-pack width exceeds 64") else
  if width =? 0 then
    if MAX_UNPACK_COUNT <? count then RErr (Truncated "bit-packed values")
    else ROk (replicate (N.to_nat count) 0)
  else
    let total_bits := saturating_mul_u64 count width in
    let needed_bytes := (total_bits + 7) / 8 in
    if blen bs <? needed_bytes then RErr (Truncated "bit-packed values")
    else unpack_all (N.to_nat count) bs width 0.
End Bitpack.

Definition encode_bool (values : list bool) : Res bytes :=
  Bitpack.pack ((λ b : bool, if b then 1 else 0) <$> values) 1.
Definition decode_bool (bs : bytes) (count : N) : Res (list bool) :=
  Bitpack.unpack bs count 1 ≫= λ vs : list N, ROk ((λ b, negb (b =? 0)) <$> vs).

(** ** The bits of a buffer *)
Definition getbit (bs : bytes) (j : N) : bool :=
  match bs !! N.to_nat (j / 8) with Some b => N.testbit b (j mod 8) | None => false end.

Lemma mask_bits take k : N.testbit (N.shiftl 1 take - 1) k = (k <? take).
Proof.
  replace (N.shiftl 1 take - 1) with (N.ones take) by (rewrite N.ones_equiv, N.shiftl_1_l, N.sub_1_r; done).
  destruct (N.ltb_spec k take); [by apply N.ones_spec_low|by apply N.ones_spec_high].
Qed.

Lemma mod_bits n m k : N.testbit (n mod 2 ^ m) k = (k <? m) && N.testbit n k.
Proof.
  destruct (N.ltb_spec k m); [by rewrite N.mod_pow2_bits_low|by rewrite N.mod_pow2_bits_high].
Qed.

Lemma shl_bits n s k : N.testbit (N.shiftl n s) k = (s <=? k) && N.testbit n (k - s).
Proof.
  destruct (N.leb_spec s k); [by rewrite N.shiftl_spec_high'|by rewrite N.shiftl_spec_low].
Qed.

(** The bits written by one round of [pack]. *)
Lemma chunk_bits value take off k : take ≤ 8 →
  N.testbit (N.shiftl (N.land value (if take =? 64 then u64_max else N.shiftl 1 take - 1) mod 256) off mod 256) k
    = (k <? 8) && ((off <=? k) && ((k - off <? take) && N.testbit value (k - off))).
Proof.
  intros Ht. destruct (N.eqb_spec take 64); [lia|]. change 256 with (2 ^ 8).
  rewrite mod_bits, shl_bits, mod_bits, N.land_spec, mask_bits.
  destruct (N.ltb_spec k 8); [|done]. cbn [andb]. destruct (N.leb_spec off k); [|done]. cbn [andb].
  destruct (N.ltb_spec (k - off) take); [|by rewrite !andb_false_r].
  destruct (N.ltb_spec (k - off) 8); [|lia]. cbn [andb]. by rewrite andb_true_r.
Qed.

Lemma byte_pos bit_pos k : k < 8 → bit_pos mod 8 + k < 8 → (bit_pos + k) / 8 = bit_pos / 8 ∧ (bit_pos + k) mod 8 = bit_pos mod 8 + k.
Proof.
  intros Hk Hs. pose proof (N.div_mod bit_pos 8 ltac:(done)) as Hd. pose proof (N.mod_lt bit_pos 8 ltac:(done)).
  assert (He : bit_pos + k = 8 * (bit_pos / 8) + (bit_pos mod 8 + k)) by lia.
  split.
  - symmetry. by apply (N.div_unique _ 8 _ (bit_pos mod 8 + k)).
  - symmetry. by apply (N.mod_unique _ 8 (bit_pos / 8)).
Qed.

(** Setting bits in one byte. *)
Lemma getbit_insert bs i b c j : bs !! i = Some b →
  getbit (<[i := N.lor b c]> bs) j = getbit bs j || (bool_decide (N.to_nat (j / 8) = i) && N.testbit c (j mod 8)).
Proof.
  intros Hb. unfold getbit. case_bool_decide as Hi; cbn [andb].
  - rewrite Hi, list_lookup_insert_eq, Hb by (by eapply lookup_lt_Some). by rewrite N.lor_spec.
  - rewrite list_lookup_insert_ne by done. by rewrite orb_false_r.
Qed.

(** One round of the loop of [pack]. *)
Lemma getbit_round bs value take bit_pos b j : take ≤ 8 - bit_pos mod 8 →
  bs !! N.to_nat (bit_pos / 8) = Some b →
  getbit (<[N.to_nat (bit_pos / 8) := N.lor b (N.shiftl (N.land value (if take =? 64 then u64_max else N.shiftl 1 take - 1) mod 256) (bit_pos mod 8) mod 256)]> bs) j
  = getbit bs j || ((bit_pos <=? j) && (j <? bit_pos + take) && N.testbit value (j - bit_pos)).
Proof.
  intros Ht Hb. assert (Ht8 : take ≤ 8) by (etrans; [exact Ht|apply N.le_sub_l]).
  rewrite getbit_insert by done. f_equal. rewrite chunk_bits by done.
  pose proof (N.div_mod bit_pos 8 ltac:(done)) as Hd. pose proof (N.mod_lt bit_pos 8 ltac:(done)) as Hm.
  pose proof (N.div_mod j 8 ltac:(done)) as Hdj. pose proof (N.mod_lt j 8 ltac:(done)) as Hmj.
  case_bool_decide as Hi; cbn [andb].
  - apply N2Nat.inj in Hi. destruct (N.ltb_spec (j mod 8) 8); [|lia]. cbn [andb].
    destruct (N.leb_spec (bit_pos mod 8) (j mod 8)), (N.leb_spec bit_pos j); try lia; cbn [andb].
    replace (j mod 8 - bit_pos mod 8) with (j - bit_pos) by lia.
    destruct (N.ltb_spec (j - bit_pos) take), (N.ltb_spec j (bit_pos + take)); try lia; done.
  - destruct (N.leb_spec bit_pos j); [|done]. destruct (N.ltb_spec j (bit_pos + take)); [|done]. exfalso. apply Hi. f_equal.
    destruct (byte_pos bit_pos (j - bit_pos)) as [He _]; [lia|lia|]. by replace (bit_pos + (j - bit_pos)) with j in He by lia.
Qed.

Lemma getbit_zeros n j : getbit (replicate n 0) j = false.
Proof. unfold getbit. destruct (replicate n 0 !! _) eqn:He; [|done]. apply lookup_replicate in He as [-> _]. apply N.bits_0. Qed.

Lemma byte_in (bs : bytes) bit_pos : bit_pos < 8 * blen bs → is_Some (bs !! N.to_nat (bit_pos / 8)).
Proof.
  intros Hl. apply lookup_lt_is_Some. unfold blen in Hl.
  assert (bit_pos / 8 < N.of_nat (length bs)) by (apply N.Div0.div_lt_upper_bound; lia). lia.
Qed.

(** [pack_value] sets exactly the bits of the value. *)
Lemma pack_value_spec fuel : ∀ remaining value out bit_pos, (N.to_nat remaining < fuel)%nat →
  bit_pos + remaining ≤ 8 * blen out →
  ∃ out', Bitpack.pack_value fuel remaining value out bit_pos = ROk (out', bit_pos + remaining)
    ∧ length out' = length out
    ∧ ∀ j, getbit out' j = getbit out j || ((bit_pos <=? j) && (j <? bit_pos + remaining) && N.testbit value (j - bit_pos)).
Proof.
  induction fuel as [|fuel IH]; intros remaining value out bit_pos Hf Hlen; [lia|]. cbn [Bitpack.pack_value].
  destruct (N.eqb_spec remaining 0) as [->|Hne].
  { exists out. rewrite N.add_0_r. split_and!; [done|done|]. intros j.
    destruct (N.leb_spec bit_pos j), (N.ltb_spec j bit_pos); try lia; by rewrite orb_false_r. }
  destruct (byte_in out bit_pos ltac:(lia)) as [b Hb]. rewrite Hb. cbn zeta.
  pose proof (N.mod_lt bit_pos 8 ltac:(done)) as Hm.
  set (take := N.min remaining (8 - bit_pos mod 8)). set (out1 := <[_ := _]> out).
  destruct (IH (remaining - take) (N.shiftr value take) out1 (bit_pos + take)) as (out' & -> & Hl & Hbits).
  - unfold take. lia.
  - unfold out1, blen in *. rewrite length_insert. unfold take. lia.
  - exists out'. split_and!; [do 2 f_equal; unfold take; lia|by rewrite Hl; unfold out1; rewrite length_insert|].
    intros j. rewrite Hbits. unfold out1. rewrite getbit_round by (done || (unfold take; lia)).
    rewrite N.shiftr_spec', <- orb_assoc. f_equal.
    destruct (N.leb_spec bit_pos j); cbn [andb].
    + destruct (N.ltb_spec j (bit_pos + take)), (N.leb_spec (bit_pos + take) j); try lia; cbn [andb].
      * destruct (N.ltb_spec j (bit_pos + remaining)); [|unfold take in *; lia]. cbn [andb]. by rewrite orb_false_r.
      * cbn [orb]. replace (bit_pos + take + (remaining - take)) with (bit_pos + remaining) by (unfold take; lia).
        by replace (j - (bit_pos + take) + take) with (j - bit_pos) by lia.
    + destruct (N.leb_spec (bit_pos + take) j); [lia|]. done.
Qed.

(** [pack_all] writes value [i] at the bits from [bit_pos + i * width] on. *)
Lemma pack_all_spec width values : ∀ out bit_pos, bit_pos + N.of_nat (length values) * width ≤ 8 * blen out →
  ∃ out', Bitpack.pack_all width values out bit_pos = ROk out' ∧ length out' = length out
    ∧ (∀ j, j < bit_pos → getbit out' j = getbit out j)
    ∧ ((∀ j, bit_pos ≤ j → getbit out j = false) →
       ∀ i v k, values !! i = Some v → k < width → getbit out' (bit_pos + N.of_nat i * width + k) = N.testbit v k).
Proof.
  induction values as [|v values IH]; intros out bit_pos Hlen; cbn [Bitpack.pack_all].
  { exists out. split_and!; done. }
  cbn [length] in Hlen. rewrite Nat2N.inj_succ in Hlen.
  destruct (pack_value_spec (S (N.to_nat width)) width v out bit_pos) as (out1 & He & Hl1 & Hb1); [lia|lia|].
  unfold mbind, Res_bind. rewrite He. cbn [fst snd].
  destruct (IH out1 (bit_pos + width)) as (out' & -> & Hl' & Hlow & Hval); [unfold blen in *; rewrite Hl1; lia|].
  exists out'. split_and!; [done|by rewrite Hl'| |].
  - intros j Hj. rewrite Hlow, Hb1 by lia. destruct (N.leb_spec bit_pos j); [lia|]. apply orb_false_r.
  - intros Hz [|i] v' k Hi Hk.
    + injection Hi as <-. change (N.of_nat 0 * width) with 0. rewrite N.add_0_r, Hlow, Hb1, Hz by lia.
      destruct (N.leb_spec bit_pos (bit_pos + k)), (N.ltb_spec (bit_pos + k) (bit_pos + width)); try lia.
      cbn [andb orb]. f_equal. lia.
    + rewrite Nat2N.inj_succ. replace (bit_pos + N.succ (N.of_nat i) * width + k) with (bit_pos + width + N.of_nat i * width + k) by lia.
      apply Hval; [|done|done]. intros j Hj. rewrite Hb1, Hz by lia.
      destruct (N.ltb_spec j (bit_pos + width)); [lia|]. by rewrite andb_false_r.
Qed.

Lemma ceil8 n : n ≤ 8 * ((n + 7) / 8).
Proof. pose proof (N.div_mod (n + 7) 8 ltac:(done)). pose proof (N.mod_lt (n + 7) 8 ltac:(done)). lia. Qed.

Lemma ceil8_le n m : n ≤ 8 * m → (n + 7) / 8 ≤ m.
Proof. intros Hn. apply N.lt_succ_r. apply N.Div0.div_lt_upper_bound. lia. Qed.

Lemma pack_spec values width : 0 < width →
  ∃ out, Bitpack.pack values width = ROk out ∧ blen out = (N.of_nat (length values) * width + 7) / 8
    ∧ ∀ i v k, values !! i = Some v → k < width → getbit out (N.of_nat i * width + k) = N.testbit v k.
Proof.
  intros Hw. unfold Bitpack.pack. destruct (N.eqb_spec width 0); [lia|].
  set (bits := N.of_nat (length values) * width).
  destruct (pack_all_spec width values (replicate (N.to_nat ((bits + 7) / 8)) 0) 0) as (out & -> & Hl & _ & Hv).
  { unfold blen. rewrite length_replicate, N2Nat.id. apply ceil8. }
  exists out. split_and!; [done|unfold blen; rewrite Hl, length_replicate; lia|].
  intros i v k Hi Hk. rewrite <- (Hv (λ j _, getbit_zeros _ j) i v k Hi Hk). f_equal.
Qed.

(** ** Unpacking *)
Lemma unpack_value_spec fuel : ∀ bs width filled value bit_pos, (N.to_nat (width - filled) < fuel)%nat → width ≤ 64 →
  bit_pos + (width - filled) ≤ 8 * blen bs →
  ∃ value', Bitpack.unpack_value fuel bs width filled value bit_pos = ROk (value', bit_pos + (width - filled))
    ∧ ∀ k, N.testbit value' k = N.testbit value k || ((filled <=? k) && (k <? width) && getbit bs (bit_pos + (k - filled))).
Proof.
  induction fuel as [|fuel IH]; intros bs width filled value bit_pos Hf Hw Hlen; [lia|]. cbn [Bitpack.unpack_value].
  destruct (N.ltb_spec filled width) as [Hlt|Hge]; cbn [negb].
  2:{ exists value. replace (width - filled) with 0 by lia. rewrite N.add_0_r. split; [done|]. intros k.
      destruct (N.leb_spec filled k), (N.ltb_spec k width); try lia; by rewrite orb_false_r. }
  destruct (byte_in bs bit_pos ltac:(lia)) as [b Hb]. rewrite Hb. cbn zeta.
  pose proof (N.mod_lt bit_pos 8 ltac:(done)) as Hm. pose proof (N.le_0_l (bit_pos mod 8)) as Hm0.
  set (take := N.min (width - filled) (8 - bit_pos mod 8)). set (chunk := N.land _ _).
  assert (Htake : 0 < take ≤ 8 - bit_pos mod 8 ∧ take ≤ width - filled) by (unfold take; lia).
  assert (Hchunk : ∀ k, N.testbit chunk k = (k <? take) && getbit bs (bit_pos + k)).
  { intros k. unfold chunk. rewrite N.land_spec, N.shiftr_spec'. change 256 with (2 ^ 8). rewrite mod_bits, mask_bits.
    destruct (N.ltb_spec k take); [|by rewrite !andb_false_r]. destruct (N.ltb_spec k 8); [|lia]. cbn [andb]. rewrite andb_true_r.
    unfold getbit. destruct (byte_pos bit_pos k) as [-> ->]; [lia|lia|]. rewrite Hb. f_equal. lia. }
  destruct (IH bs width (filled + take) (N.lor value (N.shiftl chunk filled mod 2 ^ 64)) (bit_pos + take)) as (value' & -> & Hbits); [lia|done|lia|].
  exists value'. split; [do 2 f_equal; lia|]. intros k. rewrite Hbits, N.lor_spec, mod_bits, shl_bits, Hchunk, <- orb_assoc. f_equal.
  destruct (N.leb_spec filled k) as [Hk|Hk]; cbn [andb].
  - destruct (N.ltb_spec (k - filled) take), (N.leb_spec (filled + take) k); try lia; cbn [andb].
    + rewrite orb_false_r. destruct (N.ltb_spec k 64), (N.ltb_spec k width); try lia; done.
    + rewrite andb_false_r. cbn [orb]. by replace (bit_pos + take + (k - (filled + take))) with (bit_pos + (k - filled)) by lia.
  - destruct (N.leb_spec (filled + take) k); [lia|]. by rewrite andb_false_r.
Qed.

Lemma unpack_all_spec count : ∀ bs width bit_pos, width ≤ 64 → bit_pos + N.of_nat count * width ≤ 8 * blen bs →
  ∃ vs, Bitpack.unpack_all count bs width bit_pos = ROk vs ∧ length vs = count
    ∧ ∀ i v k, vs !! i = Some v → N.testbit v k = (k <? width) && getbit bs (bit_pos + N.of_nat i * width + k).
Proof.
  induction count as [|count IH]; intros bs width bit_pos Hw Hlen; cbn [Bitpack.unpack_all].
  { exists []. split_and!; done. }
  rewrite Nat2N.inj_succ in Hlen.
  destruct (unpack_value_spec (S (N.to_nat width)) bs width 0 0 bit_pos) as (v & He & Hv); [lia|lia|lia|].
  unfold mbind, Res_bind. rewrite He. cbn [fst snd].
  destruct (IH bs width (bit_pos + (width - 0))) as (vs & -> & Hl & Hvs); [done|lia|].
  exists (v :: vs). split_and!; [done|cbn; lia|]. intros [|i] v' k Hi.
  - injection Hi as <-. rewrite Hv, N.bits_0. change (N.of_nat 0 * width) with 0. rewrite N.add_0_r.
    destruct (N.leb_spec 0 k); [|lia]. cbn [andb orb]. by replace (bit_pos + (k - 0)) with (bit_pos + k) by lia.
  - rewrite (Hvs i v' k Hi). f_equal. f_equal. lia.
Qed.

(** What [unpack] answers on any bytes: an error, or [count] values of the width. *)
Lemma unpack_total bs count width : blen bs < 2 ^ 61 →
  match Bitpack.unpack bs count width with
  | ROk vs => width ≤ 64 ∧ length vs = N.to_nat count
      ∧ if decide (width = 0) then vs = replicate (N.to_nat count) 0
        else ∀ i v k, vs !! i = Some v → N.testbit v k = (k <? width) && getbit bs (N.of_nat i * width + k)
  | RErr _ => 64 < width ∨ width = 0 ∧ u32_max < count ∨ 8 * blen bs < count * width
  | RPanic => False
  end.
Proof.
  intros Hlen. unfold Bitpack.unpack. destruct (N.ltb_spec 64 width); [by left|].
  destruct (N.eqb_spec width 0) as [->|Hw].
  { unfold Bitpack.MAX_UNPACK_COUNT. destruct (N.ltb_spec u32_max count); [by right; left|].
    rewrite length_replicate, decide_True by done. split_and!; [lia|done|done]. }
  cbn zeta. unfold Bitpack.saturating_mul_u64.
  destruct (N.ltb_spec (blen bs) ((N.min (count * width) u64_max + 7) / 8)) as [Hlt|Hge].
  { right; right. apply N.nle_gt. intros Hle. apply N.lt_nge in Hlt. apply Hlt. apply ceil8_le. lia. }
  assert (Hb : count * width ≤ 8 * blen bs).
  { pose proof (ceil8 (N.min (count * width) u64_max)) as Hc. change (2 ^ 61) with 2305843009213693952 in Hlen.
    unfold u64_max in *. change (2 ^ 64 - 1) with 18446744073709551615 in *. lia. }
  destruct (unpack_all_spec (N.to_nat count) bs width 0) as (vs & -> & Hl & Hv); [done|lia|].
  rewrite decide_False by done. split_and!; [done|done|]. intros i v k Hi. rewrite (Hv i v k Hi). done.
Qed.

Lemma bits_required_bound v max : v ≤ max → v < 2 ^ Bitpack.bits_required max.
Proof.
  intros Hv. unfold Bitpack.bits_required. destruct (N.eqb_spec max 0); [subst; cbn; lia|].
  eapply N.le_lt_trans; [exact Hv|]. apply N.size_gt.
Qed.

Lemma bits_required_le max : max ≤ u64_max → Bitpack.bits_required max ≤ 64.
Proof.
  intros Hm. unfold Bitpack.bits_required. destruct (N.eqb_spec max 0); [lia|]. rewrite N.size_log2 by done.
  assert (N.log2 max < 64); [|lia]. apply N.log2_lt_pow2; [lia|]. unfold u64_max in Hm. lia.
Qed.

Lemma testbit_high v width k : v < 2 ^ width → width ≤ k → N.testbit v k = false.
Proof.
  intros Hv Hk. destruct (N.eq_dec v 0) as [->|Hne]; [apply N.bits_0|]. apply N.bits_above_log2.
  apply N.log2_lt_pow2; [lia|]. eapply N.lt_le_trans; [exact Hv|]. by apply N.pow_le_mono_r.
Qed.

(** Unpacking what was packed. *)
Lemma unpack_pack values width : width ≤ 64 → Forall (λ v, v < 2 ^ width) values →
  N.of_nat (length values) ≤ u32_max →
  ∃ bs, Bitpack.pack values width = ROk bs ∧ blen bs = (N.of_nat (length values) * width + 7) / 8
    ∧ Bitpack.unpack bs (N.of_nat (length values)) width = ROk values.
Proof.
  intros Hw Hv Hlen. rewrite Forall_forall in Hv. destruct (decide (width = 0)) as [->|Hne].
  { exists []. split_and!; [done|by rewrite N.mul_0_r|]. unfold Bitpack.unpack. cbn [N.ltb N.eqb].
    destruct (N.ltb_spec Bitpack.MAX_UNPACK_COUNT (N.of_nat (length values))) as [Hlt|_]; [unfold Bitpack.MAX_UNPACK_COUNT in Hlt; lia|].
    change (64 <? 0) with false. change (0 =? 0) with true. cbn iota. f_equal. symmetry. rewrite Nat2N.id.
    apply list_eq. intros i. destruct (values !! i) as [v|] eqn:Hi.
    - symmetry. apply lookup_replicate. split; [|by eapply lookup_lt_Some]. specialize (Hv v ltac:(by eapply list_elem_of_lookup_2)). cbn in Hv. lia.
    - symmetry. apply lookup_ge_None. rewrite length_replicate. by apply lookup_ge_None. }
  destruct (pack_spec values width ltac:(lia)) as (bs & Hp & Hl & Hbits). exists bs. split_and!; [done|done|].
  assert (Hsmall : blen bs < 2 ^ 61).
  { rewrite Hl. apply N.Div0.div_lt_upper_bound. change (2 ^ 61) with 2305843009213693952. unfold u32_max in Hlen.
    change (2 ^ 32 - 1) with 4294967295 in Hlen. nia. }
  pose proof (unpack_total bs (N.of_nat (length values)) width Hsmall) as Hu.
  destruct (Bitpack.unpack bs (N.of_nat (length values)) width) as [vs|e|]; [| |done].
  - destruct Hu as (_ & Hlv & Hvs). rewrite decide_False in Hvs by done. rewrite Nat2N.id in Hlv. f_equal.
    apply list_eq. intros i. destruct (vs !! i) as [v|] eqn:Hi.
    + destruct (lookup_lt_is_Some_2 values i) as [v' Hi']; [rewrite <- Hlv; by eapply lookup_lt_Some|]. rewrite Hi'. f_equal.
      apply N.bits_inj. intros k. rewrite (Hvs i v k Hi). destruct (N.ltb_spec k width).
      * by rewrite (Hbits i v' k Hi').
      * symmetry. cbn [andb]. apply testbit_high with width; [|done]. apply Hv. by eapply list_elem_of_lookup_2.
    + symmetry. apply lookup_ge_None. rewrite <- Hlv. by apply lookup_ge_None.
  - exfalso. pose proof (ceil8 (N.of_nat (length values) * width)). rewrite <- Hl in *. lia.
Qed.
