(* ===== verification/ColInteger.v ===== *)
(** * graphus-columnar: the integer column codec

    [src/crates/graphus-columnar/src/integer.rs]: frame of reference, delta and double
    delta, each over bit-packed residuals, with the smallest kept. An [i64] is a [Z] with
    the wrap-around of the source written out, a [u64] an [N]. *)

From stdpp Require Import options.
From S2P Require Import Prelude Core Bytes Columnar.

Module ColInt.
Definition FOR : N := 0.
Definition DELTA : N := 1.
Definition DOUBLE_DELTA : N := 2.

Definition zigzag (n : Z) : N := as_u64 (Z.lxor (wrap_i64 (Z.shiftl n 1)) (Z.shiftr n 63)).
Definition unzigzag (z : N) : Z := Z.lxor (as_i64 (N.shiftr z 1)) (wrap_i64 (- as_i64 (N.land z 1))).

Definition min_or_0 (vals : list N) : N := match list_min vals with Some m => m | None => 0 end.
Definition max_or_0 (vals : list N) : N := foldr N.max 0 vals.

(** [(min, width, payload)]. *)
Definition for_pack (vals : list N) : Res (N * N * bytes) :=
  let min := min_or_0 vals in
  let max_off := max_or_0 ((λ v, v - min) <$> vals) in
  let width := Bitpack.bits_required max_off in
  let offs := (λ v, v - min) <$> vals in
  Bitpack.pack offs width ≫= λ payload : bytes, ROk (min, width, payload).

Definition for_unpack (min width : N) (payload : bytes) (count : N) : Res (list N) :=
  Bitpack.unpack payload count width ≫= λ os : list N, ROk ((λ o, wrapping_add_u64 min o) <$> os).

Definition put_u64 (v : N) : bytes := to_le_bytes 8 v.
Definition get_u64 (b : bytes) (at_ : nat) (what : string) : Res N :=
  match slice b at_ 8 with Some s => ROk (from_le_bytes s) | None => RErr (Truncated what) end.
Definition get_width (b : bytes) (at_ : nat) : Res N :=
  match b !! at_ with Some w => ROk w | None => RErr (Truncated "bit width") end.

(** The consecutive differences of a column. *)
Fixpoint deltas (values : list Z) : list Z :=
  match values with
  | a :: (b :: _) as rest => wrapping_sub_i64 b a :: deltas rest
  | _ => []
  end.

Definition encode_for (values : list Z) : Res bytes :=
  for_pack (as_u64 <$> values) ≫= λ '((min, width, payload) : N * N * bytes),
  ROk ([FOR] ++ put_u64 min ++ [width mod 256] ++ payload).

Definition encode_delta (values : list Z) : Res bytes :=
  match values with
  | [] => RPanic
  | first :: _ =>
      for_pack (zigzag <$> deltas values) ≫= λ '((min, width, payload) : N * N * bytes),
      ROk ([DELTA] ++ put_u64 (as_u64 first) ++ put_u64 min ++ [width mod 256] ++ payload)
  end.

Definition encode_double_delta (values : list Z) : Res bytes :=
  match values with
  | [] => RPanic
  | first :: _ =>
      let d1 := match values with a :: b :: _ => wrapping_sub_i64 b a | _ => 0%Z end in
      for_pack (zigzag <$> deltas (deltas values)) ≫= λ '((min, width, payload) : N * N * bytes),
      ROk ([DOUBLE_DELTA] ++ put_u64 (as_u64 first) ++ put_u64 (as_u64 d1) ++ put_u64 min ++ [width mod 256] ++ payload)
  end.

(** [min_by_key(Vec::len)]: the first of the shortest. *)
Definition shortest (a b c : bytes) : bytes :=
  let ab := if blen b <? blen a then b else a in
  if blen c <? blen ab then c else ab.

Definition encode_i64 (values : list Z) : Res bytes :=
  match values with
  | [] => ROk [FOR; 0; 0; 0; 0; 0; 0; 0; 0; 0]
  | [_] => encode_for values
  | _ =>
      encode_for values ≫= λ a : bytes,
      encode_delta values ≫= λ b : bytes,
      encode_double_delta values ≫= λ c : bytes,
      ROk (shortest a b c)
  end.

Fixpoint undelta (cur : Z) (zz : list N) : list Z :=
  match zz with
  | [] => []
  | z :: zz => let cur := wrapping_add_i64 cur (unzigzag z) in cur :: undelta cur zz
  end.

Fixpoint undouble (cur delta : Z) (zz : list N) : list Z :=
  match zz with
  | [] => []
  | z :: zz =>
      let delta := wrapping_add_i64 delta (unzigzag z) in
      let cur := wrapping_add_i64 cur delta in
      cur :: undouble cur delta zz
  end.

Definition decode_i64 (bs : bytes) (count : N) : Res (list Z) :=
  if count =? 0 then ROk [] else
  match bs with
  | [] => RErr (Truncated "integer scheme byte")
  | scheme :: _ =>
      if scheme =? FOR then
        get_u64 bs 1 "FOR min" ≫= λ min : N,
        get_width bs 9 ≫= λ width : N,
        for_unpack min width (drop 10 bs) count ≫= λ us : list N,
        ROk (as_i64 <$> us)
      else if scheme =? DELTA then
        get_u64 bs 1 "Delta first" ≫= λ first : N,
        get_u64 bs 9 "Delta min" ≫= λ min : N,
        get_width bs 17 ≫= λ width : N,
        for_unpack min width (drop 18 bs) (count - 1) ≫= λ zz : list N,
        ROk (as_i64 first :: undelta (as_i64 first) zz)
      else if scheme =? DOUBLE_DELTA then
        get_u64 bs 1 "Double-Delta first" ≫= λ first : N,
        get_u64 bs 9 "Double-Delta d1" ≫= λ d1 : N,
        get_u64 bs 17 "Double-Delta min" ≫= λ min : N,
        get_width bs 25 ≫= λ width : N,
        for_unpack min width (drop 26 bs) (count - 2) ≫= λ zz : list N,
        ROk (as_i64 first ::
             (if 2 <=? count
              then let cur := wrapping_add_i64 (as_i64 first) (as_i64 d1) in cur :: undouble cur (as_i64 d1) zz
              else []))
      else RErr (BadScheme scheme)
  end.
End ColInt.
Import ColInt.

(** ** Machine arithmetic *)
Lemma wrap_small z : is_i64 z → wrap_i64 z = z.
Proof. unfold is_i64, wrap_i64. intros Hz. rewrite Z.mod_small; lia. Qed.

Lemma wrap_range z : is_i64 (wrap_i64 z).
Proof. unfold is_i64, wrap_i64. pose proof (Z.mod_pos_bound (z + 2 ^ 63) (2 ^ 64) ltac:(lia)). lia. Qed.

Lemma wrap_cong a b : (a mod 2 ^ 64 = b mod 2 ^ 64)%Z → wrap_i64 a = wrap_i64 b.
Proof. intros Hab. unfold wrap_i64. rewrite (Z.add_mod a), (Z.add_mod b), Hab by lia. done. Qed.

Lemma wrap_mod z : (wrap_i64 z mod 2 ^ 64 = z mod 2 ^ 64)%Z.
Proof.
  unfold wrap_i64. rewrite Zminus_mod_idemp_l. f_equal. lia.
Qed.

Lemma as_i64_as_u64 z : is_i64 z → as_i64 (as_u64 z) = z.
Proof.
  intros Hz. unfold as_i64, as_u64. rewrite Z2N.id by (apply Z.mod_pos_bound; lia).
  rewrite (wrap_cong (z mod 2 ^ 64) z) by (by rewrite Z.mod_mod by lia). by apply wrap_small.
Qed.

Lemma as_u64_le z : as_u64 z ≤ u64_max.
Proof. unfold as_u64, u64_max. pose proof (Z.mod_pos_bound z (2 ^ 64) ltac:(lia)). lia. Qed.

Lemma add_sub_wrap a b : is_i64 b → wrapping_add_i64 a (wrapping_sub_i64 b a) = b.
Proof.
  intros Hb. unfold wrapping_add_i64, wrapping_sub_i64. rewrite <- (wrap_small b) at 2 by done. apply wrap_cong.
  rewrite <- Zplus_mod_idemp_r, wrap_mod, Zplus_mod_idemp_r. f_equal. lia.
Qed.

Lemma shiftr_63 n : is_i64 n → Z.shiftr n 63 = if (n <? 0)%Z then (-1)%Z else 0%Z.
Proof.
  unfold is_i64. intros Hn. rewrite Z.shiftr_div_pow2 by lia. destruct (Z.ltb_spec n 0).
  - symmetry. apply (Z.div_unique_pos n (2 ^ 63) (-1) (n + 2 ^ 63)); lia.
  - apply Z.div_small. lia.
Qed.

Lemma zigzag_spec n : is_i64 n → zigzag n = Z.to_N (if (n <? 0)%Z then - (2 * n) - 1 else 2 * n)%Z.
Proof.
  intros Hn. unfold zigzag, as_u64. rewrite shiftr_63 by done. rewrite Z.shiftl_mul_pow2 by lia. change (2 ^ 1)%Z with 2%Z.
  f_equal. unfold is_i64 in Hn. destruct (Z.ltb_spec n 0).
  - rewrite Z.lxor_m1_r. unfold Z.lnot.
    replace (Z.pred (- wrap_i64 (n * 2)))%Z with (-1 - wrap_i64 (n * 2))%Z by lia.
    rewrite <- Zminus_mod_idemp_r, wrap_mod, Zminus_mod_idemp_r. rewrite Z.mod_small; lia.
  - rewrite Z.lxor_0_r, wrap_mod, Z.mod_small; lia.
Qed.

Lemma zigzag_le n : zigzag n ≤ u64_max.
Proof. apply as_u64_le. Qed.

Lemma unzigzag_zigzag n : is_i64 n → unzigzag (zigzag n) = n.
Proof.
  intros Hn. rewrite zigzag_spec by done. unfold unzigzag. unfold is_i64 in Hn.
  assert (Hland : ∀ z, N.land z 1 = z mod 2) by (intros z; apply (N.land_ones z 1)).
  rewrite Hland, N.shiftr_div_pow2. change (2 ^ 1) with 2. destruct (Z.ltb_spec n 0).
  - set (m := Z.to_N (- n - 1)%Z). replace (Z.to_N (- (2 * n) - 1)) with (2 * m + 1) by lia.
    assert ((2 * m + 1) / 2 = m) as -> by (symmetry; apply (N.div_unique _ 2 m 1); lia).
    assert ((2 * m + 1) mod 2 = 1) as -> by (symmetry; apply (N.mod_unique _ 2 m 1); lia).
    change (wrap_i64 (- as_i64 1)) with (-1)%Z. rewrite Z.lxor_m1_r. unfold as_i64. rewrite wrap_small; unfold is_i64, Z.lnot; lia.
  - set (m := Z.to_N n). replace (Z.to_N (2 * n)) with (2 * m + 0) by lia.
    assert ((2 * m + 0) / 2 = m) as -> by (symmetry; apply (N.div_unique _ 2 m 0); lia).
    assert ((2 * m + 0) mod 2 = 0) as -> by (symmetry; apply (N.mod_unique _ 2 m 0); lia).
    change (wrap_i64 (- as_i64 0)) with 0%Z. rewrite Z.lxor_0_r. unfold as_i64. rewrite wrap_small; unfold is_i64; lia.
Qed.

(** ** Frame of reference *)
Lemma min_or_0_le vals v : v ∈ vals → min_or_0 vals ≤ v.
Proof.
  intros Hv. unfold min_or_0. destruct (list_min vals) as [m|] eqn:Hm.
  - apply list_min_Some in Hm as [_ Hle]. auto.
  - lia.
Qed.

Lemma min_or_0_bound vals b : Forall (λ v, v ≤ b) vals → min_or_0 vals ≤ b.
Proof.
  intros Hb. rewrite Forall_forall in Hb. unfold min_or_0. destruct (list_min vals) as [m|] eqn:Hm; [|lia].
  apply list_min_Some in Hm as [Hin _]. auto.
Qed.

Lemma max_or_0_ge vals v : v ∈ vals → v ≤ max_or_0 vals.
Proof. induction vals as [|w vals IH]; [by intros ?%elem_of_nil|]. intros [->|Hv]%elem_of_cons; cbn; [lia|]. specialize (IH Hv). unfold max_or_0 in IH. lia. Qed.

Lemma max_or_0_bound vals b : Forall (λ v, v ≤ b) vals → max_or_0 vals ≤ b.
Proof. induction 1 as [|v vals Hv _ IH]; cbn; [lia|]. unfold max_or_0 in IH. lia. Qed.

Lemma for_roundtrip vals : Forall (λ v, v ≤ u64_max) vals → N.of_nat (length vals) ≤ u32_max →
  ∃ min width payload, for_pack vals = ROk (min, width, payload) ∧ min ≤ u64_max ∧ width ≤ 64
    ∧ for_unpack min width payload (N.of_nat (length vals)) = ROk vals.
Proof.
  intros Hv Hlen. unfold for_pack. set (min := min_or_0 vals). set (offs := (λ v, v - min) <$> vals).
  assert (Hoffs : Forall (λ v, v ≤ u64_max) offs).
  { unfold offs. apply Forall_fmap. eapply Forall_impl; [exact Hv|]. cbn. lia. }
  set (width := Bitpack.bits_required (max_or_0 offs)).
  assert (Hw : width ≤ 64) by (apply bits_required_le, max_or_0_bound, Hoffs).
  destruct (unpack_pack offs width) as (payload & Hp & _ & Hu); [done| |unfold offs; by rewrite length_fmap|].
  { apply Forall_forall. intros v Hin. apply bits_required_bound. by apply max_or_0_ge. }
  exists min, width, payload. unfold mbind, Res_bind. rewrite Hp.
  split_and!; [done|by apply min_or_0_bound|done|]. unfold for_unpack, mbind, Res_bind.
  replace (length vals) with (length offs) by (unfold offs; by rewrite length_fmap). rewrite Hu. f_equal.
  unfold offs. rewrite <- list_fmap_compose. rewrite <- (list_fmap_id vals) at 2.
  apply list_fmap_ext. intros i v Hi%list_elem_of_lookup_2. cbn. rewrite Forall_forall in Hv. specialize (Hv v Hi).
  pose proof (min_or_0_le vals v Hi) as Hle. fold min in Hle. unfold wrapping_add_u64, u64_max in *.
  rewrite N.mod_small; lia.
Qed.

(** Reading the fields of a blob. *)
Lemma get_u64_app pre v post what : v ≤ u64_max → get_u64 (pre ++ put_u64 v ++ post) (length pre) what = ROk v.
Proof.
  intros Hv. unfold get_u64, slice, put_u64. rewrite bool_decide_eq_true_2 by (rewrite !length_app, to_le_bytes_length; lia).
  rewrite drop_app_length, take_app_length' by (by rewrite to_le_bytes_length). f_equal. apply from_to_le_bytes.
  unfold u64_max in Hv. change (256 ^ N.of_nat 8) with (2 ^ 64). lia.
Qed.

Lemma get_width_app pre w post : w ≤ 64 → get_width (pre ++ [w mod 256] ++ post) (length pre) = ROk w.
Proof.
  intros Hw. unfold get_width. change ([w mod 256] ++ post) with (w mod 256 :: post).
  rewrite list_lookup_middle by done. by rewrite N.mod_small by lia.
Qed.

Lemma undelta_deltas first rest : Forall is_i64 (first :: rest) →
  undelta first (zigzag <$> deltas (first :: rest)) = rest.
Proof.
  revert first. induction rest as [|v rest IH]; intros first Hall; [done|].
  apply Forall_cons in Hall as [Hf Hr]. pose proof Hr as [Hv _]%Forall_cons.
  change (deltas (first :: v :: rest)) with (wrapping_sub_i64 v first :: deltas (v :: rest)).
  rewrite fmap_cons. cbn [undelta]. rewrite unzigzag_zigzag by apply wrap_range. rewrite add_sub_wrap by done.
  by rewrite IH.
Qed.

Lemma undouble_deltas a b rest : Forall is_i64 (a :: b :: rest) →
  undouble b (wrapping_sub_i64 b a) (zigzag <$> deltas (deltas (a :: b :: rest))) = rest.
Proof.
  revert a b. induction rest as [|c rest IH]; intros a b Hall; [done|].
  apply Forall_cons in Hall as [Ha Hr]. pose proof Hr as [Hb [Hc _]%Forall_cons]%Forall_cons.
  change (deltas (deltas (a :: b :: c :: rest)))
    with (wrapping_sub_i64 (wrapping_sub_i64 c b) (wrapping_sub_i64 b a) :: deltas (deltas (b :: c :: rest))).
  rewrite fmap_cons. cbn [undouble]. rewrite unzigzag_zigzag by apply wrap_range.
  rewrite (add_sub_wrap (wrapping_sub_i64 b a)) by apply wrap_range. rewrite add_sub_wrap by done. by rewrite IH.
Qed.

Lemma deltas_length values : length (deltas values) = (length values - 1)%nat.
Proof.
  induction values as [|a values IH]; [done|]. destruct values as [|b values]; [done|].
  change (deltas (a :: b :: values)) with (wrapping_sub_i64 b a :: deltas (b :: values)). cbn [length] in *. lia.
Qed.

(** ** The three schemes *)
Lemma nonempty_count (values : list Z) : values ≠ [] → (N.of_nat (length values) =? 0) = false.
Proof. intros Hne. destruct values; [done|]. apply N.eqb_neq. cbn [length]. lia. Qed.

Lemma decode_for values : Forall is_i64 values → N.of_nat (length values) ≤ u32_max → values ≠ [] →
  ∃ bs, encode_for values = ROk bs ∧ decode_i64 bs (N.of_nat (length values)) = ROk values.
Proof.
  intros Hv Hlen Hne. destruct (for_roundtrip (as_u64 <$> values)) as (min & width & payload & Hp & Hm & Hw & Hu).
  { apply Forall_fmap. eapply Forall_true. intros z. apply as_u64_le. }
  { by rewrite length_fmap. }
  rewrite length_fmap in Hu. unfold encode_for, mbind, Res_bind. rewrite Hp. eexists. split; [done|].
  set (bs := [FOR] ++ put_u64 min ++ [width mod 256] ++ payload).
  assert (H1 : get_u64 bs 1 "FOR min" = ROk min) by exact (get_u64_app [FOR] min _ _ Hm).
  assert (H2 : get_width bs 9 = ROk width) by exact (get_width_app ([FOR] ++ put_u64 min) width payload Hw).
  unfold decode_i64. rewrite nonempty_count by done. change bs with (FOR :: drop 1 bs) at 1. cbn iota.
  change (FOR =? FOR) with true. cbn iota. unfold mbind, Res_bind. rewrite H1, H2.
  change (drop 10 bs) with payload. rewrite Hu. f_equal. rewrite <- list_fmap_compose.
  rewrite <- (list_fmap_id values) at 2. apply list_fmap_ext. intros i z Hz%list_elem_of_lookup_2.
  rewrite Forall_forall in Hv. apply as_i64_as_u64. auto.
Qed.

Lemma decode_delta values : Forall is_i64 values → N.of_nat (length values) ≤ u32_max → values ≠ [] →
  ∃ bs, encode_delta values = ROk bs ∧ decode_i64 bs (N.of_nat (length values)) = ROk values.
Proof.
  intros Hv Hlen Hne. destruct (for_roundtrip (zigzag <$> deltas values)) as (min & width & payload & Hp & Hm & Hw & Hu).
  { apply Forall_fmap. eapply Forall_true. intros z. apply zigzag_le. }
  { rewrite length_fmap, deltas_length. lia. }
  rewrite length_fmap, deltas_length in Hu. destruct values as [|first rest]; [done|].
  unfold encode_delta, mbind, Res_bind. rewrite Hp. eexists. split; [done|].
  set (bs := [DELTA] ++ put_u64 (as_u64 first) ++ put_u64 min ++ [width mod 256] ++ payload).
  assert (H1 : get_u64 bs 1 "Delta first" = ROk (as_u64 first)) by exact (get_u64_app [DELTA] _ _ _ (as_u64_le first)).
  assert (H2 : get_u64 bs 9 "Delta min" = ROk min) by exact (get_u64_app ([DELTA] ++ put_u64 (as_u64 first)) _ _ _ Hm).
  assert (H3 : get_width bs 17 = ROk width)
    by exact (get_width_app ([DELTA] ++ put_u64 (as_u64 first) ++ put_u64 min) width payload Hw).
  unfold decode_i64. rewrite nonempty_count by done. change bs with (DELTA :: drop 1 bs) at 1. cbn iota.
  change (DELTA =? FOR) with false. change (DELTA =? DELTA) with true. cbn iota. unfold mbind, Res_bind. rewrite H1, H2, H3.
  change (drop 18 bs) with payload. replace (N.of_nat (length (first :: rest)) - 1) with (N.of_nat (length (first :: rest) - 1)) by lia.
  rewrite Hu. rewrite as_i64_as_u64 by (by apply Forall_cons in Hv as [? _]). by rewrite undelta_deltas.
Qed.

Lemma decode_double_delta values : Forall is_i64 values → N.of_nat (length values) ≤ u32_max → (2 ≤ length values)%nat →
  ∃ bs, encode_double_delta values = ROk bs ∧ decode_i64 bs (N.of_nat (length values)) = ROk values.
Proof.
  intros Hv Hlen Hge. destruct (for_roundtrip (zigzag <$> deltas (deltas values))) as (min & width & payload & Hp & Hm & Hw & Hu).
  { apply Forall_fmap. eapply Forall_true. intros z. apply zigzag_le. }
  { rewrite length_fmap, !deltas_length. lia. }
  rewrite length_fmap, !deltas_length in Hu. destruct values as [|a [|b rest]]; [cbn in Hge; lia|cbn in Hge; lia|].
  unfold encode_double_delta, mbind, Res_bind. rewrite Hp. eexists. split; [done|]. set (d1 := wrapping_sub_i64 b a).
  set (bs := [DOUBLE_DELTA] ++ put_u64 (as_u64 a) ++ put_u64 (as_u64 d1) ++ put_u64 min ++ [width mod 256] ++ payload).
  assert (H1 : get_u64 bs 1 "Double-Delta first" = ROk (as_u64 a)) by exact (get_u64_app [DOUBLE_DELTA] _ _ _ (as_u64_le a)).
  assert (H2 : get_u64 bs 9 "Double-Delta d1" = ROk (as_u64 d1))
    by exact (get_u64_app ([DOUBLE_DELTA] ++ put_u64 (as_u64 a)) _ _ _ (as_u64_le d1)).
  assert (H3 : get_u64 bs 17 "Double-Delta min" = ROk min)
    by exact (get_u64_app ([DOUBLE_DELTA] ++ put_u64 (as_u64 a) ++ put_u64 (as_u64 d1)) _ _ _ Hm).
  assert (H4 : get_width bs 25 = ROk width)
    by exact (get_width_app ([DOUBLE_DELTA] ++ put_u64 (as_u64 a) ++ put_u64 (as_u64 d1) ++ put_u64 min) width payload Hw).
  unfold decode_i64. rewrite nonempty_count by done. change bs with (DOUBLE_DELTA :: drop 1 bs) at 1. cbn iota.
  change (DOUBLE_DELTA =? FOR) with false. change (DOUBLE_DELTA =? DELTA) with false. change (DOUBLE_DELTA =? DOUBLE_DELTA) with true.
  cbn iota. unfold mbind, Res_bind. rewrite H1, H2, H3, H4. change (drop 26 bs) with payload.
  replace (N.of_nat (length (a :: b :: rest)) - 2) with (N.of_nat (length (a :: b :: rest) - 1 - 1)) by lia. rewrite Hu.
  pose proof Hv as [Ha [Hb _]%Forall_cons]%Forall_cons. rewrite !as_i64_as_u64 by (done || apply wrap_range).
  destruct (N.leb_spec 2 (N.of_nat (length (a :: b :: rest)))) as [_|Hlt]; [|cbn [length] in Hlt; lia].
  unfold d1. rewrite add_sub_wrap by done. by rewrite undouble_deltas.
Qed.

(** An integer column round-trips exactly: every column of [i64] values (up to the
    count a column header can hold) encodes without a panic, the encoding is no longer
    than any of the three schemes, and decoding it with the column's length gives the
    column back, whatever the wrap-around of its differences. *)
Theorem integer_column_roundtrip (values : list Z) : Forall is_i64 values → N.of_nat (length values) ≤ u32_max →
  ∃ bs, encode_i64 values = ROk bs ∧ decode_i64 bs (N.of_nat (length values)) = ROk values
    ∧ (values ≠ [] → ∃ a, encode_for values = ROk a ∧ blen bs ≤ blen a)
    ∧ ((2 ≤ length values)%nat → ∃ b c, encode_delta values = ROk b ∧ encode_double_delta values = ROk c
         ∧ blen bs ≤ blen b ∧ blen bs ≤ blen c).
Proof.
  intros Hv Hlen. destruct values as [|v1 [|v2 rest]].
  - eexists. split_and!; [done|done|done|intros Hge; cbn in Hge; lia].
  - destruct (decode_for [v1] Hv Hlen ltac:(done)) as (a & Ha & Hd). exists a.
    split_and!; [done|done|intros _; by exists a|intros Hge; cbn in Hge; lia].
  - set (values := v1 :: v2 :: rest) in *. assert (Hge : (2 ≤ length values)%nat) by (unfold values; cbn; lia).
    destruct (decode_for values Hv Hlen ltac:(done)) as (a & Ha & Hda).
    destruct (decode_delta values Hv Hlen ltac:(done)) as (b & Hb & Hdb).
    destruct (decode_double_delta values Hv Hlen Hge) as (c & Hc & Hdc).
    exists (shortest a b c).
    assert (Hs : blen (shortest a b c) ≤ blen a ∧ blen (shortest a b c) ≤ blen b ∧ blen (shortest a b c) ≤ blen c
      ∧ (shortest a b c = a ∨ shortest a b c = b ∨ shortest a b c = c)).
    { unfold shortest. repeat case_match; bool_solve; split_and!; auto; lia. }
    destruct Hs as (Hla & Hlb & Hlc & Hor). split_and!.
    + change (encode_i64 values) with (encode_for values ≫= λ a : bytes, encode_delta values ≫= λ b : bytes,
        encode_double_delta values ≫= λ c : bytes, ROk (shortest a b c)). unfold mbind, Res_bind. by rewrite Ha, Hb, Hc.
    + by destruct Hor as [->|[->| ->]].
    + intros _. by exists a.
    + intros _. by exists b, c.
Qed.

Lemma integer_column_roundtrip_witness :
  ∃ bs, encode_i64 [5; -3; 9223372036854775807]%Z = ROk bs ∧ decode_i64 bs 3 = ROk [5; -3; 9223372036854775807]%Z.
Proof.
  destruct (integer_column_roundtrip [5; -3; 9223372036854775807]%Z) as (bs & He & Hd & _).
  - repeat constructor; unfold is_i64; lia.
  - done.
  - exact (ex_intro _ bs (conj He Hd)).
Defined.
