(* ===== verification/ColDict.v ===== *)
(** * graphus-columnar: the dictionary codec

    [src/crates/graphus-columnar/src/dictionary.rs]: a sorted dictionary of distinct byte
    strings and one bit-packed code per row. [sort_unstable] followed by [dedup] is a
    merge sort whose equal neighbours are dropped; [partition_point] is the length of the
    prefix on which the predicate holds. *)

From stdpp Require Import options.
From S2P Require Import Prelude Core Bytes Columnar.

(** The order of byte strings. *)
Fixpoint bytes_lt (a b : bytes) : bool :=
  match a, b with
  | _, [] => false
  | [], _ :: _ => true
  | x :: a, y :: b => (x <? y) || ((x =? y) && bytes_lt a b)
  end.
Definition bytes_le (a b : bytes) : Prop := bytes_lt b a = false.
#[global] Instance bytes_le_dec a b : Decision (bytes_le a b).
Proof. unfold bytes_le. apply _. Defined.

Module Dict.
Definition put_u32 (v : N) : bytes := to_le_bytes 4 v.
Definition get_u32 (b : bytes) (at_ : nat) (what : string) : Res N :=
  match slice b at_ 4 with Some s => ROk (from_le_bytes s) | None => RErr (Truncated what) end.

Definition distinct (values : list bytes) : list bytes := dedup (merge_sort bytes_le values).

Fixpoint partition_point (p : bytes → bool) (l : list bytes) : nat :=
  match l with [] => 0 | d :: l => if p d then S (partition_point p l) else 0 end.

Definition code_of (dict : list bytes) (v : bytes) : N := N.of_nat (partition_point (λ d, bytes_lt d v) dict).

(** The entry lengths are cast [as u32]; the entry count is asserted to fit. *)
Definition encode (values : list bytes) : Res bytes :=
  let dict := distinct values in
  let codes := code_of dict <$> values in
  let width := Bitpack.bits_required (N.of_nat (length dict) - 1) in
  if u32_max <? N.of_nat (length dict) then RPanic else
  Bitpack.pack codes width ≫= λ payload : bytes,
  ROk (put_u32 (N.of_nat (length dict)) ++ concat ((λ d, put_u32 (blen d) ++ d) <$> dict)
       ++ [width mod 256] ++ payload).

(** The loop over the entries: what it pushed, and the position behind them. *)
Fixpoint read_entries (num : nat) (bs : bytes) (pos : nat) : Res (list bytes * nat) :=
  match num with
  | O => ROk ([], pos)
  | S num =>
      get_u32 bs pos "dictionary entry length" ≫= λ len : N,
      let pos := (pos + 4)%nat in
      match slice bs pos (N.to_nat len) with
      | None => RErr (Truncated "dictionary entry bytes")
      | Some d =>
          read_entries num bs (pos + N.to_nat len) ≫= λ '((ds, pos) : list bytes * nat),
          ROk (d :: ds, pos)
      end
  end.

Definition read_dict_header (bs : bytes) : Res (list bytes * N * bytes) :=
  get_u32 bs 0 "dictionary entry count" ≫= λ num : N,
  read_entries (N.to_nat num) bs 4 ≫= λ '((dict, pos) : list bytes * nat),
  match bs !! pos with
  | None => RErr (Truncated "dictionary code width")
  | Some width => ROk (dict, width, drop (pos + 1) bs)
  end.

Fixpoint lookup_codes (dict : list bytes) (codes : list N) : Res (list bytes) :=
  match codes with
  | [] => ROk []
  | c :: codes =>
      match dict !! N.to_nat c with
      | None => RErr (BadCode c (length dict))
      | Some entry => lookup_codes dict codes ≫= λ out : list bytes, ROk (entry :: out)
      end
  end.

Definition decode (bs : bytes) (count : N) : Res (list bytes) :=
  read_dict_header bs ≫= λ '((dict, width, payload) : list bytes * N * bytes),
  Bitpack.unpack payload count width ≫= λ codes : list N,
  lookup_codes dict codes.

Fixpoint check_codes (len : nat) (raw : list N) : Res (list N) :=
  match raw with
  | [] => ROk []
  | c :: raw =>
      if N.of_nat len <=? c then RErr (BadCode c len)
      else check_codes len raw ≫= λ codes : list N, ROk (c mod 2 ^ 32 :: codes)
  end.

Definition decode_codes (bs : bytes) (count : N) : Res (list N * list bytes) :=
  read_dict_header bs ≫= λ '((dict, width, payload) : list bytes * N * bytes),
  Bitpack.unpack payload count width ≫= λ raw : list N,
  check_codes (length dict) raw ≫= λ codes : list N,
  ROk (codes, dict).

Definition cardinality (values : list bytes) : nat := length (distinct values).
End Dict.
Import Dict.

(** ** The order *)
Lemma bytes_lt_irrefl a : bytes_lt a a = false.
Proof. induction a as [|x a IH]; [done|]. cbn. by rewrite N.ltb_irrefl, N.eqb_refl, IH. Qed.

Lemma bytes_lt_trans a b c : bytes_lt a b = true → bytes_lt b c = true → bytes_lt a c = true.
Proof.
  revert b c. induction a as [|x a IH]; intros [|y b] [|z c]; cbn; try done.
  rewrite !orb_true_iff, !andb_true_iff, !N.ltb_lt, !N.eqb_eq. intros [?|[-> ?]] [?|[-> ?]]; try (left; lia).
  right. split; [done|]. by eapply IH.
Qed.

Lemma bytes_lt_total a b : bytes_lt a b = true ∨ a = b ∨ bytes_lt b a = true.
Proof.
  revert b. induction a as [|x a IH]; intros [|y b]; cbn; auto.
  rewrite !orb_true_iff, !andb_true_iff, !N.ltb_lt, !N.eqb_eq.
  destruct (N.lt_trichotomy x y) as [?|[->|?]]; [auto| |auto].
  destruct (IH b) as [?|[->|?]]; auto.
Qed.

Lemma bytes_lt_asym a b : bytes_lt a b = true → bytes_lt b a = false.
Proof.
  intros Hab. apply not_true_iff_false. intros Hba. pose proof (bytes_lt_trans _ _ _ Hab Hba) as Ht.
  by rewrite bytes_lt_irrefl in Ht.
Qed.

#[global] Instance bytes_le_total : Total bytes_le.
Proof.
  intros a b. unfold bytes_le. destruct (bytes_lt b a) eqn:Hba; [right|by left]. by apply bytes_lt_asym.
Qed.

Lemma bytes_le_lt a b : bytes_le a b ↔ bytes_lt a b = true ∨ a = b.
Proof.
  unfold bytes_le. split.
  - intros Hn. destruct (bytes_lt_total a b) as [?|[?|Hl]]; [auto|auto|]. congruence.
  - intros [Hl| ->]; [by apply bytes_lt_asym|apply bytes_lt_irrefl].
Qed.

#[global] Instance bytes_le_trans : Transitive bytes_le.
Proof.
  intros a b c. rewrite !bytes_le_lt. intros [Hab| ->] [Hbc| ->]; auto. left. by eapply bytes_lt_trans.
Qed.

(** ** The dictionary is strictly sorted and has exactly the values *)
Lemma dedup_head (a : bytes) (l : list bytes) : ∃ l', dedup (a :: l) = a :: l'.
Proof.
  revert a. induction l as [|b l IH]; intros a; [by exists []|]. cbn [dedup].
  case_decide as He; [|by eexists]. subst. apply IH.
Qed.

Lemma dedup_sorted (l : list bytes) : StronglySorted bytes_le l → StronglySorted (λ a b, bytes_lt a b = true) (dedup l).
Proof.
  induction 1 as [|a l Hs IH Hf]; [constructor|]. destruct l as [|b l]; [repeat constructor|].
  inversion Hf as [|? ? Hab _]; subst. apply bytes_le_lt in Hab.
  change (dedup (a :: b :: l)) with (if decide (a = b) then dedup (b :: l) else a :: dedup (b :: l)).
  case_decide as He; [exact IH|]. destruct Hab as [Hab|?]; [|done].
  destruct (dedup_head b l) as [l' Hl']. rewrite Hl' in *. constructor; [exact IH|].
  inversion IH as [|? ? ? Hb]; subst. constructor; [exact Hab|].
  eapply Forall_impl; [exact Hb|]. intros x Hx. by eapply bytes_lt_trans.
Qed.

Lemma distinct_sorted values : StronglySorted (λ a b, bytes_lt a b = true) (distinct values).
Proof. apply dedup_sorted, (StronglySorted_merge_sort bytes_le). Qed.

Lemma elem_of_distinct values x : x ∈ distinct values ↔ x ∈ values.
Proof. unfold distinct. rewrite elem_of_dedup. by rewrite (merge_sort_Permutation bytes_le). Qed.

Lemma distinct_length values : (length (distinct values) ≤ length values)%nat.
Proof.
  rewrite <- (Permutation_length (merge_sort_Permutation bytes_le values)) at 1. unfold distinct.
  generalize (merge_sort bytes_le values). intros l. induction l as [|a [|b l] IH]; [done|done|].
  cbn [dedup] in *. case_decide; cbn [length] in *; lia.
Qed.

(** ** The code of a value is its index *)
Lemma code_index dict v i : StronglySorted (λ a b, bytes_lt a b = true) dict → dict !! i = Some v →
  code_of dict v = N.of_nat i.
Proof.
  unfold code_of. intros Hs Hi. f_equal. revert i Hi. induction Hs as [|a l Hs IH Hf]; intros i Hi; [done|].
  destruct i as [|i]; cbn [lookup partition_point] in *.
  - injection Hi as ->. by rewrite bytes_lt_irrefl.
  - assert (bytes_lt a v = true) as ->; [|f_equal; by apply IH].
    rewrite Forall_forall in Hf. apply Hf. by eapply list_elem_of_lookup_2.
Qed.

Lemma code_lookup values v : v ∈ values →
  ∃ i, distinct values !! i = Some v ∧ code_of (distinct values) v = N.of_nat i ∧ (i < length (distinct values))%nat.
Proof.
  intros Hv. apply elem_of_distinct, list_elem_of_lookup in Hv as [i Hi]. exists i. split_and!; [done| |].
  - apply code_index; [apply distinct_sorted|done].
  - by eapply lookup_lt_Some.
Qed.

Lemma sorted_lookup_lt dict i j a b : StronglySorted (λ a b, bytes_lt a b = true) dict →
  dict !! i = Some a → dict !! j = Some b → ((i < j)%nat ↔ bytes_lt a b = true).
Proof.
  intros Hs Hi Hj.
  assert (∀ i j a b, dict !! i = Some a → dict !! j = Some b → (i < j)%nat → bytes_lt a b = true) as Hup.
  { clear -Hs. intros i j a b. revert i j. induction Hs as [|x l Hs IH Hf]; intros i j Hi Hj Hij; [done|].
    destruct i as [|i], j as [|j]; cbn [lookup] in *; [lia| |lia|by eapply IH; eauto; lia].
    injection Hi as ->. rewrite Forall_forall in Hf. apply Hf. by eapply list_elem_of_lookup_2. }
  split; [by eauto|]. intros Hl. destruct (lt_eq_lt_dec i j) as [[?| ->]|Hji]; [done| |].
  - simplify_eq. by rewrite bytes_lt_irrefl in Hl.
  - pose proof (Hup j i b a Hj Hi Hji) as Hr. apply bytes_lt_asym in Hr. congruence.
Qed.

(** ** Reading the header back *)
Lemma get_u32_app pre v post what : v ≤ u32_max → get_u32 (pre ++ put_u32 v ++ post) (length pre) what = ROk v.
Proof.
  intros Hv. unfold get_u32, put_u32. rewrite (slice_app_eq _ pre (to_le_bytes 4 v) post) by (try done; apply to_le_bytes_length).
  rewrite from_to_le_bytes; [done|]. change (256 ^ N.of_nat 4) with (u32_max + 1). lia.
Qed.

Definition entry_bytes (dict : list bytes) : bytes := concat ((λ d, put_u32 (blen d) ++ d) <$> dict).

Lemma read_entries_app dict : ∀ pre post, Forall (λ d, blen d ≤ u32_max) dict →
  read_entries (length dict) (pre ++ entry_bytes dict ++ post) (length pre)
    = ROk (dict, (length pre + length (entry_bytes dict))%nat).
Proof.
  induction dict as [|d dict IH]; intros pre post Hf; [cbn; do 2 f_equal; lia|].
  inversion Hf as [|? ? Hd Hf']; subst. cbn [length read_entries]. unfold entry_bytes. rewrite fmap_cons. cbn [concat].
  fold (entry_bytes dict). rewrite <- !(assoc_L (++)). rewrite get_u32_app by done. cbn [mbind Res_bind].
  rewrite (slice_app_eq _ (pre ++ put_u32 (blen d)) d (entry_bytes dict ++ post)).
  2: by rewrite <- !(assoc_L (++)). 2: rewrite length_app; unfold put_u32; by rewrite to_le_bytes_length.
  2: unfold blen; lia.
  replace (length pre + 4 + N.to_nat (blen d))%nat with (length (pre ++ put_u32 (blen d) ++ d)).
  2: { rewrite !length_app. unfold put_u32. rewrite to_le_bytes_length. unfold blen. lia. }
  rewrite (assoc_L (++) pre), (assoc_L (++) (pre ++ _)). rewrite <- (assoc_L (++) pre (put_u32 _) d) at 1.
  rewrite IH by done. cbn [mbind Res_bind]. do 2 f_equal. rewrite !length_app. lia.
Qed.

Lemma read_dict_header_encode dict width payload :
  N.of_nat (length dict) ≤ u32_max → Forall (λ d, blen d ≤ u32_max) dict → width ≤ 64 →
  read_dict_header (put_u32 (N.of_nat (length dict)) ++ entry_bytes dict ++ [width mod 256] ++ payload)
    = ROk (dict, width, payload).
Proof.
  intros Hn Hf Hw. unfold read_dict_header. set (bs := put_u32 _ ++ _).
  rewrite (get_u32_app [] (N.of_nat (length dict)) _ _ Hn : get_u32 bs 0 _ = _). cbn [mbind Res_bind]. rewrite Nat2N.id.
  pose proof (read_entries_app dict (put_u32 (N.of_nat (length dict))) ([width mod 256] ++ payload) Hf) as Hr.
  replace (length (put_u32 (N.of_nat (length dict)))) with 4%nat in Hr by (unfold put_u32; by rewrite to_le_bytes_length).
  unfold bs. rewrite Hr. cbn [mbind Res_bind]. set (p := (4 + length (entry_bytes dict))%nat).
  assert (length (put_u32 (N.of_nat (length dict)) ++ entry_bytes dict) = p) as Hp.
  { rewrite length_app. unfold put_u32. by rewrite to_le_bytes_length. }
  rewrite (assoc_L (++)). rewrite lookup_app_r by lia. rewrite Hp, Nat.sub_diag. cbn [app lookup list_lookup].
  rewrite drop_app_ge by lia. rewrite Hp. replace (p + 1 - p)%nat with 1%nat by lia. cbn [drop].
  rewrite N.mod_small by lia. done.
Qed.

Lemma lookup_codes_of dict values :
  StronglySorted (λ a b, bytes_lt a b = true) dict → Forall (λ v, v ∈ dict) values →
  lookup_codes dict (code_of dict <$> values) = ROk values.
Proof.
  intros Hs. induction 1 as [|v values Hv Hvs IH]; [done|]. rewrite fmap_cons. cbn [lookup_codes].
  apply list_elem_of_lookup in Hv as [i Hi]. rewrite (code_index dict v i) by done. rewrite Nat2N.id, Hi, IH. done.
Qed.

Lemma check_codes_of len raw : N.of_nat len ≤ u32_max → Forall (λ c, c < N.of_nat len) raw → check_codes len raw = ROk raw.
Proof.
  intros Hlen. induction 1 as [|c raw Hc Hraw IH]; [done|]. cbn [check_codes].
  destruct (N.leb_spec (N.of_nat len) c); [lia|]. rewrite IH. cbn. rewrite N.mod_small; [done|]. unfold u32_max in Hlen. lia.
Qed.

Lemma codes_small values : Forall (λ c, c < N.of_nat (length (distinct values))) (code_of (distinct values) <$> values).
Proof.
  rewrite Forall_forall. intros c Hc. apply list_elem_of_fmap in Hc as (v & -> & Hv).
  apply code_lookup in Hv as (i & _ & -> & Hi). lia.
Qed.

(** What [encode] wrote, and that the header and the codes are read back. *)
Lemma encode_spec values : N.of_nat (length values) ≤ u32_max → Forall (λ v, blen v ≤ u32_max) values →
  let dict := distinct values in
  let codes := code_of dict <$> values in
  ∃ bs width payload, encode values = ROk bs ∧ read_dict_header bs = ROk (dict, width, payload)
    ∧ Bitpack.unpack payload (N.of_nat (length values)) width = ROk codes.
Proof.
  intros Hlen Hf dict codes. pose proof (distinct_length values) as Hd. fold dict in Hd.
  assert (Bitpack.bits_required (N.of_nat (length dict) - 1) ≤ 64) as Hw.
  { apply bits_required_le. unfold u64_max. unfold u32_max in Hlen. lia. }
  destruct (unpack_pack codes (Bitpack.bits_required (N.of_nat (length dict) - 1))) as (payload & Hp & _ & Hu); [done| |..].
  { eapply Forall_impl; [apply codes_small|]. cbn beta. fold dict. intros c Hc. apply bits_required_bound. lia. }
  { unfold codes. by rewrite length_fmap. }
  unfold codes in Hu. rewrite length_fmap in Hu.
  eexists _, _, payload. split; [|split; [|exact Hu]].
  - unfold encode. fold dict. destruct (N.ltb_spec u32_max (N.of_nat (length dict))); [lia|].
    fold codes. rewrite Hp. cbn [mbind Res_bind]. reflexivity.
  - apply read_dict_header_encode; [lia| |done]. rewrite Forall_forall in *. intros d Hdd. apply Hf. by apply elem_of_distinct.
Qed.

(** The dictionary codec is exact and canonical. A column whose values, and their
    number, fit in 32 bits encodes without panicking; [decode] returns it; and
    [decode_codes] returns one code per row and the dictionary, where two rows have the
    same code exactly when they have the same value, and the order of the codes is the
    byte order of the values. *)
Theorem dictionary_column (values : list bytes) :
  N.of_nat (length values) ≤ u32_max → Forall (λ v, blen v ≤ u32_max) values →
  ∃ bs codes dict, encode values = ROk bs
    ∧ decode bs (N.of_nat (length values)) = ROk values
    ∧ decode_codes bs (N.of_nat (length values)) = ROk (codes, dict)
    ∧ length codes = length values ∧ length dict = cardinality values
    ∧ ∀ i j a b, values !! i = Some a → values !! j = Some b →
        ∃ ci cj, codes !! i = Some ci ∧ codes !! j = Some cj ∧ dict !! N.to_nat ci = Some a
          ∧ (ci = cj ↔ a = b) ∧ (ci < cj ↔ bytes_lt a b = true).
Proof.
  intros Hlen Hf. destruct (encode_spec values Hlen Hf) as (bs & width & payload & He & Hh & Hu).
  pose proof (distinct_length values) as Hd.
  exists bs, (code_of (distinct values) <$> values), (distinct values). split_and!; [done| | |by rewrite length_fmap|done|].
  - unfold decode. rewrite Hh. cbn [mbind Res_bind]. rewrite Hu. cbn [mbind Res_bind].
    apply lookup_codes_of; [apply distinct_sorted|]. rewrite Forall_forall. intros v. apply elem_of_distinct.
  - unfold decode_codes. rewrite Hh. cbn [mbind Res_bind]. rewrite Hu. cbn [mbind Res_bind].
    rewrite check_codes_of; [done|lia|apply codes_small].
  - intros i j a b Hi Hj. destruct (code_lookup values a) as (ka & Hka & Hca & _); [by eapply list_elem_of_lookup_2|].
    destruct (code_lookup values b) as (kb & Hkb & Hcb & _); [by eapply list_elem_of_lookup_2|].
    exists (N.of_nat ka), (N.of_nat kb). rewrite !list_lookup_fmap, Hi, Hj. cbn [fmap option_fmap option_map].
    rewrite Hca, Hcb, Nat2N.id. pose proof (sorted_lookup_lt _ _ _ _ _ (distinct_sorted values) Hka Hkb) as Hlt.
    split_and!; [done|done|done| |].
    + split; [|intros ->; congruence]. intros ?%Nat2N.inj. congruence.
    + rewrite <- Hlt. lia.
Qed.

(** Each entry is read from four bytes of its own: the dictionary is not longer than its count field says. *)
Lemma read_entries_length num : ∀ bs pos dict pos', read_entries num bs pos = ROk (dict, pos') → length dict = num.
Proof.
  induction num as [|num IH]; intros bs pos dict pos' Hr; cbn [read_entries] in Hr; [by simplify_eq|].
  destruct (get_u32 bs pos _) as [len| |] eqn:Hg; cbn [mbind Res_bind] in Hr; [|done|done].
  destruct (slice bs _ _) as [d|]; [|done].
  destruct (read_entries num bs _) as [[ds p]| |] eqn:Hrec; cbn [mbind Res_bind] in Hr; [|done|done].
  simplify_eq. cbn [length]. f_equal. by eapply IH.
Qed.

Lemma get_u32_le bs at_ what v : is_bytes bs → get_u32 bs at_ what = ROk v → v ≤ u32_max.
Proof.
  intros Hb. unfold get_u32. destruct (slice bs at_ 4) as [s|] eqn:Hs; [|done]. intros [= <-].
  apply slice_Some in Hs as (_ & -> & _). pose proof (from_piece_lt bs at_ 4 Hb) as Hlt.
  change (256 ^ N.of_nat 4) with (u32_max + 1) in Hlt. lia.
Qed.

Lemma header_dict_small bs dict width payload : is_bytes bs → read_dict_header bs = ROk (dict, width, payload) →
  N.of_nat (length dict) ≤ u32_max.
Proof.
  intros Hb. unfold read_dict_header. destruct (get_u32 bs 0 _) as [num| |] eqn:Hg; cbn [mbind Res_bind]; [|done|done].
  apply get_u32_le in Hg; [|done]. destruct (read_entries _ bs 4) as [[ds p]| |] eqn:Hr; cbn [mbind Res_bind]; [|done|done].
  destruct (bs !! p); [|done]. intros Hh. simplify_eq. apply read_entries_length in Hr. lia.
Qed.

(** [dict[c]] for every code: an index out of range panics. *)
Fixpoint materialize (dict : list bytes) (codes : list N) : Res (list bytes) :=
  match codes with
  | [] => ROk []
  | c :: codes =>
      match dict !! N.to_nat c with
      | None => RPanic
      | Some d => materialize dict codes ≫= λ out : list bytes, ROk (d :: out)
      end
  end.

Lemma lookup_codes_check dict raw : N.of_nat (length dict) ≤ u32_max →
  lookup_codes dict raw = (check_codes (length dict) raw ≫= λ codes : list N, materialize dict codes).
Proof.
  intros Hd. induction raw as [|c raw IH]; [done|]. cbn [lookup_codes check_codes].
  destruct (N.leb_spec (N.of_nat (length dict)) c) as [Hc|Hc].
  { rewrite lookup_ge_None_2 by lia. done. }
  destruct (lookup_lt_is_Some_2 dict (N.to_nat c)) as [d Hdc]; [lia|]. rewrite Hdc, IH.
  destruct (check_codes (length dict) raw) as [codes| |]; [|done|done]. cbn [mbind Res_bind materialize].
  rewrite N.mod_small by (unfold u32_max in Hd; lia). by rewrite Hdc.
Qed.

(** The two readers of a dictionary column never diverge: on arbitrary bytes [decode]
    is [decode_codes] followed by [dict[code]] for each row, errors included, and that
    indexing never leaves the dictionary (it would panic, and [decode] would not). *)
Theorem dictionary_readers_agree (bs : bytes) (count : N) : is_bytes bs →
  decode bs count
    = (decode_codes bs count ≫= λ '((codes, dict) : list N * list bytes), materialize dict codes).
Proof.
  intros Hb. unfold decode, decode_codes.
  destruct (read_dict_header bs) as [[[dict width] payload]| |] eqn:Hh; cbn [mbind Res_bind]; [|done|done].
  destruct (Bitpack.unpack payload count width) as [raw| |]; cbn [mbind Res_bind]; [|done|done].
  rewrite lookup_codes_check by (by eapply header_dict_small).
  by destruct (check_codes (length dict) raw).
Qed.

Lemma dictionary_column_witness :
  encode [[3; 1]; [2]; [3; 1]; []] = ROk (to_le_bytes 4 3 ++ to_le_bytes 4 0 ++ to_le_bytes 4 1 ++ [2] ++ to_le_bytes 4 2 ++ [3; 1] ++ [2] ++ [38])
  ∧ ∃ bs codes dict, encode [[3; 1]; [2]; [3; 1]; []] = ROk bs ∧ decode bs 4 = ROk [[3; 1]; [2]; [3; 1]; []]
      ∧ decode_codes bs 4 = ROk (codes, dict).
Proof.
  split; [vm_compute; reflexivity|].
  destruct (dictionary_column [[3; 1]; [2]; [3; 1]; []]) as (bs & codes & dict & He & Hd & Hc & _).
  - vm_compute. discriminate.
  - repeat constructor; vm_compute; discriminate.
  - exists bs, codes, dict. split; [exact He|]. split; [exact Hd|exact Hc].
Defined.

Lemma dictionary_readers_agree_witness :
  decode [1; 0; 0; 0; 1; 0; 0; 0; 65; 1; 2] 2 = RErr (BadCode 1 1)
  ∧ decode [1; 0; 0; 0; 1; 0; 0; 0; 65; 1; 2] 2
    = (decode_codes [1; 0; 0; 0; 1; 0; 0; 0; 65; 1; 2] 2 ≫= λ '((codes, dict) : list N * list bytes), materialize dict codes).
Proof.
  split; [vm_compute; reflexivity|]. apply dictionary_readers_agree. repeat constructor; vm_compute; reflexivity.
Defined.
