(* ===== verification/Gorilla.v ===== *)
(** * graphus-columnar: the XOR codec for float columns

    [src/crates/graphus-columnar/src/gorilla.rs]. The codec only sees [f64::to_bits], so
    a value is its 64-bit pattern, an [N] below [2^64]. Subtractions and shifts that
    would panic (below zero, by the width or more) do so in the model. *)

From stdpp Require Import options.
From S2P Require Import Prelude Core Bytes Columnar.

Definition sub_or_panic (a b : N) : Res N := if a <? b then RPanic else ROk (a - b).
Definition shl_or_panic (x s : N) : Res N := if 64 <=? s then RPanic else ROk (N.shiftl x s mod 2 ^ 64).
Definition shr_or_panic (x s : N) : Res N := if 64 <=? s then RPanic else ROk (N.shiftr x s).

(** [u64::leading_zeros] and [u64::trailing_zeros]. *)
Definition leading_zeros (x : N) : N := 64 - N.size x.
Fixpoint pos_trailing_zeros (p : positive) : N :=
  match p with xO p => 1 + pos_trailing_zeros p | _ => 0 end.
Definition trailing_zeros (x : N) : N := match x with N0 => 64 | Npos p => pos_trailing_zeros p end.

Module Gorilla.
Record BitWriter := mkWriter { w_bytes : bytes; cur : N; nbits : N }.
Definition new_writer : BitWriter := mkWriter [] 0 0.

Definition put_bit (w : BitWriter) (bit : N) : BitWriter :=
  let cur' := N.lor (N.shiftl (cur w) 1 mod 256) (N.land bit 1) in
  let nbits' := nbits w + 1 in
  if nbits' =? 8 then mkWriter (w_bytes w ++ [cur']) 0 0 else mkWriter (w_bytes w) cur' nbits'.

Fixpoint put_bits (w : BitWriter) (value : N) (count : nat) : BitWriter :=
  match count with
  | O => w
  | S i => put_bits (put_bit w (N.land (N.shiftr value (N.of_nat i)) 1)) value i
  end.

Definition finish (w : BitWriter) : bytes :=
  if 0 <? nbits w then w_bytes w ++ [N.shiftl (cur w) (8 - nbits w) mod 256] else w_bytes w.

Record BitReader := mkReader { byte : N; bit : N }.
Definition new_reader : BitReader := mkReader 0 0.

Definition get_bit (bs : bytes) (r : BitReader) : Res (N * BitReader) :=
  match bs !! N.to_nat (byte r) with
  | None => RErr (Truncated "gorilla bit stream")
  | Some b =>
      sub_or_panic 7 (bit r) ≫= λ s : N,
      let v := N.land (N.shiftr b s) 1 in
      let bit' := bit r + 1 in
      ROk (v, if bit' =? 8 then mkReader (byte r + 1) 0 else mkReader (byte r) bit')
  end.

Fixpoint get_bits_loop (count : nat) (bs : bytes) (v : N) (r : BitReader) : Res (N * BitReader) :=
  match count with
  | O => ROk (v, r)
  | S count =>
      get_bit bs r ≫= λ '((b, r) : N * BitReader),
      get_bits_loop count bs (N.lor (N.shiftl v 1 mod 2 ^ 64) b) r
  end.
Definition get_bits (bs : bytes) (r : BitReader) (count : N) : Res (N * BitReader) :=
  get_bits_loop (N.to_nat count) bs 0 r.

(** One value after the first. *)
Definition encode_value (w : BitWriter) (prev bits : N) : Res BitWriter :=
  let xor := N.lxor bits prev in
  if xor =? 0 then ROk (put_bit w 0) else
  let w := put_bit w 1 in
  let lz := N.min (leading_zeros xor) 63 in
  let tz := trailing_zeros xor in
  sub_or_panic 64 lz ≫= λ m : N,
  sub_or_panic m tz ≫= λ meaningful : N,
  let w := put_bits w lz 6 in
  sub_or_panic meaningful 1 ≫= λ len : N,
  let w := put_bits w len 6 in
  shr_or_panic xor tz ≫= λ mantissa : N,
  ROk (put_bits w mantissa (N.to_nat meaningful)).

Fixpoint encode_loop (w : BitWriter) (prev : N) (values : list N) : Res BitWriter :=
  match values with
  | [] => ROk w
  | bits :: values => encode_value w prev bits ≫= λ w : BitWriter, encode_loop w bits values
  end.

Definition encode (values : list N) : Res bytes :=
  match values with
  | [] => ROk (finish new_writer)
  | bits :: values =>
      encode_loop (put_bits new_writer bits 64) bits values ≫= λ w : BitWriter, ROk (finish w)
  end.

(** One value after the first: the new [prev], which is also what is pushed. *)
Definition decode_value (bs : bytes) (prev : N) (r : BitReader) : Res (N * BitReader) :=
  get_bit bs r ≫= λ '((b, r) : N * BitReader),
  if b =? 0 then ROk (prev, r) else
  get_bits bs r 6 ≫= λ '((lz, r) : N * BitReader),
  get_bits bs r 6 ≫= λ '((m, r) : N * BitReader),
  let meaningful := m + 1 in
  if 64 <? lz + meaningful then RErr (Corrupt "gorilla leading+meaningful exceeds 64 bits") else
  sub_or_panic 64 lz ≫= λ t : N,
  sub_or_panic t meaningful ≫= λ tz : N,
  get_bits bs r meaningful ≫= λ '((mantissa, r) : N * BitReader),
  shl_or_panic mantissa tz ≫= λ xor : N,
  ROk (N.lxor prev xor, r).

Fixpoint decode_loop (count : nat) (bs : bytes) (prev : N) (r : BitReader) : Res (list N) :=
  match count with
  | O => ROk []
  | S count =>
      decode_value bs prev r ≫= λ '((prev, r) : N * BitReader),
      decode_loop count bs prev r ≫= λ out : list N, ROk (prev :: out)
  end.

Definition decode (bs : bytes) (count : N) : Res (list N) :=
  if count =? 0 then ROk [] else
  get_bits bs new_reader 64 ≫= λ '((prev, r) : N * BitReader),
  decode_loop (N.to_nat (count - 1)) bs prev r ≫= λ out : list N, ROk (prev :: out).
End Gorilla.
Import Gorilla.

Lemma sub_ok a b : b ≤ a → sub_or_panic a b = ROk (a - b).
Proof. intros H. unfold sub_or_panic. by destruct (N.ltb_spec a b); [lia|]. Qed.

Lemma shl_ok x s : s < 64 → shl_or_panic x s = ROk (N.shiftl x s mod 2 ^ 64).
Proof. intros H. unfold shl_or_panic. by destruct (N.leb_spec 64 s); [lia|]. Qed.

(** ** The bit stream of a buffer *)

(** The low [n] bits of [v], most significant first. *)
Fixpoint low (n : nat) (v : N) : list bool :=
  match n with O => [] | S n => N.testbit v (N.of_nat n) :: low n v end.

Definition stream (bs : bytes) : list bool := bs ≫= low 8.

Lemma low_length n v : length (low n v) = n.
Proof. induction n; cbn; congruence. Qed.

Lemma low_lookup n v i : (i < n)%nat → low n v !! i = Some (N.testbit v (N.of_nat (n - 1 - i))).
Proof.
  revert i. induction n as [|n IH]; intros [|i] Hi; [lia|lia| |]; cbn [low lookup list_lookup].
  - do 3 f_equal. lia.
  - rewrite IH by lia. do 3 f_equal. lia.
Qed.

Lemma low_ext n v v' : (∀ k, k < N.of_nat n → N.testbit v k = N.testbit v' k) → low n v = low n v'.
Proof. induction n as [|n IH]; intros H; [done|]. cbn. f_equal; [apply H; lia|]. apply IH. intros. apply H. lia. Qed.

(** Shifting one bit in, and a run of zeros. *)
Lemma low_snoc n v v' b : (∀ k, k < N.of_nat n → N.testbit v' (k + 1) = N.testbit v k) → N.testbit v' 0 = b →
  low (S n) v' = low n v ++ [b].
Proof.
  induction n as [|n IH]; intros H Hb; [cbn [low app]; by change (N.of_nat 0) with 0; rewrite Hb|].
  change (low (S (S n)) v') with (N.testbit v' (N.of_nat (S n)) :: low (S n) v'). rewrite IH by (try done; intros; apply H; lia).
  cbn [low app]. f_equal. rewrite <- H by lia. f_equal. lia.
Qed.

Lemma low_shift n z v : low (n + z) (N.shiftl v (N.of_nat z)) = low n v ++ replicate z false.
Proof.
  induction z as [|z IH].
  - rewrite N.shiftl_0_r, app_nil_r. by rewrite Nat.add_0_r.
  - rewrite <- plus_n_Sm. rewrite (low_snoc _ (N.shiftl v (N.of_nat z)) _ false).
    + rewrite IH, <- (assoc_L (++)). f_equal. rewrite replicate_S_end. done.
    + intros k Hk. rewrite !shl_bits. destruct (N.leb_spec (N.of_nat (S z)) (k + 1)), (N.leb_spec (N.of_nat z) k); try lia.
      cbn [andb]. f_equal. lia.
    + by rewrite N.shiftl_spec_low by lia.
Qed.

(** ** The writer appends bits *)
Definition wbits (w : BitWriter) : list bool := stream (w_bytes w) ++ low (N.to_nat (nbits w)) (cur w).
Definition writer_ok (w : BitWriter) : Prop := nbits w < 8.

Lemma stream_app a b : stream (a ++ b) = stream a ++ stream b.
Proof. apply bind_app. Qed.

Lemma stream_one b : stream [b] = low 8 b.
Proof. cbn. done. Qed.

Lemma put_bit_spec w b : writer_ok w → b < 2 → writer_ok (put_bit w b) ∧ wbits (put_bit w b) = wbits w ++ [negb (b =? 0)].
Proof.
  unfold writer_ok. intros Hw Hb. set (cur' := N.lor (N.shiftl (cur w) 1 mod 256) (N.land b 1)).
  assert (low (S (N.to_nat (nbits w))) cur' = low (N.to_nat (nbits w)) (cur w) ++ [negb (b =? 0)]) as Hlow.
  { apply low_snoc; unfold cur'; change 256 with (2 ^ 8).
    - intros k Hk. rewrite N.lor_spec, mod_bits, shl_bits. destruct (N.ltb_spec (k + 1) 8); [|lia].
      destruct (N.leb_spec 1 (k + 1)); [|lia]. cbn [andb]. replace (k + 1 - 1) with k by lia.
      replace (N.testbit (N.land b 1) (k + 1)) with false; [apply orb_false_r|].
      rewrite N.land_spec. by destruct k as [|[]]; cbn; rewrite andb_false_r.
    - rewrite N.lor_spec, mod_bits, shl_bits. assert (b = 0 ∨ b = 1) as [-> | ->] by lia; done. }
  unfold put_bit, wbits. fold cur'. destruct (N.eqb_spec (nbits w + 1) 8) as [He|He]; cbn [nbits w_bytes cur].
  - split; [lia|]. rewrite app_nil_r, stream_app, stream_one, <- (assoc_L (++)), <- Hlow. do 2 f_equal. lia.
  - split; [lia|]. rewrite <- (assoc_L (++)), <- Hlow. do 2 f_equal. lia.
Qed.

Lemma land_1 x : N.land x 1 < 2 ∧ negb (N.land x 1 =? 0) = N.testbit x 0.
Proof. destruct x as [|[]]; cbn; split; done || lia. Qed.

Lemma put_bits_spec value count : ∀ w, writer_ok w →
  writer_ok (put_bits w value count) ∧ wbits (put_bits w value count) = wbits w ++ low count value.
Proof.
  induction count as [|i IH]; intros w Hw; cbn [put_bits low]; [by rewrite app_nil_r|].
  destruct (land_1 (N.shiftr value (N.of_nat i))) as [Hb Ht].
  destruct (put_bit_spec w _ Hw Hb) as [Hw' Hbits]. destruct (IH _ Hw') as [Hw'' ->]. split; [done|].
  rewrite Hbits, Ht, N.shiftr_spec', N.add_0_l. by rewrite <- (assoc_L (++)).
Qed.

Lemma finish_spec w : writer_ok w → ∃ pad, stream (finish w) = wbits w ++ pad.
Proof.
  unfold writer_ok, finish, wbits. intros Hw. destruct (N.ltb_spec 0 (nbits w)) as [Hn|Hn].
  - exists (replicate (N.to_nat (8 - nbits w)) false). rewrite stream_app, stream_one, <- (assoc_L (++)). f_equal.
    rewrite <- low_shift. rewrite N2Nat.id. replace (N.to_nat (nbits w) + N.to_nat (8 - nbits w))%nat with 8%nat by lia.
    apply low_ext. intros k Hk. change 256 with (2 ^ 8). rewrite mod_bits. by destruct (N.ltb_spec k 8); [|lia].
  - exists []. replace (nbits w) with 0 by lia. by rewrite !app_nil_r.
Qed.

(** ** The reader follows the stream *)
Definition reader_at (p : nat) : BitReader := mkReader (N.of_nat (p / 8)) (N.of_nat (p mod 8)).

Lemma stream_lookup bs p : stream bs !! p =
  match bs !! (p / 8)%nat with Some b => Some (N.testbit b (7 - N.of_nat (p mod 8))) | None => None end.
Proof.
  revert p. induction bs as [|b bs IH]; intros p; [done|].
  change (stream (b :: bs)) with (low 8 b ++ stream bs). destruct (decide (p < 8)%nat) as [Hp|Hp].
  - rewrite lookup_app_l by (rewrite low_length; lia). rewrite Nat.div_small, Nat.mod_small by done. cbn [lookup list_lookup].
    rewrite low_lookup by done. do 2 f_equal. lia.
  - rewrite lookup_app_r by (rewrite low_length; lia). rewrite low_length, IH.
    pose proof (Nat.div_add (p - 8) 1 8 ltac:(lia)) as Hd. pose proof (Nat.Div0.mod_add (p - 8) 1 8) as Hm.
    replace (p - 8 + 1 * 8)%nat with p in Hd, Hm by lia. rewrite Hd, Hm, Nat.add_1_r. done.
Qed.

Lemma reader_next p : (if N.of_nat (p mod 8) + 1 =? 8 then mkReader (N.of_nat (p / 8) + 1) 0
    else mkReader (N.of_nat (p / 8)) (N.of_nat (p mod 8) + 1)) = reader_at (S p).
Proof.
  unfold reader_at. pose proof (Nat.div_mod_eq p 8) as Hp. pose proof (Nat.mod_upper_bound p 8 ltac:(lia)) as Hm.
  destruct (N.eqb_spec (N.of_nat (p mod 8) + 1) 8) as [He|He].
  - assert (S p / 8 = S (p / 8) ∧ S p mod 8 = 0)%nat as [-> ->]; [|f_equal; lia].
    split; [symmetry; apply Nat.div_unique with 0%nat; lia|symmetry; apply Nat.mod_unique with (S (p / 8)); lia].
  - assert (S p / 8 = p / 8 ∧ S p mod 8 = S (p mod 8))%nat as [-> ->]; [|f_equal; lia].
    split; [symmetry; apply Nat.div_unique with (S (p mod 8)); lia|symmetry; apply Nat.mod_unique with (p / 8)%nat; lia].
Qed.

Lemma get_bit_spec bs p : get_bit bs (reader_at p) =
  match stream bs !! p with
  | Some b => ROk (if b : bool then 1 else 0, reader_at (S p))
  | None => RErr (Truncated "gorilla bit stream")
  end.
Proof.
  unfold get_bit. rewrite stream_lookup. cbn [byte bit reader_at]. rewrite Nat2N.id.
  destruct (bs !! (p / 8)%nat) as [b|]; [|done]. unfold sub_or_panic.
  pose proof (Nat.mod_upper_bound p 8 ltac:(lia)) as Hm.
  destruct (N.ltb_spec 7 (N.of_nat (p mod 8))); [lia|]. cbn [mbind Res_bind]. rewrite reader_next. do 2 f_equal.
  rewrite <- (N.add_0_l (7 - _)) at 2. rewrite <- N.shiftr_spec'. by destruct (N.shiftr b _) as [|[]].
Qed.

Lemma shift_in x n : x < 2 ^ 64 →
  N.lor (N.shiftl (N.shiftr x (N.of_nat (S n))) 1 mod 2 ^ 64) (if N.testbit x (N.of_nat n) then 1 else 0) = N.shiftr x (N.of_nat n).
Proof.
  intros Hx. apply N.bits_inj. intros k. rewrite N.lor_spec, mod_bits, shl_bits, !N.shiftr_spec'.
  destruct (decide (k = 0)) as [->|Hk].
  - rewrite !N.add_0_l. by destruct (N.testbit x (N.of_nat n)).
  - replace (N.testbit (if N.testbit x (N.of_nat n) then 1 else 0) k) with false
      by (destruct k as [|[]], (N.testbit x _); done).
    rewrite orb_false_r. destruct (N.leb_spec 1 k); [|lia]. cbn [andb].
    replace (k - 1 + N.of_nat (S n)) with (k + N.of_nat n) by lia.
    destruct (N.ltb_spec k 64); [done|]. cbn [andb]. symmetry. apply (testbit_high x 64); [done|lia].
Qed.

Lemma get_bits_loop_spec n : ∀ bs x pre post, x < 2 ^ 64 → stream bs = pre ++ low n x ++ post →
  get_bits_loop n bs (N.shiftr x (N.of_nat n)) (reader_at (length pre)) = ROk (x, reader_at (length pre + n)).
Proof.
  induction n as [|n IH]; intros bs x pre post Hx Hs; cbn [get_bits_loop].
  { rewrite N.shiftr_0_r. do 3 f_equal. lia. }
  rewrite get_bit_spec, Hs, lookup_app_r, Nat.sub_diag by lia. cbn [low app lookup list_lookup mbind Res_bind].
  rewrite shift_in by done. cbn [low app] in Hs.
  rewrite (cons_middle _ pre), (assoc_L (++)) in Hs.
  replace (S (length pre)) with (length (pre ++ [N.testbit x (N.of_nat n)])) by (rewrite length_app; cbn; lia).
  rewrite (IH bs x _ post Hx Hs). do 3 f_equal. rewrite length_app. cbn. lia.
Qed.

Lemma get_bits_spec bs x n pre post : x < 2 ^ n → n ≤ 64 → stream bs = pre ++ low (N.to_nat n) x ++ post →
  get_bits bs (reader_at (length pre)) n = ROk (x, reader_at (length pre + N.to_nat n)).
Proof.
  intros Hx Hn Hs. unfold get_bits. rewrite <- (get_bits_loop_spec _ bs x pre post).
  - f_equal. rewrite N2Nat.id, N.shiftr_div_pow2. symmetry. by apply N.div_small.
  - eapply N.lt_le_trans; [exact Hx|]. by apply N.pow_le_mono_r.
  - done.
Qed.

(** ** Leading and trailing zeros *)
Lemma trailing_zeros_spec p : ∃ q, Npos p = (2 * q + 1) * 2 ^ trailing_zeros (Npos p).
Proof.
  induction p as [p _|p [q IH]|]; [by exists (Npos p); cbn; lia| |by exists 0].
  exists q. cbn [trailing_zeros pos_trailing_zeros] in *. rewrite N.pow_add_r. change (2 ^ 1) with 2. lia.
Qed.

Lemma xor_window x : x ≠ 0 → x < 2 ^ 64 →
  let lz := leading_zeros x in let tz := trailing_zeros x in let m := 64 - lz - tz in
  lz ≤ 63 ∧ tz ≤ 63 ∧ 1 ≤ m ≤ 64 ∧ lz + m + tz = 64 ∧ N.shiftr x tz < 2 ^ m ∧ N.shiftl (N.shiftr x tz) tz = x.
Proof.
  intros Hne Hx lz tz m.
  assert (N.size x ≤ 64 ∧ 1 ≤ N.size x) as [Hs64 Hs1].
  { rewrite N.size_log2 by done. assert (N.log2 x < 64); [apply N.log2_lt_pow2; lia|lia]. }
  assert (∃ q, x = (2 * q + 1) * 2 ^ tz) as [q Hq].
  { unfold tz. destruct x as [|p]; [done|]. apply trailing_zeros_spec. }
  pose proof (N.size_gt x) as Hgt.
  assert (tz < N.size x) as Htz.
  { apply (N.pow_lt_mono_r_iff 2); [lia|]. eapply N.le_lt_trans; [|exact Hgt]. rewrite Hq. nia. }
  assert (m = N.size x - tz) as Hm by (unfold m, lz, leading_zeros; lia).
  assert (N.shiftr x tz = 2 * q + 1) as Hshift.
  { rewrite N.shiftr_div_pow2, Hq. apply N.div_mul. by apply N.pow_nonzero. }
  split_and!; [unfold lz, leading_zeros; lia|lia|lia|lia|unfold m, lz, leading_zeros; lia| |].
  - rewrite N.shiftr_div_pow2, Hm. apply N.Div0.div_lt_upper_bound. rewrite <- N.pow_add_r.
    replace (tz + (N.size x - tz)) with (N.size x) by lia. done.
  - rewrite Hshift, N.shiftl_mul_pow2. done.
Qed.

(** ** One value written and read *)
Definition writes (w : BitWriter) (l : list bool) (w' : BitWriter) : Prop := writer_ok w' ∧ wbits w' = wbits w ++ l.

Lemma writes_trans w1 l1 w2 l2 w3 : writes w1 l1 w2 → writes w2 l2 w3 → writes w1 (l1 ++ l2) w3.
Proof. intros [_ H1] [? H2]. split; [done|]. by rewrite H2, H1, (assoc_L (++)). Qed.

Lemma lxor_back bits prev : N.lxor prev (N.lxor bits prev) = bits.
Proof. by rewrite (N.lxor_comm bits), <- N.lxor_assoc, N.lxor_nilpotent, N.lxor_0_l. Qed.

Definition codes_for (prev bits : N) (l : list bool) : Prop := ∀ bs pre post, stream bs = pre ++ l ++ post →
  decode_value bs prev (reader_at (length pre)) = ROk (bits, reader_at (length (pre ++ l))).

Definition window (lz len m mantissa : N) : list bool :=
  [true] ++ low 6 lz ++ low 6 len ++ low (N.to_nat m) mantissa.

Lemma window_codes prev bits : let x := N.lxor bits prev in x ≠ 0 → x < 2 ^ 64 →
  let lz := leading_zeros x in let tz := trailing_zeros x in let m := 64 - lz - tz in
  codes_for prev bits (window lz (m - 1) m (N.shiftr x tz)).
Proof.
  intros x Hne Hx lz tz m bs pre post Hs. destruct (xor_window x Hne Hx) as (Hlz & Htz & Hm & Hsum & Hlt & Hback).
  fold lz tz in Hlz, Htz, Hm, Hsum, Hlt, Hback. fold m in Hm, Hsum, Hlt.
  unfold decode_value, window in *. rewrite get_bit_spec, Hs, lookup_app_r, Nat.sub_diag by lia.
  cbn [app lookup list_lookup mbind Res_bind]. change (1 =? 0) with false. cbn iota.
  rewrite <- !(assoc_L (++)) in Hs. rewrite (assoc_L (++) pre) in Hs.
  replace (S (length pre)) with (length (pre ++ [true])) by (rewrite length_app; cbn; lia).
  rewrite (get_bits_spec bs lz 6 _ _ ltac:(change (2 ^ 6) with 64; lia) ltac:(lia) Hs). cbn [mbind Res_bind].
  rewrite (assoc_L (++) (pre ++ [true])) in Hs.
  replace (length (pre ++ [true]) + N.to_nat 6)%nat with (length ((pre ++ [true]) ++ low 6 lz)) by (rewrite !length_app, low_length; done).
  rewrite (get_bits_spec bs (m - 1) 6 _ _ ltac:(change (2 ^ 6) with 64; lia) ltac:(lia) Hs). cbn [mbind Res_bind].
  rewrite (assoc_L (++) ((pre ++ [true]) ++ _)) in Hs.
  match goal with |- context [reader_at (length ?l + N.to_nat 6)] =>
    replace (length l + N.to_nat 6)%nat with (length (l ++ low 6 (m - 1))) by (rewrite (length_app l), low_length; done) end.
  replace (m - 1 + 1) with m by lia. destruct (N.ltb_spec 64 (lz + m)); [lia|].
  rewrite sub_ok by lia. cbn [mbind Res_bind]. rewrite sub_ok by lia. cbn [mbind Res_bind].
  rewrite (get_bits_spec bs _ m _ _ Hlt ltac:(lia) Hs). cbn [mbind Res_bind].
  replace (64 - lz - m) with tz by lia. rewrite shl_ok by lia. cbn [mbind Res_bind].
  rewrite Hback, N.mod_small by done. unfold x. rewrite lxor_back. do 3 f_equal.
  cbn [app length]. rewrite !length_app. cbn [length]. rewrite !length_app, !low_length. lia.
Qed.

Lemma lxor_lt a b : a < 2 ^ 64 → b < 2 ^ 64 → N.lxor a b < 2 ^ 64.
Proof.
  intros Ha Hb. destruct (decide (N.lxor a b = 0)) as [->|Hne]; [lia|]. apply N.log2_lt_pow2; [lia|].
  eapply N.le_lt_trans; [apply N.log2_lxor|]. apply N.max_lub_lt.
  - destruct (decide (a = 0)) as [->|]; [done|]. apply N.log2_lt_pow2; lia.
  - destruct (decide (b = 0)) as [->|]; [done|]. apply N.log2_lt_pow2; lia.
Qed.

Lemma put_bits_writes w v n : writer_ok w → writes w (low n v) (put_bits w v n).
Proof. apply put_bits_spec. Qed.

Lemma encode_value_spec w prev bits : writer_ok w → prev < 2 ^ 64 → bits < 2 ^ 64 →
  ∃ w' l, encode_value w prev bits = ROk w' ∧ writes w l w' ∧ codes_for prev bits l.
Proof.
  intros Hw Hp Hb. unfold encode_value. pose proof (lxor_lt bits prev Hb Hp) as Hx.
  destruct (N.eqb_spec (N.lxor bits prev) 0) as [He|Hne].
  - eexists _, [false]. split; [done|]. split; [exact (put_bit_spec w 0 Hw ltac:(lia))|].
    apply N.lxor_eq in He as <-. intros bs pre post Hs. unfold decode_value.
    rewrite get_bit_spec, Hs, lookup_app_r, Nat.sub_diag by lia. cbn [app lookup list_lookup mbind Res_bind].
    change (0 =? 0) with true. cbn iota. do 3 f_equal. rewrite length_app. cbn. lia.
  - destruct (xor_window _ Hne Hx) as (Hlz & Htz & Hm & Hsum & _). cbv zeta. set (x := N.lxor bits prev) in *.
    pose proof (window_codes prev bits Hne Hx) as Hcodes. cbv zeta in Hcodes. fold x in Hcodes.
    rewrite (N.min_l (leading_zeros x)) by done. set (lz := leading_zeros x) in *. set (tz := trailing_zeros x) in *.
    rewrite sub_ok by lia. cbn [mbind Res_bind]. rewrite sub_ok by lia. cbn [mbind Res_bind].
    rewrite sub_ok by lia. cbn [mbind Res_bind].
    unfold shr_or_panic. destruct (N.leb_spec 64 tz); [lia|]. cbn [mbind Res_bind].
    eexists _, _. split; [done|]. split; [|exact Hcodes]. unfold window.
    pose proof (put_bit_spec w 1 Hw ltac:(lia)) as W1. pose proof (put_bits_writes _ lz 6 (proj1 W1)) as W2.
    pose proof (put_bits_writes _ (64 - lz - tz - 1) 6 (proj1 W2)) as W3.
    eapply writes_trans; [exact W1|]. eapply writes_trans; [exact W2|]. eapply writes_trans; [exact W3|].
    by apply put_bits_writes, W3.
Qed.

Lemma encode_loop_spec values : ∀ w prev, writer_ok w → prev < 2 ^ 64 → Forall (λ v, v < 2 ^ 64) values →
  ∃ w' l, encode_loop w prev values = ROk w' ∧ writes w l w' ∧ ∀ bs pre post, stream bs = pre ++ l ++ post →
    decode_loop (length values) bs prev (reader_at (length pre)) = ROk values.
Proof.
  induction values as [|v values IH]; intros w prev Hw Hp Hf; cbn [encode_loop].
  { exists w, []. split_and!; [done|split; [done|by rewrite app_nil_r]|done]. }
  inversion Hf as [|? ? Hv Hf']; subst. destruct (encode_value_spec w prev v Hw Hp Hv) as (w1 & l1 & -> & W1 & C1).
  destruct (IH w1 v (proj1 W1) Hv Hf') as (w2 & l2 & E2 & W2 & C2). cbn [mbind Res_bind].
  exists w2, (l1 ++ l2). split_and!; [done|by eapply writes_trans|]. intros bs pre post Hs.
  rewrite <- (assoc_L (++)) in Hs. cbn [length decode_loop]. rewrite (C1 bs pre _ Hs). cbn [mbind Res_bind].
  rewrite (assoc_L (++)) in Hs. rewrite (C2 bs _ _ Hs). done.
Qed.

(** A float column survives its codec bit for bit: every column of 64-bit patterns
    (NaN payloads, infinities and negative zero among them) encodes without panicking,
    and decoding that many values from the result returns the column. *)
Theorem float_column_roundtrip (values : list N) : Forall (λ v, v < 2 ^ 64) values →
  ∃ bs, encode values = ROk bs ∧ decode bs (N.of_nat (length values)) = ROk values.
Proof.
  destruct values as [|v values]; intros Hf; [by exists []|].
  inversion Hf as [|? ? Hv Hf']; subst. unfold encode.
  pose proof (put_bits_writes new_writer v 64 ltac:(done)) as W1.
  destruct (encode_loop_spec values _ v (proj1 W1) Hv Hf') as (w & l & -> & W & C). cbn [mbind Res_bind].
  destruct (finish_spec w (proj1 W)) as [pad Hpad]. exists (finish w). split; [done|].
  pose proof (writes_trans _ _ _ _ _ W1 W) as [_ Hbits]. change (wbits new_writer) with (@nil bool) in Hbits.
  rewrite Hbits in Hpad. cbn [app] in Hpad. unfold decode. destruct (N.eqb_spec (N.of_nat (length (v :: values))) 0); [done|].
  rewrite <- (assoc_L (++)) in Hpad.
  pose proof (get_bits_spec (finish w) v 64 [] _ Hv ltac:(lia) Hpad : get_bits (finish w) new_reader 64 = _) as ->.
  cbn [mbind Res_bind length]. replace (N.to_nat (N.of_nat (S (length values)) - 1)) with (length values) by lia.
  replace (0 + N.to_nat 64)%nat with (length (low 64 v)) by (by rewrite low_length).
  rewrite (C (finish w) (low 64 v) pad Hpad). done.
Qed.

Lemma float_column_roundtrip_witness :
  encode [4614256656552045848; 4614256656552045848; 9223372036854775808] = ROk [64; 9; 33; 251; 84; 68; 45; 24; 64; 243; 0; 36; 135; 237; 81; 16; 180; 96]
  ∧ ∃ bs, encode [4614256656552045848; 4614256656552045848; 9223372036854775808] = ROk bs
      ∧ decode bs 3 = ROk [4614256656552045848; 4614256656552045848; 9223372036854775808].
Proof.
  split; [vm_compute; reflexivity|].
  apply (float_column_roundtrip [4614256656552045848; 4614256656552045848; 9223372036854775808]).
  repeat constructor; vm_compute; reflexivity.
Defined.
