(* ===== verification/ColTotal.v ===== *)
(** * graphus-columnar: the decoders on untrusted bytes

    Every decoder of the crate, handed arbitrary bytes and an arbitrary row count,
    answers with that many values or with an error. The only assumption is that the
    buffer is shorter than [2^61] bytes, so that its length in bits is a [u64]. *)

From stdpp Require Import options.
From S2P Require Import Prelude Core Bytes Columnar ColInteger ColDict Gorilla.

Definition answers {A} (count : N) (r : Res (list A)) : Prop :=
  match r with ROk l => length l = N.to_nat count | RErr _ => True | RPanic => False end.

(** An error or a value, never a panic; and what holds of the value. *)
Definition safe {A} (Q : A → Prop) (r : Res A) : Prop :=
  match r with ROk a => Q a | RErr _ => True | RPanic => False end.

Lemma safe_bind {A B} (P : A → Prop) (Q : B → Prop) (r : Res A) (f : A → Res B) :
  safe P r → (∀ a, P a → safe Q (f a)) → safe Q (r ≫= f).
Proof. destruct r; cbn; auto. Qed.

Lemma get_u64_safe b at_ what : safe (λ _, True) (ColInt.get_u64 b at_ what).
Proof. unfold ColInt.get_u64. by destruct (slice b at_ 8). Qed.

Lemma get_width_safe b at_ : safe (λ _, True) (ColInt.get_width b at_).
Proof. unfold ColInt.get_width. by destruct (b !! at_). Qed.

Lemma get_u32_safe b at_ what : safe (λ _, True) (Dict.get_u32 b at_ what).
Proof. unfold Dict.get_u32. by destruct (slice b at_ 4). Qed.

Lemma unpack_safe bs count width : blen bs < 2 ^ 61 →
  safe (λ l, length l = N.to_nat count) (Bitpack.unpack bs count width).
Proof. intros Hb. pose proof (unpack_total bs count width Hb). destruct (Bitpack.unpack bs count width); naive_solver. Qed.

Lemma for_unpack_safe min width payload count : blen payload < 2 ^ 61 →
  safe (λ l, length l = N.to_nat count) (ColInt.for_unpack min width payload count).
Proof.
  intros Hb. unfold ColInt.for_unpack. eapply safe_bind; [by apply unpack_safe|]. intros os Hos. cbn. by rewrite length_fmap.
Qed.

Lemma blen_drop_lt n bs m : blen bs < m → blen (drop n bs) < m.
Proof. unfold blen. rewrite length_drop. lia. Qed.

Lemma undelta_length cur zz : length (ColInt.undelta cur zz) = length zz.
Proof. revert cur. induction zz; intros; cbn; auto. Qed.

Lemma undouble_length cur d zz : length (ColInt.undouble cur d zz) = length zz.
Proof. revert cur d. induction zz; intros; cbn; auto. Qed.

Create HintDb columnar.
#[export] Hint Resolve get_u64_safe get_width_safe get_u32_safe unpack_safe for_unpack_safe blen_drop_lt : columnar.
Ltac safe_step := eapply safe_bind; [by auto with columnar|intros ? ?; cbn beta in *].

Lemma decode_i64_safe bs count : blen bs < 2 ^ 61 → safe (λ l, length l = N.to_nat count) (ColInt.decode_i64 bs count).
Proof.
  intros Hb. unfold ColInt.decode_i64. destruct (N.eqb_spec count 0) as [->|Hc]; [done|].
  destruct bs as [|scheme bs']; [done|]. set (bs := scheme :: bs') in *.
  destruct (scheme =? ColInt.FOR); [|destruct (scheme =? ColInt.DELTA); [|destruct (scheme =? ColInt.DOUBLE_DELTA); [|done]]].
  - do 3 safe_step. cbn. by rewrite length_fmap.
  - do 4 safe_step. cbn [safe length]. rewrite undelta_length. lia.
  - do 5 safe_step. cbn [safe length]. destruct (N.leb_spec 2 count); cbn [length]; [rewrite undouble_length|]; lia.
Qed.

Lemma read_entries_safe num : ∀ bs pos, safe (λ _, True) (Dict.read_entries num bs pos).
Proof.
  induction num as [|num IH]; intros bs pos; cbn [Dict.read_entries]; [done|]. safe_step.
  destruct (slice bs _ _); [|done]. eapply safe_bind; [apply IH|]. by intros [ds p] _.
Qed.

Lemma read_dict_header_safe bs : blen bs < 2 ^ 61 →
  safe (λ '(dict, width, payload), blen payload < 2 ^ 61) (Dict.read_dict_header bs).
Proof.
  intros Hb. unfold Dict.read_dict_header. safe_step. eapply safe_bind; [apply read_entries_safe|]. intros [dict pos] _.
  destruct (bs !! pos); [|done]. cbn. by apply blen_drop_lt.
Qed.

Lemma lookup_codes_safe dict codes : safe (λ out, length out = length codes) (Dict.lookup_codes dict codes).
Proof.
  induction codes as [|c codes IH]; cbn [Dict.lookup_codes]; [done|]. destruct (dict !! N.to_nat c); [|done].
  eapply safe_bind; [exact IH|]. intros out Ho. cbn. by rewrite Ho.
Qed.

Lemma check_codes_safe len raw :
  safe (λ codes, length codes = length raw ∧ Forall (λ c, c < N.of_nat len) codes) (Dict.check_codes len raw).
Proof.
  induction raw as [|c raw IH]; cbn [Dict.check_codes]; [done|]. destruct (N.leb_spec (N.of_nat len) c); [done|].
  eapply safe_bind; [exact IH|]. intros codes [Hl Hf]. cbn. split; [by rewrite Hl|]. constructor; [|done].
  eapply N.le_lt_trans; [|done]. apply N.Div0.mod_le.
Qed.

Lemma dict_decode_safe bs count : blen bs < 2 ^ 61 → safe (λ l, length l = N.to_nat count) (Dict.decode bs count).
Proof.
  intros Hb. unfold Dict.decode. eapply safe_bind; [by apply read_dict_header_safe|]. intros [[dict width] payload] Hp.
  eapply safe_bind; [by apply unpack_safe|]. intros codes Hl. rewrite <- Hl. apply lookup_codes_safe.
Qed.

Lemma decode_codes_safe bs count : blen bs < 2 ^ 61 →
  safe (λ '(codes, dict), length codes = N.to_nat count ∧ Forall (λ c, c < N.of_nat (length dict)) codes) (Dict.decode_codes bs count).
Proof.
  intros Hb. unfold Dict.decode_codes. eapply safe_bind; [by apply read_dict_header_safe|]. intros [[dict width] payload] Hp.
  eapply safe_bind; [by apply unpack_safe|]. intros raw Hl. eapply safe_bind; [apply check_codes_safe|].
  intros codes [Hlen Hf]. cbn. split; [congruence|done].
Qed.

(** A reader the decoder can be in: between two bits of the stream. *)
Definition in_stream (r : Gorilla.BitReader) : Prop := ∃ p, r = reader_at p.

Lemma get_bit_safe bs r : in_stream r → safe (λ '(_, r), in_stream r) (Gorilla.get_bit bs r).
Proof. intros [p ->]. rewrite get_bit_spec. destruct (stream bs !! p); [|done]. cbn. by eexists. Qed.

Lemma get_bits_safe bs r n : in_stream r → safe (λ '(_, r), in_stream r) (Gorilla.get_bits bs r n).
Proof.
  unfold Gorilla.get_bits. generalize 0. revert r. induction (N.to_nat n) as [|m IH]; intros r v Hr; [done|].
  cbn [Gorilla.get_bits_loop]. eapply safe_bind; [by apply get_bit_safe|]. intros [b r'] Hr'. by apply IH.
Qed.

Lemma decode_value_safe bs prev r : in_stream r → safe (λ '(_, r), in_stream r) (Gorilla.decode_value bs prev r).
Proof.
  intros Hr. unfold Gorilla.decode_value. eapply safe_bind; [by apply get_bit_safe|]. intros [b r1] H1.
  destruct (b =? 0); [done|]. eapply safe_bind; [by apply get_bits_safe|]. intros [lz r2] H2.
  eapply safe_bind; [by apply get_bits_safe|]. intros [m r3] H3. cbv zeta.
  destruct (N.ltb_spec 64 (lz + (m + 1))); [done|]. rewrite sub_ok by lia. cbn [mbind Res_bind].
  rewrite sub_ok by lia. cbn [mbind Res_bind]. eapply safe_bind; [by apply get_bits_safe|]. intros [mant r4] H4.
  rewrite shl_ok by lia. done.
Qed.

Lemma gorilla_decode_safe bs count : safe (λ l, length l = N.to_nat count) (Gorilla.decode bs count).
Proof.
  assert (∀ n prev r, in_stream r → safe (λ l, length l = n) (Gorilla.decode_loop n bs prev r)) as Hloop.
  { induction n as [|n IH]; intros prev r Hr; cbn [Gorilla.decode_loop]; [done|].
    eapply safe_bind; [by apply decode_value_safe|]. intros [p r'] Hr'. eapply safe_bind; [by apply IH|].
    intros out Ho. cbn [safe length]. by rewrite Ho. }
  unfold Gorilla.decode. destruct (N.eqb_spec count 0) as [->|Hc]; [done|].
  eapply safe_bind; [apply get_bits_safe; by exists 0%nat|]. intros [prev r] Hr. eapply safe_bind; [by apply Hloop|].
  intros out Ho. cbn beta in Ho. cbn [safe length]. lia.
Qed.

(** C40: Untrusted column bytes never panic a decoder. On any buffer shorter than [2^61]
    bytes and for any row count, each of the crate's decoders either returns exactly the
    requested number of values or reports a [DecodeError]; and the codes [decode_codes]
    returns all index the dictionary it returns. *)
Theorem columnar_decoders_total (bs : bytes) (count : N) : blen bs < 2 ^ 61 →
  answers count (ColInt.decode_i64 bs count) ∧ answers count (Dict.decode bs count)
  ∧ answers count (Gorilla.decode bs count) ∧ answers count (decode_bool bs count)
  ∧ match Dict.decode_codes bs count with
    | ROk (codes, dict) => length codes = N.to_nat count ∧ Forall (λ c, c < N.of_nat (length dict)) codes
    | RErr _ => True
    | RPanic => False
    end.
Proof.
  intros Hb. split_and!.
  - exact (decode_i64_safe bs count Hb).
  - exact (dict_decode_safe bs count Hb).
  - exact (gorilla_decode_safe bs count).
  - unfold decode_bool. eapply (safe_bind _ (λ l, length l = N.to_nat count)); [by apply unpack_safe|].
    intros vs Hvs. cbn. by rewrite length_fmap.
  - exact (decode_codes_safe bs count Hb).
Qed.

Lemma columnar_decoders_total_witness :
  ColInt.decode_i64 [1; 0; 0] 5 = RErr (Truncated "Delta first")
  ∧ Gorilla.decode [0; 0; 0; 0; 0; 0; 0; 0; 255; 255] 2 = RErr (Corrupt "gorilla leading+meaningful exceeds 64 bits")
  ∧ answers 2 (Gorilla.decode [0; 0; 0; 0; 0; 0; 0; 0; 255; 255] 2).
Proof.
  split; [vm_compute; reflexivity|]. split; [vm_compute; reflexivity|].
  apply (columnar_decoders_total [0; 0; 0; 0; 0; 0; 0; 0; 255; 255] 2). vm_compute. reflexivity.
Defined.
