(* ===== verification/GroupSync.v ===== *)
(** * graphus-groupsync: the group-staging barrier

    [src/crates/graphus-groupsync/src/lib.rs] as a machine whose threads interleave. A
    thread's program counter names the point of [ticket] and [wait_durable] it is at, with
    the locals live there; a step is a piece of code between two points at which another
    thread can be scheduled. The mutex, the condition variable (spurious wake-ups
    included) and the device are explicit. The barrier closure is the caller's: all that
    is known of it is that a successful one makes everything durable that had been written
    when it started, and that it never makes more durable than has been written. *)

From stdpp Require Import options.
From S2P Require Import Prelude Core.

Definition MAX_BARRIER_ROUNDS : nat := 64.

Record BarrierState := mkBarrierState { durable : N; flushing : bool; failed_rounds : N }.

(** The atomics; the state behind the mutex and who holds it. *)
Record StagingBarrier := mkBarrier {
  issued : N; bstate : BarrierState; holder : option N; barriers : N; piggybacked : N }.

Definition new : StagingBarrier := mkBarrier 0 (mkBarrierState 0 false 0) None 0 0.

(** Where a thread is. [w] names the staging writes it covers, [k] its ticket, [r] the
    rounds of the loop it has begun. *)
Inductive Pc :=
  | Idle
  | Wrote (w : N)                                       (* its writes have returned *)
  | Ticketed (w k : N)                                  (* between [ticket] and [wait_durable] *)
  | Locking (w k : N) (led : bool) (r : nat)            (* wants the mutex, then the loop's top *)
  | Top (w k : N) (led : bool) (r : nat)                (* at the loop's top, holds the mutex *)
  | Waiting (w k : N) (led : bool) (r : nat) (notified : bool)
  | Leading (w k : N) (r : nat) (target : N)            (* released the mutex, about to sync *)
  | Syncing (w k : N) (r : nat) (target : N) (snap : gset N)
  | Synced (w k : N) (r : nat) (target : N) (ok : bool) (* wants the mutex *)
  | Exhausted (w k : N)                                 (* behind the loop, still holds the mutex, wants it *)
  | Done (w k : N) (led : bool)                         (* returned [Ok led] *)
  | Failed (w k : N).                                   (* returned [Err] *)

Record State := mkState { bar : StagingBarrier; written : gset N; stable : gset N; pcs : gmap N Pc }.

Definition init : State := mkState new ∅ ∅ ∅.
Definition pc (s : State) (t : N) : Pc := default Idle (pcs s !! t).

Definition set_pc (t : N) (p : Pc) (s : State) : State := mkState (bar s) (written s) (stable s) (<[t := p]> (pcs s)).
Definition set_bar (b : StagingBarrier) (s : State) : State := mkState b (written s) (stable s) (pcs s).
Definition with_state (f : BarrierState → BarrierState) (b : StagingBarrier) : StagingBarrier :=
  mkBarrier (issued b) (f (bstate b)) (holder b) (barriers b) (piggybacked b).
Definition with_holder (h : option N) (b : StagingBarrier) : StagingBarrier :=
  mkBarrier (issued b) (bstate b) h (barriers b) (piggybacked b).

(** [AtomicU64::fetch_add(1)]. *)
Definition wrapping_succ (n : N) : N := (n + 1) mod 2 ^ 64.

Definition ticket (b : StagingBarrier) : N * StagingBarrier :=
  (wrapping_succ (issued b), mkBarrier (wrapping_succ (issued b)) (bstate b) (holder b) (barriers b) (piggybacked b)).

(** [Condvar::notify_all]. *)
Definition notify (p : Pc) : Pc := match p with Waiting w k led r _ => Waiting w k led r true | p => p end.
Definition notify_all (s : State) : State := mkState (bar s) (written s) (stable s) (notify <$> pcs s).

(** One round of the loop from its top, up to the point where the mutex is released. *)
Definition top (t w k : N) (led : bool) (r : nat) (s : State) : State :=
  let b := bar s in
  if decide (r = MAX_BARRIER_ROUNDS) then set_pc t (Exhausted w k) s
  else if k <=? durable (bstate b) then
    let b := if led then b else mkBarrier (issued b) (bstate b) (holder b) (barriers b) (wrapping_succ (piggybacked b)) in
    set_pc t (Done w k led) (set_bar (with_holder None b) s)
  else if flushing (bstate b) then
    set_pc t (Waiting w k led (S r) false) (set_bar (with_holder None b) s)
  else
    let target := issued b in
    let b := with_state (λ st, mkBarrierState (durable st) true (failed_rounds st)) b in
    set_pc t (Leading w k (S r) target) (set_bar (with_holder None b) s).

(** What a leader does when it has the mutex again. *)
Definition conclude (t w k : N) (r : nat) (target : N) (ok : bool) (s : State) : State :=
  let b := with_state (λ st, mkBarrierState (durable st) false (failed_rounds st)) (bar s) in
  if ok then
    let b := with_state (λ st, if durable st <? target then mkBarrierState target (flushing st) (failed_rounds st) else st) b in
    set_pc t (Top w k true r) (notify_all (set_bar (with_holder (Some t) b) s))
  else
    let b := with_state (λ st, mkBarrierState (durable st) (flushing st) (wrapping_succ (failed_rounds st))) b in
    set_pc t (Failed w k) (notify_all (set_bar (with_holder None b) s)).

(** What can happen next. *)
Inductive Event :=
  | EWrite (t w : N)                           (* [t]'s staging writes return *)
  | ETicket (t : N)
  | ECall (t : N)                              (* calls [wait_durable] *)
  | ELock (t : N)                              (* is given the mutex *)
  | ETop (t : N)
  | EWake (t : N) (spurious : bool)
  | ESync (t : N)                              (* the barrier starts *)
  | ESynced (t : N) (ok : bool) (flushed : gset N)  (* and returns *)
  | EAgain (t : N).                            (* the thread goes on to another eviction *)

Definition step (e : Event) (s : State) : option State :=
  match e with
  | EWrite t w =>
      match pc s t with
      | Idle => Some (set_pc t (Wrote w) (mkState (bar s) ({[w]} ∪ written s) (stable s) (pcs s)))
      | _ => None
      end
  | ETicket t =>
      match pc s t with
      | Wrote w => let '(k, b) := ticket (bar s) in Some (set_pc t (Ticketed w k) (set_bar b s))
      | _ => None
      end
  | ECall t =>
      match pc s t with Ticketed w k => Some (set_pc t (Locking w k false 0) s) | _ => None end
  | ELock t =>
      match holder (bar s) with
      | Some _ => None
      | None =>
          match pc s t with
          | Locking w k led r => Some (set_pc t (Top w k led r) (set_bar (with_holder (Some t) (bar s)) s))
          | Synced w k r target ok => Some (conclude t w k r target ok s)
          | Exhausted w k => Some (set_pc t (Failed w k) s)
          | _ => None
          end
      end
  | ETop t => match pc s t with Top w k led r => Some (top t w k led r s) | _ => None end
  | EWake t spurious =>
      match pc s t with
      | Waiting w k led r notified =>
          if notified || spurious then Some (set_pc t (Locking w k led r) s) else None
      | _ => None
      end
  | ESync t =>
      match pc s t with
      | Leading w k r target =>
          let b := bar s in
          Some (set_pc t (Syncing w k r target (written s))
            (set_bar (mkBarrier (issued b) (bstate b) (holder b) (wrapping_succ (barriers b)) (piggybacked b)) s))
      | _ => None
      end
  | ESynced t ok flushed =>
      match pc s t with
      | Syncing w k r target snap =>
          if bool_decide (flushed ⊆ written s) && (negb ok || bool_decide (snap ⊆ flushed))
          then Some (set_pc t (Synced w k r target ok) (mkState (bar s) (written s) (flushed ∪ stable s) (pcs s)))
          else None
      | _ => None
      end
  | EAgain t =>
      match pc s t with Done _ _ _ | Failed _ _ => Some (set_pc t Idle s) | _ => None end
  end.

Fixpoint run (es : list Event) (s : State) : option State :=
  match es with [] => Some s | e :: es => step e s ≫= run es end.

(** ** The invariant *)
Definition ticket_of (p : Pc) : option (N * N) :=
  match p with
  | Idle | Wrote _ => None
  | Ticketed w k | Locking w k _ _ | Top w k _ _ | Waiting w k _ _ _ | Leading w k _ _ | Syncing w k _ _ _
  | Synced w k _ _ _ | Exhausted w k | Done w k _ | Failed w k => Some (w, k)
  end.
Definition target_of (p : Pc) : option N :=
  match p with Leading _ _ _ g | Syncing _ _ _ g _ | Synced _ _ _ g _ => Some g | _ => None end.
Definition holds (p : Pc) : Prop := match p with Top _ _ _ _ | Exhausted _ _ => True | _ => False end.

#[global] Instance holds_dec p : Decision (holds p).
Proof. destruct p; cbn; apply _. Defined.

(** What a thread that is at [p] may rely on. *)
Definition pc_ok (s : State) (p : Pc) : Prop :=
  let d := durable (bstate (bar s)) in
  match p with
  | Idle | Failed _ _ | Ticketed _ _ | Exhausted _ _ => True
  | Wrote w => w ∈ written s
  | Locking _ k led _ | Top _ k led _ => led = true → k ≤ d
  | Waiting _ k led _ notified => (led = true → k ≤ d) ∧ (notified = false → flushing (bstate (bar s)) = true)
  | Leading _ k _ g | Synced _ k _ g _ => k ≤ g ≤ issued (bar s)
  | Syncing _ k _ g snap => k ≤ g ≤ issued (bar s) ∧ snap ⊆ written s
  | Done _ k _ => k ≤ d
  end.

(** The writes behind every ticket up to [g] are in [set]. *)
Definition covers (s : State) (g : N) (set : gset N) : Prop :=
  ∀ u w k, ticket_of (pc s u) = Some (w, k) → k ≤ g → w ∈ set.

Record inv (s : State) : Prop := {
  i_durable : durable (bstate (bar s)) ≤ issued (bar s);
  i_covered : covers s (durable (bstate (bar s))) (stable s);
  i_ticket t w k : ticket_of (pc s t) = Some (w, k) → k ≤ issued (bar s) ∧ w ∈ written s;
  i_pc t : pc_ok s (pc s t);
  i_syncing t w k r g snap : pc s t = Syncing w k r g snap → covers s g snap;
  i_synced t w k r g : pc s t = Synced w k r g true → covers s g (stable s);
  i_holder t : holder (bar s) = Some t ↔ holds (pc s t);
  i_flushing : flushing (bstate (bar s)) = true ↔ ∃ t, is_Some (target_of (pc s t));
  i_leader t u : is_Some (target_of (pc s t)) → is_Some (target_of (pc s u)) → t = u;
}.

Lemma pc_set_pc t p s u : pc (set_pc t p s) u = if decide (u = t) then p else pc s u.
Proof. unfold pc, set_pc. cbn. destruct (decide (u = t)) as [->|]; [by rewrite lookup_insert_eq|by rewrite lookup_insert_ne]. Qed.

Lemma pc_set_bar b s u : pc (set_bar b s) u = pc s u.
Proof. done. Qed.

Lemma pc_notify_all s u : pc (notify_all s) u = notify (pc s u).
Proof. unfold pc, notify_all. cbn. rewrite lookup_fmap. by destruct (pcs s !! u). Qed.

Lemma ticket_of_notify p : ticket_of (notify p) = ticket_of p.
Proof. by destruct p. Qed.
Lemma target_of_notify p : target_of (notify p) = target_of p.
Proof. by destruct p. Qed.
Lemma holds_notify p : holds (notify p) ↔ holds p.
Proof. by destruct p. Qed.

Lemma init_inv : inv init.
Proof.
  assert (∀ t, pc init t = Idle) as Hp by done.
  split; try (intros; rewrite ?Hp in *; done).
  - split; [done|]. intros [t Ht]. rewrite Hp in Ht. by destruct Ht.
  - intros t u [? Ht]. by rewrite Hp in Ht.
Qed.

(** Threads other than the one that moves: what their points rely on survives. *)
Lemma pc_ok_mono s s' p :
  durable (bstate (bar s)) ≤ durable (bstate (bar s')) → issued (bar s) ≤ issued (bar s') →
  written s ⊆ written s' → flushing (bstate (bar s')) = flushing (bstate (bar s)) → pc_ok s p → pc_ok s' p.
Proof.
  intros Hd Hi Hw Hf. destruct p; cbn; try done; intros; try lia.
  - set_solver.
  - naive_solver lia.
  - naive_solver lia.
  - rewrite Hf. naive_solver lia.
  - split; [lia|set_solver].
Qed.

(** A step that moves [t] and leaves tickets, targets and durability as they are. *)
Record quiet (t : N) (p' : Pc) (s s' : State) : Prop := {
  q_pc u : pc s' u = if decide (u = t) then p' else pc s u;
  q_issued : issued (bar s') = issued (bar s);
  q_state : bstate (bar s') = bstate (bar s);
  q_written : written s ⊆ written s';
  q_stable : stable s ⊆ stable s';
  q_ticket x : ticket_of p' = Some x → ticket_of (pc s t) = Some x;
  q_target : target_of p' = target_of (pc s t);
  q_syncing w k r g snap : p' = Syncing w k r g snap → snap = written s;
  q_synced w k r g : p' = Synced w k r g true → covers s g (stable s');
  q_holder : holder (bar s') = (if decide (holds p') then Some t else if decide (holds (pc s t)) then None else holder (bar s));
  q_free : holds p' → holds (pc s t) ∨ holder (bar s) = None;
  q_ok : pc_ok s' p';
}.

Lemma covers_less s s' g set set' : (∀ u x, ticket_of (pc s' u) = Some x → ticket_of (pc s u) = Some x) → set ⊆ set' →
  covers s g set → covers s' g set'.
Proof. intros Ht Hsub Hc u w k Hu Hk. apply Hsub. eapply Hc; [by apply Ht|done]. Qed.

Lemma quiet_inv t p' s s' : quiet t p' s s' → inv s → inv s'.
Proof.
  intros [Hpc Hi Hs Hw Hst Ht Hg Hy1 Hy2 Hh Hfree Hok] I.
  assert (∀ u x, ticket_of (pc s' u) = Some x → ticket_of (pc s u) = Some x) as HT.
  { intros u x. rewrite Hpc. destruct (decide (u = t)) as [->|]; auto. }
  assert (∀ u, target_of (pc s' u) = target_of (pc s u)) as HG by (intros u; rewrite Hpc; by destruct (decide (u = t)) as [->|]).
  split.
  - rewrite Hs, Hi. apply I.
  - rewrite Hs. eapply covers_less; [exact HT|exact Hst|]. apply I.
  - intros u w k Hu. rewrite Hi. destruct (i_ticket s I u w k (HT _ _ Hu)). split; [done|set_solver].
  - intros u. rewrite Hpc. destruct (decide (u = t)); [done|]. apply (pc_ok_mono s); rewrite ?Hs, ?Hi; try done. apply I.
  - intros u w k r g snap Hu. apply (covers_less s _ _ snap); [exact HT|done|]. rewrite Hpc in Hu.
    destruct (decide (u = t)) as [->|]; [|by eapply (i_syncing s I)].
    rewrite (Hy1 _ _ _ _ _ Hu). intros v w' k' Hv _. by eapply (i_ticket s I).
  - intros u w k r g Hu. rewrite Hpc in Hu. destruct (decide (u = t)) as [->|].
    + apply (covers_less s _ _ (stable s')); [exact HT|done|]. by eapply Hy2.
    + apply (covers_less s _ _ (stable s)); [exact HT|done|]. by eapply (i_synced s I).
  - intros u. rewrite Hpc, Hh. pose proof (i_holder s I) as IH.
    destruct (decide (u = t)) as [->|Hne].
    + destruct (decide (holds p')); [naive_solver|]. destruct (decide (holds (pc s t))); [naive_solver|]. naive_solver.
    + rewrite <- (IH u). destruct (decide (holds p')) as [Hp'|].
      { split; [congruence|]. intros Hu. destruct (Hfree Hp') as [Hold|Hnone]; [|congruence]. apply IH in Hold. congruence. }
      destruct (decide (holds (pc s t))) as [Hold|]; [|done]. apply IH in Hold. split; congruence.
  - rewrite Hs, (i_flushing s I). split; intros [u Hu]; exists u; by rewrite ?HG in *.
  - intros u v. rewrite !HG. apply I.
Qed.

(** The moves that are not [quiet]: a new ticket, becoming the leader, and concluding a round. *)
Lemma ticket_inv t w s : inv s → pc s t = Wrote w → issued (bar s) + 1 < 2 ^ 64 →
  inv (set_pc t (Ticketed w (ticket (bar s)).1) (set_bar (ticket (bar s)).2 s)).
Proof.
  intros I Hp Hb. unfold ticket, wrapping_succ. rewrite N.mod_small by done. cbn [fst snd].
  set (s' := set_pc _ _ _). assert (∀ u, pc s' u = if decide (u = t) then Ticketed w (issued (bar s) + 1) else pc s u) as Hpc
    by (intros; unfold s'; by rewrite pc_set_pc).
  pose proof (i_durable s I) as Hd. pose proof (i_pc s I t) as Hok. rewrite Hp in Hok. cbn in Hok.
  assert (∀ g set, g ≤ issued (bar s) → covers s g set → covers s' g set) as Hcov.
  { intros g set Hg Hc u w' k Hu Hk. rewrite Hpc in Hu. destruct (decide (u = t)); [|by eapply Hc]. cbn in Hu. simplify_eq. lia. }
  assert (∀ u, target_of (pc s' u) = target_of (pc s u)) as HG by (intros u; rewrite Hpc; destruct (decide (u = t)) as [->|]; [by rewrite Hp|done]).
  split; cbn.
  - lia.
  - apply Hcov; [done|]. apply I.
  - intros u w' k. rewrite Hpc. destruct (decide (u = t)); [cbn; intros; simplify_eq; split; [lia|done]|].
    intros Hu. destruct (i_ticket s I u w' k Hu). split; [lia|done].
  - intros u. rewrite Hpc. destruct (decide (u = t)); [done|]. apply (pc_ok_mono s); cbn; try done; [lia|]. apply I.
  - intros u w' k r g snap. rewrite Hpc. destruct (decide (u = t)); [done|]. intros Hu. apply Hcov; [|by eapply (i_syncing s I)].
    pose proof (i_pc s I u) as Hq. rewrite Hu in Hq. cbn in Hq. lia.
  - intros u w' k r g. rewrite Hpc. destruct (decide (u = t)); [done|]. intros Hu. apply Hcov; [|by eapply (i_synced s I)].
    pose proof (i_pc s I u) as Hq. rewrite Hu in Hq. cbn in Hq. lia.
  - intros u. rewrite Hpc, (i_holder s I u). destruct (decide (u = t)) as [->|]; [by rewrite Hp|done].
  - rewrite (i_flushing s I). split; intros [u Hu]; exists u; by rewrite ?HG in *.
  - intros u v. rewrite !HG. apply I.
Qed.

Lemma lead_inv t w k led r s : inv s → pc s t = Top w k led r → flushing (bstate (bar s)) = false → durable (bstate (bar s)) < k →
  inv (set_pc t (Leading w k (S r) (issued (bar s)))
    (set_bar (with_holder None (with_state (λ st, mkBarrierState (durable st) true (failed_rounds st)) (bar s))) s)).
Proof.
  intros I Hp Hf Hk. set (s' := set_pc _ _ _).
  assert (∀ u, pc s' u = if decide (u = t) then Leading w k (S r) (issued (bar s)) else pc s u) as Hpc
    by (intros; unfold s'; by rewrite pc_set_pc).
  assert (∀ u, ticket_of (pc s' u) = ticket_of (pc s u)) as HT by (intros u; rewrite Hpc; destruct (decide (u = t)) as [->|]; [by rewrite Hp|done]).
  assert (∀ u, target_of (pc s u) = None) as Hnone.
  { intros u. destruct (target_of (pc s u)) eqn:Hu; [|done].
    assert (flushing (bstate (bar s)) = true) by (apply (i_flushing s I); eauto). congruence. }
  assert (∀ g set, covers s g set → covers s' g set) as Hcov by (intros g set Hc u ??; rewrite HT; apply Hc).
  assert (∀ u, is_Some (target_of (pc s' u)) → u = t) as Hlead.
  { intros u [g Hg]. rewrite Hpc in Hg. destruct (decide (u = t)); [done|]. by rewrite Hnone in Hg. }
  split; cbn.
  - apply I.
  - apply Hcov, I.
  - intros u w' k'. rewrite HT. apply I.
  - intros u. rewrite Hpc. destruct (decide (u = t)) as [->|Hne].
    + cbn. split; [|done]. eapply (i_ticket s I t w). by rewrite Hp.
    + pose proof (i_pc s I u) as Hu. destruct (pc s u); cbn in *; try done; naive_solver.
  - intros u w' k' r' g snap. rewrite Hpc. destruct (decide (u = t)); [done|]. intros Hu. apply Hcov. by eapply (i_syncing s I).
  - intros u w' k' r' g. rewrite Hpc. destruct (decide (u = t)); [done|]. intros Hu. apply Hcov. by eapply (i_synced s I).
  - intros u. rewrite Hpc. pose proof (i_holder s I) as IH. assert (holder (bar s) = Some t) by (apply IH; by rewrite Hp).
    destruct (decide (u = t)) as [->|Hne]; [done|]. rewrite <- (IH u). split; [done|congruence].
  - split; [|done]. intros _. exists t. rewrite Hpc, decide_True by done. by eexists.
  - intros u v Hu%Hlead Hv%Hlead. congruence.
Qed.

Lemma conclude_inv t w k r g ok s : inv s → pc s t = Synced w k r g ok → holder (bar s) = None → inv (conclude t w k r g ok s).
Proof.
  intros I Hp Hh. set (p' := if ok then Top w k true r else Failed w k).
  set (d := if ok then N.max (durable (bstate (bar s))) g else durable (bstate (bar s))).
  pose proof (i_pc s I t) as Hg. rewrite Hp in Hg. cbn in Hg. pose proof (i_durable s I) as Hd.
  assert (∀ u, pc (conclude t w k r g ok s) u = if decide (u = t) then p' else notify (pc s u)) as Hpc.
  { intros u. unfold conclude, p'. destruct ok; rewrite pc_set_pc, pc_notify_all; done. }
  assert (durable (bstate (bar (conclude t w k r g ok s))) = d
    ∧ flushing (bstate (bar (conclude t w k r g ok s))) = false
    ∧ holder (bar (conclude t w k r g ok s)) = (if ok then Some t else None)
    ∧ issued (bar (conclude t w k r g ok s)) = issued (bar s)
    ∧ written (conclude t w k r g ok s) = written s ∧ stable (conclude t w k r g ok s) = stable s) as (Ed & Ef & Eh & Ei & Ew & Es).
  { unfold conclude, d. destruct ok; cbn; [|done]. destruct (N.ltb_spec (durable (bstate (bar s))) g); cbn; split_and!; try done; lia. }
  set (s' := conclude t w k r g ok s) in *. clearbody s'.
  assert (∀ u, ticket_of (pc s' u) = ticket_of (pc s u)) as HT.
  { intros u. rewrite Hpc. destruct (decide (u = t)) as [->|]; [rewrite Hp; unfold p'; by destruct ok|apply ticket_of_notify]. }
  assert (∀ u, target_of (pc s' u) = None) as Hnone.
  { intros u. rewrite Hpc. destruct (decide (u = t)) as [->|Hne]; [unfold p'; by destruct ok|]. rewrite target_of_notify.
    destruct (target_of (pc s u)) eqn:Hu; [|done]. exfalso. apply Hne, (i_leader s I); [by rewrite Hu|by rewrite Hp]. }
  assert (durable (bstate (bar s)) ≤ d ≤ issued (bar s)) as Hdd by (unfold d; destruct ok; lia).
  split.
  - rewrite Ed, Ei. lia.
  - rewrite Ed, Es. intros u w' k' Hu Hk. rewrite HT in Hu. unfold d in Hk.
    destruct (N.le_gt_cases k' (durable (bstate (bar s)))); [by eapply (i_covered s I)|].
    destruct ok; [|lia]. eapply (i_synced s I); [exact Hp|exact Hu|lia].
  - intros u w' k'. rewrite HT, Ei, Ew. apply I.
  - intros u. rewrite Hpc. destruct (decide (u = t)) as [->|Hne].
    + unfold p'. destruct ok; [|done]. cbn. rewrite Ed. intros _. unfold d. lia.
    + pose proof (i_pc s I u) as Hu. destruct (pc s u) eqn:Hpu; cbn in *; rewrite ?Ed, ?Ei, ?Ew; try done; naive_solver lia.
  - intros u w' k' r' g' snap Hu. pose proof (Hnone u) as Hn. by rewrite Hu in Hn.
  - intros u w' k' r' g' Hu. pose proof (Hnone u) as Hn. by rewrite Hu in Hn.
  - intros u. rewrite Eh, Hpc. pose proof (i_holder s I u) as IH. rewrite Hh in IH.
    destruct (decide (u = t)) as [->|Hne]; [unfold p'; destruct ok; naive_solver|]. rewrite holds_notify. destruct ok; naive_solver.
  - rewrite Ef. split; [done|]. intros [u Hu]. rewrite Hnone in Hu. by destruct Hu.
  - intros u v [? Hu]. by rewrite Hnone in Hu.
Qed.

(** The [quiet] obligations of a step that leaves the barrier's counters alone. *)
Ltac quiet_step t p Hp :=
  eapply (quiet_inv t p); [split; cbn; try rewrite Hp; try done; try (intros; rewrite pc_set_pc; done); first [set_solver | naive_solver]|done].

Lemma top_inv t w k led r s : inv s → pc s t = Top w k led r → inv (top t w k led r s).
Proof.
  intros I Hp. pose proof (proj2 (i_holder s I t) ltac:(by rewrite Hp)) as Hh. unfold top.
  case_decide; [quiet_step t (Exhausted w k) Hp|].
  destruct (N.leb_spec k (durable (bstate (bar s)))).
  { eapply (quiet_inv t (Done w k led)); [|done].
    split; try (intros; rewrite pc_set_pc; done); destruct led; cbn; rewrite ?Hp; try done; naive_solver. }
  destruct (flushing (bstate (bar s))) eqn:Hf; [|by apply (lead_inv t w k led)].
  pose proof (i_pc s I t) as Hok. rewrite Hp in Hok. quiet_step t (Waiting w k led (S r) false) Hp.
Qed.

Lemma synced_inv t w k r g snap ok flushed s : inv s → pc s t = Syncing w k r g snap → (ok = true → snap ⊆ flushed) →
  inv (set_pc t (Synced w k r g ok) (mkState (bar s) (written s) (flushed ∪ stable s) (pcs s))).
Proof.
  intros I Hp Hs. pose proof (i_pc s I t) as Hok. rewrite Hp in Hok.
  eapply (quiet_inv t (Synced w k r g ok)); [|done].
  split; cbn; try rewrite Hp; try done; try (intros; rewrite pc_set_pc; done); try naive_solver; [set_solver|].
  intros w' k' r' g' [= <- <- <- <- ->]. intros u w' k' Hu Hk. pose proof (i_syncing s I t _ _ _ _ _ Hp u w' k' Hu Hk). set_solver.
Qed.

Lemma step_inv e s s' : inv s → issued (bar s) + 1 < 2 ^ 64 → step e s = Some s' →
  inv s' ∧ issued (bar s') ≤ issued (bar s) + 1.
Proof.
  intros I Hb Hst. pose proof (i_pc s I) as Hok. destruct e as [t w|t|t|t|t|t sp|t|t ok fl|t]; cbn [step] in Hst.
  - destruct (pc s t) eqn:Hp; simplify_eq. split; [|cbn; lia]. quiet_step t (Wrote w) Hp.
  - destruct (pc s t) eqn:Hp; try done. injection Hst as <-. split; [by apply ticket_inv|]. cbn. unfold wrapping_succ. rewrite N.mod_small; lia.
  - destruct (pc s t) eqn:Hp; simplify_eq. split; [|cbn; lia]. quiet_step t (Locking w k false 0%nat) Hp.
  - destruct (holder (bar s)) eqn:Hh; [done|]. specialize (Hok t). destruct (pc s t) eqn:Hp; simplify_eq.
    + split; [|cbn; lia]. quiet_step t (Top w k led r) Hp.
    + split; [by apply conclude_inv|]. unfold conclude. destruct ok; cbn; lia.
    + pose proof (proj2 (i_holder s I t) ltac:(by rewrite Hp)). congruence.
  - destruct (pc s t) eqn:Hp; simplify_eq. split; [by apply top_inv|]. unfold top.
    case_decide; [cbn; lia|]. destruct (_ <=? _); [destruct led; cbn; lia|]. destruct (flushing _); cbn; lia.
  - specialize (Hok t). destruct (pc s t) eqn:Hp; simplify_eq. destruct (_ || _); simplify_eq.
    split; [|cbn; lia]. cbn in Hok. quiet_step t (Locking w k led r) Hp.
  - specialize (Hok t). destruct (pc s t) eqn:Hp; simplify_eq. split; [|cbn; lia]. cbn in Hok. quiet_step t (Syncing w k r target (written s)) Hp.
  - destruct (pc s t) eqn:Hp; simplify_eq. destruct (bool_decide _ && _) eqn:Hc; simplify_eq. split; [|cbn; lia].
    apply andb_true_iff in Hc as [_ Hc]. eapply synced_inv; [done|done|]. intros ->. by apply bool_decide_eq_true in Hc.
  - destruct (pc s t) eqn:Hp; simplify_eq; (split; [|cbn; lia]); quiet_step t Idle Hp.
Qed.

Lemma barrier_run_inv es : ∀ s s', inv s → issued (bar s) + N.of_nat (length es) < 2 ^ 64 → run es s = Some s' → inv s'.
Proof.
  induction es as [|e es IH]; intros s s' I Hb Hr; [by injection Hr as <-|]. cbn [run length] in *.
  destruct (step e s) as [s1|] eqn:Hs; [|done]. destruct (step_inv e s s1 I ltac:(lia) Hs) as [I1 Hi]. apply (IH s1); [done|lia|done].
Qed.

(** ** Progress *)

(** The rounds a thread inside [wait_durable] has begun. *)
Definition rounds (p : Pc) : option nat :=
  match p with
  | Locking _ _ _ r | Top _ _ _ r | Waiting _ _ _ r _ | Leading _ _ r _ | Syncing _ _ r _ _ | Synced _ _ r _ _ => Some r
  | Exhausted _ _ => Some MAX_BARRIER_ROUNDS
  | _ => None
  end.
Definition returned (p : Pc) : Prop := match p with Done _ _ _ | Failed _ _ => True | _ => False end.

(** Every thread has [n] rounds left. *)
Definition fresh (n : nat) (s : State) : Prop :=
  inv s ∧ issued (bar s) + 1 < 2 ^ 64 ∧ ∀ u r, rounds (pc s u) = Some r → (r + n ≤ MAX_BARRIER_ROUNDS)%nat.

Definition leads_to (s s' : State) : Prop := ∃ es, run es s = Some s'.

Lemma leads_to_refl s : leads_to s s.
Proof. by exists []. Qed.

Lemma run_app es1 es2 s : run (es1 ++ es2) s = run es1 s ≫= run es2.
Proof. revert s. induction es1 as [|e es1 IH]; intros s; [done|]. cbn. destruct (step e s); [apply IH|done]. Qed.

Lemma leads_to_trans s1 s2 s3 : leads_to s1 s2 → leads_to s2 s3 → leads_to s1 s3.
Proof. intros [es1 H1] [es2 H2]. exists (es1 ++ es2). by rewrite run_app, H1. Qed.

Lemma leads_to_step e s s1 s2 : step e s = Some s1 → leads_to s1 s2 → leads_to s s2.
Proof. intros H [es Hes]. exists (e :: es). cbn. by rewrite H. Qed.

(** [s'] is [s] with [u] moved to [p'], and perhaps the sleepers notified. *)
Definition moved (u : N) (p' : Pc) (s s' : State) : Prop :=
  issued (bar s') = issued (bar s) ∧ pc s' u = p' ∧ ∀ v, v ≠ u → pc s' v = pc s v ∨ pc s' v = notify (pc s v).

Lemma fresh_moved u p' e s s' n m : fresh n s → step e s = Some s' → moved u p' s s' → (m ≤ n)%nat →
  (∀ r, rounds p' = Some r → (r + m ≤ MAX_BARRIER_ROUNDS)%nat) → fresh m s'.
Proof.
  intros (I & Hb & Hall) Hst (Hi & Hu & Hother) Hmn Hp'. destruct (step_inv e s s' I Hb Hst) as [I' _].
  split; [done|]. split; [lia|]. intros v r Hr. destruct (decide (v = u)) as [->|Hne]; [rewrite Hu in Hr; auto|].
  assert (rounds (pc s v) = Some r) as Hv by (destruct (Hother v Hne) as [E|E]; rewrite E in Hr; [done|by destruct (pc s v)]).
  specialize (Hall v r Hv). lia.
Qed.

Definition here (p : Pc) : Prop := is_Some (rounds p) ∨ returned p.

Lemma here_moved t u p' s s' : moved u p' s s' → here p' → here (pc s t) → here (pc s' t).
Proof.
  intros (_ & Hu & Hother) Hp' Ht. destruct (decide (t = u)) as [->|Hne]; [by rewrite Hu|].
  destruct (Hother t Hne) as [-> | ->]; [done|]. by destruct (pc s t).
Qed.

Lemma moved_set_pc u p' s b : issued b = issued (bar s) → moved u p' s (set_pc u p' (set_bar b s)).
Proof.
  intros Hi. split; [done|]. split; [by rewrite pc_set_pc, decide_True|]. intros v Hv. left. by rewrite pc_set_pc, decide_False.
Qed.

(** A thread at the loop's top lets go of the mutex. *)
Lemma top_frees u w k led r s n : fresh (S n) s → pc s u = Top w k led r →
  ∃ p' s', step (ETop u) s = Some s' ∧ moved u p' s s' ∧ fresh n s' ∧ here p' ∧ holder (bar s') = None
    ∧ (k ≤ durable (bstate (bar s)) → p' = Done w k led ∧ flushing (bstate (bar s')) = flushing (bstate (bar s)))
    ∧ (durable (bstate (bar s)) < k → flushing (bstate (bar s)) = false → p' = Leading w k (S r) (issued (bar s))).
Proof.
  intros Hf Hp. assert (step (ETop u) s = Some (top u w k led r s)) as Hst by (cbn [step]; by rewrite Hp).
  assert (r + S n ≤ MAX_BARRIER_ROUNDS)%nat as Hr by (destruct Hf as (_ & _ & Hall); apply (Hall u); by rewrite Hp).
  assert (∃ p', moved u p' s (top u w k led r s) ∧ here p' ∧ holder (bar (top u w k led r s)) = None
    ∧ (∀ r', rounds p' = Some r' → r' = S r)
    ∧ (k ≤ durable (bstate (bar s)) → p' = Done w k led ∧ flushing (bstate (bar (top u w k led r s))) = flushing (bstate (bar s)))
    ∧ (durable (bstate (bar s)) < k → flushing (bstate (bar s)) = false → p' = Leading w k (S r) (issued (bar s)))) as (p' & Hm & Hh & Hn & Hrr & H1 & H2).
  { unfold top. destruct (decide (r = MAX_BARRIER_ROUNDS)); [lia|].
    destruct (N.leb_spec k (durable (bstate (bar s)))).
    { exists (Done w k led). split_and!; [by apply moved_set_pc; destruct led|by right|by destruct led|done|by destruct led|lia]. }
    destruct (flushing (bstate (bar s))).
    - exists (Waiting w k led (S r) false). split_and!; [by apply moved_set_pc|by left; eexists|done|by intros ? [=]|lia|done].
    - exists (Leading w k (S r) (issued (bar s))). split_and!; [by apply moved_set_pc|by left; eexists|done|by intros ? [=]|lia|done]. }
  exists p', (top u w k led r s). split_and!; try done. eapply fresh_moved; [exact Hf|exact Hst|exact Hm|lia|].
  intros r' ?%Hrr. lia.
Qed.

Lemma fresh_le n m s : (m ≤ n)%nat → fresh n s → fresh m s.
Proof. intros Hm (I & Hb & Hall). split_and!; [done|done|]. intros u r Hr. specialize (Hall u r Hr). lia. Qed.

Lemma free_mutex t s n : fresh (S n) s → here (pc s t) →
  ∃ s', leads_to s s' ∧ fresh n s' ∧ here (pc s' t) ∧ holder (bar s') = None.
Proof.
  intros Hf Ht. pose proof Hf as (I & _ & Hall). destruct (holder (bar s)) as [h|] eqn:Hh.
  2: { exists s. split_and!; [apply leads_to_refl| |done|done]. eapply fresh_le; [|exact Hf]. lia. }
  apply (i_holder s I) in Hh. destruct (pc s h) as [| | | |w k led r| | | | |w k| |] eqn:Hp; try done.
  2: { specialize (Hall h MAX_BARRIER_ROUNDS ltac:(by rewrite Hp)). lia. }
  destruct (top_frees h w k led r s n Hf Hp) as (p' & s' & Hst & Hm & Hf' & Hp' & Hn & _).
  exists s'. split_and!; [|done| |done].
  - eapply leads_to_step; [exact Hst|apply leads_to_refl].
  - by eapply here_moved.
Qed.

(** A leader whose barrier has returned concludes its round. *)
Lemma synced_concludes t u w k r g ok s n : fresh (S n) s → pc s u = Synced w k r g ok → holder (bar s) = None → here (pc s t) →
  ∃ s', leads_to s s' ∧ fresh n s' ∧ here (pc s' t) ∧ holder (bar s') = None ∧ flushing (bstate (bar s')) = false ∧ returned (pc s' u).
Proof.
  intros Hf Hp Hh Ht. set (s1 := conclude u w k r g ok s).
  assert (step (ELock u) s = Some s1) as Hst by (cbn [step]; by rewrite Hh, Hp).
  set (p1 := if ok then Top w k true r else Failed w k).
  assert (moved u p1 s s1) as Hm.
  { unfold s1, conclude, p1. destruct ok; (split; [done|]); (split; [by rewrite pc_set_pc, decide_True|]);
      intros v Hv; right; by rewrite pc_set_pc, decide_False, pc_notify_all. }
  assert (flushing (bstate (bar s1)) = false) as Hfl by (unfold s1, conclude; destruct ok; cbn; [by destruct (_ <? _)|done]).
  assert (fresh (S n) s1) as Hf1.
  { eapply fresh_moved; [exact Hf|exact Hst|exact Hm|lia|]. unfold p1. intros r'. destruct ok; [|done]. intros [= <-].
    destruct Hf as (_ & _ & Hall). apply (Hall u). by rewrite Hp. }
  assert (here (pc s1 t)) as Ht1 by (eapply here_moved; [exact Hm| |done]; unfold p1; destruct ok; [by left; eexists|by right]).
  destruct ok.
  - assert (pc s1 u = Top w k true r) as Hp1 by apply Hm. destruct Hf1 as (I1 & Hrest). pose proof (i_pc s1 I1 u) as Hk. rewrite Hp1 in Hk.
    destruct (top_frees u w k true r s1 n (conj I1 Hrest) Hp1) as (p' & s2 & Hst2 & Hm2 & Hf2 & Hp2 & Hn2 & H1 & _).
    destruct (H1 (Hk eq_refl)) as [-> Hfl2]. exists s2. split_and!; [|done|by eapply here_moved|done|congruence|].
    + eapply leads_to_step; [exact Hst|]. eapply leads_to_step; [exact Hst2|apply leads_to_refl].
    + destruct Hm2 as (_ & -> & _). done.
  - exists s1. split_and!; [|eapply fresh_le; [|exact Hf1]; lia|done|done|done|].
    + eapply leads_to_step; [exact Hst|apply leads_to_refl].
    + destruct Hm as (_ & -> & _). done.
Qed.

Lemma syncing_concludes t u w k r g snap s n : fresh (S n) s → pc s u = Syncing w k r g snap → holder (bar s) = None → here (pc s t) →
  ∃ s', leads_to s s' ∧ fresh n s' ∧ here (pc s' t) ∧ holder (bar s') = None ∧ flushing (bstate (bar s')) = false ∧ returned (pc s' u).
Proof.
  intros Hf Hp Hh Ht. pose proof Hf as (I & _ & Hall). pose proof (i_pc s I u) as Hok. rewrite Hp in Hok. destruct Hok as [_ Hsub].
  set (s1 := set_pc u (Synced w k r g true) (mkState (bar s) (written s) (snap ∪ stable s) (pcs s))).
  assert (step (ESynced u true snap) s = Some s1) as Hst.
  { cbn [step]. rewrite Hp. by rewrite !bool_decide_eq_true_2 by set_solver. }
  assert (moved u (Synced w k r g true) s s1) as Hm.
  { split; [done|]. unfold s1. split; [by rewrite pc_set_pc, decide_True|]. intros v Hv. left. by rewrite pc_set_pc, decide_False. }
  assert (fresh (S n) s1) as Hf1.
  { eapply fresh_moved; [exact Hf|exact Hst|exact Hm|lia|]. intros r' [= <-]. apply (Hall u). by rewrite Hp. }
  destruct (synced_concludes t u w k r g true s1 n) as (s2 & Hs2 & Hrest); [done|apply Hm|done| |].
  { eapply here_moved; [exact Hm|by left; eexists|done]. }
  exists s2. split; [|done]. by eapply leads_to_step.
Qed.

Lemma leader_concludes t u s n : fresh (S n) s → is_Some (target_of (pc s u)) → holder (bar s) = None → here (pc s t) →
  ∃ s', leads_to s s' ∧ fresh n s' ∧ here (pc s' t) ∧ holder (bar s') = None ∧ flushing (bstate (bar s')) = false ∧ returned (pc s' u).
Proof.
  intros Hf [g Hg] Hh Ht. destruct (pc s u) as [| | | | | |w k r g'|w k r g' snap|w k r g' ok| | |] eqn:Hp; try done.
  2: by eapply syncing_concludes. 2: by eapply synced_concludes.
  set (b := bar s). set (s1 := set_pc u (Syncing w k r g' (written s))
    (set_bar (mkBarrier (issued b) (bstate b) (holder b) (wrapping_succ (barriers b)) (piggybacked b)) s)).
  assert (step (ESync u) s = Some s1) as Hst by (cbn [step]; by rewrite Hp).
  assert (moved u (Syncing w k r g' (written s)) s s1) as Hm by (by apply moved_set_pc).
  assert (fresh (S n) s1) as Hf1.
  { eapply fresh_moved; [exact Hf|exact Hst|exact Hm|lia|]. intros r' [= <-]. destruct Hf as (_ & _ & Hall). apply (Hall u). by rewrite Hp. }
  destruct (syncing_concludes t u w k r g' (written s) s1 n) as (s2 & Hs2 & Hrest); [done|apply Hm|done| |].
  { eapply here_moved; [exact Hm|by left; eexists|done]. }
  exists s2. split; [|done]. by eapply leads_to_step.
Qed.

(** A caller that wants the mutex, when nobody has it and nobody leads. *)
Lemma locking_finishes t w k led r s : fresh 2 s → pc s t = Locking w k led r → holder (bar s) = None →
  flushing (bstate (bar s)) = false → ∃ s', leads_to s s' ∧ returned (pc s' t).
Proof.
  intros Hf Hp Hh Hfl. pose proof Hf as (_ & _ & Hall).
  set (s1 := set_pc t (Top w k led r) (set_bar (with_holder (Some t) (bar s)) s)).
  assert (step (ELock t) s = Some s1) as Hst by (cbn [step]; by rewrite Hh, Hp).
  assert (moved t (Top w k led r) s s1) as Hm by (by apply moved_set_pc).
  assert (fresh 2 s1) as Hf1.
  { eapply fresh_moved; [exact Hf|exact Hst|exact Hm|lia|]. intros r' [= <-]. apply (Hall t). by rewrite Hp. }
  destruct (top_frees t w k led r s1 1 Hf1) as (p' & s2 & Hst2 & Hm2 & Hf2 & Hp2 & Hn2 & H1 & H2); [apply Hm|].
  assert (leads_to s s2) as Hl by (eapply leads_to_step; [exact Hst|eapply leads_to_step; [exact Hst2|apply leads_to_refl]]).
  destruct (N.le_gt_cases k (durable (bstate (bar s1)))) as [Hk|Hk].
  - destruct (H1 Hk) as [-> _]. exists s2. split; [done|]. destruct Hm2 as (_ & -> & _). done.
  - specialize (H2 Hk Hfl) as ->. destruct (leader_concludes t t s2 0 Hf2) as (s3 & Hs3 & _ & _ & _ & _ & Hret).
    + destruct Hm2 as (_ & -> & _). by eexists.
    + done.
    + destruct Hm2 as (_ & -> & _). by left; eexists.
    + exists s3. split; [by eapply leads_to_trans|done].
Qed.

Lemma calm_finishes t s : fresh 2 s → holder (bar s) = None → flushing (bstate (bar s)) = false → here (pc s t) →
  ∃ s', leads_to s s' ∧ returned (pc s' t).
Proof.
  intros Hf Hh Hfl Ht. pose proof Hf as (I & _ & Hall). pose proof (i_pc s I t) as Hok.
  assert (¬ holds (pc s t)) as Hnh by (intros Hc%(i_holder s I); congruence).
  assert (target_of (pc s t) = None) as Hng.
  { destruct (target_of (pc s t)) eqn:Hg; [|done]. assert (flushing (bstate (bar s)) = true) by (apply (i_flushing s I); eauto). congruence. }
  destruct (pc s t) as [| | |w k led r|w k led r|w k led r b|w k r g|w k r g sn|w k r g ok|w k|w k led|w k] eqn:Hp; try done;
    try (destruct Ht as [[? Ht]|Ht]; done); try (by destruct Hnh).
  - by apply (locking_finishes t w k led r).
  - cbn in Hok. destruct Hok as [_ Hb]. destruct b; [|specialize (Hb eq_refl); congruence].
    set (s1 := set_pc t (Locking w k led r) s).
    assert (step (EWake t false) s = Some s1) as Hst by (cbn [step]; by rewrite Hp).
    assert (moved t (Locking w k led r) s s1) as Hm by (exact (moved_set_pc t _ s (bar s) eq_refl)).
    destruct (locking_finishes t w k led r s1) as (s2 & Hs2 & Hret); [|apply Hm|done|done|].
    + eapply fresh_moved; [exact Hf|exact Hst|exact Hm|lia|]. intros r' [= <-]. apply (Hall t). by rewrite Hp.
    + exists s2. split; [by eapply leads_to_step|done].
  - exists s. split; [apply leads_to_refl|by rewrite Hp].
  - exists s. split; [apply leads_to_refl|by rewrite Hp].
Qed.

Lemma fresh_finishes t s : fresh 4 s → here (pc s t) → ∃ s', leads_to s s' ∧ returned (pc s' t).
Proof.
  intros Hf Ht. destruct (free_mutex t s 3 Hf Ht) as (s1 & Hs1 & Hf1 & Ht1 & Hh1).
  destruct (flushing (bstate (bar s1))) eqn:Hfl.
  - pose proof Hf1 as (I1 & _). destruct (proj1 (i_flushing s1 I1) Hfl) as [u Hu].
    destruct (leader_concludes t u s1 2 Hf1 Hu Hh1 Ht1) as (s2 & Hs2 & Hf2 & Ht2 & Hh2 & Hfl2 & _).
    destruct (calm_finishes t s2 Hf2 Hh2 Hfl2 Ht2) as (s3 & Hs3 & Hret). exists s3. split; [|done].
    eapply leads_to_trans; [exact Hs1|]. by eapply leads_to_trans.
  - destruct (calm_finishes t s1) as (s2 & Hs2 & Hret); [eapply fresh_le; [|exact Hf1]; lia|done|done|done|].
    exists s2. split; [by eapply leads_to_trans|done].
Qed.

Lemma issued_run es : ∀ s s', inv s → issued (bar s) + N.of_nat (length es) < 2 ^ 64 → run es s = Some s' →
  issued (bar s') ≤ issued (bar s) + N.of_nat (length es).
Proof.
  induction es as [|e es IH]; intros s s' I Hb Hr; [injection Hr as <-; cbn; lia|]. cbn [run length] in *.
  destruct (step e s) as [s1|] eqn:Hs; [|done]. destruct (step_inv e s s1 I ltac:(lia) Hs) as [I1 Hi].
  specialize (IH s1 s' I1 ltac:(lia) Hr). lia.
Qed.

(** ** A failing device *)

(** The follower 0 sleeps while 1 and 2 take turns at leading rounds that fail. *)
Definition joins (t : N) : list Event := [EWrite t t; ETicket t; ECall t].
Definition failing_round (leader next : N) : list Event :=
  [ESync leader; ESynced leader false ∅; ELock leader; EAgain leader] ++ joins next ++
  [ELock next; ETop next; EWake 0 false; ELock 0; ETop 0].
Fixpoint failing_rounds (n : nat) (leader next : N) : list Event :=
  match n with O => [] | S n => failing_round leader next ++ failing_rounds n next leader end.
Definition failing_device : list Event :=
  joins 0 ++ joins 1 ++ [ELock 1; ETop 1; ELock 0; ETop 0] ++ failing_rounds 64 1 2.

Lemma exhausted_forever t w k s : inv s → pc s t = Exhausted w k → ∀ es s', issued (bar s) + N.of_nat (length es) < 2 ^ 64 →
  run es s = Some s' → pc s' t = Exhausted w k ∧ holder (bar s') = Some t.
Proof.
  intros I Hp es. revert s I Hp. induction es as [|e es IH]; intros s I Hp s' Hb Hr.
  { injection Hr as <-. split; [done|]. apply (i_holder s I). by rewrite Hp. }
  cbn [run length] in *. destruct (step e s) as [s1|] eqn:Hs; [|done].
  destruct (step_inv e s s1 I ltac:(lia) Hs) as [I1 Hi]. apply (IH s1); [done| |lia|done].
  assert (holder (bar s) = Some t) as Hh by (apply (i_holder s I); by rewrite Hp).
  assert (∀ u p b wr st, pc s u ≠ Exhausted w k → pc (set_pc u p (mkState b wr st (pcs s))) t = Exhausted w k) as Hset.
  { intros u p b wr st Hu. rewrite pc_set_pc. destruct (decide (t = u)) as [->|]; [done|exact Hp]. }
  destruct e as [u v|u|u|u|u|u sp|u|u ok fl|u]; cbn [step] in Hs; try (rewrite Hh in Hs; done);
    destruct (pc s u) eqn:Hpu; try done; try (injection Hs as <-; apply Hset; congruence).
  - injection Hs as <-. unfold top. case_decide; [apply Hset; congruence|].
    destruct (_ <=? _); [destruct led; apply Hset; congruence|]. destruct (flushing _); apply Hset; congruence.
  - destruct (_ || _); [|done]. injection Hs as <-. apply Hset. congruence.
  - destruct (_ && _); [|done]. injection Hs as <-. apply Hset. congruence.
Qed.

(** ** The theorems *)

(** C33: Group staging is safe under every interleaving of any number of evictors, with
    spurious wake-ups and failing barriers: a caller that returns [Ok] has its own staging
    writes on stable storage; at most one thread is inside the barrier; and a thread that
    led a successful round finds its ticket durable at its next check, so that no call
    issues more than one successful barrier. *)
Theorem group_staging_safe (es : list Event) (s : State) :
  N.of_nat (length es) < 2 ^ 64 → run es init = Some s →
  (∀ t w k led, pc s t = Done w k led → w ∈ stable s)
  ∧ (∀ t u, is_Some (target_of (pc s t)) → is_Some (target_of (pc s u)) → t = u)
  ∧ (∀ t w k r, pc s t = Top w k true r → k ≤ durable (bstate (bar s))).
Proof.
  intros Hlen Hr. pose proof (barrier_run_inv es init s init_inv Hlen Hr) as I. split_and!.
  - intros t w k led Hp. pose proof (i_pc s I t) as Hk. rewrite Hp in Hk. eapply (i_covered s I t w k); [by rewrite Hp|done].
  - apply (i_leader s I).
  - intros t w k r Hp. pose proof (i_pc s I t) as Hk. rewrite Hp in Hk. by apply Hk.
Qed.

(** C34: Group staging does not get stuck. In every reachable state in which no caller is
    within four rounds of the bound, every caller inside [wait_durable] can return: a
    sleeper that nobody has notified yet has a leader in the barrier that will notify it,
    and there is a continuation, with a device that works, at the end of which the caller
    has returned. *)
Theorem group_staging_progress (es : list Event) (s : State) (t : N) :
  N.of_nat (length es) + 1 < 2 ^ 64 → run es init = Some s →
  (∀ u r, rounds (pc s u) = Some r → (r + 4 ≤ MAX_BARRIER_ROUNDS)%nat) → is_Some (rounds (pc s t)) →
  (∀ w k led r, pc s t = Waiting w k led r false → ∃ u, is_Some (target_of (pc s u)))
  ∧ ∃ es' s', run es' s = Some s' ∧ returned (pc s' t).
Proof.
  intros Hlen Hr Hall Ht. pose proof (barrier_run_inv es init s init_inv ltac:(cbn; lia) Hr) as I.
  pose proof (issued_run es init s init_inv ltac:(cbn; lia) Hr) as Hi. cbn in Hi. split.
  - intros w k led r Hp. pose proof (i_pc s I t) as Hok. rewrite Hp in Hok. apply (i_flushing s I). by apply Hok.
  - destruct (fresh_finishes t s) as (s' & [es' Hes'] & Hret); [split_and!; [done|lia|done]|by left|]. by exists es', s'.
Qed.

(** C35: A caller that uses up its rounds deadlocks the barrier. With a device that keeps
    failing, two evictors that take turns at leading keep a third one asleep for 64
    rounds; it then leaves the loop with the mutex still in its hand and asks for the
    mutex again to report the failures. In no continuation does it return, and nobody
    else ever gets the mutex. *)
Theorem exhausted_rounds_deadlock :
  ∃ s, run failing_device init = Some s ∧ pc s 0 = Exhausted 0 1
    ∧ ∀ es s', N.of_nat (length es) < 2 ^ 63 → run es s = Some s' →
        pc s' 0 = Exhausted 0 1 ∧ holder (bar s') = Some 0 ∧ ∀ t, step (ELock t) s' = None.
Proof.
  destruct (run failing_device init) as [s|] eqn:Hr; [|by vm_compute in Hr].
  assert (pc s 0 = Exhausted 0 1) as Hp.
  { assert (pc (default init (run failing_device init)) 0 = Exhausted 0 1) as E by (vm_compute; reflexivity). by rewrite Hr in E. }
  assert (N.of_nat (length failing_device) < 1000) as Hlen by (vm_compute; reflexivity).
  pose proof (barrier_run_inv failing_device init s init_inv ltac:(cbn [bar init issued new]; lia) Hr) as I.
  pose proof (issued_run failing_device init s init_inv ltac:(cbn [bar init issued new]; lia) Hr) as Hi. cbn [bar init issued new] in Hi.
  exists s. split_and!; [done|done|]. intros es s' Hes Hr'.
  destruct (exhausted_forever 0 0 1 s I Hp es s') as [Hp' Hh']; [lia|done|]. split_and!; [done|done|].
  intros t. cbn [step]. by rewrite Hh'.
Qed.

(** The rounds of every thread of a concrete state. *)
Definition rounds_within (n : nat) (p : Pc) : bool :=
  match rounds p with Some r => (r + n <=? MAX_BARRIER_ROUNDS)%nat | None => true end.

Lemma rounds_checked n s : forallb (λ p, rounds_within n p.2) (map_to_list (pcs s)) = true →
  ∀ u r, rounds (pc s u) = Some r → (r + n ≤ MAX_BARRIER_ROUNDS)%nat.
Proof.
  rewrite forallb_forall. intros Hall u r. unfold pc. destruct (pcs s !! u) as [p|] eqn:Hu; [|done].
  cbn. intros Hr. apply elem_of_map_to_list in Hu. apply list_elem_of_In in Hu. specialize (Hall _ Hu).
  unfold rounds_within in Hall. cbn in Hall. rewrite Hr in Hall. by apply Nat.leb_le.
Qed.

(** Two evictors: 1 arrives while 0 leads a round that does not cover it, then leads its own. *)
Definition two_evictors : list Event :=
  joins 0 ++ [ELock 0; ETop 0] ++ joins 1 ++ [ELock 1; ETop 1; ESync 0; ESynced 0 true {[0; 1]}; ELock 0; ETop 0; EWake 1 false; ELock 1; ETop 1].

Lemma group_staging_safe_witness :
  N.of_nat (length two_evictors) < 2 ^ 64 ∧ ∃ s, run two_evictors init = Some s ∧ pc s 0 = Done 0 1 true ∧ 0 ∈ stable s.
Proof.
  split; [vm_compute; reflexivity|]. eexists. split; [vm_compute; reflexivity|]. split; [vm_compute; reflexivity|].
  apply (proj1 (group_staging_safe two_evictors _ ltac:(vm_compute; reflexivity) ltac:(vm_compute; reflexivity)) 0 0 1 true).
  vm_compute. reflexivity.
Defined.

Lemma group_staging_progress_witness :
  ∃ s, run (joins 0 ++ [ELock 0; ETop 0]) init = Some s ∧ ∃ es' s', run es' s = Some s' ∧ returned (pc s' 0).
Proof.
  eexists. split; [vm_compute; reflexivity|].
  apply (group_staging_progress (joins 0 ++ [ELock 0; ETop 0]) _ 0).
  - vm_compute. reflexivity.
  - vm_compute. reflexivity.
  - apply rounds_checked. vm_compute. reflexivity.
  - eexists. vm_compute. reflexivity.
Defined.
