(* ===== verification/ChainHead.v ===== *)
(** * graphus-chainhead: the prepend publication protocol

    [src/crates/graphus-chainhead/src/lib.rs]. [prepend] is generic in the trait
    [ChainHead]; here it is the program of its calls to the trait ([Prog] has one
    constructor per method), interleaved call by call with the programs of other writers.
    A call is one step, as the trait's contract demands of
    [compare_and_publish]; a call that fails has no effect. The writers also do what the
    crate's documentation asks of a caller: read the head, link the private entry to it,
    call [prepend], and fix the back-pointer of the head [prepend] returns. *)

From stdpp Require Import options.
From S2P Require Import Prelude Core.

Definition MAX_ATTEMPTS : nat := N.to_nat 65536.

Inductive PrependError (E : Type) := Cell (e : E) | ExhaustedAttempts (attempts : nat).
Arguments Cell {E} _.
Arguments ExhaustedAttempts {E} _.

(** A computation that calls the methods of a [ChainHead]; [inl] is the trait's error. *)
Inductive Prog (E A : Type) :=
  | Ret (a : A)
  | CompareAndPublish (expect entry : N) (k : E + bool → Prog E A)
  | Reread (k : E + N → Prog E A)
  | Relink (head : N) (k : E + unit → Prog E A).
Arguments Ret {E A} _.
Arguments CompareAndPublish {E A} _ _ _.
Arguments Reread {E A} _.
Arguments Relink {E A} _ _.

Abbreviation Result E := (N + PrependError E)%type.

Section prepend.
Context {E : Type}.

(** The loop with [attempts] left; [retry] is what follows a refusal. *)
Definition relinked (again : N → Prog E (Result E)) (head : N) : Prog E (Result E) :=
  Relink head (λ r, match r with inl e => Ret (inr (Cell e)) | inr _ => again head end).
Definition retry (again : N → Prog E (Result E)) : Prog E (Result E) :=
  Reread (λ r, match r with inl e => Ret (inr (Cell e)) | inr head => relinked again head end).

Fixpoint prepend_loop (attempts : nat) (head entry : N) : Prog E (Result E) :=
  match attempts with
  | O => Ret (inr (ExhaustedAttempts MAX_ATTEMPTS))
  | S attempts =>
      CompareAndPublish head entry (λ r,
        match r with
        | inl e => Ret (inr (Cell e))
        | inr true => Ret (inl head)
        | inr false => retry (λ head, prepend_loop attempts head entry)
        end)
  end.

Definition prepend (observed entry : N) : Prog E (Result E) := prepend_loop MAX_ATTEMPTS observed entry.
End prepend.

(** ** Writers that interleave *)
Section writers.
Context {E : Type}.

Inductive Writer :=
  | Start (entry : N)
  | Observed (entry head : N)
  | Running (entry : N) (p : Prog E (Result E))
  | Finished (entry : N) (r : Result E).

(** The head word, the entries' [next] and [prev] words, the writers. *)
Record Chain := mkChain { head : N; next : gmap N N; prev : gmap N N; writers : gmap N Writer }.

Definition entry_of (w : Writer) : N :=
  match w with Start e | Observed e _ | Running e _ | Finished e _ => e end.

Definition set_writer (t : N) (w : Writer) (s : Chain) : Chain :=
  mkChain (head s) (next s) (prev s) (<[t := w]> (writers s)).

(** The next step of writer [t]; [fail] is the error its call to the medium reports. *)
Definition wstep (t : N) (fail : option E) (s : Chain) : option Chain :=
  match writers s !! t with
  | None => None
  | Some (Start e) => Some (set_writer t (Observed e (head s)) s)
  | Some (Observed e h) =>
      Some (set_writer t (Running e (prepend h e)) (mkChain (head s) (<[e := h]> (next s)) (prev s) (writers s)))
  | Some (Running e p) =>
      match p, fail with
      | Ret (inl h), _ => Some (set_writer t (Finished e (inl h)) (mkChain (head s) (next s) (<[h := e]> (prev s)) (writers s)))
      | Ret (inr err), _ => Some (set_writer t (Finished e (inr err)) s)
      | CompareAndPublish _ _ k, Some err => Some (set_writer t (Running e (k (inl err))) s)
      | Reread k, Some err => Some (set_writer t (Running e (k (inl err))) s)
      | Relink _ k, Some err => Some (set_writer t (Running e (k (inl err))) s)
      | CompareAndPublish x y k, None =>
          if head s =? x
          then Some (set_writer t (Running e (k (inr true))) (mkChain y (next s) (prev s) (writers s)))
          else Some (set_writer t (Running e (k (inr false))) s)
      | Reread k, None => Some (set_writer t (Running e (k (inr (head s)))) s)
      | Relink h k, None =>
          Some (set_writer t (Running e (k (inr tt))) (mkChain (head s) (<[e := h]> (next s)) (prev s) (writers s)))
      end
  | Some (Finished _ _) => None
  end.

Fixpoint wrun (es : list (N * option E)) (s : Chain) : option Chain :=
  match es with [] => Some s | (t, f) :: es => wstep t f s ≫= wrun es end.

(** [l] is the chain that hangs off [h]: the last entry's [next] is the null id. *)
Fixpoint path (nx : gmap N N) (h : N) (l : list N) : Prop :=
  match l with [] => h = 0 | e :: l => h = e ∧ e ≠ 0 ∧ ∃ n, nx !! e = Some n ∧ path nx n l end.

Definition top_of (l : list N) : N := default 0 (list.head l).

(** A chain, and writers about to prepend entries of their own. *)
Record ready (base : list N) (s : Chain) : Prop := {
  r_path : path (next s) (head s) base;
  r_nodup : NoDup base;
  r_start t w : writers s !! t = Some w → ∃ e, w = Start e ∧ e ≠ 0 ∧ e ∉ base;
  r_distinct t u w v : writers s !! t = Some w → writers s !! u = Some v → entry_of w = entry_of v → t = u;
}.

End writers.
Arguments Writer : clear implicits.
Arguments Chain : clear implicits.

(** ** The invariant *)
Section invariant.
Context {E : Type} (base : list N).

(** Entries published so far, newest first, are [pub]. The head that [k] publications ago was the head: *)
Definition nth_head (pub : list N) (k : nat) : N := default 0 ((pub ++ base) !! k).

(** [h] was the head after at least [m] publications; [e] was published over [h]. *)
Definition seen (pub : list N) (h : N) (m : nat) : Prop := ∃ k, (k + m ≤ length pub)%nat ∧ h = nth_head pub k.
Definition above (pub : list N) (e h : N) : Prop :=
  ∃ k, (k < length pub)%nat ∧ (pub ++ base) !! k = Some e ∧ h = nth_head pub (S k).

Definition fail_ok (pub : list N) (err : PrependError E) : Prop :=
  match err with Cell _ => True | ExhaustedAttempts a => a = MAX_ATTEMPTS ∧ (MAX_ATTEMPTS ≤ length pub)%nat end.

Definition again (n : nat) (e : N) : N → Prog E (Result E) := λ h, prepend_loop n h e.

(** Where [prepend] can be: about to publish, refused, about to relink, failed, or done. *)
Inductive run_ok (nx : gmap N N) (pub : list N) (e : N) : Prog E (Result E) → Prop :=
  | ok_attempt n h : (n ≤ MAX_ATTEMPTS)%nat → e ∉ pub → nx !! e = Some h → seen pub h (MAX_ATTEMPTS - n) →
      run_ok nx pub e (prepend_loop n h e)
  | ok_refused n : (n < MAX_ATTEMPTS)%nat → e ∉ pub → (MAX_ATTEMPTS - n ≤ length pub)%nat → run_ok nx pub e (retry (again n e))
  | ok_relink n h : (n < MAX_ATTEMPTS)%nat → e ∉ pub → seen pub h (MAX_ATTEMPTS - n) → run_ok nx pub e (relinked (again n e) h)
  | ok_failed err : e ∉ pub → fail_ok pub err → run_ok nx pub e (Ret (inr err))
  | ok_done h : above pub e h → run_ok nx pub e (Ret (inl h)).

Definition writer_ok (nx pv : gmap N N) (pub : list N) (w : Writer E) : Prop :=
  match w with
  | Start e => e ∉ pub
  | Observed e h => (e ∉ pub) ∧ seen pub h 0
  | Running e p => run_ok nx pub e p
  | Finished e (inl h) => above pub e h ∧ pv !! h = Some e
  | Finished e (inr err) => (e ∉ pub) ∧ fail_ok pub err
  end.

Definition won (w : Writer E) : Prop :=
  match w with Running _ (Ret (inl _)) | Finished _ (inl _) => True | _ => False end.

Record cinv (s : Chain E) (pub : list N) : Prop := {
  c_path : path (next s) (head s) (pub ++ base);
  c_nodup : NoDup (pub ++ base);
  c_writer t w : writers s !! t = Some w → entry_of w ≠ 0 ∧ (entry_of w ∉ base) ∧ writer_ok (next s) (prev s) pub w;
  c_distinct t u w v : writers s !! t = Some w → writers s !! u = Some v → entry_of w = entry_of v → t = u;
  c_pub e : e ∈ pub → ∃ t w, writers s !! t = Some w ∧ entry_of w = e ∧ won w;
}.

Lemma path_head nx h l : path nx h l → h = default 0 (l !! 0%nat).
Proof. destruct l; cbn; [done|]. by intros [-> _]. Qed.

Lemma path_insert nx h l e n : e ∉ l → path nx h l → path (<[e := n]> nx) h l.
Proof.
  revert h. induction l as [|x l IH]; intros h He; cbn; [done|]. rewrite not_elem_of_cons in He. destruct He as [Hne He].
  intros (-> & Hx & m & Hm & Hp). split_and!; [done|done|]. exists m. split; [by rewrite lookup_insert_ne|by apply IH].
Qed.

Lemma path_nonzero nx h l e : path nx h l → e ∈ l → e ≠ 0.
Proof.
  revert h. induction l as [|x l IH]; intros h; cbn; [set_solver|]. intros (-> & Hx & m & _ & Hp). rewrite elem_of_cons.
  intros [->|He]; [done|by eapply IH].
Qed.

Lemma nth_head_push y pub k : nth_head (y :: pub) (S k) = nth_head pub k.
Proof. done. Qed.

Lemma seen_push y pub h m : seen pub h m → seen (y :: pub) h m.
Proof. intros (k & Hk & ->). exists (S k). split; [cbn; lia|done]. Qed.

Lemma above_push y pub e h : above pub e h → above (y :: pub) e h.
Proof. intros (k & Hk & He & ->). exists (S k). split_and!; [cbn; lia|done|done]. Qed.

Lemma above_in pub e h : above pub e h → e ∈ pub.
Proof. intros (k & Hk & He & _). rewrite lookup_app_l in He by done. by eapply list_elem_of_lookup_2. Qed.

(** An entry is published once, and a head is displaced once. *)
Lemma above_inj nx hd pub e e' h : path nx hd (pub ++ base) → NoDup (pub ++ base) → above pub e h → above pub e' h → e = e'.
Proof.
  intros Hp Hnd (k & _ & He & ->) (k' & _ & He' & Hh). unfold nth_head in Hh.
  assert (k = k') as ->; [|congruence].
  destruct ((pub ++ base) !! S k) as [x|] eqn:Hx, ((pub ++ base) !! S k') as [x'|] eqn:Hx'; cbn in Hh; subst.
  - pose proof (NoDup_lookup _ _ _ _ Hnd Hx Hx'). lia.
  - exfalso. eapply path_nonzero; [exact Hp|by eapply list_elem_of_lookup_2|done].
  - exfalso. eapply path_nonzero; [exact Hp|by eapply list_elem_of_lookup_2|done].
  - apply lookup_ge_None_1 in Hx, Hx'. apply lookup_lt_Some in He, He'. lia.
Qed.

(** What the writers that do not move rely on survives a publication by [y] and changes of other entries' words. *)
Lemma writer_ok_frame nx nx' pv pv' pub y w : nx' !! entry_of w = nx !! entry_of w →
  (∀ h, pv !! h = Some (entry_of w) → above pub (entry_of w) h → pv' !! h = Some (entry_of w)) → entry_of w ∉ y →
  (length y ≤ 1)%nat → writer_ok nx pv pub w → writer_ok nx' pv' (y ++ pub) w.
Proof.
  intros Hnx Hpv Hy Hl. assert (∀ h m, seen pub h m → seen (y ++ pub) h m) as Hseen.
  { destruct y as [|y [|]]; cbn in Hl; [done|intros; by apply seen_push|lia]. }
  assert (∀ e h, above pub e h → above (y ++ pub) e h) as Habove.
  { destruct y as [|y [|]]; cbn in Hl; [done|intros; by apply above_push|lia]. }
  assert (∀ e, e ∉ y → e ∉ pub → e ∉ y ++ pub) as Hnot by set_solver.
  assert (∀ err, fail_ok pub err → fail_ok (y ++ pub) err) as Hfail.
  { intros [?|a]; cbn; [done|]. rewrite length_app. intros [??]; split; [done|lia]. }
  destruct w as [e|e h|e p|e [h|err]]; cbn [writer_ok entry_of] in *.
  - auto.
  - intros [? ?]. auto.
  - intros Hok. inversion Hok; subst.
    + apply ok_attempt; auto. congruence.
    + apply ok_refused; auto. rewrite length_app. lia.
    + apply ok_relink; auto.
    + apply ok_failed; auto.
    + apply ok_done; auto.
  - intros [Ha Hp]. auto.
  - intros [? ?]. auto.
Qed.

(** Writer [t] moves, publishing its entry when [y] is not empty. *)
Lemma cinv_move t w w' hd' nx' pv' y s pub : cinv s pub → writers s !! t = Some w → entry_of w' = entry_of w →
  path nx' hd' (y ++ pub ++ base) → NoDup (y ++ pub ++ base) → (y = [] ∨ y = [entry_of w]) →
  (∀ e, e ≠ entry_of w → nx' !! e = next s !! e) →
  (∀ h e, e ≠ entry_of w → prev s !! h = Some e → above pub e h → pv' !! h = Some e) →
  writer_ok nx' pv' (y ++ pub) w' → (won w → won w') → (y ≠ [] → won w') →
  cinv (mkChain hd' nx' pv' (<[t := w']> (writers s))) (y ++ pub).
Proof.
  intros C Hw He Hp Hnd Hy Hnx Hpv Hok Hwon Hwon'. destruct (c_writer _ _ C t w Hw) as (H0 & Hb & _).
  assert (∀ u v, u ≠ t → writers s !! u = Some v → entry_of v ≠ entry_of w) as Hne.
  { intros u v Hu Hv Heq. apply Hu. by eapply (c_distinct _ _ C). }
  split; cbn [next head prev writers].
  - by rewrite <- (assoc_L (++)).
  - by rewrite <- (assoc_L (++)).
  - intros u v. destruct (decide (u = t)) as [->|Hu].
    + rewrite lookup_insert_eq. intros [= <-]. by rewrite He.
    + rewrite lookup_insert_ne by done. intros Hv. destruct (c_writer _ _ C u v Hv) as (Hz & Hvb & Hvo). split_and!; [done|done|].
      eapply (writer_ok_frame (next s) _ (prev s)); [by apply Hnx, (Hne u)| | | |done].
      * intros h Hh Ha. apply Hpv; [by apply (Hne u)|done|done].
      * specialize (Hne u v Hu Hv). destruct Hy as [-> | ->]; set_solver.
      * destruct Hy as [-> | ->]; cbn; lia.
  - intros u v x x' Hx Hx' Heq. revert Hx Hx'. rewrite !lookup_insert_Some.
    intros [[<- <-]|[Hu Hx]] [[<- <-]|[Hv Hx']]; [done| | |by eapply (c_distinct _ _ C)].
    + rewrite He in Heq. exfalso. by eapply (Hne v x').
    + rewrite He in Heq. exfalso. by eapply (Hne u x).
  - intros e. rewrite elem_of_app. intros [Hin|Hin].
    + exists t, w'. rewrite lookup_insert_eq. destruct Hy as [-> | ->]; [set_solver|]. apply list_elem_of_singleton in Hin as ->. auto.
    + destruct (c_pub _ _ C e Hin) as (u & v & Hv & Hev & Hvw). destruct (decide (u = t)) as [->|Hu].
      * simplify_eq. exists t, w'. rewrite lookup_insert_eq. auto.
      * exists u, v. by rewrite lookup_insert_ne.
Qed.

(** The same when only the writer itself changes. *)
Lemma cinv_stay t w w' s pub : cinv s pub → writers s !! t = Some w → entry_of w' = entry_of w →
  writer_ok (next s) (prev s) pub w' → (won w → won w') → cinv (set_writer t w' s) pub.
Proof.
  intros C Hw He Hok Hwon. apply (cinv_move t w w' _ _ _ [] s pub); auto; [apply C|apply C|done].
Qed.

Lemma not_published t w s pub : cinv s pub → writers s !! t = Some w → entry_of w ∉ pub → entry_of w ∉ pub ++ base.
Proof. intros C Hw Hn. destruct (c_writer _ _ C t w Hw) as (_ & Hb & _). set_solver. Qed.

(** Writing the [next] word of an entry nobody can reach. *)
Lemma cinv_link t w w' h s pub : cinv s pub → writers s !! t = Some w → entry_of w' = entry_of w → entry_of w ∉ pub →
  writer_ok (<[entry_of w := h]> (next s)) (prev s) pub w' → (won w → won w') →
  cinv (set_writer t w' (mkChain (head s) (<[entry_of w := h]> (next s)) (prev s) (writers s))) pub.
Proof.
  intros C Hw He Hn Hok Hwon. apply (cinv_move t w w' _ _ _ [] s pub); auto; [|apply C| |done].
  - apply path_insert; [by eapply not_published|apply C].
  - intros e Hne. cbn. by rewrite lookup_insert_ne.
Qed.

Lemma attempt_step t e n h fail s s' pub : cinv s pub → writers s !! t = Some (Running e (prepend_loop n h e)) →
  (n ≤ MAX_ATTEMPTS)%nat → e ∉ pub → next s !! e = Some h → seen pub h (MAX_ATTEMPTS - n) → wstep t fail s = Some s' →
  ∃ y, cinv s' (y ++ pub).
Proof.
  intros C Hw Hn He Hnx Hs Hst. unfold wstep in Hst. rewrite Hw in Hst. destruct n as [|n]; cbn [prepend_loop] in *.
  { injection Hst as <-. exists []. eapply cinv_stay; [done|exact Hw|done| |done]. split; [done|]. split; [done|].
    destruct Hs as (k & Hk & _). cbn [app]. lia. }
  destruct fail as [err|].
  { injection Hst as <-. exists []. eapply cinv_stay; [done|exact Hw|done| |done]. by apply ok_failed. }
  destruct (N.eqb_spec (head s) h) as [Heq|Hneq]; injection Hst as <-.
  - exists [e]. assert (e ∉ pub ++ base) as Hnew by exact (not_published t _ s pub C Hw He).
    destruct (c_writer _ _ C _ _ Hw) as (H0 & _ & _). cbn in H0.
    eapply (cinv_move t _ _ _ _ _ [e] s pub); [exact C|exact Hw|done| |by constructor; [done|apply C]|by right|done|by auto| |done|done].
    + cbn. split_and!; [done|done|]. exists h. split; [done|]. rewrite <- Heq. apply C.
    + apply ok_done. exists 0%nat. split_and!; [cbn; lia|done|]. cbn [app]. rewrite nth_head_push, <- Heq. apply path_head with (nx := next s), C.
  - exists []. eapply cinv_stay; [done|exact Hw|done| |done]. apply ok_refused; [lia|done|].
    destruct Hs as (k & Hk & Hh). destruct k as [|k]; [|cbn [app]; lia]. exfalso. apply Hneq. rewrite Hh. symmetry.
    apply eq_sym, (path_head (next s)), C.
Qed.

Lemma wstep_cinv t fail s s' pub : cinv s pub → wstep t fail s = Some s' → ∃ y, cinv s' (y ++ pub).
Proof.
  intros C Hst. destruct (writers s !! t) as [w|] eqn:Hw; [|unfold wstep in Hst; by rewrite Hw in Hst].
  destruct (c_writer _ _ C t w Hw) as (_ & _ & Hok).
  destruct w as [e|e h|e p|e r]; cbn [writer_ok] in Hok.
  - unfold wstep in Hst. rewrite Hw in Hst. injection Hst as <-. exists []. eapply cinv_stay; [done|exact Hw|done| |done].
    split; [done|]. exists 0%nat. split; [lia|]. apply (path_head (next s)), C.
  - unfold wstep in Hst. rewrite Hw in Hst. injection Hst as <-. exists []. destruct Hok as [He Hs].
    eapply (cinv_link t (Observed e h)); [done|exact Hw|done|done| |done]. apply ok_attempt; [done|done|by rewrite lookup_insert_eq|].
    by rewrite Nat.sub_diag.
  - inversion Hok as [n h Hn He Hnx Hs|n Hn He Hlen|n h Hn He Hs|err He Hf|h Ha]; subst; [by eapply attempt_step| | | |];
      unfold wstep in Hst; rewrite Hw in Hst; cbn [retry relinked] in Hst.
    + exists []. destruct fail as [err|]; injection Hst as <-; (eapply cinv_stay; [done|exact Hw|done| |done]).
      * by apply ok_failed.
      * apply ok_relink; [done|done|]. exists 0%nat. split; [cbn [app]; lia|]. apply (path_head (next s)), C.
    + exists []. destruct fail as [err|]; injection Hst as <-.
      * eapply cinv_stay; [done|exact Hw|done| |done]. by apply ok_failed.
      * eapply (cinv_link t (Running e _)); [done|exact Hw|done|done| |done]. apply ok_attempt; [lia|done|by rewrite lookup_insert_eq|done].
    + exists []. injection Hst as <-. eapply cinv_stay; [done|exact Hw|done| |done]. done.
    + exists []. injection Hst as <-.
      eapply (cinv_move t _ _ _ _ _ [] s pub); [exact C|exact Hw|done|apply C|apply C|by left|done| | |done|done].
      * intros h' e' Hne Hp' Ha'. cbn [prev]. rewrite lookup_insert_ne; [done|]. intros <-. apply Hne.
        eapply (above_inj (next s)); [apply C|apply C|done|done].
      * split; [done|]. cbn [prev]. by rewrite lookup_insert_eq.
  - unfold wstep in Hst. by rewrite Hw in Hst.
Qed.

Lemma wrun_cinv es : ∀ s s' pub, cinv s pub → wrun es s = Some s' → ∃ y, cinv s' (y ++ pub).
Proof.
  induction es as [|[t f] es IH]; intros s s' pub C Hr; cbn [wrun] in Hr; [injection Hr as <-; by exists []|].
  destruct (wstep t f s) as [s1|] eqn:Hs; [|done]. destruct (wstep_cinv t f s s1 pub C Hs) as [y1 C1].
  destruct (IH s1 s' _ C1 Hr) as [y C']. exists (y ++ y1). by rewrite <- (assoc_L (++)).
Qed.

Lemma ready_cinv s : ready base s → cinv s [].
Proof.
  intros [Hp Hnd Hst Hd]. split; [done|done| |done|set_solver].
  intros t w Hw. destruct (Hst t w Hw) as (e & -> & He & Hb). split_and!; [done|done|]. cbn. set_solver.
Qed.
End invariant.

(** C36: Concurrent prepends are never lost. Whatever the interleaving of any number of
    writers, with failing media, the chain that hangs off the head is the entries that
    were published, newest first, followed by the old chain; a writer that was told [Ok h]
    has its entry in the chain directly above [h], and [h]'s back-pointer names it; a
    writer that was told an error has no entry in the chain; and a writer is told that its
    attempts are exhausted only when at least [MAX_ATTEMPTS] entries of others were
    published. *)
Theorem prepend_never_lost {E : Type} (base : list N) (s0 s : Chain E) (es : list (N * option E)) :
  ready base s0 → wrun es s0 = Some s →
  ∃ pub, path (next s) (head s) (pub ++ base) ∧ NoDup (pub ++ base)
    ∧ ∀ t e r, writers s !! t = Some (Finished e r) →
        match r with
        | inl h => (∃ newer older, pub = newer ++ e :: older ∧ h = top_of (older ++ base)) ∧ prev s !! h = Some e
        | inr err => (e ∉ pub ++ base) ∧ match err with
                                        | Cell _ => True
                                        | ExhaustedAttempts a => a = MAX_ATTEMPTS ∧ (MAX_ATTEMPTS ≤ length pub)%nat
                                        end
        end.
Proof.
  intros Hr Hes. destruct (wrun_cinv base es s0 s [] (ready_cinv base s0 Hr) Hes) as [pub C]. rewrite app_nil_r in C.
  exists pub. split_and!; [apply C|apply C|]. intros t e r Hw. destruct (c_writer _ _ _ C t _ Hw) as (_ & Hb & Hok).
  cbn in Hb, Hok. destruct r as [h|err]; destruct Hok as [Ha Hrest].
  - split; [|done]. destruct Ha as (k & Hk & He & ->). rewrite lookup_app_l in He by done.
    exists (take k pub), (drop (S k) pub). split; [by rewrite take_drop_middle|].
    unfold nth_head, top_of. rewrite head_lookup. f_equal.
    replace (drop (S k) pub ++ base) with (drop (S k) (pub ++ base)) by (rewrite drop_app_le by lia; done).
    by rewrite lookup_drop, Nat.add_0_r.
  - split; [set_solver|done].
Qed.

(** Two writers race for one head: the first to read is refused, links again, and wins. *)
Definition race : Chain string :=
  mkChain 5 {[5 := 0]} ∅ {[1 := Start 10; 2 := Start 11]}.

Definition race_events : list (N * option string) :=
  (λ t, (t, None)) <$> [1; 1; 2; 2; 2; 2; 1; 1; 1; 1; 1].
Definition raced : Chain string := default race (wrun race_events race).

Lemma prepend_never_lost_witness :
  wrun race_events race = Some raced
  ∧ (head raced, next raced !! 10, next raced !! 11, prev raced !! 11) = (10, Some 11, Some 5, Some 10)
  ∧ ∃ pub, path (next raced) (head raced) (pub ++ [5]) ∧ NoDup (pub ++ [5]).
Proof.
  split; [vm_compute; reflexivity|]. split; [vm_compute; reflexivity|].
  destruct (prepend_never_lost [5] race raced race_events) as (pub & Hp & Hnd & _).
  - split.
    + cbn. split; [done|]. split; [done|]. exists 0. by split.
    + apply NoDup_singleton.
    + intros t w. cbn [race writers]. rewrite lookup_insert_Some, lookup_singleton_Some.
      intros [[_ <-]|[_ [_ <-]]]; eexists; (split; [reflexivity|]); (split; [done|set_solver]).
    + intros t u w v. cbn [race writers]. rewrite !lookup_insert_Some, !lookup_singleton_Some.
      intros [[<- <-]|[_ [<- <-]]] [[<- <-]|[_ [<- <-]]]; cbn; intros; lia || done.
  - vm_compute. reflexivity.
  - exists pub. split; [exact Hp|exact Hnd].
Defined.
