(* ===== verification/FreezeFloor.v ===== *)
(** * The freeze frontier (graphus-freezefloor, graphus-storage store.rs)

    [src/crates/graphus-freezefloor/src/lib.rs] is an atomic cell with a descent, a
    conditional raise and a reset. Around it this file models how one record store uses it
    (the store has such a frontier for each kind of record): writers put in-flight stamps into
    record headers, announce them by descending, commit and leave; a collection pass remembers
    the frontier, reads the headers from the frontier up, freezes the stamps of committed
    writers, raises the frontier to the first record that an open writer still stamps, and on
    its commit forgets the writers it found committed, or rolls back. Every access the source
    makes to shared state is a step of its own, so writers run between any two of them.

    A header is reduced to its in-use bit and its two version words; the pages, the log and the
    other sweeps of a pass are left out, but a record they reclaim comes back on rollback. *)

From stdpp Require Import options.
From S2P Require Import Prelude Core Snapshot.

Module FreezeFloor.
Record T := mkFloor { cell : N }.
Definition new (initial : N) : T := mkFloor initial.
Definition get (f : T) : N := cell f.
(** [fetch_min] answers the previous value. *)
Definition descend (candidate : N) (f : T) : N * T := (cell f, mkFloor (N.min (cell f) candidate)).
Definition try_raise (from to : N) (f : T) : bool * T :=
  if cell f =? from then (true, mkFloor to) else (false, f).
Definition reset (value : N) (_ : T) : T := mkFloor value.
End FreezeFloor.

(** ** Headers *)

Inductive Field := Created | Expired.

#[export] Instance Field_eq_dec : EqDecision Field.
Proof. solve_decision. Defined.

Record MvccHeader := mkHeader { in_use : bool; created_ts : N; expired_ts : N }.

Definition word (f : Field) (h : MvccHeader) : N :=
  match f with Created => created_ts h | Expired => expired_ts h end.
Definition set_word (f : Field) (wd : N) (h : MvccHeader) : MvccHeader :=
  match f with
  | Created => mkHeader (in_use h) wd (expired_ts h)
  | Expired => mkHeader (in_use h) (created_ts h) wd
  end.
Definition retire (h : MvccHeader) : MvccHeader := mkHeader false (created_ts h) (expired_ts h).

Definition frozen_word (r : CommitRegistry) (wd : N) : option N :=
  match from_raw wd with
  | VsInFlight writer =>
      match Registry.outcome r writer with
      | OCommitted ts => Some (committed ts)
      | OInFlight | OAborted => None
      end
  | VsNone | VsCommitted _ => None
  end.

Definition is_inflight_of_inflight_writer (active : gset TxnId) (wd : N) : bool :=
  match from_raw wd with VsInFlight w => bool_decide (w ∈ active) | _ => false end.

(** ** The store and the pass *)

(** What undoes a change of the pass: the word a freeze overwrote, the header of a record
    another sweep reclaimed. *)
Inductive UndoRec := UWord (i : N) (f : Field) (wd : N) | UHeader (i : N) (h : MvccHeader).

(** What a pass carries from its savepoint on: the frontier it remembered and the changes to
    undo, newest first. *)
Record Held := mkHeld { saved : N; undo : list UndoRec }.

(** Within one record of the sweep: the test of a word against the registry, the write of the
    frozen word, the test whether the writer is open. *)
Inductive Stage := AtFreeze (f : Field) | AtPatch (f : Field) (wd : N) | AtOpen (f : Field).

(** How far a pass is: savepoint taken; frontier loaded; high water loaded; reading the headers
    of [cursor..bound]; sweeping over those it read, with the next frontier [low] so far;
    frontier raised; committed writers collected; forgetting them after the commit; undoing. *)
Inductive Pass :=
  | Idle
  | Saved (p : Held)
  | Loaded (p : Held) (from : N)
  | Sized (p : Held) (from hw : N)
  | Reading (p : Held) (from hw bound cursor : N) (seen : list (N * MvccHeader))
  | Sweeping (p : Held) (from hw bound : N) (todo : list (N * MvccHeader))
      (cur : option (N * MvccHeader * Stage)) (low : N)
  | Raised (p : Held)
  | Captured (p : Held) (writers : list TxnId)
  | Pruning (writers : list TxnId)
  | Undoing (p : Held).

(** [begun], [ever] (committed at some time) and [unannounced] (record and writer of the stamps
    not descended to since they were written) are the history the statements speak of. *)
Record Store := mkStore {
  floor : FreezeFloor.T;
  high_water : N;
  records : gmap N MvccHeader;
  registry : CommitRegistry;
  active : gset TxnId;
  begun : gset TxnId;
  ever : gset TxnId;
  unannounced : gset (N * TxnId);
  pass : Pass;
}.

Definition header (s : Store) (i : N) : MvccHeader := default (mkHeader false 0 0) (records s !! i).

Definition with_pass (p : Pass) (s : Store) : Store :=
  mkStore (floor s) (high_water s) (records s) (registry s) (active s) (begun s) (ever s) (unannounced s) p.
Definition with_floor (f : FreezeFloor.T) (s : Store) : Store :=
  mkStore f (high_water s) (records s) (registry s) (active s) (begun s) (ever s) (unannounced s) (pass s).
Definition put (i : N) (h : MvccHeader) (s : Store) : Store :=
  mkStore (floor s) (high_water s) (<[i := h]> (records s)) (registry s) (active s) (begun s) (ever s)
    (unannounced s) (pass s).
Definition with_registry (r : CommitRegistry) (s : Store) : Store :=
  mkStore (floor s) (high_water s) (records s) r (active s) (begun s) (ever s) (unannounced s) (pass s).

(** [RecordStore::patch_header_word] under the pass: a write with the plain pre-image as undo. *)
Definition patch_header_word (i : N) (f : Field) (wd : N) (p : Held) (s : Store) : Store * Held :=
  (put i (set_word f wd (header s i)) s, mkHeld (saved p) (UWord i f (word f (header s i)) :: undo p)).

Definition after_freeze (f : Field) : Stage :=
  match f with Created => AtFreeze Expired | Expired => AtOpen Created end.

(** One access of the loop over the headers read, or the raise after it. *)
Definition sweep_step (p : Held) (from hw bound : N) (todo : list (N * MvccHeader))
    (cur : option (N * MvccHeader * Stage)) (low : N) (s : Store) : Store :=
  match cur with
  | None =>
      match todo with
      | [] => with_pass (Raised p) (with_floor (FreezeFloor.try_raise from low (floor s)).2 s)
      | (i, h) :: todo => with_pass (Sweeping p from hw bound todo (Some (i, h, AtFreeze Created)) low) s
      end
  | Some (i, h, AtFreeze f) =>
      let stage := match frozen_word (registry s) (word f h) with
                   | Some wd => AtPatch f wd
                   | None => after_freeze f
                   end in
      with_pass (Sweeping p from hw bound todo (Some (i, h, stage)) low) s
  | Some (i, h, AtPatch f wd) =>
      let '(s, p) := patch_header_word i f wd p s in
      with_pass (Sweeping p from hw bound todo (Some (i, h, after_freeze f)) low) s
  | Some (i, h, AtOpen f) =>
      if is_inflight_of_inflight_writer (active s) (word f h)
      then with_pass (Sweeping p from hw bound todo None (N.min low i)) s
      else match f with
           | Created => with_pass (Sweeping p from hw bound todo (Some (i, h, AtOpen Expired)) low) s
           | Expired => with_pass (Sweeping p from hw bound todo None low) s
           end
  end.

Definition apply_undo (u : UndoRec) (s : Store) : Store :=
  match u with
  | UWord i f wd => put i (set_word f wd (header s i)) s
  | UHeader i h => put i h s
  end.

(** [gc_inner]: the frontier is remembered before anything else. *)
Definition take_savepoint (s : Store) : Pass := Saved (mkHeld (FreezeFloor.get (floor s)) []).

(** [scan_in_use_mvcc_from], one slot: the headers of the records in use are collected. *)
Definition scan_slot (s : Store) (id : N) (out : list (N * MvccHeader)) : list (N * MvccHeader) :=
  let mvcc := header s id in if in_use mvcc then out ++ [(id, mvcc)] else out.

(** [gc_inner], after the sweep: the writers to forget when the pass commits. *)
Definition schedule_prune (p : Held) (s : Store) : Pass := Captured p (Registry.committed_writers (registry s)).

(** [commit_prepare], for a pass: one writer forgotten. *)
Definition forget_writer (w : TxnId) (s : Store) : Store := with_registry (Registry.forget w (registry s)) s.

(** [rollback], for a pass, after the undo: the frontier is restored by a descent. *)
Definition restore_savepoint (sv : N) (s : Store) : Store := with_floor (FreezeFloor.descend sv (floor s)).2 s.

(** The next access of the pass; from [Idle] a pass starts. *)
Definition pass_step (s : Store) : Store :=
  match pass s with
  | Idle => with_pass (take_savepoint s) s
  | Saved p => with_pass (Loaded p (FreezeFloor.get (floor s))) s
  | Loaded p from => with_pass (Sized p from (high_water s)) s
  | Sized p from hw => with_pass (Reading p from hw (high_water s) (N.max from 1) []) s
  | Reading p from hw bound cursor seen =>
      if cursor <? bound
      then with_pass (Reading p from hw bound (cursor + 1) (scan_slot s cursor seen)) s
      else with_pass (Sweeping p from hw bound seen None hw) s
  | Sweeping p from hw bound todo cur low => sweep_step p from hw bound todo cur low s
  | Raised p => with_pass (schedule_prune p s) s
  | Captured _ writers => with_pass (Pruning writers) s
  | Pruning [] => with_pass Idle s
  | Pruning (w :: writers) => with_pass (Pruning writers) (forget_writer w s)
  | Undoing (mkHeld sv []) => with_pass Idle (restore_savepoint sv s)
  | Undoing (mkHeld sv (u :: us)) => with_pass (Undoing (mkHeld sv us)) (apply_undo u s)
  end.

(** What a pass that has not committed holds. *)
Definition held (p : Pass) : option Held :=
  match p with
  | Saved p | Loaded p _ | Sized p _ _ | Reading p _ _ _ _ _ | Sweeping p _ _ _ _ _ _ | Raised p
  | Captured p _ => Some p
  | Idle | Pruning _ | Undoing _ => None
  end.

(** ** Events *)

(** Writers: begin; stamp a word of a record (a slot not in use becomes a fresh record); descend
    to a record; publish the commit; leave the active set; take a stamp back on rollback (the
    slot of a created record is retired); slots retired and the store grown. The pass: its next
    access; a record reclaimed by another of its sweeps; the audit withholding the prune; rollback. *)
Inductive Event :=
  | EBegin (w : TxnId)
  | EStamp (w : TxnId) (i : N) (f : Field)
  | EAnnounce (i : N)
  | ECommit (w : TxnId) (ts : Timestamp)
  | EFinish (w : TxnId)
  | EWithdraw (w : TxnId) (i : N) (f : Field)
  | EFree (i : N)
  | EGrow
  | EPass
  | EReclaim (i : N)
  | EAuditFails
  | ERollback.

(** [note_created] and [note_expired] come here once the stamp is written. *)
Definition lower_freeze_low (id : N) (f : FreezeFloor.T) : FreezeFloor.T := (FreezeFloor.descend id f).2.

Definition stamped_header (f : Field) (wd : N) (h : MvccHeader) : option MvccHeader :=
  if in_use h then Some (set_word f wd h)
  else match f with Created => Some (mkHeader true wd 0) | Expired => None end.

(** Every in-flight word of the header is a committed writer's. *)
Definition settled_header (r : CommitRegistry) (h : MvccHeader) : bool :=
  forallb (λ f, match from_raw (word f h) with
                | VsInFlight w => Registry.is_committed (Registry.outcome r w)
                | _ => true
                end) [Created; Expired].

Definition step (e : Event) (s : Store) : option Store :=
  match e with
  | EBegin w =>
      if bool_decide (w ∉ begun s)
      then Some (mkStore (floor s) (high_water s) (records s) (registry s) ({[w]} ∪ active s) ({[w]} ∪ begun s)
                   (ever s) (unannounced s) (pass s))
      else None
  | EStamp w i f =>
      if bool_decide (w ∈ active s ∖ ever s) && (w <=? u64_max) && (1 <=? i) && (i <? high_water s) then
        match (match in_flight w with Ok wd => stamped_header f wd (header s i) | _ => None end) with
        | Some h =>
            Some (mkStore (floor s) (high_water s) (<[i := h]> (records s)) (registry s) (active s) (begun s)
                    (ever s) ({[(i, w)]} ∪ unannounced s) (pass s))
        | None => None
        end
      else None
  | EAnnounce i =>
      Some (mkStore (lower_freeze_low i (floor s)) (high_water s) (records s) (registry s) (active s)
              (begun s) (ever s) (filter (λ q, q.1 ≠ i) (unannounced s)) (pass s))
  | ECommit w ts =>
      if bool_decide (w ∈ active s ∖ ever s) && (0 <? ts) && (ts <=? MAX_TIMESTAMP)
      then Some (mkStore (floor s) (high_water s) (records s) (Registry.record_commit w ts (registry s))
                   (active s) (begun s) ({[w]} ∪ ever s) (unannounced s) (pass s))
      else None
  | EFinish w =>
      Some (mkStore (floor s) (high_water s) (records s) (registry s) (active s ∖ {[w]}) (begun s) (ever s)
              (unannounced s) (pass s))
  | EWithdraw w i f =>
      if bool_decide (w ∈ active s ∖ ever s) && bool_decide (from_raw (word f (header s i)) = VsInFlight w)
      then Some (put i (match f with Created => retire (header s i) | Expired => set_word Expired 0 (header s i) end) s)
      else None
  | EFree i => Some (put i (retire (header s i)) s)
  | EGrow =>
      Some (mkStore (floor s) (high_water s + 1) (records s) (registry s) (active s) (begun s) (ever s)
              (unannounced s) (pass s))
  | EPass => Some (pass_step s)
  | EReclaim i =>
      match pass s with
      | Saved p =>
          if in_use (header s i) && settled_header (registry s) (header s i)
          then Some (with_pass (Saved (mkHeld (saved p) (UHeader i (header s i) :: undo p)))
                       (put i (retire (header s i)) s))
          else None
      | _ => None
      end
  | EAuditFails => match pass s with Raised p => Some (with_pass (Captured p []) s) | _ => None end
  | ERollback => match held (pass s) with Some p => Some (with_pass (Undoing p) s) | None => None end
  end.

Fixpoint run (es : list Event) (s : Store) : option Store :=
  match es with [] => Some s | e :: es => step e s ≫= run es end.

(** An empty store, the frontier at the first id. *)
Definition fresh_store : Store := mkStore (FreezeFloor.new 1) 1 ∅ Registry.new ∅ ∅ ∅ ∅ Idle.

(** ** What the protocol asks of writers *)

(** The records the pass has read and whose headers it still goes by. *)
Definition read_range (p : Pass) (i : N) : bool :=
  match p with
  | Reading _ from _ _ cursor _ => (from <=? i) && (i <? cursor)
  | Sweeping _ from _ bound _ _ _ => (from <=? i) && (i <? bound)
  | _ => false
  end.

(** The freeze test of the word is still to come in this pass, or no pass depends on it. *)
Definition before (st : Stage) (f : Field) : bool :=
  match st, f with
  | AtFreeze Created, _ | AtPatch Created _, _ => true
  | AtFreeze Expired, Expired | AtPatch Expired _, Expired => true
  | _, _ => false
  end.
Definition ahead (p : Pass) (i : N) (f : Field) : bool :=
  match p with
  | Loaded _ from | Sized _ from _ => from <=? i
  | Reading _ from _ bound _ _ => (from <=? i) && (i <? bound)
  | Sweeping _ _ _ _ todo cur _ =>
      existsb (λ x, x.1 =? i) todo
      || match cur with Some (j, _, st) => (j =? i) && before st f | None => false end
  | Raised _ => false
  | Idle | Saved _ | Captured _ _ | Pruning _ | Undoing _ => true
  end.

Definition bears (f : Field) (w : TxnId) (h : MvccHeader) : bool :=
  in_use h && bool_decide (from_raw (word f h) = VsInFlight w).

(** A writer commits with no stamp it did not descend to after writing it. *)
Definition announced_first (e : Event) (s : Store) : bool :=
  match e with
  | ECommit w _ => forallb (λ q, negb (q.2 =? w)) (elements (unannounced s))
  | _ => true
  end.

(** No stamp on a record the pass has read, until it has raised the frontier. *)
Definition off_the_scan (e : Event) (s : Store) : bool :=
  match e with EStamp _ i _ => negb (read_range (pass s) i) | _ => true end.

(** No descent below the savepoint before the pass has loaded the frontier. *)
Definition above_savepoint (e : Event) (s : Store) : bool :=
  match e, pass s with EAnnounce i, Saved p => saved p <=? i | _, _ => true end.

(** From the load to the collection of the committed writers, no commit with a stamp that the
    freeze tests have passed or will not reach. *)
Definition in_time (e : Event) (s : Store) : bool :=
  match e with
  | ECommit w _ =>
      forallb (λ x, forallb (λ f, negb (bears f w x.2) || ahead (pass s) x.1 f) [Created; Expired])
        (map_to_list (records s))
  | _ => true
  end.

Definition polite (e : Event) (s : Store) : bool :=
  announced_first e s && off_the_scan e s && above_savepoint e s && in_time e s.

(** A condition on the events holds of each event of a run. *)
Fixpoint along (P : Event → Store → bool) (es : list Event) (s : Store) : bool :=
  match es with
  | [] => true
  | e :: es => P e s && match step e s with Some s => along P es s | None => true end
  end.

(** ** The invariant *)

(** An in-use record bears [w]'s in-flight stamp; a word of a slot does, in use or not. *)
Definition stamp (s : Store) (i : N) (f : Field) (w : TxnId) : Prop := bears f w (header s i) = true.
Definition raw (s : Store) (i : N) (f : Field) (w : TxnId) : Prop :=
  from_raw (word f (header s i)) = VsInFlight w.

Definition live (s : Store) (w : TxnId) : Prop := w ∈ active s ∨ w ∈ ever s.

Definition known (s : Store) (w : TxnId) : Prop := ∃ ts, Registry.outcome (registry s) w = OCommitted ts.

(** The frontier, counting the savepoint a rollback is about to restore. *)
Definition reach (s : Store) : N :=
  match pass s with
  | Undoing p => N.min (FreezeFloor.get (floor s)) (saved p)
  | _ => FreezeFloor.get (floor s)
  end.

(** The stamp an undo brings back. *)
Definition restores (u : UndoRec) (i : N) (f : Field) (w : TxnId) : Prop :=
  match u with
  | UWord j g wd => j = i ∧ g = f ∧ from_raw wd = VsInFlight w
  | UHeader j h => j = i ∧ bears f w h = true
  end.

Definition held_ok (s : Store) (p : Held) : Prop :=
  ∀ u i f w, u ∈ undo p → restores u i f w → saved p ≤ i ∧ w ∈ ever s ∧ known s w ∧ 1 ≤ i ∧ i < high_water s.

(** A header the pass read: every in-flight word of the slot is in it. *)
Definition entry_ok (s : Store) (from bound : N) (x : N * MvccHeader) : Prop :=
  from ≤ x.1 ∧ 1 ≤ x.1 ∧ x.1 < bound ∧ ∀ f w, raw s x.1 f w → from_raw (word f x.2) = VsInFlight w.

(** The test whether the writer is open is still to come. *)
Definition undecided (st : Stage) (f : Field) : Prop := st = AtOpen Expired → f = Expired.

Definition cur_ok (s : Store) (from bound : N) (cur : option (N * MvccHeader * Stage)) : Prop :=
  match cur with
  | None => True
  | Some (i, h, st) =>
      entry_ok s from bound (i, h) ∧
      match st with
      | AtPatch f wd => (∀ w, from_raw wd ≠ VsInFlight w) ∧
          ∀ w, from_raw (word f h) = VsInFlight w → w ∈ ever s ∧ known s w
      | _ => True
      end
  end.

(** A stamp in the range read is on a record still to visit, or keeps the next frontier low. *)
Definition low_ok (s : Store) (from bound : N) (todo : list (N * MvccHeader))
    (cur : option (N * MvccHeader * Stage)) (low : N) : Prop :=
  ∀ i f w, stamp s i f w → live s w → from ≤ i → i < bound →
    i ∈ todo.*1 ∨ low ≤ i ∨ ∃ h st, cur = Some (i, h, st) ∧ undecided st f.

Definition scanning (s : Store) (p : Held) (from : N) : Prop :=
  from = saved p ∧ FreezeFloor.get (floor s) ≤ from ∧ held_ok s p.

Definition unmarked (s : Store) (writers : list TxnId) : Prop :=
  ∀ w, w ∈ writers → w ∈ ever s ∧ ∀ i f, ¬ stamp s i f w.

Definition pass_ok (s : Store) : Prop :=
  match pass s with
  | Idle => True
  | Saved p => FreezeFloor.get (floor s) = saved p ∧ held_ok s p
  | Loaded p from => scanning s p from
  | Sized p from hw => scanning s p from ∧ hw ≤ high_water s
  | Reading p from hw bound cursor seen =>
      scanning s p from ∧ hw ≤ bound ∧ bound ≤ high_water s ∧ N.max from 1 ≤ cursor ∧
      Forall (entry_ok s from (N.min cursor bound)) seen ∧
      (∀ i f w, stamp s i f w → from ≤ i → i < cursor → i ∈ seen.*1)
  | Sweeping p from hw bound todo cur low =>
      scanning s p from ∧ low ≤ hw ∧ hw ≤ bound ∧ bound ≤ high_water s ∧
      Forall (entry_ok s from bound) todo ∧ cur_ok s from bound cur ∧ low_ok s from bound todo cur low
  | Raised p | Undoing p => held_ok s p
  | Captured p writers => held_ok s p ∧ unmarked s writers
  | Pruning writers => unmarked s writers
  end.

Record inv (s : Store) : Prop := {
  inv_range : ∀ i f w, stamp s i f w → 1 ≤ i ∧ i < high_water s;
  inv_begun : ∀ i f w, stamp s i f w → w ∈ begun s;
  inv_active : active s ⊆ begun s;
  inv_ever : ever s ⊆ begun s;
  inv_registry : ∀ w ts, Registry.outcome (registry s) w = OCommitted ts → w ∈ ever s ∧ 0 < ts ∧ ts ≤ MAX_TIMESTAMP;
  inv_known : ∀ i f w, stamp s i f w → w ∈ ever s → known s w;
  inv_announced : ∀ i w, w ∈ ever s → (i, w) ∉ unannounced s;
  inv_covered : ∀ i f w, stamp s i f w → live s w → (i, w) ∉ unannounced s → reach s ≤ i;
  inv_ahead : ∀ i f w, stamp s i f w → w ∈ ever s → ahead (pass s) i f = true;
  inv_pass : pass_ok s;
}.

(** ** Headers after a write *)

Lemma header_put i h s j : header (put i h s) j = if decide (j = i) then h else header s j.
Proof.
  unfold header, put. cbn [records]. case_decide as E; [subst; by rewrite lookup_insert_eq|].
  by rewrite lookup_insert_ne.
Qed.

Lemma stamp_raw s i f w : stamp s i f w → raw s i f w.
Proof. unfold stamp, bears, raw. by intros [_ ?%bool_decide_eq_true]%andb_true_iff. Qed.

(** A write that adds no in-flight word. *)
Lemma put_shrinks i h s :
  (in_use h = true → in_use (header s i) = true) →
  (∀ f w, from_raw (word f h) = VsInFlight w → raw s i f w) →
  (∀ j f w, stamp (put i h s) j f w → stamp s j f w) ∧ (∀ j f w, raw (put i h s) j f w → raw s j f w).
Proof.
  intros Hu Hw. unfold stamp, raw, bears. split; intros j f w; rewrite header_put;
    case_decide as E; subst; rewrite ?andb_true_iff, ?bool_decide_eq_true; try done; [|apply Hw].
  intros [? ?]. split; [by apply Hu|by apply Hw].
Qed.

(** ** Writers keep the invariant *)

(** What holds of the pass stays true when writers change the store away from the headers the
    pass has read. *)
Lemma pass_ok_mono s s' :
  pass s' = pass s → high_water s ≤ high_water s' → ever s ⊆ ever s' →
  FreezeFloor.get (floor s') ≤ FreezeFloor.get (floor s) →
  (∀ p, pass s = Saved p → FreezeFloor.get (floor s) = saved p → FreezeFloor.get (floor s') = saved p) →
  (∀ w, w ∈ ever s → known s w → known s' w) →
  (∀ i f w, read_range (pass s) i = true → raw s' i f w → raw s i f w) →
  (∀ i f w, read_range (pass s) i = true → stamp s' i f w → stamp s i f w) →
  (∀ i f w, read_range (pass s) i = true → stamp s i f w → live s' w → live s w) →
  (∀ i f w, w ∈ ever s → stamp s' i f w → stamp s i f w) →
  pass_ok s → pass_ok s'.
Proof.
  intros Hp Hh He Hf Hsv Hk Hraw Hst Hl Hev.
  assert (∀ p, held_ok s p → held_ok s' p) as Hheld.
  { intros p H u i f w Hu Hr. destruct (H u i f w Hu Hr) as (? & ? & ? & ? & ?). split_and!; auto; lia. }
  assert (∀ p from, scanning s p from → scanning s' p from) as Hscan.
  { intros p from (? & ? & ?). split; [done|]. split; [lia|by apply Hheld]. }
  assert (∀ ws, unmarked s ws → unmarked s' ws) as Hun.
  { intros ws H w Hw. destruct (H w Hw) as [? Hn]. split; [by apply He|]. intros i f Hs. by apply (Hn i f), Hev. }
  unfold pass_ok. rewrite Hp. destruct (pass s) as [|p|p from|p from hw|p from hw bound c seen|p from hw bound todo cur low|p|p ws|ws|p] eqn:E;
    cbn [read_range] in *.
  - done.
  - intros [? ?]. split; [by apply Hsv|by apply Hheld].
  - apply Hscan.
  - intros [? ?]. split; [by apply Hscan|lia].
  - intros (? & ? & ? & ? & Hs & Hr). split_and!; [by apply Hscan|done|lia|done| |].
    + eapply Forall_impl; [exact Hs|]. intros [i h] (? & ? & ? & Hx). cbn in *. split_and!; try done.
      intros f w Hw. apply Hx, Hraw; [|done]. rewrite andb_true_iff, N.leb_le, N.ltb_lt. lia.
    + intros i f w Hs' ? ?. apply (Hr i f w); [|done..]. apply Hst; [|done].
      by rewrite andb_true_iff, N.leb_le, N.ltb_lt.
  - intros (? & ? & ? & ? & Ht & Hc & Hlow).
    assert (∀ x, entry_ok s from bound x → entry_ok s' from bound x) as Hent.
    { intros [i h] (? & ? & ? & Hx). cbn in *. split_and!; try done. intros f w Hw. apply Hx, Hraw; [|done].
      by rewrite andb_true_iff, N.leb_le, N.ltb_lt. }
    split_and!; [by apply Hscan|done|done|lia|by eapply Forall_impl| |].
    + unfold cur_ok in *. destruct cur as [[[i h] st]|]; [|done]. destruct Hc as [? Hc]. split; [by apply Hent|].
      destruct st; try done. destruct Hc as [? Hc]. split; [done|]. intros w Hw. destruct (Hc w Hw). auto.
    + intros i f w Hs Hl' ? ?. assert (((from <=? i) && (i <? bound)) = true) as Hrr
        by (by rewrite andb_true_iff, N.leb_le, N.ltb_lt).
      apply (Hst i f w Hrr) in Hs. apply (Hlow i f w Hs); [|done..]. by apply (Hl i f w).
  - apply Hheld.
  - intros [? ?]. split; [by apply Hheld|by apply Hun].
  - apply Hun.
  - apply Hheld.
Qed.

Lemma reach_mono s s' :
  pass s' = pass s → FreezeFloor.get (floor s') ≤ FreezeFloor.get (floor s) → reach s' ≤ reach s.
Proof. intros Hp Hf. unfold reach. rewrite Hp. destruct (pass s); lia. Qed.

Lemma reach_floor s : reach s ≤ FreezeFloor.get (floor s).
Proof. unfold reach. destruct (pass s); lia. Qed.

(** Events that add neither a stamp nor a commit. *)
Lemma inv_quiet s s' :
  inv s → pass s' = pass s → ever s' = ever s → registry s' = registry s →
  begun s ⊆ begun s' → active s' ⊆ begun s' → high_water s ≤ high_water s' →
  FreezeFloor.get (floor s') ≤ FreezeFloor.get (floor s) →
  (∀ p, pass s = Saved p → FreezeFloor.get (floor s) = saved p → FreezeFloor.get (floor s') = saved p) →
  (∀ i f w, stamp s' i f w → stamp s i f w) → (∀ i f w, raw s' i f w → raw s i f w) →
  (∀ i f w, stamp s i f w → live s' w → live s w) →
  unannounced s' ⊆ unannounced s →
  (∀ i w, (i, w) ∈ unannounced s → (i, w) ∈ unannounced s' ∨ FreezeFloor.get (floor s') ≤ i) →
  inv s'.
Proof.
  intros [Hr Hb Ha He Hreg Hk Han Hc Hah Hp] Ep Ee Er Hb' Ha' Hh Hf Hsv Hst Hraw Hl Hu Hu'. split.
  - intros i f w Hs. destruct (Hr i f w); [by apply Hst|]. lia.
  - intros i f w Hs. apply Hb', (Hb i f), Hst, Hs.
  - done.
  - rewrite Ee. set_solver.
  - rewrite Er, Ee. apply Hreg.
  - unfold known. rewrite Er, Ee. intros i f w Hs. apply (Hk i f w), Hst, Hs.
  - rewrite Ee. intros i w Hw Hin. by apply (Han i w Hw), Hu.
  - intros i f w Hs Hlw Hn. apply Hst in Hs. destruct (decide ((i, w) ∈ unannounced s)) as [Hin|Hin].
    + destruct (Hu' i w Hin) as [?|Hfl]; [done|]. pose proof (reach_floor s'). lia.
    + pose proof (reach_mono s s' Ep Hf). pose proof (Hc i f w Hs (Hl i f w Hs Hlw) Hin). lia.
  - rewrite Ep, Ee. intros i f w Hs. apply (Hah i f w), Hst, Hs.
  - apply (pass_ok_mono s s'); try done; [by rewrite Ee|unfold known; by rewrite Er|eauto..].
Qed.

Lemma step_begin w s s' : inv s → step (EBegin w) s = Some s' → inv s'.
Proof.
  intros Hi. cbn [step]. case_match eqn:E; [|done]. intros [= <-].
  apply bool_decide_eq_true in E.
  pose proof (inv_active s Hi). apply (inv_quiet s); try done; try (cbn; set_solver).
  - intros i f w' Hs. pose proof (inv_begun s Hi i f w' Hs). unfold live. cbn. set_solver.
Qed.

Lemma step_announce i s s' : inv s → polite (EAnnounce i) s = true → step (EAnnounce i) s = Some s' → inv s'.
Proof.
  intros Hi Hpol [= <-]. apply (inv_quiet s); try done.
  - apply (inv_active s Hi).
  - unfold FreezeFloor.get. cbn. lia.
  - intros p Hp Hf. unfold polite, above_savepoint in Hpol. rewrite Hp in Hpol. bool_solve.
    cbn. unfold FreezeFloor.get in *. lia.
  - cbn. intros [j w]. rewrite elem_of_filter. tauto.
  - intros j w Hin. unfold FreezeFloor.get. cbn. destruct (decide (j = i)) as [->|]; [right; lia|left]. by apply elem_of_filter.
Qed.

Lemma step_finish w s s' : inv s → step (EFinish w) s = Some s' → inv s'.
Proof.
  intros Hi [= <-]. pose proof (inv_active s Hi). apply (inv_quiet s); try done; try (cbn; set_solver).
  - intros i f w' Hs. unfold live. cbn. set_solver.
Qed.

Lemma inv_put_header i h s :
  inv s → (in_use h = true → in_use (header s i) = true) →
  (∀ f w, from_raw (word f h) = VsInFlight w → raw s i f w) → inv (put i h s).
Proof.
  intros Hi Hu Hw. destruct (put_shrinks i h s Hu Hw) as [Hst Hraw].
  apply (inv_quiet s); try done; [apply (inv_active s Hi)|auto].
Qed.

Lemma step_withdraw w i f s s' : inv s → step (EWithdraw w i f) s = Some s' → inv s'.
Proof.
  intros Hi. cbn [step]. case_match; [|done]. intros [= <-]. apply inv_put_header; [done|by destruct f|].
  intros g w'. destruct f, g; by unfold raw; cbn.
Qed.

Lemma step_free i s s' : inv s → step (EFree i) s = Some s' → inv s'.
Proof. intros Hi [= <-]. apply inv_put_header; [done|done|]. intros g w'. by destruct g. Qed.

Lemma step_grow s s' : inv s → step EGrow s = Some s' → inv s'.
Proof.
  intros Hi [= <-]. apply (inv_quiet s); try done; [apply (inv_active s Hi)|cbn; lia|auto].
Qed.

(** The in-flight words after [w] stamped a word of record [i]. *)
Lemma stamped_words w i f wd h s :
  in_flight w = Ok wd → w ≤ u64_max → stamped_header f wd (header s i) = Some h →
  ∀ g v, from_raw (word g h) = VsInFlight v → v = w ∨ (in_use (header s i) = true ∧ raw s i g v).
Proof.
  intros Hwd Hu Hh g v. destruct (in_flight_Ok_inv w wd Hu Hwd) as (-> & ? & ?).
  unfold stamped_header in Hh. destruct (in_use (header s i)).
  - injection Hh as <-. unfold raw. destruct f, g; cbn; try (by right); left.
    all: rewrite from_raw_in_flight in * by done; congruence.
  - destruct f; [|done]. injection Hh as <-. destruct g; cbn; [|done].
    rewrite from_raw_in_flight by done. intros [= ->]. by left.
Qed.

Lemma step_stamp w i f s s' :
  inv s → polite (EStamp w i f) s = true → step (EStamp w i f) s = Some s' → inv s'.
Proof.
  intros Hi Hpol. cbn [step]. case_match eqn:E; [|done]. bool_solve.
  unfold polite, off_the_scan, above_savepoint in Hpol. cbn in Hpol. rewrite !andb_true_r in Hpol. apply negb_true_iff in Hpol.
  destruct (in_flight w) as [wd| |] eqn:Ewd; [|done..].
  destruct (stamped_header f wd (header s i)) as [h|] eqn:Eh; [|done]. intros Hs'.
  pose proof (stamped_words w i f wd h s Ewd ltac:(done) Eh) as Hwords.
  assert (∀ j, header s' j = if decide (j = i) then h else header s j) as Hhd.
  { intros j. injection Hs' as <-. apply (header_put i h s). }
  assert (∀ j g v, stamp s' j g v → stamp s j g v ∨ (j = i ∧ v = w)) as Hst.
  { intros j g v Hs. pose proof (stamp_raw s' j g v Hs) as Hr. revert Hs Hr. unfold stamp, raw, bears.
    rewrite Hhd. case_decide as Ej; [subst|by left]. intros _ Hr.
    destruct (Hwords g v Hr) as [->|[-> ?]]; [by right|]. left. by rewrite bool_decide_eq_true_2. }
  assert (∀ j, read_range (pass s) j = true → header s' j = header s j) as Hsame.
  { intros j Hj. rewrite Hhd. case_decide; [subst; congruence|done]. }
  destruct Hi as [Hr Hb Ha He Hreg Hk Han Hc Hah Hp]. injection Hs' as Es'. split.
  - intros j g v [Hs|[-> _]]%Hst; subst s'; cbn; [by apply (Hr j g v)|done].
  - intros j g v [Hs|[_ ->]]%Hst; subst s'; cbn; [by apply (Hb j g v)|set_solver].
  - by subst s'.
  - by subst s'.
  - by subst s'.
  - intros j g v Hs Hv. assert (v ∈ ever s) by by subst s'. apply Hst in Hs as [Hs|[_ ->]]; [|set_solver].
    subst s'. by apply (Hk j g v).
  - intros j v Hv. assert (v ∈ ever s) as Hv' by by subst s'. specialize (Han j v Hv').
    subst s'. cbn. set_solver.
  - intros j g v Hs Hl Hn. assert ((j, v) ∉ {[(i, w)]} ∪ unannounced s) as Hn' by by subst s'.
    apply Hst in Hs as [Hs|[-> ->]]; [|set_solver]. subst s'. apply (Hc j g v); [done|done|set_solver].
  - intros j g v Hs Hv. assert (v ∈ ever s) by by subst s'. apply Hst in Hs as [Hs|[_ ->]]; [|set_solver].
    subst s'. by apply (Hah j g v).
  - apply (pass_ok_mono s s'); try (by subst s').
    + intros j g v Hj. unfold raw. by rewrite Hsame.
    + intros j g v Hj. unfold stamp. by rewrite Hsame.
    + intros j g v Hv [Hs|[_ ->]]%Hst; [done|set_solver].
Qed.

Lemma polite_commit w ts s :
  polite (ECommit w ts) s = true →
  (∀ i, (i, w) ∉ unannounced s) ∧ ∀ i f, stamp s i f w → ahead (pass s) i f = true.
Proof.
  unfold polite, announced_first, in_time. rewrite !andb_true_iff, !forallb_forall. intros [[[Hu _] _] Ha]. split.
  - intros i Hin. specialize (Hu (i, w)). rewrite <- list_elem_of_In, elem_of_elements in Hu.
    specialize (Hu Hin). cbn in Hu. by rewrite N.eqb_refl in Hu.
  - intros i f Hs. unfold stamp, header in Hs. destruct (records s !! i) as [h|] eqn:E; [|done].
    specialize (Ha (i, h)). rewrite <- list_elem_of_In, elem_of_map_to_list in Ha. specialize (Ha E).
    rewrite forallb_forall in Ha. specialize (Ha f). cbn [fst snd default] in *. unfold id in Hs. rewrite Hs in Ha.
    apply Ha. destruct f; cbn; auto.
Qed.

Lemma step_commit_writer w ts s s' :
  inv s → polite (ECommit w ts) s = true → step (ECommit w ts) s = Some s' → inv s'.
Proof.
  intros Hi [Hun Hahead]%polite_commit. cbn [step]. case_match eqn:E; [|done]. bool_solve. intros Hs'.
  assert (w ∈ active s ∧ w ∉ ever s) as [Hwa Hwe] by set_solver.
  assert (∀ v, Registry.outcome (registry s') v = if decide (v = w) then OCommitted ts else Registry.outcome (registry s) v) as Hout.
  { intros v. injection Hs' as <-. apply Registry.outcome_insert. }
  assert (∀ v, known s v → known s' v) as Hkn.
  { intros v [t Ht]. unfold known. rewrite Hout. case_decide; eauto. }
  destruct Hi as [Hr Hb Ha He Hreg Hk Han Hc Hah Hp]. injection Hs' as Es'.
  assert (ever s' = {[w]} ∪ ever s) as Eev by by subst s'.
  split; rewrite ?Eev; try (by subst s').
  - subst s'. cbn. set_solver.
  - intros v t. rewrite Hout. case_decide as Ev; [intros [= <-]; set_solver|].
    intros Ho. destruct (Hreg v t Ho). set_solver.
  - intros i f v Hs Hv. apply elem_of_union in Hv as [->%elem_of_singleton|Hv].
    + exists ts. rewrite Hout. by rewrite decide_True.
    + apply Hkn. subst s'. by apply (Hk i f v).
  - intros i v Hv. apply elem_of_union in Hv as [->%elem_of_singleton|Hv]; subst s'; [apply Hun|by apply Han].
  - intros i f v Hs Hl Hn. subst s'. apply (Hc i f v); [done| |done]. destruct Hl as [?|Hl]; [by left|].
    cbn in Hl. apply elem_of_union in Hl as [->%elem_of_singleton|?]; [by left|by right].
  - intros i f v Hs Hv. apply elem_of_union in Hv as [->%elem_of_singleton|Hv]; subst s'; [by apply Hahead|by apply (Hah i f v)].
  - apply (pass_ok_mono s s'); try (by subst s').
    + rewrite Eev. set_solver.
    + auto.
    + intros i f v _ _ [?|Hl]; [left; by subst s'|]. rewrite Eev in Hl.
      apply elem_of_union in Hl as [->%elem_of_singleton|?]; [by left|by right].
Qed.

(** ** The pass keeps the invariant *)

Lemma inv_with_pass p s :
  inv s → reach (with_pass p s) ≤ reach s →
  (∀ i f w, stamp s i f w → w ∈ ever s → ahead p i f = true) →
  pass_ok (with_pass p s) → inv (with_pass p s).
Proof.
  intros [Hr Hb Ha He Hreg Hk Han Hc Hah Hp] Hre Hah' Hp'. split; try done.
  intros i f w Hs Hl Hn. specialize (Hc i f w Hs Hl Hn). lia.
Qed.

(** Outside an undo the frontier bounds the stamps of committed writers. *)
Lemma committed_above s i f w :
  inv s → stamp s i f w → w ∈ ever s → reach s ≤ i.
Proof. intros Hi Hs Hw. apply (inv_covered s Hi i f w Hs); [by right|by apply (inv_announced s Hi)]. Qed.

Lemma pass_start s : inv s → pass s = Idle → inv (pass_step s).
Proof.
  intros Hi Hp. unfold pass_step. rewrite Hp. apply inv_with_pass; [done|by unfold reach; rewrite Hp|done|].
  split; [done|]. intros u i f w Hu. by apply not_elem_of_nil in Hu.
Qed.

Lemma pass_load s p : inv s → pass s = Saved p → inv (pass_step s).
Proof.
  intros Hi Hp. unfold pass_step. rewrite Hp. pose proof (inv_pass s Hi) as Hok. unfold pass_ok in Hok. rewrite Hp in Hok.
  destruct Hok as [Hf Hh]. apply inv_with_pass; [done|by unfold reach; rewrite Hp| |].
  - intros i f w Hs Hw. pose proof (committed_above s i f w Hi Hs Hw) as Hr. unfold reach in Hr. rewrite Hp in Hr.
    by apply N.leb_le.
  - split; [done|]. split; [done|exact Hh].
Qed.

Lemma pass_size s p from : inv s → pass s = Loaded p from → inv (pass_step s).
Proof.
  intros Hi Hp. unfold pass_step. rewrite Hp. pose proof (inv_pass s Hi) as Hok. unfold pass_ok in Hok. rewrite Hp in Hok.
  apply inv_with_pass; [done|by unfold reach; rewrite Hp| |].
  - intros i f w Hs Hw. pose proof (inv_ahead s Hi i f w Hs Hw) as Ha. by rewrite Hp in Ha.
  - split; [exact Hok|done].
Qed.

Lemma pass_scan s p from hw : inv s → pass s = Sized p from hw → inv (pass_step s).
Proof.
  intros Hi Hp. unfold pass_step. rewrite Hp. pose proof (inv_pass s Hi) as Hok. unfold pass_ok in Hok. rewrite Hp in Hok.
  destruct Hok as [Hsc Hhw]. apply inv_with_pass; [done|by unfold reach; rewrite Hp| |].
  - intros i f w Hs Hw. pose proof (inv_ahead s Hi i f w Hs Hw) as Ha. rewrite Hp in Ha. cbn in *. rewrite Ha. cbn.
    apply N.ltb_lt. by apply (inv_range s Hi i f w).
  - split_and!; [exact Hsc|done|done|done|constructor|].
    intros i f w Hs ? ?. destruct (inv_range s Hi i f w Hs). lia.
Qed.

Lemma pass_read s p from hw bound c seen :
  inv s → pass s = Reading p from hw bound c seen → inv (pass_step s).
Proof.
  intros Hi Hp. unfold pass_step. rewrite Hp. pose proof (inv_pass s Hi) as Hok. unfold pass_ok in Hok. rewrite Hp in Hok.
  pose proof (inv_ahead s Hi) as Ha. rewrite Hp in Ha.
  destruct Hok as (Hsc & Hhb & Hb & Hfc & Hent & Hseen). destruct (N.ltb_spec c bound) as [Hc|Hc].
  - unfold scan_slot. apply inv_with_pass; [done|by unfold reach; rewrite Hp|done|]. split_and!; [exact Hsc|done|done|lia| |].
    + assert (Forall (entry_ok s from (N.min (c + 1) bound)) seen) as Hent'.
      { eapply Forall_impl; [exact Hent|]. intros x (? & ? & ? & ?). split_and!; [lia..|done]. }
      destruct (in_use (header s c)); [|done]. apply Forall_app. split; [done|]. apply Forall_singleton.
      split_and!; cbn; [lia..|done].
    + intros i f w Hs ? ?. destruct (decide (i = c)) as [->|].
      * assert (in_use (header s c) = true) as ->.
        { change (stamp s c f w) in Hs. unfold stamp, bears in Hs. by apply andb_true_iff in Hs as [? _]. }
        rewrite fmap_app. cbn. set_solver.
      * specialize (Hseen i f w Hs ltac:(lia) ltac:(lia)). case_match; [rewrite fmap_app; set_solver|done].
  - apply inv_with_pass; [done|by unfold reach; rewrite Hp| |].
    + intros i f w Hs Hw. specialize (Ha i f w Hs Hw). cbn in Ha. bool_solve.
      specialize (Hseen i f w Hs ltac:(done) ltac:(lia)). apply list_elem_of_fmap in Hseen as ([j h] & -> & Hin).
      cbn. rewrite orb_false_r. apply existsb_exists. exists (j, h). by rewrite <- list_elem_of_In, N.eqb_refl.
    + split_and!; [exact Hsc|done|done|done| |done|].
      * eapply Forall_impl; [exact Hent|]. intros x (? & ? & ? & ?). split_and!; [lia..|done].
      * intros i f w Hs _ ? ?. left. apply (Hseen i f w Hs); lia.
Qed.

(** The sweep takes the next record. *)
Lemma sweep_next s p from hw bound i h todo low :
  inv s → pass s = Sweeping p from hw bound ((i, h) :: todo) None low → inv (pass_step s).
Proof.
  intros Hi Hp. unfold pass_step. rewrite Hp. pose proof (inv_pass s Hi) as Hok. unfold pass_ok in Hok. rewrite Hp in Hok.
  pose proof (inv_ahead s Hi) as Ha. rewrite Hp in Ha.
  destruct Hok as (Hsc & Hlh & Hhb & Hb & [Hih Hent]%Forall_cons & _ & Hlow).
  apply inv_with_pass; [done|by unfold reach; rewrite Hp| |].
  - intros j f w Hs Hw. specialize (Ha j f w Hs Hw). cbn in *. rewrite andb_true_r, orb_false_r in *. by rewrite orb_comm.
  - split_and!; [exact Hsc|done|done|done|done|by split|].
    intros j f w Hs Hl ? ?. destruct (Hlow j f w Hs Hl) as [Hin|[?|(? & ? & ? & _)]]; [done..| |by right; left|done].
    cbn in Hin. apply elem_of_cons in Hin as [->|Hin]; [right; right|by left]. by exists h, (AtFreeze Created).
Qed.

(** The raise. *)
Lemma sweep_raise s p from hw bound low :
  inv s → pass s = Sweeping p from hw bound [] None low → inv (pass_step s).
Proof.
  intros Hi Hp. unfold pass_step. rewrite Hp. pose proof (inv_pass s Hi) as Hok. unfold pass_ok in Hok. rewrite Hp in Hok.
  pose proof (inv_ahead s Hi) as Ha. rewrite Hp in Ha.
  destruct Hok as ((_ & Hf & Hh) & Hlh & Hhb & Hb & _ & _ & Hlow).
  destruct Hi as [Hr Hbg Hac He Hreg Hk Han Hc _ _]. split; try done.
  intros i f w Hs Hl Hn. specialize (Hc i f w Hs Hl Hn). unfold reach in *. rewrite Hp in Hc.
  unfold sweep_step, FreezeFloor.try_raise, FreezeFloor.get in *. cbn in *.
  destruct (N.eqb_spec (FreezeFloor.cell (floor s)) from) as [E|]; [|done]. cbn.
  destruct (N.lt_ge_cases i bound); [|lia].
  destruct (Hlow i f w Hs Hl) as [Hin|[?|(? & ? & ? & _)]]; [lia|done|by apply not_elem_of_nil in Hin|done|done].
Qed.

Lemma frozen_word_Some r wd wd' :
  frozen_word r wd = Some wd' →
  ∃ w ts, from_raw wd = VsInFlight w ∧ Registry.outcome r w = OCommitted ts ∧ wd' = committed ts.
Proof.
  unfold frozen_word. destruct (from_raw wd) as [| |w]; try done.
  destruct (Registry.outcome r w) as [|ts|] eqn:E; try done. intros [= <-]. eauto.
Qed.

Lemma frozen_word_None s wd w : frozen_word (registry s) wd = None → from_raw wd = VsInFlight w → ¬ known s w.
Proof. unfold frozen_word. intros Hf Hw [ts Hts]. by rewrite Hw, Hts in Hf. Qed.

(** The sweep tests a word against the registry. *)
Lemma sweep_test s p from hw bound i h f todo low :
  inv s → pass s = Sweeping p from hw bound todo (Some (i, h, AtFreeze f)) low → inv (pass_step s).
Proof.
  intros Hi Hp. unfold pass_step. rewrite Hp. pose proof (inv_pass s Hi) as Hok. unfold pass_ok in Hok. rewrite Hp in Hok.
  pose proof (inv_ahead s Hi) as Ha. rewrite Hp in Ha.
  destruct Hok as (Hsc & Hlh & Hhb & Hb & Hent & [Hih _] & Hlow). unfold sweep_step.
  apply inv_with_pass; [done|by unfold reach; rewrite Hp| |].
  - intros j g w Hs Hw. pose proof (Ha j g w Hs Hw) as Hag. cbn in *.
    destruct (existsb _ todo); [done|]. cbn in *. apply andb_true_iff in Hag as [Hij Hbf]. rewrite Hij. cbn.
    destruct (frozen_word (registry s) (word f h)) as [wd|] eqn:Ef; [by destruct f, g|].
    apply N.eqb_eq in Hij as <-. destruct (decide (g = f)) as [->|Hgf].
    + destruct (frozen_word_None s (word f h) w Ef); [|by apply (inv_known s Hi i f w)].
      apply Hih, stamp_raw, Hs.
    + destruct f, g; done.
  - split_and!; [exact Hsc|done|done|done|done| |].
    + split; [exact Hih|]. destruct (frozen_word (registry s) (word f h)) as [wd|] eqn:Ef; [|by destruct f].
      apply frozen_word_Some in Ef as (w & ts & Hw & Ho & ->). destruct (inv_registry s Hi w ts Ho) as (? & ? & ?).
      split; [intros v; by rewrite from_raw_committed|].
      intros v Hv. assert (v = w) as -> by congruence. split; [done|by exists ts].
    + intros j g w Hs Hl ? ?. destruct (Hlow j g w Hs Hl) as [?|[?|(h' & st & [= <- <- <-] & _)]];
        [done..|by left|by right; left|]. right; right.
      eexists h, _. split; [done|]. intros E. destruct (frozen_word _ _), f; done.
Qed.

(** The sweep writes a frozen word. *)
Lemma sweep_patch s p from hw bound i h f wd todo low :
  inv s → pass s = Sweeping p from hw bound todo (Some (i, h, AtPatch f wd)) low → inv (pass_step s).
Proof.
  intros Hi Hp. unfold pass_step. rewrite Hp. pose proof (inv_pass s Hi) as Hok0. unfold pass_ok in Hok0. rewrite Hp in Hok0.
  destruct Hok0 as ((Hfs & _ & Hh) & _ & _ & Hb0 & _ & [Hih [Hnf Hdone]] & _).
  assert (inv (put i (set_word f wd (header s i)) s)) as Hi1.
  { apply inv_put_header; [done|by destruct f|]. intros g w. destruct f, g; cbn; try done; by intros []%Hnf. }
  unfold sweep_step, patch_header_word. set (s1 := put i (set_word f wd (header s i)) s) in *.
  pose proof (inv_pass s1 Hi1) as Hok. unfold pass_ok in Hok. change (pass s1) with (pass s) in Hok. rewrite Hp in Hok.
  pose proof (inv_ahead s1 Hi1) as Ha. change (pass s1) with (pass s) in Ha. rewrite Hp in Ha.
  destruct Hok as ((_ & Hf & Hh1) & Hlh & Hhb & Hb & Hent & [Hih1 _] & Hlow).
  apply inv_with_pass; [done|unfold reach; change (pass s1) with (pass s); by rewrite Hp| |].
  - intros j g w Hs Hw. pose proof (Ha j g w Hs Hw) as Hag. cbn in *.
    destruct (existsb _ todo); [done|]. cbn in *. apply andb_true_iff in Hag as [Hij Hbf]. rewrite Hij. cbn.
    apply N.eqb_eq in Hij as <-. destruct (decide (g = f)) as [->|Hgf]; [|destruct f, g; done].
    apply stamp_raw in Hs. unfold raw, s1 in Hs. rewrite header_put, decide_True in Hs by done.
    destruct (Hnf w). by destruct f.
  - split_and!; [split; [done|]; split; [done|]|done|done|done|done|by split; [|destruct f]|].
    + intros u j g w Hu Hr. cbn [undo] in Hu. apply elem_of_cons in Hu as [->|Hu]; [|by apply (Hh1 u j g w)].
      destruct Hr as (<- & <- & Hw). destruct Hih as (? & ? & ? & Hx). destruct (Hdone w (Hx f w Hw)) as [? ?]. cbn in *.
      split_and!; try done; lia.
    + intros j g w Hs Hl ? ?. destruct (Hlow j g w Hs Hl) as [?|[?|(h' & st & [= <- <- <-] & _)]];
        [done..|by left|by right; left|]. right; right.
      eexists h, _. split; [done|]. by destruct f.
Qed.

(** The sweep tests whether the writer is open. *)
Lemma sweep_open s p from hw bound i h f todo low :
  inv s → pass s = Sweeping p from hw bound todo (Some (i, h, AtOpen f)) low → inv (pass_step s).
Proof.
  intros Hi Hp. unfold pass_step. rewrite Hp. pose proof (inv_pass s Hi) as Hok. unfold pass_ok in Hok. rewrite Hp in Hok.
  pose proof (inv_ahead s Hi) as Ha. rewrite Hp in Ha.
  destruct Hok as (Hsc & Hlh & Hhb & Hb & Hent & [Hih _] & Hlow).
  assert (∀ j g w, stamp s j g w → w ∈ ever s → existsb (λ x, x.1 =? j) todo = true) as Htodo.
  { intros j g w Hs Hw. pose proof (Ha j g w Hs Hw) as Hag. cbn in Hag.
    destruct (existsb _ todo); [done|]. apply andb_true_iff in Hag as [_ Hbf]. by destruct f. }
  assert (∀ g w, stamp s i g w → live s w → i ∉ todo.*1 → g = f → is_inflight_of_inflight_writer (active s) (word f h) = true) as Hopen.
  { intros g w Hs Hl Hn ->. destruct Hih as (_ & _ & _ & Hx). cbn in Hx. unfold is_inflight_of_inflight_writer.
    rewrite (Hx f w (stamp_raw s i f w Hs)). apply bool_decide_eq_true. destruct Hl as [?|Hw]; [done|].
    apply (Htodo i f w) in Hs as ([j h'] & Hin & Hj%N.eqb_eq)%existsb_exists; [|done]. cbn in Hj. subst j.
    destruct Hn. apply list_elem_of_fmap. exists (i, h'). by rewrite list_elem_of_In. }
  unfold sweep_step. destruct (is_inflight_of_inflight_writer _ _) eqn:Eo; [|destruct f].
  all: apply inv_with_pass; [done|by unfold reach; rewrite Hp|intros j g w Hs Hw; cbn; by rewrite (Htodo j g w)|].
  all: (split_and!; [exact Hsc|lia|done|done|done|try done|]; try by split).
  all: intros j g w Hs Hl ? ?; destruct (Hlow j g w Hs Hl) as [?|[?|(h' & st & [= <- <- <-] & Hu)]];
    [done..|by left|right; left; lia|].
  - right; left; lia.
  - destruct (decide (i ∈ todo.*1)) as [|Hn]; [by left|]. right; right. eexists h, _. split; [done|]. intros _.
    destruct g; [|done]. by specialize (Hopen Created w Hs Hl Hn eq_refl).
  - destruct (decide (i ∈ todo.*1)) as [|Hn]; [by left|]. by specialize (Hopen g w Hs Hl Hn (Hu eq_refl)).
Qed.

(** After the raise: the writers to forget, the prune, the undo. *)
Lemma pass_capture s p writers :
  inv s → pass s = Raised p → (∀ w, w ∈ writers → known s w) → inv (with_pass (Captured p writers) s).
Proof.
  intros Hi Hp Hws. pose proof (inv_pass s Hi) as Hok. unfold pass_ok in Hok. rewrite Hp in Hok.
  pose proof (inv_ahead s Hi) as Ha. rewrite Hp in Ha.
  apply inv_with_pass; [done|by unfold reach; rewrite Hp|done|]. split; [exact Hok|].
  intros w Hw. destruct (Hws w Hw) as [ts Hts]. destruct (inv_registry s Hi w ts Hts) as [He _].
  split; [done|]. intros i f Hs. by specialize (Ha i f w Hs He).
Qed.

Lemma committed_writers_known s w : w ∈ Registry.committed_writers (registry s) → known s w.
Proof.
  intros [ts Hts]%Registry.elem_of_committed_writers. exists ts. unfold Registry.outcome. by rewrite Hts.
Qed.

Lemma pass_forget s w ws :
  inv s → pass s = Pruning (w :: ws) → inv (pass_step s).
Proof.
  intros Hi Hp. unfold pass_step. rewrite Hp. pose proof (inv_pass s Hi) as Hok. unfold pass_ok in Hok. rewrite Hp in Hok.
  destruct (Hok w ltac:(left)) as [_ Hno]. destruct Hi as [Hr Hb Ha He Hreg Hk Han Hc Hah _].
  assert (∀ v, Registry.outcome (Registry.forget w (registry s)) v = if decide (v = w) then OAborted else Registry.outcome (registry s) v) as Hout.
  { intros v. apply Registry.outcome_forget. }
  split; try done.
  - cbn [registry with_registry with_pass]. intros v ts. rewrite Hout. case_decide; [done|]. apply Hreg.
  - intros i f v Hs Hv. unfold known. cbn [registry with_registry with_pass]. rewrite Hout. case_decide as E.
    + subst. by destruct (Hno i f).
    + by apply (Hk i f v).
  - intros i f v Hs Hl Hn. specialize (Hc i f v Hs Hl Hn). unfold reach in *. by rewrite Hp in Hc.
  - intros v Hv. apply Hok. by right.
Qed.

Lemma restores_cases u s i f w :
  stamp (apply_undo u s) i f w → stamp s i f w ∨ restores u i f w.
Proof.
  intros Hs. pose proof (stamp_raw _ i f w Hs) as Hr. revert Hs Hr. unfold stamp, raw, bears.
  destruct u as [j g wd|j h]; cbn [apply_undo restores]; rewrite header_put; case_decide as E; subst; auto.
  destruct (decide (g = f)) as [->|]; [intros _ ?; right; split_and!; destruct f; auto|].
  intros H _. left. by destruct g, f.
Qed.

Lemma pass_undo s sv u us : inv s → pass s = Undoing (mkHeld sv (u :: us)) → inv (pass_step s).
Proof.
  intros Hi Hp. unfold pass_step. rewrite Hp. pose proof (inv_pass s Hi) as Hok. unfold pass_ok in Hok. rewrite Hp in Hok.
  set (s' := with_pass (Undoing (mkHeld sv us)) (apply_undo u s)).
  assert (∀ i f w, stamp s' i f w → stamp s i f w ∨ (sv ≤ i ∧ w ∈ ever s ∧ known s w ∧ 1 ≤ i ∧ i < high_water s)) as Hst.
  { intros i f w Hs. change (stamp (apply_undo u s) i f w) in Hs. destruct (restores_cases u s i f w Hs) as [?|Hu]; [by left|].
    right. apply (Hok u i f w); [left|done]. }
  assert (floor s' = floor s ∧ high_water s' = high_water s ∧ registry s' = registry s ∧ active s' = active s ∧
    begun s' = begun s ∧ ever s' = ever s ∧ unannounced s' = unannounced s) as (E1 & E2 & E3 & E4 & E5 & E6 & E7).
  { by destruct u. }
  destruct Hi as [Hr Hb Ha He Hreg Hk Han Hc Hah _].
  split; unfold known, live; rewrite ?E2, ?E3, ?E4, ?E5, ?E6, ?E7; try done.
  - intros i f w [Hs|(_ & _ & _ & ? & ?)]%Hst; [by apply (Hr i f w)|done].
  - intros i f w [Hs|(_ & ? & _)]%Hst; [by apply (Hb i f w)|set_solver].
  - intros i f w [Hs|(_ & _ & ? & _)]%Hst Hw; [by apply (Hk i f w)|done].
  - intros i f w Hs Hl Hn. unfold reach. cbn [pass s' with_pass saved]. rewrite E1.
    apply Hst in Hs as [Hs|(? & _)]; [|lia]. specialize (Hc i f w Hs Hl Hn). unfold reach in Hc. by rewrite Hp in Hc.
  - unfold pass_ok. cbn [pass s' with_pass]. intros v i f w Hv Hr'. unfold known. rewrite E2, E3, E6.
    apply (Hok v i f w); [by right|done].
Qed.

Lemma pass_restore s sv : inv s → pass s = Undoing (mkHeld sv []) → inv (pass_step s).
Proof.
  intros Hi Hp. unfold pass_step. rewrite Hp. destruct Hi as [Hr Hb Ha He Hreg Hk Han Hc Hah _]. split; try done.
  intros i f w Hs Hl Hn. specialize (Hc i f w Hs Hl Hn). unfold reach in *. rewrite Hp in Hc. exact Hc.
Qed.

Lemma step_pass s : inv s → inv (pass_step s).
Proof.
  intros Hi. destruct (pass s) as [|p|p from|p from hw|p from hw bound c seen|p from hw bound todo cur low|p|p ws|ws|[sv us]] eqn:Hp.
  - by apply pass_start.
  - by eapply pass_load.
  - by eapply pass_size.
  - by eapply pass_scan.
  - by eapply pass_read.
  - destruct cur as [[[i h] [f|f wd|f]]|].
    + by eapply sweep_test.
    + by eapply sweep_patch.
    + by eapply sweep_open.
    + destruct todo as [|[i h] todo]; [by eapply sweep_raise|by eapply sweep_next].
  - unfold pass_step. rewrite Hp. apply pass_capture; [done..|]. apply committed_writers_known.
  - pose proof (inv_pass s Hi) as Hok. unfold pass_ok in Hok. rewrite Hp in Hok. unfold pass_step. rewrite Hp.
    apply inv_with_pass; [done|by unfold reach; rewrite Hp|done|apply Hok].
  - destruct ws as [|w ws]; [|by eapply pass_forget]. unfold pass_step. rewrite Hp.
    apply inv_with_pass; [done|by unfold reach; rewrite Hp|done|done].
  - destruct us as [|u us]; [by eapply pass_restore|by eapply pass_undo].
Qed.

Lemma step_reclaim i s s' : inv s → step (EReclaim i) s = Some s' → inv s'.
Proof.
  intros Hi. cbn [step]. destruct (pass s) as [|p| | | | | | | |] eqn:Hp; try done. case_match eqn:E; [|done]. intros [= <-].
  apply andb_true_iff in E as [Hu Hset].
  pose proof (inv_pass s Hi) as Hok. unfold pass_ok in Hok. rewrite Hp in Hok. destruct Hok as [Hf Hh].
  assert (inv (put i (retire (header s i)) s)) as Hi1 by (apply inv_put_header; [done|done|]; intros g w'; by destruct g).
  apply inv_with_pass; [done|unfold reach; cbn [pass put]; by rewrite Hp|done|]. split; [done|].
  intros u j f w Hin Hr. cbn [undo] in Hin. apply elem_of_cons in Hin as [->|Hin]; [|by apply (Hh u j f w)].
  destruct Hr as [<- Hs]. change (stamp s i f w) in Hs.
  assert (known s w) as [ts Hts].
  { unfold settled_header in Hset. rewrite forallb_forall in Hset. specialize (Hset f ltac:(destruct f; cbn; auto)).
    rewrite (stamp_raw s i f w Hs) in Hset. destruct (Registry.outcome (registry s) w) eqn:Eo; try done. by eexists. }
  destruct (inv_registry s Hi w ts Hts) as [He _]. destruct (inv_range s Hi i f w Hs).
  pose proof (committed_above s i f w Hi Hs He) as Hr. unfold reach in Hr. rewrite Hp in Hr.
  split_and!; try done; [cbn [saved]; lia|by exists ts].
Qed.

Lemma step_rollback s s' : inv s → step ERollback s = Some s' → inv s'.
Proof.
  intros Hi. cbn [step]. destruct (held (pass s)) as [p|] eqn:Hh; [|done]. intros [= <-].
  pose proof (inv_pass s Hi) as Hok. unfold pass_ok in Hok.
  assert (held_ok s p) as Hheld.
  { unfold scanning in Hok. destruct (pass s); cbn in Hh; try done; injection Hh as ->; naive_solver. }
  apply inv_with_pass; [done| |done|exact Hheld].
  unfold reach. cbn [pass with_pass floor]. destruct (pass s); cbn in Hh; try done; lia.
Qed.

Lemma freeze_step_inv e s s' : inv s → polite e s = true → step e s = Some s' → inv s'.
Proof.
  destruct e; intros Hi Hpol Hs.
  - by eapply step_begin.
  - by eapply step_stamp.
  - by eapply step_announce.
  - by eapply step_commit_writer.
  - by eapply step_finish.
  - by eapply step_withdraw.
  - by eapply step_free.
  - by eapply step_grow.
  - injection Hs as <-. by apply step_pass.
  - by eapply step_reclaim.
  - cbn [step] in Hs. destruct (pass s) eqn:Hp; try done. injection Hs as <-.
    apply pass_capture; [done..|]. by intros w Hw%not_elem_of_nil.
  - by eapply step_rollback.
Qed.

Lemma freeze_run_inv es : ∀ s s', inv s → along polite es s = true → run es s = Some s' → inv s'.
Proof.
  induction es as [|e es IH]; intros s s' Hi Hpol Hr; cbn [run along] in *; [by injection Hr as <-|].
  apply andb_true_iff in Hpol as [Hpe Hpol]. destruct (step e s) as [s1|] eqn:Hs; [|done].
  apply (IH s1); [by eapply freeze_step_inv|done|done].
Qed.

Lemma freeze_fresh_inv : inv fresh_store.
Proof.
  assert (∀ i f w, ¬ stamp fresh_store i f w) as Hn by (intros i f w; by unfold stamp, header; cbn; rewrite lookup_empty).
  split; try done; try (intros i f w Hs; by destruct (Hn i f w)).
Qed.

(** ** An undisturbed pass *)

(** The accesses a pass has before it, at most. *)
Definition stage_left (st : Stage) : nat :=
  match st with
  | AtFreeze Created => 6 | AtPatch Created _ => 5 | AtFreeze Expired => 4 | AtPatch Expired _ => 3
  | AtOpen Created => 2 | AtOpen Expired => 1
  end.
Definition to_forget (s : Store) : nat := length (Registry.committed_writers (registry s)).
Definition left (s : Store) : nat :=
  match pass s with
  | Idle | Undoing _ => 0
  | Saved _ => 8 * N.to_nat (high_water s) + to_forget s + 8
  | Loaded _ _ => 8 * N.to_nat (high_water s) + to_forget s + 7
  | Sized _ _ _ => 8 * N.to_nat (high_water s) + to_forget s + 6
  | Reading _ _ _ bound cursor seen => 8 * N.to_nat (bound - cursor) + 7 * length seen + to_forget s + 5
  | Sweeping _ _ _ _ todo cur _ =>
      7 * length todo + match cur with Some (_, _, st) => stage_left st | None => 0 end + to_forget s + 4
  | Raised _ => to_forget s + 3
  | Captured _ writers => length writers + 2
  | Pruning writers => length writers + 1
  end.

(** From the moment the committed writers are collected no record bears a committed stamp. *)
Definition clean (s : Store) : Prop :=
  match pass s with
  | Captured _ _ | Pruning _ => ∀ i f w, stamp s i f w → w ∉ ever s
  | Undoing _ => False
  | _ => True
  end.

Lemma pass_progress s :
  pass s ≠ Idle → clean s → inv s →
  (left (pass_step s) < left s)%nat ∧ clean (pass_step s) ∧ ever (pass_step s) = ever s ∧
  (pass (pass_step s) = Idle → ∀ i f w, stamp (pass_step s) i f w → w ∉ ever s).
Proof.
  intros Hne Hc Hi. pose proof (inv_ahead s Hi) as Ha. unfold clean, left, pass_step, to_forget in *.
  destruct (pass s) as [|p|p from|p from hw|p from hw bound c seen|p from hw bound todo cur low|p|p ws|ws|[sv us]] eqn:Hp; try done.
  - cbn. split_and!; try done. lia.
  - cbn. split_and!; try done. lia.
  - cbn. split_and!; try done. lia.
  - destruct (N.ltb_spec c bound); cbn; (split_and!; [|done..]); [|lia].
    unfold scan_slot. destruct (in_use _); rewrite ?length_app; cbn; lia.
  - destruct cur as [[[i h] [f|f wd|f]]|]; [..|destruct todo as [|[i h] todo]];
      unfold sweep_step, patch_header_word; cbn.
    + split_and!; try done. destruct (frozen_word _ _), f; cbn; lia.
    + split_and!; try done. destruct f; cbn; lia.
    + destruct (is_inflight_of_inflight_writer _ _); [|destruct f]; cbn; (split_and!; try done; cbn; lia || (destruct f; cbn; lia)).
    + split_and!; try done. lia.
    + split_and!; try done. lia.
  - cbn. split_and!; [lia| |done|done]. intros i f w Hs Hw. by specialize (Ha i f w Hs Hw).
  - cbn. split_and!; [lia|done|done|done].
  - destruct ws as [|w ws]; cbn; (split_and!; [lia|done|done|done]).
Qed.

Lemma undisturbed_ends n : ∀ s, (left s ≤ n)%nat → pass s ≠ Idle → clean s → inv s →
  ∃ m s', run (replicate m EPass) s = Some s' ∧ pass s' = Idle ∧ ∀ i f w, stamp s' i f w → w ∉ ever s.
Proof.
  induction n as [|n IH]; intros s Hn Hp Hc Hi;
    destruct (pass_progress s Hp Hc Hi) as (Hlt & Hc' & He & Hend); [lia|].
  pose proof (step_pass s Hi) as Hi'.
  destruct (pass (pass_step s)) as [| | | | | | | | |] eqn:E;
    [exists 1%nat, (pass_step s); split_and!; [done|done|by apply Hend]|..].
  all: destruct (IH (pass_step s)) as (m & s' & Hr & Hs'); [lia|congruence|done|done|].
  all: rewrite He in Hs'; exists (S m), s'; split; [exact Hr|exact Hs'].
Qed.

(** C37: The freeze frontier keeps every stamp in reach. Take any interleaving of writers that
    begin, stamp, announce, commit, leave and roll back with collection passes that commit or
    roll back, one at a time, every access of a pass to the frontier, the headers, the registry
    and the active set being a step of its own. Suppose that (1) no writer commits with a stamp
    it did not descend to after writing it, (2) no writer stamps a record that a pass has read
    and not yet raised the frontier over, (3) no writer descends below a pass's savepoint before
    the pass has loaded the frontier, and (4) no writer commits between a pass's load of the
    frontier and its collection of the committed writers with a stamp in use that the pass's
    freeze tests have passed or will not reach. Then at any time, unless a rollback is half-way,
    an announced stamp of an active or committed writer on an in-use record is at or above the
    frontier; every committed writer whose stamp an in-use record bears is still in the commit
    registry; and when no pass runs, a pass that nobody disturbs comes to its end and leaves no
    in-use record with a committed writer's stamp. *)
Theorem freeze_frontier_sound es s :
  run es fresh_store = Some s → along polite es fresh_store = true →
  (∀ i f w, stamp s i f w → w ∈ active s ∨ w ∈ ever s → (i, w) ∉ unannounced s →
     (∀ p, pass s ≠ Undoing p) → FreezeFloor.get (floor s) ≤ i) ∧
  (∀ i f w, stamp s i f w → w ∈ ever s → ∃ ts, Registry.outcome (registry s) w = OCommitted ts) ∧
  (pass s = Idle → ∃ n s', run (replicate n EPass) s = Some s' ∧ pass s' = Idle ∧
     ∀ i f w, stamp s' i f w → w ∉ ever s).
Proof.
  intros Hr Hpol. pose proof (freeze_run_inv es _ _ freeze_fresh_inv Hpol Hr) as Hi. split_and!.
  - intros i f w Hs Hl Hn Hu. pose proof (inv_covered s Hi i f w Hs Hl Hn) as Hc. unfold reach in Hc.
    destruct (pass s); try done. by destruct (Hu p).
  - apply (inv_known s Hi).
  - intros Hp. pose proof (step_pass s Hi) as Hi'.
    assert (pass (pass_step s) = Saved (mkHeld (FreezeFloor.get (floor s)) [])) as E by (unfold pass_step; by rewrite Hp).
    destruct (undisturbed_ends (left (pass_step s)) (pass_step s)) as (n & s' & Hr' & Hs');
      [lia|by rewrite E|unfold clean; by rewrite E|done|]. exists (S n), s'. split; [exact Hr'|].
    assert (ever (pass_step s) = ever s) as <- by (unfold pass_step; by rewrite Hp). exact Hs'.
Qed.

(** ** Each proviso is needed *)

Abbreviation passes n := (replicate n EPass).

(** Transaction 7 creates record 2 and commits; a pass freezes it and leaves the frontier at 4. *)
Definition one_record : list Event :=
  replicate 3 EGrow ++ [EBegin 7; EStamp 7 2 Created; EAnnounce 2; ECommit 7 1; EFinish 7].
Definition one_frozen : list Event := one_record ++ passes 19.

(** Transaction 8 descends to record 2, a pass raises the frontier, and only then it stamps. *)
Definition descends_early : list Event :=
  one_frozen ++ [EBegin 8; EAnnounce 2] ++ passes 16 ++ [EStamp 8 2 Expired; ECommit 8 2; EFinish 8] ++ passes 10.

(** It stamps record 2 after a pass has read it; its descent does not move the frontier. *)
Definition behind_the_scan : list Event :=
  one_record ++ passes 8 ++ [EBegin 8; EStamp 8 2 Expired; EAnnounce 2] ++ passes 11 ++ [ECommit 8 2; EFinish 8] ++ passes 10.

(** It descends between a pass's savepoint and its load, and the pass rolls back. *)
Definition below_the_savepoint : list Event :=
  one_frozen ++ [EBegin 8; EStamp 8 2 Expired] ++ passes 1 ++ [EAnnounce 2; ECommit 8 2; EFinish 8] ++ passes 13
  ++ [ERollback] ++ passes 2 ++ passes 10.

(** It commits a new record while a pass is between its raise and its collection of writers. *)
Definition after_the_sweep : list Event :=
  one_frozen ++ [EGrow; EBegin 8] ++ passes 7 ++ [EStamp 8 4 Created; EAnnounce 4; ECommit 8 2; EFinish 8] ++ passes 4.

(** It commits and leaves between the two tests of the sweep. *)
Definition between_the_tests : list Event :=
  one_frozen ++ [EBegin 8; EStamp 8 2 Expired; EAnnounce 2] ++ passes 10 ++ [ECommit 8 2; EFinish 8] ++ passes 7.

(** No pass runs, and a record bears the stamp of a committed writer that the registry has
    forgotten, which resolves to an aborted one. *)
Definition strands (es : list Event) : Prop :=
  ∃ s, run es fresh_store = Some s ∧ pass s = Idle ∧
    ∃ i f w, stamp s i f w ∧ w ∈ ever s ∧ Registry.outcome (registry s) w = OAborted.

Ltac strand i f :=
  eexists; split; [vm_compute; reflexivity|]; split; [reflexivity|];
  exists i, f, 8; (split; [vm_compute; reflexivity|]; split; [apply (bool_decide_unpack _); vm_compute; exact I|vm_compute; reflexivity]).

(** Each proviso is needed: for each there is a run that keeps the other three and makes the
    store read a committed version as aborted. *)
Theorem freeze_frontier_strands :
  (strands descends_early ∧
     Forall (λ P, along P descends_early fresh_store = true) [off_the_scan; above_savepoint; in_time]) ∧
  (strands behind_the_scan ∧
     Forall (λ P, along P behind_the_scan fresh_store = true) [announced_first; above_savepoint; in_time]) ∧
  (strands below_the_savepoint ∧
     Forall (λ P, along P below_the_savepoint fresh_store = true) [announced_first; off_the_scan; in_time]) ∧
  (strands after_the_sweep ∧
     Forall (λ P, along P after_the_sweep fresh_store = true) [announced_first; off_the_scan; above_savepoint]) ∧
  (strands between_the_tests ∧
     Forall (λ P, along P between_the_tests fresh_store = true) [announced_first; off_the_scan; above_savepoint]).
Proof.
  split_and!; try (repeat constructor; vm_compute; reflexivity).
  - strand 2 Expired.
  - strand 2 Expired.
  - strand 2 Expired.
  - strand 4 Created.
  - strand 2 Expired.
Qed.

(** A run with a reused record, a writer open across a pass, and a rollback. *)
Definition ordinary_run : list Event :=
  one_frozen ++ [EBegin 8; EStamp 8 2 Expired; EAnnounce 2] ++ passes 13 ++ [ERollback] ++ passes 1
  ++ [ECommit 8 2; EFinish 8].

Lemma freeze_frontier_sound_witness :
  ∃ s, run ordinary_run fresh_store = Some s ∧ stamp s 2 Expired 8 ∧ FreezeFloor.get (floor s) ≤ 2 ∧
    ∃ n s', run (replicate n EPass) s = Some s' ∧ pass s' = Idle ∧ ¬ stamp s' 2 Expired 8.
Proof.
  eexists. split; [vm_compute; reflexivity|]. split; [vm_compute; reflexivity|].
  match goal with |- context [floor ?t] => set (s := t) end.
  assert (8 ∈ ever s) as He by (apply (bool_decide_unpack _); vm_compute; exact I).
  destruct (freeze_frontier_sound ordinary_run s) as (Hc & _ & Hp); [vm_compute; reflexivity..|]. split.
  - apply (Hc 2 Expired 8); [vm_compute; reflexivity|by right|apply (bool_decide_unpack _); vm_compute; exact I|done].
  - destruct (Hp eq_refl) as (n & s' & Hr & Hi & Hs). exists n, s'. split; [done|]. split; [done|].
    intros Hst. by apply (Hs 2 Expired 8 Hst).
Defined.
