(* ===== verification/Float64.v ===== *)
(** The two numeric types of Cypher values and their exact comparison.

    An [f64] is its bit pattern, a 64-bit [N]; an [i64] is a [Z]. The operations of the
    language that the value relations use on them (IEEE comparison, the casts between the
    two types, [floor]) are defined on the pattern through its exact value: every finite
    double is an integer multiple of [2^-1074], so [scaled] is that integer, and the
    infinities take the value the same formula gives them, above every finite double.
    [total_f64] (graphus-core value/spatial.rs) and [cmp_int_float] (value/numeric.rs) are
    translated from the source. The theorem is that [cmp_int_float], which avoids the lossy
    cast by splitting on the magnitude, is the comparison of the two exact values. *)
From S2P Require Import Prelude.
From stdpp Require Import options.

Open Scope N_scope.

(** ** The language's [f64] *)

Definition f64 := N.

Definition sign_mask : N := 0x8000_0000_0000_0000.
Definition infinity_bits : N := 0x7FF0_0000_0000_0000.
Definition i64_min : Z := (- 2 ^ 63)%Z.
Definition i64_max : Z := (2 ^ 63 - 1)%Z.

Definition is_f64 (x : f64) : Prop := x < 2 ^ 64.

(** The sign bit and the 63 bits below it. *)
Definition f64_sign (x : f64) : bool := 2 ^ 63 <=? x.
Definition f64_abs (x : f64) : N := x mod 2 ^ 63.

(** [f64::is_nan] and [f64::is_finite]. *)
Definition is_nan (x : f64) : bool := infinity_bits <? f64_abs x.
Definition is_finite (x : f64) : bool := f64_abs x <? infinity_bits.

(** The magnitude of the pattern [m] (sign cleared) in units of [2^-1074]: the fraction for
    a subnormal, the significand shifted by the exponent otherwise. *)
Definition magnitude (m : N) : N :=
  let e := m / 2 ^ 52 in
  let f := m mod 2 ^ 52 in
  if e =? 0 then f else (2 ^ 52 + f) * 2 ^ (e - 1).

Definition scaled (x : f64) : Z :=
  if f64_sign x then (- Z.of_N (magnitude (f64_abs x)))%Z else Z.of_N (magnitude (f64_abs x)).

(** One, in the same unit. *)
Definition one_scaled : N := 2 ^ 1074.

(** [f64::partial_cmp], and the operators [==], [<] and [>=] it gives. *)
Definition f64_partial_cmp (x y : f64) : option comparison :=
  if is_nan x || is_nan y then None else Some (scaled x ?= scaled y)%Z.

Definition f64_eqb (x y : f64) : bool :=
  match f64_partial_cmp x y with Some Eq => true | _ => false end.

Definition f64_ltb (x y : f64) : bool :=
  match f64_partial_cmp x y with Some Lt => true | _ => false end.

Definition f64_geb (x y : f64) : bool :=
  match f64_partial_cmp x y with Some (Gt | Eq) => true | _ => false end.

(** Unary minus flips the sign bit. *)
Definition f64_neg (x : f64) : f64 := N.lxor x sign_mask.

(** [n] rounded to a multiple of [2^s], halves to the even multiple, as that multiple. *)
Definition round_half_even (n s : N) : N :=
  let q := n / 2 ^ s in
  let r := n mod 2 ^ s in
  if (2 ^ s <? 2 * r) || ((2 * r =? 2 ^ s) && N.odd q) then q + 1 else q.

(** The 53-bit significand of [n > 0], rounded to nearest: [2^52 ≤ q ≤ 2^53]. *)
Definition significand (n : N) : N :=
  let l := N.log2 n in
  if l <=? 52 then n * 2 ^ (52 - l) else round_half_even n (l - 52).

(** [i as f64]: a carry out of the significand runs into the exponent field. *)
Definition i64_as_f64 (i : Z) : f64 :=
  let n := Z.abs_N i in
  if n =? 0 then 0
  else (if (i <? 0)%Z then 2 ^ 63 else 0) + ((N.log2 n + 1022) * 2 ^ 52 + significand n).

(** [x as i64]: truncation toward zero, saturating, NaN to zero. *)
Definition f64_as_i64 (x : f64) : Z :=
  if is_nan x then 0%Z
  else Z.max i64_min (Z.min i64_max (Z.quot (scaled x) (Z.of_N one_scaled))).

(** [f64::floor]: from [2^52] on every double is whole; a zero keeps its sign. *)
Definition f64_floor (x : f64) : f64 :=
  if 1075 <=? f64_abs x / 2 ^ 52 then x
  else
    let z := (scaled x / Z.of_N one_scaled)%Z in
    if (z =? 0)%Z then (if f64_sign x then sign_mask else 0) else i64_as_f64 z.

(** [x.fract() == 0.0] of a finite [x]. *)
Definition f64_is_whole (x : f64) : bool := (scaled x mod Z.of_N one_scaled =? 0)%Z.

(** ** [Ordering] *)

(** [Ordering::then]. *)
Definition then_cmp (a b : comparison) : comparison :=
  match a with Eq => b | _ => a end.

(** [bool::cmp]. *)
Definition bool_cmp (x y : bool) : comparison :=
  match x, y with false, true => Lt | true, false => Gt | _, _ => Eq end.

Definition comparison_eqb (a b : comparison) : bool :=
  match a, b with Eq, Eq | Lt, Lt | Gt, Gt => true | _, _ => false end.

(** ** value/spatial.rs: the total order on floats *)

(** The monotone key of [total_f64]. *)
Definition mono (x : f64) : N :=
  if is_nan x then u64_max
  else if negb (N.land x sign_mask =? 0) then N.lxor x u64_max
  else N.lxor x sign_mask.

Definition total_f64 (a b : f64) : comparison := mono a ?= mono b.

(** ** value/numeric.rs: comparing an integer with a float *)

Definition MAX_EXACT_INT_IN_F64 : Z := (2 ^ 53)%Z.

(** [9_223_372_036_854_775_808.0], the double [2^63]. *)
Definition TWO_POW_63 : f64 := 0x43E0_0000_0000_0000.

Definition cmp_int_float (i : Z) (f : f64) : option comparison :=
  if is_nan f then None
  else if ((- MAX_EXACT_INT_IN_F64 <=? i) && (i <=? MAX_EXACT_INT_IN_F64))%Z
  then f64_partial_cmp (i64_as_f64 i) f
  else if f64_geb f TWO_POW_63 then Some Lt
  else if f64_ltb f (f64_neg TWO_POW_63) then Some Gt
  else
    let floor := f64_floor f in
    let floor_as_int := f64_as_i64 floor in
    Some (then_cmp (i ?= floor_as_int)%Z (if f64_ltb floor f then Lt else Eq)).

(** ** Facts about patterns and magnitudes *)

Lemma f64_split (x : f64) :
  is_f64 x → x = (if f64_sign x then 2 ^ 63 else 0) + f64_abs x ∧ f64_abs x < 2 ^ 63.
Proof.
  unfold is_f64, f64_sign, f64_abs. intros Hx.
  pose proof (N.mod_lt x (2 ^ 63) ltac:(done)) as Hlt.
  pose proof (N.div_mod x (2 ^ 63) ltac:(done)) as Hdm.
  assert (x / 2 ^ 63 < 2) as Hq by (apply N.Div0.div_lt_upper_bound; lia).
  generalize dependent (x mod 2 ^ 63). generalize dependent (x / 2 ^ 63). intros q Hq r Hr Hx'.
  destruct (N.leb_spec (2 ^ 63) x); split; try done; destruct (decide (q = 0)); lia.
Qed.

Lemma magnitude_subnormal m : m < 2 ^ 52 → magnitude m = m.
Proof.
  intros Hm. unfold magnitude. rewrite N.div_small, N.mod_small by done. done.
Qed.

Lemma magnitude_normal e f :
  0 < e → f < 2 ^ 52 → magnitude (e * 2 ^ 52 + f) = (2 ^ 52 + f) * 2 ^ (e - 1).
Proof.
  intros He Hf. unfold magnitude.
  rewrite N.add_comm, N.div_add, N.div_small, N.add_0_l by (done || lia).
  rewrite N.Div0.mod_add, N.mod_small by done.
  destruct (N.eqb_spec e 0); [lia|done].
Qed.

(** A pattern is an exponent and a fraction. *)
Lemma pattern_split m : ∃ e f, m = e * 2 ^ 52 + f ∧ f < 2 ^ 52.
Proof.
  exists (m / 2 ^ 52), (m mod 2 ^ 52). split; [|by apply N.mod_lt].
  pose proof (N.div_mod m (2 ^ 52) ltac:(done)). lia.
Qed.

Lemma pow2_split a b : a ≤ b → 2 ^ b = 2 ^ (b - a) * 2 ^ a.
Proof. intros H. rewrite <- N.pow_add_r. f_equal. lia. Qed.

Lemma pow2_pos a : 0 < 2 ^ a.
Proof. apply N.neq_0_lt_0, N.pow_nonzero. done. Qed.

Lemma magnitude_lt m m' : m < m' → magnitude m < magnitude m'.
Proof.
  intros Hlt. destruct (pattern_split m) as (e & f & -> & Hf).
  destruct (pattern_split m') as (e' & f' & -> & Hf').
  destruct (decide (e' = 0)) as [->|He'].
  { rewrite !magnitude_subnormal by lia. lia. }
  rewrite (magnitude_normal e' f') by lia.
  pose proof (pow2_pos (e' - 1)) as Hp'.
  destruct (decide (e = 0)) as [->|He].
  { rewrite magnitude_subnormal by lia. nia. }
  rewrite magnitude_normal by lia.
  pose proof (pow2_pos (e - 1)) as Hp.
  destruct (decide (e = e')) as [->|Hne]; [nia|].
  rewrite (pow2_split e (e' - 1)) by lia.
  assert (2 ^ e = 2 * 2 ^ (e - 1)) as ->.
  { rewrite <- N.pow_succ_r'. f_equal. lia. }
  pose proof (pow2_pos (e' - 1 - e)). nia.
Qed.

Lemma magnitude_le m m' : m ≤ m' ↔ magnitude m ≤ magnitude m'.
Proof.
  split; intros H; [|apply N.nlt_ge; intros ?%magnitude_lt; lia].
  destruct (N.lt_eq_cases m m') as [[?%magnitude_lt| ->] _]; [done|lia|lia].
Qed.

Lemma magnitude_inj m m' : magnitude m = magnitude m' → m = m'.
Proof. intros H. apply N.le_antisymm; apply magnitude_le; lia. Qed.

Lemma magnitude_0 m : magnitude m = 0 ↔ m = 0.
Proof. split; [intros H; by apply magnitude_inj|by intros ->]. Qed.

(** ** Rounding an integer to a double *)

(** The integer the rounding of [n] denotes. *)
Definition rounded (n : N) : N :=
  if N.log2 n <=? 52 then n else significand n * 2 ^ (N.log2 n - 52).

Lemma round_half_even_bounds n s :
  n / 2 ^ s ≤ round_half_even n s ≤ n / 2 ^ s + 1.
Proof. unfold round_half_even. destruct (_ || _); lia. Qed.

Lemma round_half_even_exact n s : n mod 2 ^ s = 0 → round_half_even n s = n / 2 ^ s.
Proof.
  intros H. unfold round_half_even. rewrite H. pose proof (pow2_pos s).
  destruct (N.ltb_spec (2 ^ s) (2 * 0)); [lia|].
  destruct (N.eqb_spec (2 * 0) (2 ^ s)); [lia|done].
Qed.

Lemma round_half_even_mono n n' s : n ≤ n' → round_half_even n s ≤ round_half_even n' s.
Proof.
  intros Hle. pose proof (N.Div0.div_le_mono n n' (2 ^ s) Hle) as Hq.
  destruct (N.lt_eq_cases (n / 2 ^ s) (n' / 2 ^ s)) as [[Hlt|Heq] _]; [done| |].
  { pose proof (round_half_even_bounds n s). pose proof (round_half_even_bounds n' s). lia. }
  unfold round_half_even. rewrite <- Heq.
  pose proof (pow2_pos s). assert (n mod 2 ^ s ≤ n' mod 2 ^ s) as Hr.
  { pose proof (N.div_mod n (2 ^ s)). pose proof (N.div_mod n' (2 ^ s)). nia. }
  destruct (N.ltb_spec (2 ^ s) (2 * (n mod 2 ^ s)));
    destruct (N.ltb_spec (2 ^ s) (2 * (n' mod 2 ^ s))); simpl; try lia;
    destruct (N.eqb_spec (2 * (n mod 2 ^ s)) (2 ^ s));
    destruct (N.eqb_spec (2 * (n' mod 2 ^ s)) (2 ^ s)); simpl; try lia;
    destruct (N.odd _); lia.
Qed.

Lemma log2_bounds n : 0 < n → 2 ^ N.log2 n ≤ n < 2 * 2 ^ N.log2 n.
Proof. intros H. pose proof (N.log2_spec n H) as [? ?]. rewrite N.pow_succ_r' in *. lia. Qed.

(** The quotient of [n] by the weight of its last significand bit has 53 bits. *)
Lemma quotient_bounds n :
  52 < N.log2 n → 2 ^ 52 ≤ n / 2 ^ (N.log2 n - 52) < 2 ^ 53.
Proof.
  intros Hl. assert (0 < n) as Hn by (destruct n; [simpl in Hl; lia|lia]).
  pose proof (log2_bounds n Hn) as Hb.
  pose proof (pow2_split (N.log2 n - 52) (N.log2 n) ltac:(lia)) as Hs.
  replace (N.log2 n - (N.log2 n - 52)) with 52 in Hs by lia.
  pose proof (pow2_pos (N.log2 n - 52)) as Hp. rewrite Hs in Hb.
  split; [apply N.div_le_lower_bound; lia|].
  apply N.Div0.div_lt_upper_bound. change (2 ^ 53) with (2 * 2 ^ 52). lia.
Qed.

Lemma significand_bounds n : 0 < n → 2 ^ 52 ≤ significand n ≤ 2 ^ 53.
Proof.
  intros Hn. unfold significand. destruct (N.leb_spec (N.log2 n) 52) as [Hl|Hl].
  - pose proof (log2_bounds n Hn) as Hb.
    rewrite (pow2_split (N.log2 n) 52) by done. pose proof (pow2_pos (52 - N.log2 n)).
    change (2 ^ 53) with (2 * 2 ^ 52). rewrite (pow2_split (N.log2 n) 52) by done. nia.
  - pose proof (quotient_bounds n Hl).
    pose proof (round_half_even_bounds n (N.log2 n - 52)). lia.
Qed.

Lemma significand_rounded n :
  0 < n → significand n * 2 ^ (N.log2 n + 1022) = rounded n * one_scaled.
Proof.
  intros Hn. unfold rounded, one_scaled. destruct (N.leb_spec (N.log2 n) 52) as [Hl|Hl].
  - unfold significand. destruct (N.leb_spec (N.log2 n) 52); [|lia].
    rewrite <- N.mul_assoc, <- N.pow_add_r. f_equal. f_equal. lia.
  - rewrite <- N.mul_assoc, <- N.pow_add_r. f_equal; f_equal; lia.
Qed.

Lemma magnitude_of_int n :
  0 < n → magnitude ((N.log2 n + 1022) * 2 ^ 52 + significand n) = rounded n * one_scaled.
Proof.
  intros Hn. rewrite <- significand_rounded by done.
  pose proof (significand_bounds n Hn) as [Hlo Hhi].
  destruct (N.eq_dec (significand n) (2 ^ 53)) as [->|Hne].
  - replace ((N.log2 n + 1022) * 2 ^ 52 + 2 ^ 53) with ((N.log2 n + 1024) * 2 ^ 52 + 0) by lia.
    rewrite magnitude_normal by lia.
    replace (N.log2 n + 1024 - 1) with (N.succ (N.log2 n + 1022)) by lia.
    rewrite N.pow_succ_r'. lia.
  - replace ((N.log2 n + 1022) * 2 ^ 52 + significand n)
      with ((N.log2 n + 1023) * 2 ^ 52 + (significand n - 2 ^ 52)) by lia.
    rewrite magnitude_normal by lia. f_equal; [lia|f_equal; lia].
Qed.

Lemma rounded_exact n : n ≤ 2 ^ 53 → rounded n = n.
Proof.
  intros Hn. unfold rounded. destruct (N.leb_spec (N.log2 n) 52) as [Hl|Hl]; [done|].
  assert (2 ^ 53 ≤ n) as Hge.
  { apply N.le_trans with (2 ^ N.log2 n); [apply N.pow_le_mono_r; lia|].
    apply N.log2_spec. destruct n; [simpl in Hl|]; lia. }
  replace n with (2 ^ 53) by lia. done.
Qed.

Lemma rounded_binade n :
  0 < n → 2 ^ N.log2 n ≤ rounded n ≤ 2 * 2 ^ N.log2 n.
Proof.
  intros Hn. unfold rounded. destruct (N.leb_spec (N.log2 n) 52) as [Hl|Hl].
  { pose proof (log2_bounds n Hn). lia. }
  pose proof (significand_bounds n Hn) as [? ?].
  rewrite (pow2_split (N.log2 n - 52) (N.log2 n)) by lia.
  replace (N.log2 n - (N.log2 n - 52)) with 52 by lia.
  pose proof (pow2_pos (N.log2 n - 52)). change (2 ^ 53) with (2 * 2 ^ 52) in *. nia.
Qed.

(** Above [2^52] the doubles of one binade are the multiples of its spacing. *)
Lemma double_in_binade m l :
  52 < l → 2 ^ l * one_scaled ≤ magnitude m < 2 * 2 ^ l * one_scaled →
  ∃ k, magnitude m = k * 2 ^ (l - 52) * one_scaled.
Proof.
  intros Hl [Hlo Hhi]. destruct (pattern_split m) as (e & f & -> & Hf).
  unfold one_scaled in *.
  rewrite <- N.pow_succ_r', <- N.pow_add_r in Hhi. rewrite <- N.pow_add_r in Hlo.
  destruct (decide (e = 0)) as [->|He].
  { rewrite magnitude_subnormal in Hlo by lia.
    assert (2 ^ 52 ≤ 2 ^ (l + 1074)) by (apply N.pow_le_mono_r; lia). lia. }
  rewrite magnitude_normal in * by lia.
  pose proof (pow2_pos (e - 1)) as Hp.
  assert (2 ^ (52 + (e - 1)) < 2 ^ (N.succ l + 1074)) as H1%N.pow_lt_mono_r_iff
    by (rewrite N.pow_add_r; nia); [|lia].
  assert (2 ^ (l + 1074) < 2 ^ (53 + (e - 1))) as H2%N.pow_lt_mono_r_iff
    by (rewrite (N.pow_add_r 2 53); change (2 ^ 53) with (2 * 2 ^ 52); nia); [|lia].
  exists (2 ^ 52 + f). rewrite <- N.mul_assoc, <- N.pow_add_r. f_equal. f_equal. lia.
Qed.

Lemma rounded_big n : 52 < N.log2 n → rounded n = round_half_even n (N.log2 n - 52) * 2 ^ (N.log2 n - 52).
Proof.
  intros Hl. unfold rounded, significand.
  destruct (N.leb_spec (N.log2 n) 52); [lia|done].
Qed.

Lemma round_half_even_multiple k s : round_half_even (k * 2 ^ s) s = k.
Proof.
  rewrite round_half_even_exact by apply N.Div0.mod_mul.
  apply N.div_mul. pose proof (pow2_pos s). lia.
Qed.

(** Rounding an integer never crosses a double. *)
Lemma rounded_le_double n m : n * one_scaled ≤ magnitude m → rounded n * one_scaled ≤ magnitude m.
Proof.
  intros Hle. destruct (decide (N.log2 n ≤ 52)) as [Hl|Hl].
  { unfold rounded. destruct (N.leb_spec (N.log2 n) 52); [done|lia]. }
  apply N.nle_gt in Hl. assert (0 < n) as Hn by (destruct n; [simpl in Hl|]; lia).
  pose proof (rounded_binade n Hn) as [_ Hr]. pose proof (log2_bounds n Hn) as [Hb _].
  pose proof (pow2_pos 1074) as Hone. fold one_scaled in Hone.
  destruct (decide (2 * 2 ^ N.log2 n * one_scaled ≤ magnitude m)) as [?|Hhi]; [nia|].
  destruct (double_in_binade m (N.log2 n) Hl) as [k Hk]; [split; [nia|lia]|].
  rewrite Hk in Hle |- *. rewrite rounded_big by done.
  apply N.mul_le_mono_pos_r in Hle; [|done].
  apply (round_half_even_mono _ _ (N.log2 n - 52)) in Hle.
  rewrite round_half_even_multiple in Hle.
  by apply N.mul_le_mono_r, N.mul_le_mono_r.
Qed.

Lemma rounded_ge_double n m : magnitude m ≤ n * one_scaled → magnitude m ≤ rounded n * one_scaled.
Proof.
  intros Hle. destruct (decide (N.log2 n ≤ 52)) as [Hl|Hl].
  { unfold rounded. destruct (N.leb_spec (N.log2 n) 52); [done|lia]. }
  apply N.nle_gt in Hl. assert (0 < n) as Hn by (destruct n; [simpl in Hl|]; lia).
  pose proof (rounded_binade n Hn) as [Hr _]. pose proof (log2_bounds n Hn) as [_ Hb].
  pose proof (pow2_pos 1074) as Hone. fold one_scaled in Hone.
  destruct (decide (magnitude m < 2 ^ N.log2 n * one_scaled)) as [?|Hlo]; [nia|].
  destruct (double_in_binade m (N.log2 n) Hl) as [k Hk]; [split; [lia|nia]|].
  rewrite Hk in Hle |- *. rewrite rounded_big by done.
  apply N.mul_le_mono_pos_r in Hle; [|done].
  apply (round_half_even_mono _ _ (N.log2 n - 52)) in Hle.
  rewrite round_half_even_multiple in Hle.
  by apply N.mul_le_mono_r, N.mul_le_mono_r.
Qed.

Lemma rounded_mono n n' : n ≤ n' → rounded n ≤ rounded n'.
Proof.
  intros Hle. destruct (decide (n = 0)) as [->|Hn]; [change (rounded 0) with 0; lia|].
  pose proof (N.log2_le_mono n n' Hle) as Hl.
  destruct (N.lt_eq_cases (N.log2 n) (N.log2 n')) as [[Hlt|Heq] _]; [done| |].
  - pose proof (rounded_binade n ltac:(lia)). pose proof (rounded_binade n' ltac:(lia)).
    assert (2 ^ N.succ (N.log2 n) ≤ 2 ^ N.log2 n') by (apply N.pow_le_mono_r; lia).
    rewrite N.pow_succ_r' in *. lia.
  - unfold rounded, significand. rewrite <- Heq.
    destruct (N.leb_spec (N.log2 n) 52); [done|].
    by apply N.mul_le_mono_r, round_half_even_mono.
Qed.

(** The integer [i as f64] denotes. *)
Definition round_i64 (i : Z) : Z := (Z.sgn i * Z.of_N (rounded (Z.abs_N i)))%Z.

Lemma abs_i64 i : is_i64 i → Z.abs_N i ≤ 2 ^ 63.
Proof. unfold is_i64. lia. Qed.

Lemma int_pattern_bound n : 0 < n → n ≤ 2 ^ 63 → (N.log2 n + 1022) * 2 ^ 52 + significand n < infinity_bits.
Proof.
  intros Hn Hle. apply N.log2_le_mono in Hle. rewrite N.log2_pow2 in Hle by lia.
  pose proof (significand_bounds n Hn). unfold infinity_bits. lia.
Qed.

Lemma as_f64_parts i :
  is_i64 i → f64_sign (i64_as_f64 i) = (i <? 0)%Z ∧
  f64_abs (i64_as_f64 i) < infinity_bits ∧ is_f64 (i64_as_f64 i) ∧
  Z.of_N (magnitude (f64_abs (i64_as_f64 i))) = (Z.of_N (rounded (Z.abs_N i)) * Z.of_N one_scaled)%Z.
Proof.
  intros Hi%abs_i64. unfold i64_as_f64. destruct (N.eqb_spec (Z.abs_N i) 0) as [H0|H0].
  { replace i with 0%Z by lia. done. }
  pose proof (int_pattern_bound (Z.abs_N i) ltac:(lia) Hi) as Hb.
  pose proof (magnitude_of_int (Z.abs_N i) ltac:(lia)) as Hm.
  generalize dependent ((N.log2 (Z.abs_N i) + 1022) * 2 ^ 52 + significand (Z.abs_N i)).
  intros p Hb Hm. assert (p < 2 ^ 63) as Hp by (unfold infinity_bits in Hb; lia).
  unfold f64_sign, f64_abs, is_f64.
  assert (((if (i <? 0)%Z then 2 ^ 63 else 0) + p) mod 2 ^ 63 = p) as ->.
  { destruct (i <? 0)%Z; [|by rewrite N.add_0_l, N.mod_small].
    rewrite N.add_comm. rewrite <- (N.mul_1_l (2 ^ 63)) at 1.
    by rewrite N.Div0.mod_add, N.mod_small. }
  split_and!; [|done| |rewrite Hm; lia].
  - destruct (i <? 0)%Z; [apply N.leb_le|apply N.leb_gt]; lia.
  - destruct (i <? 0)%Z; lia.
Qed.

Lemma scaled_as_f64 i : is_i64 i → scaled (i64_as_f64 i) = (round_i64 i * Z.of_N one_scaled)%Z.
Proof.
  intros Hi. destruct (as_f64_parts i Hi) as (Hs & _ & _ & Hm).
  unfold scaled, round_i64. rewrite Hs, Hm. generalize (Z.of_N one_scaled). intros u.
  destruct (Z.ltb_spec i 0).
  - rewrite Z.sgn_neg by done. lia.
  - destruct (decide (i = 0%Z)) as [->|]; [done|]. rewrite Z.sgn_pos by lia. lia.
Qed.

Lemma as_f64_not_nan i : is_i64 i → is_nan (i64_as_f64 i) = false.
Proof.
  intros Hi. destruct (as_f64_parts i Hi) as (_ & Hb & _). unfold is_nan. apply N.ltb_ge. lia.
Qed.

Lemma round_i64_exact i : (- 2 ^ 53 ≤ i ≤ 2 ^ 53)%Z → round_i64 i = i.
Proof. intros Hi. unfold round_i64. rewrite rounded_exact by lia. lia. Qed.

Lemma round_i64_mono i j : (i ≤ j)%Z → (round_i64 i ≤ round_i64 j)%Z.
Proof.
  intros Hle. unfold round_i64.
  destruct (Z.lt_trichotomy i 0) as [Hi|[->|Hi]]; destruct (Z.lt_trichotomy j 0) as [Hj|[->|Hj]]; try lia.
  - rewrite !Z.sgn_neg by done. pose proof (rounded_mono (Z.abs_N j) (Z.abs_N i)). lia.
  - rewrite !Z.sgn_pos by lia. pose proof (rounded_mono (Z.abs_N i) (Z.abs_N j)). lia.
Qed.

Lemma scaled_cases (x : f64) :
  (0 ≤ scaled x ∧ scaled x = Z.of_N (magnitude (f64_abs x)) ∨
   scaled x ≤ 0 ∧ scaled x = - Z.of_N (magnitude (f64_abs x)))%Z.
Proof. unfold scaled. destruct (f64_sign x); lia. Qed.

Lemma one_scaled_pos : (0 < Z.of_N one_scaled)%Z.
Proof. done. Qed.

Lemma round_le_double i x :
  (i * Z.of_N one_scaled ≤ scaled x → round_i64 i * Z.of_N one_scaled ≤ scaled x)%Z.
Proof.
  pose proof one_scaled_pos as Hu. intros Hle. unfold round_i64.
  pose proof (rounded_le_double (Z.abs_N i) (f64_abs x)) as H1.
  pose proof (rounded_ge_double (Z.abs_N i) (f64_abs x)) as H2.
  destruct (scaled_cases x) as [[? Hx]|[? Hx]]; rewrite Hx in *;
    destruct (Z.lt_trichotomy i 0) as [Hi|[->|Hi]];
    rewrite ?(Z.sgn_neg i), ?(Z.sgn_pos i) by done; try (simpl; lia); try nia.
Qed.

Lemma round_ge_double i x :
  (scaled x ≤ i * Z.of_N one_scaled → scaled x ≤ round_i64 i * Z.of_N one_scaled)%Z.
Proof.
  pose proof one_scaled_pos as Hu. intros Hle. unfold round_i64.
  pose proof (rounded_le_double (Z.abs_N i) (f64_abs x)) as H1.
  pose proof (rounded_ge_double (Z.abs_N i) (f64_abs x)) as H2.
  destruct (scaled_cases x) as [[? Hx]|[? Hx]]; rewrite Hx in *;
    destruct (Z.lt_trichotomy i 0) as [Hi|[->|Hi]];
    rewrite ?(Z.sgn_neg i), ?(Z.sgn_pos i) by done; try (simpl; lia); try nia.
Qed.

(** ** The monotone key *)

Lemma sign_bit x : is_f64 x → negb (N.land x sign_mask =? 0) = f64_sign x.
Proof.
  intros Hx. destruct (f64_split x Hx) as [Hsp Ha]. change sign_mask with (2 ^ 63).
  assert (N.testbit x 63 = f64_sign x) as Hbit.
  { destruct (f64_sign x).
    - apply N.testbit_true. rewrite Hsp. rewrite N.add_comm, <- (N.mul_1_l (2 ^ 63)) at 1.
      rewrite N.div_add, N.div_small by done. done.
    - apply N.testbit_false. rewrite Hsp, N.add_0_l, N.div_small by done. done. }
  rewrite <- Hbit. destruct (N.testbit x 63) eqn:E.
  - destruct (N.eqb_spec (N.land x (2 ^ 63)) 0) as [H0|]; [|done].
    apply (f_equal (λ y, N.testbit y 63)) in H0.
    by rewrite N.land_spec, E, N.pow2_bits_true, N.bits_0 in H0.
  - apply negb_false_iff, N.eqb_eq, N.bits_inj_0. intros m. rewrite N.land_spec, N.pow2_bits_eqb.
    destruct (N.eqb_spec 63 m) as [<-|]; [by rewrite E|apply andb_false_r].
Qed.

Lemma lxor_all_ones x : is_f64 x → N.lxor x u64_max = u64_max - x.
Proof.
  intros Hx. change u64_max with (N.ones 64).
  destruct (decide (x = 0)) as [->|H0]; [done|].
  apply (N.lnot_sub_low x 64), N.log2_lt_pow2; [lia|done].
Qed.

Lemma lxor_sign_mask x : x < 2 ^ 63 → N.lxor x sign_mask = x + 2 ^ 63.
Proof.
  intros Hx. change sign_mask with (2 ^ 63). symmetry. apply N.add_nocarry_lxor.
  apply N.bits_inj_0. intros m. rewrite N.land_spec, N.pow2_bits_eqb.
  destruct (N.eqb_spec 63 m) as [<-|]; [|apply andb_false_r].
  destruct (decide (x = 0)) as [->|]; [done|].
  by rewrite N.bits_above_log2; [|apply N.log2_lt_pow2; [lia|]].
Qed.

Lemma mono_nan x : is_nan x = true → mono x = u64_max.
Proof. unfold mono. by intros ->. Qed.

Lemma mono_not_nan x :
  is_f64 x → is_nan x = false →
  mono x = if f64_sign x then 2 ^ 63 - 1 - f64_abs x else 2 ^ 63 + f64_abs x.
Proof.
  intros Hx Hn. unfold mono. rewrite Hn, sign_bit by done.
  destruct (f64_split x Hx) as [Hsp Ha]. destruct (f64_sign x).
  - rewrite lxor_all_ones by done. unfold u64_max. lia.
  - rewrite Hsp at 1. rewrite N.add_0_l, lxor_sign_mask by done. lia.
Qed.

Lemma mono_bound x : is_f64 x → is_nan x = false → mono x < u64_max.
Proof.
  intros Hx Hn. rewrite mono_not_nan by done. apply N.ltb_ge in Hn.
  unfold infinity_bits, u64_max in *. destruct (f64_sign x); lia.
Qed.

(** The key order refines the numeric order: it only separates the two zeros. *)
Lemma mono_lt x y :
  is_f64 x → is_f64 y → is_nan x = false → is_nan y = false →
  (scaled x < scaled y)%Z → mono x < mono y.
Proof.
  intros Hx Hy Hnx Hny Hlt. rewrite !mono_not_nan by done.
  destruct (f64_split x Hx) as [_ Hax], (f64_split y Hy) as [_ Hay].
  unfold scaled in Hlt.
  destruct (f64_sign x), (f64_sign y); try lia.
  - assert (¬ (f64_abs x ≤ f64_abs y)) by (rewrite magnitude_le; lia). lia.
  - assert (¬ (f64_abs y ≤ f64_abs x)) by (rewrite magnitude_le; lia). lia.
Qed.

Lemma scaled_eq x y :
  is_f64 x → is_f64 y → scaled x = scaled y → x = y ∨ (scaled x = 0%Z ∧ scaled y = 0%Z).
Proof.
  intros Hx Hy Heq. destruct (decide (scaled x = 0%Z)) as [H0|H0]; [right; lia|left].
  destruct (f64_split x Hx) as [Hsx Hax], (f64_split y Hy) as [Hsy Hay].
  unfold scaled in *. destruct (f64_sign x), (f64_sign y); try lia;
    assert (f64_abs x = f64_abs y) by (apply magnitude_inj; lia); lia.
Qed.

Lemma scaled_zero x : is_f64 x → scaled x = 0%Z → x = 0 ∨ x = sign_mask.
Proof.
  intros Hx H0. destruct (f64_split x Hx) as [Hsx Hax].
  assert (f64_abs x = 0) as Ha.
  { apply magnitude_0. unfold scaled in H0. destruct (f64_sign x); lia. }
  rewrite Ha in Hsx. unfold sign_mask. destruct (f64_sign x); [right|left]; lia.
Qed.

(** [total_f64] on numbers: the exact values decide, then the sign of zero. *)
Lemma total_f64_spec x y :
  is_f64 x → is_f64 y → is_nan x = false → is_nan y = false →
  total_f64 x y = then_cmp (scaled x ?= scaled y)%Z (bool_cmp (f64_sign y) (f64_sign x)).
Proof.
  intros Hx Hy Hnx Hny. unfold total_f64.
  destruct (Z.compare_spec (scaled x) (scaled y)) as [Heq|Hlt|Hgt]; simpl.
  - destruct (scaled_eq x y Hx Hy Heq) as [->|[H0 H0']].
    + rewrite N.compare_refl. by destruct (f64_sign y).
    + by destruct (scaled_zero x Hx H0) as [->| ->], (scaled_zero y Hy H0') as [->| ->].
  - by apply N.compare_lt_iff, mono_lt.
  - by apply N.compare_gt_iff, mono_lt.
Qed.

(** ** [cmp_int_float] is the exact comparison *)

(** From the exponent of [2^52] on, a double is a whole number. *)
Lemma big_double_whole x :
  1075 ≤ f64_abs x / 2 ^ 52 → (scaled x mod Z.of_N one_scaled = 0)%Z.
Proof.
  intros He. destruct (pattern_split (f64_abs x)) as (e & f & Hm & Hf).
  assert (f64_abs x / 2 ^ 52 = e) as Hd.
  { rewrite Hm, N.add_comm, N.div_add, N.div_small by done. lia. }
  assert ((Z.of_N one_scaled | Z.of_N (magnitude (f64_abs x)))%Z) as Hdiv.
  { rewrite Hm, magnitude_normal by lia.
    rewrite (pow2_split 1074 (e - 1)) by lia. fold one_scaled.
    exists (Z.of_N ((2 ^ 52 + f) * 2 ^ (e - 1 - 1074))). lia. }
  apply Z.mod_divide; [done|]. unfold scaled.
  destruct (f64_sign x); [by apply Z.divide_opp_r|done].
Qed.

(** Below it, the value is less than [2^52] in magnitude. *)
Lemma small_double_bound x :
  f64_abs x / 2 ^ 52 < 1075 → (Z.abs (scaled x) < 2 ^ 52 * Z.of_N one_scaled)%Z.
Proof.
  intros He. assert (f64_abs x < 1075 * 2 ^ 52) as Hlt%magnitude_lt.
  { pose proof (N.div_mod (f64_abs x) (2 ^ 52) ltac:(done)).
    pose proof (N.mod_lt (f64_abs x) (2 ^ 52) ltac:(done)). lia. }
  change (magnitude (1075 * 2 ^ 52)) with (2 ^ 52 * one_scaled) in Hlt.
  unfold scaled. destruct (f64_sign x); lia.
Qed.

Lemma floor_spec x :
  is_f64 x → is_nan x = false →
  scaled (f64_floor x) = (scaled x / Z.of_N one_scaled * Z.of_N one_scaled)%Z ∧
  is_nan (f64_floor x) = false.
Proof.
  intros Hx Hn. unfold f64_floor.
  destruct (N.leb_spec 1075 (f64_abs x / 2 ^ 52)) as [Hbig|Hsmall].
  { split; [|done]. pose proof (big_double_whole x Hbig).
    pose proof (Z.div_mod (scaled x) (Z.of_N one_scaled) ltac:(done)). lia. }
  pose proof (small_double_bound x Hsmall) as Hb. pose proof one_scaled_pos as Hu.
  assert (- 2 ^ 52 ≤ scaled x / Z.of_N one_scaled ≤ 2 ^ 52)%Z as Hz.
  { generalize dependent (Z.of_N one_scaled). intros u Hb Hu.
    split; [apply Z.div_le_lower_bound; lia|apply Z.div_le_upper_bound; lia]. }
  destruct (Z.eqb_spec (scaled x / Z.of_N one_scaled) 0) as [->|Hne].
  { by destruct (f64_sign x). }
  assert (is_i64 (scaled x / Z.of_N one_scaled)) as Hi
    by (unfold is_i64; lia).
  rewrite scaled_as_f64, round_i64_exact, as_f64_not_nan by (done || lia). done.
Qed.

Lemma floor_as_int x :
  is_f64 x → is_nan x = false →
  (- 2 ^ 63 * Z.of_N one_scaled ≤ scaled x < 2 ^ 63 * Z.of_N one_scaled)%Z →
  f64_as_i64 (f64_floor x) = (scaled x / Z.of_N one_scaled)%Z.
Proof.
  intros Hx Hn [Hlo Hhi]. destruct (floor_spec x Hx Hn) as [Hf Hfn].
  unfold f64_as_i64. rewrite Hfn, Hf. pose proof one_scaled_pos as Hu.
  rewrite Z.quot_mul by done.
  assert (- 2 ^ 63 ≤ scaled x / Z.of_N one_scaled)%Z by (apply Z.div_le_lower_bound; lia).
  assert (scaled x / Z.of_N one_scaled < 2 ^ 63)%Z by (apply Z.div_lt_upper_bound; lia).
  unfold i64_min, i64_max. lia.
Qed.

Lemma floor_lt x :
  is_f64 x → is_nan x = false →
  f64_ltb (f64_floor x) x = (0 <? scaled x mod Z.of_N one_scaled)%Z.
Proof.
  intros Hx Hn. destruct (floor_spec x Hx Hn) as [Hf Hfn].
  unfold f64_ltb, f64_partial_cmp. rewrite Hn, Hfn, Hf. cbn [orb].
  pose proof (Z.div_mod (scaled x) (Z.of_N one_scaled) ltac:(done)) as Hdm.
  pose proof (Z.mod_pos_bound (scaled x) _ one_scaled_pos) as Hm.
  rewrite Z.mul_comm. generalize dependent (Z.of_N one_scaled * (scaled x / Z.of_N one_scaled))%Z.
  intros q Hdm. destruct (Z.compare_spec q (scaled x)),
    (Z.ltb_spec 0 (scaled x mod Z.of_N one_scaled)); done || lia.
Qed.

Lemma cmp_int_whole_part (i v u : Z) :
  (0 < u → then_cmp (i ?= v / u) (if 0 <? v mod u then Lt else Eq) = (i * u ?= v))%Z.
Proof.
  intros Hu. pose proof (Z.div_mod v u ltac:(lia)) as Hdm.
  pose proof (Z.mod_pos_bound v u Hu) as Hm.
  generalize dependent (v / u)%Z. generalize dependent (v mod u)%Z. intros r Hr q ->.
  destruct (Z.compare_spec i q) as [->|Hlt|Hgt]; simpl; symmetry.
  - destruct (Z.ltb_spec 0 r); [apply Z.compare_lt_iff|apply Z.compare_eq_iff]; lia.
  - assert ((i + 1) * u ≤ q * u)%Z by (apply Z.mul_le_mono_nonneg_r; lia).
    apply Z.compare_lt_iff. lia.
  - assert ((q + 1) * u ≤ i * u)%Z by (apply Z.mul_le_mono_nonneg_r; lia).
    apply Z.compare_gt_iff. lia.
Qed.

(** [cmp_int_float] compares an integer and a float as if both were unlimited-precision
    numbers: it has no answer exactly for a NaN, and otherwise returns the comparison of the
    two exact values, at every magnitude, for the infinities and for both zeros. *)
Lemma cmp_int_float_spec i f :
  is_i64 i → is_f64 f →
  cmp_int_float i f =
    if is_nan f then None else Some (i * Z.of_N one_scaled ?= scaled f)%Z.
Proof.
  intros Hi Hf. unfold cmp_int_float. destruct (is_nan f) eqn:Hn; [done|].
  pose proof one_scaled_pos as Hu.
  destruct (Z.leb_spec (- MAX_EXACT_INT_IN_F64) i), (Z.leb_spec i MAX_EXACT_INT_IN_F64); cbn [andb].
  1: { unfold f64_partial_cmp. rewrite as_f64_not_nan, Hn, scaled_as_f64 by done. cbn [orb].
       by rewrite round_i64_exact. }
  all: unfold f64_geb, f64_ltb, f64_partial_cmp; rewrite Hn;
    change (is_nan TWO_POW_63) with false; change (is_nan (f64_neg TWO_POW_63)) with false;
    change (scaled TWO_POW_63) with (2 ^ 63 * Z.of_N one_scaled)%Z;
    change (scaled (f64_neg TWO_POW_63)) with (- 2 ^ 63 * Z.of_N one_scaled)%Z; cbn [orb].
  all: destruct Hi as [Hlo Hhi].
  all: destruct (Z.compare_spec (scaled f) (2 ^ 63 * Z.of_N one_scaled)) as [He|Hlt|Hgt];
    [f_equal; symmetry; apply Z.compare_lt_iff; nia| |f_equal; symmetry; apply Z.compare_lt_iff; nia].
  all: destruct (Z.compare_spec (scaled f) (- 2 ^ 63 * Z.of_N one_scaled)) as [He'|Hlt'|Hgt'];
    [|f_equal; symmetry; apply Z.compare_gt_iff; nia|].
  all: rewrite floor_as_int by (done || lia).
  all: pose proof (floor_lt f Hf Hn) as Hfl; unfold f64_ltb, f64_partial_cmp in Hfl;
    rewrite Hn in Hfl; rewrite Hfl, cmp_int_whole_part by done; done.
Qed.

(** ** The key order of rounded integers *)

Lemma mono_inj x y :
  is_f64 x → is_f64 y → is_nan x = false → is_nan y = false → mono x = mono y → x = y.
Proof.
  intros Hx Hy Hnx Hny. rewrite !mono_not_nan by done.
  destruct (f64_split x Hx) as [Hsx Hax], (f64_split y Hy) as [Hsy Hay].
  destruct (f64_sign x), (f64_sign y); lia.
Qed.

Lemma round_i64_zero i : round_i64 i = 0%Z → i = 0%Z.
Proof.
  unfold round_i64. destruct (decide (i = 0%Z)) as [->|Hi]; [done|].
  pose proof (rounded_binade (Z.abs_N i) ltac:(lia)) as [Hr _].
  pose proof (pow2_pos (N.log2 (Z.abs_N i))). destruct i; simpl in *; lia.
Qed.

Lemma mono_as_f64_le i j : is_i64 i → is_i64 j → (i ≤ j)%Z → mono (i64_as_f64 i) ≤ mono (i64_as_f64 j).
Proof.
  intros Hi Hj Hle. destruct (as_f64_parts i Hi) as (_ & _ & Hfi & _).
  destruct (as_f64_parts j Hj) as (_ & _ & Hfj & _).
  pose proof (scaled_as_f64 i Hi) as Hsi. pose proof (scaled_as_f64 j Hj) as Hsj.
  pose proof (round_i64_mono i j Hle) as Hm. pose proof one_scaled_pos as Hu.
  destruct (decide (round_i64 i = round_i64 j)) as [Heq|Hne].
  - destruct (scaled_eq (i64_as_f64 i) (i64_as_f64 j)) as [->|[H0 _]]; [done..|congruence|done|].
    rewrite Hsi in H0. assert (round_i64 i = 0%Z) as Hz by nia.
    rewrite (round_i64_zero i Hz), (round_i64_zero j) by congruence. done.
  - apply N.lt_le_incl, mono_lt; try apply as_f64_not_nan; try done. rewrite Hsi, Hsj. nia.
Qed.
