(* ===== verification/Compare.v ===== *)
(** Comparison functions and the orders they give.

    [Ordering] is [comparison]. [CmpOrder P c] says that the comparison function [c] is a
    total preorder on the values of [P]: it flips with its arguments, values that compare
    equal are interchangeable, and less-than is transitive. The instances build the orders
    of the value relations from those of integers: the order of a key, a first component
    refined by a second ([Ordering::then]), and the lexicographic order of sequences. *)
From S2P Require Import Prelude Float64.
From stdpp Require Import options.

Open Scope N_scope.

(** The comparison loop over two zipped sequences, the lengths deciding a tie. *)
Section Lex.
Context {A : Type} (c : A → A → comparison).

Fixpoint lex (x y : list A) : comparison :=
  match x, y with
  | a :: x', b :: y' => match c a b with Eq => lex x' y' | o => o end
  | _, _ => (length x ?= length y)%nat
  end.
End Lex.

(** [[u8]::cmp]. *)
Definition bytes_cmp : list N → list N → comparison := lex N.compare.

Class CmpOrder {A} (P : A → Prop) (c : A → A → comparison) : Prop := {
  cmp_flip x y : P x → P y → c y x = CompOpp (c x y);
  cmp_eq_l x y z : P x → P y → P z → c x y = Eq → c x z = c y z;
  cmp_lt_trans x y z : P x → P y → P z → c x y = Lt → c y z = Lt → c x z = Lt;
}.

Section Derived.
Context {A : Type} (P : A → Prop) (c : A → A → comparison) `{!CmpOrder P c}.
#[local] Set Default Proof Using "All".

Lemma cmp_refl x : P x → c x x = Eq.
Proof. intros Hx. pose proof (cmp_flip (c := c) x x Hx Hx). by destruct (c x x). Qed.

Lemma cmp_eq_sym x y : P x → P y → c x y = Eq → c y x = Eq.
Proof. intros Hx Hy H. by rewrite (cmp_flip (c := c) x y), H. Qed.

Lemma cmp_eq_r x y z : P x → P y → P z → c x y = Eq → c z x = c z y.
Proof.
  intros Hx Hy Hz H. rewrite (cmp_flip (c := c) x z), (cmp_flip (c := c) y z) by done.
  by rewrite (cmp_eq_l (c := c) x y z).
Qed.

Lemma cmp_gt_lt x y : P x → P y → c x y = Gt ↔ c y x = Lt.
Proof. intros Hx Hy. rewrite (cmp_flip (c := c) x y) by done. by destruct (c x y). Qed.

Lemma cmp_le_trans x y z :
  P x → P y → P z → c x y ≠ Gt → c y z ≠ Gt → c x z ≠ Gt.
Proof.
  intros Hx Hy Hz H1 H2. destruct (c x y) eqn:E1; [| |done].
  - by rewrite (cmp_eq_l (c := c) x y z).
  - destruct (c y z) eqn:E2; [| |done].
    + rewrite <- (cmp_eq_r y z x) by done. by rewrite E1.
    + by rewrite (cmp_lt_trans (c := c) x y z).
Qed.
End Derived.

Lemma cmp_on_key {A B} (P : A → Prop) (Q : B → Prop) (f : A → B) c c' :
  CmpOrder Q c → (∀ x, P x → Q (f x)) → (∀ x y, P x → P y → c' x y = c (f x) (f y)) →
  CmpOrder P c'.
Proof.
  intros Hc HQ Hf. split.
  - intros x y Hx Hy. rewrite !Hf by done. apply cmp_flip; auto.
  - intros x y z Hx Hy Hz. rewrite !Hf by done. apply cmp_eq_l; auto.
  - intros x y z Hx Hy Hz. rewrite !Hf by done. apply cmp_lt_trans; auto.
Qed.

Lemma cmp_weaken {A} (P Q : A → Prop) c :
  CmpOrder Q c → (∀ x, P x → Q x) → CmpOrder P c.
Proof. intros Hc HPQ. by apply (cmp_on_key P Q id c c). Qed.

#[export] Instance N_cmp_order P : CmpOrder P N.compare.
Proof.
  split.
  - intros x y _ _. apply N.compare_antisym.
  - intros x y z _ _ _ ->%N.compare_eq_iff. done.
  - intros x y z _ _ _. rewrite !N.compare_lt_iff. lia.
Qed.

#[export] Instance Z_cmp_order P : CmpOrder P Z.compare.
Proof.
  split.
  - intros x y _ _. apply Z.compare_antisym.
  - intros x y z _ _ _ ->%Z.compare_eq_iff. done.
  - intros x y z _ _ _. rewrite !Z.compare_lt_iff. lia.
Qed.

#[export] Instance bool_cmp_order P : CmpOrder P bool_cmp.
Proof. split; by intros [] []; intros; try destruct z. Qed.

Lemma then_cmp_opp a b : then_cmp (CompOpp a) (CompOpp b) = CompOpp (then_cmp a b).
Proof. by destruct a. Qed.

Lemma then_cmp_assoc a b c : then_cmp (then_cmp a b) c = then_cmp a (then_cmp b c).
Proof. by destruct a. Qed.

Lemma then_cmp_order {A} (P : A → Prop) c1 c2 :
  CmpOrder P c1 → CmpOrder P c2 → CmpOrder P (λ x y, then_cmp (c1 x y) (c2 x y)).
Proof.
  intros H1 H2. split.
  - intros x y Hx Hy. rewrite (cmp_flip (c := c1) x y), (cmp_flip (c := c2) x y) by done.
    apply then_cmp_opp.
  - intros x y z Hx Hy Hz. destruct (c1 x y) eqn:E1; [|done..]. intros E2.
    by rewrite (cmp_eq_l (c := c1) x y z), (cmp_eq_l (c := c2) x y z).
  - intros x y z Hx Hy Hz. destruct (c1 x y) eqn:E1; simpl; [| |done].
    + intros E2. rewrite (cmp_eq_l (c := c1) x y z) by done.
      destruct (c1 y z); [|done..]. intros E3. by rewrite (cmp_lt_trans (c := c2) x y z).
    + intros _. destruct (c1 y z) eqn:E3; simpl; [|by rewrite (cmp_lt_trans (c := c1) x y z)|done].
      intros _. rewrite <- (cmp_eq_r P c1 y z x) by done. by rewrite E1.
Qed.

(** ** Sequences *)

Section LexOrder.
Context {A : Type} (P : A → Prop) (c : A → A → comparison) `{!CmpOrder P c}.
#[local] Set Default Proof Using "All".

Lemma lex_flip x y : Forall P x → Forall P y → lex c y x = CompOpp (lex c x y).
Proof.
  intros Hx. revert y. induction Hx as [|a x Ha Hx IH]; intros y Hy; destruct Hy as [|b y Hb Hy]; try done.
  simpl. rewrite (cmp_flip (c := c) a b) by done. destruct (c a b); [|done..]. by apply IH.
Qed.

Lemma lex_eq_l x y z :
  Forall P x → Forall P y → Forall P z → lex c x y = Eq → lex c x z = lex c y z.
Proof.
  intros Hx. revert y z. induction Hx as [|a x Ha Hx IH]; intros y z Hy Hz;
    destruct Hy as [|b y Hb Hy]; try done.
  simpl. destruct (c a b) eqn:E; [|done..]. intros Hl.
  destruct Hz as [|d z Hd Hz]; [done|]. rewrite (cmp_eq_l (c := c) a b d) by done.
  destruct (c b d); [|done..]. by apply IH.
Qed.

Lemma lex_lt_trans x y z :
  Forall P x → Forall P y → Forall P z → lex c x y = Lt → lex c y z = Lt → lex c x z = Lt.
Proof.
  intros Hx. revert y z. induction Hx as [|a x Ha Hx IH]; intros y z Hy Hz;
    destruct Hy as [|b y Hb Hy], Hz as [|d z Hd Hz]; try done.
  simpl. destruct (c a b) eqn:E1; [| |done]; intros H1.
  - rewrite (cmp_eq_l (c := c) a b d) by done. destruct (c b d); [|done..]. by apply IH.
  - destruct (c b d) eqn:E2; intros H2; [| |done].
    + rewrite <- (cmp_eq_r P c b d a) by done. by rewrite E1.
    + by rewrite (cmp_lt_trans (c := c) a b d).
Qed.

#[export] Instance lex_order : CmpOrder (Forall P) (lex c).
Proof. split; [apply lex_flip|apply lex_eq_l|apply lex_lt_trans]. Qed.
End LexOrder.

#[export] Instance bytes_cmp_order P : CmpOrder P bytes_cmp.
Proof.
  apply (cmp_weaken P (Forall (λ _, True))); [exact _|]. intros x _. by apply Forall_true.
Qed.

Lemma lex_eq {A} (c : A → A → comparison) x y :
  (∀ a b, c a b = Eq → a = b) → lex c x y = Eq → x = y.
Proof.
  intros Hc. revert y. induction x as [|a x IH]; intros [|b y]; try done. simpl.
  destruct (c a b) eqn:E; [|done..]. intros ?%IH. by rewrite (Hc a b E); subst.
Qed.

Lemma bytes_cmp_eq x y : bytes_cmp x y = Eq ↔ x = y.
Proof.
  split; [apply lex_eq; intros a b; apply N.compare_eq_iff|].
  intros ->. by apply (cmp_refl (λ _, True) bytes_cmp).
Qed.

(** Values are first ranked by class, then compared within their class. *)
Lemma cmp_by_class {A} (P : A → Prop) (f : A → N) c c' :
  (∀ r, CmpOrder (λ x, P x ∧ f x = r) c') →
  (∀ x y, P x → P y → c x y = if f x =? f y then c' x y else f x ?= f y) →
  CmpOrder P c.
Proof.
  intros Hc' Hc. split.
  - intros x y Hx Hy. rewrite !Hc, (N.eqb_sym (f y)) by done.
    destruct (N.eqb_spec (f x) (f y)); [|apply N.compare_antisym].
    by apply (cmp_flip (CmpOrder := Hc' (f x))).
  - intros x y z Hx Hy Hz. rewrite !Hc by done.
    destruct (N.eqb_spec (f x) (f y)) as [Hxy|Hxy]; [|by intros ?%N.compare_eq_iff].
    rewrite <- Hxy. intros He. destruct (N.eqb_spec (f x) (f z)); [|done].
    by apply (cmp_eq_l (CmpOrder := Hc' (f x))).
  - intros x y z Hx Hy Hz. rewrite !Hc by done.
    destruct (N.eqb_spec (f x) (f y)) as [Hxy|Hxy], (N.eqb_spec (f y) (f z)) as [Hyz|Hyz];
      destruct (N.eqb_spec (f x) (f z)) as [Hxz|Hxz]; try congruence.
    + by apply (cmp_lt_trans (CmpOrder := Hc' (f x))).
    + rewrite !N.compare_lt_iff. lia.
    + rewrite !N.compare_lt_iff. lia.
Qed.

(** The trivial order, and the order of a key. *)
Lemma cmp_trivial {A} (P : A → Prop) c : (∀ x y, P x → P y → c x y = Eq) → CmpOrder P c.
Proof.
  intros H. split; intros x y.
  - intros. by rewrite !H.
  - intros z ???. by rewrite !H.
  - intros z ???. by rewrite !H.
Qed.

Lemma N_key_order {A} (P : A → Prop) (f : A → N) : CmpOrder P (λ x y, f x ?= f y).
Proof. by apply (cmp_on_key P (λ _, True) f _ _ (N_cmp_order _)). Qed.

Lemma Z_key_order {A} (P : A → Prop) (f : A → Z) : CmpOrder P (λ x y, f x ?= f y)%Z.
Proof. by apply (cmp_on_key P (λ _, True) f _ _ (Z_cmp_order _)). Qed.

Lemma bytes_key_order {A} (P : A → Prop) (f : A → list N) : CmpOrder P (λ x y, bytes_cmp (f x) (f y)).
Proof. by apply (cmp_on_key P (λ _, True) f _ _ (bytes_cmp_order _)). Qed.

Lemma cmp_ext {A} (P : A → Prop) c c' :
  CmpOrder P c → (∀ x y, P x → P y → c' x y = c x y) → CmpOrder P c'.
Proof. intros Hc H. by apply (cmp_on_key P P id c). Qed.
