(* ===== verification/CypherValue.v ===== *)
(** Cypher values (graphus-core lib.rs [value], value/spatial.rs) and the bound on their
    nesting (graphus-cypher value_depth.rs).

    [Value] has the source's variants; a string is its UTF-8 bytes, an [i64] a [Z], an [f64]
    its bit pattern, a map the list of its entries in insertion order, in which nothing keeps
    a key from occurring twice. [typed] is what the Rust types guarantee of the components.
    The theorem is that the iterative depth check, an explicit work stack that stops at the
    first node beyond the limit, terminates and decides the recursive depth. *)
From S2P Require Import Prelude Float64 Compare.
From stdpp Require Import options.

Open Scope N_scope.

(** ** lib.rs [value::temporal] *)

Definition NANOS_PER_DAY : N := 86_400_000_000_000.

Record Date := { days_since_epoch : Z }.
Record LocalTime := { nanos_of_day : N }.
Record ZonedTime := { zt_time : LocalTime; zt_offset_seconds : Z }.
Record LocalDateTime := { epoch_seconds : Z; ldt_nanos : N }.
Record ZonedDateTime := { local : LocalDateTime; zdt_offset_seconds : Z; zone_id : list N }.
Record Duration := { months : Z; days : Z; seconds : Z; dur_nanos : Z }.

#[export] Instance Date_eq_dec : EqDecision Date.
Proof. solve_decision. Defined.
#[export] Instance LocalTime_eq_dec : EqDecision LocalTime.
Proof. solve_decision. Defined.
#[export] Instance ZonedTime_eq_dec : EqDecision ZonedTime.
Proof. solve_decision. Defined.
#[export] Instance LocalDateTime_eq_dec : EqDecision LocalDateTime.
Proof. solve_decision. Defined.
#[export] Instance ZonedDateTime_eq_dec : EqDecision ZonedDateTime.
Proof. solve_decision. Defined.
#[export] Instance Duration_eq_dec : EqDecision Duration.
Proof. solve_decision. Defined.

(** ** value/spatial.rs *)

Inductive Crs := Cartesian | Cartesian3D | Wgs84 | Wgs84_3D.

#[export] Instance Crs_eq_dec : EqDecision Crs.
Proof. solve_decision. Defined.

Definition srid (c : Crs) : Z :=
  match c with Cartesian => 7203 | Cartesian3D => 9157 | Wgs84 => 4326 | Wgs84_3D => 4979 end.

Definition from_srid (n : Z) : option Crs :=
  if (n =? 7203)%Z then Some Cartesian
  else if (n =? 9157)%Z then Some Cartesian3D
  else if (n =? 4326)%Z then Some Wgs84
  else if (n =? 4979)%Z then Some Wgs84_3D
  else None.

Definition dimensions (c : Crs) : nat :=
  match c with Cartesian | Wgs84 => 2 | Cartesian3D | Wgs84_3D => 3 end.

Definition as_byte (c : Crs) : N :=
  match c with Cartesian => 0 | Cartesian3D => 1 | Wgs84 => 2 | Wgs84_3D => 3 end.

Definition from_byte (b : N) : option Crs :=
  if b =? 0 then Some Cartesian
  else if b =? 1 then Some Cartesian3D
  else if b =? 2 then Some Wgs84
  else if b =? 3 then Some Wgs84_3D
  else None.

(** The coordinates are [[f64; 3]]; the third slot of a 2D point is [0.0]. *)
Record Point := { crs : Crs; coord0 : f64; coord1 : f64; coord2 : f64 }.

Definition new_2d (c : Crs) (x y : f64) : Outcome Point :=
  if decide (dimensions c = 2%nat)
  then Ok {| crs := c; coord0 := x; coord1 := y; coord2 := 0 |} else Panic "new_2d requires a 2D CRS".

Definition new_3d (c : Crs) (x y z : f64) : Outcome Point :=
  if decide (dimensions c = 3%nat)
  then Ok {| crs := c; coord0 := x; coord1 := y; coord2 := z |} else Panic "new_3d requires a 3D CRS".

Definition from_crs_coords (c : Crs) (cs : list f64) : option Point :=
  if decide (length cs = dimensions c)
  then Some {| crs := c; coord0 := nth 0 cs 0; coord1 := nth 1 cs 0; coord2 := nth 2 cs 0 |}
  else None.

Definition coords (p : Point) : list f64 :=
  take (dimensions (crs p)) [coord0 p; coord1 p; coord2 p].

(** The slice comparison [==] of two [[f64]]s. *)
Fixpoint f64s_eqb (x y : list f64) : bool :=
  match x, y with
  | [], [] => true
  | a :: x', b :: y' => f64_eqb a b && f64s_eqb x' y'
  | _, _ => false
  end.

Definition value_eq (p q : Point) : bool :=
  bool_decide (crs p = crs q) && f64s_eqb (coords p) (coords q).

Definition lexicographic_total : list f64 → list f64 → comparison := lex total_f64.

Definition point_total_cmp (p q : Point) : comparison :=
  then_cmp (srid (crs p) ?= srid (crs q))%Z (lexicographic_total (coords p) (coords q)).

(** ** lib.rs [value::Value] *)

#[local] Unset Elimination Schemes.
Inductive Value :=
  | VNull
  | VBoolean (b : bool)
  | VInteger (i : Z)
  | VFloat (f : f64)
  | VString (s : list N)
  | VBytes (b : list N)
  | VList (items : list Value)
  | VMap (entries : list (list N * Value))
  | VDate (d : Date)
  | VLocalTime (t : LocalTime)
  | VZonedTime (t : ZonedTime)
  | VLocalDateTime (dt : LocalDateTime)
  | VZonedDateTime (dt : ZonedDateTime)
  | VDuration (d : Duration)
  | VPoint (p : Point).
#[local] Set Elimination Schemes.

Definition value_is_null (v : Value) : bool := match v with VNull => true | _ => false end.

(** Induction with the hypotheses for the elements of lists and the values of maps. *)
Section ValueInd.
Variable Q : Value → Prop.
Hypothesis Hscalar : ∀ v, (∀ l, v ≠ VList l) → (∀ m, v ≠ VMap m) → Q v.
Hypothesis Hlist : ∀ l, Forall Q l → Q (VList l).
Hypothesis Hmap : ∀ m, Forall (λ e, Q e.2) m → Q (VMap m).

Fixpoint value_nested_ind (v : Value) : Q v :=
  match v with
  | VList l =>
      Hlist l ((fix go l := match l return Forall Q l with
                | [] => Forall_nil_2 _
                | x :: l' => Forall_cons_2 _ _ _ (value_nested_ind x) (go l') end) l)
  | VMap m =>
      Hmap m ((fix go m := match m return Forall (λ e, Q e.2) m with
               | [] => Forall_nil_2 _
               | x :: m' => Forall_cons_2 _ _ _ (value_nested_ind x.2) (go m') end) m)
  | v => Hscalar v ltac:(by intros) ltac:(by intros)
  end.
End ValueInd.

(** ** What the Rust types guarantee *)

Definition is_u64 (n : N) : Prop := n < 2 ^ 64.
Definition is_u32 (n : N) : Prop := n < 2 ^ 32.
Definition is_i32 (i : Z) : Prop := (- 2 ^ 31 ≤ i < 2 ^ 31)%Z.
Definition is_byte_seq (s : list N) : Prop := Forall (λ b, b < 256) s.

Definition point_typed (p : Point) : Prop :=
  is_f64 (coord0 p) ∧ is_f64 (coord1 p) ∧ is_f64 (coord2 p).

Definition local_date_time_typed (dt : LocalDateTime) : Prop :=
  is_i64 (epoch_seconds dt) ∧ is_u32 (ldt_nanos dt).

Fixpoint typed (v : Value) : Prop :=
  match v with
  | VNull | VBoolean _ => True
  | VInteger i => is_i64 i
  | VFloat f => is_f64 f
  | VString s | VBytes s => is_byte_seq s
  | VList l => (fix go l := match l with [] => True | x :: l' => typed x ∧ go l' end) l
  | VMap m => (fix go m := match m with [] => True | x :: m' => (is_byte_seq x.1 ∧ typed x.2) ∧ go m' end) m
  | VDate d => is_i64 (days_since_epoch d)
  | VLocalTime t => is_u64 (nanos_of_day t)
  | VZonedTime t => is_u64 (nanos_of_day (zt_time t)) ∧ is_i32 (zt_offset_seconds t)
  | VLocalDateTime dt => local_date_time_typed dt
  | VZonedDateTime z =>
      local_date_time_typed (local z) ∧ is_i32 (zdt_offset_seconds z) ∧ is_byte_seq (zone_id z)
  | VDuration d =>
      is_i64 (months d) ∧ is_i64 (days d) ∧ is_i64 (seconds d) ∧ is_i32 (dur_nanos d)
  | VPoint p => point_typed p
  end.

Lemma typed_list l : typed (VList l) ↔ Forall typed l.
Proof.
  induction l as [|x l IH]; [by simpl; rewrite Forall_nil|].
  rewrite Forall_cons, <- IH. done.
Qed.

Lemma typed_map m : typed (VMap m) ↔ Forall (λ e, is_byte_seq e.1 ∧ typed e.2) m.
Proof.
  induction m as [|x m IH]; [by simpl; rewrite Forall_nil|].
  rewrite Forall_cons, <- IH. done.
Qed.

Lemma coords_typed p : point_typed p → Forall is_f64 (coords p).
Proof.
  intros (H0 & H1 & H2). unfold coords. by destruct (dimensions (crs p)) as [|[|[|[|]]]]; repeat constructor.
Qed.

Lemma coords_length p : length (coords p) = dimensions (crs p).
Proof. unfold coords. by destruct (crs p). Qed.

(** ** value_depth.rs *)

Definition MAX_VALUE_DEPTH : nat := 1000.

(** The work loop: the top of the stack is the head of [work], so the children pushed in
    order are popped last first. [None] is a loop cut off by its fuel. *)
Fixpoint depth_loop (fuel : nat) (limit : nat) (work : list (Value * nat)) : option bool :=
  match fuel with
  | O => None
  | S fuel =>
      match work with
      | [] => Some false
      | (v, d) :: work =>
          if (limit <? d)%nat then Some true
          else match v with
               | VList items => depth_loop fuel limit (reverse ((λ item, (item, S d)) <$> items) ++ work)
               | VMap entries => depth_loop fuel limit (reverse ((λ e, (e.2, S d)) <$> entries) ++ work)
               | _ => depth_loop fuel limit work
               end
      end
  end.

(** The number of nodes of a value. *)
Fixpoint nodes (v : Value) : nat :=
  match v with
  | VList l => S (sum_list_with nodes l)
  | VMap m => S (sum_list_with (λ e, nodes e.2) m)
  | _ => 1
  end.

Definition depth_exceeds (value : Value) (limit : nat) : option bool :=
  depth_loop (S (nodes value)) limit [(value, O)].

(** The nesting depth, by recursion on the value: a scalar has depth 0, [[1]] depth 1. *)
Fixpoint nesting (v : Value) : nat :=
  match v with
  | VList l => foldr (λ x n, Nat.max (S (nesting x)) n) O l
  | VMap m => foldr (λ e n, Nat.max (S (nesting e.2)) n) O m
  | _ => O
  end.

(** ** The iterative check decides the recursive depth *)

(** What the loop has left to visit: the nodes on the stack. *)
Definition pending (work : list (Value * nat)) : nat := sum_list_with (λ e, nodes e.1) work.

(** Some stacked value reaches beyond the limit. *)
Definition beyond (limit : nat) (work : list (Value * nat)) : bool :=
  existsb (λ e, (limit <? e.2 + nesting e.1)%nat) work.

Lemma nodes_pos v : (1 ≤ nodes v)%nat.
Proof. destruct v; simpl; lia. Qed.

Lemma pending_app x y : pending (x ++ y) = (pending x + pending y)%nat.
Proof. induction x as [|e x IH]; simpl; [done|]. unfold pending in *. simpl. lia. Qed.

Lemma pending_reverse x : pending (reverse x) = pending x.
Proof.
  induction x as [|e x IH]; [done|].
  rewrite reverse_cons, pending_app, IH. unfold pending. simpl. lia.
Qed.

Lemma existsb_reverse {A} (p : A → bool) x : existsb p (reverse x) = existsb p x.
Proof.
  induction x as [|e x IH]; [done|]. rewrite reverse_cons, existsb_app, IH. simpl.
  by rewrite orb_false_r, orb_comm.
Qed.

(** The children of a node are pushed one level down. *)
Lemma beyond_children {A} (f : A → Value) limit d (l : list A) :
  (d ≤ limit)%nat →
  beyond limit ((λ x, (f x, S d)) <$> l) =
  (limit <? d + foldr (λ x n, Nat.max (S (nesting (f x))) n) O l)%nat.
Proof.
  intros Hd. induction l as [|x l IH]; [simpl; symmetry; apply Nat.ltb_ge; lia|].
  change (beyond limit ((λ x, (f x, S d)) <$> x :: l)) with
    ((limit <? S d + nesting (f x))%nat || beyond limit ((λ x, (f x, S d)) <$> l)).
  rewrite IH. cbn [foldr]. generalize (foldr (λ x n, Nat.max (S (nesting (f x))) n) O l). intros n.
  destruct (Nat.ltb_spec limit (S d + nesting (f x)));
    destruct (Nat.ltb_spec limit (d + n)); simpl; symmetry;
    (apply Nat.ltb_lt; lia) || (apply Nat.ltb_ge; lia).
Qed.

Lemma pending_children {A} (f : A → Value) d (l : list A) :
  pending ((λ x, (f x, S d)) <$> l) = sum_list_with (λ x, nodes (f x)) l.
Proof.
  unfold pending. induction l as [|x l IH]; [done|].
  cbn [fmap list_fmap sum_list_with fst]. by rewrite <- IH.
Qed.

Lemma depth_loop_spec fuel limit work :
  (pending work < fuel)%nat → depth_loop fuel limit work = Some (beyond limit work).
Proof.
  revert work. induction fuel as [|fuel IH]; intros work Hf; [lia|].
  destruct work as [|[v d] work]; [done|].
  assert (pending ((v, d) :: work) = nodes v + pending work)%nat as Hp by done.
  assert (beyond limit ((v, d) :: work) = (limit <? d + nesting v)%nat || beyond limit work) as ->
    by done.
  cbn [depth_loop]. destruct (Nat.ltb_spec limit d) as [Hd|Hd].
  { destruct (Nat.ltb_spec limit (d + nesting v)); [done|lia]. }
  pose proof (nodes_pos v) as Hn.
  assert ((∀ l, v ≠ VList l) → (∀ m, v ≠ VMap m) →
          depth_loop fuel limit work = Some ((limit <? d + 0)%nat || beyond limit work)) as Hleaf.
  { intros _ _. rewrite IH by lia. by destruct (Nat.ltb_spec limit (d + 0)); [lia|]. }
  destruct v as [| | | | | |items|entries| | | | | | |]; try (apply Hleaf; by intros);
    cbn [nodes nesting] in *; rewrite IH;
    try (rewrite pending_app, pending_reverse, pending_children; cbv beta;
         try change (λ x : Value, nodes x) with nodes; lia);
    unfold beyond; rewrite existsb_app, existsb_reverse; do 2 f_equal;
    by apply (beyond_children _ limit d).
Qed.

(** The depth check of bound parameters and materialised values terminates, visiting each
    node at most once, and answers exactly whether the value nests deeper than the limit. *)
Theorem depth_exceeds_decides v limit :
  depth_exceeds v limit = Some (limit <? nesting v)%nat.
Proof.
  unfold depth_exceeds. rewrite depth_loop_spec by (unfold pending; simpl; lia).
  unfold beyond. simpl. by rewrite orb_false_r.
Qed.
