(* ===== verification/CypherEquality.v ===== *)
(** Three-valued logic, equality and list membership of Cypher (graphus-cypher ternary.rs,
    equality.rs).

    [equals] is total on every pair of values: the recursion carries the levels left before
    [MAX_VALUE_DEPTH], so the depth of the source is [MAX_VALUE_DEPTH - levels], and stops with
    an unknown result where the source does. *)
From S2P Require Import Prelude Float64 Compare CypherValue.
From stdpp Require Import options.

Open Scope N_scope.

(** ** ternary.rs *)

Inductive Ternary := True3 | False3 | Null3.

#[export] Instance Ternary_eq_dec : EqDecision Ternary.
Proof. solve_decision. Defined.

Definition from_bool (b : bool) : Ternary := if b then True3 else False3.

Definition is_true (t : Ternary) : bool := match t with True3 => true | _ => false end.

Definition ternary_and (a b : Ternary) : Ternary :=
  match a, b with
  | False3, _ | _, False3 => False3
  | True3, True3 => True3
  | _, _ => Null3
  end.

Definition ternary_or (a b : Ternary) : Ternary :=
  match a, b with
  | True3, _ | _, True3 => True3
  | False3, False3 => False3
  | _, _ => Null3
  end.

Definition ternary_xor (a b : Ternary) : Ternary :=
  match a, b with
  | Null3, _ | _, Null3 => Null3
  | a, b => from_bool (negb (bool_decide (a = b)))
  end.

Definition ternary_not (a : Ternary) : Ternary :=
  match a with True3 => False3 | False3 => True3 | Null3 => Null3 end.

(** ** equality.rs *)

Definition value_is_nan (v : Value) : bool := match v with VFloat f => is_nan f | _ => false end.

(** [entries.iter().find(|(k', _)| k' == k)]: the first entry of the key. *)
Definition map_find (k : list N) (m : list (list N * Value)) : option Value :=
  snd <$> List.find (λ e, bool_decide (e.1 = k)) m.

Section Containers.
(** The comparison of the elements, one level down. *)
Variable eq : Value → Value → Ternary.

Fixpoint list_equals_loop (acc : Ternary) (x y : list Value) : Ternary :=
  match x, y with
  | xe :: x, ye :: y =>
      match eq xe ye with
      | False3 => False3
      | Null3 => list_equals_loop Null3 x y
      | True3 => list_equals_loop acc x y
      end
  | _, _ => acc
  end.

Definition list_equals (x y : list Value) : Ternary :=
  if negb (length x =? length y)%nat then False3 else list_equals_loop True3 x y.

Fixpoint map_equals_loop (acc : Ternary) (x y : list (list N * Value)) : Ternary :=
  match x with
  | [] => acc
  | (k, xv) :: x =>
      match map_find k y with
      | None => False3
      | Some yv =>
          match eq xv yv with
          | False3 => False3
          | Null3 => map_equals_loop Null3 x y
          | True3 => map_equals_loop acc x y
          end
      end
  end.

Definition map_equals (x y : list (list N * Value)) : Ternary :=
  if negb (length x =? length y)%nat then False3 else map_equals_loop True3 x y.
End Containers.

(** [cmp_int_float(i, f) == Some(Ordering::Equal)]. *)
Definition int_float_equal (i : Z) (f : f64) : bool :=
  match cmp_int_float i f with Some Eq => true | _ => false end.

Definition deep_equals (eq : Value → Value → Ternary) (a b : Value) : Ternary :=
  match a, b with
  | VBoolean x, VBoolean y => from_bool (bool_decide (x = y))
  | VString x, VString y => from_bool (bool_decide (x = y))
  | VBytes x, VBytes y => from_bool (bool_decide (x = y))
  | VInteger x, VInteger y => from_bool (x =? y)%Z
  | VInteger x, VFloat y => from_bool (int_float_equal x y)
  | VFloat x, VInteger y => from_bool (int_float_equal y x)
  | VFloat x, VFloat y => from_bool (f64_eqb x y)
  | VList x, VList y => list_equals eq x y
  | VMap x, VMap y => map_equals eq x y
  | VDate x, VDate y => from_bool (bool_decide (x = y))
  | VLocalTime x, VLocalTime y => from_bool (bool_decide (x = y))
  | VZonedTime x, VZonedTime y => from_bool (bool_decide (x = y))
  | VLocalDateTime x, VLocalDateTime y => from_bool (bool_decide (x = y))
  | VZonedDateTime x, VZonedDateTime y => from_bool (bool_decide (x = y))
  | VDuration x, VDuration y => from_bool (bool_decide (x = y))
  | VPoint x, VPoint y => from_bool (value_eq x y)
  | _, _ => False3
  end.

(** [equals_at] at depth [MAX_VALUE_DEPTH - levels]. *)
Fixpoint equals_at (levels : nat) (a b : Value) : Ternary :=
  if value_is_null a || value_is_null b then Null3
  else if value_is_nan a || value_is_nan b then False3
  else match levels with
       | O => Null3
       | S levels => deep_equals (equals_at levels) a b
       end.

Definition equals (a b : Value) : Ternary := equals_at MAX_VALUE_DEPTH a b.

Definition not_equals (a b : Value) : Ternary := ternary_not (equals a b).

Fixpoint is_in_loop (value : Value) (acc : Ternary) (elems : list Value) : Ternary :=
  match elems with
  | [] => acc
  | e :: elems =>
      let acc := ternary_or acc (equals value e) in
      if is_true acc then True3 else is_in_loop value acc elems
  end.

Definition is_in (value list : Value) : Ternary :=
  match list with
  | VList elems => is_in_loop value False3 elems
  | VNull => Null3
  | _ => Null3
  end.

(** ** The loops are folds *)

Lemma ternary_and_false_r t : ternary_and t False3 = False3.
Proof. by destruct t. Qed.

Lemma ternary_and_true_l t : ternary_and True3 t = t.
Proof. by destruct t. Qed.

Lemma ternary_and_assoc a b c :
  ternary_and a (ternary_and b c) = ternary_and (ternary_and a b) c.
Proof. by destruct a, b, c. Qed.

Lemma ternary_and_comm a b : ternary_and a b = ternary_and b a.
Proof. by destruct a, b. Qed.

Lemma ternary_or_assoc a b c : ternary_or a (ternary_or b c) = ternary_or (ternary_or a b) c.
Proof. by destruct a, b, c. Qed.

Lemma list_equals_loop_fold eq acc x y :
  acc ≠ False3 →
  list_equals_loop eq acc x y = ternary_and acc (foldr ternary_and True3 (zip_with eq x y)).
Proof.
  revert acc y. induction x as [|xe x IH]; intros acc [|ye y] Hacc; try by destruct acc.
  cbn [list_equals_loop zip_with foldr].
  destruct (eq xe ye) eqn:E; rewrite ?IH by done; by destruct acc, (foldr _ _ _).
Qed.

(** The comparison of one entry of the left map with the right map. *)
Definition entry_equals (eq : Value → Value → Ternary) (y : list (list N * Value))
    (e : list N * Value) : Ternary :=
  match map_find e.1 y with None => False3 | Some yv => eq e.2 yv end.

Lemma map_equals_loop_fold eq acc x y :
  acc ≠ False3 →
  map_equals_loop eq acc x y = ternary_and acc (foldr ternary_and True3 (entry_equals eq y <$> x)).
Proof.
  revert acc. induction x as [|[k xv] x IH]; intros acc Hacc; [by destruct acc|].
  cbn [map_equals_loop fmap list_fmap foldr]. unfold entry_equals at 1. cbn [fst snd].
  destruct (map_find k y) as [yv|]; [|by destruct acc].
  destruct (eq xv yv) eqn:E; rewrite ?IH by done; by destruct acc, (foldr _ _ _).
Qed.

Lemma fold_and_true l : foldr ternary_and True3 l = True3 ↔ Forall (λ t, t = True3) l.
Proof.
  induction l as [|t l IH]; [by simpl; rewrite Forall_nil|]. simpl.
  rewrite Forall_cons, <- IH. destruct t, (foldr ternary_and True3 l); naive_solver.
Qed.

Lemma fold_and_not_false l : foldr ternary_and True3 l ≠ False3 ↔ Forall (λ t, t ≠ False3) l.
Proof.
  induction l as [|t l IH]; [by simpl; rewrite Forall_nil|]. simpl.
  rewrite Forall_cons, <- IH. destruct t, (foldr ternary_and True3 l); naive_solver.
Qed.

(** A truth value is determined by whether it is true and whether it is false. *)
Lemma ternary_ext s t : (s = True3 ↔ t = True3) → (s ≠ False3 ↔ t ≠ False3) → s = t.
Proof. destruct s, t; naive_solver. Qed.

(** ** Maps as sets of entries *)

(** The right map has, for each entry of the left, an entry of the same key related to it. *)
Definition map_match (R : Value → Value → Prop) (x y : list (list N * Value)) : Prop :=
  length x = length y ∧ ∀ e, e ∈ x → ∃ yv, map_find e.1 y = Some yv ∧ R e.2 yv.

Lemma list_equals_spec eq x y (R : Ternary → Prop) :
  (∀ l, R (foldr ternary_and True3 l) ↔ Forall R l) → ¬ R False3 →
  R (list_equals eq x y) ↔ Forall2 (λ a b, R (eq a b)) x y.
Proof.
  intros HR HF. unfold list_equals. destruct (Nat.eqb_spec (length x) (length y)) as [Hl|Hl]; simpl.
  - rewrite list_equals_loop_fold by done.
    rewrite ternary_and_true_l, HR. revert y Hl.
    induction x as [|a x IH]; intros [|b y] Hl; try done.
    simpl. rewrite Forall_cons, Forall2_cons, IH by (simpl in Hl; lia). done.
  - split; [done|]. intros H%Forall2_length. done.
Qed.

Lemma map_equals_spec eq x y (R : Ternary → Prop) :
  (∀ l, R (foldr ternary_and True3 l) ↔ Forall R l) → ¬ R False3 →
  R (map_equals eq x y) ↔ map_match (λ a b, R (eq a b)) x y.
Proof.
  intros HR HF. unfold map_equals, map_match.
  destruct (Nat.eqb_spec (length x) (length y)) as [Hl|Hl]; simpl; [|naive_solver].
  rewrite map_equals_loop_fold by done.
  rewrite ternary_and_true_l, HR, Forall_fmap, Forall_forall. split.
  - intros H. split; [done|]. intros e He. specialize (H e He). simpl in H.
    unfold entry_equals in H. destruct (map_find e.1 y) as [yv|]; [by eauto|done].
  - intros [_ H] e He. destruct (H e He) as (yv & Hf & HRe). simpl. unfold entry_equals. by rewrite Hf.
Qed.

Lemma map_find_Some k m v : map_find k m = Some v → (k, v) ∈ m.
Proof.
  unfold map_find. intros ([k' v'] & Hf & ->)%fmap_Some. apply List.find_some in Hf as [Hin Hk].
  apply bool_decide_eq_true in Hk. simpl in Hk. subst. by apply list_elem_of_In.
Qed.

Lemma map_find_unique k m v : NoDup m.*1 → (k, v) ∈ m → map_find k m = Some v.
Proof.
  unfold map_find. induction m as [|[k' v'] m IH]; intros Hnd Hin; [by apply elem_of_nil in Hin|].
  apply NoDup_cons in Hnd as [Hk' Hnd]. cbn [List.find fst].
  apply elem_of_cons in Hin as [[= -> ->]|Hin]; [by rewrite bool_decide_true|].
  rewrite bool_decide_false; [by apply IH|].
  intros ->. apply Hk', list_elem_of_fmap. by exists (k, v).
Qed.

(** Without duplicate keys, a match pairs the entries off one to one. *)
Lemma map_match_aligned R x y :
  NoDup x.*1 → NoDup y.*1 →
  map_match R x y ↔ ∃ y', y ≡ₚ y' ∧ Forall2 (λ e e', e.1 = e'.1 ∧ R e.2 e'.2) x y'.
Proof.
  intros Hx Hy. split.
  - intros [Hl H]. set (align := λ e : list N * Value, (e.1, default VNull (map_find e.1 y))).
    assert (∀ e, e ∈ x → align e ∈ y ∧ R e.2 (align e).2) as Ha.
    { intros e He. destruct (H e He) as (yv & Hf & HR). unfold align. rewrite Hf. simpl.
      by split; [apply map_find_Some|]. }
    exists (align <$> x). split.
    + symmetry. apply submseteq_length_Permutation; [|rewrite length_fmap; lia].
      apply NoDup_submseteq; [|intros e (e' & -> & He')%list_elem_of_fmap; by apply Ha].
      apply (NoDup_fmap_1 fst). by rewrite <- list_fmap_compose.
    + apply Forall2_fmap_r, Forall2_same_length_lookup_2 with (l := x); [done|].
      intros i e e' He He'. rewrite He in He'. simplify_eq/=.
      split; [done|]. by apply Ha, (list_elem_of_lookup_2 _ i).
  - intros (y' & Hp & HF). split.
    { rewrite Hp. by apply Forall2_length in HF. }
    intros e He. apply list_elem_of_lookup in He as [i Hi].
    destruct (Forall2_lookup_l _ _ _ _ _ HF Hi) as ([k' v'] & Hi' & Hk & HR). simpl in *. subst k'.
    exists v'. split; [|done]. apply map_find_unique; [done|]. rewrite Hp.
    by apply (list_elem_of_lookup_2 _ i).
Qed.

Lemma Forall2_sym_in {A B} (P : A → B → Prop) (Q : B → A → Prop) l k :
  (∀ x y, x ∈ l → y ∈ k → P x y → Q y x) → Forall2 P l k → Forall2 Q k l.
Proof.
  intros HPQ HF. induction HF as [|x y l k HP HF IH]; [constructor|].
  constructor; [apply HPQ; [set_solver..|done]|]. apply IH. intros. apply HPQ; set_solver.
Qed.

Lemma map_match_sym (R S : Value → Value → Prop) x y :
  NoDup x.*1 → NoDup y.*1 →
  (∀ e e', e ∈ x → e' ∈ y → R e.2 e'.2 → S e'.2 e.2) → map_match R x y → map_match S y x.
Proof.
  intros Hx Hy HRS. rewrite !map_match_aligned by done. intros (y' & Hp & HF).
  apply (Forall2_sym_in _ (λ e e', e.1 = e'.1 ∧ S e.2 e'.2)) in HF.
  - destruct (Permutation_Forall2 (symmetry Hp) HF) as (x' & Hpx & HF'). by exists x'.
  - intros e e' He He' [Hk HR]. split; [done|]. apply HRS; [done| |done]. by rewrite Hp.
Qed.

Lemma map_match_impl (R S : Value → Value → Prop) x y :
  (∀ e yv, e ∈ x → (e.1, yv) ∈ y → R e.2 yv → S e.2 yv) → map_match R x y → map_match S x y.
Proof.
  intros HRS [Hl H]. split; [done|]. intros e He. destruct (H e He) as (yv & Hf & HR).
  exists yv. split; [done|]. apply HRS; [done|by apply map_find_Some|done].
Qed.

(** ** Values whose maps have no duplicate keys *)

Fixpoint distinct_keys (v : Value) : Prop :=
  match v with
  | VList l => (fix go l := match l with [] => True | x :: l' => distinct_keys x ∧ go l' end) l
  | VMap m => NoDup m.*1 ∧ (fix go m := match m with [] => True | x :: m' => distinct_keys x.2 ∧ go m' end) m
  | _ => True
  end.

Lemma distinct_list l : distinct_keys (VList l) ↔ Forall distinct_keys l.
Proof.
  induction l as [|x l IH]; [by simpl; rewrite Forall_nil|].
  rewrite Forall_cons, <- IH. done.
Qed.

Lemma distinct_map m :
  distinct_keys (VMap m) ↔ NoDup m.*1 ∧ Forall (λ e, distinct_keys e.2) m.
Proof.
  cbn [distinct_keys]. apply and_iff_compat_l.
  induction m as [|x m IH]; [by rewrite Forall_nil|]. by rewrite Forall_cons, IH.
Qed.

Lemma f64s_eqb_sym x y : f64s_eqb x y = f64s_eqb y x.
Proof.
  revert y. induction x as [|a x IH]; intros [|b y]; try done. simpl. rewrite IH. f_equal.
  unfold f64_eqb, f64_partial_cmp. rewrite orb_comm. destruct (_ || _); [done|].
  rewrite Z.compare_antisym. by destruct (scaled b ?= scaled a)%Z.
Qed.

Lemma value_eq_sym p q : value_eq p q = value_eq q p.
Proof. unfold value_eq. rewrite f64s_eqb_sym. f_equal. by apply bool_decide_ext. Qed.

Lemma f64_eqb_sym x y : f64_eqb x y = f64_eqb y x.
Proof. pose proof (f64s_eqb_sym [x] [y]) as H. simpl in H. by rewrite !andb_true_r in H. Qed.

Lemma equals_at_sym levels a b :
  distinct_keys a → distinct_keys b → equals_at levels a b = equals_at levels b a.
Proof.
  revert a b. induction levels as [|levels IH]; intros a b Ha Hb; cbn [equals_at];
    rewrite (orb_comm (value_is_null a)), (orb_comm (value_is_nan a)); [done|].
  destruct (_ || _); [done|]. destruct (_ || _); [done|].
  destruct a as [| | | | | |la|ma| | | | | | |], b as [| | | | | |lb|mb| | | | | | |]; try done; simpl deep_equals;
    try (f_equal; by apply bool_decide_ext).
  - by rewrite Z.eqb_sym.
  - by rewrite f64_eqb_sym.
  - rewrite distinct_list in Ha, Hb. rewrite Forall_forall in Ha, Hb.
    apply ternary_ext; rewrite !(list_equals_spec _ _ _ (λ t, t = True3))
      || rewrite !(list_equals_spec _ _ _ (λ t, t ≠ False3)); try done;
      try apply fold_and_true; try apply fold_and_not_false; try naive_solver.
    all: split; apply Forall2_sym_in; intros x y Hx Hy; by rewrite IH by auto.
  - rewrite distinct_map in Ha, Hb. destruct Ha as [Hna Ha], Hb as [Hnb Hb].
    rewrite Forall_forall in Ha, Hb.
    apply ternary_ext; rewrite !(map_equals_spec _ _ _ (λ t, t = True3))
      || rewrite !(map_equals_spec _ _ _ (λ t, t ≠ False3)); try done;
      try apply fold_and_true; try apply fold_and_not_false; try naive_solver.
    all: split; apply map_match_sym; try done; intros x y Hx Hy; by rewrite IH by auto.
  - by rewrite value_eq_sym.
Qed.

(** ** Properties *)

Lemma is_in_loop_fold v acc l :
  is_in_loop v acc l = ternary_or acc (foldr (λ e t, ternary_or (equals v e) t) False3 l).
Proof.
  revert acc. induction l as [|e l IH]; intros acc; cbn [is_in_loop foldr]; [by destruct acc|].
  rewrite ternary_or_assoc. destruct (is_true _) eqn:E; [|by rewrite IH].
  by destruct (ternary_or acc (equals v e)).
Qed.

(** Equality is symmetric as a three-valued operator on values whose maps have no duplicate
    key, [<>] is its negation, and [IN] is the three-valued disjunction of the equalities with
    the elements, false on the empty list, though its loop stops at the first match. *)
Theorem equality_operators a b l :
  distinct_keys a → distinct_keys b →
  equals a b = equals b a ∧
  not_equals a b = ternary_not (equals b a) ∧
  is_in a (VList l) = foldr (λ e t, ternary_or (equals a e) t) False3 l.
Proof.
  intros Ha Hb. unfold not_equals, equals. rewrite (equals_at_sym _ a b) by done.
  split_and!; [done..|]. cbn [is_in]. rewrite is_in_loop_fold. by destruct (foldr _ _ _).
Qed.

(** [n] lists around a value. *)
Fixpoint nest (n : nat) (v : Value) : Value :=
  match n with O => v | S n => VList [nest n v] end.

Lemma nesting_nest n i : nesting (nest n (VInteger i)) = n.
Proof. induction n as [|n IH]; [done|]. cbn [nest nesting foldr]. rewrite IH. lia. Qed.

Lemma equals_at_nest n i : equals_at n (nest n (VInteger i)) (nest n (VInteger i)) = Null3.
Proof.
  induction n as [|n IH]; [done|]. cbn [nest equals_at value_is_null value_is_nan orb deep_equals].
  unfold list_equals. cbn. by rewrite IH.
Qed.

(** The parameter check accepts a value nested to the limit, whose comparison with itself then
    reaches the guard of [equals]: the two equal values compare as unknown. *)
Theorem deepest_accepted_value_unknown :
  let v := nest MAX_VALUE_DEPTH (VInteger 1) in
  depth_exceeds v MAX_VALUE_DEPTH = Some false ∧ equals v v = Null3.
Proof.
  split; [|apply equals_at_nest].
  unfold depth_exceeds. rewrite depth_loop_spec by (unfold pending; cbn [sum_list_with fst]; lia).
  unfold beyond. cbn [existsb fst snd]. by rewrite nesting_nest.
Qed.
