(* ===== verification/CypherEquivalence.v ===== *)
(** Grouping equivalence and its hash (graphus-cypher equivalence.rs).

    [equivalent] is the two-valued relation of [DISTINCT] and grouping keys. A hasher is the
    sequence of writes it has absorbed, so [hash_value] is the list of writes a value makes;
    the sub-hashes of map entries come from a fresh [DefaultHasher], whose [finish] is a
    parameter. The theorems: on values whose maps have no duplicate key, [equivalent] is an
    equivalence relation, equivalent values make the same writes, and equality and
    equivalence agree except on the unknown and NaN. *)
From S2P Require Import Prelude Float64 Compare CypherValue CypherEquality.
From stdpp Require Import options.

Open Scope N_scope.

Definition float_equivalent (x y : f64) : bool :=
  if is_nan x || is_nan y then is_nan x && is_nan y else f64_eqb x y.

Definition num_equivalent (a b : Value) : bool :=
  match a, b with
  | VInteger x, VInteger y => (x =? y)%Z
  | VInteger x, VFloat y => int_float_equal x y
  | VFloat x, VInteger y => int_float_equal y x
  | VFloat x, VFloat y => float_equivalent x y
  | _, _ => false
  end.

Definition point_equivalent (x y : Point) : bool :=
  if negb (bool_decide (crs x = crs y)) then false
  else forallb (λ '(a, b), float_equivalent a b) (zip (coords x) (coords y)).

Section Containers.
(** The relation on the elements. *)
Variable equiv : Value → Value → bool.

Fixpoint all_equivalent (x y : list Value) : bool :=
  match x, y with
  | xe :: x, ye :: y => equiv xe ye && all_equivalent x y
  | _, _ => true
  end.

Fixpoint entries_equivalent (x y : list (list N * Value)) : bool :=
  match x with
  | [] => true
  | (k, xv) :: x =>
      match map_find k y with Some yv => equiv xv yv | None => false end
      && entries_equivalent x y
  end.

Definition map_equivalent (x y : list (list N * Value)) : bool :=
  if negb (length x =? length y)%nat then false else entries_equivalent x y.
End Containers.

Fixpoint equivalent (a b : Value) : bool :=
  match a, b with
  | VNull, VNull => true
  | VNull, _ | _, VNull => false
  | VBoolean x, VBoolean y => bool_decide (x = y)
  | VString x, VString y => bool_decide (x = y)
  | VBytes x, VBytes y => bool_decide (x = y)
  | (VInteger _ | VFloat _), (VInteger _ | VFloat _) => num_equivalent a b
  | VList x, VList y => (length x =? length y)%nat && all_equivalent equivalent x y
  | VMap x, VMap y => map_equivalent equivalent x y
  | VDate x, VDate y => bool_decide (x = y)
  | VLocalTime x, VLocalTime y => bool_decide (x = y)
  | VZonedTime x, VZonedTime y => bool_decide (x = y)
  | VLocalDateTime x, VLocalDateTime y => bool_decide (x = y)
  | VZonedDateTime x, VZonedDateTime y => bool_decide (x = y)
  | VDuration x, VDuration y => bool_decide (x = y)
  | VPoint x, VPoint y => point_equivalent x y
  | _, _ => false
  end.

(** ** The hash *)

(** One write into a [Hasher]: a fixed-width integer, a [str], a byte slice with its length,
    an enum discriminant. *)
Inductive HashWrite :=
  | WriteU8 (n : N)
  | WriteU32 (n : N)
  | WriteU64 (n : N)
  | WriteUsize (n : N)
  | WriteI32 (z : Z)
  | WriteI64 (z : Z)
  | WriteStr (s : list N)
  | WriteSlice (s : list N)
  | WriteDiscriminant (n : N).

(** The bucket of a float: one for NaN, one for both zeros, the bits otherwise. *)
Definition hash_float (f : f64) : list HashWrite :=
  if is_nan f then [WriteU64 u64_max]
  else if f64_eqb f 0 then [WriteU64 0]
  else [WriteU64 f].

Definition hash_point (p : Point) : list HashWrite :=
  WriteDiscriminant (as_byte (crs p)) :: concat (hash_float <$> coords p).

Definition hash_local_date_time (dt : LocalDateTime) : list HashWrite :=
  [WriteI64 (epoch_seconds dt); WriteU32 (ldt_nanos dt)].

Definition ENTRY_MIX : N := 0x9E37_79B9_7F4A_7C15.

Section Hash.
(** [DefaultHasher::finish] after the given writes. *)
Variable finish : list HashWrite → N.

Section Entries.
Variable hash : Value → list HashWrite.

Fixpoint hash_entries (acc : N) (entries : list (list N * Value)) : N :=
  match entries with
  | [] => acc
  | (k, v) :: entries =>
      hash_entries ((acc + (finish (WriteStr k :: hash v) * ENTRY_MIX) mod 2 ^ 64) mod 2 ^ 64) entries
  end.

Definition hash_map_unordered (entries : list (list N * Value)) : list HashWrite :=
  [WriteUsize (N.of_nat (length entries)); WriteU64 (hash_entries 0 entries)].
End Entries.

Fixpoint hash_value (v : Value) : list HashWrite :=
  match v with
  | VNull => [WriteU8 0]
  | VBoolean b => [WriteU8 1; WriteU8 (if b then 1 else 0)]
  | VInteger i => WriteU8 2 :: hash_float (i64_as_f64 i)
  | VFloat f => WriteU8 2 :: hash_float f
  | VString s => [WriteU8 3; WriteStr s]
  | VBytes b => [WriteU8 4; WriteSlice b]
  | VList xs => WriteU8 5 :: WriteUsize (N.of_nat (length xs)) :: concat (hash_value <$> xs)
  | VMap entries => WriteU8 6 :: hash_map_unordered hash_value entries
  | VDate x => [WriteU8 7; WriteI64 (days_since_epoch x)]
  | VLocalTime x => [WriteU8 8; WriteU64 (nanos_of_day x)]
  | VZonedTime x => [WriteU8 9; WriteU64 (nanos_of_day (zt_time x)); WriteI32 (zt_offset_seconds x)]
  | VLocalDateTime x => WriteU8 10 :: hash_local_date_time x
  | VZonedDateTime x =>
      WriteU8 11 :: hash_local_date_time (local x) ++
      [WriteI32 (zdt_offset_seconds x); WriteStr (zone_id x)]
  | VDuration x =>
      [WriteU8 12; WriteI64 (months x); WriteI64 (days x); WriteI64 (seconds x); WriteI32 (dur_nanos x)]
  | VPoint p => WriteU8 13 :: hash_point p
  end.
End Hash.

(** ** Element-wise relations *)

Lemma all_equivalent_spec equiv x y :
  (length x =? length y)%nat && all_equivalent equiv x y = true ↔ Forall2 (λ a b, equiv a b = true) x y.
Proof.
  revert y. induction x as [|a x IH]; intros [|b y].
  - split; [constructor|done].
  - split; [done|by intros ?%Forall2_nil_cons_inv].
  - split; [done|by intros ?%Forall2_cons_nil_inv].
  - rewrite Forall2_cons, <- IH. cbn [length all_equivalent]. cbn [Nat.eqb].
    rewrite !andb_true_iff. naive_solver.
Qed.

Lemma map_equivalent_spec equiv x y :
  map_equivalent equiv x y = true ↔ map_match (λ a b, equiv a b = true) x y.
Proof.
  unfold map_equivalent, map_match. destruct (Nat.eqb_spec (length x) (length y)) as [Hl|Hl]; simpl; [|naive_solver].
  transitivity (Forall (λ e, ∃ yv, map_find e.1 y = Some yv ∧ equiv e.2 yv = true) x).
  - clear Hl. induction x as [|[k xv] x IH]; [by rewrite Forall_nil|].
    rewrite Forall_cons, <- IH. cbn [entries_equivalent fst snd]. rewrite andb_true_iff.
    destruct (map_find k y); naive_solver.
  - rewrite Forall_forall. naive_solver.
Qed.

(** ** Numbers *)

(** The exact value of a number in units of [2^-1074]; NaN has none. *)
Definition numeric (v : Value) : option Z :=
  match v with
  | VInteger i => Some (i * Z.of_N one_scaled)%Z
  | VFloat f => if is_nan f then None else Some (scaled f)
  | _ => None
  end.

Definition is_number (v : Value) : bool :=
  match v with VInteger _ | VFloat _ => true | _ => false end.

Lemma f64_eqb_spec x y :
  f64_eqb x y = negb (is_nan x || is_nan y) && (scaled x =? scaled y)%Z.
Proof.
  unfold f64_eqb, f64_partial_cmp. destruct (_ || _); [done|]. simpl.
  destruct (Z.compare_spec (scaled x) (scaled y)), (Z.eqb_spec (scaled x) (scaled y)); done || lia.
Qed.

Lemma int_float_equal_spec i f :
  is_i64 i → is_f64 f →
  int_float_equal i f = negb (is_nan f) && (i * Z.of_N one_scaled =? scaled f)%Z.
Proof.
  intros Hi Hf. unfold int_float_equal. rewrite cmp_int_float_spec by done.
  destruct (is_nan f); [done|]. cbn [negb andb].
  destruct (Z.compare_spec (i * Z.of_N one_scaled) (scaled f)),
    (Z.eqb_spec (i * Z.of_N one_scaled) (scaled f)); done || lia.
Qed.

Lemma float_equivalent_spec x y :
  float_equivalent x y = bool_decide (numeric (VFloat x) = numeric (VFloat y)).
Proof.
  unfold float_equivalent. cbn [numeric]. rewrite f64_eqb_spec.
  destruct (is_nan x), (is_nan y); cbn [orb andb negb]; [by rewrite bool_decide_true|by rewrite bool_decide_false..|].
  destruct (Z.eqb_spec (scaled x) (scaled y)) as [->|Hne]; [by rewrite bool_decide_true|].
  rewrite bool_decide_false; [done|]. congruence.
Qed.

(** Two numbers are equivalent when they are the same number, or both NaN. *)
Lemma num_equivalent_spec a b :
  typed a → typed b → is_number a → is_number b →
  num_equivalent a b = bool_decide (numeric a = numeric b).
Proof.
  intros Ha Hb Hna Hnb. pose proof one_scaled_pos as Hu.
  destruct a as [| |i|f| | | | | | | | | | |], b as [| |j|g| | | | | | | | | | |]; try done;
    cbn [num_equivalent]; [| | |apply float_equivalent_spec]; cbn [numeric].
  - destruct (Z.eqb_spec i j) as [->|Hne]; [by rewrite bool_decide_true|].
    rewrite bool_decide_false; [done|]. intros [= H%Z.mul_reg_r]; lia.
  - rewrite int_float_equal_spec by done. destruct (is_nan g); [by rewrite bool_decide_false|].
    destruct (Z.eqb_spec (i * Z.of_N one_scaled) (scaled g)) as [->|Hne]; [by rewrite bool_decide_true|].
    rewrite bool_decide_false; [done|]. congruence.
  - rewrite int_float_equal_spec by done. destruct (is_nan f); [by rewrite bool_decide_false|].
    destruct (Z.eqb_spec (j * Z.of_N one_scaled) (scaled f)) as [->|Hne]; [by rewrite bool_decide_true|].
    rewrite bool_decide_false; [done|]. congruence.
Qed.

(** Points are equivalent when the system and the coordinates, as numbers, agree. *)
Definition point_identity (p : Point) : Crs * list (option Z) :=
  (crs p, (λ f, numeric (VFloat f)) <$> coords p).

Lemma floats_equivalent_spec x y :
  length x = length y →
  forallb (λ '(a, b), float_equivalent a b) (zip x y) =
  bool_decide ((λ f, numeric (VFloat f)) <$> x = (λ f, numeric (VFloat f)) <$> y).
Proof.
  revert y. induction x as [|a x IH]; intros [|b y] Hl; try done.
  cbn [zip zip_with forallb fmap list_fmap]. rewrite float_equivalent_spec, IH by (simpl in Hl; lia).
  rewrite <- bool_decide_and. apply bool_decide_ext. split; [by intros [-> ->]|].
  intros H. by injection H.
Qed.

Lemma point_equivalent_spec p q :
  point_equivalent p q = bool_decide (point_identity p = point_identity q).
Proof.
  unfold point_equivalent, point_identity.
  destruct (decide (crs p = crs q)) as [He|Hne].
  - rewrite bool_decide_true by done. cbn [negb].
    rewrite floats_equivalent_spec by (by rewrite !coords_length, He).
    apply bool_decide_ext. rewrite He. split; [by intros ->|by intros [= ?]].
  - rewrite !bool_decide_false; [done| |done]. by intros [= ? _].
Qed.

(** ** Scalars *)

Definition is_scalar (v : Value) : bool :=
  match v with VList _ | VMap _ => false | _ => true end.

(** What identifies a scalar up to equivalence. *)
Definition scalar_key (v : Value) : option Z + (Crs * list (option Z) + Value) :=
  match v with
  | VInteger _ | VFloat _ => inl (numeric v)
  | VPoint p => inr (inl (point_identity p))
  | _ => inr (inr v)
  end.

Lemma equivalent_scalar a b :
  is_scalar a → typed a → typed b →
  equivalent a b = true ↔ scalar_key a = scalar_key b.
Proof.
  intros Hs Ha Hb.
  destruct a; try done; destruct b; cbn [scalar_key];
    try (split; [done|intros H; by simplify_eq]);
    cbn [equivalent];
    try (rewrite num_equivalent_spec by done; rewrite bool_decide_eq_true;
         split; [by intros ->|by intros ?%(inj inl)]);
    try (rewrite point_equivalent_spec, bool_decide_eq_true;
         split; [by intros ->|by intros ?%(inj inr)%(inj inl)]);
    try done; (rewrite bool_decide_eq_true; split; [by intros ->|by intros [= ->]]).
Qed.

(** ** [equivalent] is an equivalence relation *)

Lemma equivalent_refl v : typed v → distinct_keys v → equivalent v v = true.
Proof.
  induction v as [v Hl Hm|l IH|m IH] using value_nested_ind; intros Ht Hd.
  - apply equivalent_scalar; [|done..]. destruct v; done || naive_solver.
  - rewrite typed_list in Ht. rewrite distinct_list in Hd.
    apply all_equivalent_spec, Forall_Forall2_diag.
    rewrite Forall_forall in IH, Ht, Hd |- *. eauto.
  - rewrite typed_map in Ht. rewrite distinct_map in Hd. destruct Hd as [Hn Hd].
    apply map_equivalent_spec. split; [done|]. intros [k v] He.
    rewrite Forall_forall in IH, Ht, Hd. exists v. split; [by apply map_find_unique|].
    apply (IH (k, v)); [done|apply (Ht (k, v) He)|apply (Hd (k, v) He)].
Qed.

Lemma equivalent_shape a b :
  equivalent a b = true → is_scalar a = is_scalar b ∧
  (∀ l, a = VList l → ∃ l', b = VList l') ∧ (∀ m, a = VMap m → ∃ m', b = VMap m').
Proof. destruct a, b; try done; intros _; split_and!; try done; naive_solver. Qed.

Lemma equivalent_sym a b :
  typed a → typed b → distinct_keys a → distinct_keys b →
  equivalent a b = true → equivalent b a = true.
Proof.
  revert b. induction a as [a Hl Hm|l IH|m IH] using value_nested_ind; intros b Hta Htb Hda Hdb He;
    destruct (equivalent_shape _ _ He) as (Hs & Hsl & Hsm).
  - assert (is_scalar a) as Hsa by (destruct a; done || naive_solver).
    apply equivalent_scalar in He; [|done..]. apply equivalent_scalar; [by rewrite <- Hs|done..].
  - destruct (Hsl l eq_refl) as [l' ->]. rewrite typed_list in Hta, Htb. rewrite distinct_list in Hda, Hdb.
    rewrite Forall_forall in IH, Hta, Htb, Hda, Hdb.
    apply all_equivalent_spec in He. apply all_equivalent_spec.
    revert He. apply Forall2_sym_in. intros x y Hx Hy. apply IH; auto.
  - destruct (Hsm m eq_refl) as [m' ->]. rewrite typed_map in Hta, Htb. rewrite distinct_map in Hda, Hdb.
    destruct Hda as [Hna Hda], Hdb as [Hnb Hdb]. rewrite Forall_forall in IH, Hta, Htb, Hda, Hdb.
    apply map_equivalent_spec in He. apply map_equivalent_spec. revert He.
    apply map_match_sym; [done..|]. intros x y Hx Hy. apply IH; [done|apply Hta|apply Htb|apply Hda|apply Hdb]; done.
Qed.

Lemma equivalent_trans a b c :
  typed a → typed b → typed c →
  equivalent a b = true → equivalent b c = true → equivalent a c = true.
Proof.
  revert b c. induction a as [a Hl Hm|l IH|m IH] using value_nested_ind; intros b c Hta Htb Htc Hab Hbc;
    destruct (equivalent_shape _ _ Hab) as (Hs & Hsl & Hsm);
    destruct (equivalent_shape _ _ Hbc) as (Hs' & Hsl' & Hsm').
  - assert (is_scalar a) as Hsa by (destruct a; done || naive_solver).
    apply equivalent_scalar in Hab; [|done..].
    apply equivalent_scalar in Hbc; [|by rewrite <- Hs|done..].
    apply equivalent_scalar; [done..|]. congruence.
  - destruct (Hsl l eq_refl) as [l' ->]. destruct (Hsl' l' eq_refl) as [l'' ->].
    rewrite typed_list in Hta, Htb, Htc. rewrite Forall_forall in IH.
    apply all_equivalent_spec in Hab, Hbc. apply all_equivalent_spec.
    rewrite Forall2_same_length_lookup in Hab, Hbc |- *.
    destruct Hab as [Hlen Hab], Hbc as [Hlen' Hbc]. split; [lia|]. intros i x z Hx Hz.
    destruct (lookup_lt_is_Some_2 l' i) as [y Hy].
    { rewrite <- Hlen. by apply lookup_lt_Some in Hx. }
    rewrite Forall_lookup in Hta, Htb, Htc.
    apply (IH x (list_elem_of_lookup_2 _ _ _ Hx) y); eauto.
  - destruct (Hsm m eq_refl) as [m' ->]. destruct (Hsm' m' eq_refl) as [m'' ->].
    rewrite typed_map in Hta, Htb, Htc. rewrite Forall_forall in IH, Hta, Htb, Htc.
    apply map_equivalent_spec in Hab as [Hlen Hab], Hbc as [Hlen' Hbc].
    apply map_equivalent_spec. split; [lia|]. intros e He.
    destruct (Hab e He) as (yv & Hy & Hey). apply map_find_Some in Hy as Hyin.
    destruct (Hbc _ Hyin) as (zv & Hz & Hyz). simpl in Hz, Hyz. exists zv. split; [done|].
    apply map_find_Some in Hz. apply (IH e He yv); [apply Hta| apply (Htb _ Hyin)|apply (Htc _ Hz)|..]; done.
Qed.

(** ** The hash respects equivalence *)

Lemma hash_float_numeric x y :
  is_f64 x → is_f64 y → numeric (VFloat x) = numeric (VFloat y) → hash_float x = hash_float y.
Proof.
  intros Hx Hy. cbn [numeric]. unfold hash_float. rewrite !f64_eqb_spec.
  destruct (is_nan x), (is_nan y); try done. intros [= Hs]. cbn [orb negb andb].
  change (is_nan 0) with false. change (scaled 0) with 0%Z. cbn [negb andb]. rewrite Hs.
  destruct (Z.eqb_spec (scaled y) 0); [done|].
  destruct (scaled_eq x y Hx Hy Hs) as [->|[_ ?]]; done.
Qed.

(** An integer equal to a double rounds to that double. *)
Lemma round_i64_double i x : (i * Z.of_N one_scaled = scaled x)%Z → round_i64 i = i.
Proof.
  intros H. pose proof one_scaled_pos as Hu.
  pose proof (round_le_double i x ltac:(lia)). pose proof (round_ge_double i x ltac:(lia)). nia.
Qed.

Lemma hash_int_float i x :
  is_i64 i → is_f64 x → numeric (VInteger i) = numeric (VFloat x) →
  hash_float (i64_as_f64 i) = hash_float x.
Proof.
  intros Hi Hx Heq. destruct (as_f64_parts i Hi) as (_ & _ & Hf & _).
  apply hash_float_numeric; [done..|]. rewrite <- Heq. cbn [numeric] in *.
  rewrite as_f64_not_nan, scaled_as_f64 by done. destruct (is_nan x); [done|].
  simplify_eq Heq. intros ->%round_i64_double. done.
Qed.

Lemma hash_coords x y :
  Forall is_f64 x → Forall is_f64 y →
  (λ f, numeric (VFloat f)) <$> x = (λ f, numeric (VFloat f)) <$> y →
  hash_float <$> x = hash_float <$> y.
Proof.
  intros Hx. revert y. induction Hx as [|a x Ha Hx IH]; intros y [|b y' Hb Hy] Heq; try done.
  rewrite !fmap_cons in *. apply (inj2 cons) in Heq as [Hab Heq].
  by rewrite (hash_float_numeric a b), (IH y').
Qed.

Section HashFacts.
Variable finish : list HashWrite → N.

Lemma hash_scalar a b :
  is_scalar a → is_scalar b → typed a → typed b →
  scalar_key a = scalar_key b → hash_value finish a = hash_value finish b.
Proof.
  intros Hsa Hsb Ha Hb. destruct a; try done; destruct b; try done; cbn [scalar_key]; intros Hk;
    try (simplify_eq Hk; by intros ->); try (apply (inj inl) in Hk); cbn [hash_value].
  - cbn [numeric] in Hk. simplify_eq Hk. intros Hk'%Z.mul_reg_r; [by rewrite Hk'|done].
  - by rewrite (hash_int_float _ _ Ha Hb Hk).
  - by rewrite (hash_int_float _ _ Hb Ha (symmetry Hk)).
  - by rewrite (hash_float_numeric _ _ Ha Hb Hk).
  - unfold point_identity in Hk. apply (inj inr), (inj inl) in Hk. simplify_eq Hk. intros Hc Hcs.
    unfold hash_point. rewrite Hc. f_equal. f_equal. f_equal.
    apply hash_coords; by try apply coords_typed.
Qed.

Definition entry_mix (hash : Value → list HashWrite) (e : list N * Value) : N :=
  (finish (WriteStr e.1 :: hash e.2) * ENTRY_MIX) mod 2 ^ 64.

Lemma hash_entries_sum hash acc entries :
  acc < 2 ^ 64 →
  hash_entries finish hash acc entries =
  (acc + foldr (λ e n, entry_mix hash e + n) 0 entries) mod 2 ^ 64.
Proof.
  revert acc. induction entries as [|[k v] entries IH]; intros acc Hacc; cbn [hash_entries foldr].
  - by rewrite N.add_0_r, N.mod_small.
  - rewrite IH by (by apply N.mod_lt).
    change ((finish (WriteStr k :: hash v) * ENTRY_MIX) mod 2 ^ 64) with (entry_mix hash (k, v)).
    by rewrite N.Div0.add_mod_idemp_l, N.add_assoc.
Qed.

Lemma sum_permutation (f : list N * Value → N) x y :
  x ≡ₚ y → foldr (λ e n, f e + n) 0 x = foldr (λ e n, f e + n) 0 y.
Proof. induction 1; simpl; lia. Qed.

Lemma hash_equivalent a b :
  typed a → typed b → distinct_keys a → distinct_keys b →
  equivalent a b = true → hash_value finish a = hash_value finish b.
Proof.
  revert b. induction a as [a Hl Hm|l IH|m IH] using value_nested_ind; intros b Hta Htb Hda Hdb He;
    destruct (equivalent_shape _ _ He) as (Hs & Hsl & Hsm).
  - assert (is_scalar a) as Hsa by (destruct a; done || naive_solver).
    apply equivalent_scalar in He; [|done..]. apply hash_scalar; [done|by rewrite <- Hs|done..].
  - destruct (Hsl l eq_refl) as [l' ->]. rewrite typed_list in Hta, Htb. rewrite distinct_list in Hda, Hdb.
    apply all_equivalent_spec in He.
    assert (hash_value finish <$> l = hash_value finish <$> l') as Heq.
    { clear Hs Hsl Hsm. induction He as [|x y l l' Hxy He IHl]; [done|].
      rewrite Forall_cons in IH, Hta, Htb, Hda, Hdb. rewrite !fmap_cons. f_equal; [|apply IHl]; naive_solver. }
    cbn [hash_value]. by rewrite (Forall2_length _ _ _ He), Heq.
  - destruct (Hsm m eq_refl) as [m' ->]. rewrite typed_map in Hta, Htb. rewrite distinct_map in Hda, Hdb.
    destruct Hda as [Hna Hda], Hdb as [Hnb Hdb].
    apply map_equivalent_spec, map_match_aligned in He as (y & Hp & HF); [|done..].
    assert (foldr (λ e n, entry_mix (hash_value finish) e + n) 0 m =
            foldr (λ e n, entry_mix (hash_value finish) e + n) 0 y) as Heq.
    { rewrite Hp in Htb, Hdb. clear Hp Hna Hnb Hs Hsl Hsm.
      induction HF as [|[k v] [k' v'] m y [Hk Hv] HF IHm]; [done|].
      rewrite Forall_cons in IH, Hta, Htb, Hda, Hdb. cbn [foldr fst snd] in *.
      rewrite IHm by naive_solver. f_equal. unfold entry_mix. cbn [fst snd].
      rewrite Hk, (proj1 IH v'); naive_solver. }
    cbn [hash_value]. unfold hash_map_unordered.
    rewrite !hash_entries_sum, (sum_permutation _ _ _ Hp), Heq by done.
    by rewrite Hp, (Forall2_length _ _ _ HF).
Qed.
End HashFacts.

(** ** Equality against equivalence *)

(** [p] holds of a value and of everything nested in it. *)
Fixpoint everywhere (p : Value → bool) (v : Value) : Prop :=
  p v ∧ match v with
        | VList l => (fix go l := match l with [] => True | x :: l' => everywhere p x ∧ go l' end) l
        | VMap m => (fix go m := match m with [] => True | x :: m' => everywhere p x.2 ∧ go m' end) m
        | _ => True
        end.

Lemma everywhere_here p v : everywhere p v → p v.
Proof. by destruct v; intros [H _]. Qed.

Lemma everywhere_list p l : everywhere p (VList l) ↔ p (VList l) ∧ Forall (everywhere p) l.
Proof.
  cbn [everywhere]. apply and_iff_compat_l.
  induction l as [|x l IH]; [by rewrite Forall_nil|]. by rewrite Forall_cons, IH.
Qed.

Lemma everywhere_map p m : everywhere p (VMap m) ↔ p (VMap m) ∧ Forall (λ e, everywhere p e.2) m.
Proof.
  cbn [everywhere]. apply and_iff_compat_l.
  induction m as [|x m IH]; [by rewrite Forall_nil|]. by rewrite Forall_cons, IH.
Qed.

Definition no_nan (v : Value) : bool :=
  match v with
  | VFloat f => negb (is_nan f)
  | VPoint p => forallb (λ f, negb (is_nan f)) (coords p)
  | _ => true
  end.

Definition no_null (v : Value) : bool := negb (value_is_null v).

Lemma f64s_eqb_equivalent x y :
  f64s_eqb x y = true → forallb (λ '(a, b), float_equivalent a b) (zip x y) = true.
Proof.
  revert y. induction x as [|a x IH]; intros [|b y]; try done. simpl.
  rewrite !andb_true_iff. intros [Hab Hxy]. split; [|by apply IH].
  unfold float_equivalent. rewrite Hab. rewrite f64_eqb_spec in Hab. by destruct (_ || _).
Qed.

Lemma equivalent_f64s_eqb x y :
  length x = length y → forallb (λ f, negb (is_nan f)) x = true →
  forallb (λ '(a, b), float_equivalent a b) (zip x y) = true → f64s_eqb x y = true.
Proof.
  revert y. induction x as [|a x IH]; intros [|b y] Hl; try done. simpl.
  rewrite !andb_true_iff. intros [Ha Hx] [Hab Hxy]. split; [|by apply IH; [simpl in Hl; lia|..]].
  unfold float_equivalent in Hab. destruct (is_nan a); [done|]. by destruct (is_nan b).
Qed.

Lemma point_eq_equivalent p q : value_eq p q = true → point_equivalent p q = true.
Proof.
  unfold value_eq, point_equivalent. rewrite andb_true_iff. intros [-> Hc]. simpl.
  by apply f64s_eqb_equivalent.
Qed.

Lemma point_equivalent_eq p q :
  no_nan (VPoint p) → point_equivalent p q = true → value_eq p q = true.
Proof.
  unfold value_eq, point_equivalent. intros Hn%Is_true_true.
  destruct (bool_decide_reflect (crs p = crs q)) as [Hc|]; [|done]. simpl.
  apply equivalent_f64s_eqb; [|done]. by rewrite !coords_length, Hc.
Qed.

Lemma from_bool_true b : from_bool b = True3 ↔ b = true.
Proof. by destruct b. Qed.

Lemma equals_at_true levels a b : equals_at levels a b = True3 → equivalent a b = true.
Proof.
  revert a b. induction levels as [|levels IH]; intros a b; cbn [equals_at].
  { destruct (_ || _); [done|]. by destruct (_ || _). }
  destruct (value_is_null a || value_is_null b) eqn:Hnull; [done|].
  destruct (value_is_nan a || value_is_nan b) eqn:Hnan; [done|].
  destruct a, b; try done; cbn [deep_equals equivalent num_equivalent]; rewrite ?from_bool_true; try done.
  - simpl in Hnan. unfold float_equivalent. by rewrite Hnan.
  - rewrite (list_equals_spec _ _ _ (λ t, t = True3)) by (apply fold_and_true || done).
    intros HF. apply all_equivalent_spec. by apply (Forall2_impl _ _ _ _ HF), IH.
  - rewrite (map_equals_spec _ _ _ (λ t, t = True3)) by (apply fold_and_true || done).
    intros HM. apply map_equivalent_spec. revert HM. apply map_match_impl. intros e yv _ _. apply IH.
  - apply point_eq_equivalent.
Qed.

(** Equivalent values without NaN are never unequal. *)
Lemma equals_at_not_false levels a b :
  everywhere no_nan a → equivalent a b = true → equals_at levels a b ≠ False3.
Proof.
  revert a b. induction levels as [|levels IH]; intros a b Hn He; cbn [equals_at];
    (destruct (value_is_null a || value_is_null b) eqn:Hnull; [done|]);
    (assert (value_is_nan a || value_is_nan b = false) as ->;
      [apply everywhere_here in Hn; destruct a, b; try done; simpl in *;
         unfold float_equivalent, int_float_equal, cmp_int_float in He;
         repeat match goal with |- context [is_nan ?f] => destruct (is_nan f) end; done|]).
  { done. }
  destruct a, b; try done; cbn [deep_equals equivalent num_equivalent] in *; rewrite ?He; try done.
  - unfold float_equivalent in He. destruct (is_nan f) eqn:Hf; [by apply everywhere_here in Hn; simpl in Hn; rewrite Hf in Hn|].
    destruct (is_nan f0); [done|]. simpl in He. by rewrite He.
  - apply all_equivalent_spec in He. rewrite everywhere_list in Hn. destruct Hn as [_ Hn].
    rewrite (list_equals_spec _ _ _ (λ t, t ≠ False3)) by (apply fold_and_not_false || naive_solver).
    rewrite Forall2_same_length_lookup in He |- *. destruct He as [Hl He]. split; [done|].
    rewrite Forall_lookup in Hn. intros i x y Hx Hy. eauto.
  - apply map_equivalent_spec in He. rewrite everywhere_map in Hn. destruct Hn as [_ Hn].
    rewrite (map_equals_spec _ _ _ (λ t, t ≠ False3)) by (apply fold_and_not_false || naive_solver).
    rewrite Forall_forall in Hn. revert He. apply map_match_impl. intros e yv Hin _. apply IH. by apply Hn.
  - rewrite point_equivalent_eq; [done| |done]. by apply everywhere_here in Hn.
Qed.

Lemma fold_and_not_null l : Forall (λ t, t ≠ Null3) l → foldr ternary_and True3 l ≠ Null3.
Proof. induction 1 as [|t l Ht Hl IH]; [done|]. simpl. by destruct t, (foldr _ _ _). Qed.

Lemma nesting_fold {A} (f : A → Value) (l : list A) x n :
  x ∈ l → (foldr (λ x n, Nat.max (S (nesting (f x))) n) O l < S n)%nat → (nesting (f x) < n)%nat.
Proof. intros Hin. induction Hin as [x l|x y l Hin IH]; simpl; lia. Qed.

(** Without nulls, within the levels left, the answer is definite. *)
Lemma equals_at_definite levels a b :
  everywhere no_null a → everywhere no_null b → (nesting a < levels)%nat →
  equals_at levels a b ≠ Null3.
Proof.
  revert a b. induction levels as [|levels IH]; intros a b Ha Hb Hd; [lia|]. cbn [equals_at].
  assert (value_is_null a || value_is_null b = false) as ->.
  { apply everywhere_here in Ha, Hb. by destruct a, b. }
  destruct (_ || _); [done|].
  destruct a, b; try done; cbn [deep_equals]; try (by destruct (bool_decide _)).
  - by destruct (_ =? _)%Z.
  - by destruct (int_float_equal _ _).
  - by destruct (int_float_equal _ _).
  - by destruct (f64_eqb _ _).
  - unfold list_equals. destruct (length items =? length items0)%nat; [|done]. simpl.
    rewrite list_equals_loop_fold, ternary_and_true_l by done. apply fold_and_not_null.
    rewrite everywhere_list in Ha, Hb. destruct Ha as [_ Ha], Hb as [_ Hb].
    rewrite Forall_forall in Ha, Hb. apply Forall_forall. intros t Ht.
    apply elem_of_zip_with in Ht as (x & y & -> & Hx & Hy). apply IH; [auto..|].
    by apply (nesting_fold (λ x, x) items).
  - unfold map_equals. destruct (length entries =? length entries0)%nat; [|done]. simpl.
    rewrite map_equals_loop_fold, ternary_and_true_l by done. apply fold_and_not_null.
    rewrite everywhere_map in Ha, Hb. destruct Ha as [_ Ha], Hb as [_ Hb].
    rewrite Forall_forall in Ha, Hb. apply Forall_fmap, Forall_forall. intros e He. simpl. unfold entry_equals.
    destruct (map_find e.1 entries0) as [yv|] eqn:Hf; [|done]. apply map_find_Some in Hf.
    apply IH; [by apply Ha|by apply (Hb _ Hf)|]. by apply (nesting_fold snd entries).
  - by destruct (value_eq _ _).
Qed.

(** ** Properties *)

(** C17: Grouping equivalence is a two-valued equivalence relation, and equivalent values make the
    same writes into any hasher, whatever the hash function of the entry hasher: a hash table
    keyed by [hash_value] and [equivalent] groups values consistently. It holds for every
    value whose maps, at every level, have no duplicate key. *)
Theorem grouping_key_laws finish a b c :
  typed a → typed b → typed c → distinct_keys a → distinct_keys b →
  equivalent a a = true ∧
  equivalent a b = equivalent b a ∧
  (equivalent a b = true → equivalent b c = true → equivalent a c = true) ∧
  (equivalent a b = true → hash_value finish a = hash_value finish b).
Proof.
  intros Ha Hb Hc Hda Hdb. split_and!.
  - by apply equivalent_refl.
  - apply eq_true_iff_eq. split; by apply equivalent_sym.
  - by apply equivalent_trans.
  - by apply hash_equivalent.
Qed.

(** [=] and grouping equivalence agree on which values are the same: whatever [=] reports
    equal is equivalent, for all values; and on values without nulls, without NaN, nested
    below the depth limit, [=] is the equivalence as a truth value. *)
Theorem equality_agrees_with_equivalence a b :
  (equals a b = True3 → equivalent a b = true) ∧
  (everywhere no_null a → everywhere no_null b → everywhere no_nan a →
   (nesting a < MAX_VALUE_DEPTH)%nat → equals a b = from_bool (equivalent a b)).
Proof.
  split; [apply equals_at_true|]. intros Ha Hb Hn Hd. unfold equals.
  pose proof (equals_at_definite _ a b Ha Hb Hd) as Hdef.
  destruct (equals_at MAX_VALUE_DEPTH a b) eqn:E; [|destruct (equivalent a b) eqn:He|done].
  - by rewrite (equals_at_true _ _ _ E).
  - by destruct (equals_at_not_false MAX_VALUE_DEPTH a b).
  - done.
Qed.

(** With a duplicate key, which map literals and the hash's own comment allow, the relation
    is neither reflexive nor symmetric: the map [{a: 1, a: 2}] is not equivalent to itself,
    and [{a: 1, a: 1}] is equivalent to [{a: 1, b: 5}] but not conversely. *)
Theorem duplicate_keys_break_equivalence :
  let dup := VMap [([97], VInteger 1); ([97], VInteger 2)] in
  let x := VMap [([97], VInteger 1); ([97], VInteger 1)] in
  let y := VMap [([97], VInteger 1); ([98], VInteger 5)] in
  equivalent dup dup = false ∧ equivalent x y = true ∧ equivalent y x = false.
Proof. done. Qed.
