(* ===== verification/CypherOrder.v ===== *)
(** The total order and the comparison operators of Cypher values (graphus-cypher
    ordering.rs, the comparison part of eval.rs).

    [cmp_values] is orderability, the order of [ORDER BY], [min] and [max]; like [equals] it
    carries the levels left before [MAX_VALUE_DEPTH]. [compare_values] is comparability, the
    partial relation of the operators; [satisfies_range] is the range predicate that index
    scans re-check. The theorems: orderability is a total preorder on all values; the three
    number relations and the operators are decided by the exact values; where two values are
    comparable, orderability refines comparability. *)
From S2P Require Import Prelude Float64 Compare CypherValue CypherEquality CypherEquivalence.
From stdpp Require Import options.

Open Scope N_scope.

(** ** ordering.rs *)

(** temporal_calc.rs: the average month. *)
Definition AVG_SECONDS_PER_MONTH : Z := 2_629_746.
Definition NANOS_PER_SECOND : Z := 1_000_000_000.
Definition AVG_NANOS_PER_MONTH : Z := (AVG_SECONDS_PER_MONTH * NANOS_PER_SECOND)%Z.

Definition class_rank (v : Value) : N :=
  match v with
  | VMap _ => 0
  | VList _ => 3
  | VPoint _ => 5
  | VZonedDateTime _ => 6
  | VLocalDateTime _ => 7
  | VDate _ => 8
  | VZonedTime _ => 9
  | VLocalTime _ => 10
  | VDuration _ => 11
  | VString _ => 12
  | VBytes _ => 13
  | VBoolean _ => 14
  | VInteger _ | VFloat _ => 15
  | VNull => 16
  end.

Definition cmp_int_float_ordering (i : Z) (f : f64) : comparison :=
  let by_magnitude := total_f64 (i64_as_f64 i) f in
  if negb (comparison_eqb by_magnitude Eq) then by_magnitude
  else match cmp_int_float i f with
       | Some Lt => Lt
       | Some Gt => Gt
       | Some Eq | None => Lt
       end.

(** The arithmetic is on [i128], which the components cannot overflow. *)
Definition duration_order_nanos (d : Duration) : Z :=
  (months d * AVG_NANOS_PER_MONTH + days d * Z.of_N NANOS_PER_DAY
   + seconds d * 1_000_000_000 + dur_nanos d)%Z.

(** The UTC instants that order zoned times and date-times. *)
Definition zoned_time_instant (t : ZonedTime) : Z :=
  wrapping_sub_i64 (as_i64 (nanos_of_day (zt_time t))) (zt_offset_seconds t * 1_000_000_000).

Definition zoned_date_time_utc (z : ZonedDateTime) : Z :=
  saturating_sub_i64 (epoch_seconds (local z)) (zdt_offset_seconds z).

Definition cmp_same_temporal (a b : Value) : comparison :=
  match a, b with
  | VDate x, VDate y => (days_since_epoch x ?= days_since_epoch y)%Z
  | VLocalTime x, VLocalTime y => nanos_of_day x ?= nanos_of_day y
  | VZonedTime x, VZonedTime y =>
      then_cmp (zoned_time_instant x ?= zoned_time_instant y)%Z
               (zt_offset_seconds x ?= zt_offset_seconds y)%Z
  | VLocalDateTime x, VLocalDateTime y =>
      then_cmp (epoch_seconds x ?= epoch_seconds y)%Z (ldt_nanos x ?= ldt_nanos y)
  | VZonedDateTime x, VZonedDateTime y =>
      then_cmp (then_cmp (then_cmp
        (zoned_date_time_utc x ?= zoned_date_time_utc y)%Z
        (ldt_nanos (local x) ?= ldt_nanos (local y)))
        (zdt_offset_seconds x ?= zdt_offset_seconds y)%Z)
        (bytes_cmp (zone_id x) (zone_id y))
  | VDuration x, VDuration y => (duration_order_nanos x ?= duration_order_nanos y)%Z
  | _, _ => Eq
  end.

(** [sort_by] on the keys: stable. *)
Fixpoint insert_entry (e : list N * Value) (l : list (list N * Value)) : list (list N * Value) :=
  match l with
  | [] => [e]
  | e' :: l' =>
      match bytes_cmp e.1 e'.1 with
      | Gt => e' :: insert_entry e l'
      | _ => e :: l
      end
  end.

Definition sort_entries (m : list (list N * Value)) : list (list N * Value) := foldr insert_entry [] m.

Section Containers.
(** The comparison of the elements, one level down. *)
Variable cmp : Value → Value → comparison.

Definition cmp_lists : list Value → list Value → comparison := lex cmp.

Definition cmp_maps (x y : list (list N * Value)) : comparison :=
  lex (λ xe ye, match bytes_cmp xe.1 ye.1 with Eq => cmp xe.2 ye.2 | other => other end)
      (sort_entries x) (sort_entries y).
End Containers.

(** [cmp_values_at] at depth [MAX_VALUE_DEPTH - levels]. *)
Fixpoint cmp_values_at (levels : nat) (a b : Value) : comparison :=
  if negb (class_rank a =? class_rank b) then class_rank a ?= class_rank b
  else match levels with
       | O => Eq
       | S levels =>
           match a, b with
           | VNull, VNull => Eq
           | VBoolean x, VBoolean y => bool_cmp x y
           | VString x, VString y => bytes_cmp x y
           | VBytes x, VBytes y => bytes_cmp x y
           | VList x, VList y => cmp_lists (cmp_values_at levels) x y
           | VMap x, VMap y => cmp_maps (cmp_values_at levels) x y
           | VPoint x, VPoint y => point_total_cmp x y
           | VDate _, _ | VLocalTime _, _ | VZonedTime _, _
           | VLocalDateTime _, _ | VZonedDateTime _, _ | VDuration _, _ => cmp_same_temporal a b
           | VInteger x, VInteger y => (x ?= y)%Z
           | VInteger x, VFloat y => cmp_int_float_ordering x y
           | VFloat x, VInteger y => CompOpp (cmp_int_float_ordering y x)
           | VFloat x, VFloat y => total_f64 x y
           | _, _ => Eq
           end
       end.

Definition cmp_values (a b : Value) : comparison := cmp_values_at MAX_VALUE_DEPTH a b.

Section CompareLists.
Variable compare : Value → Value → option comparison.

Fixpoint compare_lists (x y : list Value) : option comparison :=
  match x, y with
  | xe :: x', ye :: y' =>
      match compare xe ye with
      | Some Lt => Some Lt
      | Some Gt => Some Gt
      | Some Eq => compare_lists x' y'
      | None => None
      end
  | _, _ => Some (length x ?= length y)%nat
  end.
End CompareLists.

Fixpoint compare_values (a b : Value) : option comparison :=
  if value_is_null a || value_is_null b then None
  else match a, b with
       | VBoolean x, VBoolean y => Some (bool_cmp x y)
       | VString x, VString y => Some (bytes_cmp x y)
       | VBytes x, VBytes y => Some (bytes_cmp x y)
       | VList x, VList y => compare_lists compare_values x y
       | VMap _, VMap _ => None
       | VPoint x, VPoint y =>
           if bool_decide (crs x = crs y) then Some (point_total_cmp x y) else None
       | VInteger x, VInteger y => Some (x ?= y)%Z
       | VInteger x, VFloat y => cmp_int_float x y
       | VFloat x, VInteger y => CompOpp <$> cmp_int_float y x
       | VFloat x, VFloat y => f64_partial_cmp x y
       | VDate _, VDate _ | VLocalTime _, VLocalTime _ | VZonedTime _, VZonedTime _
       | VLocalDateTime _, VLocalDateTime _ | VZonedDateTime _, VZonedDateTime _
       | VDuration _, VDuration _ => Some (cmp_same_temporal a b)
       | _, _ => None
       end.

(** ** eval.rs: the operators and the range predicate *)

Inductive CompareOp := Lt_op | Gt_op | Lte_op | Gte_op.

Definition is_numeric (v : Value) : bool :=
  match v with VInteger _ | VFloat _ => true | _ => false end.

Definition op_holds (op : CompareOp) (ord : comparison) : bool :=
  match op with
  | Lt_op => comparison_eqb ord Lt
  | Gt_op => comparison_eqb ord Gt
  | Lte_op => negb (comparison_eqb ord Gt)
  | Gte_op => negb (comparison_eqb ord Lt)
  end.

Definition compare_op (op : CompareOp) (a b : Value) : Ternary :=
  if value_is_null a || value_is_null b then Null3
  else if (value_is_nan a && is_numeric b) || (value_is_nan b && is_numeric a) then False3
  else match compare_values a b with
       | None => Null3
       | Some ord => from_bool (op_holds op ord)
       end.

Definition satisfies_range (value : Value) (lower upper : option (Value * bool)) : bool :=
  let holds op bound := is_true (compare_op op value bound) in
  match lower with
  | Some (bound, inclusive) => holds (if inclusive then Gte_op else Gt_op) bound
  | None => true
  end &&
  match upper with
  | Some (bound, inclusive) => holds (if inclusive then Lte_op else Lt_op) bound
  | None => true
  end &&
  negb (value_is_null value).

(** ** Numbers *)

(** The double of a number's magnitude line, its exact value, and its type. *)
Definition number_double (v : Value) : f64 :=
  match v with VInteger i => i64_as_f64 i | VFloat f => f | _ => 0 end.

Definition number_exact (v : Value) : Z :=
  match numeric v with Some z => z | None => 0%Z end.

Definition number_tag (v : Value) : N := match v with VFloat _ => 1 | _ => 0 end.

Definition cmp_numbers (a b : Value) : comparison :=
  then_cmp (mono (number_double a) ?= mono (number_double b))
    (then_cmp (number_exact a ?= number_exact b)%Z (number_tag a ?= number_tag b)).

Lemma cmp_numbers_order P : CmpOrder P cmp_numbers.
Proof.
  apply then_cmp_order; [apply (N_key_order P (λ v, mono (number_double v)))|].
  apply then_cmp_order; [apply Z_key_order|apply N_key_order].
Qed.

Lemma as_f64_mono_lt_nan i f : is_i64 i → is_nan f = true → mono (i64_as_f64 i) < mono f.
Proof.
  intros Hi Hn. rewrite (mono_nan f) by done. destruct (as_f64_parts i Hi) as (_ & _ & Hf & _).
  apply mono_bound; [done|]. by apply as_f64_not_nan.
Qed.

Lemma cmp_int_int_numbers i j :
  is_i64 i → is_i64 j → (i ?= j)%Z = cmp_numbers (VInteger i) (VInteger j).
Proof.
  intros Hi Hj. unfold cmp_numbers, number_exact. cbn [number_double numeric number_tag].
  pose proof one_scaled_pos as Hu. destruct (Z.compare_spec i j) as [->|Hlt|Hgt].
  - by rewrite N.compare_refl, Z.compare_refl.
  - pose proof (mono_as_f64_le i j Hi Hj ltac:(lia)).
    destruct (N.compare_spec (mono (i64_as_f64 i)) (mono (i64_as_f64 j))); [simpl|done|lia].
    by rewrite (proj2 (Z.compare_lt_iff _ _)) by nia.
  - pose proof (mono_as_f64_le j i Hj Hi ltac:(lia)).
    destruct (N.compare_spec (mono (i64_as_f64 i)) (mono (i64_as_f64 j))); [simpl|lia|done].
    by rewrite (proj2 (Z.compare_gt_iff _ _)) by nia.
Qed.

Lemma cmp_int_float_numbers i f :
  is_i64 i → is_f64 f → cmp_int_float_ordering i f = cmp_numbers (VInteger i) (VFloat f).
Proof.
  intros Hi Hf. unfold cmp_int_float_ordering, cmp_numbers, total_f64, number_exact.
  cbn [number_double numeric number_tag]. rewrite cmp_int_float_spec by done.
  destruct (N.compare_spec (mono (i64_as_f64 i)) (mono f)) as [He|Hlt|Hgt]; [|done..].
  cbn [comparison_eqb negb then_cmp]. destruct (is_nan f) eqn:Hn.
  { pose proof (as_f64_mono_lt_nan i f Hi Hn). lia. }
  by destruct (_ ?= _)%Z.
Qed.

Lemma total_f64_numbers x y :
  is_f64 x → is_f64 y → total_f64 x y = cmp_numbers (VFloat x) (VFloat y).
Proof.
  intros Hx Hy. unfold cmp_numbers, total_f64, number_exact. cbn [number_double numeric number_tag].
  destruct (N.compare_spec (mono x) (mono y)) as [He|?|?]; [|done..]. cbn [then_cmp].
  destruct (is_nan x) eqn:Hnx, (is_nan y) eqn:Hny; [done| | |].
  - pose proof (mono_bound y Hy Hny). rewrite (mono_nan x) in He by done. lia.
  - pose proof (mono_bound x Hx Hnx). rewrite (mono_nan y) in He by done. lia.
  - by rewrite (mono_inj x y), Z.compare_refl.
Qed.

(** ** Points and temporals *)

Lemma total_f64_order P : CmpOrder P total_f64.
Proof. apply (N_key_order P mono). Qed.

Lemma point_cmp_order P : CmpOrder P point_total_cmp.
Proof.
  apply then_cmp_order; [apply (Z_key_order P (λ p, srid (crs p)))|].
  apply (cmp_on_key P (Forall (λ _, True)) coords (lex total_f64)); [|by intros; apply Forall_true|done].
  apply lex_order, total_f64_order.
Qed.

(** The accessors of a class; the default is never reached within the class. *)
Definition as_list (v : Value) : list Value := match v with VList l => l | _ => [] end.
Definition as_map (v : Value) : list (list N * Value) := match v with VMap m => m | _ => [] end.
Definition as_str (v : Value) : list N := match v with VString s | VBytes s => s | _ => [] end.
Definition as_bool (v : Value) : bool := match v with VBoolean b => b | _ => false end.
Definition as_point (v : Value) : Point :=
  match v with VPoint p => p | _ => {| crs := Cartesian; coord0 := 0; coord1 := 0; coord2 := 0 |} end.

(** The components a temporal class compares, in order. *)
Definition temporal_key (v : Value) : Z * (N * (Z * list N)) :=
  match v with
  | VDate d => (days_since_epoch d, (0, (0%Z, [])))
  | VLocalTime t => (0%Z, (nanos_of_day t, (0%Z, [])))
  | VZonedTime t => (zoned_time_instant t, (0, (zt_offset_seconds t, [])))
  | VLocalDateTime dt => (epoch_seconds dt, (ldt_nanos dt, (0%Z, [])))
  | VZonedDateTime z =>
      (zoned_date_time_utc z, (ldt_nanos (local z), (zdt_offset_seconds z, zone_id z)))
  | VDuration d => (duration_order_nanos d, (0, (0%Z, [])))
  | _ => (0%Z, (0, (0%Z, [])))
  end.

Definition cmp_temporal_key (x y : Z * (N * (Z * list N))) : comparison :=
  then_cmp (x.1 ?= y.1)%Z (then_cmp (x.2.1 ?= y.2.1)
    (then_cmp (x.2.2.1 ?= y.2.2.1)%Z (bytes_cmp x.2.2.2 y.2.2.2))).

Lemma cmp_temporal_key_order P : CmpOrder P cmp_temporal_key.
Proof.
  apply then_cmp_order; [apply (Z_key_order P fst)|].
  apply then_cmp_order; [apply (N_key_order P (λ x, x.2.1))|].
  apply then_cmp_order; [apply (Z_key_order P (λ x, x.2.2.1))|apply (bytes_key_order P (λ x, x.2.2.2))].
Qed.

Lemma then_cmp_eq_r a : then_cmp a Eq = a.
Proof. by destruct a. Qed.

Lemma cmp_same_temporal_key a b :
  class_rank a = class_rank b → (6 ≤ class_rank a ≤ 11) →
  cmp_same_temporal a b = cmp_temporal_key (temporal_key a) (temporal_key b).
Proof.
  intros Hr [Hlo Hhi]. unfold cmp_temporal_key. destruct a, b; try done; simpl in Hlo, Hhi; try lia;
    cbn [cmp_same_temporal temporal_key fst snd];
    rewrite ?Z.compare_refl, ?N.compare_refl, <- ?then_cmp_assoc; cbn [bytes_cmp lex length Nat.compare];
    by rewrite ?then_cmp_eq_r.
Qed.

(** ** Maps *)

Section EntryOrder.
Context (cmp : Value → Value → comparison) `{!CmpOrder typed cmp}.
#[local] Set Default Proof Using "All".

Definition cmp_entries (xe ye : list N * Value) : comparison :=
  match bytes_cmp xe.1 ye.1 with Eq => cmp xe.2 ye.2 | other => other end.

Lemma cmp_entries_order : CmpOrder (λ e, typed e.2) cmp_entries.
Proof.
  apply (cmp_ext _ (λ x y, then_cmp (bytes_cmp x.1 y.1) (cmp x.2 y.2))).
  - apply then_cmp_order; [apply (bytes_key_order _ fst)|].
    by apply (cmp_on_key (λ e, typed e.2) typed snd cmp).
  - intros x y _ _. unfold cmp_entries. by destruct (bytes_cmp _ _).
Qed.
End EntryOrder.

Lemma insert_entry_perm e l : insert_entry e l ≡ₚ e :: l.
Proof.
  induction l as [|e' l IH]; [done|]. simpl. destruct (bytes_cmp e.1 e'.1); [done..|].
  rewrite IH. apply Permutation_swap.
Qed.

Lemma sort_entries_perm m : sort_entries m ≡ₚ m.
Proof. induction m as [|e m IH]; [done|]. simpl. by rewrite insert_entry_perm, IH. Qed.

Lemma cmp_maps_order cmp :
  CmpOrder typed cmp → CmpOrder (λ m, Forall (λ e, typed e.2) m) (cmp_maps cmp).
Proof.
  intros Hc. apply (cmp_on_key _ (Forall (λ e, typed e.2)) sort_entries (lex (cmp_entries cmp))).
  - by apply lex_order, cmp_entries_order.
  - intros m Hm. by rewrite sort_entries_perm.
  - done.
Qed.

(** ** Orderability is a total preorder *)

(** The typed values of one class. *)
Definition in_class (r : N) (v : Value) : Prop := typed v ∧ class_rank v = r.

Section ClassOrder.
Context (levels : nat) (IH : CmpOrder typed (cmp_values_at levels)).
#[local] Set Default Proof Using "All".

(** Within a class, a comparison of two accessors. *)
Lemma class_on_key {B} r (Q : B → Prop) (c : B → B → comparison) (f : Value → B) :
  CmpOrder Q c → (∀ v, in_class r v → Q (f v)) →
  (∀ a b, in_class r a → in_class r b → cmp_values_at (S levels) a b = c (f a) (f b)) →
  CmpOrder (in_class r) (cmp_values_at (S levels)).
Proof. intros Hc HQ Hf. by apply (cmp_on_key _ Q f c). Qed.

Lemma map_class : CmpOrder (in_class 0) (cmp_values_at (S levels)).
Proof.
  apply (class_on_key 0 (λ m, Forall (λ e, typed e.2) m) (cmp_maps (cmp_values_at levels)) as_map).
  - by apply cmp_maps_order.
  - intros v [Hv Hr]. destruct v; try done. simpl. rewrite typed_map in Hv.
    apply (Forall_impl _ _ _ Hv). naive_solver.
  - intros a b [_ Ha] [_ Hb]. by destruct a, b.
Qed.

Lemma list_class : CmpOrder (in_class 3) (cmp_values_at (S levels)).
Proof.
  apply (class_on_key 3 (Forall typed) (lex (cmp_values_at levels)) as_list).
  - by apply lex_order.
  - intros v [Hv Hr]. destruct v; try done. by rewrite typed_list in Hv.
  - intros a b [_ Ha] [_ Hb]. by destruct a, b.
Qed.

Lemma temporal_class r : 6 ≤ r ≤ 11 → CmpOrder (in_class r) (cmp_values_at (S levels)).
Proof.
  intros Hr. apply (class_on_key r (λ _, True) cmp_temporal_key temporal_key);
    [apply cmp_temporal_key_order|done|].
  intros a b [_ Ha] [_ Hb]. rewrite <- cmp_same_temporal_key by (congruence || by rewrite Ha).
  cbn [cmp_values_at]. rewrite Ha, Hb, N.eqb_refl. cbn [negb].
  destruct a; try done; simpl in Ha; lia.
Qed.

Lemma number_class : CmpOrder (in_class 15) (cmp_values_at (S levels)).
Proof.
  apply (class_on_key 15 (λ _, True) cmp_numbers id); [apply cmp_numbers_order|done|].
  intros a b [Ha Hra] [Hb Hrb]. destruct a as [| |i|f| | | | | | | | | | |], b as [| |j|g| | | | | | | | | | |]; try done; cbn.
  - by apply cmp_int_int_numbers.
  - by apply cmp_int_float_numbers.
  - rewrite cmp_int_float_numbers by done.
    by rewrite <- (cmp_flip (CmpOrder := cmp_numbers_order (λ _, True))).
  - by apply total_f64_numbers.
Qed.

Lemma class_order r : CmpOrder (in_class r) (cmp_values_at (S levels)).
Proof.
  destruct (decide (6 ≤ r ≤ 11)) as [Ht|Ht]; [by apply temporal_class|].
  destruct (decide (r = 0)) as [->|]; [apply map_class|].
  destruct (decide (r = 3)) as [->|]; [apply list_class|].
  destruct (decide (r = 15)) as [->|]; [apply number_class|].
  destruct (decide (r = 5)) as [->|].
  { apply (class_on_key 5 (λ _, True) point_total_cmp as_point); [apply point_cmp_order|done|].
    intros a b [_ Ha] [_ Hb]. by destruct a, b. }
  destruct (decide (r = 14)) as [->|].
  { apply (class_on_key 14 (λ _, True) bool_cmp as_bool); [exact _|done|].
    intros a b [_ Ha] [_ Hb]. by destruct a, b. }
  destruct (decide (r = 12 ∨ r = 13)) as [Hs|].
  { apply (class_on_key r (λ _, True) bytes_cmp as_str); [exact _|done|].
    intros a b [_ Ha] [_ Hb]. destruct Hs; subst r; by destruct a, b. }
  apply cmp_trivial. intros a b [_ Ha] [_ Hb].
  destruct a; simpl in Ha; try lia; destruct b; simpl in Hb; try lia. done.
Qed.
End ClassOrder.

Lemma cmp_values_at_class levels a b :
  cmp_values_at levels a b =
  if class_rank a =? class_rank b then cmp_values_at levels a b else class_rank a ?= class_rank b.
Proof. destruct levels; cbn [cmp_values_at]; by destruct (class_rank a =? class_rank b). Qed.

Lemma cmp_values_at_order levels : CmpOrder typed (cmp_values_at levels).
Proof.
  induction levels as [|levels IH].
  - apply (cmp_by_class typed class_rank _ (cmp_values_at 0)); [|intros; apply cmp_values_at_class].
    intros r. apply cmp_trivial. intros x y [_ Hx] [_ Hy]. cbn [cmp_values_at].
    by rewrite Hx, Hy, N.eqb_refl.
  - apply (cmp_by_class typed class_rank _ (cmp_values_at (S levels)));
      [by apply class_order|intros; apply cmp_values_at_class].
Qed.

(** ** Comparability against orderability *)

Lemma number_double_typed v z :
  typed v → numeric v = Some z →
  is_f64 (number_double v) ∧ is_nan (number_double v) = false.
Proof.
  intros Hv Hz. destruct v as [| |i|f| | | | | | | | | | |]; try done; simpl in *.
  - split; [by apply as_f64_parts|by apply as_f64_not_nan].
  - by destruct (is_nan f).
Qed.

(** Two different numbers on one side of a double, one of them that double: the rounding of
    the other does not cross it. *)
Lemma mono_int_le_double i g :
  is_i64 i → is_f64 g → is_nan g = false → (i * Z.of_N one_scaled < scaled g)%Z →
  mono (i64_as_f64 i) ≤ mono g.
Proof.
  intros Hi Hg Hn Hlt. pose proof one_scaled_pos as Hu.
  destruct (as_f64_parts i Hi) as (_ & _ & Hf & _). pose proof (as_f64_not_nan i Hi).
  pose proof (round_le_double i g ltac:(lia)) as Hr. rewrite <- scaled_as_f64 in Hr by done.
  destruct (decide (scaled (i64_as_f64 i) = scaled g)) as [Heq|]; [|apply N.lt_le_incl, mono_lt; done || lia].
  destruct (scaled_eq _ _ Hf Hg Heq) as [->|[H0 _]]; [done|].
  rewrite scaled_as_f64 in H0 by done. assert (round_i64 i = 0%Z) as ->%round_i64_zero by nia.
  change (scaled (i64_as_f64 0)) with 0%Z in Heq. lia.
Qed.

Lemma mono_double_le_int f j :
  is_f64 f → is_i64 j → is_nan f = false → (scaled f < j * Z.of_N one_scaled)%Z →
  mono f ≤ mono (i64_as_f64 j).
Proof.
  intros Hf Hj Hn Hlt. pose proof one_scaled_pos as Hu.
  destruct (as_f64_parts j Hj) as (_ & _ & Hg & _). pose proof (as_f64_not_nan j Hj).
  pose proof (round_ge_double j f ltac:(lia)) as Hr. rewrite <- scaled_as_f64 in Hr by done.
  destruct (decide (scaled f = scaled (i64_as_f64 j))) as [Heq|]; [|apply N.lt_le_incl, mono_lt; done || lia].
  destruct (scaled_eq _ _ Hf Hg Heq) as [->|[_ H0]]; [done|].
  rewrite scaled_as_f64 in H0 by done. assert (round_i64 j = 0%Z) as ->%round_i64_zero by nia.
  change (scaled (i64_as_f64 0)) with 0%Z in Heq. lia.
Qed.

Lemma mono_numeric_le v w z t :
  typed v → typed w → numeric v = Some z → numeric w = Some t → (z < t)%Z →
  mono (number_double v) ≤ mono (number_double w).
Proof.
  intros Hv Hw Hz Ht Hlt. pose proof one_scaled_pos as Hu.
  destruct (number_double_typed v z Hv Hz) as [Hfv Hnv], (number_double_typed w t Hw Ht) as [Hfw Hnw].
  destruct v as [| |i|f| | | | | | | | | | |], w as [| |j|g| | | | | | | | | | |]; try done;
    cbn [numeric number_double] in *; rewrite ?Hnv, ?Hnw in *; simplify_eq.
  - apply mono_as_f64_le; [done..|nia].
  - by apply mono_int_le_double.
  - by apply mono_double_le_int.
  - by apply N.lt_le_incl, mono_lt.
Qed.

(** Numbers of different exact values are ordered by them. *)
Lemma cmp_numbers_decided a b x y :
  typed a → typed b → numeric a = Some x → numeric b = Some y → x ≠ y → cmp_numbers a b = (x ?= y)%Z.
Proof.
  intros Ha Hb Hx Hy Hne. unfold cmp_numbers, number_exact. rewrite Hx, Hy.
  destruct (Z.compare_spec x y) as [|Hlt|Hgt]; [done|..].
  - pose proof (mono_numeric_le a b x y Ha Hb Hx Hy Hlt).
    destruct (N.compare_spec (mono (number_double a)) (mono (number_double b))); done || lia.
  - pose proof (mono_numeric_le b a y x Hb Ha Hy Hx Hgt).
    destruct (N.compare_spec (mono (number_double a)) (mono (number_double b))); done || lia.
Qed.

(** The comparability of two numbers: undefined for NaN, else that of their exact values. *)
Definition exact_cmp (a b : Value) : option comparison :=
  x ← numeric a; y ← numeric b; Some (x ?= y)%Z.

Lemma compare_numbers_exact a b :
  typed a → typed b → is_number a → is_number b → compare_values a b = exact_cmp a b.
Proof.
  intros Ha Hb Hna Hnb. unfold exact_cmp. pose proof one_scaled_pos as Hu.
  destruct a as [| |i|f| | | | | | | | | | |], b as [| |j|g| | | | | | | | | | |]; try done;
    cbn [compare_values value_is_null orb numeric].
  - cbn [mbind option_bind]. f_equal. symmetry. generalize dependent (Z.of_N one_scaled). intros u Hu.
    destruct (Z.compare_spec i j); [subst; apply Z.compare_refl|apply Z.compare_lt_iff|apply Z.compare_gt_iff]; nia.
  - rewrite cmp_int_float_spec by done. by destruct (is_nan g).
  - rewrite cmp_int_float_spec by done. destruct (is_nan f); [done|]. cbn.
    by rewrite <- Z.compare_antisym.
  - unfold f64_partial_cmp. by destruct (is_nan f), (is_nan g).
Qed.

Lemma cmp_values_numbers levels a b :
  typed a → typed b → is_number a → is_number b → cmp_values_at (S levels) a b = cmp_numbers a b.
Proof.
  intros Ha Hb Hna Hnb.
  destruct a as [| |i|f| | | | | | | | | | |], b as [| |j|g| | | | | | | | | | |]; try done; cbn.
  - by apply cmp_int_int_numbers.
  - by apply cmp_int_float_numbers.
  - rewrite cmp_int_float_numbers by done.
    by rewrite <- (cmp_flip (CmpOrder := cmp_numbers_order (λ _, True))).
  - by apply total_f64_numbers.
Qed.

Lemma equals_numbers levels a b :
  typed a → typed b → is_number a → is_number b →
  equals_at (S levels) a b = match exact_cmp a b with Some Eq => True3 | _ => False3 end.
Proof.
  intros Ha Hb Hna Hnb. rewrite <- (compare_numbers_exact a b) by done.
  destruct a as [| |i|f| | | | | | | | | | |], b as [| |j|g| | | | | | | | | | |]; try done;
    cbn [equals_at value_is_null value_is_nan orb deep_equals compare_values].
  - destruct (Z.eqb_spec i j) as [->|]; [by rewrite Z.compare_refl|].
    destruct (Z.compare_spec i j); done || lia.
  - unfold int_float_equal. destruct (is_nan g) eqn:Hn; [by rewrite cmp_int_float_spec, Hn|].
    by destruct (cmp_int_float i g) as [[]|].
  - rewrite orb_false_r. unfold int_float_equal.
    destruct (is_nan f) eqn:Hn; [by rewrite cmp_int_float_spec, Hn|].
    by destruct (cmp_int_float j f) as [[]|].
  - unfold f64_eqb, f64_partial_cmp. destruct (is_nan f || is_nan g); [done|].
    by destruct (_ ?= _)%Z.
Qed.

Lemma compare_scalar_refines levels a b o :
  typed a → typed b → is_scalar a → compare_values a b = Some o → o ≠ Eq →
  cmp_values_at (S levels) a b = o.
Proof.
  intros Ha Hb Hs Hc Ho. destruct (is_number a && is_number b) eqn:Hn.
  { apply andb_true_iff in Hn as [Hna%Is_true_true Hnb%Is_true_true].
    rewrite cmp_values_numbers by done. rewrite compare_numbers_exact in Hc by done.
    unfold exact_cmp in Hc. destruct (numeric a) as [x|] eqn:Hx; [|done].
    destruct (numeric b) as [y|] eqn:Hy; [|done]. simplify_option_eq.
    apply cmp_numbers_decided; [done..|]. intros ->. by rewrite Z.compare_refl in Ho. }
  destruct a, b; try done; cbn [compare_values value_is_null orb] in Hc; try congruence;
    cbn -[point_total_cmp cmp_same_temporal]; try congruence.
  by case_bool_decide; simplify_eq.
Qed.

(** The operators on numbers. *)
Lemma compare_op_exact op a b :
  typed a → typed b → is_number a → is_number b →
  compare_op op a b = match exact_cmp a b with Some o => from_bool (op_holds op o) | None => False3 end.
Proof.
  intros Ha Hb Hna Hnb. unfold compare_op. rewrite compare_numbers_exact by done. unfold exact_cmp.
  destruct a as [| | |f| | | | | | | | | | |], b as [| | |g| | | | | | | | | | |]; try done;
    cbn [value_is_null value_is_nan is_numeric numeric]; try destruct (is_nan f); try destruct (is_nan g); done.
Qed.

(** ** Properties *)

(** C15: Orderability is a total preorder over all values, across classes, nulls, NaN and nesting
    beyond the depth cap: exchanging the operands reverses the result, it is transitive, and
    values that compare equal are interchangeable in every comparison, which is what a
    comparison sort requires of its comparator. *)
Theorem orderability_total_preorder a b c :
  typed a → typed b → typed c →
  cmp_values b a = CompOpp (cmp_values a b) ∧
  (cmp_values a b ≠ Gt → cmp_values b c ≠ Gt → cmp_values a c ≠ Gt) ∧
  (cmp_values a b = Eq → cmp_values a c = cmp_values b c).
Proof.
  intros Ha Hb Hc. pose proof (cmp_values_at_order MAX_VALUE_DEPTH) as Ho. split_and!.
  - by apply (cmp_flip (CmpOrder := Ho)).
  - by apply (cmp_le_trans typed).
  - by apply (cmp_eq_l (CmpOrder := Ho)).
Qed.

(** C16: On numbers the relations decide by the exact values, as if both operands were
    unlimited-precision numbers: [=] is true exactly when they coincide; [compare_values]
    compares them and has no answer for NaN, so that an operator holds of two numbers exactly
    when it holds of their values and is false if one is NaN; grouping identifies equal numbers
    and all NaN. [ORDER BY] sorts numbers of different values by their values; numbers of the
    same value need not tie, as [1] and [1.0] or the signed zeros do not. *)
Theorem numbers_compared_exactly a b :
  typed a → typed b → is_number a → is_number b →
  equals a b = match exact_cmp a b with Some Eq => True3 | _ => False3 end ∧
  compare_values a b = exact_cmp a b ∧
  (∀ op, compare_op op a b = match exact_cmp a b with Some o => from_bool (op_holds op o) | None => False3 end) ∧
  (equivalent a b = true ↔ numeric a = numeric b) ∧
  (∀ o, exact_cmp a b = Some o → o ≠ Eq → cmp_values a b = o).
Proof.
  intros Ha Hb Hna Hnb. split_and!.
  - by apply equals_numbers.
  - by apply compare_numbers_exact.
  - intros op. by apply compare_op_exact.
  - assert (equivalent a b = num_equivalent a b) as ->
      by (destruct a; try done; by destruct b).
    rewrite num_equivalent_spec by done. apply bool_decide_eq_true.
  - intros o Ho Hne. apply compare_scalar_refines; [done..| |by rewrite compare_numbers_exact|done].
    by destruct a.
Qed.

(** Where the operators find two scalars comparable and different, [ORDER BY] sorts them the
    same way: orderability refines comparability on every scalar class. *)
Theorem orderability_refines_comparability a b o :
  typed a → typed b → is_scalar a → compare_values a b = Some o → o ≠ Eq → cmp_values a b = o.
Proof. apply compare_scalar_refines. Qed.

(** Maps are compared entry by entry in key order, each value before the next key: the maps
    [{a: 2, b: 1}] and [{a: 1, c: 1}] are ordered by the value of [a], although the key
    sequence [a, b] precedes [a, c]. *)
Theorem maps_compared_entry_by_entry :
  cmp_values (VMap [([97], VInteger 2); ([98], VInteger 1)])
             (VMap [([97], VInteger 1); ([99], VInteger 1)]) = Gt ∧
  lex bytes_cmp [[97]; [98]] [[97]; [99]] = Lt.
Proof. split; vm_compute; reflexivity. Qed.

(** Distinct values can tie: a month and the days and seconds of the average month are not
    equal, not equivalent, and compare equal in the order, which is thus not antisymmetric. *)
Theorem durations_tie :
  let month := VDuration {| months := 1; days := 0; seconds := 0; dur_nanos := 0 |} in
  let average := VDuration {| months := 0; days := 30; seconds := 37_746; dur_nanos := 0 |} in
  cmp_values month average = Eq ∧ equals month average = False3 ∧ equivalent month average = false.
Proof. split_and!; vm_compute; reflexivity. Qed.
