(* ===== verification/KeyCodec.v ===== *)
(** The order-preserving key encoding of the indexes (graphus-index keycodec.rs).

    A key is compared byte by byte. [orders P enc c] says that, on the values of [P], the
    encoding [enc] carries the comparison [c]: the bytes of two encodings, whatever follows
    them, compare as [c] does and are equal only where [c] is a tie; it implies that no
    encoding is a proper prefix of another. The encodings of the fields are composed from
    those of big-endian integers and of the escaped byte strings. *)
From S2P Require Import Prelude Core Bytes Float64 Compare CypherValue CypherEquality CypherEquivalence CypherOrder.
From stdpp Require Import options.

Open Scope N_scope.

(** [to_be_bytes]. *)
Definition to_be_bytes (w : nat) (n : N) : bytes := reverse (to_le_bytes w n).

(** ** keycodec.rs *)

Module tag.
Definition POINT : N := 0x08.
Definition ZONED_DATE_TIME : N := 0x10.
Definition LOCAL_DATE_TIME : N := 0x11.
Definition DATE : N := 0x12.
Definition ZONED_TIME : N := 0x13.
Definition LOCAL_TIME : N := 0x14.
Definition DURATION : N := 0x15.
Definition STRING : N := 0x20.
Definition BYTES : N := 0x28.
Definition BOOL : N := 0x30.
Definition NUMBER : N := 0x40.
End tag.

Module numtag.
Definition INTEGER : N := 0x00.
Definition FLOAT : N := 0x01.
End numtag.

Inductive KeyEncodeError := Unindexable (what : string).

(** [Result<A, KeyEncodeError>]. *)
Inductive KResult (A : Type) := KOk (a : A) | KErr (e : KeyEncodeError).
Arguments KOk {A} a.
Arguments KErr {A} e.

#[export] Instance KResult_bind : MBind KResult :=
  λ A B f m, match m with KOk a => f a | KErr e => KErr e end.

Definition encode_i64_bits (v : Z) : bytes := to_be_bytes 8 (N.lxor (as_u64 v) sign_mask).

(** [v as u32] and [v as u128] keep the low bits. *)
Definition encode_i32_bits (v : Z) : bytes :=
  to_be_bytes 4 (N.lxor (Z.to_N (v mod 2 ^ 32)) 0x8000_0000).

Definition encode_u64_bits (v : N) : bytes := to_be_bytes 8 v.

Definition encode_u32_bits (v : N) : bytes := to_be_bytes 4 v.

Definition encode_i128_bits (v : Z) : bytes :=
  to_be_bytes 16 (N.lxor (Z.to_N (v mod 2 ^ 128)) (2 ^ 127)).

Definition f64_key (v : f64) : N :=
  let bits := if is_nan v then 0x7FF8_0000_0000_0000 else v in
  let mask := if negb (N.land bits sign_mask =? 0) then u64_max else sign_mask in
  N.lxor bits mask.

Definition encode_f64_bits (v : f64) : bytes := to_be_bytes 8 (f64_key v).

Definition encode_integer (into : bytes) (v : Z) : bytes :=
  (into ++ encode_f64_bits (i64_as_f64 v)) ++ [numtag.INTEGER].

Definition encode_float (into : bytes) (v : f64) : bytes :=
  (into ++ encode_f64_bits v) ++ [numtag.FLOAT].

Definition encode_number (into : bytes) (v : Value) : KResult bytes :=
  match v with
  | VInteger i => KOk (encode_integer into i)
  | VFloat f => KOk (encode_float into f)
  | _ => KErr (Unindexable "non-number")
  end.

Fixpoint push_payload (into payload : bytes) : bytes :=
  match payload with
  | [] => into
  | b :: payload =>
      push_payload (if b =? 0 then into ++ [0x00; 0xFF] else into ++ [b]) payload
  end.

Definition push_var (into payload : bytes) : bytes := push_payload into payload ++ [0x00; 0x00].

Definition encode_temporal (into : bytes) (v : Value) : KResult bytes :=
  match v with
  | VDate d => KOk (into ++ encode_i64_bits (days_since_epoch d))
  | VLocalTime t => KOk (into ++ encode_u64_bits (nanos_of_day t))
  | VZonedTime zt =>
      let instant := wrapping_sub_i64 (as_i64 (nanos_of_day (zt_time zt)))
                                      (zt_offset_seconds zt * 1_000_000_000) in
      KOk ((into ++ encode_i64_bits instant) ++ encode_i32_bits (zt_offset_seconds zt))
  | VLocalDateTime dt =>
      KOk ((into ++ encode_i64_bits (epoch_seconds dt)) ++ encode_u32_bits (ldt_nanos dt))
  | VZonedDateTime zdt =>
      let utc_seconds := saturating_sub_i64 (epoch_seconds (local zdt)) (zdt_offset_seconds zdt) in
      KOk (push_var (((into ++ encode_i64_bits utc_seconds)
                      ++ encode_u32_bits (ldt_nanos (local zdt)))
                     ++ encode_i32_bits (zdt_offset_seconds zdt)) (zone_id zdt))
  | VDuration d => KOk (into ++ encode_i128_bits (duration_order_nanos d))
  | _ => KErr (Unindexable "non-temporal")
  end.

Definition encode_point (into : bytes) (v : Value) : KResult bytes :=
  match v with
  | VPoint p =>
      KOk (fold_left (λ out c, out ++ encode_f64_bits c) (coords p)
             (into ++ encode_i64_bits (srid (crs p))))
  | _ => KErr (Unindexable "non-point")
  end.

Definition encode_value (into : bytes) (v : Value) : KResult bytes :=
  match v with
  | VBoolean b => KOk ((into ++ [tag.BOOL]) ++ [if b then 1 else 0])
  | VInteger _ | VFloat _ => encode_number (into ++ [tag.NUMBER]) v
  | VString s => KOk (push_var (into ++ [tag.STRING]) s)
  | VBytes b => KOk (push_var (into ++ [tag.BYTES]) b)
  | VZonedDateTime _ => encode_temporal (into ++ [tag.ZONED_DATE_TIME]) v
  | VLocalDateTime _ => encode_temporal (into ++ [tag.LOCAL_DATE_TIME]) v
  | VDate _ => encode_temporal (into ++ [tag.DATE]) v
  | VZonedTime _ => encode_temporal (into ++ [tag.ZONED_TIME]) v
  | VLocalTime _ => encode_temporal (into ++ [tag.LOCAL_TIME]) v
  | VDuration _ => encode_temporal (into ++ [tag.DURATION]) v
  | VPoint _ => encode_point (into ++ [tag.POINT]) v
  | VNull => KErr (Unindexable "Null")
  | VList _ => KErr (Unindexable "List")
  | VMap _ => KErr (Unindexable "Map")
  end.

Definition encode_single (v : Value) : KResult bytes := encode_value [] v.

Definition encode_equality_canonical (v : Value) : KResult bytes :=
  match v with
  | VInteger i =>
      if (f64_as_i64 (i64_as_f64 i) =? i)%Z
      then KOk ([tag.NUMBER] ++ encode_f64_bits (i64_as_f64 i))
      else KOk ([numtag.INTEGER] ++ encode_i64_bits i)
  | VFloat f =>
      if is_nan f then KErr (Unindexable "NaN")
      else KOk ([tag.NUMBER] ++ encode_f64_bits f)
  | _ => encode_single v
  end.

Fixpoint encode_fields (out : bytes) (fields : list Value) : KResult bytes :=
  match fields with
  | [] => KOk out
  | f :: fields => out ← encode_value out f; encode_fields out fields
  end.

Definition encode_composite (fields : list Value) : KResult bytes := encode_fields [] fields.

Definition with_token_prefix (token : N) (encoded_tail : bytes) : bytes :=
  to_be_bytes 4 token ++ encoded_tail.

(** ** Encodings that carry an order *)

Definition orders {A} (P : A → Prop) (enc : A → bytes) (c : A → A → comparison) : Prop :=
  ∀ x y s t, P x → P y → bytes_cmp (enc x ++ s) (enc y ++ t) = then_cmp (c x y) (bytes_cmp s t).

Lemma bytes_cmp_cons a b s t : bytes_cmp (a :: s) (b :: t) = then_cmp (a ?= b) (bytes_cmp s t).
Proof. unfold bytes_cmp. cbn [lex]. by destruct (a ?= b). Qed.

Lemma orders_ext {A} (P : A → Prop) enc c enc' c' :
  orders P enc c → (∀ x, P x → enc' x = enc x) → (∀ x y, P x → P y → c' x y = c x y) →
  orders P enc' c'.
Proof. intros Ho He Hc x y s t Hx Hy. rewrite !He, Hc by done. by apply Ho. Qed.

Lemma orders_key {A B} (P : A → Prop) (Q : B → Prop) enc c (f : A → B) :
  orders Q enc c → (∀ x, P x → Q (f x)) → orders P (λ x, enc (f x)) (λ x y, c (f x) (f y)).
Proof. intros Ho HQ x y s t Hx Hy. apply Ho; auto. Qed.

Lemma orders_app {A} (P : A → Prop) enc1 enc2 c1 c2 :
  orders P enc1 c1 → orders P enc2 c2 →
  orders P (λ x, enc1 x ++ enc2 x) (λ x y, then_cmp (c1 x y) (c2 x y)).
Proof.
  intros H1 H2 x y s t Hx Hy. rewrite <- !app_assoc, H1, H2 by done. by rewrite then_cmp_assoc.
Qed.

Lemma orders_byte P : orders P (λ b, [b]) N.compare.
Proof. intros x y s t _ _. apply bytes_cmp_cons. Qed.

Lemma orders_nil {A} (P : A → Prop) : orders P (λ _, []) (λ _ _, Eq).
Proof. done. Qed.

(** An encoding that carries an order is injective up to ties and prefix-free. *)
Lemma orders_cmp {A} (P : A → Prop) enc c x y :
  orders P enc c → P x → P y → bytes_cmp (enc x) (enc y) = c x y.
Proof.
  intros Ho Hx Hy. pose proof (Ho x y [] [] Hx Hy) as H. rewrite !app_nil_r in H.
  rewrite H. by destruct (c x y).
Qed.

(** ** Integers *)

Lemma to_be_bytes_snoc w n : to_be_bytes (S w) n = to_be_bytes w (n / 256) ++ [n mod 256].
Proof. unfold to_be_bytes. cbn [to_le_bytes]. by rewrite reverse_cons. Qed.

Lemma to_be_bytes_length w n : length (to_be_bytes w n) = w.
Proof. unfold to_be_bytes. by rewrite length_reverse, to_le_bytes_length. Qed.

Lemma div_mod_cmp n m b :
  0 < b → then_cmp (n / b ?= m / b) (n mod b ?= m mod b) = (n ?= m).
Proof.
  intros Hb. pose proof (N.div_mod n b ltac:(lia)) as Hn. pose proof (N.div_mod m b ltac:(lia)) as Hm.
  pose proof (N.mod_lt n b ltac:(lia)). pose proof (N.mod_lt m b ltac:(lia)).
  generalize dependent (n / b). generalize dependent (n mod b). generalize dependent (m / b).
  generalize dependent (m mod b). intros rm Hrm qm -> rn Hrn qn ->.
  destruct (N.compare_spec qn qm) as [->|Hlt|Hgt]; cbn [then_cmp]; symmetry.
  - destruct (N.compare_spec rn rm) as [->|?|?];
      [apply N.compare_refl|apply N.compare_lt_iff|apply N.compare_gt_iff]; lia.
  - assert (b * (qn + 1) ≤ b * qm) by (apply N.mul_le_mono_l; lia). apply N.compare_lt_iff. lia.
  - assert (b * (qm + 1) ≤ b * qn) by (apply N.mul_le_mono_l; lia). apply N.compare_gt_iff. lia.
Qed.

Lemma orders_be w : orders (λ n, n < 256 ^ N.of_nat w) (to_be_bytes w) N.compare.
Proof.
  induction w as [|w IH].
  - apply (orders_ext _ (λ _, []) (λ _ _, Eq)); [apply orders_nil|done|].
    intros x y Hx Hy. simpl in Hx, Hy. apply N.compare_eq_iff. lia.
  - apply (orders_ext _ (λ n, to_be_bytes w (n / 256) ++ [n mod 256])
             (λ n m, then_cmp (n / 256 ?= m / 256) (n mod 256 ?= m mod 256))).
    + apply orders_app.
      * apply (orders_key _ (λ n, n < 256 ^ N.of_nat w) _ _ (λ n, n / 256)); [done|].
        intros n Hn. apply N.Div0.div_lt_upper_bound.
        rewrite Nat2N.inj_succ, N.pow_succ_r' in Hn. done.
      * apply (orders_key _ (λ _, True) (λ b, [b]) N.compare (λ n, n mod 256)); [apply orders_byte|done].
    + intros n _. apply to_be_bytes_snoc.
    + intros n m _ _. symmetry. by apply div_mod_cmp.
Qed.

(** Flipping the sign bit shifts a two's-complement integer up by half the range. *)
Lemma flip_sign k v :
  (- 2 ^ Z.of_N k ≤ v < 2 ^ Z.of_N k)%Z →
  N.lxor (Z.to_N (v mod 2 ^ Z.of_N (N.succ k))) (2 ^ k) = Z.to_N (v + 2 ^ Z.of_N k).
Proof.
  intros Hv. assert (∀ r, r < 2 ^ k → N.lxor r (2 ^ k) = r + 2 ^ k) as Hx.
  { intros r Hr. symmetry. apply N.add_nocarry_lxor, N.bits_inj_0. intros m.
    rewrite N.land_spec, N.pow2_bits_eqb. destruct (N.eqb_spec k m) as [<-|]; [|apply andb_false_r].
    destruct (decide (r = 0)) as [->|]; [done|].
    by rewrite N.bits_above_log2; [|apply N.log2_lt_pow2; [lia|]]. }
  assert (Z.of_N (2 ^ k) = 2 ^ Z.of_N k)%Z as Hk by (by rewrite N2Z.inj_pow).
  rewrite N2Z.inj_succ, Z.pow_succ_r by lia. destruct (decide (0 ≤ v)%Z).
  - rewrite Z.mod_small by lia. rewrite Hx by lia. lia.
  - rewrite <- (Z.mod_unique v (2 * 2 ^ Z.of_N k) (-1) (v + 2 * 2 ^ Z.of_N k)) by lia.
    replace (Z.to_N (v + 2 * 2 ^ Z.of_N k)) with (Z.to_N (v + 2 ^ Z.of_N k) + 2 ^ k) by lia.
    rewrite <- Hx by lia. by rewrite N.lxor_assoc, N.lxor_nilpotent, N.lxor_0_r.
Qed.

Lemma orders_signed w k :
  256 ^ N.of_nat w = 2 ^ N.succ k →
  orders (λ v, - 2 ^ Z.of_N k ≤ v < 2 ^ Z.of_N k)%Z
    (λ v, to_be_bytes w (N.lxor (Z.to_N (v mod 2 ^ Z.of_N (N.succ k))) (2 ^ k))) Z.compare.
Proof.
  intros Hw. apply (orders_ext _ (λ v, to_be_bytes w (Z.to_N (v + 2 ^ Z.of_N k)))
    (λ x y, Z.to_N (x + 2 ^ Z.of_N k) ?= Z.to_N (y + 2 ^ Z.of_N k))).
  - apply (orders_key _ (λ n, n < 256 ^ N.of_nat w) _ _ (λ v, Z.to_N (v + 2 ^ Z.of_N k))); [apply orders_be|].
    intros v Hv. rewrite Hw, N.pow_succ_r'.
    assert (Z.of_N (2 ^ k) = 2 ^ Z.of_N k)%Z as Hk by (by rewrite N2Z.inj_pow). lia.
  - intros v Hv. by rewrite flip_sign.
  - intros x y Hx Hy. rewrite Z2N.inj_compare by lia.
    destruct (Z.compare_spec x y) as [->|?|?]; symmetry;
      [apply Z.compare_refl|apply Z.compare_lt_iff|apply Z.compare_gt_iff]; lia.
Qed.

Lemma orders_i64 : orders is_i64 encode_i64_bits Z.compare.
Proof. exact (orders_signed 8 63 eq_refl). Qed.

Lemma orders_i32 : orders is_i32 encode_i32_bits Z.compare.
Proof. exact (orders_signed 4 31 eq_refl). Qed.

Lemma orders_i128 : orders (λ v, - 2 ^ 127 ≤ v < 2 ^ 127)%Z encode_i128_bits Z.compare.
Proof. exact (orders_signed 16 127 eq_refl). Qed.

Lemma orders_u64 : orders is_u64 encode_u64_bits N.compare.
Proof. exact (orders_be 8). Qed.

Lemma orders_u32 : orders is_u32 encode_u32_bits N.compare.
Proof. exact (orders_be 4). Qed.

(** ** Floats and byte strings *)

Lemma f64_key_nan x : is_nan x = true → f64_key x = 0xFFF8_0000_0000_0000.
Proof. unfold f64_key. by intros ->. Qed.

Lemma f64_key_mono x : is_nan x = false → f64_key x = mono x.
Proof. unfold f64_key, mono. intros ->. by destruct (negb _). Qed.

Lemma mono_le_infinity x : is_f64 x → is_nan x = false → mono x ≤ 0xFFF0_0000_0000_0000.
Proof.
  intros Hx Hn. rewrite mono_not_nan by done. apply N.ltb_ge in Hn. unfold infinity_bits in Hn.
  destruct (f64_sign x); lia.
Qed.

Lemma f64_key_cmp x y : is_f64 x → is_f64 y → (f64_key x ?= f64_key y) = total_f64 x y.
Proof.
  intros Hx Hy. unfold total_f64. destruct (is_nan x) eqn:Hnx, (is_nan y) eqn:Hny;
    rewrite ?(f64_key_nan x), ?(f64_key_nan y), ?(f64_key_mono x), ?(f64_key_mono y),
      ?(mono_nan x), ?(mono_nan y) by done.
  - done.
  - pose proof (mono_le_infinity y Hy Hny). pose proof (mono_bound y Hy Hny).
    by rewrite !(proj2 (N.compare_gt_iff _ _)) by lia.
  - pose proof (mono_le_infinity x Hx Hnx). pose proof (mono_bound x Hx Hnx).
    by rewrite !(proj2 (N.compare_lt_iff _ _)) by lia.
  - done.
Qed.

Lemma f64_key_u64 x : is_f64 x → f64_key x < 2 ^ 64.
Proof.
  intros Hx. destruct (is_nan x) eqn:Hn; [by rewrite f64_key_nan|].
  rewrite f64_key_mono by done. pose proof (mono_le_infinity x Hx Hn). lia.
Qed.

Lemma orders_f64 : orders is_f64 encode_f64_bits total_f64.
Proof.
  apply (orders_ext _ (λ x, to_be_bytes 8 (f64_key x)) (λ x y, f64_key x ?= f64_key y)).
  - apply (orders_key _ _ _ _ f64_key (orders_be 8)). apply f64_key_u64.
  - done.
  - intros x y Hx Hy. by rewrite f64_key_cmp.
Qed.

(** The framed payload: zeros escaped, two zeros at the end. *)
Fixpoint framed (payload : bytes) : bytes :=
  match payload with
  | [] => [0x00; 0x00]
  | b :: payload => (if b =? 0 then [0x00; 0xFF] else [b]) ++ framed payload
  end.

Lemma push_var_framed into payload : push_var into payload = into ++ framed payload.
Proof.
  unfold push_var. revert into. induction payload as [|b payload IH]; intros into; [done|].
  cbn [push_payload framed]. rewrite IH. destruct (b =? 0); by rewrite <- app_assoc.
Qed.

Lemma orders_framed : orders (λ _, True) framed bytes_cmp.
Proof.
  intros x. induction x as [|a x IH]; intros [|b y] s t _ _; cbn [framed app].
  - by rewrite !bytes_cmp_cons.
  - destruct (N.eqb_spec b 0) as [->|Hb]; cbn [app]; rewrite !bytes_cmp_cons; [done|].
    by rewrite (proj2 (N.compare_lt_iff 0 b)) by lia.
  - destruct (N.eqb_spec a 0) as [->|Ha]; cbn [app]; rewrite !bytes_cmp_cons; [done|].
    by rewrite (proj2 (N.compare_gt_iff a 0)) by lia.
  - rewrite (bytes_cmp_cons a b x y), then_cmp_assoc, <- (IH y s t) by done.
    destruct (N.eqb_spec a 0) as [->|Ha], (N.eqb_spec b 0) as [->|Hb]; cbn [app];
      rewrite !bytes_cmp_cons; [done|..].
    + by rewrite (proj2 (N.compare_lt_iff 0 b)) by lia.
    + by rewrite (proj2 (N.compare_gt_iff a 0)) by lia.
    + done.
Qed.

(** ** The bytes of a field *)

Definition indexable (v : Value) : bool :=
  match v with VNull | VList _ | VMap _ => false | _ => true end.

Definition key_tag (v : Value) : N :=
  match v with
  | VPoint _ => tag.POINT
  | VZonedDateTime _ => tag.ZONED_DATE_TIME
  | VLocalDateTime _ => tag.LOCAL_DATE_TIME
  | VDate _ => tag.DATE
  | VZonedTime _ => tag.ZONED_TIME
  | VLocalTime _ => tag.LOCAL_TIME
  | VDuration _ => tag.DURATION
  | VString _ => tag.STRING
  | VBytes _ => tag.BYTES
  | VBoolean _ => tag.BOOL
  | VInteger _ | VFloat _ => tag.NUMBER
  | VNull | VList _ | VMap _ => 0
  end.

Definition point_bytes (p : Point) : bytes :=
  encode_i64_bits (srid (crs p)) ++ concat (encode_f64_bits <$> coords p).

Definition zoned_date_time_bytes (z : ZonedDateTime) : bytes :=
  encode_i64_bits (zoned_date_time_utc z) ++ encode_u32_bits (ldt_nanos (local z)) ++
  encode_i32_bits (zdt_offset_seconds z) ++ framed (zone_id z).

Definition key_payload (v : Value) : bytes :=
  match v with
  | VPoint p => point_bytes p
  | VZonedDateTime z => zoned_date_time_bytes z
  | VLocalDateTime dt => encode_i64_bits (epoch_seconds dt) ++ encode_u32_bits (ldt_nanos dt)
  | VDate d => encode_i64_bits (days_since_epoch d)
  | VZonedTime t => encode_i64_bits (zoned_time_instant t) ++ encode_i32_bits (zt_offset_seconds t)
  | VLocalTime t => encode_u64_bits (nanos_of_day t)
  | VDuration d => encode_i128_bits (duration_order_nanos d)
  | VString s | VBytes s => framed s
  | VBoolean b => [if b then 1 else 0]
  | VInteger _ | VFloat _ => encode_f64_bits (number_double v) ++ [number_tag v]
  | VNull | VList _ | VMap _ => []
  end.

Definition key_bytes (v : Value) : bytes := key_tag v :: key_payload v.

Lemma fold_left_app (f : f64 → bytes) l into :
  fold_left (λ out c, out ++ f c) l into = into ++ concat (f <$> l).
Proof.
  revert into. induction l as [|x l IH]; intros into; simpl; [by rewrite app_nil_r|].
  by rewrite IH, <- app_assoc.
Qed.

(** A field is appended to the buffer, or rejected. *)
Lemma encode_field_spec into v :
  if indexable v then encode_value into v = KOk (into ++ key_bytes v)
  else ∃ e, encode_value into v = KErr e.
Proof.
  destruct v; cbn [indexable]; try (by eexists);
    cbn [encode_value encode_number encode_temporal encode_point];
    unfold encode_integer, encode_float, key_bytes, key_payload, zoned_date_time_bytes, point_bytes;
    cbn [key_tag number_double number_tag]; rewrite ?push_var_framed, ?fold_left_app;
    fold (zoned_time_instant t) || fold (zoned_date_time_utc dt) || idtac;
    by rewrite <- ?app_assoc.
Qed.

(** ** The order of the fields *)

(** Sequences of the same length: the first difference decides. *)
Lemma orders_concat {A} (P : A → Prop) enc c x y s t :
  orders P enc c → Forall P x → Forall P y → length x = length y →
  bytes_cmp (concat (enc <$> x) ++ s) (concat (enc <$> y) ++ t) =
  then_cmp (lex c x y) (bytes_cmp s t).
Proof.
  intros Ho Hx. revert y. induction Hx as [|a x Ha Hx IH]; intros y [|b y' Hb Hy] Hl; try done.
  rewrite !fmap_cons. cbn [concat]. rewrite <- !app_assoc, Ho by done.
  rewrite IH by (done || by injection Hl). cbn [lex]. by destruct (c a b).
Qed.

Lemma srid_inj c c' : srid c = srid c' → c = c'.
Proof. by destruct c, c'. Qed.

Lemma srid_i64 c : is_i64 (srid c).
Proof. unfold is_i64. destruct c; simpl srid; lia. Qed.

Lemma orders_point : orders point_typed point_bytes point_total_cmp.
Proof.
  intros p q s t Hp Hq. unfold point_bytes, point_total_cmp.
  rewrite <- !app_assoc, (orders_i64 (srid (crs p)) (srid (crs q)))
    by apply srid_i64.
  rewrite then_cmp_assoc. destruct (Z.compare_spec (srid (crs p)) (srid (crs q))) as [He|?|?]; [|done..].
  cbn [then_cmp]. apply srid_inj in He.
  apply (orders_concat is_f64); [apply orders_f64|by apply coords_typed..|].
  by rewrite !coords_length, He.
Qed.

Lemma wrap_i64_range z : is_i64 (wrap_i64 z).
Proof. unfold is_i64, wrap_i64. pose proof (Z.mod_pos_bound (z + 2 ^ 63) (2 ^ 64)). lia. Qed.

Lemma orders_zoned_time :
  orders (λ t, is_i32 (zt_offset_seconds t))
    (λ t, encode_i64_bits (zoned_time_instant t) ++ encode_i32_bits (zt_offset_seconds t))
    (λ x y, cmp_same_temporal (VZonedTime x) (VZonedTime y)).
Proof.
  apply orders_app.
  - apply (orders_key _ _ _ _ zoned_time_instant orders_i64). intros t _. apply wrap_i64_range.
  - by apply (orders_key _ _ _ _ zt_offset_seconds orders_i32).
Qed.

Lemma orders_local_date_time :
  orders local_date_time_typed
    (λ dt, encode_i64_bits (epoch_seconds dt) ++ encode_u32_bits (ldt_nanos dt))
    (λ x y, cmp_same_temporal (VLocalDateTime x) (VLocalDateTime y)).
Proof.
  apply orders_app.
  - apply (orders_key _ _ _ _ epoch_seconds orders_i64). by intros dt [? _].
  - apply (orders_key _ _ _ _ ldt_nanos orders_u32). by intros dt [_ ?].
Qed.

Lemma orders_zoned_date_time :
  orders (λ z, typed (VZonedDateTime z)) zoned_date_time_bytes
    (λ x y, cmp_same_temporal (VZonedDateTime x) (VZonedDateTime y)).
Proof.
  apply (orders_ext _ zoned_date_time_bytes (λ x y,
    then_cmp (zoned_date_time_utc x ?= zoned_date_time_utc y)%Z
      (then_cmp (ldt_nanos (local x) ?= ldt_nanos (local y))
        (then_cmp (zdt_offset_seconds x ?= zdt_offset_seconds y)%Z
          (bytes_cmp (zone_id x) (zone_id y)))))); [|done|].
  - repeat apply orders_app.
    + apply (orders_key _ _ _ _ zoned_date_time_utc orders_i64). intros z _.
      unfold zoned_date_time_utc, saturating_sub_i64, is_i64. lia.
    + apply (orders_key _ _ _ _ (λ z, ldt_nanos (local z)) orders_u32). by intros z [[_ ?] _].
    + apply (orders_key _ _ _ _ zdt_offset_seconds orders_i32). by intros z (_ & ? & _).
    + by apply (orders_key _ _ _ _ zone_id orders_framed).
  - intros x y _ _. cbn [cmp_same_temporal]. by rewrite !then_cmp_assoc.
Qed.

Lemma duration_nanos_range d :
  typed (VDuration d) → (- 2 ^ 127 ≤ duration_order_nanos d < 2 ^ 127)%Z.
Proof.
  intros (Hm & Hd & Hs & Hn). unfold duration_order_nanos, AVG_NANOS_PER_MONTH, AVG_SECONDS_PER_MONTH,
    NANOS_PER_SECOND, NANOS_PER_DAY, is_i64, is_i32 in *. lia.
Qed.

(** The order of keys on numbers: the double of the magnitude line, then the type. *)
Definition number_key_cmp (a b : Value) : comparison :=
  then_cmp (total_f64 (number_double a) (number_double b)) (number_tag a ?= number_tag b).

Lemma number_double_f64 v : typed v → is_f64 (number_double v).
Proof. destruct v; try done. intros Hi. by apply as_f64_parts. Qed.

Lemma orders_number :
  orders typed (λ v, encode_f64_bits (number_double v) ++ [number_tag v]) number_key_cmp.
Proof.
  apply orders_app.
  - apply (orders_key _ _ _ _ number_double orders_f64), number_double_f64.
  - by apply (orders_key _ (λ _, True) (λ b, [b]) N.compare number_tag (orders_byte _)).
Qed.

(** The order of keys: the class, then the comparison within it. *)
Definition key_cmp (a b : Value) : comparison :=
  if class_rank a =? class_rank b
  then if is_number a then number_key_cmp a b else cmp_values_at 1 a b
  else class_rank a ?= class_rank b.

Lemma orders_payload r :
  orders (λ v, in_class r v ∧ indexable v) key_payload
    (λ a b, if is_number a then number_key_cmp a b else cmp_values_at 1 a b).
Proof.
  intros a b s t [[Ha Hra] Hia] [[Hb Hrb] Hib]. rewrite <- Hrb in Hra. clear Hrb r.
  destruct a, b; try done; cbn [is_number].
  - by destruct b0, b.
  - by apply (orders_number (VInteger _) (VInteger _)).
  - by apply (orders_number (VInteger _) (VFloat _)).
  - by apply (orders_number (VFloat _) (VInteger _)).
  - by apply (orders_number (VFloat _) (VFloat _)).
  - by apply orders_framed.
  - by apply orders_framed.
  - by apply orders_i64.
  - by apply orders_u64.
  - destruct Ha, Hb. by apply orders_zoned_time.
  - by apply orders_local_date_time.
  - by apply orders_zoned_date_time.
  - by apply orders_i128; apply duration_nanos_range.
  - by apply orders_point.
Qed.

Lemma key_tag_rank a b :
  indexable a → indexable b → (key_tag a ?= key_tag b) = (class_rank a ?= class_rank b).
Proof. by destruct a, b. Qed.

(** The key of a field carries the key order. *)
Lemma orders_key_bytes : orders (λ v, typed v ∧ indexable v) key_bytes key_cmp.
Proof.
  intros a b s t [Ha Hia] [Hb Hib]. unfold key_bytes, key_cmp.
  rewrite <- !app_comm_cons, bytes_cmp_cons, key_tag_rank by done.
  destruct (N.eqb_spec (class_rank a) (class_rank b)) as [Hr|Hr].
  - rewrite Hr, N.compare_refl. by apply (orders_payload (class_rank b)).
  - destruct (N.compare_spec (class_rank a) (class_rank b)); done.
Qed.

(** ** Keys against orderability *)

(** A value whose key determines it: no integer beyond the 53 bits of a double. *)
Definition exact_key (v : Value) : Prop :=
  match v with VInteger i => (- 2 ^ 53 ≤ i ≤ 2 ^ 53)%Z | _ => True end.

Definition keyed (v : Value) : Prop := typed v ∧ indexable v ∧ exact_key v.

Lemma exact_number_double v z :
  typed v → exact_key v → numeric v = Some z → scaled (number_double v) = z.
Proof.
  intros Hv He Hz. destruct v as [| |i|f| | | | | | | | | | |]; try done; cbn [number_double numeric] in *.
  - rewrite scaled_as_f64, round_i64_exact by done. by simplify_eq.
  - destruct (is_nan f); by simplify_eq.
Qed.

Lemma number_key_exact a b :
  typed a → typed b → is_number a → is_number b → exact_key a → exact_key b →
  number_key_cmp a b = cmp_numbers a b.
Proof.
  intros Ha Hb Hna Hnb Hea Heb. unfold number_key_cmp, cmp_numbers, total_f64.
  destruct (N.compare_spec (mono (number_double a)) (mono (number_double b))) as [He|?|?]; [|done..].
  cbn [then_cmp]. pose proof (number_double_f64 a Ha) as Hfa. pose proof (number_double_f64 b Hb) as Hfb.
  assert (number_exact a = number_exact b) as ->; [|by rewrite Z.compare_refl].
  assert (∀ v, is_number v → numeric v = None → is_nan (number_double v) = true) as Hnan.
  { intros v Hv Hn. destruct v; try done. cbn in *. by destruct (is_nan f). }
  unfold number_exact. destruct (numeric a) as [x|] eqn:Hx, (numeric b) as [y|] eqn:Hy; [| | |done].
  - destruct (number_double_typed a x Ha Hx) as [_ Hxn], (number_double_typed b y Hb Hy) as [_ Hyn].
    rewrite <- (exact_number_double a x Ha Hea Hx), <- (exact_number_double b y Hb Heb Hy).
    by rewrite (mono_inj _ _ Hfa Hfb Hxn Hyn He).
  - destruct (number_double_typed a x Ha Hx) as [_ Hxn]. pose proof (mono_bound _ Hfa Hxn).
    rewrite (mono_nan (number_double b)) in He by auto. lia.
  - destruct (number_double_typed b y Hb Hy) as [_ Hyn]. pose proof (mono_bound _ Hfb Hyn).
    rewrite (mono_nan (number_double a)) in He by auto. lia.
Qed.

Lemma cmp_scalar_levels n m a b :
  is_scalar a → cmp_values_at (S n) a b = cmp_values_at (S m) a b.
Proof. by destruct a, b. Qed.

Lemma key_cmp_values a b : keyed a → keyed b → key_cmp a b = cmp_values a b.
Proof.
  intros (Ha & Hia & Hea) (Hb & Hib & Heb). unfold key_cmp, cmp_values.
  destruct (N.eqb_spec (class_rank a) (class_rank b)) as [Hr|Hr].
  - destruct (is_number a) eqn:Hn.
    + assert (is_number b) by (by destruct a; try done; destruct b).
      rewrite number_key_exact by (done || by rewrite Hn). symmetry. apply cmp_values_numbers; by rewrite ?Hn.
    + apply cmp_scalar_levels. by destruct a.
  - rewrite cmp_values_at_class. by destruct (N.eqb_spec (class_rank a) (class_rank b)).
Qed.

Lemma encode_fields_spec out fields :
  Forall (λ v, Is_true (indexable v)) fields →
  encode_fields out fields = KOk (out ++ concat (key_bytes <$> fields)).
Proof.
  intros Hf. revert out. induction Hf as [|v fields Hv Hf IH]; intros out; [by simpl; rewrite app_nil_r|].
  cbn [encode_fields]. pose proof (encode_field_spec out v) as Hs.
  rewrite (Is_true_true_1 _ Hv) in Hs. rewrite Hs. cbn [mbind KResult_bind]. rewrite IH, fmap_cons. cbn [concat].
  by rewrite <- app_assoc.
Qed.

Lemma lex_ext {A} (P : A → Prop) (c c' : A → A → comparison) x y :
  (∀ a b, P a → P b → c a b = c' a b) → Forall P x → Forall P y → lex c x y = lex c' x y.
Proof.
  intros Hc Hx. revert y. induction Hx as [|a x Ha Hx IH]; intros y [|b y' Hb Hy]; try done.
  cbn [lex]. rewrite Hc by done. destruct (c' a b); [|done..]. by apply IH.
Qed.

(** ** Properties *)

(** C14: The composite keys of two tuples of the same length, whatever bytes are appended to them
    (a record id, another field), compare as the tuples do in the order of [ORDER BY]: the
    encoding preserves the order, is injective up to ties, and no key is a prefix of
    another. It holds for every indexable value whose integers fit 53 bits. *)
Theorem composite_key_order xs ys s t :
  Forall keyed xs → Forall keyed ys → length xs = length ys →
  ∃ kx ky, encode_composite xs = KOk kx ∧ encode_composite ys = KOk ky ∧
    bytes_cmp (kx ++ s) (ky ++ t) = then_cmp (lex cmp_values xs ys) (bytes_cmp s t).
Proof.
  intros Hx Hy Hl. exists (concat (key_bytes <$> xs)), (concat (key_bytes <$> ys)).
  split_and!; try (apply encode_fields_spec; eapply Forall_impl; [done|by intros ? (_ & ? & _)]).
  rewrite (orders_concat (λ v, typed v ∧ indexable v) _ key_cmp) by
    (apply orders_key_bytes || done || (eapply Forall_impl; [done|by intros ? (? & ? & _)])).
  by rewrite (lex_ext keyed key_cmp cmp_values) by (done || apply key_cmp_values).
Qed.

(** Beyond 53 bits the key order contradicts orderability: the integer [2^53 + 1] is the
    larger number and sorts above the float [2^53], but their keys share the magnitude and the
    type byte puts the integer first. *)
Theorem large_integer_key_contradicts_order :
  let a := VInteger (2 ^ 53 + 1) in
  let b := VFloat (i64_as_f64 (2 ^ 53)) in
  cmp_values a b = Gt ∧ ∃ ka kb, encode_single a = KOk ka ∧ encode_single b = KOk kb ∧
    bytes_cmp ka kb = Lt.
Proof. split; [vm_compute; reflexivity|]. by do 2 eexists. Qed.

(** ** Equality markers *)

Definition no_negative_zero (v : Value) : Prop :=
  match v with
  | VFloat f => f ≠ sign_mask
  | VPoint p => Forall (λ f, f ≠ sign_mask) (coords p)
  | _ => True
  end.

(** An integer that is a double survives the cast to [f64] and back. *)
Lemma cast_exact i : is_i64 i → round_i64 i = i → f64_as_i64 (i64_as_f64 i) = i.
Proof.
  intros Hi Hr. unfold f64_as_i64. rewrite as_f64_not_nan, scaled_as_f64, Hr by done.
  pose proof one_scaled_pos. rewrite Z.quot_mul by lia. unfold is_i64, i64_min, i64_max in *. lia.
Qed.

Lemma f64_eqb_same x y :
  is_f64 x → is_f64 y → x ≠ sign_mask → y ≠ sign_mask → f64_eqb x y = true → x = y.
Proof.
  intros Hx Hy Hzx Hzy. rewrite f64_eqb_spec, andb_true_iff, Z.eqb_eq. intros [_ Hs].
  destruct (scaled_eq x y Hx Hy Hs) as [?|[H0 H1]]; [done|].
  destruct (scaled_zero x Hx H0), (scaled_zero y Hy H1); congruence.
Qed.

Lemma f64s_eqb_same x y :
  Forall is_f64 x → Forall is_f64 y → Forall (λ f, f ≠ sign_mask) x → Forall (λ f, f ≠ sign_mask) y →
  f64s_eqb x y = true → x = y.
Proof.
  intros Hx. revert y. induction Hx as [|a x Ha Hx IH]; intros [|b y] Hy Hzx Hzy; try done.
  cbn [f64s_eqb]. rewrite andb_true_iff. intros [Hab Hxy].
  rewrite Forall_cons in Hy, Hzx, Hzy. destruct Hy, Hzx, Hzy. f_equal; [by apply f64_eqb_same|by apply IH].
Qed.

Lemma canonical_int_float i f :
  is_i64 i → is_f64 f → f ≠ sign_mask → int_float_equal i f = true →
  encode_equality_canonical (VInteger i) = encode_equality_canonical (VFloat f).
Proof.
  intros Hi Hf Hz. rewrite int_float_equal_spec, andb_true_iff, Z.eqb_eq by done. intros [Hn Hs].
  apply negb_true_iff in Hn. pose proof (round_i64_double i f Hs) as Hr.
  cbn [encode_equality_canonical]. rewrite cast_exact, Z.eqb_refl, Hn by done.
  destruct (as_f64_parts i Hi) as (Hsg & _ & Hif & _).
  assert (i64_as_f64 i ≠ sign_mask) as Hiz.
  { intros Hbad. pose proof (scaled_as_f64 i Hi) as Hsi. rewrite Hbad, Hr in Hsi.
    change (scaled sign_mask) with 0%Z in Hsi. symmetry in Hsi.
    apply Z.mul_eq_0 in Hsi as [->|?]; done. }
  destruct (scaled_eq (i64_as_f64 i) f) as [->|[H0 H1]]; [done..|by rewrite scaled_as_f64, Hr|done|].
  destruct (scaled_zero _ Hif H0) as [Hi0|]; [|done].
  destruct (scaled_zero _ Hf H1) as [Hf0|]; [|done]. by rewrite Hi0, Hf0.
Qed.

Lemma equals_canonical levels a b :
  typed a → typed b → no_negative_zero a → no_negative_zero b → is_scalar a →
  equals_at (S levels) a b = True3 → encode_equality_canonical a = encode_equality_canonical b.
Proof.
  intros Ha Hb Hza Hzb Hs. cbn [equals_at].
  destruct (value_is_null a || value_is_null b) eqn:Hnull; [done|].
  destruct (value_is_nan a || value_is_nan b) eqn:Hnan; [done|].
  destruct a as [| |i|f| | | | | | | | | | |p], b as [| |j|g| | | | | | | | | | |q]; try done;
    cbn [deep_equals]; rewrite from_bool_true, ?bool_decide_eq_true; try (by intros ->).
  - by intros ->%Z.eqb_eq.
  - by apply canonical_int_float.
  - intros H. symmetry. by apply canonical_int_float.
  - by intros ->%f64_eqb_same.
  - unfold value_eq. rewrite andb_true_iff, bool_decide_eq_true. intros [Hc Hcs].
    apply f64s_eqb_same in Hcs; [|by try apply coords_typed..].
    unfold encode_equality_canonical, encode_single, encode_value, encode_point. by rewrite Hc, Hcs.
Qed.

(** Two values equal in Cypher get the same equality marker, so a reader of one and a writer
    of the other meet in conflict detection, unless one of them is a negative zero or a point
    with such a coordinate. *)
Theorem equality_marker_complete a b :
  typed a → typed b → no_negative_zero a → no_negative_zero b → is_scalar a →
  equals a b = True3 → encode_equality_canonical a = encode_equality_canonical b.
Proof. apply equals_canonical. Qed.

(** The zeros: [0 = -0.0] and [0.0 = -0.0] are true, yet the encodings of the zeros differ. *)
Theorem signed_zero_splits_marker :
  let minus_zero := VFloat sign_mask in
  equals (VInteger 0) minus_zero = True3 ∧ equals (VFloat 0) minus_zero = True3 ∧
  encode_equality_canonical (VInteger 0) ≠ encode_equality_canonical minus_zero ∧
  encode_equality_canonical (VFloat 0) ≠ encode_equality_canonical minus_zero.
Proof. split_and!; vm_compute; done. Qed.

(** Unequal values can share a marker: [i64::MAX] passes the test for an exact double because
    the cast back saturates, and takes the marker of the float [2^63]. *)
Theorem largest_integer_shares_marker :
  equals (VInteger i64_max) (VFloat TWO_POW_63) = False3 ∧
  encode_equality_canonical (VInteger i64_max) = encode_equality_canonical (VFloat TWO_POW_63).
Proof. split; vm_compute; reflexivity. Qed.
