(* ===== verification/KeyTree.v ===== *)
(** The ordered map the index kinds are built on.

    [KeyTree] is the part of [BTree] (graphus-index btree.rs) that the index kinds call: insert
    with the report whether the key was new, delete, lookup, and the ordered scan of a range.
    [KeyTreeSpec] is its contract: the tree is a finite map from keys to payloads, scanned in
    the byte order of the keys. [SortedTree] is the reference implementation, a sorted list. *)
From S2P Require Import Prelude Core Bytes Float64 Compare.
From stdpp Require Import options.

Open Scope N_scope.

(** [lo <= key < hi]; an absent or empty upper bound is unbounded. *)
Definition in_bounds (lo : bytes) (hi : option bytes) (k : bytes) : Prop :=
  bytes_cmp lo k ≠ Gt ∧ match hi with None | Some [] => True | Some h => bytes_cmp k h = Lt end.

#[export] Instance in_bounds_dec lo hi k : Decision (in_bounds lo hi k).
Proof. unfold in_bounds. destruct hi as [[|]|]; apply _. Defined.

Definition key_lt (k k' : bytes) : Prop := bytes_cmp k k' = Lt.

Class KeyTree (T : Type) := {
  tree_insert (txn : N) (key value : bytes) : St T bool;
  tree_delete (txn : N) (key : bytes) : St T bool;
  tree_lookup (key : bytes) : St T (option bytes);
  tree_range (lo : bytes) (hi : option bytes) : St T (list (bytes * bytes));
}.

Class KeyTreeSpec (T : Type) `{!KeyTree T} := {
  tree_ok : T → Prop;
  content : T → gmap bytes bytes;
  tree_insert_spec txn k v t c t' :
    tree_ok t → tree_insert txn k v t = (Ok c, t') →
    tree_ok t' ∧ content t' = <[k := v]> (content t) ∧ c = bool_decide (content t !! k = None);
  tree_delete_spec txn k t c t' :
    tree_ok t → tree_delete txn k t = (Ok c, t') →
    tree_ok t' ∧ content t' = delete k (content t) ∧ c = bool_decide (is_Some (content t !! k));
  tree_lookup_spec k t :
    tree_ok t → ∃ t', tree_lookup k t = (Ok (content t !! k), t') ∧ tree_ok t' ∧ content t' = content t;
  tree_range_spec lo hi t :
    tree_ok t → ∃ l t', tree_range lo hi t = (Ok l, t') ∧ tree_ok t' ∧ content t' = content t ∧
      StronglySorted key_lt l.*1 ∧
      ∀ k v, (k, v) ∈ l ↔ content t !! k = Some v ∧ in_bounds lo hi k;
}.

(** ** The reference implementation *)

Module SortedTree.

Abbreviation t := (list (bytes * bytes)).

Fixpoint insert (k v : bytes) (l : t) : bool * t :=
  match l with
  | [] => (true, [(k, v)])
  | (k', v') :: l' =>
      match bytes_cmp k k' with
      | Lt => (true, (k, v) :: l)
      | Eq => (false, (k, v) :: l')
      | Gt => let '(c, l'') := insert k v l' in (c, (k', v') :: l'')
      end
  end.

Definition remove (k : bytes) (l : t) : bool * t :=
  (bool_decide (k ∈ l.*1), filter (λ e, e.1 ≠ k) l).

Definition find (k : bytes) (l : t) : option bytes := snd <$> List.find (λ e, bool_decide (e.1 = k)) l.

#[export] Instance sorted_tree : KeyTree t := {
  tree_insert _ k v l := let '(c, l') := insert k v l in (Ok c, l');
  tree_delete _ k l := let '(c, l') := remove k l in (Ok c, l');
  tree_lookup k l := (Ok (find k l), l);
  tree_range lo hi l := (Ok (filter (λ e, in_bounds lo hi e.1) l), l);
}.

Definition sorted (l : t) : Prop := StronglySorted key_lt l.*1.

Lemma key_lt_trans : Transitive key_lt.
Proof. intros x y z. unfold key_lt. by apply (cmp_lt_trans (P := λ _, True) (c := bytes_cmp)). Qed.

Lemma key_lt_irrefl k : ¬ key_lt k k.
Proof. unfold key_lt. by rewrite (proj2 (bytes_cmp_eq k k)). Qed.

Lemma sorted_nodup l : sorted l → NoDup l.*1.
Proof.
  unfold sorted. generalize (l.*1). intros ks. induction 1 as [|k ks Hs IH Hk]; constructor; [|done].
  intros Hin. rewrite Forall_forall in Hk. by apply (key_lt_irrefl k), Hk.
Qed.

Lemma insert_sorted k v l :
  sorted l → sorted (insert k v l).2 ∧
  list_to_map (insert k v l).2 = <[k := v]> (list_to_map l : gmap bytes bytes) ∧
  (insert k v l).1 = bool_decide (k ∉ l.*1) ∧ (∀ x, x ∈ (insert k v l).2.*1 → x = k ∨ x ∈ l.*1).
Proof.
  unfold sorted. induction l as [|[k' v'] l IH]; intros Hs.
  { split_and!; [repeat constructor|done| |set_solver]. symmetry. apply bool_decide_true. set_solver. }
  apply StronglySorted_inv in Hs as Hinv. destruct Hinv as [Hs' Hk']. cbn [insert].
  destruct (bytes_cmp k k') eqn:E.
  - apply bytes_cmp_eq in E. subst k'. cbn. split_and!; [done| | |set_solver].
    + by rewrite insert_insert_eq.
    + symmetry. apply bool_decide_false. set_solver.
  - assert (Forall (key_lt k) l.*1) as Hlt.
    { rewrite Forall_forall in Hk' |- *. intros x Hx. eapply key_lt_trans; [done|]. by apply Hk'. }
    cbn. split_and!; [by repeat constructor|done| |set_solver].
    symmetry. apply bool_decide_true. rewrite elem_of_cons. intros [->|Hin].
    + by apply (key_lt_irrefl k').
    + rewrite Forall_forall in Hlt. by apply (key_lt_irrefl k), Hlt.
  - destruct (IH Hs') as (IHs & IHm & IHc & IHk). destruct (insert k v l) as [c l''] eqn:Ei. cbn in *.
    assert (k ≠ k') as Hne by (intros ->; by rewrite (proj2 (bytes_cmp_eq k' k')) in E).
    split_and!.
    + constructor; [done|]. rewrite Forall_forall in Hk' |- *. intros x Hx.
      destruct (IHk x Hx) as [->|?]; [|auto]. unfold key_lt. by rewrite (cmp_flip (P := λ _, True) k k'), E.
    + rewrite IHm. by rewrite insert_insert_ne.
    + rewrite IHc. apply bool_decide_ext. set_solver.
    + set_solver.
Qed.

Lemma filter_sorted (P : bytes * bytes → Prop) `{∀ e, Decision (P e)} l : sorted l → sorted (filter P l).
Proof.
  unfold sorted. induction l as [|e l IH]; intros Hs; [done|].
  apply StronglySorted_inv in Hs as [Hs He]. rewrite filter_cons.
  destruct (decide (P e)); [|by apply IH]. constructor; [by apply IH|].
  rewrite Forall_forall in He |- *. intros x (e' & -> & Hin)%list_elem_of_fmap.
  apply list_elem_of_filter in Hin as [_ Hin]. apply He, list_elem_of_fmap. eauto.
Qed.

Lemma list_to_map_iff (l : t) k v :
  sorted l → (list_to_map l : gmap bytes bytes) !! k = Some v ↔ (k, v) ∈ l.
Proof. intros Hs%sorted_nodup. symmetry. by apply elem_of_list_to_map. Qed.

#[export] Program Instance sorted_tree_spec : KeyTreeSpec t := {
  tree_ok := sorted;
  content l := list_to_map l;
}.
Next Obligation.
  intros txn k v l c l' Hs Hi. cbn in Hi. pose proof (insert_sorted k v l Hs) as (Hs' & Hm & Hc & _).
  destruct (insert k v l) as [c' l'']. simplify_eq/=. split_and!; [done..|].
  apply bool_decide_ext. rewrite not_elem_of_list_to_map. done.
Qed.
Next Obligation.
  intros txn k l c l' Hs Hi. cbn in Hi. simplify_eq/=. split_and!; [by apply filter_sorted| |].
  - apply map_eq. intros k'. apply option_eq. intros v.
    rewrite list_to_map_iff by (by apply filter_sorted). rewrite list_elem_of_filter, lookup_delete_Some.
    rewrite list_to_map_iff by done. naive_solver.
  - apply bool_decide_ext. rewrite <- not_eq_None_Some, <- not_elem_of_list_to_map.
    destruct (decide (k ∈ l.*1)); naive_solver.
Qed.
Next Obligation.
  intros k l Hs. cbn. exists l. split; [|done]. f_equal. f_equal. apply option_eq. intros v.
  rewrite list_to_map_iff by done. unfold find. split.
  - intros ([k' v'] & Hf & ->)%fmap_Some. apply List.find_some in Hf as [Hin Hk].
    apply bool_decide_eq_true in Hk. simpl in Hk. subst. by apply list_elem_of_In.
  - intros Hin. pose proof (sorted_nodup l Hs) as Hnd. clear Hs.
    induction l as [|[k' v'] l IH]; [by apply elem_of_nil in Hin|].
    apply NoDup_cons in Hnd as [Hk' Hnd]. cbn [List.find fst].
    apply elem_of_cons in Hin as [[= -> ->]|Hin]; [by rewrite bool_decide_true|].
    rewrite bool_decide_false; [by apply IH|]. intros ->. apply Hk', list_elem_of_fmap. by exists (k, v).
Qed.
Next Obligation.
  intros lo hi l Hs. cbn. do 2 eexists. split_and!; [done..| |]; [by apply filter_sorted|].
  intros k v. rewrite list_elem_of_filter, list_to_map_iff by done. naive_solver.
Qed.

End SortedTree.
