(* ===== verification/BTreeNode.v ===== *)
(** The nodes of the B+-tree (graphus-index node.rs): slotted pages.

    A page of 8192 bytes holds, behind its header, the level of the node, a directory of slots
    in key order that grows upwards, and the cells, which grow downwards from the special area
    with the right sibling and the leftmost child. [NodeView] and [NodeMut] are computations on
    the bytes of the page; an index out of range is a panic. [usize] is [nat]: every sum of the
    source adds a few 16-bit fields, so that [checked_add] does not fail. *)
From S2P Require Import Prelude Core Bytes WalRecord PageFormat Float64 Compare.
From stdpp Require Import options.

Open Scope N_scope.

Definition OFF_LEVEL : nat := 24.
Definition OFF_SLOT_COUNT : nat := 26.
Definition SLOT_DIR_START : nat := 28.
Definition FREE_NEXT_OFF : nat := SLOT_DIR_START.
Definition SLOT_SIZE : nat := 8.
Definition SPECIAL_RIGHT : nat := PAGE_SIZE - 8.
Definition SPECIAL_LEFTMOST : nat := PAGE_SIZE - 16.
Definition CELL_LIMIT : nat := SPECIAL_LEFTMOST.

Record Cell := { cell_key : bytes; cell_value : bytes; cell_child : N }.

(** ** Raw accesses *)

(** [&b[off..off + len]]. *)
Definition read (off len : nat) : St bytes bytes := λ b,
  match slice b off len with
  | Some s => (Ok s, b)
  | None => (Panic "range end index out of range for slice", b)
  end.

(** [b[off..off + src.len()].copy_from_slice(src)]. *)
Definition store (off : nat) (src : bytes) : St bytes unit := λ b,
  if bool_decide (off + length src ≤ length b)%nat then (Ok tt, copy_at off src b)
  else (Panic "range end index out of range for slice", b).

(** [b.copy_within(src..src + len, dst)]. *)
Definition copy_within (src len dst : nat) : St bytes unit :=
  s ← read src len;
  store dst s.

Definition rd_u16 (off : nat) : St bytes N := s ← read off 2; mret (from_le_bytes s).
Definition rd_u64 (off : nat) : St bytes N := s ← read off 8; mret (from_le_bytes s).
Definition rd_usize (off : nat) : St bytes nat := v ← rd_u16 off; mret (N.to_nat v).

Definition try_rd_u16 (b : bytes) (off : nat) : option N := from_le_bytes <$> slice b off 2.
Definition try_rd_u64 (b : bytes) (off : nat) : option N := from_le_bytes <$> slice b off 8.

Definition wr_u16 (off : nat) (v : N) : St bytes unit := store off (to_le_bytes 2 v).
Definition wr_u64 (off : nat) (v : N) : St bytes unit := store off (to_le_bytes 8 v).

(** [wr_u16] of a [usize] narrowed with [try_from]. *)
Definition wr_narrow (off : nat) (v : nat) : St bytes unit :=
  if N.of_nat v <=? 65535 then wr_u16 off (N.of_nat v)
  else lift (Panic "INVARIANT: page-bounded (u16)").

(** [opt.expect(..)] of a checked access. *)
Definition expect {A} (f : bytes → option A) : St bytes A := λ b,
  match f b with
  | Some a => (Ok a, b)
  | None => (Panic "slot out of range or corrupt index page (call validate() first)", b)
  end.

(** ** [NodeView] *)

Definition level : St bytes N := rd_u16 OFF_LEVEL.
Definition is_leaf : St bytes bool := l ← level; mret (l =? 0).
Definition slot_count : St bytes nat := rd_usize OFF_SLOT_COUNT.
Definition right_sibling : St bytes N := rd_u64 SPECIAL_RIGHT.
Definition leftmost_child : St bytes N := rd_u64 SPECIAL_LEFTMOST.

Definition slot_off (i : nat) : nat := SLOT_DIR_START + i * SLOT_SIZE.

(** The slots [i], [i + 1], ... of the walk of [validate]. *)
Fixpoint validate_slots (dir_end : nat) (leaf : bool) (i todo : nat) : St bytes unit :=
  match todo with
  | O => mret tt
  | S todo =>
      let slot := slot_off i in
      off ← rd_usize slot;
      klen ← rd_usize (slot + 2)%nat;
      vlen ← rd_usize (slot + 4)%nat;
      let cell_end := (off + klen + vlen)%nat in
      if bool_decide (off < dir_end)%nat || bool_decide (CELL_LIMIT < cell_end)%nat
      then throw (Storage "corrupt index page: cell outside heap")
      else if negb leaf && bool_decide (CELL_LIMIT < off + klen + 8)%nat
      then throw (Storage "corrupt index page: internal child pointer outside the page")
      else validate_slots dir_end leaf (S i) todo
  end.

Definition validate : St bytes unit :=
  n ← slot_count;
  let dir_end := (SLOT_DIR_START + n * SLOT_SIZE)%nat in
  if bool_decide (CELL_LIMIT < dir_end)%nat
  then throw (Storage "corrupt index page: slot_count overflows the page directory")
  else
    l ← level;
    validate_slots dir_end (l =? 0) 0 n.

(** The slot count as the checked accessors read it; it panics on a short page. *)
Definition in_slots (b : bytes) (i : nat) : bool :=
  match try_rd_u16 b OFF_SLOT_COUNT with Some n => (i <? N.to_nat n)%nat | None => false end.

Definition try_key (i : nat) (b : bytes) : option bytes :=
  if negb (in_slots b i) then None
  else
    let slot := slot_off i in
    off ← try_rd_u16 b slot;
    klen ← try_rd_u16 b (slot + 2)%nat;
    slice b (N.to_nat off) (N.to_nat klen).

Definition try_value (i : nat) (b : bytes) : option bytes :=
  if negb (in_slots b i) then None
  else
    let slot := slot_off i in
    off ← try_rd_u16 b slot;
    klen ← try_rd_u16 b (slot + 2)%nat;
    vlen ← try_rd_u16 b (slot + 4)%nat;
    slice b (N.to_nat off + N.to_nat klen)%nat (N.to_nat vlen).

Definition try_child (i : nat) (b : bytes) : option N :=
  if match try_rd_u16 b OFF_LEVEL with Some l => l =? 0 | None => true end || negb (in_slots b i) then None
  else
    let slot := slot_off i in
    off ← try_rd_u16 b slot;
    klen ← try_rd_u16 b (slot + 2)%nat;
    try_rd_u64 b (N.to_nat off + N.to_nat klen)%nat.

Definition key (i : nat) : St bytes bytes := expect (try_key i).
Definition value (i : nat) : St bytes bytes := expect (try_value i).
Definition child (i : nat) : St bytes N := expect (try_child i).

Definition cell (i : nat) : St bytes Cell :=
  leaf ← is_leaf;
  if leaf : bool then
    k ← key i;
    v ← value i;
    mret {| cell_key := k; cell_value := v; cell_child := 0 |}
  else
    k ← key i;
    c ← child i;
    mret {| cell_key := k; cell_value := []; cell_child := c |}.

(** The binary search for the first slot whose key is not [before] the probe. *)
Fixpoint search (before : comparison → bool) (probe : bytes) (fuel lo hi : nat) : St bytes nat :=
  if (lo <? hi)%nat then
    match fuel with
    | O => lift (Panic "out of fuel")
    | S fuel =>
        let mid := ((lo + hi) / 2)%nat in
        k ← key mid;
        if before (bytes_cmp k probe) then search before probe fuel (S mid) hi
        else search before probe fuel lo mid
    end
  else mret lo.

Definition is_lt (c : comparison) : bool := match c with Lt => true | _ => false end.
Definition is_le (c : comparison) : bool := match c with Gt => false | _ => true end.

Definition lower_bound (probe : bytes) : St bytes nat :=
  n ← slot_count;
  search is_lt probe n 0 n.

Definition find_exact (probe : bytes) : St bytes (option nat) :=
  i ← lower_bound probe;
  n ← slot_count;
  if (i <? n)%nat then
    k ← key i;
    mret (if bool_decide (k = probe) then Some i else None)
  else mret None.

Definition child_for (probe : bytes) : St bytes N :=
  leaf ← is_leaf;
  if leaf : bool then lift (Panic "child_for on a leaf")
  else
    n ← slot_count;
    lo ← search is_le probe n 0 n;
    if (lo =? 0)%nat then leftmost_child else child (lo - 1).

(** ** [NodeMut] *)

Definition set_slot_count (n : nat) : St bytes unit := wr_narrow OFF_SLOT_COUNT n.

Definition init (level : N) : St bytes unit :=
  wr_u16 OFF_LEVEL level;;
  wr_u16 OFF_SLOT_COUNT 0;;
  wr_u64 SPECIAL_RIGHT 0;;
  wr_u64 SPECIAL_LEFTMOST 0.

Definition set_right_sibling (page : N) : St bytes unit := wr_u64 SPECIAL_RIGHT page.
Definition set_leftmost_child (page : N) : St bytes unit := wr_u64 SPECIAL_LEFTMOST page.

Fixpoint floor_slots (floor i todo : nat) : St bytes nat :=
  match todo with
  | O => mret floor
  | S todo =>
      off ← rd_usize (slot_off i);
      floor_slots (if (off <? floor)%nat then off else floor) (S i) todo
  end.

Definition heap_floor : St bytes nat :=
  n ← slot_count;
  floor_slots CELL_LIMIT 0 n.

Definition free_space : St bytes nat :=
  n ← slot_count;
  floor ← heap_floor;
  mret (floor - (SLOT_DIR_START + n * SLOT_SIZE))%nat.

(** The four fields of a slot. *)
Definition wr_slot (slot off klen vlen : nat) : St bytes unit :=
  wr_narrow slot off;;
  wr_narrow (slot + 2)%nat klen;;
  wr_narrow (slot + 4)%nat vlen;;
  wr_u16 (slot + 6)%nat 0.

Definition insert_cell (key payload : bytes) : St bytes bool :=
  let cell_len := (length key + length payload)%nat in
  let need := (cell_len + SLOT_SIZE)%nat in
  free ← free_space;
  if (free <? need)%nat then mret false
  else
    n ← slot_count;
    floor ← heap_floor;
    let new_floor := (floor - cell_len)%nat in
    store new_floor key;;
    store (new_floor + length key)%nat payload;;
    pos ← lower_bound key;
    let src := slot_off pos in
    copy_within src ((n - pos) * SLOT_SIZE)%nat (src + SLOT_SIZE)%nat;;
    wr_slot src new_floor (length key) (length payload);;
    set_slot_count (S n);;
    mret true.

Definition remove_at (i : nat) : St bytes unit :=
  n ← slot_count;
  if negb (i <? n)%nat then lift (Panic "remove slot out of range")
  else
    copy_within (slot_off (S i)) ((n - i - 1) * SLOT_SIZE)%nat (slot_off i);;
    set_slot_count (n - 1).

Definition replace_value (i : nat) (key value : bytes) : St bytes bool :=
  let slot := slot_off i in
  old_vlen ← rd_usize (slot + 4)%nat;
  if (length value <=? old_vlen)%nat then
    off ← rd_usize slot;
    klen ← rd_usize (slot + 2)%nat;
    store (off + klen)%nat value;;
    wr_narrow (slot + 4)%nat (length value);;
    mret true
  else
    remove_at i;;
    insert_cell key value.

Definition leaf_insert (key value : bytes) : St bytes bool :=
  found ← find_exact key;
  match found with
  | Some i => replace_value i key value
  | None => insert_cell key value
  end.

Definition internal_insert (key : bytes) (child : N) : St bytes bool :=
  insert_cell key (to_le_bytes 8 child).

Definition leaf_remove (key : bytes) : St bytes bool :=
  found ← find_exact key;
  match found with
  | Some i => remove_at i;; mret true
  | None => mret false
  end.

(** The cells in slot order, each with the length of its key and of its payload. *)
Fixpoint collect_cells (acc : list (bytes * nat * nat)) (i todo : nat) : St bytes (list (bytes * nat * nat)) :=
  match todo with
  | O => mret acc
  | S todo =>
      let slot := slot_off i in
      off ← rd_usize slot;
      klen ← rd_usize (slot + 2)%nat;
      vlen ← rd_usize (slot + 4)%nat;
      c ← read off (klen + vlen);
      collect_cells (acc ++ [(c, klen, vlen)]) (S i) todo
  end.

(** The cells packed against the special area. Below zero [floor -= len] panics or, without
    overflow checks, makes the slice that follows panic. *)
Fixpoint pack_cells (floor i : nat) (cells : list (bytes * nat * nat)) : St bytes unit :=
  match cells with
  | [] => mret tt
  | (c, klen, vlen) :: cells =>
      if (floor <? length c)%nat then lift (Panic "attempt to subtract with overflow")
      else
        let floor := (floor - length c)%nat in
        store floor c;;
        wr_slot (slot_off i) floor klen vlen;;
        pack_cells floor (S i) cells
  end.

Definition compact : St bytes unit :=
  n ← slot_count;
  cells ← collect_cells [] 0 n;
  pack_cells CELL_LIMIT 0 cells.

Definition truncate (keep : nat) : St bytes unit := set_slot_count keep.

Fixpoint append_cells (cells : list Cell) : St bytes bool :=
  match cells with
  | [] => mret true
  | c :: cells =>
      leaf ← is_leaf;
      ok ← (if leaf : bool then insert_cell (cell_key c) (cell_value c)
            else insert_cell (cell_key c) (to_le_bytes 8 (cell_child c)));
      if ok : bool then append_cells cells else mret false
  end.
