(* ===== verification/BTreeNodeFacts.v ===== *)
(** What the operations on nodes do to their cells (theorems about BTreeNode.v).

    A well-formed node is a list of cells, in key order; its slots lie in the heap and do not
    share a byte. Reads, inserts, removals, replacements and compaction are lookups and updates
    of that list, and none of them panics. *)
From S2P Require Import Prelude Core Bytes WalRecord PageFormat Float64 Compare KeyTree BTreeNode.
From stdpp Require Import options.

Open Scope N_scope.

(** ** Pieces of a buffer *)

Definition piece (p : bytes) (o k : nat) : bytes := take k (drop o p).

Lemma piece_length p o k : (o + k ≤ length p)%nat → length (piece p o k) = k.
Proof. intros. unfold piece. rewrite length_take, length_drop. lia. Qed.

Lemma piece_is_bytes p o k : is_bytes p → is_bytes (piece p o k).
Proof. intros. by apply is_bytes_take, is_bytes_drop. Qed.

Lemma piece_piece p a n o k : (o + k ≤ n)%nat → piece (piece p a n) o k = piece p (a + o) k.
Proof.
  intros. unfold piece. rewrite skipn_firstn_comm, drop_drop, take_take. f_equal. lia.
Qed.

Lemma piece_all p k : length p = k → piece p 0 k = p.
Proof. intros. unfold piece. rewrite drop_0. apply take_ge. lia. Qed.

Lemma piece_copy_out p off s o k :
  (off + length s ≤ length p)%nat → (o + k ≤ off ∨ off + length s ≤ o)%nat →
  piece (copy_at off s p) o k = piece p o k.
Proof. apply copy_at_other. Qed.

Lemma piece_copy_in p off s o k :
  (off + length s ≤ length p)%nat → (off ≤ o)%nat → (o + k ≤ off + length s)%nat →
  piece (copy_at off s p) o k = piece s (o - off) k.
Proof.
  intros Hl Ho Hk. apply list_eq. intros i. unfold piece. destruct (decide (i < k)%nat).
  - rewrite !lookup_take_lt, !lookup_drop, copy_at_lookup by done. rewrite decide_True by lia. f_equal. lia.
  - by rewrite !lookup_take_ge by lia.
Qed.

(** A 16-bit field, and a 64-bit one. *)
Definition u16_at (p : bytes) (o : nat) : nat := N.to_nat (from_le_bytes (piece p o 2)).
Definition u64_at (p : bytes) (o : nat) : N := from_le_bytes (piece p o 8).

Lemma u16_at_copy_out p off s o :
  (off + length s ≤ length p)%nat → (o + 2 ≤ off ∨ off + length s ≤ o)%nat →
  u16_at (copy_at off s p) o = u16_at p o.
Proof. intros. unfold u16_at. by rewrite piece_copy_out. Qed.

Lemma u64_at_copy_out p off s o :
  (off + length s ≤ length p)%nat → (o + 8 ≤ off ∨ off + length s ≤ o)%nat →
  u64_at (copy_at off s p) o = u64_at p o.
Proof. intros. unfold u64_at. by rewrite piece_copy_out. Qed.

Lemma u16_at_copy_in p off s o :
  (off + length s ≤ length p)%nat → (off ≤ o)%nat → (o + 2 ≤ off + length s)%nat →
  u16_at (copy_at off s p) o = u16_at s (o - off).
Proof. intros. unfold u16_at. by rewrite piece_copy_in. Qed.

Lemma u16_at_write p o v :
  (o + 2 ≤ length p)%nat → N.of_nat v < 65536 → u16_at (copy_at o (to_le_bytes 2 (N.of_nat v)) p) o = v.
Proof.
  intros Hl Hv. rewrite u16_at_copy_in by (rewrite ?to_le_bytes_length; lia). unfold u16_at.
  rewrite Nat.sub_diag, piece_all, from_to_le_bytes by (done || (cbn; lia)). lia.
Qed.

Lemma u64_at_write p o v :
  (o + 8 ≤ length p)%nat → v ≤ u64_max → u64_at (copy_at o (to_le_bytes 8 v) p) o = v.
Proof.
  intros Hl Hv. unfold u64_at. rewrite piece_copy_in by (rewrite ?to_le_bytes_length; lia).
  rewrite Nat.sub_diag, piece_all, from_to_le_bytes by (done || by apply u64_le). done.
Qed.

Lemma u16_at_piece p a n o : (o + 2 ≤ n)%nat → u16_at (piece p a n) o = u16_at p (a + o).
Proof. intros. unfold u16_at. by rewrite piece_piece. Qed.

Lemma u16_at_lt p o : is_bytes p → N.of_nat (u16_at p o) < 65536.
Proof. intros Hb. unfold u16_at. pose proof (from_piece_lt p o 2 Hb) as Hx. cbn in Hx. fold (piece p o 2) in Hx. lia. Qed.

(** ** The layout *)

(** The offsets in use: arithmetic on them is by these facts, never by computing with the
    size of a page. *)
Lemma layout :
  OFF_LEVEL = 24%nat ∧ OFF_SLOT_COUNT = 26%nat ∧ SLOT_DIR_START = 28%nat ∧ SLOT_SIZE = 8%nat ∧
  (CELL_LIMIT + 16 = PAGE_SIZE)%nat ∧ (SPECIAL_RIGHT = CELL_LIMIT + 8)%nat ∧ SPECIAL_LEFTMOST = CELL_LIMIT ∧
  N.of_nat CELL_LIMIT = 8176.
Proof. unfold SPECIAL_RIGHT, CELL_LIMIT, SPECIAL_LEFTMOST, PAGE_SIZE. split_and!; (done || lia). Qed.

Definition dir_end (n : nat) : nat := SLOT_DIR_START + n * SLOT_SIZE.

Ltac lay :=
  pose proof layout as (?&?&?&?&?&?&?&?); unfold slot_off, dir_end, SLOT_DIR_START, SLOT_SIZE, OFF_LEVEL, OFF_SLOT_COUNT in *; rewrite ?to_le_bytes_length, ?copy_at_length in *; lia.

Record slot := Slot_ { s_off : nat; s_klen : nat; s_vlen : nat }.

Definition s_len (x : slot) : nat := s_klen x + s_vlen x.

Definition slot_at (p : bytes) (i : nat) : slot :=
  Slot_ (u16_at p (slot_off i)) (u16_at p (slot_off i + 2)) (u16_at p (slot_off i + 4)).

Definition nslots (p : bytes) : nat := u16_at p OFF_SLOT_COUNT.
Definition slots (p : bytes) : list slot := slot_at p <$> seq 0 (nslots p).

Definition cell_of (p : bytes) (x : slot) : bytes * bytes :=
  (piece p (s_off x) (s_klen x), piece p (s_off x + s_klen x) (s_vlen x)).
Definition cells (p : bytes) : list (bytes * bytes) := cell_of p <$> slots p.
Definition keys (p : bytes) : list bytes := (cells p).*1.

Definition in_heap (n : nat) (x : slot) : Prop := (dir_end n ≤ s_off x ∧ s_off x + s_len x ≤ CELL_LIMIT)%nat.

(** The bytes of the heap that the slots occupy. *)
Definition occupied (l : list slot) : list nat := l ≫= λ x, seq (s_off x) (s_len x).

(** What [validate] checks of a page. *)
Record node_valid (p : bytes) : Prop := {
  nv_length : length p = PAGE_SIZE;
  nv_dir : (dir_end (nslots p) ≤ CELL_LIMIT)%nat;
  nv_heap : Forall (in_heap (nslots p)) (slots p);
}.

Record node_ok (p : bytes) : Prop := {
  no_length : length p = PAGE_SIZE;
  no_bytes : is_bytes p;
  no_dir : (dir_end (nslots p) ≤ CELL_LIMIT)%nat;
  no_heap : Forall (in_heap (nslots p)) (slots p);
  no_apart : NoDup (occupied (slots p));
}.

Lemma node_ok_valid p : node_ok p → node_valid p.
Proof. by intros []. Qed.

Definition sorted_node (p : bytes) : Prop := StronglySorted key_lt (keys p).

(** ** Reads *)

Lemma read_ok p o k : (o + k ≤ length p)%nat → read o k p = (Ok (piece p o k), p).
Proof. intros. unfold read. by rewrite slice_ok. Qed.

Lemma rd_u16_ok p o : (o + 2 ≤ length p)%nat → rd_u16 o p = (Ok (from_le_bytes (piece p o 2)), p).
Proof. intros. unfold rd_u16, mbind, St_bind. by rewrite read_ok. Qed.

Lemma rd_u64_ok p o : (o + 8 ≤ length p)%nat → rd_u64 o p = (Ok (u64_at p o), p).
Proof. intros. unfold rd_u64, mbind, St_bind. by rewrite read_ok. Qed.

Lemma rd_usize_ok p o : (o + 2 ≤ length p)%nat → rd_usize o p = (Ok (u16_at p o), p).
Proof. intros. unfold rd_usize, mbind, St_bind. by rewrite rd_u16_ok. Qed.

Lemma try_rd_u16_ok p o : (o + 2 ≤ length p)%nat → try_rd_u16 p o = Some (from_le_bytes (piece p o 2)).
Proof. intros. unfold try_rd_u16. by rewrite slice_ok. Qed.

Lemma store_ok p o s : (o + length s ≤ length p)%nat → store o s p = (Ok tt, copy_at o s p).
Proof. intros. unfold store. by rewrite bool_decide_true. Qed.

Lemma slot_count_ok p : length p = PAGE_SIZE → slot_count p = (Ok (nslots p), p).
Proof. intros. apply rd_usize_ok. lay. Qed.

Lemma level_ok p : length p = PAGE_SIZE → level p = (Ok (N.of_nat (u16_at p OFF_LEVEL)), p).
Proof. intros. unfold level. rewrite rd_u16_ok by lay. unfold u16_at. by rewrite N2Nat.id. Qed.

Lemma right_sibling_ok p : length p = PAGE_SIZE → right_sibling p = (Ok (u64_at p SPECIAL_RIGHT), p).
Proof. intros. apply rd_u64_ok. lay. Qed.

Lemma leftmost_child_ok p : length p = PAGE_SIZE → leftmost_child p = (Ok (u64_at p SPECIAL_LEFTMOST), p).
Proof. intros. apply rd_u64_ok. lay. Qed.

Lemma slots_length p : length (slots p) = nslots p.
Proof. unfold slots. by rewrite length_fmap, length_seq. Qed.

Lemma cells_length p : length (cells p) = nslots p.
Proof. unfold cells. by rewrite length_fmap, slots_length. Qed.

Lemma slots_lookup p i x : slots p !! i = Some x ↔ (i < nslots p)%nat ∧ x = slot_at p i.
Proof.
  unfold slots. rewrite list_lookup_fmap, fmap_Some. setoid_rewrite lookup_seq. naive_solver.
Qed.

Lemma slots_in_valid p i x :
  node_valid p → slots p !! i = Some x → (slot_off i + 8 ≤ dir_end (nslots p))%nat ∧ in_heap (nslots p) x.
Proof.
  intros Hp Hx. split.
  - apply slots_lookup in Hx as [Hi _]. unfold dir_end. lay.
  - eapply Forall_lookup_1; [apply Hp|exact Hx].
Qed.

Lemma slots_in_page p i x :
  node_ok p → slots p !! i = Some x → (slot_off i + 8 ≤ dir_end (nslots p))%nat ∧ in_heap (nslots p) x.
Proof. intros Hp. by apply slots_in_valid, node_ok_valid. Qed.

Lemma in_slots_ok p i : length p = PAGE_SIZE → in_slots p i = (i <? nslots p)%nat.
Proof. intros. unfold in_slots. rewrite try_rd_u16_ok by lay. done. Qed.

Lemma cells_lookup p i c : cells p !! i = Some c → ∃ x, slots p !! i = Some x ∧ c = cell_of p x.
Proof. unfold cells. rewrite list_lookup_fmap. intros (x & Hx & ->)%fmap_Some. eauto. Qed.

Lemma key_value_valid p i k v :
  node_valid p → cells p !! i = Some (k, v) → key i p = (Ok k, p) ∧ value i p = (Ok v, p).
Proof.
  intros Hp Hc. destruct (cells_lookup p i (k, v) Hc) as (x & Hx & [= -> ->]).
  destruct (slots_in_valid p i x Hp Hx) as [Hdir [Hlo Hhi]]. apply slots_lookup in Hx as [Hi ->].
  pose proof (nv_length p Hp) as Hl. pose proof (nv_dir p Hp).
  assert ((i <? nslots p)%nat = true) as Hlt by (by apply Nat.ltb_lt).
  unfold s_len in Hhi. cbn [s_off s_klen s_vlen slot_at] in *.
  unfold key, value, expect, try_key, try_value. rewrite in_slots_ok, Hlt by done. cbn [negb].
  rewrite !try_rd_u16_ok by lay. unfold mbind, option_bind. fold (u16_at p (slot_off i)) (u16_at p (slot_off i + 2)%nat) (u16_at p (slot_off i + 4)%nat).
  rewrite !slice_ok by lay. done.
Qed.

Lemma key_value_ok p i k v :
  node_ok p → cells p !! i = Some (k, v) → key i p = (Ok k, p) ∧ value i p = (Ok v, p).
Proof. intros Hp. by apply key_value_valid, node_ok_valid. Qed.

(** ** Searches *)

(** [m] slots of the node come before the probe. *)
Lemma search_ok p before probe m fuel lo hi :
  node_ok p → (hi ≤ nslots p)%nat → (lo ≤ m ≤ hi)%nat → (hi - lo ≤ fuel)%nat →
  (∀ i c, cells p !! i = Some c → before (bytes_cmp c.1 probe) = true ↔ (i < m)%nat) →
  search before probe fuel lo hi p = (Ok m, p).
Proof.
  intros Hp. revert lo hi. induction fuel as [|fuel IH]; intros lo hi Hhi Hm Hf Hb; cbn [search].
  { destruct (lo <? hi)%nat eqn:Hlt; [apply Nat.ltb_lt in Hlt; lia|]. apply Nat.ltb_ge in Hlt.
    by assert (lo = m) as -> by lia. }
  destruct (lo <? hi)%nat eqn:Hlt.
  2: { apply Nat.ltb_ge in Hlt. by assert (lo = m) as -> by lia. }
  apply Nat.ltb_lt in Hlt. set (mid := ((lo + hi) / 2)%nat).
  assert (lo ≤ mid < hi)%nat as Hmid.
  { unfold mid. split; [apply Nat.div_le_lower_bound; lia|apply Nat.Div0.div_lt_upper_bound; lia]. }
  destruct (lookup_lt_is_Some_2 (cells p) mid) as [[k v] Hc]; [rewrite cells_length; lia|].
  destruct (key_value_ok p mid k v Hp Hc) as [Hk _]. unfold mbind, St_bind. rewrite Hk.
  pose proof (Hb mid (k, v) Hc) as Hiff. cbn in Hiff.
  destruct (before (bytes_cmp k probe)); apply IH; (done || lia || naive_solver lia).
Qed.

(** The number of keys that come before the probe. *)
Definition rank (before : comparison → bool) (probe : bytes) (ks : list bytes) : nat :=
  length (filter (λ k, before (bytes_cmp k probe) = true) ks).

Lemma rank_le before probe ks : (rank before probe ks ≤ length ks)%nat.
Proof. apply length_filter. Qed.

(** In a sorted list the keys that come before are a prefix. *)
Lemma rank_prefix before probe ks i k :
  StronglySorted key_lt ks →
  (∀ a b, key_lt a b → before (bytes_cmp b probe) = true → before (bytes_cmp a probe) = true) →
  ks !! i = Some k → before (bytes_cmp k probe) = true ↔ (i < rank before probe ks)%nat.
Proof.
  intros Hs Hmono. unfold rank. revert i. induction Hs as [|x ks Hs IH Hx]; intros i; [done|]. intros Hk.
  rewrite filter_cons. case_decide as Hb.
  - cbn [length]. destruct i as [|i]; [injection Hk as ->; split; [lia|done]|]. cbn in Hk.
    rewrite (IH i Hk). lia.
  - assert (∀ y, y ∈ ks → before (bytes_cmp y probe) ≠ true) as Hno.
    { intros y Hy Ht. apply Hb. eapply Hmono; [|done]. rewrite Forall_forall in Hx. by apply Hx. }
    assert (filter (λ k, before (bytes_cmp k probe) = true) ks = []) as ->.
    { clear -Hno. induction ks as [|y ks IH]; [done|]. rewrite filter_cons_False by (apply Hno; left).
      apply IH. intros z Hz. apply Hno. by right. }
    cbn. split; [|lia]. intros Ht.
    destruct i as [|i]; [injection Hk as ->; done|]. cbn in Hk. by destruct (Hno k (list_elem_of_lookup_2 _ _ _ Hk)).
Qed.

Lemma lt_mono probe a b :
  key_lt a b → is_lt (bytes_cmp b probe) = true → is_lt (bytes_cmp a probe) = true.
Proof.
  intros Hab Hb. destruct (bytes_cmp b probe) eqn:E; try done.
  by rewrite (SortedTree.key_lt_trans a b probe Hab E).
Qed.

Lemma le_mono probe a b :
  key_lt a b → is_le (bytes_cmp b probe) = true → is_le (bytes_cmp a probe) = true.
Proof.
  intros Hab Hb. destruct (bytes_cmp b probe) eqn:E; try done.
  - apply bytes_cmp_eq in E as <-. by rewrite Hab.
  - by rewrite (SortedTree.key_lt_trans a b probe Hab E).
Qed.

Lemma search_rank p before probe :
  node_ok p → sorted_node p →
  (∀ a b, key_lt a b → before (bytes_cmp b probe) = true → before (bytes_cmp a probe) = true) →
  search before probe (nslots p) 0 (nslots p) p = (Ok (rank before probe (keys p)), p).
Proof.
  intros Hp Hs Hm. pose proof (rank_le before probe (keys p)) as Hle.
  assert (length (keys p) = nslots p) as Hlen by (unfold keys; by rewrite length_fmap, cells_length).
  apply search_ok; [done|lia|lia|lia|]. intros i [k v] Hc. apply rank_prefix; [done|done|].
  unfold keys. by rewrite list_lookup_fmap, Hc.
Qed.

Lemma lower_bound_ok p probe :
  node_ok p → sorted_node p → lower_bound probe p = (Ok (rank is_lt probe (keys p)), p).
Proof.
  intros Hp Hs. unfold lower_bound, mbind, St_bind. rewrite slot_count_ok by apply Hp.
  apply search_rank; [done..|apply lt_mono].
Qed.

(** The slot of a key, if there is one. *)
Definition position (probe : bytes) (ks : list bytes) : option nat :=
  match ks !! rank is_lt probe ks with
  | Some k => if bool_decide (k = probe) then Some (rank is_lt probe ks) else None
  | None => None
  end.

Lemma position_some probe ks i :
  StronglySorted key_lt ks → position probe ks = Some i ↔ ks !! i = Some probe.
Proof.
  intros Hs. unfold position. split.
  - destruct (ks !! rank is_lt probe ks) as [k|] eqn:Hk; [|done]. case_bool_decide; [|done]. by intros [= <-]; subst.
  - intros Hi. assert (rank is_lt probe ks = i) as ->.
    { assert (¬ (i < rank is_lt probe ks)%nat) as Hge.
      { rewrite <- (rank_prefix is_lt probe ks i probe) by (done || apply lt_mono).
        by rewrite (proj2 (bytes_cmp_eq probe probe) eq_refl). }
      destruct (decide (i < length ks)%nat); [|by rewrite lookup_ge_None_2 in Hi by lia].
      destruct (decide (rank is_lt probe ks < i)%nat) as [Hlt|]; [|lia].
      destruct (lookup_lt_is_Some_2 ks (rank is_lt probe ks)) as [k Hk]; [lia|].
      pose proof (rank_prefix is_lt probe ks _ k Hs (lt_mono probe) Hk) as Hx.
      assert (key_lt k probe) as Hkp.
      { clear -Hs Hk Hi Hlt. revert i Hi Hlt. generalize (rank is_lt probe ks) as j, k, Hk; clear k Hk. revert ks Hs.
        induction 1 as [|x ks Hs IH Hx]; [done|]. intros [|j] k Hk [|i] Hi Hlt; try lia; cbn in *.
        - simplify_eq. rewrite Forall_forall in Hx. apply Hx. by eapply list_elem_of_lookup_2.
        - eapply IH; [exact Hk|exact Hi|lia]. }
      unfold key_lt in Hkp. rewrite Hkp in Hx. cbn in Hx. lia. }
    rewrite Hi. by rewrite bool_decide_true.
Qed.

Lemma position_none probe ks : StronglySorted key_lt ks → position probe ks = None ↔ probe ∉ ks.
Proof.
  intros Hs. rewrite list_elem_of_lookup. setoid_rewrite <- position_some; [|done].
  destruct (position probe ks); naive_solver.
Qed.

Lemma keys_lookup p i : keys p !! i = fst <$> cells p !! i.
Proof. apply list_lookup_fmap. Qed.

Lemma find_exact_ok p probe :
  node_ok p → sorted_node p → find_exact probe p = (Ok (position probe (keys p)), p).
Proof.
  intros Hp Hs. unfold find_exact, mbind, St_bind. rewrite lower_bound_ok, slot_count_ok by (done || apply Hp).
  unfold position. destruct (_ <? nslots p)%nat eqn:Hlt.
  - apply Nat.ltb_lt in Hlt. destruct (lookup_lt_is_Some_2 (cells p) (rank is_lt probe (keys p))) as [[k v] Hc].
    { by rewrite cells_length. }
    destruct (key_value_ok p _ k v Hp Hc) as [-> _]. by rewrite keys_lookup, Hc.
  - apply Nat.ltb_ge in Hlt. by rewrite keys_lookup, lookup_ge_None_2 by (by rewrite cells_length).
Qed.

(** ** The heap *)

Definition floor_of (l : list slot) : nat :=
  foldl (λ f x, if (s_off x <? f)%nat then s_off x else f) CELL_LIMIT l.

Lemma foldl_floor l f :
  (foldl (λ f x, if (s_off x <? f)%nat then s_off x else f) f l ≤ f)%nat ∧
  (∀ x, x ∈ l → foldl (λ f x, if (s_off x <? f)%nat then s_off x else f) f l ≤ s_off x)%nat ∧
  ∀ d, (d ≤ f)%nat → Forall (λ x, d ≤ s_off x)%nat l →
    (d ≤ foldl (λ f x, if (s_off x <? f)%nat then s_off x else f) f l)%nat.
Proof.
  revert f. induction l as [|x l IH]; intros f; cbn [foldl]; [split_and!; [done|set_solver|done]|].
  destruct (IH (if (s_off x <? f)%nat then s_off x else f)) as (H1 & H2 & H3).
  destruct (Nat.ltb_spec (s_off x) f); split_and!; try lia.
  - intros y [->|Hy]%elem_of_cons; [lia|by apply H2].
  - intros d Hd [Hx Hl]%Forall_cons. apply H3; [lia|done].
  - intros y [->|Hy]%elem_of_cons; [lia|by apply H2].
  - intros d Hd [Hx Hl]%Forall_cons. by apply H3.
Qed.

Lemma floor_slots_ok p f i todo :
  (slot_off (i + todo) ≤ length p)%nat →
  floor_slots f i todo p =
  (Ok (foldl (λ f x, if (s_off x <? f)%nat then s_off x else f) f (slot_at p <$> seq i todo)), p).
Proof.
  revert f i. induction todo as [|todo IH]; intros f i Hl; [done|]. cbn [floor_slots].
  unfold mbind, St_bind. rewrite rd_usize_ok by lay. rewrite IH by lay. done.
Qed.

Lemma dir_end_off n : dir_end n = slot_off n.
Proof. done. Qed.

Lemma heap_floor_ok p : node_ok p → heap_floor p = (Ok (floor_of (slots p)), p).
Proof.
  intros Hp. unfold heap_floor, mbind, St_bind. rewrite slot_count_ok by apply Hp.
  pose proof (no_dir p Hp). pose proof (no_length p Hp). rewrite dir_end_off in *.
  rewrite floor_slots_ok; [done|]. cbn [Nat.add]. lay.
Qed.

Lemma floor_bounds p : node_ok p →
  (dir_end (nslots p) ≤ floor_of (slots p) ≤ CELL_LIMIT)%nat ∧ ∀ x, x ∈ slots p → (floor_of (slots p) ≤ s_off x)%nat.
Proof.
  intros Hp. destruct (foldl_floor (slots p) CELL_LIMIT) as (H1 & H2 & H3). fold (floor_of (slots p)) in *.
  split; [|done]. split; [|done]. apply H3; [apply Hp|]. eapply Forall_impl; [apply Hp|]. by intros x [? _].
Qed.

(** Bytes left for a further slot and cell. *)
Definition room (p : bytes) : nat := floor_of (slots p) - dir_end (nslots p).

Lemma free_space_ok p : node_ok p → free_space p = (Ok (room p), p).
Proof.
  intros Hp. unfold free_space, mbind, St_bind. rewrite slot_count_ok by apply Hp. by rewrite heap_floor_ok.
Qed.

(** ** Writes *)

Lemma copy_at_app p o a b :
  (o + length a + length b ≤ length p)%nat → copy_at (o + length a) b (copy_at o a p) = copy_at o (a ++ b) p.
Proof.
  intros Hl. apply list_eq. intros i. rewrite !copy_at_lookup by (rewrite ?copy_at_length, ?length_app; lia).
  rewrite length_app. repeat case_decide; try lia; try done.
  - by rewrite lookup_app_r, Nat.sub_add_distr by lia.
  - by rewrite lookup_app_l by lia.
Qed.

Lemma copy_at_app_back p o a b :
  (o + length a + length b ≤ length p)%nat → copy_at o a (copy_at (o + length a) b p) = copy_at o (a ++ b) p.
Proof. intros Hl. rewrite copy_at_comm by lia. by apply copy_at_app. Qed.

Definition slot_bytes (x : slot) : bytes :=
  to_le_bytes 2 (N.of_nat (s_off x)) ++ to_le_bytes 2 (N.of_nat (s_klen x)) ++
  to_le_bytes 2 (N.of_nat (s_vlen x)) ++ to_le_bytes 2 0.

(** The fields of a slot fit their 16 bits. *)
Definition narrow (x : slot) : Prop :=
  N.of_nat (s_off x) < 65536 ∧ N.of_nat (s_klen x) < 65536 ∧ N.of_nat (s_vlen x) < 65536.

Lemma slot_bytes_length x : length (slot_bytes x) = 8%nat.
Proof. unfold slot_bytes. by rewrite !length_app, !to_le_bytes_length. Qed.

Lemma slot_bytes_is_bytes x : is_bytes (slot_bytes x).
Proof. unfold slot_bytes. rewrite !is_bytes_app. auto using to_le_bytes_is_bytes. Qed.

Lemma wr_narrow_ok p o v :
  (o + 2 ≤ length p)%nat → N.of_nat v < 65536 → wr_narrow o v p = (Ok tt, copy_at o (to_le_bytes 2 (N.of_nat v)) p).
Proof.
  intros Hl Hv. unfold wr_narrow. rewrite (proj2 (N.leb_le _ _)) by lia.
  unfold wr_u16. rewrite store_ok; [done|]. by rewrite to_le_bytes_length.
Qed.

Lemma wr_slot_ok p o x :
  (o + 8 ≤ length p)%nat → narrow x →
  wr_slot o (s_off x) (s_klen x) (s_vlen x) p = (Ok tt, copy_at o (slot_bytes x) p).
Proof.
  intros Hl (H1 & H2 & H3). unfold wr_slot, mbind, St_bind.
  rewrite wr_narrow_ok by lia. rewrite wr_narrow_ok by (rewrite ?copy_at_length by (rewrite to_le_bytes_length; lia); lia).
  rewrite wr_narrow_ok.
  2: { rewrite !copy_at_length; rewrite ?copy_at_length; rewrite ?to_le_bytes_length; lia. }
  2: { done. }
  unfold wr_u16. rewrite store_ok.
  2: { rewrite !copy_at_length; rewrite ?copy_at_length; rewrite ?to_le_bytes_length; rewrite ?copy_at_length;
       rewrite ?to_le_bytes_length; lia. }
  f_equal. unfold slot_bytes.
  set (a := to_le_bytes 2 (N.of_nat (s_off x))). set (b := to_le_bytes 2 (N.of_nat (s_klen x))).
  set (c := to_le_bytes 2 (N.of_nat (s_vlen x))). set (d := to_le_bytes 2 0).
  assert (length a = 2%nat ∧ length b = 2%nat ∧ length c = 2%nat ∧ length d = 2%nat) as (Ha & Hb & Hc & Hd).
  { unfold a, b, c, d. by rewrite !to_le_bytes_length. }
  rewrite <- (copy_at_app p o a) by (rewrite ?length_app; lia).
  rewrite <- (copy_at_app _ (o + length a) b) by (rewrite ?length_app, ?copy_at_length; lia).
  rewrite <- (copy_at_app _ (o + length a + length b) c) by (rewrite ?copy_at_length; rewrite ?copy_at_length; lia).
  rewrite Ha, Hb, Hc. by replace (o + 2 + 2)%nat with (o + 4)%nat by lia; replace (o + 4 + 2)%nat with (o + 6)%nat by lia.
Qed.

(** The fields of an encoded slot. *)
Lemma u16_at_app_l a b o : (o + 2 ≤ length a)%nat → u16_at (a ++ b) o = u16_at a o.
Proof.
  intros. unfold u16_at, piece. rewrite drop_app_le by lia. rewrite take_app_le; [done|]. rewrite length_drop. lia.
Qed.

Lemma u16_at_app_r a b o : (length a ≤ o)%nat → u16_at (a ++ b) o = u16_at b (o - length a).
Proof. intros. unfold u16_at, piece. by rewrite drop_app_ge by lia. Qed.

Lemma u16_at_le v b : N.of_nat v < 65536 → u16_at (to_le_bytes 2 (N.of_nat v) ++ b) 0 = v.
Proof.
  intros Hv. rewrite u16_at_app_l by (rewrite to_le_bytes_length; lia). unfold u16_at.
  rewrite piece_all, from_to_le_bytes by (done || (cbn; lia)). lia.
Qed.

Lemma slot_bytes_fields x b :
  narrow x →
  Slot_ (u16_at (slot_bytes x ++ b) 0) (u16_at (slot_bytes x ++ b) 2) (u16_at (slot_bytes x ++ b) 4) = x.
Proof.
  intros (H1 & H2 & H3). unfold slot_bytes. rewrite <- !app_assoc. destruct x as [off kl vl]. cbn [s_off s_klen s_vlen] in *.
  f_equal.
  - by apply u16_at_le.
  - rewrite u16_at_app_r by (by rewrite to_le_bytes_length). rewrite to_le_bytes_length. by apply u16_at_le.
  - rewrite u16_at_app_r by (rewrite to_le_bytes_length; lia). rewrite to_le_bytes_length.
    rewrite u16_at_app_r by (by rewrite to_le_bytes_length). rewrite to_le_bytes_length. by apply u16_at_le.
Qed.

(** Everything outside directory and heap: header, level, special area. *)
Definition same_frame (p p' : bytes) : Prop :=
  piece p' 0 26 = piece p 0 26 ∧ piece p' CELL_LIMIT 16 = piece p CELL_LIMIT 16.

Lemma same_frame_refl p : same_frame p p.
Proof. done. Qed.

Lemma same_frame_trans p q r : same_frame p q → same_frame q r → same_frame p r.
Proof. intros [? ?] [? ?]. split; congruence. Qed.

(** A write outside the frame keeps it. *)
Lemma copy_at_frame p o s : length p = PAGE_SIZE → (26 ≤ o)%nat → (o + length s ≤ CELL_LIMIT)%nat → same_frame p (copy_at o s p).
Proof. intros. split; apply piece_copy_out; lay. Qed.

Lemma frame_fields p p' : length p = PAGE_SIZE → same_frame p p' →
  u16_at p' OFF_LEVEL = u16_at p OFF_LEVEL ∧ u64_at p' SPECIAL_RIGHT = u64_at p SPECIAL_RIGHT ∧
  u64_at p' SPECIAL_LEFTMOST = u64_at p SPECIAL_LEFTMOST.
Proof.
  intros Hl [Hh Hs]. pose proof layout as (HL & _ & _ & _ & _ & HR & HM & _). unfold u16_at, u64_at. rewrite HL, HR, HM.
  assert (∀ q, piece q 24 2 = piece (piece q 0 26) 24 2) as H1 by (intros; by rewrite piece_piece by lia).
  assert (∀ q, piece q (CELL_LIMIT + 8) 8 = piece (piece q CELL_LIMIT 16) 8 8) as H2 by (intros; by rewrite piece_piece by lia).
  assert (∀ q, piece q CELL_LIMIT 8 = piece (piece q CELL_LIMIT 16) 0 8) as H3.
  { intros. rewrite piece_piece by lia. by rewrite Nat.add_0_r. }
  by rewrite (H1 p'), (H1 p), (H2 p'), (H2 p), (H3 p'), (H3 p), Hh, Hs.
Qed.

(** ** The directory *)

(** The bytes of the heap from [d] on are the same. *)
Definition same_heap (d : nat) (p p' : bytes) : Prop :=
  ∀ o k, (d ≤ o)%nat → (o + k ≤ CELL_LIMIT)%nat → piece p' o k = piece p o k.

Lemma same_heap_trans d p q r : same_heap d p q → same_heap d q r → same_heap d p r.
Proof. intros H1 H2 o k Hd Hk. rewrite H2 by done. by apply H1. Qed.

Lemma same_heap_mono d d' p q : (d ≤ d')%nat → same_heap d p q → same_heap d' p q.
Proof. intros Hd H o k Ho Hk. apply H; lia. Qed.

Lemma copy_at_below d p o s :
  length p = PAGE_SIZE → (o + length s ≤ d)%nat → (d ≤ CELL_LIMIT)%nat → same_heap d p (copy_at o s p).
Proof. intros Hl Ho Hd o' k Hlo Hk. apply piece_copy_out; lay. Qed.

Lemma cell_of_same d p p' x n :
  same_heap d p p' → (d ≤ dir_end n)%nat → in_heap n x → cell_of p' x = cell_of p x.
Proof. intros H Hd [? ?]. unfold cell_of, s_len in *. rewrite !H; (done || lia). Qed.

Lemma slots_ext p l : nslots p = length l → (∀ i x, l !! i = Some x → slot_at p i = x) → slots p = l.
Proof.
  intros Hn Hl. apply list_eq. intros i. destruct (l !! i) as [x|] eqn:Hx.
  - apply slots_lookup. rewrite Hn. split; [by eapply lookup_lt_Some|]. symmetry. by apply Hl.
  - apply lookup_ge_None_2. rewrite slots_length, Hn. by apply lookup_ge_None_1.
Qed.

(** A page whose slot count is overwritten. *)
Lemma count_write p n :
  length p = PAGE_SIZE → N.of_nat n < 65536 →
  let p' := copy_at OFF_SLOT_COUNT (to_le_bytes 2 (N.of_nat n)) p in
  length p' = PAGE_SIZE ∧ same_frame p p' ∧ nslots p' = n ∧ same_heap SLOT_DIR_START p p' ∧
  (∀ i, (slot_off (S i) ≤ CELL_LIMIT)%nat → slot_at p' i = slot_at p i).
Proof.
  intros Hl Hn p'. split_and!.
  - unfold p'. rewrite copy_at_length; lay.
  - apply copy_at_frame; lay.
  - unfold nslots, p'. rewrite u16_at_write; (done || lay).
  - apply copy_at_below; lay.
  - intros i Hi. unfold slot_at, p'. by rewrite !u16_at_copy_out by lay.
Qed.

(** The slots from [pos] on replaced by those of [s], in a buffer of whole slots. *)
Lemma dir_write p pos s :
  length p = PAGE_SIZE → (slot_off pos + length s ≤ CELL_LIMIT)%nat →
  let p' := copy_at (slot_off pos) s p in
  length p' = PAGE_SIZE ∧ same_frame p p' ∧ nslots p' = nslots p ∧ same_heap (slot_off pos + length s) p p' ∧
  (∀ i, (i < pos)%nat → slot_at p' i = slot_at p i) ∧
  (∀ i, (pos ≤ i)%nat → (slot_off (S i) ≤ slot_off pos + length s)%nat →
     slot_at p' i = Slot_ (u16_at s ((i - pos) * 8)) (u16_at s ((i - pos) * 8 + 2)) (u16_at s ((i - pos) * 8 + 4))).
Proof.
  intros Hl Hs p'. split_and!.
  - unfold p'. rewrite copy_at_length; lay.
  - apply copy_at_frame; lay.
  - unfold nslots, p'. by rewrite u16_at_copy_out by lay.
  - apply copy_at_below; lay.
  - intros i Hi. unfold slot_at, p'. by rewrite !u16_at_copy_out by lay.
  - intros i Hi Hi'. unfold slot_at, p'. rewrite !u16_at_copy_in by lay. f_equal; f_equal; lay.
Qed.

Lemma dir_insert p pos x n :
  length p = PAGE_SIZE → nslots p = n → (pos ≤ n)%nat → (dir_end (S n) ≤ CELL_LIMIT)%nat → narrow x →
  let p' := copy_at OFF_SLOT_COUNT (to_le_bytes 2 (N.of_nat (S n)))
              (copy_at (slot_off pos) (slot_bytes x ++ piece p (slot_off pos) ((n - pos) * SLOT_SIZE)) p) in
  length p' = PAGE_SIZE ∧ same_frame p p' ∧ same_heap (dir_end (S n)) p p' ∧ nslots p' = S n ∧
  slots p' = take pos (slots p) ++ x :: drop pos (slots p).
Proof.
  intros Hl Hn Hpos Hd Hx p'. rewrite dir_end_off in *.
  set (s := slot_bytes x ++ piece p (slot_off pos) ((n - pos) * SLOT_SIZE)) in *.
  assert (length s = ((S n - pos) * 8))%nat as Hs.
  { unfold s. rewrite length_app, slot_bytes_length, piece_length by lay. lay. }
  destruct (dir_write p pos s) as (Hl1 & Hf1 & Hn1 & Hh1 & Hlt1 & Hge1); [done|lay|].
  destruct (count_write (copy_at (slot_off pos) s p) (S n)) as (Hl2 & Hf2 & Hn2 & Hh2 & Hi2); [done|lay|].
  fold p' in Hl2, Hf2, Hn2, Hh2, Hi2. split_and!; [done|by eapply same_frame_trans| |done|].
  { eapply same_heap_trans; eapply same_heap_mono; [|exact Hh1| |exact Hh2]; lay. }
  apply slots_ext.
  { rewrite Hn2, length_app, length_cons, length_take, length_drop, slots_length. lia. }
  intros i y Hy.
  assert (i < S n)%nat as Hi.
  { apply lookup_lt_Some in Hy. rewrite length_app, length_cons, length_take, length_drop, slots_length in Hy. lia. }
  rewrite Hi2 by lay. destruct (decide (i < pos)%nat) as [Hlt|Hge].
  - rewrite lookup_app_l, lookup_take_lt in Hy by (rewrite ?length_take, ?slots_length; lia).
    apply slots_lookup in Hy as [_ ->]. by apply Hlt1.
  - rewrite lookup_app_r in Hy by (rewrite length_take, slots_length; lia).
    rewrite length_take, slots_length, Nat.min_l in Hy by lia. rewrite Hge1 by lay.
    destruct (i - pos)%nat as [|j] eqn:Hj.
    + cbn in Hy. injection Hy as <-. by apply slot_bytes_fields.
    + change (drop pos (slots p) !! j = Some y) in Hy. rewrite lookup_drop in Hy. apply slots_lookup in Hy as [Hj' ->].
      unfold s, slot_at. rewrite !u16_at_app_r by (rewrite slot_bytes_length; lia). rewrite slot_bytes_length.
      rewrite !u16_at_piece by lay. f_equal; f_equal; lay.
Qed.

Lemma dir_remove p i n :
  length p = PAGE_SIZE → nslots p = n → (i < n)%nat → (dir_end n ≤ CELL_LIMIT)%nat →
  let p' := copy_at OFF_SLOT_COUNT (to_le_bytes 2 (N.of_nat (n - 1)))
              (copy_at (slot_off i) (piece p (slot_off (S i)) ((n - i - 1) * SLOT_SIZE)) p) in
  length p' = PAGE_SIZE ∧ same_frame p p' ∧ same_heap (dir_end n) p p' ∧ nslots p' = (n - 1)%nat ∧
  slots p' = delete i (slots p).
Proof.
  intros Hl Hn Hi Hd p'. rewrite dir_end_off in *.
  set (s := piece p (slot_off (S i)) ((n - i - 1) * SLOT_SIZE)) in *.
  assert (length s = ((n - 1 - i) * 8))%nat as Hs by (unfold s; rewrite piece_length by lay; lay).
  destruct (dir_write p i s) as (Hl1 & Hf1 & Hn1 & Hh1 & Hlt1 & Hge1); [done|lay|].
  destruct (count_write (copy_at (slot_off i) s p) (n - 1)) as (Hl2 & Hf2 & Hn2 & Hh2 & Hi2); [done|lay|].
  fold p' in Hl2, Hf2, Hn2, Hh2, Hi2. split_and!; [done|by eapply same_frame_trans| |done|].
  { eapply same_heap_trans; eapply same_heap_mono; [|exact Hh1| |exact Hh2]; lay. }
  apply slots_ext.
  { rewrite Hn2, length_delete, slots_length; [lia|]. apply lookup_lt_is_Some. rewrite slots_length. lia. }
  intros j y Hy. rewrite list_lookup_delete in Hy. case_decide as Hji.
  - apply slots_lookup in Hy as [_ ->]. rewrite Hi2 by lay. by apply Hlt1.
  - apply slots_lookup in Hy as [Hj ->]. rewrite Hi2 by lay. rewrite Hge1 by lay. unfold s, slot_at.
    rewrite !u16_at_piece by lay. f_equal; f_equal; lay.
Qed.

(** ** Inserting and removing cells *)

Definition insert_at {A} (i : nat) (a : A) (l : list A) : list A := take i l ++ a :: drop i l.

Lemma insert_at_fmap {A B} (f : A → B) i a l : f <$> insert_at i a l = insert_at i (f a) (f <$> l).
Proof. unfold insert_at. by rewrite fmap_app, fmap_cons, fmap_take, fmap_drop. Qed.

Lemma insert_at_perm {A} i (a : A) l : insert_at i a l ≡ₚ a :: l.
Proof. unfold insert_at. rewrite <- Permutation_middle. by rewrite take_drop. Qed.

Lemma occupied_perm l l' : l ≡ₚ l' → occupied l ≡ₚ occupied l'.
Proof. unfold occupied. induction 1; csimpl; [done|by f_equiv|solve_Permutation|by etrans]. Qed.

Lemma elem_of_occupied l i : i ∈ occupied l ↔ ∃ x, x ∈ l ∧ (s_off x ≤ i < s_off x + s_len x)%nat.
Proof. unfold occupied. rewrite list_elem_of_bind. setoid_rewrite elem_of_seq. naive_solver. Qed.

(** A write into the heap leaves the directory. *)
Lemma heap_write p o s :
  node_ok p → is_bytes s → (dir_end (nslots p) ≤ o)%nat → (o + length s ≤ CELL_LIMIT)%nat →
  let p' := copy_at o s p in
  length p' = PAGE_SIZE ∧ is_bytes p' ∧ same_frame p p' ∧ nslots p' = nslots p ∧ slots p' = slots p.
Proof.
  intros Hp Hb Ho Hs p'. pose proof (no_length p Hp) as Hl.
  assert (nslots p' = nslots p) as Hn by (unfold nslots, p'; by rewrite u16_at_copy_out by lay).
  split_and!; [unfold p'; rewrite copy_at_length; lay|apply copy_at_is_bytes; [done|apply Hp]|apply copy_at_frame; lay|done|].
  apply slots_ext; [by rewrite Hn, slots_length|]. intros i x Hx.
  destruct (slots_in_page p i x Hp Hx) as [Hi _].
  apply slots_lookup in Hx as [Hlt ->]. unfold slot_at, p'. by rewrite !u16_at_copy_out by lay.
Qed.

(** A cell that shares no byte with a write is unchanged. *)
Lemma cell_of_apart p o s x :
  length p = PAGE_SIZE → (o + length s ≤ length p)%nat → (o + length s ≤ s_off x ∨ s_off x + s_len x ≤ o)%nat →
  cell_of (copy_at o s p) x = cell_of p x.
Proof. intros Hl Ho Hx. unfold cell_of, s_len in *. rewrite !piece_copy_out by lia. done. Qed.

Lemma cells_apart p o s :
  node_ok p → is_bytes s → (dir_end (nslots p) ≤ o)%nat → (o + length s ≤ CELL_LIMIT)%nat →
  (∀ x, x ∈ slots p → (o + length s ≤ s_off x ∨ s_off x + s_len x ≤ o)%nat) →
  node_ok (copy_at o s p) ∧ cells (copy_at o s p) = cells p.
Proof.
  intros Hp Hb Ho Hs Ha. destruct (heap_write p o s Hp Hb Ho Hs) as (Hl & Hb' & _ & Hn & Hsl).
  pose proof (no_length p Hp). split.
  - split; rewrite ?Hn, ?Hsl; (done || apply Hp).
  - unfold cells. rewrite Hsl. apply list_fmap_ext. intros i x Hx. apply cell_of_apart; [done|lay|].
    apply Ha. by eapply list_elem_of_lookup_2.
Qed.

Lemma room_apart p o s :
  node_ok p → is_bytes s → (dir_end (nslots p) ≤ o)%nat → (o + length s ≤ CELL_LIMIT)%nat →
  room (copy_at o s p) = room p.
Proof.
  intros Hp Hb Ho Hs. destruct (heap_write p o s Hp Hb Ho Hs) as (_ & _ & _ & Hn & Hsl).
  unfold room. by rewrite Hn, Hsl.
Qed.

Lemma copy_within_ok p src len dst :
  (src + len ≤ length p)%nat → (dst + len ≤ length p)%nat →
  copy_within src len dst p = (Ok tt, copy_at dst (piece p src len) p).
Proof.
  intros Hs Hd. unfold copy_within, mbind, St_bind. rewrite read_ok by done. apply store_ok. by rewrite piece_length.
Qed.

(** The page an insert leaves: the cell below the heap, its slot at [pos]. *)
Definition inserted_page (p k v : bytes) (pos : nat) : bytes :=
  let n := nslots p in
  let off := (floor_of (slots p) - (length k + length v))%nat in
  let q := copy_at off (k ++ v) p in
  copy_at OFF_SLOT_COUNT (to_le_bytes 2 (N.of_nat (S n)))
    (copy_at (slot_off pos) (slot_bytes (Slot_ off (length k) (length v)) ++ piece q (slot_off pos) ((n - pos) * SLOT_SIZE)) q).

Lemma insert_cell_run p k v :
  node_ok p → sorted_node p → is_bytes k → is_bytes v → (length k + length v + 8 ≤ room p)%nat →
  insert_cell k v p = (Ok true, inserted_page p k v (rank is_lt k (keys p))).
Proof.
  intros Hp Hs Hk Hv Hroom. destruct (floor_bounds p Hp) as [[Hf1 Hf2] Hf3]. pose proof (no_length p Hp) as Hl.
  pose proof (no_dir p Hp) as Hd. unfold room in Hroom. rewrite dir_end_off in *.
  set (off := (floor_of (slots p) - (length k + length v))%nat).
  assert (slot_off (nslots p) + 8 ≤ off)%nat as Hoff by (unfold off; lia).
  assert (is_bytes (k ++ v)) as Hkv by (by apply is_bytes_app).
  destruct (cells_apart p off (k ++ v) Hp Hkv) as [Hq Hqc].
  { rewrite dir_end_off. lia. }
  { rewrite length_app. unfold off. lia. }
  { intros x Hx. left. rewrite length_app. specialize (Hf3 x Hx). unfold off. lia. }
  set (q := copy_at off (k ++ v) p) in *. pose proof (no_length q Hq) as Hlq.
  assert (keys q = keys p) as Hkeys by (unfold keys; by rewrite Hqc).
  assert (nslots q = nslots p) as Hnq by (by rewrite <- !cells_length, Hqc).
  pose proof (rank_le is_lt k (keys p)) as Hrank.
  assert (length (keys p) = nslots p) as Hkl by (unfold keys; by rewrite length_fmap, cells_length). rewrite Hkl in Hrank.
  unfold insert_cell. unfold mbind, St_bind. rewrite free_space_ok by done. unfold room. rewrite dir_end_off.
  rewrite (proj2 (Nat.ltb_ge _ _)) by lay. rewrite slot_count_ok, heap_floor_ok by done. fold off.
  rewrite store_ok by lay. rewrite store_ok by lay. rewrite copy_at_app by lay. fold q.
  rewrite lower_bound_ok by (done || unfold sorted_node; by rewrite Hkeys). rewrite Hkeys.
  set (pos := rank is_lt k (keys p)) in *. rewrite copy_within_ok by lay.
  assert (length (piece q (slot_off pos) ((nslots p - pos) * SLOT_SIZE)) = ((nslots p - pos) * 8)%nat) as Hpl.
  { rewrite piece_length by lay. lay. }
  rewrite (wr_slot_ok _ _ (Slot_ off (length k) (length v))).
  2: { rewrite copy_at_length; rewrite ?Hpl; lay. }
  2: { split_and!; cbn [s_off s_klen s_vlen]; lay. }
  unfold set_slot_count. rewrite wr_narrow_ok.
  2: { rewrite !copy_at_length; rewrite ?copy_at_length; rewrite ?slot_bytes_length, ?Hpl; lay. }
  2: { lay. }
  unfold mret, St_ret. f_equal. unfold inserted_page. fold off q. f_equal.
  rewrite <- (copy_at_app_back q); rewrite ?slot_bytes_length, ?Hpl; [|lay]. f_equal.
Qed.
