(* ===== verification/BTreeCells.v ===== *)
(** A node is a sorted list of cells (theorems about BTreeNode.v).

    What inserts, removals, replacements, truncation and compaction do to the cells of a
    well-formed node, when they report that there is no room, and that a page which passes
    [validate] is read without a panic whatever bytes it holds. *)
From S2P Require Import Prelude Core Bytes WalRecord PageFormat Float64 Compare KeyTree BTreeNode BTreeNodeFacts.
From stdpp Require Import options.

Open Scope N_scope.

(** ** Inserts *)

Lemma floor_of_perm l l' : l ≡ₚ l' → floor_of l = floor_of l'.
Proof.
  intros Hp. unfold floor_of. generalize CELL_LIMIT. induction Hp; intros f; cbn [foldl]; [done|auto|..|].
  - f_equal. repeat (case_match; try done); rewrite ?Nat.ltb_lt, ?Nat.ltb_ge in *; lia.
  - by rewrite IHHp1.
Qed.

Lemma floor_of_cons x l : floor_of (x :: l) = Nat.min (s_off x) (floor_of l).
Proof.
  unfold floor_of. cbn [foldl]. generalize CELL_LIMIT. induction l as [|y l IH]; intros f; cbn [foldl].
  - destruct (Nat.ltb_spec (s_off x) f); lia.
  - rewrite <- IH. f_equal. destruct (Nat.ltb_spec (s_off x) f), (Nat.ltb_spec (s_off y) f);
      repeat (case_match; try done); rewrite ?Nat.ltb_lt, ?Nat.ltb_ge in *; lia.
Qed.

Lemma insert_cell_full p k v :
  node_ok p → (room p < length k + length v + 8)%nat → insert_cell k v p = (Ok false, p).
Proof.
  intros Hp Hr. unfold insert_cell, mbind, St_bind. rewrite free_space_ok by done.
  rewrite (proj2 (Nat.ltb_lt _ _)) by lay. done.
Qed.

(** The cell goes to its place in the order, at the cost of its bytes and of one slot. *)
Lemma insert_cell_ok p k v :
  node_ok p → sorted_node p → is_bytes k → is_bytes v → (length k + length v + 8 ≤ room p)%nat →
  ∃ p', insert_cell k v p = (Ok true, p') ∧ node_ok p' ∧ same_frame p p' ∧
    cells p' = insert_at (rank is_lt k (keys p)) (k, v) (cells p) ∧
    (room p' = room p - (length k + length v + 8))%nat.
Proof.
  intros Hp Hs Hk Hv Hr. exists (inserted_page p k v (rank is_lt k (keys p))).
  split; [by apply insert_cell_run|]. set (pos := rank is_lt k (keys p)).
  assert (pos ≤ nslots p)%nat as Hpos.
  { rewrite <- cells_length. unfold pos. etrans; [apply rank_le|]. unfold keys. by rewrite length_fmap. }
  destruct (floor_bounds p Hp) as [[Hf1 Hf2] Hf3]. pose proof (no_length p Hp) as Hl. unfold room in Hr.
  unfold inserted_page. set (off := (floor_of (slots p) - (length k + length v))%nat).
  assert (off + length (k ++ v) = floor_of (slots p))%nat as Hoff by (rewrite length_app; unfold off; lay).
  assert (is_bytes (k ++ v)) as Hkv by (by apply is_bytes_app).
  assert (dir_end (nslots p) + 8 ≤ off)%nat as Hlow by (unfold off; lay).
  destruct (cells_apart p off (k ++ v) Hp Hkv) as [Hq Hqc]; [lia|lia|intros x Hx; left; rewrite Hoff; auto|].
  destruct (heap_write p off (k ++ v) Hp Hkv) as (Hlq & Hbq & Hfq & Hnq & Hsq); [lia|lia|].
  set (q := copy_at off (k ++ v) p) in *. set (x := Slot_ off (length k) (length v)).
  assert (cell_of q x = (k, v)) as Hcx.
  { unfold cell_of, x, q. cbn [s_off s_klen s_vlen]. rewrite length_app in Hoff.
    rewrite !piece_copy_in by (rewrite ?length_app; lay). rewrite Nat.sub_diag, Nat.add_comm, Nat.add_sub. unfold piece.
    rewrite drop_0, take_app_length, drop_app_length. by rewrite take_ge. }
  destruct (dir_insert q pos x (nslots p)) as (Hl' & Hf' & Hh' & Hn' & Hs'); [done|done|done|lay|split_and!; cbn; lay|].
  set (p' := copy_at OFF_SLOT_COUNT _ _) in *.
  assert (slots p' = insert_at pos x (slots p)) as Hsl by (by rewrite Hs', Hsq).
  assert (Forall (in_heap (S (nslots p))) (slots p')) as Hheap.
  { rewrite Hsl, insert_at_perm. constructor; [split; unfold s_len; cbn; rewrite length_app in Hoff; lay|].
    apply Forall_forall. intros y Hy. pose proof (no_heap p Hp) as Hh. rewrite Forall_forall in Hh.
    destruct (Hh y Hy) as [_ ?]. specialize (Hf3 y Hy). split; lay. }
  assert (NoDup (occupied (slots p'))) as Hnd.
  { rewrite (occupied_perm _ (x :: slots p)) by (rewrite Hsl; apply insert_at_perm). unfold occupied. csimpl.
    apply NoDup_app. split_and!; [apply NoDup_seq| |apply Hp]. intros i Hi Hin.
    apply elem_of_occupied in Hin as (y & Hy & Hi'). apply elem_of_seq in Hi. specialize (Hf3 y Hy).
    unfold s_len in *. cbn in Hi. rewrite length_app in Hoff. lia. }
  split_and!.
  - split; [done| |lay|by rewrite Hn'|done]. unfold p'.
    apply copy_at_is_bytes; [apply to_le_bytes_is_bytes|]. apply copy_at_is_bytes; [|exact Hbq].
    apply is_bytes_app. split; [apply slot_bytes_is_bytes|by apply piece_is_bytes].
  - by eapply same_frame_trans.
  - unfold cells. rewrite Hsl, insert_at_fmap. rewrite (cell_of_same (dir_end (S (nslots p))) q p' x (S (nslots p))); [|done|done|].
    2: { rewrite Forall_forall in Hheap. apply Hheap. rewrite Hsl, insert_at_perm. left. }
    rewrite Hcx. f_equal. change (cell_of p <$> slots p) with (cells p). rewrite <- Hqc. unfold cells. rewrite Hsq. apply list_fmap_ext. intros i y Hy.
    apply (cell_of_same (dir_end (S (nslots p))) q p' y (S (nslots p))); [done|done|].
    rewrite Forall_forall in Hheap. apply Hheap. rewrite Hsl, insert_at_perm. right. by eapply list_elem_of_lookup_2.
  - unfold room. rewrite Hn', (floor_of_perm _ (x :: slots p)) by (rewrite Hsl; apply insert_at_perm).
    rewrite floor_of_cons. cbn [s_off x]. unfold off in *. lay.
Qed.

(** ** Removals and truncation *)

(** A page with some of the slots of [p], whose heap is that of [p]. *)
Lemma fewer_slots p p' d l :
  node_ok p → length p' = PAGE_SIZE → is_bytes p' → same_heap d p p' → (d ≤ dir_end (nslots p))%nat →
  slots p' = l → l ⊆+ slots p →
  node_ok p' ∧ cells p' = cell_of p <$> l ∧ (floor_of (slots p) ≤ floor_of l)%nat.
Proof.
  intros Hp Hl Hb Hh Hd Hs Hsub. assert (∀ x, x ∈ l → x ∈ slots p) as Hin by (intros x Hx; by eapply elem_of_submseteq).
  pose proof (no_heap p Hp) as Hheap. rewrite Forall_forall in Hheap.
  assert (nslots p' ≤ nslots p)%nat as Hn.
  { rewrite <- !slots_length, Hs. by apply submseteq_length. }
  pose proof (no_dir p Hp). split_and!.
  - split; [done|done|lay|..].
    + rewrite Hs. apply Forall_forall. intros x Hx. destruct (Hheap x (Hin x Hx)). split; lay.
    + rewrite Hs. destruct (submseteq_Permutation l (slots p) Hsub) as [k Hk].
      pose proof (no_apart p Hp) as Hnd. rewrite (occupied_perm _ _ Hk) in Hnd. unfold occupied in *.
      rewrite bind_app in Hnd. by apply NoDup_app in Hnd as [? _].
  - unfold cells. rewrite Hs. apply list_fmap_ext. intros i x Hx. apply (cell_of_same d p p' x (nslots p)); [done|done|].
    apply Hheap, Hin. by eapply list_elem_of_lookup_2.
  - destruct (foldl_floor l CELL_LIMIT) as (_ & _ & H3). apply H3; [apply floor_bounds; done|].
    apply Forall_forall. intros x Hx. apply floor_bounds; auto.
Qed.

Lemma remove_at_ok p i :
  node_ok p → (i < nslots p)%nat →
  ∃ p', remove_at i p = (Ok tt, p') ∧ node_ok p' ∧ same_frame p p' ∧ cells p' = delete i (cells p) ∧
    (room p + 8 ≤ room p')%nat.
Proof.
  intros Hp Hi. pose proof (no_length p Hp) as Hl. pose proof (no_dir p Hp) as Hd.
  unfold remove_at, mbind, St_bind. rewrite slot_count_ok by done. rewrite (proj2 (Nat.ltb_lt _ _)) by done. cbn [negb].
  rewrite copy_within_ok by lay. unfold set_slot_count.
  assert (length (piece p (slot_off (S i)) ((nslots p - i - 1) * SLOT_SIZE)) = (nslots p - i - 1) * 8)%nat as Hpl.
  { rewrite piece_length; lay. }
  rewrite wr_narrow_ok; [|rewrite copy_at_length; rewrite ?Hpl; lay|lay].
  destruct (dir_remove p i (nslots p)) as (Hl' & Hf & Hh & Hn & Hs); [done..|].
  set (p' := copy_at OFF_SLOT_COUNT _ _) in *. exists p'. split; [done|].
  destruct (fewer_slots p p' (dir_end (nslots p)) (delete i (slots p))) as (Hok & Hc & Hfl); try done.
  - unfold p'. apply copy_at_is_bytes; [apply to_le_bytes_is_bytes|]. apply copy_at_is_bytes; [|apply Hp].
    by apply piece_is_bytes, Hp.
  - apply sublist_submseteq, sublist_delete.
  - split_and!; [done|done|by rewrite Hc, list_fmap_delete|].
    destruct (floor_bounds p Hp). unfold room. rewrite Hn, Hs. lay.
Qed.

Lemma truncate_ok p keep :
  node_ok p → (keep ≤ nslots p)%nat →
  ∃ p', truncate keep p = (Ok tt, p') ∧ node_ok p' ∧ same_frame p p' ∧ cells p' = take keep (cells p).
Proof.
  intros Hp Hk. pose proof (no_length p Hp) as Hl. pose proof (no_dir p Hp) as Hd.
  unfold truncate, set_slot_count. rewrite wr_narrow_ok by lay.
  destruct (count_write p keep) as (Hl' & Hf & Hn & Hh & Hs); [done|lay|].
  set (p' := copy_at OFF_SLOT_COUNT _ _) in *.
  exists p'. split; [done|].
  destruct (fewer_slots p p' SLOT_DIR_START (take keep (slots p))) as (Hok & Hc & _); try done.
  - unfold p'. apply copy_at_is_bytes; [apply to_le_bytes_is_bytes|apply Hp].
  - lay.
  - apply slots_ext; [rewrite Hn, length_take, slots_length; lia|]. intros i x Hx.
    assert (i < keep)%nat by (apply lookup_lt_Some in Hx; rewrite length_take in Hx; lia).
    rewrite lookup_take_lt in Hx by done. apply slots_lookup in Hx as [? ->]. apply Hs. lay.
  - apply sublist_submseteq, sublist_take.
  - split_and!; [done|done|]. by rewrite Hc, fmap_take.
Qed.

(** ** Replacements *)

Lemma NoDup_bind_apart {A B} (f : A → list B) l i j x y b :
  NoDup (l ≫= f) → l !! i = Some x → l !! j = Some y → i ≠ j → b ∈ f x → b ∉ f y.
Proof.
  revert i j. induction l as [|a l IH]; intros i j Hnd Hi Hj Hne Hx Hy; [done|].
  csimpl in *. apply NoDup_app in Hnd as (_ & Hap & Hnd).
  destruct i as [|i], j as [|j]; try done; cbn in Hi, Hj; simplify_eq.
  - apply (Hap b Hx), list_elem_of_bind. exists y. split; [done|by eapply list_elem_of_lookup_2].
  - apply (Hap b Hy), list_elem_of_bind. exists x. split; [done|by eapply list_elem_of_lookup_2].
  - eapply (IH i j); eauto.
Qed.

(** Two cells of a node, empty ones apart, share no byte. *)
Lemma slots_apart p i j x y :
  node_ok p → slots p !! i = Some x → slots p !! j = Some y → i ≠ j → (0 < s_len x)%nat → (0 < s_len y)%nat →
  (s_off x + s_len x ≤ s_off y ∨ s_off y + s_len y ≤ s_off x)%nat.
Proof.
  intros Hp Hx Hy Hne Hlx Hly. destruct (decide (s_off x + s_len x ≤ s_off y)%nat); [by left|].
  destruct (decide (s_off y + s_len y ≤ s_off x)%nat); [by right|]. exfalso.
  eapply (NoDup_bind_apart (λ x, seq (s_off x) (s_len x)) (slots p) i j x y (Nat.max (s_off x) (s_off y)));
    [apply Hp|done|done|done|rewrite elem_of_seq; lia..].
Qed.

(** Overwriting bytes of one cell leaves the others. *)
Lemma cell_of_other p i j x y o s :
  node_ok p → slots p !! i = Some x → slots p !! j = Some y → i ≠ j →
  (s_off x ≤ o)%nat → (o + length s ≤ s_off x + s_len x)%nat → cell_of (copy_at o s p) y = cell_of p y.
Proof.
  intros Hp Hx Hy Hne Ho Hs. destruct (slots_in_page p i x Hp Hx) as [_ [_ Hhi]]. pose proof (no_length p Hp).
  destruct (decide (s_len y = 0)%nat) as [Hz|Hnz].
  - unfold s_len in Hz. unfold cell_of. assert (s_klen y = 0 ∧ s_vlen y = 0)%nat as [-> ->] by lia. done.
  - destruct s as [|b s].
    { unfold copy_at. cbn [length]. by rewrite Nat.add_0_r, app_nil_l, take_drop. }
    cbn [length] in *. pose proof (slots_apart p i j x y Hp Hx Hy Hne). apply cell_of_apart; [done|cbn [length]; lay|].
    cbn [length]. lia.
Qed.

(** The page after a value is replaced in its cell. *)
Lemma value_write p i x v :
  node_ok p → is_bytes v → slots p !! i = Some x → (length v ≤ s_vlen x)%nat →
  let q := copy_at (s_off x + s_klen x) v p in
  let p' := copy_at (slot_off i + 4) (to_le_bytes 2 (N.of_nat (length v))) q in
  length p' = PAGE_SIZE ∧ is_bytes p' ∧ same_frame p p' ∧ same_heap (dir_end (nslots p)) q p' ∧
  slots p' = <[i := Slot_ (s_off x) (s_klen x) (length v)]> (slots p).
Proof.
  intros Hp Hb Hx Hv q p'. destruct (slots_in_page p i x Hp Hx) as [Hi [Hlo Hhi]]. unfold s_len in Hhi.
  pose proof (no_length p Hp) as Hl. pose proof (no_dir p Hp) as Hd.
  destruct (heap_write p (s_off x + s_klen x) v Hp Hb) as (Hlq & Hbq & Hfq & Hnq & Hsq); [lia|lia|]. fold q in Hlq, Hbq, Hfq, Hnq, Hsq.
  assert (nslots p' = nslots p) as Hn' by (rewrite <- Hnq; unfold nslots, p'; rewrite u16_at_copy_out; [done|lay..]).
  split_and!.
  - unfold p'. rewrite copy_at_length; [done|lay].
  - apply copy_at_is_bytes; [apply to_le_bytes_is_bytes|done].
  - eapply same_frame_trans; [done|]. apply copy_at_frame; lay.
  - apply copy_at_below; lay.
  - apply slots_ext; [by rewrite Hn', length_insert, slots_length|]. intros j y Hy.
    rewrite list_lookup_insert in Hy. case_decide as Hj.
    + destruct Hj as [<- _]. injection Hy as <-. rewrite <- Hsq in Hx. apply slots_lookup in Hx as [_ Hx].
      unfold slot_at, p'. rewrite u16_at_write by lay. rewrite !(u16_at_copy_out q) by lay. by rewrite Hx.
    + rewrite <- Hsq in Hy. pose proof Hy as [Hjn ->]%slots_lookup.
      assert (j ≠ i) as Hne. { intros ->. apply Hj. split; [done|]. rewrite slots_length. lia. }
      unfold slot_at, p'. rewrite !u16_at_copy_out by lay. done.
Qed.

Lemma replace_in_place p i k w v :
  node_ok p → is_bytes v → cells p !! i = Some (k, w) → (length v ≤ length w)%nat →
  ∃ p', replace_value i k v p = (Ok true, p') ∧ node_ok p' ∧ same_frame p p' ∧ cells p' = <[i := (k, v)]> (cells p).
Proof.
  intros Hp Hb Hc Hv. destruct (cells_lookup p i (k, w) Hc) as (x & Hx & [= -> ->]).
  destruct (slots_in_page p i x Hp Hx) as [Hi [Hlo Hhi]]. unfold s_len in Hhi.
  pose proof (no_length p Hp) as Hl. pose proof (no_dir p Hp) as Hd. rewrite piece_length in Hv by lay.
  assert (u16_at p (slot_off i) = s_off x ∧ u16_at p (slot_off i + 2) = s_klen x ∧ u16_at p (slot_off i + 4) = s_vlen x)
    as (H1 & H2 & H3) by (apply slots_lookup in Hx as [_ ->]; done).
  unfold replace_value, mbind, St_bind. rewrite rd_usize_ok, H3 by lay. rewrite (proj2 (Nat.leb_le _ _)) by done.
  rewrite !rd_usize_ok, H1, H2 by lay. rewrite store_ok by lay.
  rewrite wr_narrow_ok; [|rewrite copy_at_length by lay; lay|lay].
  destruct (value_write p i x v Hp Hb Hx Hv) as (Hl' & Hb' & Hf & Hh & Hs).
  set (q := copy_at (s_off x + s_klen x) v p) in *.
  set (p' := copy_at (slot_off i + 4) _ q) in *. exists p'. split; [done|].
  assert (nslots p' = nslots p) as Hn' by (by rewrite <- !slots_length, Hs, length_insert).
  set (x' := Slot_ (s_off x) (s_klen x) (length v)) in *.
  assert (Forall (in_heap (nslots p)) (slots p')) as Hheap.
  { rewrite Hs. apply Forall_insert; [apply Hp|]. split; unfold s_len, x'; cbn [s_off s_klen s_vlen]; lia. }
  split_and!; [|done|].
  - split; [done|done|by rewrite Hn'|by rewrite Hn'|]. rewrite Hs.
    pose proof (no_apart p Hp) as Hnd. rewrite <- (take_drop_middle _ _ _ Hx) in Hnd. rewrite insert_take_drop by (by eapply lookup_lt_Some).
    unfold occupied in *. rewrite !bind_app in *. csimpl in *. revert Hnd.
    rewrite !NoDup_app. setoid_rewrite elem_of_app. setoid_rewrite elem_of_seq. unfold s_len, x'. cbn [s_off s_klen s_vlen].
    intros (Ha & Hab & _ & Hbc & Hcc). split_and!; [done| |apply NoDup_seq| |done].
    + intros b Hb1 [Hb2|Hb2]; eapply (Hab b Hb1); [left; lia|by right].
    + intros b Hb1. apply Hbc. lia.
  - apply list_eq. intros j. unfold cells. rewrite list_lookup_fmap, Hs, !list_lookup_insert, list_lookup_fmap, length_fmap.
    case_decide as Hj.
    + cbn [fmap option_fmap option_map]. f_equal. rewrite (cell_of_same (dir_end (nslots p)) q p' x' (nslots p)); [|done|done|].
      2: { split; unfold s_len, x'; cbn [s_off s_klen s_vlen]; lia. }
      unfold cell_of, q, x'. cbn [s_off s_klen s_vlen]. rewrite piece_copy_out by lay. rewrite piece_copy_in by lay.
      by rewrite Nat.sub_diag, piece_all.
    + destruct (slots p !! j) as [y|] eqn:Hy; [|done]. cbn [fmap option_fmap option_map]. f_equal.
      assert (i ≠ j) as Hne. { intros <-. apply Hj. split; [done|]. by eapply lookup_lt_Some. }
      rewrite (cell_of_same (dir_end (nslots p)) q p' y (nslots p)); [|done|done|by eapply slots_in_page].
      eapply (cell_of_other p i j x y); try done; unfold s_len; lia.
Qed.

(** ** Compaction *)

Definition total (l : list slot) : nat := sum_list_with s_len l.

Lemma occupied_length l : length (occupied l) = total l.
Proof.
  unfold occupied, total. induction l as [|x l IH]; [done|]. csimpl. by rewrite length_app, length_seq, IH.
Qed.

(** The cells of a node fit the heap next to its directory. *)
Lemma total_fits p : node_ok p → (dir_end (nslots p) + total (slots p) ≤ CELL_LIMIT)%nat.
Proof.
  intros Hp. pose proof (no_dir p Hp). rewrite <- occupied_length.
  assert (length (occupied (slots p)) ≤ length (seq (dir_end (nslots p)) (CELL_LIMIT - dir_end (nslots p))))%nat as Hle.
  { apply submseteq_length, NoDup_submseteq; [apply Hp|]. intros b (x & Hx & Hb)%elem_of_occupied.
    pose proof (no_heap p Hp) as Hh. rewrite Forall_forall in Hh. destruct (Hh x Hx). apply elem_of_seq. lia. }
  rewrite length_seq in Hle. lia.
Qed.

(** Slots packed below [floor], one under the other. *)
Fixpoint stacked (floor : nat) (l : list slot) : Prop :=
  match l with
  | [] => True
  | x :: l => (s_off x + s_len x = floor)%nat ∧ stacked (s_off x) l
  end.

Lemma stacked_bounds floor l x :
  stacked floor l → x ∈ l → (floor - total l ≤ s_off x ∧ s_off x + s_len x ≤ floor)%nat.
Proof.
  revert floor. induction l as [|y l IH]; intros floor Hs Hx; [by apply elem_of_nil in Hx|].
  destruct Hs as [Hy Hs]. unfold total in *. csimpl. apply elem_of_cons in Hx as [->|Hx]; [lia|].
  specialize (IH _ Hs Hx). lia.
Qed.

Lemma stacked_nodup floor l : stacked floor l → NoDup (occupied l).
Proof.
  revert floor. induction l as [|x l IH]; intros floor; [constructor|]. intros [Hx Hs]. unfold occupied in *. csimpl.
  apply NoDup_app. split_and!; [apply NoDup_seq| |by eapply IH].
  intros b Hb Hin. apply elem_of_seq in Hb. apply elem_of_occupied in Hin as (y & Hy & Hy').
  pose proof (stacked_bounds _ _ _ Hs Hy). lia.
Qed.

Lemma stacked_floor floor l :
  stacked floor l → (total l ≤ floor)%nat → (floor ≤ CELL_LIMIT)%nat → l ≠ [] → floor_of l = (floor - total l)%nat.
Proof.
  revert floor. induction l as [|x l IH]; intros floor Hs Ht Hf Hne; [done|]. destruct Hs as [Hx Hs].
  rewrite floor_of_cons. unfold total in *. csimpl in *. destruct l as [|y l].
  - unfold floor_of. cbn. lia.
  - rewrite (IH (s_off x)); [|done|lia|lia|done]. lia.
Qed.

Definition image (p : bytes) (x : slot) : bytes * nat * nat := (piece p (s_off x) (s_len x), s_klen x, s_vlen x).

Lemma collect_cells_ok p acc i todo :
  node_ok p → (i + todo ≤ nslots p)%nat →
  collect_cells acc i todo p = (Ok (acc ++ (image p <$> (slot_at p <$> seq i todo))), p).
Proof.
  intros Hp. revert acc i. induction todo as [|todo IH]; intros acc i Hi; cbn [collect_cells].
  { by rewrite app_nil_r. }
  destruct (slots_in_page p i (slot_at p i) Hp) as [Hd [Hlo Hhi]]; [apply slots_lookup; split; [lia|done]|].
  pose proof (no_length p Hp) as Hl. pose proof (no_dir p Hp). unfold s_len in Hhi. cbn [slot_at s_off s_klen s_vlen] in *.
  unfold mbind, St_bind. rewrite !rd_usize_ok by lay. rewrite read_ok by lay. rewrite IH by lia.
  by rewrite <- app_assoc.
Qed.

Lemma images_total p (l : list slot) :
  Forall (λ x, s_off x + s_len x ≤ length p)%nat l →
  sum_list_with (λ c : bytes * nat * nat, length c.1.1) (image p <$> l) = total l.
Proof.
  unfold total. induction 1 as [|x l Hx _ IH]; [done|]. csimpl. by rewrite IH, piece_length.
Qed.

Lemma image_cells p (l : list slot) : (λ c : bytes * nat * nat, (take c.1.2 c.1.1, drop c.1.2 c.1.1)) <$> (image p <$> l) = cell_of p <$> l.
Proof.
  rewrite <- list_fmap_compose. apply list_fmap_ext. intros i x _. unfold image, cell_of, piece, s_len. cbn.
  rewrite take_take, skipn_firstn_comm, drop_drop. f_equal; f_equal; lia.
Qed.

Lemma pack_cells_ok p n floor i data :
  length p = PAGE_SIZE → is_bytes p → nslots p = n → (i + length data = n)%nat → (floor ≤ CELL_LIMIT)%nat →
  (dir_end n + sum_list_with (λ c : bytes * nat * nat, length c.1.1) data ≤ floor)%nat →
  Forall (λ c : bytes * nat * nat, length c.1.1 = c.1.2 + c.2 ∧ is_bytes c.1.1)%nat data →
  ∃ p', pack_cells floor i data p = (Ok tt, p') ∧ length p' = PAGE_SIZE ∧ is_bytes p' ∧ same_frame p p' ∧
    nslots p' = n ∧ (∀ j, (j < i)%nat → slot_at p' j = slot_at p j) ∧ same_heap floor p p' ∧
    stacked floor (slot_at p' <$> seq i (length data)) ∧ image p' <$> (slot_at p' <$> seq i (length data)) = data.
Proof.
  revert p floor i. induction data as [|[[c kl] vl] data IH]; intros p floor i Hl Hb Hn Hi Hf Hd Hc.
  { exists p. cbn. by split_and!. }
  apply Forall_cons in Hc as [[Hcl Hcb] Hc]. cbn [fst snd] in *. cbn [sum_list_with fst] in Hd. cbn [length] in Hi. cbn [pack_cells].
  rewrite (proj2 (Nat.ltb_ge _ _)) by lia. set (f := (floor - length c)%nat).
  unfold mbind, St_bind. rewrite store_ok by (unfold f; lay). set (q := copy_at f c p).
  assert (length q = PAGE_SIZE) as Hlq by (unfold q; rewrite copy_at_length; unfold f; lay).
  assert (same_frame p q) as Hfq by (apply copy_at_frame; unfold f; lay).
  assert (∀ o, (o + 2 ≤ dir_end n)%nat → u16_at q o = u16_at p o) as Hqd.
  { intros o Ho. unfold q. rewrite u16_at_copy_out; [done|unfold f; lay..]. }
  assert (nslots q = n) as Hnq by (unfold nslots; rewrite Hqd; [done|lay]).
  set (x := Slot_ f kl vl). rewrite (wr_slot_ok _ _ x); [|unfold x, f; lay|split_and!; unfold x, f; cbn [s_off s_klen s_vlen]; lay].
  destruct (dir_write q i (slot_bytes x)) as (Hlr & Hfr & Hnr & Hhr & Hlt & Hge); [done|rewrite slot_bytes_length; lay|].
  rewrite slot_bytes_length in Hhr, Hge. set (r := copy_at (slot_off i) (slot_bytes x) q) in *.
  assert (slot_at r i = x) as Hri.
  { rewrite Hge by lay. rewrite Nat.sub_diag. cbn [Nat.mul Nat.add]. rewrite <- (app_nil_r (slot_bytes x)).
    apply slot_bytes_fields. split_and!; unfold x, f; cbn [s_off s_klen s_vlen]; lay. }
  destruct (IH r f (S i)) as (p' & He & Hl' & Hb' & Hf' & Hn' & Hlo' & Hh' & Hst & Him); [done| |congruence|lia|unfold f; lia| |done|].
  { unfold r, q. apply copy_at_is_bytes; [apply slot_bytes_is_bytes|]. by apply copy_at_is_bytes. }
  { unfold f. lia. }
  assert (slot_at p' i = x) as Hpi by (rewrite Hlo' by lia; done).
  assert (s_len x = length c) as Hxl by (unfold x, s_len; cbn [s_klen s_vlen]; lia).
  exists p'. split_and!; [done|done|done|by eapply same_frame_trans, same_frame_trans|done|..].
  - intros j Hj. rewrite Hlo', Hlt by lia. unfold slot_at. rewrite !Hqd by lay. done.
  - intros o k Ho Hk. rewrite Hh' by (unfold f; lia). rewrite Hhr by lay. unfold q. apply piece_copy_out; unfold f; lay.
  - cbn [length seq]. rewrite fmap_cons, Hpi. split; [rewrite Hxl; unfold x, f; cbn [s_off]; lia|done].
  - cbn [length seq]. rewrite !fmap_cons, Hpi, Him. f_equal. unfold image. rewrite Hxl. unfold x at 1. cbn [s_off s_klen s_vlen x].
    f_equal. f_equal. rewrite Hh' by (unfold f; lia). rewrite Hhr by (unfold f; lay). unfold q.
    rewrite piece_copy_in by (unfold f; lay). by rewrite Nat.sub_diag, piece_all.
Qed.

(** Compaction keeps the cells, and leaves as much room as their sizes allow. *)
Lemma compact_ok p :
  node_ok p →
  ∃ p', compact p = (Ok tt, p') ∧ node_ok p' ∧ same_frame p p' ∧ cells p' = cells p ∧
    room p' = (CELL_LIMIT - total (slots p) - dir_end (nslots p))%nat.
Proof.
  intros Hp. pose proof (no_length p Hp) as Hl. pose proof (total_fits p Hp) as Ht. pose proof (no_dir p Hp).
  unfold compact, mbind, St_bind. rewrite slot_count_ok by done. rewrite collect_cells_ok by (done || lia).
  fold (slots p). cbn [app].
  assert (sum_list_with (λ c : bytes * nat * nat, length c.1.1) (image p <$> slots p) = total (slots p)) as Hsum.
  { apply images_total. eapply Forall_impl; [apply Hp|]. intros x [_ ?]. lay. }
  destruct (pack_cells_ok p (nslots p) CELL_LIMIT 0 (image p <$> slots p))
    as (p' & He & Hl' & Hb' & Hf & Hn & _ & _ & Hst & Him); [done|apply Hp|done| |done|lia| |].
  { by rewrite length_fmap, slots_length. }
  { apply Forall_fmap, Forall_forall. intros x Hx. pose proof (no_heap p Hp) as Hh. rewrite Forall_forall in Hh.
    destruct (Hh x Hx) as [_ ?]. cbn. split; [rewrite piece_length; unfold s_len in *; lay|apply piece_is_bytes, Hp]. }
  rewrite length_fmap, slots_length, <- Hn in Hst, Him. fold (slots p') in Hst, Him.
  exists p'. split; [done|].
  assert (total (slots p') = total (slots p)) as Htot.
  { assert (∀ r, total (slots r) = sum_list_with (λ c : bytes * nat * nat, c.1.2 + c.2)%nat (image r <$> slots r)) as Hx.
    { intros r. unfold total. generalize (slots r). intros l. induction l as [|y l IH]; [done|]. csimpl. by rewrite IH. }
    by rewrite !Hx, Him. }
  assert (∀ x, x ∈ slots p' → in_heap (nslots p) x) as Hheap.
  { intros x Hx. pose proof (stacked_bounds _ _ _ Hst Hx). split; lia. }
  split_and!; [|done|..].
  - split; [done|done|by rewrite Hn|rewrite Hn; by apply Forall_forall|by eapply stacked_nodup].
  - unfold cells. by rewrite <- !image_cells, Him.
  - unfold room. rewrite Hn. destruct (decide (slots p' = [])) as [He'|Hne].
    + rewrite He' in *. unfold floor_of, total in *. cbn [foldl sum_list_with] in *. lia.
    + rewrite (stacked_floor CELL_LIMIT) by (done || lia). by rewrite Htot.
Qed.

(** ** Leaves as sorted maps *)

Definition content (p : bytes) : gmap bytes bytes := list_to_map (cells p).

Lemma sorted_keys_nodup p : sorted_node p → NoDup (cells p).*1.
Proof. apply SortedTree.sorted_nodup. Qed.

Lemma content_lookup p k v : sorted_node p → content p !! k = Some v ↔ (k, v) ∈ cells p.
Proof. apply SortedTree.list_to_map_iff. Qed.

Lemma content_none p k : content p !! k = None ↔ k ∉ keys p.
Proof. symmetry. apply not_elem_of_list_to_map. Qed.

(** The key goes where the search says. *)
Lemma insert_sorted_rank k ks :
  StronglySorted key_lt ks → k ∉ ks → StronglySorted key_lt (insert_at (rank is_lt k ks) k ks).
Proof.
  intros Hs. unfold insert_at, rank. induction Hs as [|x ks Hs IH Hx]; intros Hk; [by repeat constructor|].
  rewrite filter_cons. case_decide as Hb.
  - cbn [length take drop app]. constructor; [apply IH; set_solver|].
    apply Forall_forall. intros y Hy.
    assert (y ∈ k :: ks) as [->|Hy']%elem_of_cons.
    { rewrite <- (insert_at_perm (length (filter (λ k0, is_lt (bytes_cmp k0 k) = true) ks)) k ks). exact Hy. }
    + unfold key_lt. by destruct (bytes_cmp x k).
    + rewrite Forall_forall in Hx. by apply Hx.
  - assert (key_lt k x) as Hkx.
    { unfold key_lt. rewrite (cmp_flip (P := λ _, True) x k) by done. destruct (bytes_cmp x k) eqn:E; [|done..].
      apply bytes_cmp_eq in E. set_solver. }
    assert (length (filter (λ k0, is_lt (bytes_cmp k0 k) = true) ks) = 0%nat) as ->.
    { apply length_zero_iff_nil. clear IH. induction ks as [|y ks IHk]; [done|].
      apply Forall_cons in Hx as [Hxy Hx]. rewrite filter_cons_False.
      - apply IHk; [by apply StronglySorted_inv in Hs as [? _]|done|set_solver].
      - intros Hy. apply Hb. by apply (lt_mono k x y). }
    cbn [take drop app]. constructor; [by constructor|]. constructor; [done|].
    rewrite Forall_forall in Hx |- *. intros y Hy. eapply SortedTree.key_lt_trans; [done|by apply Hx].
Qed.

Lemma sorted_sublist (l l' : list bytes) : l `sublist_of` l' → StronglySorted key_lt l' → StronglySorted key_lt l.
Proof.
  induction 1 as [|x l l' Hl IH|x l l' Hl IH]; intros Hs; [done|..]; apply StronglySorted_inv in Hs as [Hs Hx].
  - constructor; [auto|]. rewrite Forall_forall in Hx |- *. intros y Hy. apply Hx. eapply elem_of_submseteq; [done|by apply sublist_submseteq].
  - auto.
Qed.

Lemma insert_content p p' k v :
  sorted_node p → k ∉ keys p → cells p' = insert_at (rank is_lt k (keys p)) (k, v) (cells p) →
  sorted_node p' ∧ content p' = <[k := v]> (content p).
Proof.
  intros Hs Hk Hc. assert (keys p' = insert_at (rank is_lt k (keys p)) k (keys p)) as Hkeys.
  { unfold keys at 1. by rewrite Hc, insert_at_fmap. }
  split; [unfold sorted_node; rewrite Hkeys; by apply insert_sorted_rank|].
  unfold content. rewrite Hc. transitivity (list_to_map ((k, v) :: cells p) : gmap bytes bytes); [|done].
  apply list_to_map_proper; [|apply insert_at_perm].
  change (NoDup (insert_at (rank is_lt k (keys p)) (k, v) (cells p)).*1). rewrite insert_at_fmap, insert_at_perm.
  apply NoDup_cons. split; [done|by apply sorted_keys_nodup].
Qed.

Lemma delete_content p p' i k w :
  sorted_node p → cells p !! i = Some (k, w) → cells p' = delete i (cells p) →
  sorted_node p' ∧ content p' = delete k (content p).
Proof.
  intros Hs Hi Hc. assert (keys p' = delete i (keys p)) as Hkeys by (unfold keys; by rewrite Hc, list_fmap_delete).
  assert (sorted_node p') as Hs'.
  { unfold sorted_node. rewrite Hkeys. eapply sorted_sublist; [apply sublist_delete|done]. }
  split; [done|]. apply map_eq. intros k'. apply option_eq. intros v'.
  rewrite lookup_delete_Some, !content_lookup by done. rewrite Hc.
  pose proof (delete_Permutation (cells p) i (k, w) Hi) as Hperm.
  pose proof (sorted_keys_nodup p Hs) as Hnd. clear Hc Hkeys Hi. set (d := delete i (cells p)) in *. clearbody d.
  rewrite Hperm in Hnd |- *. csimpl in Hnd. apply NoDup_cons in Hnd as [Hk _].
  split.
  - intros Hin. split; [|by right]. intros ->. apply Hk, list_elem_of_fmap. by exists (k', v').
  - intros [Hne [[= -> ->]|?]%elem_of_cons]; done.
Qed.

Lemma replace_content p p' i k w v :
  sorted_node p → cells p !! i = Some (k, w) → cells p' = <[i := (k, v)]> (cells p) →
  sorted_node p' ∧ content p' = <[k := v]> (content p).
Proof.
  intros Hs Hi Hc. assert (keys p' = keys p) as Hkeys.
  { unfold keys. rewrite Hc, list_fmap_insert. apply list_insert_id. by rewrite list_lookup_fmap, Hi. }
  assert (sorted_node p') as Hs' by (unfold sorted_node; by rewrite Hkeys). split; [done|].
  apply map_eq. intros k'. apply option_eq. intros v'. rewrite lookup_insert_Some, !content_lookup by done.
  rewrite Hc, !list_elem_of_lookup. split.
  - intros [j Hj]. rewrite list_lookup_insert in Hj. case_decide as Hd; [by simplify_eq; left|]. right. split; [|by exists j].
    intros <-. apply Hd. assert (i = j) as <-; [|split; [done|by eapply lookup_lt_Some]].
    eapply (NoDup_lookup _ _ _ k (sorted_keys_nodup p Hs)); rewrite list_lookup_fmap; [by rewrite Hi|by rewrite Hj].
  - intros [[-> ->]|[Hne [j Hj]]].
    + exists i. rewrite list_lookup_insert, decide_True; [done|]. split; [done|by eapply lookup_lt_Some].
    + exists j. rewrite list_lookup_insert, decide_False; [done|]. intros [<- _]. congruence.
Qed.

(** ** The operations of a leaf *)

Lemma position_cell p k :
  sorted_node p →
  match position k (keys p) with
  | Some i => ∃ w, cells p !! i = Some (k, w) ∧ content p !! k = Some w
  | None => content p !! k = None
  end.
Proof.
  intros Hs. destruct (position k (keys p)) as [i|] eqn:Hpos.
  - apply position_some in Hpos; [|done]. rewrite keys_lookup in Hpos. apply fmap_Some in Hpos as ([k' w] & Hc & Hk).
    cbn in Hk. subst k'. exists w. split; [done|]. apply content_lookup; [done|]. by eapply list_elem_of_lookup_2.
  - apply content_none. by apply position_none.
Qed.

(** A cell larger than the heap never fits. *)
Lemma cell_within p k v : node_ok p → (k, v) ∈ cells p → (length k + length v ≤ CELL_LIMIT)%nat.
Proof.
  intros Hp [i Hc]%list_elem_of_lookup. destruct (cells_lookup p i (k, v) Hc) as (x & Hx & [= -> ->]).
  destruct (slots_in_page p i x Hp Hx) as [_ [Hlo Hhi]]. pose proof (no_length p Hp). unfold s_len in Hhi.
  rewrite !piece_length by lay. lia.
Qed.

(** What an insert reports and leaves. An entry that is there and whose new value does not fit
    is gone when the insert fails. *)
Lemma leaf_insert_ok p k v :
  node_ok p → sorted_node p → is_bytes k → is_bytes v →
  ∃ b p', leaf_insert k v p = (Ok b, p') ∧ node_ok p' ∧ sorted_node p' ∧ same_frame p p' ∧
    content p' = (if b : bool then <[k := v]> (content p) else delete k (content p)) ∧
    (b = false → (room p < length k + length v + 8)%nat ∧ ∀ w, content p !! k = Some w → (length w < length v)%nat).
Proof.
  intros Hp Hs Hk Hv. unfold leaf_insert, mbind, St_bind. rewrite find_exact_ok by done.
  pose proof (position_cell p k Hs) as Hpos. destruct (position k (keys p)) as [i|].
  - destruct Hpos as (w & Hc & Hw). destruct (decide (length v ≤ length w)%nat) as [Hle|Hgt].
    { destruct (replace_in_place p i k w v Hp Hv Hc Hle) as (p' & He & Hok & Hf & Hc').
      exists true, p'. destruct (replace_content p p' i k w v Hs Hc Hc') as [Hs' Hct]. by split_and!. }
    assert (i < nslots p)%nat as Hi by (rewrite <- cells_length; by eapply lookup_lt_Some).
    destruct (remove_at_ok p i Hp Hi) as (p1 & He1 & Hok1 & Hf1 & Hc1 & Hr1).
    destruct (delete_content p p1 i k w Hs Hc Hc1) as [Hs1 Hct1].
    assert (replace_value i k v p = insert_cell k v p1) as ->.
    { unfold replace_value, mbind, St_bind. destruct (cells_lookup p i (k, w) Hc) as (x & Hx & [= -> ->]).
      destruct (slots_in_page p i x Hp Hx) as [Hd [Hlo Hhi]]. pose proof (no_length p Hp). pose proof (no_dir p Hp).
      unfold s_len in Hhi. rewrite piece_length in Hgt by lay. rewrite rd_usize_ok by lay.
      assert (u16_at p (slot_off i + 4) = s_vlen x) as -> by (apply slots_lookup in Hx as [_ ->]; done).
      rewrite (proj2 (Nat.leb_gt _ _)) by lia. by rewrite He1. }
    destruct (decide (room p1 < length k + length v + 8)%nat) as [Hfull|Hfit].
    + exists false, p1. rewrite insert_cell_full by done. split_and!; try done. intros _. split; [lia|].
      intros w' Hw'. rewrite Hw in Hw'. simplify_eq. lia.
    + destruct (insert_cell_ok p1 k v Hok1 Hs1 Hk Hv) as (p' & He & Hok & Hf & Hc' & _); [lia|].
      assert (k ∉ keys p1) as Hnk by (apply content_none; by rewrite Hct1, lookup_delete_eq).
      destruct (insert_content p1 p' k v Hs1 Hnk Hc') as [Hs' Hct]. exists true, p'.
      split_and!; [done..|by eapply same_frame_trans| |done]. by rewrite Hct, Hct1, insert_delete_eq.
  - destruct (decide (room p < length k + length v + 8)%nat) as [Hfull|Hfit].
    + exists false, p. rewrite insert_cell_full by done. split_and!; try done; [by rewrite delete_id|].
      intros _. split; [done|]. rewrite Hpos. done.
    + destruct (insert_cell_ok p k v Hp Hs Hk Hv) as (p' & He & Hok & Hf & Hc' & _); [lia|].
      destruct (insert_content p p' k v Hs) as [Hs' Hct]; [by apply content_none|done|]. exists true, p'. by split_and!.
Qed.

Lemma leaf_remove_ok p k :
  node_ok p → sorted_node p →
  ∃ p', leaf_remove k p = (Ok (bool_decide (is_Some (content p !! k))), p') ∧ node_ok p' ∧ sorted_node p' ∧
    same_frame p p' ∧ content p' = delete k (content p).
Proof.
  intros Hp Hs. unfold leaf_remove, mbind, St_bind. rewrite find_exact_ok by done.
  pose proof (position_cell p k Hs) as Hpos. destruct (position k (keys p)) as [i|].
  - destruct Hpos as (w & Hc & Hw). assert (i < nslots p)%nat as Hi by (rewrite <- cells_length; by eapply lookup_lt_Some).
    destruct (remove_at_ok p i Hp Hi) as (p1 & He1 & Hok1 & Hf1 & Hc1 & _).
    destruct (delete_content p p1 i k w Hs Hc Hc1) as [Hs1 Hct1]. exists p1. rewrite He1, Hw.
    rewrite bool_decide_true by done. by split_and!.
  - exists p. rewrite Hpos. rewrite bool_decide_false by (by intros []). split_and!; try done. by rewrite delete_id.
Qed.

Lemma total_cells p : node_ok p → total (slots p) = sum_list_with (λ c, length c.1 + length c.2)%nat (cells p).
Proof.
  intros Hp. unfold total, cells. pose proof (no_heap p Hp) as Hh. pose proof (no_length p Hp).
  induction Hh as [|x l [_ Hx] _ IH]; [done|]. csimpl. unfold s_len in *. rewrite !piece_length by lay. by rewrite IH.
Qed.

(** C12: A leaf implements a map: the search finds a key and its value; an insert maps the key to
    the value, or reports that there is no room for it, and then an older and shorter value of
    the key is gone; a removal deletes the key and says
    whether it was there; compaction changes nothing but the room, which becomes all that the
    cells leave. No operation panics, and each leaves header and links alone. *)
Theorem leaf_refines_map p k v :
  node_ok p → sorted_node p → is_bytes k → is_bytes v →
  (∃ o, find_exact k p = (Ok o, p) ∧
     match o with
     | Some i => ∃ w, value i p = (Ok w, p) ∧ content p !! k = Some w
     | None => content p !! k = None
     end) ∧
  (∃ b p', leaf_insert k v p = (Ok b, p') ∧ node_ok p' ∧ sorted_node p' ∧ same_frame p p' ∧
     content p' = (if b : bool then <[k := v]> (content p) else delete k (content p)) ∧
     (b = false → (room p < length k + length v + 8)%nat ∧ ∀ w, content p !! k = Some w → (length w < length v)%nat) ∧
     ((CELL_LIMIT < length k + length v)%nat → b = false)) ∧
  (∃ p', leaf_remove k p = (Ok (bool_decide (is_Some (content p !! k))), p') ∧ node_ok p' ∧ sorted_node p' ∧
     same_frame p p' ∧ content p' = delete k (content p)) ∧
  (∃ p', compact p = (Ok tt, p') ∧ node_ok p' ∧ same_frame p p' ∧ cells p' = cells p ∧
     free_space p' = (Ok (CELL_LIMIT - sum_list_with (λ c, length c.1 + length c.2) (cells p)
                            - (SLOT_DIR_START + length (cells p) * SLOT_SIZE)), p')%nat).
Proof.
  intros Hp Hs Hk Hv. split_and!; [| |by apply leaf_remove_ok|].
  - exists (position k (keys p)). split; [by apply find_exact_ok|]. pose proof (position_cell p k Hs) as Hpos.
    destruct (position k (keys p)) as [i|]; [|done]. destruct Hpos as (w & Hc & Hw). exists w. split; [|done].
    by eapply key_value_ok.
  - destruct (leaf_insert_ok p k v Hp Hs Hk Hv) as (b & p' & He & Hok & Hs' & Hf & Hc & Hb). exists b, p'.
    split_and!; try done. intros Hbig. destruct b; [|done].
    assert ((k, v) ∈ cells p') as Hin by (apply content_lookup; [done|by rewrite Hc, lookup_insert_eq]).
    pose proof (cell_within p' k v Hok Hin). lia.
  - destruct (compact_ok p Hp) as (p' & He & Hok & Hf & Hc & Hr). exists p'. split_and!; try done.
    rewrite free_space_ok, Hr, total_cells, cells_length by done. done.
Qed.

(** ** Validation *)

(** What [validate] asks of a slot in a directory that ends at [d]. *)
Definition slot_fits (d : nat) (leaf : bool) (x : slot) : Prop :=
  (d ≤ s_off x ∧ s_off x + s_len x ≤ CELL_LIMIT ∧ (leaf = false → s_off x + s_klen x + 8 ≤ CELL_LIMIT))%nat.

Definition leaf_page (p : bytes) : bool := N.of_nat (u16_at p OFF_LEVEL) =? 0.

Lemma is_leaf_ok p : length p = PAGE_SIZE → is_leaf p = (Ok (leaf_page p), p).
Proof. intros. unfold is_leaf, mbind, St_bind. by rewrite level_ok. Qed.

Lemma validate_slots_ok p d leaf i todo :
  (slot_off (i + todo) ≤ length p)%nat →
  ∃ r, validate_slots d leaf i todo p = (r, p) ∧ (r = Ok tt ∨ ∃ m, r = Err (Storage m)) ∧
    (r = Ok tt ↔ Forall (slot_fits d leaf) (slot_at p <$> seq i todo)).
Proof.
  revert i. induction todo as [|todo IH]; intros i Hl; cbn [validate_slots].
  { exists (Ok tt). split_and!; [done|by left|done]. }
  unfold mbind, St_bind. rewrite !rd_usize_ok by lay. cbn [seq]. rewrite fmap_cons. setoid_rewrite Forall_cons.
  change (u16_at p (slot_off i)) with (s_off (slot_at p i)).
  change (u16_at p (slot_off i + 2)) with (s_klen (slot_at p i)).
  change (u16_at p (slot_off i + 4)) with (s_vlen (slot_at p i)).
  unfold slot_fits at 1, s_len. generalize (slot_at p i) as x. intros x.
  case_bool_decide as Hlo; cbn [orb]; [eexists; split_and!; [done|by eauto|split; [done|lia]]|].
  case_bool_decide as Hhi; cbn [orb]; [eexists; split_and!; [done|by eauto|split; [done|lia]]|].
  destruct (negb leaf && bool_decide (CELL_LIMIT < s_off x + s_klen x + 8)%nat) eqn:Hc.
  { apply andb_true_iff in Hc as [Hn Hc%bool_decide_eq_true]. destruct leaf; [done|].
    eexists; split_and!; [done|by eauto|split; [done|lia]]. }
  destruct (IH (S i)) as (r & He & Hr & Hiff); [lay|]. exists r. split_and!; [done..|].
  rewrite Hiff. split; [|tauto]. intros HF. split; [|done]. split_and!; [lia..|]. intros ->. cbn in Hc.
  apply bool_decide_eq_false in Hc. lia.
Qed.

Lemma validate_ok p :
  length p = PAGE_SIZE →
  ∃ r, validate p = (r, p) ∧ (r = Ok tt ∨ ∃ m, r = Err (Storage m)) ∧
    (r = Ok tt ↔ (dir_end (nslots p) ≤ CELL_LIMIT)%nat ∧ Forall (slot_fits (dir_end (nslots p)) (leaf_page p)) (slots p)).
Proof.
  intros Hl. unfold validate, mbind, St_bind. rewrite slot_count_ok by done. fold (dir_end (nslots p)).
  case_bool_decide as Hd; [eexists; split_and!; [done|by eauto|split; [done|lia]]|]. rewrite level_ok by done.
  destruct (validate_slots_ok p (dir_end (nslots p)) (leaf_page p) 0 (nslots p)) as (r & He & Hr & Hiff); [lay|].
  exists r. split_and!; [done..|]. rewrite Hiff. split; [|tauto]. split; [lia|done].
Qed.

Lemma fits_valid p :
  length p = PAGE_SIZE → (dir_end (nslots p) ≤ CELL_LIMIT)%nat →
  Forall (slot_fits (dir_end (nslots p)) (leaf_page p)) (slots p) → node_valid p.
Proof. intros Hl Hd Hf. split; [done..|]. eapply Forall_impl; [done|]. by intros x (?&?&_). Qed.

(** The search ends between its bounds, in whatever order the keys are. *)
Lemma search_returns p before probe fuel lo hi :
  node_valid p → (lo ≤ hi ≤ nslots p)%nat → (hi - lo ≤ fuel)%nat →
  ∃ m, search before probe fuel lo hi p = (Ok m, p) ∧ (lo ≤ m ≤ hi)%nat.
Proof.
  intros Hp. revert lo hi. induction fuel as [|fuel IH]; intros lo hi Hhi Hf; cbn [search].
  { rewrite (proj2 (Nat.ltb_ge _ _)) by lia. exists lo. split; [done|lia]. }
  destruct (lo <? hi)%nat eqn:Hlt; [|exists lo; split; [done|lia]].
  apply Nat.ltb_lt in Hlt. set (mid := ((lo + hi) / 2)%nat).
  assert (lo ≤ mid < hi)%nat as Hmid.
  { unfold mid. split; [apply Nat.div_le_lower_bound; lia|apply Nat.Div0.div_lt_upper_bound; lia]. }
  destruct (lookup_lt_is_Some_2 (cells p) mid) as [[k v] Hc]; [rewrite cells_length; lia|].
  destruct (key_value_valid p mid k v Hp Hc) as [Hk _]. unfold mbind, St_bind. rewrite Hk.
  destruct (before (bytes_cmp k probe)).
  - destruct (IH (S mid) hi) as (m & He & Hm); [lia..|]. exists m. split; [done|lia].
  - destruct (IH lo mid) as (m & He & Hm); [lia..|]. exists m. split; [done|lia].
Qed.

(** The child of a slot is read behind its key, wherever the cell's payload ends. *)
Lemma child_valid p i x :
  node_valid p → leaf_page p = false → slots p !! i = Some x → (s_off x + s_klen x + 8 ≤ CELL_LIMIT)%nat →
  child i p = (Ok (u64_at p (s_off x + s_klen x)), p).
Proof.
  intros Hp Hleaf Hx Hfit. destruct (slots_in_valid p i x Hp Hx) as [Hd _]. apply slots_lookup in Hx as [Hi ->].
  pose proof (nv_length p Hp). pose proof (nv_dir p Hp). unfold child, expect, try_child.
  rewrite in_slots_ok, (proj2 (Nat.ltb_lt _ _) Hi) by done. rewrite !try_rd_u16_ok by lay.
  assert ((from_le_bytes (piece p OFF_LEVEL 2) =? 0) = false) as ->.
  { revert Hleaf. unfold leaf_page, u16_at. by rewrite N2Nat.id. }
  cbn [orb negb]. unfold mbind, option_bind, try_rd_u64.
  fold (u16_at p (slot_off i)) (u16_at p (slot_off i + 2)%nat). cbn [s_off s_klen slot_at] in *.
  rewrite slice_ok by lay. done.
Qed.

Lemma child_for_returns p probe :
  node_valid p → leaf_page p = false →
  Forall (slot_fits (dir_end (nslots p)) false) (slots p) →
  ∃ c, child_for probe p = (Ok c, p).
Proof.
  intros Hp Hleaf Hf. pose proof (nv_length p Hp) as Hl. unfold child_for, mbind, St_bind.
  rewrite is_leaf_ok, Hleaf, slot_count_ok by done.
  destruct (search_returns p is_le probe (nslots p) 0 (nslots p) Hp) as (m & He & Hm); [lia..|]. rewrite He.
  destruct (m =? 0)%nat eqn:E; [rewrite leftmost_child_ok by done; by eauto|]. apply Nat.eqb_neq in E.
  destruct (lookup_lt_is_Some_2 (slots p) (m - 1)) as [x Hx]; [rewrite slots_length; lia|].
  destruct (Forall_lookup_1 _ _ _ _ Hf Hx) as (_&_&Hc). rewrite (child_valid p (m - 1) x) by auto. by eauto.
Qed.

Lemma find_exact_returns p probe :
  node_valid p → ∃ o, find_exact probe p = (Ok o, p) ∧ ∀ i, o = Some i → keys p !! i = Some probe.
Proof.
  intros Hp. pose proof (nv_length p Hp) as Hl. unfold find_exact, lower_bound, mbind, St_bind.
  rewrite slot_count_ok by done.
  destruct (search_returns p is_lt probe (nslots p) 0 (nslots p) Hp) as (m & He & Hm); [lia..|]. rewrite He.
  rewrite slot_count_ok by done. destruct (m <? nslots p)%nat eqn:E; [|by exists None]. apply Nat.ltb_lt in E.
  destruct (lookup_lt_is_Some_2 (cells p) m) as [[k v] Hc]; [rewrite cells_length; lia|].
  destruct (key_value_valid p m k v Hp Hc) as [Hk _]. rewrite Hk. eexists. split; [done|].
  intros i. case_bool_decide; [|done]. intros [= <-]. subst k. by rewrite keys_lookup, Hc.
Qed.

(** C13: Whatever the bytes of a page, [validate] ends with a verdict, and accepts exactly the pages
    whose directory ends before the special area and whose cells, children included, lie
    between the two. On an accepted page every cell is read, every search ends with an answer
    that names a slot of the key, and every descent finds a child: no panic, though the keys
    may be in any order and the cells may overlap. *)
Theorem validated_page_reads p :
  length p = PAGE_SIZE →
  ∃ r, validate p = (r, p) ∧ (r = Ok tt ∨ ∃ m, r = Err (Storage m)) ∧
    (r = Ok tt ↔ (dir_end (nslots p) ≤ CELL_LIMIT)%nat ∧
                 Forall (slot_fits (dir_end (nslots p)) (leaf_page p)) (slots p)) ∧
    (r = Ok tt →
     (∀ i, (i < nslots p)%nat → ∃ k v c, key i p = (Ok k, p) ∧ value i p = (Ok v, p) ∧ cell i p = (Ok c, p) ∧ cell_key c = k) ∧
     (∀ probe, ∃ o, find_exact probe p = (Ok o, p) ∧ ∀ i, o = Some i → key i p = (Ok probe, p)) ∧
     (leaf_page p = false → ∀ probe, ∃ c, child_for probe p = (Ok c, p))).
Proof.
  intros Hl. destruct (validate_ok p Hl) as (r & He & Hr & Hiff). exists r. split_and!; [done..|].
  intros [Hd Hf]%Hiff. pose proof (fits_valid p Hl Hd Hf) as Hp. split_and!.
  - intros i Hi. destruct (lookup_lt_is_Some_2 (cells p) i) as [[k v] Hc]; [by rewrite cells_length|].
    destruct (key_value_valid p i k v Hp Hc) as [Hk Hv]. destruct (cells_lookup p i _ Hc) as (x & Hx & _).
    exists k, v. unfold cell, mbind, St_bind. rewrite is_leaf_ok by done. destruct (leaf_page p) eqn:Hleaf.
    { rewrite Hk, Hv. by eexists. }
    destruct (Forall_lookup_1 _ _ _ _ Hf Hx) as (_&_&Hfit). rewrite Hk, (child_valid p i x) by auto. by eexists.
  - intros probe. destruct (find_exact_returns p probe Hp) as (o & Ho & Hkey). exists o. split; [done|].
    intros i Hi%Hkey. rewrite keys_lookup in Hi. apply fmap_Some in Hi as ([k v] & Hc & Hk). cbn in Hk. subst k.
    by eapply key_value_valid.
  - intros Hleaf probe. rewrite Hleaf in Hf. by apply child_for_returns.
Qed.

(** ** Rebuilding a half *)

(** The key and the bytes that a cell puts on a page. *)
Definition pair_of (leaf : bool) (c : Cell) : bytes * bytes :=
  (cell_key c, if leaf then cell_value c else to_le_bytes 8 (cell_child c)).

Definition cell_bytes (c : Cell) : Prop := is_bytes (cell_key c) ∧ is_bytes (cell_value c).

(** The room that cells take, slots included. *)
Definition need (l : list (bytes * bytes)) : nat := sum_list_with (λ c, length c.1 + length c.2 + 8)%nat l.

Lemma rank_last k ks : Forall (λ x, key_lt x k) ks → rank is_lt k ks = length ks.
Proof.
  intros Hall. unfold rank. induction Hall as [|x ks Hx _ IH]; [done|].
  rewrite filter_cons_True by (by rewrite Hx). cbn. by rewrite IH.
Qed.

Lemma sorted_app_mid k ks ks' :
  StronglySorted key_lt (ks ++ k :: ks') → Forall (λ x, key_lt x k) ks ∧ StronglySorted key_lt ((ks ++ [k]) ++ ks').
Proof.
  intros Hs. split; [|by rewrite <- app_assoc]. apply StronglySorted_app in Hs as (Hlt & _ & _).
  apply Forall_forall. intros x Hx. apply Hlt; [done|left].
Qed.

Lemma frame_leaf p p' : length p = PAGE_SIZE → same_frame p p' → leaf_page p' = leaf_page p.
Proof. intros Hl Hf. unfold leaf_page. by destruct (frame_fields p p' Hl Hf) as (-> & _). Qed.

(** Appending cells in key order behind those of a node succeeds exactly when they fit, and
    then the node has its cells and the new ones behind them. *)
Lemma append_cells_ok cs p :
  node_ok p → Forall cell_bytes cs →
  StronglySorted key_lt (keys p ++ (pair_of (leaf_page p) <$> cs).*1) →
  ∃ p', append_cells cs p = (Ok (bool_decide (need (pair_of (leaf_page p) <$> cs) ≤ room p)%nat), p') ∧
    node_ok p' ∧ same_frame p p' ∧
    ((need (pair_of (leaf_page p) <$> cs) ≤ room p)%nat → cells p' = cells p ++ (pair_of (leaf_page p) <$> cs)).
Proof.
  revert p. induction cs as [|c cs IH]; intros p Hp Hb Hs; cbn [append_cells].
  { exists p. rewrite bool_decide_true by (cbn; lia). split_and!; try done. intros _. by rewrite app_nil_r. }
  apply Forall_cons in Hb as [[Hk Hv] Hb]. pose proof (no_length p Hp) as Hl. rewrite fmap_cons in *.
  assert (is_bytes (pair_of (leaf_page p) c).2) as Hv2 by (unfold pair_of; destruct (leaf_page p); [done|apply to_le_bytes_is_bytes]).
  unfold mbind, St_bind. rewrite is_leaf_ok by done. set (leaf := leaf_page p) in *.
  assert ((if leaf then insert_cell (cell_key c) (cell_value c) else insert_cell (cell_key c) (to_le_bytes 8 (cell_child c)))
          = insert_cell (cell_key c) (pair_of leaf c).2) as -> by (by destruct leaf).
  rewrite fmap_cons in Hs. change (pair_of leaf c).1 with (cell_key c) in Hs.
  destruct (sorted_app_mid _ _ _ Hs) as [Hlast Hs2]. assert (sorted_node p) as Hsp by (by apply StronglySorted_app in Hs as (_ & ? & _)).
  change (need (pair_of leaf c :: (pair_of leaf <$> cs))) with
    (length (cell_key c) + length (pair_of leaf c).2 + 8 + need (pair_of leaf <$> cs))%nat.
  destruct (decide (room p < length (cell_key c) + length (pair_of leaf c).2 + 8)%nat) as [Hfull|Hfit].
  { exists p. rewrite insert_cell_full by done. rewrite bool_decide_false by lia. split_and!; try done. lia. }
  destruct (insert_cell_ok p (cell_key c) (pair_of leaf c).2 Hp Hsp Hk Hv2) as (p1 & He & Hok & Hf & Hc & Hr); [lia|].
  rewrite He. rewrite rank_last in Hc by done. unfold insert_at, keys in Hc. rewrite length_fmap, take_ge, drop_ge in Hc by lia.
  pose proof (frame_leaf p p1 Hl Hf) as Hleaf. fold leaf in Hleaf.
  destruct (IH p1 Hok Hb) as (p' & He' & Hok' & Hf' & Hc').
  { rewrite Hleaf. unfold keys at 1. by rewrite Hc, fmap_app. }
  rewrite Hleaf in *. exists p'. rewrite He'. split_and!; [|done|by eapply same_frame_trans|].
  - f_equal. f_equal. apply bool_decide_ext. lia.
  - intros Hfits. rewrite Hc' by lia. by rewrite Hc, <- app_assoc.
Qed.

(** ** A leaf with one entry *)

Definition blank : bytes := replicate PAGE_SIZE 0.
Definition one_entry : bytes := (leaf_insert [7] [1; 2] blank).2.

Lemma blank_slots : nslots blank = 0%nat.
Proof.
  unfold nslots, u16_at, piece, blank. pose proof layout as (_ & -> & _ & _ & ? & _ & _ & ?).
  rewrite drop_replicate, take_replicate. by replace (2 `min` (PAGE_SIZE - 26))%nat with 2%nat by lia.
Qed.

Lemma blank_leaf : leaf_page blank = true.
Proof.
  unfold leaf_page, u16_at, piece, blank. pose proof layout as (-> & _ & _ & _ & ? & _ & _ & ?).
  rewrite drop_replicate, take_replicate. by replace (2 `min` (PAGE_SIZE - 24))%nat with 2%nat by lia.
Qed.

Lemma blank_ok : node_ok blank ∧ sorted_node blank ∧ (8000 < N.of_nat (room blank)).
Proof.
  assert (slots blank = []) as Hs by (unfold slots; by rewrite blank_slots).
  split_and!.
  - split; rewrite ?Hs, ?blank_slots; [apply length_replicate| |lay|done|constructor].
    apply Forall_replicate. lia.
  - unfold sorted_node, keys, cells. rewrite Hs. constructor.
  - unfold room. rewrite Hs, blank_slots. cbn [floor_of foldl]. lay.
Qed.

Lemma one_entry_ok :
  node_ok one_entry ∧ sorted_node one_entry ∧ content one_entry = {[ [7] := [1; 2] ]} ∧ leaf_page one_entry = true.
Proof.
  destruct blank_ok as (Hok & Hs & Hr).
  destruct (leaf_insert_ok blank [7] [1; 2] Hok Hs) as (b & p' & He & Hok' & Hs' & Hf & Hc & Hb); [repeat constructor..|].
  unfold one_entry. rewrite He. cbn [snd]. split_and!; [done..| |].
  - destruct b; [|destruct (Hb eq_refl) as [Hlt _]; cbn [length] in Hlt; lia].
    rewrite Hc. unfold content, cells, slots. by rewrite blank_slots.
  - rewrite (frame_leaf blank p') by (done || apply Hok). apply blank_leaf.
Qed.

(** The leaf finds its entry, takes a second one and loses the first. *)
Lemma leaf_refines_map_witness :
  (∃ i, find_exact [7] one_entry = (Ok (Some i), one_entry) ∧ value i one_entry = (Ok [1; 2], one_entry)) ∧
  (∃ b p', leaf_insert [7] [3] one_entry = (Ok b, p') ∧ b = true ∧ content p' !! [7] = Some [3]) ∧
  (∃ p', leaf_remove [7] one_entry = (Ok true, p') ∧ content p' = ∅).
Proof.
  destruct one_entry_ok as (Hok & Hs & Hc & _).
  destruct (leaf_refines_map one_entry [7] [3] Hok Hs ltac:(repeat constructor) ltac:(repeat constructor))
    as ((o & Ho & Hw) & (b & p' & He & _ & _ & _ & Hc' & Hb & _) & (p'' & Hr & _ & _ & _ & Hc'') & _).
  assert (content one_entry !! [7] = Some [1; 2]) as H7 by (rewrite Hc; apply lookup_singleton_eq).
  split_and!.
  - destruct o as [i|]; [|by rewrite Hw in H7]. destruct Hw as (w & Hv & Hl). rewrite H7 in Hl. injection Hl as <-. exists i. by split.
  - exists b, p'. assert (b = true) as ->.
    { destruct b; [done|]. destruct (Hb eq_refl) as [_ Hlt]. specialize (Hlt _ H7). cbn in Hlt. lia. }
    split_and!; [done..|]. by rewrite Hc', lookup_insert_eq.
  - exists p''. rewrite H7 in Hr. split; [done|]. by rewrite Hc'', Hc, delete_singleton_eq.
Defined.

(** The leaf is accepted, and the key it does not hold is not found. *)
Lemma validated_page_reads_witness :
  length one_entry = PAGE_SIZE ∧ validate one_entry = (Ok tt, one_entry) ∧
  ∃ o, find_exact [9] one_entry = (Ok o, one_entry) ∧ ∀ i, o = Some i → key i one_entry = (Ok [9], one_entry).
Proof.
  destruct one_entry_ok as (Hok & Hs & Hc & Hleaf). split; [apply Hok|].
  destruct (validated_page_reads one_entry (no_length _ Hok)) as (r & He & _ & Hiff & Hreads).
  assert (r = Ok tt) as ->.
  { apply Hiff. split; [apply Hok|]. rewrite Hleaf. eapply Forall_impl; [apply Hok|]. intros x [? ?]. by split_and!. }
  split; [done|]. destruct (Hreads eq_refl) as (_ & Hfind & _). apply Hfind.
Defined.
