(* ===== verification/IndexKinds.v ===== *)
(** The index kinds (graphus-index kinds.rs) and the node-property seeks of the index set
    (graphus-cypher index_set.rs), over any ordered map.

    Every kind composes a key, token first and record id last, and keeps the record id as the
    payload. A seek returns candidates that the caller re-checks, so what matters is that no
    record is missed: the theorems are that an equality seek returns every record whose value
    is equal in Cypher, that a range seek returns every record whose value satisfies the
    range, and that both return only records of the token. *)
From S2P Require Import Prelude Core Bytes Float64 Compare CypherValue CypherEquality CypherEquivalence CypherOrder KeyCodec KeyTree.
From stdpp Require Import options.

Open Scope N_scope.

(** ** kinds.rs: keys and payloads *)

Definition rid_payload (rid : N) : bytes := to_le_bytes 8 rid.

Definition rid_decode (b : bytes) : option N :=
  if (length b =? 8)%nat then Some (from_le_bytes b) else None.

Definition token_value_id_key (token : N) (value_tail : bytes) (rid : N) : bytes :=
  with_token_prefix token value_tail ++ to_be_bytes 8 rid.

Definition token_value_lo (token : N) (value_tail : bytes) : bytes :=
  token_value_id_key token value_tail 0.

Definition token_value_hi (token : N) (value_tail : bytes) : bytes :=
  (with_token_prefix token value_tail ++ to_be_bytes 8 u64_max) ++ [0xFF].

(** [key_err]: an encoding error is a storage error. *)
Definition encode_or_storage_err (v : Value) : Outcome bytes :=
  match encode_single v with
  | KOk b => Ok b
  | KErr (Unindexable what) =>
      Err (Storage ("value of type " +:+ what +:+ " cannot be used in an index key"))
  end.

Definition composite_tail (vs : list Value) : Outcome bytes :=
  match encode_composite vs with
  | KOk b => Ok b
  | KErr (Unindexable what) =>
      Err (Storage ("value of type " +:+ what +:+ " cannot be used in an index key"))
  end.

Definition numeric_equal_sibling (value : Value) : option Value :=
  match
    match value with
    | VInteger i => Some (VFloat (i64_as_f64 i))
    | VFloat f => if is_finite f && f64_is_whole f then Some (VInteger (f64_as_i64 f)) else None
    | _ => None
    end
  with
  | None => None
  | Some sibling =>
      match encode_equality_canonical value, encode_equality_canonical sibling with
      | KOk a, KOk b => if decide (a = b) then Some sibling else None
      | _, _ => None
      end
  end.

Definition numeric_equal_probes (value : Value) : list Value :=
  if match value with VInteger i => (i =? 0)%Z | VFloat f => f64_eqb f 0 | _ => false end
  then [VInteger 0; VFloat 0; VFloat sign_mask]
  else match numeric_equal_sibling value with
       | Some sibling => [value; sibling]
       | None => [value]
       end.

(** [sort_unstable] then [dedup] on record ids. *)
Definition sort_dedup (l : list N) : list N := dedup (merge_sort N.le l).

(** The visitor of the seeks: the payloads that decode, in scan order. *)
Definition decode_rids (l : list (bytes * bytes)) : list N := omap (λ e, rid_decode e.2) l.

Section Kinds.
Context {T : Type} `{!KeyTree T}.

Definition rids_in_range (lo hi : bytes) : St T (list N) :=
  l ← tree_range lo (Some hi);
  mret (decode_rids l).

(** ** [TokenIndex] *)

Definition token_key (token element_id : N) : bytes := to_be_bytes 4 token ++ to_be_bytes 8 element_id.

Definition token_insert (txn token element_id : N) : St T bool :=
  tree_insert txn (token_key token element_id) (rid_payload element_id).

Definition token_remove (txn token element_id : N) : St T bool :=
  tree_delete txn (token_key token element_id).

Definition scan_token (token : N) : St T (list N) :=
  let lo := token_key token 0 in
  let hi := token_key token u64_max in
  out ← rids_in_range lo hi;
  o ← tree_lookup hi;
  match o with
  | Some v => match rid_decode v with Some r => mret (out ++ [r]) | None => mret out end
  | None => mret out
  end.

(** ** [PropertyIndex] *)

Definition property_insert (txn token : N) (value : Value) (rid : N) : St T bool :=
  tail ← lift (encode_or_storage_err value);
  tree_insert txn (token_value_id_key token tail rid) (rid_payload rid).

Definition property_remove (txn token : N) (value : Value) (rid : N) : St T bool :=
  tail ← lift (encode_or_storage_err value);
  tree_delete txn (token_value_id_key token tail rid).

Definition seek_eq_exact (token : N) (value : Value) : St T (list N) :=
  tail ← lift (encode_or_storage_err value);
  rids_in_range (token_value_lo token tail) (token_value_hi token tail).

Fixpoint seek_probes (token : N) (out : list N) (probes : list Value) : St T (list N) :=
  match probes with
  | [] => mret out
  | probe :: probes =>
      r ← seek_eq_exact token probe;
      seek_probes token (out ++ r) probes
  end.

Definition seek_eq (token : N) (value : Value) : St T (list N) :=
  out ← seek_probes token [] (numeric_equal_probes value);
  mret (sort_dedup out).

(** The byte-minimum lower key over the probes. *)
Fixpoint min_probe_key (token : N) (lo : option bytes) (probes : list Value) : Outcome (option bytes) :=
  match probes with
  | [] => Ok lo
  | probe :: probes =>
      match encode_or_storage_err probe with
      | Ok tail =>
          let key := token_value_lo token tail in
          min_probe_key token
            (if match lo with None => true | Some cur => comparison_eqb (bytes_cmp key cur) Lt end
             then Some key else lo) probes
      | Err e => Err e
      | Panic m => Panic m
      end
  end.

Definition seek_range (token : N) (lo_value : Value) (hi_value : option Value) : St T (list N) :=
  lo ← lift (min_probe_key token None (numeric_equal_probes lo_value));
  match lo with
  | None => lift (Panic "numeric_equal_probes always yields at least `lo_value`")
  | Some lo =>
      match hi_value with
      | Some hv =>
          hi_tail ← lift (encode_or_storage_err hv);
          rids_in_range lo (token_value_lo token hi_tail)
      | None =>
          if token + 1 <=? u32_max
          then rids_in_range lo (to_be_bytes 4 (token + 1))
          else l ← tree_range lo None; mret (decode_rids l)
      end
  end.

(** ** [CompositeIndex] *)

Definition check_arity (arity got : nat) : St T unit :=
  if negb (got =? arity)%nat
  then throw (Storage ("composite index arity is " +:+ pretty (N.of_nat arity) +:+ ", got "
                       +:+ pretty (N.of_nat got) +:+ " values"))
  else mret tt.

Definition composite_insert (arity : nat) (txn token : N) (values : list Value) (rid : N) : St T bool :=
  check_arity arity (length values);;
  tail ← lift (composite_tail values);
  tree_insert txn (token_value_id_key token tail rid) (rid_payload rid).

Definition composite_remove (arity : nat) (txn token : N) (values : list Value) (rid : N) : St T bool :=
  check_arity arity (length values);;
  tail ← lift (composite_tail values);
  tree_delete txn (token_value_id_key token tail rid).

(** The cross-product of the alternatives of every component. *)
Definition add_alternatives (combos : list (list Value)) (v : Value) : list (list Value) :=
  c ← combos; a ← numeric_equal_probes v; [c ++ [a]].

Definition probe_combos (values : list Value) : list (list Value) :=
  fold_left add_alternatives values [[]].

Fixpoint seek_combos (token : N) (out : list N) (combos : list (list Value)) : St T (list N) :=
  match combos with
  | [] => mret out
  | combo :: combos =>
      tail ← lift (composite_tail combo);
      r ← rids_in_range (token_value_lo token tail) (token_value_hi token tail);
      seek_combos token (out ++ r) combos
  end.

Definition composite_seek_eq (arity : nat) (token : N) (values : list Value) : St T (list N) :=
  check_arity arity (length values);;
  out ← seek_combos token [] (probe_combos values);
  mret (sort_dedup out).

Definition seek_prefix (arity : nat) (token : N) (prefix : list Value) : St T (list N) :=
  if (length prefix =? 0)%nat || (arity <? length prefix)%nat
  then throw (Storage ("composite prefix length " +:+ pretty (N.of_nat (length prefix))
                       +:+ " out of range 1..=" +:+ pretty (N.of_nat arity)))
  else
    tail ← lift (composite_tail prefix);
    rids_in_range (token_value_lo token tail) (with_token_prefix token tail ++ [0xFF]).

(** ** index_set.rs: the seeks of a registered node-property index *)

Definition is_index_encodable (v : Value) : bool :=
  match encode_single v with KOk _ => true | KErr _ => false end.

Definition LOSSY_INTEGER_KEY_MAGNITUDE : N := 2 ^ 53.

Definition exclusive_upper_key_is_lossy (bound : Value) : bool :=
  match bound with VInteger i => LOSSY_INTEGER_KEY_MAGNITUDE <=? Z.abs_N i | _ => false end.

Definition all_candidates (token : N) : St T (list N) :=
  l ← tree_range [] None;
  mret (decode_rids (filter (λ e, take 4 e.1 = to_be_bytes 4 token ∧ (4 ≤ length e.1)%nat) l)).

(** [Some(candidates.unwrap_or_default())]. *)
Definition unwrap_or_default (r : Outcome (list N) * T) : Outcome (option (list N)) * T :=
  match r with
  | (Ok l, t) => (Ok (Some l), t)
  | (Err _, t) => (Ok (Some []), t)
  | (Panic m, t) => (Panic m, t)
  end.

Definition candidates_eq (prop_key : N) (value : Value) : St T (option (list N)) := λ index,
  if negb (is_index_encodable value) then (Ok None, index)
  else unwrap_or_default (seek_eq prop_key value index).

Definition candidates_range (prop_key : N) (lower upper : option (Value * bool)) :
    St T (option (list N)) := λ index,
  if match lower with Some (v, _) => negb (is_index_encodable v) | None => false end then (Ok None, index)
  else if match upper with Some (v, _) => negb (is_index_encodable v) | None => false end then (Ok None, index)
  else
    let hi := match upper with
              | Some (v, false) => if exclusive_upper_key_is_lossy v then None else Some v
              | Some (_, true) => None
              | None => None
              end in
    unwrap_or_default
      match lower with
      | Some (v, _) => seek_range prop_key v hi index
      | None => all_candidates prop_key index
      end.
End Kinds.
