(* ===== verification/IndexProbes.v ===== *)
(** The keys of the values that satisfy a predicate (facts about IndexKinds.v).

    The probes of a number cover the keys of all numbers equal to it, and the least of them
    bounds from below the keys of all greater numbers, including integers that share its
    double. With the order of keys this places the key of a value that satisfies an equality or
    a range inside what the seek scans. *)
From S2P Require Import Prelude Core Bytes Float64 Compare CypherValue CypherEquality CypherEquivalence CypherOrder KeyCodec KeyTree IndexKinds.
From stdpp Require Import options.

Open Scope N_scope.

(** ** Probes *)

Lemma encode_single_ok v : indexable v → encode_single v = KOk (key_bytes v).
Proof.
  intros Hv%Is_true_true_1. pose proof (encode_field_spec [] v) as H. by rewrite Hv in H.
Qed.

Lemma is_index_encodable_spec v : is_index_encodable v = indexable v.
Proof.
  unfold is_index_encodable, encode_single. pose proof (encode_field_spec [] v) as H.
  destruct (indexable v); [by rewrite H|]. by destruct H as [e ->].
Qed.

Lemma encode_or_err_ok v : indexable v → encode_or_storage_err v = Ok (key_bytes v).
Proof. intros Hv. unfold encode_or_storage_err. by rewrite encode_single_ok. Qed.

Lemma canonical_float_ok f :
  is_nan f = false → encode_equality_canonical (VFloat f) = KOk ([tag.NUMBER] ++ encode_f64_bits f).
Proof. intros Hn. cbn [encode_equality_canonical]. by rewrite Hn. Qed.

Lemma round_i64_range i : is_i64 i → (- 2 ^ 63 ≤ round_i64 i ≤ 2 ^ 63)%Z.
Proof.
  intros Hi%abs_i64. pose proof (rounded_mono _ _ Hi) as Hm.
  change (rounded (2 ^ 63)) with (2 ^ 63) in Hm. unfold round_i64. destruct (Z.sgn_spec i) as [[_ ->]|[[_ ->]|[_ ->]]]; lia.
Qed.

Lemma as_i64_rounded i :
  is_i64 i → f64_as_i64 (i64_as_f64 i) = Z.min i64_max (round_i64 i).
Proof.
  intros Hi. pose proof (round_i64_range i Hi). unfold f64_as_i64.
  rewrite as_f64_not_nan, scaled_as_f64 by done. pose proof one_scaled_pos.
  rewrite Z.quot_mul by lia. unfold i64_min, i64_max. lia.
Qed.

(** Rounding again, through [i64], gives the same double. *)
Lemma as_f64_idempotent i :
  is_i64 i → is_i64 (f64_as_i64 (i64_as_f64 i)) ∧ i64_as_f64 (f64_as_i64 (i64_as_f64 i)) = i64_as_f64 i.
Proof.
  intros Hi. pose proof (round_i64_range i Hi) as Hr. rewrite as_i64_rounded by done.
  pose proof one_scaled_pos as Hu. destruct (as_f64_parts i Hi) as (_ & _ & Hf & _).
  pose proof (scaled_as_f64 i Hi) as Hs. destruct (decide (round_i64 i = 2 ^ 63)%Z) as [He|He].
  - rewrite He, Z.min_l by (unfold i64_max; lia). split; [unfold is_i64, i64_max; lia|].
    change (i64_as_f64 i64_max) with TWO_POW_63. rewrite He in Hs.
    destruct (scaled_eq TWO_POW_63 (i64_as_f64 i)) as [|[Hbad _]]; [done..|by rewrite Hs|done|done].
  - rewrite Z.min_r by (unfold i64_max; lia). assert (is_i64 (round_i64 i)) as Hj by (unfold is_i64; lia).
    split; [done|]. destruct (as_f64_parts _ Hj) as (_ & _ & Hfj & _).
    pose proof (scaled_as_f64 _ Hj) as Hsj. rewrite (round_i64_double (round_i64 i) (i64_as_f64 i)) in Hsj by done.
    destruct (scaled_eq (i64_as_f64 (round_i64 i)) (i64_as_f64 i)) as [|[_ H0]]; [done..|congruence|done|].
    rewrite Hs in H0. assert (round_i64 i = 0%Z) as Hz by nia. by rewrite Hz, (round_i64_zero i Hz).
Qed.

(** The integer probe of a float that some integer rounds to has the float's magnitude. *)
Lemma float_sibling i :
  is_i64 i → ∃ j, is_i64 j ∧ i64_as_f64 j = i64_as_f64 i ∧
  numeric_equal_sibling (VFloat (i64_as_f64 i)) = Some (VInteger j).
Proof.
  intros Hi. destruct (as_f64_idempotent i Hi) as [Hj Hjf]. exists (f64_as_i64 (i64_as_f64 i)).
  split_and!; [done..|]. destruct (as_f64_parts i Hi) as (_ & Hfin & _).
  assert (is_finite (i64_as_f64 i) && f64_is_whole (i64_as_f64 i) = true) as Hw.
  { apply andb_true_iff. split; [by apply N.ltb_lt|]. unfold f64_is_whole.
    rewrite scaled_as_f64, Z.mod_mul by done. done. }
  unfold numeric_equal_sibling. rewrite Hw, canonical_float_ok by (by apply as_f64_not_nan).
  cbn [encode_equality_canonical]. rewrite Hjf, Z.eqb_refl. by rewrite decide_True.
Qed.

Lemma int_sibling i :
  is_i64 i → round_i64 i = i → numeric_equal_sibling (VInteger i) = Some (VFloat (i64_as_f64 i)).
Proof.
  intros Hi Hr. unfold numeric_equal_sibling. rewrite canonical_float_ok by (by apply as_f64_not_nan).
  cbn [encode_equality_canonical]. rewrite cast_exact, Z.eqb_refl by done. by rewrite decide_True.
Qed.

Definition is_zero (v : Value) : bool :=
  match v with VInteger i => (i =? 0)%Z | VFloat f => f64_eqb f 0 | _ => false end.

Lemma probes_zero v : is_zero v = true → numeric_equal_probes v = [VInteger 0; VFloat 0; VFloat sign_mask].
Proof. intros Hz. unfold numeric_equal_probes. by unfold is_zero in Hz; rewrite Hz. Qed.

Lemma probes_nonzero v :
  is_zero v = false →
  numeric_equal_probes v = v :: match numeric_equal_sibling v with Some s => [s] | None => [] end.
Proof. intros Hz. unfold numeric_equal_probes. unfold is_zero in Hz. rewrite Hz. by destruct (numeric_equal_sibling v). Qed.

Lemma probes_other v : is_number v = false → numeric_equal_probes v = [v].
Proof. intros Hn. by destruct v. Qed.

Lemma is_zero_numeric v : typed v → is_number v → is_zero v = bool_decide (numeric v = Some 0%Z).
Proof.
  intros Hv Hn. pose proof one_scaled_pos as Hu.
  destruct v as [| |i|f| | | | | | | | | | |]; try done; cbn [is_zero numeric].
  - destruct (Z.eqb_spec i 0) as [->|]; [done|]. rewrite bool_decide_false; [done|].
    intros [= ?%Z.mul_eq_0]. lia.
  - rewrite f64_eqb_spec. change (is_nan 0) with false. change (scaled 0) with 0%Z. rewrite orb_false_r.
    destruct (is_nan f); [by rewrite bool_decide_false|]. cbn [negb andb].
    destruct (Z.eqb_spec (scaled f) 0) as [->|]; [by rewrite bool_decide_true|].
    rewrite bool_decide_false; congruence.
Qed.

(** A typed zero is one of the three probed zeros. *)
Lemma zero_cases v :
  typed v → is_number v → numeric v = Some 0%Z → v ∈ [VInteger 0; VFloat 0; VFloat sign_mask].
Proof.
  intros Hv Hn Hz. pose proof one_scaled_pos as Hu.
  destruct v as [| |i|f| | | | | | | | | | |]; try done; cbn [numeric] in Hz.
  - simplify_eq Hz. intros [->|?]%Z.mul_eq_0; [set_solver|lia].
  - destruct (is_nan f); [done|]. simplify_eq Hz. intros H0.
    destruct (scaled_zero f Hv H0) as [->| ->]; set_solver.
Qed.

Lemma probes_self q : typed q → q ∈ numeric_equal_probes q.
Proof.
  intros Hq. destruct (is_zero q) eqn:Hz.
  - rewrite probes_zero by done.
    assert (is_number q) as Hn by (by destruct q). apply zero_cases; [done..|].
    rewrite is_zero_numeric in Hz by done. by apply bool_decide_eq_true in Hz.
  - rewrite probes_nonzero by done. left.
Qed.

Lemma key_bytes_number v w :
  is_number v → is_number w → number_double v = number_double w → number_tag v = number_tag w →
  key_bytes v = key_bytes w.
Proof.
  intros Hv Hw Hd Ht. unfold key_bytes, key_payload.
  by destruct v; try done; destruct w; try done; cbn [key_tag number_double number_tag] in *; rewrite Hd.
Qed.

(** An integer and a double of the same nonzero value: the integer rounds to the double. *)
Lemma int_float_same i f :
  is_i64 i → is_f64 f → (i * Z.of_N one_scaled = scaled f)%Z → scaled f ≠ 0%Z → i64_as_f64 i = f.
Proof.
  intros Hi Hf He Hnz. destruct (as_f64_parts i Hi) as (_ & _ & Hfi & _).
  pose proof (round_i64_double i f He) as Hr. pose proof (scaled_as_f64 i Hi) as Hs. rewrite Hr, He in Hs.
  by destruct (scaled_eq _ _ Hfi Hf Hs) as [|[_ ?]].
Qed.

(** Some probe of a number has the key of any number equal to it. *)
Lemma probe_equal v q z :
  typed v → typed q → is_number v → is_number q → numeric v = Some z → numeric q = Some z →
  ∃ p, p ∈ numeric_equal_probes q ∧ key_bytes p = key_bytes v.
Proof.
  intros Hv Hq Hnv Hnq Hzv Hzq. destruct (decide (z = 0%Z)) as [->|Hz].
  { exists v. split; [|done]. rewrite probes_zero; [by apply zero_cases|].
    rewrite is_zero_numeric by done. by apply bool_decide_true. }
  assert (is_zero q = false) as Hqz.
  { rewrite is_zero_numeric by done. apply bool_decide_false. congruence. }
  destruct v as [| |i|f| | | | | | | | | | |], q as [| |j|g| | | | | | | | | | |]; try done;
    cbn [numeric] in Hzv, Hzq.
  - exists (VInteger j). split; [by apply probes_self|].
    simplify_eq. assert (i = j) as -> by (pose proof one_scaled_pos; nia). done.
  - destruct (is_nan g) eqn:Hng; [done|]. simplify_eq.
    assert (i64_as_f64 i = g) as <- by (apply int_float_same; done || congruence).
    destruct (float_sibling i Hv) as (j & Hj & Hjf & Hs). exists (VInteger j). split.
    + rewrite probes_nonzero, Hs by done. set_solver.
    + by apply key_bytes_number.
  - destruct (is_nan f) eqn:Hnf; [done|]. simplify_eq.
    assert (i64_as_f64 j = f) as <- by (apply int_float_same; done || congruence).
    exists (VFloat (i64_as_f64 j)). split; [|done].
    rewrite probes_nonzero, int_sibling by (done || by eapply round_i64_double). set_solver.
  - destruct (is_nan f) eqn:Hnf, (is_nan g) eqn:Hng; try done. simplify_eq.
    exists (VFloat g). split; [by apply probes_self|].
    destruct (scaled_eq f g Hv Hq) as [->|[? ?]]; congruence.
Qed.

Lemma key_cmp_numbers a b : is_number a → is_number b → key_cmp a b = number_key_cmp a b.
Proof. intros Ha Hb. by destruct a; try done; destruct b. Qed.

(** The least probe of a number is at most the key of any greater number. *)
Lemma probe_below v q x y :
  typed v → typed q → is_number v → is_number q → numeric q = Some x → numeric v = Some y → (x < y)%Z →
  ∃ p, p ∈ numeric_equal_probes q ∧ key_cmp p v ≠ Gt.
Proof.
  intros Hv Hq Hnv Hnq Hx Hy Hlt. pose proof (mono_numeric_le q v x y Hq Hv Hx Hy Hlt) as Hm.
  destruct (decide (key_cmp q v = Gt)) as [Hgt|]; [|exists q; split; [by apply probes_self|done]].
  rewrite key_cmp_numbers in Hgt by done. unfold number_key_cmp, total_f64 in Hgt.
  destruct (N.compare_spec (mono (number_double q)) (mono (number_double v))) as [He| |]; [|done|lia].
  cbn [then_cmp] in Hgt. destruct q as [| |j|g| | | | | | | | | | |], v as [| |i|f| | | | | | | | | | |]; try done.
  cbn [number_double numeric] in *. destruct (is_nan g) eqn:Hng; [done|].
  destruct (as_f64_parts i Hv) as (_ & _ & Hfi & _).
  assert (g = i64_as_f64 i) as -> by (apply mono_inj; done || by apply as_f64_not_nan).
  destruct (is_zero (VFloat (i64_as_f64 i))) eqn:Hz.
  - exists (VInteger 0). rewrite probes_zero by done. split; [set_solver|].
    rewrite is_zero_numeric in Hz by done. apply bool_decide_eq_true in Hz. cbn [numeric] in Hz. rewrite Hng in Hz.
    simplify_eq Hz. intros H0. rewrite scaled_as_f64 in H0 by done.
    assert (round_i64 i = 0%Z) as ->%round_i64_zero by (pose proof one_scaled_pos; nia). done.
  - destruct (float_sibling i Hv) as (j & Hj & Hjf & Hs). exists (VInteger j).
    rewrite probes_nonzero, Hs by done. split; [set_solver|].
    rewrite key_cmp_numbers by done. unfold number_key_cmp, total_f64. cbn [number_double number_tag].
    by rewrite Hjf, N.compare_refl.
Qed.

(** Below an exclusive bound whose key determines it, every smaller number has a smaller key. *)
Lemma key_below_bound v b x y :
  typed v → typed b → is_number v → is_number b → exclusive_upper_key_is_lossy b = false →
  numeric v = Some x → numeric b = Some y → (x < y)%Z → key_cmp v b = Lt.
Proof.
  intros Hv Hb Hnv Hnb Hl Hx Hy Hlt. pose proof (mono_numeric_le v b x y Hv Hb Hx Hy Hlt) as Hm.
  rewrite key_cmp_numbers by done. unfold number_key_cmp, total_f64.
  destruct (N.compare_spec (mono (number_double v)) (mono (number_double b))) as [He| |]; [|done|lia].
  destruct (number_double_typed v x Hv Hx) as [Hfv Hnv'], (number_double_typed b y Hb Hy) as [Hfb Hnb'].
  apply mono_inj in He; [|done..]. cbn [then_cmp]. pose proof one_scaled_pos as Hu.
  destruct b as [| |j|g| | | | | | | | | | |]; try done.
  - cbn [exclusive_upper_key_is_lossy] in Hl. apply N.leb_gt in Hl. unfold LOSSY_INTEGER_KEY_MAGNITUDE in Hl.
    assert (scaled (number_double v) = j * Z.of_N one_scaled)%Z as Hs.
    { rewrite He. cbn [number_double]. rewrite scaled_as_f64, round_i64_exact by (done || lia). done. }
    destruct v as [| |i|f| | | | | | | | | | |]; try done; cbn [numeric number_double] in *.
    + rewrite scaled_as_f64 in Hs by done. apply Z.mul_reg_r in Hs; [|lia].
      injection Hx as <-. injection Hy as <-. assert (i < j)%Z by nia. destruct (decide (- 2 ^ 53 ≤ i)%Z).
      * rewrite round_i64_exact in Hs by lia. lia.
      * pose proof (round_i64_mono i (- 2 ^ 53) ltac:(lia)) as Hr.
        rewrite (round_i64_exact (- 2 ^ 53)) in Hr by lia. lia.
    + rewrite Hnv' in Hx. simplify_eq. lia.
  - destruct v as [| |i|f| | | | | | | | | | |]; try done. cbn [numeric number_double] in *.
    rewrite Hnv' in Hx. rewrite Hnb' in Hy. simplify_eq. lia.
Qed.

(** ** Predicates and keys *)

Lemma compare_other v q o :
  is_scalar v → is_number v && is_number q = false → compare_values v q = Some o →
  class_rank v = class_rank q ∧ is_number v = false ∧ is_number q = false ∧ cmp_values_at 1 v q = o.
Proof.
  intros Hs Hn Hc. destruct v, q; try done; cbn [compare_values value_is_null orb] in Hc;
    try (split_and!; try done; cbn -[cmp_same_temporal point_total_cmp]; congruence).
  case_bool_decide; [|done]. split_and!; [done..|]. cbn -[point_total_cmp]. congruence.
Qed.

Lemma compare_op_true op v q :
  compare_op op v q = True3 → ∃ o, compare_values v q = Some o ∧ op_holds op o = true.
Proof.
  unfold compare_op. destruct (_ || _); [done|]. destruct (_ || _); [done|].
  destruct (compare_values v q) as [o|]; [|done]. rewrite from_bool_true. eauto.
Qed.

Lemma exact_cmp_Some v q o :
  exact_cmp v q = Some o → ∃ x y, numeric v = Some x ∧ numeric q = Some y ∧ o = (x ?= y)%Z.
Proof.
  unfold exact_cmp. destruct (numeric v) as [x|]; [|done]. destruct (numeric q) as [y|]; [|done].
  intros ?. simplify_option_eq. eauto.
Qed.

Lemma indexable_scalar v : indexable v → is_scalar v.
Proof. by destruct v. Qed.

(** The probes of a value have keys. *)
Lemma probes_ok q :
  typed q → indexable q → Forall (λ p, typed p ∧ indexable p) (numeric_equal_probes q).
Proof.
  intros Hq Hi. destruct (is_zero q) eqn:Hz; [by rewrite probes_zero by done; repeat constructor|].
  rewrite probes_nonzero by done. constructor; [done|].
  destruct q as [| |j|g| | | | | | | | | | |]; try constructor; unfold numeric_equal_sibling.
  - repeat case_match; simplify_eq; repeat constructor. by apply as_f64_parts.
  - repeat case_match; simplify_eq; repeat constructor; unfold f64_as_i64, i64_min, i64_max; destruct (is_nan g); lia.
Qed.

Lemma key_eq_cmp v w :
  typed v → indexable v → typed w → indexable w → key_bytes v = key_bytes w → key_cmp v w = Eq.
Proof.
  intros Hv Hiv Hw Hiw He. rewrite <- (orders_cmp _ _ _ v w orders_key_bytes), He by done.
  by apply bytes_cmp_eq.
Qed.

Lemma key_cmp_flip v w :
  typed v → indexable v → typed w → indexable w → key_cmp w v = CompOpp (key_cmp v w).
Proof.
  intros Hv Hiv Hw Hiw. rewrite <- !(orders_cmp _ _ _ _ _ orders_key_bytes) by done.
  by apply (cmp_flip (P := λ _, True) (c := bytes_cmp)).
Qed.

(** A value at or above a bound has a key at or above some probe of the bound. *)
Lemma lower_probe op v q :
  typed v → typed q → indexable v → indexable q → op = Gte_op ∨ op = Gt_op → compare_op op v q = True3 →
  ∃ p, p ∈ numeric_equal_probes q ∧ key_cmp p v ≠ Gt.
Proof.
  intros Hv Hq Hiv Hiq Hop (o & Hc & Ho)%compare_op_true. pose proof (indexable_scalar v Hiv) as Hs.
  assert (o ≠ Lt) as Hne by (intros ->; by destruct Hop as [-> | ->]).
  destruct (is_number v && is_number q) eqn:Hn.
  - apply andb_true_iff in Hn as [Hnv%Is_true_true Hnq%Is_true_true].
    rewrite compare_numbers_exact in Hc by done. apply exact_cmp_Some in Hc as (x & y & Hx & Hy & ->).
    destruct (Z.compare_spec x y) as [->|?|Hgt]; [|done|by apply (probe_below v q y x)].
    destruct (probe_equal v q y) as (p & Hp & Hk); [done..|]. exists p. split; [done|].
    pose proof (probes_ok q Hq Hiq) as Hps. rewrite Forall_forall in Hps. destruct (Hps p Hp).
    by rewrite (key_eq_cmp p v).
  - destruct (compare_other v q o Hs Hn Hc) as (Hr & Hnv & Hnq & Hcmp).
    exists q. split; [by apply probes_self|]. unfold key_cmp. rewrite Hr, N.eqb_refl, Hnq.
    rewrite (cmp_flip (CmpOrder := cmp_values_at_order 1) v q), Hcmp by done. by destruct o.
Qed.

(** A value below an exclusive bound whose key is exact has a key below the bound's. *)
Lemma upper_key v b :
  typed v → typed b → indexable v → exclusive_upper_key_is_lossy b = false →
  compare_op Lt_op v b = True3 → key_cmp v b = Lt.
Proof.
  intros Hv Hb Hiv Hl (o & Hc & Ho)%compare_op_true. pose proof (indexable_scalar v Hiv) as Hs.
  assert (o = Lt) as -> by (by destruct o).
  destruct (is_number v && is_number b) eqn:Hn.
  - apply andb_true_iff in Hn as [Hnv%Is_true_true Hnq%Is_true_true].
    rewrite compare_numbers_exact in Hc by done. apply exact_cmp_Some in Hc as (x & y & Hx & Hy & Hxy).
    by apply (key_below_bound v b x y).
  - destruct (compare_other v b Lt Hs Hn Hc) as (Hr & Hnv & Hnq & Hcmp).
    unfold key_cmp. by rewrite Hr, N.eqb_refl, Hnv.
Qed.

(** A point without a negative zero coordinate. *)
Definition plain_point (v : Value) : Prop :=
  match v with VPoint p => Forall (λ f, f ≠ sign_mask) (coords p) | _ => True end.

Lemma equal_same_kind levels v q :
  is_scalar v → is_number v && is_number q = false → equals_at (S levels) v q = True3 →
  is_number v = false ∧ is_number q = false.
Proof.
  intros Hs Hn. cbn [equals_at]. destruct (value_is_null v || value_is_null q) eqn:Hnull; [done|].
  destruct (value_is_nan v || value_is_nan q); [done|]. by destruct v, q.
Qed.

(** Some probe of a value has the key of any value equal to it. *)
Lemma equal_probe levels v q :
  typed v → typed q → indexable v → indexable q → plain_point v → plain_point q →
  equals_at (S levels) v q = True3 → ∃ p, p ∈ numeric_equal_probes q ∧ key_bytes p = key_bytes v.
Proof.
  intros Hv Hq Hiv Hiq Hpv Hpq He. destruct (is_number v && is_number q) eqn:Hn.
  - apply andb_true_iff in Hn as [Hnv%Is_true_true Hnq%Is_true_true].
    rewrite equals_numbers in He by done. destruct (exact_cmp v q) as [[]|] eqn:Hc; try done.
    apply exact_cmp_Some in Hc as (x & y & Hx & Hy & Hxy). symmetry in Hxy. apply Z.compare_eq in Hxy as ->.
    by apply (probe_equal v q y).
  - exists q. split; [by apply probes_self|]. pose proof (indexable_scalar v Hiv) as Hs.
    destruct (equal_same_kind levels v q Hs Hn He) as [Hnv Hnq].
    assert (∀ x, is_number x = false → plain_point x → no_negative_zero x) as Hz by (by intros []).
    assert (∀ x, is_number x = false → encode_equality_canonical x = encode_single x) as Hc by (by intros []).
    pose proof (equals_canonical levels v q) as Hcan. rewrite !Hc, !encode_single_ok in Hcan by done.
    specialize (Hcan Hv Hq (Hz v Hnv Hpv) (Hz q Hnq Hpq) Hs He). congruence.
Qed.
