(* ===== verification/IndexEntries.v ===== *)
(** The entries of an index in its tree (facts about IndexKinds.v).

    A key is a token, the bytes of what is indexed, and a record id. [KeyTail] is what the
    index kinds ask of the middle part, bytes that carry an order; a value is one instance and
    a tuple of a fixed length another. [stored t token a rid] says that the record is indexed
    under the token with [a]; [index_ok] that the tree holds nothing else. *)
From S2P Require Import Prelude Core Bytes Float64 Compare CypherValue CypherEquality CypherEquivalence CypherOrder KeyCodec KeyTree IndexKinds IndexProbes.
From stdpp Require Import options.

Open Scope N_scope.

Class KeyTail (A : Type) := {
  tail_ok : A → Prop;
  tail_bytes : A → bytes;
  tail_cmp : A → A → comparison;
  tail_orders : orders tail_ok tail_bytes tail_cmp;
}.

#[export] Instance value_tail : KeyTail Value := {
  tail_ok v := typed v ∧ indexable v;
  tail_bytes := key_bytes;
  tail_cmp := key_cmp;
  tail_orders := orders_key_bytes;
}.

Definition tuple_ok (arity : nat) (vs : list Value) : Prop :=
  Forall (λ v, typed v ∧ indexable v) vs ∧ length vs = arity.

Lemma orders_tuple arity :
  orders (tuple_ok arity) (λ vs, concat (key_bytes <$> vs)) (lex key_cmp).
Proof.
  intros x y s t [Hx Hlx] [Hy Hly]. apply (orders_concat _ _ _ _ _ _ _ orders_key_bytes); [done..|congruence].
Qed.

Definition tuple_tail (arity : nat) : KeyTail (list Value) := {|
  tail_ok := tuple_ok arity;
  tail_bytes vs := concat (key_bytes <$> vs);
  tail_cmp := lex key_cmp;
  tail_orders := orders_tuple arity;
|}.

Lemma in_bounds_some lo h k :
  h ≠ [] → in_bounds lo (Some h) k ↔ bytes_cmp lo k ≠ Gt ∧ bytes_cmp k h = Lt.
Proof. by destruct h. Qed.

Lemma bytes_le_trans x y z : bytes_cmp x y ≠ Gt → bytes_cmp y z ≠ Gt → bytes_cmp x z ≠ Gt.
Proof. by apply (cmp_le_trans (λ _, True) bytes_cmp). Qed.

Lemma bytes_le_refl x : bytes_cmp x x ≠ Gt.
Proof. by rewrite (proj2 (bytes_cmp_eq x x) eq_refl). Qed.

Lemma rid_decode_payload rid : is_u64 rid → rid_decode (rid_payload rid) = Some rid.
Proof.
  intros Hr. unfold rid_decode, rid_payload. rewrite to_le_bytes_length. cbn [Nat.eqb].
  by rewrite from_to_le_bytes.
Qed.

Section Entries.
Context {A : Type} `{!KeyTail A}.
#[local] Set Default Proof Using "All".
Implicit Types a b : A.

Lemma tail_flip a b : tail_ok a → tail_ok b → tail_cmp b a = CompOpp (tail_cmp a b).
Proof.
  intros Ha Hb. rewrite <- !(orders_cmp _ _ _ _ _ tail_orders) by done.
  by apply (cmp_flip (P := λ _, True) (c := bytes_cmp)).
Qed.

Lemma tail_eq a b : tail_ok a → tail_ok b → tail_cmp a b = Eq ↔ tail_bytes a = tail_bytes b.
Proof. intros Ha Hb. by rewrite <- bytes_cmp_eq, (orders_cmp _ _ _ a b tail_orders). Qed.

Definition entry_key (token : N) (a : A) (rid : N) : bytes := token_value_id_key token (tail_bytes a) rid.

Definition entry_ok (token : N) (a : A) (rid : N) : Prop := is_u32 token ∧ tail_ok a ∧ is_u64 rid.

Lemma entry_ok_zero token a : is_u32 token → tail_ok a → entry_ok token a 0.
Proof. intros Ht Ha. split; [done|]. by split. Qed.

Lemma entry_key_cmp token token' a b rid rid' s s' :
  entry_ok token a rid → entry_ok token' b rid' →
  bytes_cmp (entry_key token a rid ++ s) (entry_key token' b rid' ++ s') =
  then_cmp (token ?= token') (then_cmp (tail_cmp a b) (then_cmp (rid ?= rid') (bytes_cmp s s'))).
Proof.
  intros (Ht & Ha & Hr) (Ht' & Hb & Hr'). unfold entry_key, token_value_id_key, with_token_prefix.
  rewrite <- !app_assoc. rewrite (orders_be 4), tail_orders, (orders_be 8); done.
Qed.

Lemma entry_cmp token token' a b rid rid' :
  entry_ok token a rid → entry_ok token' b rid' →
  bytes_cmp (entry_key token a rid) (entry_key token' b rid') =
  then_cmp (token ?= token') (then_cmp (tail_cmp a b) (rid ?= rid')).
Proof.
  intros Ha Hb. pose proof (entry_key_cmp token token' a b rid rid' [] [] Ha Hb) as Hc.
  rewrite !app_nil_r in Hc. rewrite Hc. by destruct (rid ?= rid').
Qed.

Lemma entry_key_inj tok token a b r rid :
  entry_ok tok a r → entry_ok token b rid →
  entry_key tok a r = entry_key token b rid ↔ tok = token ∧ tail_bytes a = tail_bytes b ∧ r = rid.
Proof.
  intros Ha Hb. rewrite <- bytes_cmp_eq, entry_cmp, <- tail_eq by (done || apply Ha || apply Hb).
  destruct (N.compare_spec tok token), (tail_cmp a b), (N.compare_spec r rid); cbn [then_cmp]; naive_solver lia.
Qed.

(** The keys between the bounds of a tail are those of its entries. *)
Lemma tail_bounds token a tok b rid :
  entry_ok token a 0 → entry_ok tok b rid →
  in_bounds (token_value_lo token (tail_bytes a)) (Some (token_value_hi token (tail_bytes a))) (entry_key tok b rid) ↔
  tok = token ∧ tail_cmp a b = Eq.
Proof.
  intros Ha Hb. assert (token_value_hi token (tail_bytes a) = entry_key token a u64_max ++ [0xFF]) as -> by done.
  change (token_value_lo token (tail_bytes a)) with (entry_key token a 0).
  rewrite in_bounds_some, entry_cmp by (done || by intros []%app_nil).
  assert (entry_ok token a u64_max) as Ha'.
  { destruct Ha as (? & ? & _). split; [done|]. split; [done|]. unfold is_u64, u64_max. lia. }
  rewrite <- (app_nil_r (entry_key tok b rid)), entry_key_cmp by done.
  rewrite (tail_flip a b), (N.compare_antisym token tok) by (apply Ha || apply Hb).
  assert (then_cmp (rid ?= u64_max) (bytes_cmp [] [0xFF]) = Lt) as ->.
  { destruct Hb as (_ & _ & Hr). unfold u64_max, is_u64 in *. destruct (N.compare_spec rid (2 ^ 64 - 1)); done || lia. }
  destruct (N.compare_spec token tok) as [->|?|?]; cbn [CompOpp then_cmp];
    [|(split; [by intros [? ?]|intros [? ?]; lia])..].
  destruct (tail_cmp a b); cbn [CompOpp then_cmp]; [|split; [by intros [? ?]|by intros [? ?]]..].
  destruct (N.compare_spec 0 rid); done || lia.
Qed.

Lemma token_end tok a rid token :
  entry_ok tok a rid → token < u32_max → tail_bytes a ≠ [] →
  bytes_cmp (entry_key tok a rid) (to_be_bytes 4 (token + 1)) = Lt ↔ tok ≤ token.
Proof.
  intros (Ht & _) Hlt Hne. unfold entry_key, token_value_id_key, with_token_prefix. rewrite <- app_assoc.
  rewrite <- (app_nil_r (to_be_bytes 4 (token + 1))), (orders_be 4); [|done|unfold u32_max in *; cbn; lia].
  destruct (N.compare_spec tok (token + 1)); cbn [then_cmp]; [|split; [lia|done]|split; [done|lia]].
  split; [|lia]. by destruct (tail_bytes a).
Qed.

Lemma token_prefix tok token a rid :
  is_u32 tok → is_u32 token →
  take 4 (entry_key tok a rid) = to_be_bytes 4 token ∧ (4 ≤ length (entry_key tok a rid))%nat ↔ tok = token.
Proof.
  intros Ht Ht'. unfold entry_key, token_value_id_key, with_token_prefix. rewrite <- app_assoc.
  assert (length (to_be_bytes 4 tok) = 4%nat) as Hlen by done.
  rewrite take_app_length', length_app, Hlen by done. split; [|intros ->; split; [done|lia]].
  intros [He _]. pose proof (orders_cmp _ _ _ tok token (orders_be 4) Ht Ht') as Hc.
  rewrite He, (proj2 (bytes_cmp_eq _ _) eq_refl) in Hc. by apply N.compare_eq.
Qed.
End Entries.

(** ** The tree *)

Section Tree.
Context {A : Type} `{!KeyTail A} {T : Type} `{!KeyTree T} `{!KeyTreeSpec T}.
#[local] Set Default Proof Using "All".
Implicit Types (a b : A) (t : T).

(** The record [rid] is indexed under [token] with [a]. *)
Definition stored (t : T) (token : N) (a : A) (rid : N) : Prop :=
  content t !! entry_key token a rid = Some (rid_payload rid).

(** Every entry of the tree is an entry of the index. *)
Definition index_ok (t : T) : Prop :=
  tree_ok t ∧ map_Forall (λ k p, ∃ token a rid, entry_ok token a rid ∧ k = entry_key token a rid ∧
    p = rid_payload rid) (content t).

Lemma index_ok_content t t' : index_ok t → tree_ok t' → content t' = content t → index_ok t'.
Proof. intros [_ Hm] Hok Hc. split; [done|]. by rewrite Hc. Qed.

Lemma elem_of_decode t l (P : bytes → Prop) :
  index_ok t → (∀ k p, (k, p) ∈ l ↔ content t !! k = Some p ∧ P k) →
  ∀ rid, rid ∈ decode_rids l ↔
    ∃ token a, entry_ok token a rid ∧ stored t token a rid ∧ P (entry_key token a rid).
Proof.
  intros [_ Hm] Hl rid. unfold decode_rids. rewrite list_elem_of_omap. split.
  - intros ([k p] & [Hc Hb]%Hl & Hd). destruct (Hm k p Hc) as (token & a & rid' & Hok & -> & ->).
    cbn [snd] in Hd. rewrite rid_decode_payload in Hd by apply Hok. simplify_eq. eauto.
  - intros (token & a & Hok & Hs & Hb). exists (entry_key token a rid, rid_payload rid).
    split; [by apply Hl|]. apply rid_decode_payload, Hok.
Qed.

Lemma range_scan lo hi t :
  index_ok t → ∃ l t', tree_range lo hi t = (Ok l, t') ∧ index_ok t' ∧ content t' = content t ∧
    ∀ rid, rid ∈ decode_rids l ↔
      ∃ token a, entry_ok token a rid ∧ stored t token a rid ∧ in_bounds lo hi (entry_key token a rid).
Proof.
  intros Ht. destruct (tree_range_spec lo hi t) as (l & t' & Hr & Hok & Hc & _ & Hl); [apply Ht|].
  exists l, t'. split_and!; [done|by eapply index_ok_content|done|by apply elem_of_decode].
Qed.

(** The scan between the bounds of a tail yields the records stored with it. *)
Lemma tail_scan token a t :
  index_ok t → is_u32 token → tail_ok a →
  ∃ l t', rids_in_range (token_value_lo token (tail_bytes a)) (token_value_hi token (tail_bytes a)) t = (Ok l, t') ∧
    index_ok t' ∧ content t' = content t ∧ ∀ rid, rid ∈ l ↔ is_u64 rid ∧ stored t token a rid.
Proof.
  intros Ht Htok Ha. pose proof (entry_ok_zero token a Htok Ha) as Hz.
  destruct (range_scan (token_value_lo token (tail_bytes a)) (Some (token_value_hi token (tail_bytes a))) t Ht)
    as (l & t' & Hr & Ht' & Hc & Hl).
  exists (decode_rids l), t'. split_and!; [|done..|].
  { unfold rids_in_range, mbind, St_bind. by rewrite Hr. }
  intros rid. rewrite Hl. split.
  - intros (tok & b & Hok & Hs & [-> He]%tail_bounds); [|done..].
    split; [apply Hok|]. apply tail_eq in He; [|done|apply Hok]. unfold stored, entry_key. by rewrite He.
  - intros [Hrid Hs]. exists token, a. split; [by repeat split|]. split; [done|].
    apply tail_bounds; [done|by repeat split|]. split; [done|]. by apply tail_eq.
Qed.

(** An occupied key holds the id that ends it. *)
Lemma stored_some t token a rid :
  index_ok t → entry_ok token a rid → is_Some (content t !! entry_key token a rid) ↔ stored t token a rid.
Proof.
  intros [_ Hm] Hok. split; [|by eexists]. intros [p Hp]. unfold stored. rewrite Hp. f_equal.
  destruct (Hm _ _ Hp) as (tok & w & r & Hok' & He & ->). by apply entry_key_inj in He as (_ & _ & ->).
Qed.

(** Entries are identified by the token, the bytes and the record. *)
Definition same_entry (token : N) (a : A) (rid tok : N) (b : A) (r : N) : Prop :=
  tok = token ∧ tail_bytes b = tail_bytes a ∧ r = rid.

(** What an insert of an entry does: the entry is added, nothing else changes, and the result
    tells whether it is new. *)
Definition entry_added (t : T) (token : N) (a : A) (rid : N) (c : bool) (t' : T) : Prop :=
  index_ok t' ∧ (c = false ↔ stored t token a rid) ∧
  ∀ tok b r, entry_ok tok b r → stored t' tok b r ↔ stored t tok b r ∨ same_entry token a rid tok b r.

Definition entry_removed (t : T) (token : N) (a : A) (rid : N) (c : bool) (t' : T) : Prop :=
  index_ok t' ∧ (c = true ↔ stored t token a rid) ∧
  ∀ tok b r, entry_ok tok b r → stored t' tok b r ↔ stored t tok b r ∧ ¬ same_entry token a rid tok b r.

Lemma insert_adds txn token a rid t c t' :
  index_ok t → entry_ok token a rid →
  tree_insert txn (entry_key token a rid) (rid_payload rid) t = (Ok c, t') → entry_added t token a rid c t'.
Proof.
  intros Ht Ha (Hok' & Hc & ->)%tree_insert_spec; [|apply Ht]. split_and!.
  - split; [done|]. rewrite Hc. apply map_Forall_insert_2; [eauto 10|apply Ht].
  - rewrite bool_decide_eq_false, <- stored_some by done. by rewrite <- not_eq_None_Some.
  - intros tok b r Hb. unfold same_entry. rewrite <- entry_key_inj by done. unfold stored. rewrite Hc.
    destruct (decide (entry_key token a rid = entry_key tok b r)) as [He|Hne].
    + pose proof He as (_ & _ & ->)%entry_key_inj; [|done..]. rewrite He, lookup_insert_eq. split; [by right|done].
    + rewrite lookup_insert_ne by done. split; [by left|]. by intros [|].
Qed.

Lemma delete_removes txn token a rid t c t' :
  index_ok t → entry_ok token a rid →
  tree_delete txn (entry_key token a rid) t = (Ok c, t') → entry_removed t token a rid c t'.
Proof.
  intros Ht Ha (Hok' & Hc & ->)%tree_delete_spec; [|apply Ht]. split_and!.
  - split; [done|]. rewrite Hc. apply map_Forall_delete, Ht.
  - by rewrite bool_decide_eq_true, stored_some.
  - intros tok b r Hb. unfold same_entry. rewrite <- entry_key_inj by done. unfold stored.
    rewrite Hc, lookup_delete_Some. split; intros [? ?]; split; try done; congruence.
Qed.
End Tree.
