(* ===== verification/IndexSeek.v ===== *)
(** The seeks miss no record (theorems about IndexKinds.v).

    Over any tree that keeps [KeyTreeSpec]: maintenance adds and removes exactly one entry; an
    equality seek returns every record whose indexed value is equal to the one sought; a range
    seek every record whose value satisfies the range; the composite and the token index
    likewise. The probes (IndexProbes.v) and the entries (IndexEntries.v) carry the proofs. *)
From S2P Require Import Prelude Core Bytes Float64 Compare CypherValue CypherEquality CypherEquivalence CypherOrder KeyCodec KeyTree IndexKinds IndexProbes IndexEntries.
From stdpp Require Import options.

Open Scope N_scope.

Lemma encode_or_err_fails v : indexable v = false → ∃ e, encode_or_storage_err v = Err e.
Proof.
  intros Hi. unfold encode_or_storage_err, encode_single. pose proof (encode_field_spec [] v) as Hs.
  rewrite Hi in Hs. destruct Hs as [[what] ->]. eauto.
Qed.

Lemma ids_dedup_sorted (l : list N) : StronglySorted N.le l → StronglySorted N.lt (dedup l).
Proof.
  induction 1 as [|x l Hs IH Hx]; [constructor|]. destruct l as [|y l]; [by repeat constructor|].
  change (dedup (x :: y :: l)) with (if decide (x = y) then dedup (y :: l) else x :: dedup (y :: l)).
  case_decide as Hne; [done|]. constructor; [done|].
  rewrite Forall_forall in Hx. apply Forall_forall. intros z Hz. rewrite elem_of_dedup in Hz.
  assert (x ≤ z) by (by apply Hx). assert (x ≤ y) by (apply Hx; left).
  apply StronglySorted_inv in Hs as [_ Hy]. rewrite Forall_forall in Hy.
  apply elem_of_cons in Hz as [->|Hz]; [lia|]. specialize (Hy z Hz). lia.
Qed.

Lemma elem_of_sort_dedup x l : x ∈ sort_dedup l ↔ x ∈ l.
Proof. unfold sort_dedup. by rewrite elem_of_dedup, merge_sort_Permutation. Qed.

Lemma sort_dedup_sorted l : StronglySorted N.lt (sort_dedup l).
Proof. apply ids_dedup_sorted, StronglySorted_merge_sort; [intros x y z; lia|]. intros x y. lia. Qed.

Lemma min_probe_key_spec token acc probes :
  is_u32 token → Forall (λ p, typed p ∧ indexable p) probes →
  (∀ a, acc = Some a → ∃ p, entry_ok token p 0 ∧ a = entry_key token p 0) → acc ≠ None ∨ probes ≠ [] →
  ∃ p, min_probe_key token acc probes = Ok (Some (entry_key token p 0)) ∧ entry_ok token p 0 ∧
    (∀ a, acc = Some a → bytes_cmp (entry_key token p 0) a ≠ Gt) ∧
    Forall (λ q, bytes_cmp (entry_key token p 0) (entry_key token q 0) ≠ Gt) probes.
Proof.
  intros Ht Hp. revert acc. induction Hp as [|q probes [Hq Hiq] Hp IH]; intros acc Hacc Hne.
  { destruct acc as [a|]; [|naive_solver]. destruct (Hacc a) as (p & Hok & ->); [done|].
    exists p. split_and!; [done|done| |done]. intros a [= <-]. apply bytes_le_refl. }
  assert (entry_ok token q 0) as Hqok by (by apply entry_ok_zero).
  cbn [min_probe_key]. rewrite encode_or_err_ok by done.
  change (token_value_lo token (key_bytes q)) with (entry_key token q 0).
  set (take := match acc with None => true | Some cur => comparison_eqb (bytes_cmp (entry_key token q 0) cur) Lt end).
  destruct (IH (if take then Some (entry_key token q 0) else acc)) as (p & Hmin & Hok & Ha & Hall).
  { destruct take; [|done]. intros a [= <-]. eauto. }
  { left. subst take. by destruct acc; try done; destruct (comparison_eqb _ _). }
  exists p. split; [done|]. split; [done|].
  assert (bytes_cmp (entry_key token p 0) (entry_key token q 0) ≠ Gt) as Hpq.
  { subst take. destruct acc as [a|]; [|by apply Ha].
    destruct (comparison_eqb (bytes_cmp (entry_key token q 0) a) Lt) eqn:Hlt; [by apply Ha|].
    apply (bytes_le_trans _ a); [by apply Ha|]. rewrite (cmp_flip (P := λ _, True) (entry_key token q 0) a) by done.
    by destruct (bytes_cmp _ _). }
  split; [|by constructor]. intros a ->. subst take.
  destruct (comparison_eqb (bytes_cmp (entry_key token q 0) a) Lt) eqn:Hlt; [|by apply Ha].
  apply (bytes_le_trans _ (entry_key token q 0)); [done|]. by destruct (bytes_cmp _ a).
Qed.

Section Seek.
Context {T : Type} `{!KeyTree T} `{!KeyTreeSpec T}.
#[local] Set Default Proof Using "All".

(** ** Equality *)

Lemma seek_probes_spec token probes out t :
  index_ok (A := Value) t → is_u32 token → Forall (λ p, typed p ∧ indexable p) probes →
  ∃ l t', seek_probes token out probes t = (Ok l, t') ∧ index_ok (A := Value) t' ∧ content t' = content t ∧
    ∀ rid, rid ∈ l ↔ rid ∈ out ∨ is_u64 rid ∧ ∃ p, p ∈ probes ∧ stored t token p rid.
Proof.
  intros Ht Htok Hp. revert out t Ht. induction Hp as [|p probes [Hpt Hpi] Hp IH]; intros out t Ht.
  { exists out, t. split_and!; [done..|]. set_solver. }
  destruct (tail_scan token p t Ht Htok (conj Hpt Hpi)) as (r & t1 & Hr & Ht1 & Hc1 & Hr').
  destruct (IH (out ++ r) t1 Ht1) as (l & t2 & Hl & Ht2 & Hc2 & Hl').
  exists l, t2. split_and!; [|done|congruence|].
  { cbn [seek_probes]. unfold seek_eq_exact, mbind, St_bind, lift. rewrite encode_or_err_ok by done.
    cbn [tail_bytes value_tail] in Hr. by rewrite Hr. }
  intros rid. rewrite Hl', elem_of_app, Hr'. unfold stored. rewrite Hc1.
  split.
  - intros [[?|[? ?]]|(? & q & ? & ?)]; [by left|right; split; [done|]; exists p; split; [left|done]|].
    right. split; [done|]. exists q. split; [by right|done].
  - intros [?|(? & q & [->|?]%elem_of_cons & ?)]; [by left; left|by left; right|]. right. eauto.
Qed.

(** ** Ranges *)

(** The upper end of the scan: the key of the bound, or the end of the token. *)
Definition range_end (token : N) (hi : option Value) : option bytes :=
  match hi with
  | Some b => Some (entry_key token b 0)
  | None => if token + 1 <=? u32_max then Some (to_be_bytes 4 (token + 1)) else None
  end.

Lemma range_end_spec token hi tok w rid lo :
  is_u32 token → (∀ b, hi = Some b → typed b ∧ indexable b) → entry_ok tok w rid →
  in_bounds lo (range_end token hi) (entry_key tok w rid) ↔
  bytes_cmp lo (entry_key tok w rid) ≠ Gt ∧
  match hi with Some b => tok < token ∨ tok = token ∧ key_cmp w b = Lt | None => tok ≤ token end.
Proof.
  intros Ht Hhi Hok. destruct hi as [b|]; cbn [range_end].
  - destruct (Hhi b eq_refl) as [Hb Hib]. rewrite in_bounds_some by done.
    rewrite entry_cmp by (done || by apply entry_ok_zero). cbn [tail_cmp value_tail]. f_equiv.
    destruct (N.compare_spec tok token) as [->|?|?]; cbn [then_cmp]; [|split; [by left|done]|split; [done|lia]].
    destruct (key_cmp w b); cbn [then_cmp]; [|split; [by right|done]|].
    + destruct (N.compare_spec rid 0); (split; [done|intros [?|[_ ?]]; [lia|done]]) || lia.
    + split; [done|]. intros [?|[_ ?]]; [lia|done].
  - destruct (N.leb_spec (token + 1) u32_max).
    + rewrite in_bounds_some by done. by rewrite (token_end tok w rid token) by (done || lia).
    + unfold in_bounds. destruct Hok as (Htok & _). unfold is_u32, u32_max in *. intuition lia.
Qed.

Lemma seek_range_scan token lo hi t :
  index_ok (A := Value) t → is_u32 token → typed lo → indexable lo → (∀ b, hi = Some b → typed b ∧ indexable b) →
  ∃ p l t', entry_ok token p 0 ∧
    Forall (λ q, bytes_cmp (entry_key token p 0) (entry_key token q 0) ≠ Gt) (numeric_equal_probes lo) ∧
    seek_range token lo hi t = (Ok l, t') ∧ index_ok (A := Value) t' ∧ content t' = content t ∧
    ∀ rid, rid ∈ l ↔ ∃ tok v, entry_ok tok v rid ∧ stored t tok v rid ∧
      in_bounds (entry_key token p 0) (range_end token hi) (entry_key tok v rid).
Proof.
  intros Ht Htok Hlo Hilo Hhi.
  destruct (min_probe_key_spec token None (numeric_equal_probes lo)) as (p & Hp & Hok & _ & Hall);
    [done|by apply probes_ok|done|right; intros He; pose proof (probes_self lo Hlo) as Hin; rewrite He in Hin; by apply not_elem_of_nil in Hin|].
  destruct (range_scan (entry_key token p 0) (range_end token hi) t Ht) as (l & t' & Hr & Ht' & Hc & Hl).
  exists p, (decode_rids l), t'. split_and!; [done..| |done|done|done].
  unfold seek_range, rids_in_range, mbind, St_bind, lift. rewrite Hp. destruct hi as [b|]; cbn [range_end] in Hr.
  - destruct (Hhi b eq_refl) as [Hb Hib]. rewrite encode_or_err_ok by done.
    change (token_value_lo token (key_bytes b)) with (entry_key token b 0). by rewrite Hr.
  - destruct (token + 1 <=? u32_max); by rewrite Hr.
Qed.

Lemma seek_range_spec token lo hi t :
  index_ok (A := Value) t → is_u32 token → typed lo → indexable lo → (∀ b, hi = Some b → typed b ∧ indexable b) →
  ∃ l t', seek_range token lo hi t = (Ok l, t') ∧ index_ok (A := Value) t' ∧ content t' = content t ∧
    (∀ rid, rid ∈ l → ∃ v, entry_ok token v rid ∧ stored t token v rid) ∧
    ∀ v rid, entry_ok token v rid → stored t token v rid →
      (∃ p, p ∈ numeric_equal_probes lo ∧ key_cmp p v ≠ Gt) → (∀ b, hi = Some b → key_cmp v b = Lt) → rid ∈ l.
Proof.
  intros Ht Htok Hlo Hilo Hhi.
  destruct (seek_range_scan token lo hi t) as (p & l & t' & Hok & Hall & Hr & Ht' & Hc & Hl); [done..|].
  exists l, t'. split_and!; [done..| |].
  - intros rid (tok & v & Hvok & Hs & Hb)%Hl. apply range_end_spec in Hb as [Hge Hle]; [|done..].
    rewrite entry_cmp in Hge by done. assert (tok = token) as ->; [|eauto].
    destruct (N.compare_spec token tok); [done| |done]. destruct hi; intuition lia.
  - intros v rid Hvok Hs (q & Hq & Hqv) Hb. apply Hl. exists token, v. split_and!; [done..|].
    apply range_end_spec; [done..|]. split.
    + rewrite Forall_forall in Hall. eapply bytes_le_trans; [by apply (Hall q)|].
      pose proof (probes_ok lo Hlo Hilo) as Hps. rewrite Forall_forall in Hps. destruct (Hps q Hq).
      rewrite entry_cmp by (done || by apply entry_ok_zero). cbn [tail_cmp value_tail]. rewrite N.compare_refl. cbn [then_cmp].
      destruct (key_cmp q v); [|done..]. cbn [then_cmp]. destruct (N.compare_spec 0 rid); done || lia.
    + destruct hi as [b|]; [|done]. right. auto.
Qed.

Lemma all_candidates_spec token t :
  index_ok (A := Value) t → is_u32 token →
  ∃ l t', all_candidates token t = (Ok l, t') ∧ index_ok (A := Value) t' ∧ content t' = content t ∧
    ∀ rid, rid ∈ l ↔ ∃ v, entry_ok token v rid ∧ stored t token v rid.
Proof.
  intros Ht Htok. destruct (tree_range_spec [] None t) as (l & t' & Hr & Hok & Hc & _ & Hl); [apply Ht|].
  eexists _, t'. split; [by unfold all_candidates, mbind, St_bind; rewrite Hr|].
  split; [by eapply index_ok_content|]. split; [done|]. intros rid.
  rewrite (elem_of_decode t _ (λ k, take 4 k = to_be_bytes 4 token ∧ (4 ≤ length k)%nat) Ht).
  - split.
    + intros (tok & v & Hvok & Hs & ->%token_prefix); [|by apply Hvok|done]. eauto.
    + intros (v & Hvok & Hs). exists token, v. split; [done|]. split; [done|]. by apply token_prefix.
  - intros k p. rewrite list_elem_of_filter, Hl. unfold in_bounds. cbn. intuition.
    by destruct k.
Qed.

Lemma seek_node_eq_spec token q t :
  index_ok (A := Value) t → is_u32 token → typed q → indexable q →
  ∃ l t', candidates_eq token q t = (Ok (Some l), t') ∧ index_ok (A := Value) t' ∧ content t' = content t ∧
    StronglySorted N.lt l ∧
    ∀ rid, rid ∈ l ↔ is_u64 rid ∧ ∃ p, p ∈ numeric_equal_probes q ∧ stored t token p rid.
Proof.
  intros Ht Htok Hq Hiq.
  destruct (seek_probes_spec token (numeric_equal_probes q) [] t Ht Htok (probes_ok q Hq Hiq))
    as (l & t' & Hs & Ht' & Hc & Hl).
  exists (sort_dedup l), t'. split_and!; [|done..|apply sort_dedup_sorted|].
  { unfold candidates_eq. rewrite is_index_encodable_spec, (Is_true_true_1 _ Hiq).
    unfold seek_eq, mbind, St_bind. by rewrite Hs. }
  intros rid. rewrite elem_of_sort_dedup, Hl. split; [|by right].
  by intros [?%not_elem_of_nil|].
Qed.

(** The bound of a seek, and whether it can be a key. *)
Definition bound_value (b : option (Value * bool)) : option Value := fst <$> b.

Definition bounds_keyed (lower upper : option (Value * bool)) : bool :=
  match bound_value lower with Some v => indexable v | None => true end &&
  match bound_value upper with Some v => indexable v | None => true end.

(** The exclusive upper key of the scan, where it can be used. *)
Definition exclusive_end (upper : option (Value * bool)) : option Value :=
  match upper with
  | Some (v, false) => if exclusive_upper_key_is_lossy v then None else Some v
  | _ => None
  end.

Lemma seek_node_range_eq token lower upper t :
  candidates_range token lower upper t =
  if bounds_keyed lower upper
  then unwrap_or_default
    match lower with
    | Some (v, _) => seek_range token v (exclusive_end upper) t
    | None => all_candidates token t
    end
  else (Ok None, t).
Proof.
  unfold candidates_range, bounds_keyed, bound_value, exclusive_end.
  destruct lower as [[lo li]|], upper as [[up []]|]; cbn [fmap option_fmap option_map fst];
    rewrite ?is_index_encodable_spec; try destruct (indexable lo); try destruct (indexable up); done.
Qed.

Lemma range_upper v upper :
  (∀ b, bound_value upper = Some b → typed b) → typed v → indexable v →
  match upper with
  | Some (bound, inclusive) => is_true (compare_op (if inclusive then Lte_op else Lt_op) v bound)
  | None => true
  end = true →
  ∀ b, exclusive_end upper = Some b → key_cmp v b = Lt.
Proof.
  intros Hup Hv Hiv. destruct upper as [[up []]|]; [done| |done]. intros Hs b. cbn [exclusive_end].
  destruct (exclusive_upper_key_is_lossy up) eqn:Hl; [done|]. intros [= <-].
  apply upper_key; [done|by apply Hup|done..|]. by destruct (compare_op Lt_op v up).
Qed.

Lemma range_lower v lo li :
  typed lo → indexable lo → typed v → indexable v →
  is_true (compare_op (if li : bool then Gte_op else Gt_op) v lo) = true →
  ∃ p, p ∈ numeric_equal_probes lo ∧ key_cmp p v ≠ Gt.
Proof.
  intros Hlo Hilo Hv Hiv Hs. apply (lower_probe (if li then Gte_op else Gt_op)); [done..| |].
  - destruct li; auto.
  - by destruct (compare_op _ v lo).
Qed.

(** ** Properties *)

(** Maintenance keeps the index: an insert adds exactly the entry (a token, a key, a record
    id) and reports whether it was new; a remove takes exactly it away and reports whether it
    was there. Entries are identified by the key of the value, so two integers with the same
    double share an entry of the same record. A value that cannot be a key changes nothing. *)
Theorem property_index_maintained txn token v rid t :
  index_ok (A := Value) t → is_u32 token → typed v → is_u64 rid →
  (indexable v = false → ∃ e, property_insert txn token v rid t = (Err e, t) ∧
     property_remove txn token v rid t = (Err e, t)) ∧
  (indexable v → ∀ c t',
    (property_insert txn token v rid t = (Ok c, t') → entry_added t token v rid c t') ∧
    (property_remove txn token v rid t = (Ok c, t') → entry_removed t token v rid c t')).
Proof.
  intros Ht Htok Hv Hrid. unfold property_insert, property_remove, mbind, St_bind, lift. split.
  - intros Hi. destruct (encode_or_err_fails v Hi) as [e ->]. by exists e.
  - intros Hi c t'. rewrite encode_or_err_ok by done.
    change (token_value_id_key token (key_bytes v) rid) with (entry_key token v rid).
    assert (entry_ok token v rid) by (by repeat split). by split; [apply insert_adds|apply delete_removes].
Qed.

(** C10: An equality seek misses nothing: for a value that can be a key it answers, leaves the
    index as it was, and returns in ascending order without repetition exactly the records
    stored under a probe of the value; among them every record whose indexed value is equal to
    it in Cypher, across integers and floats, the three zeros and integers beyond 53 bits. For
    points the claim excludes negative zero coordinates. For any other value it declines. *)
Theorem equality_seek_complete token q t :
  index_ok (A := Value) t → is_u32 token → typed q →
  (indexable q = false → candidates_eq token q t = (Ok None, t)) ∧
  (indexable q → ∃ l t',
    candidates_eq token q t = (Ok (Some l), t') ∧ index_ok (A := Value) t' ∧ content t' = content t ∧
    StronglySorted N.lt l ∧
    (∀ rid, rid ∈ l ↔ is_u64 rid ∧ ∃ p, p ∈ numeric_equal_probes q ∧ stored t token p rid) ∧
    ∀ v rid, entry_ok token v rid → stored t token v rid → plain_point v → plain_point q →
      equals v q = True3 → rid ∈ l).
Proof.
  intros Ht Htok Hq. split.
  { intros Hi. unfold candidates_eq. by rewrite is_index_encodable_spec, Hi. }
  intros Hiq. destruct (seek_node_eq_spec token q t) as (l & t' & Hs & Ht' & Hc & Hsort & Hl); [done..|].
  exists l, t'. split_and!; [done..|]. intros v rid (_ & [Hv Hiv] & Hrid) Hst Hpv Hpq He. apply Hl. split; [done|].
  destruct (equal_probe _ v q Hv Hq Hiv Hiq Hpv Hpq He) as (p & Hp & Hk). exists p. split; [done|].
  unfold stored, entry_key. cbn [tail_bytes value_tail]. by rewrite Hk.
Qed.

(** C9: A range seek misses nothing: when its bounds can be keys it answers, leaves the index as
    it was, returns only records indexed under the token, and among them every record whose
    indexed value satisfies the range, the bounds being open or closed, absent, of any
    indexable type, and integers beyond 53 bits included. Otherwise it declines. *)
Theorem range_seek_complete token lower upper t :
  index_ok (A := Value) t → is_u32 token →
  (∀ b, bound_value lower = Some b → typed b) → (∀ b, bound_value upper = Some b → typed b) →
  (bounds_keyed lower upper = false → candidates_range token lower upper t = (Ok None, t)) ∧
  (bounds_keyed lower upper → ∃ l t',
    candidates_range token lower upper t = (Ok (Some l), t') ∧ index_ok (A := Value) t' ∧
    content t' = content t ∧
    (∀ rid, rid ∈ l → ∃ v, entry_ok token v rid ∧ stored t token v rid) ∧
    ∀ v rid, entry_ok token v rid → stored t token v rid → satisfies_range v lower upper → rid ∈ l).
Proof.
  intros Ht Htok Hlo Hup. rewrite seek_node_range_eq. split; [by intros ->|]. intros Hk.
  rewrite (Is_true_true_1 _ Hk). apply Is_true_true, andb_true_iff in Hk as [Hkl Hku].
  destruct lower as [[lo li]|].
  - destruct (seek_range_spec token lo (exclusive_end upper) t) as (l & t' & Hr & Ht' & Hc & Hsound & Hcomp);
      [done..|by apply Hlo|by apply Is_true_true| |].
    { intros b Hb. destruct upper as [[up []]|]; try done. cbn in Hb.
      destruct (exclusive_upper_key_is_lossy up); simplify_eq. split; [by apply Hup|by apply Is_true_true]. }
    exists l, t'. rewrite Hr. split_and!; [done..|]. intros v rid Hok Hst Hsat.
    destruct (Hok) as (_ & [Hv Hiv] & _). apply Is_true_true, andb_true_iff in Hsat as [Hsat _].
    apply andb_true_iff in Hsat as [Hsl Hsu]. apply (Hcomp v); [done..| |by apply range_upper].
    apply (range_lower v lo li); [by apply Hlo|by apply Is_true_true|done..].
  - destruct (all_candidates_spec token t Ht Htok) as (l & t' & Hr & Ht' & Hc & Hl).
    exists l, t'. rewrite Hr. split_and!; [done..| |]; [by intros rid ?%Hl|]. intros v rid Hok Hst _. apply Hl. eauto.
Qed.
End Seek.
