(* ===== verification/IndexComposite.v ===== *)
(** The composite index and the token index (theorems about IndexKinds.v).

    A composite seek scans the cross product of the probes of its components; a token scan
    reads the keys of a token and looks up the last one, which its exclusive bound leaves out. *)
From S2P Require Import Prelude Core Bytes Float64 Compare CypherValue CypherEquality CypherEquivalence CypherOrder KeyCodec KeyTree IndexKinds IndexProbes IndexEntries IndexSeek.
From stdpp Require Import options.

Open Scope N_scope.

(** ** The cross product *)

Lemma elem_of_probe_combos qs combos vs :
  vs ∈ fold_left add_alternatives qs combos ↔
  ∃ c ps, c ∈ combos ∧ vs = c ++ ps ∧ Forall2 (λ p q, p ∈ numeric_equal_probes q) ps qs.
Proof.
  revert combos. induction qs as [|q qs IH]; intros combos; cbn [fold_left].
  - split; [intros Hv; exists vs, []; by rewrite app_nil_r|].
    intros (c & ps & Hc & -> & ->%Forall2_nil_inv_r). by rewrite app_nil_r.
  - rewrite IH. unfold add_alternatives. split.
    + intros (c & ps & Hc & -> & Hps). apply list_elem_of_bind in Hc as (c' & Ha & Hc').
      apply list_elem_of_bind in Ha as (a & ->%list_elem_of_singleton & Ha).
      exists c', (a :: ps). rewrite <- app_assoc. split_and!; [done..|]. by constructor.
    + intros (c & ps & Hc & -> & (p & ps' & Hp & Hps & ->)%Forall2_cons_inv_r).
      exists (c ++ [p]), ps'. rewrite <- app_assoc. split_and!; [|done..].
      apply list_elem_of_bind. exists c. split; [|done]. apply list_elem_of_bind. exists p.
      split; [by apply list_elem_of_singleton|done].
Qed.

Lemma combos_ok arity qs vs :
  tuple_ok arity qs → vs ∈ probe_combos qs → tuple_ok arity vs.
Proof.
  intros [Hq Hl] (c & ps & ->%list_elem_of_singleton & -> & Hps)%elem_of_probe_combos. cbn [app]. split.
  - clear Hl. induction Hps as [|p q ps qs Hp Hps IH]; [done|]. apply Forall_cons in Hq as [[Hq Hi] Hqs].
    constructor; [|by apply IH]. pose proof (probes_ok q Hq Hi) as Ho. rewrite Forall_forall in Ho. by apply Ho.
  - rewrite <- Hl. by eapply Forall2_length.
Qed.

(** Some combination has the key of any tuple equal component by component. *)
Lemma equal_combo levels arity vs qs :
  tuple_ok arity vs → tuple_ok arity qs → Forall plain_point vs → Forall plain_point qs →
  Forall2 (λ v q, equals_at (S levels) v q = True3) vs qs →
  ∃ ps, ps ∈ probe_combos qs ∧ concat (key_bytes <$> ps) = concat (key_bytes <$> vs).
Proof.
  intros [Hv _] [Hq _] Hpv Hpq He.
  cut (∃ ps, Forall2 (λ p q, p ∈ numeric_equal_probes q) ps qs ∧ key_bytes <$> ps = key_bytes <$> vs).
  { intros (ps & Hps & Hk). exists ps. split; [|by rewrite Hk].
    apply elem_of_probe_combos. exists [], ps. split_and!; [by apply list_elem_of_singleton|done..]. }
  induction He as [|v q vs qs Heq He IH]; [by exists []|].
  rewrite Forall_cons in Hv, Hq, Hpv, Hpq. destruct Hv as [[Hv Hiv] Hvs], Hq as [[Hq Hiq] Hqs], Hpv, Hpq.
  destruct (equal_probe levels v q) as (p & Hp & Hk); [done..|].
  destruct IH as (ps & Hps & Hks); [done..|]. exists (p :: ps). split; [by constructor|].
  by rewrite !fmap_cons, Hk, Hks.
Qed.

Lemma composite_tail_ok arity vs : tuple_ok arity vs → composite_tail vs = Ok (concat (key_bytes <$> vs)).
Proof.
  intros [Hv _]. unfold composite_tail, encode_composite. rewrite encode_fields_spec; [done|].
  eapply Forall_impl; [done|]. by intros v [_ ?].
Qed.

Lemma encode_fields_fails out vs :
  ¬ Forall (λ v, Is_true (indexable v)) vs → ∃ e, encode_fields out vs = KErr e.
Proof.
  revert out. induction vs as [|v vs IH]; intros out Hn; [by destruct Hn|]. cbn [encode_fields].
  pose proof (encode_field_spec out v) as Hs. destruct (indexable v) eqn:Hi.
  - rewrite Hs. apply IH. intros Hvs. apply Hn. constructor; [by rewrite Hi|done].
  - destruct Hs as [e ->]. by exists e.
Qed.

Lemma composite_tail_fails arity vs :
  Forall typed vs → length vs = arity → ¬ tuple_ok arity vs → ∃ e, composite_tail vs = Err e.
Proof.
  intros Hty Hl Hn. unfold composite_tail, encode_composite.
  destruct (encode_fields_fails [] vs) as [[what] ->]; [|eauto].
  intros Hi. apply Hn. split; [|done]. apply Forall_and. by split.
Qed.

Section Composite.
Context {T : Type} `{!KeyTree T} `{!KeyTreeSpec T} (arity : nat).
#[local] Set Default Proof Using "All".
#[local] Instance tuples : KeyTail (list Value) := tuple_tail arity.

Lemma seek_combos_spec token combos out t :
  index_ok t → is_u32 token → Forall (tuple_ok arity) combos →
  ∃ l t', seek_combos token out combos t = (Ok l, t') ∧ index_ok t' ∧ content t' = content t ∧
    ∀ rid, rid ∈ l ↔ rid ∈ out ∨ is_u64 rid ∧ ∃ vs, vs ∈ combos ∧ stored t token vs rid.
Proof.
  intros Ht Htok Hp. revert out t Ht. induction Hp as [|vs combos Hvs Hp IH]; intros out t Ht.
  { exists out, t. split_and!; [done..|]. set_solver. }
  destruct (tail_scan token vs t Ht Htok Hvs) as (r & t1 & Hr & Ht1 & Hc1 & Hr').
  destruct (IH (out ++ r) t1 Ht1) as (l & t2 & Hl & Ht2 & Hc2 & Hl').
  exists l, t2. split_and!; [|done|congruence|].
  { cbn [seek_combos]. unfold mbind, St_bind, lift. rewrite (composite_tail_ok arity vs Hvs).
    cbn [tail_bytes tuples tuple_tail] in Hr. by rewrite Hr. }
  intros rid. rewrite Hl', elem_of_app, Hr'. unfold stored. rewrite Hc1. split.
  - intros [[?|[? ?]]|(? & q & ? & ?)]; [by left|right; split; [done|]; exists vs; split; [left|done]|].
    right. split; [done|]. exists q. split; [by right|done].
  - intros [?|(? & q & [->|?]%elem_of_cons & ?)]; [by left; left|by left; right|]. right. eauto.
Qed.

(** Maintenance of the composite index adds and removes exactly one entry; a tuple of another
    length, or with a component that cannot be a key, changes nothing. *)
Theorem composite_index_maintained txn token vs rid t :
  index_ok t → is_u32 token → Forall typed vs → is_u64 rid →
  (¬ tuple_ok arity vs → ∃ e, composite_insert arity txn token vs rid t = (Err e, t) ∧
     composite_remove arity txn token vs rid t = (Err e, t)) ∧
  (tuple_ok arity vs → ∀ c t',
    (composite_insert arity txn token vs rid t = (Ok c, t') → entry_added t token vs rid c t') ∧
    (composite_remove arity txn token vs rid t = (Ok c, t') → entry_removed t token vs rid c t')).
Proof.
  intros Ht Htok Hty Hrid. unfold composite_insert, composite_remove, check_arity, mbind, St_bind, lift. split.
  - intros Hn. destruct (Nat.eqb_spec (length vs) arity) as [Hl|Hl]; cbn; [|eauto].
    destruct (composite_tail_fails arity vs) as [e ->]; [done..|]. by exists e.
  - intros Hvs c t'. destruct (Hvs) as [_ Hl]. rewrite Hl, Nat.eqb_refl. cbn [negb mret St_ret].
    rewrite (composite_tail_ok arity vs Hvs).
    change (token_value_id_key token (concat (key_bytes <$> vs)) rid) with (entry_key token vs rid).
    assert (entry_ok token vs rid) by (split; [done|by split]).
    by split; [apply insert_adds|apply delete_removes].
Qed.

(** C11: A composite equality seek misses nothing but points with a negative zero: it
    answers for every tuple of keys of the index's arity, leaves the index as it was,
    returns in ascending order without repetition exactly the records stored under a
    combination of probes, and among them every record whose indexed tuple is equal in
    Cypher component by component, whatever mix of integers and floats it holds, provided
    that no point in the tuple or in the query has a coordinate [-0.0]. A tuple of another
    length is an error. *)
Theorem composite_seek_complete token qs t :
  index_ok t → is_u32 token →
  (length qs ≠ arity → ∃ e, composite_seek_eq arity token qs t = (Err e, t)) ∧
  (tuple_ok arity qs → ∃ l t',
    composite_seek_eq arity token qs t = (Ok l, t') ∧ index_ok t' ∧ content t' = content t ∧
    StronglySorted N.lt l ∧
    (∀ rid, rid ∈ l ↔ is_u64 rid ∧ ∃ ps, ps ∈ probe_combos qs ∧ stored t token ps rid) ∧
    ∀ vs rid, entry_ok token vs rid → stored t token vs rid → Forall plain_point vs → Forall plain_point qs →
      Forall2 (λ v q, equals v q = True3) vs qs → rid ∈ l).
Proof.
  intros Ht Htok. unfold composite_seek_eq, check_arity, mbind, St_bind. split.
  { intros Hne. rewrite (proj2 (Nat.eqb_neq _ _) Hne). cbn. eauto. }
  intros Hqs. destruct (Hqs) as [_ Hlen]. rewrite Hlen, Nat.eqb_refl. cbn [negb mret St_ret].
  destruct (seek_combos_spec token (probe_combos qs) [] t Ht Htok) as (l & t' & Hs & Ht' & Hc & Hl).
  { apply Forall_forall. intros vs. by apply combos_ok. }
  rewrite Hs. assert (∀ rid, rid ∈ sort_dedup l ↔ is_u64 rid ∧ ∃ ps, ps ∈ probe_combos qs ∧ stored t token ps rid) as Hl'.
  { intros rid. rewrite elem_of_sort_dedup, Hl. split; [|by right]. by intros [?%not_elem_of_nil|]. }
  exists (sort_dedup l), t'. split_and!; [done..|apply sort_dedup_sorted|done|].
  intros vs rid (_ & Hvs & Hrid) Hst Hpv Hpq He. apply Hl'. split; [done|].
  destruct (equal_combo _ arity vs qs Hvs Hqs Hpv Hpq He) as (ps & Hps & Hk). exists ps. split; [done|].
  unfold stored, entry_key. cbn [tail_bytes tuples tuple_tail]. by rewrite Hk.
Qed.
End Composite.

(** ** The token index *)

#[local] Instance no_tail : KeyTail unit := {
  tail_ok _ := True;
  tail_bytes _ := [];
  tail_cmp _ _ := Eq;
  tail_orders := orders_nil (λ _, True);
}.

Section Token.
Context {T : Type} `{!KeyTree T} `{!KeyTreeSpec T}.
#[local] Set Default Proof Using "All".

(** The element carries the token. *)
Definition tagged (t : T) (token element_id : N) : Prop := stored t token tt element_id.

#[local] Instance tagged_dec t token element_id : Decision (tagged t token element_id).
Proof. unfold tagged, stored. apply _. Defined.

Lemma token_bounds token tok rid :
  is_u32 token → entry_ok tok tt rid →
  in_bounds (entry_key token tt 0) (Some (entry_key token tt u64_max)) (entry_key tok tt rid) ↔
  tok = token ∧ rid ≠ u64_max.
Proof.
  intros Ht Hok. assert (∀ r, is_u64 r → entry_ok token tt r) as Hok' by (by repeat split).
  assert (is_u64 u64_max) as Hmax by (unfold is_u64, u64_max; lia).
  rewrite in_bounds_some, !entry_cmp by (done || by apply Hok'). cbn [tail_cmp no_tail then_cmp].
  destruct Hok as (_ & _ & Hr). unfold is_u64 in *. rewrite (N.compare_antisym token tok).
  destruct (N.compare_spec token tok) as [->|?|?]; cbn [CompOpp then_cmp]; [|(split; [by intros [? ?]|intros [? ?]; lia])..].
  rewrite N.compare_lt_iff, N.compare_gt_iff. unfold u64_max. intuition lia.
Qed.

(** The scan up to the last id, and the lookup of it. *)
Lemma scan_token_spec token t :
  index_ok (A := unit) t → is_u32 token →
  ∃ l t', scan_token token t = (Ok l, t') ∧ index_ok (A := unit) t' ∧ content t' = content t ∧
    ∀ rid, rid ∈ l ↔ is_u64 rid ∧ tagged t token rid.
Proof.
  intros Ht Htok. assert (∀ rid, is_u64 rid → entry_ok token tt rid) as Hok by (by repeat split).
  assert (is_u64 u64_max) as Hmax by (unfold is_u64, u64_max; lia).
  destruct (range_scan (entry_key token tt 0) (Some (entry_key token tt u64_max)) t Ht) as (l & t1 & Hr & Ht1 & Hc1 & Hl).
  destruct (tree_lookup_spec (entry_key token tt u64_max) t1) as (t2 & Hlk & Hok2 & Hc2); [apply Ht1|].
  rewrite Hc1 in Hlk, Hc2.
  assert (∀ rid, rid ∈ decode_rids l ↔ is_u64 rid ∧ tagged t token rid ∧ rid ≠ u64_max) as Hl'.
  { intros rid. rewrite Hl. split.
    - intros (tok & [] & Ho & Hs & [-> Hne]%token_bounds); [|done..]. by split; [apply Ho|].
    - intros (Hr64 & Hs & Hne). exists token, tt. split; [by apply Hok|]. split; [done|].
      by apply token_bounds; [|apply Hok|]. }
  assert (scan_token token t = (Ok (decode_rids l ++ if decide (tagged t token u64_max) then [u64_max] else []), t2)) as Hscan.
  { unfold scan_token, rids_in_range, mbind, St_bind.
    change (token_key token 0) with (entry_key token tt 0). change (token_key token u64_max) with (entry_key token tt u64_max).
    rewrite Hr. cbn [mret St_ret]. rewrite Hlk. case_decide as Hd.
    - rewrite Hd. by rewrite rid_decode_payload.
    - destruct (content t !! _) eqn:He; [|by rewrite app_nil_r]. destruct Hd. apply stored_some; [done|by apply Hok|by eexists]. }
  eexists _, t2. split; [done|]. split; [by apply (index_ok_content t)|]. split; [done|].
  intros rid. rewrite elem_of_app, Hl'. case_decide as Hd.
  - rewrite list_elem_of_singleton. destruct (decide (rid = u64_max)) as [->|]; tauto.
  - split; [by intros [?|?%not_elem_of_nil]; [tauto|]|]. intros [? Hs]. left. split_and!; [done..|]. by intros ->.
Qed.

(** The token index is the relation between tokens and elements: an insert and a remove
    change the one pair and report whether it was new or there, and the scan of a token
    returns exactly its elements, the greatest id included. *)
Theorem token_index_exact txn token element_id t :
  index_ok (A := unit) t → is_u32 token → is_u64 element_id →
  (∀ c t', token_insert txn token element_id t = (Ok c, t') → entry_added t token tt element_id c t') ∧
  (∀ c t', token_remove txn token element_id t = (Ok c, t') → entry_removed t token tt element_id c t') ∧
  ∃ l t', scan_token token t = (Ok l, t') ∧ index_ok (A := unit) t' ∧ content t' = content t ∧
    ∀ rid, rid ∈ l ↔ is_u64 rid ∧ tagged t token rid.
Proof.
  intros Ht Htok Hid. assert (entry_ok token tt element_id) by (by repeat split).
  unfold token_insert, token_remove. change (token_key token element_id) with (entry_key token tt element_id).
  split_and!; [by intros c t'; apply insert_adds|by intros c t'; apply delete_removes|by apply scan_token_spec].
Qed.
End Token.
