(* ===== verification/IndexSet.v ===== *)
(** The set of derived indexes (graphus-cypher index_set.rs), its ordered part.

    [IndexSet] keeps the label index, the node- and relationship-property indexes and the
    composite indexes, with the undo log of the entries every open transaction created. The
    full-text, spatial, text, vector and bitmap indexes of the source are not part of the
    state; an operation that also touches them is modelled by what it does to this part.

    The operations are over any ordered map ([KeyTree]); [fresh_tree] is an empty one. A hash
    map is iterated in the order [iter], a parameter that yields each key once. *)
From S2P Require Import Prelude Core Bytes Float64 Compare CypherValue CypherEquality CypherEquivalence CypherOrder KeyCodec KeyTree IndexKinds.
From stdpp Require Import options.

Open Scope N_scope.

(** ** Data *)

Inductive IndexState := Populating | Online.

#[export] Instance IndexState_eq_dec : EqDecision IndexState.
Proof. solve_decision. Defined.

Inductive StoreKind := Node | Rel | Prop_ | Strings | Undo | Commit.

#[export] Instance StoreKind_eq_dec : EqDecision StoreKind.
Proof. solve_decision. Defined.

Inductive IndexWriter := WTxn (txn : N) | Population.

Definition POPULATION_TXN : N := 1.

Definition tree_txn (w : IndexWriter) : N :=
  match w with WTxn txn => txn | Population => POPULATION_TXN end.

Inductive IndexUndoEntry :=
  | ULabel (label_token node_id : N)
  | UNodeProperty (label_token prop_key : N) (value : Value) (node_id : N)
  | UNodeComposite (label_token : N) (property_tokens : list N) (values : list Value) (node_id : N)
  | URelProperty (type_token prop_key : N) (value : Value) (rel_id : N)
  | URelComposite (type_token : N) (property_tokens : list N) (values : list Value) (rel_id : N).

Record IndexUndoLog := { log_txn : N; log_entries : list IndexUndoEntry }.

Record DeadKeyEvidence := {
  property_versions : list (N * Value);
  ev_labels : list N;
  in_use : bool;
}.

Record DeadKeyCollection := {
  entries_removed : N;
  entities_purged : N;
  keys_retained : N;
  abandoned : bool;
}.

Definition default_collection : DeadKeyCollection :=
  {| entries_removed := 0; entities_purged := 0; keys_retained := 0; abandoned := false |}.

Inductive DeadIndexKey :=
  | DeadProperty (kind : StoreKind) (entity key : N) (value : Value)
  | DeadLabel (node label : N)
  | DeadEntity (kind : StoreKind) (entity : N).

Definition same_index_key (a b : Value) : bool :=
  match encode_single a, encode_single b with
  | KOk x, KOk y => bool_decide (x = y)
  | _, _ => false
  end.

Definition MAX_TXN_UNDO_ENTRIES : N := 65536.

Record NodePropertyIndex (T : Type) := { np_index : T; np_state : IndexState; unindexable_values : bool }.
Arguments np_index {T}. Arguments np_state {T}. Arguments unindexable_values {T}.

Record RelationshipPropertyIndex (T : Type) := { rp_index : T; rp_state : IndexState }.
Arguments rp_index {T}. Arguments rp_state {T}.

Record CompositeIndex (T : Type) := { ci_tree : T; arity : nat }.
Arguments ci_tree {T}. Arguments arity {T}.

Record IndexSet (T : Type) := {
  labels : T;
  node_props : gmap (N * N) (NodePropertyIndex T);
  rel_props : gmap (N * N) (RelationshipPropertyIndex T);
  composite : gmap (N * list N) (CompositeIndex T);
  rel_composite : gmap (N * list N) (CompositeIndex T);
  rel_equality_declared : gmap N (gset N);
  txn_index_undo : gmap N (list IndexUndoEntry);
  labels_usable : bool;
  rebuild_gap : bool;
  degraded : bool;
  wipe_generation : N;
  fail_closed_events : N;
}.
Arguments labels {T}. Arguments node_props {T}. Arguments rel_props {T}. Arguments composite {T}.
Arguments rel_composite {T}. Arguments rel_equality_declared {T}. Arguments txn_index_undo {T}.
Arguments labels_usable {T}. Arguments rebuild_gap {T}. Arguments degraded {T}.
Arguments wipe_generation {T}. Arguments fail_closed_events {T}.

Section Set_.
Context {T : Type} `{!KeyTree T} (fresh_tree : T) (iter : gset (N * N) → list (N * N)).
Implicit Types s : IndexSet T.

(** The parts of the state that change together: the five kinds of trees, and the logs. *)
Definition set_trees s (l : T) (np : gmap (N * N) (NodePropertyIndex T))
    (rp : gmap (N * N) (RelationshipPropertyIndex T)) (c rc : gmap (N * list N) (CompositeIndex T)) : IndexSet T :=
  {| labels := l; node_props := np; rel_props := rp; composite := c; rel_composite := rc;
     rel_equality_declared := rel_equality_declared s; txn_index_undo := txn_index_undo s;
     labels_usable := labels_usable s; rebuild_gap := rebuild_gap s; degraded := degraded s;
     wipe_generation := wipe_generation s; fail_closed_events := fail_closed_events s |}.

Definition set_labels l s := set_trees s l (node_props s) (rel_props s) (composite s) (rel_composite s).
Definition set_node_props m s := set_trees s (labels s) m (rel_props s) (composite s) (rel_composite s).
Definition set_rel_props m s := set_trees s (labels s) (node_props s) m (composite s) (rel_composite s).
Definition set_composite m s := set_trees s (labels s) (node_props s) (rel_props s) m (rel_composite s).
Definition set_rel_composite m s := set_trees s (labels s) (node_props s) (rel_props s) (composite s) m.

Definition set_flags (u : gmap N (list IndexUndoEntry)) (d : gmap N (gset N)) (usable gap deg : bool)
    (wipes events : N) s : IndexSet T :=
  {| labels := labels s; node_props := node_props s; rel_props := rel_props s; composite := composite s;
     rel_composite := rel_composite s; rel_equality_declared := d; txn_index_undo := u;
     labels_usable := usable; rebuild_gap := gap; degraded := deg; wipe_generation := wipes;
     fail_closed_events := events |}.

Definition set_undo u s :=
  set_flags u (rel_equality_declared s) (labels_usable s) (rebuild_gap s) (degraded s) (wipe_generation s)
    (fail_closed_events s) s.
Definition set_declared d s :=
  set_flags (txn_index_undo s) d (labels_usable s) (rebuild_gap s) (degraded s) (wipe_generation s)
    (fail_closed_events s) s.

Definition np_with_index (t : T) (np : NodePropertyIndex T) : NodePropertyIndex T :=
  {| np_index := t; np_state := np_state np; unindexable_values := unindexable_values np |}.
Definition np_with_state (st : IndexState) (np : NodePropertyIndex T) : NodePropertyIndex T :=
  {| np_index := np_index np; np_state := st; unindexable_values := unindexable_values np |}.
Definition rp_with_index (t : T) (rp : RelationshipPropertyIndex T) : RelationshipPropertyIndex T :=
  {| rp_index := t; rp_state := rp_state rp |}.
Definition ci_with_tree (t : T) (ci : CompositeIndex T) : CompositeIndex T :=
  {| ci_tree := t; arity := arity ci |}.

(** [IndexSet::new]. *)
Definition new : IndexSet T :=
  {| labels := fresh_tree; node_props := ∅; rel_props := ∅; composite := ∅; rel_composite := ∅;
     rel_equality_declared := ∅; txn_index_undo := ∅; labels_usable := true; rebuild_gap := false;
     degraded := false; wipe_generation := 0; fail_closed_events := 0 |}.

(** ** Registration *)

Definition register_node_property_with_state (label_token prop_key : N) (state : IndexState) s : IndexSet T :=
  set_node_props
    (<[(label_token, prop_key) :=
       match node_props s !! (label_token, prop_key) with
       | Some np => np_with_state state np
       | None => {| np_index := fresh_tree; np_state := state; unindexable_values := false |}
       end]> (node_props s)) s.

Definition register_node_property (label_token prop_key : N) s : IndexSet T :=
  register_node_property_with_state label_token prop_key Online s.

Definition set_node_property_state (label_token prop_key : N) (state : IndexState) s : IndexSet T :=
  set_node_props (alter (np_with_state state) (label_token, prop_key) (node_props s)) s.

Definition unregister_node_property (label_token prop_key : N) s : IndexSet T :=
  set_node_props (delete (label_token, prop_key) (node_props s)) s.

Definition has_node_property s (label_token prop_key : N) : bool :=
  bool_decide (is_Some (node_props s !! (label_token, prop_key))).

Definition node_property_state s (label_token prop_key : N) : option IndexState :=
  np_state <$> node_props s !! (label_token, prop_key).

Definition node_property_index_is_complete s (label_token prop_key : N) : bool :=
  match node_props s !! (label_token, prop_key) with Some np => negb (unindexable_values np) | None => true end.

Definition note_rel_equality_declared (type_token prop_key : N) s : IndexSet T :=
  set_declared (<[type_token := {[prop_key]} ∪ default ∅ (rel_equality_declared s !! type_token)]>
                  (rel_equality_declared s)) s.

Definition rel_equality_any_declared s : bool := negb (bool_decide (rel_equality_declared s = ∅)).

Definition rel_equality_marker_possible s (type_token prop_key : N) : bool :=
  match rel_equality_declared s !! type_token with
  | Some props => bool_decide (prop_key ∈ props)
  | None => false
  end.

Definition rel_equality_possible_for_type s (type_token : N) : bool :=
  bool_decide (is_Some (rel_equality_declared s !! type_token)).

Definition register_rel_property_with_state (type_token prop_key : N) (state : IndexState) s : IndexSet T :=
  let s := note_rel_equality_declared type_token prop_key s in
  set_rel_props
    (<[(type_token, prop_key) :=
       match rel_props s !! (type_token, prop_key) with
       | Some rp => {| rp_index := rp_index rp; rp_state := state |}
       | None => {| rp_index := fresh_tree; rp_state := state |}
       end]> (rel_props s)) s.

Definition register_rel_property (type_token prop_key : N) s : IndexSet T :=
  register_rel_property_with_state type_token prop_key Online s.

Definition set_rel_property_state (type_token prop_key : N) (state : IndexState) s : IndexSet T :=
  set_rel_props (alter (λ rp, {| rp_index := rp_index rp; rp_state := state |}) (type_token, prop_key) (rel_props s)) s.

Definition unregister_rel_property (type_token prop_key : N) s : IndexSet T :=
  set_rel_props (delete (type_token, prop_key) (rel_props s)) s.

Definition register_composite (label_token : N) (property_tokens : list N) : St (IndexSet T) unit := λ s,
  if bool_decide (property_tokens = []) then (Panic "composite index needs at least one property", s)
  else (Ok tt,
        set_composite
          (<[(label_token, property_tokens) :=
             default {| ci_tree := fresh_tree; arity := length property_tokens |}
               (composite s !! (label_token, property_tokens))]> (composite s)) s).

Definition unregister_composite (label_token : N) (property_tokens : list N) s : IndexSet T :=
  set_composite (delete (label_token, property_tokens) (composite s)) s.

Definition register_rel_composite (type_token : N) (property_tokens : list N) : St (IndexSet T) unit := λ s,
  if bool_decide (property_tokens = [])
  then (Panic "composite relationship index needs at least one property", s)
  else
    let s := foldl (λ s prop_key, note_rel_equality_declared type_token prop_key s) s property_tokens in
    (Ok tt,
     set_rel_composite
       (<[(type_token, property_tokens) :=
          default {| ci_tree := fresh_tree; arity := length property_tokens |}
            (rel_composite s !! (type_token, property_tokens))]> (rel_composite s)) s).

Definition unregister_rel_composite (type_token : N) (property_tokens : list N) s : IndexSet T :=
  set_rel_composite (delete (type_token, property_tokens) (rel_composite s)) s.

(** ** Undo logs *)

Definition invalidate_txn_undo s : IndexSet T := set_undo ∅ s.

Definition note_entry (writer : IndexWriter) (created : bool) (entry : IndexUndoEntry) s : IndexSet T :=
  match writer with
  | WTxn txn =>
      if created then
        let log := default [] (txn_index_undo s !! txn) in
        let log := if MAX_TXN_UNDO_ENTRIES <=? N.of_nat (length log) then [] else log in
        set_undo (<[txn := log ++ [entry]]> (txn_index_undo s)) s
      else s
  | Population => invalidate_txn_undo s
  end.

Definition take_txn_entries (txn : N) s : IndexUndoLog * IndexSet T :=
  ({| log_txn := txn; log_entries := default [] (txn_index_undo s !! txn) |},
   set_undo (delete txn (txn_index_undo s)) s).

Definition forget_txn_entries (txn : N) s : IndexSet T := set_undo (delete txn (txn_index_undo s)) s.

Definition has_other_index_writer_in_flight s (txn : N) : bool :=
  existsb (λ t, negb (t =? txn)) (elements (dom (txn_index_undo s))).

(** ** Maintenance *)

(** [unwrap_or]: an error is replaced by a default. *)
Definition unwrap_or {S A} (default : A) (m : St S A) : St S A := λ x,
  match m x with (Err _, x') => (Ok default, x') | r => r end.

Definition insert_label (writer : IndexWriter) (label_token node_id : N) : St (IndexSet T) unit := λ s,
  let '(r, t) := unwrap_or false (token_insert (tree_txn writer) label_token node_id) (labels s) in
  let s := set_labels t s in
  match r with
  | Ok created => (Ok tt, note_entry writer created (ULabel label_token node_id) s)
  | Err e => (Err e, s)
  | Panic m => (Panic m, s)
  end.

Definition insert_node_property (writer : IndexWriter) (label_token prop_key : N) (value : Value)
    (node_id : N) : St (IndexSet T) unit := λ s,
  match node_props s !! (label_token, prop_key) with
  | None => (Ok tt, s)
  | Some np =>
      let '(r, t) := property_insert (tree_txn writer) prop_key value node_id (np_index np) in
      let entry := UNodeProperty label_token prop_key value node_id in
      let put np := set_node_props (<[(label_token, prop_key) := np]> (node_props s)) s in
      match r with
      | Ok is_new => (Ok tt, note_entry writer is_new entry (put (np_with_index t np)))
      | Err _ =>
          let flag := if value_is_null value then unindexable_values np else true in
          (Ok tt, note_entry writer false entry
             (put {| np_index := t; np_state := np_state np; unindexable_values := flag |}))
      | Panic m => (Panic m, put (np_with_index t np))
      end
  end.

Definition insert_rel_property (writer : IndexWriter) (type_token prop_key : N) (value : Value)
    (rel_id : N) : St (IndexSet T) unit := λ s,
  match rel_props s !! (type_token, prop_key) with
  | None => (Ok tt, s)
  | Some rp =>
      let '(r, t) := unwrap_or false (property_insert (tree_txn writer) prop_key value rel_id) (rp_index rp) in
      let s := set_rel_props (<[(type_token, prop_key) := rp_with_index t rp]> (rel_props s)) s in
      match r with
      | Ok created => (Ok tt, note_entry writer created (URelProperty type_token prop_key value rel_id) s)
      | Err e => (Err e, s)
      | Panic m => (Panic m, s)
      end
  end.

Definition insert_composite (writer : IndexWriter) (label_token : N) (property_tokens : list N)
    (values : list Value) (node_id : N) : St (IndexSet T) unit := λ s,
  match composite s !! (label_token, property_tokens) with
  | None => (Ok tt, s)
  | Some idx =>
      let '(r, t) := unwrap_or false
        (composite_insert (arity idx) (tree_txn writer) label_token values node_id) (ci_tree idx) in
      let s := set_composite (<[(label_token, property_tokens) := ci_with_tree t idx]> (composite s)) s in
      match r with
      | Ok created =>
          (Ok tt, note_entry writer created (UNodeComposite label_token property_tokens values node_id) s)
      | Err e => (Err e, s)
      | Panic m => (Panic m, s)
      end
  end.

Definition insert_rel_composite (writer : IndexWriter) (type_token : N) (property_tokens : list N)
    (values : list Value) (rel_id : N) : St (IndexSet T) unit := λ s,
  match rel_composite s !! (type_token, property_tokens) with
  | None => (Ok tt, s)
  | Some idx =>
      let '(r, t) := unwrap_or false
        (composite_insert (arity idx) (tree_txn writer) type_token values rel_id) (ci_tree idx) in
      let s := set_rel_composite (<[(type_token, property_tokens) := ci_with_tree t idx]> (rel_composite s)) s in
      match r with
      | Ok created =>
          (Ok tt, note_entry writer created (URelComposite type_token property_tokens values rel_id) s)
      | Err e => (Err e, s)
      | Panic m => (Panic m, s)
      end
  end.

(** ** Rollback *)

(** Removing one entry: whether it was there; an error or a missing index counts as absent. *)
Definition remove_node_property (txn label_token prop_key : N) (value : Value) (id : N) : St (IndexSet T) bool := λ s,
  match node_props s !! (label_token, prop_key) with
  | None => (Ok false, s)
  | Some np =>
      let '(r, t) := unwrap_or false (property_remove txn prop_key value id) (np_index np) in
      (r, set_node_props (<[(label_token, prop_key) := np_with_index t np]> (node_props s)) s)
  end.

Definition remove_rel_property (txn type_token prop_key : N) (value : Value) (id : N) : St (IndexSet T) bool := λ s,
  match rel_props s !! (type_token, prop_key) with
  | None => (Ok false, s)
  | Some rp =>
      let '(r, t) := unwrap_or false (property_remove txn prop_key value id) (rp_index rp) in
      (r, set_rel_props (<[(type_token, prop_key) := rp_with_index t rp]> (rel_props s)) s)
  end.

Definition remove_entry (txn : N) (entry : IndexUndoEntry) : St (IndexSet T) bool := λ s,
  match entry with
  | ULabel label_token node_id =>
      let '(r, t) := unwrap_or false (token_remove txn label_token node_id) (labels s) in
      (r, set_labels t s)
  | UNodeProperty label_token prop_key value node_id => remove_node_property txn label_token prop_key value node_id s
  | UNodeComposite label_token property_tokens values node_id =>
      match composite s !! (label_token, property_tokens) with
      | None => (Ok false, s)
      | Some idx =>
          let '(r, t) := unwrap_or false
            (composite_remove (arity idx) txn label_token values node_id) (ci_tree idx) in
          (r, set_composite (<[(label_token, property_tokens) := ci_with_tree t idx]> (composite s)) s)
      end
  | URelProperty type_token prop_key value rel_id => remove_rel_property txn type_token prop_key value rel_id s
  | URelComposite type_token property_tokens values rel_id =>
      match rel_composite s !! (type_token, property_tokens) with
      | None => (Ok false, s)
      | Some idx =>
          let '(r, t) := unwrap_or false
            (composite_remove (arity idx) txn type_token values rel_id) (ci_tree idx) in
          (r, set_rel_composite (<[(type_token, property_tokens) := ci_with_tree t idx]> (rel_composite s)) s)
      end
  end.

Fixpoint undo_loop (txn : N) (removed : N) (entries : list IndexUndoEntry) : St (IndexSet T) N :=
  match entries with
  | [] => mret removed
  | entry :: entries =>
      gone ← remove_entry txn entry;
      undo_loop txn (if gone : bool then removed + 1 else removed) entries
  end.

Definition undo_entries (log : IndexUndoLog) : St (IndexSet T) N :=
  undo_loop (log_txn log) 0 (reverse (log_entries log)).

(** ** Collection of dead keys *)

Definition retain (out : DeadKeyCollection) : DeadKeyCollection :=
  {| entries_removed := entries_removed out; entities_purged := entities_purged out;
     keys_retained := keys_retained out + 1; abandoned := abandoned out |}.
Definition count_removed (gone : bool) (out : DeadKeyCollection) : DeadKeyCollection :=
  {| entries_removed := if gone then entries_removed out + 1 else entries_removed out;
     entities_purged := entities_purged out; keys_retained := keys_retained out; abandoned := abandoned out |}.
Definition purge (out : DeadKeyCollection) : DeadKeyCollection :=
  {| entries_removed := entries_removed out; entities_purged := entities_purged out + 1;
     keys_retained := keys_retained out; abandoned := abandoned out |}.

(** One removal of a fan-out, charged to the collection. *)
Definition charge (m : St (IndexSet T) bool) (out : DeadKeyCollection) : St (IndexSet T) DeadKeyCollection :=
  gone ← m; mret (count_removed gone out).

Fixpoint node_fan_out (txn entity key : N) (value : Value) (out : DeadKeyCollection)
    (keys : list (N * N)) : St (IndexSet T) DeadKeyCollection :=
  match keys with
  | [] => mret out
  | (label, prop) :: keys =>
      out ← (if prop =? key then charge (remove_node_property txn label prop value entity) out else mret out);
      node_fan_out txn entity key value out keys
  end.

Fixpoint rel_fan_out (txn entity key : N) (value : Value) (out : DeadKeyCollection)
    (keys : list (N * N)) : St (IndexSet T) DeadKeyCollection :=
  match keys with
  | [] => mret out
  | (ty, prop) :: keys =>
      out ← (if prop =? key then charge (remove_rel_property txn ty prop value entity) out else mret out);
      rel_fan_out txn entity key value out keys
  end.

Abbreviation Evidence := (StoreKind → N → option DeadKeyEvidence).

Definition collect_dead_property (txn : N) (kind : StoreKind) (entity key : N) (value : Value)
    (evidence : Evidence) (out : DeadKeyCollection) : St (IndexSet T) DeadKeyCollection := λ s,
  if negb (is_index_encodable value) then (Ok out, s)
  else match evidence kind entity with
  | None => (Ok (retain out), s)
  | Some ev =>
      if in_use ev && existsb (λ e, (e.1 =? key) && same_index_key e.2 value) (property_versions ev)
      then (Ok (retain out), s)
      else match kind with
      | Node => node_fan_out txn entity key value out (iter (dom (node_props s))) s
      | Rel => rel_fan_out txn entity key value out (iter (dom (rel_props s))) s
      | _ => (Ok out, s)
      end
  end.

(** The entries of the node's values in one label partition. *)
Fixpoint partition_loop (txn node lt prop : N) (out : DeadKeyCollection) (versions : list (N * Value)) :
    St (IndexSet T) DeadKeyCollection :=
  match versions with
  | [] => mret out
  | (k, v) :: versions =>
      out ← (if k =? prop then charge (remove_node_property txn lt prop v node) out else mret out);
      partition_loop txn node lt prop out versions
  end.

Fixpoint label_fan_out (txn node label : N) (versions : list (N * Value)) (out : DeadKeyCollection)
    (keys : list (N * N)) : St (IndexSet T) DeadKeyCollection :=
  match keys with
  | [] => mret out
  | (lt, prop) :: keys =>
      out ← (if negb (lt =? label) then mret out else partition_loop txn node lt prop out versions);
      label_fan_out txn node label versions out keys
  end.

Definition collect_dead_label (txn node label : N) (evidence : Evidence) (out : DeadKeyCollection) :
    St (IndexSet T) DeadKeyCollection := λ s,
  match evidence Node node with
  | None => (Ok (retain out), s)
  | Some ev =>
      if in_use ev && existsb (N.eqb label) (ev_labels ev) then (Ok (retain out), s)
      else (out ← charge (remove_entry txn (ULabel label node)) out;
            s ← get;
            label_fan_out txn node label (property_versions ev) out (iter (dom (node_props s)))) s
  end.

(** [collect_dead_entity]: the purge is of indexes outside this state. *)
Definition collect_dead_entity (kind : StoreKind) (entity : N) (evidence : Evidence)
    (out : DeadKeyCollection) : DeadKeyCollection :=
  match evidence kind entity with
  | None => retain out
  | Some ev =>
      if in_use ev then retain out
      else match kind with Node | Rel => purge out | _ => retain out end
  end.

Fixpoint collect_loop (txn : N) (evidence : Evidence) (out : DeadKeyCollection) (keys : list DeadIndexKey) :
    St (IndexSet T) DeadKeyCollection :=
  match keys with
  | [] => mret out
  | key :: keys =>
      out ← match key with
            | DeadProperty kind entity key value => collect_dead_property txn kind entity key value evidence out
            | DeadLabel node label => collect_dead_label txn node label evidence out
            | DeadEntity kind entity => mret (collect_dead_entity kind entity evidence out)
            end;
      collect_loop txn evidence out keys
  end.

Definition collect_dead_keys (txn : N) (keys : list DeadIndexKey) (evidence : Evidence) :
    St (IndexSet T) DeadKeyCollection :=
  collect_loop txn evidence default_collection keys.

(** One batch of the coordinator: the dead keys are collected only if the commit clock is the
    one read with the evidence and no other transaction has entries in flight. *)
Definition collect_batch (gc_txn : N) (batch : list DeadIndexKey) (evidence : Evidence)
    (ts_before ts_after : N) (out : DeadKeyCollection) : St (IndexSet T) DeadKeyCollection := λ s,
  if negb (ts_before =? ts_after) || has_other_index_writer_in_flight s gc_txn then
    (Ok {| entries_removed := entries_removed out; entities_purged := entities_purged out;
           keys_retained := keys_retained out + N.of_nat (length batch); abandoned := true |}, s)
  else
    (batch_out ← collect_dead_keys gc_txn batch evidence;
     mret {| entries_removed := entries_removed out + entries_removed batch_out;
             entities_purged := entities_purged out + entities_purged batch_out;
             keys_retained := keys_retained out + keys_retained batch_out;
             abandoned := abandoned out |}) s.

(** ** Rebuilds *)

Definition clear s : IndexSet T :=
  let s := set_flags (txn_index_undo s) (rel_equality_declared s) true false (degraded s) (wipe_generation s)
             (fail_closed_events s) s in
  let s := set_node_props
             ((λ np, {| np_index := fresh_tree; np_state := np_state np; unindexable_values := false |})
                <$> node_props s) s in
  let s := set_rel_props (rp_with_index fresh_tree <$> rel_props s) s in
  let fresh_composite := map_imap (λ (key : N * list N) (_ : CompositeIndex T),
             Some {| ci_tree := fresh_tree; arity := length key.2 |}) in
  let s := set_composite (fresh_composite (composite s)) s in
  let s := set_rel_composite (fresh_composite (rel_composite s)) s in
  invalidate_txn_undo s.

Definition fail_closed s : IndexSet T :=
  let s := set_flags (txn_index_undo s) (rel_equality_declared s) false (rebuild_gap s) true
             (wrapping_add_u64 (wipe_generation s) 1) (N.min (fail_closed_events s + 1) u64_max) s in
  let s := set_node_props (np_with_state Populating <$> node_props s) s in
  let s := set_rel_props ((λ rp, {| rp_index := rp_index rp; rp_state := Populating |}) <$> rel_props s) s in
  let s := set_composite ∅ s in
  let s := set_rel_composite ∅ s in
  let s := invalidate_txn_undo s in
  set_flags (txn_index_undo s) (rel_equality_declared s) (labels_usable s) false (degraded s)
    (wipe_generation s) (fail_closed_events s) s.

Definition note_rebuild_gap s : IndexSet T :=
  set_flags (txn_index_undo s) (rel_equality_declared s) (labels_usable s) true (degraded s) (wipe_generation s)
    (fail_closed_events s) s.

Definition clear_rebuild_gap s : IndexSet T :=
  set_flags (txn_index_undo s) (rel_equality_declared s) (labels_usable s) false (degraded s) (wipe_generation s)
    (fail_closed_events s) s.

Definition heal s : IndexSet T :=
  set_flags (txn_index_undo s) (rel_equality_declared s) (labels_usable s) (rebuild_gap s) false (wipe_generation s)
    (fail_closed_events s) s.

(** ** Seeks *)

Definition seek_label (label_token : N) : St (IndexSet T) (list N) := λ s,
  let '(r, t) := unwrap_or [] (scan_token label_token) (labels s) in (r, set_labels t s).

Definition seek_node_property_eq (label_token prop_key : N) (value : Value) :
    St (IndexSet T) (option (list N)) := λ s,
  match node_props s !! (label_token, prop_key) with
  | None => (Ok None, s)
  | Some np =>
      let '(r, t) := candidates_eq prop_key value (np_index np) in
      (r, set_node_props (<[(label_token, prop_key) := np_with_index t np]> (node_props s)) s)
  end.

Definition seek_node_property_range (label_token prop_key : N) (lower upper : option (Value * bool)) :
    St (IndexSet T) (option (list N)) := λ s,
  match node_props s !! (label_token, prop_key) with
  | None => (Ok None, s)
  | Some np =>
      let '(r, t) := candidates_range prop_key lower upper (np_index np) in
      (r, set_node_props (<[(label_token, prop_key) := np_with_index t np]> (node_props s)) s)
  end.

Definition seek_rel_property_eq (type_token prop_key : N) (value : Value) :
    St (IndexSet T) (option (list N)) := λ s,
  match rel_props s !! (type_token, prop_key) with
  | None => (Ok None, s)
  | Some rp =>
      let '(r, t) := candidates_eq prop_key value (rp_index rp) in
      (r, set_rel_props (<[(type_token, prop_key) := rp_with_index t rp]> (rel_props s)) s)
  end.

Definition seek_rel_property_range (type_token prop_key : N) (lower upper : option (Value * bool)) :
    St (IndexSet T) (option (list N)) := λ s,
  match rel_props s !! (type_token, prop_key) with
  | None => (Ok None, s)
  | Some rp =>
      let '(r, t) := candidates_range prop_key lower upper (rp_index rp) in
      (r, set_rel_props (<[(type_token, prop_key) := rp_with_index t rp]> (rel_props s)) s)
  end.

Definition composite_candidates (token : N) (values : list Value) (idx : CompositeIndex T) :
    Outcome (option (list N)) * T :=
  if negb (forallb is_index_encodable values) then (Ok None, ci_tree idx)
  else unwrap_or_default (composite_seek_eq (arity idx) token values (ci_tree idx)).

Definition seek_composite_eq (label_token : N) (property_tokens : list N) (values : list Value) :
    St (IndexSet T) (option (list N)) := λ s,
  match composite s !! (label_token, property_tokens) with
  | None => (Ok None, s)
  | Some idx =>
      let '(r, t) := composite_candidates label_token values idx in
      (r, set_composite (<[(label_token, property_tokens) := ci_with_tree t idx]> (composite s)) s)
  end.

Definition seek_rel_composite_eq (type_token : N) (property_tokens : list N) (values : list Value) :
    St (IndexSet T) (option (list N)) := λ s,
  match rel_composite s !! (type_token, property_tokens) with
  | None => (Ok None, s)
  | Some idx =>
      let '(r, t) := composite_candidates type_token values idx in
      (r, set_rel_composite (<[(type_token, property_tokens) := ci_with_tree t idx]> (rel_composite s)) s)
  end.
End Set_.
