(* ===== verification/IndexSlots.v ===== *)
(** The entries of an index set as slots (lemmas about IndexSet.v).

    The five kinds of trees are one space of slots, a location with the bytes of a key. The
    maintenance operations are stated over it once for all kinds: an insert occupies one slot,
    a removal frees one, and both leave every other slot, the registrations and the logs of
    the other transactions as they were.

    [KeyTreeSafe] is what the index set relies on when a tree operation fails: its comments
    say that a failed insert leaves the entry absent, and that a removal of an in-memory tree
    does not fail. *)
From S2P Require Import Prelude Core Bytes Float64 Compare CypherValue CypherEquality CypherEquivalence CypherOrder KeyCodec KeyTree IndexKinds IndexSet.
From stdpp Require Import options.

Open Scope N_scope.

Class KeyTreeSafe (T : Type) `{!KeyTree T} `{!KeyTreeSpec T} := {
  tree_insert_safe txn k v t :
    tree_ok t → match tree_insert txn k v t with
                | (Ok _, _) => True
                | (Err _, t') => tree_ok t' ∧ content t' = content t
                | (Panic _, _) => False
                end;
  tree_delete_total txn k t : tree_ok t → ∃ c t', tree_delete txn k t = (Ok c, t');
}.

#[export] Instance sorted_tree_safe : @KeyTreeSafe SortedTree.t SortedTree.sorted_tree SortedTree.sorted_tree_spec.
Proof.
  split.
  - intros txn k v t _. cbn. by destruct (SortedTree.insert k v t).
  - intros txn k t _. cbn. eauto.
Qed.

(** ** Slots *)

Inductive Loc :=
  | LLabels
  | LNode (key : N * N)
  | LRel (key : N * N)
  | LComposite (key : N * list N)
  | LRelComposite (key : N * list N).

#[export] Instance Loc_eq_dec : EqDecision Loc.
Proof. solve_decision. Defined.

#[export] Instance Loc_countable : Countable Loc.
Proof.
  refine (inj_countable'
    (λ l, match l with
          | LLabels => inl (inl (inl (inl tt)))
          | LNode k => inl (inl (inl (inr k)))
          | LRel k => inl (inl (inr k))
          | LComposite k => inl (inr k)
          | LRelComposite k => inr k
          end)
    (λ c, match c with
          | inl (inl (inl (inl _))) => LLabels
          | inl (inl (inl (inr k))) => LNode k
          | inl (inl (inr k)) => LRel k
          | inl (inr k) => LComposite k
          | inr k => LRelComposite k
          end) _).
  by intros [].
Defined.

Abbreviation Slot := (Loc * bytes)%type.

Definition loc (e : IndexUndoEntry) : Loc :=
  match e with
  | ULabel _ _ => LLabels
  | UNodeProperty label_token prop_key _ _ => LNode (label_token, prop_key)
  | URelProperty type_token prop_key _ _ => LRel (type_token, prop_key)
  | UNodeComposite label_token property_tokens _ _ => LComposite (label_token, property_tokens)
  | URelComposite type_token property_tokens _ _ => LRelComposite (type_token, property_tokens)
  end.

Definition entry_id (e : IndexUndoEntry) : N :=
  match e with
  | ULabel _ id | UNodeProperty _ _ _ id | URelProperty _ _ _ id | UNodeComposite _ _ _ id
  | URelComposite _ _ _ id => id
  end.

Definition property_key (token : N) (v : Value) (id : N) : option bytes :=
  match encode_single v with KOk tail => Some (token_value_id_key token tail id) | KErr _ => None end.

Definition tuple_key (n : nat) (token : N) (vs : list Value) (id : N) : option bytes :=
  if (length vs =? n)%nat then
    match encode_composite vs with KOk tail => Some (token_value_id_key token tail id) | KErr _ => None end
  else None.

(** The key of an entry, if its values have one. *)
Definition raw_key (e : IndexUndoEntry) : option bytes :=
  match e with
  | ULabel token id => Some (token_key token id)
  | UNodeProperty _ prop_key v id | URelProperty _ prop_key v id => property_key prop_key v id
  | UNodeComposite token tokens vs id | URelComposite token tokens vs id => tuple_key (length tokens) token vs id
  end.

Definition slot_of (e : IndexUndoEntry) : option Slot := pair (loc e) <$> raw_key e.

(** The insert of the entry, by the operation of its kind. *)
Definition insert_entry {T} `{!KeyTree T} (w : IndexWriter) (e : IndexUndoEntry) : St (IndexSet T) unit :=
  match e with
  | ULabel token id => insert_label w token id
  | UNodeProperty label_token prop_key v id => insert_node_property w label_token prop_key v id
  | URelProperty type_token prop_key v id => insert_rel_property w type_token prop_key v id
  | UNodeComposite token tokens vs id => insert_composite w token tokens vs id
  | URelComposite token tokens vs id => insert_rel_composite w token tokens vs id
  end.

Section Slots.
Context {T : Type} `{!KeyTree T} `{!KeyTreeSpec T}.
#[local] Set Default Proof Using "All".
Implicit Types s : IndexSet T.

Definition tree_at s (l : Loc) : option T :=
  match l with
  | LLabels => Some (labels s)
  | LNode key => np_index <$> node_props s !! key
  | LRel key => rp_index <$> rel_props s !! key
  | LComposite key => ci_tree <$> composite s !! key
  | LRelComposite key => ci_tree <$> rel_composite s !! key
  end.

Definition present s (sl : Slot) : Prop :=
  ∃ t, tree_at s sl.1 = Some t ∧ is_Some (content t !! sl.2).

(** Every tree is well formed, and a composite index has the arity of its key. *)
Definition set_ok s : Prop :=
  (∀ l t, tree_at s l = Some t → tree_ok t) ∧
  map_Forall (λ key ci, arity ci = length key.2) (composite s) ∧
  map_Forall (λ key ci, arity ci = length key.2) (rel_composite s).

(** [s'] is [s] with the tree at [l] replaced by [t]. *)
Definition replaced (l : Loc) (t : T) s s' : Prop :=
  (∀ l', tree_at s' l' = if decide (l' = l) then Some t else tree_at s l') ∧
  txn_index_undo s' = txn_index_undo s ∧
  (∀ key, arity <$> composite s' !! key = arity <$> composite s !! key) ∧
  (∀ key, arity <$> rel_composite s' !! key = arity <$> rel_composite s !! key).

Lemma arities (m m' : gmap (N * list N) (CompositeIndex T)) :
  (∀ key, arity <$> m' !! key = arity <$> m !! key) →
  map_Forall (λ key ci, arity ci = length key.2) m → map_Forall (λ key ci, arity ci = length key.2) m'.
Proof.
  intros Hm Ha key ci Hci. specialize (Hm key). rewrite Hci in Hm. symmetry in Hm.
  apply fmap_Some in Hm as (ci' & Hci' & He). specialize (Ha key ci' Hci'). cbn in *. congruence.
Qed.

Lemma replaced_ok l t s s' : set_ok s → replaced l t s s' → tree_ok t → set_ok s'.
Proof.
  intros (Hok & Hc & Hr) (Ht & _ & Hc' & Hr') Htok. split_and!; [|by eapply arities..].
  intros l' t'. rewrite Ht. case_decide; [by intros [= <-]|eauto].
Qed.

Lemma replaced_present l t s s' (sl : Slot) :
  replaced l t s s' → present s' sl ↔ if decide (sl.1 = l) then is_Some (content t !! sl.2) else present s sl.
Proof.
  intros (Ht & _). unfold present. rewrite Ht. case_decide; [|done].
  split; [by intros (? & [= <-] & ?)|by exists t].
Qed.

Lemma tree_at_node_props s key np np' :
  node_props s !! key = Some np →
  replaced (LNode key) (np_index np') s (set_node_props (<[key := np']> (node_props s)) s).
Proof.
  intros Hnp. split; [|done]. intros []; cbn; try done. case_decide as Hd.
  - simplify_eq. by rewrite lookup_insert_eq.
  - rewrite lookup_insert_ne by congruence. done.
Qed.

Lemma tree_at_rel_props s key rp rp' :
  rel_props s !! key = Some rp →
  replaced (LRel key) (rp_index rp') s (set_rel_props (<[key := rp']> (rel_props s)) s).
Proof.
  intros Hnp. split; [|done]. intros []; cbn; try done. case_decide as Hd.
  - simplify_eq. by rewrite lookup_insert_eq.
  - rewrite lookup_insert_ne by congruence. done.
Qed.

Lemma tree_at_composite s key ci t :
  composite s !! key = Some ci →
  replaced (LComposite key) t s (set_composite (<[key := ci_with_tree t ci]> (composite s)) s).
Proof.
  intros Hci. split_and!; [|done| |done].
  - intros []; cbn; try done. case_decide as Hd.
    + simplify_eq. by rewrite lookup_insert_eq.
    + rewrite lookup_insert_ne by congruence. done.
  - intros key'. cbn. destruct (decide (key' = key)) as [->|].
    + by rewrite lookup_insert_eq, Hci.
    + by rewrite lookup_insert_ne.
Qed.

Lemma tree_at_rel_composite s key ci t :
  rel_composite s !! key = Some ci →
  replaced (LRelComposite key) t s (set_rel_composite (<[key := ci_with_tree t ci]> (rel_composite s)) s).
Proof.
  intros Hci. split_and!; [|done|done|].
  - intros []; cbn; try done. case_decide as Hd.
    + simplify_eq. by rewrite lookup_insert_eq.
    + rewrite lookup_insert_ne by congruence. done.
  - intros key'. cbn. destruct (decide (key' = key)) as [->|].
    + by rewrite lookup_insert_eq, Hci.
    + by rewrite lookup_insert_ne.
Qed.

Lemma tree_at_labels s t : replaced LLabels t s (set_labels t s).
Proof. split; [|done]. intros []; cbn; by try case_decide. Qed.

Lemma replaced_same l t s : tree_at s l = Some t → replaced l t s s.
Proof. intros Ht. split; [|done]. intros l'. case_decide; [by subst|done]. Qed.

(** ** The operations of the kinds, over raw keys *)

Definition entry_insert (e : IndexUndoEntry) (txn : N) : St T bool :=
  match e with
  | ULabel token id => token_insert txn token id
  | UNodeProperty _ prop_key v id | URelProperty _ prop_key v id => property_insert txn prop_key v id
  | UNodeComposite token tokens vs id | URelComposite token tokens vs id =>
      composite_insert (length tokens) txn token vs id
  end.

Definition entry_remove (e : IndexUndoEntry) (txn : N) : St T bool :=
  match e with
  | ULabel token id => token_remove txn token id
  | UNodeProperty _ prop_key v id | URelProperty _ prop_key v id => property_remove txn prop_key v id
  | UNodeComposite token tokens vs id | URelComposite token tokens vs id =>
      composite_remove (length tokens) txn token vs id
  end.

Lemma entry_insert_raw e txn t :
  match raw_key e with
  | Some k => entry_insert e txn t = tree_insert txn k (rid_payload (entry_id e)) t
  | None => ∃ err, entry_insert e txn t = (Err err, t)
  end.
Proof.
  destruct e; cbn; unfold property_key, tuple_key, property_insert, composite_insert, check_arity,
    encode_or_storage_err, composite_tail, mbind, St_bind, lift; try done.
  all: try (destruct (_ =? _)%nat; cbn; [|by eexists]).
  all: destruct (encode_single _) as [|[]] || destruct (encode_composite _) as [|[]]; [done|by eexists].
Qed.

Lemma entry_remove_raw e txn t :
  match raw_key e with
  | Some k => entry_remove e txn t = tree_delete txn k t
  | None => ∃ err, entry_remove e txn t = (Err err, t)
  end.
Proof.
  destruct e; cbn; unfold property_key, tuple_key, property_remove, composite_remove, check_arity,
    encode_or_storage_err, composite_tail, mbind, St_bind, lift; try done.
  all: try (destruct (_ =? _)%nat; cbn; [|by eexists]).
  all: destruct (encode_single _) as [|[]] || destruct (encode_composite _) as [|[]]; [done|by eexists].
Qed.

Definition created_of (r : Outcome bool) : bool := match r with Ok c => c | _ => false end.

Lemma insert_entry_tree w e s t r t' :
  set_ok s → tree_at s (loc e) = Some t → entry_insert e (tree_txn w) t = (r, t') → is_panic r = false →
  ∃ s1, replaced (loc e) t' s s1 ∧ insert_entry w e s = (Ok tt, note_entry w (created_of r) e s1).
Proof.
  intros (_ & Hc & Hrc) Ht Hi Hp. destruct e; cbn [loc insert_entry entry_insert tree_at] in *.
  - simplify_eq. unfold insert_label, unwrap_or. rewrite Hi. destruct r; try done.
    all: eexists; split; [apply tree_at_labels|done].
  - apply fmap_Some in Ht as (np & Hnp & ->). unfold insert_node_property. rewrite Hnp, Hi.
    destruct r; try done.
    all: eexists; split; [|reflexivity]; by apply (tree_at_node_props _ _ np).
  - apply fmap_Some in Ht as (ci & Hci & ->). unfold insert_composite, unwrap_or.
    rewrite Hci, (Hc _ _ Hci). cbn [snd]. rewrite Hi. destruct r; try done.
    all: eexists; split; [|reflexivity]; by apply tree_at_composite.
  - apply fmap_Some in Ht as (rp & Hrp & ->). unfold insert_rel_property, unwrap_or. rewrite Hrp, Hi.
    destruct r; try done.
    all: eexists; split; [|reflexivity]; by apply (tree_at_rel_props _ _ rp).
  - apply fmap_Some in Ht as (ci & Hci & ->). unfold insert_rel_composite, unwrap_or.
    rewrite Hci, (Hrc _ _ Hci). cbn [snd]. rewrite Hi. destruct r; try done.
    all: eexists; split; [|reflexivity]; by apply tree_at_rel_composite.
Qed.

(** The slot the insert of [e] fills: its index is there, its values have a key and the tree
    accepts it. *)
Definition takes s (w : IndexWriter) (e : IndexUndoEntry) : option Slot :=
  match tree_at s (loc e), slot_of e with
  | Some t, Some sl =>
      match (tree_insert (tree_txn w) sl.2 (rid_payload (entry_id e)) t).1 with Ok _ => Some sl | _ => None end
  | _, _ => None
  end.

Lemma insert_entry_unregistered w e s : tree_at s (loc e) = None → insert_entry w e s = (Ok tt, s).
Proof.
  intros Ht. destruct e; cbn [loc insert_entry tree_at] in *; [done|apply fmap_None in Ht..].
  all: unfold insert_node_property, insert_composite, insert_rel_property, insert_rel_composite; by rewrite Ht.
Qed.

Lemma remove_entry_tree txn e s t r t' :
  set_ok s → tree_at s (loc e) = Some t → entry_remove e txn t = (r, t') → is_panic r = false →
  ∃ s', replaced (loc e) t' s s' ∧ remove_entry txn e s = (Ok (created_of r), s').
Proof.
  intros (_ & Hc & Hrc) Ht Hi Hp. destruct e; cbn [loc remove_entry entry_remove tree_at] in *.
  - simplify_eq. unfold unwrap_or. rewrite Hi. destruct r; try done.
    all: eexists; split; [apply tree_at_labels|done].
  - apply fmap_Some in Ht as (np & Hnp & ->). unfold remove_node_property, unwrap_or. rewrite Hnp, Hi.
    destruct r; try done.
    all: eexists; split; [|reflexivity]; by apply (tree_at_node_props _ _ np).
  - apply fmap_Some in Ht as (ci & Hci & ->). unfold unwrap_or.
    rewrite Hci, (Hc _ _ Hci). cbn [snd]. rewrite Hi. destruct r; try done.
    all: eexists; split; [|reflexivity]; by apply tree_at_composite.
  - apply fmap_Some in Ht as (rp & Hrp & ->). unfold remove_rel_property, unwrap_or. rewrite Hrp, Hi.
    destruct r; try done.
    all: eexists; split; [|reflexivity]; by apply (tree_at_rel_props _ _ rp).
  - apply fmap_Some in Ht as (ci & Hci & ->). unfold unwrap_or.
    rewrite Hci, (Hrc _ _ Hci). cbn [snd]. rewrite Hi. destruct r; try done.
    all: eexists; split; [|reflexivity]; by apply tree_at_rel_composite.
Qed.

Lemma remove_entry_unregistered txn e s : tree_at s (loc e) = None → remove_entry txn e s = (Ok false, s).
Proof.
  intros Ht. destruct e; cbn [loc remove_entry tree_at] in *; [done|apply fmap_None in Ht..].
  all: unfold remove_node_property, remove_rel_property; by rewrite Ht.
Qed.
End Slots.

(** ** What the operations do to the slots *)

Section Effects.
Context {T : Type} `{!KeyTree T} `{!KeyTreeSpec T} `{!KeyTreeSafe T}.
#[local] Set Default Proof Using "All".
Implicit Types s : IndexSet T.

(** The insert of [e], with [c] telling whether it is new: the slot it takes is there
    afterwards, no other one is added, and a failed or refused insert adds nothing. *)
Definition inserted (w : IndexWriter) (e : IndexUndoEntry) (c : bool) s s' : Prop :=
  set_ok s' ∧
  (∀ sl, present s' sl ↔ present s sl ∨ c = true ∧ slot_of e = Some sl) ∧
  (c = true → ∃ sl, takes s w e = Some sl ∧ slot_of e = Some sl ∧ ¬ present s sl) ∧
  (∀ sl, takes s w e = Some sl → slot_of e = Some sl ∧ present s' sl) ∧
  txn_index_undo s' =
    if bool_decide (tree_at s (loc e) = None) then txn_index_undo s else txn_index_undo (note_entry w c e s).

Lemma slot_of_none e : raw_key e = None → slot_of e = None.
Proof. unfold slot_of. by intros ->. Qed.

Lemma slot_of_some e k : raw_key e = Some k → slot_of e = Some (loc e, k).
Proof. unfold slot_of. by intros ->. Qed.

Lemma note_entry_trees w c e s l : tree_at (note_entry w c e s) l = tree_at s l.
Proof. destruct w, c, l; done. Qed.

Lemma note_entry_ok w c e s : set_ok s → set_ok (note_entry w c e s).
Proof. intros (Ht & Hc & Hr). split; [|by destruct w, c]. intros l t. rewrite note_entry_trees. eauto. Qed.

Lemma note_entry_logs w c e s s1 :
  txn_index_undo s1 = txn_index_undo s → txn_index_undo (note_entry w c e s1) = txn_index_undo (note_entry w c e s).
Proof. intros He. destruct w, c; cbn; by rewrite ?He. Qed.

Lemma present_trees s s' sl : (∀ l, tree_at s' l = tree_at s l) → present s' sl ↔ present s sl.
Proof. intros Ht. unfold present. by rewrite Ht. Qed.

(** Replacing a tree by one with the same keys changes no slot. *)
Lemma replaced_unchanged l t t' s s' sl :
  tree_at s l = Some t → replaced l t' s s' → content t' = content t → present s' sl ↔ present s sl.
Proof.
  intros Ht Hr Hc. rewrite replaced_present by done. case_decide as Hd; [|done]. rewrite Hc. unfold present.
  rewrite Hd, Ht. split; [by eexists|]. by intros (? & [= <-] & ?).
Qed.

Lemma replaced_by_insert l k v t t' s s' sl :
  tree_at s l = Some t → replaced l t' s s' → content t' = <[k := v]> (content t) →
  present s' sl ↔ present s sl ∨ sl = (l, k).
Proof.
  intros Ht Hr Hc. rewrite replaced_present by done. destruct sl as [l' k']. cbn. case_decide as Hd; [|naive_solver].
  subst l'. rewrite Hc. unfold present. cbn. rewrite Ht. destruct (decide (k = k')) as [->|Hne].
  - rewrite lookup_insert_eq. naive_solver.
  - rewrite lookup_insert_ne by done. naive_solver.
Qed.

Lemma replaced_by_delete l k t t' s s' sl :
  tree_at s l = Some t → replaced l t' s s' → content t' = delete k (content t) →
  present s' sl ↔ present s sl ∧ sl ≠ (l, k).
Proof.
  intros Ht Hr Hc. rewrite replaced_present by done. destruct sl as [l' k']. cbn. case_decide as Hd; [|naive_solver].
  subst l'. rewrite Hc. unfold present. cbn. rewrite Ht. destruct (decide (k = k')) as [->|Hne].
  - rewrite lookup_delete_eq. split; [by intros []|naive_solver].
  - rewrite lookup_delete_ne by done. naive_solver.
Qed.

Lemma present_at l k t s : tree_at s l = Some t → present s (l, k) ↔ is_Some (content t !! k).
Proof. intros Ht. unfold present. cbn. rewrite Ht. naive_solver. Qed.

Lemma insert_entry_slots w e s :
  set_ok s → ∃ c s', insert_entry w e s = (Ok tt, s') ∧ inserted w e c s s'.
Proof.
  intros Hok. destruct (tree_at s (loc e)) as [t|] eqn:Ht.
  2: { exists false, s. split; [by apply insert_entry_unregistered|].
       split_and!; [done|naive_solver|done| |by rewrite bool_decide_true].
       intros sl. unfold takes. by rewrite Ht. }
  assert (tree_ok t) as Htok by (by eapply Hok).
  pose proof (entry_insert_raw e (tree_txn w) t) as Hraw.
  destruct (entry_insert e (tree_txn w) t) as [r t'] eqn:Hi.
  destruct (raw_key e) as [k|] eqn:Hk.
  - pose proof (tree_insert_safe (tree_txn w) k (rid_payload (entry_id e)) t Htok) as Hsafe. rewrite <- Hraw in Hsafe.
    destruct (insert_entry_tree w e s t r t' Hok Ht Hi) as (s1 & Hr & He); [by destruct r|].
    exists (created_of r), (note_entry w (created_of r) e s1). split; [done|].
    assert (takes s w e = match r with Ok _ => Some (loc e, k) | _ => None end) as Htk.
    { unfold takes. rewrite Ht, (slot_of_some e k Hk). cbn [fst snd]. by rewrite <- Hraw. }
    unfold inserted. rewrite Htk. clear Htk.
    destruct r as [c|err|m]; [symmetry in Hraw; apply tree_insert_spec in Hraw as (Htok' & Hc & ->); [|done]
                             |destruct Hsafe as [Htok' Hc]|done].
    + split_and!.
      * by eapply note_entry_ok, replaced_ok.
      * intros sl. rewrite (present_trees s1) by (intros; apply note_entry_trees).
        rewrite replaced_by_insert by done. cbn [created_of]. rewrite bool_decide_eq_true, (slot_of_some e k Hk).
        pose proof (present_at (loc e) k t s Ht) as Hp. rewrite <- not_eq_None_Some in Hp.
        destruct (decide (content t !! k = None)); naive_solver.
      * cbn [created_of]. rewrite bool_decide_eq_true. intros Hn. exists (loc e, k). split_and!; [done|by apply slot_of_some|].
        rewrite (present_at _ _ _ _ Ht), Hn. by intros [].
      * intros sl [= <-]. split; [by apply slot_of_some|].
        rewrite (present_trees s1) by (intros; apply note_entry_trees). rewrite replaced_by_insert by done. by right.
      * rewrite (bool_decide_false (tree_at _ _ = None)) by congruence. apply note_entry_logs, Hr.
    + split_and!; [by eapply note_entry_ok, replaced_ok| |done|done|].
      * intros sl. rewrite (present_trees s1) by (intros; apply note_entry_trees).
        rewrite (replaced_unchanged (loc e) t t' s s1) by done. naive_solver.
      * rewrite (bool_decide_false (tree_at _ _ = None)) by congruence. apply note_entry_logs, Hr.
  - destruct Hraw as [err [= -> ->]].
    destruct (insert_entry_tree w e s t (Err err) t Hok Ht Hi) as (s1 & Hr & He); [done|].
    exists false, (note_entry w false e s1). split; [done|].
    split_and!; [by eapply note_entry_ok, replaced_ok| |done| |].
    + intros sl. rewrite (present_trees s1) by (intros; apply note_entry_trees).
      rewrite (replaced_unchanged (loc e) t t s s1) by done. naive_solver.
    + intros sl. unfold takes. by rewrite Ht, (slot_of_none e Hk).
    + rewrite (bool_decide_false (tree_at _ _ = None)) by congruence. apply note_entry_logs, Hr.
Qed.

(** The removal of [e], with [c] telling whether it was there. *)
Definition removed (e : IndexUndoEntry) (c : bool) s s' : Prop :=
  set_ok s' ∧ txn_index_undo s' = txn_index_undo s ∧
  (∀ sl, present s' sl ↔ present s sl ∧ slot_of e ≠ Some sl) ∧
  (c = true ↔ ∃ sl, slot_of e = Some sl ∧ present s sl).

Lemma remove_entry_slots txn e s :
  set_ok s → ∃ c s', remove_entry txn e s = (Ok c, s') ∧ removed e c s s'.
Proof.
  intros Hok. destruct (tree_at s (loc e)) as [t|] eqn:Ht.
  2: { exists false, s. split; [by apply remove_entry_unregistered|].
       assert (∀ sl, slot_of e = Some sl → ¬ present s sl) as Hn.
       { unfold slot_of. intros sl (k & _ & ->)%fmap_Some (t & Ht' & _). cbn [fst] in Ht'. congruence. }
       split_and!; [done|done|naive_solver|naive_solver]. }
  assert (tree_ok t) as Htok by (by eapply Hok).
  pose proof (entry_remove_raw e txn t) as Hraw. destruct (entry_remove e txn t) as [r t'] eqn:Hi.
  destruct (raw_key e) as [k|] eqn:Hk.
  - destruct (tree_delete_total txn k t Htok) as (c & t'' & Hd). rewrite Hd in Hraw. simplify_eq.
    destruct (remove_entry_tree txn e s t (Ok c) t'' Hok Ht Hi eq_refl) as (s1 & Hr & He).
    exists c, s1. split; [done|]. apply tree_delete_spec in Hd as (Htok' & Hc & ->); [|done].
    unfold removed. rewrite (slot_of_some e k Hk). split_and!; [by eapply replaced_ok|apply Hr| |].
    + intros sl. rewrite replaced_by_delete by done. split; intros [? Hne]; (split; [done|congruence]).
    + rewrite bool_decide_eq_true, <- (present_at _ _ _ _ Ht). naive_solver.
  - destruct Hraw as [err [= -> ->]].
    destruct (remove_entry_tree txn e s t (Err err) t Hok Ht Hi eq_refl) as (s1 & Hr & He).
    exists false, s1. split; [done|]. unfold removed. rewrite (slot_of_none e Hk).
    split_and!; [by eapply replaced_ok|apply Hr| |naive_solver].
    intros sl. rewrite (replaced_unchanged (loc e) t t s s1) by done. naive_solver.
Qed.
End Effects.
