(* ===== verification/IndexLedger.v ===== *)
(** What the index set holds, against a ledger of its writers (theorems about IndexSet.v).

    The ledger records which slots are committed, which ones each open transaction has written,
    and which ones were left behind when a log was dropped. Every operation on the index set has
    its effect on the ledger; the trees hold exactly the slots of the ledger, whatever the order
    in which the transactions insert, commit and roll back, population writes, rebuilds and
    collections of dead keys included; a collection is the guarded batch of the coordinator.
    The premises are the one the record store enforces, that an entry is written by one open
    transaction at a time, and that a collection runs on a transaction that writes no entry. *)
From S2P Require Import Prelude Core Bytes Float64 Compare CypherValue CypherEquality CypherEquivalence CypherOrder KeyCodec KeyTree IndexKinds IndexSet IndexSlots.
From stdpp Require Import options.

Open Scope N_scope.

(** ** What a dead key condemns *)

Abbreviation Evidence := (StoreKind → N → option DeadKeyEvidence).

Definition key_is (k : bytes) (o : option bytes) : bool := bool_decide (o = Some k).

(** The value is not one of the versions the evidence has for the entity. *)
Definition value_dead (d : DeadKeyEvidence) (key : N) (value : Value) : bool :=
  negb (in_use d && existsb (λ e, (e.1 =? key) && same_index_key e.2 value) (property_versions d)).

Definition label_dead (d : DeadKeyEvidence) (label : N) : bool :=
  negb (in_use d && existsb (N.eqb label) (ev_labels d)).

(** The slot is one of those the dead key leaves without a version. *)
Definition condemns (ev : Evidence) (key : DeadIndexKey) (sl : Slot) : bool :=
  match key with
  | DeadProperty kind entity key value =>
      match ev kind entity with
      | None => false
      | Some d =>
          value_dead d key value &&
          match kind, sl.1 with
          | Node, LNode (_, prop) | Rel, LRel (_, prop) =>
              (prop =? key) && key_is sl.2 (property_key key value entity)
          | _, _ => false
          end
      end
  | DeadLabel node label =>
      match ev Node node with
      | None => false
      | Some d =>
          label_dead d label &&
          match sl.1 with
          | LLabels => key_is sl.2 (Some (token_key label node))
          | LNode (lt, prop) =>
              (lt =? label) &&
              existsb (λ e, (e.1 =? prop) && key_is sl.2 (property_key prop e.2 node)) (property_versions d)
          | _ => false
          end
      end
  | DeadEntity _ _ => false
  end.

(** ** Operations and the ledger *)

Inductive IndexOp :=
  | OInsert (w : IndexWriter) (e : IndexUndoEntry)
  | OCommit (txn : N)
  | ORollback (txn : N)
  | OCollect (txn : N) (keys : list DeadIndexKey) (ev : Evidence) (ts_before ts_after : N)
  | OClear
  | OFailClosed.

Record Ledger := {
  committed : gset Slot;
  pending : gmap N (gset Slot);
  stale : gset Slot;
}.

Definition pend (L : Ledger) (t : N) : gset Slot := default ∅ (pending L !! t).
Definition all_pending (L : Ledger) : gset Slot := ⋃ (map_to_list (pending L)).*2.

Definition on_ledger (L : Ledger) (sl : Slot) : Prop :=
  sl ∈ committed L ∨ sl ∈ stale L ∨ ∃ t, sl ∈ pend L t.

(** Slots that no longer have a log: those of the open transactions stay behind. *)
Definition orphan (L : Ledger) : Ledger :=
  {| committed := committed L; pending := pending L; stale := stale L ∪ all_pending L |}.

Definition restrict (keep : Slot → bool) (L : Ledger) : Ledger :=
  {| committed := filter (λ sl, keep sl) (committed L);
     pending := (λ X, filter (λ sl, keep sl) X) <$> pending L;
     stale := filter (λ sl, keep sl) (stale L) |}.

(** A transaction other than [txn] has written slots that are neither committed nor stale. *)
Definition others_open (L : Ledger) (txn : N) : bool :=
  existsb (λ t, negb (t =? txn) && negb (bool_decide (pend L t ⊆ committed L ∪ stale L))) (elements (dom (pending L))).

Definition is_label_slot (sl : Slot) : bool := match sl.1 with LLabels => true | _ => false end.
Definition is_composite_slot (sl : Slot) : bool :=
  match sl.1 with LComposite _ | LRelComposite _ => true | _ => false end.

Section Ledger_.
Context {T : Type} `{!KeyTree T} `{!KeyTreeSpec T} (fresh_tree : T) (iter : gset (N * N) → list (N * N)).
#[local] Set Default Proof Using "Type".
Implicit Types (s : IndexSet T) (L : Ledger).

#[local] Instance present_dec s sl : Decision (present s sl).
Proof.
  refine (match tree_at s sl.1 as o return tree_at s sl.1 = o → _ with
          | Some t => λ Ht, cast_if (decide (is_Some (content t !! sl.2)))
          | None => λ Ht, right _
          end eq_refl).
  - exists t. done.
  - intros (t' & Ht' & Hs). naive_solver.
  - intros (t' & Ht' & _). congruence.
Defined.

(** Rolling back, as the coordinator does: the log is taken, then undone. *)
Definition rollback_entries (txn : N) : St (IndexSet T) N := λ s,
  let '(log, s) := take_txn_entries txn s in undo_entries log s.

Definition apply_op (op : IndexOp) : St (IndexSet T) unit :=
  match op with
  | OInsert w e => insert_entry w e
  | OCommit txn => modify (forget_txn_entries txn)
  | ORollback txn => rollback_entries txn;; mret tt
  | OCollect txn keys ev before after =>
      collect_batch iter txn keys ev before after default_collection;; mret tt
  | OClear => modify (clear fresh_tree)
  | OFailClosed => modify fail_closed
  end.

(** The log of [txn] is full and the entry starts it afresh. *)
Definition recycles s (txn : N) (sl : Slot) : bool :=
  bool_decide (¬ present s sl) && (MAX_TXN_UNDO_ENTRIES <=? N.of_nat (length (default [] (txn_index_undo s !! txn)))).

(** The effect of an operation that finds the index set in the state [s]. A collection is
    abandoned when the clock has moved, or when another open transaction has written slots that
    are its alone. *)
Definition record s (op : IndexOp) L : Ledger :=
  match op with
  | OInsert w e =>
      if bool_decide (tree_at s (loc e) = None) then L else
      let added := match takes s w e with Some sl => {[sl]} | None => ∅ end : gset Slot in
      match w with
      | WTxn t =>
          {| committed := committed L;
             pending := <[t := added ∪ pend L t]> (pending L);
             stale := match takes s w e with
                      | Some sl => if recycles s t sl then stale L ∪ pend L t else stale L
                      | None => stale L
                      end |}
      | Population =>
          {| committed := committed L ∪ added; pending := pending L; stale := stale (orphan L) |}
      end
  | OCommit t =>
      {| committed := committed L ∪ pend L t; pending := delete t (pending L); stale := stale L |}
  | ORollback t => {| committed := committed L; pending := delete t (pending L); stale := stale L |}
  | OCollect txn keys ev before after =>
      if negb (before =? after) || others_open L txn then L
      else restrict (λ sl, negb (existsb (λ key, condemns ev key sl) keys)) L
  | OClear => restrict is_label_slot (orphan L)
  | OFailClosed => restrict (λ sl, negb (is_composite_slot sl)) (orphan L)
  end.

(** An entry is written by one open transaction at a time; a collection runs on a transaction
    that has written none. *)
Definition allowed L (op : IndexOp) : Prop :=
  match op with
  | OInsert (WTxn t) e => ∀ sl t', slot_of e = Some sl → t' ≠ t → sl ∉ pend L t'
  | OCollect txn _ _ _ _ => pend L txn = ∅
  | _ => True
  end.

Inductive reaches : IndexSet T → Ledger → Prop :=
  | reaches_start s L :
      set_ok s → txn_index_undo s = ∅ → pending L = ∅ → stale L = ∅ →
      (∀ sl, present s sl ↔ sl ∈ committed L) → reaches s L
  | reaches_step s L op r s' :
      reaches s L → allowed L op → apply_op op s = (r, s') → reaches s' (record s op L).

(** The trees hold the slots of the ledger, and the logs name what rollback may remove. *)
Definition logged_slot s (t : N) (sl : Slot) : Prop :=
  ∃ log e, txn_index_undo s !! t = Some log ∧ e ∈ log ∧ slot_of e = Some sl.

Record agrees s L : Prop := {
  ag_ok : set_ok s;
  ag_present sl : present s sl ↔ on_ledger L sl;
  ag_log t log : txn_index_undo s !! t = Some log → NoDup (slot_of <$> log) ∧ (None ∉ (slot_of <$> log)) ∧ log ≠ [];
  ag_logged t sl : logged_slot s t sl → sl ∈ pend L t ∧ (sl ∉ committed L) ∧ (sl ∉ stale L);
  ag_pending t sl : sl ∈ pend L t → sl ∈ committed L ∨ sl ∈ stale L ∨ logged_slot s t sl;
  ag_exclusive t t' sl : sl ∈ pend L t → sl ∈ pend L t' → t = t';
}.
End Ledger_.

(** ** Keys and slots *)

Lemma key_is_true k o : key_is k o ↔ o = Some k.
Proof. unfold key_is. by rewrite bool_decide_spec. Qed.

Lemma unencodable_key key value id : is_index_encodable value = false → property_key key value id = None.
Proof. unfold is_index_encodable, property_key. by destruct (encode_single value). Qed.

Lemma slot_of_property_node lab prop v id sl :
  slot_of (UNodeProperty lab prop v id) = Some sl ↔
  sl.1 = LNode (lab, prop) ∧ property_key prop v id = Some sl.2.
Proof.
  unfold slot_of. cbn. rewrite fmap_Some. destruct sl as [l k]. cbn. split.
  - intros (k' & -> & [= -> ->]). done.
  - intros [-> ->]. eauto.
Qed.

Lemma slot_of_property_rel ty prop v id sl :
  slot_of (URelProperty ty prop v id) = Some sl ↔
  sl.1 = LRel (ty, prop) ∧ property_key prop v id = Some sl.2.
Proof.
  unfold slot_of. cbn. rewrite fmap_Some. destruct sl as [l k]. cbn. split.
  - intros (k' & -> & [= -> ->]). done.
  - intros [-> ->]. eauto.
Qed.

Lemma slot_of_label label node sl :
  slot_of (ULabel label node) = Some sl ↔ sl.1 = LLabels ∧ token_key label node = sl.2.
Proof. destruct sl. cbn. naive_solver. Qed.

(** ** Removals *)

Section Removals.
Context {T : Type} `{!KeyTree T} `{!KeyTreeSpec T} `{!KeyTreeSafe T} (iter : gset (N * N) → list (N * N)).
#[local] Set Default Proof Using "All".
#[local] Arguments token_key : simpl never.
#[local] Arguments property_key : simpl never.
Implicit Types (s : IndexSet T) (P Q : Slot → Prop).

(** [s'] is [s] without the slots of [P]. *)
Definition drops P s s' : Prop :=
  set_ok s' ∧ txn_index_undo s' = txn_index_undo s ∧ ∀ sl, present s' sl ↔ present s sl ∧ ¬ P sl.

(** The computation ends, having dropped the slots of [P]. *)
Definition dropping {A} P (m : St (IndexSet T) A) : Prop :=
  ∀ s, set_ok s → ∃ a s', m s = (Ok a, s') ∧ drops P s s'.

Lemma dropping_ret {A} (a : A) : dropping (λ _, False) (mret a).
Proof. intros s Hs. exists a, s. split; [done|]. split_and!; [done|done|naive_solver]. Qed.

Lemma dropping_bind {A B} P Q (m : St (IndexSet T) A) (f : A → St (IndexSet T) B) :
  dropping P m → (∀ a, dropping Q (f a)) → dropping (λ sl, P sl ∨ Q sl) (a ← m; f a).
Proof.
  intros Hm Hf s Hs. destruct (Hm s Hs) as (a & s1 & He & Hs1 & Hl1 & Hp1).
  destruct (Hf a s1 Hs1) as (b & s2 & He2 & Hs2 & Hl2 & Hp2).
  exists b, s2. unfold mbind, St_bind. rewrite He. split; [done|].
  split_and!; [done|congruence|]. intros sl. rewrite Hp2, Hp1. tauto.
Qed.

Lemma dropping_iff {A} P Q (m : St (IndexSet T) A) :
  dropping P m → (∀ sl, P sl ↔ Q sl) → dropping Q m.
Proof.
  intros Hm Hpq s Hs. destruct (Hm s Hs) as (a & s' & He & Hs' & Hl & Hp).
  exists a, s'. split; [done|]. split_and!; [done..|]. intros sl. by rewrite Hp, Hpq.
Qed.

Lemma dropping_charge txn e out : dropping (λ sl, slot_of e = Some sl) (charge (remove_entry txn e) out).
Proof.
  intros s Hs. destruct (remove_entry_slots txn e s Hs) as (c & s' & He & Hok & Hl & Hp & _).
  exists (count_removed c out), s'. unfold charge, mbind, St_bind. rewrite He.
  split; [done|]. by split_and!.
Qed.

Lemma node_fan_out_drops txn entity key value out keys :
  dropping (λ sl, ∃ lab, (lab, key) ∈ keys ∧ slot_of (UNodeProperty lab key value entity) = Some sl)
    (node_fan_out txn entity key value out keys).
Proof.
  revert out. induction keys as [|[lab prop] keys IH]; intros out; cbn [node_fan_out].
  { eapply dropping_iff; [apply dropping_ret|]. intros sl. split; [done|]. by intros (? & ?%elem_of_nil & _). }
  destruct (prop =? key) eqn:E.
  - apply N.eqb_eq in E as ->.
    eapply dropping_iff; [eapply dropping_bind; [|intros a; apply IH]|];
      [apply (dropping_charge txn (UNodeProperty lab key value entity))|]. cbn. set_solver.
  - apply N.eqb_neq in E.
    eapply dropping_iff; [eapply dropping_bind; [apply dropping_ret|intros a; apply IH]|]. cbn. set_solver.
Qed.

Lemma rel_fan_out_drops txn entity key value out keys :
  dropping (λ sl, ∃ ty, (ty, key) ∈ keys ∧ slot_of (URelProperty ty key value entity) = Some sl)
    (rel_fan_out txn entity key value out keys).
Proof.
  revert out. induction keys as [|[ty prop] keys IH]; intros out; cbn [rel_fan_out].
  { eapply dropping_iff; [apply dropping_ret|]. intros sl. split; [done|]. by intros (? & ?%elem_of_nil & _). }
  destruct (prop =? key) eqn:E.
  - apply N.eqb_eq in E as ->.
    eapply dropping_iff; [eapply dropping_bind; [|intros a; apply IH]|];
      [apply (dropping_charge txn (URelProperty ty key value entity))|]. cbn. set_solver.
  - apply N.eqb_neq in E.
    eapply dropping_iff; [eapply dropping_bind; [apply dropping_ret|intros a; apply IH]|]. cbn. set_solver.
Qed.

Lemma partition_drops txn node lt prop out versions :
  dropping (λ sl, ∃ v, (prop, v) ∈ versions ∧ slot_of (UNodeProperty lt prop v node) = Some sl)
    (partition_loop txn node lt prop out versions).
Proof.
  revert out. induction versions as [|[k v] versions IH]; intros out; cbn [partition_loop].
  { eapply dropping_iff; [apply dropping_ret|]. intros sl. split; [done|]. by intros (? & ?%elem_of_nil & _). }
  destruct (k =? prop) eqn:E.
  - apply N.eqb_eq in E as ->.
    eapply dropping_iff; [eapply dropping_bind; [|intros a; apply IH]|];
      [apply (dropping_charge txn (UNodeProperty lt prop v node))|]. cbn. set_solver.
  - apply N.eqb_neq in E.
    eapply dropping_iff; [eapply dropping_bind; [apply dropping_ret|intros a; apply IH]|]. cbn. set_solver.
Qed.

Lemma label_fan_out_drops txn node label versions out keys :
  dropping (λ sl, ∃ prop v, (label, prop) ∈ keys ∧ (prop, v) ∈ versions ∧
              slot_of (UNodeProperty label prop v node) = Some sl)
    (label_fan_out txn node label versions out keys).
Proof.
  revert out. induction keys as [|[lt prop] keys IH]; intros out; cbn [label_fan_out].
  { eapply dropping_iff; [apply dropping_ret|]. intros sl. split; [done|]. by intros (? & ? & ?%elem_of_nil & _). }
  destruct (lt =? label) eqn:E; cbn [negb].
  - apply N.eqb_eq in E as ->.
    eapply dropping_iff; [eapply dropping_bind; [apply partition_drops|intros a; apply IH]|]. cbn. set_solver.
  - apply N.eqb_neq in E.
    eapply dropping_iff; [eapply dropping_bind; [apply dropping_ret|intros a; apply IH]|]. cbn. set_solver.
Qed.

Hypothesis iter_ok : ∀ X key, key ∈ iter X ↔ key ∈ X.

Lemma present_node s lab prop k : present s (LNode (lab, prop), k) → (lab, prop) ∈ dom (node_props s).
Proof. intros (t & (np & Hnp & _)%fmap_Some & _). apply elem_of_dom. by exists np. Qed.

Lemma present_rel s ty prop k : present s (LRel (ty, prop), k) → (ty, prop) ∈ dom (rel_props s).
Proof. intros (t & (rp & Hrp & _)%fmap_Some & _). apply elem_of_dom. by exists rp. Qed.

Lemma drops_ext P Q s s' : drops P s s' → (∀ sl, present s sl → P sl ↔ Q sl) → drops Q s s'.
Proof. intros (Hok & Hl & Hp) Hpq. split_and!; [done..|]. intros sl. rewrite Hp. naive_solver. Qed.

Lemma drops_none P s : set_ok s → (∀ sl, present s sl → ¬ P sl) → drops P s s.
Proof. intros Hok Hn. split_and!; [done..|]. naive_solver. Qed.

Lemma collect_property_drops txn kind entity key value ev out :
  dropping (condemns ev (DeadProperty kind entity key value))
    (collect_dead_property iter txn kind entity key value ev out).
Proof.
  intros s Hs. unfold collect_dead_property. destruct (is_index_encodable value) eqn:Hi; cbn [negb].
  2: { exists out, s. split; [done|]. apply drops_none; [done|]. intros [l k] _. cbn.
       rewrite (unencodable_key _ _ _ Hi). destruct (ev kind entity); [|by intros []].
       destruct (value_dead _ _ _); [|by intros []]. destruct kind, l as [|[]|[]|[]|[]]; cbn; try by intros [].
       all: destruct (_ =? _); by intros []. }
  destruct (ev kind entity) as [d|] eqn:Hev.
  2: { exists (retain out), s. split; [done|]. apply drops_none; [done|]. intros sl _. cbn. rewrite Hev. by intros []. }
  destruct (in_use d && existsb _ _) eqn:Hlive.
  { exists (retain out), s. split; [done|]. apply drops_none; [done|]. intros sl _. cbn.
    unfold value_dead. rewrite Hev, Hlive. by intros []. }
  assert (value_dead d key value = true) as Hdead by (unfold value_dead; by rewrite Hlive).
  destruct kind.
  - destruct (node_fan_out_drops txn entity key value out (iter (dom (node_props s))) s Hs) as (a & s' & He & Hd).
    exists a, s'. split; [done|]. eapply drops_ext; [done|]. intros sl Hp. cbn. rewrite Hev, Hdead. cbn.
    setoid_rewrite slot_of_property_node. destruct sl as [[|[lab prop]| | |] k]; cbn; try naive_solver.
    rewrite andb_True, key_is_true, Is_true_true, N.eqb_eq. split.
    + intros (lab' & _ & [= -> ->] & ?). done.
    + intros [-> ?]. exists lab. split; [|done]. apply iter_ok. by eapply present_node.
  - destruct (rel_fan_out_drops txn entity key value out (iter (dom (rel_props s))) s Hs) as (a & s' & He & Hd).
    exists a, s'. split; [done|]. eapply drops_ext; [done|]. intros sl Hp. cbn. rewrite Hev, Hdead. cbn.
    setoid_rewrite slot_of_property_rel. destruct sl as [[| |[lab prop]| |] k]; cbn; try naive_solver.
    rewrite andb_True, key_is_true, Is_true_true, N.eqb_eq. split.
    + intros (lab' & _ & [= -> ->] & ?). done.
    + intros [-> ?]. exists lab. split; [|done]. apply iter_ok. by eapply present_rel.
  - exists out, s. split; [done|]. apply drops_none; [done|]. intros sl _. cbn. rewrite Hev, Hdead. by intros [].
  - exists out, s. split; [done|]. apply drops_none; [done|]. intros sl _. cbn. rewrite Hev, Hdead. by intros [].
  - exists out, s. split; [done|]. apply drops_none; [done|]. intros sl _. cbn. rewrite Hev, Hdead. by intros [].
  - exists out, s. split; [done|]. apply drops_none; [done|]. intros sl _. cbn. rewrite Hev, Hdead. by intros [].
Qed.

Lemma collect_label_drops txn node label ev out :
  dropping (condemns ev (DeadLabel node label)) (collect_dead_label iter txn node label ev out).
Proof.
  intros s Hs. unfold collect_dead_label. destruct (ev Node node) as [d|] eqn:Hev.
  2: { exists (retain out), s. split; [done|]. apply drops_none; [done|]. intros sl _. cbn. rewrite Hev. by intros []. }
  destruct (in_use d && existsb _ _) eqn:Hlive.
  { exists (retain out), s. split; [done|]. apply drops_none; [done|]. intros sl _. cbn.
    unfold label_dead. rewrite Hev, Hlive. by intros []. }
  destruct (dropping_charge txn (ULabel label node) out s Hs) as (a & s1 & He & Hs1 & Hl1 & Hp1).
  destruct (label_fan_out_drops txn node label (property_versions d) a (iter (dom (node_props s1))) s1 Hs1)
    as (b & s2 & He2 & Hs2 & Hl2 & Hp2).
  exists b, s2. split.
  { unfold mbind, St_bind, get. rewrite He. exact He2. }
  split_and!; [done|congruence|]. intros sl. rewrite Hp2, (Hp1 sl), slot_of_label.
  setoid_rewrite slot_of_property_node. cbn. rewrite Hev. unfold label_dead. rewrite Hlive. cbn.
  destruct sl as [[|[lt prop]| | |] k]; cbn.
  3-5: split; [by intros [[? _] _]; split; [|intros []]|].
  3-5: intros [? _]; split; [split; [done|by intros [??]]|by intros (? & ? & _ & _ & [=] & _)].
  - rewrite key_is_true. split.
    + intros [[? Hn] _]. split; [done|]. intros [= Hk]. by apply Hn.
    + intros [? Hn]. split; [split; [done|]|by intros (? & ? & _ & _ & [=] & _)]. intros [_ Hk]. apply Hn. congruence.
  - rewrite andb_True, Is_true_true, N.eqb_eq, Is_true_true, existsb_exists. split.
    + intros [[Hp _] Hn]. split; [done|]. intros [-> ([prop' v] & Hin & [Hpe Hk]%andb_true_iff)]. cbn in *.
      apply N.eqb_eq in Hpe as ->. apply Is_true_true, key_is_true in Hk. apply Hn. exists prop, v.
      split_and!; [|by apply list_elem_of_In|done|done]. apply iter_ok. eapply (present_node _ _ _ k).
      apply Hp1. by split.
    + intros [Hp Hn]. split; [split; [done|by intros []]|].
      intros (prop' & v & _ & Hin & [= -> ->] & Hk). apply Hn. split; [done|]. exists (prop', v).
      split; [by apply list_elem_of_In|]. cbn. rewrite N.eqb_refl. by apply Is_true_true, key_is_true.
Qed.

(** A collection drops exactly the slots its dead keys condemn. *)
Lemma collect_drops txn ev out keys :
  dropping (λ sl, existsb (λ key, condemns ev key sl) keys) (collect_loop iter txn ev out keys).
Proof.
  revert out. induction keys as [|key keys IH]; intros out; cbn [collect_loop].
  { eapply dropping_iff; [apply dropping_ret|]. done. }
  eapply dropping_iff; [eapply (dropping_bind (condemns ev key)); [|intros a; apply IH]|].
  - destruct key; [apply collect_property_drops|apply collect_label_drops|].
    eapply dropping_iff; [apply dropping_ret|]. done.
  - intros sl. cbn. by rewrite orb_True.
Qed.

(** ** Rollback *)

Lemma undo_loop_slots txn r es s :
  set_ok s → ∃ n s', undo_loop txn r es s = (Ok n, s') ∧ drops (λ sl, Some sl ∈ slot_of <$> es) s s' ∧
    (NoDup (slot_of <$> es) → (∀ e, e ∈ es → ∃ sl, slot_of e = Some sl ∧ present s sl) →
     n = r + N.of_nat (length es)).
Proof.
  revert r s. induction es as [|e es IH]; intros r s Hs; cbn [undo_loop].
  { exists r, s. split; [done|]. split; [|cbn; lia]. apply drops_none; [done|]. by intros sl _ ?%elem_of_nil. }
  destruct (remove_entry_slots txn e s Hs) as (c & s1 & He & Hok & Hl & Hp & Hc).
  destruct (IH (if c then r + 1 else r) s1 Hok) as (n & s2 & He2 & (Hok2 & Hl2 & Hp2) & Hn).
  exists n, s2. unfold mbind, St_bind. rewrite He. split; [done|]. split.
  - split_and!; [done|congruence|]. intros sl. rewrite Hp2, Hp, fmap_cons, not_elem_of_cons. naive_solver.
  - rewrite fmap_cons, NoDup_cons. intros [Hnew Hnd] Hall.
    assert (c = true) as -> by (apply Hc, Hall; left). rewrite (Hn Hnd).
    + cbn [length]. lia.
    + intros e' He'. destruct (Hall e') as (sl & Hsl & Hpr); [by right|]. exists sl. split; [done|]. apply Hp.
      split; [done|]. intros Heq. apply Hnew, list_elem_of_fmap. exists e'. split; [congruence|done].
Qed.
End Removals.
