(* ===== verification/IndexRollback.v ===== *)
(** The index set keeps the ledger of its writers (theorems about IndexSet.v).

    Whatever the interleaving of inserts, commits, rollbacks, population writes, rebuilds and
    collections, the trees hold the committed slots, the slots of the open transactions and the
    ones left behind by a dropped log, and nothing else. In particular no rollback removes a
    committed entry, and a rollback whose log was not dropped leaves no trace. *)
From S2P Require Import Prelude Core Bytes Float64 Compare CypherValue CypherEquality CypherEquivalence CypherOrder KeyCodec KeyTree IndexKinds IndexSet IndexSlots IndexLedger.
From stdpp Require Import options.

Open Scope N_scope.

(** ** The ledger *)

Lemma pend_empty t c st : pend {| committed := c; pending := ∅; stale := st |} t = ∅.
Proof. unfold pend. cbn. by rewrite lookup_empty. Qed.

Lemma elem_of_all_pending L sl : sl ∈ all_pending L ↔ ∃ t, sl ∈ pend L t.
Proof.
  unfold all_pending, pend. rewrite elem_of_union_list. split.
  - intros (X & Hin & Hsl). apply list_elem_of_fmap in Hin as ([t Y] & -> & Hin).
    apply elem_of_map_to_list in Hin. exists t. by rewrite Hin.
  - intros [t Ht]. destruct (pending L !! t) as [X|] eqn:HX; [|by apply elem_of_empty in Ht].
    exists X. split; [|done]. apply list_elem_of_fmap. exists (t, X). split; [done|]. by apply elem_of_map_to_list.
Qed.

Lemma on_ledger_orphan L sl : on_ledger (orphan L) sl ↔ on_ledger L sl.
Proof. unfold on_ledger. cbn. rewrite elem_of_union, elem_of_all_pending. unfold pend. cbn. naive_solver. Qed.

Lemma pend_restrict keep L t : pend (restrict keep L) t = filter (λ sl, keep sl) (pend L t).
Proof. unfold pend. cbn. rewrite lookup_fmap. by destruct (pending L !! t). Qed.

Lemma on_ledger_restrict keep L sl : on_ledger (restrict keep L) sl ↔ on_ledger L sl ∧ keep sl.
Proof.
  unfold on_ledger. setoid_rewrite pend_restrict. cbn. setoid_rewrite elem_of_filter. naive_solver.
Qed.

Lemma pend_insert c st m t X t' :
  pend {| committed := c; pending := <[t := X]> m; stale := st |} t' =
  if decide (t' = t) then X else default ∅ (m !! t').
Proof.
  unfold pend. cbn. case_decide as Hd; [subst; by rewrite lookup_insert_eq|]. by rewrite lookup_insert_ne.
Qed.

Lemma pend_delete c st m t t' :
  pend {| committed := c; pending := delete t m; stale := st |} t' =
  if decide (t' = t) then ∅ else default ∅ (m !! t').
Proof.
  unfold pend. cbn. case_decide as Hd; [subst; by rewrite lookup_delete_eq|]. by rewrite lookup_delete_ne.
Qed.

Section Rollback.
Context {T : Type} `{!KeyTree T} `{!KeyTreeSpec T} `{!KeyTreeSafe T}.
Context (fresh_tree : T) (iter : gset (N * N) → list (N * N)).
Hypothesis fresh_ok : tree_ok fresh_tree ∧ content fresh_tree = ∅.
Hypothesis iter_ok : ∀ X key, key ∈ iter X ↔ key ∈ X.
#[local] Set Default Proof Using "All".
Implicit Types (s : IndexSet T) (L : Ledger).

Lemma no_logged s t sl : txn_index_undo s = ∅ → ¬ logged_slot s t sl.
Proof. intros He (log & e & Hl & _). by rewrite He in Hl. Qed.

(** *** Restrictions *)

Lemma agrees_restrict (keep : Slot → bool) s s' L :
  agrees s L → set_ok s' → txn_index_undo s' = ∅ →
  (∀ t sl, sl ∈ pend L t → sl ∈ committed L ∨ sl ∈ stale L) →
  (∀ sl, present s' sl ↔ present s sl ∧ keep sl) → agrees s' (restrict keep L).
Proof.
  intros [_ Hp _ _ _ Hex] Hok Hu Hpend Hk. split; [done|..].
  - intros sl. by rewrite Hk, Hp, on_ledger_restrict.
  - intros t log. by rewrite Hu.
  - intros t sl Hl. by apply no_logged in Hl.
  - intros t sl. rewrite pend_restrict, elem_of_filter. intros [Hkeep [?|?]%Hpend]; [left|right; left].
    all: by apply elem_of_filter.
  - intros t t' sl. rewrite !pend_restrict, !elem_of_filter. naive_solver.
Qed.

Lemma agrees_orphan s s' L :
  agrees s L → set_ok s' → txn_index_undo s' = ∅ → (∀ sl, present s' sl ↔ present s sl) → agrees s' (orphan L).
Proof.
  intros [_ Hp _ _ _ Hex] Hok Hu Hk. split; [done|..].
  - intros sl. by rewrite Hk, Hp, on_ledger_orphan.
  - intros t log. by rewrite Hu.
  - intros t sl Hl. by apply no_logged in Hl.
  - intros t sl Hin. right. left. cbn. apply elem_of_union. right. apply elem_of_all_pending. by exists t.
  - exact Hex.
Qed.

Lemma orphan_pending L t sl : sl ∈ pend (orphan L) t → sl ∈ committed (orphan L) ∨ sl ∈ stale (orphan L).
Proof. intros Hin. right. cbn. apply elem_of_union. right. apply elem_of_all_pending. by exists t. Qed.

Lemma clear_trees s l :
  tree_at (clear fresh_tree s) l =
  match l with LLabels => Some (labels s) | _ => (λ _, fresh_tree) <$> tree_at s l end.
Proof.
  destruct l; cbn; rewrite ?lookup_fmap, ?map_lookup_imap, <- ?option_fmap_compose; try done.
  all: match goal with |- context [?m !! ?key] => by destruct (m !! key) end.
Qed.

Lemma clear_ok s : set_ok s → set_ok (clear fresh_tree s).
Proof.
  intros (Ht & _). split_and!.
  - intros l t. rewrite clear_trees. destruct l; try by intros (? & _ & ->)%fmap_Some; apply fresh_ok.
    intros [= <-]. by apply (Ht LLabels).
  - intros key ci. cbn. rewrite map_lookup_imap. by intros (? & _ & [= <-])%bind_Some.
  - intros key ci. cbn. rewrite map_lookup_imap. by intros (? & _ & [= <-])%bind_Some.
Qed.

Lemma clear_present s sl : present (clear fresh_tree s) sl ↔ present s sl ∧ is_label_slot sl.
Proof.
  unfold present. rewrite clear_trees. destruct sl as [l k]. cbn. destruct l; cbn; [naive_solver|..].
  all: split; [|by intros [_ []]]. all: intros (t & (? & _ & ->)%fmap_Some & [? Hx]).
  all: by rewrite (proj2 fresh_ok), lookup_empty in Hx.
Qed.

Lemma fail_closed_trees s l :
  tree_at (fail_closed s) l =
  match l with LComposite _ | LRelComposite _ => None | _ => tree_at s l end.
Proof.
  destruct l; cbn; rewrite ?lookup_fmap, ?lookup_empty, <- ?option_fmap_compose; try done.
Qed.

Lemma fail_closed_ok s : set_ok s → set_ok (fail_closed s).
Proof. intros (Ht & _). split_and!; [|done..]. intros l t. rewrite fail_closed_trees. destruct l; try done; apply Ht. Qed.

Lemma fail_closed_present s sl : present (fail_closed s) sl ↔ present s sl ∧ negb (is_composite_slot sl).
Proof. unfold present. rewrite fail_closed_trees. destruct sl as [[] k]; cbn; naive_solver. Qed.

(** *** Commit and rollback *)

Lemma logged_iff s t sl : logged_slot s t sl ↔ Some sl ∈ slot_of <$> default [] (txn_index_undo s !! t).
Proof.
  unfold logged_slot. rewrite list_elem_of_fmap. destruct (txn_index_undo s !! t) as [log|]; cbn.
  - split; [intros (log' & e & [= <-] & Hin & He)|intros (e & He & Hin)]; eauto 10.
  - split; [by intros (? & ? & [=] & _)|]. by intros (? & _ & ?%elem_of_nil).
Qed.

Lemma logged_delete s s' t t' sl :
  txn_index_undo s' = delete t (txn_index_undo s) →
  logged_slot s' t' sl ↔ t' ≠ t ∧ logged_slot s t' sl.
Proof.
  intros Hu. unfold logged_slot. rewrite Hu. setoid_rewrite lookup_delete_Some. naive_solver.
Qed.

Lemma agrees_commit s L t :
  agrees s L → agrees (forget_txn_entries t s)
    {| committed := committed L ∪ pend L t; pending := delete t (pending L); stale := stale L |}.
Proof.
  intros [Hok Hp Hlog Hlogged Hpend Hex]. split.
  - exact Hok.
  - intros sl. rewrite (present_trees s) by done. rewrite Hp. unfold on_ledger. setoid_rewrite pend_delete. cbn.
    rewrite elem_of_union. split.
    + intros [?|[?|[t' Ht']]]; [naive_solver..|]. destruct (decide (t' = t)) as [->|Hne]; [naive_solver|].
      right. right. exists t'. by rewrite decide_False.
    + intros [[?|?]|[?|[t' Ht']]]; [naive_solver..|]. case_decide; [by apply elem_of_empty in Ht'|]. naive_solver.
  - intros t' log. cbn. rewrite lookup_delete_Some. intros [_ Hl]. by eapply Hlog.
  - intros t' sl. rewrite (logged_delete s) by done. intros [Hne Hl]. rewrite pend_delete, decide_False by done. cbn.
    pose proof (Hlogged t' sl Hl) as (? & ? & ?). split_and!; [done| |done].
    intros [?|Hin]%elem_of_union; [done|]. by apply Hne, (Hex t' t sl).
  - intros t' sl. rewrite pend_delete. case_decide as Hd; [by intros ?%elem_of_empty|]. intros Hin. cbn.
    rewrite elem_of_union, (logged_delete s) by done. pose proof (Hpend t' sl Hin). naive_solver.
  - intros t1 t2 sl. rewrite !pend_delete. do 2 (case_decide; [by intros ?%elem_of_empty || by intros _ ?%elem_of_empty|]).
    apply Hex.
Qed.

Lemma rollback_drops s L t :
  agrees s L →
  ∃ s', rollback_entries t s = (Ok (N.of_nat (length (default [] (txn_index_undo s !! t)))), s') ∧ set_ok s' ∧
    txn_index_undo s' = delete t (txn_index_undo s) ∧ ∀ sl, present s' sl ↔ present s sl ∧ ¬ logged_slot s t sl.
Proof.
  intros [Hok Hp Hlog Hlogged Hpend Hex].
  set (log := default [] (txn_index_undo s !! t)). set (s1 := set_undo (delete t (txn_index_undo s)) s).
  destruct (undo_loop_slots iter iter_ok t 0 (reverse log) s1) as (n & s' & He & (Hok' & Hl' & Hp') & Hn); [done|].
  assert (NoDup (slot_of <$> log) ∧ ∀ e, e ∈ log → ∃ sl, slot_of e = Some sl ∧ present s sl) as [Hnd Hall].
  { subst log. destruct (txn_index_undo s !! t) as [log|] eqn:Ht; cbn; [|by split; [constructor|intros ? ?%elem_of_nil]].
    destruct (Hlog t log Ht) as (Hnd & Hnone & _). split; [done|]. intros e Hin. destruct (slot_of e) as [sl|] eqn:Hsl.
    - exists sl. split; [done|]. apply Hp. right. right. exists t. apply Hlogged. by exists log, e.
    - destruct Hnone. apply list_elem_of_fmap. by exists e. }
  rewrite fmap_reverse, reverse_Permutation, length_reverse in Hn.
  exists s'. split_and!; [|done|done|].
  - change (rollback_entries t s) with (undo_loop t 0 (reverse log) s1).
    rewrite He, Hn; [by rewrite N.add_0_l|done|].
    intros e Hin. rewrite elem_of_reverse in Hin. destruct (Hall e Hin) as (sl & ? & ?). exists sl. split; [done|].
    by rewrite (present_trees s).
  - intros sl. rewrite Hp', (present_trees s) by done. by rewrite fmap_reverse, elem_of_reverse, logged_iff.
Qed.

Lemma agrees_rollback s s' L t :
  agrees s L → set_ok s' → txn_index_undo s' = delete t (txn_index_undo s) →
  (∀ sl, present s' sl ↔ present s sl ∧ ¬ logged_slot s t sl) →
  agrees s' {| committed := committed L; pending := delete t (pending L); stale := stale L |}.
Proof.
  intros [Hok Hp Hlog Hlogged Hpend Hex] Hok' Hu Hp'. split; [done|..].
  - intros sl. rewrite Hp', Hp. unfold on_ledger. setoid_rewrite pend_delete. cbn. split.
    + intros [[?|[?|[t' Ht']]] Hn]; [naive_solver..|]. destruct (decide (t' = t)) as [->|Hne].
      * pose proof (Hpend t sl Ht'). naive_solver.
      * right. right. exists t'. by rewrite decide_False.
    + intros [?|[?|[t' Ht']]]; [pose proof (Hlogged t sl); naive_solver..|].
      case_decide as Hd; [by apply elem_of_empty in Ht'|]. split; [naive_solver|].
      intros [Hin _]%Hlogged. by apply Hd, (Hex t' t sl).
  - intros t' log. rewrite Hu, lookup_delete_Some. intros [_ Hl]. by eapply Hlog.
  - intros t' sl. rewrite (logged_delete s) by done. intros [Hne Hl]. rewrite pend_delete, decide_False by done.
    by apply Hlogged.
  - intros t' sl. rewrite pend_delete. case_decide as Hd; [by intros ?%elem_of_empty|]. intros Hin. cbn.
    rewrite (logged_delete s) by done. pose proof (Hpend t' sl Hin). naive_solver.
  - intros t1 t2 sl. rewrite !pend_delete. do 2 (case_decide; [by intros ?%elem_of_empty || by intros _ ?%elem_of_empty|]).
    apply Hex.
Qed.

(** *** Inserts *)

(** Agreement depends on the slots and the logs only. *)
Lemma agrees_ext s s' L L' :
  agrees s L → set_ok s' → txn_index_undo s' = txn_index_undo s → (∀ sl, present s' sl ↔ present s sl) →
  committed L' = committed L → stale L' = stale L → (∀ t, pend L' t = pend L t) → agrees s' L'.
Proof.
  intros [Hok Hp Hlog Hlogged Hpend Hex] Hok' Hu Hp' Hc Hst Hpe.
  assert (∀ t sl, logged_slot s' t sl ↔ logged_slot s t sl) as Hl by (intros; unfold logged_slot; by rewrite Hu).
  split; [done|..].
  - intros sl. rewrite Hp', Hp. unfold on_ledger. rewrite Hc, Hst. by setoid_rewrite Hpe.
  - intros t log. rewrite Hu. apply Hlog.
  - intros t sl. rewrite Hl, Hc, Hst, Hpe. apply Hlogged.
  - intros t sl. rewrite Hl, Hc, Hst, Hpe. apply Hpend.
  - intros t t' sl. rewrite !Hpe. apply Hex.
Qed.

(** An entry that was already there joins the slots of its writer; the log is unchanged. *)
Lemma agrees_reinsert s s' L t sl :
  agrees s L → set_ok s' → txn_index_undo s' = txn_index_undo s → (∀ x, present s' x ↔ present s x) →
  present s sl → (∀ t', t' ≠ t → sl ∉ pend L t') →
  agrees s' {| committed := committed L; pending := <[t := {[sl]} ∪ pend L t]> (pending L); stale := stale L |}.
Proof.
  intros [Hok Hp Hlog Hlogged Hpend Hex] Hok' Hu Hp' Hsl Hown.
  assert (∀ t sl, logged_slot s' t sl ↔ logged_slot s t sl) as Hl by (intros; unfold logged_slot; by rewrite Hu).
  split; [done|..].
  - intros x. rewrite Hp', Hp. unfold on_ledger. setoid_rewrite pend_insert. cbn. split.
    + intros [?|[?|[t' Ht']]]; [naive_solver..|]. right. right. exists t'. case_decide; [|done]. subst. set_solver.
    + intros [?|[?|[t' Ht']]]; [naive_solver..|]. case_decide; [|naive_solver].
      apply elem_of_union in Ht' as [->%elem_of_singleton|?]; [by apply Hp|naive_solver].
  - intros t' log. rewrite Hu. apply Hlog.
  - intros t' x. rewrite Hl, pend_insert. intros (Hin & ? & ?)%Hlogged. split; [|done].
    case_decide; [subst; set_solver|done].
  - intros t' x. rewrite Hl, pend_insert. case_decide; [subst t'|apply Hpend].
    intros [->%elem_of_singleton|?]%elem_of_union; [|by apply Hpend]. cbn.
    apply Hp in Hsl as [?|[?|[t' Ht']]]; [naive_solver..|]. destruct (decide (t' = t)) as [->|Hne]; [by apply Hpend|].
    by destruct (Hown t' Hne).
  - intros t1 t2 x. rewrite !pend_insert. do 2 case_decide; subst; [done|..|apply Hex].
    + intros [->%elem_of_singleton|?]%elem_of_union ?; [by destruct (Hown t2)|by eapply Hex].
    + intros ? [->%elem_of_singleton|?]%elem_of_union; [by destruct (Hown t1)|by eapply Hex].
Qed.

Lemma note_entry_new s t e :
  txn_index_undo (note_entry (WTxn t) true e s) =
  <[t := (if MAX_TXN_UNDO_ENTRIES <=? N.of_nat (length (default [] (txn_index_undo s !! t))) then []
          else default [] (txn_index_undo s !! t)) ++ [e]]> (txn_index_undo s).
Proof. done. Qed.

(** A new entry is logged; a full log is started afresh, leaving its slots behind. *)
Lemma agrees_new s s' L t e sl (full : bool) old :
  agrees s L → set_ok s' → slot_of e = Some sl → ¬ present s sl → (∀ x, present s' x ↔ present s x ∨ x = sl) →
  old = (if full then [] else default [] (txn_index_undo s !! t)) →
  txn_index_undo s' = <[t := old ++ [e]]> (txn_index_undo s) →
  agrees s' {| committed := committed L; pending := <[t := {[sl]} ∪ pend L t]> (pending L);
               stale := if full then stale L ∪ pend L t else stale L |}.
Proof.
  intros [Hok Hp Hlog Hlogged Hpend Hex] Hok' Hsl Hnew Hp' Hold Hu.
  set (st := if full then _ else _).
  assert (∀ x, x ∈ st ↔ x ∈ stale L ∨ x ∈ pend L t ∧ full = true) as Hst.
  { intros x. subst st. destruct full; set_solver. }
  assert (∀ t' x, logged_slot s' t' x ↔ (t' ≠ t ∧ logged_slot s t' x) ∨ t' = t ∧ Some x ∈ slot_of <$> old ++ [e]) as Hl.
  { intros t' x. rewrite !logged_iff, Hu. destruct (decide (t' = t)) as [->|Hne].
    - rewrite lookup_insert_eq. cbn. naive_solver.
    - rewrite lookup_insert_ne by done. naive_solver. }
  assert (∀ x, Some x ∈ slot_of <$> old ++ [e] ↔ Some x ∈ slot_of <$> old ∨ x = sl) as He.
  { intros x. rewrite fmap_app, elem_of_app. cbn. rewrite Hsl, list_elem_of_singleton. naive_solver. }
  assert (∀ x, Some x ∈ slot_of <$> old → logged_slot s t x ∧ full = false) as Hin.
  { intros x Hx. subst old. destruct full; [by apply elem_of_nil in Hx|]. by rewrite logged_iff. }
  assert (¬ on_ledger L sl) as Hoff by (by rewrite <- Hp).
  assert (∀ t', sl ∉ pend L t') as Hnone by (intros t' ?; apply Hoff; right; right; by exists t').
  split; [done|..].
  - intros x. rewrite Hp', Hp. unfold on_ledger. setoid_rewrite pend_insert. cbn. rewrite Hst. split.
    + intros [[?|[?|[t' Ht']]]| ->]; [naive_solver..| |].
      * right. right. exists t'. case_decide; [|done]. subst. set_solver.
      * right. right. exists t. rewrite decide_True by done. set_solver.
    + intros [?|[[?|[? _]]|[t' Ht']]]; [naive_solver..|]. case_decide; [|naive_solver].
      apply elem_of_union in Ht' as [->%elem_of_singleton|?]; naive_solver.
  - intros t' log. rewrite Hu. destruct (decide (t' = t)) as [->|Hne]; [|rewrite lookup_insert_ne by done; apply Hlog].
    rewrite lookup_insert_eq. intros [= <-]. rewrite fmap_app. cbn. rewrite Hsl.
    assert (NoDup (slot_of <$> old) ∧ None ∉ (slot_of <$> old)) as [Hnd Hno].
    { subst old. destruct full; [split; [constructor|by intros ?%elem_of_nil]|].
      destruct (txn_index_undo s !! t) as [log|] eqn:Ht; [split; by eapply Hlog|]. split; [constructor|by intros ?%elem_of_nil]. }
    split_and!.
    + apply NoDup_app. split_and!; [done| |apply NoDup_singleton]. intros o Ho ->%list_elem_of_singleton.
      apply Hin in Ho as [[]%Hlogged _]. by eapply Hnone.
    + rewrite elem_of_app, list_elem_of_singleton. naive_solver.
    + by destruct old.
  - intros t' x. rewrite Hl, pend_insert, Hst. cbn. intros [[Hne Hlg]|[-> [[Hlg Heq]%Hin| ->]%He]].
    + rewrite decide_False by done. pose proof (Hlogged _ _ Hlg) as (? & ? & ?). split_and!; [done..|].
      intros [?|[? _]]; [done|]. by apply Hne, (Hex t' t x).
    + rewrite decide_True by done. pose proof (Hlogged _ _ Hlg) as (? & ? & ?). split_and!; [set_solver|done|naive_solver].
    + rewrite decide_True by done. split_and!; [set_solver|..].
      * intros ?. apply Hoff. by left.
      * intros [?|[? _]]; [|by eapply Hnone]. apply Hoff. right. by left.
  - intros t' x. rewrite Hl, pend_insert, Hst. cbn. case_decide as Hd; [subst t'|].
    + intros [->%elem_of_singleton|Hx]%elem_of_union; [right; right; right; split; [done|apply He; by right]|].
      destruct full; [naive_solver|].
      destruct (Hpend t x Hx) as [?|[?|Hlg]]; [naive_solver..|]. right. right. right. split; [done|]. apply He. left.
      subst old. by apply logged_iff.
    + intros Hx. destruct (Hpend t' x Hx) as [?|[?|?]]; naive_solver.
  - intros t1 t2 x. rewrite !pend_insert. do 2 case_decide; subst; [done|..|apply Hex].
    + intros [->%elem_of_singleton|?]%elem_of_union ?; [by destruct (Hnone t2)|by eapply Hex].
    + intros ? [->%elem_of_singleton|?]%elem_of_union; [by destruct (Hnone t1)|by eapply Hex].
Qed.

Lemma agrees_insert_txn s L t e :
  agrees s L → (∀ sl t', slot_of e = Some sl → t' ≠ t → sl ∉ pend L t') →
  ∃ s', insert_entry (WTxn t) e s = (Ok tt, s') ∧ agrees s' (record s (OInsert (WTxn t) e) L).
Proof.
  intros Ha Hown. destruct (insert_entry_slots (WTxn t) e s (ag_ok _ _ Ha)) as (c & s' & He & Hok & Hp & Hnew & Htk & Hu).
  exists s'. split; [done|]. cbn [record]. destruct (bool_decide (tree_at s (loc e) = None)) eqn:Hreg.
  { apply bool_decide_eq_true, (insert_entry_unregistered (WTxn t)) in Hreg. rewrite Hreg in He. by simplify_eq. }
  destruct c.
  - destruct Hnew as (sl & Htake & Hsl & Hn); [done|]. rewrite note_entry_new in Hu. rewrite Htake.
    unfold recycles. rewrite bool_decide_true by done. cbn [andb].
    eapply (agrees_new s); try done. intros x. rewrite Hp, Hsl. naive_solver.
  - assert (∀ x, present s' x ↔ present s x) as Hp' by (intros; rewrite Hp; naive_solver).
    destruct (takes s (WTxn t) e) as [sl|] eqn:Htake.
    + destruct (Htk sl eq_refl) as [Hsl Hin]. apply Hp' in Hin.
      unfold recycles. rewrite bool_decide_false by tauto. cbn [andb].
      apply (agrees_reinsert s); try done. intros t'. by apply Hown.
    + eapply (agrees_ext s); try done.
      intros t'. rewrite pend_insert. case_decide; [subst; by rewrite (left_id_L ∅ (∪))|done].
Qed.

Lemma agrees_populate s L e :
  agrees s L → ∃ s', insert_entry Population e s = (Ok tt, s') ∧ agrees s' (record s (OInsert Population e) L).
Proof.
  intros Ha. destruct (insert_entry_slots Population e s (ag_ok _ _ Ha)) as (c & s' & He & Hok & Hp & Hnew & Htk & Hu).
  exists s'. split; [done|]. cbn [record]. destruct (bool_decide (tree_at s (loc e) = None)) eqn:Hreg.
  { apply bool_decide_eq_true, (insert_entry_unregistered Population) in Hreg. rewrite Hreg in He. by simplify_eq. }
  set (added := match takes s Population e with Some sl => _ | None => _ end).
  assert (∀ x, x ∈ added ↔ takes s Population e = Some x) as Hadd.
  { intros x. subst added. destruct (takes s Population e) as [sl|]; set_solver. }
  assert (∀ x, present s' x ↔ present s x ∨ x ∈ added) as Hp'.
  { intros x. rewrite Hadd. split; [|intros [?|[_ ?]%Htk]; [apply Hp; by left|done]]. rewrite Hp.
    intros [?|[-> Hsl]]; [by left|right]. destruct Hnew as (sl & ? & ? & _); [done|]. congruence. }
  assert (txn_index_undo s' = ∅) as Hu' by (by rewrite Hu).
  destruct Ha as [_ Hpr _ _ _ Hex]. split; [done|..].
  - intros x. rewrite Hp', Hpr. change (on_ledger L x) with (on_ledger {| committed := committed L; pending := pending L; stale := stale L |} x).
    rewrite <- on_ledger_orphan. unfold on_ledger, pend. cbn. set_solver.
  - intros t log. by rewrite Hu'.
  - intros t x Hl. by apply no_logged in Hl.
  - intros t x Hin. right. left. cbn. apply elem_of_union_r, elem_of_all_pending. by exists t.
  - exact Hex.
Qed.

(** *** All operations *)

(** The logs name the transactions that have slots of their own. *)
Lemma logged_own s L t : agrees s L → is_Some (txn_index_undo s !! t) ↔ ¬ pend L t ⊆ committed L ∪ stale L.
Proof.
  intros Ha. split.
  - intros [log Hl] Hsub. destruct (ag_log _ _ Ha t log Hl) as (_ & Hnone & Hne).
    destruct log as [|e log]; [done|]. destruct (slot_of e) as [sl|] eqn:Hsl.
    2: { destruct Hnone. cbn. rewrite Hsl. left. }
    destruct (ag_logged _ _ Ha t sl) as (Hin & Hc & Hst); [exists (e :: log), e; split_and!; [done|left|done]|].
    apply Hsub in Hin. set_solver.
  - intros Hn. destruct (txn_index_undo s !! t) as [log|] eqn:Hl; [by eexists|]. destruct Hn. intros sl Hin.
    destruct (ag_pending _ _ Ha t sl Hin) as [?|[?|(? & ? & Hx & _)]]; [set_solver..|congruence].
Qed.

(** So the check for other writers decides whether another transaction has such slots. *)
Lemma guard_reads_ledger s L txn : agrees s L → has_other_index_writer_in_flight s txn = others_open L txn.
Proof.
  intros Ha. apply eq_iff_eq_true. unfold has_other_index_writer_in_flight, others_open. rewrite !existsb_exists.
  setoid_rewrite <- list_elem_of_In. setoid_rewrite elem_of_elements. split.
  - intros (t & Hin%elem_of_dom & Hne). pose proof Hin as Hown. rewrite (logged_own _ L) in Hown by done. exists t. split.
    + apply elem_of_dom. unfold pend in Hown. destruct (pending L !! t); [by eexists|]. destruct Hown. set_solver.
    + by rewrite Hne, bool_decide_false.
  - intros (t & _ & [Hne Hown%negb_true_iff%bool_decide_eq_false]%andb_true_iff). exists t. split; [|done].
    by apply elem_of_dom, (logged_own _ L).
Qed.

Lemma no_logs s L txn :
  agrees s L → others_open L txn = false → pend L txn = ∅ → txn_index_undo s = ∅.
Proof.
  intros Ha Ho Hn. apply map_empty. intros t. destruct (txn_index_undo s !! t) as [log|] eqn:Hl; [|done].
  destruct (decide (t = txn)) as [->|Hne].
  - assert (¬ pend L txn ⊆ committed L ∪ stale L) as Hx by (apply (logged_own s); [done|by eexists]). set_solver.
  - rewrite <- (guard_reads_ledger s) in Ho by done. unfold has_other_index_writer_in_flight in Ho.
    assert (existsb (λ t, negb (t =? txn)) (elements (dom (txn_index_undo s))) = true) as Hc; [|congruence].
    apply existsb_exists. exists t. split; [apply list_elem_of_In, elem_of_elements, elem_of_dom; by eexists|].
    by apply negb_true_iff, N.eqb_neq.
Qed.

(** A batch is abandoned, or removes what its keys condemn. *)
Lemma agrees_collect s L txn keys ev before after :
  agrees s L → pend L txn = ∅ →
  ∃ out s', collect_batch iter txn keys ev before after default_collection s = (Ok out, s') ∧
    agrees s' (record s (OCollect txn keys ev before after) L).
Proof.
  intros Ha Hn. cbn [record]. unfold collect_batch. rewrite (guard_reads_ledger s L txn Ha).
  destruct (negb (before =? after) || others_open L txn) eqn:Hg; [by eauto|].
  apply orb_false_iff in Hg as [_ Ho]. pose proof (no_logs s L txn Ha Ho Hn) as Hu.
  destruct (collect_drops iter iter_ok txn ev default_collection keys s (ag_ok _ _ Ha)) as (a & s' & He & Hok & Hl & Hp).
  eexists _, s'. unfold collect_dead_keys, mbind, St_bind. rewrite He. split; [done|].
  apply (agrees_restrict _ s); [done|done|congruence| |].
  - intros t sl [?|[?|Hlg]]%(ag_pending _ _ Ha); [by left|by right|]. by apply no_logged in Hlg.
  - intros sl. rewrite Hp, negb_True. done.
Qed.

Lemma agrees_step s L op :
  agrees s L → allowed L op →
  ∃ s', apply_op fresh_tree iter op s = (Ok tt, s') ∧ agrees s' (record s op L).
Proof.
  intros Ha Hal. destruct op as [[t|] e|t|t|txn keys ev before after| |]; cbn [apply_op record allowed] in *.
  - by apply agrees_insert_txn.
  - by apply agrees_populate.
  - eexists. split; [done|]. by apply agrees_commit.
  - destruct (rollback_drops s L t Ha) as (s' & He & Hok & Hu & Hp). exists s'.
    unfold mbind, St_bind. rewrite He. split; [done|]. by apply (agrees_rollback s).
  - destruct (agrees_collect s L txn keys ev before after Ha Hal) as (out & s' & He & Ha').
    exists s'. unfold mbind, St_bind. by rewrite He.
  - eexists. split; [done|]. apply (agrees_restrict _ (invalidate_txn_undo s)); try done.
    + by apply (agrees_orphan s); try apply Ha.
    + apply clear_ok, Ha.
    + apply orphan_pending.
    + intros sl. apply (clear_present s sl).
  - eexists. split; [done|]. apply (agrees_restrict _ (invalidate_txn_undo s)); try done.
    + by apply (agrees_orphan s); try apply Ha.
    + apply fail_closed_ok, Ha.
    + apply orphan_pending.
    + intros sl. apply (fail_closed_present s sl).
Qed.

Lemma reaches_agrees s L : reaches fresh_tree iter s L → agrees s L.
Proof.
  induction 1 as [s L Hok Hu Hpe Hst Hp|s L op r s' _ IH Hal He].
  - assert (∀ t, pend L t = ∅) as Hpend by (intros t; unfold pend; by rewrite Hpe, lookup_empty).
    split; [done|..].
    + intros sl. rewrite Hp. unfold on_ledger. setoid_rewrite Hpend. rewrite Hst. set_solver.
    + intros t log. by rewrite Hu.
    + intros t sl Hl. by apply no_logged in Hl.
    + intros t sl. rewrite Hpend. set_solver.
    + intros t t' sl. rewrite Hpend. set_solver.
  - destruct (agrees_step s L op IH Hal) as (s1 & He' & Ha). rewrite He' in He. by simplify_eq.
Qed.

(** C7: Over trees on which a failed insert changes nothing and a removal does not fail, in
    runs where an entry is written by at most one open transaction at a time and a
    collection runs on a transaction that has written no entry: every operation goes
    through, and the trees hold exactly the slots of the ledger, the committed ones, those
    of the open transactions and the stale ones. The ledger is told from the state before
    the operation what an insert takes (nothing if the index is not registered, the value
    has no key or the tree refuses) and that a collection does nothing when the clock moved
    or another open transaction has slots in flight, otherwise removes what its dead keys
    condemn. *)
Theorem index_keeps_ledger s L :
  reaches fresh_tree iter s L →
  (∀ op, allowed L op → ∃ s', apply_op fresh_tree iter op s = (Ok tt, s')) ∧
  ∀ sl, present s sl ↔ sl ∈ committed L ∨ sl ∈ stale L ∨ ∃ t, sl ∈ pend L t.
Proof.
  intros Ha%reaches_agrees. split; [|apply Ha]. intros op Hal.
  destruct (agrees_step s L op Ha Hal) as (s' & He & _). by exists s'.
Qed.

(** A rollback removes what the transaction alone had written, each entry once, and no slot
    that is committed, stale or of another transaction. *)
Theorem rollback_removes_own s L t :
  reaches fresh_tree iter s L →
  ∃ s' n, rollback_entries t s = (Ok n, s') ∧
    n = N.of_nat (length (default [] (txn_index_undo s !! t))) ∧
    ∀ sl, present s' sl ↔ present s sl ∧ ¬ (sl ∈ pend L t ∧ (sl ∉ committed L) ∧ (sl ∉ stale L)).
Proof.
  intros Ha%reaches_agrees. destruct (rollback_drops s L t Ha) as (s' & He & _ & _ & Hp).
  exists s', (N.of_nat (length (default [] (txn_index_undo s !! t)))). split_and!; [done..|]. intros sl. rewrite Hp.
  pose proof (ag_logged _ _ Ha t sl). pose proof (ag_pending _ _ Ha t sl). naive_solver.
Qed.
End Rollback.
