(* ===== verification/IndexCollect.v ===== *)
(** What a collection of dead keys may remove (theorems about IndexSet.v).

    A batch removes exactly the slots its dead keys condemn, and none that the evidence
    warrants: an entry of a label the node still has, of a value some version still holds, of
    an entity without evidence, or of a composite index. What the evidence does not cover is
    the subject of the last theorem: a writer whose entry was already in the tree leaves no
    trace in the logs, so the check for other writers does not see it. *)
From S2P Require Import Prelude Core Bytes Float64 Compare CypherValue CypherEquality CypherEquivalence CypherOrder KeyCodec KeyTree IndexKinds IndexSet IndexSlots IndexLedger.
From stdpp Require Import options.

Open Scope N_scope.

(** ** Keys *)

Lemma be_bytes_inj w x y :
  x < 256 ^ N.of_nat w → y < 256 ^ N.of_nat w → to_be_bytes w x = to_be_bytes w y → x = y.
Proof.
  intros Hx Hy He. pose proof (orders_cmp _ _ _ x y (orders_be w) Hx Hy) as Hc.
  rewrite He, (proj2 (bytes_cmp_eq _ _) eq_refl) in Hc. by apply N.compare_eq.
Qed.

(** The bytes of a value's entry give back the bytes of the value and the record. *)
Lemma value_key_inj token a b id id' :
  is_u64 id → is_u64 id' → token_value_id_key token a id = token_value_id_key token b id' → a = b ∧ id = id'.
Proof.
  intros Hi Hi'. unfold token_value_id_key, with_token_prefix. intros He.
  apply app_inj_2 in He as [He Hid]; [|done]. apply app_inv_head in He as ->.
  split; [done|]. by apply (be_bytes_inj 8).
Qed.

Lemma property_key_same key v w id id' k :
  is_u64 id → is_u64 id' → property_key key v id = Some k → property_key key w id' = Some k →
  id = id' ∧ same_index_key v w = true.
Proof.
  intros Hi Hi'. unfold property_key, same_index_key.
  destruct (encode_single v) as [a|], (encode_single w) as [b|]; try done. intros Ha Hb.
  assert (token_value_id_key key a id = token_value_id_key key b id') as [-> ->]%value_key_inj by congruence; [|done..].
  split; [done|]. by rewrite bool_decide_true.
Qed.

Lemma token_key_inj a b id id' :
  is_u32 a → is_u32 b → is_u64 id → is_u64 id' → token_key a id = token_key b id' → a = b ∧ id = id'.
Proof.
  intros ???? He. unfold token_key in He. apply app_inj_2 in He as [He Hid]; [|done].
  split; [by apply (be_bytes_inj 4)|by apply (be_bytes_inj 8)].
Qed.

(** ** What warrants an entry *)

(** Dead keys and entries of the machine widths. *)
Definition dead_key_ok (key : DeadIndexKey) : Prop :=
  match key with
  | DeadProperty _ entity _ _ => is_u64 entity
  | DeadLabel node label => is_u64 node ∧ is_u32 label
  | DeadEntity _ _ => True
  end.

Definition undo_entry_ok (e : IndexUndoEntry) : Prop :=
  is_u64 (entry_id e) ∧ match e with ULabel label _ => is_u32 label | _ => True end.

Definition warrants (d : DeadKeyEvidence) (e : IndexUndoEntry) : Prop :=
  in_use d = true ∧
  match e with
  | ULabel label _ => label ∈ ev_labels d
  | UNodeProperty label prop v _ => label ∈ ev_labels d ∧ (prop, v) ∈ property_versions d
  | URelProperty _ prop v _ => (prop, v) ∈ property_versions d
  | UNodeComposite _ _ _ _ | URelComposite _ _ _ _ => True
  end.

(** The evidence has nothing on the entity, or a version of it that warrants the entry. *)
Definition warranted (ev : Evidence) (e : IndexUndoEntry) : Prop :=
  match e with
  | ULabel _ id | UNodeProperty _ _ _ id => match ev Node id with None => True | Some d => warrants d e end
  | URelProperty _ _ _ id => match ev Rel id with None => True | Some d => warrants d e end
  | UNodeComposite _ _ _ _ | URelComposite _ _ _ _ => True
  end.

Lemma live_value d prop v w :
  in_use d = true → (prop, v) ∈ property_versions d → same_index_key v w = true → value_dead d prop w = false.
Proof.
  intros Hu Hin Hs. unfold value_dead. rewrite Hu. cbn. apply negb_false_iff, existsb_exists.
  exists (prop, v). split; [by apply list_elem_of_In|]. cbn. by rewrite N.eqb_refl, Hs.
Qed.

Lemma live_label d label : in_use d = true → label ∈ ev_labels d → label_dead d label = false.
Proof.
  intros Hu Hin. unfold label_dead. rewrite Hu. cbn. apply negb_false_iff, existsb_exists.
  exists label. split; [by apply list_elem_of_In|apply N.eqb_refl].
Qed.

(** No dead key condemns the slot of a warranted entry. *)
Lemma warranted_spared ev key e sl :
  dead_key_ok key → undo_entry_ok e → slot_of e = Some sl → warranted ev e → condemns ev key sl = false.
Proof.
  intros Hk [Hid Hlab] Hsl Hw. unfold slot_of in Hsl. apply fmap_Some in Hsl as (k & Hkey & ->).
  destruct key as [kind entity prop w|node label|]; cbn [condemns fst snd]; [| |done].
  - destruct (ev kind entity) as [d|] eqn:Hev; [|done].
    destruct kind, e as [|lab p v id|?|ty p v id|?]; cbn [loc]; try by rewrite andb_false_r.
    all: cbn in Hkey, Hid, Hk; destruct (p =? prop) eqn:Hp; cbn; [apply N.eqb_eq in Hp as ->|by rewrite andb_false_r].
    all: destruct (key_is k _) eqn:Hki; [apply Is_true_true, key_is_true in Hki|by rewrite andb_false_r].
    all: destruct (property_key_same prop v w id entity k) as [-> Hs]; try done.
    all: cbn in Hw; rewrite Hev in Hw; destruct Hw as [Hu Hv]; rewrite (live_value d prop v w); naive_solver.
  - destruct (ev Node node) as [d|] eqn:Hev; [|done]. destruct Hk as [Hn Hl].
    destruct e as [lab id|lab p v id|?|ty p v id|?]; cbn [loc]; try by rewrite andb_false_r.
    + destruct (key_is k _) eqn:Hki; [apply Is_true_true, key_is_true in Hki|by rewrite andb_false_r].
      assert (token_key lab id = token_key label node) as [-> ->]%token_key_inj by (cbn [raw_key] in Hkey; congruence); [|done..].
      cbn in Hw. rewrite Hev in Hw. destruct Hw as [Hu Hw]. by rewrite (live_label d label).
    + destruct (lab =? label) eqn:Hle; cbn; [apply N.eqb_eq in Hle as ->|by rewrite andb_false_r].
      destruct (existsb _ _) eqn:He; [|by rewrite andb_false_r].
      apply existsb_exists in He as ([p' v'] & _ & [_ Hki]%andb_true_iff). cbn in Hki.
      apply Is_true_true, key_is_true in Hki. cbn in Hkey, Hid.
      destruct (property_key_same p v v' id node k) as [-> _]; try done.
      cbn in Hw. rewrite Hev in Hw. destruct Hw as [Hu [Hw _]]. by rewrite (live_label d label).
Qed.

Section Collect.
Context {T : Type} `{!KeyTree T} `{!KeyTreeSpec T} `{!KeyTreeSafe T} (iter : gset (N * N) → list (N * N)).
Hypothesis iter_ok : ∀ X key, key ∈ iter X ↔ key ∈ X.
#[local] Set Default Proof Using "All".

(** C8: A batch removes the slots its keys condemn and no other, or is abandoned whole; an entry
    the evidence warrants, or has nothing on, stays. *)
Theorem collection_spares_warranted gc_txn batch ev ts_before ts_after out (s : IndexSet T) :
  set_ok s → Forall dead_key_ok batch →
  ∃ out' s', collect_batch iter gc_txn batch ev ts_before ts_after out s = (Ok out', s') ∧ set_ok s' ∧
    (∀ sl, present s' sl ↔
       present s sl ∧ (s' = s ∧ abandoned out' = true ∨ Forall (λ key, condemns ev key sl = false) batch)) ∧
    (∀ e sl, undo_entry_ok e → slot_of e = Some sl → warranted ev e → present s sl → present s' sl).
Proof.
  intros Hs Hb. unfold collect_batch. destruct (negb (ts_before =? ts_after) || _).
  { do 2 eexists. split_and!; [done|done| |done]. cbn. naive_solver. }
  destruct (collect_drops iter iter_ok gc_txn ev default_collection batch s Hs) as (a & s' & He & Hok & _ & Hp).
  assert (∀ sl, existsb (λ key, condemns ev key sl) batch = false ↔ Forall (λ key, condemns ev key sl = false) batch) as Hx.
  { intros sl. rewrite Forall_forall. split.
    - intros Hf key Hin. apply not_true_iff_false. intros Ht. rewrite <- not_true_iff_false, existsb_exists in Hf.
      apply Hf. exists key. split; [by apply list_elem_of_In|done].
    - intros Hf. apply not_true_iff_false. rewrite existsb_exists. intros (key & Hin%list_elem_of_In & Ht).
      by rewrite Hf in Ht. }
  do 2 eexists. split_and!.
  { unfold collect_dead_keys, mbind, St_bind. rewrite He. done. }
  { done. }
  - intros sl. rewrite Hp, <- Hx, Is_true_true, not_true_iff_false. split; [naive_solver|].
    intros [Hpr [[-> _]|?]]; [|done]. by apply Hp in Hpr as [? Hn]; rewrite Is_true_true, not_true_iff_false in Hn.
  - intros e sl Hok' Hsl Hw Hpr. apply Hp. split; [done|]. rewrite Is_true_true, not_true_iff_false. apply Hx.
    rewrite Forall_forall in Hb |- *. intros key Hin. eapply warranted_spared; eauto.
Qed.
End Collect.
