(* ===== verification/PredicateMarkers.v ===== *)
(** * Equality predicates under conflict detection (graphus-cypher record_graph.rs)

    What a statement tells the SSI tracker about the equality predicates it reads and the
    values it writes: a reader buffers a marker that carries the canonical encoding of the
    value it looks for, a writer announces the markers of what it writes, and the tracker
    closes an rw-edge when the two coincide. The tracker ([ssi]) is shared by the seams of all
    transactions and absent on the standalone path. *)
From stdpp Require Import options.
From S2P Require Import Prelude Core VStore Ssi SsiFacts SsiOps SsiSpec Bytes Float64 Compare CypherValue CypherEquality CypherEquivalence CypherOrder KeyCodec KeyTree IndexKinds IndexSet.
Import SsiWf SsiInv.

Open Scope N_scope.

(** ** The reader's side *)




(** ** The writer's side *)







(** ** The markers a transaction holds *)












(** ** The two sides together *)



Section writes.
Context {T : Type} (ix : IndexSet T) (ty p : N) (Hix : rel_equality_marker_possible ix ty p = true).



End writes.





