(* ===== verification/IndexExamples.v ===== *)
(** Concrete runs of the values, keys, indexes and the index set: the applications of their
    theorems, a point that an equality seek misses, and a collection that removes the entry
    of a writer its guards do not see. *)
From S2P Require Import Prelude Core Bytes Float64 Compare CypherValue CypherEquality CypherEquivalence CypherOrder KeyCodec KeyTree IndexKinds IndexProbes IndexEntries IndexSeek IndexComposite IndexSet IndexSlots IndexLedger IndexRollback IndexCollect.
From stdpp Require Import options.

Open Scope N_scope.

Import SortedTree.

Open Scope N_scope.

(** ** Values *)

(** [2^53 + 1], an integer that is not a double, and the double below it. *)
Definition big : Value := VInteger (2 ^ 53 + 1).
Definition big_float : Value := VFloat (i64_as_f64 (2 ^ 53)).
Definition person : Value := VMap [([97], VInteger 1); ([98], VList [VNull; VFloat 0])].

Lemma big_typed : typed big.
Proof. cbn. unfold is_i64. lia. Qed.

Lemma big_float_typed : typed big_float.
Proof. vm_compute. reflexivity. Qed.

Lemma person_typed : typed person.
Proof. cbn. unfold is_i64. repeat constructor; lia. Qed.

Lemma person_distinct : distinct_keys person.
Proof. cbn. repeat constructor; set_solver. Qed.

(** The order on the three values. *)
Lemma orderability_total_preorder_witness :
  cmp_values big_float big = CompOpp (cmp_values big big_float) ∧ cmp_values big person ≠ Lt.
Proof.
  split; [exact (proj1 (orderability_total_preorder big big_float person big_typed big_float_typed person_typed))|].
  vm_compute. discriminate.
Defined.

(** The integer is compared exactly with the double. *)
Lemma numbers_compared_exactly_witness :
  compare_values big big_float = Some Gt ∧ equals big big_float = False3.
Proof.
  destruct (numbers_compared_exactly big big_float big_typed big_float_typed I I) as (He & Hc & _).
  rewrite He, Hc. split; vm_compute; reflexivity.
Defined.

(** Grouping by a map. *)
Lemma grouping_key_laws_witness :
  equivalent person person = true ∧
  hash_value (λ _, 0) person = hash_value (λ _, 0) person.
Proof.
  destruct (grouping_key_laws (λ _, 0) person person person person_typed person_typed person_typed
    person_distinct person_distinct) as (Hr & _ & _ & Hh). split; [exact Hr|exact (Hh Hr)].
Defined.

(** ** Keys *)

Lemma composite_key_order_witness :
  ∃ kx ky, encode_composite [VString [97]; VInteger 1] = KOk kx ∧
    encode_composite [VString [97]; VFloat 0] = KOk ky ∧ bytes_cmp (kx ++ [7]) (ky ++ [9]) = Gt.
Proof.
  destruct (composite_key_order [VString [97]; VInteger 1] [VString [97]; VFloat 0] [7] [9])
    as (kx & ky & Hx & Hy & Hc).
  - repeat constructor; cbn; unfold is_i64; try lia; done.
  - repeat constructor; cbn; unfold is_f64; try lia; done.
  - reflexivity.
  - exists kx, ky. split; [exact Hx|]. split; [exact Hy|]. rewrite Hc. vm_compute. reflexivity.
Defined.

(** ** Seeks *)

(** The integer [2^53 + 1] and the float [2^53], which share the magnitude of their keys, on the
    records 5 and 6 under the property key 7. *)
Definition example_insert (v : Value) (rid : N) (t : SortedTree.t) : SortedTree.t :=
  (property_insert 1 7 v rid t).2.
Definition example_index : SortedTree.t := example_insert big_float 6 (example_insert big 5 []).

Lemma empty_index {A} `{!KeyTail A} : index_ok ([] : SortedTree.t).
Proof. split; [constructor|]. apply map_Forall_empty. Qed.

Lemma example_entry v rid : typed v → indexable v → rid < 2 ^ 64 → entry_ok 7 v rid.
Proof. by repeat split. Qed.

Lemma example_added v rid (t : SortedTree.t) :
  index_ok (A := Value) t → entry_ok 7 v rid → ∃ c, entry_added t 7 v rid c (example_insert v rid t).
Proof.
  intros Ht Hv. unfold example_insert, property_insert, mbind, St_bind, lift.
  rewrite encode_or_err_ok by apply Hv. cbn [tree_insert sorted_tree].
  destruct (insert _ _ t) as [c t'] eqn:Hi. exists c. apply (insert_adds 1); [done..|].
  unfold entry_key. cbn [tree_insert sorted_tree tail_bytes value_tail]. by rewrite Hi.
Qed.

Lemma example_ok : index_ok (A := Value) example_index ∧ stored example_index 7 big 5 ∧ stored example_index 7 big_float 6.
Proof.
  assert (entry_ok 7 big 5) as H5 by (apply example_entry; [apply big_typed|done..]).
  assert (entry_ok 7 big_float 6) as H6 by (apply example_entry; [apply big_float_typed|done..]).
  destruct (example_added big 5 [] empty_index H5) as (c & Ht & _ & Hs).
  destruct (example_added big_float 6 _ Ht H6) as (c' & Ht' & _ & Hs').
  split; [done|]. split; [|apply Hs'; [done|by right]]. apply Hs'; [done|]. left. apply Hs; [done|by right].
Qed.

(** Everything above [2^53]: the integer is found although its key is below that of the float
    probe, and the float, which is not in the range, may be returned too. *)
Lemma range_seek_complete_witness :
  ∃ l t', candidates_range 7 (Some (VFloat (i64_as_f64 (2 ^ 53)), false)) None example_index = (Ok (Some l), t') ∧
    5 ∈ l.
Proof.
  destruct example_ok as (Ht & H5 & _).
  destruct (range_seek_complete 7 (Some (VFloat (i64_as_f64 (2 ^ 53)), false)) None example_index Ht)
    as [_ (l & t' & Hs & _ & _ & _ & Hl)].
  - reflexivity.
  - intros b [= <-]. apply big_float_typed.
  - discriminate.
  - exact I.
  - exists l, t'. split; [exact Hs|]. apply (Hl big 5).
    + apply example_entry; [apply big_typed|exact I|reflexivity].
    + exact H5.
    + vm_compute. exact I.
Defined.

(** The records equal to [2^53], as an integer: the float is found. *)
Lemma equality_seek_complete_witness :
  ∃ l t', candidates_eq 7 (VInteger (2 ^ 53)) example_index = (Ok (Some l), t') ∧ 6 ∈ l.
Proof.
  destruct example_ok as (Ht & _ & H6).
  destruct (equality_seek_complete 7 (VInteger (2 ^ 53)) example_index Ht) as [_ Hk].
  - reflexivity.
  - cbn. unfold is_i64. lia.
  - destruct (Hk I) as (l & t' & Hs & _ & _ & _ & _ & Hl). exists l, t'. split; [exact Hs|].
    apply (Hl big_float 6).
    + apply example_entry; [apply big_float_typed|exact I|reflexivity].
    + exact H6.
    + exact I.
    + exact I.
    + vm_compute. reflexivity.
Defined.

(** A composite index of arity 2 with one entry; the seek gives its number as a float. *)
Definition example_tuple : list Value := [VString [97]; VInteger 1].
Definition example_probe : list Value := [VString [97]; VFloat 0x3FF0000000000000].
Definition example_composite : SortedTree.t := (composite_insert 2 1 7 example_tuple 3 ([] : SortedTree.t)).2.

Lemma example_tuple_ok : tuple_ok 2 example_tuple ∧ tuple_ok 2 example_probe.
Proof. split; split; try done; repeat constructor; cbn; unfold is_i64; lia. Qed.

Lemma example_composite_ok :
  index_ok (KeyTail0 := tuple_tail 2) example_composite ∧
  stored (KeyTail0 := tuple_tail 2) example_composite 7 example_tuple 3.
Proof.
  destruct (composite_index_maintained 2 1 7 example_tuple 3 ([] : SortedTree.t)) as [_ Hm]; [|done| |done|].
  - apply empty_index.
  - repeat constructor; cbn; unfold is_i64; lia.
  - destruct (Hm (proj1 example_tuple_ok) true example_composite) as [Hi _].
    destruct Hi as (Ht & _ & Hs); [reflexivity|]. split; [done|]. apply Hs; [|by right].
    split; [done|]. split; [apply example_tuple_ok|done].
Qed.

Lemma composite_seek_complete_witness :
  ∃ l t', composite_seek_eq 2 7 example_probe example_composite = (Ok l, t') ∧ 3 ∈ l.
Proof.
  destruct example_composite_ok as [Ht H3].
  destruct (composite_seek_complete 2 7 example_probe example_composite Ht) as [_ Hk]; [reflexivity|].
  destruct (Hk (proj2 example_tuple_ok)) as (l & t' & Hs & _ & _ & _ & _ & Hl). exists l, t'. split; [exact Hs|].
  apply (Hl example_tuple 3).
  - split; [reflexivity|]. split; [apply example_tuple_ok|reflexivity].
  - exact H3.
  - repeat constructor.
  - repeat constructor.
  - repeat constructor.
Defined.

(** ** A miss *)

(** A point with a negative zero coordinate is equal in Cypher to the point with a positive
    zero there, but their keys differ and a point has no second probe: the record is indexed,
    its value equals the one sought, and the seek returns nothing. *)
Theorem signed_zero_point_missed :
  let stored_point := VPoint {| crs := Cartesian; coord0 := sign_mask; coord1 := 0; coord2 := 0 |} in
  let sought := VPoint {| crs := Cartesian; coord0 := 0; coord1 := 0; coord2 := 0 |} in
  let t := example_insert stored_point 5 [] in
  index_ok (A := Value) t ∧ stored t 7 stored_point 5 ∧ equals stored_point sought = True3 ∧
  (candidates_eq 7 sought t).1 = Ok (Some []).
Proof.
  intros stored_point sought t.
  assert (entry_ok 7 stored_point 5) as H5 by (apply example_entry; [by repeat split|done..]).
  destruct (example_added stored_point 5 [] empty_index H5) as (c & Ht & _ & Hs).
  split; [done|]. split; [apply Hs; [done|by right]|]. split; vm_compute; reflexivity.
Qed.

(** ** Runs of the index set: the hypotheses of IndexRollback.v and IndexCollect.v, and the window that the guards of a collection leave open *)

Import SortedTree.

Abbreviation Set_ := (IndexSet SortedTree.t).
Abbreviation fresh := ([] : SortedTree.t).

Definition iterate (X : gset (N * N)) : list (N * N) := elements X.

Lemma fresh_ok : tree_ok fresh ∧ content fresh = ∅.
Proof. split; [constructor|done]. Qed.

Lemma iterate_ok X key : key ∈ iterate X ↔ key ∈ X.
Proof. apply elem_of_elements. Qed.

(** One property index, [(1, 2)], and no entries. *)
Definition indexed : Set_ := register_node_property fresh 1 2 (new fresh).

Definition no_slots : Ledger := {| committed := ∅; pending := ∅; stale := ∅ |}.

Definition age (node years : N) : IndexUndoEntry := UNodeProperty 1 2 (VInteger (Z.of_N years)) node.

Lemma indexed_trees l t : tree_at indexed l = Some t → t = fresh.
Proof.
  destruct l as [|key|key|key|key]; cbn; rewrite ?lookup_empty; [by intros [= <-]| |done..].
  destruct (decide (key = (1, 2))) as [->|Hne]; [rewrite lookup_insert_eq|by rewrite lookup_insert_ne].
  by intros [= <-].
Qed.

Lemma indexed_ok : set_ok indexed.
Proof. split_and!; [|done..]. intros l t ->%indexed_trees. apply fresh_ok. Qed.

Lemma indexed_start : reaches fresh iterate indexed no_slots.
Proof.
  apply reaches_start; [apply indexed_ok|done..|]. intros sl. split; [|by intros ?%elem_of_empty].
  intros (t & ->%indexed_trees & [? Hx]). by rewrite (proj2 fresh_ok), lookup_empty in Hx.
Qed.

(** [5] writes an entry and commits; [6] writes another one. *)
Definition step_ (op : IndexOp) (s : Set_) : Set_ := (apply_op fresh iterate op s).2.

Definition written : Set_ := step_ (OInsert (WTxn 5) (age 7 30)) indexed.
Definition committed_ : Set_ := step_ (OCommit 5) written.
Definition second : Set_ := step_ (OInsert (WTxn 6) (age 8 31)) committed_.

Lemma step_reaches s L op :
  reaches fresh iterate s L → allowed L op → reaches fresh iterate (step_ op s) (record s op L).
Proof.
  intros Hr Ha. unfold step_. destruct (apply_op fresh iterate op s) as [r s'] eqn:He.
  by eapply reaches_step.
Qed.

Lemma committed_reached : ∃ L, reaches fresh iterate committed_ L ∧ ∀ t, pend L t = ∅.
Proof.
  eexists. split; [apply step_reaches; [apply step_reaches; [apply indexed_start|]|]|].
  - intros sl t' _ _. unfold pend. cbn. by rewrite lookup_empty.
  - done.
  - intros t. set (w := record indexed _ _). cbn [record]. rewrite pend_delete. case_decide as Hne; [done|].
    assert (pending w !! t = None) as ->; [|done].
    subst w. cbn [record]. case_match; cbn; [by rewrite lookup_empty|].
    rewrite lookup_insert_ne by done. by rewrite lookup_empty.
Qed.

Lemma second_reached : ∃ L, reaches fresh iterate second L.
Proof.
  destruct committed_reached as (L & HL & Hp). eexists. apply step_reaches; [exact HL|].
  intros sl t' _ _. by rewrite Hp.
Qed.

Lemma index_keeps_ledger_witness :
  ∃ L, (∀ op, allowed L op → ∃ s', apply_op fresh iterate op second = (Ok tt, s')) ∧
    ∀ sl, present second sl ↔ sl ∈ IndexLedger.committed L ∨ sl ∈ stale L ∨ ∃ t, sl ∈ pend L t.
Proof.
  destruct second_reached as [L HL]. exists L.
  exact (index_keeps_ledger fresh iterate fresh_ok iterate_ok second L HL).
Defined.

Lemma rollback_removes_own_witness :
  ∃ L s' n, rollback_entries 6 second = (Ok n, s') ∧ n = N.of_nat (length (default [] (txn_index_undo second !! 6))) ∧
    ∀ sl, present s' sl ↔ present second sl ∧ ¬ (sl ∈ pend L 6 ∧ (sl ∉ IndexLedger.committed L) ∧ (sl ∉ stale L)).
Proof.
  destruct second_reached as [L HL]. exists L.
  exact (rollback_removes_own fresh iterate fresh_ok iterate_ok second L 6 HL).
Defined.

(** The run, evaluated: both entries are found, and the rollback of [6] takes its own. *)
Example second_run :
  (seek_node_property_eq 1 2 (VInteger 30) second).1 = Ok (Some [7]) ∧
  (seek_node_property_eq 1 2 (VInteger 31) second).1 = Ok (Some [8]) ∧
  (rollback_entries 6 second).1 = Ok 1 ∧
  let s := (rollback_entries 6 second).2 in
  (seek_node_property_eq 1 2 (VInteger 30) s).1 = Ok (Some [7]) ∧
  (seek_node_property_eq 1 2 (VInteger 31) s).1 = Ok (Some []).
Proof. vm_compute. done. Qed.

(** ** Collections *)

(** The evidence on node 7, whose only version has the value [years]. *)
Definition node_7 (years : Z) (kind : StoreKind) (entity : N) : option DeadKeyEvidence :=
  if decide (kind = Node ∧ entity = 7)
  then Some {| property_versions := [(2, VInteger years)]; ev_labels := [1]; in_use := true |}
  else None.

Lemma collection_spares_warranted_witness :
  ∃ out' s', collect_batch iterate 9 [DeadProperty Node 7 2 (VInteger 30)] (node_7 31) 4 4 default_collection committed_
      = (Ok out', s') ∧ set_ok s' ∧
    (∀ sl, present s' sl ↔ present committed_ sl ∧ (s' = committed_ ∧ abandoned out' = true ∨
       Forall (λ key, condemns (node_7 31) key sl = false) [DeadProperty Node 7 2 (VInteger 30)])) ∧
    (∀ e sl, undo_entry_ok e → slot_of e = Some sl → warranted (node_7 31) e → present committed_ sl → present s' sl).
Proof.
  apply (collection_spares_warranted iterate iterate_ok).
  - destruct committed_reached as (L & HL & _). by eapply (reaches_agrees fresh iterate fresh_ok iterate_ok).
  - by repeat constructor.
Defined.

(** C18: The window. The entry of the value 30 is left from a version that is gone, and the evidence
    is read; then [6] sets the value to 30 again. The entry is already in the tree, so nothing
    is logged for [6]: the collection sees no other writer, the clock has not moved, and the
    entry goes. When [6] commits, a seek does not find the node. *)
Theorem rewritten_entry_collected :
  let s := step_ (OInsert (WTxn 6) (age 7 30)) committed_ in
  let collected := collect_batch iterate 9 [DeadProperty Node 7 2 (VInteger 30)] (node_7 31) 4 4 default_collection s in
  has_other_index_writer_in_flight s 9 = false ∧
  (seek_node_property_eq 1 2 (VInteger 30) s).1 = Ok (Some [7]) ∧
  (∃ out, collected.1 = Ok out ∧ entries_removed out = 1) ∧
  (seek_node_property_eq 1 2 (VInteger 30) (step_ (OCommit 6) collected.2)).1 = Ok (Some []).
Proof. split_and!; [by vm_compute..| |by vm_compute]. eexists. split; [by vm_compute|done]. Qed.
